(* ===== verification/_CoqProject ===== *)
-Q . S2P
Prelude.v
Codec.v
Text.v
Chain.v
ChainSub.v
RuleHash.v
Process.v
Capability.v
RateLimit.v
Governance.v
Gate.v
Ipc.v
Topic.v
Service.v
A2A.v
Delegation.v
Canon.v
Token.v
TokenRuns.v
TokenDemo.v
KeyRotation.v
Identity.v
IdentityJournal.v
IdentityOps.v
IdentityRuns.v
IdentityDemo.v
Overlay.v
OverlaySpec.v
Policy.v
OverlayRuntime.v
OverlayLive.v
OverlayDemo.v
Acl.v
Scoring.v
Tree.v
TreeDiff.v
TreeManager.v
TreeAudit.v
TreeView.v
Mesh.v
Budget.v
UnionFind.v
Causal.v
CausalPath.v
CausalStats.v
Discovery.v
Cluster.v
Delivery.v
CowMemory.v
CowSpec.v
CowFiles.v
CowDemo.v
AnchorProject.v
AnchorUser.v
AnchorRuns.v
AnchorLife.v
AnchorLink.v
AnchorDemo.v
