(* ===== verification/Prelude.v ===== *)
(** * Verification of the WeftOS kernel

    WeftOS runs agents as governed processes.  Its kernel
    (crates/clawft-kernel) keeps a process table, checks capabilities, routes
    typed messages between processes, asks a governance engine before
    consequential actions and records what happened in an append-only hash
    chain.  The resource tree (crates/exo-resource-tree) names everything the
    kernel manages, with a Merkle hash per node and an access-control engine
    over it.  Projects keep a chain of their own and anchor it with the daemon of
    their user (crates/clawft-weave); agents remember in vector memories that
    branch (crates/clawft-cow-memory).  This library models those parts from their Rust sources and
    proves what makes them correct.

    ** Files, in dependency order

    - [Prelude.v]: results and the [?] operator, binary64 arithmetic, JSON
      values, string functions of the Rust standard library, audit requests,
      machine integers, generic lemmas, automation.
    - [Codec.v]: chain.rs, the encodings: little- and big-endian integers,
      hexadecimal, the 64-byte header of a persisted event, payloads, flags.
    - [Text.v]: UTF-8, lines and control characters, as the Rust standard
      library has them, for the files of JSON lines.
    - [Chain.v]: chain.rs, [LocalChain] and [ChainManager]: hashing an event,
      appending (plain, keyed, replicated from a peer), checkpoints, witness
      entries, [verify_integrity], rebuilding from events, tails.
    - [ChainSub.v]: chain_subscribe.rs: subscriptions that replay the past in
      pages and then follow the live feed.
    - [RuleHash.v]: the cell of chain.rs that publishes the hash of the rules
      to readers without a lock, as interleavings of its atomic accesses.
    - [Process.v]: process.rs: the process table (module [PT]), its state
      machine, its audit trail, and concurrent inserts as interleavings of the
      atomic steps of [insert].
    - [Capability.v]: capability.rs: capability records and the checker
      (module [Checker]).
    - [RateLimit.v]: rate_limit.rs: the keyed sliding-window limiter (module
      [RL]) and its reference (module [RLSpec]).
    - [Governance.v]: governance.rs, governance_project.rs, environment.rs:
      rules, effects, principals, requests (module [Request]), the engine
      (module [Engine]), environments.
    - [Gate.v]: gate.rs: the [GateBackend] interface as a type class, with the
      capability, governance and TileZero gates as instances; gated elevation.
    - [Ipc.v]: ipc.rs: messages (module [Msg]), global PIDs, the kernel's IPC
      entry points.
    - [Topic.v], [Service.v]: topic.rs and service.rs: publish/subscribe and
      the service registry (modules [Topics], [Services]).
    - [A2A.v]: a2a.rs: the router between processes, proved against the
      [GateBackend] interface.
    - [Delegation.v]: model.rs, did.rs, delegation.rs: resource ids, DIDs,
      signed delegation certificates; Ed25519 as a type class with its laws.
    - [Canon.v]: canon.rs, project/cert.rs and the anchors of clawft-types:
      canonical JSON, key ids, project certificates, proofs of possession.
    - [Token.v]: token_authority.rs: bearer tokens on the chain and in a
      journal of revocations.  [TokenRuns.v]: runs with crashes and restarts;
      [TokenDemo.v]: concrete ones.
    - [KeyRotation.v]: user_key_rotation.rs: the rotation of the user key.
    - [Identity.v]: project_identity.rs, project_identity_view.rs: which key is
      certified, retired or revoked for which project.  [IdentityJournal.v]:
      project_identity_journal.rs on the bytes of its file.  [IdentityOps.v]:
      the user daemon's operations (project_cert_rpc.rs, project_cert_store.rs
      of clawft-weave).  [IdentityRuns.v], [IdentityDemo.v]: their runs.
    - [AnchorProject.v]: chain_anchor_parent.rs: a project kernel has the heads
      of its chain acknowledged by the user daemon; the link is the class
      [ParentTransport].  [AnchorUser.v]: anchor_rpc.rs, anchor_record.rs,
      anchor_reset.rs and anchor_error.rs of clawft-weave: the daemon's side.
      [AnchorRuns.v]: its invariant; [AnchorLife.v]: with the certificate
      operations, restarts and crashes; [AnchorLink.v]: project and daemon over
      a link that loses messages; [AnchorDemo.v]: concrete runs.
    - [CowMemory.v]: the crate clawft-cow-memory: vector memories that share
      frozen files, with checkpoints, rollback, promotion, branches and forks,
      over the class [Rvf] of vector stores.  [CowSpec.v]: what a memory means;
      [CowFiles.v]: reopening from the manifest, branches in other directories;
      [CowDemo.v]: concrete runs.
    - [Overlay.v]: config/overlay.rs and governance_overlay.rs: how a project
      tightens its parent's rules; [OverlaySpec.v] characterises what is
      accepted.  [Policy.v]: parent_policy.rs: the signed rules of the parent.
      [OverlayRuntime.v]: governance_runtime.rs and its trust; [OverlayLive.v]
      and [OverlayDemo.v]: boots, reloads and updates in sequence.
    - [Acl.v]: consent.rs, permission.rs: consent policies, ACL policies, the
      decision cache (module [Cache]), the tree-walking checker.
    - [Scoring.v]: scoring.rs: scoring vectors with binary32 arithmetic.
    - [Tree.v]: tree.rs, merkle.rs, boot.rs: the resource tree, its hashes
      and its inclusion proofs.
    - [TreeDiff.v]: merkle.rs: the difference of two trees, by a walk over the
      subtrees whose hashes differ.
    - [TreeManager.v]: tree_manager.rs, mutation.rs, mesh_tree.rs (module [Tm]):
      the facade that keeps the tree, the mutation log and the chain in step;
      remote events, synchronisation, tools; the code of other crates as the
      class [TreeEnv].  [TreeAudit.v]: what its log, its signatures and its
      synchronisation are worth.
    - [TreeView.v]: tree_view.rs: what a view lets an agent read and write.
    - [Mesh.v]: mesh_framing.rs, mesh_dedup.rs, mesh_heartbeat.rs: wire frames,
      the replay filter, the failure detector (modules [Peer], [Tracker]).
    - [Budget.v]: refusal_budget.rs and the restart tracker of supervisor.rs
      (modules [Refusal], [Restart]), both fixed windows.
    - [UnionFind.v]: the component index of causal.rs: union by size with path
      halving, and its refinement of an equivalence.
    - [Causal.v]: causal.rs: nodes, typed edges kept in both directions, the
      gated clear, the audit requests, snapshots.
    - [CausalPath.v]: causal.rs: traversals, shortest paths, causal chains and
      connected components over that graph.
    - [CausalStats.v]: causal.rs: change coupling, volatility and triage.
    - [Discovery.v]: mesh_kad.rs, mesh_discovery.rs, mesh_bootstrap.rs and
      mesh_mdns.rs: keys and XOR distance, the routing table, namespaced
      records, the backends as instances of the class [DiscoveryBackend], the
      coordinator.
    - [Cluster.v]: cluster.rs and the host list of revocation.rs: membership
      (module [Members]), events from the mesh, reaping, the peers file, the
      pairing gate.
    - [Delivery.v]: dead_letter.rs, reliable_queue.rs, timer.rs.

    ** How the code is modelled

    Unsigned integers are [N], with wrap-around or saturation written out where
    a value can leave its width; signed ones are [Z].  [f64] and [f32] are
    IEEE 754 binary64 and binary32 with round-to-nearest-even, computed by the
    Standard Library's executable specification.  Strings are byte strings in
    UTF-8.  A [HashMap] or [DashMap] is a finite map; where the code's result
    could depend on the iteration order, the order is an argument and the
    theorems hold for every order.  A method that changes [self] returns the
    new state, next to the audit requests it makes and its result.  The
    reads of the clock are arguments.  A loop that is not structural carries
    fuel, and the fuel is proved sufficient: an id has fewer ancestors than
    bytes ([elem_of_lineage]), a node fewer than the tree has nodes
    ([ancestors_path]), a subscription fills a page in at most the events left
    to replay, a search of the causal graph takes each node from its queue
    once, the root of a union-find tree is nearer than the tree has members,
    and the difference of two trees takes each of their paths once.

    Code outside the repository is a parameter: SHAKE-256 and the JSON
    serializer ([Chain.v], [Tree.v]), Ed25519 and RFC 3339 rendering (class
    [Ed25519] with [Ed25519Laws]), the learned effect scorer, the TileZero
    service, mesh peers, [f64::powi], the learned retry policy and Rust's
    [Debug] rendering; SHA-256, timestamps and strict verification (class
    [CanonEnv] with [CanonEnvLaws]); the JSON of tokens, rotation records,
    certificates and journal lines (classes [TokenEnv], [RotationEnv],
    [IdentityEnv], [JournalEnv], [AnchorSerde]); the vector store of the branchable
    memory (class [Rvf] with [RvfLaws]); the parsers and clocks of the overlays
    (classes [OverlayEnv], [PolicyEnv], [TrustEnv]).  Their laws are classes of
    their own, each with a concrete instance in which the theorems are
    applied.  Files are their bytes: a write can be cut short at any byte, a
    crash loses what was not saved, and a run is a sequence of such steps.  The configuration is the
    default feature set (native, exochain, cluster, tilezero, ecc, mesh); the
    restart tracker and [Delivery.v] belong to the feature os-patterns.

    ** What the theorems show

    - The chain.  Every sequence of appends keeps it valid
      ([chain_stays_valid]); two chains that verify and end in the same hash
      commit to the same events unless two of the events' own byte strings
      collide under the digest ([tamper_evident]); replication accepts exactly the next correct event
      and rejects each defect with its own error ([append_signed_spec]), so a
      replica, also one loaded from events ([chain_ok]), that applies a peer's
      tail becomes equal to it ([catch_up]);
      keyed retries do not duplicate ([idempotent_append]); a subscriber sees
      each matching event once and in order ([subscription_exact]).
    - Processes.  The table invariant, fresh increasing PIDs, final exits, and
      an audit trail from which the live table can be rebuilt.  Concurrent
      inserts never share a PID; they can exceed the capacity by the number of
      racing inserters, and do ([concurrent_inserts], [capacity_race]).
    - Messages.  A send appends the message once to exactly the inboxes it
      addresses within the sender's scope ([send_delivers_exactly]) and says
      truthfully whether it did ([direct_send_reported]); inboxes stay bounded;
      a request is answered at most once; topic routing refines a relation
      between processes and topics.
    - Authority.  Tool access is characterised on every branch; browser agents
      are confined; the limiter refines its reference and keeps its quota in
      every window; governance rules only tighten, whatever their order;
      attribution cannot be forged; every gate decision is audited.
    - Resources.  The tree stays a tree; hashes are right after a full
      recomputation in any order, and the incremental update agrees with it;
      inclusion proofs verify.  An access decision is characterised exactly,
      with and without the cache, needs a grant, and revocation takes effect at
      once in spite of the cache.
    - Mesh and budgets.  Reading a frame inverts writing it and accepts
      nothing else ([frame_round_trip]); a replayed id is rejected for its time
      to live ([dedup_rejects_replay]); the failure detector's verdict is a
      function of the misses since the last sign of life
      ([heartbeat_verdict]); chained refusals and restarts are bounded in every
      window ([refusals_bounded], [restarts_bounded]).
    - The tree manager.  Through local changes, remote events and
      synchronisations every node keeps an inclusion proof that verifies
      ([manager_proofs_verify]); every resource leads to the chain event that
      created it ([resources_traced]); the mutation log rebuilds the tree
      ([log_rebuilds_tree]) and its events verify under the node's key
      ([log_events_verify]); the difference of two trees is exact
      ([diff_exact]); the history of a tool is complete
      ([tool_versions_recorded]); a view opens exactly its roots ([view_exact]).
    - The causal graph.  Every operation keeps the two directions, the node
      set and the component index consistent ([causal_graph_consistent]); a
      snapshot restores the graph ([snapshot_round_trip]); traversal visits
      exactly the nodes within the depth ([traversal_exact]), the path search
      returns a shortest path between known nodes when there is one
      ([shortest_paths]) and the
      index answers as the search does ([components_agree]); coupling and
      batched volatility equal their definitions ([coupling_exact],
      [volatility_batched_exact]).
    - Discovery and cluster.  A bucket is the position of the highest differing
      bit ([bucket_is_highest_bit]), a lookup returns the closest entries
      ([closest_exact]), the table says what its history says
      ([kad_table_exact]); namespaced keys parse back and never meet across
      namespaces ([dht_key_round_trip], [namespaces_disjoint]); the coordinator
      reports a peer once ([coordinator_reports_once]).  Membership stays
      consistent ([cluster_consistent]), a node that no operator added and no
      join verified is only ever listed as unverified
      ([unverified_needs_vouching]), the peers file restores
      the members ([restart_round_trip]), reaping does what its two ages
      say ([stale_reap_exact]), and a peer is let in exactly when the pairing
      window is open or it was paired before ([pairing_exact]).
    - Delivery.  The dead-letter queue keeps the newest letters
      ([dlq_keeps_newest]); the reliable queue tracks exactly the registered
      messages with their attempts and deadlines, and each leaves it by an
      acknowledgement, a cancellation, a later registration of its id or its
      death ([reliable_accounts]); a timer fires when due, a one-shot at
      most once ([timers_exact]).
    - Tokens.  The table in memory is the one a restart rebuilds
      ([live_table_is_rebuilt]); a revoked token stays revoked through crashes
      and the pruning of the journal ([revoked_stays_revoked]); no token
      outlives its bound ([tokens_short_lived]); the journal cannot mint one
      ([journal_cannot_mint]).
    - Project identities.  A key belongs to one project and a project has one
      key ([project_keys_exclusive]); a revoked key never returns and its project
      gets no other ([revoked_key_never_returns], [revoke_is_terminal],
      [revoked_key_stays_out]), in runs without rotation of the user key and
      repair of the journal; a rekey takes effect even
      when the chain loses it ([rekey_takes_effect]); since its last repair the
      journal forgets nothing it acknowledged and invents nothing
      ([journal_never_forgets],
      [journal_append_atomic], [salvage_recovers]); a repair keeps every binding
      ([export_restores]); the order of the sources is irrelevant
      ([view_order_free]).  A rotation log is tamper evident and keeps what the
      old keys sealed ([rotation_tamper_evident], [rotation_keeps_history]).
    - Anchors.  Whatever the link answers, a project records only heads of its
      own chain, in one gapless line, unless a crash loses the event a pending
      statement is about ([recorded_anchors_own]); the user daemon keeps one
      line of accepted statements per project through crashes, restarts and
      rekeys, as long as its record writes succeed ([anchors_survive]); after an
      outage in which an answer was lost, one call brings both sides back in
      step ([anchor_catches_up]).
    - Branchable memory.  Every operation that succeeds does what it does to a
      stack of finite maps ([cow_refines]); a query returns the visible entries
      by distance ([query_exact]); a memory created here, paused and opened
      again any number of times is found as it was left ([pause_reopens]); its
      branches and forks start from what it shows and leave its files alone
      ([branch_isolated]).
    - Overlays.  A project can only tighten its parent's rules
      ([overlay_only_tightens], [project_never_looser]), never returns to an
      older policy ([no_rollback]), and an overlay is accepted exactly when it
      names no looser limit ([merge_accepts_exactly]); a reader of the rule hash
      never sees a torn one ([reader_never_torn]).
    - Limits.  Some theorems record where the code is weaker than its
      documentation: forged chain links ([chain_escalation]), deferred
      elevations ([elevation_deferred_granted]), stale cached decisions
      ([cache_outlives_policy]), unbound proof paths ([proof_path_unbound]),
      missed dirty ancestors ([dirty_root_missed]), ambiguous separators
      ([separator_collision]), unchecked remote sends
      ([remote_send_unchecked]), restart bursts ([restart_burst]), a peer that
      left and is made active by a late event ([left_then_alive_activates]), a
      peer record that hides a service record ([peer_shadows_service]), payloads
      nobody signed ([sync_payload_unverified]), values a signature does not
      cover ([signature_ignores_value]), old writes accepted again
      ([older_write_replayed]), agents with a stale hash ([agent_hash_stale]),
      renamings without a trace ([rename_not_seen]), tools that cannot be found
      ([dotted_tool_unreachable]), views rooted elsewhere
      ([view_leaks_to_longer_names], [view_misses_own_node]), a tag that escapes
      the hardening of an overlay ([approval_tag_softens]), exports that go back
      or are refused ([export_version_regresses], [export_of_padded_id_refused]),
      a token revived by a clock set back ([clock_set_back_revives]), a retired
      user key that returns ([retired_key_returns]), a repair that forgets a
      retirement ([export_forgets_retirement]), an acknowledged anchor that a
      crash loses ([acked_not_durable]), an anchor recorded about an event that a
      crash lost ([crash_records_lost_event]), a revoked certificate in a chain
      ([chain_ignores_revocation]), a causal chain of a missing node
      ([missing_node_traced]), old versions of an entry in a query
      ([stale_version_returned]), entries a promotion hides
      ([promotion_hides_readded]) or loses ([reopened_promotion_loses]), infinite
      components ([infinite_hides_nearest]), branches that do not open again
      ([branch_not_reopened]) and grandchildren that see later writes
      ([grandchild_sees_later]).

    ** Not modelled

    File and RVF persistence of the chain, attestations and dual signatures;
    the asynchronous lifecycle of services; the rankings of the tree manager by
    similarity and score; the supervisor's asynchronous loops; clock
    synchronisation and transports of the mesh; key files, nonces and sessions
    of the project daemons; communities, spectral analysis and prediction over the causal
    graph, vector and spatial indexes; workloads, containers and applications;
    the agent framework, command line and user interfaces.  The pure parts among
    them, in this order, are the next candidates: the supervisor's decisions,
    cron, swarm pieces, rule distribution.  The others are I/O around third-party
    services. *)

From Stdlib Require Export NArith ZArith Lia Strings.Byte Strings.Ascii.
From Stdlib Require Import Floats.SpecFloat.
From Stdlib Require Strings.String.
From stdpp Require Export base gmap strings list fin_maps pretty sorting.

(** ** Results

    Rust's [Result<T, E>]. *)

Inductive result (T E : Type) : Type :=
| Ok (t : T)
| Err (e : E).
Arguments Ok {T E} t.
Arguments Err {T E} e.

Definition is_ok {T E} (r : result T E) : bool :=
  match r with Ok _ => true | Err _ => false end.

(** [Option::ok_or] *)
Definition ok_or {T E} (o : option T) (e : E) : result T E :=
  match o with Some x => Ok x | None => Err e end.

(** An early [return Err(e)] under a condition *)
Definition throw_if {E} (c : bool) (e : E) : result unit E := if c then Err e else Ok tt.

Declare Scope rust_scope.
Delimit Scope rust_scope with rust.
Open Scope rust_scope.

(** The [?] operator on a result that carries no state. *)
Notation "'let?' x := c 'in' k" :=
  (match c with Ok x => k | Err e => Err e end)
  (at level 200, x name, c at level 100, k at level 200) : rust_scope.

(** ** Floating point

    [f64] is IEEE 754 binary64 with round-to-nearest-even, computed by the
    Standard Library's executable specification. *)

Module F64.

Definition f64 : Type := spec_float.
Definition of_Z (z : Z) : f64 := binary_normalize 53 1024 z 0 false.
Definition add : f64 -> f64 -> f64 := SFadd 53 1024.
Definition mul : f64 -> f64 -> f64 := SFmul 53 1024.
Definition div : f64 -> f64 -> f64 := SFdiv 53 1024.
Definition sqrt : f64 -> f64 := SFsqrt 53 1024.
Definition ltb : f64 -> f64 -> bool := SFltb.
Definition leb : f64 -> f64 -> bool := SFleb.

(** The literal [m / 10^d]: numerator and denominator are exact, so the
    division rounds as the literal does. *)
Definition lit (m : Z) (d : nat) : f64 := div (of_Z m) (of_Z (10 ^ Z.of_nat d)).

Definition is_finite (f : f64) : bool :=
  match f with S754_zero _ | S754_finite _ _ _ => true | _ => false end.

(** [m * 2^e] in hundredths, rounded half to even. *)
Definition hundredths (m : positive) (e : Z) : Z :=
  if (0 <=? e)%Z then (Zpos m * 2 ^ e * 100)%Z
  else
    let n := (Zpos m * 100)%Z in
    let d := (2 ^ (- e))%Z in
    let q := (n / d)%Z in
    let r := (2 * (n mod d))%Z in
    if (d <? r)%Z || ((r =? d)%Z && Z.odd q) then (q + 1)%Z else q.

(** [format!("{:.2}", f)] *)
Definition fmt2 (f : f64) : string :=
  let sign (s : bool) := if s then "-" else "" in
  match f with
  | S754_zero s => sign s +:+ "0.00"
  | S754_infinity s => sign s +:+ "inf"
  | S754_nan => "NaN"
  | S754_finite s m e =>
      let h := hundredths m e in
      let c := Z.to_N (h mod 100) in
      sign s +:+ pretty (Z.to_N (h / 100)) +:+ "."
        +:+ (if (c <? 10)%N then "0" else "") +:+ pretty c
  end.

(** Case analysis on the comparisons of two floats *)
Ltac sf_cases :=
  repeat (cbn; match goal with
  | |- context [Z.compare ?x ?y] => destruct (Z.compare_spec x y); subst
  | |- context [Pos.compare_cont Eq ?x ?y] =>
      change (Pos.compare_cont Eq x y) with (Pos.compare x y); destruct (Pos.compare_spec x y); subst
  end); cbn; try done; try lia.

Lemma leb_ltb_trans a b c : leb a b = true -> ltb b c = true -> ltb a c = true.
Proof.
  unfold leb, ltb, SFleb, SFltb.
  destruct a as [[]|[]| |[] m1 e1], b as [[]|[]| |[] m2 e2], c as [[]|[]| |[] m3 e3]; cbn; try done; sf_cases.
Qed.

Lemma not_ltb_leb a b :
  is_finite a = true -> is_finite b = true -> ltb a b = false -> leb b a = true.
Proof.
  unfold leb, ltb, SFleb, SFltb.
  destruct a as [[]|[]| |[] m1 e1], b as [[]|[]| |[] m2 e2]; cbn; try done; intros _ _; sf_cases.
Qed.

End F64.
Export F64 (f64).

(** ** JSON values

    The data built by [serde_json::json!] literals.  Objects keep the order
    of their literal.  The serializer is third-party code: the definitions
    that need it take it as an argument. *)

Inductive Json : Type :=
| JNull
| JBool (b : bool)
| JNum (n : Z)
| JFloat (f : f64)
| JStr (s : string)
| JArr (l : list Json)
| JObj (l : list (string * Json)).

(** [serde_json] renders an [Option<u64>] as a number or as [null]. *)
Definition json_opt_num (o : option N) : Json :=
  match o with Some n => JNum (Z.of_N n) | None => JNull end.

Definition json_num (n : N) : Json := JNum (Z.of_N n).

(** A number that is not finite becomes [null]. *)
Definition json_f64 (f : f64) : Json := if F64.is_finite f then JFloat f else JNull.

Definition json_opt_str (o : option string) : Json :=
  match o with Some s => JStr s | None => JNull end.

(** [Value::as_str] *)
Definition json_as_str (j : Json) : option string :=
  match j with JStr s => Some s | _ => None end.

(** [Value::get] on an object, [Value::as_u64], and [map.insert] on an object
    (an existing key keeps its place). *)
Fixpoint assoc_get (k : string) (l : list (string * Json)) : option Json :=
  match l with
  | [] => None
  | (k', v) :: l => if String.eqb k k' then Some v else assoc_get k l
  end.

Definition json_get (k : string) (j : Json) : option Json :=
  match j with JObj l => assoc_get k l | _ => None end.

Definition json_as_u64 (j : Json) : option N :=
  match j with
  | JNum n => if (0 <=? n)%Z && (n <? 18446744073709551616)%Z then Some (Z.to_N n) else None
  | _ => None
  end.

Fixpoint assoc_set (k : string) (v : Json) (l : list (string * Json)) : list (string * Json) :=
  match l with
  | [] => [(k, v)]
  | (k', v') :: l => if String.eqb k k' then (k', v) :: l else (k', v') :: assoc_set k v l
  end.

Definition json_set (k : string) (v : Json) (j : Json) : Json :=
  match j with JObj l => JObj (assoc_set k v l) | _ => j end.

(** ** Strings *)

(** [str::strip_prefix] *)
Fixpoint strip_prefix (p s : string) : option string :=
  match p, s with
  | EmptyString, _ => Some s
  | String a p, String b s => if Ascii.eqb a b then strip_prefix p s else None
  | String _ _, EmptyString => None
  end.

(** [str::strip_suffix] with a character *)
Fixpoint strip_suffix_char (c : Ascii.ascii) (s : string) : option string :=
  match s with
  | EmptyString => None
  | String a EmptyString => if Ascii.eqb a c then Some EmptyString else None
  | String a s => String a <$> strip_suffix_char c s
  end.

(** [str::contains] *)
Fixpoint contains (needle s : string) : bool :=
  String.prefix needle s ||
  match s with EmptyString => false | String _ s => contains needle s end.

(** [str::to_lowercase] on the bytes that can become ASCII: the ASCII capitals,
    U+212A (the Kelvin sign) and U+0130.  Every other scalar has a lowercase
    without ASCII bytes and is kept as it is, which a search for an ASCII word
    cannot tell apart. *)
Definition ascii_lower (a : Ascii.ascii) : Ascii.ascii :=
  let n := Ascii.N_of_ascii a in
  if (65 <=? n)%N && (n <=? 90)%N then Ascii.ascii_of_N (n + 32) else a.

Fixpoint to_lowercase (s : string) : string :=
  match s with
  | String "226"%char (String "132"%char (String "170"%char s)) => String "k"%char (to_lowercase s)
  | String "196"%char (String "176"%char s) => String "i"%char (String "204"%char (String "135"%char (to_lowercase s)))
  | String a s => String (ascii_lower a) (to_lowercase s)
  | EmptyString => EmptyString
  end.

(** [str::trim]: the encodings of the Unicode white space. *)
Definition whitespace : list string :=
  map String.string_of_list_byte
       ([[x09]; [x0a]; [x0b]; [x0c]; [x0d]; [x20]; [xc2; x85]; [xc2; xa0]; [xe1; x9a; x80]; [xe2; x80; xa8]; [xe2; x80; xa9];
         [xe2; x80; xaf]; [xe2; x81; x9f]; [xe3; x80; x80]]
        ++ map (fun b => [xe2; x80; b]) [x80; x81; x82; x83; x84; x85; x86; x87; x88; x89; x8a]).

Fixpoint strip_any (ps : list string) (s : string) : option string :=
  match ps with
  | [] => None
  | p :: ps => match strip_prefix p s with Some s' => Some s' | None => strip_any ps s end
  end.

Fixpoint trim_front (ps : list string) (fuel : nat) (s : string) : string :=
  match fuel with
  | O => s
  | S fuel => match strip_any ps s with Some s' => trim_front ps fuel s' | None => s end
  end.

Definition rev_string (s : string) : string :=
  String.string_of_list_byte (rev (String.list_byte_of_string s)).

Definition trim (s : string) : string :=
  let s := trim_front whitespace (String.length s) s in
  rev_string (trim_front (map rev_string whitespace) (String.length s) (rev_string s)).

Lemma rev_string_involutive s : rev_string (rev_string s) = s.
Proof.
  unfold rev_string. rewrite String.list_byte_of_string_of_list_byte, rev_involutive.
  apply String.string_of_list_byte_of_string.
Qed.

(** A byte that starts none of the prefixes stops the trimming. *)
Definition no_lead (ps : list string) (a : Ascii.ascii) : bool :=
  forallb (fun p => match p with String b _ => negb (Ascii.eqb b a) | EmptyString => false end) ps.

Lemma strip_any_no_lead ps a s : no_lead ps a = true -> strip_any ps (String a s) = None.
Proof.
  induction ps as [|p ps IH]; [done|]. cbn [no_lead forallb strip_any].
  intros [Hp Hps]%andb_prop. destruct p as [|b p]; [done|]. cbn [strip_prefix].
  destruct (Ascii.eqb b a); [done|]. by apply IH.
Qed.

Lemma trim_id s :
  strip_any whitespace s = None -> strip_any (map rev_string whitespace) (rev_string s) = None ->
  trim s = s.
Proof.
  intros H1 H2. unfold trim.
  assert (forall ps fuel s, strip_any ps s = None -> trim_front ps fuel s = s) as Hid.
  { intros ps fuel t Ht. destruct fuel; [done|]. cbn [trim_front]. by rewrite Ht. }
  rewrite (Hid _ _ s) by done. rewrite Hid by done. apply rev_string_involutive.
Qed.

(** [str::starts_with] *)
Abbreviation starts_with p s := (String.prefix p s).

Lemma string_app_assoc (a b c : string) : (a +:+ b) +:+ c = a +:+ (b +:+ c).
Proof.
  induction a as [|x a IH]; [done|].
  change (String x ((a +:+ b) +:+ c) = String x (a +:+ (b +:+ c))). by rewrite IH.
Qed.

Lemma prefix_true_app p s : String.prefix p s = true -> exists rest, s = p +:+ rest.
Proof.
  revert s. induction p as [|a p IH]; intros s H; [by exists s|].
  destruct s as [|b s]; [done|]. cbn in H.
  destruct (Ascii.ascii_dec a b) as [->|]; [|done].
  destruct (IH s H) as [rest ->]. by exists rest.
Qed.

Lemma prefix_app p s : String.prefix p (p +:+ s) = true.
Proof.
  induction p as [|a p IH]; [by destruct s|].
  change (String a p +:+ s) with (String a (p +:+ s)). cbn [String.prefix]. destruct (Ascii.ascii_dec a a); done.
Qed.

(** ** Audit requests

    A call [ChainManager::append(source, kind, payload)] made by a kernel
    component that holds an optional chain manager.  Components return the
    requests they make, in order; [Chain.v] runs them. *)

Record AuditReq := mkAudit {
  ar_source : string;
  ar_kind : string;
  ar_payload : option Json;
}.

(** ** Machine integers

    Unsigned integers are [N]; arithmetic that can leave the width is written
    with one of these (release builds of the workspace wrap). *)

Definition u8_mod : N := 256.
Definition u16_mod : N := 65536.
Definition u32_mod : N := 4294967296.
Definition u64_mod : N := 18446744073709551616.

Definition wrap_add64 (a b : N) : N := ((a + b) mod u64_mod)%N.
Definition wrap_add32 (a b : N) : N := ((a + b) mod u32_mod)%N.
Definition wrap_sub64 (a b : N) : N := ((a + (u64_mod - b)) mod u64_mod)%N.
Definition sat_add64 (a b : N) : N := N.min (a + b) (u64_mod - 1).
Definition sat_mul64 (a b : N) : N := N.min (a * b) (u64_mod - 1).

Lemma wrap_add64_small a b : (a + b < u64_mod)%N -> wrap_add64 a b = (a + b)%N.
Proof. intros H. unfold wrap_add64. by apply N.mod_small. Qed.

Lemma wrap_add32_small a b : (a + b < u32_mod)%N -> wrap_add32 a b = (a + b)%N.
Proof. intros H. unfold wrap_add32. by apply N.mod_small. Qed.

Lemma wrap_sub64_small a b : (b <= a)%N -> (a < u64_mod)%N -> wrap_sub64 a b = (a - b)%N.
Proof.
  intros H1 H2. unfold wrap_sub64. replace (a + (u64_mod - b))%N with (a - b + 1 * u64_mod)%N by lia.
  rewrite N.Div0.mod_add. apply N.mod_small. lia.
Qed.

Lemma sat_add64_small a b : (a + b < u64_mod)%N -> sat_add64 a b = (a + b)%N.
Proof. unfold sat_add64. lia. Qed.

(** ** Sizes of collections, as [usize] *)

Definition lenN {A} (l : list A) : N := N.of_nat (length l).

Lemma lenN_app {A} (l k : list A) : lenN (l ++ k) = (lenN l + lenN k)%N.
Proof. unfold lenN. rewrite length_app. lia. Qed.

Definition sizeN {V} (m : gmap N V) : N := N.of_nat (size m).

(** ** Generic lemmas on lists *)

Section ListLemmas.
Context {A : Type} (P : A -> Prop) `{Pdec : !forall x, Decision (P x)}.
Implicit Types (l : list A).

Lemma list_filter_none l : (forall x, x ∈ l -> ~ P x) -> filter P l = [].
Proof.
  induction l as [|x l IH]; intros H; [done|].
  rewrite filter_cons_False by (apply H; left). apply IH. intros y Hy. apply H. by right.
Qed.

Lemma list_filter_all l : (forall x, x ∈ l -> P x) -> filter P l = l.
Proof.
  induction l as [|x l IH]; intros H; [done|].
  rewrite filter_cons_True by (apply H; left). f_equal. apply IH. intros y Hy. apply H. by right.
Qed.

Lemma Forall_filter_sub (Q : A -> Prop) l : Forall Q l -> Forall Q (filter P l).
Proof.
  rewrite !Forall_forall. intros H x [_ Hx]%list_elem_of_filter. auto.
Qed.

Lemma StronglySorted_filter R l : StronglySorted R l -> StronglySorted R (filter P l).
Proof.
  induction 1 as [|x l Hs IH Hall]; [constructor|].
  rewrite filter_cons. case_decide; [|done]. constructor; [done|].
  by apply Forall_filter_sub.
Qed.

Lemma list_filter_iff_elem (Q : A -> Prop) `{Qdec : !forall x, Decision (Q x)} l :
  (forall x, x ∈ l -> P x <-> Q x) -> filter P l = filter Q l.
Proof.
  induction l as [|x l IH]; intros H; [done|]. rewrite !filter_cons.
  assert (filter P l = filter Q l) as -> by (apply IH; intros y Hy; apply H; by right).
  specialize (H x (list_elem_of_here _ _)). repeat case_decide; tauto.
Qed.

Lemma submseteq_filter l k : l ⊆+ k -> filter P l ⊆+ filter P k.
Proof.
  intros [k' Hk]%submseteq_Permutation. rewrite Hk, filter_app.
  by apply submseteq_inserts_r.
Qed.

Lemma filter_length_le l : (length (filter P l) <= length l)%nat.
Proof.
  induction l as [|x l IH]; [done|]. rewrite filter_cons. case_decide; cbn; lia.
Qed.

Lemma NoDup_fmap_filter {B} (f : A -> B) l : NoDup (f <$> l) -> NoDup (f <$> filter P l).
Proof.
  induction l as [|x l IH]; [done|]. rewrite fmap_cons. intros [Hn Hd]%NoDup_cons. rewrite filter_cons.
  case_decide; [|by apply IH]. rewrite fmap_cons. apply NoDup_cons. split; [|by apply IH].
  intros (y & Hy & [_ Hin]%list_elem_of_filter)%list_elem_of_fmap. apply Hn. rewrite Hy. by apply list_elem_of_fmap_2.
Qed.

(** A filter that drops nothing keeps every element. *)
Lemma lenN_filter_all l x : (lenN l - lenN (filter P l) = 0)%N -> x ∈ l -> P x.
Proof.
  unfold lenN. induction l as [|y l IH]; [by intros _ ?%not_elem_of_nil|].
  rewrite filter_cons. pose proof (filter_length_le l) as Hle. case_decide; cbn [length]; [|lia].
  intros Hn [->|Hx]%elem_of_cons; [done|]. apply IH; [lia|done].
Qed.

End ListLemmas.

(** ** Generic lemmas on maps *)

Section MapLemmas.
Context {K V : Type} `{Countable K}.
Implicit Types (m : gmap K V).

Lemma elem_of_map_keys m k : k ∈ (map_to_list m).*1 <-> is_Some (m !! k).
Proof.
  rewrite list_elem_of_fmap. split.
  - intros ([j v] & -> & Hj%elem_of_map_to_list). by eexists.
  - intros [v Hv]. exists (k, v). split; [done|]. by apply elem_of_map_to_list.
Qed.

Lemma size_insert_le m k v : size (<[k:=v]> m) <= S (size m).
Proof.
  destruct (m !! k) eqn:E.
  - rewrite map_size_insert_Some by eauto. lia.
  - rewrite map_size_insert_None by done. lia.
Qed.

Lemma size_delete_le m k : size (delete k m) <= size m.
Proof.
  destruct (m !! k) eqn:E.
  - rewrite map_size_delete_Some by eauto. lia.
  - rewrite delete_id by done. lia.
Qed.

End MapLemmas.

(** ** Automation *)

Create HintDb weft.

#[export] Hint Rewrite @lookup_insert_eq @lookup_delete_eq @lookup_empty : weft.

(** Case analysis on every [match] and [if], closing the contradictory and
    the trivial cases. *)
Ltac cases := repeat (case_match; simplify_eq/=); try done.

(** Evaluation of a closed goal by a cast, without reading the value back *)
Ltac by_vm :=
  match goal with
  | |- ?a = ?b => exact (@eq_refl _ b <: a = b)
  | |- N.lt ?a ?b => exact (@eq_refl _ Lt <: (a ?= b)%N = Lt)
  end.

(** Unfold the components of a tuple equation. *)
Ltac inv_tuple H := injection H; clear H; intros; subst.

Lemma throw_if_ok {E} (c : bool) (e : E) u : throw_if c e = Ok u -> c = false.
Proof. by destruct c. Qed.

Lemma ok_or_ok {T E} (o : option T) (e : E) t : ok_or o e = Ok t -> o = Some t.
Proof. destruct o; cbn; congruence. Qed.

(** Walks through the [?] steps of a computation that returned [Ok]. *)
Ltac inv_ok :=
  repeat match goal with
  | H : ok_or _ _ = Ok _ |- _ => apply ok_or_ok in H
  | H : throw_if _ _ = Ok _ |- _ => apply throw_if_ok in H
  | H : Ok _ = Ok _ |- _ => injection H; clear H; intros
  | H : Err _ = Ok _ |- _ => discriminate H
  | H : match ?c with Ok _ => _ | Err _ => Err _ end = Ok _ |- _ =>
      let E := fresh "Hok" in destruct c eqn:E; [|discriminate H]
  end.
