(* ===== verification/Codec.v ===== *)
(** Byte encodings of crates/clawft-kernel/src/chain.rs: fixed-width
    little- and big-endian integers, hexadecimal, and the 64-byte header that
    every persisted chain event starts with. *)

From Stdlib Require Import Strings.String.
From S2P Require Import Prelude.
Open Scope N_scope.

Abbreviation bytes := (list byte).

#[global] Instance byte_eq_dec : EqDecision byte := Byte.byte_eq_dec.

(** The bytes of a string. *)
Definition str_bytes (s : string) : bytes := list_byte_of_string s.

Lemma str_bytes_inj s t : str_bytes s = str_bytes t -> s = t.
Proof.
  unfold str_bytes. intros H.
  rewrite <- (string_of_list_byte_of_string s), <- (string_of_list_byte_of_string t).
  by rewrite H.
Qed.

(** ** The order of [Ord] on byte slices and on strings *)

Fixpoint bytes_leb (a b : bytes) : bool :=
  match a, b with
  | [], _ => true
  | _ :: _, [] => false
  | x :: a, y :: b =>
      (Byte.to_N x <? Byte.to_N y) || ((Byte.to_N x =? Byte.to_N y) && bytes_leb a b)
  end.

Definition str_leb (a b : string) : bool := bytes_leb (str_bytes a) (str_bytes b).

(** [sort] on strings *)
Definition sort_keys (l : list string) : list string := merge_sort (fun a b => Is_true (str_leb a b)) l.

Lemma bytes_leb_refl a : bytes_leb a a = true.
Proof. induction a as [|x a IH]; [done|]. cbn. by rewrite N.eqb_refl, IH, orb_true_r. Qed.

Lemma bytes_leb_total a b : bytes_leb a b = true \/ bytes_leb b a = true.
Proof.
  revert b. induction a as [|x a IH]; intros [|y b]; cbn; auto.
  destruct (N.lt_trichotomy (Byte.to_N x) (Byte.to_N y)) as [H|[H|H]].
  - left. by rewrite (proj2 (N.ltb_lt _ _) H).
  - rewrite H, N.eqb_refl. destruct (IH b) as [-> | ->]; rewrite orb_true_r; auto.
  - right. by rewrite (proj2 (N.ltb_lt _ _) H).
Qed.

Lemma bytes_leb_trans a b c : bytes_leb a b = true -> bytes_leb b c = true -> bytes_leb a c = true.
Proof.
  revert b c. induction a as [|x a IH]; intros [|y b] [|z c]; cbn; try done.
  rewrite !orb_true_iff, !andb_true_iff, !N.ltb_lt, !N.eqb_eq. intros [H|[H H']] [K|[K K']].
  - left. lia.
  - left. lia.
  - left. lia.
  - right. split; [lia|]. by apply (IH b).
Qed.

Lemma bytes_leb_antisymm a b : bytes_leb a b = true -> bytes_leb b a = true -> a = b.
Proof.
  revert b. induction a as [|x a IH]; intros [|y b]; cbn; try done.
  rewrite !orb_true_iff, !andb_true_iff, !N.ltb_lt, !N.eqb_eq. intros [H|[H H']] [K|[K K']]; try lia.
  f_equal; [|by apply IH]. apply (f_equal Byte.of_N) in H. rewrite !Byte.of_to_N in H. congruence.
Qed.

Lemma str_bytes_app s t : str_bytes (s +:+ t) = str_bytes s ++ str_bytes t.
Proof.
  unfold str_bytes, list_byte_of_string. rewrite <- map_app. f_equal.
  induction s as [|a s IH]; [done|]. change (String a s +:+ t) with (String a (s +:+ t)).
  cbn [list_ascii_of_string app]. by rewrite IH.
Qed.

(** What comes before the first separator is determined. *)
Lemma split_at_sep (c : byte) (a b a' b' : bytes) :
  c ∉ a -> c ∉ a' -> a ++ [c] ++ b = a' ++ [c] ++ b' -> a = a' /\ b = b'.
Proof.
  revert a'. induction a as [|x a IH]; intros [|x' a'] Ha Ha' Heq; cbn in Heq.
  - by injection Heq.
  - injection Heq as <- _. destruct Ha'. left.
  - injection Heq as -> _. destruct Ha. left.
  - injection Heq as <- Heq.
    destruct (IH a') as [-> ->]; [by intros ?; apply Ha; right|by intros ?; apply Ha'; right|done..].
Qed.

(** ** Integers *)

Definition byte_of (n : N) : byte := default x00 (Byte.of_N (n mod 256)).

Lemma byte_of_to_N n : Byte.to_N (byte_of n) = n mod 256.
Proof.
  unfold byte_of. assert (n mod 256 < 256) as H by (apply N.mod_lt; lia).
  destruct (Byte.of_N (n mod 256)) as [b|] eqn:Hb; cbn [default from_option id].
  - by apply Byte.to_of_N.
  - apply Byte.of_N_None_iff in Hb. lia.
Qed.

Lemma to_N_byte_of b : byte_of (Byte.to_N b) = b.
Proof. by destruct b. Qed.

Lemma to_N_lt b : Byte.to_N b < 256.
Proof. pose proof (Byte.to_N_bounded b). lia. Qed.

(** [to_le_bytes] of a [k]-byte integer and [from_le_bytes] *)
Fixpoint le_bytes (k : nat) (v : N) : bytes :=
  match k with
  | O => []
  | S k => byte_of v :: le_bytes k (v / 256)
  end.

Fixpoint le_val (l : bytes) : N :=
  match l with
  | [] => 0
  | b :: l => Byte.to_N b + 256 * le_val l
  end.

Lemma le_bytes_length k v : length (le_bytes k v) = k.
Proof. revert v. induction k as [|k IH]; intros v; cbn; [done|]. by rewrite IH. Qed.

Lemma le_val_bytes k v : v < 256 ^ N.of_nat k -> le_val (le_bytes k v) = v.
Proof.
  revert v. induction k as [|k IH]; intros v Hv; cbn [le_bytes le_val].
  - change (256 ^ N.of_nat 0) with 1 in Hv. lia.
  - rewrite byte_of_to_N, IH.
    + pose proof (N.div_mod v 256). lia.
    + apply N.Div0.div_lt_upper_bound. rewrite Nat2N.inj_succ, N.pow_succ_r' in Hv. lia.
Qed.

Lemma le_bytes_val l : le_bytes (length l) (le_val l) = l.
Proof.
  induction l as [|b l IH]; [done|]. cbn [length le_bytes le_val].
  pose proof (to_N_lt b) as Hb.
  assert ((Byte.to_N b + 256 * le_val l) / 256 = le_val l) as ->.
  { rewrite N.mul_comm, N.div_add by lia. rewrite N.div_small by lia. lia. }
  rewrite IH. f_equal. rewrite <- (to_N_byte_of b) at 2. unfold byte_of.
  rewrite N.mul_comm, N.Div0.mod_add. done.
Qed.

Lemma le_val_lt l : le_val l < 256 ^ N.of_nat (length l).
Proof.
  induction l as [|b l IH]; [done|]. cbn [length le_val].
  rewrite Nat2N.inj_succ, N.pow_succ_r'. pose proof (to_N_lt b). lia.
Qed.

Lemma le_bytes_inj k v w :
  v < 256 ^ N.of_nat k -> w < 256 ^ N.of_nat k -> le_bytes k v = le_bytes k w -> v = w.
Proof. intros Hv Hw H. rewrite <- (le_val_bytes k v), <- (le_val_bytes k w) by done. by rewrite H. Qed.

(** [i64::to_le_bytes]: two's complement. *)
Definition i64_le (z : Z) : bytes := le_bytes 8 (Z.to_N (z mod 18446744073709551616)).

Definition in_i64 (z : Z) : Prop := (-9223372036854775808 <= z < 9223372036854775808)%Z.

Lemma i64_le_inj a b : in_i64 a -> in_i64 b -> i64_le a = i64_le b -> a = b.
Proof.
  unfold in_i64, i64_le. intros Ha Hb H.
  pose proof (Z.mod_pos_bound a 18446744073709551616 eq_refl).
  pose proof (Z.mod_pos_bound b 18446744073709551616 eq_refl).
  apply le_bytes_inj in H; [|change (256 ^ N.of_nat 8) with 18446744073709551616; lia..].
  apply Z2N.inj in H; [|lia..].
  pose proof (Z.div_mod a 18446744073709551616). pose proof (Z.div_mod b 18446744073709551616). lia.
Qed.

(** [to_be_bytes] and [from_be_bytes] *)
Definition be_bytes (k : nat) (v : N) : bytes := rev (le_bytes k v).
Definition be_val (l : bytes) : N := le_val (rev l).

Lemma be_bytes_length k v : length (be_bytes k v) = k.
Proof. unfold be_bytes. by rewrite length_rev, le_bytes_length. Qed.

Lemma be_val_bytes k v : v < 256 ^ N.of_nat k -> be_val (be_bytes k v) = v.
Proof. unfold be_val, be_bytes. rewrite rev_involutive. apply le_val_bytes. Qed.

Lemma be_bytes_val l : be_bytes (length l) (be_val l) = l.
Proof.
  unfold be_val, be_bytes. rewrite <- (length_rev l), le_bytes_val. apply rev_involutive.
Qed.

(** ** Hexadecimal *)

(** The two lowercase digits of [format!("{b:02x}")] *)
Definition hex_digit (n : N) : byte :=
  if n <? 10 then byte_of (48 + n) else byte_of (87 + n).

Definition hex_byte (b : byte) : bytes :=
  [hex_digit (Byte.to_N b / 16); hex_digit (Byte.to_N b mod 16)].

(** [hex_encode], [hex_hash] *)
Definition hex_encode (data : bytes) : bytes := data ≫= hex_byte.

Inductive HexError := OddLength | BadLength (got : N) | InvalidHexChar (c : byte).

(** [hex_nibble] *)
Definition hex_nibble (c : byte) : result N HexError :=
  let n := Byte.to_N c in
  if (48 <=? n) && (n <=? 57) then Ok (n - 48)
  else if (97 <=? n) && (n <=? 102) then Ok (n - 97 + 10)
  else if (65 <=? n) && (n <=? 70) then Ok (n - 65 + 10)
  else Err (InvalidHexChar c).

(** The loop over the two-byte chunks, high nibble first. *)
Fixpoint hex_chunks (s : bytes) : result bytes HexError :=
  match s with
  | a :: b :: s =>
      let? hi := hex_nibble a in
      let? lo := hex_nibble b in
      let? rest := hex_chunks s in
      Ok (byte_of (N.lor (N.shiftl hi 4) lo) :: rest)
  | _ => Ok []
  end.

(** [hex_decode] *)
Definition hex_decode (s : bytes) : result bytes HexError :=
  if negb (lenN s mod 2 =? 0) then Err OddLength else hex_chunks s.

(** [parse_hex_hash] *)
Definition parse_hex_hash (s : bytes) : result bytes HexError :=
  if negb (lenN s =? 64) then Err (BadLength (lenN s)) else hex_chunks s.

Lemma hex_byte_nibbles b :
  hex_nibble (hex_digit (Byte.to_N b / 16)) = Ok (Byte.to_N b / 16) /\
  hex_nibble (hex_digit (Byte.to_N b mod 16)) = Ok (Byte.to_N b mod 16) /\
  byte_of (N.lor (N.shiftl (Byte.to_N b / 16) 4) (Byte.to_N b mod 16)) = b.
Proof. destruct b; vm_compute; done. Qed.

Lemma hex_chunks_encode data : hex_chunks (hex_encode data) = Ok data.
Proof.
  induction data as [|b data IH]; [done|].
  change (hex_encode (b :: data)) with (hex_byte b ++ hex_encode data).
  unfold hex_byte. cbn [app hex_chunks].
  destruct (hex_byte_nibbles b) as (-> & -> & ->). by rewrite IH.
Qed.

Lemma hex_encode_length data : length (hex_encode data) = (2 * length data)%nat.
Proof.
  induction data as [|b data IH]; [done|].
  change (hex_encode (b :: data)) with (hex_byte b ++ hex_encode data).
  rewrite length_app, IH. cbn. lia.
Qed.

(** Hexadecimal round trip: decoding what the encoder writes gives back
    the bytes, for byte strings of any length and for 32-byte hashes. *)
Theorem hex_round_trip data :
  hex_decode (hex_encode data) = Ok data /\
  (length data = 32%nat -> parse_hex_hash (hex_encode data) = Ok data).
Proof.
  unfold hex_decode, parse_hex_hash, lenN. rewrite hex_encode_length, hex_chunks_encode. split.
  - replace (N.of_nat (2 * length data)) with (N.of_nat (length data) * 2) by lia.
    by rewrite N.Div0.mod_mul.
  - intros ->. done.
Qed.

Lemma hex_round_trip_witness :
  parse_hex_hash (hex_encode (replicate 32 xab)) = Ok (replicate 32 xab).
Proof. apply (hex_round_trip (replicate 32 xab)). reflexivity. Defined.

(** ** The header of a persisted event *)

Definition EXOCHAIN_MAGIC : N := 0x45584F43.
Definition EXOCHAIN_HEADER_SIZE : nat := 64.

Record ExoChainHeader := mkHeader {
  h_magic : N;
  h_version : N;
  h_subtype : N;
  h_flags : N;
  h_chain_id : N;
  h_reserved : N;
  h_sequence : N;
  h_timestamp_secs : N;
  h_prev_hash : bytes;
}.

(** The field widths. *)
Definition header_wf (h : ExoChainHeader) : Prop :=
  h_magic h < u32_mod /\ h_version h < u8_mod /\ h_subtype h < u8_mod /\ h_flags h < u16_mod /\
  h_chain_id h < u32_mod /\ h_reserved h < u32_mod /\ h_sequence h < u64_mod /\
  h_timestamp_secs h < u64_mod /\ length (h_prev_hash h) = 32%nat.

(** [ExoChainHeader::to_bytes] *)
Definition header_to_bytes (h : ExoChainHeader) : bytes :=
  le_bytes 4 (h_magic h) ++ le_bytes 1 (h_version h) ++ le_bytes 1 (h_subtype h) ++
  le_bytes 2 (h_flags h) ++ le_bytes 4 (h_chain_id h) ++ le_bytes 4 (h_reserved h) ++
  le_bytes 8 (h_sequence h) ++ le_bytes 8 (h_timestamp_secs h) ++ h_prev_hash h.

(** [data[a..a + n]] *)
Definition slice (a n : nat) (data : bytes) : bytes := take n (drop a data).

(** [ExoChainHeader::from_bytes] *)
Definition header_from_bytes (data : bytes) : option ExoChainHeader :=
  if (length data <? EXOCHAIN_HEADER_SIZE)%nat then None
  else
    let magic := le_val (slice 0 4 data) in
    if negb (magic =? EXOCHAIN_MAGIC) then None
    else Some (mkHeader magic (le_val (slice 4 1 data)) (le_val (slice 5 1 data))
                 (le_val (slice 6 2 data)) (le_val (slice 8 4 data)) (le_val (slice 12 4 data))
                 (le_val (slice 16 8 data)) (le_val (slice 24 8 data)) (slice 32 32 data)).

(** [decode_exochain_payload] and the payload [write_exochain_event] hands to
    the segment writer *)
Definition exochain_payload (h : ExoChainHeader) (cbor : bytes) : bytes :=
  header_to_bytes h ++ cbor.

Definition decode_exochain_payload (payload : bytes) : option (ExoChainHeader * bytes) :=
  match header_from_bytes payload with
  | Some h => Some (h, drop EXOCHAIN_HEADER_SIZE payload)
  | None => None
  end.

Definition EXO_FLAG_HAS_RULE_HASH : N := 1.
Definition EXO_FLAGS_KNOWN : N := EXO_FLAG_HAS_RULE_HASH.

Inductive FlagError := UnknownFlagBits (flags : N) | RuleHashFlagMismatch.

(** [check_exo_flags] on a 16-bit flag word *)
Definition check_exo_flags (flags : N) (has_rule_hash : bool) : result unit FlagError :=
  if negb (N.land flags (N.lxor EXO_FLAGS_KNOWN 65535) =? 0) then Err (UnknownFlagBits flags)
  else if negb (Bool.eqb (negb (N.land flags EXO_FLAG_HAS_RULE_HASH =? 0)) has_rule_hash)
  then Err RuleHashFlagMismatch
  else Ok tt.

Lemma slice_skip (l k : bytes) a n :
  (length l <= a)%nat -> slice a n (l ++ k) = slice (a - length l) n k.
Proof. intros H. unfold slice. by rewrite drop_app_ge. Qed.

Lemma slice_here (l k : bytes) n : length l = n -> slice 0 n (l ++ k) = l.
Proof. intros <-. unfold slice. rewrite drop_0. apply take_app_length. Qed.

(** Read the field at the front of a layout of fixed-width fields. *)
Ltac read_field :=
  repeat (rewrite slice_skip by (rewrite le_bytes_length; lia);
          rewrite le_bytes_length; cbn [Nat.sub]);
  rewrite slice_here by (rewrite ?le_bytes_length; done);
  rewrite ?le_val_bytes by done.

Lemma header_length h : header_wf h -> length (header_to_bytes h) = EXOCHAIN_HEADER_SIZE.
Proof.
  intros (_ & _ & _ & _ & _ & _ & _ & _ & Hp). unfold header_to_bytes.
  rewrite !length_app, !le_bytes_length, Hp. done.
Qed.

(** Header round trip: a well-formed header with the magic number, written
    in front of any payload, is read back field by field together with exactly
    that payload. *)
Theorem header_round_trip h cbor :
  header_wf h -> h_magic h = EXOCHAIN_MAGIC ->
  decode_exochain_payload (exochain_payload h cbor) = Some (h, cbor).
Proof.
  intros Hwf Hmagic. unfold decode_exochain_payload, exochain_payload, header_from_bytes.
  rewrite length_app, (header_length h Hwf).
  destruct (Nat.ltb_spec (EXOCHAIN_HEADER_SIZE + length cbor) EXOCHAIN_HEADER_SIZE); [lia|].
  rewrite drop_app_length' by (symmetry; by apply header_length).
  destruct h as [m v st f c rs s t p]. cbn in Hmagic.
  destruct Hwf as (? & ? & ? & ? & ? & ? & ? & ? & Hp).
  cbn [h_magic h_version h_subtype h_flags h_chain_id h_reserved
    h_sequence h_timestamp_secs h_prev_hash] in *.
  unfold header_to_bytes; cbn [h_magic h_version h_subtype h_flags h_chain_id h_reserved
    h_sequence h_timestamp_secs h_prev_hash]. rewrite <- !app_assoc.
  read_field. subst m. rewrite N.eqb_refl. cbn [negb].
  do 2 f_equal. f_equal; read_field; done.
Qed.

Lemma header_round_trip_witness :
  decode_exochain_payload
    (exochain_payload (mkHeader EXOCHAIN_MAGIC 1 64 1 7 0 12345678901 1700000000 (replicate 32 xff))
       [x01; x02])
  = Some (mkHeader EXOCHAIN_MAGIC 1 64 1 7 0 12345678901 1700000000 (replicate 32 xff), [x01; x02]).
Proof.
  apply header_round_trip; [|reflexivity].
  repeat split; vm_compute; reflexivity.
Defined.
