(* ===== verification/Text.v ===== *)
(** * Text files

    What the components that keep line-oriented files use of Rust's strings:
    UTF-8 validity, characters, control characters, [str::lines], and how
    appended text adds to the lines of a file. *)

From Stdlib Require Import Strings.String.
From S2P Require Import Prelude Codec.

Local Open Scope string_scope.
Local Open Scope list_scope.
Local Open Scope N_scope.

(** [std::str::from_utf8] succeeds on a sequence of bytes. *)
Definition cont (lo hi : N) (b : byte) : bool := (lo <=? Byte.to_N b) && (Byte.to_N b <=? hi).

Fixpoint utf8_valid (l : bytes) : bool :=
  match l with
  | [] => true
  | b :: l =>
      let n := Byte.to_N b in
      if n <? 0x80 then utf8_valid l
      else if n <? 0xC2 then false
      else match l with
           | [] => false
           | c :: l =>
               if n <? 0xE0 then cont 0x80 0xBF c && utf8_valid l
               else match l with
                    | [] => false
                    | d :: l =>
                        if n <? 0xF0 then
                          cont (if n =? 0xE0 then 0xA0 else 0x80) (if n =? 0xED then 0x9F else 0xBF) c
                          && cont 0x80 0xBF d && utf8_valid l
                        else if n <? 0xF5 then
                          match l with
                          | [] => false
                          | e :: l =>
                              cont (if n =? 0xF0 then 0x90 else 0x80) (if n =? 0xF4 then 0x8F else 0xBF) c
                              && cont 0x80 0xBF d && cont 0x80 0xBF e && utf8_valid l
                          end
                        else false
                    end
           end
  end.

(** [String::from_utf8_lossy]: each maximal invalid part becomes U+FFFD *)
Definition replacement : bytes := [xef; xbf; xbd].

Fixpoint utf8_lossy (l : bytes) : bytes :=
  match l with
  | [] => []
  | b :: l =>
      let n := Byte.to_N b in
      if n <? 0x80 then b :: utf8_lossy l
      else if n <? 0xC2 then replacement ++ utf8_lossy l
      else match l with
           | [] => replacement
           | c :: l' =>
               if n <? 0xE0 then
                 if cont 0x80 0xBF c then b :: c :: utf8_lossy l' else replacement ++ utf8_lossy l
               else if n <? 0xF0 then
                 if cont (if n =? 0xE0 then 0xA0 else 0x80) (if n =? 0xED then 0x9F else 0xBF) c then
                   match l' with
                   | [] => replacement
                   | d :: l'' => if cont 0x80 0xBF d then b :: c :: d :: utf8_lossy l'' else replacement ++ utf8_lossy l'
                   end
                 else replacement ++ utf8_lossy l
               else if n <? 0xF5 then
                 if cont (if n =? 0xF0 then 0x90 else 0x80) (if n =? 0xF4 then 0x8F else 0xBF) c then
                   match l' with
                   | [] => replacement
                   | d :: l'' =>
                       if cont 0x80 0xBF d then
                         match l'' with
                         | [] => replacement
                         | e :: l3 =>
                             if cont 0x80 0xBF e then b :: c :: d :: e :: utf8_lossy l3 else replacement ++ utf8_lossy l''
                         end
                       else replacement ++ utf8_lossy l'
                   end
                 else replacement ++ utf8_lossy l
               else replacement ++ utf8_lossy l
           end
  end.

(** [strip_suffix('\n').unwrap_or(text)] and [split('\n')] *)
Definition strip_nl (l : bytes) : bytes :=
  match rev l with
  | x0a :: r => rev r
  | _ => l
  end.

Fixpoint split_nl (l : bytes) : list bytes :=
  match l with
  | [] => [[]]
  | b :: l =>
      if Byte.eqb b x0a then [] :: split_nl l
      else match split_nl l with
           | [] => [[b]]
           | x :: xs => (b :: x) :: xs
           end
  end.

(** [chars().count()]: the bytes that do not continue a character *)
Definition chars_count (s : string) : nat :=
  length (List.filter (fun b => negb (cont 0x80 0xBF b)) (str_bytes s)).

(** [chars().any(char::is_control)]: the characters up to U+001F and from
    U+007F to U+009F *)
Fixpoint has_control (l : bytes) : bool :=
  match l with
  | [] => false
  | b :: l =>
      (Byte.to_N b <? 0x20) || (Byte.to_N b =? 0x7F) ||
      ((Byte.to_N b =? 0xC2) && match l with c :: _ => cont 0x80 0x9F c | [] => false end) || has_control l
  end.

(** [str::lines] *)
Fixpoint split_lines (l : bytes) : list bytes :=
  match l with
  | [] => []
  | b :: l =>
      if Byte.eqb b x0a then [] :: split_lines l
      else match split_lines l with
           | [] => [[b]]
           | x :: xs => (b :: x) :: xs
           end
  end.

Definition strip_cr (l : bytes) : bytes :=
  match rev l with
  | x0d :: r => rev r
  | _ => l
  end.

Definition lines (l : bytes) : list bytes := map strip_cr (split_lines l).

(** Bytes from the space to the tilde *)
Definition printable (l : bytes) : Prop := Forall (fun b => cont 0x20 0x7E b = true) l.

(** ** Lines *)

Lemma ascii_utf8 l : Forall (fun b => Byte.to_N b < 0x80) l -> utf8_valid l = true.
Proof.
  induction 1 as [|b l Hb _ IH]; [done|]. cbn [utf8_valid]. by rewrite (proj2 (N.ltb_lt _ _) Hb).
Qed.

Lemma split_lines_nonempty b l : split_lines (b :: l) <> [].
Proof. cbn [split_lines]. destruct (Byte.eqb _ _); [done|]. by destruct (split_lines l). Qed.

Lemma split_lines_newline a b : split_lines (a ++ x0a :: b) = split_lines (a ++ [x0a]) ++ split_lines b.
Proof.
  induction a as [|c a IH]; [done|]. cbn [app split_lines].
  rewrite IH. destruct (Byte.eqb c x0a); [done|].
  destruct (split_lines (a ++ [x0a])) as [|x xs] eqn:E; [|done].
  destruct a; by apply split_lines_nonempty in E.
Qed.

(** A line that was not ended is ended by the next newline. *)
Lemma split_lines_torn a : last a <> Some x0a -> a <> [] -> split_lines (a ++ [x0a]) = split_lines a.
Proof.
  induction a as [|c a IH]; [done|]. intros Hl _. cbn [app split_lines].
  destruct a as [|d a].
  - cbn. destruct (Byte.eqb c x0a) eqn:E; [|done]. apply byte_dec_bl in E. by subst.
  - rewrite IH by done. by destruct (Byte.eqb c x0a).
Qed.

Lemma split_lines_ended a b : last a = Some x0a -> split_lines (a ++ b) = split_lines a ++ split_lines b.
Proof.
  intros (a' & ->)%last_Some. rewrite <- app_assoc. cbn [app]. apply split_lines_newline.
Qed.

Lemma split_lines_one l : x0a ∉ l -> l <> [] -> split_lines l = [l].
Proof.
  induction l as [|b l IH]; [done|]. intros [Hb Hl]%not_elem_of_cons _. cbn [split_lines].
  destruct (Byte.eqb b x0a) eqn:E; [apply byte_dec_bl in E; by subst|].
  destruct l as [|c l]; [done|]. by rewrite IH.
Qed.

Lemma split_lines_line l : x0a ∉ l -> split_lines (l ++ [x0a]) = [l].
Proof.
  intros Hl. destruct l as [|b l]; [done|]. rewrite split_lines_torn; [by apply split_lines_one| |done].
  intros (l' & E)%last_Some. apply Hl. rewrite E. set_solver.
Qed.

(** What an append adds to the lines, from the text before it *)
Definition glue (old line : bytes) : bytes :=
  match last old with
  | Some b => if Byte.eqb b x0a then line else x0a :: line
  | None => line
  end.

Lemma split_lines_glue old line n :
  exists m, split_lines (old ++ take n (glue old line)) = split_lines old ++ split_lines (take m line) /\
    ((length (glue old line) <= n)%nat -> (length line <= m)%nat).
Proof.
  unfold glue. destruct (last old) as [b|] eqn:E.
  2: { apply last_None in E as ->. by exists n. }
  destruct (Byte.eqb b x0a) eqn:Eb.
  - apply byte_dec_bl in Eb as ->. exists n. by rewrite split_lines_ended.
  - destruct n as [|n]; [exists 0%nat; cbn; rewrite !app_nil_r; split; [done|lia]|].
    exists n. cbn [take length]. split; [|lia].
    rewrite split_lines_newline, split_lines_torn; [done| |by intros ->].
    rewrite E. intros [= ->]. by rewrite byte_dec_lb in Eb.
Qed.

Lemma printable_ascii l : printable l -> Forall (fun b => Byte.to_N b < 0x80) l.
Proof.
  intros Hl. eapply Forall_impl; [exact Hl|]. intros b [_ Hb]%andb_prop.
  apply N.leb_le in Hb. lia.
Qed.

Lemma printable_not_in b l : cont 0x20 0x7E b = false -> printable l -> b ∉ l.
Proof. intros Hb Hl Hin. rewrite (proj1 (Forall_forall _ _) Hl b Hin) in Hb. done. Qed.

Lemma strip_cr_printable l : printable l -> strip_cr l = l.
Proof.
  intros Hl. unfold strip_cr. destruct (rev l) as [|b r] eqn:E; [done|].
  assert (b ∈ l) as Hb by (apply elem_of_reverse; unfold reverse; rewrite <- rev_alt, E; set_solver).
  destruct b; try done. exfalso. revert Hb. by apply printable_not_in.
Qed.

Lemma rev_string_snoc s c : rev_string (s +:+ String c EmptyString) = String c (rev_string s).
Proof.
  unfold rev_string. fold (str_bytes (s +:+ String c EmptyString)). rewrite str_bytes_app, rev_app_distr. cbn.
  by rewrite ascii_of_byte_of_ascii.
Qed.

Lemma trim_braces m : trim ("{" +:+ m +:+ "}") = "{" +:+ m +:+ "}".
Proof.
  apply trim_id.
  - change ("{" +:+ m +:+ "}") with (String "{" (m +:+ "}")). by apply strip_any_no_lead.
  - change ("{" +:+ m +:+ "}") with (("{" +:+ m) +:+ "}"). rewrite rev_string_snoc. apply strip_any_no_lead. vm_compute. done.
Qed.

(** Valid text followed by valid text is valid. *)
Lemma utf8_valid_app a b : utf8_valid a = true -> utf8_valid (a ++ b) = utf8_valid b.
Proof.
  remember (length a) as n eqn:Hn. revert a Hn. induction n as [n IH] using lt_wf_ind. intros a ->.
  assert (forall l, (length l < length a)%nat -> utf8_valid l = true -> utf8_valid (l ++ b) = utf8_valid b) as IH'
    by (intros l Hl; by apply (IH (length l) Hl l)).
  clear IH. destruct a as [|x a]; [done|]. cbn [app utf8_valid length] in *.
  destruct (_ <? 0x80); [apply IH'; lia|]. destruct (_ <? 0xC2); [done|].
  destruct a as [|c a]; [done|]. cbn [app length] in *.
  destruct (_ <? 0xE0); [intros [-> Hv]%andb_prop; apply IH'; [lia|done]|].
  destruct a as [|d a]; [done|]. cbn [app length] in *.
  destruct (_ <? 0xF0); [intros [[-> ->]%andb_prop Hv]%andb_prop; apply IH'; [lia|done]|].
  destruct (_ <? 0xF5); [|done]. destruct a as [|e a]; [done|]. cbn [app length] in *.
  intros [[[-> ->]%andb_prop ->]%andb_prop Hv]%andb_prop. apply IH'; [lia|done].
Qed.

(** A file of whole lines reads back as those lines. *)
Definition one_line (l : bytes) : Prop := utf8_valid l = true /\ x0a ∉ l /\ x0d ∉ l.

Lemma strip_cr_one l : x0d ∉ l -> strip_cr l = l.
Proof.
  intros Hl. unfold strip_cr. destruct (rev l) as [|b r] eqn:E; [done|].
  assert (b ∈ l) as Hb by (apply list_elem_of_In, in_rev; rewrite E; by left).
  by destruct b.
Qed.

Lemma lines_text ls :
  Forall one_line ls ->
  utf8_valid (ls ≫= fun l => l ++ [x0a]) = true /\ lines (ls ≫= fun l => l ++ [x0a]) = ls.
Proof.
  induction 1 as [|l ls (Hv & Hn & Hr) _ [IH1 IH2]]; [done|]. simpl mbind. rewrite <- app_assoc. split.
  - rewrite utf8_valid_app by done. exact IH1.
  - unfold lines. cbn [app]. rewrite split_lines_newline, split_lines_line by done. cbn [map app].
    rewrite strip_cr_one by done. f_equal. exact IH2.
Qed.

(** Splitting at the newlines, the last one taken off, gives the lines with
    their carriage returns. *)
Lemma split_nl_lines l : split_nl l = split_lines (l ++ [x0a]).
Proof.
  induction l as [|b l IH]; [done|]. cbn [app split_nl split_lines]. rewrite IH. destruct (Byte.eqb b x0a); [done|].
  destruct (split_lines (l ++ [x0a])) eqn:E; [|done]. by destruct l; apply split_lines_nonempty in E.
Qed.

Lemma strip_nl_cases l :
  (exists t, l = t ++ [x0a] /\ strip_nl l = t) \/ (last l <> Some x0a /\ strip_nl l = l).
Proof.
  unfold strip_nl. destruct l as [|b t _] using rev_ind; [by right|]. rewrite rev_app_distr. cbn [rev app].
  rewrite last_snoc. destruct b; try (right; split; [congruence|done]). left. exists t. by rewrite rev_involutive.
Qed.

Lemma split_body l : l <> [] -> split_nl (strip_nl l) = split_lines l.
Proof.
  intros Hne. destruct (strip_nl_cases l) as [(t & -> & ->)|[Hl ->]]; rewrite split_nl_lines; [done|].
  by apply split_lines_torn.
Qed.

(** Valid text before anything is kept as it is. *)
Lemma lossy_valid_app a b : utf8_valid a = true -> utf8_lossy (a ++ b) = a ++ utf8_lossy b.
Proof.
  remember (length a) as n eqn:Hn. revert a Hn. induction n as [n IH] using lt_wf_ind. intros a ->.
  assert (forall l, (length l < length a)%nat -> utf8_valid l = true -> utf8_lossy (l ++ b) = l ++ utf8_lossy b) as IH'
    by (intros l Hl; by apply (IH (length l) Hl l)).
  clear IH. destruct a as [|x a]; [done|]. cbn [app utf8_valid utf8_lossy length] in *.
  destruct (_ <? 0x80); [intros Hv; rewrite IH' by (done || lia); done|]. destruct (_ <? 0xC2); [done|].
  destruct a as [|c a]; [done|]. cbn [app length] in *.
  destruct (_ <? 0xE0); [intros [-> Hv]%andb_prop; rewrite IH' by (done || lia); done|].
  destruct a as [|d a]; [done|]. cbn [app length] in *.
  destruct (_ <? 0xF0); [intros [[-> ->]%andb_prop Hv]%andb_prop; rewrite IH' by (done || lia); done|].
  destruct (_ <? 0xF5); [|done]. destruct a as [|e a]; [done|]. cbn [app length] in *.
  intros [[[-> ->]%andb_prop ->]%andb_prop Hv]%andb_prop. rewrite IH' by (done || lia). done.
Qed.
