(* ===== verification/Chain.v ===== *)
(** The local exochain: crates/clawft-kernel/src/chain.rs.  Events, the hash
    commitment, the append paths of [LocalChain] and [ChainManager],
    checkpoints, replication ([append_signed]), reading, and the integrity
    check.

    SHAKE-256 and the JSON serializer are code of other crates: [shake256] and
    [to_vec].  A timestamp is in nanoseconds since the epoch; an operation that
    reads the clock takes the instant it reads.  The answer of the rule-hash
    provider, when one is installed, is an argument of the append. *)

From Stdlib Require Import Strings.String.
From S2P Require Import Prelude Codec.
Open Scope N_scope.

Definition zero_hash : bytes := replicate 32 x00.
#[global] Arguments zero_hash : simpl never.

(** ** Events *)

Record ChainEvent := mkEvent {
  ce_sequence : N;
  ce_chain_id : N;
  ce_timestamp : Z;
  ce_prev_hash : bytes;
  ce_hash : bytes;
  ce_payload_hash : bytes;
  ce_source : string;
  ce_kind : string;
  ce_payload : option Json;
  ce_idempotency_key : option bytes;
  ce_rule_hash : option bytes;
}.

Record ChainCheckpoint := mkCheckpoint {
  cp_chain_id : N;
  cp_sequence : N;
  cp_last_hash : bytes;
  cp_timestamp : Z;
  cp_events_since_last : N;
}.

Record WitnessEntry := mkWitness {
  w_prev_hash : bytes;
  w_action_hash : bytes;
  w_timestamp_ns : N;
  w_witness_type : N;
}.

Definition WITNESS_PROVENANCE : N := 1.
Definition IDEMPOTENCY_LOOKBACK : nat := 1000.
Definition DEFAULT_MAX_REPLAY_WINDOW : N := 100000.

(** [DateTime::timestamp], and [timestamp_nanos_opt().unwrap_or(0) as u64] *)
Definition timestamp_secs (ns : Z) : Z := (ns / 1000000000)%Z.

Definition timestamp_nanos (ns : Z) : N :=
  if ((-9223372036854775808 <=? ns) && (ns <? 9223372036854775808))%Z
  then Z.to_N (ns mod 18446744073709551616) else 0.

(** ** Reserved sources and kinds *)

Definition RESERVED_SOURCES : list string := ["user.projects"; "project.anchor"; "auth.token"].
Definition KERNEL_SOURCES : list string := ["governance"; "project"; "project.supervisor"].
Definition RESERVED_KINDS : list string := ["governance.overlay.applied"; "workload.journal"].

Definition is_reserved_source (source : string) : bool :=
  existsb (String.eqb (trim source)) RESERVED_SOURCES.
Definition is_reserved_kind (kind : string) : bool :=
  existsb (String.eqb (trim kind)) RESERVED_KINDS.
Definition is_caller_reserved_kind (kind : string) : bool := is_reserved_kind kind.
Definition is_caller_reserved_source (source : string) : bool :=
  is_reserved_source source || existsb (String.eqb (trim source)) KERNEL_SOURCES.

Definition PROJECT_DOMAIN_PREFIX : bytes := str_bytes "weftos-project-".
Definition signs_project_domain (data : bytes) : bool :=
  bool_decide (take (length PROJECT_DOMAIN_PREFIX) data = PROJECT_DOMAIN_PREFIX).

Inductive AppendSignedError :=
| AlreadyPresent (sequence : N)
| Fork (sequence : N) (local_hash remote_hash : bytes)
| Gap (expected got : N)
| ReservedSource (event_source : string)
| ChainIdMismatch (local remote : N)
| PrevHashMismatch (expected got : bytes)
| PayloadHashMismatch (sequence : N)
| HashMismatch (sequence : N) (recomputed stored : bytes).

Inductive VerifyError :=
| VPrev (sequence : N)
| VPayload (sequence : N)
| VHash (sequence : N).

Record ChainVerifyResult := mkVerify {
  valid : bool;
  event_count : N;
  verify_errors : list VerifyError;
}.

(** ** The chain *)

Record LocalChain := mkChain {
  lc_chain_id : N;
  lc_events : list ChainEvent;
  lc_last_hash : bytes;
  lc_sequence : N;
  lc_checkpoint_interval : N;
  lc_since_checkpoint : N;
  lc_checkpoints : list ChainCheckpoint;
  lc_witness : list WitnessEntry;
  lc_max_replay : N;
  (** what the live feed has carried, oldest first *)
  lc_hub : list ChainEvent;
}.

Section Chain.
Context (shake256 : bytes -> bytes) (to_vec : Json -> bytes).

(** [compute_payload_hash] *)
Definition compute_payload_hash (payload : option Json) : bytes :=
  match payload with Some v => shake256 (to_vec v) | None => zero_hash end.

(** The preimage and [compute_event_hash] *)
Definition event_preimage (sequence chain_id : N) (prev_hash : bytes) (source kind : string)
  (timestamp : Z) (payload_hash : bytes) (rule_hash : option bytes) : bytes :=
  le_bytes 8 sequence ++ le_bytes 4 chain_id ++ prev_hash
  ++ str_bytes source ++ [x00] ++ str_bytes kind ++ [x00]
  ++ i64_le (timestamp_secs timestamp) ++ payload_hash
  ++ match rule_hash with Some rh => x01 :: rh | None => [] end.

Definition compute_event_hash sequence chain_id prev_hash source kind timestamp payload_hash rule_hash
  : bytes :=
  shake256 (event_preimage sequence chain_id prev_hash source kind timestamp payload_hash rule_hash).

Definition preimage_of (e : ChainEvent) : bytes :=
  event_preimage (ce_sequence e) (ce_chain_id e) (ce_prev_hash e) (ce_source e) (ce_kind e)
    (ce_timestamp e) (ce_payload_hash e) (ce_rule_hash e).

Definition hash_of (e : ChainEvent) : bytes :=
  compute_event_hash (ce_sequence e) (ce_chain_id e) (ce_prev_hash e) (ce_source e) (ce_kind e)
    (ce_timestamp e) (ce_payload_hash e) (ce_rule_hash e).

Definition local_new (chain_id interval : N) : LocalChain :=
  mkChain chain_id [] zero_hash 0 interval 0 [] [] DEFAULT_MAX_REPLAY_WINDOW [].

(** [LocalChain::from_events] *)
Definition local_from_events (chain_id interval : N) (evs : list ChainEvent) (ws : list WitnessEntry)
  : LocalChain :=
  let '(last_hash, sequence) :=
    match last evs with
    | Some e => (ce_hash e, wrap_add64 (ce_sequence e) 1)
    | None => (zero_hash, 0)
    end in
  mkChain chain_id evs last_hash sequence interval 0 [] ws DEFAULT_MAX_REPLAY_WINDOW [].

(** [LocalChain::create_checkpoint] *)
Definition create_checkpoint (c : LocalChain) (now : Z) : LocalChain * ChainCheckpoint :=
  let cp := mkCheckpoint (lc_chain_id c) (lc_sequence c - 1) (lc_last_hash c) now
              (lc_since_checkpoint c) in
  (mkChain (lc_chain_id c) (lc_events c) (lc_last_hash c) (lc_sequence c)
     (lc_checkpoint_interval c) 0 (lc_checkpoints c ++ [cp]) (lc_witness c) (lc_max_replay c)
     (lc_hub c), cp).

(** Push an event with its witness, publish it, and checkpoint when due. *)
Definition auto_checkpoint (c : LocalChain) (now : Z) : LocalChain :=
  if (0 <? lc_checkpoint_interval c) && (lc_checkpoint_interval c <=? lc_since_checkpoint c)
  then (create_checkpoint c now).1 else c.

Definition witness_for (e : ChainEvent) : WitnessEntry :=
  mkWitness zero_hash (ce_hash e) (timestamp_nanos (ce_timestamp e)) WITNESS_PROVENANCE.

(** [LocalChain::append_with_key] *)
Definition append_with_key (c : LocalChain) (now now' : Z) (stamp : option bytes)
  (source kind : string) (payload : option Json) (key : option bytes) : LocalChain * ChainEvent :=
  let payload_hash := compute_payload_hash payload in
  let hash := compute_event_hash (lc_sequence c) (lc_chain_id c) (lc_last_hash c) source kind now
                payload_hash stamp in
  let e := mkEvent (lc_sequence c) (lc_chain_id c) now (lc_last_hash c) hash payload_hash source kind
             payload key stamp in
  (auto_checkpoint
     (mkChain (lc_chain_id c) (lc_events c ++ [e]) hash (wrap_add64 (lc_sequence c) 1)
        (lc_checkpoint_interval c) (wrap_add64 (lc_since_checkpoint c) 1) (lc_checkpoints c)
        (lc_witness c ++ [witness_for e]) (lc_max_replay c) (lc_hub c ++ [e])) now', e).

(** [LocalChain::append] *)
Definition local_append (c : LocalChain) (now now' : Z) (stamp : option bytes) (source kind : string)
  (payload : option Json) : LocalChain * ChainEvent :=
  append_with_key c now now' stamp source kind payload None.

(** ** [ChainManager]

    Each operation runs under the chain's lock. *)

Definition verify_event (prev : bytes) (e : ChainEvent) : list VerifyError :=
  (if bool_decide (ce_prev_hash e = prev) then [] else [VPrev (ce_sequence e)])
  ++ (if bool_decide (ce_payload_hash e = compute_payload_hash (ce_payload e)) then []
      else [VPayload (ce_sequence e)])
  ++ (if bool_decide (ce_hash e = hash_of e) then [] else [VHash (ce_sequence e)]).

(** The loop of [verify_integrity], from the hash the first event links to. *)
Fixpoint verify_from (prev : bytes) (evs : list ChainEvent) : list VerifyError :=
  match evs with
  | [] => []
  | e :: evs => verify_event prev e ++ verify_from (ce_hash e) evs
  end.

(** [ChainManager::verify_integrity] *)
Definition verify_integrity (c : LocalChain) : ChainVerifyResult :=
  let errs := verify_from zero_hash (lc_events c) in
  mkVerify (bool_decide (errs = [])) (lenN (lc_events c)) errs.

(** [ChainManager::new] *)
Definition chain_new (chain_id interval : N) (now now' : Z) : LocalChain :=
  (local_append (local_new chain_id interval) now now' None "chain" "genesis"
     (Some (JObj [("chain_id", json_num chain_id)]))).1.

Inductive FromEventsError := EmptyEvents | IntegrityFailed (errs : list VerifyError).

(** [ChainManager::from_events] *)
Definition chain_from_events (evs : list ChainEvent) (interval : N) : result LocalChain FromEventsError :=
  match evs with
  | [] => Err EmptyEvents
  | e :: _ =>
      let c := local_from_events (ce_chain_id e) interval evs [] in
      let res := verify_integrity c in
      if valid res then Ok c else Err (IntegrityFailed (verify_errors res))
  end.

(** [ChainManager::append_idempotent] *)
Definition append_idempotent (c : LocalChain) (now now' : Z) (stamp : option bytes)
  (source kind : string) (payload : option Json) (key : option bytes) : LocalChain * ChainEvent :=
  let window := drop (length (lc_events c) - IDEMPOTENCY_LOOKBACK) (lc_events c) in
  match key with
  | Some k =>
      match list_find (fun e => ce_idempotency_key e = Some k) (rev window) with
      | Some (_, existing) => (c, existing)
      | None => append_with_key c now now' stamp source kind payload key
      end
  | None => append_with_key c now now' stamp source kind payload key
  end.

(** [ChainManager::append_signed] *)
Definition append_signed (c : LocalChain) (now' : Z) (e : ChainEvent)
  : LocalChain * result ChainEvent AppendSignedError :=
  if is_reserved_source (ce_source e) || is_reserved_kind (ce_kind e) then
    (c, Err (ReservedSource (ce_source e)))
  else
    match list_find (fun x => ce_sequence x = ce_sequence e) (lc_events c) with
    | Some (_, existing) =>
        if bool_decide (ce_hash existing = ce_hash e) then
          (c, Err (AlreadyPresent (ce_sequence e)))
        else (c, Err (Fork (ce_sequence e) (ce_hash existing) (ce_hash e)))
    | None =>
        if negb (ce_chain_id e =? lc_chain_id c) then
          (c, Err (ChainIdMismatch (lc_chain_id c) (ce_chain_id e)))
        else if ce_sequence e <? lc_sequence c then
          (c, Err (Fork (ce_sequence e) zero_hash (ce_hash e)))
        else if lc_sequence c <? ce_sequence e then
          (c, Err (Gap (lc_sequence c) (ce_sequence e)))
        else if negb (bool_decide (ce_prev_hash e = lc_last_hash c)) then
          (c, Err (PrevHashMismatch (lc_last_hash c) (ce_prev_hash e)))
        else if negb (bool_decide (ce_payload_hash e = compute_payload_hash (ce_payload e))) then
          (c, Err (PayloadHashMismatch (ce_sequence e)))
        else if negb (bool_decide (ce_hash e = hash_of e)) then
          (c, Err (HashMismatch (ce_sequence e) (hash_of e) (ce_hash e)))
        else
          (auto_checkpoint
             (mkChain (lc_chain_id c) (lc_events c ++ [e]) (ce_hash e) (sat_add64 (ce_sequence e) 1)
                (lc_checkpoint_interval c) (sat_add64 (lc_since_checkpoint c) 1) (lc_checkpoints c)
                (lc_witness c ++ [witness_for e]) (lc_max_replay c) (lc_hub c ++ [e])) now',
           Ok e)
    end.

(** [tail], [tail_from], [head_sequence], [head_hash] *)
Definition chain_tail (c : LocalChain) (n : nat) : list ChainEvent :=
  if (n =? 0)%nat || (length (lc_events c) <=? n)%nat then lc_events c
  else drop (length (lc_events c) - n) (lc_events c).

Definition tail_from (c : LocalChain) (after : N) : list ChainEvent :=
  filter (fun e => after < ce_sequence e) (lc_events c).

Definition head_sequence (c : LocalChain) : N :=
  match last (lc_events c) with Some e => ce_sequence e | None => 0 end.

Definition head_hash (c : LocalChain) : bytes :=
  match last (lc_events c) with Some e => ce_hash e | None => zero_hash end.

Definition set_max_replay_window (c : LocalChain) (n : N) : LocalChain :=
  mkChain (lc_chain_id c) (lc_events c) (lc_last_hash c) (lc_sequence c) (lc_checkpoint_interval c)
    (lc_since_checkpoint c) (lc_checkpoints c) (lc_witness c) n (lc_hub c).

(** An audit request of a kernel component. *)
Definition run_audit (stamp : option bytes) (c : LocalChain) (now now' : Z) (a : AuditReq) : LocalChain :=
  (local_append c now now' stamp (ar_source a) (ar_kind a) (ar_payload a)).1.


(** ** What a valid chain is *)

Definition link (prev : bytes) (e : ChainEvent) : Prop :=
  ce_prev_hash e = prev /\ ce_payload_hash e = compute_payload_hash (ce_payload e) /\
  ce_hash e = hash_of e.

Lemma verify_event_nil prev e : verify_event prev e = [] <-> link prev e.
Proof.
  unfold verify_event, link. rewrite !app_nil.
  repeat case_bool_decide; naive_solver.
Qed.

Lemma verify_from_cons prev e evs :
  verify_from prev (e :: evs) = [] <-> link prev e /\ verify_from (ce_hash e) evs = [].
Proof. cbn [verify_from]. by rewrite app_nil, verify_event_nil. Qed.

(** The hash the next event must link to. *)
Definition tip (prev : bytes) (evs : list ChainEvent) : bytes :=
  match last evs with Some e => ce_hash e | None => prev end.

Lemma tip_snoc prev evs e : tip prev (evs ++ [e]) = ce_hash e.
Proof. unfold tip. by rewrite last_snoc. Qed.

Lemma tip_cons prev e evs : tip prev (e :: evs) = tip (ce_hash e) evs.
Proof. unfold tip. destruct evs; [done|]. rewrite last_cons_cons.
  destruct (last (c :: evs)) eqn:H; [done|]. by apply last_None in H. Qed.

Lemma verify_from_snoc evs : forall prev e,
  verify_from prev (evs ++ [e]) = [] <-> verify_from prev evs = [] /\ link (tip prev evs) e.
Proof.
  induction evs as [|x evs IH]; intros prev e.
  - cbn [app]. rewrite verify_from_cons. unfold tip. cbn. naive_solver.
  - cbn [app]. rewrite !verify_from_cons, IH, tip_cons. naive_solver.
Qed.

Lemma verify_from_app evs evs' : forall prev,
  verify_from prev (evs ++ evs') = [] -> verify_from prev evs = [] /\
    verify_from (tip prev evs) evs' = [].
Proof.
  induction evs as [|x evs IH]; intros prev; [done|]. cbn [app].
  rewrite !verify_from_cons, tip_cons. intros [Hl H]. apply IH in H as [??]. done.
Qed.

(** ** The commitment *)

(** The widths of the fields, and separators that occur in neither name. *)
Definition nul_free (s : string) : Prop := x00 ∉ str_bytes s.
#[local] Instance nul_free_dec s : Decision (nul_free s).
Proof. unfold nul_free. apply _. Defined.

Record event_wf (e : ChainEvent) : Prop := {
  ew_seq : ce_sequence e < u64_mod;
  ew_chain : ce_chain_id e < u32_mod;
  ew_prev : length (ce_prev_hash e) = 32%nat;
  ew_payload : length (ce_payload_hash e) = 32%nat;
  ew_rule rh : ce_rule_hash e = Some rh -> length rh = 32%nat;
  ew_time : in_i64 (timestamp_secs (ce_timestamp e));
  ew_source : nul_free (ce_source e);
  ew_kind : nul_free (ce_kind e);
}.

Definition event_wfb (e : ChainEvent) : bool :=
  (ce_sequence e <? u64_mod) && (ce_chain_id e <? u32_mod)
  && (length (ce_prev_hash e) =? 32)%nat && (length (ce_payload_hash e) =? 32)%nat
  && match ce_rule_hash e with Some rh => (length rh =? 32)%nat | None => true end
  && (-9223372036854775808 <=? timestamp_secs (ce_timestamp e))%Z
  && (timestamp_secs (ce_timestamp e) <? 9223372036854775808)%Z
  && bool_decide (nul_free (ce_source e)) && bool_decide (nul_free (ce_kind e)).

Lemma event_wfb_wf e : event_wfb e = true -> event_wf e.
Proof.
  unfold event_wfb. rewrite !andb_true_iff, !N.ltb_lt, !Nat.eqb_eq, Z.leb_le, Z.ltb_lt.
  rewrite !bool_decide_eq_true. intros ((((((((? & ?) & ?) & ?) & Hr) & ?) & ?) & ?) & ?).
  split; try done. intros rh Hrh. rewrite Hrh in Hr. by apply Nat.eqb_eq.
Qed.

(** The fields an event hash is meant to commit to. *)
Definition commit (e : ChainEvent) :=
  (ce_sequence e, ce_chain_id e, ce_prev_hash e, ce_source e, ce_kind e,
   timestamp_secs (ce_timestamp e), ce_payload_hash e, ce_rule_hash e).

Lemma preimage_inj e e' :
  event_wf e -> event_wf e' -> preimage_of e = preimage_of e' -> commit e = commit e'.
Proof.
  intros [] [] Heq. unfold preimage_of, event_preimage in Heq.
  apply app_inj_1 in Heq as [Hseq Heq]; [|by rewrite !le_bytes_length].
  apply app_inj_1 in Heq as [Hcid Heq]; [|by rewrite !le_bytes_length].
  apply app_inj_1 in Heq as [Hprev Heq]; [|congruence].
  apply split_at_sep in Heq as [Hsrc Heq]; [|done..].
  apply split_at_sep in Heq as [Hkind Heq]; [|done..].
  apply app_inj_1 in Heq as [Htime Heq]; [|by unfold i64_le; rewrite !le_bytes_length].
  apply app_inj_1 in Heq as [Hpay Hrule]; [|congruence].
  apply le_bytes_inj in Hseq; [|done..]. apply le_bytes_inj in Hcid; [|done..].
  apply str_bytes_inj in Hsrc, Hkind. apply i64_le_inj in Htime; [|done..].
  assert (ce_rule_hash e = ce_rule_hash e').
  { destruct (ce_rule_hash e), (ce_rule_hash e'); congruence. }
  unfold commit. congruence.
Qed.

(** What the digest is applied to for an event *)
Definition hashed (e : ChainEvent) : list bytes := preimage_of e :: option_list (to_vec <$> ce_payload e).

(** Two of these inputs collide, or one of them has the zero digest. *)
Definition collides (l : list bytes) : Prop :=
  (exists x y, x ∈ l /\ y ∈ l /\ x <> y /\ shake256 x = shake256 y) \/ (exists x, x ∈ l /\ shake256 x = zero_hash).

Definition collidesb (l : list bytes) : bool :=
  existsb (fun x => bool_decide (shake256 x = zero_hash) ||
                    existsb (fun y => bool_decide (x <> y) && bool_decide (shake256 x = shake256 y)) l) l.

Lemma collides_b l : collides l -> collidesb l = true.
Proof.
  intros [(x & y & Hx & Hy & Hne & Hs)|(x & Hx & Hz)]; apply existsb_exists; exists x; split; try (by apply list_elem_of_In); apply orb_true_iff.
  - right. apply existsb_exists. exists y. split; [by apply list_elem_of_In|]. by rewrite !bool_decide_eq_true_2.
  - left. by apply bool_decide_eq_true.
Qed.

Lemma collides_mono l l' : l ⊆ l' -> collides l -> collides l'.
Proof.
  intros Hl [(x & y & Hx & Hy & Hr)|(x & Hx & Hr)]; [left; exists x, y|right; exists x]; split_and!; try (by apply Hl); by destruct Hr.
Qed.

Lemma shake_inj l x y : x ∈ l -> y ∈ l -> shake256 x = shake256 y -> x = y \/ collides l.
Proof. intros Hx Hy H. destruct (decide (x = y)); [by left|]. right. left. by exists x, y. Qed.

Lemma hashed_preimage e : preimage_of e ∈ hashed e.
Proof. by left. Qed.

Lemma payload_commit l e e' :
  hashed e ⊆ l -> hashed e' ⊆ l -> compute_payload_hash (ce_payload e) = compute_payload_hash (ce_payload e') ->
  to_vec <$> ce_payload e = to_vec <$> ce_payload e' \/ collides l.
Proof.
  intros Hl Hl' H. unfold hashed in Hl, Hl'. destruct (ce_payload e) as [v|], (ce_payload e') as [v'|]; cbn in *.
  - destruct (shake_inj l (to_vec v) (to_vec v')) as [E|?]; [apply Hl; by right; left|apply Hl'; by right; left|done|left; by f_equal|by right].
  - right. right. exists (to_vec v). split; [apply Hl; by right; left|done].
  - right. right. exists (to_vec v'). split; [apply Hl'; by right; left|done].
  - by left.
Qed.

(** C2: Tamper evidence.  Two event sequences that both pass the integrity
    check and end in the same head hash record the same events, in everything
    the hash commits to and in the serialised payloads, unless the digest
    fails on these very sequences: two of the inputs it was applied to for
    their events collide, or one of them has the zero digest.  So changing,
    dropping, inserting or reordering an event changes the head.  The fields
    of the events are as wide as their Rust types and their times fit an
    [i64], and the names of sources and kinds contain no zero byte, which the
    code takes as a separator without refusing it. *)
Theorem tamper_evident evs evs' :
  verify_from zero_hash evs = [] -> verify_from zero_hash evs' = [] ->
  Forall event_wf evs -> Forall event_wf evs' ->
  tip zero_hash evs = tip zero_hash evs' ->
  (map commit evs = map commit evs' /\
   map (fun e => to_vec <$> ce_payload e) evs = map (fun e => to_vec <$> ce_payload e) evs')
  \/ collides ((evs ++ evs') ≫= hashed).
Proof.
  assert (forall (l1 l2 : list ChainEvent), l1 ⊆ l2 -> l1 ≫= hashed ⊆ l2 ≫= hashed) as Hsub.
  { intros l1 l2 Hl x (e & Hx & He)%list_elem_of_bind. apply list_elem_of_bind. exists e. split; [done|by apply Hl]. }
  revert evs'. induction evs as [|e evs IH] using rev_ind; intros evs' Hv Hv' Hw Hw' Htip;
    destruct evs' as [|e' evs' _] using rev_ind.
  - by left.
  - right. right. apply verify_from_snoc in Hv' as [_ (_ & _ & Hh)].
    rewrite tip_snoc, Hh in Htip. exists (preimage_of e'). split; [|by symmetry].
    apply list_elem_of_bind. exists e'. split; [apply hashed_preimage|set_solver].
  - right. right. apply verify_from_snoc in Hv as [_ (_ & _ & Hh)].
    rewrite tip_snoc, Hh in Htip. exists (preimage_of e). split; [|done].
    apply list_elem_of_bind. exists e. split; [apply hashed_preimage|set_solver].
  - apply verify_from_snoc in Hv as [Hv (Hp & Hpl & Hh)], Hv' as [Hv' (Hp' & Hpl' & Hh')].
    apply Forall_app in Hw as [Hw We], Hw' as [Hw' We'].
    apply Forall_cons in We as [We _], We' as [We' _]. rewrite !tip_snoc, Hh, Hh' in Htip.
    remember (((evs ++ [e]) ++ evs' ++ [e']) ≫= hashed) as l eqn:El.
    assert (hashed e ⊆ l /\ hashed e' ⊆ l) as [Hle Hle'].
    { rewrite El. split; intros x Hx; apply list_elem_of_bind; [exists e|exists e']; (split; [done|set_solver]). }
    destruct (shake_inj l _ _ (Hle _ (hashed_preimage e)) (Hle' _ (hashed_preimage e')) Htip) as [Hpre|?]; [|by right].
    pose proof (preimage_inj e e' We We' Hpre) as Hc.
    assert (ce_prev_hash e = ce_prev_hash e' /\ ce_payload_hash e = ce_payload_hash e') as [Hpe Hple]
      by (unfold commit in Hc; split; congruence).
    rewrite Hpl, Hpl' in Hple. destruct (payload_commit l e e' Hle Hle' Hple) as [Hpay|?]; [|by right].
    destruct (IH evs') as [[H1 H2]|Hbad]; [done..|congruence| |].
    + left. rewrite !map_app, H1, H2. cbn. by rewrite Hc, Hpay.
    + right. revert Hbad. rewrite El. apply collides_mono, Hsub. set_solver.
Qed.

(** ** The invariant of a chain the kernel builds *)

Definition cp_sum (cps : list ChainCheckpoint) : N :=
  foldr (fun cp n => cp_events_since_last cp + n) 0 cps.
#[global] Arguments cp_sum : simpl never.

Record chain_inv (c : LocalChain) : Prop := {
  ci_valid : verify_from zero_hash (lc_events c) = [];
  ci_tip : lc_last_hash c = tip zero_hash (lc_events c);
  ci_seqs : map ce_sequence (lc_events c) = map N.of_nat (seq 0 (length (lc_events c)));
  ci_next : lc_sequence c = lenN (lc_events c);
  ci_ids : Forall (fun e => ce_chain_id e = lc_chain_id c) (lc_events c);
  ci_witness : lc_witness c = map witness_for (lc_events c);
  ci_count : cp_sum (lc_checkpoints c) + lc_since_checkpoint c = lenN (lc_events c);
  ci_due : 0 < lc_checkpoint_interval c -> lc_since_checkpoint c < lc_checkpoint_interval c;
  ci_hub : lc_hub c = lc_events c;
}.

(** What replication and loading keep: also true of a chain loaded from a
    numbered list of events, which has no checkpoints, witnesses or feed yet. *)
Record chain_ok (c : LocalChain) : Prop := {
  co_valid : verify_from zero_hash (lc_events c) = [];
  co_tip : lc_last_hash c = tip zero_hash (lc_events c);
  co_seqs : map ce_sequence (lc_events c) = map N.of_nat (seq 0 (length (lc_events c)));
  co_next : lc_sequence c = lenN (lc_events c);
  co_ids : Forall (fun e => ce_chain_id e = lc_chain_id c) (lc_events c);
}.

Lemma inv_ok c : chain_inv c -> chain_ok c.
Proof. by intros []. Qed.

Lemma cp_sum_snoc cps cp : cp_sum (cps ++ [cp]) = cp_sum cps + cp_events_since_last cp.
Proof. unfold cp_sum. induction cps as [|x cps IH]; cbn in *; lia. Qed.

Lemma checkpoint_inv c now : chain_inv c -> chain_inv (create_checkpoint c now).1.
Proof.
  intros []. split; cbn; try done. rewrite cp_sum_snoc. cbn. lia.
Qed.

Lemma push_ok c e now' since :
  chain_ok c -> link (lc_last_hash c) e -> ce_sequence e = lc_sequence c -> ce_chain_id e = lc_chain_id c ->
  chain_ok (auto_checkpoint
    (mkChain (lc_chain_id c) (lc_events c ++ [e]) (ce_hash e) (ce_sequence e + 1)
       (lc_checkpoint_interval c) since (lc_checkpoints c)
       (lc_witness c ++ [witness_for e]) (lc_max_replay c) (lc_hub c ++ [e])) now').
Proof.
  intros [Hv Ht Hs Hn Hi] Hl Hse Hid. unfold auto_checkpoint. destruct (_ && _); (split; cbn; [|by rewrite tip_snoc| | |]);
    try (apply verify_from_snoc; by rewrite <- Ht);
    try (rewrite map_app, length_app, seq_app, map_app, Hs; cbn; by rewrite Hse, Hn);
    try (by rewrite Hse, Hn, lenN_app);
    (apply Forall_app; split; [done|]; by repeat constructor).
Qed.

(** Pushing an event that links, with the next sequence number. *)
Lemma push_inv c e now' since :
  chain_inv c -> link (lc_last_hash c) e -> ce_sequence e = lc_sequence c ->
  ce_chain_id e = lc_chain_id c -> lenN (lc_events c) + 1 < u64_mod ->
  since = lc_since_checkpoint c + 1 ->
  chain_inv (auto_checkpoint
    (mkChain (lc_chain_id c) (lc_events c ++ [e]) (ce_hash e) (ce_sequence e + 1)
       (lc_checkpoint_interval c) since (lc_checkpoints c)
       (lc_witness c ++ [witness_for e]) (lc_max_replay c) (lc_hub c ++ [e])) now').
Proof.
  intros [Hv Ht Hs Hn Hi Hw Hc Hd Hh] Hl Hse Hid Hlen ->.
  set (c' := mkChain _ _ _ _ _ _ _ _ _ _).
  assert ((0 < lc_checkpoint_interval c ->
           lc_since_checkpoint c + 1 < lc_checkpoint_interval c) -> chain_inv c') as Hinv.
  { intros Hdue. split; cbn; try done.
    - apply verify_from_snoc. by rewrite <- Ht.
    - by rewrite tip_snoc.
    - rewrite map_app, length_app, seq_app, map_app, Hs. cbn. rewrite Hse, Hn. done.
    - rewrite Hse, Hn, lenN_app. done.
    - apply Forall_app. split; [done|]. by repeat constructor.
    - by rewrite map_app, Hw.
    - rewrite lenN_app. unfold lenN in *. cbn [length]. lia.
    - by rewrite Hh. }
  unfold auto_checkpoint. subst c'. cbn [lc_checkpoint_interval lc_since_checkpoint].
  destruct (N.ltb_spec 0 (lc_checkpoint_interval c)); cbn [andb]; [|apply Hinv; lia].
  destruct (N.leb_spec (lc_checkpoint_interval c) (lc_since_checkpoint c + 1)); [|by apply Hinv].
  split; cbn; try done.
  - apply verify_from_snoc. by rewrite <- Ht.
  - by rewrite tip_snoc.
  - rewrite map_app, length_app, seq_app, map_app, Hs. cbn. rewrite Hse, Hn. done.
  - rewrite Hse, Hn, lenN_app. done.
  - apply Forall_app. split; [done|]. by repeat constructor.
  - by rewrite map_app, Hw.
  - rewrite cp_sum_snoc, lenN_app. unfold lenN in *. cbn [length cp_events_since_last]. lia.
  - by rewrite Hh.
Qed.

Lemma append_inv c now now' stamp source kind payload key :
  chain_inv c -> lenN (lc_events c) + 1 < u64_mod ->
  chain_inv (append_with_key c now now' stamp source kind payload key).1.
Proof.
  intros Hinv Hlen. unfold append_with_key. cbn [fst].
  pose proof (ci_next c Hinv) as Hn. pose proof (ci_count c Hinv) as Hc.
  rewrite !wrap_add64_small by lia.
  match goal with |- chain_inv (auto_checkpoint (mkChain _ (_ ++ [?e]) _ _ _ _ _ _ _ _) _) =>
    apply (push_inv c e) end; done.
Qed.

(** A remote event is accepted exactly when it extends the chain. *)
Definition accepts (c : LocalChain) (e : ChainEvent) : Prop :=
  is_reserved_source (ce_source e) = false /\ is_reserved_kind (ce_kind e) = false /\
  ce_chain_id e = lc_chain_id c /\ ce_sequence e = lc_sequence c /\
  link (lc_last_hash c) e.

Lemma no_seq_ahead c e :
  chain_ok c -> lenN (lc_events c) <= ce_sequence e ->
  list_find (fun x => ce_sequence x = ce_sequence e) (lc_events c) = None.
Proof.
  intros Hinv Hle. apply list_find_None, Forall_forall. intros x Hx Hs.
  assert (ce_sequence x ∈ map N.of_nat (seq 0 (length (lc_events c)))) as Hin.
  { rewrite <- (co_seqs c Hinv). apply list_elem_of_fmap. eauto. }
  apply list_elem_of_fmap in Hin as (k & Hk & Hk'). apply elem_of_seq in Hk'.
  unfold lenN in Hle. lia.
Qed.

Lemma append_signed_cases c now' e :
  chain_ok c ->
  (accepts c e /\
   append_signed c now' e
   = (auto_checkpoint
        (mkChain (lc_chain_id c) (lc_events c ++ [e]) (ce_hash e) (sat_add64 (ce_sequence e) 1)
           (lc_checkpoint_interval c) (sat_add64 (lc_since_checkpoint c) 1) (lc_checkpoints c)
           (lc_witness c ++ [witness_for e]) (lc_max_replay c) (lc_hub c ++ [e])) now', Ok e)) \/
  (~ accepts c e /\ exists err, append_signed c now' e = (c, Err err)).
Proof.
  intros Hinv. unfold append_signed, accepts, link.
  destruct (is_reserved_source (ce_source e)); cbn [orb]; [right; naive_solver|].
  destruct (is_reserved_kind (ce_kind e)); cbn [orb]; [right; naive_solver|].
  destruct (list_find (fun x => ce_sequence x = ce_sequence e) (lc_events c)) as [[i x]|] eqn:Hf.
  { right. split; [|repeat case_match; eauto].
    intros (_ & _ & _ & Hseq & _). rewrite no_seq_ahead in Hf; [done|done|].
    rewrite Hseq, (co_next c Hinv). lia. }
  destruct (N.eqb_spec (ce_chain_id e) (lc_chain_id c)); cbn [negb]; [|right; naive_solver].
  destruct (N.ltb_spec (ce_sequence e) (lc_sequence c)); [right; split; [|eauto]; intros (?&?&?&?&?); lia|].
  destruct (N.ltb_spec (lc_sequence c) (ce_sequence e)); [right; split; [|eauto]; intros (?&?&?&?&?); lia|].
  destruct (bool_decide_reflect (ce_prev_hash e = lc_last_hash c)); cbn [negb]; [|right; naive_solver].
  destruct (bool_decide_reflect (ce_payload_hash e = compute_payload_hash (ce_payload e)));
    cbn [negb]; [|right; naive_solver].
  destruct (bool_decide_reflect (ce_hash e = hash_of e)); cbn [negb]; [|right; naive_solver].
  left. split; [|done]. repeat split; try done. lia.
Qed.

Lemma append_signed_inv c now' e :
  chain_inv c -> lenN (lc_events c) + 1 < u64_mod -> chain_inv (append_signed c now' e).1.
Proof.
  intros Hinv Hlen. destruct (append_signed_cases c now' e (inv_ok c Hinv)) as [[Ha ->]|[_ [err ->]]]; [|done].
  destruct Ha as (_ & _ & Hid & Hseq & Hl). cbn [fst].
  pose proof (ci_next c Hinv) as Hn. pose proof (ci_count c Hinv) as Hc.
  rewrite !sat_add64_small by lia. by apply push_inv.
Qed.

Inductive ChainOp :=
| OpAppend (now now' : Z) (stamp : option bytes) (source kind : string) (payload : option Json)
| OpIdempotent (now now' : Z) (stamp : option bytes) (source kind : string) (payload : option Json)
    (key : option bytes)
| OpSigned (now' : Z) (e : ChainEvent)
| OpCheckpoint (now : Z).

Definition chain_step (c : LocalChain) (op : ChainOp) : LocalChain :=
  match op with
  | OpAppend now now' stamp source kind payload => (local_append c now now' stamp source kind payload).1
  | OpIdempotent now now' stamp source kind payload key =>
      (append_idempotent c now now' stamp source kind payload key).1
  | OpSigned now' e => (append_signed c now' e).1
  | OpCheckpoint now => (create_checkpoint c now).1
  end.

Lemma auto_checkpoint_events c now : lc_events (auto_checkpoint c now) = lc_events c.
Proof. unfold auto_checkpoint. by destruct (_ && _). Qed.

(** The event an append adds *)
Lemma append_event_fields c now now' stamp source kind payload key :
  exists e, lc_events (append_with_key c now now' stamp source kind payload key).1 = lc_events c ++ [e] /\
    ce_sequence e = lc_sequence c /\ ce_timestamp e = now /\ ce_source e = source /\ ce_kind e = kind /\
    ce_payload e = payload /\ ce_rule_hash e = stamp.
Proof.
  unfold append_with_key. cbn [fst]. rewrite auto_checkpoint_events. cbn [lc_events].
  eexists. split; [done|]. done.
Qed.

Lemma chain_step_inv c op :
  chain_inv c -> lenN (lc_events c) + 1 < u64_mod -> chain_inv (chain_step c op).
Proof.
  intros Hinv Hlen. destruct op; cbn [chain_step].
  - by apply append_inv.
  - unfold append_idempotent. destruct key; [|by apply append_inv].
    destruct (list_find _ _) as [[? ?]|]; [done|]. by apply append_inv.
  - by apply append_signed_inv.
  - by apply checkpoint_inv.
Qed.

Lemma chain_step_length c op :
  chain_inv c -> (length (lc_events (chain_step c op)) <= S (length (lc_events c)))%nat.
Proof.
  intros Hinv. destruct op; cbn [chain_step].
  - unfold local_append, append_with_key. cbn [fst].
    rewrite auto_checkpoint_events. cbn. rewrite length_app. cbn. lia.
  - unfold append_idempotent, append_with_key.
    destruct key; [destruct (list_find _ _) as [[? ?]|]|]; cbn [fst]; [lia|..];
      rewrite auto_checkpoint_events; cbn; rewrite length_app; cbn; lia.
  - destruct (append_signed_cases c now' e (inv_ok c Hinv)) as [[_ ->]|[_ [err ->]]]; cbn [fst]; [|lia].
    rewrite auto_checkpoint_events. cbn. rewrite length_app. cbn. lia.
  - cbn. lia.
Qed.

Lemma chain_new_inv chain_id interval now now' :
  chain_inv (chain_new chain_id interval now now').
Proof.
  unfold chain_new, local_append. apply append_inv; [|done].
  split; cbn; done.
Qed.

(** C1: The audit chain stays intact.  From genesis, through any sequence of
    local appends, keyed appends, replicated events and checkpoints, the chain
    passes its own integrity check, its events are numbered from zero without
    gap, all carry its chain id, every event has its witness, the checkpoints
    together with the open interval account for every event, no interval
    outgrows its bound, and the live feed has carried each event once. *)
Theorem chain_stays_valid chain_id interval now now' ops :
  lenN ops + 2 < u64_mod ->
  let c := foldl chain_step (chain_new chain_id interval now now') ops in
  valid (verify_integrity c) = true /\
  map ce_sequence (lc_events c) = map N.of_nat (seq 0 (length (lc_events c))) /\
  lc_sequence c = lenN (lc_events c) /\ head_hash c = lc_last_hash c /\
  Forall (fun e => ce_chain_id e = lc_chain_id c) (lc_events c) /\
  lc_witness c = map witness_for (lc_events c) /\
  cp_sum (lc_checkpoints c) + lc_since_checkpoint c = lenN (lc_events c) /\
  (0 < lc_checkpoint_interval c -> lc_since_checkpoint c < lc_checkpoint_interval c) /\
  lc_hub c = lc_events c.
Proof.
  intros Hlen. cbn zeta.
  assert (forall c, chain_inv c -> lenN (lc_events c) + lenN ops < u64_mod ->
            chain_inv (foldl chain_step c ops)) as Hgen.
  { clear Hlen. induction ops as [|op ops IH]; intros c Hinv Hl; [done|]. cbn [foldl].
    unfold lenN in *. cbn [length] in Hl.
    pose proof (chain_step_length c op Hinv). apply IH; [|lia].
    apply chain_step_inv; [done|]. unfold lenN. lia. }
  destruct (Hgen (chain_new chain_id interval now now')) as [Hv Ht Hs Hn Hi Hw Hc Hd Hh].
  { apply chain_new_inv. }
  { unfold chain_new, local_append, append_with_key. cbn [fst].
    rewrite auto_checkpoint_events. unfold lenN in *. cbn. lia. }
  split_and!; try done.
  unfold verify_integrity. by rewrite Hv.
Qed.

(** ** Replication *)

(** A replicated event is accepted exactly when it extends the chain: not
    under a reserved source or kind, same chain id, next sequence number, linked
    to the head, with matching payload and event hashes.  Accepting appends
    exactly that event; refusing changes nothing. *)
Theorem append_signed_spec c now' e :
  chain_inv c ->
  let '(c', r) := append_signed c now' e in
  (r = Ok e <-> accepts c e) /\
  (accepts c e -> lc_events c' = lc_events c ++ [e] /\ lc_last_hash c' = ce_hash e) /\
  (~ accepts c e -> c' = c /\ exists err, r = Err err).
Proof.
  intros Hinv. destruct (append_signed_cases c now' e (inv_ok c Hinv)) as [[Ha ->]|[Hn [err ->]]].
  - split; [done|]. split; [|done]. intros _. rewrite auto_checkpoint_events. split; [done|].
    unfold auto_checkpoint. by destruct (_ && _).
  - split; [done|]. split; [done|]. eauto.
Qed.

(** Events a peer may receive: none under a reserved source or kind. *)
Definition replicable (e : ChainEvent) : Prop :=
  is_reserved_source (ce_source e) = false /\ is_reserved_kind (ce_kind e) = false.

Lemma signed_step c now' e :
  chain_ok c -> accepts c e -> lenN (lc_events c) + 1 < u64_mod ->
  let c' := (append_signed c now' e).1 in
  chain_ok c' /\ lc_events c' = lc_events c ++ [e] /\ lc_chain_id c' = lc_chain_id c.
Proof.
  intros Hinv Ha Hlen. cbn zeta. destruct (append_signed_cases c now' e Hinv) as [[_ ->]|[Hn _]]; [|done]. cbn [fst].
  destruct Ha as (_ & _ & Hid & Hseq & Hl). rewrite sat_add64_small by (rewrite Hseq, (co_next c Hinv); lia).
  split; [by apply push_ok|]. rewrite auto_checkpoint_events. unfold auto_checkpoint. by destruct (_ && _).
Qed.

Lemma seqs_lookup c i e :
  chain_ok c -> lc_events c !! i = Some e -> ce_sequence e = N.of_nat i.
Proof.
  intros Hinv Hi. pose proof (co_seqs c Hinv) as Hs.
  assert (map ce_sequence (lc_events c) !! i = Some (ce_sequence e)) as H1
    by (rewrite list_lookup_fmap, Hi; done).
  rewrite Hs, list_lookup_fmap in H1.
  destruct (seq 0 (length (lc_events c)) !! i) as [k|] eqn:Hk; [|done].
  apply lookup_seq in Hk as [-> _]. cbn in H1. congruence.
Qed.

Lemma tail_from_suffix peer replica evs :
  chain_ok peer -> chain_ok replica ->
  lc_events peer = lc_events replica ++ evs -> lc_events replica <> [] ->
  tail_from peer (head_sequence replica) = evs.
Proof.
  intros Hp Hr Heq Hne. unfold tail_from, head_sequence.
  destruct (last (lc_events replica)) as [x|] eqn:Hx; [|by apply last_None in Hx].
  pose proof Hx as Hx'. rewrite last_lookup in Hx'. apply seqs_lookup in Hx' as Hsx; [|done].
  assert (length (lc_events replica) > 0)%nat by (by destruct (lc_events replica); [|cbn; lia]).
  rewrite Heq, filter_app, list_filter_none, list_filter_all; [done|..].
  - intros y [j Hj]%list_elem_of_lookup. cbn.
    rewrite (seqs_lookup peer (length (lc_events replica) + j) y); [lia|done|].
    rewrite Heq, lookup_app_r by lia. by replace (_ + j - _)%nat with j by lia.
  - intros y [j Hj]%list_elem_of_lookup. cbn.
    rewrite (seqs_lookup replica j y) by done. apply lookup_lt_Some in Hj. lia.
Qed.

(** The peer's next event is one the replica accepts. *)
Lemma accepts_next peer replica e evs :
  chain_ok peer -> chain_ok replica ->
  lc_events peer = lc_events replica ++ e :: evs -> lc_chain_id replica = lc_chain_id peer ->
  replicable e -> accepts replica e.
Proof.
  intros Hp Hr Heq Hid [Hs Hk]. split_and!; try done.
  - pose proof (co_ids peer Hp) as Hi. rewrite Heq in Hi.
    apply Forall_app in Hi as [_ Hi]. apply Forall_cons in Hi as [-> _]. done.
  - rewrite (seqs_lookup peer (length (lc_events replica)) e), (co_next replica Hr); [done|done|].
    by rewrite Heq, lookup_app_r, Nat.sub_diag by lia.
  - pose proof (co_valid peer Hp) as Hv. rewrite Heq in Hv.
    replace (lc_events replica ++ e :: evs) with ((lc_events replica ++ [e]) ++ evs) in Hv
      by (by rewrite <- app_assoc).
    apply verify_from_app in Hv as [Hv _]. apply verify_from_snoc in Hv as [_ Hl].
    by rewrite (co_tip replica Hr).
Qed.

(** Loading a beginning of a chain gives such a chain. *)
Lemma from_events_ok c evs evs' interval c' :
  chain_ok c -> lenN (lc_events c) < u64_mod -> lc_events c = evs ++ evs' -> chain_from_events evs interval = Ok c' ->
  chain_ok c' /\ lc_events c' = evs /\ lc_chain_id c' = lc_chain_id c.
Proof.
  intros Hc Hlen Heq. unfold chain_from_events. destruct evs as [|e l] eqn:He; [done|]. rewrite <- He in *.
  destruct (valid (verify_integrity _)) eqn:Hv; [|done]. intros [= <-].
  assert (ce_chain_id e = lc_chain_id c) as Hid.
  { apply (proj1 (Forall_forall _ _) (co_ids c Hc)). rewrite Heq, He. by left. }
  assert (lc_events (local_from_events (ce_chain_id e) interval evs []) = evs) as Hev.
  { unfold local_from_events. by destruct (last evs). }
  assert (lc_chain_id (local_from_events (ce_chain_id e) interval evs []) = lc_chain_id c) as Hcid.
  { unfold local_from_events. by destruct (last evs). }
  split; [|done]. unfold verify_integrity, valid in Hv. rewrite Hev in Hv. apply bool_decide_eq_true in Hv.
  pose proof (co_seqs c Hc) as Hs. rewrite Heq, map_app, length_app, seq_app, map_app in Hs.
  apply app_inj_1 in Hs as [Hs _]; [|by rewrite !length_map, length_seq].
  destruct (last evs) as [x|] eqn:Hx; [|apply last_None in Hx; congruence].
  split; rewrite ?Hev; try done; unfold local_from_events; rewrite Hx; cbn [lc_last_hash lc_sequence lc_chain_id].
  - unfold tip. by rewrite Hx.
  - assert (ce_sequence x = N.of_nat (length evs - 1)) as Hq.
    { rewrite last_lookup in Hx. pose proof (lookup_lt_Some _ _ _ Hx) as Hlt. apply (f_equal (lookup (pred (length evs)))) in Hs.
      rewrite !list_lookup_fmap, Hx, lookup_seq_lt in Hs by lia. injection Hs as ->. lia. }
    rewrite Hq, wrap_add64_small; unfold lenN in *; rewrite Heq, length_app in Hlen; rewrite He in *; cbn [length] in *; lia.
  - rewrite Hid. apply Forall_forall. intros y Hy. apply (proj1 (Forall_forall _ _) (co_ids c Hc)). rewrite Heq. set_solver.
Qed.

(** C3: Catching up converges.  A replica whose events are a beginning of a
    peer's chain of the same id, fed the events the peer has after the
    replica's head, ends with exactly the peer's events, provided none of them
    is of a reserved source or kind.  Both chains verify, are numbered from
    zero and know their own end, which holds of chains grown by appends and of
    chains loaded from a beginning of such a chain. *)
Theorem catch_up peer replica evs clock :
  chain_ok peer -> chain_ok replica ->
  lc_events peer = lc_events replica ++ evs -> lc_events replica <> [] ->
  lc_chain_id replica = lc_chain_id peer ->
  Forall replicable evs -> lenN (lc_events peer) < u64_mod ->
  tail_from peer (head_sequence replica) = evs /\
  lc_events (foldl (fun c e => (append_signed c clock e).1) replica
               (tail_from peer (head_sequence replica))) = lc_events peer.
Proof.
  intros Hp Hr Heq Hne Hid Hrep Hlen.
  assert (tail_from peer (head_sequence replica) = evs) as Htail.
  { by apply tail_from_suffix. }
  split; [done|]. rewrite Htail. clear Htail Hne.
  revert replica Hr Heq Hid. induction evs as [|e evs IH]; intros replica Hr Heq Hid.
  { by rewrite app_nil_r in Heq. }
  cbn [foldl]. apply Forall_cons in Hrep as [[Hs Hk] Hrep].
  pose proof (accepts_next peer replica e evs Hp Hr Heq Hid (conj Hs Hk)) as Ha.
  destruct (signed_step replica clock e Hr Ha) as (Hr' & He' & Hi').
  { rewrite Heq, lenN_app in Hlen. unfold lenN in *. cbn [length] in *. lia. }
  apply IH; [done|done|by rewrite He', <- app_assoc|congruence].
Qed.

(** ** Keyed appends *)

(** The search from the end finds the last event with the key. *)
Lemma find_last_keyed l later e k :
  ce_idempotency_key e = Some k -> (length later < IDEMPOTENCY_LOOKBACK)%nat ->
  (forall x, x ∈ later -> ce_idempotency_key x <> Some k) ->
  list_find (fun x => ce_idempotency_key x = Some k)
    (rev (drop (length (l ++ e :: later) - IDEMPOTENCY_LOOKBACK) (l ++ e :: later)))
  = Some (length later, e).
Proof.
  intros Hk Hlen Hother. rewrite drop_app_le by (rewrite length_app; cbn; lia).
  rewrite rev_app_distr. cbn [rev]. rewrite <- app_assoc.
  apply list_find_Some. split_and!; [|done|].
  - rewrite lookup_app_r by (rewrite length_rev; lia). by rewrite length_rev, Nat.sub_diag.
  - intros j y Hj Hlt. rewrite lookup_app_l in Hj by (rewrite length_rev; lia). apply Hother.
    apply list_elem_of_lookup_2, list_elem_of_In, in_rev, list_elem_of_In in Hj. done.
Qed.

(** Retried writes are not duplicated.  A keyed append returns an event
    that carries the key: one of the last thousand, leaving the chain alone,
    or a new event appended at the end.  When it appended one, a retry with
    the same key, whatever else it carries, changes nothing and returns that
    same event, as long as fewer than a thousand events followed it and none
    of them carries the key. *)
Theorem idempotent_append c now now' stamp source kind payload k c1 e :
  append_idempotent c now now' stamp source kind payload (Some k) = (c1, e) ->
  ce_idempotency_key e = Some k /\
  ((c1 = c /\ e ∈ lc_events c) \/ lc_events c1 = lc_events c ++ [e]) /\
  forall c2 later rnow rnow' rstamp rsource rkind rpayload,
    lc_events c1 = lc_events c ++ [e] -> lc_events c2 = lc_events c1 ++ later ->
    (length later < IDEMPOTENCY_LOOKBACK)%nat ->
    (forall x, x ∈ later -> ce_idempotency_key x <> Some k) ->
    append_idempotent c2 rnow rnow' rstamp rsource rkind rpayload (Some k) = (c2, e).
Proof.
  intros Hfirst.
  assert (ce_idempotency_key e = Some k /\
    ((c1 = c /\ e ∈ lc_events c) \/ lc_events c1 = lc_events c ++ [e])) as [Hk Hev].
  { unfold append_idempotent in Hfirst.
    destruct (list_find _ _) as [[i prior]|] eqn:Hf.
    - injection Hfirst as <- <-. apply list_find_Some in Hf as (Hi & Hk & _). split; [done|]. left. split; [done|].
      apply list_elem_of_lookup_2, list_elem_of_In, in_rev, list_elem_of_In in Hi.
      rewrite <- (take_drop (length (lc_events c) - IDEMPOTENCY_LOOKBACK) (lc_events c)). set_solver.
    - unfold append_with_key in Hfirst. injection Hfirst as <- <-. split; [done|]. right.
      by rewrite auto_checkpoint_events. }
  split; [done|]. split; [done|]. clear Hfirst Hev.
  intros c2 later rnow rnow' rstamp rsource rkind rpayload Hev Hc2 Hlen Hother.
  unfold append_idempotent. rewrite Hc2, Hev, <- app_assoc.
  by rewrite (find_last_keyed (lc_events c) later e).
Qed.

(** ** The events of one source

    A component that owns a reserved source finds on the chain exactly what it
    appended: nothing else writes local events under its source, and
    replicated events may not claim it. *)

Definition of_source (source : string) (c : LocalChain) : list ChainEvent :=
  filter (fun e => ce_source e = source) (tail_from c 0).

Definition neutral_for (source : string) (op : ChainOp) : Prop :=
  match op with
  | OpAppend _ _ _ s _ _ | OpIdempotent _ _ _ s _ _ _ => s <> source
  | OpSigned _ _ | OpCheckpoint _ => True
  end.

Lemma tail_extends c c' k : lc_events c' = lc_events c ++ k -> exists k', tail_from c' 0 = tail_from c 0 ++ k'.
Proof. intros E. unfold tail_from. rewrite E, filter_app. by eexists. Qed.

Lemma chain_new_tail chain_id interval now now' :
  let c := chain_new chain_id interval now now' in lc_events c <> [] /\ tail_from c 0 = [].
Proof.
  cbn zeta. unfold chain_new, local_append.
  destruct (append_event_fields (local_new chain_id interval) now now' None "chain" "genesis"
    (Some (JObj [("chain_id", json_num chain_id)])) None) as (e & He & Hs & _). set (c := (append_with_key _ _ _ _ _ _ _ _).1) in *.
  clearbody c. split; [by rewrite He|]. unfold tail_from. rewrite He.
  change (lc_events (local_new chain_id interval)) with (@nil ChainEvent). cbn [app].
  rewrite filter_cons, filter_nil, decide_False; [done|]. rewrite Hs. cbn. lia.
Qed.

Lemma append_tail c now now' stamp source kind payload key :
  chain_inv c -> lc_events c <> [] ->
  let c' := (append_with_key c now now' stamp source kind payload key).1 in
  exists e, lc_events c' = lc_events c ++ [e] /\ tail_from c' 0 = tail_from c 0 ++ [e] /\
    ce_sequence e = lc_sequence c /\ ce_source e = source /\ ce_kind e = kind /\ ce_payload e = payload.
Proof.
  intros Hinv Hne. cbn zeta.
  destruct (append_event_fields c now now' stamp source kind payload key) as (e & He & Hs & _ & Hf & Hk & Hp & _).
  exists e. split; [done|]. split; [|done]. unfold tail_from. rewrite He, filter_app. f_equal.
  rewrite filter_cons, filter_nil, decide_True; [done|].
  rewrite Hs, (ci_next c Hinv). unfold lenN. destruct (lc_events c); [done|]. cbn [length]. lia.
Qed.

Lemma neutral_source source c op :
  is_reserved_source source = true -> chain_inv c -> lc_events c <> [] -> neutral_for source op ->
  (exists k, lc_events (chain_step c op) = lc_events c ++ k) /\ of_source source (chain_step c op) = of_source source c.
Proof.
  intros Hres Hinv Hne Hn. unfold of_source.
  assert (forall now now' stamp s kind payload key, s <> source ->
    let c' := (append_with_key c now now' stamp s kind payload key).1 in
    (exists k, lc_events c' = lc_events c ++ k) /\
    filter (fun e => ce_source e = source) (tail_from c' 0) = filter (fun e => ce_source e = source) (tail_from c 0)) as Ha.
  { intros now now' stamp s kind payload key Hs. cbn zeta.
    destruct (append_tail c now now' stamp s kind payload key Hinv Hne) as (e & He & -> & _ & Hse & _).
    split; [by eexists|]. rewrite filter_app, filter_cons, filter_nil, decide_False by congruence. apply app_nil_r. }
  assert (exists k, lc_events c = lc_events c ++ k) as Hid by (exists []; by rewrite app_nil_r).
  destruct op as [now now' stamp s kind payload|now now' stamp s kind payload key|now' e|now]; cbn [chain_step neutral_for] in *.
  - by apply Ha.
  - unfold append_idempotent. destruct key; [|by apply Ha]. destruct (list_find _ _) as [[? ?]|]; [by split|by apply Ha].
  - destruct (append_signed_cases c now' e (inv_ok c Hinv)) as [[(Hs & _) E]|[_ [err ->]]]; [|by split]. rewrite E. cbn [fst].
    unfold tail_from. rewrite auto_checkpoint_events. cbn [lc_events]. split; [by eexists|].
    rewrite !filter_app. rewrite <- (app_nil_r (filter _ (filter _ (lc_events c)))) at 2. f_equal.
    rewrite filter_cons, filter_nil. case_decide; [|done].
    rewrite filter_cons, filter_nil, decide_False; [done|]. intros Hq. congruence.
  - by split.
Qed.

End Chain.

(** ** Limits of the commitment *)

(** The separators do not protect names that contain a zero byte: two
    events that differ in source and kind have the same hash, whatever the
    hash function. *)
Theorem separator_collision shake256 sequence chain_id prev timestamp payload_hash rule_hash :
  let nul := string_of_list_byte [x00] in
  let hash source kind :=
    compute_event_hash shake256 sequence chain_id prev source kind timestamp payload_hash rule_hash in
  hash ("a" +:+ nul +:+ "b") "c" = hash "a" ("b" +:+ nul +:+ "c").
Proof. reflexivity. Qed.

(** ** Examples *)

Module ChainExample.

(** A stand-in digest: the low 32 bytes. *)
Definition digest (b : bytes) : bytes := le_bytes 32 (le_val b).
Definition render (j : Json) : bytes := match j with JObj l => str_bytes (String.concat "" l.*1) | _ => [] end.

Definition genesis : LocalChain := chain_new digest render 7 2 1000000000 1000000001.
Definition ops : list ChainOp :=
  [OpAppend 2000000000 0 None "kernel" "boot" (Some (JObj [("a", JNull)]));
   OpIdempotent 3000000000 0 (Some (replicate 32 xaa)) "mesh" "join" None (Some (replicate 32 x11));
   OpIdempotent 4000000000 0 None "mesh" "join" None (Some (replicate 32 x11));
   OpCheckpoint 5].
Definition grown : LocalChain := foldl (chain_step digest render) genesis ops.

Lemma genesis_inv : chain_inv digest render genesis.
Proof. apply chain_new_inv. Qed.

Lemma grown_inv : chain_inv digest render grown.
Proof.
  unfold grown, ops. cbn [foldl].
  repeat (apply chain_step_inv; [|vm_compute; reflexivity]). apply genesis_inv.
Qed.

Lemma wf_check l : forallb event_wfb l = true -> Forall event_wf l.
Proof. intros H. apply Forall_forall. intros e He%list_elem_of_In. rewrite forallb_forall in H. by apply event_wfb_wf, H. Qed.

Lemma grown_wf : Forall event_wf (lc_events grown).
Proof. apply wf_check. by_vm. Qed.

(** The same event as far as the hash goes: another payload with the same
    text, no idempotency key *)
Definition retell (e : ChainEvent) : ChainEvent :=
  mkEvent (ce_sequence e) (ce_chain_id e) (ce_timestamp e) (ce_prev_hash e) (ce_hash e) (ce_payload_hash e) (ce_source e) (ce_kind e)
    (match ce_payload e with Some (JObj l) => Some (JObj (map (fun x => (x.1, JBool true)) l)) | p => p end) None (ce_rule_hash e).

(** A replica loaded from the first two events *)
Definition replica : LocalChain :=
  match chain_from_events digest render (take 2 (lc_events grown)) 5 with Ok c => c | Err _ => genesis end.

Lemma replica_loaded : chain_from_events digest render (take 2 (lc_events grown)) 5 = Ok replica.
Proof. by_vm. Qed.

End ChainExample.

Lemma chain_stays_valid_witness :
  valid (verify_integrity ChainExample.digest ChainExample.render ChainExample.grown) = true /\
  lenN (lc_events ChainExample.grown) = 3.
Proof.
  split; [|vm_compute; reflexivity].
  apply (chain_stays_valid ChainExample.digest ChainExample.render 7 2 1000000000 1000000001
    ChainExample.ops). reflexivity.
Defined.

Lemma tamper_evident_witness :
  let l := lc_events ChainExample.grown in
  let l' := map ChainExample.retell l in
  l <> l' /\ tip zero_hash l = tip zero_hash l' /\ map commit l = map commit l'.
Proof.
  cbn zeta. split; [|split; [by_vm|]].
  - intros E. apply (f_equal (fun l => bool_decide (omap ce_idempotency_key l = []))) in E. vm_compute in E. discriminate E.
  - destruct (tamper_evident ChainExample.digest ChainExample.render (lc_events ChainExample.grown)
      (map ChainExample.retell (lc_events ChainExample.grown))) as [[H _]|H].
    + apply ChainExample.grown_inv.
    + by_vm.
    + apply ChainExample.grown_wf.
    + apply ChainExample.wf_check. by_vm.
    + by_vm.
    + exact H.
    + exfalso. apply collides_b in H. vm_compute in H. discriminate H.
Defined.

Lemma append_signed_spec_witness :
  exists e, last (lc_events ChainExample.grown) = Some e /\
  (append_signed ChainExample.digest ChainExample.render ChainExample.genesis 0 e).1
  = ChainExample.genesis.
Proof.
  eexists. split; [vm_compute; reflexivity|].
  match goal with |- (append_signed _ _ _ _ ?e).1 = _ =>
    pose proof (append_signed_spec ChainExample.digest ChainExample.render ChainExample.genesis 0 e
      ChainExample.genesis_inv) as Hs;
    destruct (append_signed ChainExample.digest ChainExample.render ChainExample.genesis 0 e)
      as [c' r] eqn:Hr end.
  destruct Hs as (_ & _ & Hs). apply Hs. intros (_ & _ & _ & Hseq & _).
  vm_compute in Hseq. discriminate Hseq.
Defined.

Lemma catch_up_witness :
  lc_events (foldl (fun c e => (append_signed ChainExample.digest ChainExample.render c 0 e).1)
    ChainExample.replica (tail_from ChainExample.grown (head_sequence ChainExample.replica)))
  = lc_events ChainExample.grown.
Proof.
  destruct (from_events_ok ChainExample.digest ChainExample.render ChainExample.grown (take 2 (lc_events ChainExample.grown)) (drop 2 (lc_events ChainExample.grown)) 5 ChainExample.replica
    (inv_ok _ _ _ ChainExample.grown_inv)) as (Hok & _ & _); [by_vm|by rewrite take_drop|exact ChainExample.replica_loaded|].
  refine (proj2 (catch_up ChainExample.digest ChainExample.render ChainExample.grown
    ChainExample.replica (drop 2 (lc_events ChainExample.grown)) 0
    (inv_ok _ _ _ ChainExample.grown_inv) Hok _ _ _ _ _)).
  - by_vm.
  - vm_compute. discriminate.
  - by_vm.
  - vm_compute. repeat constructor.
  - by_vm.
Defined.

Lemma idempotent_append_witness :
  let app c now := append_idempotent ChainExample.digest ChainExample.render c now now None "s" "k" None
                     (Some (replicate 32 x22)) in
  let c1 := (app ChainExample.genesis 9%Z).1 in
  app c1 10%Z = (c1, (app ChainExample.genesis 9%Z).2).
Proof.
  intros app c1.
  destruct (idempotent_append ChainExample.digest ChainExample.render ChainExample.genesis 9 9 None
    "s" "k" None (replicate 32 x22) c1 (app ChainExample.genesis 9%Z).2) as (_ & _ & H).
  - apply surjective_pairing.
  - apply (H c1 []).
    + vm_compute. reflexivity.
    + by rewrite app_nil_r.
    + cbn. unfold IDEMPOTENCY_LOOKBACK. lia.
    + by intros x ?%not_elem_of_nil.
Defined.
