(* ===== verification/ChainSub.v ===== *)
(** Chain subscriptions: crates/clawft-kernel/src/chain_subscribe.rs with
    [subscribe] and [replay_page] of chain.rs.  A subscription first pages
    through the retained events from its start, then follows the live feed.

    The live feed is the bounded broadcast channel of the chain: a receiver is
    its position in the sequence of published events, and a receiver more than
    the capacity behind is told how many it missed. *)

From S2P Require Import Prelude Codec Chain.
Open Scope N_scope.

Definition CHAIN_SUBSCRIBE_CAPACITY : N := 1024.
Definition REPLAY_PAGE : N := 256.
Definition REPLAY_SCAN : N := 4096.

Record ChainFilter := mkFilter {
  kind_prefix : option string;
  from_seq : option N;
}.

Definition prefix_matches (prefix : option string) (e : ChainEvent) : bool :=
  match prefix with Some p => starts_with p (ce_kind e) | None => true end.

(** [ChainFilter::matches] *)
Definition filter_matches (f : ChainFilter) (e : ChainEvent) : bool :=
  prefix_matches (kind_prefix f) e.

Inductive SubscribeError := ReplayWindowExceeded (requested oldest_allowed : N).

Inductive ChainItem :=
| Event (e : ChainEvent)
| Lagged (missed resume_from : N).

Record ChainSubscription := mkSub {
  sub_filter : ChainFilter;
  sub_cursor : N;
  sub_end : N;
  sub_page : list ChainEvent;
  sub_rx : N;
  sub_resume : N;
}.

(** [ChainManager::subscribe] with [ChainSubscription::new] *)
Definition subscribe (c : LocalChain) (f : ChainFilter) : result ChainSubscription SubscribeError :=
  let oldest := lc_sequence c - lc_max_replay c in
  let refused := match from_seq f with Some from => from <? oldest | None => false end in
  if refused then Err (ReplayWindowExceeded (default 0 (from_seq f)) oldest)
  else
    let cursor := N.min (default (lc_sequence c) (from_seq f)) (lc_sequence c) in
    Ok (mkSub f cursor (lc_sequence c) [] (lenN (lc_hub c)) cursor).

(** [partition_point(|e| e.sequence < from)] on events sorted by sequence *)
Fixpoint skip_below (from : N) (evs : list ChainEvent) : list ChainEvent :=
  match evs with
  | [] => []
  | e :: rest => if ce_sequence e <? from then skip_below from rest else evs
  end.

(** The loop of [replay_page]. *)
Fixpoint page_loop (evs : list ChainEvent) (stop : N) (prefix : option string) (limit scan : N)
  (scanned : N) (out : list ChainEvent) (next : N) : list ChainEvent * N :=
  match evs with
  | [] => (out, stop)
  | e :: evs =>
      if stop <=? ce_sequence e then (out, stop)
      else if (scan <=? scanned) || (limit <=? lenN out) then (out, next)
      else page_loop evs stop prefix limit scan (scanned + 1)
             (if prefix_matches prefix e then out ++ [e] else out) (ce_sequence e + 1)
  end.

(** [ChainManager::replay_page] *)
Definition replay_page (c : LocalChain) (from stop : N) (prefix : option string) (limit scan : N)
  : list ChainEvent * N :=
  page_loop (skip_below from (lc_events c)) stop prefix limit scan 0 [] from.

(** The first loop of [next]: fill the page until it has an event or the
    replay is over. *)
Fixpoint fill_page (fuel : nat) (c : LocalChain) (s : ChainSubscription) : ChainSubscription :=
  match fuel with
  | O => s
  | S fuel =>
      match sub_page s with
      | _ :: _ => s
      | [] =>
          if sub_end s <=? sub_cursor s then s
          else
            let '(page, next) := replay_page c (sub_cursor s) (sub_end s)
                                   (kind_prefix (sub_filter s)) REPLAY_PAGE REPLAY_SCAN in
            let cursor := if sub_cursor s <? next then next else sub_end s in
            fill_page fuel c (mkSub (sub_filter s) cursor (sub_end s) page (sub_rx s) (sub_resume s))
      end
  end.

(** The second loop, over the part of the live feed the receiver has not read;
    [None] when it has to wait. *)
Fixpoint recv_live (s : ChainSubscription) (feed : list ChainEvent)
  : ChainSubscription * option ChainItem :=
  match feed with
  | [] => (s, None)
  | e :: feed =>
      if ce_sequence e <? sub_end s then
        recv_live (mkSub (sub_filter s) (sub_cursor s) (sub_end s) (sub_page s) (sub_rx s + 1)
                     (sub_resume s)) feed
      else
        let s' := mkSub (sub_filter s) (sub_cursor s) (sub_end s) (sub_page s) (sub_rx s + 1)
                    (ce_sequence e + 1) in
        if negb (filter_matches (sub_filter s) e) then recv_live s' feed else (s', Some (Event e))
  end.

(** [ChainSubscription::next]; the replay needs at most one page per
    remaining sequence number. *)
Definition next (c : LocalChain) (s : ChainSubscription) : ChainSubscription * option ChainItem :=
  let s := fill_page (S (N.to_nat (sub_end s - sub_cursor s))) c s in
  match sub_page s with
  | e :: page =>
      (mkSub (sub_filter s) (sub_cursor s) (sub_end s) page (sub_rx s) (ce_sequence e + 1),
       Some (Event e))
  | [] =>
      let published := lenN (lc_hub c) in
      if CHAIN_SUBSCRIBE_CAPACITY <? published - sub_rx s then
        let oldest := published - CHAIN_SUBSCRIBE_CAPACITY in
        (mkSub (sub_filter s) (sub_cursor s) (sub_end s) [] oldest (sub_resume s),
         Some (Lagged (oldest - sub_rx s) (sub_resume s)))
      else recv_live s (drop (N.to_nat (sub_rx s)) (lc_hub c))
  end.

(** ** Events by position *)

Definition numbered (n : N) (evs : list ChainEvent) : Prop :=
  map ce_sequence evs = map (fun i => n + N.of_nat i) (seq 0 (length evs)).

Lemma numbered_cons n e evs : numbered n (e :: evs) <-> ce_sequence e = n /\ numbered (n + 1) evs.
Proof.
  unfold numbered. cbn [map length seq]. rewrite <- seq_shift, map_map. split.
  - intros [= -> ->]. split; [lia|]. apply map_ext. lia.
  - intros [-> ->]. f_equal; [lia|]. apply map_ext. lia.
Qed.

Lemma numbered_drop k evs : forall n, numbered n evs -> numbered (n + N.of_nat k) (drop k evs).
Proof.
  revert k. induction evs as [|e evs IH]; intros [|k] n H; cbn [drop]; try done.
  - by replace (n + N.of_nat 0) with n by lia.
  - apply numbered_cons in H as [_ H]. specialize (IH k _ H).
    replace (n + N.of_nat (S k)) with (n + 1 + N.of_nat k) by lia. done.
Qed.

(** The events with sequence in [[a, b)], when numbered from zero. *)
Definition span (evs : list ChainEvent) (a b : N) : list ChainEvent :=
  take (N.to_nat (b - a)) (drop (N.to_nat a) evs).

Definition matching (prefix : option string) (evs : list ChainEvent) : list ChainEvent :=
  filter (fun e => prefix_matches prefix e = true) evs.

Lemma matching_app p a b : matching p (a ++ b) = matching p a ++ matching p b.
Proof. apply filter_app. Qed.

Lemma matching_cons p e l :
  matching p (e :: l) = (if prefix_matches p e then [e] else []) ++ matching p l.
Proof. unfold matching. rewrite filter_cons. by destruct (prefix_matches p e). Qed.

Lemma span_split evs a b d : a <= b -> b <= d -> span evs a d = span evs a b ++ span evs b d.
Proof.
  intros Hab Hbd. unfold span.
  replace (N.to_nat (d - a)) with (N.to_nat (b - a) + N.to_nat (d - b))%nat by lia.
  assert (drop (N.to_nat b) evs = drop (N.to_nat (b - a)) (drop (N.to_nat a) evs)) as ->
    by (rewrite drop_drop; f_equal; lia).
  by rewrite take_take_drop.
Qed.

Lemma span_empty evs a : span evs a a = [].
Proof. unfold span. by rewrite N.sub_diag. Qed.

Lemma span_app evs evs' a b : b <= lenN evs -> span (evs ++ evs') a b = span evs a b.
Proof.
  intros Hb. unfold span, lenN in *. destruct (decide (N.to_nat a <= length evs)%nat).
  - rewrite drop_app_le by done. rewrite take_app_le; [done|]. rewrite length_drop. lia.
  - replace (N.to_nat (b - a)) with 0%nat by lia. done.
Qed.

Lemma skip_below_drop evs : forall n from,
  numbered n evs -> n <= from -> skip_below from evs = drop (N.to_nat (from - n)) evs.
Proof.
  induction evs as [|e evs IH]; intros n from Hn Hle; cbn [skip_below]; [by rewrite drop_nil|].
  apply numbered_cons in Hn as [He Hn]. destruct (N.ltb_spec (ce_sequence e) from).
  - rewrite (IH (n + 1)) by (done || lia).
    replace (N.to_nat (from - n)) with (S (N.to_nat (from - (n + 1)))) by lia. done.
  - replace (from - n) with 0 by lia. done.
Qed.

(** *** A page *)

Lemma page_loop_spec prefix limit scan stop evs : forall n scanned out,
  numbered n evs -> n <= stop -> stop <= n + lenN evs ->
  let '(out', next) := page_loop evs stop prefix limit scan scanned out n in
  n <= next /\ next <= stop /\ out' = out ++ matching prefix (take (N.to_nat (next - n)) evs) /\
  (n < stop -> scanned < scan -> lenN out < limit -> n < next).
Proof.
  induction evs as [|e evs IH]; intros n scanned out Hn Hle Hstop; cbn [page_loop].
  - unfold lenN in Hstop. cbn in Hstop. rewrite take_nil. cbn. rewrite app_nil_r.
    split_and!; try lia. done.
  - apply numbered_cons in Hn as [He Hn]. rewrite He.
    destruct (N.leb_spec stop n).
    { replace (stop - n) with 0 by lia. cbn. rewrite app_nil_r. split_and!; try lia. done. }
    destruct (N.leb_spec scan scanned), (N.leb_spec limit (lenN out)); cbn [orb];
      try (rewrite N.sub_diag; cbn; rewrite app_nil_r; split_and!; try lia; done).
    specialize (IH (n + 1) (scanned + 1) (if prefix_matches prefix e then out ++ [e] else out) Hn).
    destruct (page_loop _ _ _ _ _ _ _ _) as [out' next].
    destruct IH as (Ha & Hb & -> & _); [lia|unfold lenN in *; cbn in *; lia|].
    split_and!; try lia.
    replace (N.to_nat (next - n)) with (S (N.to_nat (next - (n + 1)))) by lia.
    cbn [take]. rewrite matching_cons, app_assoc. by destruct (prefix_matches prefix e); rewrite ?app_nil_r.
Qed.

Lemma replay_page_spec c from stop prefix :
  numbered 0 (lc_events c) -> from < stop -> stop <= lenN (lc_events c) ->
  let '(out, next) := replay_page c from stop prefix REPLAY_PAGE REPLAY_SCAN in
  from < next /\ next <= stop /\ out = matching prefix (span (lc_events c) from next).
Proof.
  intros Hn Hlt Hstop. unfold replay_page. rewrite (skip_below_drop _ 0) by (done || lia).
  rewrite N.sub_0_r. apply (numbered_drop (N.to_nat from)) in Hn. rewrite N2Nat.id, N.add_0_l in Hn.
  pose proof (page_loop_spec prefix REPLAY_PAGE REPLAY_SCAN stop (drop (N.to_nat from) (lc_events c))
    from 0 [] Hn) as Hp.
  destruct (page_loop _ _ _ _ _ _ _ _) as [out nxt].
  destruct Hp as (H1 & H2 & -> & H3); [lia| |].
  { unfold lenN in *. rewrite length_drop. lia. }
  split_and!; [by apply H3|done|]. done.
Qed.

(** ** The stream *)

(** What a subscription has still to deliver from a chain. *)
Definition pending (c : LocalChain) (s : ChainSubscription) : list ChainEvent :=
  let p := kind_prefix (sub_filter s) in
  sub_page s ++ matching p (span (lc_events c) (sub_cursor s) (sub_end s))
  ++ matching p (span (lc_events c) (sub_rx s) (lenN (lc_events c))).

(** The position of a subscription: replaying up to [sub_end], where its
    receiver stands, or done with the replay. *)
Record sub_inv (c : LocalChain) (s : ChainSubscription) : Prop := {
  si_numbered : numbered 0 (lc_events c);
  si_hub : lc_hub c = lc_events c;
  si_cursor : sub_cursor s <= sub_end s;
  si_end : sub_end s <= sub_rx s;
  si_rx : sub_rx s <= lenN (lc_events c);
}.

Lemma fill_page_spec fuel : forall c s,
  sub_inv c s -> (N.to_nat (sub_end s - sub_cursor s) < fuel)%nat ->
  let s' := fill_page fuel c s in
  sub_inv c s' /\ sub_filter s' = sub_filter s /\ sub_rx s' = sub_rx s /\ sub_end s' = sub_end s /\
  sub_resume s' = sub_resume s /\
  sub_page s' ++ matching (kind_prefix (sub_filter s)) (span (lc_events c) (sub_cursor s') (sub_end s))
  = sub_page s ++ matching (kind_prefix (sub_filter s)) (span (lc_events c) (sub_cursor s) (sub_end s)) /\
  (sub_page s' = [] -> sub_cursor s' = sub_end s).
Proof.
  induction fuel as [|fuel IH]; intros c s Hinv Hf; [lia|]. cbn [fill_page].
  destruct (sub_page s) as [|e page] eqn:Hp; [|rewrite Hp; by split_and!].
  destruct Hinv as [Hn Hh Hc He Hr].
  destruct (N.leb_spec (sub_end s) (sub_cursor s)).
  { rewrite Hp. split_and!; try done; lia. }
  pose proof (replay_page_spec c (sub_cursor s) (sub_end s) (kind_prefix (sub_filter s)) Hn) as Hpg.
  destruct (replay_page _ _ _ _ _ _) as [out nxt].
  destruct Hpg as (H1 & H2 & ->); [done|lia|].
  rewrite (proj2 (N.ltb_lt _ _) H1).
  destruct (IH c (mkSub (sub_filter s) nxt (sub_end s)
    (matching (kind_prefix (sub_filter s)) (span (lc_events c) (sub_cursor s) nxt)) (sub_rx s)
    (sub_resume s))) as (? & ? & ? & ? & ? & Heq & ?); [by split|cbn; lia|].
  cbn in Heq. split_and!; try done. rewrite Heq, <- matching_app, <- span_split by lia. done.
Qed.

Lemma span_cons evs a e rest :
  drop (N.to_nat a) evs = e :: rest -> span evs a (lenN evs) = e :: span evs (a + 1) (lenN evs).
Proof.
  intros H. unfold span, lenN.
  assert (a < N.of_nat (length evs)) as Hlt.
  { apply (f_equal length) in H. rewrite length_drop in H. cbn in H. lia. }
  replace (N.to_nat (N.of_nat (length evs) - a)) with (S (N.to_nat (N.of_nat (length evs) - (a + 1))))
    by lia.
  rewrite H. cbn [take]. f_equal. f_equal.
  replace (N.to_nat (a + 1)) with (N.to_nat a + 1)%nat by lia.
  by rewrite <- drop_drop, H.
Qed.

Lemma recv_live_spec feed : forall c s,
  sub_inv c s -> sub_page s = [] -> sub_cursor s = sub_end s ->
  feed = drop (N.to_nat (sub_rx s)) (lc_events c) ->
  let '(s', item) := recv_live s feed in
  sub_inv c s' /\ sub_filter s' = sub_filter s /\
  match item with
  | Some (Event e) => pending c s = e :: pending c s'
  | Some (Lagged _ _) => False
  | None => pending c s = [] /\ pending c s' = []
  end.
Proof.
  induction feed as [|e feed IH]; intros c s Hinv Hp Hcur Hfeed.
  - cbn. split_and!; try done; unfold pending; rewrite Hp, Hcur, span_empty; cbn;
      unfold span; by rewrite <- Hfeed, take_nil.
  - destruct Hinv as [Hn Hh Hc He Hr].
    assert (ce_sequence e = sub_rx s) as Hseq.
    { apply (numbered_drop (N.to_nat (sub_rx s))) in Hn. rewrite <- Hfeed in Hn.
      apply numbered_cons in Hn as [-> _]. lia. }
    assert (sub_rx s + 1 <= lenN (lc_events c)) as Hlt.
    { apply (f_equal length) in Hfeed. rewrite length_drop in Hfeed. unfold lenN. cbn in Hfeed. lia. }
    assert (feed = drop (N.to_nat (sub_rx s + 1)) (lc_events c)) as Hfeed'.
    { replace (N.to_nat (sub_rx s + 1)) with (N.to_nat (sub_rx s) + 1)%nat by lia.
      by rewrite <- drop_drop, <- Hfeed. }
    cbn [recv_live]. rewrite Hseq. destruct (N.ltb_spec (sub_rx s) (sub_end s)); [lia|].
    assert (forall s', sub_filter s' = sub_filter s -> sub_page s' = [] -> sub_cursor s' = sub_end s' ->
              sub_rx s' = sub_rx s + 1 ->
              pending c s = (if filter_matches (sub_filter s) e then [e] else []) ++ pending c s') as Hpend.
    { intros s' Hf' Hp' Hc' Hr'. unfold pending. rewrite Hp, Hp', Hcur, Hc', Hr', Hf', !span_empty.
      cbn [app matching]. rewrite (span_cons _ _ e feed) by done. by rewrite matching_cons. }
    set (s' := mkSub _ _ _ _ _ _).
    assert (sub_inv c s') as Hinv' by (split; cbn; (done || lia)).
    specialize (Hpend s' eq_refl Hp Hcur eq_refl).
    destruct (filter_matches (sub_filter s) e); cbn [negb]; [by split_and!|].
    specialize (IH c s' Hinv' Hp Hcur Hfeed'). destruct (recv_live s' feed) as [s'' item].
    destruct IH as (? & ? & Hitem). split_and!; [done|done|].
    cbn in Hpend. destruct item as [[]|]; rewrite ?Hpend; done.
Qed.

Lemma next_spec c s :
  sub_inv c s -> lenN (lc_events c) - sub_rx s <= CHAIN_SUBSCRIBE_CAPACITY ->
  let '(s', item) := next c s in
  sub_inv c s' /\ sub_filter s' = sub_filter s /\
  match item with
  | Some (Event e) => pending c s = e :: pending c s'
  | Some (Lagged _ _) => False
  | None => pending c s = [] /\ pending c s' = []
  end.
Proof.
  intros Hinv Hlag. unfold next.
  destruct (fill_page_spec (S (N.to_nat (sub_end s - sub_cursor s))) c s Hinv) as
    (Hinv' & Hf & Hrx & Hend & _ & Hpage & Hdone); [lia|].
  set (s1 := fill_page _ c s) in *.
  assert (pending c s = pending c s1) as ->.
  { unfold pending. rewrite Hf, Hrx, Hend, !app_assoc. by rewrite Hpage. }
  rewrite <- Hf. clearbody s1.
  assert (sub_page s1 = [] -> sub_cursor s1 = sub_end s1) as Hdone' by (by rewrite Hend).
  destruct (sub_page s1) as [|e page] eqn:Hp.
  - rewrite (si_hub c s1 Hinv'), Hrx.
    destruct (N.ltb_spec CHAIN_SUBSCRIBE_CAPACITY (lenN (lc_events c) - sub_rx s)); [lia|].
    rewrite <- Hrx. by apply recv_live_spec; auto.
  - split_and!; [by destruct Hinv'; split|done|]. unfold pending. by rewrite Hp.
Qed.

(** An interleaving of chain operations and reads. *)
Inductive StreamAction := AChain (op : ChainOp) | ANext.

Section Stream.
Context (shake256 : bytes -> bytes) (to_vec : Json -> bytes).

Definition delivered_of (item : option ChainItem) : list ChainEvent :=
  match item with Some (Event e) => [e] | _ => [] end.

Fixpoint stream (c : LocalChain) (s : ChainSubscription) (acts : list StreamAction)
  : LocalChain * ChainSubscription * list ChainEvent :=
  match acts with
  | [] => (c, s, [])
  | AChain op :: acts => stream (chain_step shake256 to_vec c op) s acts
  | ANext :: acts =>
      let '(s, item) := next c s in
      let '(c, s, out) := stream c s acts in
      (c, s, delivered_of item ++ out)
  end.

(** The reader is never more than the capacity behind when it reads. *)
Fixpoint keeps_up (c : LocalChain) (s : ChainSubscription) (acts : list StreamAction) : Prop :=
  match acts with
  | [] => True
  | AChain op :: acts => keeps_up (chain_step shake256 to_vec c op) s acts
  | ANext :: acts =>
      lenN (lc_events c) - sub_rx s <= CHAIN_SUBSCRIBE_CAPACITY /\ keeps_up c (next c s).1 acts
  end.

Lemma inv_numbered c : chain_inv shake256 to_vec c -> numbered 0 (lc_events c).
Proof. intros H. unfold numbered. rewrite (ci_seqs _ _ c H). apply map_ext. lia. Qed.

(** An operation extends the chain, so what is pending only grows. *)
Lemma chain_step_extends c op :
  chain_inv shake256 to_vec c ->
  exists evs, lc_events (chain_step shake256 to_vec c op) = lc_events c ++ evs.
Proof.
  intros Hinv. destruct op; cbn [chain_step].
  - unfold local_append, append_with_key. cbn [fst]. rewrite auto_checkpoint_events. eauto.
  - unfold append_idempotent, append_with_key.
    destruct key; [destruct (list_find _ _) as [[? ?]|]|]; cbn [fst]; rewrite ?auto_checkpoint_events;
      eauto. exists []. by rewrite app_nil_r.
  - destruct (append_signed_cases shake256 to_vec c now' e (inv_ok _ _ c Hinv)) as [[_ ->]|[_ [err ->]]]; cbn [fst];
      rewrite ?auto_checkpoint_events; eauto. exists []. by rewrite app_nil_r.
  - exists []. by rewrite app_nil_r.
Qed.

Lemma pending_grows c c' s evs :
  sub_inv c s -> lc_events c' = lc_events c ++ evs ->
  pending c' s = pending c s
    ++ matching (kind_prefix (sub_filter s))
         (span (lc_events c') (lenN (lc_events c)) (lenN (lc_events c'))).
Proof.
  intros [Hn Hh Hc He Hr] Heq. unfold pending.
  rewrite (span_split (lc_events c') (sub_rx s) (lenN (lc_events c))), matching_app;
    [|done|rewrite Heq, lenN_app; lia].
  rewrite Heq, !span_app by lia. by rewrite <- !app_assoc.
Qed.

Lemma stream_spec acts : forall c s,
  chain_inv shake256 to_vec c -> sub_inv c s -> keeps_up c s acts ->
  lenN (lc_events c) + lenN acts < u64_mod ->
  let '(c', s', out) := stream c s acts in
  sub_filter s' = sub_filter s /\ (exists evs, lc_events c' = lc_events c ++ evs) /\
  out ++ pending c' s' = pending c s
    ++ matching (kind_prefix (sub_filter s))
         (span (lc_events c') (lenN (lc_events c)) (lenN (lc_events c'))).
Proof.
  induction acts as [|[op|] acts IH]; intros c s Hc Hs Hk Hlen; cbn [stream].
  - rewrite span_empty. split_and!; [done|by exists []; rewrite app_nil_r|by rewrite app_nil_r].
  - unfold lenN in Hlen. cbn [length] in Hlen.
    destruct (chain_step_extends c op Hc) as [evs Hev].
    pose proof (chain_step_length shake256 to_vec c op Hc) as Hle. cbn [keeps_up] in Hk.
    set (c1 := chain_step shake256 to_vec c op) in *.
    assert (chain_inv shake256 to_vec c1) as Hc1 by (apply chain_step_inv; [done|unfold lenN; lia]).
    assert (sub_inv c1 s) as Hs1.
    { destruct Hs as [? ? ? ? ?].
      split; try done; [by apply inv_numbered|by apply (ci_hub shake256 to_vec)|].
      rewrite Hev, lenN_app. lia. }
    specialize (IH c1 s Hc1 Hs1 Hk). destruct (stream c1 s acts) as [[c' s'] out].
    destruct IH as (Hf & [evs' Hev'] & ->); [unfold lenN; lia|].
    split_and!; [done|exists (evs ++ evs'); by rewrite Hev', Hev, app_assoc|].
    rewrite (pending_grows c c1 s evs) by done.
    rewrite <- app_assoc, <- matching_app. do 2 f_equal.
    rewrite (span_split (lc_events c') (lenN (lc_events c)) (lenN (lc_events c1)));
      [|rewrite Hev, lenN_app; lia|rewrite Hev', lenN_app; lia].
    f_equal. by rewrite Hev', span_app.
  - unfold lenN in Hlen. cbn [length] in Hlen. destruct Hk as [Hlag Hk].
    pose proof (next_spec c s Hs Hlag) as Hn. destruct (next c s) as [s1 item]. cbn [fst] in Hk.
    destruct Hn as (Hs1 & Hf1 & Hitem).
    specialize (IH c s1 Hc Hs1 Hk). destruct (stream c s1 acts) as [[c' s'] out].
    destruct IH as (Hf & Hevs & Hout); [unfold lenN; lia|].
    split_and!; [congruence|done|]. rewrite <- app_assoc, Hout, Hf1.
    destruct item as [[e|]|]; cbn; [by rewrite Hitem|done|]. by destruct Hitem as [-> ->].
Qed.

(** C4: No gap and no duplicate between replay and live.  A subscription
    opened on a chain that grew in this process (its feed has carried every
    event of it), read at any points while the chain goes on growing,
    delivers exactly the matching events from its start, each once and in
    order: what it has delivered followed by what it still holds is always
    that sequence, as long as the reader does not fall behind by more than the
    capacity of the feed. *)
Theorem subscription_exact c f s acts :
  chain_inv shake256 to_vec c -> subscribe c f = Ok s -> keeps_up c s acts ->
  lenN (lc_events c) + lenN acts < u64_mod ->
  let '(c', s', out) := stream c s acts in
  let start := N.min (default (lc_sequence c) (from_seq f)) (lc_sequence c) in
  out ++ pending c' s'
  = matching (kind_prefix f) (span (lc_events c') start (lenN (lc_events c'))).
Proof.
  intros Hc Hsub Hk Hlen.
  assert (s = mkSub f (N.min (default (lc_sequence c) (from_seq f)) (lc_sequence c)) (lc_sequence c) []
                (lenN (lc_hub c)) (N.min (default (lc_sequence c) (from_seq f)) (lc_sequence c))) as ->.
  { revert Hsub. unfold subscribe.
    destruct (match from_seq f with Some from => _ | None => _ end); [done|]. by intros [= <-]. }
  pose proof (ci_next _ _ c Hc) as Hn. pose proof (ci_hub _ _ c Hc) as Hh.
  set (s := mkSub _ _ _ _ _ _) in *.
  assert (sub_inv c s) as Hs.
  { split; cbn; [by apply inv_numbered|done|lia|rewrite Hh; lia|rewrite Hh; lia]. }
  pose proof (stream_spec acts c s Hc Hs Hk Hlen) as Hst.
  destruct (stream c s acts) as [[c' s'] out]. destruct Hst as (_ & [evs Hev] & ->).
  cbn [s sub_filter]. unfold pending. cbn [s sub_filter sub_page sub_cursor sub_end sub_rx].
  rewrite Hh, span_empty, Hn. cbn [app]. rewrite app_nil_r, <- matching_app. f_equal.
  set (a := N.min _ _).
  rewrite (span_split (lc_events c') a (lenN (lc_events c)) (lenN (lc_events c')));
    [|subst a; lia|rewrite Hev, lenN_app; lia].
  f_equal. by rewrite Hev, span_app.
Qed.

End Stream.

(** The replay half is paged: a subscription from the start of a grown chain,
    read while another event arrives. *)
Module SubExample.
Import ChainExample.

Definition filter_mesh : ChainFilter := mkFilter (Some "mesh") (Some 0).
Definition sub : ChainSubscription :=
  match subscribe grown (mkFilter None (Some 0)) with Ok s => s | Err _ => mkSub filter_mesh 0 0 [] 0 0 end.
Definition acts : list StreamAction :=
  [ANext; AChain (OpAppend 9000000000 0 None "kernel" "stop" None); ANext; ANext; ANext; ANext].

End SubExample.

Lemma subscription_exact_witness :
  let '(c', s', out) := stream ChainExample.digest ChainExample.render ChainExample.grown
                          SubExample.sub SubExample.acts in
  lenN out = 4 /\ out ++ pending c' s' = lc_events c'.
Proof.
  pose proof (subscription_exact ChainExample.digest ChainExample.render ChainExample.grown
    (mkFilter None (Some 0)) SubExample.sub SubExample.acts ChainExample.grown_inv) as H.
  assert (lenN (stream ChainExample.digest ChainExample.render ChainExample.grown
            SubExample.sub SubExample.acts).2 = 4) as Hout by (vm_compute; reflexivity).
  destruct (stream ChainExample.digest ChainExample.render ChainExample.grown
    SubExample.sub SubExample.acts) as [[c' s'] out].
  split; [exact Hout|].
  rewrite H; [|vm_compute; reflexivity|vm_compute; repeat split; discriminate|vm_compute; reflexivity].
  unfold matching. rewrite list_filter_all by done.
  unfold span. rewrite N.sub_0_r. cbn [N.to_nat]. rewrite drop_0.
  apply take_ge. unfold lenN. rewrite Nat2N.id. reflexivity.
Defined.
