(* ===== verification/RuleHash.v ===== *)
(** The rule-hash cell: crates/clawft-kernel/src/chain_rule_hash.rs.  A
    sequence lock over four words: one writer at a time, behind a mutex, and
    readers that take no lock.

    Every atomic access is one step, and the steps of the writer and of a
    reader interleave.  The fences and the acquire and release accesses of the
    source are there to forbid any other order of them.  Readers write nothing,
    so one reader stands for all. *)

From Stdlib Require Import Strings.String.
From stdpp Require Import relations.
From S2P Require Import Prelude.
From S2P Require Import Codec.
Open Scope N_scope.

(** ** The cell *)

Record RuleHashCell := mkCell {
  c_seq : N;
  c_present : bool;
  c_words : list N;
}.

(** [RuleHashCell::new] *)
Definition cell_new : RuleHashCell := mkCell 0 false [0; 0; 0; 0].

(** The four little-endian words of a hash, and back *)
Definition hash_words (h : option bytes) : list N :=
  let b := default (replicate 32 x00) h in
  [le_val (take 8 b); le_val (take 8 (drop 8 b)); le_val (take 8 (drop 16 b)); le_val (take 8 (drop 24 b))].

Definition words_hash (ws : list N) : bytes := ws ≫= le_bytes 8.

(** Where the writer is: outside [set], or before its [i]-th store of [h], the
    fourth being [present] and the fifth the closing increment *)
Inductive Writer := WIdle | WStore (h : option bytes) (i : nat).

(** Where a reader is: at the top of the loop, loading the words after it read
    [s1], about to compare, or back with an answer *)
Inductive Reader :=
| RStart
| RWords (s1 : N) (out : list N)
| RCheck (s1 : N) (out : list N) (present : bool)
| RDone (v : option bytes).

Definition bump (c : RuleHashCell) : RuleHashCell := mkCell (wrap_add64 (c_seq c) 1) (c_present c) (c_words c).

(** [set]: the opening increment, and one step of the stores *)
Definition set_begin (h : option bytes) (c : RuleHashCell) : RuleHashCell * Writer := (bump c, WStore h 0).

Definition set_step (h : option bytes) (i : nat) (c : RuleHashCell) : RuleHashCell * Writer :=
  if (i <? 4)%nat then
    (mkCell (c_seq c) (c_present c) (<[i := default 0 (hash_words h !! i)]> (c_words c)), WStore h (S i))
  else if (i =? 4)%nat then
    (mkCell (c_seq c) (bool_decide (is_Some h)) (c_words c), WStore h (S i))
  else (bump c, WIdle).

(** [get]: one step of the loop *)
Definition get_step (c : RuleHashCell) (r : Reader) : Reader :=
  match r with
  | RStart => if N.odd (c_seq c) then RStart else RWords (c_seq c) []
  | RWords s1 out =>
      if (length out <? 4)%nat then RWords s1 (out ++ [default 0 (c_words c !! length out)])
      else RCheck s1 out (c_present c)
  | RCheck s1 out present =>
      if c_seq c =? s1 then RDone (if present then Some (words_hash out) else None) else RStart
  | RDone v => RDone v
  end.

(** ** Interleavings

    Beside the cell and the two threads, a configuration keeps the value last
    published, the number of increments so far, and that number when the
    reader took its first look. *)

Record Conf := mkConf {
  cf_cell : RuleHashCell;
  cf_writer : Writer;
  cf_reader : Reader;
  cf_current : option bytes;
  cf_total : N;
  cf_started : N;
}.

Definition hash_ok (h : option bytes) : Prop := forall b, h = Some b -> length b = 32%nat.

Definition init : Conf := mkConf cell_new WIdle RStart None 0 0.

Definition write_begin (h : option bytes) (s : Conf) : Conf :=
  let '(c, w) := set_begin h (cf_cell s) in
  mkConf c w (cf_reader s) (cf_current s) (cf_total s + 1) (cf_started s).

Definition write_step (h : option bytes) (i : nat) (s : Conf) : Conf :=
  let '(c, w) := set_step h i (cf_cell s) in
  let fin := (4 <? i)%nat in
  mkConf c w (cf_reader s) (if fin then h else cf_current s)
    (if fin then cf_total s + 1 else cf_total s) (cf_started s).

Definition read_step (s : Conf) : Conf :=
  mkConf (cf_cell s) (cf_writer s) (get_step (cf_cell s) (cf_reader s)) (cf_current s) (cf_total s)
    (match cf_reader s with RStart => cf_total s | _ => cf_started s end).

(** The reader calls [get] again after an answer. *)
Definition read_again (s : Conf) : Conf :=
  mkConf (cf_cell s) (cf_writer s) RStart (cf_current s) (cf_total s) (cf_started s).

Inductive step : Conf -> Conf -> Prop :=
| step_begin s h : cf_writer s = WIdle -> hash_ok h -> step s (write_begin h s)
| step_write s h i : cf_writer s = WStore h i -> step s (write_step h i s)
| step_read s : step s (read_step s)
| step_again s v : cf_reader s = RDone v -> step s (read_again s).

(** ** No torn read *)

Definition stable (s : Conf) : Prop :=
  c_words (cf_cell s) = hash_words (cf_current s) /\
  c_present (cf_cell s) = bool_decide (is_Some (cf_current s)).

Definition reader_ok (s : Conf) : Prop :=
  match cf_reader s with
  | RWords s1 out =>
      s1 = cf_started s mod u64_mod /\ N.even (cf_started s) = true /\
      (length out <= 4)%nat /\
      (cf_total s = cf_started s -> out = take (length out) (hash_words (cf_current s)))
  | RCheck s1 out present =>
      s1 = cf_started s mod u64_mod /\ N.even (cf_started s) = true /\
      (cf_total s = cf_started s ->
       out = hash_words (cf_current s) /\ present = bool_decide (is_Some (cf_current s)))
  | _ => True
  end.

Record conf_inv (s : Conf) : Prop := mkInv {
  ci_seq : c_seq (cf_cell s) = cf_total s mod u64_mod;
  ci_len : length (c_words (cf_cell s)) = 4%nat;
  ci_current : hash_ok (cf_current s);
  ci_writer : match cf_writer s with
              | WIdle => N.even (cf_total s) = true /\ stable s
              | WStore h i => N.odd (cf_total s) = true /\ hash_ok h /\ (i <= 5)%nat /\
                  take i (c_words (cf_cell s)) = take i (hash_words h) /\
                  ((5 <= i)%nat -> c_present (cf_cell s) = bool_decide (is_Some h))
              end;
  ci_started : cf_started s <= cf_total s;
  ci_reader : reader_ok s;
}.

Lemma hash_words_len h : length (hash_words h) = 4%nat.
Proof. done. Qed.

Lemma bump_seq c t : c_seq c = t mod u64_mod -> c_seq (bump c) = (t + 1) mod u64_mod.
Proof.
  intros E. unfold bump, wrap_add64. cbn [c_seq]. rewrite E. by rewrite N.Div0.add_mod_idemp_l.
Qed.

Lemma odd_mod t : N.odd (t mod u64_mod) = N.odd t.
Proof.
  unfold u64_mod. rewrite (N.div_mod t 18446744073709551616) at 2 by done.
  rewrite N.odd_add, N.odd_mul. by rewrite (xorb_false_l).
Qed.

(** While no increment happened since the reader looked, nothing it reads
    changed: a writer that is storing has made the count odd. *)
Lemma reader_moved s s' :
  reader_ok s -> cf_reader s' = cf_reader s -> cf_started s' = cf_started s ->
  cf_started s <= cf_total s <= cf_total s' ->
  (cf_total s' = cf_total s -> cf_current s' = cf_current s) -> reader_ok s'.
Proof.
  unfold reader_ok. intros Hr -> -> Hle Hc. destruct (cf_reader s) as [|s1 out|s1 out p|v]; try done.
  - destruct Hr as (H1 & H2 & H4 & H5). repeat (split; [done|]).
    intros Ht. rewrite Hc by lia. apply H5. lia.
  - destruct Hr as (H1 & H2 & H5). repeat (split; [done|]).
    intros Ht. rewrite Hc by lia. apply H5. lia.
Qed.

Lemma take_S_insert (l : list N) i v k :
  (i < length l)%nat -> take i l = take i k -> k !! i = Some v -> take (S i) (<[i:=v]> l) = take (S i) k.
Proof.
  intros Hi Ht Hk. rewrite (take_S_r k i v) by done. rewrite <- Ht.
  rewrite (take_S_r _ i v) by (by apply list_lookup_insert_eq). f_equal. by apply take_insert_ge.
Qed.

Lemma all_words l h i :
  take i l = take i (hash_words h) -> length l = 4%nat -> (4 <= i)%nat -> l = hash_words h.
Proof. intros Ht Hl Hi. rewrite !take_ge in Ht; rewrite ?hash_words_len; [done|lia..]. Qed.

Lemma begin_inv s h : conf_inv s -> cf_writer s = WIdle -> hash_ok h -> conf_inv (write_begin h s).
Proof.
  intros [Hs Hl Hc Hw Hst Hr] Hi Hh. rewrite Hi in Hw. destruct Hw as [He _].
  constructor; cbn; try done; [by apply bump_seq| |lia|].
  - rewrite N.add_1_r, N.odd_succ. repeat (split; [done || lia|]). lia.
  - eapply reader_moved; [exact Hr|done..|cbn; lia|cbn; lia].
Qed.

Lemma write_inv s h i : conf_inv s -> cf_writer s = WStore h i -> conf_inv (write_step h i s).
Proof.
  intros [Hs Hl Hc Hw Hst Hr] Hi. rewrite Hi in Hw. destruct Hw as (Ho & Hh & Hle & Ht & Hp).
  unfold write_step, set_step.
  destruct (Nat.ltb_spec i 4) as [Hlt|Hge]; [|destruct (Nat.eqb_spec i 4) as [->|Hne]].
  - destruct (Nat.ltb_spec 4 i) as [|_]; [lia|].
    assert (is_Some (hash_words h !! i)) as [v Hv] by (apply lookup_lt_is_Some; rewrite hash_words_len; lia).
    rewrite Hv. cbn [default from_option id].
    constructor; cbn [cf_cell cf_writer cf_current cf_total cf_started c_seq c_words c_present]; try done.
    + by rewrite length_insert.
    + repeat (split; [done || lia|]). split; [|lia]. apply take_S_insert; [lia|done|done].
  - change (4 <? 4)%nat with false. cbv iota.
    constructor; cbn [cf_cell cf_writer cf_current cf_total cf_started c_seq c_words c_present]; try done.
    repeat (split; [done || lia|]). by rewrite (all_words _ _ 4 Ht Hl) by lia.
  - destruct (Nat.ltb_spec 4 i) as [_|]; [|lia]. assert (i = 5%nat) as -> by lia.
    constructor; cbn [cf_cell cf_writer cf_current cf_total cf_started bump c_words]; try done; [by apply bump_seq| |lia|].
    + rewrite N.add_1_r, N.even_succ. split; [done|]. split; [|by apply Hp].
      cbn [cf_cell cf_current bump c_words].
      apply (all_words _ _ 5); [done|done|lia].
    + eapply reader_moved; [exact Hr|done..|cbn; lia|cbn; lia].
Qed.

Lemma read_inv s : conf_inv s -> conf_inv (read_step s).
Proof.
  intros [Hs Hl Hc Hw Hst Hr]. unfold reader_ok in Hr. constructor; cbn; try done.
  { by destruct (cf_reader s). }
  unfold reader_ok, read_step. cbn [cf_reader cf_started cf_total cf_current].
  assert (cf_total s = cf_started s -> N.even (cf_started s) = true -> stable s) as Hstable.
  { intros E Hev. destruct (cf_writer s); [by destruct Hw|]. destruct Hw as [Hodd _].
    rewrite E, <- N.negb_even, Hev in Hodd. done. }
  destruct (cf_reader s) as [|s1 out|s1 out p|v]; cbn [get_step].
  - rewrite Hs, odd_mod. destruct (N.odd (cf_total s)) eqn:Ho; [done|].
    split; [done|]. split; [by rewrite <- N.negb_odd, Ho|]. split; [cbn; lia|done].
  - destruct Hr as (H1 & H2 & H4 & H5). destruct (Nat.ltb_spec (length out) 4) as [Hlt|Hge].
    + rewrite length_app. cbn [length]. repeat (split; [done || lia|]). intros E.
      destruct (Hstable E H2) as [Hwd _]. rewrite Hwd.
      assert (is_Some (hash_words (cf_current s) !! length out)) as [v Hv]
        by (apply lookup_lt_is_Some; rewrite hash_words_len; lia).
      rewrite Hv, Nat.add_1_r. cbn [default from_option id].
      rewrite (take_S_r _ _ v Hv). f_equal. by apply H5.
    + repeat (split; [done|]). intros E. destruct (Hstable E H2) as [Hwd Hpr]. split; [|done].
      rewrite (H5 E). apply take_ge. rewrite hash_words_len. lia.
  - by destruct (_ =? _).
  - done.
Qed.

Lemma step_inv s s' : conf_inv s -> step s s' -> conf_inv s'.
Proof.
  intros Hi Hs. destruct Hs as [s h Hw Hh|s h i Hw|s|s v Hr].
  - by apply begin_inv.
  - by apply write_inv.
  - by apply read_inv.
  - destruct Hi as [Hs Hl Hc Hw Hst _]. by constructor.
Qed.

Lemma reachable_inv s : rtc step init s -> conf_inv s.
Proof.
  intros Hrun. assert (conf_inv init) as Hi by (constructor; cbn; try done; by rewrite ?hash_words_len).
  clear -Hrun Hi. induction Hrun as [|s s' s'' Hs _ IH]; [done|]. by apply IH, step_inv with s.
Qed.

(** The words of a hash give the hash back. *)
Lemma words_hash_round_trip b : length b = 32%nat -> words_hash (hash_words (Some b)) = b.
Proof.
  intros Hb. unfold words_hash, hash_words. cbn [default from_option id mbind list_bind].
  assert (forall l, length l = 8%nat -> le_bytes 8 (le_val l) = l) as Hrt.
  { intros l Hl. rewrite <- Hl. apply le_bytes_val. }
  rewrite !Hrt by (rewrite length_take, ?length_drop; lia). rewrite app_nil_r.
  rewrite <- (take_drop 8 b) at 5. f_equal. rewrite <- (take_drop 8 (drop 8 b)) at 2. f_equal.
  rewrite drop_drop, <- (take_drop 8 (drop (8 + 8) b)) at 1. f_equal. rewrite drop_drop.
  apply take_ge. rewrite length_drop. lia.
Qed.

(** C27: Readers never see a torn value: whatever the interleaving of a writer's
    stores with a reader's loads, an answer is the value that was published
    last, and it was already published when the read began.  The counter may
    wrap around, but not all the way within one read. *)
Theorem reader_never_torn s v :
  rtc step init s -> cf_reader (read_step s) = RDone v -> (forall w, cf_reader s <> RDone w) ->
  cf_total s - cf_started s < u64_mod ->
  v = cf_current s /\ cf_total s = cf_started s.
Proof.
  intros Hrun Hd Hn Hb. destruct (reachable_inv s Hrun) as [Hs Hl Hc Hw Hst Hr].
  unfold reader_ok in Hr. cbn in Hd. destruct (cf_reader s) as [|s1 out|s1 out p|w]; cbn in Hd.
  - by destruct (N.odd _).
  - by destruct (length out <=? 3)%nat.
  - destruct (N.eqb_spec (c_seq (cf_cell s)) s1) as [E|]; [|done]. injection Hd as <-.
    destruct Hr as (H1 & H2 & H5).
    assert (cf_total s = cf_started s) as Et.
    { rewrite Hs, H1 in E. unfold u64_mod in *. 
      pose proof (N.div_mod (cf_total s) 18446744073709551616).
      pose proof (N.div_mod (cf_started s) 18446744073709551616). lia. }
    split; [|done]. destruct (H5 Et) as [-> ->].
    destruct (cf_current s) as [b|] eqn:Ec; [|done].
    rewrite bool_decide_eq_true_2 by eauto. f_equal. by apply words_hash_round_trip, Hc.
  - by destruct (Hn w).
Qed.

(** A read that no write disturbs takes one look, four words, the flag and the
    comparison, and returns the published value. *)
Theorem undisturbed_read_returns s :
  rtc step init s -> cf_writer s = WIdle -> cf_reader s = RStart ->
  cf_reader (Nat.iter 7 read_step s) = RDone (cf_current s).
Proof.
  intros Hrun Hw Hr. destruct (reachable_inv s Hrun) as [Hs Hl Hc Hwi _ _]. rewrite Hw in Hwi.
  destruct Hwi as [He [Hwd Hp]]. destruct s as [c w r cur tot st].
  cbn [cf_cell cf_writer cf_reader cf_current cf_total cf_started] in *. subst w r.
  assert (N.odd (c_seq c) = false) as Ho by (rewrite Hs, odd_mod, <- N.negb_even, He; done).
  cbn [Nat.iter nat_rect read_step cf_cell cf_reader]. cbn [get_step]. rewrite Ho.
  cbn [get_step length Nat.ltb Nat.leb app]. rewrite Hwd, N.eqb_refl, Hp.
  destruct cur as [b|]; [|done]. rewrite bool_decide_eq_true_2 by eauto.
  f_equal. f_equal. exact (words_hash_round_trip b (Hc b eq_refl)).
Qed.

(** A publication followed by a read, up to its comparison *)
Module ToyCell.

Definition h : option bytes := Some (replicate 32 x07).
Definition written : Conf :=
  write_step h 5 (write_step h 4 (write_step h 3 (write_step h 2 (write_step h 1 (write_step h 0
    (write_begin h init)))))).
Definition reading : Conf := Nat.iter 6 read_step written.

Lemma written_runs : rtc step init written.
Proof.
  eapply rtc_l; [apply (step_begin init h); [done|by intros b [= <-]]|].
  do 5 (eapply rtc_l; [by apply (step_write _ h)|]). apply rtc_once. by apply (step_write _ h).
Qed.

Lemma reading_runs : rtc step init reading.
Proof.
  transitivity written; [exact written_runs|]. unfold reading. cbn [Nat.iter nat_rect].
  do 5 (eapply rtc_l; [apply step_read|]). apply rtc_once, step_read.
Qed.

End ToyCell.

Lemma reader_never_torn_witness :
  cf_reader (read_step ToyCell.reading) = RDone ToyCell.h /\ ToyCell.h = cf_current ToyCell.reading.
Proof.
  assert (cf_reader (read_step ToyCell.reading) = RDone ToyCell.h) as E by (vm_compute; reflexivity).
  split; [exact E|].
  refine (proj1 (reader_never_torn ToyCell.reading ToyCell.h ToyCell.reading_runs E _ _)).
  - vm_compute. discriminate.
  - vm_compute. reflexivity.
Defined.
