(* ===== verification/Process.v ===== *)
(** Process table: crates/clawft-kernel/src/process.rs (the table, its state
    machine and its PID allocation) and the error type of
    crates/clawft-kernel/src/error.rs.  The second half gives the table's
    concurrent semantics: [insert] is three separate accesses to shared
    state, so inserters interleave. *)

From S2P Require Import Prelude.
Open Scope N_scope.

(** ** Data *)

(** Process identifier ([u64]). *)
Abbreviation Pid := N.

Inductive ProcessState :=
| Starting
| Running
| Suspended
| Stopping
| Exited (code : Z).

#[export] Instance ProcessState_eq_dec : EqDecision ProcessState.
Proof. solve_decision. Defined.

(** [KernelError], every variant of error.rs; [Other] wraps a boxed error,
    kept as its message. *)
Inductive KernelError :=
| ProcessNotFound (pid : N)
| InvalidStateTransition (pid : N) (from to : ProcessState)
| ProcessTableFull (max : N)
| ServiceErr (msg : string)
| BootErr (msg : string)
| BootRefused (msg : string)
| IpcErr (msg : string)
| MessageTooLarge (size limit : N)
| WrongState (expected actual : string)
| CapabilityDenied (pid : N) (action reason : string)
| ResourceLimitExceeded (pid : N) (resource : string) (current limit : N)
| SpawnFailed (agent_id reason : string)
| BackendNotAvailable (backend reason : string)
| TimeoutErr (operation : string) (duration_ms : N)
| ConfigErr (msg : string)
| QuotaExceeded (agent_id : string) (current_bytes limit_bytes : N)
| GovernanceDenied (msg : string)
| MeshErr (msg : string)
| Other (msg : string).

(** [ProcessState::can_transition_to] *)
Definition can_transition_to (self next : ProcessState) : bool :=
  match self, next with
  | Starting, Running
  | Starting, Exited _
  | Running, Suspended
  | Running, Stopping
  | Running, Exited _
  | Suspended, Running
  | Suspended, Stopping
  | Suspended, Exited _
  | Stopping, Exited _ => true
  | _, _ => false
  end.

(** [Display for ProcessState] *)
Definition state_to_string (s : ProcessState) : string :=
  match s with
  | Starting => "starting"
  | Running => "running"
  | Suspended => "suspended"
  | Stopping => "stopping"
  | Exited code => "exited(" +:+ pretty code +:+ ")"
  end.

Record ResourceUsage := mkUsage {
  memory_bytes : N;
  cpu_time_ms : N;
  tool_calls : N;
  messages_sent : N;
}.

(** ** Capabilities carried by an entry

    The data types of capability.rs that an entry stores; the checks on them
    are in Capability.v.  [max_disk_bytes] exists only in [os-patterns]
    builds and is not part of the default feature set modelled here. *)

Record ResourceLimits := mkLimits {
  max_memory_bytes : N;
  max_cpu_time_ms : N;
  max_tool_calls : N;
  max_messages : N;
}.

Inductive IpcScope :=
| ScopeAll
| ParentOnly
| Restricted (pids : list N)
| ScopeTopic (topics : list string)
| ScopeNone.

Record AgentCapabilities := mkCaps {
  can_spawn : bool;
  can_ipc : bool;
  can_exec_tools : bool;
  can_network : bool;
  ipc_scope : IpcScope;
  resource_limits : ResourceLimits;
}.

(** [ProcessEntry].  The cancellation token is a shared handle of the async
    runtime: an entry stores its identity. *)
Record ProcessEntry := mkEntry {
  pid : Pid;
  agent_id : string;
  state : ProcessState;
  capabilities : AgentCapabilities;
  resource_usage : ResourceUsage;
  cancel_token : N;
  parent_pid : option Pid;
}.

Definition set_pid (p : Pid) (e : ProcessEntry) : ProcessEntry :=
  mkEntry p (agent_id e) (state e) (capabilities e) (resource_usage e)
    (cancel_token e) (parent_pid e).
Definition set_state (s : ProcessState) (e : ProcessEntry) : ProcessEntry :=
  mkEntry (pid e) (agent_id e) s (capabilities e) (resource_usage e)
    (cancel_token e) (parent_pid e).
Definition set_usage (u : ResourceUsage) (e : ProcessEntry) : ProcessEntry :=
  mkEntry (pid e) (agent_id e) (state e) (capabilities e) u
    (cancel_token e) (parent_pid e).
Definition set_caps (c : AgentCapabilities) (e : ProcessEntry) : ProcessEntry :=
  mkEntry (pid e) (agent_id e) (state e) c (resource_usage e)
    (cancel_token e) (parent_pid e).

(** [ProcessTable].  [chain_attached] says whether a chain manager is set. *)
Record ProcessTable := mkTable {
  next_pid : N;
  entries : gmap N ProcessEntry;
  max_processes : N;
  chain_attached : bool;
}.

Definition with_entries (t : ProcessTable) (m : gmap N ProcessEntry) : ProcessTable :=
  mkTable (next_pid t) m (max_processes t) (chain_attached t).
Definition with_next_pid (t : ProcessTable) (n : N) : ProcessTable :=
  mkTable n (entries t) (max_processes t) (chain_attached t).

(** ** Operations *)

Module PT.

(** [ProcessTable::new] *)
Definition new (max : N) : ProcessTable := mkTable 1 ∅ max false.

(** [ProcessTable::set_chain_manager] *)
Definition set_chain_manager (t : ProcessTable) : ProcessTable :=
  mkTable (next_pid t) (entries t) (max_processes t) true.

(** The audit requests of an operation: none without a chain manager. *)
Definition audit (t : ProcessTable) (r : AuditReq) : list AuditReq :=
  if chain_attached t then [r] else [].

(** [ProcessTable::allocate_pid]: [fetch_add] wraps. *)
Definition allocate_pid (t : ProcessTable) : ProcessTable * Pid :=
  (with_next_pid t (wrap_add64 (next_pid t) 1), next_pid t).

Definition register_req (p : Pid) (e : ProcessEntry) : AuditReq :=
  mkAudit "process" "process.register"
    (Some (JObj [("pid", json_num p); ("agent_id", JStr (agent_id e));
                 ("parent_pid", json_opt_num (parent_pid e))])).

(** [ProcessTable::insert] *)
Definition insert (t : ProcessTable) (entry : ProcessEntry)
  : ProcessTable * list AuditReq * result Pid KernelError :=
  if max_processes t <=? sizeN (entries t) then
    (t, [], Err (ProcessTableFull (max_processes t)))
  else
    let '(t1, p) := allocate_pid t in
    let entry := set_pid p entry in
    (with_entries t1 (<[p := entry]> (entries t1)), audit t1 (register_req p entry), Ok p).

(** [ProcessTable::insert_with_pid] *)
Definition insert_with_pid (t : ProcessTable) (entry : ProcessEntry)
  : ProcessTable * result unit KernelError :=
  if max_processes t <=? sizeN (entries t) then
    (t, Err (ProcessTableFull (max_processes t)))
  else
    (with_entries t (<[pid entry := entry]> (entries t)), Ok tt).

(** [ProcessTable::get] *)
Definition get (t : ProcessTable) (p : Pid) : option ProcessEntry := entries t !! p.

Definition deregister_req (p : Pid) (e : ProcessEntry) : AuditReq :=
  mkAudit "process" "process.deregister"
    (Some (JObj [("pid", json_num p); ("agent_id", JStr (agent_id e))])).

(** [ProcessTable::remove] *)
Definition remove (t : ProcessTable) (p : Pid)
  : ProcessTable * list AuditReq * option ProcessEntry :=
  match entries t !! p with
  | Some e => (with_entries t (delete p (entries t)), audit t (deregister_req p e), Some e)
  | None => (t, [], None)
  end.

(** [ProcessTable::list] *)
Definition list_entries (t : ProcessTable) : list ProcessEntry :=
  (map_to_list (entries t)).*2.

Definition state_req (p : Pid) (from to : ProcessState) : AuditReq :=
  mkAudit "process" "process.state"
    (Some (JObj [("pid", json_num p); ("from", JStr (state_to_string from));
                 ("to", JStr (state_to_string to))])).

(** [ProcessTable::update_state] *)
Definition update_state (t : ProcessTable) (p : Pid) (new_state : ProcessState)
  : ProcessTable * list AuditReq * result unit KernelError :=
  match entries t !! p with
  | None => (t, [], Err (ProcessNotFound p))
  | Some e =>
      if negb (can_transition_to (state e) new_state) then
        (t, [], Err (InvalidStateTransition p (state e) new_state))
      else
        (with_entries t (<[p := set_state new_state e]> (entries t)),
         audit t (state_req p (state e) new_state), Ok tt)
  end.

(** [ProcessTable::update_resources] *)
Definition update_resources (t : ProcessTable) (p : Pid) (u : ResourceUsage)
  : ProcessTable * result unit KernelError :=
  match entries t !! p with
  | None => (t, Err (ProcessNotFound p))
  | Some e => (with_entries t (<[p := set_usage u e]> (entries t)), Ok tt)
  end.

(** [ProcessTable::set_capabilities] *)
Definition set_capabilities (t : ProcessTable) (p : Pid) (c : AgentCapabilities)
  : ProcessTable * result unit KernelError :=
  match entries t !! p with
  | None => (t, Err (ProcessNotFound p))
  | Some e => (with_entries t (<[p := set_caps c e]> (entries t)), Ok tt)
  end.

(** [ProcessTable::len], [is_empty], [count_by_state] *)
Definition len (t : ProcessTable) : N := sizeN (entries t).
Definition is_empty (t : ProcessTable) : bool := len t =? 0.
Definition count_by_state (t : ProcessTable) (s : ProcessState) : N :=
  lenN (filter (fun e => state e = s) (list_entries t)).

End PT.

(** ** Sequential executions

    One call of the table's interface, and the table, the audit requests and
    the PIDs handed out by a sequence of calls. *)

Inductive Op :=
| OpInsert (e : ProcessEntry)
| OpInsertKernel (e : ProcessEntry)
| OpRemove (p : Pid)
| OpUpdateState (p : Pid) (s : ProcessState)
| OpUpdateResources (p : Pid) (u : ResourceUsage)
| OpSetCapabilities (p : Pid) (c : AgentCapabilities).

Record Run := mkRun {
  run_table : ProcessTable;
  run_audit : list AuditReq;
  run_pids : list Pid;
}.

Definition step (r : Run) (o : Op) : Run :=
  let t := run_table r in
  match o with
  | OpInsert e =>
      let '(t', a, res) := PT.insert t e in
      mkRun t' (run_audit r ++ a)
        (match res with Ok p => run_pids r ++ [p] | Err _ => run_pids r end)
  | OpInsertKernel e =>
      mkRun (PT.insert_with_pid t e).1 (run_audit r) (run_pids r)
  | OpRemove p =>
      let '(t', a, _) := PT.remove t p in mkRun t' (run_audit r ++ a) (run_pids r)
  | OpUpdateState p s =>
      let '(t', a, _) := PT.update_state t p s in mkRun t' (run_audit r ++ a) (run_pids r)
  | OpUpdateResources p u =>
      mkRun (PT.update_resources t p u).1 (run_audit r) (run_pids r)
  | OpSetCapabilities p c =>
      mkRun (PT.set_capabilities t p c).1 (run_audit r) (run_pids r)
  end.

Definition run (r : Run) (ops : list Op) : Run := fold_left step ops r.

(** The kernel inserts its own entry (boot.rs) under PID 0 and nothing else
    under a PID of its choice. *)
Definition op_ok (o : Op) : bool :=
  match o with OpInsertKernel e => pid e =? 0 | _ => true end.

(** ** Invariants of the table *)

Record table_wf (t : ProcessTable) : Prop := {
  wf_next : 1 <= next_pid t;
  wf_key : forall p e, entries t !! p = Some e -> pid e = p;
  wf_fresh : forall p, next_pid t <= p -> entries t !! p = None;
  wf_cap : sizeN (entries t) <= max_processes t;
}.

(** The part of [table_wf] that concerns one call: what the six operations do
    to the map, in one place. *)
Inductive entry_step (t : ProcessTable) : ProcessTable -> Prop :=
| es_same : entry_step t t
| es_new e :
    sizeN (entries t) < max_processes t ->
    entry_step t (mkTable (wrap_add64 (next_pid t) 1)
                    (<[next_pid t := set_pid (next_pid t) e]> (entries t))
                    (max_processes t) (chain_attached t))
| es_kernel e :
    sizeN (entries t) < max_processes t -> pid e = 0 ->
    entry_step t (with_entries t (<[pid e := e]> (entries t)))
| es_del p : entry_step t (with_entries t (delete p (entries t)))
| es_upd p e e' :
    entries t !! p = Some e -> pid e' = pid e ->
    (state e' = state e \/ can_transition_to (state e) (state e') = true) ->
    entry_step t (with_entries t (<[p := e']> (entries t))).

Lemma step_entry_step r o :
  op_ok o = true -> entry_step (run_table r) (run_table (step r o)).
Proof.
  intros Hok. destruct r as [t a ps]; destruct o as [e|e|p|p s|p u|p c]; cbn in *.
  - unfold PT.insert. destruct (N.leb_spec (max_processes t) (sizeN (entries t))); cbn.
    + constructor.
    + exact (es_new t e H).
  - unfold PT.insert_with_pid.
    destruct (N.leb_spec (max_processes t) (sizeN (entries t))); cbn; constructor; try done.
    by apply N.eqb_eq.
  - unfold PT.remove. destruct (entries t !! p); cbn; constructor.
  - unfold PT.update_state. destruct (entries t !! p) as [e|] eqn:He; cbn; [|constructor].
    destruct (can_transition_to (state e) s) eqn:Hs; cbn; [|constructor].
    eapply es_upd; eauto.
  - unfold PT.update_resources. destruct (entries t !! p) as [e|] eqn:He; cbn; [|constructor].
    eapply es_upd; eauto.
  - unfold PT.set_capabilities. destruct (entries t !! p) as [e|] eqn:He; cbn; [|constructor].
    eapply es_upd; eauto.
Qed.

Lemma sizeN_insert_le (m : gmap N ProcessEntry) k v :
  sizeN (<[k:=v]> m) <= sizeN m + 1.
Proof. unfold sizeN. pose proof (size_insert_le m k v). lia. Qed.

Lemma sizeN_insert_Some (m : gmap N ProcessEntry) k v :
  is_Some (m !! k) -> sizeN (<[k:=v]> m) = sizeN m.
Proof. intros H. unfold sizeN. by rewrite map_size_insert_Some. Qed.

Lemma sizeN_delete_le (m : gmap N ProcessEntry) k : sizeN (delete k m) <= sizeN m.
Proof. unfold sizeN. pose proof (size_delete_le m k). lia. Qed.

Lemma entry_step_wf t t' :
  entry_step t t' -> next_pid t + 1 < u64_mod -> table_wf t -> table_wf t'.
Proof.
  intros Hs Hb [Hn Hk Hf Hc]. destruct Hs as [|e Hlt|e Hlt H0|p|p e e' He Hp Ht]; [done|..].
  - split; cbn; rewrite ?wrap_add64_small by done; [lia|..].
    + intros p e'. rewrite lookup_insert. case_decide; [by intros [= <-]|eauto].
    + intros p Hp. rewrite lookup_insert_ne by lia. apply Hf. lia.
    + pose proof (sizeN_insert_le (entries t) (next_pid t) (set_pid (next_pid t) e)). lia.
  - split; cbn; [done|..].
    + intros p e'. rewrite lookup_insert. case_decide; [intros [= <-]; congruence|eauto].
    + intros p Hp. rewrite lookup_insert_ne by lia. by apply Hf.
    + pose proof (sizeN_insert_le (entries t) (pid e) e). lia.
  - split; cbn; [done|..].
    + intros q e'. rewrite lookup_delete. case_decide; [done|eauto].
    + intros q Hq. rewrite lookup_delete. case_decide; [done|by apply Hf].
    + pose proof (sizeN_delete_le (entries t) p). lia.
  - split; cbn; [done|..].
    + intros q e''. rewrite lookup_insert.
      case_decide; [intros [= <-]; subst; rewrite Hp; eauto|eauto].
    + intros q Hq. rewrite lookup_insert_ne; [by apply Hf|].
      intros ->. rewrite Hf in He by done. done.
    + rewrite sizeN_insert_Some by eauto. done.
Qed.

Lemma entry_step_next t t' :
  entry_step t t' -> next_pid t + 1 < u64_mod -> next_pid t <= next_pid t' <= next_pid t + 1.
Proof.
  destruct 1; cbn; intros; rewrite ?wrap_add64_small by done; lia.
Qed.

(** An execution in terms of [entry_step]. *)
Lemma run_invariant (P : Run -> Prop) r ops :
  P r ->
  (forall r o, op_ok o = true -> next_pid (run_table r) + 1 < u64_mod -> P r -> P (step r o)) ->
  forallb op_ok ops = true ->
  next_pid (run_table r) + lenN ops < u64_mod ->
  P (run r ops).
Proof.
  intros HP Hstep. revert r HP. induction ops as [|o ops IH]; intros r HP Hok Hb; [done|].
  cbn in *. apply andb_prop in Hok as [Ho Hok].
  assert (Hb1 : next_pid (run_table r) + 1 < u64_mod) by (unfold lenN in Hb; cbn in Hb; lia).
  apply IH; [by apply Hstep|done|].
  pose proof (entry_step_next _ _ (step_entry_step r o Ho) Hb1).
  unfold lenN in *. cbn in Hb. lia.
Qed.

Definition init_run (max : N) : Run := mkRun (PT.new max) [] [].

Lemma init_wf max : table_wf (PT.new max).
Proof. split; cbn; [lia|done|done|unfold sizeN; rewrite map_size_empty; lia]. Qed.

(** C5: Every table reached from [new] by any sequence of calls (the kernel
    entry going to PID 0, fewer calls than PIDs) stays well formed: entries
    are stored under their own PID, the next PID is unused, and the number of
    entries never exceeds the configured capacity. *)
Theorem table_invariant max ops :
  forallb op_ok ops = true -> 1 + lenN ops < u64_mod ->
  table_wf (run_table (run (init_run max) ops)).
Proof.
  intros Hok Hb.
  apply (run_invariant (fun r => table_wf (run_table r))); [apply init_wf| |done|done].
  intros r o Ho Hn Hwf. eapply entry_step_wf; eauto using step_entry_step.
Qed.

(** Two agents and the kernel entry: the data of the concrete runs below. *)
Definition ex_limits : ResourceLimits := mkLimits 268435456 300000 1000 5000.
Definition ex_caps : AgentCapabilities := mkCaps true true true false ScopeAll ex_limits.
Definition ex_entry (id : string) : ProcessEntry :=
  mkEntry 0 id Starting ex_caps (mkUsage 0 0 0 0) 0 None.
Definition ex_ops : list Op :=
  [OpInsertKernel (ex_entry "kernel"); OpInsert (ex_entry "a"); OpInsert (ex_entry "b");
   OpUpdateState 1 Running; OpUpdateState 1 (Exited 0); OpRemove 1;
   OpInsert (ex_entry "c"); OpInsert (ex_entry "d")].

Lemma table_invariant_witness :
  forallb op_ok ex_ops = true /\ table_wf (run_table (run (init_run 3) ex_ops)).
Proof. split; [reflexivity|apply (table_invariant 3 ex_ops); vm_compute; reflexivity]. Defined.

(** The PIDs handed out so far increase and lie below the next PID. *)
Definition pids_ok (r : Run) : Prop :=
  StronglySorted N.lt (run_pids r) /\ Forall (fun p => p < next_pid (run_table r)) (run_pids r).

Lemma StronglySorted_snoc (l : list N) x :
  StronglySorted N.lt l -> Forall (fun p => p < x) l -> StronglySorted N.lt (l ++ [x]).
Proof.
  intros Hs Hf. induction Hs as [|y l Hs IH Hy]; cbn; [repeat constructor|].
  apply Forall_cons in Hf as [Hyx Hf]. constructor; [by apply IH|].
  apply Forall_app; split; [done|]. by repeat constructor.
Qed.

Lemma step_pids_ok r o :
  op_ok o = true -> next_pid (run_table r) + 1 < u64_mod -> pids_ok r -> pids_ok (step r o).
Proof.
  intros Ho Hb [Hs Hf].
  pose proof (entry_step_next _ _ (step_entry_step r o Ho) Hb) as Hle.
  assert (Hkeep : Forall (fun p => p < next_pid (run_table (step r o))) (run_pids r)).
  { eapply Forall_impl; [exact Hf|]. cbn. lia. }
  revert Hle Hkeep. destruct r as [t a ps]. unfold pids_ok.
  destruct o; cbn; repeat case_match; simplify_eq/=; intros; try (split; [done|done]).
  unfold PT.insert in *. case_match; simplify_eq/=.
  split; [by apply StronglySorted_snoc|].
  apply Forall_app; split; [done|]. repeat constructor.
  rewrite wrap_add64_small by done. lia.
Qed.

(** PIDs are allocated in strictly increasing order, so none is ever
    handed out twice, whatever is removed in between. *)
Theorem pids_increase max ops :
  forallb op_ok ops = true -> 1 + lenN ops < u64_mod ->
  StronglySorted N.lt (run_pids (run (init_run max) ops)).
Proof.
  intros Hok Hb. apply (run_invariant pids_ok); [|apply step_pids_ok|done|done].
  split; constructor.
Qed.

Lemma pids_increase_witness :
  run_pids (run (init_run 3) ex_ops) = [1; 2; 3] /\
  StronglySorted N.lt (run_pids (run (init_run 3) ex_ops)).
Proof. split; [vm_compute; reflexivity|apply (pids_increase 3 ex_ops); vm_compute; reflexivity]. Defined.

(** Process [p] has exited with code [c], or is gone. *)
Definition exited_or_gone (p : Pid) (c : Z) (t : ProcessTable) : Prop :=
  match entries t !! p with Some e => state e = Exited c | None => True end.

Lemma entry_step_exited t t' p c :
  entry_step t t' -> p <> 0 -> p < next_pid t ->
  exited_or_gone p c t -> exited_or_gone p c t'.
Proof.
  unfold exited_or_gone. intros Hs Hp0 Hlt H. destruct Hs as [|e|e ? H0|q|q e e' He _ Ht]; cbn.
  - done.
  - rewrite lookup_insert_ne by lia. done.
  - rewrite lookup_insert_ne by congruence. done.
  - rewrite lookup_delete. case_decide; done.
  - rewrite lookup_insert. case_decide; [subst q|done].
    rewrite He in H. destruct Ht as [->|Ht]; [done|]. by rewrite H in Ht.
Qed.

(** [Exited] is final.  Once an allocated process has exited with a code,
    no later sequence of calls brings it back or changes the code: its entry
    is either removed or still [Exited] with that code. *)
Theorem exited_final r ops p c :
  forallb op_ok ops = true ->
  next_pid (run_table r) + lenN ops < u64_mod ->
  p <> 0 -> p < next_pid (run_table r) ->
  exited_or_gone p c (run_table r) ->
  exited_or_gone p c (run_table (run r ops)).
Proof.
  intros Hok Hb Hp0 Hlt H.
  apply (run_invariant
           (fun r => p < next_pid (run_table r) /\ exited_or_gone p c (run_table r)));
    [done| |done|done].
  intros r' o Ho Hn [Hlt' H']. pose proof (step_entry_step r' o Ho) as Hs. split.
  - pose proof (entry_step_next _ _ Hs Hn). lia.
  - eapply entry_step_exited; eauto.
Qed.

Lemma exited_final_witness :
  let r := run (init_run 3) (take 5 ex_ops) in
  match entries (run_table r) !! 1 with Some e => state e = Exited 0 | None => False end /\
  exited_or_gone 1 0 (run_table (run r [OpUpdateState 1 Running; OpInsert (ex_entry "x")])).
Proof.
  split; [vm_compute; reflexivity|].
  apply (exited_final (run (init_run 3) (take 5 ex_ops))); vm_compute; done.
Defined.

(** ** The audit trail determines the live processes

    Replaying the register and deregister requests, the way a reader of the
    chain would. *)

Definition payload_pid (r : AuditReq) : option N :=
  match ar_payload r with
  | Some (JObj ((k, JNum n) :: _)) => if String.eqb k "pid" then Some (Z.to_N n) else None
  | _ => None
  end.

Definition replay_req (live : gset N) (r : AuditReq) : gset N :=
  match payload_pid r with
  | None => live
  | Some p =>
      if String.eqb (ar_kind r) "process.register" then {[p]} ∪ live
      else if String.eqb (ar_kind r) "process.deregister" then live ∖ {[p]}
      else live
  end.

Definition replay_audit (l : list AuditReq) : gset N := fold_left replay_req l ∅.

Arguments replay_audit : simpl never.

Definition audited (r : Run) : Prop :=
  chain_attached (run_table r) = true /\
  dom (entries (run_table r)) ∖ {[0]} = replay_audit (run_audit r) ∖ {[0]}.

Lemma payload_register p e : payload_pid (PT.register_req p e) = Some p.
Proof. unfold payload_pid. cbn. by rewrite N2Z.id. Qed.
Lemma payload_deregister p e : payload_pid (PT.deregister_req p e) = Some p.
Proof. unfold payload_pid. cbn. by rewrite N2Z.id. Qed.
Lemma payload_state p a b : payload_pid (PT.state_req p a b) = Some p.
Proof. unfold payload_pid. cbn. by rewrite N2Z.id. Qed.

Arguments PT.register_req : simpl never.
Arguments PT.deregister_req : simpl never.
Arguments PT.state_req : simpl never.

Lemma replay_snoc l r : replay_audit (l ++ [r]) = replay_req (replay_audit l) r.
Proof. unfold replay_audit. by rewrite fold_left_app. Qed.

Lemma dom_update (m : gmap N ProcessEntry) k e e' :
  m !! k = Some e -> dom (<[k := e']> m) = dom m.
Proof. intros H. apply dom_insert_lookup_L. eauto. Qed.

Lemma step_audited r o : op_ok o = true -> audited r -> audited (step r o).
Proof.
  intros Ho [Hc Hd]. destruct r as [t a ps]. unfold audited in *.
  destruct o as [e|e|p|p s|p u|p c]; cbn in *.
  - unfold PT.insert. destruct (_ <=? _); cbn; [by rewrite app_nil_r|].
    unfold PT.audit. cbn. rewrite Hc. split; [done|].
    rewrite replay_snoc. unfold replay_req. rewrite payload_register. cbn.
    rewrite dom_insert_L. set_solver.
  - unfold PT.insert_with_pid. destruct (_ <=? _); cbn; [done|]. split; [done|].
    apply N.eqb_eq in Ho. rewrite dom_insert_L, Ho. set_solver.
  - unfold PT.remove. destruct (entries t !! p) eqn:He; cbn; [|by rewrite app_nil_r].
    unfold PT.audit. rewrite Hc. split; [done|].
    rewrite replay_snoc. unfold replay_req. rewrite payload_deregister. cbn.
    rewrite dom_delete_L. set_solver.
  - unfold PT.update_state. destruct (entries t !! p) eqn:He; cbn; [|by rewrite app_nil_r].
    destruct (can_transition_to _ _); cbn; [|by rewrite app_nil_r].
    unfold PT.audit. rewrite Hc. split; [done|].
    rewrite replay_snoc. unfold replay_req. rewrite payload_state. cbn.
    by erewrite dom_update by done.
  - unfold PT.update_resources. destruct (entries t !! p) eqn:He; cbn; [|done].
    by erewrite dom_update by done.
  - unfold PT.set_capabilities. destruct (entries t !! p) eqn:He; cbn; [|done].
    by erewrite dom_update by done.
Qed.

(** With a chain manager attached, the audit requests of a run are
    enough to know which processes are live: replaying the register and
    deregister events gives exactly the PIDs of the table (the kernel's own
    entry, PID 0, is not audited). *)
Theorem audit_determines_live max ops :
  forallb op_ok ops = true ->
  let r := run (mkRun (PT.set_chain_manager (PT.new max)) [] []) ops in
  dom (entries (run_table r)) ∖ {[0]} = replay_audit (run_audit r) ∖ {[0]}.
Proof.
  intros Hok. cbn. enough (audited (run (mkRun (PT.set_chain_manager (PT.new max)) [] []) ops))
    as [_ H] by exact H.
  unfold run. revert Hok.
  assert (audited (mkRun (PT.set_chain_manager (PT.new max)) [] [])) as H.
  { split; [done|]. cbn. by rewrite dom_empty_L. }
  revert H. generalize (mkRun (PT.set_chain_manager (PT.new max)) [] []).
  induction ops as [|o ops IH]; intros r H Hok; [done|].
  cbn in *. apply andb_prop in Hok as [Ho Hok]. apply IH; [|done]. by apply step_audited.
Qed.

Lemma audit_determines_live_witness :
  let r := run (mkRun (PT.set_chain_manager (PT.new 3)) [] []) ex_ops in
  length (run_audit r) = 6%nat /\
  dom (entries (run_table r)) ∖ {[0]} = replay_audit (run_audit r) ∖ {[0]}.
Proof. split; [vm_compute; reflexivity|apply (audit_determines_live 3 ex_ops); reflexivity]. Defined.

(** ** Concurrent inserters

    [insert] reads the length, allocates a PID with [fetch_add] and inserts
    into the sharded map: three accesses, with other threads running in
    between.  Each thread is at one point of its current call. *)

Inductive Phase :=
| Idle
| Checked (e : ProcessEntry)
| Allocated (p : Pid) (e : ProcessEntry).

Record Conc := mkConc { conc_table : ProcessTable; phases : list Phase }.

Inductive cstep : Conc -> Conc -> Prop :=
| c_check t ph i e :
    ph !! i = Some Idle -> sizeN (entries t) < max_processes t ->
    cstep (mkConc t ph) (mkConc t (<[i := Checked e]> ph))
| c_full t ph i :
    ph !! i = Some Idle -> max_processes t <= sizeN (entries t) ->
    cstep (mkConc t ph) (mkConc t ph)
| c_alloc t ph i e :
    ph !! i = Some (Checked e) ->
    cstep (mkConc t ph)
      (mkConc (PT.allocate_pid t).1
         (<[i := Allocated (PT.allocate_pid t).2 (set_pid (PT.allocate_pid t).2 e)]> ph))
| c_commit t ph i p e :
    ph !! i = Some (Allocated p e) ->
    cstep (mkConc t ph)
      (mkConc (with_entries t (<[p := e]> (entries t))) (<[i := Idle]> ph)).

Definition conc_init (max : N) (threads : nat) : Conc :=
  mkConc (PT.new max) (replicate threads Idle).

(** Threads past their capacity check. *)
Definition past_check (x : Phase) : bool := match x with Idle => false | _ => true end.

Fixpoint in_flight (ph : list Phase) : nat :=
  match ph with [] => 0 | x :: ph => Nat.b2n (past_check x) + in_flight ph end.

Lemma in_flight_le ph : (in_flight ph <= length ph)%nat.
Proof. induction ph as [|x ph IH]; cbn; [done|]. destruct (past_check x); cbn; lia. Qed.

Lemma in_flight_insert ph i x y :
  ph !! i = Some x ->
  (in_flight (<[i := y]> ph) + Nat.b2n (past_check x) =
   in_flight ph + Nat.b2n (past_check y))%nat.
Proof.
  revert i. induction ph as [|z ph IH]; intros [|i] H; simplify_eq/=; [lia|].
  specialize (IH i H). lia.
Qed.

Lemma in_flight_replicate n : in_flight (replicate n Idle) = 0%nat.
Proof. by induction n. Qed.

(** The PIDs held by threads that have not inserted yet. *)
Definition held (ph : list Phase) (p : Pid) (i : nat) : Prop :=
  exists e, ph !! i = Some (Allocated p e).

Record conc_wf (threads : nat) (c : Conc) : Prop := {
  cw_threads : length (phases c) = threads;
  cw_room : sizeN (entries (conc_table c)) + N.of_nat (in_flight (phases c)) <=
            max_processes (conc_table c) + N.of_nat threads - 1;
  cw_held : forall p i, held (phases c) p i ->
            p < next_pid (conc_table c) /\ entries (conc_table c) !! p = None;
  cw_distinct : forall p i j, held (phases c) p i -> held (phases c) p j -> i = j;
  cw_fresh : forall p, next_pid (conc_table c) <= p -> entries (conc_table c) !! p = None;
}.

Lemma held_insert ph i x p j :
  held (<[i := x]> ph) p j ->
  (j = i /\ (i < length ph)%nat /\ exists e, x = Allocated p e) \/ (j <> i /\ held ph p j).
Proof.
  intros [e He]. destruct (decide (i = j)) as [->|Hne].
  - left. apply list_lookup_insert_Some in He as [(_ & -> & Hl)|[? _]]; [eauto|done].
  - right. rewrite list_lookup_insert_ne in He by done. split; [done|]. by exists e.
Qed.

Lemma cstep_wf threads c c' :
  cstep c c' -> next_pid (conc_table c) + 1 < u64_mod ->
  conc_wf threads c -> conc_wf threads c'.
Proof.
  intros Hs Hb [Hl Hr Hh Hd Hf].
  destruct Hs as [t ph i e Hi Hlt|t ph i Hi Hle|t ph i e Hi|t ph i p e Hi]; cbn in *.
  - pose proof (in_flight_insert _ _ _ (Checked e) Hi) as Hc. cbn in Hc.
    pose proof (in_flight_le (<[i:=Checked e]> ph)) as Hm. rewrite length_insert in Hm.
    split; cbn; [by rewrite length_insert|lia|..].
    + intros p j [(_&_&?&?)|[_ H]]%held_insert; [done|eauto].
    + intros p j k [(_&_&?&?)|[_ H]]%held_insert [(_&_&?&?)|[_ H']]%held_insert; [done..|eauto].
    + done.
  - by split.
  - pose proof (in_flight_insert _ _ _ (Allocated (next_pid t) (set_pid (next_pid t) e)) Hi) as Hc.
    cbn in Hc. rewrite wrap_add64_small by done.
    split; cbn; [by rewrite length_insert|lia|..].
    + intros p j [(_&_&?&?)|[_ H]]%held_insert; simplify_eq.
      * split; [lia|]. apply Hf. lia.
      * destruct (Hh _ _ H). split; [lia|done].
    + intros p j k [(->&_&?&?)|[Hj H]]%held_insert [(->&_&?&?)|[Hk H']]%held_insert;
        simplify_eq; [done|..|eauto].
      * destruct (Hh _ _ H'). lia.
      * destruct (Hh _ _ H). lia.
    + intros p Hp. apply Hf. lia.
  - pose proof (in_flight_insert _ _ _ Idle Hi) as Hc. cbn in Hc.
    assert (Hpi : held ph p i) by (by exists e).
    destruct (Hh _ _ Hpi) as [Hpn Hpe].
    split; cbn; [by rewrite length_insert| |..].
    + pose proof (sizeN_insert_le (entries t) p e). lia.
    + intros q j [(_&_&?&?)|[Hj H]]%held_insert; [done|].
      destruct (Hh _ _ H). split; [done|].
      rewrite lookup_insert_ne; [done|]. intros ->. by apply Hj, (Hd q).
    + intros q j k [(_&_&?&?)|[_ H]]%held_insert [(_&_&?&?)|[_ H']]%held_insert; [done..|eauto].
    + intros q Hq. rewrite lookup_insert_ne by lia. by apply Hf.
Qed.

Lemma cstep_next c c' :
  cstep c c' -> next_pid (conc_table c) + 1 < u64_mod ->
  next_pid (conc_table c') <= next_pid (conc_table c) + 1.
Proof. destruct 1; cbn; intros; rewrite ?wrap_add64_small by done; lia. Qed.

Lemma cstep_max c c' :
  cstep c c' -> max_processes (conc_table c') = max_processes (conc_table c).
Proof. by destruct 1. Qed.

Lemma nsteps_wf threads n c c' :
  nsteps cstep n c c' -> next_pid (conc_table c) + N.of_nat n < u64_mod ->
  conc_wf threads c ->
  conc_wf threads c' /\ max_processes (conc_table c') = max_processes (conc_table c).
Proof.
  induction 1 as [c|n c c1 c2 Hs _ IH]; intros Hb Hwf; [done|].
  assert (Hb1 : next_pid (conc_table c) + 1 < u64_mod) by lia.
  pose proof (cstep_next _ _ Hs Hb1). rewrite <- (cstep_max _ _ Hs).
  apply IH; [lia|]. by eapply cstep_wf.
Qed.

Lemma conc_init_wf max threads : conc_wf threads (conc_init max threads).
Proof.
  split; cbn.
  - apply length_replicate.
  - rewrite in_flight_replicate. unfold sizeN. rewrite map_size_empty. lia.
  - intros p i [e [He _]%lookup_replicate]. done.
  - intros p i j [e [He _]%lookup_replicate]. done.
  - done.
Qed.

(** Under every interleaving of [threads] concurrent inserters, no insert
    ever overwrites an entry (a PID waiting to be inserted is free and held
    by one thread only), and the table overshoots its capacity by at most
    one entry less than the number of threads. *)
Theorem concurrent_inserts max threads n c :
  nsteps cstep n (conc_init max threads) c -> 1 + N.of_nat n < u64_mod ->
  sizeN (entries (conc_table c)) <= max + N.of_nat threads - 1 /\
  (forall p i, held (phases c) p i ->
     entries (conc_table c) !! p = None /\ forall j, held (phases c) p j -> j = i).
Proof.
  intros Hs Hb. apply (nsteps_wf threads) in Hs as [[Hl Hr Hh Hd Hf] Hm];
    [|done|apply conc_init_wf]. cbn in Hm. rewrite Hm in Hr. split; [lia|].
  intros p i Hpi. split; [by apply (Hh p i)|]. eauto.
Qed.

(** The race: two threads both see one free slot. *)
Definition race_end : Conc :=
  mkConc (mkTable 3 (<[2 := set_pid 2 (ex_entry "b")]> (<[1 := set_pid 1 (ex_entry "a")]> ∅)) 1 false)
         [Idle; Idle].

Lemma race_steps : nsteps cstep 6 (conc_init 1 2) race_end.
Proof.
  eapply nsteps_l; [apply (c_check _ _ 0 (ex_entry "a")); vm_compute; done|].
  eapply nsteps_l; [apply (c_check _ _ 1 (ex_entry "b")); vm_compute; done|].
  eapply nsteps_l; [apply (c_alloc _ _ 0 (ex_entry "a")); vm_compute; done|].
  eapply nsteps_l; [apply (c_alloc _ _ 1 (ex_entry "b")); vm_compute; done|].
  eapply nsteps_l; [eapply (c_commit _ _ 0); vm_compute; done|].
  eapply nsteps_l; [eapply (c_commit _ _ 1); vm_compute; done|].
  apply nsteps_O.
Qed.

Lemma concurrent_inserts_witness :
  nsteps cstep 6 (conc_init 1 2) race_end /\
  sizeN (entries (conc_table race_end)) <= 1 + N.of_nat 2 - 1.
Proof.
  split; [exact race_steps|].
  apply (concurrent_inserts 1 2 6 race_end race_steps). vm_compute. reflexivity.
Defined.

(** The capacity of the table is not a bound under concurrency: with
    [max_processes = 1] and two threads an interleaving of two [insert]
    calls ends with two entries, both calls having passed the check. *)
Theorem capacity_race :
  exists c, rtc cstep (conc_init 1 2) c /\
            max_processes (conc_table c) < sizeN (entries (conc_table c)).
Proof.
  exists race_end. split; [|vm_compute; reflexivity].
  apply rtc_nsteps. exists 6%nat. apply race_steps.
Qed.
