(* ===== verification/Capability.v ===== *)
(** Agent capabilities: crates/clawft-kernel/src/capability.rs.  The checks
    that the router and the tool hooks make on the capabilities stored in the
    process table, and the elevation of a browser agent. *)

From S2P Require Import Prelude Process.
Open Scope N_scope.

(** ** Limits and scopes *)

(** [default_max_memory] ... [default_max_messages] and
    [ResourceLimits::default] *)
Definition default_max_memory : N := 256 * 1024 * 1024.
Definition default_max_cpu : N := 300000.
Definition default_max_tool_calls : N := 1000.
Definition default_max_messages : N := 5000.

Definition limits_default : ResourceLimits :=
  mkLimits default_max_memory default_max_cpu default_max_tool_calls default_max_messages.

(** [is_public_topic] *)
Definition is_public_topic (topic : string) : bool :=
  String.eqb topic "public" || String.prefix "public." topic.

(** [AgentCapabilities::default], [browser_default] *)
Definition caps_default : AgentCapabilities :=
  mkCaps true true true false ScopeAll limits_default.

Definition browser_default : AgentCapabilities :=
  mkCaps false true true false (Restricted [])
    (mkLimits (64 * 1024 * 1024) 60000 200 500).

(** [AgentCapabilities::can_message] *)
Definition can_message (c : AgentCapabilities) (target_pid : N) : bool :=
  if negb (can_ipc c) then false
  else match ipc_scope c with
       | ScopeAll => true
       | ParentOnly => false
       | Restricted pids => bool_decide (target_pid ∈ pids)
       | ScopeTopic _ => false
       | ScopeNone => false
       end.

(** [AgentCapabilities::can_topic] *)
Definition can_topic (c : AgentCapabilities) (topic : string) : bool :=
  if negb (can_ipc c) then false
  else match ipc_scope c with
       | ScopeAll => true
       | ScopeTopic topics => existsb (String.eqb topic) topics
       | ParentOnly => true
       | Restricted _ => is_public_topic topic
       | ScopeNone => false
       end.

(** [AgentCapabilities::within_limits] *)
Definition within_limits (c : AgentCapabilities) (memory cpu tools msgs : N) : bool :=
  (memory <=? max_memory_bytes (resource_limits c))
  && (cpu <=? max_cpu_time_ms (resource_limits c))
  && (tools <=? max_tool_calls (resource_limits c))
  && (msgs <=? max_messages (resource_limits c)).

Record SandboxPolicy := mkSandbox {
  allow_shell : bool;
  allow_network : bool;
  allowed_paths : list string;
  denied_paths : list string;
}.

Record ToolPermissions := mkPerms {
  tp_allow : list string;
  tp_deny : list string;
  service_access : list string;
}.

Inductive ResourceType :=
| RMemory (bytes : N)
| RCpuTime (ms : N)
| RConcurrentTools (count : N)
| RMessages (count : N).

(** [is_shell_tool] *)
Definition is_shell_tool (tool_name : string) : bool :=
  existsb (String.eqb tool_name)
    ["shell_exec"; "exec_shell"; "bash"; "command"; "run_command"].

(** ** The capability checker

    [CapabilityChecker] holds the process table; every check reads it. *)

Module Checker.

(** The deny and allow lists of [check_tool_access]: deny overrides allow, an
    empty allow list allows everything. *)
Definition check_tool_lists (p : Pid) (tool_name : string)
  (tool_permissions : option ToolPermissions) : result unit KernelError :=
  match tool_permissions with
  | Some perms =>
      if existsb (String.eqb tool_name) (tp_deny perms) then
        Err (CapabilityDenied p ("execute tool '" +:+ tool_name +:+ "'")
               "tool is in the deny list")
      else if negb (bool_decide (tp_allow perms = []))
              && negb (existsb (String.eqb tool_name) (tp_allow perms)) then
        Err (CapabilityDenied p ("execute tool '" +:+ tool_name +:+ "'")
               "tool is not in the allow list")
      else Ok tt
  | None => Ok tt
  end.

(** The sandbox part of [check_tool_access]. *)
Definition check_tool_sandbox (p : Pid) (tool_name : string)
  (sandbox : option SandboxPolicy) : result unit KernelError :=
  match sandbox with
  | Some sb =>
      if is_shell_tool tool_name && negb (allow_shell sb) then
        Err (CapabilityDenied p ("execute shell tool '" +:+ tool_name +:+ "'")
               "sandbox policy does not allow shell execution")
      else Ok tt
  | None => Ok tt
  end.

(** [CapabilityChecker::check_tool_access] *)
Definition check_tool_access (t : ProcessTable) (p : Pid) (tool_name : string)
  (tool_permissions : option ToolPermissions) (sandbox : option SandboxPolicy)
  : result unit KernelError :=
  match PT.get t p with
  | None => Err (ProcessNotFound p)
  | Some entry =>
      if negb (can_exec_tools (capabilities entry)) then
        Err (CapabilityDenied p ("execute tool '" +:+ tool_name +:+ "'")
               "agent does not have can_exec_tools capability")
      else
        let? _ := check_tool_lists p tool_name tool_permissions in
        check_tool_sandbox p tool_name sandbox
  end.

(** [Debug] of an [IpcScope], as it appears in the denial reasons.  The
    escaping of string literals is the formatter's: [dbg_str] is its
    rendering of one string. *)
Section ScopeDebug.
Context (dbg_str : string -> string).

Definition dbg_list (l : list string) : string :=
  "[" +:+ String.concat ", " l +:+ "]".

Definition scope_debug (s : IpcScope) : string :=
  match s with
  | ScopeAll => "All"
  | ParentOnly => "ParentOnly"
  | Restricted pids => "Restricted(" +:+ dbg_list (pretty <$> pids) +:+ ")"
  | ScopeTopic topics => "Topic(" +:+ dbg_list (dbg_str <$> topics) +:+ ")"
  | ScopeNone => "None"
  end.

(** [CapabilityChecker::check_ipc_target] *)
Definition check_ipc_target (t : ProcessTable) (from_pid to_pid : Pid)
  : result unit KernelError :=
  match PT.get t from_pid with
  | None => Err (ProcessNotFound from_pid)
  | Some entry =>
      if negb (can_ipc (capabilities entry)) then
        Err (CapabilityDenied from_pid ("send IPC message to PID " +:+ pretty to_pid)
               "agent does not have IPC capability")
      else if negb (can_message (capabilities entry) to_pid) then
        Err (CapabilityDenied from_pid ("send IPC message to PID " +:+ pretty to_pid)
               ("target PID " +:+ pretty to_pid +:+ " is outside IPC scope "
                +:+ scope_debug (ipc_scope (capabilities entry))))
      else Ok tt
  end.

(** [CapabilityChecker::check_ipc_topic] *)
Definition check_ipc_topic (t : ProcessTable) (p : Pid) (topic : string)
  : result unit KernelError :=
  match PT.get t p with
  | None => Err (ProcessNotFound p)
  | Some entry =>
      if negb (can_topic (capabilities entry) topic) then
        Err (CapabilityDenied p ("access topic '" +:+ topic +:+ "'")
               ("topic '" +:+ topic +:+ "' is outside IPC scope "
                +:+ scope_debug (ipc_scope (capabilities entry))))
      else Ok tt
  end.

End ScopeDebug.

(** [CapabilityChecker::check_service_access] *)
Definition check_service_access (t : ProcessTable) (p : Pid) (service_name : string)
  (tool_permissions : option ToolPermissions) : result unit KernelError :=
  match PT.get t p with
  | None => Err (ProcessNotFound p)
  | Some _ =>
      match tool_permissions with
      | Some perms =>
          if negb (bool_decide (service_access perms = []))
             && negb (existsb (String.eqb service_name) (service_access perms)) then
            Err (CapabilityDenied p ("access service '" +:+ service_name +:+ "'")
                   "service is not in the agent's service access list")
          else Ok tt
      | None => Ok tt
      end
  end.

(** [CapabilityChecker::check_resource_limit] *)
Definition check_resource_limit (t : ProcessTable) (p : Pid) (resource : ResourceType)
  : result unit KernelError :=
  match PT.get t p with
  | None => Err (ProcessNotFound p)
  | Some entry =>
      let limits := resource_limits (capabilities entry) in
      match resource with
      | RMemory bytes =>
          if max_memory_bytes limits <? bytes then
            Err (ResourceLimitExceeded p "memory" bytes (max_memory_bytes limits))
          else Ok tt
      | RCpuTime ms =>
          if max_cpu_time_ms limits <? ms then
            Err (ResourceLimitExceeded p "cpu_time" ms (max_cpu_time_ms limits))
          else Ok tt
      | RConcurrentTools count =>
          if max_tool_calls limits <? count then
            Err (ResourceLimitExceeded p "concurrent_tools" count (max_tool_calls limits))
          else Ok tt
      | RMessages count =>
          if max_messages limits <? count then
            Err (ResourceLimitExceeded p "messages" count (max_messages limits))
          else Ok tt
      end
  end.

End Checker.

(** ** Elevation of browser agents *)

Record CapabilityElevationRequest := mkElevation {
  el_pid : N;
  el_current : AgentCapabilities;
  el_requested : AgentCapabilities;
  el_reason : string;
}.

Inductive ElevationResult :=
| Granted (new_capabilities : AgentCapabilities)
| ElevationDenied (reason : string).

(** [AgentCapabilities::request_elevation] *)
Definition request_elevation (current requested : AgentCapabilities) (platform : string)
  : CapabilityElevationRequest :=
  mkElevation 0 current requested
    ("capability elevation for " +:+ platform +:+ " agent").

(** [AgentCapabilities::needs_elevation] *)
Definition needs_elevation (platform : string) (requested : AgentCapabilities) : bool :=
  String.eqb platform "browser"
  && (can_spawn requested || can_network requested
      || negb (match ipc_scope requested with Restricted _ => true | _ => false end)).

(** ** What the checks decide *)

Lemma existsb_eqb_In (x : string) (l : list string) :
  existsb (String.eqb x) l = true <-> x ∈ l.
Proof.
  rewrite existsb_exists. split.
  - intros (y & Hy & Heq%String.eqb_eq). subst. by apply list_elem_of_In.
  - intros H. exists x. split; [by apply list_elem_of_In|]. apply String.eqb_refl.
Qed.

Lemma existsb_eqb_notIn (x : string) (l : list string) :
  existsb (String.eqb x) l = false <-> x ∉ l.
Proof.
  rewrite <- existsb_eqb_In. destruct (existsb _ _); split; congruence.
Qed.

(** What the two parts of the tool check accept. *)
Definition tool_listed (tool : string) (perms : option ToolPermissions) : Prop :=
  forall pm, perms = Some pm ->
    tool ∉ tp_deny pm /\ (tp_allow pm = [] \/ tool ∈ tp_allow pm).

Definition tool_sandboxed (tool : string) (sandbox : option SandboxPolicy) : Prop :=
  forall sb, sandbox = Some sb -> is_shell_tool tool = true -> allow_shell sb = true.

Lemma check_tool_lists_ok p tool perms :
  Checker.check_tool_lists p tool perms = Ok tt <-> tool_listed tool perms.
Proof.
  unfold Checker.check_tool_lists, tool_listed. destruct perms as [pm|]; [|by split].
  destruct (existsb _ (tp_deny pm)) eqn:Hd.
  { apply existsb_eqb_In in Hd. split; [done|]. intros H. destruct (H pm eq_refl). done. }
  apply existsb_eqb_notIn in Hd.
  destruct (bool_decide_reflect (tp_allow pm = [])) as [Ha|Ha]; cbn.
  { split; [intros _ ? [= <-]; auto|done]. }
  destruct (existsb _ (tp_allow pm)) eqn:Hal; cbn.
  - apply existsb_eqb_In in Hal. split; [intros _ ? [= <-]; auto|done].
  - apply existsb_eqb_notIn in Hal. split; [done|]. intros H.
    destruct (H pm eq_refl) as [_ [?|?]]; done.
Qed.

Lemma check_tool_sandbox_ok p tool sandbox :
  Checker.check_tool_sandbox p tool sandbox = Ok tt <-> tool_sandboxed tool sandbox.
Proof.
  unfold Checker.check_tool_sandbox, tool_sandboxed. destruct sandbox as [sb|]; [|by split].
  destruct (is_shell_tool tool); cbn.
  - destruct (allow_shell sb) eqn:Hs; cbn; split; [|done..|].
    + by intros _ ? [= <-].
    + intros H. specialize (H sb eq_refl eq_refl). congruence.
  - by split.
Qed.

Lemma ok_unit {E} (r : result unit E) : (exists x, r = Ok x) <-> r = Ok tt.
Proof. split; [intros [[] ->]; done|eauto]. Qed.

(** Tool access is allowed exactly when the process exists and may run
    tools, the tool is not on the deny list, it is on the allow list or the
    allow list is empty, and a shell tool under a sandbox has the shell
    allowed.  In particular a tool on both lists is refused. *)
Theorem tool_access_spec t p tool perms sandbox :
  Checker.check_tool_access t p tool perms sandbox = Ok tt <->
  exists e, PT.get t p = Some e /\ can_exec_tools (capabilities e) = true /\
    (forall pm, perms = Some pm ->
       tool ∉ tp_deny pm /\ (tp_allow pm = [] \/ tool ∈ tp_allow pm)) /\
    (forall sb, sandbox = Some sb -> is_shell_tool tool = true -> allow_shell sb = true).
Proof.
  unfold Checker.check_tool_access.
  destruct (PT.get t p) as [e|]; [|split; [done|intros (?&?&_); done]].
  destruct (can_exec_tools (capabilities e)) eqn:Hx; cbn;
    [|split; [done|intros (?&[= <-]&?&_); congruence]].
  pose proof (check_tool_lists_ok p tool perms) as Hl. unfold tool_listed in Hl.
  pose proof (check_tool_sandbox_ok p tool sandbox) as Hs. unfold tool_sandboxed in Hs.
  destruct (Checker.check_tool_lists p tool perms) as [[]|err] eqn:Hc.
  - rewrite Hs. split; [intros H; exists e; naive_solver|].
    intros (e' & [= <-] & _ & _ & H). exact H.
  - split; [done|]. intros (e' & _ & _ & H & _). apply Hl in H. done.
Qed.

(** What a browser agent may have without elevation.  Any capability set
    for which a browser request needs no elevation cannot spawn, cannot use
    the network, reaches only the topics that are public and only the PIDs on
    its explicit list. *)
Theorem browser_confined c :
  needs_elevation "browser" c = false ->
  can_spawn c = false /\ can_network c = false /\
  (forall topic, can_topic c topic = true ->
     topic = "public" \/ exists rest, topic = "public." +:+ rest) /\
  (exists pids, ipc_scope c = Restricted pids /\
     forall q, can_message c q = true -> q ∈ pids).
Proof.
  unfold needs_elevation. cbn. destruct (can_spawn c); [done|].
  destruct (can_network c); [done|]. cbn.
  destruct (ipc_scope c) as [| |pids| |] eqn:Hs; try done. intros _.
  split; [done|]. split; [done|]. split.
  - intros topic. unfold can_topic. rewrite Hs. destruct (can_ipc c); [|done]. cbn.
    unfold is_public_topic. intros [H|H]%orb_prop.
    + left. by apply String.eqb_eq.
    + right. by apply prefix_true_app.
  - exists pids. split; [done|]. intros q. unfold can_message. rewrite Hs.
    destruct (can_ipc c); [|done]. cbn. by intros H%bool_decide_eq_true_1.
Qed.

Lemma browser_confined_witness :
  needs_elevation "browser" browser_default = false /\
  can_topic browser_default "public.news" = true /\
  can_spawn browser_default = false.
Proof.
  split; [reflexivity|]. split; [reflexivity|].
  apply (browser_confined browser_default). reflexivity.
Defined.

(** An agent whose IPC scope is parent-only is refused every direct
    message, its own parent's PID included, with the scope denial; the check
    of the parent that the scope is documented to make is in no caller. *)
Theorem parent_only_mute dbg t p e q :
  PT.get t p = Some e ->
  can_ipc (capabilities e) = true ->
  ipc_scope (capabilities e) = ParentOnly ->
  Checker.check_ipc_target dbg t p q =
    Err (CapabilityDenied p ("send IPC message to PID " +:+ pretty q)
           ("target PID " +:+ pretty q +:+ " is outside IPC scope ParentOnly")).
Proof.
  intros Hget Hipc Hscope. unfold Checker.check_ipc_target, can_message.
  rewrite Hget, Hipc, Hscope. done.
Qed.

(** A table with one parent-only child of PID 7. *)
Module ParentOnlyExample.

Definition child_caps : AgentCapabilities := mkCaps true true true false ParentOnly limits_default.
Definition child : ProcessEntry :=
  mkEntry 0 "child" Running child_caps (mkUsage 0 0 0 0) 0 (Some 7).
Definition table : ProcessTable :=
  match PT.insert (PT.new 4) child with (t, _, _) => t end.

End ParentOnlyExample.
Import ParentOnlyExample.

Lemma parent_only_mute_witness :
  exists e, PT.get table 1 = Some e /\ parent_pid e = Some 7 /\
  is_ok (Checker.check_ipc_target (fun s => s) table 1 7) = false.
Proof.
  eexists. split; [vm_compute; reflexivity|]. split; [reflexivity|].
  erewrite (parent_only_mute _ table 1); [reflexivity|vm_compute; reflexivity..].
Defined.

(** The combined limit test of the agent agrees with the four separate
    resource checks: usage is within limits exactly when none of them is
    refused. *)
Theorem within_limits_checks t p e memory cpu tools msgs :
  PT.get t p = Some e ->
  within_limits (capabilities e) memory cpu tools msgs = true <->
  Forall (fun r => Checker.check_resource_limit t p r = Ok tt)
    [RMemory memory; RCpuTime cpu; RConcurrentTools tools; RMessages msgs].
Proof.
  intros Hget. rewrite !Forall_cons, Forall_nil. unfold Checker.check_resource_limit.
  rewrite Hget. unfold within_limits. rewrite !andb_true_iff, !N.leb_le.
  repeat match goal with |- context [?a <? ?b] => destruct (N.ltb_spec a b) end;
    intuition (done || lia).
Qed.

Lemma within_limits_checks_witness :
  within_limits child_caps 4096 300000 0 5000 = true /\
  Forall (fun r => Checker.check_resource_limit table 1 r = Ok tt)
    [RMemory 4096; RCpuTime 300000; RConcurrentTools 0; RMessages 5000].
Proof.
  split; [reflexivity|].
  eapply (within_limits_checks table 1); [vm_compute; reflexivity|reflexivity].
Defined.
