(* ===== verification/RateLimit.v ===== *)
(** The keyed sliding-window rate limiter: crates/clawft-kernel/src/rate_limit.rs.
    It guards peer additions (per source) and governance evaluations (per
    principal).  Instants and durations are nanoseconds of the monotonic
    clock; [check] takes the instant it reads. *)

From S2P Require Import Prelude.
Open Scope N_scope.

(** ** Configuration *)

Record RateLimitConfig := mkRate {
  max_per_window : N;
  window : N;
}.

Definition unlimited_config : RateLimitConfig := mkRate 0 0.
Definition per_minute (max : N) : RateLimitConfig := mkRate max 60000000000.
Definition per_second (max : N) : RateLimitConfig := mkRate max 1000000000.
Definition is_enabled (c : RateLimitConfig) : bool := 0 <? max_per_window c.

Definition DEFAULT_PEER_ADD_RATE : RateLimitConfig := mkRate 1 100000000.
Definition DEFAULT_GOVERNANCE_EVAL_RATE : RateLimitConfig := mkRate 256 1000000000.

(** ** The limiter *)

Record KeyedRateLimiter := mkLimiter {
  rl_config : RateLimitConfig;
  rl_windows : gmap string (list N);
  rl_calls : N;
}.

Definition SWEEP_EVERY : N := 1024.
Definition SWEEP_OVER_KEYS : N := 4096.

Module RL.

Definition new (c : RateLimitConfig) : KeyedRateLimiter := mkLimiter c ∅ 0.

Definition unlimited : KeyedRateLimiter := new unlimited_config.

Definition set_config (l : KeyedRateLimiter) (c : RateLimitConfig) : KeyedRateLimiter :=
  mkLimiter c (rl_windows l) (rl_calls l).

(** [now.duration_since( *ts) < window]; an instant in the future is at
    distance zero. *)
Definition recent (w now ts : N) : Prop := now - ts < w.
#[global] Instance recent_dec w now ts : Decision (recent w now ts).
Proof. unfold recent. apply _. Defined.

(** The sweep keeps a key whose last event is recent. *)
Definition key_live (w now : N) (kv : string * list N) : Prop :=
  match last kv.2 with Some ts => recent w now ts | None => False end.
#[global] Instance key_live_dec w now kv : Decision (key_live w now kv).
Proof. unfold key_live. destruct (last kv.2); apply _. Defined.

Definition sweep (w now : N) (m : gmap string (list N)) : gmap string (list N) :=
  filter (key_live w now) m.

(** [KeyedRateLimiter::check] *)
Definition check (l : KeyedRateLimiter) (now : N) (key : string) : KeyedRateLimiter * bool :=
  let c := rl_config l in
  if negb (is_enabled c) then (l, true)
  else
    let calls := rl_calls l in
    let map := if (calls mod SWEEP_EVERY =? SWEEP_EVERY - 1)
                  || (SWEEP_OVER_KEYS <? N.of_nat (size (rl_windows l)))
               then sweep (window c) now (rl_windows l) else rl_windows l in
    let entry := filter (recent (window c) now) (default [] (map !! key)) in
    if max_per_window c <=? lenN entry then
      (mkLimiter c (<[key := entry]> map) (wrap_add64 calls 1), false)
    else
      (mkLimiter c (<[key := entry ++ [now]]> map) (wrap_add64 calls 1), true).

Definition tracked_keys (l : KeyedRateLimiter) : N := N.of_nat (size (rl_windows l)).

Definition reset (l : KeyedRateLimiter) : KeyedRateLimiter :=
  mkLimiter (rl_config l) ∅ (rl_calls l).

(** A sequence of checks, each at its instant. *)
Fixpoint run (l : KeyedRateLimiter) (evs : list (N * string)) : KeyedRateLimiter * list bool :=
  match evs with
  | [] => (l, [])
  | (now, key) :: evs =>
      let '(l1, b) := check l now key in
      let '(l2, bs) := run l1 evs in
      (l2, b :: bs)
  end.

End RL.

(** ** Reference limiter

    The contract: keep every allowed event for ever, and allow an event when
    fewer than the quota of its key's allowed events are within the window. *)

Module RLSpec.

Definition counted (w now : N) (key : string) (e : N * string) : Prop :=
  e.2 = key /\ RL.recent w now e.1.
#[global] Instance counted_dec w now key e : Decision (counted w now key e).
Proof. unfold counted. apply _. Defined.

Definition allow (c : RateLimitConfig) (log : list (N * string)) (now : N) (key : string) : bool :=
  lenN (filter (counted (window c) now key) log) <? max_per_window c.

Fixpoint run (c : RateLimitConfig) (log evs : list (N * string)) : list (N * string) * list bool :=
  match evs with
  | [] => (log, [])
  | e :: evs =>
      let b := allow c log e.1 e.2 in
      let '(log', bs) := run c (if b then log ++ [e] else log) evs in
      (log', b :: bs)
  end.

End RLSpec.

(** The clock is monotone: instants of a trace never decrease. *)
Definition clocked (t0 : N) (evs : list (N * string)) : Prop :=
  StronglySorted N.le (t0 :: map fst evs).

#[global] Instance clocked_dec t0 evs : Decision (clocked t0 evs).
Proof. unfold clocked. apply _. Defined.

Lemma clocked_cons t0 e evs :
  clocked t0 (e :: evs) -> t0 <= e.1 /\ clocked e.1 evs.
Proof.
  intros [H1 H2]%StronglySorted_inv. split; [|done].
  by apply Forall_cons in H2 as [? _].
Qed.

(** ** Pruning and sweeping lose nothing *)

Section Refinement.
Context (c : RateLimitConfig).
Abbreviation w := (window c).

(** The events of one key in the reference log. *)
Definition key_times (key : string) (log : list (N * string)) : list N :=
  map fst (filter (fun e => e.2 = key) log).

(** At or after [t], the map and the log agree on the recent events of every
    key, and each window is ordered. *)
Definition window_of (m : gmap string (list N)) (key : string) : list N := default [] (m !! key).

Record agrees (t : N) (m : gmap string (list N)) (log : list (N * string)) : Prop := {
  ag_recent key now : t <= now ->
    filter (RL.recent w now) (window_of m key) = filter (RL.recent w now) (key_times key log);
  ag_sorted key : StronglySorted N.le (window_of m key);
  ag_past key : Forall (fun ts => ts <= t) (window_of m key);
}.

Lemma recent_mono now now' ts : now <= now' -> RL.recent w now' ts -> RL.recent w now ts.
Proof. unfold RL.recent. lia. Qed.

Lemma filter_recent_mono now now' (l : list N) : now <= now' ->
  filter (RL.recent w now') (filter (RL.recent w now) l) = filter (RL.recent w now') l.
Proof. intros H. apply list_filter_filter_l. intros ts. by apply recent_mono. Qed.

Lemma sorted_last_max (l : list N) x :
  StronglySorted N.le l -> last l = Some x -> Forall (fun y => y <= x) l.
Proof.
  intros Hs Hl. apply last_Some in Hl as [l' ->].
  apply Forall_app. split; [|by repeat constructor].
  apply Forall_forall. intros y Hy. eapply (StronglySorted_app_1_elem_of N.le); eauto.
  by apply list_elem_of_singleton.
Qed.

(** A swept window had no recent event left. *)
Lemma dead_window now now' l :
  now <= now' -> StronglySorted N.le l -> ~ RL.key_live w now ("", l) ->
  filter (RL.recent w now') l = [].
Proof.
  intros Hn Hs Hdead. destruct (last l) as [x|] eqn:Hl.
  - apply list_filter_none. intros y Hy Hr. apply Hdead. unfold RL.key_live. cbn. rewrite Hl.
    pose proof (sorted_last_max _ _ Hs Hl) as Hmax. rewrite Forall_forall in Hmax.
    specialize (Hmax y Hy). unfold RL.recent in *. lia.
  - by apply last_None in Hl as ->.
Qed.

Lemma sweep_window now m key :
  window_of (RL.sweep w now m) key = window_of m key \/
  (window_of (RL.sweep w now m) key = [] /\ ~ RL.key_live w now ("", window_of m key)).
Proof.
  unfold window_of, RL.sweep. destruct (m !! key) as [l|] eqn:Hm; cbn.
  - destruct (decide (RL.key_live w now (key, l))) as [Hl|Hl].
    + left. by rewrite (map_lookup_filter_Some_2 _ _ _ _ Hm Hl).
    + right. rewrite map_lookup_filter_None_2; [done|]. right. naive_solver.
  - left. rewrite map_lookup_filter_None_2; [done|]. by left.
Qed.

Lemma agrees_sweep t now m log :
  t <= now -> agrees t m log -> agrees now (RL.sweep w now m) log.
Proof.
  intros Ht [Hr Hs Hp]. split; intros key.
  - intros now' Hn. rewrite <- Hr by lia. destruct (sweep_window now m key) as [->|[-> Hd]]; [done|].
    symmetry. by eapply dead_window.
  - destruct (sweep_window now m key) as [->|[-> _]]; [done|constructor].
  - destruct (sweep_window now m key) as [->|[-> _]]; [|constructor].
    eapply Forall_impl; [apply Hp|]. cbn. lia.
Qed.

Lemma agrees_weaken t now m log : t <= now -> agrees t m log -> agrees now m log.
Proof.
  intros Ht [Hr Hs Hp]. split; intros key; [intros; apply Hr; lia|done|].
  eapply Forall_impl; [apply Hp|]. cbn. lia.
Qed.

Lemma window_insert m key key' l :
  window_of (<[key := l]> m) key' = if decide (key = key') then l else window_of m key'.
Proof. unfold window_of. case_decide; simplify_map_eq; done. Qed.

Lemma agrees_prune now m log key :
  agrees now m log ->
  agrees now (<[key := filter (RL.recent w now) (window_of m key)]> m) log.
Proof.
  intros [Hr Hs Hp]. split; intros key'; rewrite window_insert; case_decide; subst; auto.
  - intros now' Hn. rewrite filter_recent_mono by done. auto.
  - by apply StronglySorted_filter.
  - by apply Forall_filter_sub.
Qed.

Lemma key_times_snoc key log e :
  key_times key (log ++ [e]) = key_times key log ++ (if decide (e.2 = key) then [e.1] else []).
Proof.
  unfold key_times. rewrite filter_app, map_app. f_equal.
  rewrite filter_cons, filter_nil. by case_decide.
Qed.

Lemma agrees_push now m log key :
  agrees now m log ->
  agrees now (<[key := window_of m key ++ [now]]> m) (log ++ [(now, key)]).
Proof.
  intros [Hr Hs Hp]. split; intros key'; rewrite ?key_times_snoc, window_insert; cbn.
  - intros now' Hn. case_decide; subst.
    + rewrite !filter_app. f_equal. by apply Hr.
    + rewrite app_nil_r. by apply Hr.
  - case_decide; subst; [|done]. apply StronglySorted_app_2; [|done|repeat constructor].
    intros x y Hx ->%list_elem_of_singleton. specialize (Hp key').
    rewrite Forall_forall in Hp. by apply Hp.
  - case_decide; subst; [|done]. apply Forall_app. split; [done|by repeat constructor].
Qed.

Lemma counted_length now key log :
  length (filter (RLSpec.counted w now key) log)
  = length (filter (RL.recent w now) (key_times key log)).
Proof.
  unfold key_times. induction log as [|[t k] log IH]; [done|].
  rewrite !(filter_cons _ (t, k)). cbn [snd].
  destruct (decide (k = key)) as [->|Hne]; cbn [map fst].
  - rewrite filter_cons.
    destruct (decide (RL.recent w now t)).
    + rewrite decide_True by done. cbn. by rewrite IH.
    + rewrite decide_False; [done|]. by intros [_ ?].
  - rewrite decide_False; [done|]. by intros [? _].
Qed.

(** One check, against the reference. *)
Lemma check_refines l t now key log :
  rl_config l = c -> is_enabled c = true ->
  t <= now -> agrees t (rl_windows l) log ->
  let '(l', b) := RL.check l now key in
  b = RLSpec.allow c log now key /\ rl_config l' = c /\
  agrees now (rl_windows l') (if b then log ++ [(now, key)] else log).
Proof.
  intros Hc He Ht Hag. unfold RL.check. rewrite Hc, He. cbn [negb].
  set (m := (if _ || _ then RL.sweep w now (rl_windows l) else rl_windows l)).
  assert (agrees now m log) as Hm.
  { subst m. destruct (_ || _); [by eapply agrees_sweep|by eapply agrees_weaken]. }
  clearbody m. fold (window_of m key).
  assert (lenN (filter (RL.recent w now) (window_of m key))
          = lenN (filter (RLSpec.counted w now key) log)) as Hlen.
  { unfold lenN. rewrite counted_length, (ag_recent _ _ _ Hm) by lia. done. }
  unfold RLSpec.allow. rewrite <- Hlen.
  destruct (N.leb_spec (max_per_window c) (lenN (filter (RL.recent w now) (window_of m key))));
    cbn; rewrite ?Hc; (split; [symmetry; first [apply N.ltb_ge|apply N.ltb_lt]; lia|]);
    (split; [done|]).
  - by apply agrees_prune.
  - apply (agrees_prune _ _ _ key) in Hm.
    apply (agrees_push _ _ _ key) in Hm. rewrite window_insert in Hm.
    rewrite decide_True, insert_insert_eq in Hm by done. exact Hm.
Qed.

Lemma run_refines evs : forall l t log,
  rl_config l = c -> is_enabled c = true -> clocked t evs -> agrees t (rl_windows l) log ->
  (RL.run l evs).2 = (RLSpec.run c log evs).2.
Proof.
  induction evs as [|[now key] evs IH]; intros l t log Hc He Hclk Hag; [done|].
  apply clocked_cons in Hclk as [Ht Hclk]. cbn [fst] in *. cbn [RL.run RLSpec.run fst snd].
  pose proof (check_refines l t now key log Hc He Ht Hag) as Hstep.
  destruct (RL.check l now key) as [l1 b]. destruct Hstep as (-> & Hc1 & Hag1).
  specialize (IH _ _ _ Hc1 He Hclk Hag1).
  destruct (RL.run l1 evs), (RLSpec.run _ _ evs). cbn in *. by subst.
Qed.

Lemma agrees_init : agrees 0 ∅ [].
Proof.
  split; intros key; unfold window_of; rewrite lookup_empty; cbn; [done|constructor..].
Qed.

End Refinement.

(** The limiter takes exactly the decisions of the reference that keeps
    every allowed event for ever: neither the pruning of a window nor the
    sweep of idle keys ever changes an answer. *)
Theorem limiter_refines_reference c evs :
  is_enabled c = true -> clocked 0 evs ->
  (RL.run (RL.new c) evs).2 = (RLSpec.run c [] evs).2.
Proof. intros He Hclk. by eapply run_refines; [..|apply agrees_init]. Qed.

Lemma limiter_refines_reference_witness :
  (RL.run (RL.new (mkRate 2 10)) [(0, "a"); (1, "a"); (2, "b"); (3, "a"); (10, "a")]).2
  = (RLSpec.run (mkRate 2 10) [] [(0, "a"); (1, "a"); (2, "b"); (3, "a"); (10, "a")]).2.
Proof.
  apply limiter_refines_reference; [reflexivity|].
  repeat constructor; vm_compute; done.
Defined.

(** ** The quota *)

(** The events a run allowed. *)
Definition allowed (evs : list (N * string)) (bs : list bool) : list (N * string) :=
  map fst (filter (fun p => p.2 = true) (zip evs bs)).

(** The events of [key] in the span [t, t + w). *)
Definition in_span (t w : N) (key : string) (e : N * string) : Prop :=
  e.2 = key /\ t <= e.1 /\ e.1 < t + w.
#[global] Instance in_span_dec t w key e : Decision (in_span t w key e).
Proof. unfold in_span. apply _. Defined.

Definition quota_ok (c : RateLimitConfig) (log : list (N * string)) : Prop :=
  forall t key, lenN (filter (in_span t (window c) key) log) <= max_per_window c.

Lemma spec_run_log c evs : forall log,
  (RLSpec.run c log evs).1 = log ++ allowed evs (RLSpec.run c log evs).2.
Proof.
  unfold allowed. induction evs as [|e evs IH]; intros log; [cbn; by rewrite app_nil_r|].
  cbn [RLSpec.run]. destruct (RLSpec.allow c log e.1 e.2) eqn:Hb;
    [specialize (IH (log ++ [e]))|specialize (IH log)];
    destruct (RLSpec.run c _ evs) as [log' bs]; cbn [fst snd zip_with] in *;
    rewrite IH, filter_cons; cbn [map fst].
  - by rewrite <- app_assoc.
  - done.
Qed.

Lemma filter_imp_length {A} (P Q : A -> Prop) `{!forall x, Decision (P x)}
  `{!forall x, Decision (Q x)} (l : list A) :
  (forall x, x ∈ l -> P x -> Q x) -> (length (filter P l) <= length (filter Q l))%nat.
Proof.
  induction l as [|x l IH]; intros HPQ; [done|]. rewrite !filter_cons.
  assert (length (filter P l) <= length (filter Q l))%nat
    by (apply IH; intros; apply HPQ; [by right|done]).
  repeat case_decide; cbn; try lia. exfalso. eauto using list_elem_of_here.
Qed.

Lemma quota_step c log e :
  quota_ok c log -> Forall (fun e' => e'.1 <= e.1) log ->
  RLSpec.allow c log e.1 e.2 = true -> quota_ok c (log ++ [e]).
Proof.
  intros Hq Hpast Hal t key. apply N.ltb_lt in Hal.
  rewrite filter_app, lenN_app, filter_cons, filter_nil.
  case_decide as Hin; [|specialize (Hq t key); unfold lenN in *; cbn [length]; lia].
  destruct Hin as (<- & Hlo & Hhi).
  assert (length (filter (in_span t (window c) e.2) log)
          <= length (filter (RLSpec.counted (window c) e.1 e.2) log))%nat.
  { apply filter_imp_length. intros x Hx (? & ? & ?). split; [done|].
    unfold RL.recent. lia. }
  unfold lenN in *. cbn [length]. lia.
Qed.

Lemma spec_run_quota c evs : forall t log,
  clocked t evs -> Forall (fun e => e.1 <= t) log -> quota_ok c log ->
  quota_ok c (RLSpec.run c log evs).1.
Proof.
  induction evs as [|e evs IH]; intros t log Hclk Hpast Hq; [done|].
  apply clocked_cons in Hclk as [Ht Hclk]. cbn.
  assert (Forall (fun e' => e'.1 <= e.1) log).
  { eapply Forall_impl; [done|]. cbn. lia. }
  destruct (RLSpec.allow c log e.1 e.2) eqn:Hb.
  - specialize (IH e.1 (log ++ [e]) Hclk). destruct (RLSpec.run c _ evs). cbn. apply IH.
    + apply Forall_app. split; [done|]. by repeat constructor.
    + by apply quota_step.
  - specialize (IH e.1 log Hclk). destruct (RLSpec.run c _ evs). cbn. by apply IH.
Qed.

(** C7: No key is ever allowed more than its quota in any span of one window,
    wherever the span starts, for any trace of calls of any keys. *)
Theorem sliding_window_quota c evs t key :
  is_enabled c = true -> clocked 0 evs ->
  lenN (filter (in_span t (window c) key) (allowed evs (RL.run (RL.new c) evs).2))
  <= max_per_window c.
Proof.
  intros He Hclk. erewrite run_refines; [|done..|apply agrees_init].
  pose proof (spec_run_quota c evs 0 [] Hclk) as Hq. rewrite spec_run_log in Hq.
  apply Hq; [constructor|]. intros ??. unfold lenN. cbn. lia.
Qed.

Lemma sliding_window_quota_witness :
  allowed [(0, "a"); (1, "a"); (9, "a"); (10, "a"); (11, "a"); (12, "a")]
    (RL.run (RL.new (mkRate 2 10)) [(0, "a"); (1, "a"); (9, "a"); (10, "a"); (11, "a"); (12, "a")]).2
    = [(0, "a"); (1, "a"); (10, "a"); (11, "a")] /\
  lenN (filter (in_span 1 10 "a")
    (allowed [(0, "a"); (1, "a"); (9, "a"); (10, "a"); (11, "a"); (12, "a")]
       (RL.run (RL.new (mkRate 2 10))
          [(0, "a"); (1, "a"); (9, "a"); (10, "a"); (11, "a"); (12, "a")]).2)) <= 2.
Proof.
  split; [vm_compute; reflexivity|].
  apply (sliding_window_quota (mkRate 2 10)); [reflexivity|].
  repeat constructor; vm_compute; done.
Defined.
