(* ===== verification/Governance.v ===== *)
(** Constitutional governance: crates/clawft-kernel/src/governance.rs and the
    project attribution of governance_project.rs.  Rules, requests, the
    evaluation of a request against the rules of an engine, and the
    environment-scoped evaluation. *)

From S2P Require Import Prelude Process Capability RateLimit.
Open Scope N_scope.

(** ** Rules *)

Inductive GovernanceRuleType := General | BrowserPolicy | BindingThread.
Inductive GovernanceBranch := Legislative | Executive | Judicial.
Inductive RuleSeverity := Advisory | Warning | Blocking | Critical.

#[global] Instance rule_type_eq_dec : EqDecision GovernanceRuleType.
Proof. solve_decision. Defined.
#[global] Instance branch_eq_dec : EqDecision GovernanceBranch.
Proof. solve_decision. Defined.

Record GovernanceRule := mkRule {
  rule_id : string;
  description : string;
  branch : GovernanceBranch;
  severity : RuleSeverity;
  active : bool;
  reference_url : option string;
  sop_category : option string;
  rule_type : GovernanceRuleType;
  action_selector : option string;
  tool_selector : option string;
  force_on_match : bool;
}.

Definition OVERLAY_DENY_TAG : string := "project-overlay:deny".
Definition OVERLAY_APPROVAL_TAG : string := "project-overlay:approval".
Definition BINDING_THREAD_RULE_ID : string := "soul.binding_thread_intact".
Definition BINDING_THREAD_MISMATCH_REASON : string := "binding-thread mismatch".
Definition QUOTA_KEY_CONTEXT : string := "quota_key".

(** [GovernanceRule::filter_by_category], [filter_by_type] *)
Definition filter_by_category (rules : list GovernanceRule) (category : string) :=
  filter (fun r => sop_category r = Some category) rules.

Definition filter_by_type (rules : list GovernanceRule) (ty : GovernanceRuleType) :=
  filter (fun r => rule_type r = ty) rules.

(** [selector_matches] *)
Definition selector_matches (selector candidate : string) : bool :=
  if String.eqb selector "" then true
  else match strip_suffix_char "*" selector with
       | Some prefix => starts_with prefix candidate
       | None => String.eqb selector candidate
       end.

(** [GovernanceRule::browser_policy], [binding_thread],
    [spawn_requires_approval] and the rules anchored at genesis *)
Definition browser_policy_rule (id description : string) : GovernanceRule :=
  mkRule id description Legislative Blocking true None (Some "browser_policy")
    BrowserPolicy None None false.

Definition binding_thread_rule (description : string) : GovernanceRule :=
  mkRule BINDING_THREAD_RULE_ID description Legislative Blocking true None (Some "ethics")
    BindingThread None None false.

Definition spawn_requires_approval : GovernanceRule :=
  mkRule "SPAWN-APPROVAL"
    "Agent spawn requires in-conversation user approval (Defer + grant)"
    Legislative Blocking true None (Some "multi_agent") General
    (Some "tool.agent_spawn") (Some "agent_spawn") true.

Definition browser_policy_default_rules : list GovernanceRule :=
  [browser_policy_rule "BP-001"
     "Browser nodes may only publish/subscribe to public topics (public.*)";
   browser_policy_rule "BP-002"
     "Browser nodes cannot spawn child agents without capability elevation";
   browser_policy_rule "BP-003"
     "Browser nodes cannot enable network access without capability elevation"].

Definition binding_thread_default_rules : list GovernanceRule :=
  [binding_thread_rule
     "SOUL.md must contain the compile-time binding-thread excerpt; mismatch hard-refuses agent turns"].

(** ** Effects *)

Record EffectVector := mkEffect {
  risk : f64;
  fairness : f64;
  privacy : f64;
  novelty : f64;
  security : f64;
}.

Definition effect_default : EffectVector :=
  mkEffect (F64.of_Z 0) (F64.of_Z 0) (F64.of_Z 0) (F64.of_Z 0) (F64.of_Z 0).

(** [EffectVector::magnitude] *)
Definition magnitude (e : EffectVector) : f64 :=
  F64.sqrt
    (F64.add (F64.add (F64.add (F64.add
       (F64.mul (risk e) (risk e))
       (F64.mul (fairness e) (fairness e)))
       (F64.mul (privacy e) (privacy e)))
       (F64.mul (novelty e) (novelty e)))
       (F64.mul (security e) (security e))).

(** [EffectVector::score]: the installed model's prediction, or the
    magnitude. *)
Definition score (e : EffectVector) (model : option (EffectVector -> f64)) : f64 :=
  match model with Some predict => predict e | None => magnitude e end.

(** [EffectVector::any_exceeds] *)
Definition any_exceeds (e : EffectVector) (threshold : f64) : bool :=
  F64.ltb threshold (risk e) || F64.ltb threshold (fairness e)
  || F64.ltb threshold (privacy e) || F64.ltb threshold (novelty e)
  || F64.ltb threshold (security e).

(** [EffectVector::to_context_json] *)
Definition to_context_json (e : EffectVector) : Json :=
  JObj [("risk", json_f64 (risk e)); ("fairness", json_f64 (fairness e));
        ("privacy", json_f64 (privacy e)); ("novelty", json_f64 (novelty e));
        ("security", json_f64 (security e))].

Inductive GateEffectKind :=
| AuthCredentialRegister | AuthCredentialRotate | AuthTokenIssue | AuthTokenRevoke
| ConfigSet | ConfigDelete | ConfigSecretSet | A2aRouting | CronAdd | CronRemove.

(** Two-decimal literals. *)
Definition effect_lit (r f p n s : Z) : EffectVector :=
  mkEffect (F64.lit r 2) (F64.lit f 2) (F64.lit p 2) (F64.lit n 2) (F64.lit s 2).

(** [GateEffectKind::effect_vector] *)
Definition effect_vector (k : GateEffectKind) : EffectVector :=
  match k with
  | AuthCredentialRegister => effect_lit 50 0 60 10 80
  | AuthCredentialRotate => effect_lit 55 0 50 15 85
  | AuthTokenIssue => effect_lit 40 0 40 5 70
  | AuthTokenRevoke => effect_lit 45 10 20 5 75
  | ConfigSet => effect_lit 35 0 20 15 40
  | ConfigDelete => effect_lit 40 0 15 10 45
  | ConfigSecretSet => effect_lit 55 0 85 10 90
  | A2aRouting => effect_lit 25 0 10 5 30
  | CronAdd => effect_lit 20 0 0 10 10
  | CronRemove => effect_lit 20 0 0 5 10
  end%Z.

(** [GateEffectKind::action_prefix] *)
Definition action_prefix (k : GateEffectKind) : string :=
  match k with
  | AuthCredentialRegister | AuthCredentialRotate | AuthTokenIssue | AuthTokenRevoke => "auth."
  | ConfigSet | ConfigDelete | ConfigSecretSet => "config."
  | A2aRouting => "ipc."
  | CronAdd | CronRemove => "cron."
  end.

(** [with_effect_context] *)
Definition with_effect_context (base : Json) (e : EffectVector) : Json :=
  json_set "effect" (to_context_json e) base.

(** ** Principals and requests *)

Inductive GovernanceDecision :=
| GPermit
| PermitWithWarning (msg : string)
| EscalateToHuman (msg : string)
| GDeny (reason : string).

(** [Display] of a decision *)
Definition decision_to_string (d : GovernanceDecision) : string :=
  match d with
  | GPermit => "permit"
  | PermitWithWarning msg => "permit (warning: " +:+ msg +:+ ")"
  | EscalateToHuman msg => "escalate (" +:+ msg +:+ ")"
  | GDeny reason => "deny: " +:+ reason
  end.

Record GatePrincipal := mkPrincipal {
  gp_agent_id : string;
  gp_user_id : option string;
  gp_parent_agent_id : option string;
  gp_conv_id : option string;
  gp_project_id : option string;
  gp_instance_id : option string;
}.

Inductive AttestSource := BoundKernel | TokenScope | UserForward.
#[global] Instance attest_source_eq_dec : EqDecision AttestSource.
Proof. solve_decision. Defined.

Record ProjectAttestation := mkAttestation {
  att_project_id : string;
  att_source : AttestSource;
}.

Module Principal.

Definition agent (id : string) : GatePrincipal := mkPrincipal id None None None None None.

Definition with_project (p : GatePrincipal) (a : ProjectAttestation) : GatePrincipal :=
  mkPrincipal (gp_agent_id p) (gp_user_id p) (gp_parent_agent_id p) (gp_conv_id p)
    (Some (att_project_id a)) (gp_instance_id p).

Definition without_attribution (p : GatePrincipal) : GatePrincipal :=
  mkPrincipal (gp_agent_id p) (gp_user_id p) (gp_parent_agent_id p) (gp_conv_id p) None None.

Definition with_instance (p : GatePrincipal) (i : string) : GatePrincipal :=
  mkPrincipal (gp_agent_id p) (gp_user_id p) (gp_parent_agent_id p) (gp_conv_id p)
    (gp_project_id p) (Some i).

Definition with_user (p : GatePrincipal) (u : string) : GatePrincipal :=
  mkPrincipal (gp_agent_id p) (Some u) (gp_parent_agent_id p) (gp_conv_id p)
    (gp_project_id p) (gp_instance_id p).

Definition with_parent (p : GatePrincipal) (a : string) : GatePrincipal :=
  mkPrincipal (gp_agent_id p) (gp_user_id p) (Some a) (gp_conv_id p)
    (gp_project_id p) (gp_instance_id p).

Definition with_conv (p : GatePrincipal) (c : string) : GatePrincipal :=
  mkPrincipal (gp_agent_id p) (gp_user_id p) (gp_parent_agent_id p) (Some c)
    (gp_project_id p) (gp_instance_id p).

(** [GatePrincipal::eval_key] *)
Definition eval_key (p : GatePrincipal) : string :=
  if negb (String.eqb (gp_agent_id p) "") then gp_agent_id p
  else default "" (gp_user_id p).

End Principal.

Record GovernanceRequest := mkRequest {
  rq_agent_id : string;
  rq_action : string;
  rq_effect : EffectVector;
  rq_context : gmap string string;
  rq_node_id : option string;
  rq_principal : option GatePrincipal;
}.

(** The kernel's attested project and node id, set once at boot. *)
Definition Instance_ : Type := option (ProjectAttestation * string).

(** [set_instance_project] on the process-wide cell *)
Definition set_instance_project (cell : Instance_) (att : ProjectAttestation) (id : string)
  : Instance_ * bool :=
  if bool_decide (att_source att = BoundKernel) then
    match cell with None => (Some (att, id), true) | Some _ => (cell, false) end
  else (cell, false).

Definition RESERVED_CONTEXT_KEYS : list string := ["project_id"; "instance_id"].

Module Request.

(** [GovernanceRequest::base_principal] *)
Definition base_principal (r : GovernanceRequest) : GatePrincipal :=
  match rq_principal r with
  | Some p =>
      if String.eqb (gp_agent_id p) "" then
        mkPrincipal (rq_agent_id r) (gp_user_id p) (gp_parent_agent_id p) (gp_conv_id p)
          (gp_project_id p) (gp_instance_id p)
      else p
  | None => Principal.agent (rq_agent_id r)
  end.

(** [GovernanceRequest::attributed_with] *)
Definition attributed_with (r : GovernanceRequest) (att : option ProjectAttestation)
  (instance : option string) : GovernanceRequest :=
  let ctx := foldl (fun m k => delete k m) (rq_context r) RESERVED_CONTEXT_KEYS in
  let p := Principal.without_attribution (base_principal r) in
  let '(p, ctx) := match att with
                   | Some a => (Principal.with_project p a,
                                <["project_id" := att_project_id a]> ctx)
                   | None => (p, ctx)
                   end in
  let '(p, ctx) := match instance with
                   | Some i => (Principal.with_instance p i, <["instance_id" := i]> ctx)
                   | None => (p, ctx)
                   end in
  mkRequest (rq_agent_id r) (rq_action r) (rq_effect r) ctx (rq_node_id r) (Some p).

(** [GovernanceRequest::attributed] *)
Definition attributed (inst : Instance_) (r : GovernanceRequest) : GovernanceRequest :=
  attributed_with r (fst <$> inst) (snd <$> inst).

(** [GovernanceRequest::new] *)
Definition new (inst : Instance_) (agent_id action : string) : GovernanceRequest :=
  attributed inst
    (mkRequest agent_id action effect_default ∅ None (Some (Principal.agent agent_id))).

Definition with_node_id (r : GovernanceRequest) (n : string) : GovernanceRequest :=
  mkRequest (rq_agent_id r) (rq_action r) (rq_effect r) (rq_context r) (Some n) (rq_principal r).

Definition with_effect (r : GovernanceRequest) (e : EffectVector) : GovernanceRequest :=
  mkRequest (rq_agent_id r) (rq_action r) e (rq_context r) (rq_node_id r) (rq_principal r).

Definition with_principal (r : GovernanceRequest) (p : GatePrincipal) : GovernanceRequest :=
  let id := if String.eqb (rq_agent_id r) "" && negb (String.eqb (gp_agent_id p) "")
            then gp_agent_id p else rq_agent_id r in
  mkRequest id (rq_action r) (rq_effect r) (rq_context r) (rq_node_id r) (Some p).

Definition with_tool_context (r : GovernanceRequest) (tool gate_action : string)
  (e : EffectVector) (pid : N) : GovernanceRequest :=
  mkRequest (rq_agent_id r) (rq_action r) e
    (<["pid" := pretty pid]> (<["gate_action" := gate_action]> (<["tool" := tool]> (rq_context r))))
    (rq_node_id r) (rq_principal r).

Definition with_context_entry (r : GovernanceRequest) (key value : string) : GovernanceRequest :=
  if existsb (String.eqb key) RESERVED_CONTEXT_KEYS then r
  else mkRequest (rq_agent_id r) (rq_action r) (rq_effect r) (<[key := value]> (rq_context r))
         (rq_node_id r) (rq_principal r).

(** [GovernanceRequest::resolved_principal] *)
Definition resolved_principal (inst : Instance_) (r : GovernanceRequest) : GatePrincipal :=
  let p := base_principal r in
  match inst with
  | Some (att, i) => Principal.with_instance (Principal.with_project p att) i
  | None => p
  end.

Definition ctx_or_empty (r : GovernanceRequest) (key : string) : string :=
  default "" (rq_context r !! key).

End Request.

(** ** Evaluation *)

(** [GovernanceRule::selectors_match] *)
Definition selectors_match (rule : GovernanceRule) (r : GovernanceRequest) : bool :=
  match action_selector rule with
  | Some sel => selector_matches sel (rq_action r)
  | None => true
  end
  && match tool_selector rule with
     | Some sel =>
         let tool := default ""
           match rq_context r !! "tool" with
           | Some t => Some t
           | None => rq_context r !! "gate_action"
           end in
         selector_matches sel tool
     | None => true
     end.

(** [apply_binding_thread_rule] *)
Definition apply_binding_thread_rule (rule : GovernanceRule) (r : GovernanceRequest)
  : option string :=
  if negb (String.eqb (rq_action r) BINDING_THREAD_RULE_ID)
     && negb (String.eqb (rq_action r) (rule_id rule)) then None
  else
    let status := Request.ctx_or_empty r "binding_thread_status" in
    let mismatch :=
      String.eqb status "mismatch"
      || F64.leb (F64.lit 99 2) (security (rq_effect r))
      || (String.eqb status "" && F64.ltb (F64.lit 8 1) (magnitude (rq_effect r))) in
    if mismatch then Some BINDING_THREAD_MISMATCH_REASON else None.

(** [apply_browser_policy_rule] *)
Definition spawn_rule (rule : GovernanceRule) : bool :=
  String.eqb (rule_id rule) "BP-002" || contains "spawn" (to_lowercase (description rule)).
Definition network_rule (rule : GovernanceRule) : bool :=
  String.eqb (rule_id rule) "BP-003" || contains "network" (to_lowercase (description rule)).

Definition spawn_reason (rule : GovernanceRule) : string :=
  "browser_policy '" +:+ rule_id rule +:+ "': browser nodes cannot spawn without elevation".
Definition network_reason (rule : GovernanceRule) : string :=
  "browser_policy '" +:+ rule_id rule
  +:+ "': browser nodes cannot enable network without elevation".

Definition apply_browser_policy_rule (rule : GovernanceRule) (r : GovernanceRequest)
  : option string :=
  if negb (String.eqb (Request.ctx_or_empty r "platform") "browser") then None
  else
    let action := rq_action r in
    if starts_with "ipc.topic" action || String.eqb action "ipc.subscribe"
       || String.eqb action "ipc.publish" || String.eqb action "topic.subscribe"
       || String.eqb action "topic.publish" then
      let topic := Request.ctx_or_empty r "topic" in
      if negb (is_public_topic topic) then
        Some ("browser_policy '" +:+ rule_id rule
              +:+ "': browser nodes may only access public topics (got '" +:+ topic +:+ "')")
      else None
    else if (String.eqb action "agent.spawn" || String.eqb action "tool.agent_spawn"
             || starts_with "agent.spawn" action) && spawn_rule rule then
      Some (spawn_reason rule)
    else if (String.eqb action "network.enable" || String.eqb action "capability.network")
            && network_rule rule then
      Some (network_reason rule)
    else if String.eqb action "capability.elevate" then
      if bool_decide (rq_context r !! "can_spawn" = Some "true") && spawn_rule rule then
        Some (spawn_reason rule)
      else if bool_decide (rq_context r !! "can_network" = Some "true") && network_rule rule then
        Some (network_reason rule)
      else None
    else None.

Record GovernanceEngine := mkEngine {
  rules : list GovernanceRule;
  risk_threshold : f64;
  human_approval_required : bool;
  eval_limiter : KeyedRateLimiter;
  scorer : option (EffectVector -> f64);
}.

Record GovernanceResult := mkResult {
  gr_decision : GovernanceDecision;
  evaluated_rules : list string;
  gr_effect : EffectVector;
  threshold_exceeded : bool;
  gr_principal : option GatePrincipal;
}.

(** The mutable locals of the rule loop. *)
Record EvalState := mkEval {
  ev_rules : list string;
  has_warning : bool;
  has_blocking : bool;
  hard_deny : bool;
  needs_approval : bool;
  other_blocking : bool;
  blocking_reason : string;
  binding_reason_set : bool;
}.

Definition eval_init : EvalState := mkEval [] false false false false false "" false.

(** [note_blocking_reason] *)
Definition note_blocking_reason (slot reason : string) : string :=
  if String.eqb slot "" then reason else slot.

Definition is_blocking (s : RuleSeverity) : bool :=
  match s with Blocking | Critical => true | _ => false end.

Definition tagged (tag : string) (rule : GovernanceRule) : bool :=
  bool_decide (sop_category rule = Some tag).

Module Engine.

Definition new (threshold : f64) (human : bool) : GovernanceEngine :=
  mkEngine [] threshold human (RL.new DEFAULT_GOVERNANCE_EVAL_RATE) None.

(** [GovernanceEngine::open] *)
Definition open : GovernanceEngine := new (F64.of_Z 1) false.

Definition add_rule (e : GovernanceEngine) (r : GovernanceRule) : GovernanceEngine :=
  mkEngine (rules e ++ [r]) (risk_threshold e) (human_approval_required e) (eval_limiter e) (scorer e).

Definition set_eval_rate_limit (e : GovernanceEngine) (c : RateLimitConfig) : GovernanceEngine :=
  mkEngine (rules e) (risk_threshold e) (human_approval_required e)
    (RL.set_config (eval_limiter e) c) (scorer e).

Definition with_scorer (e : GovernanceEngine) (s : EffectVector -> f64) : GovernanceEngine :=
  mkEngine (rules e) (risk_threshold e) (human_approval_required e) (eval_limiter e) (Some s).

Definition inherit_config (e old : GovernanceEngine) : GovernanceEngine :=
  let e := set_eval_rate_limit e (rl_config (eval_limiter old)) in
  mkEngine (rules e) (risk_threshold e) (human_approval_required e) (eval_limiter e) (scorer old).

Definition active_rules (e : GovernanceEngine) : list GovernanceRule :=
  filter (fun r => active r = true) (rules e).

Definition rules_by_branch (e : GovernanceEngine) (b : GovernanceBranch) : list GovernanceRule :=
  filter (fun r => active r = true /\ branch r = b) (rules e).

(** [GovernanceEngine::eval_principal_key], [eval_quota_key] *)
Definition eval_principal_key (r : GovernanceRequest) : string :=
  if negb (String.eqb (rq_agent_id r) "") then rq_agent_id r
  else
    let fallback := default "" (rq_node_id r) in
    match rq_principal r with
    | Some p =>
        let k := Principal.eval_key p in
        if negb (String.eqb k "") then k else fallback
    | None => fallback
    end.

Definition eval_quota_key (r : GovernanceRequest) : string :=
  let principal := eval_principal_key r in
  if String.eqb principal "0" then
    match rq_context r !! QUOTA_KEY_CONTEXT with
    | Some k => if starts_with "0:" k then k else principal
    | None => principal
    end
  else principal.

(** The three branches of the loop body for a selected rule. *)
Definition eval_browser (rule : GovernanceRule) (r : GovernanceRequest) (s : EvalState) : EvalState :=
  match apply_browser_policy_rule rule r with
  | Some reason =>
      if is_blocking (severity rule) then
        mkEval (ev_rules s) (has_warning s) true
          (hard_deny s || tagged OVERLAY_DENY_TAG rule) (needs_approval s) true
          (note_blocking_reason (blocking_reason s) reason) (binding_reason_set s)
      else
        mkEval (ev_rules s) true (has_blocking s) (hard_deny s) (needs_approval s)
          (other_blocking s) (blocking_reason s) (binding_reason_set s)
  | None => s
  end.

Definition eval_binding (rule : GovernanceRule) (r : GovernanceRequest) (s : EvalState) : EvalState :=
  match apply_binding_thread_rule rule r with
  | Some reason =>
      match severity rule with
      | Blocking | Critical =>
          mkEval (ev_rules s) (has_warning s) true
            (hard_deny s || tagged OVERLAY_DENY_TAG rule) (needs_approval s) true
            (if binding_reason_set s then blocking_reason s else reason) true
      | Warning =>
          mkEval (ev_rules s) true (has_blocking s) (hard_deny s) (needs_approval s)
            (other_blocking s) (blocking_reason s) (binding_reason_set s)
      | Advisory => s
      end
  | None => s
  end.

Definition general_reason (rule : GovernanceRule) (r : GovernanceRequest)
  (mag threshold : f64) (exceeded : bool) : string :=
  if force_on_match rule && negb exceeded then
    "rule '" +:+ rule_id rule +:+ "': selector force-match on action '" +:+ rq_action r
    +:+ "' / tool"
  else
    "rule '" +:+ rule_id rule +:+ "': effect magnitude " +:+ F64.fmt2 mag +:+ " > threshold "
    +:+ F64.fmt2 threshold.

Definition eval_general (rule : GovernanceRule) (r : GovernanceRequest)
  (mag threshold : f64) (exceeded : bool) (s : EvalState) : EvalState :=
  let applies := exceeded || force_on_match rule in
  match severity rule with
  | Blocking | Critical =>
      if applies then
        mkEval (ev_rules s) (has_warning s) true
          (hard_deny s || tagged OVERLAY_DENY_TAG rule)
          (needs_approval s || tagged OVERLAY_APPROVAL_TAG rule)
          (other_blocking s || negb (tagged OVERLAY_DENY_TAG rule || tagged OVERLAY_APPROVAL_TAG rule))
          (note_blocking_reason (blocking_reason s) (general_reason rule r mag threshold exceeded))
          (binding_reason_set s)
      else s
  | Warning =>
      if applies then
        mkEval (ev_rules s) true (has_blocking s) (hard_deny s) (needs_approval s)
          (other_blocking s) (blocking_reason s) (binding_reason_set s)
      else s
  | Advisory => s
  end.

(** One iteration of the loop over the active rules. *)
Definition eval_rule (r : GovernanceRequest) (mag threshold : f64) (exceeded : bool)
  (s : EvalState) (rule : GovernanceRule) : EvalState :=
  if negb (selectors_match rule r) then s
  else
    let s := mkEval (ev_rules s ++ [rule_id rule]) (has_warning s) (has_blocking s) (hard_deny s)
               (needs_approval s) (other_blocking s) (blocking_reason s) (binding_reason_set s) in
    match rule_type rule with
    | BrowserPolicy => eval_browser rule r s
    | BindingThread => eval_binding rule r s
    | General => eval_general rule r mag threshold exceeded s
    end.

(** The decision from the flags the loop leaves. *)
Definition decide_eval (e : GovernanceEngine) (mag : f64) (exceeded : bool) (s : EvalState)
  : GovernanceDecision :=
  if has_blocking s then
    if negb (hard_deny s)
       && (human_approval_required e || (needs_approval s && negb (other_blocking s)))
    then EscalateToHuman (blocking_reason s)
    else GDeny (blocking_reason s)
  else if exceeded && has_warning s then
    PermitWithWarning ("effect magnitude " +:+ F64.fmt2 mag +:+ " approaches threshold "
                       +:+ F64.fmt2 (risk_threshold e))
  else GPermit.

(** [GovernanceEngine::evaluate]; the limiter reads the clock once. *)
Definition evaluate (inst : Instance_) (e : GovernanceEngine) (now : N) (r : GovernanceRequest)
  : GovernanceEngine * GovernanceResult :=
  let attributed := Request.resolved_principal inst r in
  let '(lim, allowed) := RL.check (eval_limiter e) now (eval_quota_key r) in
  let e := mkEngine (rules e) (risk_threshold e) (human_approval_required e) lim (scorer e) in
  if negb allowed then
    (e, mkResult (GDeny ("rate limited: evaluation quota exceeded for principal '"
                         +:+ eval_principal_key r +:+ "'"))
          [] (rq_effect r) false (Some attributed))
  else
    let mag := score (rq_effect r) (scorer e) in
    let exceeded := F64.ltb (risk_threshold e) mag in
    let s := foldl (eval_rule r mag (risk_threshold e) exceeded) eval_init (active_rules e) in
    (e, mkResult (decide_eval e mag exceeded s) (ev_rules s) (rq_effect r) exceeded
          (Some attributed)).

End Engine.

(** ** Environments *)

Inductive EnvironmentClass :=
| Development
| Staging
| Production
| Custom (name : string) (threshold : f64).

(** [EnvironmentClass::risk_threshold] and its [Display] *)
Definition class_threshold (c : EnvironmentClass) : f64 :=
  match c with
  | Development => F64.lit 9 1
  | Staging => F64.lit 6 1
  | Production => F64.lit 3 1
  | Custom _ t => t
  end.

Definition class_to_string (c : EnvironmentClass) : string :=
  match c with
  | Development => "development"
  | Staging => "staging"
  | Production => "production"
  | Custom name _ => "custom(" +:+ name +:+ ")"
  end.

(** The class of an environment and the threshold of its governance scope:
    what the evaluation reads of it. *)
Record Environment := mkEnv {
  env_class : EnvironmentClass;
  env_risk_threshold : f64;
}.

Definition adjusted_threshold (env : Environment) : f64 :=
  match env_class env with
  | Development | Staging => env_risk_threshold env
  | Production => F64.mul (env_risk_threshold env) (F64.lit 5 1)
  | Custom _ t => t
  end.

(** [GovernanceEngine::evaluate_in_environment] *)
Definition evaluate_in_environment (inst : Instance_) (e : GovernanceEngine) (now : N)
  (r : GovernanceRequest) (env : Environment) : GovernanceEngine * GovernanceResult :=
  let adjusted := adjusted_threshold env in
  let '(e, result) := Engine.evaluate inst e now r in
  let mag := score (rq_effect r) (scorer e) in
  if F64.ltb adjusted mag then
    (e, mkResult (GDeny ("effect magnitude " +:+ F64.fmt2 mag +:+ " exceeds "
                         +:+ class_to_string (env_class env) +:+ " environment threshold "
                         +:+ F64.fmt2 adjusted))
          (evaluated_rules result) (gr_effect result) true (gr_principal result))
  else (e, result).

(** ** What the rule loop computes *)

(** How strict a decision is. *)
Definition strictness (d : GovernanceDecision) : nat :=
  match d with
  | GPermit => 0
  | PermitWithWarning _ => 1
  | EscalateToHuman _ => 2
  | GDeny _ => 3
  end.

Section Loop.
Context (r : GovernanceRequest) (mag threshold : f64) (exceeded : bool).

(** What a rule contributes to the verdict, on its own. *)
Definition rule_fires (rule : GovernanceRule) : bool :=
  selectors_match rule r &&
  match rule_type rule with
  | BrowserPolicy => bool_decide (is_Some (apply_browser_policy_rule rule r))
  | BindingThread => bool_decide (is_Some (apply_binding_thread_rule rule r))
  | General => exceeded || force_on_match rule
  end.

Definition rule_blocks (rule : GovernanceRule) : bool :=
  rule_fires rule && is_blocking (severity rule).

Definition rule_warns (rule : GovernanceRule) : bool :=
  rule_fires rule &&
  match rule_type rule, severity rule with
  | _, (Blocking | Critical) => false
  | BrowserPolicy, _ => true
  | _, Warning => true
  | _, Advisory => false
  end.

Definition rule_hard_denies (rule : GovernanceRule) : bool :=
  rule_blocks rule && tagged OVERLAY_DENY_TAG rule.

Definition rule_wants_approval (rule : GovernanceRule) : bool :=
  rule_blocks rule && bool_decide (rule_type rule = General) && tagged OVERLAY_APPROVAL_TAG rule.

Definition rule_blocks_otherwise (rule : GovernanceRule) : bool :=
  rule_blocks rule &&
  negb (bool_decide (rule_type rule = General)
        && (tagged OVERLAY_DENY_TAG rule || tagged OVERLAY_APPROVAL_TAG rule)).

Abbreviation loop := (foldl (Engine.eval_rule r mag threshold exceeded)).

Lemma eval_rule_flags s rule :
  let s' := Engine.eval_rule r mag threshold exceeded s rule in
  ev_rules s' = ev_rules s ++ (if selectors_match rule r then [rule_id rule] else []) /\
  has_warning s' = has_warning s || rule_warns rule /\
  has_blocking s' = has_blocking s || rule_blocks rule /\
  hard_deny s' = hard_deny s || rule_hard_denies rule /\
  needs_approval s' = needs_approval s || rule_wants_approval rule /\
  other_blocking s' = other_blocking s || rule_blocks_otherwise rule.
Proof.
  unfold Engine.eval_rule, rule_warns, rule_hard_denies, rule_wants_approval,
    rule_blocks_otherwise, rule_blocks, rule_fires.
  destruct (selectors_match rule r); cbn;
    [|by rewrite !app_nil_r, !orb_false_r].
  destruct (rule_type rule); cbn; unfold Engine.eval_general, Engine.eval_browser, Engine.eval_binding.
  - destruct (severity rule), (exceeded || force_on_match rule); cbn;
      rewrite ?orb_false_r, ?orb_true_r; done.
  - destruct (apply_browser_policy_rule rule r), (severity rule); cbn;
      rewrite ?andb_false_r, ?orb_false_r, ?orb_true_r; done.
  - destruct (apply_binding_thread_rule rule r), (severity rule); cbn;
      rewrite ?andb_false_r, ?orb_false_r, ?orb_true_r; done.
Qed.

Lemma loop_flags l : forall s,
  ev_rules (loop s l) = ev_rules s ++ map rule_id (filter (fun x => selectors_match x r = true) l) /\
  has_warning (loop s l) = has_warning s || existsb rule_warns l /\
  has_blocking (loop s l) = has_blocking s || existsb rule_blocks l /\
  hard_deny (loop s l) = hard_deny s || existsb rule_hard_denies l /\
  needs_approval (loop s l) = needs_approval s || existsb rule_wants_approval l /\
  other_blocking (loop s l) = other_blocking s || existsb rule_blocks_otherwise l.
Proof.
  induction l as [|rule l IH]; intros s; cbn [foldl existsb];
    [by rewrite app_nil_r, !orb_false_r|].
  destruct (eval_rule_flags s rule) as (H1 & H2 & H3 & H4 & H5 & H6).
  destruct (IH (Engine.eval_rule r mag threshold exceeded s rule)) as (-> & -> & -> & -> & -> & ->).
  rewrite H1, H2, H3, H4, H5, H6, !orb_assoc. split; [|done].
  rewrite filter_cons, <- app_assoc. f_equal.
  destruct (selectors_match rule r); done.
Qed.

(** The strictness of the verdict, from the rules alone. *)
Definition verdict (human : bool) (l : list GovernanceRule) : nat :=
  if existsb rule_blocks l then
    if negb (existsb rule_hard_denies l)
       && (human || (existsb rule_wants_approval l && negb (existsb rule_blocks_otherwise l)))
    then 2 else 3
  else if exceeded && existsb rule_warns l then 1 else 0.

Lemma decide_verdict e l :
  strictness (Engine.decide_eval e mag exceeded (loop eval_init l))
  = verdict (human_approval_required e) l.
Proof.
  unfold Engine.decide_eval, verdict.
  destruct (loop_flags l eval_init) as (_ & -> & -> & -> & -> & ->). cbn.
  repeat case_match; done.
Qed.

Lemma existsb_submseteq (f : GovernanceRule -> bool) l k :
  l ⊆+ k -> existsb f l = true -> existsb f k = true.
Proof.
  rewrite !existsb_exists. intros Hsub (x & Hx & Hf). exists x. split; [|done].
  apply list_elem_of_In. eapply elem_of_submseteq; [|done]. by apply list_elem_of_In.
Qed.

(** A blocking rule is a hard denial, an approval or another block. *)
Lemma blocks_cases l :
  existsb rule_blocks l = true ->
  existsb rule_hard_denies l = true \/ existsb rule_wants_approval l = true \/
  existsb rule_blocks_otherwise l = true.
Proof.
  rewrite !existsb_exists. intros (x & Hx & Hb).
  unfold rule_hard_denies, rule_wants_approval, rule_blocks_otherwise.
  destruct (tagged OVERLAY_DENY_TAG x) eqn:Hd; [left; exists x; by rewrite Hb, Hd|].
  destruct (bool_decide (rule_type x = General) && tagged OVERLAY_APPROVAL_TAG x) eqn:Ha.
  - right; left. exists x. by rewrite Hb, <- andb_assoc, Ha.
  - right; right. exists x. rewrite Hb, Hd. cbn. by rewrite Ha.
Qed.

Lemma verdict_mono human l k : l ⊆+ k -> (verdict human l <= verdict human k)%nat.
Proof.
  intros Hsub. pose proof (fun f => existsb_submseteq f l k Hsub) as Hmono.
  pose proof (Hmono rule_blocks) as Hb. pose proof (Hmono rule_hard_denies) as Hh.
  pose proof (Hmono rule_blocks_otherwise) as Ho. pose proof (Hmono rule_warns) as Hw.
  pose proof (Hmono rule_wants_approval) as Ha.
  pose proof (blocks_cases l) as Hc. unfold verdict.
  destruct (existsb rule_blocks l); cbn.
  - rewrite Hb by done. destruct (existsb rule_hard_denies l); cbn; [by rewrite Hh|].
    destruct human; cbn; [destruct (existsb rule_hard_denies k); cbn; lia|].
    destruct (existsb rule_wants_approval l), (existsb rule_blocks_otherwise l); cbn in *;
      try rewrite Ho by done; try rewrite andb_false_r;
      repeat case_match; try lia; destruct Hc as [?|[?|?]]; done.
  - repeat case_match; try lia; simplify_eq/=;
      destruct exceeded; cbn in *; try done; rewrite Hw in *; done.
Qed.

End Loop.

(** ** Properties of the engine *)

(** A browser agent asking to spawn, and two rule sets. *)
Module GovExample.

Definition request : GovernanceRequest :=
  mkRequest "agent-1" "tool.agent_spawn" effect_default
    (<["tool" := "agent_spawn"]> (<["platform" := "browser"]> ∅)) None None.

Definition warn_rule : GovernanceRule :=
  mkRule "BP-002" "no spawn" Legislative Warning true None None BrowserPolicy None None false.

Definition approval_rule : GovernanceRule :=
  mkRule "OV-1" "ask" Legislative Blocking true None (Some OVERLAY_APPROVAL_TAG) General
    (Some "tool.*") None true.

Definition engine : GovernanceEngine :=
  Engine.add_rule (Engine.new (F64.lit 7 1) false) spawn_requires_approval.

Definition soul_request : GovernanceRequest :=
  mkRequest "agent-1" BINDING_THREAD_RULE_ID effect_default
    (<["binding_thread_status" := "mismatch"]> ∅) None None.

Definition soul_engine : GovernanceEngine :=
  Engine.add_rule (Engine.add_rule (Engine.new (F64.lit 7 1) false) approval_rule)
    (binding_thread_rule "soul").

End GovExample.

Definition with_rules (e : GovernanceEngine) (rs : list GovernanceRule) : GovernanceEngine :=
  mkEngine rs (risk_threshold e) (human_approval_required e) (eval_limiter e) (scorer e).

(** The decision and the evaluated rules of one evaluation. *)
Lemma evaluate_cases inst e now r :
  let res := (Engine.evaluate inst e now r).2 in
  let mag := score (rq_effect r) (scorer e) in
  let exceeded := F64.ltb (risk_threshold e) mag in
  if (RL.check (eval_limiter e) now (Engine.eval_quota_key r)).2 then
    strictness (gr_decision res)
      = verdict r exceeded (human_approval_required e) (Engine.active_rules e) /\
    evaluated_rules res
      = map rule_id (filter (fun x => selectors_match x r = true) (Engine.active_rules e))
  else strictness (gr_decision res) = 3%nat /\ evaluated_rules res = [].
Proof.
  cbn zeta. unfold Engine.evaluate.
  destruct (RL.check (eval_limiter e) now (Engine.eval_quota_key r)) as [lim [|]]; cbn [snd negb].
  - cbn [gr_decision evaluated_rules scorer risk_threshold].
    rewrite decide_verdict. split; [done|].
    destruct (loop_flags r (score (rq_effect r) (scorer e)) (risk_threshold e)
      (F64.ltb (risk_threshold e) (score (rq_effect r) (scorer e)))
      (Engine.active_rules e) eval_init) as (H & _). exact H.
  - done.
Qed.

(** C8: Adding rules only ever tightens a verdict.  For the same request at
    the same instant, an engine whose rules include those of another (in any
    order, with any further rules) never gives a less strict decision, in the
    order permit, permit with warning, escalate, deny; in particular an
    approval rule never softens a denial into an escalation. *)
Theorem rules_only_tighten inst e rs now r :
  rules e ⊆+ rs ->
  (strictness (gr_decision (Engine.evaluate inst e now r).2)
   <= strictness (gr_decision (Engine.evaluate inst (with_rules e rs) now r).2))%nat.
Proof.
  intros Hsub. pose proof (evaluate_cases inst e now r) as H1.
  pose proof (evaluate_cases inst (with_rules e rs) now r) as H2. cbn in H1, H2.
  destruct (RL.check (eval_limiter e) now (Engine.eval_quota_key r)) as [lim [|]]; cbn in H1, H2.
  - destruct H1 as [-> _], H2 as [-> _]. apply verdict_mono.
    unfold Engine.active_rules, with_rules. cbn. by apply submseteq_filter.
  - destruct H1 as [-> _], H2 as [-> _]. done.
Qed.

Lemma rules_only_tighten_witness :
  strictness (gr_decision (Engine.evaluate None GovExample.engine 5 GovExample.request).2) = 3%nat /\
  (3 <= strictness (gr_decision (Engine.evaluate None
     (with_rules GovExample.engine [GovExample.approval_rule; spawn_requires_approval])
     5 GovExample.request).2))%nat.
Proof.
  split; [vm_compute; reflexivity|].
  apply (rules_only_tighten None GovExample.engine
    [GovExample.approval_rule; spawn_requires_approval] 5 GovExample.request).
  cbn. apply submseteq_cons. reflexivity.
Defined.

(** The order of the rules does not change the verdict, nor which rules
    are listed as evaluated. *)
Theorem rule_order_irrelevant inst e rs now r :
  rules e ≡ₚ rs ->
  let a := (Engine.evaluate inst e now r).2 in
  let b := (Engine.evaluate inst (with_rules e rs) now r).2 in
  strictness (gr_decision a) = strictness (gr_decision b) /\
  evaluated_rules a ≡ₚ evaluated_rules b /\
  threshold_exceeded a = threshold_exceeded b.
Proof.
  intros Hp. cbn zeta. pose proof (evaluate_cases inst e now r) as H1.
  pose proof (evaluate_cases inst (with_rules e rs) now r) as H2. cbn in H1, H2.
  split; [|split].
  - destruct (RL.check (eval_limiter e) now (Engine.eval_quota_key r)) as [lim [|]]; cbn in H1, H2;
      destruct H1 as [-> _], H2 as [-> _]; [|done].
    assert (forall l k, l ≡ₚ k -> Engine.active_rules (with_rules e l) ⊆+ Engine.active_rules (with_rules e k))
      as Hs.
    { intros l k Hlk. unfold Engine.active_rules. cbn. apply submseteq_filter.
      by rewrite Hlk. }
    apply Nat.le_antisymm; apply verdict_mono; [by apply (Hs (rules e) rs)|].
    apply (Hs rs (rules e)). by rewrite Hp.
  - destruct (RL.check (eval_limiter e) now (Engine.eval_quota_key r)) as [lim [|]]; cbn in H1, H2;
      destruct H1 as [_ ->], H2 as [_ ->]; [|done].
    apply Permutation_map. unfold Engine.active_rules. cbn. by rewrite Hp.
  - unfold Engine.evaluate. cbn.
    destruct (RL.check (eval_limiter e) now (Engine.eval_quota_key r)) as [lim [|]]; done.
Qed.

Lemma rule_order_irrelevant_witness :
  let e := with_rules GovExample.engine [GovExample.warn_rule; spawn_requires_approval] in
  let e' := with_rules e [spawn_requires_approval; GovExample.warn_rule] in
  strictness (gr_decision (Engine.evaluate None e 5 GovExample.request).2)
  = strictness (gr_decision (Engine.evaluate None e' 5 GovExample.request).2).
Proof.
  cbn zeta. refine (proj1 (rule_order_irrelevant None
    (with_rules GovExample.engine [GovExample.warn_rule; spawn_requires_approval])
    [spawn_requires_approval; GovExample.warn_rule] 5 GovExample.request _)).
  cbn. apply Permutation_swap.
Defined.

(** The text of a block. *)
Section Reason.
Context (r : GovernanceRequest) (mag threshold : f64) (exceeded : bool).
Abbreviation loop := (foldl (Engine.eval_rule r mag threshold exceeded)).

Definition reason_inv (s : EvalState) : Prop :=
  binding_reason_set s = true ->
  blocking_reason s = BINDING_THREAD_MISMATCH_REASON.

Definition binding_fires (rule : GovernanceRule) : bool :=
  bool_decide (rule_type rule = BindingThread) && rule_blocks r exceeded rule.

Lemma binding_reason rule reason :
  apply_binding_thread_rule rule r = Some reason -> reason = BINDING_THREAD_MISMATCH_REASON.
Proof. unfold apply_binding_thread_rule. repeat case_match; congruence. Qed.

Lemma eval_rule_reason s rule :
  reason_inv s ->
  let s' := Engine.eval_rule r mag threshold exceeded s rule in
  reason_inv s' /\ binding_reason_set s' = binding_reason_set s || binding_fires rule.
Proof.
  intros Hinv. unfold Engine.eval_rule, binding_fires, rule_blocks, rule_fires, reason_inv in *.
  destruct (selectors_match rule r); cbn; [|by rewrite andb_false_r, orb_false_r].
  destruct (rule_type rule); cbn; unfold Engine.eval_general, Engine.eval_browser, Engine.eval_binding.
  - destruct (severity rule), (exceeded || force_on_match rule); cbn; rewrite ?orb_false_r;
      split; try done; intros Hb; by rewrite (Hinv Hb).
  - destruct (apply_browser_policy_rule rule r), (severity rule); cbn; rewrite ?orb_false_r;
      split; try done; intros Hb; by rewrite (Hinv Hb).
  - destruct (apply_binding_thread_rule rule r) eqn:Ha;
      [apply binding_reason in Ha as ->|]; destruct (severity rule); cbn;
      rewrite ?orb_false_r, ?orb_true_r; split; try done;
      destruct (binding_reason_set s); auto.
Qed.

Lemma loop_reason l : forall s,
  reason_inv s ->
  reason_inv (loop s l) /\
  binding_reason_set (loop s l) = binding_reason_set s || existsb binding_fires l.
Proof.
  induction l as [|rule l IH]; intros s Hinv; cbn [foldl existsb]; [by rewrite orb_false_r|].
  destruct (eval_rule_reason s rule Hinv) as [Hi Hb].
  destruct (IH _ Hi) as [? ->]. by rewrite Hb, orb_assoc.
Qed.

End Reason.

(** A binding-thread mismatch always supplies the text of the decision:
    when an active blocking binding-thread rule selects the request and the
    request signals the mismatch, the evaluation (unless rate limited) denies
    or escalates with the canonical reason, whatever other rules fire and in
    whatever order they come. *)
Theorem binding_thread_reason inst e now r rule :
  (RL.check (eval_limiter e) now (Engine.eval_quota_key r)).2 = true ->
  rule ∈ rules e -> active rule = true -> rule_type rule = BindingThread ->
  is_blocking (severity rule) = true -> selectors_match rule r = true ->
  apply_binding_thread_rule rule r <> None ->
  let d := gr_decision (Engine.evaluate inst e now r).2 in
  d = GDeny BINDING_THREAD_MISMATCH_REASON \/ d = EscalateToHuman BINDING_THREAD_MISMATCH_REASON.
Proof.
  intros Hlim Hin Hact Hty Hsev Hsel Hfire. cbn zeta. unfold Engine.evaluate.
  destruct (RL.check (eval_limiter e) now (Engine.eval_quota_key r)) as [lim ?]; cbn in Hlim; subst.
  cbn [negb snd gr_decision]. unfold Engine.decide_eval. cbn [risk_threshold scorer].
  set (mag := score _ _). set (exc := F64.ltb _ mag).
  assert (existsb (binding_fires r exc) (Engine.active_rules e) = true
          /\ existsb (rule_blocks r exc) (Engine.active_rules e) = true) as [Hb Hbl].
  { assert (rule_blocks r exc rule = true).
    { unfold rule_blocks, rule_fires. rewrite Hsel, Hty, Hsev. cbn. rewrite andb_true_r.
      apply bool_decide_eq_true_2. by apply not_eq_None_Some. }
    assert (rule ∈ Engine.active_rules e) by (apply list_elem_of_filter; done).
    rewrite !existsb_exists. split; exists rule; rewrite <- list_elem_of_In; split; try done.
    unfold binding_fires. rewrite bool_decide_eq_true_2; done. }
  destruct (loop_reason r mag (risk_threshold e) exc (Engine.active_rules e) eval_init)
    as [Hinv Hset]; [done|]. rewrite Hb in Hset.
  destruct (loop_flags r mag (risk_threshold e) exc (Engine.active_rules e) eval_init)
    as (_ & _ & Hblk & _). rewrite Hbl in Hblk. cbn in Hset, Hblk.
  unfold Engine.active_rules in *. cbn [rules] in *. rewrite Hblk, (Hinv Hset).
  destruct (_ && _); auto.
Qed.

Lemma binding_thread_reason_witness :
  let d := gr_decision (Engine.evaluate None GovExample.soul_engine 5 GovExample.soul_request).2 in
  d = GDeny BINDING_THREAD_MISMATCH_REASON \/ d = EscalateToHuman BINDING_THREAD_MISMATCH_REASON.
Proof.
  refine (binding_thread_reason None GovExample.soul_engine 5 GovExample.soul_request
    (binding_thread_rule "soul") _ _ _ _ _ _ _); try (vm_compute; reflexivity).
  - cbn. right. left.
  - vm_compute. discriminate.
Defined.

(** C9: Project attribution cannot be forged.  After attribution a request
    carries the kernel's own attested project and instance, in its context and
    in the principal the verdict records, and nothing the caller put in the
    reserved keys survives. *)
Theorem attribution_unforgeable inst e now r key forged :
  let r' := Request.attributed inst r in
  rq_context r' !! "project_id" = att_project_id ∘ fst <$> inst /\
  rq_context r' !! "instance_id" = snd <$> inst /\
  (key ∈ RESERVED_CONTEXT_KEYS ->
   Request.attributed inst
     (mkRequest (rq_agent_id r) (rq_action r) (rq_effect r) (<[key := forged]> (rq_context r))
        (rq_node_id r) (rq_principal r)) = r') /\
  exists p, gr_principal (Engine.evaluate inst e now r').2 = Some p /\
    gp_project_id p = att_project_id ∘ fst <$> inst /\ gp_instance_id p = snd <$> inst.
Proof.
  cbn zeta. unfold Request.attributed, Request.attributed_with. split; [|split; [|split]].
  - destruct inst as [[a i]|]; cbn; by simplify_map_eq.
  - destruct inst as [[a i]|]; cbn; by simplify_map_eq.
  - intros Hkey. cbn [rq_context rq_agent_id rq_action rq_effect rq_node_id rq_principal].
    assert (foldl (fun m k => delete k m) (<[key:=forged]> (rq_context r)) RESERVED_CONTEXT_KEYS
            = foldl (fun m k => delete k m) (rq_context r) RESERVED_CONTEXT_KEYS) as ->; [|done].
    cbn. unfold RESERVED_CONTEXT_KEYS in Hkey.
    apply list_elem_of_In in Hkey as [<-|[<-|[]]].
    + by rewrite delete_insert_eq.
    + rewrite delete_insert_ne by done. by rewrite delete_insert_eq.
  - exists (Request.resolved_principal inst (Request.attributed inst r)). split.
    + unfold Engine.evaluate. destruct (RL.check _ _ _) as [? [|]]; done.
    + destruct inst as [[a i]|]; [done|]. unfold Request.resolved_principal, Request.base_principal.
      cbn. destruct (String.eqb _ _); done.
Qed.

Lemma attribution_unforgeable_witness :
  let inst := Some (mkAttestation "proj-a" BoundKernel, "node-1") in
  Request.attributed inst
    (mkRequest "agent-1" "tool.x" effect_default (<["project_id" := "proj-b"]> ∅) None None)
  = Request.attributed inst (mkRequest "agent-1" "tool.x" effect_default ∅ None None).
Proof.
  refine (proj1 (proj2 (proj2 (attribution_unforgeable
    (Some (mkAttestation "proj-a" BoundKernel, "node-1")) Engine.open 0
    (mkRequest "agent-1" "tool.x" effect_default ∅ None None) "project_id" "proj-b"))) _).
  left.
Defined.
