(* ===== verification/Gate.v ===== *)
(** Gate backends: crates/clawft-kernel/src/gate.rs, the display strings of
    error.rs, and the gated elevation of capability.rs.  A gate decides
    whether an agent may perform an action; [GateBackend] is the interface its
    clients (the message router, the elevation request) are proved against. *)

From S2P Require Import Prelude Codec Process Capability RateLimit Governance.
Open Scope N_scope.

(** ** [Display] of [KernelError] *)

Definition kernel_error_to_string (e : KernelError) : string :=
  match e with
  | ProcessNotFound pid => "process not found: PID " +:+ pretty pid
  | InvalidStateTransition pid from to =>
      "invalid state transition for PID " +:+ pretty pid +:+ ": " +:+ state_to_string from
      +:+ " -> " +:+ state_to_string to
  | ProcessTableFull max => "process table full (max: " +:+ pretty max +:+ ")"
  | ServiceErr m => "service error: " +:+ m
  | BootErr m => "boot error: " +:+ m
  | BootRefused m => "boot refused: " +:+ m
  | IpcErr m => "ipc error: " +:+ m
  | MessageTooLarge size limit =>
      "ipc message too large: " +:+ pretty size +:+ " bytes (limit " +:+ pretty limit +:+ " bytes)"
  | WrongState expected actual =>
      "kernel state error: expected " +:+ expected +:+ ", got " +:+ actual
  | CapabilityDenied pid action reason =>
      "capability denied for PID " +:+ pretty pid +:+ ": cannot " +:+ action +:+ " -- " +:+ reason
  | ResourceLimitExceeded pid resource current limit =>
      "resource limit exceeded for PID " +:+ pretty pid +:+ ": " +:+ resource +:+ " ("
      +:+ pretty current +:+ " > " +:+ pretty limit +:+ ")"
  | SpawnFailed agent_id reason => "spawn failed for agent '" +:+ agent_id +:+ "': " +:+ reason
  | BackendNotAvailable backend reason =>
      "backend not available: " +:+ backend +:+ " (" +:+ reason +:+ ")"
  | TimeoutErr operation ms => "timeout: " +:+ operation +:+ " after " +:+ pretty ms +:+ "ms"
  | ConfigErr m => "config error: " +:+ m
  | QuotaExceeded agent_id current limit =>
      "disk quota exceeded for agent '" +:+ agent_id +:+ "': " +:+ pretty current +:+ " > "
      +:+ pretty limit +:+ " bytes"
  | GovernanceDenied m => "governance denied: " +:+ m
  | MeshErr m => "mesh error: " +:+ m
  | Other m => m
  end.

(** ** The interface *)

Inductive GateDecision :=
| Permit (token : option bytes)
| Defer (reason : string)
| Deny (reason : string) (receipt : option bytes).

Definition is_permit (d : GateDecision) : bool :=
  match d with Permit _ => true | _ => false end.

Definition is_deny (d : GateDecision) : bool :=
  match d with Deny _ _ => true | _ => false end.

(** What a check reads of the kernel: the shared process table, the clock and
    the attested project. *)
Record GateEnv := mkGateEnv {
  ge_table : ProcessTable;
  ge_now : N;
  ge_instance : Instance_;
}.

(** [trait GateBackend]: a check returns the gate's new internal state and the
    audit records it appends. *)
Class GateBackend (G : Type) := {
  check : GateEnv -> G -> string -> string -> Json -> G * list AuditReq * GateDecision;
  check_teardown : GateEnv -> G -> string -> string -> Json -> G * list AuditReq * GateDecision;
}.

(** ** The capability gate *)

Section CapabilityGate.
Context (dbg_str : string -> string).

Record CapabilityGate := mkCapabilityGate {}.

(** A [u64] member of the context, [0] when absent or of another type. *)
Definition ctx_u64 (key : string) (context : Json) : N :=
  match json_get key context with
  | Some v => default 0 (json_as_u64 v)
  | None => 0
  end.

Definition of_check (r : result unit KernelError) : GateDecision :=
  match r with
  | Ok _ => Permit None
  | Err e => Deny (kernel_error_to_string e) None
  end.

(** [CapabilityGate::check] *)
Definition capability_check (t : ProcessTable) (action : string) (context : Json) : GateDecision :=
  let pid := ctx_u64 "pid" context in
  match strip_prefix "tool." action with
  | Some tool_name => of_check (Checker.check_tool_access t pid tool_name None None)
  | None =>
  match strip_prefix "ipc." action with
  | Some _ => of_check (Checker.check_ipc_target dbg_str t pid (ctx_u64 "target_pid" context))
  | None =>
  match strip_prefix "service." action with
  | Some service_name => of_check (Checker.check_service_access t pid service_name None)
  | None =>
      if starts_with "workload." action then
        Deny ("'" +:+ action +:+ "' is default-deny; use the workload governance gate") None
      else Permit None
  end end end.

#[export] Instance CapabilityGate_backend : GateBackend CapabilityGate := {
  check env g agent_id action context := (g, [], capability_check (ge_table env) action context);
  check_teardown env g agent_id action context :=
    (g, [], capability_check (ge_table env) action context);
}.

End CapabilityGate.

(** ** The governance gate *)

Record GovernanceGate := mkGovernanceGate {
  gg_engine : GovernanceEngine;
  gg_chain : bool;
  exempt_actions : gset string;
}.

Section GovernanceGate.
(** [serde_json::from_value::<EffectVector>] and [Value::to_string]. *)
Context (from_value_effect : Json -> option EffectVector) (json_to_string : Json -> string).

Definition governance_gate_new (threshold : f64) (human : bool) : GovernanceGate :=
  mkGovernanceGate (Engine.new threshold human) false ∅.

Definition governance_gate_open : GovernanceGate :=
  mkGovernanceGate Engine.open false ∅.

Definition with_chain (g : GovernanceGate) : GovernanceGate :=
  mkGovernanceGate (gg_engine g) true (exempt_actions g).

Definition exempt_action (g : GovernanceGate) (action : string) : GovernanceGate :=
  mkGovernanceGate (gg_engine g) (gg_chain g) ({[action]} ∪ exempt_actions g).

Definition gate_add_rule (g : GovernanceGate) (r : GovernanceRule) : GovernanceGate :=
  mkGovernanceGate (Engine.add_rule (gg_engine g) r) (gg_chain g) (exempt_actions g).

Definition gate_inherit_config (g old : GovernanceGate) : GovernanceGate :=
  mkGovernanceGate (Engine.inherit_config (gg_engine g) (gg_engine old)) (gg_chain g)
    (exempt_actions old).

(** [GovernanceGate::extract_effect], [extract_context] *)
Definition extract_effect (context : Json) : EffectVector :=
  match json_get "effect" context with
  | Some v => default effect_default (from_value_effect v)
  | None => effect_default
  end.

Definition ctx_insert (m : gmap string string) (kv : string * Json) : gmap string string :=
  let '(k, v) := kv in
  if String.eqb k "effect" then m
  else <[k := match json_as_str v with Some s => s | None => json_to_string v end]> m.

Definition extract_context (context : Json) : gmap string string :=
  match context with JObj l => foldl ctx_insert ∅ l | _ => ∅ end.

Definition with_opt {A} (f : A -> string -> A) (a : A) (o : option string) : A :=
  match o with Some s => f a s | None => a end.

Definition or_else {A} (o o' : option A) : option A :=
  match o with Some x => Some x | None => o' end.

(** The request [check] builds. *)
Definition gate_request (inst : Instance_) (agent_id action : string) (context : Json)
  : GovernanceRequest :=
  let effect := extract_effect context in
  let ctx := extract_context context in
  let ctx := match ctx !! "tool", strip_prefix "tool." action with
             | None, Some tool => <["tool" := tool]> ctx
             | _, _ => ctx
             end in
  let p := Principal.agent agent_id in
  let p := with_opt Principal.with_user p (ctx !! "user_id") in
  let p := with_opt Principal.with_parent p
             (or_else (ctx !! "parent_agent_id") (ctx !! "parent_agent")) in
  let p := with_opt Principal.with_conv p
             (or_else (ctx !! "conv_id") (ctx !! "conversation_id")) in
  Request.attributed inst (mkRequest agent_id action effect ctx None (Some p)).

(** The serialised principal: absent members are skipped. *)
Definition principal_json (p : GatePrincipal) : Json :=
  let opt (k : string) (o : option string) :=
    match o with Some v => [(k, JStr v)] | None => [] end in
  JObj ([("agent_id", JStr (gp_agent_id p))] ++ opt "user_id" (gp_user_id p)
        ++ opt "parent_agent_id" (gp_parent_agent_id p) ++ opt "conv_id" (gp_conv_id p)
        ++ opt "project_id" (gp_project_id p) ++ opt "instance_id" (gp_instance_id p)).

Definition grant_applies (g : GovernanceGate) (action : string) (d : GovernanceDecision) : bool :=
  bool_decide (action ∈ exempt_actions g) &&
  match d with GDeny _ | EscalateToHuman _ => true | _ => false end.

Definition gate_outcome (grant : bool) (d : GovernanceDecision) : GateDecision :=
  if grant then Permit None
  else match d with
       | GPermit | PermitWithWarning _ => Permit None
       | EscalateToHuman reason => Defer reason
       | GDeny reason => Deny reason None
       end.

Definition audit_kind_extra (grant : bool) (action : string) (d : GovernanceDecision)
  : string * list (string * Json) :=
  if grant then
    ("governance.grant",
     [("granted_action", JStr action);
      ("overridden_reason",
       JStr match d with GDeny r | EscalateToHuman r => r | _ => "" end)])
  else match d with
       | GPermit => ("governance.permit", [])
       | PermitWithWarning w => ("governance.warn", [("warning", JStr w)])
       | EscalateToHuman r => ("governance.defer", [("reason", JStr r)])
       | GDeny r => ("governance.deny", [("reason", JStr r)])
       end.

Definition gate_audit (action agent_id : string) (request : GovernanceRequest)
  (res : GovernanceResult) (grant : bool) : AuditReq :=
  let '(kind, extra) := audit_kind_extra grant action (gr_decision res) in
  let e := rq_effect request in
  let base := JObj [("agent_id", JStr agent_id); ("action", JStr action);
                    ("effect", to_context_json e);
                    ("threshold_exceeded", JBool (threshold_exceeded res));
                    ("evaluated_rules", JArr (map JStr (evaluated_rules res)))] in
  let base := match gr_principal res with
              | Some p => json_set "principal" (principal_json p) base
              | None => base
              end in
  mkAudit "governance" kind
    (Some (foldl (fun j kv => json_set kv.1 kv.2 j) base extra)).

(** [GovernanceGate::check] *)
Definition governance_check (env : GateEnv) (g : GovernanceGate) (agent_id action : string)
  (context : Json) : GovernanceGate * list AuditReq * GateDecision :=
  let request := gate_request (ge_instance env) agent_id action context in
  let '(e, res) := Engine.evaluate (ge_instance env) (gg_engine g) (ge_now env) request in
  let grant := grant_applies g action (gr_decision res) in
  let audit := if gg_chain g then [gate_audit action agent_id request res grant] else [] in
  (mkGovernanceGate e (gg_chain g) (exempt_actions g), audit, gate_outcome grant (gr_decision res)).

#[export] Instance GovernanceGate_backend : GateBackend GovernanceGate := {
  check := governance_check;
  check_teardown := governance_check;
}.

(** ** Gated elevation *)

Definition bool_json (b : bool) : Json := JBool b.

Definition elevation_context (requested : AgentCapabilities) (platform : string) (pid : N) : Json :=
  JObj [("pid", json_num pid); ("platform", JStr platform);
        ("can_spawn", JBool (can_spawn requested)); ("can_network", JBool (can_network requested));
        ("effect", JObj [("risk", JFloat (F64.lit 5 1)); ("security", JFloat (F64.lit 5 1))])].

(** [AgentCapabilities::request_elevation_gated] *)
Definition request_elevation_gated (env : GateEnv) (requested : AgentCapabilities)
  (platform : string) (pid : N) (gate : option GovernanceGate) (chain : bool)
  : option GovernanceGate * list AuditReq * ElevationResult :=
  let granted :=
    ((if chain then
        [mkAudit "capability" "capability.elevate"
           (Some (JObj [("pid", json_num pid); ("platform", JStr platform);
                        ("result", JStr "granted"); ("can_spawn", JBool (can_spawn requested));
                        ("can_network", JBool (can_network requested))]))]
      else []), Granted requested) in
  match gate with
  | Some g =>
      let '(g, audit, decision) :=
        governance_check env g ("pid:" +:+ pretty pid) "capability.elevate"
          (elevation_context requested platform pid) in
      if is_deny decision then
        (Some g,
         audit ++ (if chain then
           [mkAudit "capability" "capability.elevate"
              (Some (JObj [("pid", json_num pid); ("platform", JStr platform);
                           ("result", JStr "denied");
                           ("reason", JStr "governance gate denied elevation")]))]
           else []),
         ElevationDenied "governance denied capability elevation")
      else (Some g, audit ++ granted.1, granted.2)
  | None => (None, granted.1, granted.2)
  end.

End GovernanceGate.

(** ** The coherence gate

    [TileZeroGate]: TileZero decides (third-party code), the gate maps its
    decision and logs it. *)

Inductive TzDecision := TzPermit | TzDefer | TzDeny.

Record PermitToken := mkToken {
  tok_decision : TzDecision;
  tok_sequence : N;
  tok_witness_hash : bytes;
}.

Record ActionContext := mkAction {
  ac_action_id : string;
  ac_action_type : string;
  ac_device : option string;
  ac_path : option string;
  ac_agent_id : string;
  ac_session_id : option string;
  ac_urgency : string;
}.

Section TileZeroGate.
Context {TZ : Type} (decide_tz : TZ -> ActionContext -> TZ * PermitToken)
  (token_to_vec : PermitToken -> option bytes) (uuid : string).

Record TileZeroGate := mkTileZeroGate {
  tilezero : TZ;
  tz_chain : bool;
}.

Definition ctx_str (key : string) (context : Json) : option string :=
  match json_get key context with Some v => json_as_str v | None => None end.

(** [TileZeroGate::build_action_context] *)
Definition build_action_context (agent_id action : string) (context : Json) : ActionContext :=
  mkAction uuid action (ctx_str "device" context) (ctx_str "path" context) agent_id
    (ctx_str "session_id" context) (default "normal" (ctx_str "urgency" context)).

(** [TileZeroGate::check] *)
Definition tilezero_check (g : TileZeroGate) (agent_id action : string) (context : Json)
  : TileZeroGate * list AuditReq * GateDecision :=
  let '(tz, token) := decide_tz (tilezero g) (build_action_context agent_id action context) in
  let token_bytes := token_to_vec token in
  let seq := pretty (tok_sequence token) in
  let decision :=
    match tok_decision token with
    | TzPermit => Permit token_bytes
    | TzDefer => Defer ("TileZero deferred: coherence uncertain (seq=" +:+ seq +:+ ")")
    | TzDeny => Deny ("TileZero denied: coherence below threshold (seq=" +:+ seq +:+ ")") token_bytes
    end in
  let kind := match decision with
              | Permit _ => "gate.permit" | Defer _ => "gate.defer" | Deny _ _ => "gate.deny"
              end in
  let audit :=
    if tz_chain g then
      [mkAudit "gate" kind
         (Some (JObj [("agent_id", JStr agent_id); ("action", JStr action);
                      ("sequence", json_num (tok_sequence token));
                      ("witness_hash",
                       JStr (String.string_of_list_byte (hex_encode (tok_witness_hash token))))]))]
    else [] in
  (mkTileZeroGate tz (tz_chain g), audit, decision).

#[export] Instance TileZeroGate_backend : GateBackend TileZeroGate := {
  check env := tilezero_check;
  check_teardown env := tilezero_check;
}.

End TileZeroGate.

(** ** What the gates decide *)

Section GateProps.
Context (from_value_effect : Json -> option EffectVector) (json_to_string : Json -> string).
Abbreviation gcheck := (governance_check from_value_effect json_to_string).
Abbreviation grequest := (gate_request from_value_effect json_to_string).

(** The engine's verdict behind a check. *)
Definition gate_verdict (env : GateEnv) (g : GovernanceGate) (agent_id action : string)
  (context : Json) : GovernanceDecision :=
  gr_decision (Engine.evaluate (ge_instance env) (gg_engine g) (ge_now env)
    (grequest (ge_instance env) agent_id action context)).2.

(** The governance gate and its audit trail.  The gate denies or defers
    exactly when the engine does and the action is not exempt, with the
    engine's reason; every other outcome is a permit.  With a chain attached
    each check appends exactly one governance record, whose kind tells the
    outcome apart and shows an exercised exemption as a grant, never as a
    plain permit. *)
Theorem governance_gate_audited env g agent_id action context :
  let '(g', audit, d) := gcheck env g agent_id action context in
  let v := gate_verdict env g agent_id action context in
  let exempt := action ∈ exempt_actions g in
  (forall r rc, d = Deny r rc <-> rc = None /\ v = GDeny r /\ ~ exempt) /\
  (forall r, d = Defer r <-> v = EscalateToHuman r /\ ~ exempt) /\
  (gg_chain g = false -> audit = []) /\
  (gg_chain g = true -> exists kind payload,
     audit = [mkAudit "governance" kind (Some payload)] /\
     json_get "agent_id" payload = Some (JStr agent_id) /\
     json_get "action" payload = Some (JStr action) /\
     (kind = "governance.deny" <-> is_deny d = true) /\
     (kind = "governance.defer" <-> exists r, d = Defer r) /\
     (kind = "governance.grant" <-> (strictness v >= 2)%nat /\ exempt)).
Proof.
  unfold governance_check, gate_verdict.
  destruct (Engine.evaluate _ _ _ _) as [e res]. cbn [snd].
  unfold grant_applies, gate_outcome, gate_audit, audit_kind_extra.
  destruct (decide (action ∈ exempt_actions g)) as [Hx|Hx];
    [rewrite bool_decide_eq_true_2 by done|rewrite bool_decide_eq_false_2 by done];
    destruct (gr_decision res) as [|w|w|w]; cbn;
    (split; [intros ??; split; [intros [=]|intros (?&[=]&?)]; subst; done|]);
    (split; [intros ?; split; [intros [=]|intros ([=]&?)]; subst; done|]);
    (split; [by intros ->|]); intros ->; eexists _, _; (split; [reflexivity|]);
    destruct (gr_principal res); (split; [reflexivity|]); (split; [reflexivity|]);
    (split; [done|]); (split; [split; [intros [=]; by eexists|intros [? [=]]; done]|]);
    split; try (intros [=]; fail); try (intros [? ?]; try lia; done); intros _; split; try lia; done.
Qed.

(** ** Elevation *)

Section Elevation.
Context (env : GateEnv) (g : GovernanceGate) (requested : AgentCapabilities) (pid : N).
Abbreviation erequest platform :=
  (grequest (ge_instance env) ("pid:" +:+ pretty pid) "capability.elevate"
     (elevation_context requested platform pid)).

Lemma elevation_ctx platform key :
  key <> "tool" -> key ∉ RESERVED_CONTEXT_KEYS ->
  rq_context (erequest platform) !! key
  = extract_context json_to_string (elevation_context requested platform pid) !! key.
Proof.
  intros Htool Hres. unfold RESERVED_CONTEXT_KEYS in Hres.
  assert (key <> "project_id" /\ key <> "instance_id") as [Hp Hi]
    by (split; intros ->; apply Hres; [left|right; left]).
  unfold gate_request, Request.attributed, Request.attributed_with.
  destruct (ge_instance env) as [[a i]|]; cbn;
    rewrite ?lookup_insert_ne, ?lookup_delete_ne by done;
    repeat case_match; rewrite ?lookup_insert_ne by done; done.
Qed.

Lemma elevation_facts platform :
  rq_action (erequest platform) = "capability.elevate" /\
  rq_context (erequest platform) !! "platform" = Some platform /\
  rq_context (erequest platform) !! "can_spawn"
    = Some (json_to_string (JBool (can_spawn requested))) /\
  rq_context (erequest platform) !! "can_network"
    = Some (json_to_string (JBool (can_network requested))).
Proof.
  split.
  { unfold gate_request, Request.attributed, Request.attributed_with.
    destruct (ge_instance env) as [[a i]|]; done. }
  rewrite !elevation_ctx by (try done; unfold RESERVED_CONTEXT_KEYS; set_solver).
  done.
Qed.

(** A rule of the genesis kind that stops spawning or networking. *)
Definition elevation_blocker (rule : GovernanceRule) : Prop :=
  active rule = true /\ rule_type rule = BrowserPolicy /\ is_blocking (severity rule) = true /\
  action_selector rule = None /\ tool_selector rule = None /\
  ((can_spawn requested = true /\ spawn_rule rule = true) \/
   (can_network requested = true /\ network_rule rule = true)).

Lemma elevation_blocked rule exceeded :
  json_to_string (JBool true) = "true" ->
  elevation_blocker rule -> rule_blocks (erequest "browser") exceeded rule = true.
Proof.
  intros Hjs (_ & Hty & Hsev & Ha & Ht & Hcase).
  destruct (elevation_facts "browser") as (Hact & Hplat & Hsp & Hnet).
  unfold rule_blocks, rule_fires, selectors_match. rewrite Ha, Ht, Hty, Hsev. cbn [andb].
  rewrite andb_true_r. apply bool_decide_eq_true_2.
  unfold apply_browser_policy_rule, Request.ctx_or_empty.
  rewrite Hplat, Hact, Hsp, Hnet. cbn -[bool_decide spawn_rule network_rule].
  destruct Hcase as [[-> ->]|[-> ->]]; rewrite Hjs.
  - by rewrite bool_decide_eq_true_2.
  - rewrite (bool_decide_eq_true_2 (Some "true" = Some "true")) by done.
    destruct (_ && spawn_rule rule); done.
Qed.

End Elevation.
End GateProps.

(** A browser agent cannot elevate itself past the genesis rules.  When
    the gate's engine holds an active blocking browser rule against spawning
    or networking and asks no human, and elevation is not an exempt action, a
    browser's request for that capability is denied; the attempt is recorded
    as denied when a chain is given. *)
Theorem browser_elevation_denied from_value_effect json_to_string env g requested pid rule chain :
  json_to_string (JBool true) = "true" ->
  rule ∈ rules (gg_engine g) -> elevation_blocker requested rule ->
  human_approval_required (gg_engine g) = false ->
  "capability.elevate" ∉ exempt_actions g ->
  exists g' audit,
    request_elevation_gated from_value_effect json_to_string env requested "browser" pid (Some g) chain
    = (Some g', audit, ElevationDenied "governance denied capability elevation") /\
    (chain = true -> exists front payload,
       audit = front ++ [mkAudit "capability" "capability.elevate" (Some payload)] /\
       json_get "result" payload = Some (JStr "denied")).
Proof.
  intros Hjs Hin Hblk Hhuman Hex. unfold request_elevation_gated, governance_check.
  set (rq := gate_request _ _ _ _ _ _).
  pose proof (evaluate_cases (ge_instance env) (gg_engine g) (ge_now env) rq) as Hc.
  cbn zeta in Hc.
  destruct (Engine.evaluate (ge_instance env) (gg_engine g) (ge_now env) rq) as [e res].
  assert (strictness (gr_decision res) = 3%nat) as Hs.
  { destruct (RL.check _ _ _).2; cbn [snd] in Hc; destruct Hc as [-> _]; [|done].
    unfold verdict. rewrite Hhuman.
    set (exc := F64.ltb _ _).
    assert (rule_blocks rq exc rule = true) as Hb by (by apply elevation_blocked).
    assert (rule ∈ Engine.active_rules (gg_engine g)) as Hact
      by (apply list_elem_of_filter; split; [apply Hblk|done]).
    assert (forall f : GovernanceRule -> bool, f rule = true ->
              existsb f (Engine.active_rules (gg_engine g)) = true) as Hall.
    { intros f Hf. apply existsb_exists. exists rule. split; [by apply list_elem_of_In|done]. }
    rewrite (Hall _ Hb). cbn [orb].
    rewrite (Hall (rule_blocks_otherwise rq exc)); [by rewrite !andb_false_r|].
    unfold rule_blocks_otherwise. rewrite Hb. destruct Hblk as (_ & -> & _). done. }
  unfold grant_applies, gate_outcome. rewrite bool_decide_eq_false_2 by done. cbn [andb].
  destruct (gr_decision res) eqn:Hd; try done. cbn [is_deny].
  eexists _, _. split; [reflexivity|]. intros ->. eexists _, _. split; [reflexivity|done].
Qed.

(** A rendering of booleans, and the gates of the examples. *)
Module GateExample.

Definition render (j : Json) : string :=
  match j with JBool true => "true" | JBool false => "false" | _ => "" end.

Definition env : GateEnv := mkGateEnv (PT.new 4) 1000 None.

Definition gate (human : bool) : GovernanceGate :=
  with_chain (foldl gate_add_rule (governance_gate_new (F64.lit 7 1) human)
                browser_policy_default_rules).

Definition spawner : AgentCapabilities :=
  mkCaps true true true false (Restricted []) limits_default.

End GateExample.

Lemma browser_elevation_denied_witness :
  exists g' audit,
    request_elevation_gated (fun _ => None) GateExample.render GateExample.env GateExample.spawner
      "browser" 9 (Some (GateExample.gate false)) true
    = (Some g', audit, ElevationDenied "governance denied capability elevation").
Proof.
  destruct (browser_elevation_denied (fun _ => None) GateExample.render GateExample.env
    (GateExample.gate false) GateExample.spawner 9
    (browser_policy_rule "BP-002"
       "Browser nodes cannot spawn child agents without capability elevation") true)
    as (g' & audit & H & _).
  - reflexivity.
  - cbn. right. left.
  - repeat split. left. split; reflexivity.
  - reflexivity.
  - apply not_elem_of_empty.
  - exists g', audit. exact H.
Defined.

(** A deferred elevation is granted.  When the gate's answer is not a
    denial, which includes the deferral to a human, the elevation returns the
    requested capabilities and records the request as granted. *)
Theorem elevation_deferred_granted from_value_effect json_to_string env g requested platform pid reason :
  gate_verdict from_value_effect json_to_string env g ("pid:" +:+ pretty pid) "capability.elevate"
    (elevation_context requested platform pid) = EscalateToHuman reason ->
  exists g' front payload,
    request_elevation_gated from_value_effect json_to_string env requested platform pid (Some g) true
    = (Some g', front ++ [mkAudit "capability" "capability.elevate" (Some payload)],
       Granted requested) /\
    json_get "result" payload = Some (JStr "granted").
Proof.
  unfold gate_verdict. intros Hv. unfold request_elevation_gated, governance_check.
  destruct (Engine.evaluate _ _ _ _) as [e res]. cbn [snd] in Hv. rewrite Hv.
  unfold gate_outcome. destruct (grant_applies _ _ _); cbn [is_deny];
    (eexists _, _, _; split; [reflexivity|done]).
Qed.

Lemma elevation_deferred_granted_witness :
  exists g' front payload,
    request_elevation_gated (fun _ => None) GateExample.render GateExample.env GateExample.spawner
      "browser" 9 (Some (GateExample.gate true)) true
    = (Some g', front ++ [mkAudit "capability" "capability.elevate" (Some payload)],
       Granted GateExample.spawner) /\
    json_get "result" payload = Some (JStr "granted").
Proof.
  eapply (elevation_deferred_granted (fun _ => None) GateExample.render GateExample.env
    (GateExample.gate true) GateExample.spawner "browser" 9).
  vm_compute. reflexivity.
Defined.

(** The capability gate never defers, refuses every workload action, and
    on the other guarded families permits exactly what the capability checker
    accepts for the PID named in the context. *)
Theorem capability_gate_spec dbg t action context :
  let d := capability_check dbg t action context in
  let pid := ctx_u64 "pid" context in
  (is_permit d = true \/ is_deny d = true) /\
  (forall rest, action = "workload." +:+ rest -> is_deny d = true) /\
  (forall tool, action = "tool." +:+ tool ->
     is_permit d = true <-> Checker.check_tool_access t pid tool None None = Ok tt) /\
  (forall rest, action = "ipc." +:+ rest ->
     is_permit d = true <-> Checker.check_ipc_target dbg t pid (ctx_u64 "target_pid" context) = Ok tt).
Proof.
  assert (forall r, is_permit (of_check r) = true <-> r = Ok tt) as Hof.
  { intros [[]|]; cbn; split; done. }
  assert (forall p s, strip_prefix p (p +:+ s) = Some s) as Hstrip.
  { intros p s. induction p as [|a p IH]; [done|].
    change (String a p +:+ s) with (String a (p +:+ s)). cbn. by rewrite Ascii.eqb_refl. }
  cbn zeta. unfold capability_check. split; [|split; [|split]].
  - repeat case_match; unfold of_check; repeat case_match; cbn; auto.
  - intros rest ->. change (strip_prefix "tool." ("workload." +:+ rest)) with (@None string).
    change (strip_prefix "ipc." ("workload." +:+ rest)) with (@None string).
    change (strip_prefix "service." ("workload." +:+ rest)) with (@None string).
    by rewrite prefix_app.
  - intros tool ->. rewrite Hstrip. apply Hof.
  - intros rest ->. change (strip_prefix "tool." ("ipc." +:+ rest)) with (@None string).
    rewrite Hstrip. apply Hof.
Qed.
