(* ===== verification/Ipc.v ===== *)
(** Kernel messages: crates/clawft-kernel/src/ipc.rs.  Targets, payloads,
    signals, the message constructors with their identifier counter, global
    process identifiers, and the size-capped publication on the bus. *)

From S2P Require Import Prelude Codec Process Capability Gate.
Open Scope N_scope.

Definition KERNEL_IPC_MAX_MESSAGE_BYTES : N := 16 * 1024 * 1024.

Inductive MessageTarget :=
| TProcess (p : Pid)
| TTopic (topic : string)
| TBroadcast
| TService (name : string)
| TServiceMethod (service method : string)
| TKernel
| TRemoteNode (node_id : string) (target : MessageTarget).

Inductive ExitReason :=
| NormalExit
| Crash (msg : string)
| Killed
| TimedOut.

Inductive KernelSignal :=
| SShutdown
| SSuspend
| SResume
| SPing
| SPong
| SReloadConfig
| SDumpState
| SUserDefined (n : N)
| SKill
| SLinkExit (pid : Pid) (reason : ExitReason)
| SMonitorDown (pid : Pid) (reason : ExitReason)
| SResourceWarning (resource : string) (current limit : N).

Inductive MessagePayload :=
| PText (s : string)
| PJson (v : Json)
| PToolCall (name : string) (args : Json)
| PToolResult (call_id : string) (result : Json)
| PSignal (s : KernelSignal)
| PBinary (data : bytes)
| PRvf (segment_type : N) (data : bytes).

(** [MessagePayload::type_name] *)
Definition type_name (p : MessagePayload) : string :=
  match p with
  | PText _ => "text"
  | PJson _ => "json"
  | PToolCall _ _ => "tool_call"
  | PToolResult _ _ => "tool_result"
  | PSignal _ => "signal"
  | PBinary _ => "binary"
  | PRvf _ _ => "rvf"
  end.

Record KernelMessage := mkMsg {
  msg_id : string;
  msg_from : Pid;
  msg_target : MessageTarget;
  msg_payload : MessagePayload;
  msg_timestamp : Z;
  correlation_id : option string;
  trace_id : option string;
}.

(** [next_ipc_msg_id] on the process-wide counter *)
Definition next_ipc_msg_id (counter : N) : N * string :=
  (wrap_add64 counter 1, "ipc-" +:+ pretty counter).

Module Msg.

Definition build (counter : N) (now : Z) (from : Pid) (target : MessageTarget)
  (payload : MessagePayload) (corr trace : option string) : N * KernelMessage :=
  let '(counter, id) := next_ipc_msg_id counter in
  (counter, mkMsg id from target payload now corr trace).

(** [KernelMessage::new], [with_correlation], [with_trace] *)
Definition new counter now from target payload := build counter now from target payload None None.

Definition with_correlation counter now from target payload (corr : string) :=
  build counter now from target payload (Some corr) None.

Definition with_trace counter now from target payload (trace : string) :=
  build counter now from target payload None (Some trace).

(** [set_trace_id], [ensure_trace_id] with a fresh identifier *)
Definition set_trace_id (m : KernelMessage) (trace : string) : KernelMessage :=
  mkMsg (msg_id m) (msg_from m) (msg_target m) (msg_payload m) (msg_timestamp m)
    (correlation_id m) (Some trace).

Definition ensure_trace_id (m : KernelMessage) (uuid : string) : KernelMessage :=
  match trace_id m with None => set_trace_id m uuid | Some _ => m end.

Definition text counter now from target (s : string) := new counter now from target (PText s).
Definition signal counter now from target (s : KernelSignal) :=
  new counter now from target (PSignal s).
Definition tool_call counter now from target (name : string) (args : Json) :=
  new counter now from target (PToolCall name args).
Definition tool_result counter now from target (call_id : string) (result : Json) :=
  new counter now from target (PToolResult call_id result).

End Msg.

(** ** Global process identifiers *)

Record GlobalPid := mkGlobal {
  g_node_id : string;
  g_pid : Pid;
}.

Definition global_local (p : Pid) (node : string) : GlobalPid := mkGlobal node p.
Definition is_local (g : GlobalPid) (my_node : string) : bool := String.eqb (g_node_id g) my_node.
Definition as_remote_target (g : GlobalPid) : MessageTarget :=
  TRemoteNode (g_node_id g) (TProcess (g_pid g)).
Definition global_to_string (g : GlobalPid) : string := g_node_id g +:+ ":" +:+ pretty (g_pid g).

(** ** Rendering of a target

    [format!("{:?}", target)], as it appears in audit records and gate
    contexts; [dbg_str] is the formatter's rendering of one string. *)
Fixpoint target_debug (dbg_str : string -> string) (t : MessageTarget) : string :=
  match t with
  | TProcess p => "Process(" +:+ pretty p +:+ ")"
  | TTopic s => "Topic(" +:+ dbg_str s +:+ ")"
  | TBroadcast => "Broadcast"
  | TService s => "Service(" +:+ dbg_str s +:+ ")"
  | TServiceMethod s m =>
      "ServiceMethod { service: " +:+ dbg_str s +:+ ", method: " +:+ dbg_str m +:+ " }"
  | TKernel => "Kernel"
  | TRemoteNode n t =>
      "RemoteNode { node_id: " +:+ dbg_str n +:+ ", target: " +:+ target_debug dbg_str t +:+ " }"
  end.

(** The audit record of a send. *)
Definition send_audit (dbg_str : string -> string) (m : KernelMessage) : AuditReq :=
  mkAudit "ipc" "ipc.send"
    (Some (JObj [("from", json_num (msg_from m));
                 ("target", JStr (target_debug dbg_str (msg_target m)));
                 ("payload_type", JStr (type_name (msg_payload m)));
                 ("msg_id", JStr (msg_id m))])).

(** ** The bus

    [KernelIpc]: the serializer and the bus are code of other crates. *)

Record InboundMessage := mkInbound {
  ib_channel : string;
  ib_sender_id : string;
  ib_chat_id : string;
  ib_content : string;
  ib_timestamp : Z;
}.

Section KernelIpc.
Context (dbg_str : string -> string)
  (to_string : KernelMessage -> result string string)
  (publish_inbound : InboundMessage -> result unit string).

(** [KernelIpc::send]; the message that reaches the bus, if any, is returned. *)
Definition ipc_send (m : KernelMessage) : option InboundMessage * result unit KernelError :=
  match to_string m with
  | Err e => (None, Err (IpcErr ("failed to serialize message: " +:+ e)))
  | Ok json =>
      let len := N.of_nat (String.length json) in
      if KERNEL_IPC_MAX_MESSAGE_BYTES <? len then
        (None, Err (MessageTooLarge len KERNEL_IPC_MAX_MESSAGE_BYTES))
      else
        let inbound := mkInbound "kernel-ipc" ("pid-" +:+ pretty (msg_from m)) (msg_id m) json
                         (msg_timestamp m) in
        (Some inbound,
         match publish_inbound inbound with
         | Ok _ => Ok tt
         | Err e => Err (IpcErr ("bus publish failed: " +:+ e))
         end)
  end.

(** [KernelIpc::send_checked] *)
Definition ipc_send_checked (t : ProcessTable) (m : KernelMessage) (chain : bool)
  : option InboundMessage * list AuditReq * result unit KernelError :=
  let checked := match msg_target m with
                 | TProcess to => Checker.check_ipc_target dbg_str t (msg_from m) to
                 | _ => Ok tt
                 end in
  match checked with
  | Err e => (None, [], Err e)
  | Ok _ =>
      let '(published, r) := ipc_send m in
      (published, if chain then [send_audit dbg_str m] else [], r)
  end.

End KernelIpc.

(** ** Properties *)

Section IpcProps.
Context (dbg_str : string -> string)
  (to_string : KernelMessage -> result string string)
  (publish_inbound : InboundMessage -> result unit string).

(** Bus publication under the size cap.  A checked send publishes a
    message only if the sender's capabilities allow the process it targets and
    the serialised form is at most 16 MiB; the published content is that form;
    an oversized message is refused with its size; and whatever passes the
    capability check is recorded on the chain before publication, also when
    the publication then fails. *)
Theorem ipc_send_checked_spec t m :
  let '(published, audit, r) :=
    ipc_send_checked dbg_str to_string publish_inbound t m true in
  (forall ib, published = Some ib ->
     to_string m = Ok (ib_content ib) /\
     N.of_nat (String.length (ib_content ib)) <= KERNEL_IPC_MAX_MESSAGE_BYTES /\
     (forall q, msg_target m = TProcess q ->
        Checker.check_ipc_target dbg_str t (msg_from m) q = Ok tt)) /\
  (r = Ok tt -> exists ib, published = Some ib /\ publish_inbound ib = Ok tt) /\
  (audit = [] <-> exists q e, msg_target m = TProcess q /\
     Checker.check_ipc_target dbg_str t (msg_from m) q = Err e) /\
  (forall s, audit <> [] -> to_string m = Ok s ->
     KERNEL_IPC_MAX_MESSAGE_BYTES < N.of_nat (String.length s) ->
     r = Err (MessageTooLarge (N.of_nat (String.length s)) KERNEL_IPC_MAX_MESSAGE_BYTES)).
Proof.
  unfold ipc_send_checked.
  set (checked := match msg_target m with TProcess _ => _ | _ => _ end).
  assert ((forall e, checked = Err e <-> exists q, msg_target m = TProcess q /\
             Checker.check_ipc_target dbg_str t (msg_from m) q = Err e)) as Hc.
  { intros e. subst checked. destruct (msg_target m); naive_solver. }
  assert (checked = Ok tt -> forall q, msg_target m = TProcess q ->
            Checker.check_ipc_target dbg_str t (msg_from m) q = Ok tt) as Hok.
  { subst checked. intros H q Hq. by rewrite Hq in H. }
  clearbody checked. destruct checked as [[]|e].
  - unfold ipc_send. destruct (to_string m) as [s|e]; cbn.
    + destruct (N.ltb_spec KERNEL_IPC_MAX_MESSAGE_BYTES (N.of_nat (String.length s))).
      * naive_solver.
      * destruct (publish_inbound _) as [[]|ep] eqn:Hp; cbn;
          (split; [intros ib [= <-]; auto|]); (split; [eauto; done|]);
          (split; [split; [done|intros (q & e & Hq & He); specialize (Hok eq_refl q Hq); congruence]|]);
          intros s' _ [= <-] ?; lia.
    + split; [done|]. split; [done|]. split; [|done].
      split; [done|]. intros (q & e' & Hq & He). specialize (Hok eq_refl q Hq). congruence.
  - split; [done|]. split; [done|]. split; [|done]. split; [|done].
    intros _. destruct (proj1 (Hc e) eq_refl) as (q & ? & ?). eauto.
Qed.

End IpcProps.
