(* ===== verification/Topic.v ===== *)
(** Topic subscriptions: crates/clawft-kernel/src/topic.rs. *)

From S2P Require Import Prelude Process.
Open Scope N_scope.

(** An external stream is the identifier of its channel. *)
Inductive SubscriberSink :=
| PidInbox (p : Pid)
| ExternalStream (chan : N).

#[global] Instance sink_eq_dec : EqDecision SubscriberSink.
Proof. solve_decision. Defined.

(** The subscription map and the process-wide counter of subscriber ids. *)
Record TopicRouter := mkTopics {
  subscriptions : gmap string (list (N * SubscriberSink));
  next_subscriber : N;
}.

Module Topics.

Definition new (counter : N) : TopicRouter := mkTopics ∅ counter.

Definition sinks_of (r : TopicRouter) (topic : string) : list (N * SubscriberSink) :=
  default [] (subscriptions r !! topic).

Definition is_pid (p : Pid) (s : N * SubscriberSink) : Prop := s.2 = PidInbox p.
#[global] Instance is_pid_dec p s : Decision (is_pid p s).
Proof. unfold is_pid. apply _. Defined.

(** [TopicRouter::subscribe_sink] *)
Definition subscribe_sink (r : TopicRouter) (topic : string) (sink : SubscriberSink)
  : TopicRouter * N :=
  let existing := match sink with
                  | PidInbox p => list_find (is_pid p) (sinks_of r topic)
                  | ExternalStream _ => None
                  end in
  match existing with
  | Some (_, (id, _)) => (r, id)
  | None =>
      let id := next_subscriber r in
      (mkTopics (<[topic := sinks_of r topic ++ [(id, sink)]]> (subscriptions r))
         (wrap_add64 id 1), id)
  end.

(** [TopicRouter::subscribe] *)
Definition subscribe (r : TopicRouter) (p : Pid) (topic : string) : TopicRouter :=
  (subscribe_sink r topic (PidInbox p)).1.

(** [subscriptions.retain(|_, subs| !subs.is_empty())] *)
Definition drop_empty (m : gmap string (list (N * SubscriberSink))) :=
  filter (fun kv => kv.2 <> []) m.

(** [TopicRouter::unsubscribe] *)
Definition unsubscribe (r : TopicRouter) (p : Pid) (topic : string) : TopicRouter :=
  mkTopics (drop_empty (alter (filter (fun s => ~ is_pid p s)) topic (subscriptions r)))
    (next_subscriber r).

(** [TopicRouter::unsubscribe_id] *)
Definition unsubscribe_id (r : TopicRouter) (topic : string) (id : N) : TopicRouter :=
  mkTopics (drop_empty (alter (filter (fun s => s.1 <> id)) topic (subscriptions r)))
    (next_subscriber r).

(** [TopicRouter::unsubscribe_all] *)
Definition unsubscribe_all (r : TopicRouter) (p : Pid) : TopicRouter :=
  mkTopics (drop_empty (filter (fun s => ~ is_pid p s) <$> subscriptions r)) (next_subscriber r).

(** [TopicRouter::is_alive] *)
Definition is_alive (t : ProcessTable) (p : Pid) : bool :=
  match PT.get t p with
  | Some e => match state e with Exited _ => false | _ => true end
  | None => false
  end.

(** A live sink: its process has not exited, its receiver is open. *)
Definition sink_live (t : ProcessTable) (closed : N -> bool) (s : SubscriberSink) : bool :=
  match s with
  | PidInbox p => is_alive t p
  | ExternalStream c => negb (closed c)
  end.

(** [TopicRouter::live_sinks] *)
Definition live_sinks (t : ProcessTable) (closed : N -> bool) (r : TopicRouter) (topic : string)
  : TopicRouter * list (N * SubscriberSink) :=
  let subs := sinks_of r topic in
  let live := filter (fun s => sink_live t closed s.2 = true) subs in
  let dead_ids := (filter (fun s => sink_live t closed s.2 = false) subs).*1 in
  (match dead_ids with
   | [] => r
   | _ => mkTopics (alter (filter (fun s => s.1 ∉ dead_ids)) topic (subscriptions r))
            (next_subscriber r)
   end, live).

Definition sink_pid (s : N * SubscriberSink) : option Pid :=
  match s.2 with PidInbox p => Some p | ExternalStream _ => None end.

(** [live_subscribers], [subscribers], [list_topics], [topics_for_pid],
    [topic_count], [has_subscribers] *)
Definition live_subscribers t closed (r : TopicRouter) (topic : string) : TopicRouter * list Pid :=
  let '(r, live) := live_sinks t closed r topic in (r, omap sink_pid live).

Definition subscribers (r : TopicRouter) (topic : string) : list Pid :=
  omap sink_pid (sinks_of r topic).

Definition list_topics (r : TopicRouter) : list (string * N) :=
  (fun kv => (kv.1, lenN kv.2)) <$> map_to_list (subscriptions r).

Definition topics_for_pid (r : TopicRouter) (p : Pid) : list string :=
  (filter (fun kv => Exists (is_pid p) kv.2) (map_to_list (subscriptions r))).*1.

Definition topic_count (r : TopicRouter) : N := N.of_nat (size (subscriptions r)).

Definition has_subscribers (r : TopicRouter) (topic : string) : bool :=
  match subscriptions r !! topic with
  | Some l => negb (bool_decide (l = []))
  | None => false
  end.

End Topics.

(** ** Invariant

    Every subscriber id below the counter, ids distinct within a topic, and at
    most one subscription of a process per topic. *)

Definition topics_wf (r : TopicRouter) : Prop :=
  forall topic,
    Forall (fun s => s.1 < next_subscriber r) (Topics.sinks_of r topic) /\
    NoDup (Topics.sinks_of r topic).*1 /\
    NoDup (omap Topics.sink_pid (Topics.sinks_of r topic)).

Inductive TopicOp :=
| OpSubscribe (topic : string) (sink : SubscriberSink)
| OpUnsubscribe (p : Pid) (topic : string)
| OpUnsubscribeId (topic : string) (id : N)
| OpUnsubscribeAll (p : Pid)
| OpPublish (t : ProcessTable) (closed : N -> bool) (topic : string).

Definition topic_step (r : TopicRouter) (op : TopicOp) : TopicRouter :=
  match op with
  | OpSubscribe topic sink => (Topics.subscribe_sink r topic sink).1
  | OpUnsubscribe p topic => Topics.unsubscribe r p topic
  | OpUnsubscribeId topic id => Topics.unsubscribe_id r topic id
  | OpUnsubscribeAll p => Topics.unsubscribe_all r p
  | OpPublish t closed topic => (Topics.live_sinks t closed r topic).1
  end.

(** A process is subscribed to a topic. *)
Definition subscribed (r : TopicRouter) (p : Pid) (topic : string) : Prop :=
  exists id, (id, PidInbox p) ∈ Topics.sinks_of r topic.

(** *** Reading a topic after each operation *)

Lemma sinks_drop_empty m n topic :
  Topics.sinks_of (mkTopics (Topics.drop_empty m) n) topic = default [] (m !! topic).
Proof.
  unfold Topics.sinks_of, Topics.drop_empty. cbn.
  destruct (m !! topic) as [l|] eqn:Hl.
  - destruct (decide (l = [])) as [->|Hne].
    + rewrite map_lookup_filter_None_2; [done|]. right. naive_solver.
    + by rewrite (map_lookup_filter_Some_2 _ _ topic l).
  - rewrite map_lookup_filter_None_2; [done|]. by left.
Qed.

Lemma sinks_alter f m n topic topic' :
  f [] = [] ->
  default [] (alter f topic m !! topic')
  = if decide (topic = topic') then f (Topics.sinks_of (mkTopics m n) topic')
    else Topics.sinks_of (mkTopics m n) topic'.
Proof.
  intros Hf. unfold Topics.sinks_of. cbn. case_decide as Heq.
  - subst. rewrite lookup_alter_eq. by destruct (m !! topic').
  - by rewrite lookup_alter_ne.
Qed.

Lemma sinks_unsubscribe r p topic topic' :
  Topics.sinks_of (Topics.unsubscribe r p topic) topic'
  = if decide (topic = topic') then filter (fun s => ~ Topics.is_pid p s) (Topics.sinks_of r topic')
    else Topics.sinks_of r topic'.
Proof.
  unfold Topics.unsubscribe. rewrite sinks_drop_empty.
  by rewrite (sinks_alter _ _ (next_subscriber r)).
Qed.

Lemma sinks_unsubscribe_id r topic id topic' :
  Topics.sinks_of (Topics.unsubscribe_id r topic id) topic'
  = if decide (topic = topic') then filter (fun s => s.1 <> id) (Topics.sinks_of r topic')
    else Topics.sinks_of r topic'.
Proof.
  unfold Topics.unsubscribe_id. rewrite sinks_drop_empty.
  by rewrite (sinks_alter _ _ (next_subscriber r)).
Qed.

Lemma sinks_unsubscribe_all r p topic :
  Topics.sinks_of (Topics.unsubscribe_all r p) topic
  = filter (fun s => ~ Topics.is_pid p s) (Topics.sinks_of r topic).
Proof.
  unfold Topics.unsubscribe_all. rewrite sinks_drop_empty, lookup_fmap.
  unfold Topics.sinks_of. by destruct (subscriptions r !! topic).
Qed.

Lemma filter_not_elem_fst (P : N * SubscriberSink -> bool) l :
  NoDup l.*1 ->
  filter (fun s => s.1 ∉ (filter (fun s => P s = false) l).*1) l = filter (fun s => P s = true) l.
Proof.
  intros Hnd. apply list_filter_iff_elem. intros x Hx. split.
  - intros Hn. destruct (P x) eqn:HP; [done|]. destruct Hn.
    apply list_elem_of_fmap. exists x. split; [done|]. by apply list_elem_of_filter.
  - intros HP (y & Heq & [HPy Hy]%list_elem_of_filter)%list_elem_of_fmap.
    assert (x = y) as ->; [|congruence].
    apply list_elem_of_lookup in Hx as [i Hi], Hy as [j Hj].
    assert (i = j) as ->; [|congruence].
    eapply NoDup_lookup; [done|..]; rewrite list_lookup_fmap.
    + by rewrite Hi.
    + rewrite Hj. cbn. by rewrite Heq.
Qed.

Lemma sinks_live_sinks t closed r topic topic' :
  topics_wf r ->
  Topics.sinks_of (Topics.live_sinks t closed r topic).1 topic'
  = if decide (topic = topic')
    then filter (fun s => Topics.sink_live t closed s.2 = true) (Topics.sinks_of r topic')
    else Topics.sinks_of r topic'.
Proof.
  intros Hwf. unfold Topics.live_sinks. cbn [fst].
  set (P := fun s : N * SubscriberSink => Topics.sink_live t closed s.2).
  change (filter (fun s => Topics.sink_live t closed s.2 = false) (Topics.sinks_of r topic))
    with (filter (fun s => P s = false) (Topics.sinks_of r topic)).
  destruct (filter (fun s => P s = false) (Topics.sinks_of r topic)).*1 eqn:Hdead.
  - case_decide as Heq; [|done]. subst. symmetry. apply list_filter_all.
    intros x Hx. destruct (P x) eqn:HP; [done|]. exfalso.
    apply fmap_nil_inv in Hdead.
    eapply filter_nil_not_elem_of; [exact Hdead|exact HP|exact Hx].
  - rewrite <- Hdead. clear Hdead. unfold Topics.sinks_of at 1. cbn.
    rewrite (sinks_alter _ _ (next_subscriber r)) by done.
    case_decide as Heq; [|done]. subst. destruct (Hwf topic') as (_ & Hnd & _).
    by rewrite <- (filter_not_elem_fst P).
Qed.

(** *** Preservation *)

(** What removing sinks keeps. *)
Lemma list_wf_filter (P : N * SubscriberSink -> Prop) `{!forall x, Decision (P x)} n l :
  Forall (fun s => s.1 < n) l /\ NoDup l.*1 /\ NoDup (omap Topics.sink_pid l) ->
  Forall (fun s => s.1 < n) (filter P l) /\ NoDup (filter P l).*1 /\
  NoDup (omap Topics.sink_pid (filter P l)).
Proof.
  intros (Hlt & Hnd & Hp). split; [by apply Forall_filter_sub|].
  induction l as [|x l IH]; [done|]. rewrite filter_cons.
  apply Forall_cons in Hlt as [? Hlt]. cbn in Hnd. apply NoDup_cons in Hnd as [Hx Hnd].
  assert (NoDup (omap Topics.sink_pid l) /\
          forall p, Topics.sink_pid x = Some p -> p ∉ omap Topics.sink_pid l) as [Hp' Hxp].
  { cbn in Hp. destruct (Topics.sink_pid x); [|done]. apply NoDup_cons in Hp as [??].
    split; [done|]. by intros ? [= <-]. }
  destruct (IH Hlt Hnd Hp') as [IH1 IH2].
  assert (forall y, y ∈ filter P l -> y ∈ l) as Hsub by (intros y [_ ?]%list_elem_of_filter; done).
  case_decide; [|done]. cbn. split.
  - apply NoDup_cons. split; [|done].
    intros (y & ? & Hy)%list_elem_of_fmap. apply Hx, list_elem_of_fmap. eauto.
  - destruct (Topics.sink_pid x) as [p|]; [|done]. apply NoDup_cons. split; [|done].
    intros (y & Hy & ?)%list_elem_of_omap. apply (Hxp p eq_refl), list_elem_of_omap. eauto.
Qed.

Lemma subscribe_sink_cases r topic sink :
  (exists id p, sink = PidInbox p /\ (id, PidInbox p) ∈ Topics.sinks_of r topic /\
     Topics.subscribe_sink r topic sink = (r, id)) \/
  ((forall p, sink = PidInbox p -> ~ subscribed r p topic) /\
   Topics.subscribe_sink r topic sink
   = (mkTopics (<[topic := Topics.sinks_of r topic ++ [(next_subscriber r, sink)]]> (subscriptions r))
        (wrap_add64 (next_subscriber r) 1), next_subscriber r)).
Proof.
  unfold Topics.subscribe_sink. destruct sink as [p|c]; [|right; split; [done|reflexivity]].
  destruct (list_find (Topics.is_pid p) (Topics.sinks_of r topic)) as [[i [id s]]|] eqn:Hf.
  - left. apply list_find_Some in Hf as (Hl & Hs & _). unfold Topics.is_pid in Hs. cbn in Hs. subst.
    exists id, p. split; [done|]. split; [|done]. by apply list_elem_of_lookup_2 in Hl.
  - right. split; [|done]. intros q [= <-] [id Hin].
    apply list_find_None in Hf. rewrite Forall_forall in Hf. by apply (Hf _ Hin).
Qed.

Lemma sinks_insert m n topic topic' l :
  Topics.sinks_of (mkTopics (<[topic := l]> m) n) topic'
  = if decide (topic = topic') then l else default [] (m !! topic').
Proof. unfold Topics.sinks_of. cbn. case_decide; simplify_map_eq; done. Qed.

Lemma subscribe_wf r topic sink :
  next_subscriber r + 1 < u64_mod -> topics_wf r ->
  topics_wf (Topics.subscribe_sink r topic sink).1.
Proof.
  intros Hn Hwf. destruct (subscribe_sink_cases r topic sink) as [(id & p & _ & _ & ->)|[Hnew ->]];
    [done|]. intros topic'. destruct (Hwf topic') as (Hlt & Hnd & Hp).
  cbn [fst]. rewrite sinks_insert. cbn [next_subscriber]. rewrite wrap_add64_small by done.
  fold (Topics.sinks_of r topic').
  assert (Forall (fun s => s.1 < next_subscriber r + 1) (Topics.sinks_of r topic')) as Hlt'.
  { eapply Forall_impl; [exact Hlt|]. cbn. lia. }
  case_decide as Heq; [subst|by split].
  split; [apply Forall_app; split; [done|repeat constructor; cbn; lia]|].
  rewrite fmap_app, omap_app. split; apply NoDup_app; (split; [done|]).
  - split; [|apply NoDup_singleton]. intros x (y & -> & Hy)%list_elem_of_fmap.
    rewrite Forall_forall in Hlt. specialize (Hlt y Hy). cbn in Hlt. cbn.
    intros ?%list_elem_of_singleton. lia.
  - split; [|destruct sink; cbn; repeat constructor; set_solver].
    intros p (y & Hy & Hyp)%list_elem_of_omap. destruct sink as [q|c]; cbn; [|set_solver].
    intros ->%list_elem_of_singleton. apply (Hnew q eq_refl).
    destruct y as [i s]. unfold Topics.sink_pid in Hyp. cbn in Hyp.
    destruct s; simplify_eq. by exists i.
Qed.

Lemma topic_step_wf r op :
  next_subscriber r + 1 < u64_mod -> topics_wf r -> topics_wf (topic_step r op).
Proof.
  intros Hn Hwf. destruct op as [topic sink|p topic|topic id|p|t closed topic]; cbn [topic_step].
  - by apply subscribe_wf.
  - intros topic'. rewrite sinks_unsubscribe. cbn.
    case_decide; [by apply list_wf_filter|done].
  - intros topic'. rewrite sinks_unsubscribe_id. cbn.
    case_decide; [by apply list_wf_filter|done].
  - intros topic'. rewrite sinks_unsubscribe_all. cbn. by apply list_wf_filter.
  - intros topic'. rewrite sinks_live_sinks by done.
    assert (next_subscriber (Topics.live_sinks t closed r topic).1 = next_subscriber r) as ->.
    { unfold Topics.live_sinks. cbn. by destruct (filter _ _).*1. }
    case_decide; [by apply list_wf_filter|done].
Qed.

Definition topic_run (r : TopicRouter) (ops : list TopicOp) : TopicRouter := foldl topic_step r ops.

Lemma topic_step_counter r op :
  next_subscriber r + 1 < u64_mod ->
  next_subscriber (topic_step r op) <= next_subscriber r + 1.
Proof.
  intros Hn. destruct op as [topic sink|p topic|topic id|p|t closed topic]; cbn; try lia.
  - destruct (subscribe_sink_cases r topic sink) as [(id & p & _ & _ & ->)|[_ ->]]; cbn; [lia|].
    rewrite wrap_add64_small by done. lia.
  - destruct (filter _ _).*1; cbn; lia.
Qed.

(** Over any sequence of subscriptions, unsubscriptions and publications,
    subscriber ids stay distinct within a topic and no process is ever
    subscribed twice to the same topic, as long as the id counter has not gone
    through all 64-bit values. *)
Theorem topics_invariant counter ops :
  counter + lenN ops < u64_mod -> topics_wf (topic_run (Topics.new counter) ops).
Proof.
  unfold topic_run.
  assert (forall r, next_subscriber r + lenN ops < u64_mod -> topics_wf r ->
            topics_wf (foldl topic_step r ops)) as Hgen.
  { induction ops as [|op ops IH]; intros r Hn Hwf; [done|]. cbn [foldl].
    unfold lenN in *. cbn [length] in Hn.
    pose proof (topic_step_counter r op) as Hc.
    apply IH; [lia|]. apply topic_step_wf; [lia|done]. }
  intros Hn. apply Hgen; [done|]. intros topic. repeat split; constructor.
Qed.

Lemma topics_invariant_witness :
  topics_wf (topic_run (Topics.new 1)
    [OpSubscribe "a" (PidInbox 3); OpSubscribe "a" (ExternalStream 0); OpSubscribe "a" (PidInbox 3);
     OpUnsubscribeId "a" 2; OpPublish (PT.new 4) (fun _ => true) "a"]).
Proof. apply topics_invariant. reflexivity. Defined.

(** ** Refinement of a relation

    The contract: which process is subscribed to which topic, and under which
    id. *)
Definition Subs : Type := Pid -> string -> N -> Prop.

Definition subs_of (r : TopicRouter) : Subs :=
  fun q topic id => (id, PidInbox q) ∈ Topics.sinks_of r topic.

Definition spec_step (fresh : N) (S : Subs) (op : TopicOp) : Subs := fun q topic' id' =>
  match op with
  | OpSubscribe topic (PidInbox p) =>
      S q topic' id' \/ (q = p /\ topic' = topic /\ id' = fresh /\ forall i, ~ S p topic i)
  | OpSubscribe _ (ExternalStream _) => S q topic' id'
  | OpUnsubscribe p topic => S q topic' id' /\ ~ (q = p /\ topic' = topic)
  | OpUnsubscribeId topic id => S q topic' id' /\ ~ (topic' = topic /\ id' = id)
  | OpUnsubscribeAll p => S q topic' id' /\ q <> p
  | OpPublish t closed topic => S q topic' id' /\ ~ (topic' = topic /\ Topics.is_alive t q = false)
  end.

(** Each operation of the router refines the relation: subscribing adds
    the pair unless the process is already subscribed, each unsubscription
    removes exactly what it names, and a publication removes exactly the dead
    processes of its topic while it returns exactly the live ones. *)
Theorem topics_refine r op q topic' id' :
  topics_wf r ->
  (subs_of (topic_step r op) q topic' id' <->
   spec_step (next_subscriber r) (subs_of r) op q topic' id') /\
  (forall t closed topic, op = OpPublish t closed topic ->
     q ∈ (Topics.live_subscribers t closed r topic).2 <->
     Topics.is_alive t q = true /\ exists id, subs_of r q topic id).
Proof.
  intros Hwf. split.
  - unfold subs_of. destruct op as [topic sink|p topic|topic id|p|t closed topic]; cbn [topic_step spec_step].
    + destruct (subscribe_sink_cases r topic sink) as [(id & p & -> & Hin & ->)|[Hnew ->]]; cbn [fst].
      { split; [by left|]. intros [?|(-> & -> & -> & Hno)]; [done|]. by destruct (Hno id). }
      rewrite sinks_insert. fold (Topics.sinks_of r topic').
      case_decide as Heq; [subst topic'|destruct sink; [|done]; split; [by left|naive_solver]].
      rewrite elem_of_app, list_elem_of_singleton. destruct sink as [p|c]; [|naive_solver].
      split; [|naive_solver].
      intros [?|[= -> ->]]; [by left|right]. repeat split. intros i Hi. apply (Hnew p eq_refl). by exists i.
    + rewrite sinks_unsubscribe. case_decide; [rewrite list_elem_of_filter|]; subst.
      * unfold Topics.is_pid. cbn. naive_solver.
      * naive_solver.
    + rewrite sinks_unsubscribe_id. case_decide; [rewrite list_elem_of_filter|]; subst; cbn; naive_solver.
    + rewrite sinks_unsubscribe_all, list_elem_of_filter. unfold Topics.is_pid. cbn. naive_solver.
    + rewrite sinks_live_sinks by done.
      case_decide; [rewrite list_elem_of_filter|]; subst; cbn; [|naive_solver].
      destruct (Topics.is_alive t q); naive_solver.
  - intros t closed topic _. unfold Topics.live_subscribers, Topics.live_sinks. cbn [snd].
    rewrite list_elem_of_omap. unfold subs_of. split.
    + intros ([i s] & [Hl Hin]%list_elem_of_filter & Hp). unfold Topics.sink_pid in Hp. cbn in *.
      destruct s; simplify_eq/=. eauto.
    + intros (Hal & id & Hin). exists (id, PidInbox q). split; [|done].
      by apply list_elem_of_filter.
Qed.

Lemma topics_refine_witness :
  let r := (Topics.subscribe_sink (Topics.new 1) "a" (PidInbox 3)).1 in
  subs_of (topic_step r (OpUnsubscribe 3 "a")) 3 "a" 1 <->
  spec_step (next_subscriber r) (subs_of r) (OpUnsubscribe 3 "a") 3 "a" 1.
Proof.
  apply (topics_refine (Topics.subscribe_sink (Topics.new 1) "a" (PidInbox 3)).1
    (OpUnsubscribe 3 "a") 3 "a" 1).
  apply (subscribe_wf (Topics.new 1)); [reflexivity|].
  intros topic. repeat split; constructor.
Defined.
