(* ===== verification/Service.v ===== *)
(** The service registry: crates/clawft-kernel/src/service.rs.  Running
    services (a handle with a name and a type), service entries (who owns a
    name and how to reach it), and the contracts anchored on the chain. *)

From S2P Require Import Prelude Codec Process.
Open Scope N_scope.

Inductive ServiceType := SCore | SPlugin | SCron | SApi | SCustom (label : string).

Definition service_type_to_string (t : ServiceType) : string :=
  match t with
  | SCore => "core"
  | SPlugin => "plugin"
  | SCron => "cron"
  | SApi => "api"
  | SCustom s => "custom(" +:+ s +:+ ")"
  end.

Inductive ServiceEndpoint :=
| AgentInbox (p : Pid)
| External (url : string)
| Container (id : string).

Inductive ServiceAuditLevel := AuditFull | GateOnly.

Record ServiceEntry := mkService {
  se_name : string;
  owner_pid : option Pid;
  endpoint : ServiceEndpoint;
  audit_level : ServiceAuditLevel;
  registered_at : Z;
}.

(** A registered implementation: what the registry reads of it. *)
Record SystemService := mkSystem {
  sv_name : string;
  sv_type : ServiceType;
  sv_handle : N;
}.

Record ServiceRegistry := mkRegistry {
  services : gmap string SystemService;
  entries_ : gmap string ServiceEntry;
}.

Record ServiceContract := mkContract {
  sc_service_name : string;
  sc_version : string;
  sc_methods : list string;
  sc_content_hash : string;
}.

Module Services.

Definition new : ServiceRegistry := mkRegistry ∅ ∅.

(** [ServiceRegistry::register] *)
Definition register (r : ServiceRegistry) (s : SystemService) : ServiceRegistry * result unit string :=
  match services r !! sv_name s with
  | Some _ => (r, Err ("service already registered: " +:+ sv_name s))
  | None => (mkRegistry (<[sv_name s := s]> (services r)) (entries_ r), Ok tt)
  end.

Definition unregister (r : ServiceRegistry) (name : string) : ServiceRegistry * option SystemService :=
  (mkRegistry (delete name (services r)) (entries_ r), services r !! name).

Definition get (r : ServiceRegistry) (name : string) : option SystemService := services r !! name.

Definition list_services (r : ServiceRegistry) : list (string * ServiceType) :=
  (fun kv => (kv.1, sv_type kv.2)) <$> map_to_list (services r).

(** [ServiceRegistry::register_entry] *)
Definition register_entry (r : ServiceRegistry) (e : ServiceEntry) : ServiceRegistry * result unit string :=
  match entries_ r !! se_name e with
  | Some _ => (r, Err ("service entry already registered: " +:+ se_name e))
  | None => (mkRegistry (services r) (<[se_name e := e]> (entries_ r)), Ok tt)
  end.

Definition get_entry (r : ServiceRegistry) (name : string) : option ServiceEntry := entries_ r !! name.

(** [ServiceRegistry::resolve_target] *)
Definition resolve_target (r : ServiceRegistry) (name : string) : option Pid :=
  match entries_ r !! name with Some e => owner_pid e | None => None end.

Definition unregister_entry (r : ServiceRegistry) (name : string) : ServiceRegistry * option ServiceEntry :=
  (mkRegistry (services r) (delete name (entries_ r)), entries_ r !! name).

Definition len (r : ServiceRegistry) : N := N.of_nat (size (services r)).

(** [ServiceRegistry::register_contract] *)
Definition register_contract (c : ServiceContract) : AuditReq :=
  mkAudit (sc_service_name c) "service.contract.register"
    (Some (JObj [("service", JStr (sc_service_name c)); ("version", JStr (sc_version c));
                 ("methods", JArr (map JStr (sc_methods c))); ("hash", JStr (sc_content_hash c))])).

(** [ServiceRegistry::register_with_contract]; [content_hash] is the digest of
    the serialised contract content, in hexadecimal. *)
Definition register_with_contract (content_hash : Json -> string) (r : ServiceRegistry)
  (s : SystemService) (methods : list string) : ServiceRegistry * list AuditReq * result unit string :=
  match register r s with
  | (r, Err e) => (r, [], Err e)
  | (r, Ok _) =>
      let content := JObj [("service", JStr (sv_name s));
                           ("type", JStr (service_type_to_string (sv_type s)));
                           ("methods", JArr (map JStr methods))] in
      let contract := mkContract (sv_name s) "1.0.0" methods (content_hash content) in
      (r, [register_contract contract], Ok tt)
  end.

End Services.
