(* ===== verification/A2A.v ===== *)
(** The agent-to-agent router: crates/clawft-kernel/src/a2a.rs.  Per-process
    inboxes (bounded channels), the whole of [send] with its sender check,
    routing gate and the delivery of every kind of target, and the tracking of
    requests awaiting a response.

    Channels are a shared store: the router holds the sending half of an inbox
    by its identifier, the agent holds the receiving half.  The mesh runtime
    and the remote forwarder are code behind network I/O: what the router asks
    of them is returned as a list of remote sends. *)

From S2P Require Import Prelude Codec Process Capability RateLimit Governance Gate Ipc Topic Service.
Open Scope N_scope.

Definition DEFAULT_INBOX_CAPACITY : N := 1024.

(** A bounded channel: what is queued, and whether its receiver is alive. *)
Record Chan (A : Type) := mkChan {
  ch_queue : list A;
  ch_open : bool;
  ch_capacity : N;
}.
Arguments mkChan {A}. Arguments ch_queue {A}. Arguments ch_open {A}. Arguments ch_capacity {A}.

Inductive TrySendError := FullErr | ClosedErr.

(** [mpsc::Sender::try_send] *)
Definition try_send {A} (c : Chan A) (x : A) : result (Chan A) TrySendError :=
  if negb (ch_open c) then Err ClosedErr
  else if ch_capacity c <=? lenN (ch_queue c) then Err FullErr
  else Ok (mkChan (ch_queue c ++ [x]) true (ch_capacity c)).

Record A2ARouter (G : Type) := mkRouter {
  ra_table : ProcessTable;
  ra_topics : TopicRouter;
  ra_services : option ServiceRegistry;
  ra_inboxes : gmap Pid N;
  ra_chans : gmap N (Chan KernelMessage);
  ra_next_chan : N;
  ra_streams : gmap N (Chan bytes);
  ra_pending : gmap string N;
  ra_slots : gmap N (option KernelMessage);
  ra_next_slot : N;
  ra_gate : option G;
}.
Arguments mkRouter {G}. Arguments ra_table {G}. Arguments ra_topics {G}. Arguments ra_services {G}.
Arguments ra_inboxes {G}. Arguments ra_chans {G}. Arguments ra_next_chan {G}.
Arguments ra_streams {G}. Arguments ra_pending {G}. Arguments ra_slots {G}.
Arguments ra_next_slot {G}. Arguments ra_gate {G}.

(** What a remote transport answers: the forwarder of service mode, or the
    mesh runtime with the peers subscribed to a topic. *)
Record Mesh := mkMesh {
  mesh_topic_peers : string -> list string;
  mesh_send : string -> KernelMessage -> result unit string;
}.

Definition Forwarder : Type := string -> KernelMessage -> result unit KernelError.

Section Router.
Context {G : Type} `{GateBackend G}.
Context (dbg_str : string -> string) (msg_to_vec : KernelMessage -> option bytes)
  (forwarder : option Forwarder) (mesh : option Mesh).

Abbreviation Router := (A2ARouter G).

Definition set_inboxes (r : Router) (ib : gmap Pid N) (ch : gmap N (Chan KernelMessage)) (n : N) : Router :=
  mkRouter (ra_table r) (ra_topics r) (ra_services r) ib ch n (ra_streams r)
    (ra_pending r) (ra_slots r) (ra_next_slot r) (ra_gate r).

Definition set_topics (r : Router) (t : TopicRouter) : Router :=
  mkRouter (ra_table r) t (ra_services r) (ra_inboxes r) (ra_chans r) (ra_next_chan r)
    (ra_streams r) (ra_pending r) (ra_slots r) (ra_next_slot r) (ra_gate r).

Definition set_streams (r : Router) (s : gmap N (Chan bytes)) : Router :=
  mkRouter (ra_table r) (ra_topics r) (ra_services r) (ra_inboxes r) (ra_chans r) (ra_next_chan r)
    s (ra_pending r) (ra_slots r) (ra_next_slot r) (ra_gate r).

Definition set_gate_state (r : Router) (g : option G) : Router :=
  mkRouter (ra_table r) (ra_topics r) (ra_services r) (ra_inboxes r) (ra_chans r) (ra_next_chan r)
    (ra_streams r) (ra_pending r) (ra_slots r) (ra_next_slot r) g.

Definition set_pending (r : Router) (p : gmap string N) (s : gmap N (option KernelMessage)) (n : N)
  : Router :=
  mkRouter (ra_table r) (ra_topics r) (ra_services r) (ra_inboxes r) (ra_chans r) (ra_next_chan r)
    (ra_streams r) p s n (ra_gate r).

(** [A2ARouter::new] *)
Definition router_new (t : ProcessTable) (topics : TopicRouter) : Router :=
  mkRouter t topics None ∅ ∅ 0 ∅ ∅ ∅ 0 None.

Definition with_service_registry (r : Router) (reg : ServiceRegistry) : Router :=
  mkRouter (ra_table r) (ra_topics r) (Some reg) (ra_inboxes r) (ra_chans r) (ra_next_chan r)
    (ra_streams r) (ra_pending r) (ra_slots r) (ra_next_slot r) (ra_gate r).

(** [with_gate], [set_gate]: the first gate stays. *)
Definition set_gate (r : Router) (g : G) : Router :=
  match ra_gate r with None => set_gate_state r (Some g) | Some _ => r end.

(** [A2ARouter::create_inbox]: the receiver is the channel's identifier. *)
Definition create_inbox (r : Router) (p : Pid) : Router * N :=
  let c := ra_next_chan r in
  (set_inboxes r (<[p := c]> (ra_inboxes r))
     (<[c := mkChan [] true DEFAULT_INBOX_CAPACITY]> (ra_chans r)) (c + 1), c).

(** [A2ARouter::remove_inbox] *)
Definition remove_inbox (r : Router) (p : Pid) : Router :=
  set_inboxes r (delete p (ra_inboxes r)) (ra_chans r) (ra_next_chan r).

(** The receiving half: [try_recv], and dropping it. *)
Definition recv (r : Router) (c : N) : Router * option KernelMessage :=
  match ra_chans r !! c with
  | Some ch =>
      match ch_queue ch with
      | m :: q =>
          (set_inboxes r (ra_inboxes r)
             (<[c := mkChan q (ch_open ch) (ch_capacity ch)]> (ra_chans r)) (ra_next_chan r), Some m)
      | [] => (r, None)
      end
  | None => (r, None)
  end.

Definition drop_receiver (r : Router) (c : N) : Router :=
  match ra_chans r !! c with
  | Some ch =>
      set_inboxes r (ra_inboxes r) (<[c := mkChan [] false (ch_capacity ch)]> (ra_chans r))
        (ra_next_chan r)
  | None => r
  end.

(** [A2ARouter::deliver_to_inbox] *)
Definition deliver_to_inbox (r : Router) (p : Pid) (m : KernelMessage) : Router * result unit KernelError :=
  match ra_inboxes r !! p with
  | None => (r, Err (IpcErr ("no inbox for PID " +:+ pretty p)))
  | Some c =>
      match ra_chans r !! c with
      | None => (r, Err (IpcErr ("no inbox for PID " +:+ pretty p)))
      | Some ch =>
          match try_send ch m with
          | Ok ch' => (set_inboxes r (ra_inboxes r) (<[c := ch']> (ra_chans r)) (ra_next_chan r), Ok tt)
          | Err FullErr => (r, Err (IpcErr ("inbox full for PID " +:+ pretty p)))
          | Err ClosedErr => (remove_inbox r p, Err (IpcErr ("inbox closed for PID " +:+ pretty p)))
          end
      end
  end.

(** One sink of a topic publication; the count of deliveries is only logged. *)
Definition publish_sink (from : Pid) (m : KernelMessage) (line : option bytes) (r : Router)
  (s : N * SubscriberSink) : Router :=
  match s.2 with
  | PidInbox q => if negb (q =? from) then (deliver_to_inbox r q m).1 else r
  | ExternalStream c =>
      match line, ra_streams r !! c with
      | Some l, Some ch =>
          match try_send ch l with
          | Ok ch' => set_streams r (<[c := ch']> (ra_streams r))
          | Err _ => r
          end
      | _, _ => r
      end
  end.

Definition is_external (s : N * SubscriberSink) : bool :=
  match s.2 with ExternalStream _ => true | PidInbox _ => false end.

Definition stream_closed (r : Router) (c : N) : bool :=
  match ra_streams r !! c with Some ch => negb (ch_open ch) | None => true end.

(** The [Topic] arm of [send]. *)
Definition send_topic (r : Router) (m : KernelMessage) (topic : string)
  : Router * list (string * KernelMessage) * result unit KernelError :=
  match Checker.check_ipc_topic dbg_str (ra_table r) (msg_from m) topic with
  | Err e => (r, [], Err e)
  | Ok _ =>
      let '(topics, sinks) := Topics.live_sinks (ra_table r) (stream_closed r) (ra_topics r) topic in
      let r := set_topics r topics in
      let line := if existsb is_external sinks then
                    (fun b => b ++ [x0a]) <$> msg_to_vec m else None in
      let r := foldl (publish_sink (msg_from m) m line) r sinks in
      (r, match mesh with
          | Some ms => (fun peer => (peer, m)) <$> mesh_topic_peers ms topic
          | None => []
          end, Ok tt)
  end.

(** One process of a broadcast. *)
Definition broadcast_pid (from : Pid) (m : KernelMessage) (r : Router) (q : Pid) : Router :=
  if negb (q =? from) then
    match Checker.check_ipc_target dbg_str (ra_table r) from q with
    | Ok _ => (deliver_to_inbox r q m).1
    | Err _ => r
    end
  else r.

Definition send_broadcast (r : Router) (m : KernelMessage) : Router :=
  foldl (broadcast_pid (msg_from m) m) r (map_to_list (ra_inboxes r)).*1.

(** [A2ARouter::route_to_service] *)
Definition route_to_service (r : Router) (m : KernelMessage) (name : string)
  : Router * result unit KernelError :=
  match ra_services r with
  | None => (r, Err (IpcErr ("no service registry configured; cannot route to service '"
                             +:+ name +:+ "'")))
  | Some reg =>
      match Services.resolve_target reg name with
      | None => (r, Err (IpcErr ("service not found: '" +:+ name +:+ "'")))
      | Some q =>
          match Checker.check_ipc_target dbg_str (ra_table r) (msg_from m) q with
          | Err e => (r, Err e)
          | Ok _ => deliver_to_inbox r q m
          end
      end
  end.

(** The [RemoteNode] arm of [send]. *)
Definition send_remote (m : KernelMessage) (node : string)
  : list (string * KernelMessage) * result unit KernelError :=
  match forwarder with
  | Some fwd => ([(node, m)], fwd node m)
  | None =>
      match mesh with
      | Some ms =>
          ([(node, m)],
           match mesh_send ms node m with
           | Ok _ => Ok tt
           | Err e => Err (MeshErr ("failed to send to remote node '" +:+ node +:+ "': " +:+ e))
           end)
      | None => ([], Err (MeshErr ("remote routing to node '" +:+ node +:+ "' not yet implemented")))
      end
  end.

(** The routing after the gate: the [match] on the target. *)
Definition route (r : Router) (m : KernelMessage)
  : Router * list (string * KernelMessage) * result unit KernelError :=
  match msg_target m with
  | TProcess q =>
      match Checker.check_ipc_target dbg_str (ra_table r) (msg_from m) q with
      | Err e => (r, [], Err e)
      | Ok _ => let '(r, res) := deliver_to_inbox r q m in (r, [], res)
      end
  | TTopic topic => send_topic r m topic
  | TBroadcast => (send_broadcast r m, [], Ok tt)
  | TService name | TServiceMethod name _ =>
      let '(r, res) := route_to_service r m name in (r, [], res)
  | TKernel => (r, [], Ok tt)
  | TRemoteNode node _ => let '(out, res) := send_remote m node in (r, out, res)
  end.

Definition gate_action (p : MessagePayload) : string :=
  match p with
  | PToolCall name _ => "tool." +:+ name
  | PSignal _ => "ipc.signal"
  | _ => "ipc.send"
  end.

Definition gate_context (m : KernelMessage) : Json :=
  let base := JObj [("from", json_num (msg_from m));
                    ("target", JStr (target_debug dbg_str (msg_target m)));
                    ("layer", JStr "routing")] in
  let base := match msg_from m, msg_target m with
              | 0, TTopic t => json_set "quota_key" (JStr ("0:" +:+ t)) base
              | _, _ => base
              end in
  with_effect_context base (effect_vector A2aRouting).

Definition can_send_state (s : ProcessState) : bool :=
  match s with Running | Suspended => true | _ => false end.

(** [A2ARouter::send] *)
Definition send (now : N) (inst : Instance_) (r : Router) (m : KernelMessage)
  : Router * list AuditReq * list (string * KernelMessage) * result unit KernelError :=
  let from := msg_from m in
  match PT.get (ra_table r) from with
  | None => (r, [], [], Err (ProcessNotFound from))
  | Some sender =>
      if negb (can_send_state (state sender)) then
        (r, [], [], Err (IpcErr ("sender PID " +:+ pretty from +:+ " is not running (state: "
                                 +:+ state_to_string (state sender) +:+ ")")))
      else
        match ra_gate r with
        | Some g =>
            let action := gate_action (msg_payload m) in
            let '(g, audit, decision) :=
              check (mkGateEnv (ra_table r) now inst) g (pretty from) action (gate_context m) in
            let r := set_gate_state r (Some g) in
            match decision with
            | Deny reason _ =>
                (r, audit, [], Err (CapabilityDenied from action ("routing gate denied: " +:+ reason)))
            | Defer _ | Permit _ =>
                let '(r, out, res) := route r m in (r, audit, out, res)
            end
        | None => let '(r, out, res) := route r m in (r, [], out, res)
        end
  end.

(** [A2ARouter::send_checked] *)
Definition send_checked (now : N) (inst : Instance_) (r : Router) (m : KernelMessage) (chain : bool)
  : Router * list AuditReq * list (string * KernelMessage) * result unit KernelError :=
  let '(r, audit, out, res) := send now inst r m in
  (r, (if chain then [send_audit dbg_str m] else []) ++ audit, out, res).

(** ** Requests awaiting a response

    [A2ARouter::request] up to the wait, and the three ways the wait ends. *)
Definition request_begin (now : N) (inst : Instance_) (r : Router) (m : KernelMessage)
  : Router * list AuditReq * list (string * KernelMessage) * result N KernelError :=
  let slot := ra_next_slot r in
  let r := set_pending r (<[msg_id m := slot]> (ra_pending r)) (<[slot := None]> (ra_slots r)) (slot + 1) in
  let '(r, audit, out, res) := send now inst r m in
  match res with
  | Ok _ => (r, audit, out, Ok slot)
  | Err e => (set_pending r (delete (msg_id m) (ra_pending r)) (ra_slots r) (ra_next_slot r),
              audit, out, Err e)
  end.

Inductive WaitEnd := Responded (m : KernelMessage) | ChannelClosed | TimedOutAfter (ms : N).

Definition request_end (r : Router) (id : string) (w : WaitEnd)
  : Router * result KernelMessage KernelError :=
  let removed := set_pending r (delete id (ra_pending r)) (ra_slots r) (ra_next_slot r) in
  match w with
  | Responded m => (r, Ok m)
  | ChannelClosed => (removed, Err (IpcErr "response channel closed"))
  | TimedOutAfter ms => (removed, Err (TimeoutErr ("request " +:+ id) ms))
  end.

(** [A2ARouter::try_complete_request] *)
Definition try_complete_request (r : Router) (m : KernelMessage) : Router * bool :=
  match correlation_id m with
  | Some id =>
      match ra_pending r !! id with
      | Some slot =>
          (set_pending r (delete id (ra_pending r)) (<[slot := Some m]> (ra_slots r)) (ra_next_slot r),
           true)
      | None => (r, false)
      end
  | None => (r, false)
  end.

Definition inbox_count (r : Router) : N := N.of_nat (size (ra_inboxes r)).
Definition has_inbox (r : Router) (p : Pid) : bool := bool_decide (is_Some (ra_inboxes r !! p)).
Definition pending_request_count (r : Router) : N := N.of_nat (size (ra_pending r)).


(** ** Invariant

    Each process has its own channel, every channel is known and within its
    capacity. *)
Record router_wf (r : Router) : Prop := {
  wf_own p q c : ra_inboxes r !! p = Some c -> ra_inboxes r !! q = Some c -> p = q;
  wf_known p c : ra_inboxes r !! p = Some c -> is_Some (ra_chans r !! c);
  wf_bound c ch : ra_chans r !! c = Some ch ->
    c < ra_next_chan r /\ lenN (ch_queue ch) <= ch_capacity ch;
}.

(** The part of the state that delivery reads and writes. *)
Definition core (r : Router) := (ra_inboxes r, ra_chans r, ra_next_chan r).

Lemma wf_core r r' : core r = core r' -> router_wf r -> router_wf r'.
Proof.
  unfold core. intros [= Hi Hc Hn] [H1 H2 H3].
  split; [intros p q c|intros p c|intros c ch]; rewrite <- ?Hi, <- ?Hc, <- ?Hn; eauto.
Qed.

Lemma deliver_core r r' p m :
  core r = core r' -> core (deliver_to_inbox r p m).1 = core (deliver_to_inbox r' p m).1.
Proof.
  unfold core. intros [= Hi Hc Hn]. unfold deliver_to_inbox. rewrite Hi, Hc.
  repeat case_match; cbn; congruence.
Qed.

Lemma deliver_table r p m : ra_table (deliver_to_inbox r p m).1 = ra_table r.
Proof. unfold deliver_to_inbox. by repeat case_match. Qed.

(** A channel that can take a message, and the channel that has taken it. *)
Definition ready (ch : Chan KernelMessage) : Prop :=
  ch_open ch = true /\ lenN (ch_queue ch) < ch_capacity ch.

Definition push (ch : Chan KernelMessage) (m : KernelMessage) : Chan KernelMessage :=
  mkChan (ch_queue ch ++ [m]) true (ch_capacity ch).

Lemma try_send_ready ch (m : KernelMessage) : ready ch -> try_send ch m = Ok (push ch m).
Proof.
  intros [Ho Hl]. unfold try_send. rewrite Ho. cbn.
  by rewrite (proj2 (N.leb_gt _ _)).
Qed.

Lemma try_send_ok {A} (ch ch' : Chan A) x :
  try_send ch x = Ok ch' -> lenN (ch_queue ch') <= ch_capacity ch' /\
    ch_queue ch' = ch_queue ch ++ [x].
Proof.
  unfold try_send. destruct (ch_open ch); [|done]. cbn.
  destruct (N.leb_spec (ch_capacity ch) (lenN (ch_queue ch))); [done|].
  intros [= <-]. cbn. rewrite lenN_app. unfold lenN in *. cbn. split; [lia|done].
Qed.

Lemma deliver_wf r p m : router_wf r -> router_wf (deliver_to_inbox r p m).1.
Proof.
  intros [H1 H2 H3]. unfold deliver_to_inbox.
  destruct (ra_inboxes r !! p) as [c|] eqn:Hp; [|by split].
  destruct (ra_chans r !! c) as [ch|] eqn:Hch; [|by split].
  destruct (try_send ch m) as [ch'|[]] eqn:Ht; cbn; [|by split|].
  - apply try_send_ok in Ht as [Hle _]. destruct (H3 c ch Hch) as [Hc _].
    split; cbn; [done|..].
    + intros q c' Hq. destruct (decide (c = c')) as [->|]; simplify_map_eq; eauto.
    + intros c' ch'' Hc'. destruct (decide (c = c')) as [->|]; simplify_map_eq; eauto.
  - split; cbn; [|..|done].
    + intros q q' c' [_ ?]%lookup_delete_Some [_ ?]%lookup_delete_Some. eauto.
    + intros q c' [_ ?]%lookup_delete_Some. eauto.
Qed.

Lemma deliver_other r p m q c :
  router_wf r -> p <> q -> ra_inboxes r !! q = Some c ->
  ra_inboxes (deliver_to_inbox r p m).1 !! q = Some c /\
  ra_chans (deliver_to_inbox r p m).1 !! c = ra_chans r !! c.
Proof.
  intros [H1 _ _] Hne Hq. unfold deliver_to_inbox.
  destruct (ra_inboxes r !! p) as [c'|] eqn:Hp; [|done].
  assert (c' <> c) by (intros ->; eauto).
  destruct (ra_chans r !! c') as [ch|]; [|done].
  destruct (try_send ch m) as [ch'|[]]; cbn; [|done|]; simplify_map_eq; done.
Qed.

Lemma deliver_self r q m c ch :
  ra_inboxes r !! q = Some c -> ra_chans r !! c = Some ch -> ready ch ->
  ra_inboxes (deliver_to_inbox r q m).1 !! q = Some c /\
  ra_chans (deliver_to_inbox r q m).1 !! c = Some (push ch m) /\
  (deliver_to_inbox r q m).2 = Ok tt.
Proof.
  intros Hq Hc Hr. unfold deliver_to_inbox. rewrite Hq, Hc, try_send_ready by done.
  cbn. simplify_map_eq. done.
Qed.

(** A fan-out that touches each process at most once. *)
Section FanOut.
Context {A : Type} (step : Router -> A -> Router) (touch : A -> option Pid) (m : KernelMessage)
  (T : ProcessTable).
Context (step_table : forall r x, ra_table r = T -> ra_table (step r x) = T).
Context (step_core : forall r x, ra_table r = T ->
  core (step r x) = match touch x with
                    | Some p => core (deliver_to_inbox r p m).1
                    | None => core r
                    end).

Lemma step_wf r x : ra_table r = T -> router_wf r -> router_wf (step r x).
Proof.
  intros Ht Hwf. pose proof (step_core r x Ht) as Hc. destruct (touch x) as [p|].
  - eapply wf_core; [symmetry; exact Hc|]. by apply deliver_wf.
  - eapply wf_core; [symmetry; exact Hc|]. done.
Qed.

Lemma step_chan r x q c :
  ra_table r = T -> router_wf r -> touch x <> Some q -> ra_inboxes r !! q = Some c ->
  ra_inboxes (step r x) !! q = Some c /\ ra_chans (step r x) !! c = ra_chans r !! c.
Proof.
  intros Ht Hwf Hne Hq. pose proof (step_core r x Ht) as Hc. unfold core in Hc.
  destruct (touch x) as [p|]; injection Hc as -> -> _; [|done].
  apply deliver_other; [done|congruence|done].
Qed.

Lemma fan_untouched l : forall r q c,
  ra_table r = T -> router_wf r -> q ∉ omap touch l -> ra_inboxes r !! q = Some c ->
  ra_chans (foldl step r l) !! c = ra_chans r !! c.
Proof.
  induction l as [|x l IH]; intros r q c Ht Hwf Hni Hq; [done|]. cbn [foldl].
  assert (touch x <> Some q /\ q ∉ omap touch l) as [Hx Hl].
  { cbn in Hni. destruct (touch x); set_solver. }
  destruct (step_chan r x q c Ht Hwf Hx Hq) as [Hq' Hc].
  rewrite (IH _ q c); [done|by apply step_table|by apply step_wf|done..].
Qed.

Lemma fan_chan l : forall r q c ch,
  ra_table r = T -> router_wf r -> NoDup (omap touch l) ->
  ra_inboxes r !! q = Some c -> ra_chans r !! c = Some ch -> ready ch ->
  ra_chans (foldl step r l) !! c
  = Some (if decide (q ∈ omap touch l) then push ch m else ch).
Proof.
  induction l as [|x l IH]; intros r q c ch Ht Hwf Hnd Hq Hc Hr; [done|]. cbn [foldl].
  pose proof (step_wf r x Ht Hwf) as Hwf'. pose proof (step_table r x Ht) as Ht'.
  destruct (decide (touch x = Some q)) as [Hx|Hx].
  - cbn [omap list_omap] in *. rewrite Hx in *. apply NoDup_cons in Hnd as [Hni _].
    rewrite decide_True by left.
    destruct (deliver_self r q m c ch Hq Hc Hr) as (Hq' & Hc' & _).
    pose proof (step_core r x Ht) as Hcore. rewrite Hx in Hcore. injection Hcore as Hi Hch _.
    rewrite (fan_untouched l _ q c); [by rewrite Hch|done..|by rewrite Hi].
  - destruct (step_chan r x q c Ht Hwf Hx Hq) as [Hq' Hc'].
    assert (NoDup (omap touch l) /\ (q ∈ omap touch (x :: l) <-> q ∈ omap touch l)) as [Hnd' Hiff].
    { cbn [omap list_omap] in *. destruct (touch x) as [p|]; [|done].
      apply NoDup_cons in Hnd as [_ ?]. split; [done|]. rewrite elem_of_cons.
      split; [intros [->|?]; done|auto]. }
    rewrite (IH _ q c ch) by (done || congruence).
    f_equal. by apply decide_ext.
Qed.

Lemma fan_wf l : forall r, ra_table r = T -> router_wf r -> router_wf (foldl step r l).
Proof.
  induction l as [|x l IH]; intros r Ht Hwf; [done|]. cbn.
  apply IH; [by apply step_table|by apply step_wf].
Qed.

End FanOut.

(** *** The two fan-outs *)

Definition topic_touch (from : Pid) (x : N * SubscriberSink) : option Pid :=
  match x.2 with
  | PidInbox q => if negb (q =? from) then Some q else None
  | ExternalStream _ => None
  end.

Lemma publish_sink_table from m line r x : ra_table (publish_sink from m line r x) = ra_table r.
Proof.
  unfold publish_sink. repeat case_match; cbn; rewrite ?deliver_table; done.
Qed.

Lemma publish_sink_core from m line r x :
  core (publish_sink from m line r x)
  = match topic_touch from x with
    | Some p => core (deliver_to_inbox r p m).1
    | None => core r
    end.
Proof. unfold publish_sink, topic_touch. repeat case_match; done. Qed.

Definition broadcast_touch (t : ProcessTable) (from : Pid) (q : Pid) : option Pid :=
  if negb (q =? from) && is_ok (Checker.check_ipc_target dbg_str t from q) then Some q else None.

Lemma broadcast_table from m r q : ra_table (broadcast_pid from m r q) = ra_table r.
Proof. unfold broadcast_pid. repeat case_match; rewrite ?deliver_table; done. Qed.

Lemma broadcast_core from m r q :
  core (broadcast_pid from m r q)
  = match broadcast_touch (ra_table r) from q with
    | Some p => core (deliver_to_inbox r p m).1
    | None => core r
    end.
Proof. unfold broadcast_pid, broadcast_touch. destruct (negb _); [|done]. by case_match. Qed.

Lemma NoDup_omap_touch {A} (f : A -> option Pid) (g : A -> option Pid) l :
  (forall x p, f x = Some p -> g x = Some p) -> NoDup (omap g l) -> NoDup (omap f l).
Proof.
  intros Hfg. induction l as [|x l IH]; [done|]. cbn [omap list_omap]. intros Hnd.
  destruct (f x) as [p|] eqn:Hf.
  - rewrite (Hfg _ _ Hf) in Hnd. apply NoDup_cons in Hnd as [Hni Hnd].
    apply NoDup_cons. split; [|by apply IH].
    intros (y & Hy & Hyp)%list_elem_of_omap. apply Hni, list_elem_of_omap. eauto.
  - apply IH. destruct (g x); [by apply NoDup_cons in Hnd as [_ ?]|done].
Qed.

(** ** Who a message is for *)

(** The checks on the sender and the answer of the gate. *)
Definition sender_ok (r : Router) (m : KernelMessage) : Prop :=
  exists e, PT.get (ra_table r) (msg_from m) = Some e /\ can_send_state (state e) = true.

Definition gate_ok (now : N) (inst : Instance_) (r : Router) (m : KernelMessage) : Prop :=
  forall g, ra_gate r = Some g ->
    is_deny (check (mkGateEnv (ra_table r) now inst) g (pretty (msg_from m))
               (gate_action (msg_payload m)) (gate_context m)).2 = false.

(** The processes a message is delivered to, by its target. *)
Definition addressed (r : Router) (m : KernelMessage) (q : Pid) : Prop :=
  let from := msg_from m in
  let may_reach p := Checker.check_ipc_target dbg_str (ra_table r) from p = Ok tt in
  match msg_target m with
  | TProcess p => q = p /\ may_reach p
  | TTopic topic =>
      q <> from /\ Checker.check_ipc_topic dbg_str (ra_table r) from topic = Ok tt /\
      subscribed (ra_topics r) q topic /\ Topics.is_alive (ra_table r) q = true
  | TBroadcast => q <> from /\ may_reach q
  | TService name | TServiceMethod name _ =>
      exists reg, ra_services r = Some reg /\ Services.resolve_target reg name = Some q /\ may_reach q
  | TKernel | TRemoteNode _ _ => False
  end.

(** Reaching the checks from the gated state. *)
Lemma set_gate_fields r g :
  core (set_gate_state r g) = core r /\ ra_table (set_gate_state r g) = ra_table r /\
  (forall m q, addressed (set_gate_state r g) m q <-> addressed r m q).
Proof. done. Qed.

Lemma ok_tt (x : result unit KernelError) : is_ok x = true <-> x = Ok tt.
Proof. destruct x as [[]|]; cbn; split; done. Qed.

(** The channel of [q] after a single delivery to [p]. *)
Lemma deliver_chan r p m q c ch :
  router_wf r -> ra_inboxes r !! q = Some c -> ra_chans r !! c = Some ch -> ready ch ->
  ra_chans (deliver_to_inbox r p m).1 !! c = Some (if decide (q = p) then push ch m else ch).
Proof.
  intros Hwf Hq Hc Hr. destruct (decide (q = p)) as [->|Hne].
  - by destruct (deliver_self r p m c ch Hq Hc Hr) as (_ & ? & _).
  - destruct (deliver_other r p m q c Hwf) as [_ ->]; done.
Qed.

Lemma send_topic_chan r m topic q c ch :
  router_wf r -> topics_wf (ra_topics r) -> msg_target m = TTopic topic ->
  ra_inboxes r !! q = Some c -> ra_chans r !! c = Some ch -> ready ch ->
  (addressed r m q -> ra_chans (send_topic r m topic).1.1 !! c = Some (push ch m)) /\
  (~ addressed r m q -> ra_chans (send_topic r m topic).1.1 !! c = Some ch).
Proof.
  intros Hwf Htw Htgt Hq Hc Hr. unfold addressed. rewrite Htgt. unfold send_topic.
  destruct (Checker.check_ipc_topic _ _ _ _) as [[]|e]; cbn [fst]; [|naive_solver].
  unfold Topics.live_sinks. cbn [fst snd].
  set (topics := match (filter _ _).*1 with [] => _ | _ => _ end).
  set (live := filter _ _).
  set (line := if existsb is_external live then _ else _).
  rewrite (fan_chan _ (topic_touch (msg_from m)) m (ra_table r)
    (fun r' x Ht => eq_trans (publish_sink_table _ _ _ r' x) Ht)
    (fun r' x _ => publish_sink_core _ _ _ r' x) live (set_topics r topics) q c ch); try done.
  2:{ by eapply wf_core; [|exact Hwf]. }
  2:{ destruct (Htw topic) as (_ & _ & Hnd).
      eapply NoDup_omap_touch; [|eapply (list_wf_filter _ (next_subscriber (ra_topics r))), Htw].
      intros [i [p|s]] p'; unfold topic_touch, Topics.sink_pid; cbn; [|done].
      destruct (negb _); [by intros [= ->]|done]. }
  assert (q ∈ omap (topic_touch (msg_from m)) live <->
          q <> msg_from m /\ subscribed (ra_topics r) q topic /\ Topics.is_alive (ra_table r) q = true)
    as Hiff.
  { rewrite list_elem_of_omap. split.
    - intros ([i s] & [Hl Hin]%list_elem_of_filter & Ht). unfold topic_touch in Ht. cbn in *.
      destruct s as [p|]; [|done]. destruct (N.eqb_spec p (msg_from m)); simplify_eq/=.
      split; [done|]. split; [by exists i|done].
    - intros (Hne & [i Hin] & Hal). exists (i, PidInbox q). split.
      + apply list_elem_of_filter. done.
      + unfold topic_touch. cbn. destruct (N.eqb_spec q (msg_from m)); done. }
  split; intros Hadd.
  - rewrite decide_True; [done|]. naive_solver.
  - rewrite decide_False; [done|]. naive_solver.
Qed.

Lemma send_broadcast_chan r m q c ch :
  router_wf r -> msg_target m = TBroadcast ->
  ra_inboxes r !! q = Some c -> ra_chans r !! c = Some ch -> ready ch ->
  (addressed r m q -> ra_chans (send_broadcast r m) !! c = Some (push ch m)) /\
  (~ addressed r m q -> ra_chans (send_broadcast r m) !! c = Some ch).
Proof.
  intros Hwf Htgt Hq Hc Hr. unfold addressed. rewrite Htgt. unfold send_broadcast.
  set (pids := (map_to_list (ra_inboxes r)).*1).
  assert (NoDup pids) as Hnd by apply NoDup_fst_map_to_list.
  assert (q ∈ pids) as Hin.
  { apply list_elem_of_fmap. exists (q, c). split; [done|]. by apply elem_of_map_to_list. }
  rewrite (fan_chan (broadcast_pid (msg_from m) m) (broadcast_touch (ra_table r) (msg_from m)) m (ra_table r)
    (fun r' x Ht => eq_trans (broadcast_table _ _ r' x) Ht)
    (fun r' x Ht => eq_trans (broadcast_core _ _ r' x)
       (f_equal (fun t => match broadcast_touch t (msg_from m) x with
                          | Some p => core (deliver_to_inbox r' p m).1
                          | None => core r' end) Ht))
    pids r q c ch); try done.
  2:{ apply (NoDup_omap_touch _ Some).
      - intros x p. unfold broadcast_touch. destruct (_ && _); congruence.
      - clear Hin. induction Hnd; cbn; [constructor|]. constructor; [|done].
        by rewrite list_elem_of_omap; intros (? & ? & [= ->]). }
  assert (q ∈ omap (broadcast_touch (ra_table r) (msg_from m)) pids <->
          q <> msg_from m /\ Checker.check_ipc_target dbg_str (ra_table r) (msg_from m) q = Ok tt) as Hiff.
  { rewrite list_elem_of_omap. unfold broadcast_touch. split.
    - intros (x & _ & Hx). destruct (N.eqb_spec x (msg_from m)); [done|]. cbn in Hx.
      destruct (is_ok _) eqn:Hok; [|done]. injection Hx as ->. by apply ok_tt in Hok.
    - intros [Hne Hok%ok_tt]. exists q. split; [done|].
      destruct (N.eqb_spec q (msg_from m)); [done|]. by rewrite Hok. }
  split; intros Hadd.
  - rewrite decide_True; [done|]. naive_solver.
  - rewrite decide_False; [done|]. naive_solver.
Qed.


Lemma service_chan r m name q c ch :
  router_wf r -> ra_inboxes r !! q = Some c -> ra_chans r !! c = Some ch -> ready ch ->
  let to_q := exists reg, ra_services r = Some reg /\ Services.resolve_target reg name = Some q /\
    Checker.check_ipc_target dbg_str (ra_table r) (msg_from m) q = Ok tt in
  (to_q -> ra_chans (route_to_service r m name).1 !! c = Some (push ch m)) /\
  (~ to_q -> ra_chans (route_to_service r m name).1 !! c = Some ch).
Proof.
  intros Hwf Hq Hc Hr. cbn zeta. unfold route_to_service.
  destruct (ra_services r) as [reg|]; [|naive_solver].
  destruct (Services.resolve_target reg name) as [p|] eqn:Hp; [|naive_solver].
  pose proof (deliver_chan r p m q c ch Hwf Hq Hc Hr) as Hd.
  destruct (Checker.check_ipc_target dbg_str (ra_table r) (msg_from m) p) as [[]|] eqn:Hk; cbn [fst].
  - rewrite Hd. case_decide; subst; naive_solver.
  - split; [|done]. intros (? & [= <-] & ? & ?). congruence.
Qed.

Lemma route_chan r m q c ch :
  router_wf r -> topics_wf (ra_topics r) ->
  ra_inboxes r !! q = Some c -> ra_chans r !! c = Some ch -> ready ch ->
  (addressed r m q -> ra_chans (route r m).1.1 !! c = Some (push ch m)) /\
  (~ addressed r m q -> ra_chans (route r m).1.1 !! c = Some ch).
Proof.
  intros Hwf Htw Hq Hc Hr. unfold route.
  destruct (msg_target m) as [p|topic| |name|name meth| |node tgt] eqn:Htgt.
  - unfold addressed. rewrite Htgt.
    destruct (Checker.check_ipc_target _ _ _ _) as [[]|]; cbn [fst]; [|naive_solver].
    pose proof (deliver_chan r p m q c ch Hwf Hq Hc Hr) as Hd.
    destruct (deliver_to_inbox r p m) as [r' res]; cbn [fst] in *. rewrite Hd.
    case_decide; naive_solver.
  - by apply send_topic_chan.
  - by apply send_broadcast_chan.
  - pose proof (service_chan r m name q c ch Hwf Hq Hc Hr) as Hs.
    unfold addressed. rewrite Htgt. destruct (route_to_service r m name). done.
  - pose proof (service_chan r m name q c ch Hwf Hq Hc Hr) as Hs.
    unfold addressed. rewrite Htgt. destruct (route_to_service r m name). done.
  - unfold addressed. rewrite Htgt. naive_solver.
  - unfold addressed. rewrite Htgt. destruct (send_remote m node). naive_solver.
Qed.

(** The state a message is routed in, when it gets past the sender check and
    the gate. *)
Lemma send_cases now inst r m :
  (sender_ok r m /\ gate_ok now inst r m /\ exists g audit,
     send now inst r m
     = let '(r', out, res) := route (set_gate_state r g) m in (r', audit, out, res)) \/
  (~ (sender_ok r m /\ gate_ok now inst r m) /\ exists g audit e,
     send now inst r m = (set_gate_state r g, audit, [], Err e)).
Proof.
  unfold send, sender_ok, gate_ok.
  assert (r = set_gate_state r (ra_gate r)) as Hid by (by destruct r).
  destruct (PT.get (ra_table r) (msg_from m)) as [e|].
  2:{ right. split; [by intros [(? & ? & _) _]|]. eexists (ra_gate r), _, _. by rewrite <- Hid. }
  destruct (can_send_state (state e)) eqn:Hst; cbn [negb].
  2:{ right. split; [intros [(e' & [= <-] & ?) _]; congruence|].
      eexists (ra_gate r), _, _. by rewrite <- Hid. }
  destruct (ra_gate r) as [g|] eqn:Hg.
  - destruct (check _ g _ _ _) as [[g' audit] d] eqn:Hck.
    destruct d as [tok|reason|reason rc].
    + left. split; [eauto|]. split; [intros ? [= <-]; by rewrite Hck|]. by eexists (Some g'), audit.
    + left. split; [eauto|]. split; [intros ? [= <-]; by rewrite Hck|]. by eexists (Some g'), audit.
    + right. split; [|by eexists _, _, _]. intros [_ Hgate]. specialize (Hgate g eq_refl).
      by rewrite Hck in Hgate.
  - left. split; [eauto|]. split; [done|]. eexists None, []. by rewrite <- Hid.
Qed.

(** C6: Exactly-once delivery to exactly the addressed processes.  For every
    process whose inbox can take a message, a send appends the message once if
    the sender exists and is running or suspended, the routing gate does not
    deny, and the process is one the target addresses within the sender's IPC
    scope; in every other case its inbox is unchanged. *)
Theorem send_delivers_exactly now inst r m q c ch :
  router_wf r -> topics_wf (ra_topics r) ->
  ra_inboxes r !! q = Some c -> ra_chans r !! c = Some ch -> ready ch ->
  let r' := (send now inst r m).1.1.1 in
  let accepted := sender_ok r m /\ gate_ok now inst r m /\ addressed r m q in
  (accepted -> ra_chans r' !! c = Some (push ch m)) /\
  (~ accepted -> ra_chans r' !! c = Some ch).
Proof.
  intros Hwf Htw Hq Hc Hr. cbn zeta.
  destruct (send_cases now inst r m) as [(Hs & Hg & g & audit & ->)|(Hno & g & audit & e & ->)].
  - pose proof (route_chan (set_gate_state r g) m q c ch) as Hroute.
    destruct (route (set_gate_state r g) m) as [[r' out] res]. cbn [fst] in *.
    destruct Hroute as [H1 H2]; [by apply (wf_core r)|done..|].
    split; [intros (_ & _ & ?); by apply H1|]. intros Hn. apply H2. intros ?. by apply Hn.
  - cbn. split; [|done]. intros (? & ? & _). by destruct Hno.
Qed.

Lemma deliver_ok_iff r q m :
  (deliver_to_inbox r q m).2 = Ok tt <->
  exists c ch, ra_inboxes r !! q = Some c /\ ra_chans r !! c = Some ch /\ ready ch.
Proof.
  split.
  - unfold deliver_to_inbox, try_send. intros Hok. cases.
    eexists _, _. split; [done|]. split; [done|]. split; [by destruct (ch_open _)|by apply N.leb_gt].
  - intros (c & ch & Hq & Hc & Hr). by destruct (deliver_self r q m c ch Hq Hc Hr) as (_ & _ & ?).
Qed.

(** The answer to a direct message is truthful: a send to one process
    succeeds exactly when the sender exists and may send, the routing gate
    does not deny, the target is within the sender's IPC scope, and the
    target has an inbox that is open and not full. *)
Theorem direct_send_reported now inst r m p :
  msg_target m = TProcess p ->
  (send now inst r m).2 = Ok tt <->
  sender_ok r m /\ gate_ok now inst r m /\
  Checker.check_ipc_target dbg_str (ra_table r) (msg_from m) p = Ok tt /\
  exists c ch, ra_inboxes r !! p = Some c /\ ra_chans r !! c = Some ch /\ ready ch.
Proof.
  intros Ht. destruct (send_cases now inst r m) as [(Hs & Hg & g & audit & ->)|(Hno & g & audit & e & ->)].
  - rewrite <- (deliver_ok_iff r p m). unfold route. rewrite Ht. cbn [ra_table set_gate_state].
    destruct (Checker.check_ipc_target _ _ _ _) as [[]|e].
    + assert ((deliver_to_inbox (set_gate_state r g) p m).2 = (deliver_to_inbox r p m).2) as <-
        by (unfold deliver_to_inbox; cbn; by repeat case_match).
      destruct (deliver_to_inbox (set_gate_state r g) p m). cbn. tauto.
    + cbn. split; [done|]. by intros (_ & _ & ? & _).
  - cbn. split; [done|]. intros (? & ? & _). by destruct Hno.
Qed.

(** *** Preservation of the invariant *)

Lemma send_topic_wf r m topic : router_wf r -> router_wf (send_topic r m topic).1.1.
Proof.
  intros Hwf. unfold send_topic. destruct (Checker.check_ipc_topic _ _ _ _); [|done].
  destruct (Topics.live_sinks _ _ _ _) as [topics sinks]. cbn [fst].
  eapply (fan_wf _ (topic_touch (msg_from m)) m (ra_table r)
    (fun r' x Ht => eq_trans (publish_sink_table _ _ _ r' x) Ht)
    (fun r' x _ => publish_sink_core _ _ _ r' x)); [done|]. by apply (wf_core r).
Qed.

Lemma send_broadcast_wf r m : router_wf r -> router_wf (send_broadcast r m).
Proof.
  intros Hwf. unfold send_broadcast.
  eapply (fan_wf (broadcast_pid (msg_from m) m) (broadcast_touch (ra_table r) (msg_from m)) m (ra_table r)
    (fun r' x Ht => eq_trans (broadcast_table _ _ r' x) Ht)); [|done..].
  intros r' x <-. apply broadcast_core.
Qed.

Lemma route_wf r m : router_wf r -> router_wf (route r m).1.1.
Proof.
  intros Hwf. unfold route.
  assert (forall name, router_wf (route_to_service r m name).1) as Hs.
  { intros name. unfold route_to_service. repeat case_match; try done. by apply deliver_wf. }
  destruct (msg_target m) as [p|topic| |name|name meth| |node tgt].
  - destruct (Checker.check_ipc_target _ _ _ _); [|done].
    pose proof (deliver_wf r p m Hwf). destruct (deliver_to_inbox r p m). done.
  - by apply send_topic_wf.
  - by apply send_broadcast_wf.
  - specialize (Hs name). destruct (route_to_service r m name). done.
  - specialize (Hs name). destruct (route_to_service r m name). done.
  - done.
  - by destruct (send_remote m node).
Qed.

Inductive RouterOp :=
| OpCreate (p : Pid)
| OpRemove (p : Pid)
| OpRecv (c : N)
| OpDropReceiver (c : N)
| OpSend (now : N) (inst : Instance_) (m : KernelMessage)
| OpComplete (m : KernelMessage).

Definition router_step (r : Router) (op : RouterOp) : Router :=
  match op with
  | OpCreate p => (create_inbox r p).1
  | OpRemove p => remove_inbox r p
  | OpRecv c => (recv r c).1
  | OpDropReceiver c => drop_receiver r c
  | OpSend now inst m => (send now inst r m).1.1.1
  | OpComplete m => (try_complete_request r m).1
  end.

Lemma create_inbox_wf r p : router_wf r -> router_wf (create_inbox r p).1.
Proof.
  intros [H1 H2 H3].
  assert (forall q, ra_inboxes r !! q <> Some (ra_next_chan r)) as Hfresh.
  { intros q Hq. destruct (H2 _ _ Hq) as [ch Hch]. apply H3 in Hch. lia. }
  split; cbn.
  - intros q q' c Hq Hq'.
    apply lookup_insert_Some in Hq as [[<- <-]|[? Hq]], Hq' as [[<- Heq]|[? Hq']]; eauto.
    + by apply Hfresh in Hq'.
    + subst. by apply Hfresh in Hq.
  - intros q c Hq. destruct (decide (c = ra_next_chan r)) as [->|Hne]; simplify_map_eq; [eauto|].
    apply lookup_insert_Some in Hq as [[? ?]|[? Hq]]; [done|]. eauto.
  - intros c ch [[<- <-]|[? Hc]]%lookup_insert_Some.
    + split; [lia|]. vm_compute. done.
    + destruct (H3 _ _ Hc). split; [lia|done].
Qed.

Lemma set_chan_wf r c ch ch' :
  ra_chans r !! c = Some ch -> lenN (ch_queue ch') <= ch_capacity ch' ->
  router_wf r -> router_wf (set_inboxes r (ra_inboxes r) (<[c := ch']> (ra_chans r)) (ra_next_chan r)).
Proof.
  intros Hc Hle [H1 H2 H3]. destruct (H3 _ _ Hc). split; cbn; [done|..].
  - intros p c' Hp. destruct (decide (c = c')) as [->|]; simplify_map_eq; eauto.
  - intros c' ch'' [[<- <-]|[? ?]]%lookup_insert_Some; eauto.
Qed.

Lemma router_step_wf r op : router_wf r -> router_wf (router_step r op).
Proof.
  intros Hwf. destruct op as [p|p|c|c|now inst m|m]; cbn [router_step].
  - by apply create_inbox_wf.
  - destruct Hwf as [H1 H2 H3]. split; cbn; [..|done].
    + intros q q' c [_ ?]%lookup_delete_Some [_ ?]%lookup_delete_Some. eauto.
    + intros q c [_ ?]%lookup_delete_Some. eauto.
  - unfold recv. destruct (ra_chans r !! c) as [ch|] eqn:Hc; [|done].
    destruct (ch_queue ch) as [|m q] eqn:Hq; [done|]. cbn. eapply set_chan_wf; [done| |done].
    destruct Hwf as [_ _ H3]. destruct (H3 _ _ Hc) as [_ Hle]. rewrite Hq in Hle.
    unfold lenN in *. cbn in *. lia.
  - unfold drop_receiver. destruct (ra_chans r !! c) as [ch|] eqn:Hc; [|done].
    eapply set_chan_wf; [done| |done]. unfold lenN. cbn. lia.
  - destruct (send_cases now inst r m) as [(_ & _ & g & audit & ->)|(_ & g & audit & e & ->)].
    + pose proof (route_wf (set_gate_state r g) m) as Hroute.
      destruct (route (set_gate_state r g) m) as [[r' out] res]. cbn in *.
      apply Hroute. by apply (wf_core r).
    + by apply (wf_core r).
  - unfold try_complete_request. repeat case_match; try done. cbn. by apply (wf_core r).
Qed.

(** Whatever sequence of operations a router goes through, each process
    keeps an inbox channel of its own and no inbox ever holds more messages
    than its capacity. *)
Theorem inboxes_bounded t topics ops :
  let r := foldl router_step (router_new t topics) ops in
  (forall p q c, ra_inboxes r !! p = Some c -> ra_inboxes r !! q = Some c -> p = q) /\
  (forall c ch, ra_chans r !! c = Some ch -> lenN (ch_queue ch) <= ch_capacity ch).
Proof.
  cbn zeta. assert (forall r, router_wf r -> router_wf (foldl router_step r ops)) as Hgen.
  { induction ops as [|op ops IH]; intros r Hwf; [done|]. cbn. apply IH. by apply router_step_wf. }
  destruct (Hgen (router_new t topics)) as [H1 _ H3].
  { split; cbn; [intros ???|intros ??|intros ??]; by rewrite lookup_empty. }
  split; [done|]. intros c ch Hc. by destruct (H3 _ _ Hc).
Qed.

(** A message for a remote node is handed to the transport without any
    look at the sender's capabilities: a running sender that is barred from
    IPC altogether still gets it forwarded, when no gate is attached. *)
Theorem remote_send_unchecked now inst r m e node tgt fwd :
  forwarder = Some fwd -> ra_gate r = None ->
  PT.get (ra_table r) (msg_from m) = Some e -> state e = Running ->
  can_ipc (capabilities e) = false ->
  msg_target m = TRemoteNode node tgt ->
  send now inst r m = (r, [], [(node, m)], fwd node m).
Proof.
  intros Hf Hg He Hst Hipc Ht. unfold send, route, send_remote. by rewrite He, Hst, Hg, Ht, Hf.
Qed.

(** *** Requests *)

Lemma deliver_pending r p m :
  let r' := (deliver_to_inbox r p m).1 in
  ra_pending r' = ra_pending r /\ ra_slots r' = ra_slots r /\ ra_next_slot r' = ra_next_slot r.
Proof. unfold deliver_to_inbox. by repeat case_match. Qed.

Lemma fold_pending {A} (step : Router -> A -> Router) l :
  (forall r x, let r' := step r x in
     ra_pending r' = ra_pending r /\ ra_slots r' = ra_slots r /\ ra_next_slot r' = ra_next_slot r) ->
  forall r, let r' := foldl step r l in
     ra_pending r' = ra_pending r /\ ra_slots r' = ra_slots r /\ ra_next_slot r' = ra_next_slot r.
Proof.
  intros Hstep. induction l as [|x l IH]; intros r; [done|]. cbn [foldl].
  destruct (IH (step r x)) as (-> & -> & ->). apply Hstep.
Qed.

Lemma route_pending r m :
  let r' := (route r m).1.1 in
  ra_pending r' = ra_pending r /\ ra_slots r' = ra_slots r /\ ra_next_slot r' = ra_next_slot r.
Proof.
  cbn zeta. unfold route.
  assert (forall name, let r' := (route_to_service r m name).1 in
    ra_pending r' = ra_pending r /\ ra_slots r' = ra_slots r /\ ra_next_slot r' = ra_next_slot r) as Hs.
  { intros name. unfold route_to_service. repeat case_match; try done. apply deliver_pending. }
  destruct (msg_target m) as [p|topic| |name|name meth| |node tgt].
  - destruct (Checker.check_ipc_target _ _ _ _); [|done].
    pose proof (deliver_pending r p m). by destruct (deliver_to_inbox r p m).
  - unfold send_topic. destruct (Checker.check_ipc_topic _ _ _ _); [|done].
    destruct (Topics.live_sinks _ _ _ _) as [topics sinks]. cbn [fst].
    match goal with |- context [foldl ?f ?r0 sinks] =>
      destruct (fold_pending f sinks) with (r := r0) as (-> & -> & ->); [|done] end.
    intros r' x. unfold publish_sink. repeat case_match; try done. apply deliver_pending.
  - unfold send_broadcast. cbn [fst].
    apply (fold_pending (broadcast_pid (msg_from m) m)).
    intros r' x. unfold broadcast_pid. repeat case_match; try done. apply deliver_pending.
  - specialize (Hs name). by destruct (route_to_service r m name).
  - specialize (Hs name). by destruct (route_to_service r m name).
  - done.
  - by destruct (send_remote m node).
Qed.

Lemma send_pending now inst r m :
  let r' := (send now inst r m).1.1.1 in
  ra_pending r' = ra_pending r /\ ra_slots r' = ra_slots r /\ ra_next_slot r' = ra_next_slot r.
Proof.
  cbn zeta. destruct (send_cases now inst r m) as [(_ & _ & g & audit & ->)|(_ & g & audit & e & ->)];
    [|done].
  pose proof (route_pending (set_gate_state r g) m) as Hr.
  by destruct (route (set_gate_state r g) m) as [[r' out] res].
Qed.

(** Request and response.  A request that was sent is pending under its
    message id; the first message that answers it is handed to the waiting
    caller and to no one else, every later answer is refused; and once the wait
    has timed out an answer is refused too.  A request whose send failed leaves
    nothing pending. *)
Theorem request_answered_once now inst r m reply reply' ms :
  correlation_id reply = Some (msg_id m) -> correlation_id reply' = Some (msg_id m) ->
  let '(r1, _, _, res) := request_begin now inst r m in
  match res with
  | Err _ => ra_pending r1 !! msg_id m = None
  | Ok slot =>
      ra_pending r1 !! msg_id m = Some slot /\ ra_slots r1 !! slot = Some None /\
      (let '(r2, b) := try_complete_request r1 reply in
       b = true /\ ra_slots r2 !! slot = Some (Some reply) /\
       try_complete_request r2 reply' = (r2, false)) /\
      (let '(r2, out) := request_end r1 (msg_id m) (TimedOutAfter ms) in
       out = Err (TimeoutErr ("request " +:+ msg_id m) ms) /\
       try_complete_request r2 reply = (r2, false))
  end.
Proof.
  intros Hr Hr'. unfold request_begin.
  set (r0 := set_pending r _ _ _).
  pose proof (send_pending now inst r0 m) as Hp.
  destruct (send now inst r0 m) as [[[r1 audit] out] [u|e]]; cbn in Hp |- *;
    destruct Hp as (Hpe & Hsl & Hns).
  - unfold try_complete_request. rewrite Hr, Hr'. cbn. rewrite Hpe, Hsl. subst r0. cbn.
    by simplify_map_eq.
  - apply lookup_delete_eq.
Qed.

End Router.

(** ** Examples *)

Module RouterExample.

Definition agent (id : string) (caps : AgentCapabilities) : ProcessEntry :=
  mkEntry 0 id Running caps (mkUsage 0 0 0 0) 0 None.

Definition mute : AgentCapabilities := mkCaps false false false false ScopeNone limits_default.

(** Processes 1, 2 (talkative) and 3 (barred from IPC), the first two with inboxes. *)
Definition table : ProcessTable :=
  let t := (PT.insert (PT.new 8) (agent "a" caps_default)).1.1 in
  let t := (PT.insert t (agent "b" caps_default)).1.1 in
  (PT.insert t (agent "c" mute)).1.1.

Definition router : A2ARouter CapabilityGate :=
  (create_inbox (create_inbox (router_new table (Topics.new 1)) 1).1 2).1.

Definition hello (from : Pid) (target : MessageTarget) : KernelMessage :=
  mkMsg "ipc-7" from target (PText "hello") 0 None None.

Definition dbg (s : string) : string := s.

#[global] Instance gate_instance : GateBackend CapabilityGate := CapabilityGate_backend dbg.

Lemma router_ok : router_wf router.
Proof.
  unfold router. apply create_inbox_wf, create_inbox_wf.
  split; cbn; [intros ???|intros ??|intros ??]; by rewrite lookup_empty.
Qed.

Lemma topics_ok : topics_wf (Topics.new 1).
Proof. intros topic. repeat split; constructor. Qed.

End RouterExample.

Lemma send_delivers_exactly_witness :
  ra_chans (send RouterExample.dbg (fun _ => None) None None 0 None RouterExample.router
              (RouterExample.hello 1 (TProcess 2))).1.1.1 !! 1
  = Some (mkChan [RouterExample.hello 1 (TProcess 2)] true 1024).
Proof.
  refine (proj1 (send_delivers_exactly RouterExample.dbg (fun _ => None) None None 0 None
    RouterExample.router (RouterExample.hello 1 (TProcess 2)) 2 1 (mkChan [] true 1024)
    RouterExample.router_ok RouterExample.topics_ok _ _ _) _).
  - reflexivity.
  - reflexivity.
  - split; reflexivity.
  - split; [|split].
    + eexists. split; [vm_compute; reflexivity|reflexivity].
    + intros g Hg. discriminate Hg.
    + split; [reflexivity|]. vm_compute. reflexivity.
Defined.

Lemma direct_send_reported_witness :
  (send RouterExample.dbg (fun _ => None) None None 0 None RouterExample.router
     (RouterExample.hello 1 (TProcess 2))).2 = Ok tt.
Proof.
  apply (direct_send_reported RouterExample.dbg (fun _ => None) None None 0 None
    RouterExample.router (RouterExample.hello 1 (TProcess 2)) 2); [reflexivity|].
  split; [|split; [|split]].
  - eexists. split; [vm_compute; reflexivity|reflexivity].
  - intros g Hg. discriminate Hg.
  - vm_compute. reflexivity.
  - exists 1, (mkChan [] true 1024). split; [reflexivity|]. split; [reflexivity|]. split; reflexivity.
Defined.

Lemma remote_send_unchecked_witness :
  send RouterExample.dbg (fun _ => None) (Some (fun _ _ => Ok tt)) None 0 None RouterExample.router
    (RouterExample.hello 3 (TRemoteNode "node-2" (TProcess 1)))
  = (RouterExample.router, [], [("node-2", RouterExample.hello 3 (TRemoteNode "node-2" (TProcess 1)))],
     Ok tt).
Proof.
  eapply (remote_send_unchecked RouterExample.dbg (fun _ => None) (Some (fun _ _ => Ok tt)) None 0 None
    RouterExample.router (RouterExample.hello 3 (TRemoteNode "node-2" (TProcess 1)))
    _ "node-2" (TProcess 1) (fun _ _ => Ok tt)); try reflexivity; vm_compute; reflexivity.
Defined.

Lemma request_answered_once_witness :
  let m := RouterExample.hello 1 (TProcess 2) in
  let reply := mkMsg "ipc-8" 2 (TProcess 1) (PText "yes") 0 (Some "ipc-7") None in
  match request_begin RouterExample.dbg (fun _ => None) None None 0 None RouterExample.router m with
  | (r1, _, _, Ok slot) =>
      ra_pending r1 !! msg_id m = Some slot /\
      (try_complete_request r1 reply).2 = true
  | _ => False
  end.
Proof.
  pose proof (request_answered_once RouterExample.dbg (fun _ => None) None None 0 None
    RouterExample.router (RouterExample.hello 1 (TProcess 2))
    (mkMsg "ipc-8" 2 (TProcess 1) (PText "yes") 0 (Some "ipc-7") None)
    (mkMsg "ipc-9" 2 (TProcess 1) (PText "again") 0 (Some "ipc-7") None) 5 eq_refl eq_refl) as Hreq.
  cbn zeta. destruct (request_begin _ _ _ _ _ _ _ _) as [[[r1 audit] out] res] eqn:Hb.
  assert (exists slot, res = Ok slot) as [slot ->].
  { assert (is_ok (request_begin RouterExample.dbg (fun _ => None) None None 0 None
              RouterExample.router (RouterExample.hello 1 (TProcess 2))).2 = true) as Hok
      by (vm_compute; reflexivity).
    rewrite Hb in Hok. destruct res; [eauto|discriminate Hok]. }
  destruct Hreq as (Hp & _ & Hc & _). split; [exact Hp|].
  destruct (try_complete_request r1 _) as [r2 b]. apply Hc.
Defined.

(** With the capability gate on the router, the routing-time check does
    not look at the sender.  The routing context carries no process id, so the
    gate checks the kernel's own process 0, sending to process 0, whoever sends
    and whatever the target. *)
Theorem capability_gate_ignores_sender dbg t m :
  capability_check dbg t (gate_action (msg_payload m)) (gate_context dbg m)
  = match msg_payload m with
    | PToolCall name _ => of_check (Checker.check_tool_access t 0 name None None)
    | _ => of_check (Checker.check_ipc_target dbg t 0 0)
    end.
Proof.
  assert (forall k, k = "pid" \/ k = "target_pid" -> ctx_u64 k (gate_context dbg m) = 0) as Hctx.
  { intros k Hk. unfold ctx_u64, gate_context.
    destruct (msg_from m), (msg_target m); destruct Hk as [-> | ->]; reflexivity. }
  unfold capability_check. rewrite !Hctx by auto.
  destruct (msg_payload m); cbn; done.
Qed.
