(* ===== verification/Delegation.v ===== *)
(** The identities and the delegation certificates of the resource tree:
    crates/exo-resource-tree/src/model.rs (resource ids, roles, actions),
    did.rs (principals) and delegation.rs (signed certificates and chains). *)

From Stdlib Require Import Strings.String.
From S2P Require Import Prelude.
From S2P Require Import Codec.
Open Scope N_scope.

(** ** Resource ids

    [ResourceId(String)] is a transparent wrapper. *)

Abbreviation ResourceId := string.

Definition is_slash (a : ascii) : bool := Ascii.eqb a "/"%char.

(** What precedes and what follows the last ['/'] ([str::rfind]). *)
Fixpoint rsplit_slash (s : string) : option (string * string) :=
  match s with
  | EmptyString => None
  | String a s =>
      match rsplit_slash s with
      | Some (p, q) => Some (String a p, q)
      | None => if is_slash a then Some (EmptyString, s) else None
      end
  end.

(** [ResourceId::root], [is_root], [parent], [name] *)
Definition rid_root : ResourceId := "/".
Definition is_root (r : ResourceId) : bool := String.eqb r "/".

Definition parent (r : ResourceId) : option ResourceId :=
  if String.eqb r "/" then None
  else match rsplit_slash r with
       | Some (EmptyString, _) => Some rid_root
       | Some (p, _) => Some p
       | None => None
       end.

Definition rid_name (r : ResourceId) : string :=
  if String.eqb r "/" then "/"
  else match rsplit_slash r with Some (_, q) => q | None => r end.

Lemma rsplit_slash_eq s p q : rsplit_slash s = Some (p, q) -> s = p +:+ "/" +:+ q.
Proof.
  revert p q. induction s as [|a s IH]; intros p q H; [done|]. cbn [rsplit_slash] in H.
  destruct (rsplit_slash s) as [[p' q']|].
  - simplify_eq. change (String a p' +:+ "/" +:+ q) with (String a (p' +:+ "/" +:+ q)).
    f_equal. by apply IH.
  - destruct (is_slash a) eqn:Ha; [|done]. simplify_eq.
    apply Ascii.eqb_eq in Ha as ->. done.
Qed.

Lemma string_length_app s t :
  String.length (s +:+ t) = (String.length s + String.length t)%nat.
Proof.
  induction s as [|a s IH]; [done|].
  change (String a s +:+ t) with (String a (s +:+ t)). cbn [String.length]. by rewrite IH.
Qed.

(** A parent is a proper prefix: the walk to the root ends. *)
Lemma parent_shorter r p : parent r = Some p -> (String.length p < String.length r)%nat.
Proof.
  unfold parent. destruct (String.eqb_spec r "/") as [->|Hr]; [done|].
  destruct (rsplit_slash r) as [[q t]|] eqn:E; [|done].
  apply rsplit_slash_eq in E as ->. rewrite !string_length_app. cbn [String.length].
  destruct q as [|a q]; intros [= <-]; [|cbn; lia].
  destruct t; [done|]. cbn. lia.
Qed.

(** The loop [while let Some(rid) = current { ...; current = rid.parent() }]
    with an early return: [f] is the body. *)
Fixpoint walk {A} (f : ResourceId -> option A) (fuel : nat) (r : ResourceId) : option A :=
  match fuel with
  | O => None
  | S fuel =>
      match f r with
      | Some a => Some a
      | None => match parent r with Some p => walk f fuel p | None => None end
      end
  end.

(** An id has at most as many proper ancestors as bytes. *)
Definition walk_up {A} (f : ResourceId -> option A) (r : ResourceId) : option A :=
  walk f (S (String.length r)) r.

(** The ids the walk visits, in its order. *)
Fixpoint lineage_fuel (fuel : nat) (r : ResourceId) : list ResourceId :=
  match fuel with
  | O => []
  | S fuel => r :: match parent r with Some p => lineage_fuel fuel p | None => [] end
  end.

Definition lineage (r : ResourceId) : list ResourceId := lineage_fuel (S (String.length r)) r.

(** Reachability by [parent]. *)
Inductive ancestor : ResourceId -> ResourceId -> Prop :=
| anc_self r : ancestor r r
| anc_parent r p a : parent r = Some p -> ancestor p a -> ancestor r a.

Lemma lineage_fuel_complete fuel r a :
  (String.length r < fuel)%nat -> a ∈ lineage_fuel fuel r <-> ancestor r a.
Proof.
  revert r. induction fuel as [|fuel IH]; intros r Hf; [lia|]. cbn [lineage_fuel].
  rewrite elem_of_cons. destruct (parent r) as [p|] eqn:Hp.
  - rewrite IH by (apply parent_shorter in Hp; lia). split.
    + intros [->|H]; [constructor|by econstructor].
    + inversion 1; simplify_eq; auto.
  - split; [intros [->|H]; [constructor|by apply not_elem_of_nil in H]|].
    inversion 1; simplify_eq; auto.
Qed.

(** The walk visits the resource and its ancestors, all of them. *)
Lemma elem_of_lineage r a : a ∈ lineage r <-> ancestor r a.
Proof. apply lineage_fuel_complete. lia. Qed.

(** The first result along a list *)
Fixpoint first_some {A B} (f : A -> option B) (l : list A) : option B :=
  match l with
  | [] => None
  | x :: l => match f x with Some b => Some b | None => first_some f l end
  end.

Lemma walk_up_first_some {A} (f : ResourceId -> option A) r :
  walk_up f r = first_some f (lineage r).
Proof.
  unfold walk_up, lineage. generalize (S (String.length r)) as fuel. intros fuel.
  revert r. induction fuel as [|fuel IH]; intros r; [done|]. cbn.
  destruct (f r); [done|]. destruct (parent r); [apply IH|done].
Qed.

Lemma first_some_Some {A B} (f : A -> option B) l b :
  first_some f l = Some b <->
  exists pre x post, l = pre ++ x :: post /\ f x = Some b /\ Forall (fun y => f y = None) pre.
Proof.
  induction l as [|x l IH]; cbn.
  - split; [done|]. intros (pre & x & post & H & _). by destruct pre.
  - destruct (f x) as [b'|] eqn:Hx.
    + split.
      * intros [= ->]. exists [], x, l. done.
      * intros (pre & y & post & H & Hy & Hpre). destruct pre as [|z pre]; simplify_eq/=; try congruence.
        apply Forall_cons in Hpre as [? _]. congruence.
    + rewrite IH. split.
      * intros (pre & y & post & -> & Hy & Hpre). exists (x :: pre), y, post. by rewrite Forall_cons.
      * intros (pre & y & post & H & Hy & Hpre). destruct pre as [|z pre]; simplify_eq/=; try congruence.
        apply Forall_cons in Hpre as [? ?]. eauto 6.
Qed.

Lemma first_some_None {A B} (f : A -> option B) l :
  first_some f l = None <-> Forall (fun x => f x = None) l.
Proof.
  induction l as [|x l IH]; cbn; [done|]. rewrite Forall_cons, <- IH.
  destruct (f x) as [b|].
  - split; [done|]. by intros [? _].
  - split; [done|]. by intros [_ ?].
Qed.

(** ** Scope *)

(** [str::ends_with] with a character *)
Definition ends_with_slash (s : string) : bool :=
  match strip_suffix_char "/"%char s with Some _ => true | None => false end.

(** permission.rs [resource_in_scope] *)
Definition resource_in_scope (requested scope : ResourceId) : bool :=
  if is_root scope then true
  else if String.eqb requested scope then true
  else
    let prefix := if ends_with_slash scope then scope else scope +:+ "/" in
    starts_with prefix requested.

Lemma string_app_nil_r (a : string) : a +:+ "" = a.
Proof. induction a as [|x a IH]; [done|]. change (String x (a +:+ "") = String x a). by rewrite IH. Qed.

Lemma prefix_trans p q s :
  String.prefix p q = true -> String.prefix q s = true -> String.prefix p s = true.
Proof.
  intros [r ->]%prefix_true_app [t ->]%prefix_true_app.
  rewrite string_app_assoc. apply prefix_app.
Qed.

Definition dir_prefix (s : ResourceId) : string := if ends_with_slash s then s else s +:+ "/".

Lemma parent_dir_prefix r p :
  parent r = Some p -> p = rid_root \/ String.prefix (dir_prefix p) r = true.
Proof.
  unfold parent. destruct (String.eqb r "/"); [done|].
  destruct (rsplit_slash r) as [[q t]|] eqn:E; [|done].
  apply rsplit_slash_eq in E as ->. destruct q as [|a q]; intros [= <-]; [by left|]. right.
  unfold dir_prefix. destruct (ends_with_slash (String a q)).
  - apply prefix_app.
  - rewrite <- string_app_assoc. apply prefix_app.
Qed.

Lemma dir_prefix_self s : String.prefix s (dir_prefix s) = true.
Proof.
  unfold dir_prefix. destruct (ends_with_slash s); [|apply prefix_app].
  rewrite <- (string_app_nil_r s) at 2. apply prefix_app.
Qed.

(** Every id of the walk covers the requested resource. *)
Lemma ancestor_in_scope r a : ancestor r a -> resource_in_scope r a = true.
Proof.
  intros H. assert (a = r \/ a = rid_root \/ String.prefix (dir_prefix a) r = true) as Hc.
  { induction H as [r|r p a Hp Ha IH]; [by left|]. right.
    destruct (parent_dir_prefix _ _ Hp) as [->|Hpre].
    - destruct IH as [->|[->|Hr]]; [by left|by left|].
      inversion Ha; simplify_eq. by left.
    - destruct IH as [->|[->|Hr]]; [by right|by left|]. right.
      eapply prefix_trans; [exact Hr|]. eapply prefix_trans; [apply dir_prefix_self|done]. }
  unfold resource_in_scope, is_root. destruct (String.eqb_spec a "/"); [done|].
  destruct (String.eqb_spec r a); [done|]. destruct Hc as [->|[->|Hc]]; [done..|exact Hc].
Qed.

(** ** Roles, actions, principals *)

Inductive Role := Owner | RoleAdmin | Operator | Viewer | RoleCustom (s : string).
Inductive Action := Read | Write | Execute | ActAdmin | Create | Delete | ActCustom (s : string).

#[global] Instance Role_eq_dec : EqDecision Role.
Proof. solve_decision. Defined.
#[global] Instance Action_eq_dec : EqDecision Action.
Proof. solve_decision. Defined.

Definition action_code (a : Action) : nat + string :=
  match a with
  | Read => inl 0%nat | Write => inl 1%nat | Execute => inl 2%nat
  | ActAdmin => inl 3%nat | Create => inl 4%nat | Delete => inl 5%nat | ActCustom s => inr s
  end.

Definition action_decode (c : nat + string) : Action :=
  match c with
  | inl 0%nat => Read | inl 1%nat => Write | inl 2%nat => Execute
  | inl 3%nat => ActAdmin | inl 4%nat => Create | inl _ => Delete | inr s => ActCustom s
  end.

#[global] Instance Action_countable : Countable Action.
Proof. apply (inj_countable' action_code action_decode). by intros []. Defined.

(** [Did(String)] and [Principal(Did)] are transparent wrappers too. *)
Abbreviation Did := string.
Abbreviation Principal := string.

Inductive DidError := DidEmpty | DidMalformed (msg : string).

(** [Did::new] *)
Definition did_new (id : string) : result Did DidError :=
  let trimmed := trim id in
  if String.eqb trimmed "" then Err DidEmpty else Ok trimmed.

(** [splitn(2, ':')]: the first part, and the rest when there is a colon. *)
Fixpoint split_colon (s : string) : string * option string :=
  match s with
  | EmptyString => (EmptyString, None)
  | String a s =>
      if Ascii.eqb a ":"%char then (EmptyString, Some s)
      else let '(p, q) := split_colon s in (String a p, q)
  end.

(** [c.is_ascii_alphanumeric() || c == '_' || c == '-'] *)
Definition method_char (a : ascii) : bool :=
  let n := Ascii.N_of_ascii a in
  ((48 <=? n) && (n <=? 57)) || ((65 <=? n) && (n <=? 90)) || ((97 <=? n) && (n <=? 122))
  || (n =? 95) || (n =? 45).

Fixpoint all_chars (f : ascii -> bool) (s : string) : bool :=
  match s with EmptyString => true | String a s => f a && all_chars f s end.

(** [Did::parse] *)
Definition did_parse (s : string) : result Did DidError :=
  let s := trim s in
  if String.eqb s "" then Err DidEmpty
  else match strip_prefix "did:" s with
       | Some rest =>
           let '(method, id) := split_colon rest in
           let id := default "" id in
           if String.eqb method "" || String.eqb id "" then
             Err (DidMalformed "expected did:<method>:<id> with non-empty method and id")
           else if negb (all_chars method_char method) then
             Err (DidMalformed ("invalid DID method characters: " +:+ method))
           else Ok ("did:" +:+ method +:+ ":" +:+ id)
       | None => Ok s
       end.

(** [Did::weft] *)
Definition did_weft (id : string) : result Did DidError :=
  let id := trim id in
  if String.eqb id "" then Err DidEmpty else did_parse ("did:weft:" +:+ id).

(** [Did::is_did_uri], [Did::method], [Did::method_id] *)
Definition is_did_uri (d : Did) : bool := starts_with "did:" d.

Definition non_empty (s : string) : option string := if String.eqb s "" then None else Some s.

Definition did_method (d : Did) : option string :=
  rest ← strip_prefix "did:" d; non_empty (fst (split_colon rest)).

Definition did_method_id (d : Did) : option string :=
  rest ← strip_prefix "did:" d; id ← snd (split_colon rest); non_empty id.

(** [Principal::new] *)
Definition principal_new (id : string) : Principal :=
  match did_new id with Ok d => d | Err _ => "anonymous" end.

(** ** Ed25519

    The signature scheme is the crate ed25519_dalek.  [to_rfc3339] is chrono's
    rendering of a time, here the nanoseconds since the epoch. *)

Class Ed25519 := {
  SigningKey : Type;
  VerifyingKey : Type;
  verifying_key : SigningKey -> VerifyingKey;
  vk_to_bytes : VerifyingKey -> bytes;
  vk_from_bytes : bytes -> result VerifyingKey string;
  ed_sign : SigningKey -> bytes -> bytes;
  ed_verify : VerifyingKey -> bytes -> bytes -> bool;
  to_rfc3339 : Z -> string;
}.

(** What the scheme documents: array sizes, keys that survive their encoding,
    and signatures that verify under the key that made them. *)
Class Ed25519Laws `{Ed25519} : Prop := {
  vk_length v : length (vk_to_bytes v) = 32%nat;
  sig_length k m : length (ed_sign k m) = 64%nat;
  vk_round_trip v : vk_from_bytes (vk_to_bytes v) = Ok v;
  sign_verifies k m : ed_verify (verifying_key k) m (ed_sign k m) = true;
}.

(** ** Certificates *)

Inductive DelegationError :=
| BadSignature (msg : string)
| BadPublicKey (msg : string)
| VerificationFailed
| CertRevoked
| CertExpired
| ChainBroken (msg : string)
| EmptyChain.

Record DelegationCert := mkCert {
  grantor : string;
  grantee : string;
  cert_resource : ResourceId;
  created_at : Z;
  expires_at : option Z;
  revoked : bool;
  grantor_pubkey_hex : string;
  signature_hex : string;
  parent_signature_hex : option string;
}.

(** [bytes_to_hex] *)
Definition bytes_to_hex (b : bytes) : string := string_of_list_byte (b ≫= hex_byte).

(** [hex_val] *)
Definition hex_val (c : byte) : option N :=
  let n := Byte.to_N c in
  if (48 <=? n) && (n <=? 57) then Some (n - 48)
  else if (97 <=? n) && (n <=? 102) then Some (n - 97 + 10)
  else if (65 <=? n) && (n <=? 70) then Some (n - 65 + 10)
  else None.

(** The loop of [decode_hex], at index [i]. *)
Fixpoint decode_hex_loop (i : N) (s : bytes) : result bytes string :=
  match s with
  | a :: b :: s =>
      let? hi := ok_or (hex_val a) ("bad hex at " +:+ pretty i) in
      let? lo := ok_or (hex_val b) ("bad hex at " +:+ pretty (i + 1)) in
      let? rest := decode_hex_loop (i + 2) s in
      Ok (byte_of (N.lor (N.shiftl hi 4) lo) :: rest)
  | _ => Ok []
  end.

(** [decode_hex], [decode_hex_32] and [decode_hex_64] *)
Definition decode_hex (s : string) : result bytes string :=
  let s := str_bytes (trim s) in
  if negb (lenN s mod 2 =? 0) then Err "odd hex length" else decode_hex_loop 0 s.

Definition decode_hex_n (n : N) (s : string) : result bytes string :=
  let? v := decode_hex s in
  if negb (lenN v =? n)
  then Err ("expected " +:+ pretty n +:+ " bytes, got " +:+ pretty (lenN v))
  else Ok v.

Definition decode_hex_32 : string -> result bytes string := decode_hex_n 32.
Definition decode_hex_64 : string -> result bytes string := decode_hex_n 64.

(** [Result::map_err] *)
Definition map_err {T E F} (f : E -> F) (r : result T E) : result T F :=
  match r with Ok t => Ok t | Err e => Err (f e) end.

Section Certs.
Context `{Ed25519}.

(** [DelegationCert::canonical_message] *)
Definition canonical_message (c : DelegationCert) : bytes :=
  let exp := match expires_at c with Some t => to_rfc3339 t | None => "none" end in
  let parent := default "none" (parent_signature_hex c) in
  str_bytes (grantor c +:+ "|" +:+ grantee c +:+ "|" +:+ cert_resource c +:+ "|" +:+
             to_rfc3339 (created_at c) +:+ "|" +:+ exp +:+ "|" +:+ parent).

(** [DelegationCert::grant]; [now] is the clock. *)
Definition cert_grant (grantor grantee : string) (resource : ResourceId) (key : SigningKey)
    (expires : option Z) (parent : option DelegationCert) (now : Z) : DelegationCert :=
  let cert := mkCert grantor grantee resource now expires false
    (bytes_to_hex (vk_to_bytes (verifying_key key))) "" (signature_hex <$> parent) in
  let msg := canonical_message cert in
  mkCert grantor grantee resource now expires false
    (grantor_pubkey_hex cert) (bytes_to_hex (ed_sign key msg)) (parent_signature_hex cert).

(** [DelegationCert::revoke] *)
Definition cert_revoke (c : DelegationCert) : DelegationCert :=
  mkCert (grantor c) (grantee c) (cert_resource c) (created_at c) (expires_at c) true
    (grantor_pubkey_hex c) (signature_hex c) (parent_signature_hex c).

(** [DelegationCert::verify_signature] *)
Definition verify_signature (c : DelegationCert) : result unit DelegationError :=
  let? pk := map_err BadPublicKey (decode_hex_32 (grantor_pubkey_hex c)) in
  let? sig := map_err BadSignature (decode_hex_64 (signature_hex c)) in
  let? vk := map_err BadPublicKey (vk_from_bytes pk) in
  if ed_verify vk (canonical_message c) sig then Ok tt else Err VerificationFailed.

(** [DelegationCert::validate] *)
Definition cert_validate (c : DelegationCert) (now : Z) : result unit DelegationError :=
  if revoked c then Err CertRevoked
  else if match expires_at c with Some exp => (exp <? now)%Z | None => false end
  then Err CertExpired
  else verify_signature c.

(** The loop [for i in 1..chain.len()] of [validate_chain]. *)
Fixpoint validate_links (i : N) (prev : DelegationCert) (rest : list DelegationCert) (now : Z)
    : result unit DelegationError :=
  match rest with
  | [] => Ok tt
  | cert :: rest =>
      let? _u := cert_validate cert now in
      if negb (String.eqb (grantor cert) (grantee prev)) then
        Err (ChainBroken ("link " +:+ pretty i +:+ ": grantor '" +:+ grantor cert +:+
                          "' != parent grantee '" +:+ grantee prev +:+ "'"))
      else
        match parent_signature_hex cert with
        | Some ps =>
            if String.eqb ps (signature_hex prev) then validate_links (i + 1) cert rest now
            else Err (ChainBroken ("link " +:+ pretty i +:+ ": parent_signature_hex mismatch"))
        | None => Err (ChainBroken ("link " +:+ pretty i +:+ ": missing parent_signature_hex"))
        end
  end.

(** [validate_chain] *)
Definition validate_chain (chain : list DelegationCert) (trust_anchor : VerifyingKey) (now : Z)
    : result unit DelegationError :=
  match chain with
  | [] => Err EmptyChain
  | root :: rest =>
      let? root_pk := map_err BadPublicKey (decode_hex_32 (grantor_pubkey_hex root)) in
      if negb (bool_decide (root_pk = vk_to_bytes trust_anchor)) then
        Err (ChainBroken "root grantor pubkey does not match trust anchor")
      else
        let? _u := cert_validate root now in
        validate_links 1 root rest now
  end.

End Certs.

(** ** Hexadecimal fields survive decoding *)

Lemma hex_digits_val b :
  hex_val (hex_digit (Byte.to_N b / 16)) = Some (Byte.to_N b / 16) /\
  hex_val (hex_digit (Byte.to_N b mod 16)) = Some (Byte.to_N b mod 16).
Proof. destruct b; vm_compute; done. Qed.

Lemma decode_hex_loop_encode i data : decode_hex_loop i (data ≫= hex_byte) = Ok data.
Proof.
  revert i. induction data as [|b data IH]; intros i; [done|].
  change ((b :: data) ≫= hex_byte) with (hex_byte b ++ (data ≫= hex_byte)).
  unfold hex_byte at 1. cbn [app decode_hex_loop].
  destruct (hex_digits_val b) as [-> ->]. cbn [ok_or]. rewrite IH.
  by destruct (hex_byte_nibbles b) as (_ & _ & ->).
Qed.

Lemma rev_string_of_list_byte l : rev_string (string_of_list_byte l) = string_of_list_byte (rev l).
Proof. unfold rev_string. by rewrite list_byte_of_string_of_list_byte. Qed.

Lemma strip_any_digits ps b l :
  no_lead ps (ascii_of_byte b) = true -> strip_any ps (string_of_list_byte (b :: l)) = None.
Proof. apply strip_any_no_lead. Qed.

Lemma trim_bytes_to_hex data : trim (bytes_to_hex data) = bytes_to_hex data.
Proof.
  unfold bytes_to_hex. apply trim_id.
  - destruct data as [|b data]; [done|]. apply strip_any_digits. by destruct b.
  - rewrite rev_string_of_list_byte. destruct data as [|b data _] using rev_ind; [done|].
    rewrite bind_app, rev_app_distr. apply strip_any_digits. by destruct b.
Qed.

Lemma decode_hex_round_trip n data :
  lenN data = n -> decode_hex_n n (bytes_to_hex data) = Ok data.
Proof.
  intros Hn. unfold decode_hex_n, decode_hex. rewrite trim_bytes_to_hex. unfold bytes_to_hex, str_bytes.
  rewrite list_byte_of_string_of_list_byte. fold (hex_encode data).
  assert (lenN (hex_encode data) = lenN data * 2) as ->
    by (unfold lenN; rewrite hex_encode_length; lia).
  rewrite N.Div0.mod_mul. unfold hex_encode. cbn [negb N.eqb]. rewrite decode_hex_loop_encode.
  by rewrite Hn, N.eqb_refl.
Qed.

(** ** Correctness of chain validation *)

(** Neither revoked nor past its expiry *)
Definition cert_live (c : DelegationCert) (now : Z) : Prop :=
  revoked c = false /\ forall exp, expires_at c = Some exp -> (now <= exp)%Z.

(** What links a certificate to the one before it *)
Definition linked (prev cert : DelegationCert) : Prop :=
  grantor cert = grantee prev /\ parent_signature_hex cert = Some (signature_hex prev).

Section Validation.
Context `{Ed25519Laws}.

Lemma cert_validate_ok c now :
  cert_validate c now = Ok tt <-> cert_live c now /\ verify_signature c = Ok tt.
Proof.
  unfold cert_validate, cert_live. destruct (revoked c).
  { split; [done|]. by intros [[? _] _]. }
  destruct (expires_at c) as [e|].
  - destruct (Z.ltb_spec e now) as [Hlt|Hge].
    + split; [done|]. intros [[_ Hx] _]. specialize (Hx e eq_refl). lia.
    + split; [intros Hv|by intros [_ ?]]. split; [|done]. split; [done|]. intros e' [= <-]. lia.
  - split; [intros Hv|by intros [_ ?]]. split; [|done]. by split.
Qed.

Lemma validate_links_ok i prev rest now :
  validate_links i prev rest now = Ok tt <->
  Forall (fun c => cert_validate c now = Ok tt) rest /\
  forall j a b, (prev :: rest) !! j = Some a -> (prev :: rest) !! S j = Some b -> linked a b.
Proof.
  revert i prev. induction rest as [|c rest IH]; intros i prev; cbn [validate_links].
  { split; [|done]. split; [done|]. intros [|j] a b; done. }
  rewrite Forall_cons. destruct (cert_validate c now) as [[]|e]; [|split; [done|by intros [[? _] _]]].
  destruct (String.eqb_spec (grantor c) (grantee prev)) as [Hg|Hg]; cbn [negb].
  2:{ split; [done|]. intros [_ Hl]. by destruct (Hl 0%nat prev c eq_refl eq_refl). }
  destruct (parent_signature_hex c) as [ps|] eqn:Hps.
  2:{ split; [done|]. intros [_ Hl]. destruct (Hl 0%nat prev c eq_refl eq_refl). congruence. }
  destruct (String.eqb_spec ps (signature_hex prev)) as [->|Hne].
  2:{ split; [done|]. intros [_ Hl]. destruct (Hl 0%nat prev c eq_refl eq_refl). congruence. }
  rewrite IH. split.
  - intros [Hv Hl]. split; [done|]. intros [|j] a b Ha Hb; [|by apply (Hl j)].
    simplify_eq/=. done.
  - intros [[_ Hv] Hl]. split; [done|]. intros j a b Ha Hb. by apply (Hl (S j)).
Qed.

(** A delegation chain is accepted exactly when it is not empty, its root
    certificate carries the trust anchor's key, every certificate is neither
    revoked nor expired and bears a signature that verifies under the key it
    carries, and every certificate after the root names the previous grantee
    as its grantor and the previous signature as its parent. *)
Theorem validate_chain_spec chain anchor now :
  validate_chain chain anchor now = Ok tt <->
  (exists root rest, chain = root :: rest /\
    decode_hex_32 (grantor_pubkey_hex root) = Ok (vk_to_bytes anchor)) /\
  (forall c, c ∈ chain -> cert_live c now /\ verify_signature c = Ok tt) /\
  (forall i prev cert, chain !! i = Some prev -> chain !! S i = Some cert -> linked prev cert).
Proof.
  unfold validate_chain. destruct chain as [|root rest].
  { split; [done|]. by intros [(? & ? & ? & _) _]. }
  assert (forall P : DelegationCert -> Prop, (forall c, c ∈ root :: rest -> P c) <-> P root /\ Forall P rest) as Hall.
  { intros P. by rewrite <- Forall_forall, Forall_cons. }
  rewrite Hall, <- cert_validate_ok.
  setoid_rewrite <- cert_validate_ok.
  destruct (decode_hex_32 (grantor_pubkey_hex root)) as [pk|e] eqn:Hpk; cbn [map_err].
  2:{ split; [done|]. intros [(? & ? & [= <- <-] & ?) _]. congruence. }
  case_bool_decide as Hd; cbn [negb].
  2:{ split; [done|]. intros [(? & ? & [= <- <-] & ?) _]. congruence. }
  subst pk. destruct (cert_validate root now) as [[]|e] eqn:Hv.
  2:{ split; [done|]. by intros [_ [[? _] _]]. }
  rewrite validate_links_ok. split.
  - intros [Hr Hl]. split; [by eauto|]. done.
  - by intros [_ [[_ Hr] Hl]].
Qed.

(** Granting signs what validation verifies. *)
Lemma cert_grant_verifies g w r k exp parent t :
  verify_signature (cert_grant g w r k exp parent t) = Ok tt.
Proof.
  unfold verify_signature, decode_hex_32, decode_hex_64. cbn [cert_grant grantor_pubkey_hex signature_hex].
  rewrite decode_hex_round_trip by (unfold lenN; by rewrite vk_length).
  rewrite decode_hex_round_trip by (unfold lenN; by rewrite sig_length).
  cbn [map_err]. rewrite vk_round_trip. cbn [map_err].
  change (canonical_message (cert_grant g w r k exp parent t)) with
    (canonical_message (mkCert g w r t exp false (bytes_to_hex (vk_to_bytes (verifying_key k))) ""
       (signature_hex <$> parent))).
  by rewrite sign_verifies.
Qed.

Lemma validate_links_snoc i prev rest c now :
  validate_links i prev rest now = Ok tt -> cert_validate c now = Ok tt ->
  (forall leaf, last (prev :: rest) = Some leaf -> linked leaf c) ->
  validate_links i prev (rest ++ [c]) now = Ok tt.
Proof.
  rewrite !validate_links_ok. intros [Hv Hl] Hc Hleaf. split; [by apply Forall_app; split; [|constructor]|].
  intros j a b Ha Hb. rewrite app_comm_cons in Ha, Hb.
  apply lookup_app_Some in Hb as [Hb|[Hge Hb]].
  - apply (Hl j); [|done]. rewrite lookup_app_l in Ha; [done|]. apply lookup_lt_Some in Hb. lia.
  - apply list_lookup_singleton_Some in Hb as [Hj <-].
    rewrite lookup_app_l in Ha by lia. apply Hleaf. rewrite last_lookup.
    replace (Init.Nat.pred (length (prev :: rest))) with j by lia. done.
Qed.

Lemma forged_link_valid chain anchor now leaf w r (k : SigningKey) exp t :
  validate_chain chain anchor now = Ok tt -> last chain = Some leaf ->
  (forall e, exp = Some e -> (now <= e)%Z) ->
  validate_chain (chain ++ [cert_grant (grantee leaf) w r k exp (Some leaf) t]) anchor now = Ok tt.
Proof.
  intros Hc Hl He. unfold validate_chain in *. destruct chain as [|root rest]; [done|]. cbn [app].
  destruct (map_err _ _) as [pk|e]; [|done]. destruct (negb _); [done|].
  destruct (cert_validate root now) as [[]|e]; [|done].
  apply validate_links_snoc; [done| |].
  - apply cert_validate_ok. split; [by split|]. apply cert_grant_verifies.
  - intros leaf' Hl'. rewrite Hl in Hl'. by simplify_eq.
Qed.

End Validation.
