(* ===== verification/Canon.v ===== *)
(** Signed project statements: crates/clawft-types/src/project/canon.rs,
    ids.rs and cert.rs.  Canonical JSON, lowercase hexadecimal, project ids,
    the project certificate, the anchor statement and the bytes of a proof of
    possession.

    SHA-256, the rendering of a JSON scalar and of a string, and chrono's
    reading and writing of RFC 3339 are code of other crates: the class
    [CanonEnv].  The signature scheme is [Ed25519] of Delegation.v, with
    [verify_strict] beside it.  A time is in nanoseconds since the epoch. *)

From Stdlib Require Import Strings.String.
From S2P Require Import Prelude.
From S2P Require Import Codec.
From S2P Require Import Delegation.
Open Scope N_scope.

Class CanonEnv `{Ed25519} := {
  sha256 : bytes -> bytes;
  json_to_string : Json -> string;
  parse_rfc3339 : string -> option Z;
  rfc3339_secs : Z -> string;
  verify_strict : VerifyingKey -> bytes -> bytes -> bool;
}.

(** The years 0 to 9999, which chrono writes with four digits *)
Definition time_ok (t : Z) : Prop := (-62167219200 <= t / 1000000000 < 253402300800)%Z.

(** What the statements rely on: a digest has 32 bytes, the canonical spelling
    of a time reads back as that time without its fraction and is spelled the
    same again (within those years), and the
    strict check accepts what the matching key signed. *)
Class CanonEnvLaws `{CanonEnv} : Prop := {
  sha256_length b : length (sha256 b) = 32%nat;
  parse_rfc3339_secs t :
    time_ok t -> parse_rfc3339 (rfc3339_secs t) = Some (t / 1000000000 * 1000000000)%Z;
  rfc3339_secs_floor t : rfc3339_secs (t / 1000000000 * 1000000000)%Z = rfc3339_secs t;
  sign_verifies_strict k m : verify_strict (verifying_key k) m (ed_sign k m) = true;
}.

(** The character of a line feed *)
Definition nl : string := String "010"%char EmptyString.

(** ** canon.rs *)

(** [hex_encode] *)
Definition hex_string (data : bytes) : string := string_of_list_byte (hex_encode data).

(** The closure [nib] of [hex_decode]: lowercase only *)
Definition nib (c : byte) : option N :=
  let n := Byte.to_N c in
  if (48 <=? n) && (n <=? 57) then Some (n - 48)
  else if (97 <=? n) && (n <=? 102) then Some (n - 97 + 10)
  else None.

Fixpoint nib_pairs (s : bytes) : option bytes :=
  match s with
  | a :: b :: s =>
      hi ← nib a; lo ← nib b; rest ← nib_pairs s;
      Some (byte_of (N.lor (N.shiftl hi 4) lo) :: rest)
  | _ => Some []
  end.

(** [hex_decode::<N>] *)
Definition hex_decode_n (n : nat) (s : string) : option bytes :=
  let b := str_bytes s in
  if negb (length b =? n * 2)%nat then None else nib_pairs b.

(** [is_lower_hex] *)
Definition is_lower_hex (s : string) (len : nat) : bool :=
  (length (str_bytes s) =? len)%nat && forallb (fun c => bool_decide (is_Some (nib c))) (str_bytes s).

(** The members of an object, by the bytes of their keys *)
Definition key_le (a b : string * string) : Prop := Is_true (str_leb a.1 b.1).

#[global] Instance key_le_dec : RelDecision key_le.
Proof. intros a b. unfold key_le. apply _. Defined.

Section Canonical.
Context `{CanonEnv}.

(** [canonical_json], [write] *)
Fixpoint canonical_json (v : Json) : string :=
  match v with
  | JObj l =>
      let members := merge_sort key_le (map (fun kv => (kv.1, canonical_json kv.2)) l) in
      "{" +:+ String.concat "," (map (fun kv => json_to_string (JStr kv.1) +:+ ":" +:+ kv.2) members)
      +:+ "}"
  | JArr l => "[" +:+ String.concat "," (map canonical_json l) +:+ "]"
  | other => json_to_string other
  end.

(** [domain_bytes] *)
Definition domain_bytes (domain : string) (body : Json) : bytes :=
  str_bytes domain ++ str_bytes (canonical_json body).

(** ** ids.rs *)

Definition CROCKFORD : bytes := str_bytes "0123456789ABCDEFGHJKMNPQRSTVWXYZ".

(** [validate_id] *)
Definition validate_id (id : string) : bool :=
  let b := str_bytes id in
  (length b =? 26)%nat
  && match b with c :: _ => Byte.to_N c <=? 55 | [] => false end
  && forallb (fun c => bool_decide (c ∈ CROCKFORD)) b.

(** ** cert.rs *)

Definition CERT_DOMAIN : string := "weftos-project-cert-v1" +:+ nl.
Definition ANCHOR_DOMAIN : string := "weftos-project-anchor-v1" +:+ nl.
Definition POP_DOMAIN : string := "weftos-mesh-local-pop-v2" +:+ nl.
Definition CERT_TYPE : string := "project-cert".
Definition CERT_VERSION : N := 1.
Definition MAX_ISSUE_SKEW_SECS : Z := 60.
Definition POP_NONCE_HEX_LEN : nat := 32.

Inductive CertError :=
| BadVersion (v : N)
| BadType (t : string)
| BadHex (field : string)
| BadTimestamp (field : string)
| KeyIdMismatch (field : string)
| UntrustedUser
| BadSig
| Expired
| NotYetValid
| BadProjectId
| BadDigest (field : string)
| BadNonce.

(** [key_id] *)
Definition key_id (pubkey : bytes) : string := hex_string (take 16 (sha256 pubkey)).

(** [parse_ts] *)
Definition parse_ts (s field : string) : result Z CertError :=
  match parse_rfc3339 s with
  | Some t => if negb (String.eqb (rfc3339_secs t) s) then Err (BadTimestamp field) else Ok t
  | None => Err (BadTimestamp field)
  end.

(** [check_sig] *)
Definition check_sig (pk : bytes) (sig_hex domain : string) (body : Json) : result unit CertError :=
  let? sig := ok_or (hex_decode_n 64 sig_hex) (BadHex "sig") in
  match vk_from_bytes pk with
  | Err _ => Err (BadHex "pubkey")
  | Ok vk => throw_if (negb (verify_strict vk (domain_bytes domain body) sig)) BadSig
  end.

Record CertRequest := mkCertRequest {
  cr_project_id : string;
  cr_project_pubkey : bytes;
  cr_serial : N;
  cr_issued_at : Z;
  cr_expires_at : option Z;
}.

Record ProjectCert := mkProjectCert {
  pc_v : N;
  pc_kind : string;
  pc_project_id : string;
  pc_project_pubkey : string;
  pc_project_key_id : string;
  pc_user_key_id : string;
  pc_user_pubkey : string;
  pc_serial : N;
  pc_issued_at : string;
  pc_expires_at : option string;
  pc_sig : string;
}.

#[export] Instance project_cert_eq_dec : EqDecision ProjectCert.
Proof. solve_decision. Defined.

(** [ProjectCert::body] *)
Definition cert_body (c : ProjectCert) : Json :=
  JObj [("v", json_num (pc_v c)); ("type", JStr (pc_kind c));
        ("project_id", JStr (pc_project_id c)); ("project_pubkey", JStr (pc_project_pubkey c));
        ("project_key_id", JStr (pc_project_key_id c)); ("user_key_id", JStr (pc_user_key_id c));
        ("user_pubkey", JStr (pc_user_pubkey c)); ("serial", json_num (pc_serial c));
        ("issued_at", JStr (pc_issued_at c)); ("expires_at", json_opt_str (pc_expires_at c))].

(** [ProjectCert::canonical_bytes] *)
Definition cert_bytes (c : ProjectCert) : bytes := domain_bytes CERT_DOMAIN (cert_body c).

(** [ProjectCert::sign] *)
Definition cert_sign (user_key : SigningKey) (req : CertRequest) : ProjectCert :=
  let user_pubkey := vk_to_bytes (verifying_key user_key) in
  let unsigned := mkProjectCert CERT_VERSION CERT_TYPE (cr_project_id req)
    (hex_string (cr_project_pubkey req)) (key_id (cr_project_pubkey req)) (key_id user_pubkey)
    (hex_string user_pubkey) (cr_serial req) (rfc3339_secs (cr_issued_at req))
    (rfc3339_secs <$> cr_expires_at req) "" in
  mkProjectCert CERT_VERSION CERT_TYPE (cr_project_id req)
    (hex_string (cr_project_pubkey req)) (key_id (cr_project_pubkey req)) (key_id user_pubkey)
    (hex_string user_pubkey) (cr_serial req) (rfc3339_secs (cr_issued_at req))
    (rfc3339_secs <$> cr_expires_at req) (hex_string (ed_sign user_key (cert_bytes unsigned))).

(** [ProjectCert::computed_key_id] *)
Definition computed_key_id (c : ProjectCert) : result string CertError :=
  let? pk := ok_or (hex_decode_n 32 (pc_project_pubkey c)) (BadHex "project_pubkey") in
  Ok (key_id pk).

(** [ProjectCert::verify] *)
Definition cert_verify (c : ProjectCert) (trusted : bytes) (now : Z) : result unit CertError :=
  let? _ := throw_if (negb (pc_v c =? CERT_VERSION)) (BadVersion (pc_v c)) in
  let? _ := throw_if (negb (String.eqb (pc_kind c) CERT_TYPE)) (BadType (pc_kind c)) in
  let? _ := throw_if (negb (validate_id (pc_project_id c))) BadProjectId in
  let? project_pk := ok_or (hex_decode_n 32 (pc_project_pubkey c)) (BadHex "project_pubkey") in
  let? user_pk := ok_or (hex_decode_n 32 (pc_user_pubkey c)) (BadHex "user_pubkey") in
  let? _ := throw_if (negb (String.eqb (pc_project_key_id c) (key_id project_pk)))
              (KeyIdMismatch "project_key_id") in
  let? _ := throw_if (negb (String.eqb (pc_user_key_id c) (key_id user_pk)))
              (KeyIdMismatch "user_key_id") in
  let? _ := throw_if (negb (bool_decide (user_pk = trusted))) UntrustedUser in
  let? issued := parse_ts (pc_issued_at c) "issued_at" in
  let? _ := throw_if (now + MAX_ISSUE_SKEW_SECS * 1000000000 <? issued)%Z NotYetValid in
  let? expiry := match pc_expires_at c with
                 | Some s => let? t := parse_ts s "expires_at" in Ok (Some t)
                 | None => Ok None
                 end in
  let? _ := check_sig user_pk (pc_sig c) CERT_DOMAIN (cert_body c) in
  match expiry with
  | Some t => throw_if (t <=? now)%Z Expired
  | None => Ok tt
  end.

Record ProjectAnchorStmt := mkAnchor {
  an_project_id : string;
  an_project_key_id : string;
  an_cert_serial : N;
  an_seq : N;
  an_chain_id : N;
  an_head_hash : string;
  an_head_seq : N;
  an_rule_hash : string;
  an_at : string;
  an_prev_anchor : option string;
  an_sig : string;
}.

(** [ProjectAnchorStmt::body] *)
Definition anchor_body (a : ProjectAnchorStmt) : Json :=
  JObj [("project_id", JStr (an_project_id a)); ("project_key_id", JStr (an_project_key_id a));
        ("cert_serial", json_num (an_cert_serial a)); ("seq", json_num (an_seq a));
        ("chain_id", json_num (an_chain_id a)); ("head_hash", JStr (an_head_hash a));
        ("head_seq", json_num (an_head_seq a)); ("rule_hash", JStr (an_rule_hash a));
        ("at", JStr (an_at a)); ("prev_anchor", json_opt_str (an_prev_anchor a))].

(** [ProjectAnchorStmt::canonical_bytes] *)
Definition anchor_bytes (a : ProjectAnchorStmt) : bytes := domain_bytes ANCHOR_DOMAIN (anchor_body a).

Definition anchor_with (key_id sig : string) (a : ProjectAnchorStmt) : ProjectAnchorStmt :=
  mkAnchor (an_project_id a) key_id (an_cert_serial a) (an_seq a) (an_chain_id a) (an_head_hash a)
    (an_head_seq a) (an_rule_hash a) (an_at a) (an_prev_anchor a) sig.

(** [ProjectAnchorStmt::sign] *)
Definition anchor_sign (project_key : SigningKey) (a : ProjectAnchorStmt) : ProjectAnchorStmt :=
  let kid := key_id (vk_to_bytes (verifying_key project_key)) in
  let a := anchor_with kid (an_sig a) a in
  anchor_with kid (hex_string (ed_sign project_key (anchor_bytes a))) a.

(** [ProjectAnchorStmt::verify] *)
Definition anchor_verify (a : ProjectAnchorStmt) (project_pubkey : bytes) : result unit CertError :=
  let? _ := throw_if (negb (String.eqb (an_project_key_id a) (key_id project_pubkey)))
              (KeyIdMismatch "project_key_id") in
  let? _ := throw_if (negb (validate_id (an_project_id a))) BadProjectId in
  let? _ := throw_if (negb (is_lower_hex (an_head_hash a) 64)) (BadDigest "head_hash") in
  let? _ := throw_if (negb (is_lower_hex (an_rule_hash a) 64)) (BadDigest "rule_hash") in
  let? _ := match an_prev_anchor a with
            | Some p => throw_if (negb (is_lower_hex p 64)) (BadDigest "prev_anchor")
            | None => Ok tt
            end in
  let? _ := parse_ts (an_at a) "at" in
  check_sig project_pubkey (an_sig a) ANCHOR_DOMAIN (anchor_body a).

(** [ProjectAnchorStmt::hash] *)
Definition anchor_hash (a : ProjectAnchorStmt) : string :=
  hex_string (sha256 (domain_bytes ANCHOR_DOMAIN (json_set "sig" (JStr (an_sig a)) (anchor_body a)))).

Inductive PopOp := PopRegister | PopRekey.

(** [PopOp::as_str] *)
Definition pop_op_str (op : PopOp) : string :=
  match op with PopRegister => "register" | PopRekey => "rekey" end.

(** [pop_signed_bytes] *)
Definition pop_signed_bytes (op : PopOp) (user_key_id nonce project_id : string)
  : result bytes CertError :=
  let? _ := throw_if (negb (is_lower_hex user_key_id 32)) (BadHex "user_key_id") in
  let? _ := throw_if (negb (is_lower_hex nonce POP_NONCE_HEX_LEN)) BadNonce in
  let? _ := throw_if (negb (validate_id project_id)) BadProjectId in
  Ok (str_bytes (POP_DOMAIN +:+ pop_op_str op +:+ nl +:+ user_key_id +:+ nl +:+ nonce +:+ nl +:+ project_id)).

End Canonical.

(** ** One spelling *)

Lemma below16 (P : N -> Prop) n : Forall P (N.of_nat <$> seq 0 16) -> n < 16 -> P n.
Proof.
  rewrite Forall_forall. intros HP Hn. apply HP, list_elem_of_fmap. exists (N.to_nat n).
  rewrite N2Nat.id. split; [done|]. apply elem_of_seq. lia.
Qed.

Lemma nib_digit n : n < 16 -> nib (hex_digit n) = Some n.
Proof. apply (below16 (fun n => nib (hex_digit n) = Some n)). cbn. by repeat constructor. Qed.

Lemma nib_inv c n : nib c = Some n -> n < 16 /\ c = hex_digit n.
Proof. by destruct c; intros [= <-]. Qed.

Lemma byte_nibbles hi lo :
  hi < 16 -> lo < 16 ->
  Byte.to_N (byte_of (N.lor (N.shiftl hi 4) lo)) / 16 = hi /\
  Byte.to_N (byte_of (N.lor (N.shiftl hi 4) lo)) mod 16 = lo.
Proof.
  intros Hh Hl. pattern lo. refine (below16 _ lo _ Hl). cbn [seq fmap list_fmap].
  pattern hi. refine (below16 _ hi _ Hh). cbn [seq fmap list_fmap].
  repeat (apply Forall_cons; split); try apply Forall_nil; vm_compute; done.
Qed.

Lemma nib_pairs_encode data : nib_pairs (hex_encode data) = Some data.
Proof.
  induction data as [|b data IH]; [done|].
  change (hex_encode (b :: data)) with (hex_byte b ++ hex_encode data). cbn [hex_byte app nib_pairs].
  pose proof (to_N_lt b). rewrite !nib_digit by (first [apply N.Div0.div_lt_upper_bound|apply N.mod_lt]; lia).
  cbn. rewrite IH. cbn. by rewrite (proj2 (proj2 (hex_byte_nibbles b))).
Qed.

Lemma nib_pairs_inv n : forall s b,
  length s = (n * 2)%nat -> nib_pairs s = Some b -> length b = n /\ s = hex_encode b.
Proof.
  induction n as [|n IH]; intros [|x [|y s]] b Hlen; cbn in Hlen; try lia; cbn [nib_pairs].
  { by intros [= <-]. }
  destruct (nib x) as [hi|] eqn:Hx; cbn; [|done]. destruct (nib y) as [lo|] eqn:Hy; cbn; [|done].
  destruct (nib_pairs s) as [rest|] eqn:Hs; cbn; [|done]. intros [= <-].
  apply nib_inv in Hx as [Hh ->], Hy as [Hl ->]. destruct (IH s rest) as [Hr ->]; [lia|done|].
  split; [cbn; lia|].
  change (hex_encode (?a :: ?l)) with (hex_byte a ++ hex_encode l). unfold hex_byte.
  destruct (byte_nibbles hi lo Hh Hl) as [-> ->]. done.
Qed.

(** A hexadecimal field has one spelling: decoding [n] bytes accepts a string
    exactly when it is the encoding of [n] bytes, and returns those. *)
Theorem hex_one_spelling n s b :
  hex_decode_n n s = Some b <-> length b = n /\ s = hex_string b.
Proof.
  unfold hex_decode_n, hex_string. destruct (Nat.eqb_spec (length (str_bytes s)) (n * 2)) as [Hl|Hl]; cbn.
  - split.
    + intros Hb. destruct (nib_pairs_inv n _ _ Hl Hb) as [? Hs]. split; [done|].
      rewrite <- Hs. symmetry. apply string_of_list_byte_of_string.
    + intros [_ ->]. unfold str_bytes. rewrite list_byte_of_string_of_list_byte. apply nib_pairs_encode.
  - split; [done|]. intros [<- ->]. exfalso. apply Hl. unfold str_bytes.
    rewrite list_byte_of_string_of_list_byte, hex_encode_length. lia.
Qed.

Lemma is_lower_hex_length s n : is_lower_hex s n = true -> length (str_bytes s) = n.
Proof. unfold is_lower_hex. intros [Hl _]%andb_prop. by apply Nat.eqb_eq. Qed.

Lemma is_lower_hex_no_nl s n : is_lower_hex s n = true -> x0a ∉ str_bytes s.
Proof.
  unfold is_lower_hex. intros [_ Hf]%andb_prop Hin. rewrite forallb_forall in Hf.
  by specialize (Hf x0a (proj1 (list_elem_of_In _ _) Hin)).
Qed.

Lemma hex_string_bytes b : str_bytes (hex_string b) = hex_encode b.
Proof. unfold str_bytes, hex_string. apply list_byte_of_string_of_list_byte. Qed.

Lemma hex_string_is_lower b : is_lower_hex (hex_string b) (length b * 2) = true.
Proof.
  unfold is_lower_hex. rewrite hex_string_bytes, hex_encode_length.
  rewrite Nat.mul_comm, Nat.eqb_refl. cbn [andb]. apply forallb_forall.
  induction b as [|x b IH]; [done|]. change (hex_encode (x :: b)) with (hex_byte x ++ hex_encode b).
  intros c [Hc|Hc]%in_app_or; [|by apply IH]. pose proof (to_N_lt x).
  destruct Hc as [<-|[<-|[]]]; rewrite nib_digit; try done;
    first [apply N.Div0.div_lt_upper_bound|apply N.mod_lt]; lia.
Qed.

(** ** Canonical JSON *)

Section CanonLemmas.
Context `{CanonEnv}.

#[local] Instance key_le_total : Total key_le.
Proof using.
  intros a b. unfold key_le, str_leb. destruct (bytes_leb_total (str_bytes a.1) (str_bytes b.1)) as [-> | ->]; auto.
Qed.

#[local] Instance key_le_trans : Transitive key_le.
Proof using.
  intros a b c. unfold key_le, str_leb. rewrite !Is_true_true. apply bytes_leb_trans.
Qed.

Lemma sorted_keys_unique (l k : list (string * string)) :
  NoDup l.*1 -> l ≡ₚ k -> StronglySorted key_le l -> StronglySorted key_le k -> l = k.
Proof using.
  intros Hnd Hp Hl Hk. revert k Hp Hk. induction Hl as [|x l Hl IH Hx]; intros k Hp Hk.
  { by apply Permutation_nil_l in Hp. }
  destruct Hk as [|y k Hk Hy]; [by apply Permutation_nil_r in Hp|].
  assert (x = y) as <-.
  { assert (y ∈ x :: l) as Hyl by (rewrite Hp; left).
    assert (x ∈ y :: k) as Hxk by (rewrite <- Hp; left).
    apply elem_of_cons in Hyl as [->|Hyl]; [done|]. apply elem_of_cons in Hxk as [->|Hxk]; [done|].
    exfalso. rewrite Forall_forall in Hx, Hy. specialize (Hx y Hyl). specialize (Hy x Hxk).
    unfold key_le, str_leb in Hx, Hy. rewrite Is_true_true in Hx, Hy.
    pose proof (str_bytes_inj _ _ (bytes_leb_antisymm _ _ Hx Hy)) as E.
    cbn in Hnd. apply NoDup_cons in Hnd as [Hn _]. apply Hn. rewrite E.
    apply list_elem_of_fmap. by exists y. }
  f_equal. apply IH; [by apply NoDup_cons in Hnd as [_ ?]| |done]. by apply (Permutation_cons_inv) in Hp.
Qed.

(** The canonical rendering of an object does not depend on the order in
    which its members were inserted. *)
Theorem canonical_order_free l k :
  NoDup l.*1 -> l ≡ₚ k -> canonical_json (JObj l) = canonical_json (JObj k).
Proof using.
  intros Hnd Hp. cbn [canonical_json].
  set (f := fun kv : string * Json => (kv.1, canonical_json kv.2)).
  assert (merge_sort key_le (map f l) = merge_sort key_le (map f k)) as ->; [|done].
  apply sorted_keys_unique.
  - rewrite merge_sort_Permutation. change (map f l) with (f <$> l). by rewrite <- list_fmap_compose.
  - rewrite !merge_sort_Permutation. by rewrite Hp.
  - apply StronglySorted_merge_sort; apply _.
  - apply StronglySorted_merge_sort; apply _.
Qed.

End CanonLemmas.

(** ** Certificates and anchors *)

Section Statements.
Context `{CanonEnvLaws} `{!Ed25519Laws}.

Lemma parse_ts_ok t field :
  time_ok t -> parse_ts (rfc3339_secs t) field = Ok (t / 1000000000 * 1000000000)%Z.
Proof.
  intros Ht. unfold parse_ts. by rewrite parse_rfc3339_secs, rfc3339_secs_floor, String.eqb_refl.
Qed.

Lemma hex_decode_string n b : length b = n -> hex_decode_n n (hex_string b) = Some b.
Proof. intros Hb. by apply hex_one_spelling. Qed.

(** A signature made with a key is accepted under the encoding of that key. *)
Lemma check_sig_signed k domain body :
  check_sig (vk_to_bytes (verifying_key k)) (hex_string (ed_sign k (domain_bytes domain body)))
    domain body = Ok tt.
Proof.
  unfold check_sig. rewrite hex_decode_string by apply sig_length. cbn [ok_or].
  rewrite vk_round_trip, sign_verifies_strict. done.
Qed.

Lemma parse_ts_inv s field t : parse_ts s field = Ok t -> parse_rfc3339 s = Some t.
Proof using.
  unfold parse_ts. destruct (parse_rfc3339 s) as [t'|]; [|done]. destruct (String.eqb _ _); cbn; congruence.
Qed.

Lemma check_sig_inv pk sig_hex domain body u :
  check_sig pk sig_hex domain body = Ok u ->
  exists vk sig, vk_from_bytes pk = Ok vk /\ sig_hex = hex_string sig /\
    verify_strict vk (domain_bytes domain body) sig = true.
Proof using.
  unfold check_sig. intros Hc. inv_ok. apply hex_one_spelling in Hok as [_ Hs].
  destruct (vk_from_bytes pk) as [vk|]; [|done]. inv_ok. apply negb_false_iff in Hc. eauto.
Qed.

(** The second granularity of a signed time *)
Definition whole_secs (t : Z) : Z := (t / 1000000000 * 1000000000)%Z.

(** A certificate the user key signs is accepted, as long as the clock is not
    more than the permitted skew behind its issue time and has not reached its
    expiry, by whoever trusts that user key. *)
Theorem cert_sign_verifies k req now :
  validate_id (cr_project_id req) = true -> length (cr_project_pubkey req) = 32%nat ->
  time_ok (cr_issued_at req) ->
  (whole_secs (cr_issued_at req) <= now + MAX_ISSUE_SKEW_SECS * 1000000000)%Z ->
  (forall t, cr_expires_at req = Some t -> time_ok t /\ (now < whole_secs t)%Z) ->
  cert_verify (cert_sign k req) (vk_to_bytes (verifying_key k)) now = Ok tt.
Proof.
  intros Hid Hpk Hiss Hskew Hexp. unfold cert_verify.
  cbn [cert_sign pc_v pc_kind pc_project_id pc_project_pubkey pc_user_pubkey pc_project_key_id
       pc_user_key_id pc_issued_at pc_expires_at pc_sig].
  rewrite Hid, !hex_decode_string by (done || apply vk_length). cbn [ok_or].
  rewrite !String.eqb_refl, bool_decide_eq_true_2, parse_ts_ok by done.
  rewrite N.eqb_refl. cbn [negb throw_if].
  assert ((now + MAX_ISSUE_SKEW_SECS * 1000000000 <? cr_issued_at req / 1000000000 * 1000000000)%Z = false)
    as -> by (unfold whole_secs in Hskew; lia). cbn [throw_if].
  change (cert_body (cert_sign k req)) with
    (cert_body (mkProjectCert CERT_VERSION CERT_TYPE (cr_project_id req)
    (hex_string (cr_project_pubkey req)) (key_id (cr_project_pubkey req))
    (key_id (vk_to_bytes (verifying_key k))) (hex_string (vk_to_bytes (verifying_key k)))
    (cr_serial req) (rfc3339_secs (cr_issued_at req)) (rfc3339_secs <$> cr_expires_at req) "")).
  unfold cert_bytes. rewrite check_sig_signed.
  destruct (cr_expires_at req) as [t|]; cbn [fmap option_fmap option_map]; [|done].
  destruct (Hexp t eq_refl) as [Ht Hlt]. rewrite parse_ts_ok by done.
  unfold whole_secs in Hlt. unfold throw_if.
  by assert ((t / 1000000000 * 1000000000 <=? now)%Z = false) as -> by lia.
Qed.

(** What an accepted certificate establishes: the trusted key issued it, its
    key ids are those of its keys, it is inside its dates, and the trusted key
    signed exactly its contents. *)
Theorem cert_verify_sound c trusted now :
  cert_verify c trusted now = Ok tt ->
  pc_user_pubkey c = hex_string trusted /\ pc_user_key_id c = key_id trusted /\
  validate_id (pc_project_id c) = true /\
  (exists pk, length pk = 32%nat /\ pc_project_pubkey c = hex_string pk /\
     pc_project_key_id c = key_id pk) /\
  (exists issued, parse_rfc3339 (pc_issued_at c) = Some issued /\
     (issued <= now + MAX_ISSUE_SKEW_SECS * 1000000000)%Z) /\
  (forall s, pc_expires_at c = Some s -> exists t, parse_rfc3339 s = Some t /\ (now < t)%Z) /\
  exists vk sig, vk_from_bytes trusted = Ok vk /\ pc_sig c = hex_string sig /\
    verify_strict vk (cert_bytes c) sig = true.
Proof using.
  unfold cert_verify. intros Hv. inv_ok. rewrite negb_false_iff in *.
  rewrite String.eqb_eq in *. apply bool_decide_eq_true in Hok6 as ->.
  apply hex_one_spelling in Hok2 as [Hl2 Hpp], Hok3 as [Hl3 Hup].
  apply parse_ts_inv in Hok7. apply check_sig_inv in Hok10 as (vk & sig & Hvk & Hsig & Hver).
  split; [done|]. split; [done|]. split; [done|]. split; [by eauto|].
  split; [exists t7; split; [done|lia]|]. split; [|by eauto].
  intros s Hs. rewrite Hs in Hok9. inv_ok. subst. inv_ok. eexists.
  split; [by eapply parse_ts_inv|lia].
Qed.

(** The same for anchor statements: signing makes what verification accepts,
    for well-formed statements. *)
Theorem anchor_sign_verifies k a t :
  validate_id (an_project_id a) = true -> is_lower_hex (an_head_hash a) 64 = true ->
  is_lower_hex (an_rule_hash a) 64 = true ->
  (forall p, an_prev_anchor a = Some p -> is_lower_hex p 64 = true) ->
  time_ok t -> an_at a = rfc3339_secs t ->
  anchor_verify (anchor_sign k a) (vk_to_bytes (verifying_key k)) = Ok tt.
Proof.
  intros Hid Hh Hr Hp Ht Hat. unfold anchor_verify.
  cbn [anchor_sign anchor_with an_project_id an_project_key_id an_head_hash an_rule_hash an_prev_anchor
       an_at an_sig].
  rewrite String.eqb_refl, Hid, Hh, Hr, Hat, parse_ts_ok by done. cbn [negb throw_if].
  change (anchor_body (anchor_sign k a)) with
    (anchor_body (anchor_with (key_id (vk_to_bytes (verifying_key k))) (an_sig a) a)).
  unfold anchor_bytes. rewrite check_sig_signed.
  destruct (an_prev_anchor a) as [p|]; [|done]. by rewrite (Hp p eq_refl).
Qed.

(** The parts of a proof of possession cannot run into each other: equal bytes
    come from the same operation, user, nonce and project. *)
Theorem pop_bytes_injective op1 u1 n1 p1 op2 u2 n2 p2 b :
  pop_signed_bytes op1 u1 n1 p1 = Ok b -> pop_signed_bytes op2 u2 n2 p2 = Ok b ->
  op1 = op2 /\ u1 = u2 /\ n1 = n2 /\ p1 = p2.
Proof using.
  unfold pop_signed_bytes. intros Hp1 Hp2. inv_ok. subst. rewrite negb_false_iff in *.
  match goal with E : str_bytes _ = str_bytes _ |- _ => rename E into Heq end.
  rewrite !str_bytes_app in Heq. apply (app_inv_head (str_bytes POP_DOMAIN)) in Heq.
  assert (forall op, x0a ∉ str_bytes (pop_op_str op)) as Hop
    by (intros []; apply (bool_decide_unpack _); vm_compute; exact I).
  change (str_bytes nl) with [x0a] in Heq.
  apply split_at_sep in Heq as [Ho Heq]; [|apply Hop..].
  apply split_at_sep in Heq as [Hu Heq]; [|by eapply is_lower_hex_no_nl..].
  apply split_at_sep in Heq as [Hn Hp]; [|by eapply is_lower_hex_no_nl..].
  apply str_bytes_inj in Hu, Hn, Hp. split; [|done]. by destruct op1, op2.
Qed.

End Statements.

(** ** A concrete environment

    A digest is a checksum, a signature the key followed by the
    digest of the message, and a time its seconds as eight bytes. *)

Module ToyCanon.

Definition digest (b : bytes) : bytes :=
  le_bytes 32 (foldl (fun a x => N.land (a * 257 + Byte.to_N x) 4294967295) 0 b).

Definition toy_sig (k : byte) (m : bytes) : bytes := k :: digest m ++ replicate 31 x00.

Definition ed : Ed25519 := {|
  SigningKey := byte;
  VerifyingKey := byte;
  verifying_key := id;
  vk_to_bytes v := replicate 32 v;
  vk_from_bytes b := match b with v :: _ => Ok v | [] => Err "empty" end;
  ed_sign k m := toy_sig k m;
  ed_verify v m s := bool_decide (s = toy_sig v m);
  to_rfc3339 _ := "t" |}.

Definition year_zero : Z := 62167219200.

Definition env : @CanonEnv ed := {|
  sha256 := digest;
  json_to_string j :=
    match j with
    | JStr s => "<" +:+ s +:+ ">"
    | JNum n => pretty n
    | JBool b => if b then "true" else "false"
    | _ => "null"
    end;
  parse_rfc3339 s := Some ((Z.of_N (le_val (str_bytes s)) - year_zero) * 1000000000)%Z;
  rfc3339_secs t := string_of_list_byte (le_bytes 8 (Z.to_N (t / 1000000000 + year_zero)));
  verify_strict := @ed_verify ed;
|}.

Lemma ed_laws : @Ed25519Laws ed.
Proof.
  split; cbn [ed vk_to_bytes verifying_key ed_sign vk_from_bytes ed_verify]; intros; try done.
  by apply bool_decide_eq_true.
Qed.

Lemma env_laws : @CanonEnvLaws ed env.
Proof.
  split; cbn [env sha256 parse_rfc3339 rfc3339_secs verify_strict]; intros.
  - apply le_bytes_length.
  - unfold str_bytes. rewrite list_byte_of_string_of_list_byte.
    match goal with Ht : time_ok _ |- _ => unfold time_ok in Ht end.
    rewrite le_val_bytes; [|change (256 ^ N.of_nat 8) with 18446744073709551616; unfold year_zero in *; lia].
    f_equal. unfold year_zero in *. lia.
  - by rewrite Z.div_mul.
  - cbn. by apply bool_decide_eq_true.
Qed.

Definition request : CertRequest :=
  mkCertRequest "01JB8Z3Q0V6X9KQ4M2N7T5R1WD" (replicate 32 x03) 1 5000000000 (Some 9000000000%Z).

End ToyCanon.

Lemma cert_sign_verifies_witness :
  @cert_verify ToyCanon.ed ToyCanon.env
    (@cert_sign ToyCanon.ed ToyCanon.env x07 ToyCanon.request)
    (@vk_to_bytes ToyCanon.ed (@verifying_key ToyCanon.ed x07)) 6000000000 = Ok tt.
Proof.
  refine (@cert_sign_verifies ToyCanon.ed ToyCanon.env ToyCanon.env_laws ToyCanon.ed_laws x07
    ToyCanon.request 6000000000 _ _ _ _ _).
  - vm_compute. reflexivity.
  - reflexivity.
  - split; vm_compute; congruence.
  - vm_compute. congruence.
  - intros t [= <-]. split; [split|]; vm_compute; congruence.
Defined.

Lemma pop_bytes_injective_witness :
  exists b, pop_signed_bytes PopRekey (hex_string (replicate 16 x01)) (hex_string (replicate 16 x02))
      "01JB8Z3Q0V6X9KQ4M2N7T5R1WD" = Ok b /\
    forall op u n p, pop_signed_bytes op u n p = Ok b -> op = PopRekey.
Proof.
  eexists. split; [vm_compute; reflexivity|]. intros op u n p Hb.
  refine (proj1 (pop_bytes_injective op u n p PopRekey (hex_string (replicate 16 x01))
    (hex_string (replicate 16 x02)) "01JB8Z3Q0V6X9KQ4M2N7T5R1WD" _ Hb _)).
  vm_compute. reflexivity.
Defined.
