(* ===== verification/Token.v ===== *)
(** * The token authority

    token_authority.rs: bearer tokens as a table rebuilt from the chain and a
    journal of revocations: issuing, revoking, validating and listing tokens,
    the journal file with its torn tails and its pruning, and restarts that
    lose what the chain had not saved. *)

From Stdlib Require Import Strings.String.
From S2P Require Import Prelude Codec Text Chain Delegation Canon.

Local Open Scope string_scope.
Local Open Scope list_scope.
Local Open Scope N_scope.

(** ** Tokens *)

Definition SOURCE : string := "auth.token".
Definition KIND_ISSUED : string := "auth.token.issued".
Definition KIND_REVOKED : string := "auth.token.revoked".
Definition DEFAULT_TTL : Z := 900000000000.
Definition MAX_TTL : Z := 86400000000000.
Definition MAX_LABEL_LEN : nat := 64.
Definition SECRET_PREFIX : string := "wft_".

Inductive TokenScope := Owner | Project | Read.

#[export] Instance token_scope_eq_dec : EqDecision TokenScope.
Proof. solve_decision. Defined.

Definition capability_scopes (s : TokenScope) : list string :=
  match s with Owner => ["admin"] | Project => ["write"] | Read => ["read"] end.

Definition scope_parse (s : option string) : option TokenScope :=
  match s with
  | None => Some Owner
  | Some s =>
      if String.eqb s "owner" then Some Owner
      else if String.eqb s "project" then Some Project
      else if String.eqb s "read" then Some Read
      else None
  end.

Definition scope_str (s : TokenScope) : string :=
  match s with Owner => "owner" | Project => "project" | Read => "read" end.

Record TokenInfo := mkInfo {
  ti_id : string;
  ti_label : string;
  ti_issued_at : Z;
  ti_expires_at : Z;
  ti_scope : TokenScope;
  ti_project : option string;
}.

Inductive TokenError := TtlNotPositive | TtlTooLong | BadLabel | Persist (e : string).

Record Entry := mkEntry { te_hash : bytes; te_info : TokenInfo }.

(** The authority: its chain, the node's name, whether it has a journal, and
    the table. *)
Record TokenAuthority := mkAuth {
  ta_chain : LocalChain;
  ta_node_id : string;
  ta_journal : bool;
  ta_table : gmap string Entry;
}.

(** [unhex32]: [u8::from_str_radix(_, 16)] on each pair also reads a pair
    that starts with a plus sign. *)
Definition radix16 (a b : byte) : option byte :=
  match hex_nibble b with
  | Err _ => None
  | Ok lo =>
      if Byte.eqb a x2b then Some (byte_of lo)
      else match hex_nibble a with
           | Ok hi => Some (byte_of (hi * 16 + lo))
           | Err _ => None
           end
  end.

Fixpoint unhex_pairs (s : bytes) : option bytes :=
  match s with
  | a :: b :: s => x ← radix16 a b; r ← unhex_pairs s; Some (x :: r)
  | _ => Some []
  end.

Definition unhex32 (s : string) : option bytes :=
  let l := str_bytes s in
  if negb (length l =? 64)%nat || negb (forallb (fun b => Byte.to_N b <? 0x80) l) then None
  else unhex_pairs l.

(** [ct_eq] *)
Definition ct_eq (a b : bytes) : bool :=
  foldl (fun acc p => N.lor acc (N.lxor (Byte.to_N p.1) (Byte.to_N p.2))) 0 (zip a b) =? 0.

(** [id_of] *)
Definition id_of (hash : bytes) : string := string_of_list_byte (take 16 (hex_encode hash)).

(** [v.get(key).and_then(Value::as_str)] *)
Definition get_str (key : string) (v : Json) : option string := json_get key v ≫= json_as_str.

(** ** The journal's text

    [Value::to_string] and [serde_json::from_str]. *)

Class TokenEnv := {
  value_to_string : Json -> string;
  json_from_str : string -> option Json;
}.

Definition revoke_payload (id at_ : string) : Json := JObj [("id", JStr id); ("revoked_at", JStr at_)].

Definition journal_json (payload : Json) : Json :=
  JObj [("kind", JStr KIND_REVOKED); ("payload", payload); ("source", JStr SOURCE)].

(** What the journal relies on: a compact JSON object of printable strings is
    one line of printable text between braces, reads back as itself, and does
    not read when it is cut short. *)
Class TokenEnvLaws `{TokenEnv} : Prop := {
  line_text id at_ : printable (str_bytes id) -> printable (str_bytes at_) ->
    printable (str_bytes (value_to_string (journal_json (revoke_payload id at_)))) /\
    exists m, value_to_string (journal_json (revoke_payload id at_)) = "{" +:+ m +:+ "}";
  line_reads id at_ : printable (str_bytes id) -> printable (str_bytes at_) ->
    json_from_str (value_to_string (journal_json (revoke_payload id at_))) =
      Some (journal_json (revoke_payload id at_));
  cut_line id at_ n : printable (str_bytes id) -> printable (str_bytes at_) ->
    let l := str_bytes (value_to_string (journal_json (revoke_payload id at_))) in
    (n < length l)%nat -> json_from_str (string_of_list_byte (take n l)) = None;
}.

(** Times written by chrono within the years of four digits read back. *)
Class TimeLaws `{CanonEnv} : Prop := {
  rfc3339_reads t : time_ok t -> parse_rfc3339 (to_rfc3339 t) = Some t;
  rfc3339_printable t : printable (str_bytes (to_rfc3339 t));
}.

(** One token event: its kind and its payload *)
Abbreviation Record_ := (string * Json)%type.

Section Authority.
Context `{CanonEnv} `{TokenEnv}.
Context (shake256 : bytes -> bytes) (to_vec : Json -> bytes).

Definition hash_secret (secret : string) : bytes := sha256 (str_bytes secret).

(** [parse_time] *)
Definition parse_time (v : Json) (key : string) : option Z :=
  get_str key v ≫= parse_rfc3339.

(** [parse_issued] *)
Definition parse_issued (p : Json) : option Entry :=
  id ← get_str "id" p;
  hash ← get_str "sha256" p ≫= unhex32;
  issued_at ← parse_time p "issued_at";
  expires_at ← parse_time p "expires_at";
  let life := (expires_at - issued_at)%Z in
  if negb (String.eqb (id_of hash) id) || (life <=? 0)%Z || (MAX_TTL <? life)%Z then None
  else
    scope ← scope_parse (get_str "scope" p);
    Some (mkEntry hash (mkInfo id (default "" (get_str "label" p)) issued_at expires_at
            scope (get_str "project" p))).

(** The loop of [fold] *)
Definition fold_step (st : gset string * gmap string Entry) (r : Record_) : gset string * gmap string Entry :=
  let '(revoked, table) := st in
  if String.eqb r.1 KIND_ISSUED then
    match parse_issued r.2 with
    | Some e => (revoked, <[ti_id (te_info e) := e]> table)
    | None => (revoked, table)
    end
  else if String.eqb r.1 KIND_REVOKED then
    match get_str "id" r.2 with
    | Some id => ({[id]} ∪ revoked, table)
    | None => (revoked, table)
    end
  else (revoked, table).

(** [fold] *)
Definition fold (records : list Record_) (now : Z) : gmap string Entry :=
  let '(revoked, table) := foldl fold_step (∅, ∅) records in
  filter (fun p => (p.1 ∉ revoked) /\ (now < ti_expires_at (te_info p.2))%Z) table.

(** One line of [read_journal] *)
Definition journal_entry (line : bytes) : option Json :=
  let s := string_of_list_byte line in
  if String.eqb (trim s) "" then None
  else
    v ← json_from_str s;
    kind ← get_str "kind" v;
    p ← json_get "payload" v;
    if String.eqb kind KIND_REVOKED && bool_decide (is_Some (get_str "id" p)) then Some p
    else None.

(** [read_journal] on the bytes of the file, [None] when there is none; a file
    that is not UTF-8 cannot be read as text. *)
Definition read_journal (a : TokenAuthority) (file : option bytes) : list Json :=
  match file with
  | Some t => if ta_journal a && utf8_valid t then omap journal_entry (lines t) else []
  | None => []
  end.

(** How an append to the journal ends: written and synced, or an error with
    what had reached the file by then. *)
Inductive AppendOutcome := Appended | AppendFailed (msg : string) (created : bool) (written : nat).

(** [journal_revoke] *)
Definition journal_revoke (a : TokenAuthority) (file : option bytes) (payload : Json) (o : AppendOutcome)
  : option bytes * result unit TokenError :=
  if negb (ta_journal a) then (file, Ok tt)
  else
    let line := str_bytes (value_to_string (journal_json payload)) ++ [x0a] in
    let old := default [] file in
    let line := match last old with
                | Some b => if Byte.eqb b x0a then line else x0a :: line
                | None => line
                end in
    match o with
    | Appended => (Some (old ++ line), Ok tt)
    | AppendFailed msg created n =>
        (if bool_decide (file = None) && negb created then None else Some (old ++ take n line),
         Err (Persist msg))
    end.

(** The token events of the chain: [tail_from(0)] leaves out the genesis. *)
Definition token_records (events : list ChainEvent) : list Record_ :=
  omap (fun e => if String.eqb (ce_source e) SOURCE then pair (ce_kind e) <$> ce_payload e else None) events.

(** The map of issue times in [prune_journal]: the last event of an id counts *)
Definition time_step (m : gmap string Z) (r : Record_) : gmap string Z :=
  if String.eqb r.1 KIND_ISSUED then
    match get_str "id" r.2, parse_time r.2 "issued_at" with
    | Some id, Some t => <[id := t]> m
    | _, _ => m
    end
  else m.

Definition issue_times (events : list ChainEvent) : gmap string Z :=
  foldl time_step ∅ (token_records events).

(** [Iterator::max] of the times *)
Definition newest (events : list ChainEvent) : option Z :=
  match events with
  | [] => None
  | e :: es => Some (foldl (fun m x => Z.max m (ce_timestamp x)) (ce_timestamp e) es)
  end.

(** What [prune_journal] keeps of the revocations read *)
Definition prune_keep (events : list ChainEvent) (horizon : Z) (p : Json) : bool :=
  match issue_times events !! default "" (get_str "id" p) with
  | Some t => (horizon <? t + MAX_TTL)%Z
  | None => true
  end.

(** [prune_journal]; [renamed] says whether the new file was moved into place *)
Definition prune_journal (a : TokenAuthority) (file : option bytes) (events : list ChainEvent)
  (revoked : list Json) (now : Z) (renamed : bool) : option bytes :=
  if negb (ta_journal a) then file
  else
    match newest events with
    | None => file
    | Some nw =>
        let keep := List.filter (prune_keep events (Z.min now nw)) revoked in
        if (length keep =? length revoked)%nat then file
        else if renamed then
          Some (keep ≫= fun p => str_bytes (value_to_string (journal_json p)) ++ [x0a])
        else file
    end.

Definition with_table (a : TokenAuthority) (t : gmap string Entry) : TokenAuthority :=
  mkAuth (ta_chain a) (ta_node_id a) (ta_journal a) t.

Definition with_chain (a : TokenAuthority) (c : LocalChain) : TokenAuthority :=
  mkAuth c (ta_node_id a) (ta_journal a) (ta_table a).

(** [rebuild_at] *)
Definition rebuild_at (a : TokenAuthority) (file : option bytes) (now : Z) (renamed : bool)
  : TokenAuthority * option bytes :=
  let events := tail_from (ta_chain a) 0 in
  let revoked := read_journal a file in
  (with_table a (fold (token_records events ++ map (pair KIND_REVOKED) revoked) now),
   prune_journal a file events revoked now renamed).

(** [with_journal], [new] *)
Definition with_journal (c : LocalChain) (node_id : string) (journal : bool) (file : option bytes) (now : Z)
  (renamed : bool) : TokenAuthority * option bytes :=
  rebuild_at (mkAuth c node_id journal ∅) file now renamed.

(** The payload of an issue, its keys in the order of [serde_json]'s map *)
Definition issue_payload (node_id : string) (hash : bytes) (info : TokenInfo) (uid : option N) : Json :=
  JObj ([("expires_at", JStr (to_rfc3339 (ti_expires_at info))); ("id", JStr (ti_id info));
         ("issued_at", JStr (to_rfc3339 (ti_issued_at info)));
         ("issuer", JObj [("node_id", JStr node_id); ("uid", json_opt_num uid); ("uid_verified", JBool false)]);
         ("label", JStr (ti_label info))]
        ++ match ti_project info with Some p => [("project", JStr p)] | None => [] end
        ++ (if bool_decide (ti_scope info = Owner) then [] else [("scope", JStr (scope_str (ti_scope info)))])
        ++ [("sha256", JStr (hex_string hash))]).

Definition secret_of (raw : bytes) : string := SECRET_PREFIX +:+ hex_string raw.

(** The checks of [issue_scoped_at] *)
Definition check_issue (label : string) (ttl : Z) : result unit TokenError :=
  let? _ := throw_if (ttl <=? 0)%Z TtlNotPositive in
  let? _ := throw_if (MAX_TTL <? ttl)%Z TtlTooLong in
  throw_if (String.eqb label "" || (MAX_LABEL_LEN <? chars_count label)%nat || has_control (str_bytes label))
    BadLabel.

(** [issue_scoped_at]: [raw] is what the random source returns; the chain reads
    its own clock twice and stamps the hash of the rules in force. *)
Definition issue_scoped_at (a : TokenAuthority) (cnow cnow' : Z) (stamp : option bytes) (now : Z)
  (label : string) (ttl : option Z) (project : option string) (scope : TokenScope) (uid : option N)
  (raw : bytes) : TokenAuthority * result (string * TokenInfo) TokenError :=
  let ttl := default DEFAULT_TTL ttl in
  match check_issue label ttl with
  | Err e => (a, Err e)
  | Ok _ =>
      let secret := secret_of raw in
      let hash := hash_secret secret in
      let info := mkInfo (id_of hash) label now (now + ttl)%Z scope project in
      let c := (local_append shake256 to_vec (ta_chain a) cnow cnow' stamp SOURCE KIND_ISSUED
                  (Some (issue_payload (ta_node_id a) hash info uid))).1 in
      (mkAuth c (ta_node_id a) (ta_journal a) (<[ti_id info := mkEntry hash info]> (ta_table a)),
       Ok (secret, info))
  end.

(** [issue_at], [issue_project] *)
Definition issue_at a cnow cnow' stamp now label ttl project uid raw :=
  issue_scoped_at a cnow cnow' stamp now label ttl project Owner uid raw.

Definition issue_project a cnow cnow' stamp now project_id ttl uid raw :=
  issue_scoped_at a cnow cnow' stamp now ("project:" +:+ project_id) (Some ttl) (Some project_id) Project uid raw.

(** [revoke] *)
Definition revoke (a : TokenAuthority) (file : option bytes) (cnow cnow' : Z) (stamp : option bytes)
  (now : Z) (id : string) (o : AppendOutcome)
  : TokenAuthority * option bytes * result bool TokenError :=
  match ta_table a !! id with
  | None => (a, file, Ok false)
  | Some _ =>
      let payload := revoke_payload id (to_rfc3339 now) in
      let c := (local_append shake256 to_vec (ta_chain a) cnow cnow' stamp SOURCE KIND_REVOKED (Some payload)).1 in
      let a := mkAuth c (ta_node_id a) (ta_journal a) (delete id (ta_table a)) in
      let '(file, r) := journal_revoke a file payload o in
      (a, file, match r with Ok _ => Ok true | Err e => Err e end)
  end.

(** [validate_at] *)
Definition validate_at (a : TokenAuthority) (now : Z) (secret : string) : option TokenInfo :=
  let hash := hash_secret secret in
  e ← ta_table a !! id_of hash;
  if ct_eq (te_hash e) hash && (now <? ti_expires_at (te_info e))%Z then Some (te_info e) else None.

(** [list_at]: the order compares the times and then the ids *)
Definition info_leb (x y : TokenInfo) : bool :=
  (ti_issued_at x <? ti_issued_at y)%Z ||
  ((ti_issued_at x =? ti_issued_at y)%Z && str_leb (ti_id x) (ti_id y)).

Definition list_at (order : gmap string Entry -> list Entry) (a : TokenAuthority) (now : Z) : list TokenInfo :=
  merge_sort (fun x y => Is_true (info_leb x y))
    (te_info <$> List.filter (fun e => (now <? ti_expires_at (te_info e))%Z) (order (ta_table a))).

End Authority.

(** ** Constant-time comparison *)

Lemma ct_fold_zero l acc :
  foldl (fun acc p => N.lor acc (N.lxor (Byte.to_N p.1) (Byte.to_N p.2))) acc l = 0 <->
  acc = 0 /\ Forall (fun p => p.1 = p.2) l.
Proof.
  revert acc. induction l as [|[x y] l IH]; intros acc; cbn [foldl fst snd].
  - split; [by intros ->|by intros [-> _]].
  - rewrite IH, Forall_cons, N.lor_eq_0_iff, N.lxor_eq_0_iff. cbn [fst snd]. split.
    + intros [[-> Hx] Hl]. repeat split; try done.
      apply (f_equal Byte.of_N) in Hx. rewrite !Byte.of_to_N in Hx. congruence.
    + by intros (-> & -> & Hl).
Qed.

Lemma ct_eq_spec a b : length a = length b -> (ct_eq a b = true <-> a = b).
Proof.
  intros Hl. unfold ct_eq. rewrite N.eqb_eq, ct_fold_zero. split.
  - intros [_ Hf]. revert b Hl Hf. induction a as [|x a IH]; intros [|y b] Hl Hf; try done.
    apply Forall_cons in Hf as [Hx Hf]. cbn in Hx. subst. f_equal. apply IH; [by injection Hl|done].
  - intros ->. split; [done|]. clear. induction b; by constructor.
Qed.

(** ** Hashes and ids *)

Lemma radix16_hex b :
  radix16 (hex_digit (Byte.to_N b / 16)) (hex_digit (Byte.to_N b mod 16)) = Some b /\
  Byte.to_N (hex_digit (Byte.to_N b / 16)) < 0x80 /\ Byte.to_N (hex_digit (Byte.to_N b mod 16)) < 0x80.
Proof. destruct b; vm_compute; done. Qed.

Lemma unhex_encode data : unhex_pairs (hex_encode data) = Some data.
Proof.
  induction data as [|b data IH]; [done|].
  change (hex_encode (b :: data)) with (hex_byte b ++ hex_encode data).
  unfold hex_byte. cbn [app unhex_pairs]. destruct (radix16_hex b) as [-> _]. by rewrite IH.
Qed.

Lemma hex_ascii data : Forall (fun b => Byte.to_N b < 0x80) (hex_encode data).
Proof.
  induction data as [|b data IH]; [constructor|].
  change (hex_encode (b :: data)) with (hex_byte b ++ hex_encode data).
  unfold hex_byte. destruct (radix16_hex b) as (_ & ? & ?). cbn [app]. by repeat constructor.
Qed.

Lemma unhex32_hex data : length data = 32%nat -> unhex32 (hex_string data) = Some data.
Proof.
  intros Hl. unfold unhex32, hex_string, str_bytes.
  rewrite list_byte_of_string_of_list_byte, hex_encode_length, Hl. cbn [negb Nat.eqb Nat.mul Nat.add orb].
  rewrite (proj2 (forallb_forall _ _)); [apply unhex_encode|].
  intros b Hb. apply N.ltb_lt. pose proof (hex_ascii data) as Hf. rewrite Forall_forall in Hf.
  apply Hf. by apply list_elem_of_In.
Qed.

Lemma hex_printable data : printable (hex_encode data).
Proof.
  induction data as [|b data IH]; [constructor|].
  change (hex_encode (b :: data)) with (hex_byte b ++ hex_encode data).
  apply Forall_app. split; [|done]. destruct b; repeat constructor.
Qed.

Lemma id_printable hash : printable (str_bytes (id_of hash)).
Proof.
  unfold id_of, str_bytes. rewrite list_byte_of_string_of_list_byte.
  apply Forall_take, hex_printable.
Qed.

Section Records.
Context `{CanonEnv} `{TokenEnv}.

(** ** Issued payloads *)

Lemma parse_issued_spec p e :
  parse_issued p = Some e ->
  get_str "id" p = Some (ti_id (te_info e)) /\ parse_time p "issued_at" = Some (ti_issued_at (te_info e)) /\
  ti_id (te_info e) = id_of (te_hash e) /\
  (0 < ti_expires_at (te_info e) - ti_issued_at (te_info e) <= MAX_TTL)%Z.
Proof using.
  unfold parse_issued. intros Hp.
  apply bind_Some in Hp as (id & Hid & Hp). apply bind_Some in Hp as (hash & _ & Hp).
  apply bind_Some in Hp as (t & Ht & Hp). apply bind_Some in Hp as (x & _ & Hp).
  destruct (negb _ || _ || _) eqn:E; [done|].
  apply bind_Some in Hp as (sc & _ & Hp). injection Hp as <-. cbn [te_info ti_id ti_issued_at ti_expires_at te_hash].
  apply orb_false_iff in E as [[E1 E2]%orb_false_iff E3].
  apply negb_false_iff, String.eqb_eq in E1. split_and!; try done; lia.
Qed.

(** What [issue] writes, a rebuild reads back. *)
Lemma issue_payload_parses `{!TimeLaws} node hash info uid :
  length hash = 32%nat -> ti_id info = id_of hash ->
  time_ok (ti_issued_at info) -> time_ok (ti_expires_at info) ->
  (0 < ti_expires_at info - ti_issued_at info <= MAX_TTL)%Z ->
  parse_issued (issue_payload node hash info uid) = Some (mkEntry hash info).
Proof.
  intros Hl Hid Ht Hx Hlife. destruct info as [id label t x sc pr]. cbn in Hid, Ht, Hx, Hlife.
  assert (forall k v, In (k, v) [("id", id); ("sha256", hex_string hash); ("issued_at", to_rfc3339 t);
            ("expires_at", to_rfc3339 x); ("label", label)] ->
          get_str k (issue_payload node hash (mkInfo id label t x sc pr) uid) = Some v) as Hget.
  { intros k v Hin. cbn in Hin. destruct pr, sc; intuition; simplify_eq; reflexivity. }
  unfold parse_issued, parse_time.
  rewrite (Hget "id" id), (Hget "sha256" (hex_string hash)), (Hget "issued_at" (to_rfc3339 t)),
    (Hget "expires_at" (to_rfc3339 x)), (Hget "label" label) by (cbn; clear; tauto).
  simpl mbind. rewrite unhex32_hex, !rfc3339_reads by done. simpl mbind.
  rewrite <- Hid, String.eqb_refl. cbn [negb orb].
  destruct (Z.leb_spec (x - t) 0); [lia|]. destruct (Z.ltb_spec MAX_TTL (x - t)); [lia|]. cbn [orb].
  destruct pr, sc; reflexivity.
Qed.

(** ** Folding *)

Definition revoked_of (rs : list Record_) : gset string := (foldl fold_step (∅, ∅) rs).1.
Definition issued_of (rs : list Record_) : gmap string Entry := (foldl fold_step (∅, ∅) rs).2.

Lemma fold_eq rs now :
  fold rs now = filter (fun p => (p.1 ∉ revoked_of rs) /\ (now < ti_expires_at (te_info p.2))%Z) (issued_of rs).
Proof using. unfold fold, revoked_of, issued_of. by destruct (foldl _ _ rs). Qed.

Lemma fold_lookup rs now id e :
  fold rs now !! id = Some e <->
  issued_of rs !! id = Some e /\ id ∉ revoked_of rs /\ (now < ti_expires_at (te_info e))%Z.
Proof using. rewrite fold_eq, map_lookup_filter_Some. done. Qed.

Lemma fold_step_eq rs r :
  (revoked_of (rs ++ [r]), issued_of (rs ++ [r])) = fold_step (revoked_of rs, issued_of rs) r.
Proof using. unfold revoked_of, issued_of. rewrite foldl_snoc. by destruct (foldl _ _ rs), (fold_step _ r). Qed.

Lemma snoc_to rs r rv tb :
  fold_step (revoked_of rs, issued_of rs) r = (rv, tb) ->
  revoked_of (rs ++ [r]) = rv /\ issued_of (rs ++ [r]) = tb.
Proof using. intros E. rewrite <- fold_step_eq in E. by inv_tuple E. Qed.

Lemma snoc_revoke rs p id :
  get_str "id" p = Some id ->
  revoked_of (rs ++ [(KIND_REVOKED, p)]) = {[id]} ∪ revoked_of rs /\
  issued_of (rs ++ [(KIND_REVOKED, p)]) = issued_of rs.
Proof using. intros Hid. apply snoc_to. cbn. by rewrite Hid. Qed.

Lemma snoc_bad_revoke rs p :
  get_str "id" p = None ->
  revoked_of (rs ++ [(KIND_REVOKED, p)]) = revoked_of rs /\
  issued_of (rs ++ [(KIND_REVOKED, p)]) = issued_of rs.
Proof using. intros Hid. apply snoc_to. cbn. by rewrite Hid. Qed.

Lemma snoc_issue rs p e :
  parse_issued p = Some e ->
  revoked_of (rs ++ [(KIND_ISSUED, p)]) = revoked_of rs /\
  issued_of (rs ++ [(KIND_ISSUED, p)]) = <[ti_id (te_info e) := e]> (issued_of rs).
Proof using. intros He. apply snoc_to. unfold fold_step. cbn [fst snd]. simpl String.eqb. by rewrite He. Qed.

(** Revocations alone: those of the journal *)
Definition ids_of (js : list Json) : gset string := list_to_set (omap (get_str "id") js).

Lemma fold_journal rs js :
  revoked_of (rs ++ map (pair KIND_REVOKED) js) = ids_of js ∪ revoked_of rs /\
  issued_of (rs ++ map (pair KIND_REVOKED) js) = issued_of rs.
Proof using.
  induction js as [|p js [IH1 IH2]] using rev_ind; cbn [map].
  - rewrite app_nil_r. split; [|done]. unfold ids_of. cbn. set_solver.
  - rewrite map_app, app_assoc. cbn [map]. unfold ids_of in *. rewrite omap_app, list_to_set_app_L. cbn [omap list_omap].
    destruct (get_str "id" p) as [id|] eqn:Hid.
    + destruct (snoc_revoke (rs ++ map (pair KIND_REVOKED) js) p id Hid) as [-> ->].
      rewrite IH1, IH2. split; [cbn [list_to_set]; set_solver|done].
    + destruct (snoc_bad_revoke (rs ++ map (pair KIND_REVOKED) js) p Hid) as [-> ->].
      rewrite IH1, IH2. split; [set_solver|done].
Qed.

End Records.

(** ** The journal *)

Definition ascii_text (file : option bytes) : Prop := Forall (fun b => Byte.to_N b < 0x80) (default [] file).

Section Journal.
Context `{CanonEnv} `{TL : TokenEnvLaws}.

Lemma line_entry id at_ :
  printable (str_bytes id) -> printable (str_bytes at_) ->
  journal_entry (str_bytes (value_to_string (journal_json (revoke_payload id at_)))) = Some (revoke_payload id at_).
Proof.
  intros Hi Ha. unfold journal_entry, str_bytes. rewrite string_of_list_byte_of_string.
  destruct (line_text id at_ Hi Ha) as [_ [m E]]. rewrite line_reads by done.
  rewrite E, trim_braces. done.
Qed.

Lemma cut_entry id at_ n :
  printable (str_bytes id) -> printable (str_bytes at_) ->
  let l := str_bytes (value_to_string (journal_json (revoke_payload id at_))) in
  (n < length l)%nat -> journal_entry (take n l) = None.
Proof.
  cbn zeta. intros Hi Ha Hn. unfold journal_entry. rewrite cut_line by done. by destruct (String.eqb _ _).
Qed.

(** What one record, or the beginning of one, adds to the entries *)
Lemma lines_of_cut id at_ m :
  printable (str_bytes id) -> printable (str_bytes at_) ->
  let p := revoke_payload id at_ in
  let l := str_bytes (value_to_string (journal_json p)) in
  (omap journal_entry (map strip_cr (split_lines (take m (l ++ [x0a])))) = [] \/
   omap journal_entry (map strip_cr (split_lines (take m (l ++ [x0a])))) = [p]) /\
  ((length l < m)%nat -> omap journal_entry (map strip_cr (split_lines (take m (l ++ [x0a])))) = [p]).
Proof.
  cbn zeta. intros Hi Ha. destruct (line_text id at_ Hi Ha) as [Hp [mid E]].
  pose proof (line_entry id at_ Hi Ha) as Hent. pose proof (cut_entry id at_ m Hi Ha) as Hcut. cbn zeta in Hcut.
  set (l := str_bytes (value_to_string (journal_json (revoke_payload id at_)))) in *.
  assert (x0a ∉ l) as Hnl by (by apply printable_not_in).
  assert (l <> []) as Hne by (unfold l; rewrite E; done).
  destruct (decide (m = 0%nat)) as [->|Hm]; [split; [by left|lia]|].
  destruct (decide (m < length l)%nat) as [Hlt|Hge].
  - split; [|lia]. left. rewrite take_app_le by lia.
    rewrite split_lines_one; [|intros Hin; apply Hnl; by eapply (subseteq_take m)|].
    + cbn [map omap list_omap]. rewrite strip_cr_printable by (by apply Forall_take). by rewrite Hcut.
    + destruct m, l; done.
  - assert (split_lines (take m (l ++ [x0a])) = [l]) as ->.
    { destruct (decide (m = length l)) as [->|].
      - rewrite take_app_length. by apply split_lines_one.
      - rewrite take_ge by (rewrite length_app; cbn; lia). by apply split_lines_line. }
    cbn [map omap list_omap]. rewrite strip_cr_printable, Hent by done. auto.
Qed.

Lemma read_journal_text a file :
  ta_journal a = true -> ascii_text file -> read_journal a file = omap journal_entry (lines (default [] file)).
Proof using.
  intros Hj Ha. destruct file as [t|]; [|done]. cbn. by rewrite Hj, ascii_utf8.
Qed.

(** An append adds its record when it succeeds, and otherwise at most that
    record, whatever was torn before. *)
Lemma journal_append a file id at_ o file' r :
  printable (str_bytes id) -> printable (str_bytes at_) -> ta_journal a = true -> ascii_text file ->
  journal_revoke a file (revoke_payload id at_) o = (file', r) ->
  ascii_text file' /\
  exists js, read_journal a file' = read_journal a file ++ js /\ (js = [] \/ js = [revoke_payload id at_]) /\
    (r = Ok tt -> js = [revoke_payload id at_]).
Proof.
  intros Hi Ha Hj Hf. unfold journal_revoke. rewrite Hj. cbn [negb].
  destruct (line_text id at_ Hi Ha) as [Hp _]. apply printable_ascii in Hp.
  set (l := str_bytes (value_to_string (journal_json (revoke_payload id at_)))) in *.
  fold (glue (default [] file) (l ++ [x0a])). set (g := glue _ _).
  assert (Forall (fun b => Byte.to_N b < 0x80) g) as Hg.
  { unfold g, glue. assert (Forall (fun b => Byte.to_N b < 0x80) (l ++ [x0a])) by (apply Forall_app; by repeat constructor).
    destruct (last _) as [b|]; [destruct (Byte.eqb b x0a)|]; [done| |done]. by constructor. }
  assert (forall n, let f' := Some (default [] file ++ take n g) in
    ascii_text f' /\ exists js, read_journal a f' = read_journal a file ++ js /\
      (js = [] \/ js = [revoke_payload id at_]) /\ ((length g <= n)%nat -> js = [revoke_payload id at_])) as Hn.
  { intros n. cbn zeta. assert (ascii_text (Some (default [] file ++ take n g))) as Hasc
      by (apply Forall_app; split; [done|by apply Forall_take]).
    split; [done|]. rewrite !read_journal_text by done. unfold lines. simpl default.
    destruct (split_lines_glue (default [] file) (l ++ [x0a]) n) as (m & E & Hm). fold g in E, Hm.
    rewrite E, map_app, omap_app. eexists. split; [done|].
    destruct (lines_of_cut id at_ m Hi Ha) as [Hl1 Hl2]. split; [done|]. intros Hle. apply Hl2. fold l.
    specialize (Hm Hle). rewrite length_app in Hm. cbn in Hm. lia. }
  destruct o as [|msg created n]; intros [= <- <-].
  - destruct (Hn (length g)) as [Hasc (js & E & Hjs & Hfull)]. cbn zeta in *.
    rewrite firstn_all in Hasc, E. split; [done|]. exists js. auto.
  - destruct (bool_decide (file = None) && negb created) eqn:Ec.
    + apply andb_prop in Ec as [Hno _]. apply bool_decide_eq_true in Hno as ->.
      split; [constructor|]. exists []. split; [done|]. split; [by left|done].
    + destruct (Hn n) as [Hasc (js & E & Hjs & _)]. split; [done|]. exists js. naive_solver.
Qed.

(** The payloads [revoke] writes *)
Definition good_payload (p : Json) : Prop :=
  exists id at_, p = revoke_payload id at_ /\ printable (str_bytes id) /\ printable (str_bytes at_).

Lemma rewritten_entries js :
  Forall good_payload js ->
  let t := js ≫= fun p => str_bytes (value_to_string (journal_json p)) ++ [x0a] in
  Forall (fun b => Byte.to_N b < 0x80) t /\ omap journal_entry (lines t) = js.
Proof.
  cbn zeta. induction 1 as [|p js (id & at_ & -> & Hi & Ha) _ [IH1 IH2]]; [split; [constructor|done]|].
  destruct (line_text id at_ Hi Ha) as [Hp _]. simpl mbind. split.
  - repeat apply Forall_app_2; [by apply printable_ascii|by repeat constructor|done].
  - unfold lines. rewrite split_lines_ended by apply last_snoc.
    rewrite split_lines_line by (by apply printable_not_in). cbn [app map omap list_omap].
    rewrite strip_cr_printable, line_entry by done. f_equal. exact IH2.
Qed.

(** Pruning keeps the file readable and drops only revocations whose token
    has outlived its longest life by the horizon. *)
Lemma prune_read a file events now renamed :
  let js := read_journal a file in
  let file' := prune_journal a file events js now renamed in
  ta_journal a = true -> ascii_text file -> Forall good_payload js ->
  ascii_text file' /\
  (read_journal a file' = js \/
   exists nw, newest events = Some nw /\ read_journal a file' = List.filter (prune_keep events (Z.min now nw)) js).
Proof.
  cbn zeta. intros Hj Ha Hg. unfold prune_journal. rewrite Hj. cbn [negb].
  destruct (newest events) as [nw|]; [|auto]. cbn zeta.
  destruct (Nat.eqb _ _); [auto|]. destruct renamed; [|auto].
  set (keep := List.filter _ _).
  assert (Forall good_payload keep) as [Hk1 Hk2]%rewritten_entries.
  { apply Forall_forall. intros p [Hp _]%list_elem_of_In%filter_In.
    rewrite Forall_forall in Hg. apply Hg. by apply list_elem_of_In. }
  split; [done|]. right. exists nw. split; [done|]. by rewrite read_journal_text.
Qed.

End Journal.

Section Single.
Context `{CanonEnv} `{TokenEnv}.

Definition times_of (rs : list Record_) : gmap string Z := foldl time_step ∅ rs.

(** Every issue on the chain is one [parse_issued] accepts. *)
Definition issues_parse (rs : list Record_) : Prop :=
  Forall (fun r => r.1 = KIND_ISSUED -> is_Some (parse_issued r.2)) rs.

Lemma times_of_issued rs :
  issues_parse rs -> times_of rs = (fun e => ti_issued_at (te_info e)) <$> issued_of rs.
Proof using.
  induction rs as [|[k p] rs IH] using rev_ind; [intros _; symmetry; apply fmap_empty|].
  intros [Hrs [Hr _]%Forall_cons]%Forall_app. unfold times_of. rewrite foldl_snoc. fold (times_of rs).
  rewrite (IH Hrs). unfold time_step. cbn [fst snd] in *. destruct (String.eqb_spec k KIND_ISSUED) as [->|Hk].
  - destruct (Hr eq_refl) as [e He]. destruct (parse_issued_spec p e He) as (-> & -> & _).
    destruct (snoc_issue rs p e He) as [_ ->]. by rewrite fmap_insert.
  - destruct (decide (k = KIND_REVOKED)) as [->|Hk'].
    + destruct (get_str "id" p) eqn:E.
      * by destruct (snoc_revoke rs p _ E) as [_ ->].
      * by destruct (snoc_bad_revoke rs p E) as [_ ->].
    + edestruct (snoc_to rs (k, p)) as [_ ->]; [|done]. unfold fold_step. cbn [fst snd].
      apply String.eqb_neq in Hk, Hk'. by rewrite Hk, Hk'.
Qed.

(** A file can only take tokens away: whatever the journal holds, a token of
    the rebuilt table is one that the chain alone gives. *)
Theorem journal_cannot_mint a file now renamed id e :
  ta_table (rebuild_at a file now renamed).1 !! id = Some e ->
  fold (token_records (tail_from (ta_chain a) 0)) now !! id = Some e.
Proof using.
  cbn [rebuild_at fst with_table ta_table]. rewrite !fold_lookup.
  destruct (fold_journal (token_records (tail_from (ta_chain a) 0)) (read_journal a file)) as [-> ->].
  set_solver.
Qed.

(** A secret is accepted exactly when the table has an entry under its id with
    its very hash, until the entry expires. *)
Lemma validate_spec `{!CanonEnvLaws} a now secret info :
  (forall id e, ta_table a !! id = Some e -> length (te_hash e) = 32%nat) ->
  validate_at a now secret = Some info <->
  ta_table a !! id_of (hash_secret secret) = Some (mkEntry (hash_secret secret) info) /\
  (now < ti_expires_at info)%Z.
Proof.
  intros Hlen. unfold validate_at. cbn zeta. split.
  - intros ([h i] & Hl & Hv)%bind_Some. pose proof (Hlen _ _ Hl) as Hh. cbn [te_hash te_info] in *.
    destruct (ct_eq h (hash_secret secret)) eqn:E; [|done]. cbn [andb] in Hv.
    apply ct_eq_spec in E; [|unfold hash_secret; by rewrite sha256_length]. subst h.
    destruct (Z.ltb_spec now (ti_expires_at i)); [|done]. by injection Hv as ->.
  - intros [-> Hx]. cbn [mbind option_bind te_hash te_info].
    rewrite (proj2 (ct_eq_spec _ _ eq_refl)) by done. by rewrite (proj2 (Z.ltb_lt _ _) Hx).
Qed.

(** Issuing on every branch.  A lifetime that is not positive or above 24
    hours, or a label that is empty, longer than 64 characters or has control
    characters, is refused and changes nothing.  Otherwise the new secret is
    accepted until its expiry and not after, and secrets of other ids are
    accepted as before. *)
Theorem issue_exact shake256 to_vec a cnow cnow' stamp now label ttl project scope uid raw :
  let ttl' := default DEFAULT_TTL ttl in
  let '(a', r) := issue_scoped_at shake256 to_vec a cnow cnow' stamp now label ttl project scope uid raw in
  let bad_label := label = "" \/ (MAX_LABEL_LEN < chars_count label)%nat \/ has_control (str_bytes label) = true in
  match r with
  | Err e => a' = a /\
      ((e = TtlNotPositive /\ (ttl' <= 0)%Z) \/ (e = TtlTooLong /\ (MAX_TTL < ttl')%Z) \/ (e = BadLabel /\ bad_label))
  | Ok (secret, info) =>
      (0 < ttl' <= MAX_TTL)%Z /\ ~ bad_label /\ secret = secret_of raw /\
      info = mkInfo (id_of (hash_secret secret)) label now (now + ttl')%Z scope project /\
      (forall t, validate_at a' t secret = if (t <? now + ttl')%Z then Some info else None) /\
      (forall t s, id_of (hash_secret s) <> ti_id info -> validate_at a' t s = validate_at a t s)
  end.
Proof using.
  cbn zeta. unfold issue_scoped_at, check_issue, throw_if. set (ttl' := default DEFAULT_TTL ttl).
  destruct (Z.leb_spec ttl' 0); [naive_solver|]. destruct (Z.ltb_spec MAX_TTL ttl'); [naive_solver|].
  destruct (String.eqb_spec label ""); [naive_solver|].
  destruct (Nat.ltb_spec MAX_LABEL_LEN (chars_count label)); [naive_solver|].
  destruct (has_control _); cbn [orb]; [naive_solver|].
  split; [lia|]. split; [intros [?|[?|?]]; [done|lia|done]|]. split; [done|]. split; [done|].
  split; intros; unfold validate_at; cbn zeta; cbn [ta_table ti_id] in *.
  - rewrite lookup_insert_eq. cbn [mbind option_bind te_hash te_info ti_expires_at].
    by rewrite (proj2 (ct_eq_spec _ _ eq_refl) eq_refl).
  - by rewrite lookup_insert_ne by done.
Qed.

End Single.

(** ** Listing *)

Lemma info_leb_iff x y :
  Is_true (info_leb x y) <->
  (ti_issued_at x < ti_issued_at y)%Z \/ ti_issued_at x = ti_issued_at y /\ str_leb (ti_id x) (ti_id y) = true.
Proof.
  unfold info_leb. rewrite Is_true_true, orb_true_iff, andb_true_iff, Z.ltb_lt, Z.eqb_eq. done.
Qed.

#[local] Instance info_leb_total : Total (fun x y => Is_true (info_leb x y)).
Proof.
  intros x y. rewrite !info_leb_iff. destruct (bytes_leb_total (str_bytes (ti_id x)) (str_bytes (ti_id y)));
    unfold str_leb; destruct (Z.lt_total (ti_issued_at x) (ti_issued_at y)) as [Hz|[Hz|Hz]]; auto.
Qed.

#[local] Instance info_leb_trans : Transitive (fun x y => Is_true (info_leb x y)).
Proof.
  intros x y z. rewrite !info_leb_iff. intros [?|[? Hxy]] [?|[? Hyz]]; try (left; lia).
  right. split; [congruence|]. by eapply bytes_leb_trans.
Qed.

(** The listing shows every unexpired token once, by time of issue and then by
    id, whatever order the table is walked in. *)
Theorem list_order_free o1 o2 a now :
  (forall t, o1 t ≡ₚ (map_to_list t).*2) -> (forall t, o2 t ≡ₚ (map_to_list t).*2) ->
  map_Forall (fun id e => ti_id (te_info e) = id) (ta_table a) ->
  list_at o1 a now = list_at o2 a now /\
  StronglySorted (fun x y => Is_true (info_leb x y)) (list_at o1 a now) /\
  forall info, info ∈ list_at o1 a now <->
    exists e, ta_table a !! ti_id info = Some e /\ te_info e = info /\ (now < ti_expires_at info)%Z.
Proof.
  intros Ho1 Ho2 Hkey.
  assert (forall o, (forall t, o t ≡ₚ (map_to_list t).*2) -> forall info, info ∈ list_at o a now <->
    exists e, ta_table a !! ti_id info = Some e /\ te_info e = info /\ (now < ti_expires_at info)%Z) as Hmem.
  { intros o Ho info. unfold list_at. rewrite merge_sort_Permutation, list_elem_of_fmap.
    assert (forall e, e ∈ o (ta_table a) <-> exists id, ta_table a !! id = Some e) as Hin.
    { intros e. rewrite (Ho _), list_elem_of_fmap. split.
      - intros ([id x] & -> & Hx%elem_of_map_to_list). eauto.
      - intros [id Hid]. exists (id, e). by rewrite elem_of_map_to_list. }
    split.
    - intros (e & -> & [He Hx]%list_elem_of_In%filter_In). apply list_elem_of_In, Hin in He as [id Hid].
      exists e. rewrite (Hkey _ _ Hid). split_and!; [done|done|by apply Z.ltb_lt].
    - intros (e & He & <- & Hx). exists e. split; [done|]. apply list_elem_of_In, filter_In.
      split; [apply list_elem_of_In, Hin; eauto|by apply Z.ltb_lt]. }
  split; [|split; [by apply StronglySorted_merge_sort; apply _|by apply Hmem]].
  eapply (StronglySorted_unique_strong (fun x y => Is_true (info_leb x y))); [| |
    by apply StronglySorted_merge_sort; apply _|].
  - intros x y Hx Hy. rewrite !info_leb_iff. intros [?|[? Hxy]] [?|[? Hyx]]; try lia.
    assert (ti_id x = ti_id y) as Hid.
    { rewrite <- (string_of_list_byte_of_string (ti_id x)), <- (string_of_list_byte_of_string (ti_id y)).
      f_equal. by apply bytes_leb_antisymm. }
    apply Hmem in Hx as (e & He & <- & _); [|done]. apply Hmem in Hy as (e' & He' & <- & _); [|done].
    rewrite Hid in He. congruence.
  - by apply StronglySorted_merge_sort; apply _.
  - unfold list_at. rewrite !merge_sort_Permutation. f_equiv.
    assert (o1 (ta_table a) ≡ₚ o2 (ta_table a)) as E by (by rewrite Ho1, Ho2). clear -E.
    induction E; cbn; repeat case_match; try done; try by constructor. by etrans.
Qed.
