(* ===== verification/TokenRuns.v ===== *)
(** * The life of a token authority

    Runs of token_authority.rs over its chain and its journal: issues,
    revocations, other events on the chain, saves of the chain and restarts
    from the last save.  The live table is the one a rebuild gives, and an
    acknowledged revocation outlives crashes. *)

From Stdlib Require Import Strings.String.
From S2P Require Import Prelude Codec Text Chain Delegation Canon Token.

Local Open Scope string_scope.
Local Open Scope list_scope.
Local Open Scope N_scope.

(** The authority, the journal file, the chain as last saved, the time of the
    last rebuild; and, for the statements only, every id drawn so far and every
    id whose revocation was acknowledged. *)
Record World := mkWorld {
  w_auth : TokenAuthority;
  w_file : option bytes;
  w_saved : LocalChain;
  w_boot : Z;
  w_used : gset string;
  w_acked : gset string;
}.

Section Folds.
Context `{CE : CanonEnv} `{TE : TokenEnv}.

(** ** What the fold of a longer list keeps *)

Lemma revoked_of_mono rs rs' : revoked_of rs ⊆ revoked_of (rs ++ rs').
Proof.
  induction rs' as [|[k p] rs' IH] using rev_ind; [by rewrite app_nil_r|]. rewrite app_assoc.
  etrans; [exact IH|]. unfold revoked_of at 2. rewrite foldl_snoc. unfold revoked_of.
  destruct (foldl fold_step _ _) as [rv tb]. unfold fold_step. cbn [fst snd].
  destruct (String.eqb k KIND_ISSUED); [by destruct (parse_issued p)|].
  destruct (String.eqb k KIND_REVOKED); [destruct (get_str "id" p); set_solver|done].
Qed.

(** An entry of the table carries its key, the id of its hash, and a life
    within the bounds. *)
Definition entry_ok (id : string) (e : Entry) : Prop :=
  ti_id (te_info e) = id /\ id = id_of (te_hash e) /\
  (0 < ti_expires_at (te_info e) - ti_issued_at (te_info e) <= MAX_TTL)%Z.

Lemma issued_of_ok rs id e : issued_of rs !! id = Some e -> entry_ok id e.
Proof.
  unfold issued_of. revert id e. induction rs as [|[k p] rs IH] using rev_ind; intros id e; [done|].
  rewrite foldl_snoc. destruct (foldl fold_step _ _) as [rv tb]. cbn [snd] in IH. unfold fold_step. cbn [fst snd].
  destruct (String.eqb k KIND_ISSUED).
  - destruct (parse_issued p) as [x|] eqn:E; cbn [snd]; [|apply IH].
    intros [[<- <-]|[_ Hl]]%lookup_insert_Some; [|by apply IH].
    destruct (parse_issued_spec p x E) as (_ & _ & Hid & Hlife). done.
  - destruct (String.eqb k KIND_REVOKED); [destruct (get_str "id" p)|]; apply IH.
Qed.

Definition entries (file : option bytes) : list Json := omap journal_entry (lines (default [] file)).

Lemma ids_of_app js js' : ids_of (js ++ js') = ids_of js ∪ ids_of js'.
Proof. unfold ids_of. by rewrite omap_app, list_to_set_app_L. Qed.

Lemma newest_in l nw : newest l = Some nw -> exists x, x ∈ l /\ ce_timestamp x = nw.
Proof.
  destruct l as [|e l]; [done|]. intros [= <-]. revert e.
  induction l as [|y l IH]; intros e; [exists e; set_solver|]. cbn [foldl].
  destruct (Z.max_spec (ce_timestamp e) (ce_timestamp y)) as [[_ ->]|[_ ->]].
  - destruct (IH y) as (x & Hx & ?). exists x. set_solver.
  - destruct (IH e) as (x & Hx & ?). exists x. set_solver.
Qed.

End Folds.

Section Runs.
Context `{CE : CanonEnv} `{TE : TokenEnv}.
Context (shake256 : bytes -> bytes) (to_vec : Json -> bytes).

Definition recs (c : LocalChain) : list Record_ := token_records (tail_from c 0).

(** The chain can take one more event. *)
Definition room (w : World) : Prop := lenN (lc_events (ta_chain (w_auth w))) + 1 < u64_mod.

Definition drawn (raw : bytes) : string := id_of (hash_secret (secret_of raw)).

Inductive token_step : World -> World -> Prop :=
| step_issue w cnow cnow' stamp now label ttl project scope uid raw a r :
    room w -> drawn raw ∉ w_used w ->
    time_ok now -> time_ok (now + default DEFAULT_TTL ttl)%Z ->
    issue_scoped_at shake256 to_vec (w_auth w) cnow cnow' stamp now label ttl project scope uid raw = (a, r) ->
    token_step w (mkWorld a (w_file w) (w_saved w) (w_boot w) ({[drawn raw]} ∪ w_used w) (w_acked w))
| step_revoke w cnow cnow' stamp now id o a file r :
    room w -> revoke shake256 to_vec (w_auth w) (w_file w) cnow cnow' stamp now id o = (a, file, r) ->
    token_step w (mkWorld a file (w_saved w) (w_boot w) (w_used w)
                    (match r with Ok true => {[id]} ∪ w_acked w | _ => w_acked w end))
| step_other w op :
    room w -> neutral_for SOURCE op ->
    token_step w (mkWorld (with_chain (w_auth w) (chain_step shake256 to_vec (ta_chain (w_auth w)) op))
                    (w_file w) (w_saved w) (w_boot w) (w_used w) (w_acked w))
| step_save w :
    token_step w (mkWorld (w_auth w) (w_file w) (ta_chain (w_auth w)) (w_boot w) (w_used w) (w_acked w))
| step_restart w now renamed a file :
    with_journal (w_saved w) (ta_node_id (w_auth w)) (ta_journal (w_auth w)) (w_file w) now renamed = (a, file) ->
    token_step w (mkWorld a file (w_saved w) now (w_used w) (w_acked w)).

(** A first boot: a fresh chain, saved, and no journal file *)
Definition first_boot (chain_id interval : N) (cnow cnow' now : Z) (node_id : string) : World :=
  let c := chain_new shake256 to_vec chain_id interval cnow cnow' in
  let '(a, file) := with_journal c node_id true None now true in
  mkWorld a file c now ∅ ∅.

(** ** The records of a chain *)

Record chain_good (c : LocalChain) : Prop := mkGood {
  cg_inv : chain_inv shake256 to_vec c;
  cg_genesis : lc_events c <> [];
  cg_parse : issues_parse (recs c);
}.

Lemma recs_app evs evs' c c' :
  lc_events c = evs -> lc_events c' = evs ++ evs' ->
  recs c' = recs c ++ token_records (filter (fun e => 0 < ce_sequence e) evs').
Proof using.
  intros E E'. unfold recs, tail_from. rewrite E, E', filter_app. unfold token_records. by rewrite omap_app.
Qed.

Lemma append_recs c now now' stamp kind payload :
  chain_good c ->
  let c' := (local_append shake256 to_vec c now now' stamp SOURCE kind (Some payload)).1 in
  (exists e, lc_events c' = lc_events c ++ [e]) /\ recs c' = recs c ++ [(kind, payload)].
Proof using.
  intros [Hinv Hne _]. cbn zeta. unfold local_append.
  destruct (append_tail shake256 to_vec c now now' stamp SOURCE kind (Some payload) None Hinv Hne)
    as (e & He & Ht & _ & Hs & Hk & Hp). split; [by exists e|].
  unfold recs. rewrite Ht. unfold token_records. rewrite omap_app. f_equal. cbn.
  by rewrite Hs, String.eqb_refl, Hk, Hp.
Qed.

Lemma token_records_source evs : token_records evs = token_records (filter (fun e => ce_source e = SOURCE) evs).
Proof using.
  induction evs as [|e evs IH]; [done|]. rewrite filter_cons. unfold token_records in *. cbn [omap list_omap].
  rewrite IH. destruct (String.eqb_spec (ce_source e) SOURCE) as [E|E]; case_decide; try done.
  cbn [omap list_omap]. by rewrite E, String.eqb_refl.
Qed.

(** Nothing the rest of the kernel or a peer does adds a token record. *)
Lemma neutral_recs c op :
  chain_good c -> neutral_for SOURCE op ->
  (exists k, lc_events (chain_step shake256 to_vec c op) = lc_events c ++ k) /\
  recs (chain_step shake256 to_vec c op) = recs c.
Proof using.
  intros [Hinv Hne _] Hn. destruct (neutral_source shake256 to_vec SOURCE c op eq_refl Hinv Hne Hn) as [Hk Hs].
  split; [done|]. unfold recs. unfold of_source in Hs. rewrite (token_records_source (tail_from (chain_step _ _ _ _) 0)).
  by rewrite Hs, <- token_records_source.
Qed.

(** A revocation that left the journal: the token's longest life ended before
    an event the saved chain holds. *)
Definition outlived (c : LocalChain) (id : string) : Prop :=
  exists e x, issued_of (recs c) !! id = Some e /\ x ∈ tail_from c 0 /\
    (ti_issued_at (te_info e) + MAX_TTL <= ce_timestamp x)%Z.

Record token_inv (w : World) : Prop := mkTokenInv {
  i_good : chain_good (ta_chain (w_auth w));
  i_saved : chain_good (w_saved w);
  i_ext : exists k, lc_events (ta_chain (w_auth w)) = lc_events (w_saved w) ++ k;
  i_sub : issued_of (recs (w_saved w)) ⊆ issued_of (recs (ta_chain (w_auth w)));
  i_used : forall id, is_Some (issued_of (recs (ta_chain (w_auth w))) !! id) -> id ∈ w_used w;
  i_revoked : revoked_of (recs (ta_chain (w_auth w))) ⊆ w_used w;
  i_journal : ta_journal (w_auth w) = true;
  i_file : ascii_text (w_file w);
  i_payloads : Forall good_payload (entries (w_file w));
  i_jids : ids_of (entries (w_file w)) ⊆ w_used w;
  i_sound : forall id e, ta_table (w_auth w) !! id = Some e ->
    issued_of (recs (ta_chain (w_auth w))) !! id = Some e /\
    id ∉ revoked_of (recs (ta_chain (w_auth w))) /\ id ∉ ids_of (entries (w_file w));
  i_complete : forall id e, issued_of (recs (ta_chain (w_auth w))) !! id = Some e ->
    id ∉ revoked_of (recs (ta_chain (w_auth w))) -> id ∉ ids_of (entries (w_file w)) ->
    (w_boot w < ti_expires_at (te_info e))%Z -> ta_table (w_auth w) !! id = Some e;
  i_acked : forall id, id ∈ w_acked w ->
    id ∈ w_used w /\ (id ∈ ids_of (entries (w_file w)) \/ outlived (w_saved w) id);
}.

Lemma tail_from_app c c' k :
  lc_events c' = lc_events c ++ k -> tail_from c 0 ⊆ tail_from c' 0.
Proof using. intros E. unfold tail_from. rewrite E, filter_app. set_solver. Qed.

Lemma outlived_mono c c' k id :
  lc_events c' = lc_events c ++ k -> issued_of (recs c) ⊆ issued_of (recs c') -> outlived c id -> outlived c' id.
Proof using.
  intros E Hs (e & x & He & Hx & Ht). exists e, x. split; [by eapply lookup_weaken|]. split; [|done].
  by eapply tail_from_app.
Qed.

Lemma recs_revoked_mono c c' k :
  lc_events c' = lc_events c ++ k -> revoked_of (recs c) ⊆ revoked_of (recs c').
Proof using. intros E. rewrite (recs_app _ _ _ _ eq_refl E). apply revoked_of_mono. Qed.

End Runs.

(** ** Every step keeps the invariant *)

Section Invariant.
Context `{CE : CanonEnv} `{!CanonEnvLaws} `{!TimeLaws} `{TL : TokenEnvLaws}.
Context (shake256 : bytes -> bytes) (to_vec : Json -> bytes).
Local Abbreviation inv := (token_inv shake256 to_vec).
Local Abbreviation good := (chain_good shake256 to_vec).

Lemma append_good c now now' stamp kind payload :
  good c -> lenN (lc_events c) + 1 < u64_mod -> (kind = KIND_ISSUED -> is_Some (parse_issued payload)) ->
  let c' := (local_append shake256 to_vec c now now' stamp SOURCE kind (Some payload)).1 in
  good c' /\ recs c' = recs c ++ [(kind, payload)] /\ exists e, lc_events c' = lc_events c ++ [e].
Proof.
  intros Hg Hroom Hp. cbn zeta.
  destruct (append_recs shake256 to_vec c now now' stamp kind payload Hg) as [[e He] Hr].
  split; [|split; [exact Hr|by exists e]].
  split; [by apply append_inv, Hroom; apply Hg|by rewrite He; destruct (lc_events c)|].
  rewrite Hr. apply Forall_app. split; [apply Hg|]. by repeat constructor.
Qed.

(** An issue, seen from the records *)
Lemma issued_inv w c node ev p e :
  let a := w_auth w in
  inv w -> good c -> recs c = recs (ta_chain a) ++ [(KIND_ISSUED, p)] ->
  lc_events c = lc_events (ta_chain a) ++ [ev] ->
  parse_issued p = Some e -> ti_id (te_info e) ∉ w_used w ->
  inv (mkWorld (mkAuth c node (ta_journal a) (<[ti_id (te_info e) := e]> (ta_table a)))
         (w_file w) (w_saved w) (w_boot w) ({[ti_id (te_info e)]} ∪ w_used w) (w_acked w)).
Proof.
  cbn zeta. intros [Hg Hs [k Hext] Hsub Hu Hrv Hj Hf Hpl Hji Hsnd Hcmp Hack] Hg' Hr Hev Hparse Hfresh.
  destruct (snoc_issue (recs (ta_chain (w_auth w))) _ _ Hparse) as [Erv Eiss]. rewrite <- Hr in Erv, Eiss.
  assert (issued_of (recs (ta_chain (w_auth w))) !! ti_id (te_info e) = None) as Hnone.
  { destruct (issued_of _ !! _) eqn:E; [|done]. exfalso. apply Hfresh, Hu. by eexists. }
  split; cbn [w_auth w_file w_saved w_boot w_used w_acked ta_chain ta_journal ta_table];
    rewrite ?Erv, ?Eiss; try done.
  - exists (k ++ [ev]). by rewrite Hev, Hext, app_assoc.
  - etrans; [exact Hsub|]. by apply insert_subseteq.
  - intros id [x [[<- _]|[_ Hl]]%lookup_insert_Some]; [set_solver|]. assert (id ∈ w_used w) by eauto. set_solver.
  - set_solver.
  - set_solver.
  - intros id x [[<- <-]|[Hne Hl]]%lookup_insert_Some.
    + rewrite lookup_insert_eq. set_solver.
    + rewrite lookup_insert_ne by done. by apply Hsnd.
  - intros id x [[<- <-]|[Hne Hl]]%lookup_insert_Some Ha Hb Hc; [by rewrite lookup_insert_eq|].
    rewrite lookup_insert_ne by done. by apply Hcmp.
  - intros id Hid. destruct (Hack id Hid). set_solver.
Qed.

Lemma used_mono w id :
  inv w -> inv (mkWorld (w_auth w) (w_file w) (w_saved w) (w_boot w) ({[id]} ∪ w_used w) (w_acked w)).
Proof.
  intros [Hg Hs Hext Hsub Hu Hrv Hj Hf Hpl Hji Hsnd Hcmp Hack].
  split; cbn [w_auth w_file w_saved w_boot w_used w_acked]; try done; [set_solver..|].
  intros x Hx. destruct (Hack x Hx). set_solver.
Qed.

Lemma issue_inv w cnow cnow' stamp now label ttl project scope uid raw a r :
  inv w -> room w -> drawn raw ∉ w_used w -> time_ok now -> time_ok (now + default DEFAULT_TTL ttl)%Z ->
  issue_scoped_at shake256 to_vec (w_auth w) cnow cnow' stamp now label ttl project scope uid raw = (a, r) ->
  inv (mkWorld a (w_file w) (w_saved w) (w_boot w) ({[drawn raw]} ∪ w_used w) (w_acked w)).
Proof.
  intros Hinv Hroom Hfresh Ht Hx. unfold issue_scoped_at.
  destruct (check_issue label (default DEFAULT_TTL ttl)) as [[]|err] eqn:Hc; intros [= <- _]; [|by apply used_mono].
  unfold check_issue in Hc. inv_ok.
  set (hash := hash_secret (secret_of raw)). set (info := mkInfo _ _ _ _ _ _).
  assert (parse_issued (issue_payload (ta_node_id (w_auth w)) hash info uid) = Some (mkEntry hash info)) as Hparse.
  { apply issue_payload_parses; try done; [apply sha256_length|]. unfold info. cbn [ti_expires_at ti_issued_at]. lia. }
  destruct (append_good (ta_chain (w_auth w)) cnow cnow' stamp KIND_ISSUED
    (issue_payload (ta_node_id (w_auth w)) hash info uid) (i_good _ _ _ Hinv) Hroom) as (Hg' & Hr & [ev Hev]); [by eauto|].
  by apply (issued_inv w _ _ ev _ (mkEntry hash info) Hinv Hg' Hr Hev Hparse).
Qed.

(** A revocation, seen from the records *)
Lemma revoked_inv w c node ev p id js file acked :
  let a := w_auth w in
  inv w -> good c -> recs c = recs (ta_chain a) ++ [(KIND_REVOKED, p)] ->
  lc_events c = lc_events (ta_chain a) ++ [ev] -> get_str "id" p = Some id -> good_payload p ->
  is_Some (ta_table a !! id) -> ascii_text file -> entries file = entries (w_file w) ++ js -> (js = [] \/ js = [p]) ->
  (acked = w_acked w \/ acked = {[id]} ∪ w_acked w /\ js = [p]) ->
  inv (mkWorld (mkAuth c node (ta_journal a) (delete id (ta_table a)))
         file (w_saved w) (w_boot w) (w_used w) acked).
Proof.
  cbn zeta. intros [Hg Hs [k Hext] Hsub Hu Hrv Hj Hf Hpl Hji Hsnd Hcmp Hack] Hg' Hr Hev Hid Hgp [e He] Hasc Hen Hjs Hak.
  destruct (snoc_revoke (recs (ta_chain (w_auth w))) _ _ Hid) as [Erv Eiss]. rewrite <- Hr in Erv, Eiss.
  assert (id ∈ w_used w) as Hin by (apply Hu; exists e; by apply Hsnd).
  assert (ids_of js ⊆ {[id]}) as Hjid by (destruct Hjs as [->| ->]; unfold ids_of; cbn; rewrite ?Hid; cbn; set_solver).
  assert (ids_of (entries file) = ids_of (entries (w_file w)) ∪ ids_of js) as Hids by (by rewrite Hen, ids_of_app).
  split; cbn [w_auth w_file w_saved w_boot w_used w_acked ta_chain ta_journal ta_table];
    rewrite ?Erv, ?Eiss, ?Hids; try done.
  - exists (k ++ [ev]). by rewrite Hev, Hext, app_assoc.
  - set_solver.
  - rewrite Hen. apply Forall_app. split; [done|]. destruct Hjs as [->| ->]; by repeat constructor.
  - apply union_least; [done|]. etrans; [exact Hjid|]. by apply singleton_subseteq_l.
  - intros x y [Hne Hl]%lookup_delete_Some. destruct (Hsnd x y Hl) as (Hi & Hr1 & Hr2). split; [done|].
    clear -Hne Hjid Hr1 Hr2. set_solver.
  - intros x y Hl Ha Hb Hc. rewrite lookup_delete_ne by set_solver. apply Hcmp; set_solver.
  - intros x Hx. destruct Hak as [->|[-> ->]].
    + destruct (Hack x Hx). set_solver.
    + assert (id ∈ ids_of [p]) by (unfold ids_of; cbn; rewrite Hid; cbn; set_solver).
      apply elem_of_union in Hx as [Hx|Hx]; [apply elem_of_singleton in Hx as ->; set_solver|]. destruct (Hack x Hx). set_solver.
Qed.

Lemma revoke_inv w cnow cnow' stamp now id o a file r :
  inv w -> room w ->
  revoke shake256 to_vec (w_auth w) (w_file w) cnow cnow' stamp now id o = (a, file, r) ->
  inv (mkWorld a file (w_saved w) (w_boot w) (w_used w)
         (match r with Ok true => {[id]} ∪ w_acked w | _ => w_acked w end)).
Proof.
  intros Hinv Hroom. unfold revoke. destruct (ta_table (w_auth w) !! id) as [e|] eqn:He.
  2: { intros [= <- <- <-]. by destruct w. }
  set (p := revoke_payload id (to_rfc3339 now)).
  destruct (append_good (ta_chain (w_auth w)) cnow cnow' stamp KIND_REVOKED p (i_good _ _ _ Hinv) Hroom)
    as (Hg' & Hr & [ev Hev]); [done|].
  set (c' := (local_append _ _ _ _ _ _ _ _ _).1) in *. cbv zeta.
  destruct (journal_revoke _ (w_file w) p o) as [f' res] eqn:Hjr. intros [= <- <- <-].
  destruct (issued_of_ok _ _ _ (proj1 (i_sound _ _ _ Hinv id e He))) as (_ & Hid & _).
  assert (printable (str_bytes id)) as Hpi by (rewrite Hid; apply id_printable).
  assert (printable (str_bytes (to_rfc3339 now))) as Hpt by apply rfc3339_printable.
  destruct (journal_append _ (w_file w) id (to_rfc3339 now) o f' res Hpi Hpt (i_journal _ _ _ Hinv) (i_file _ _ _ Hinv) Hjr)
    as (Hasc & js & Hread & Hjs & Hok).
  rewrite !read_journal_text in Hread by (try apply (i_journal _ _ _ Hinv); try apply (i_file _ _ _ Hinv); done).
  eapply (revoked_inv w c' _ ev p id js); try done; [by exists id, (to_rfc3339 now)|].
  destruct res as [[]|]; [right; split; [done|by apply Hok]|by left].
Qed.

Lemma other_inv w op :
  inv w -> room w -> neutral_for SOURCE op ->
  inv (mkWorld (with_chain (w_auth w) (chain_step shake256 to_vec (ta_chain (w_auth w)) op))
         (w_file w) (w_saved w) (w_boot w) (w_used w) (w_acked w)).
Proof.
  intros [Hg Hs [k Hext] Hsub Hu Hrv Hj Hf Hpl Hji Hsnd Hcmp Hack] Hroom Hn.
  destruct (neutral_recs shake256 to_vec _ _ Hg Hn) as [[k' Hk] Hr].
  assert (chain_inv shake256 to_vec (chain_step shake256 to_vec (ta_chain (w_auth w)) op)) as Hci
    by (apply chain_step_inv; [apply Hg|exact Hroom]).
  set (c' := chain_step _ _ _ op) in *. clearbody c'.
  assert (good c') as Hg'.
  { split; [done| |rewrite Hr; apply Hg]. rewrite Hk. destruct Hg as [_ Hne _]. by destruct (lc_events _). }
  split; cbn [w_auth w_file w_saved w_boot w_used w_acked with_chain ta_chain ta_journal ta_table];
    rewrite ?Hr; try done.
  exists (k ++ k'). by rewrite Hk, Hext, app_assoc.
Qed.

Lemma save_inv w :
  inv w -> inv (mkWorld (w_auth w) (w_file w) (ta_chain (w_auth w)) (w_boot w) (w_used w) (w_acked w)).
Proof.
  intros [Hg Hs [k Hext] Hsub Hu Hrv Hj Hf Hpl Hji Hsnd Hcmp Hack].
  split; cbn [w_auth w_file w_saved w_boot w_used w_acked]; try done; [exists []; by rewrite app_nil_r|].
  intros id Hid. destruct (Hack id Hid) as [Hin [Hj'|Ho]]; [auto|]. split; [done|]. right. by eapply outlived_mono.
Qed.

(** What a rebuild keeps of the journal: a revocation it drops belongs to a
    token that has outlived its longest life, by the clock and by the chain. *)
Lemma pruned_ids file c now renamed node :
  let a := mkAuth c node true ∅ in
  let file' := prune_journal a file (tail_from c 0) (read_journal a file) now renamed in
  ascii_text file -> Forall good_payload (entries file) -> good c ->
  ascii_text file' /\ Forall good_payload (entries file') /\ ids_of (entries file') ⊆ ids_of (entries file) /\
  forall id, id ∈ ids_of (entries file) -> id ∉ ids_of (entries file') ->
    exists e x, issued_of (recs c) !! id = Some e /\ x ∈ tail_from c 0 /\
      (ti_issued_at (te_info e) + MAX_TTL <= ce_timestamp x)%Z /\ (ti_issued_at (te_info e) + MAX_TTL <= now)%Z.
Proof.
  cbn zeta. intros Ha Hp Hg. pose proof (read_journal_text (mkAuth c node true ∅) file eq_refl Ha) as Er.
  destruct (prune_read (mkAuth c node true ∅) file (tail_from c 0) now renamed eq_refl Ha) as [Ha' Hread].
  { by rewrite Er. }
  set (file' := prune_journal _ _ _ _ _ _) in *. clearbody file'.
  rewrite read_journal_text in Hread by done. fold (entries file') in Hread. rewrite Er in Hread. fold (entries file) in Hread.
  split; [done|]. destruct Hread as [E|(nw & Hnw & E)]; rewrite !E; [split; [done|]; set_solver|].
  split; [|split].
  - apply Forall_forall. intros p [Hin _]%list_elem_of_In%filter_In. rewrite Forall_forall in Hp.
    by apply Hp, list_elem_of_In.
  - unfold ids_of. intros id (p & Hin & Hid)%elem_of_list_to_set%list_elem_of_omap.
    apply elem_of_list_to_set, list_elem_of_omap. exists p. split; [|done].
    apply list_elem_of_In in Hin. apply list_elem_of_In. by apply filter_In in Hin as [? _].
  - intros id (p & Hin & Hid)%elem_of_list_to_set%list_elem_of_omap Hnot.
    destruct (prune_keep (tail_from c 0) (Z.min now nw) p) eqn:Ek.
    { exfalso. apply Hnot. apply elem_of_list_to_set, list_elem_of_omap. exists p. split; [|done].
      apply list_elem_of_In, filter_In. split; [by apply list_elem_of_In|done]. }
    unfold prune_keep in Ek. rewrite Hid in Ek. simpl default in Ek. unfold issue_times in Ek.
    fold (recs c) in Ek. fold (times_of (recs c)) in Ek. rewrite times_of_issued, lookup_fmap in Ek by apply Hg.
    destruct (issued_of (recs c) !! id) as [e|] eqn:He; [|done]. cbn in Ek. apply Z.ltb_ge in Ek.
    destruct (newest_in _ _ Hnw) as (x & Hx & <-). exists e, x. split_and!; [done|done|lia|lia].
Qed.

Lemma restart_inv w now renamed a file :
  inv w ->
  with_journal (w_saved w) (ta_node_id (w_auth w)) (ta_journal (w_auth w)) (w_file w) now renamed = (a, file) ->
  inv (mkWorld a file (w_saved w) now (w_used w) (w_acked w)).
Proof.
  intros [Hg Hs [k Hext] Hsub Hu Hrv Hj Hf Hpl Hji Hsnd Hcmp Hack]. unfold with_journal, rebuild_at.
  rewrite Hj. intros [= <- <-]. cbn [ta_chain].
  destruct (pruned_ids (w_file w) (w_saved w) now renamed (ta_node_id (w_auth w)) Hf Hpl Hs) as (Hf' & Hp' & Hid' & Hout).
  set (file' := prune_journal _ _ _ _ _ _) in *. clearbody file'.
  rewrite read_journal_text by done. fold (entries (w_file w)). fold (recs (w_saved w)).
  destruct (fold_journal (recs (w_saved w)) (entries (w_file w))) as [Erv Eis].
  split; cbn [w_auth w_file w_saved w_boot w_used w_acked with_table ta_chain ta_journal ta_table]; try done.
  - exists []. by rewrite app_nil_r.
  - intros id [e He]. apply Hu. exists e. by eapply lookup_weaken.
  - etrans; [by eapply recs_revoked_mono|done].
  - set_solver.
  - intros id e. rewrite fold_lookup, Erv, Eis. set_solver.
  - intros id e He H1' H2' Hx. rewrite fold_lookup, Erv, Eis. split; [done|]. split; [|done].
    apply not_elem_of_union. split; [|done]. intros Hin.
    destruct (Hout id Hin H2') as (e' & x & He' & _ & _ & Hle). simplify_eq.
    destruct (issued_of_ok _ _ _ He) as (_ & _ & Hlife). lia.
  - intros id Hid. destruct (Hack id Hid) as [Hin [Hj'|Ho]]; [|auto]. split; [done|].
    destruct (decide (id ∈ ids_of (entries file'))) as [|Hno]; [by left|right].
    destruct (Hout id Hj' Hno) as (e' & x & He' & Hx & Hle & _). by exists e', x.
Qed.

Lemma token_step_inv w w' : inv w -> token_step shake256 to_vec w w' -> inv w'.
Proof.
  intros Hinv Hst.
  destruct Hst as [w cnow cnow' stamp now label ttl project scope uid raw a r Hroom Hfr Ht Hx He
    |w cnow cnow' stamp now id o a file r Hroom He|w op Hroom Hn|w|w now renamed a file He].
  - exact (issue_inv w cnow cnow' stamp now label ttl project scope uid raw a r Hinv Hroom Hfr Ht Hx He).
  - exact (revoke_inv w cnow cnow' stamp now id o a file r Hinv Hroom He).
  - exact (other_inv w op Hinv Hroom Hn).
  - exact (save_inv w Hinv).
  - exact (restart_inv w now renamed a file Hinv He).
Qed.

Lemma new_chain_good chain_id interval now now' :
  let c := chain_new shake256 to_vec chain_id interval now now' in good c /\ tail_from c 0 = [].
Proof.
  cbn zeta. destruct (chain_new_tail shake256 to_vec chain_id interval now now') as [Hne Ht].
  split; [|done]. split; [apply chain_new_inv|done|]. unfold recs. rewrite Ht. constructor.
Qed.

Lemma first_boot_inv chain_id interval cnow cnow' now node :
  inv (first_boot shake256 to_vec chain_id interval cnow cnow' now node).
Proof.
  unfold first_boot, with_journal, rebuild_at. destruct (new_chain_good chain_id interval cnow cnow') as [Hg Ht].
  set (c := chain_new _ _ _ _ _ _) in *. clearbody c. cbn [ta_chain read_journal]. rewrite Ht.
  assert (recs c = []) as Hr by (unfold recs; by rewrite Ht).
  split; cbn [w_auth w_file w_saved w_boot w_used w_acked with_table ta_chain ta_journal ta_table]; rewrite ?Hr; try done.
  - exists []. by rewrite app_nil_r.
  - by intros id [? ?].
  - constructor.
Qed.

Lemma run_inv w w' : inv w -> rtc (token_step shake256 to_vec) w w' -> inv w'.
Proof. intros Hi Hr. induction Hr; [done|]. eauto using token_step_inv. Qed.

(** C28: The table in memory is what a rebuild would give.  After any history of
    issues (each with an id not drawn before, at a time with a four-digit
    year), revocations, other events, saves, crashes and restarts, the tokens of
    the table that have not expired are exactly those a rebuild of the chain
    and the journal would find, at any time after the last boot. *)
Theorem live_table_is_rebuilt chain_id interval cnow cnow' t0 node w now renamed :
  rtc (token_step shake256 to_vec) (first_boot shake256 to_vec chain_id interval cnow cnow' t0 node) w ->
  (w_boot w <= now)%Z ->
  filter (fun p => (now < ti_expires_at (te_info p.2))%Z) (ta_table (w_auth w)) =
  ta_table (rebuild_at (w_auth w) (w_file w) now renamed).1.
Proof.
  intros Hrun Hnow. pose proof (run_inv _ _ (first_boot_inv _ _ _ _ _ _) Hrun) as [Hg _ _ _ _ _ Hj Hf _ _ Hsnd Hcmp _].
  cbn [rebuild_at fst with_table ta_table]. apply map_eq. intros id. apply option_eq. intros e.
  rewrite map_lookup_filter_Some, fold_lookup. cbn [snd]. rewrite read_journal_text by done.
  fold (entries (w_file w)). fold (recs (ta_chain (w_auth w))).
  destruct (fold_journal (recs (ta_chain (w_auth w))) (entries (w_file w))) as [-> ->]. split.
  - intros [Hl Hx]. destruct (Hsnd id e Hl) as (? & ? & ?). set_solver.
  - intros (He & Hnr & Hx). split; [|done]. apply Hcmp; [done|set_solver|set_solver|lia].
Qed.

(** C29: A revocation that was acknowledged holds.  Through crashes that lose the
    unsaved end of the chain, torn journal lines and prunings, no secret of a
    revoked token is accepted again by a clock that has reached the times
    recorded on the chain. *)
Theorem revoked_stays_revoked chain_id interval cnow cnow' t0 node w now secret :
  rtc (token_step shake256 to_vec) (first_boot shake256 to_vec chain_id interval cnow cnow' t0 node) w ->
  id_of (hash_secret secret) ∈ w_acked w ->
  (forall x, x ∈ lc_events (ta_chain (w_auth w)) -> (ce_timestamp x <= now)%Z) ->
  validate_at (w_auth w) now secret = None.
Proof.
  intros Hrun Hack Hclock. destruct (validate_at _ _ _) as [info|] eqn:Hval; [exfalso|done].
  apply bind_Some in Hval as (e & Hl & Hv).
  pose proof (run_inv _ _ (first_boot_inv _ _ _ _ _ _) Hrun) as [_ _ [k Hext] Hsub _ _ _ _ _ _ Hsnd _ Hak].
  destruct (ct_eq _ _ && _) eqn:E; [|done]. apply andb_prop in E as [_ E].
  destruct (Hsnd _ _ Hl) as (He & _ & Hnj). destruct (Hak _ Hack) as [_ [Hj|(e' & x & He' & Hx & Hle)]]; [done|].
  assert (e' = e) as -> by (eapply lookup_weaken in He'; [|exact Hsub]; congruence).
  destruct (issued_of_ok _ _ _ He) as (_ & _ & Hlife).
  unfold tail_from in Hx. apply list_elem_of_filter in Hx as [_ Hx].
  assert (ce_timestamp x <= now)%Z by (apply Hclock; rewrite Hext; set_solver). lia.
Qed.

(** No token outlives 24 hours, restarts included, and none is accepted under
    another secret's id. *)
Theorem tokens_short_lived chain_id interval cnow cnow' t0 node w now secret info :
  rtc (token_step shake256 to_vec) (first_boot shake256 to_vec chain_id interval cnow cnow' t0 node) w ->
  validate_at (w_auth w) now secret = Some info ->
  ti_id info = id_of (hash_secret secret) /\ (now < ti_expires_at info)%Z /\
  (ti_issued_at info < ti_expires_at info <= ti_issued_at info + MAX_TTL)%Z.
Proof.
  intros Hrun (e & Hl & Hv)%bind_Some.
  pose proof (run_inv _ _ (first_boot_inv _ _ _ _ _ _) Hrun) as [_ _ _ _ _ _ _ _ _ _ Hsnd _ _].
  destruct (ct_eq _ _ && _) eqn:E; [|done]. injection Hv as <-. apply andb_prop in E as [_ E].
  destruct (issued_of_ok _ _ _ (proj1 (Hsnd _ _ Hl))) as (Hid & _ & Hlife). split; [done|]. lia.
Qed.

End Invariant.
