(* ===== verification/TokenDemo.v ===== *)
(** * Tokens on concrete runs

    Toy instances of the parameters of the token authority with their laws, a
    run with a crash between a revocation and the save of the chain, and a run
    in which a clock set back brings a pruned revocation to light. *)

From Stdlib Require Import Strings.String.
From S2P Require Import Prelude Codec Text Chain Delegation Canon Token TokenRuns.

Local Open Scope string_scope.
Local Open Scope list_scope.
Local Open Scope N_scope.

Module ToyToken.

Definition year_zero_ns : Z := 62167219200000000000.

(** A time is spelled as ten bytes in hexadecimal. *)
Definition enc (t : Z) : string := hex_string (le_bytes 10 (Z.to_N (t + year_zero_ns))).

Definition dec (s : string) : option Z :=
  match hex_decode (str_bytes s) with
  | Ok l => Some (Z.of_N (le_val l) - year_zero_ns)%Z
  | Err _ => None
  end.

Definition ed : Ed25519 := {|
  SigningKey := byte;
  VerifyingKey := byte;
  verifying_key := id;
  vk_to_bytes v := replicate 32 v;
  vk_from_bytes b := match b with v :: _ => Ok v | [] => Err "empty" end;
  ed_sign k m := ToyCanon.toy_sig k m;
  ed_verify v m s := bool_decide (s = ToyCanon.toy_sig v m);
  to_rfc3339 := enc |}.

#[local] Existing Instance ed.

#[local] Instance env : CanonEnv := {|
  sha256 := ToyCanon.digest;
  json_to_string _ := "";
  parse_rfc3339 := dec;
  rfc3339_secs t := enc (t / 1000000000 * 1000000000);
  verify_strict v m s := bool_decide (s = ToyCanon.toy_sig v m);
|}.

(** A record of the journal is its two strings in hexadecimal. *)
Definition body (v : Json) : bytes :=
  match json_get "payload" v with
  | Some p => hex_encode (str_bytes (default "" (get_str "id" p))) ++ [x2c] ++
              hex_encode (str_bytes (default "" (get_str "revoked_at" p)))
  | None => []
  end.

Definition show (v : Json) : string := "{" +:+ string_of_list_byte (body v) +:+ "}".

Fixpoint until_comma (l : bytes) : bytes * bytes :=
  match l with
  | [] => ([], [])
  | b :: l => if Byte.eqb b x2c then ([], l) else let '(x, y) := until_comma l in (b :: x, y)
  end.

Definition read (s : string) : option Json :=
  match str_bytes s with
  | x7b :: l =>
      match rev l with
      | x7d :: l =>
          let '(x, y) := until_comma (rev l) in
          match hex_decode x, hex_decode y with
          | Ok i, Ok a => Some (journal_json (revoke_payload (string_of_list_byte i) (string_of_list_byte a)))
          | _, _ => None
          end
      | _ => None
      end
  | _ => None
  end.

#[local] Instance tenv : TokenEnv := {| value_to_string := show; json_from_str := read |}.

Lemma show_bytes v : str_bytes (show v) = x7b :: body v ++ [x7d].
Proof.
  unfold show. rewrite !str_bytes_app. unfold str_bytes at 2. by rewrite list_byte_of_string_of_list_byte.
Qed.

Lemma body_printable v : printable (body v).
Proof.
  unfold body. destruct (json_get "payload" v); [|constructor].
  repeat apply Forall_app_2; try apply hex_printable. by repeat constructor.
Qed.

Lemma hex_plain data : Forall (fun b => negb (Byte.eqb b x2c) && negb (Byte.eqb b x7d) = true) (hex_encode data).
Proof.
  induction data as [|c data IH]; [constructor|].
  change (hex_encode (c :: data)) with (hex_byte c ++ hex_encode data).
  apply Forall_app_2; [|done]. destruct c; repeat constructor.
Qed.

Lemma hex_no_comma data : x2c ∉ hex_encode data.
Proof. intros Hin. pose proof (proj1 (Forall_forall _ _) (hex_plain data) _ Hin). done. Qed.

Lemma body_no_brace v : x7d ∉ body v.
Proof.
  unfold body. destruct (json_get "payload" v); [|set_solver]. rewrite !elem_of_app.
  intros [Hin|[Hin|Hin]]; [|by apply list_elem_of_singleton in Hin|];
    pose proof (proj1 (Forall_forall _ _) (hex_plain _) _ Hin); done.
Qed.

Lemma until_comma_app x y : x2c ∉ x -> until_comma (x ++ [x2c] ++ y) = (x, y).
Proof.
  induction x as [|b x IH]; intros Hx; [done|]. apply not_elem_of_cons in Hx as [Hb Hx]. cbn [app until_comma].
  destruct (Byte.eqb b x2c) eqn:E; [apply byte_dec_bl in E; by subst|]. cbn [app] in IH. by rewrite IH.
Qed.

Lemma hex_decode_ok data : hex_decode (hex_encode data) = Ok data.
Proof. apply hex_round_trip. Qed.

Lemma enc_reads t : time_ok t -> dec (enc t) = Some t.
Proof.
  intros Ht. unfold dec, enc, hex_string, str_bytes.
  assert (0 <= t + year_zero_ns < 1208925819614629174706176)%Z as Hb.
  { unfold time_ok, year_zero_ns in *. pose proof (Z.div_mod t 1000000000). pose proof (Z.mod_pos_bound t 1000000000). lia. }
  rewrite list_byte_of_string_of_list_byte, hex_decode_ok, le_val_bytes.
  - f_equal. lia.
  - change (256 ^ N.of_nat 10) with 1208925819614629174706176. lia.
Qed.

Lemma token_env_laws : CanonEnvLaws.
Proof.
  split; cbn [env sha256 parse_rfc3339 rfc3339_secs verify_strict]; intros.
  - apply le_bytes_length.
  - apply enc_reads. unfold time_ok in *. by rewrite Z.div_mul.
  - by rewrite Z.div_mul.
  - by apply bool_decide_eq_true.
Qed.

Lemma time_laws : TimeLaws.
Proof.
  split; [apply enc_reads|]. intros t. cbn [to_rfc3339 ed]. unfold enc, hex_string, str_bytes.
  rewrite list_byte_of_string_of_list_byte. apply hex_printable.
Qed.

Lemma read_whole id at_ : read (show (journal_json (revoke_payload id at_))) = Some (journal_json (revoke_payload id at_)).
Proof.
  unfold read. rewrite show_bytes. rewrite rev_unit, rev_involutive.
  change (body (journal_json (revoke_payload id at_))) with
    (hex_encode (str_bytes id) ++ [x2c] ++ hex_encode (str_bytes at_)).
  rewrite until_comma_app by apply hex_no_comma. rewrite !hex_decode_ok. unfold str_bytes.
  by rewrite !string_of_list_byte_of_string.
Qed.

Lemma read_cut v n : (n < length (str_bytes (show v)))%nat -> read (string_of_list_byte (take n (str_bytes (show v)))) = None.
Proof.
  rewrite show_bytes. cbn [length]. rewrite length_app. cbn [length]. intros Hn. unfold read, str_bytes.
  rewrite list_byte_of_string_of_list_byte. destruct n as [|n]; [done|]. cbn [take].
  rewrite take_app_le by lia. destruct (rev (take n (body v))) as [|b l] eqn:E; [done|].
  assert (b ∈ body v) as Hb.
  { apply (subseteq_take n). apply list_elem_of_In, in_rev. rewrite E. by left. }
  destruct b; try done. by apply body_no_brace in Hb.
Qed.

Lemma token_laws : TokenEnvLaws.
Proof.
  split; cbn [tenv value_to_string json_from_str]; intros.
  - split; [|by eexists]. rewrite show_bytes. constructor; [done|]. apply Forall_app_2; [apply body_printable|].
    by repeat constructor.
  - apply read_whole.
  - by apply read_cut.
Qed.

(** ** A crash after a revocation *)

Definition hash : bytes -> bytes := ToyCanon.digest.
Definition vec (_ : Json) : bytes := [].
Definition raw : bytes := replicate 32 x01.
Definition secret : string := secret_of raw.
Definition hours (n : Z) : Z := (n * 3600000000000)%Z.

Definition w0 : World := first_boot hash vec 1 0 5 5 5 "node".

Definition issued := issue_scoped_at hash vec (w_auth w0) 10 10 None 10 "ci" None None Owner None raw.
Definition w1 : World :=
  mkWorld issued.1 (w_file w0) (w_saved w0) (w_boot w0) ({[drawn raw]} ∪ w_used w0) (w_acked w0).

Definition saved (w : World) : World :=
  mkWorld (w_auth w) (w_file w) (ta_chain (w_auth w)) (w_boot w) (w_used w) (w_acked w).
Definition w2 : World := saved w1.

Definition revoked := revoke hash vec (w_auth w2) (w_file w2) 20 20 None 20 (drawn raw) Appended.
Definition w3 : World :=
  mkWorld revoked.1.1 revoked.1.2 (w_saved w2) (w_boot w2) (w_used w2)
    (match revoked.2 with Ok true => {[drawn raw]} ∪ w_acked w2 | _ => w_acked w2 end).

Definition restarted (w : World) (now : Z) : World :=
  let r := with_journal (w_saved w) (ta_node_id (w_auth w)) (ta_journal (w_auth w)) (w_file w) now true in
  mkWorld r.1 r.2 (w_saved w) now (w_used w) (w_acked w).
Definition w4 : World := restarted w3 30.

Lemma save_step w : token_step hash vec w (saved w).
Proof. apply step_save. Qed.

Lemma restart_step w now : token_step hash vec w (restarted w now).
Proof. apply (step_restart hash vec w now true). apply surjective_pairing. Qed.

Lemma issue_run : rtc (token_step hash vec) w0 w2.
Proof.
  eapply rtc_l; [|eapply rtc_l; [apply save_step|apply rtc_refl]].
  apply (step_issue hash vec w0 10 10 None 10 "ci" None None Owner None raw issued.1 issued.2).
  - vm_compute. reflexivity.
  - apply not_elem_of_empty.
  - split; vm_compute; congruence.
  - split; vm_compute; congruence.
  - apply surjective_pairing.
Qed.

Lemma crash_run : rtc (token_step hash vec) w0 w4.
Proof.
  etrans; [apply issue_run|]. eapply rtc_l; [|eapply rtc_l; [apply restart_step|apply rtc_refl]].
  apply (step_revoke hash vec w2 20 20 None 20 (drawn raw) Appended revoked.1.1 revoked.1.2 revoked.2).
  - vm_compute. reflexivity.
  - vm_compute. reflexivity.
Qed.

(** The revocation is only in the journal: the chain was saved before it. *)
Lemma crash_facts :
  drawn raw ∈ w_acked w4 /\ revoked_of (recs (ta_chain (w_auth w4))) = ∅ /\
  validate_at (w_auth w2) 15 secret <> None /\ validate_at (w_auth w4) 40 secret = None.
Proof.
  split; [apply (bool_decide_unpack _); vm_compute; exact I|].
  split; [vm_compute; reflexivity|]. split; [vm_compute; congruence|vm_compute; reflexivity].
Qed.

(** ** A clock set back *)

Definition later : World :=
  mkWorld (with_chain (w_auth w4) (chain_step hash vec (ta_chain (w_auth w4))
             (OpAppend (hours 25) (hours 25) None "kernel" "tick" None)))
    (w_file w4) (w_saved w4) (w_boot w4) (w_used w4) (w_acked w4).
Definition pruned : World := restarted (saved later) (hours 25).
Definition set_back : World := restarted pruned 50.

Lemma set_back_run : rtc (token_step hash vec) w0 set_back.
Proof.
  etrans; [apply crash_run|]. eapply rtc_l; [|eapply rtc_l; [apply save_step|
    eapply rtc_l; [apply restart_step|eapply rtc_l; [apply restart_step|apply rtc_refl]]]].
  apply (step_other hash vec w4 (OpAppend (hours 25) (hours 25) None "kernel" "tick" None)).
  - vm_compute. reflexivity.
  - by vm_compute.
Qed.

End ToyToken.

(** The condition on the clock is needed: a revocation that a crash left only
    in the journal is pruned once the chain has a later time, and a daemon
    that then boots with its clock set back accepts the revoked token. *)
Theorem clock_set_back_revives :
  exists w, rtc (@token_step ToyToken.ed ToyToken.env ToyToken.tenv ToyToken.hash ToyToken.vec) ToyToken.w0 w /\
    @id_of (@hash_secret ToyToken.ed ToyToken.env ToyToken.secret) ∈ w_acked w /\
    exists info, @validate_at ToyToken.ed ToyToken.env (w_auth w) 60 ToyToken.secret = Some info.
Proof.
  exists ToyToken.set_back. split; [apply ToyToken.set_back_run|].
  split; [apply (bool_decide_unpack _); vm_compute; exact I|]. eexists. vm_compute. reflexivity.
Qed.

Lemma live_table_is_rebuilt_witness :
  rtc (@token_step ToyToken.ed ToyToken.env ToyToken.tenv ToyToken.hash ToyToken.vec) ToyToken.w0 ToyToken.w4 /\
  filter (fun p => (40 < ti_expires_at (te_info p.2))%Z) (ta_table (w_auth ToyToken.w4)) =
  ta_table (@rebuild_at ToyToken.ed ToyToken.env ToyToken.tenv (w_auth ToyToken.w4) (w_file ToyToken.w4) 40 true).1.
Proof.
  split; [apply ToyToken.crash_run|].
  refine (@live_table_is_rebuilt ToyToken.ed ToyToken.env ToyToken.token_env_laws ToyToken.time_laws ToyToken.tenv
    ToyToken.token_laws ToyToken.hash ToyToken.vec 1 0 5 5 5 "node" ToyToken.w4 40 true ToyToken.crash_run _).
  vm_compute. congruence.
Defined.

Lemma revoked_stays_revoked_witness :
  @validate_at ToyToken.ed ToyToken.env (w_auth ToyToken.w4) 40 ToyToken.secret = None.
Proof.
  refine (@revoked_stays_revoked ToyToken.ed ToyToken.env ToyToken.token_env_laws ToyToken.time_laws ToyToken.tenv
    ToyToken.token_laws ToyToken.hash ToyToken.vec 1 0 5 5 5 "node" ToyToken.w4 40 ToyToken.secret
    ToyToken.crash_run _ _).
  - apply (bool_decide_unpack _). vm_compute. exact I.
  - intros x Hx. apply (proj1 (Forall_forall (fun x => (ce_timestamp x <= 40)%Z) _)) with (x := x) in Hx; [done|].
    vm_compute. repeat constructor; congruence.
Defined.

Lemma tokens_short_lived_witness :
  exists info, @validate_at ToyToken.ed ToyToken.env (w_auth ToyToken.w2) 15 ToyToken.secret = Some info /\
    (ti_expires_at info <= ti_issued_at info + MAX_TTL)%Z.
Proof.
  eexists. split; [vm_compute; reflexivity|].
  refine (proj2 (proj2 (proj2 (@tokens_short_lived ToyToken.ed ToyToken.env ToyToken.token_env_laws ToyToken.time_laws
    ToyToken.tenv ToyToken.token_laws ToyToken.hash ToyToken.vec 1 0 5 5 5 "node" ToyToken.w2 15 ToyToken.secret _
    ToyToken.issue_run _)))).
  vm_compute. reflexivity.
Defined.
