(* ===== verification/KeyRotation.v ===== *)
(** * Rotation of the user key

    user_key_rotation.rs: dual-signed records that hand the user's identity
    from one key to the next, the history they fold into, and the log that
    keeps them. *)

From Stdlib Require Import Strings.String.
From S2P Require Import Prelude Codec Text Delegation Canon.

Local Open Scope string_scope.
Local Open Scope list_scope.
Local Open Scope N_scope.

Definition ROTATION_DOMAIN : string := "weftos-user-key-rotation-v1" +:+ nl.
Definition ROTATION_VERSION : N := 1.
Definition KIND_ROTATED : string := "user.key.rotated".
Definition ROTATION_FILE : string := "user-key-rotations.jsonl".

Inductive RotationError :=
| RMalformed (seq : N) (why : string)
| RBadSignature (seq : N) (which : string)
| RBroken (seq : N) (why : string)
| RNotCurrent (history current : string)
| RLog (path why : string).

Record RotationRecord := mkRotation {
  rr_v : N;
  rr_seq : N;
  rr_old_pubkey : string;
  rr_old_key_id : string;
  rr_new_pubkey : string;
  rr_new_key_id : string;
  rr_rotated_at : string;
  rr_prev : option string;
  rr_sig_old : string;
  rr_sig_new : string;
}.

#[export] Instance rotation_record_eq_dec : EqDecision RotationRecord.
Proof. solve_decision. Defined.

Record Retired := mkRetired { rt_pubkey : bytes; rt_rotated_at : Z }.

Record UserKeyHistory := mkHistory {
  uh_current : bytes;
  uh_retired : list Retired;
}.

(** The log's JSON lines *)
Class RotationEnv := {
  rotation_to_json : RotationRecord -> string;
  rotation_from_json : string -> result RotationRecord string;
}.

Section Rotation.
Context `{CanonEnv}.

(** [RotationRecord::body] *)
Definition rotation_body (r : RotationRecord) : Json :=
  JObj [("v", json_num (rr_v r)); ("seq", json_num (rr_seq r)); ("old_pubkey", JStr (rr_old_pubkey r));
        ("old_key_id", JStr (rr_old_key_id r)); ("new_pubkey", JStr (rr_new_pubkey r));
        ("new_key_id", JStr (rr_new_key_id r)); ("rotated_at", JStr (rr_rotated_at r));
        ("prev", json_opt_str (rr_prev r))].

(** [RotationRecord::signed_bytes] *)
Definition rotation_bytes (r : RotationRecord) : bytes := domain_bytes ROTATION_DOMAIN (rotation_body r).

(** [RotationRecord::hash] *)
Definition rotation_hash (r : RotationRecord) : string :=
  hex_string (sha256 (str_bytes (canonical_json
    (json_set "sig_new" (JStr (rr_sig_new r)) (json_set "sig_old" (JStr (rr_sig_old r)) (rotation_body r)))))).

Definition with_sigs (r : RotationRecord) (old new : string) : RotationRecord :=
  mkRotation (rr_v r) (rr_seq r) (rr_old_pubkey r) (rr_old_key_id r) (rr_new_pubkey r) (rr_new_key_id r)
    (rr_rotated_at r) (rr_prev r) old new.

(** [RotationRecord::sign] *)
Definition rotation_sign (old new : SigningKey) (prev : option RotationRecord) (rotated_at : Z) : RotationRecord :=
  let op := vk_to_bytes (verifying_key old) in
  let np := vk_to_bytes (verifying_key new) in
  let r := mkRotation ROTATION_VERSION
             (match prev with Some p => wrap_add64 (rr_seq p) 1 | None => 1 end)
             (hex_string op) (key_id op) (hex_string np) (key_id np) (rfc3339_secs rotated_at)
             (rotation_hash <$> prev) "" "" in
  let b := rotation_bytes r in
  with_sigs r (hex_string (ed_sign old b)) (hex_string (ed_sign new b)).

(** [RotationRecord::rotated] *)
Definition rotated (r : RotationRecord) : option Z :=
  match parse_rfc3339 (rr_rotated_at r) with
  | Some t => if String.eqb (rfc3339_secs t) (rr_rotated_at r) then Some t else None
  | None => None
  end.

(** One signature of [RotationRecord::verify] *)
Definition check_rotation_sig (r : RotationRecord) (which : string) (pk : bytes) (sig : string)
  : result unit RotationError :=
  let? sig := ok_or (hex_decode_n 64 sig) (RMalformed (rr_seq r) "a signature is not 128 lowercase hex") in
  match vk_from_bytes pk with
  | Err _ => Err (RMalformed (rr_seq r) "a public key is not a valid point")
  | Ok vk => throw_if (negb (verify_strict vk (rotation_bytes r) sig)) (RBadSignature (rr_seq r) which)
  end.

(** [RotationRecord::verify] *)
Definition rotation_verify (r : RotationRecord) : result unit RotationError :=
  let bad := RMalformed (rr_seq r) in
  let? _ := throw_if (negb (rr_v r =? ROTATION_VERSION)) (bad "unsupported version") in
  let? op := ok_or (hex_decode_n 32 (rr_old_pubkey r)) (bad "old_pubkey is not 64 lowercase hex") in
  let? np := ok_or (hex_decode_n 32 (rr_new_pubkey r)) (bad "new_pubkey is not 64 lowercase hex") in
  let? _ := throw_if (negb (String.eqb (rr_old_key_id r) (key_id op)) || negb (String.eqb (rr_new_key_id r) (key_id np)))
              (bad "a key id does not match its public key") in
  let? _ := throw_if (bool_decide (op = np)) (bad "old and new keys are the same") in
  let? _ := throw_if (bool_decide (rotated r = None))
              (bad "rotated_at is not canonical RFC 3339 (YYYY-MM-DDTHH:MM:SSZ)") in
  let? _ := check_rotation_sig r "old" op (rr_sig_old r) in
  check_rotation_sig r "new" np (rr_sig_new r).

(** [UserKeyHistory::single] *)
Definition history_single (current : bytes) : UserKeyHistory := mkHistory current [].

(** [Option<DateTime>] is ordered with [None] first. *)
Definition opt_lt (a b : option Z) : bool :=
  match a, b with
  | Some a, Some b => (a <? b)%Z
  | None, Some _ => true
  | _, None => false
  end.

(** The links of [from_records] *)
Definition check_link (prev : option RotationRecord) (r : RotationRecord) : result unit RotationError :=
  let broken := RBroken (rr_seq r) in
  match prev with
  | None => throw_if (negb (rr_seq r =? 1) || bool_decide (is_Some (rr_prev r)))
              (broken "the first record must be seq 1 with no prev")
  | Some p =>
      let? _ := throw_if (negb (rr_seq r =? wrap_add64 (rr_seq p) 1)) (broken "sequence is not previous + 1") in
      let? _ := throw_if (negb (bool_decide (rr_prev r = Some (rotation_hash p))))
                  (broken "prev does not match the previous record") in
      let? _ := throw_if (negb (String.eqb (rr_old_pubkey r) (rr_new_pubkey p)))
                  (broken "old key is not the previous record's new key") in
      throw_if (opt_lt (rotated r) (rotated p)) (broken "rotated_at goes backwards")
  end.

(** The loop of [from_records] *)
Fixpoint fold_records (prev : option RotationRecord) (retired : list Retired) (rs : list RotationRecord)
  : result (option RotationRecord * list Retired) RotationError :=
  match rs with
  | [] => Ok (prev, retired)
  | r :: rs =>
      let? _ := rotation_verify r in
      let? _ := check_link prev r in
      let? op := ok_or (hex_decode_n 32 (rr_old_pubkey r)) (RBroken (rr_seq r) "old_pubkey") in
      let? at_ := ok_or (rotated r) (RBroken (rr_seq r) "rotated_at") in
      fold_records (Some r) (retired ++ [mkRetired op at_]) rs
  end.

(** [UserKeyHistory::from_records] *)
Definition from_records (current : bytes) (records : list RotationRecord) : result UserKeyHistory RotationError :=
  let? st := fold_records None [] records in
  let end_ := match st.1 with
              | Some l => default (replicate 32 x00) (hex_decode_n 32 (rr_new_pubkey l))
              | None => current
              end in
  let? _ := throw_if (negb (bool_decide (end_ = current))) (RNotCurrent (key_id end_) (key_id current)) in
  Ok (mkHistory current st.2).

(** [key_for] *)
Definition key_for (h : UserKeyHistory) (user_key_id : string) : option bytes :=
  if String.eqb (key_id (uh_current h)) user_key_id then Some (uh_current h)
  else (fun p => rt_pubkey p.2) <$> list_find (fun r => key_id (rt_pubkey r) = user_key_id) (uh_retired h).

(** [accepts] *)
Definition accepts (h : UserKeyHistory) (pubkey : bytes) (at_ : Z) : bool :=
  bool_decide (pubkey = uh_current h) ||
  existsb (fun r => bool_decide (rt_pubkey r = pubkey) && (at_ <=? rt_rotated_at r)%Z) (uh_retired h).

(** [rotated_at] *)
Definition rotated_at (h : UserKeyHistory) (pubkey : bytes) : option Z :=
  (fun p => rt_rotated_at p.2) <$> list_find (fun r => rt_pubkey r = pubkey) (uh_retired h).

Context `{RotationEnv}.

(** [RotationLog::read] on the outcome of reading the file as text ([None]
    is not found) *)
Fixpoint parse_lines (path : string) (i : N) (ls : list string) : result (list RotationRecord) RotationError :=
  match ls with
  | [] => Ok []
  | l :: ls =>
      match rotation_from_json l with
      | Ok r => let? rs := parse_lines path (i + 1) ls in Ok (r :: rs)
      | Err e => Err (RLog path ("line " +:+ pretty (i + 1) +:+ ": " +:+ e))
      end
  end.

Definition log_read (path : string) (file : option bytes) : result (list RotationRecord) RotationError :=
  match file with
  | None => Ok []
  | Some t =>
      if utf8_valid t then
        parse_lines path 0 (List.filter (fun l => negb (String.eqb (trim l) "")) (map string_of_list_byte (lines t)))
      else Err (RLog path "stream did not contain valid UTF-8")
  end.

(** [RotationLog::history] *)
Definition log_history (path : string) (file : option bytes) (current : bytes) : result UserKeyHistory RotationError :=
  let? rs := log_read path file in from_records current rs.

Definition log_text (rs : list RotationRecord) : bytes := rs ≫= fun r => str_bytes (rotation_to_json r) ++ [x0a].

(** [RotationLog::append], [RotationLog::replace]: the new contents of the
    file; [write] is the outcome of the atomic write *)
Definition log_append (path : string) (file : option bytes) (r : RotationRecord) (write : result unit string)
  : option bytes * result unit RotationError :=
  match log_read path file with
  | Err e => (file, Err e)
  | Ok all =>
      let all := all ++ [r] in
      match from_records (default (replicate 32 x00) (hex_decode_n 32 (rr_new_pubkey r))) all with
      | Err e => (file, Err e)
      | Ok _ =>
          match write with
          | Ok _ => (Some (log_text all), Ok tt)
          | Err e => (file, Err (RLog path e))
          end
      end
  end.

Definition log_replace (path : string) (file : option bytes) (rs : list RotationRecord) (write : result unit string)
  : option bytes * result unit RotationError :=
  match last rs ≫= fun r => hex_decode_n 32 (rr_new_pubkey r) with
  | None => (file, Err (RLog path "nothing to write"))
  | Some end_ =>
      match from_records end_ rs with
      | Err e => (file, Err e)
      | Ok _ =>
          match write with
          | Ok _ => (Some (log_text rs), Ok tt)
          | Err e => (file, Err (RLog path e))
          end
      end
  end.

End Rotation.

(** ** Histories *)

Section Histories.
Context `{CanonEnv}.

Fixpoint linked (prev : option RotationRecord) (rs : list RotationRecord) : Prop :=
  match rs with
  | [] => True
  | r :: rs => rotation_verify r = Ok tt /\ check_link prev r = Ok tt /\ linked (Some r) rs
  end.

Definition last_or (prev : option RotationRecord) (rs : list RotationRecord) : option RotationRecord :=
  match last rs with Some r => Some r | None => prev end.

(** The key a record retires, and when *)
Definition retired_by (r : RotationRecord) : option Retired :=
  op ← hex_decode_n 32 (rr_old_pubkey r); t ← rotated r; Some (mkRetired op t).

Lemma rotation_verify_inv r :
  rotation_verify r = Ok tt ->
  exists op np t, hex_decode_n 32 (rr_old_pubkey r) = Some op /\ hex_decode_n 32 (rr_new_pubkey r) = Some np /\
    op <> np /\ rotated r = Some t /\ rr_old_key_id r = key_id op /\ rr_new_key_id r = key_id np.
Proof using.
  unfold rotation_verify. intros Hv. inv_ok. apply orb_false_iff in Hok2 as [H1 H2].
  apply negb_false_iff, String.eqb_eq in H1, H2. apply bool_decide_eq_false in Hok3, Hok4.
  destruct (rotated r) as [z|] eqn:E; [|done]. by exists t0, t1, z.
Qed.

Lemma last_or_cons prev r rs : last_or prev (r :: rs) = last_or (Some r) rs.
Proof using. unfold last_or. destruct rs as [|x rs]; [done|]. change (last (r :: x :: rs)) with (last (x :: rs)).
  destruct (last (x :: rs)) eqn:E; [done|]. by apply last_None in E.
Qed.

Lemma fold_records_ok rs prev ret st :
  fold_records prev ret rs = Ok st <-> linked prev rs /\ st = (last_or prev rs, ret ++ omap retired_by rs).
Proof using.
  revert prev ret st. induction rs as [|r rs IH]; intros prev ret st; cbn [fold_records linked].
  { rewrite app_nil_r. unfold last_or. cbn. split; [intros [= <-]; done|intros [_ ->]; done]. }
  rewrite last_or_cons. cbn [omap list_omap]. split.
  - intros Hf. destruct (rotation_verify r) as [[]|] eqn:Hv; [|done]. destruct (check_link prev r) as [[]|]; [|done].
    destruct (rotation_verify_inv r Hv) as (op & np & t & Hop & _ & _ & Ht & _).
    unfold retired_by. rewrite Hop, Ht in *. cbn [ok_or] in Hf. apply IH in Hf as [Hl ->].
    simpl mbind. by rewrite <- app_assoc.
  - intros [(Hv & -> & Hl) ->]. rewrite Hv.
    destruct (rotation_verify_inv r Hv) as (op & np & t & Hop & _ & _ & Ht & _).
    unfold retired_by. rewrite Hop, Ht. cbn [ok_or]. apply IH. split; [done|]. simpl mbind. by rewrite <- app_assoc.
Qed.

(** The key a list of records ends at *)
Definition end_key (current : bytes) (rs : list RotationRecord) : bytes :=
  match last rs with
  | Some l => default (replicate 32 x00) (hex_decode_n 32 (rr_new_pubkey l))
  | None => current
  end.

Lemma from_records_ok current rs h :
  from_records current rs = Ok h <->
  linked None rs /\ end_key current rs = current /\ h = mkHistory current (omap retired_by rs).
Proof using.
  unfold from_records. destruct (fold_records None [] rs) as [st|e] eqn:Ef.
  - apply fold_records_ok in Ef as [Hl ->]. cbn [fst snd app]. unfold last_or. unfold end_key.
    destruct (last rs) as [l|].
    + destruct (bool_decide _) eqn:E; cbn [negb throw_if].
      * apply bool_decide_eq_true in E. split; [intros [= <-]; done|intros (_ & _ & ->); done].
      * apply bool_decide_eq_false in E. split; [done|]. by intros (_ & ? & _).
    + rewrite bool_decide_eq_true_2 by done. cbn [negb throw_if]. split; [intros [= <-]; done|intros (_ & _ & ->); done].
  - split; [done|]. intros (Hl & _). exfalso.
    assert (fold_records None [] rs = Ok (last_or None rs, [] ++ omap retired_by rs)) by (apply fold_records_ok; done).
    congruence.
Qed.

Lemma linked_snoc prev rs r :
  linked prev (rs ++ [r]) <-> linked prev rs /\ rotation_verify r = Ok tt /\ check_link (last_or prev rs) r = Ok tt.
Proof using.
  revert prev. induction rs as [|x rs IH]; intros prev; cbn [app linked]; [unfold last_or; cbn; tauto|].
  rewrite IH, last_or_cons. tauto.
Qed.

(** What the current and the retired keys may have sealed *)
Lemma accepts_spec h pk at_ :
  accepts h pk at_ = true <->
  pk = uh_current h \/ exists r, r ∈ uh_retired h /\ rt_pubkey r = pk /\ (at_ <= rt_rotated_at r)%Z.
Proof using.
  unfold accepts. rewrite orb_true_iff, bool_decide_eq_true, existsb_exists. f_equiv. split.
  - intros (r & Hr & [E%bool_decide_eq_true Hle]%andb_prop). exists r. rewrite list_elem_of_In. auto using Zle_bool_imp_le.
  - intros (r & Hr & <- & Hle). exists r. rewrite <- list_elem_of_In. split; [done|].
    rewrite bool_decide_eq_true_2 by done. by apply Z.leb_le.
Qed.

(** Two logs that both verify and end in records of one hash are the same log,
    unless two different records have that hash. *)
Theorem rotation_tamper_evident c1 c2 rs1 rs2 h1 h2 :
  from_records c1 rs1 = Ok h1 -> from_records c2 rs2 = Ok h2 ->
  rotation_hash <$> last rs1 = rotation_hash <$> last rs2 ->
  rs1 = rs2 \/ exists r1 r2, r1 <> r2 /\ rotation_hash r1 = rotation_hash r2.
Proof using.
  rewrite !from_records_ok. intros (Hl1 & _ & _) (Hl2 & _ & _). revert rs2 Hl1 Hl2.
  induction rs1 as [|r1 rs1 IH] using rev_ind; intros rs2 Hl1 Hl2 Hh.
  { destruct (last rs2) eqn:E; [done|]. apply last_None in E as ->. by left. }
  rewrite last_snoc in Hh. destruct rs2 as [|r2 rs2 _] using rev_ind; [done|]. rewrite last_snoc in Hh.
  injection Hh as Hh.
  destruct (decide (r1 = r2)) as [->|Hne]; [|right; by exists r1, r2].
  apply linked_snoc in Hl1 as (Hl1 & _ & Hc1), Hl2 as (Hl2 & _ & Hc2).
  destruct (IH rs2 Hl1 Hl2) as [->|]; [|by left|by right].
  unfold last_or in Hc1, Hc2. destruct (last rs1) as [p1|] eqn:E1, (last rs2) as [p2|] eqn:E2; cbn [check_link] in *; inv_ok;
    cbn; try done.
  - apply negb_false_iff, bool_decide_eq_true in Hok0, Hok3. congruence.
  - apply negb_false_iff, bool_decide_eq_true in Hok0. apply orb_false_iff in Hc2 as [_ Hc].
    apply bool_decide_eq_false in Hc. rewrite Hok0 in Hc. destruct Hc. by eexists.
  - apply negb_false_iff, bool_decide_eq_true in Hok0. apply orb_false_iff in Hc1 as [_ Hc].
    apply bool_decide_eq_false in Hc. rewrite Hok0 in Hc. destruct Hc. by eexists.
Qed.

End Histories.

(** ** Handing over *)

Section Handover.
Context `{CanonEnvLaws} `{!Ed25519Laws}.

Lemma rotated_signed old new prev t :
  time_ok t -> rotated (rotation_sign old new prev t) = Some (whole_secs t).
Proof using H1.
  intros Ht. unfold rotated. cbn [rotation_sign with_sigs rr_rotated_at].
  by rewrite parse_rfc3339_secs, rfc3339_secs_floor, String.eqb_refl.
Qed.

Lemma rotation_sig_signed k r which :
  check_rotation_sig r which (vk_to_bytes (verifying_key k)) (hex_string (ed_sign k (rotation_bytes r))) = Ok tt.
Proof.
  unfold check_rotation_sig. rewrite hex_decode_string by apply sig_length. cbn [ok_or].
  by rewrite vk_round_trip, sign_verifies_strict.
Qed.

Lemma rotation_sign_ok old new prev t :
  vk_to_bytes (verifying_key old) <> vk_to_bytes (verifying_key new) -> time_ok t ->
  rotation_verify (rotation_sign old new prev t) = Ok tt.
Proof.
  intros Hne Ht. unfold rotation_verify. rewrite rotated_signed by done.
  unfold rotation_sign. set (r := mkRotation _ _ _ _ _ _ _ _ "" "").
  set (r' := with_sigs r _ _).
  change (rr_v r') with ROTATION_VERSION. rewrite N.eqb_refl. cbn [negb throw_if].
  change (rr_old_pubkey r') with (hex_string (vk_to_bytes (verifying_key old))).
  change (rr_new_pubkey r') with (hex_string (vk_to_bytes (verifying_key new))).
  rewrite !hex_decode_string by apply vk_length. cbn [ok_or].
  change (rr_old_key_id r') with (key_id (vk_to_bytes (verifying_key old))).
  change (rr_new_key_id r') with (key_id (vk_to_bytes (verifying_key new))).
  rewrite !String.eqb_refl, !bool_decide_eq_false_2 by done. cbn [negb orb throw_if].
  change (rr_sig_old r') with (hex_string (ed_sign old (rotation_bytes r'))).
  change (rr_sig_new r') with (hex_string (ed_sign new (rotation_bytes r'))).
  by rewrite !rotation_sig_signed.
Qed.

(** The times of a verified log do not go backwards. *)
Lemma linked_times rs p tp :
  linked None rs -> last rs = Some p -> rotated p = Some tp ->
  Forall (fun x => (rt_rotated_at x <= tp)%Z) (omap retired_by rs).
Proof using.
  revert p tp. induction rs as [|r rs IH] using rev_ind; intros p tp Hl Hlast Ht; [constructor|].
  rewrite last_snoc in Hlast. injection Hlast as ->. apply linked_snoc in Hl as (Hl & Hv & Hc).
  rewrite omap_app. apply Forall_app. split.
  - destruct (last rs) as [q|] eqn:E; [|apply last_None in E as ->; constructor].
    unfold last_or in Hc. rewrite E in Hc. cbn [check_link] in Hc. inv_ok. rewrite Ht in Hc.
    destruct (rotated q) as [tq|] eqn:Hq; cbn in Hc.
    + apply Z.ltb_ge in Hc. eapply Forall_impl; [by apply (IH q tq)|]. cbn. lia.
    + destruct rs as [|q' rs' _] using rev_ind; [done|]. rewrite last_snoc in E. injection E as ->.
      apply linked_snoc in Hl as (_ & Hvq & _).
      destruct (rotation_verify_inv q Hvq) as (? & ? & ? & _ & _ & _ & Hq' & _). congruence.
  - cbn. unfold retired_by. rewrite Ht. destruct (hex_decode_n 32 _); cbn; by repeat constructor.
Qed.

Lemma handover old new rs h t :
  let opk := vk_to_bytes (verifying_key old) in
  let npk := vk_to_bytes (verifying_key new) in
  from_records opk rs = Ok h -> opk <> npk -> time_ok t ->
  (forall p tp, last rs = Some p -> rotated p = Some tp -> (tp <= whole_secs t)%Z) ->
  from_records npk (rs ++ [rotation_sign old new (last rs) t]) =
    Ok (mkHistory npk (uh_retired h ++ [mkRetired opk (whole_secs t)])).
Proof.
  cbn zeta. set (opk := vk_to_bytes (verifying_key old)). set (npk := vk_to_bytes (verifying_key new)).
  intros (Hl & Hend & ->)%from_records_ok Hne Ht Hmono. apply from_records_ok. cbn [uh_retired].
  set (r := rotation_sign old new (last rs) t).
  assert (hex_decode_n 32 (rr_new_pubkey r) = Some npk) as Hn by (apply hex_decode_string, vk_length).
  assert (hex_decode_n 32 (rr_old_pubkey r) = Some opk) as Ho by (apply hex_decode_string, vk_length).
  assert (rotated r = Some (whole_secs t)) as Hr by (by apply rotated_signed).
  split; [|split].
  - apply linked_snoc. split; [done|]. split; [by apply rotation_sign_ok|]. unfold last_or, end_key in *.
    destruct (last rs) as [p|] eqn:E; [|done].
    destruct rs as [|p' rs' _] using rev_ind; [done|]. rewrite last_snoc in E. injection E as ->.
    apply linked_snoc in Hl as (_ & Hvp & _).
    destruct (rotation_verify_inv p Hvp) as (? & np & tp & _ & Hnp & _ & Htp & _).
    rewrite Hnp in Hend. simpl default in Hend. subst np. apply hex_one_spelling in Hnp as [_ Hnp].
    cbn [check_link]. change (rr_seq r) with (wrap_add64 (rr_seq p) 1). rewrite N.eqb_refl. cbn [negb throw_if].
    change (rr_prev r) with (Some (rotation_hash p)). rewrite bool_decide_eq_true_2 by done. cbn [negb throw_if].
    change (rr_old_pubkey r) with (hex_string opk). rewrite Hnp, String.eqb_refl. cbn [negb throw_if].
    rewrite Hr, Htp. cbn [opt_lt]. specialize (Hmono p tp eq_refl Htp).
    by rewrite (proj2 (Z.ltb_ge _ _) Hmono).
  - unfold end_key. rewrite last_snoc, Hn. done.
  - assert (retired_by r = Some (mkRetired opk (whole_secs t))) as E by (unfold retired_by; by rewrite Ho, Hr).
    rewrite omap_app. cbn [omap list_omap]. by rewrite E.
Qed.

(** Rotating the user key keeps the past and closes the future: after the
    dual-signed handover the history ends at the new key, everything that was
    accepted and dated up to the rotation still is, and nothing dated later
    is accepted under the old key. *)
Theorem rotation_keeps_history old new rs h t :
  let opk := vk_to_bytes (verifying_key old) in
  let npk := vk_to_bytes (verifying_key new) in
  from_records opk rs = Ok h -> opk <> npk -> time_ok t ->
  (forall p tp, last rs = Some p -> rotated p = Some tp -> (tp <= whole_secs t)%Z) ->
  exists h', from_records npk (rs ++ [rotation_sign old new (last rs) t]) = Ok h' /\ uh_current h' = npk /\
    (forall pk at_, accepts h pk at_ = true -> (at_ <= whole_secs t)%Z -> accepts h' pk at_ = true) /\
    (forall at_, (whole_secs t < at_)%Z -> accepts h' opk at_ = false).
Proof.
  cbn zeta. intros Hh Hne Ht Hmono. eexists. split; [by apply (handover old new rs h t)|]. split; [done|].
  pose proof Hh as (Hl & Hend & ->)%from_records_ok. split.
  - intros pk at_ Ha Hle. apply accepts_spec in Ha. apply accepts_spec. cbn [uh_current uh_retired] in *. right.
    destruct Ha as [->|(r & Hr & Hpk & Hat)].
    + eexists. split; [apply elem_of_app; right; by apply list_elem_of_singleton|]. done.
    + exists r. split; [|done]. apply elem_of_app. by left.
  - intros at_ Hat. apply not_true_is_false. rewrite accepts_spec. cbn [uh_current uh_retired].
    intros [E|(r & Hr & Hpk & Hle)]; [done|].
    apply elem_of_app in Hr as [Hr| ->%list_elem_of_singleton]; [|cbn in Hle; lia].
    destruct (last rs) as [p|] eqn:E; [|apply last_None in E as ->; by apply not_elem_of_nil in Hr].
    destruct rs as [|p' rs' _] using rev_ind; [done|]. rewrite last_snoc in E. injection E as ->.
    pose proof Hl as (_ & Hvp & _)%linked_snoc.
    destruct (rotation_verify_inv p Hvp) as (? & ? & tp & _ & _ & _ & Htp & _).
    pose proof (linked_times _ p tp Hl (last_snoc _ _) Htp) as Hf. rewrite Forall_forall in Hf.
    specialize (Hf r Hr). cbn in Hf. specialize (Hmono p tp eq_refl Htp). lia.
Qed.

(** Nothing stops a retired key from coming back: rotating from a key to a
    second one and back again gives a history in which the first key is
    current, and accepted for every date, and yet has a rotation point. *)
Theorem retired_key_returns k1 k2 t1 t2 :
  let p1 := vk_to_bytes (verifying_key k1) in
  p1 <> vk_to_bytes (verifying_key k2) -> time_ok t1 -> time_ok t2 -> (whole_secs t1 <= whole_secs t2)%Z ->
  exists rs h, from_records p1 rs = Ok h /\ length rs = 2%nat /\ rotated_at h p1 = Some (whole_secs t1) /\
    forall at_, accepts h p1 at_ = true.
Proof.
  cbn zeta. intros Hne Ht1 Ht2 Hle.
  assert (from_records (vk_to_bytes (verifying_key k1)) [] = Ok (history_single (vk_to_bytes (verifying_key k1)))) as H0'
    by (by apply from_records_ok).
  pose proof (handover k1 k2 [] _ t1 H0' Hne Ht1 ltac:(done)) as Ha.
  pose proof (handover k2 k1 _ _ t2 Ha (not_eq_sym Hne) Ht2) as Hb. cbn [last app] in Hb.
  eexists _, _. split; [apply Hb|].
  { intros p tp [= <-] Hp. rewrite rotated_signed in Hp by done. injection Hp as <-. done. }
  split; [done|]. split.
  - unfold rotated_at. cbn [uh_retired history_single app list_find]. by rewrite decide_True.
  - intros at_. apply accepts_spec. by left.
Qed.

End Handover.

(** ** The log *)

(** What the log relies on: a record is one line of text that is not blank,
    and reads back as itself. *)
Class RotationEnvLaws `{RotationEnv} : Prop := {
  rotation_line r : one_line (str_bytes (rotation_to_json r));
  rotation_not_blank r : trim (rotation_to_json r) <> "";
  rotation_json_reads r : rotation_from_json (rotation_to_json r) = Ok r;
}.

Section Log.
Context `{CanonEnv} `{RotationEnvLaws}.

Lemma log_text_reads path rs : log_read path (Some (log_text rs)) = Ok rs.
Proof.
  assert (log_text rs = map (fun r => str_bytes (rotation_to_json r)) rs ≫= fun l => l ++ [x0a]) as E.
  { unfold log_text. induction rs as [|r rs IH]; [done|]. simpl. f_equal. exact IH. }
  destruct (lines_text (map (fun r => str_bytes (rotation_to_json r)) rs)) as [Hv Hl].
  { apply Forall_forall. intros l (r & -> & _)%list_elem_of_fmap. apply rotation_line. }
  unfold log_read. rewrite E, Hv, Hl. clear E Hv Hl. generalize 0%N.
  induction rs as [|r rs IH]; intros i; [done|]. cbn [map List.filter].
  unfold str_bytes at 1 2. rewrite string_of_list_byte_of_string.
  rewrite (proj2 (String.eqb_neq _ _) (rotation_not_blank r)). cbn [negb parse_lines].
  rewrite rotation_json_reads. by rewrite IH.
Qed.

(** The rotation log keeps what it accepts and accepts only what continues
    it: a successful append reads back as the old records and the new one,
    which form a history ending at the new record's key; a refused append
    leaves the file alone. *)
Theorem rotation_log_round_trip path file r write file' res :
  log_append path file r write = (file', res) ->
  match res with
  | Ok _ => exists rs h np, log_read path file = Ok rs /\ log_read path file' = Ok (rs ++ [r]) /\
      hex_decode_n 32 (rr_new_pubkey r) = Some np /\ log_history path file' np = Ok h /\ uh_current h = np
  | Err _ => file' = file
  end.
Proof.
  unfold log_append. destruct (log_read path file) as [rs|e] eqn:Hr; [|by intros [= <- <-]].
  destruct (from_records _ _) as [h|e] eqn:Hf; [|by intros [= <- <-]].
  destruct write as [[]|e]; intros [= <- <-]; [|done].
  pose proof Hf as (Hl & _ & _)%from_records_ok. apply linked_snoc in Hl as (_ & Hv & _).
  destruct (rotation_verify_inv r Hv) as (op & np & t & _ & Hn & _). rewrite Hn in Hf. simpl default in Hf.
  exists rs, h, np. unfold log_history. rewrite log_text_reads. split_and!; try done.
  by apply from_records_ok in Hf as (_ & _ & ->).
Qed.

End Log.
