(* ===== verification/Identity.v ===== *)
(** * Project identities

    project_identity.rs and project_identity_view.rs: certificates signed by
    the user key, proofs of possession, and the view that merges the user
    chain, the identity journal and the certificate files into what key is
    certified, retired or revoked for which project. *)

From Stdlib Require Import Strings.String.
From S2P Require Import Prelude Codec Chain Delegation Canon KeyRotation.

Local Open Scope string_scope.
Local Open Scope list_scope.
Local Open Scope N_scope.

Definition SOURCE : string := "user.projects".
Definition KIND_REGISTER : string := "project.register".
Definition KIND_REKEY : string := "project.rekey".
Definition KIND_REVOKE : string := "project.revoke".

Inductive IdentityError :=
| ICert (e : CertError)
| KeyFile (path why : string)
| KeyConflict (project_id bound : string)
| KeyRevoked (project_id key_id : string)
| NotBound (project_id : string)
| ProjectRevoked (project_id : string)
| KeyReuse (key_id other_project : string)
| JournalCorrupt (path why : string)
| AlreadyExists (path : string)
| BadLifetime
| IdIo (e : string).

(** project_identity_journal.rs: one journal line *)
Inductive JournalRecord :=
| JRegister (cert : ProjectCert)
| JRekey (old_key_id : string) (cert : ProjectCert)
| JInit
| JRevoke (project_id key_id : string).

Inductive Registration :=
| Existing (cert : ProjectCert)
| New (serial : N).

Record ProjectIdentity := mkIdentity {
  id_certs : list ProjectCert;
  id_revoked : gset string;
  id_retired : gset string;
}.

Definition no_identity : ProjectIdentity := mkIdentity [] ∅ ∅.

Record RevocationView := mkView {
  rv_trust : UserKeyHistory;
  rv_anchored : gmap string N;
  rv_rotated_seq : gmap string N;
  rv_projects : gmap string ProjectIdentity;
  rv_key_owner : gmap string string;
  rv_rejected : N;
}.

(** Why a certificate was rejected; the code renders it for its log *)
Inductive RejectCause :=
| NotVerified (e : IdentityError)
| Uncorroborated (anchored rotated : option N).

(** [entry(k).or_insert(v)] *)
Definition or_insert {V} (k : string) (v : V) (m : gmap string V) : gmap string V :=
  match m !! k with Some _ => m | None => <[k := v]> m end.

(** [serde_json::from_value::<ProjectCert>] and the JSON of a certificate *)
Class IdentityEnv := {
  cert_from_value : Json -> option ProjectCert;
  cert_to_value : ProjectCert -> Json;
}.

Section Certs.
Context `{CanonEnv}.

(** [sign_cert] *)
Definition sign_cert (user_key : SigningKey) (req : CertRequest) : result ProjectCert IdentityError :=
  let? _ := throw_if (negb (validate_id (cr_project_id req))) (ICert BadProjectId) in
  let? _ := throw_if (match cr_expires_at req with Some e => (e <=? cr_issued_at req)%Z | None => false end)
              BadLifetime in
  Ok (cert_sign user_key req).

(** [verify_signature_only] *)
Definition verify_signature_only (c : ProjectCert) (trusted : bytes) : result unit CertError :=
  match parse_rfc3339 (pc_issued_at c) with
  | None => Err (BadTimestamp "issued_at")
  | Some at_ => cert_verify c trusted at_
  end.

(** [verify_cert_historic] *)
Definition verify_cert_historic (c : ProjectCert) (trust : UserKeyHistory) : result unit IdentityError :=
  match key_for trust (pc_user_key_id c) with
  | None => Err (ICert UntrustedUser)
  | Some pk =>
      match parse_rfc3339 (pc_issued_at c) with
      | None => Err (ICert (BadTimestamp "issued_at"))
      | Some at_ =>
          if negb (accepts trust pk at_) then Err (ICert UntrustedUser)
          else match verify_signature_only c pk with
               | Ok _ => Ok tt
               | Err e => Err (ICert e)
               end
      end
  end.

(** [pop_sign], [pop_verify] *)
Definition pop_sign (k : SigningKey) (op : PopOp) (user_key_id nonce project_id : string) : result bytes CertError :=
  let? b := pop_signed_bytes op user_key_id nonce project_id in
  Ok (ed_sign k b).

Definition pop_verify (pubkey : bytes) (op : PopOp) (user_key_id nonce project_id : string) (sig : bytes)
  : result unit CertError :=
  let? b := pop_signed_bytes op user_key_id nonce project_id in
  match vk_from_bytes pubkey with
  | Err _ => Err (BadHex "pubkey")
  | Ok vk => throw_if (negb (verify_strict vk b sig)) BadSig
  end.

(** [rejection_cause] *)
Definition rejection_cause (v : RevocationView) (c : ProjectCert) : option RejectCause :=
  match verify_cert_historic c (rv_trust v) with
  | Err e => Some (NotVerified e)
  | Ok _ =>
      if String.eqb (pc_user_key_id c) (key_id (uh_current (rv_trust v))) then None
      else
        let anchored := rv_anchored v !! pc_sig c in
        let rotated := rv_rotated_seq v !! pc_user_key_id c in
        match anchored, rotated with
        | Some s, Some r => if s <? r then None else Some (Uncorroborated anchored rotated)
        | _, _ => Some (Uncorroborated anchored rotated)
        end
  end.

Definition with_projects (v : RevocationView) (p : gmap string ProjectIdentity) (o : gmap string string) : RevocationView :=
  mkView (rv_trust v) (rv_anchored v) (rv_rotated_seq v) p o (rv_rejected v).

Definition project (v : RevocationView) (id : string) : ProjectIdentity := default no_identity (rv_projects v !! id).

(** [ingest_cert] *)
Definition ingest_cert (v : RevocationView) (c : ProjectCert) : RevocationView :=
  match rejection_cause v c with
  | Some _ =>
      mkView (rv_trust v) (rv_anchored v) (rv_rotated_seq v) (rv_projects v) (rv_key_owner v) (rv_rejected v + 1)
  | None =>
      let st := project v (pc_project_id c) in
      let st := if existsb (fun x => String.eqb (pc_sig x) (pc_sig c)) (id_certs st) then st
                else mkIdentity (id_certs st ++ [c]) (id_revoked st) (id_retired st) in
      with_projects v (<[pc_project_id c := st]> (rv_projects v))
        (or_insert (pc_project_key_id c) (pc_project_id c) (rv_key_owner v))
  end.

(** [ingest_revoke], [ingest_retire] *)
Definition ingest_revoke (v : RevocationView) (project_id kid : string) : RevocationView :=
  let st := project v project_id in
  with_projects v (<[project_id := mkIdentity (id_certs st) ({[kid]} ∪ id_revoked st) (id_retired st)]> (rv_projects v))
    (or_insert kid project_id (rv_key_owner v)).

Definition ingest_retire (v : RevocationView) (project_id kid : string) : RevocationView :=
  let st := project v project_id in
  with_projects v (<[project_id := mkIdentity (id_certs st) (id_revoked st) ({[kid]} ∪ id_retired st)]> (rv_projects v))
    (rv_key_owner v).

Definition ingest_record (v : RevocationView) (r : JournalRecord) : RevocationView :=
  match r with
  | JRegister c => ingest_cert v c
  | JRekey old c =>
      ingest_cert (ingest_retire (ingest_revoke v (pc_project_id c) old) (pc_project_id c) old) c
  | JRevoke id k => ingest_revoke v id k
  | JInit => v
  end.

Context `{IdentityEnv}.

Definition cert_of (field : string) (p : Json) : option ProjectCert := json_get field p ≫= cert_from_value.
Definition text_of (field : string) (p : Json) : option string := json_get field p ≫= json_as_str.

(** [index_chain], one event *)
Definition index_event (v : RevocationView) (ev : ChainEvent) : RevocationView :=
  let set a r := mkView (rv_trust v) a r (rv_projects v) (rv_key_owner v) (rv_rejected v) in
  if negb (String.eqb (ce_source ev) SOURCE) then v
  else match ce_payload ev with
       | None => v
       | Some p =>
           if String.eqb (ce_kind ev) KIND_REGISTER || String.eqb (ce_kind ev) KIND_REKEY then
             match cert_of (if String.eqb (ce_kind ev) KIND_REGISTER then "cert" else "new_cert") p with
             | Some c => set (or_insert (pc_sig c) (ce_sequence ev) (rv_anchored v)) (rv_rotated_seq v)
             | None => v
             end
           else if String.eqb (ce_kind ev) KIND_ROTATED then
             match json_get "record" p ≫= text_of "old_key_id" with
             | Some old => set (rv_anchored v) (or_insert old (ce_sequence ev) (rv_rotated_seq v))
             | None => v
             end
           else v
       end.

(** [ingest_event] *)
Definition ingest_event (v : RevocationView) (ev : ChainEvent) : RevocationView :=
  if negb (String.eqb (ce_source ev) SOURCE) then v
  else match ce_payload ev with
       | None => v
       | Some p =>
           if String.eqb (ce_kind ev) KIND_REGISTER then
             match cert_of "cert" p with Some c => ingest_cert v c | None => v end
           else if String.eqb (ce_kind ev) KIND_REKEY then
             let v := match text_of "project_id" p, text_of "old_key_id" p with
                      | Some id, Some old => ingest_retire (ingest_revoke v id old) id old
                      | _, _ => v
                      end in
             match cert_of "new_cert" p with Some c => ingest_cert v c | None => v end
           else if String.eqb (ce_kind ev) KIND_REVOKE then
             match text_of "project_id" p, text_of "old_key_id" p with
             | Some id, Some old => ingest_revoke v id old
             | _, _ => v
             end
           else v
       end.

(** [build_with], [build] *)
Definition build_with (trust : UserKeyHistory) (events : list ChainEvent) (journal : list JournalRecord)
  (cert_files : list ProjectCert) : RevocationView :=
  let v := mkView trust ∅ ∅ ∅ ∅ 0 in
  let v := foldl index_event v events in
  let v := foldl ingest_record v journal in
  let v := foldl ingest_cert v cert_files in
  foldl ingest_event v events.

Definition build (user_pubkey : bytes) := build_with (history_single user_pubkey).

(** ** Queries *)

Definition is_revoked (v : RevocationView) (id kid : string) : bool := bool_decide (kid ∈ id_revoked (project v id)).

Definition was_revoked (v : RevocationView) (id : string) : bool :=
  bool_decide (id_revoked (project v id) ∖ id_retired (project v id) <> ∅).

Definition is_compromised (v : RevocationView) (id kid : string) : bool :=
  bool_decide (kid ∈ id_revoked (project v id)) && negb (bool_decide (kid ∈ id_retired (project v id))).

Definition key_history (v : RevocationView) (id : string) : list ProjectCert :=
  List.filter (fun c => negb (bool_decide (pc_project_key_id c ∈ id_revoked (project v id)))
                        || bool_decide (pc_project_key_id c ∈ id_retired (project v id))) (id_certs (project v id)).

Definition all_certs (v : RevocationView) (id : string) : list ProjectCert := id_certs (project v id).

(** [max_by_key(serial)]: of equal ones the last *)
Definition max_serial (cs : list ProjectCert) : option ProjectCert :=
  foldl (fun best c => match best with
                       | Some b => if pc_serial c <? pc_serial b then Some b else Some c
                       | None => Some c
                       end) None cs.

(** [current_cert], [bound_key_id] *)
Definition current_cert (v : RevocationView) (id : string) : option ProjectCert :=
  max_serial (List.filter (fun c => negb (bool_decide (pc_project_key_id c ∈ id_revoked (project v id))))
                (id_certs (project v id))).

Definition bound_key_id (v : RevocationView) (id : string) : option string :=
  pc_project_key_id <$> current_cert v id.

Definition last_serial (v : RevocationView) (id : string) : N :=
  foldl N.max 0 (map pc_serial (id_certs (project v id))).

Definition key_owner (v : RevocationView) (kid : string) : option string := rv_key_owner v !! kid.

Definition refuse_reuse (v : RevocationView) (id kid : string) : result unit IdentityError :=
  match key_owner v kid with
  | Some o => throw_if (negb (String.eqb o id)) (KeyReuse kid o)
  | None => Ok tt
  end.

Definition check_cert (v : RevocationView) (c : ProjectCert) : result unit IdentityError :=
  let id := pc_project_id c in
  let? _ := throw_if (is_revoked v id (pc_project_key_id c)) (KeyRevoked id (pc_project_key_id c)) in
  match bound_key_id v id with
  | Some b => throw_if (negb (String.eqb b (pc_project_key_id c))) (KeyConflict id b)
  | None => Ok tt
  end.

Definition plan_registration (v : RevocationView) (id : string) (pubkey : bytes) : result Registration IdentityError :=
  let kid := key_id pubkey in
  let? _ := refuse_reuse v id kid in
  let? _ := throw_if (is_revoked v id kid) (KeyRevoked id kid) in
  let? _ := throw_if (bool_decide (current_cert v id = None) && was_revoked v id) (ProjectRevoked id) in
  match current_cert v id with
  | Some c => if String.eqb (pc_project_key_id c) kid then Ok (Existing c) else Err (KeyConflict id (pc_project_key_id c))
  | None => Ok (New (wrap_add64 (last_serial v id) 1))
  end.

Definition plan_rekey (v : RevocationView) (id : string) (new_pubkey : bytes) : result (string * N) IdentityError :=
  let? old := ok_or (bound_key_id v id) (NotBound id) in
  let new := key_id new_pubkey in
  let? _ := refuse_reuse v id new in
  let? _ := throw_if (String.eqb new old) (KeyConflict id old) in
  let? _ := throw_if (is_revoked v id new) (KeyRevoked id new) in
  Ok (old, wrap_add64 (last_serial v id) 1).

(** [export_records]; the ids and the keys are sorted, the certificates stably
    by serial *)
Definition serial_le (a b : ProjectCert) : Prop := pc_serial a <= pc_serial b.

#[local] Instance serial_le_dec : RelDecision serial_le.
Proof. intros a b. unfold serial_le. apply _. Defined.

Definition export_project (id : string) (st : ProjectIdentity) : list JournalRecord :=
  map JRegister (merge_sort serial_le (id_certs st)) ++ map (JRevoke id) (sort_keys (elements (id_revoked st))).

Definition export_records (v : RevocationView) : list JournalRecord :=
  sort_keys (elements (dom (rv_projects v))) ≫= fun id => export_project id (project v id).

End Certs.

(** ** The sources as claims

    Everything the three sources say is a list of claims; the view folds
    them. *)

Inductive Claim :=
| CCert (c : ProjectCert)
| CRevoke (id kid : string)
| CRetire (id kid : string).

Definition record_claims (r : JournalRecord) : list Claim :=
  match r with
  | JRegister c => [CCert c]
  | JRekey old c => [CRevoke (pc_project_id c) old; CRetire (pc_project_id c) old; CCert c]
  | JRevoke id k => [CRevoke id k]
  | JInit => []
  end.

Section Claims.
Context `{CanonEnv} `{IdentityEnv}.

Definition event_claims (ev : ChainEvent) : list Claim :=
  if negb (String.eqb (ce_source ev) SOURCE) then []
  else match ce_payload ev with
       | None => []
       | Some p =>
           if String.eqb (ce_kind ev) KIND_REGISTER then CCert <$> option_list (cert_of "cert" p)
           else if String.eqb (ce_kind ev) KIND_REKEY then
             match text_of "project_id" p, text_of "old_key_id" p with
             | Some id, Some old => [CRevoke id old; CRetire id old]
             | _, _ => []
             end ++ (CCert <$> option_list (cert_of "new_cert" p))
           else if String.eqb (ce_kind ev) KIND_REVOKE then
             match text_of "project_id" p, text_of "old_key_id" p with
             | Some id, Some old => [CRevoke id old]
             | _, _ => []
             end
           else []
       end.

Definition claims (events : list ChainEvent) (journal : list JournalRecord) (files : list ProjectCert) : list Claim :=
  (journal ≫= record_claims) ++ map CCert files ++ (events ≫= event_claims).

Definition ingest (v : RevocationView) (a : Claim) : RevocationView :=
  match a with
  | CCert c => ingest_cert v c
  | CRevoke id k => ingest_revoke v id k
  | CRetire id k => ingest_retire v id k
  end.

Definition indexed (trust : UserKeyHistory) (events : list ChainEvent) : RevocationView :=
  foldl index_event (mkView trust ∅ ∅ ∅ ∅ 0) events.

Lemma foldl_claims {A} (step : RevocationView -> A -> RevocationView) (f : A -> list Claim) l v :
  (forall v x, step v x = foldl ingest v (f x)) -> foldl step v l = foldl ingest v (l ≫= f).
Proof using.
  intros Hs. revert v. induction l as [|x l IH]; intros v; [done|]. cbn [foldl]. simpl mbind.
  by rewrite foldl_app, IH, Hs.
Qed.

Lemma build_claims trust events journal files :
  build_with trust events journal files = foldl ingest (indexed trust events) (claims events journal files).
Proof using.
  unfold build_with, claims. rewrite !foldl_app. fold (indexed trust events).
  rewrite (foldl_claims ingest_record record_claims) by (by intros v []).
  rewrite (foldl_claims ingest_event event_claims).
  2: { intros v ev. unfold ingest_event, event_claims. destruct (negb _); [done|]. destruct (ce_payload ev) as [p|]; [|done].
       destruct (String.eqb _ KIND_REGISTER); [by destruct (cert_of "cert" p)|].
       destruct (String.eqb _ KIND_REKEY).
       - rewrite foldl_app. destruct (text_of "project_id" p), (text_of "old_key_id" p); by destruct (cert_of "new_cert" p).
       - destruct (String.eqb _ KIND_REVOKE); [|done]. by destruct (text_of "project_id" p), (text_of "old_key_id" p). }
  f_equal. generalize (foldl ingest (indexed trust events) (journal ≫= record_claims)). intros v.
  revert v. induction files as [|c files IH]; intros v; [done|]. cbn [foldl map]. by rewrite IH.
Qed.

(** A certificate the sources make count *)
Definition admitted (trust : UserKeyHistory) (events : list ChainEvent) (c : ProjectCert) : Prop :=
  rejection_cause (indexed trust events) c = None.

Lemma index_empty trust events :
  rv_projects (indexed trust events) = ∅ /\ rv_key_owner (indexed trust events) = ∅ /\
  rv_trust (indexed trust events) = trust.
Proof using.
  unfold indexed. assert (forall v, rv_projects (foldl index_event v events) = rv_projects v /\
    rv_key_owner (foldl index_event v events) = rv_key_owner v /\ rv_trust (foldl index_event v events) = rv_trust v) as Hg.
  { induction events as [|ev events IH]; intros v; [done|]. cbn [foldl]. destruct (IH (index_event v ev)) as (-> & -> & ->).
    unfold index_event. destruct (negb _); [done|]. destruct (ce_payload ev) as [p|]; [|done].
    destruct (_ || _); [by destruct (cert_of _ p)|]. destruct (String.eqb _ KIND_ROTATED); [|done].
    by destruct (_ ≫= _). }
  apply Hg.
Qed.

(** A key claimed for a project *)
Definition claimed (trust : UserKeyHistory) (events : list ChainEvent) (cl : list Claim) (id kid : string) : Prop :=
  CRevoke id kid ∈ cl \/
  exists c, CCert c ∈ cl /\ admitted trust events c /\ pc_project_id c = id /\ pc_project_key_id c = kid.

(** What a view built from claims holds *)
Record view_of (trust : UserKeyHistory) (events : list ChainEvent) (cl : list Claim) (v : RevocationView) : Prop := mkViewOf {
  vo_trust : rv_trust v = trust;
  vo_cause c : rejection_cause v c = rejection_cause (indexed trust events) c;
  vo_revoked id k : k ∈ id_revoked (project v id) <-> CRevoke id k ∈ cl;
  vo_retired id k : k ∈ id_retired (project v id) <-> CRetire id k ∈ cl;
  vo_certs id c : c ∈ id_certs (project v id) -> CCert c ∈ cl /\ admitted trust events c /\ pc_project_id c = id;
  vo_all c : CCert c ∈ cl -> admitted trust events c ->
    exists c', c' ∈ id_certs (project v (pc_project_id c)) /\ pc_sig c' = pc_sig c;
  vo_sigs id : NoDup (pc_sig <$> id_certs (project v id));
  vo_owner kid id : rv_key_owner v !! kid = Some id -> claimed trust events cl id kid;
  vo_owned kid id : claimed trust events cl id kid -> is_Some (rv_key_owner v !! kid);
}.

Lemma rejection_index v v' c :
  rv_trust v = rv_trust v' -> rv_anchored v = rv_anchored v' -> rv_rotated_seq v = rv_rotated_seq v' ->
  rejection_cause v c = rejection_cause v' c.
Proof using. intros E1 E2 E3. unfold rejection_cause. by rewrite E1, E2, E3. Qed.

Lemma lookup_or_insert {V} k k' (x : V) m :
  or_insert k x m !! k' = match m !! k' with Some y => Some y | None => if decide (k = k') then Some x else None end.
Proof using.
  unfold or_insert. destruct (m !! k) as [y|] eqn:E.
  - destruct (m !! k') eqn:E'; [done|]. case_decide; [by subst; congruence|done].
  - destruct (decide (k = k')) as [->|]; [by rewrite lookup_insert_eq, E|rewrite lookup_insert_ne by done].
    by destruct (m !! k').
Qed.

Lemma project_insert v p o id id' :
  project (with_projects v (<[id := p]> (rv_projects v)) o) id' = if decide (id = id') then p else project v id'.
Proof using.
  unfold project. cbn [with_projects rv_projects]. case_decide; [subst; by rewrite lookup_insert_eq|].
  by rewrite lookup_insert_ne.
Qed.

Lemma claimed_snoc trust events cl a id kid :
  claimed trust events (cl ++ [a]) id kid <->
  claimed trust events cl id kid \/ a = CRevoke id kid \/
  exists c, a = CCert c /\ admitted trust events c /\ pc_project_id c = id /\ pc_project_key_id c = kid.
Proof using.
  unfold claimed. setoid_rewrite elem_of_app. setoid_rewrite list_elem_of_singleton. split.
  - intros [[?| <-]|(c & [?| <-] & ?)]; eauto 7.
  - intros [[?|(c & ? & ?)]|[->|(c & -> & ?)]]; eauto 7.
Qed.

Lemma view_of_revoke trust events cl v id kid :
  view_of trust events cl v -> view_of trust events (cl ++ [CRevoke id kid]) (ingest_revoke v id kid).
Proof using.
  intros [Ht Hc Hrv Hrt Hce Hal Hsg How Hod]. unfold ingest_revoke.
  split; intros; cbn [with_projects rv_trust rv_key_owner]; rewrite ?elem_of_app, ?list_elem_of_singleton; try done.
  - by rewrite <- (Hc c); apply rejection_index.
  - rewrite project_insert. case_decide; cbn [id_revoked]; rewrite <- Hrv; set_solver.
  - rewrite project_insert. case_decide; cbn [id_retired]; rewrite <- Hrt; set_solver.
  - rewrite project_insert in *. case_decide; cbn [id_certs] in *; subst; destruct (Hce _ _ H2); auto.
  - rewrite elem_of_app, list_elem_of_singleton in *. rewrite project_insert.
    destruct H2 as [H2|]; [|done]. destruct (Hal c H2 H3) as (c' & Hc' & ?). exists c'. case_decide; subst; done.
  - rewrite project_insert. case_decide; subst; apply Hsg.
  - cbn [with_projects rv_key_owner] in H2. rewrite lookup_or_insert in H2. apply claimed_snoc. destruct (rv_key_owner v !! kid0) eqn:E; simplify_eq; [eauto|].
    case_decide; simplify_eq. auto.
  - rewrite lookup_or_insert. apply claimed_snoc in H2 as [H2|[[= -> ->]|(c & ? & _)]]; [| |done].
    + destruct (Hod _ _ H2) as [y ->]. eauto.
    + destruct (rv_key_owner v !! kid0); [eauto|]. rewrite decide_True by done. eauto.
Qed.

Lemma view_of_retire trust events cl v id kid :
  view_of trust events cl v -> view_of trust events (cl ++ [CRetire id kid]) (ingest_retire v id kid).
Proof using.
  intros [Ht Hc Hrv Hrt Hce Hal Hsg How Hod]. unfold ingest_retire.
  split; intros; cbn [with_projects rv_trust rv_key_owner]; rewrite ?elem_of_app, ?list_elem_of_singleton; try done.
  - by rewrite <- (Hc c); apply rejection_index.
  - rewrite project_insert. case_decide; cbn [id_revoked]; rewrite <- Hrv; set_solver.
  - rewrite project_insert. case_decide; cbn [id_retired]; rewrite <- Hrt; set_solver.
  - rewrite project_insert in *. case_decide; cbn [id_certs] in *; subst; destruct (Hce _ _ H2); auto.
  - rewrite elem_of_app, list_elem_of_singleton in *. rewrite project_insert.
    destruct H2 as [H2|]; [|done]. destruct (Hal c H2 H3) as (c' & Hc' & ?). exists c'. case_decide; subst; done.
  - rewrite project_insert. case_decide; subst; apply Hsg.
  - apply claimed_snoc. eauto.
  - apply claimed_snoc in H2 as [H2|[?|(c & ? & _)]]; eauto; done.
Qed.

Lemma view_of_cert trust events cl v c :
  view_of trust events cl v -> view_of trust events (cl ++ [CCert c]) (ingest_cert v c).
Proof using.
  intros [Ht Hc Hrv Hrt Hce Hal Hsg How Hod]. unfold ingest_cert. rewrite Hc.
  destruct (rejection_cause (indexed trust events) c) as [cause|] eqn:Hcause.
  { split; intros; cbn [rv_trust rv_key_owner]; rewrite ?elem_of_app, ?list_elem_of_singleton; try done.
    - by rewrite <- (Hc c0); apply rejection_index.
    - unfold project in *. cbn [rv_projects]. rewrite Hrv. naive_solver.
    - unfold project in *. cbn [rv_projects]. rewrite Hrt. naive_solver.
    - destruct (Hce _ _ H2). auto.
    - rewrite elem_of_app, list_elem_of_singleton in *. destruct H2 as [H2|[= ->]]; [by apply Hal|].
      unfold admitted in *. congruence.
    - apply Hsg.
    - apply claimed_snoc. eauto.
    - apply claimed_snoc in H2 as [H2|[?|(c0 & [= ->] & Ha & _)]]; [eauto|done|]. unfold admitted in Ha. congruence. }
  set (id := pc_project_id c). set (st := project v id).
  set (st' := if existsb _ _ then st else _).
  assert (id_revoked st' = id_revoked st /\ id_retired st' = id_retired st /\
    (forall x, x ∈ id_certs st' -> x ∈ id_certs st \/ x = c) /\ (forall x, x ∈ id_certs st -> x ∈ id_certs st') /\
    (exists x, x ∈ id_certs st' /\ pc_sig x = pc_sig c) /\ NoDup (pc_sig <$> id_certs st')) as (E1 & E2 & E3 & E4 & E5 & E6).
  { unfold st'. destruct (existsb _ _) eqn:E.
    - apply existsb_exists in E as (x & Hx & Es%String.eqb_eq). apply list_elem_of_In in Hx.
      split_and!; eauto.
    - cbn [id_revoked id_retired id_certs]. split_and!; try done.
      + intros x [?| ->%list_elem_of_singleton]%elem_of_app; auto.
      + intros x Hx. apply elem_of_app. by left.
      + exists c. split; [|done]. apply elem_of_app. right. by apply list_elem_of_singleton.
      + rewrite fmap_app. apply NoDup_app. split; [apply Hsg|]. split; [|apply NoDup_singleton].
        intros y (x & -> & Hx)%list_elem_of_fmap Hin. apply list_elem_of_singleton in Hin.
        assert (existsb (fun x => String.eqb (pc_sig x) (pc_sig c)) (id_certs st) = true) as Hex; [|congruence].
        apply existsb_exists. exists x. rewrite <- list_elem_of_In. split; [done|]. by apply String.eqb_eq. }
  clearbody st'.
  split; intros; cbn [with_projects rv_trust rv_key_owner]; rewrite ?elem_of_app, ?list_elem_of_singleton; try done.
  - by rewrite <- (Hc c0); apply rejection_index.
  - rewrite project_insert. case_decide; rewrite ?E1; subst; rewrite <- ?Hrv; naive_solver.
  - rewrite project_insert. case_decide; rewrite ?E2; subst; rewrite <- ?Hrt; naive_solver.
  - rewrite project_insert in *. case_decide; subst; [|destruct (Hce _ _ H2); auto].
    destruct (E3 _ H2) as [Hx| ->]; [destruct (Hce _ _ Hx); auto|]. split; [by right|]. split; [done|]. done.
  - rewrite elem_of_app, list_elem_of_singleton in *. rewrite project_insert. destruct H2 as [H2|[= ->]].
    + destruct (Hal c0 H2 H3) as (c' & Hc' & ?). exists c'. split; [|done]. case_decide as Hd; [|done].
      apply E4. unfold st. by rewrite Hd.
    + rewrite decide_True by done. done.
  - rewrite project_insert. case_decide; [done|apply Hsg].
  - cbn [with_projects rv_key_owner] in H2. rewrite lookup_or_insert in H2. apply claimed_snoc. destruct (rv_key_owner v !! kid) eqn:E; simplify_eq; [eauto|].
    case_decide; simplify_eq. right. right. exists c. done.
  - rewrite lookup_or_insert. apply claimed_snoc in H2 as [H2|[?|(c0 & [= <-] & _ & _ & Hk)]]; [|done|].
    + destruct (Hod _ _ H2) as [y ->]. eauto.
    + destruct (rv_key_owner v !! kid); [eauto|]. rewrite decide_True by done. eauto.
Qed.

Lemma view_of_claims trust events cl : view_of trust events cl (foldl ingest (indexed trust events) cl).
Proof using.
  induction cl as [|a cl IH] using rev_ind.
  - cbn [foldl]. destruct (index_empty trust events) as (Hp & Ho & Ht). unfold claimed.
    split; intros; unfold project in *; rewrite ?Hp, ?lookup_empty, ?Ho in *; simpl default in *; try done;
      try (split; [set_solver|by intros ?%not_elem_of_nil]); try (by apply not_elem_of_nil in H2).
    + constructor.
    + destruct H2 as [?%not_elem_of_nil|(c & ?%not_elem_of_nil & _)]; done.
  - rewrite foldl_snoc. destruct a; [by apply view_of_cert|by apply view_of_revoke|by apply view_of_retire].
Qed.

Lemma build_view trust events journal files :
  view_of trust events (claims events journal files) (build_with trust events journal files).
Proof using. rewrite build_claims. apply view_of_claims. Qed.

End Claims.

(** ** What the view decides *)

Lemma max_serial_snoc cs c :
  max_serial (cs ++ [c]) =
  match max_serial cs with Some b => if pc_serial c <? pc_serial b then Some b else Some c | None => Some c end.
Proof. unfold max_serial. by rewrite foldl_snoc. Qed.

Lemma max_serial_spec cs :
  match max_serial cs with
  | Some c => c ∈ cs /\ forall x, x ∈ cs -> pc_serial x <= pc_serial c
  | None => cs = []
  end.
Proof.
  induction cs as [|c cs IH] using rev_ind; [done|]. rewrite max_serial_snoc.
  destruct (max_serial cs) as [b|].
  - destruct IH as [Hb Hle]. destruct (N.ltb_spec (pc_serial c) (pc_serial b)).
    + split; [set_solver|]. intros x [Hx| ->%list_elem_of_singleton]%elem_of_app; [by apply Hle|lia].
    + split; [set_solver|]. intros x [Hx| ->%list_elem_of_singleton]%elem_of_app; [|done]. specialize (Hle x Hx). lia.
  - subst. cbn. split; [set_solver|]. by intros x ->%list_elem_of_singleton.
Qed.

Lemma foldl_max_ge l m : m <= foldl N.max m l.
Proof. revert m. induction l as [|y l IH]; intros m; cbn [foldl]; [lia|]. specialize (IH (N.max m y)). lia. Qed.

Lemma foldl_max_spec l m x : x ∈ m :: l -> x <= foldl N.max m l.
Proof.
  revert m. induction l as [|y l IH]; intros m Hx; cbn [foldl]; [apply list_elem_of_singleton in Hx; lia|].
  pose proof (foldl_max_ge l (N.max m y)).
  apply elem_of_cons in Hx as [->|[->|Hx]%elem_of_cons]; [lia|lia|]. apply IH. set_solver.
Qed.

Lemma foldl_max_in l m : foldl N.max m l ∈ m :: l.
Proof.
  revert m. induction l as [|y l IH]; intros m; cbn [foldl]; [set_solver|].
  specialize (IH (N.max m y)). destruct (N.max_spec m y) as [[_ E]|[_ E]]; rewrite E in *; set_solver.
Qed.

Section Decisions.
Context `{CanonEnv} `{IdentityEnv}.

Lemma current_cert_spec v id :
  match current_cert v id with
  | Some c => c ∈ id_certs (project v id) /\ pc_project_key_id c ∉ id_revoked (project v id) /\
      forall x, x ∈ id_certs (project v id) -> pc_project_key_id x ∉ id_revoked (project v id) -> pc_serial x <= pc_serial c
  | None => forall x, x ∈ id_certs (project v id) -> pc_project_key_id x ∈ id_revoked (project v id)
  end.
Proof using.
  unfold current_cert. set (f := fun c => negb (bool_decide (pc_project_key_id c ∈ id_revoked (project v id)))).
  assert (forall x, x ∈ List.filter f (id_certs (project v id)) <->
    x ∈ id_certs (project v id) /\ pc_project_key_id x ∉ id_revoked (project v id)) as Hf.
  { intros x. rewrite !list_elem_of_In, filter_In. unfold f. by rewrite negb_true_iff, bool_decide_eq_false. }
  pose proof (max_serial_spec (List.filter f (id_certs (project v id)))) as Hm.
  destruct (max_serial _) as [c|].
  - destruct Hm as [Hc Hle]. apply Hf in Hc as [? ?]. split_and!; try done. intros x Hx Hr. apply Hle, Hf. done.
  - intros x Hx. destruct (decide (pc_project_key_id x ∈ id_revoked (project v id))) as [|Hr]; [done|].
    assert (x ∈ List.filter f (id_certs (project v id))) as Hin by (by apply Hf). rewrite Hm in Hin.
    by apply not_elem_of_nil in Hin.
Qed.

(** A revocation cannot be undone by any arrangement of the sources.  Whatever
    the chain, the journal and the certificate files hold besides, a key that
    one of them revokes for a project is not the key of that project, its
    certificates are refused, and it can neither be registered nor made the
    new key. *)
Theorem revoked_key_stays_out trust events journal files id kid :
  let v := build_with trust events journal files in
  CRevoke id kid ∈ claims events journal files ->
  bound_key_id v id <> Some kid /\
  (forall c, pc_project_id c = id -> pc_project_key_id c = kid -> check_cert v c = Err (KeyRevoked id kid)) /\
  (forall pk, key_id pk = kid -> exists e, plan_registration v id pk = Err e) /\
  (forall pk, key_id pk = kid -> exists e, plan_rekey v id pk = Err e).
Proof using.
  cbn zeta. intros Hr. pose proof (build_view trust events journal files) as Hv.
  set (v := build_with trust events journal files) in *.
  assert (kid ∈ id_revoked (project v id)) as Hin by (by apply (vo_revoked _ _ _ _ Hv)).
  assert (is_revoked v id kid = true) as Hrev by (unfold is_revoked; by apply bool_decide_eq_true).
  split; [|split; [|split]].
  - unfold bound_key_id. pose proof (current_cert_spec v id) as Hc. destruct (current_cert v id) as [c|]; [|done].
    cbn. destruct Hc as (_ & Hk & _). congruence.
  - intros c <- <-. unfold check_cert. by rewrite Hrev.
  - intros pk <-. unfold plan_registration. destruct (refuse_reuse v id (key_id pk)); [|eauto]. rewrite Hrev. eauto.
  - intros pk <-. unfold plan_rekey. destruct (bound_key_id v id) as [old|]; cbn [ok_or]; [|eauto].
    destruct (refuse_reuse v id (key_id pk)); [|eauto]. destruct (String.eqb _ _); cbn [throw_if]; [eauto|].
    rewrite Hrev. eauto.
Qed.

(** Two views of the same claims *)
Lemma same_claims trust events cl1 cl2 v1 v2 id :
  view_of trust events cl1 v1 -> view_of trust events cl2 v2 -> (forall a, a ∈ cl1 <-> a ∈ cl2) ->
  (forall c1 c2, CCert c1 ∈ cl1 -> CCert c2 ∈ cl1 -> pc_sig c1 = pc_sig c2 -> c1 = c2) ->
  id_revoked (project v1 id) = id_revoked (project v2 id) /\ id_retired (project v1 id) = id_retired (project v2 id) /\
  forall c, c ∈ id_certs (project v1 id) -> c ∈ id_certs (project v2 id).
Proof using.
  intros H1' H2' Hcl Hsig. split; [|split].
  - apply set_eq. intros k. by rewrite (vo_revoked _ _ _ _ H1'), (vo_revoked _ _ _ _ H2').
  - apply set_eq. intros k. by rewrite (vo_retired _ _ _ _ H1'), (vo_retired _ _ _ _ H2').
  - intros c Hc. destruct (vo_certs _ _ _ _ H1' _ _ Hc) as (Hin & Ha & Hid).
    destruct (vo_all _ _ _ _ H2' c) as (c' & Hc' & Hs); [by apply Hcl|done|]. rewrite Hid in Hc'.
    destruct (vo_certs _ _ _ _ H2' _ _ Hc') as (Hin' & _). rewrite (Hsig c c'); [done|done|by apply Hcl|done].
Qed.

Lemma claims_perm events journal journal' files files' a :
  journal ≡ₚ journal' -> files ≡ₚ files' ->
  (a ∈ claims events journal files <-> a ∈ claims events journal' files').
Proof using.
  intros Hj Hf. unfold claims. rewrite !elem_of_app, !list_elem_of_bind. setoid_rewrite Hj.
  change (map CCert files) with (CCert <$> files). change (map CCert files') with (CCert <$> files').
  rewrite !list_elem_of_fmap. by setoid_rewrite Hf.
Qed.

(** The order of the sources is irrelevant: permuting the journal and the
    certificate files changes neither what is revoked or retired, nor the
    serial in force, nor the next one (as long as no two certificates share a
    signature). *)
Theorem view_order_free trust events journal journal' files files' id :
  let v := build_with trust events journal files in
  let v' := build_with trust events journal' files' in
  journal ≡ₚ journal' -> files ≡ₚ files' ->
  (forall c1 c2, CCert c1 ∈ claims events journal files -> CCert c2 ∈ claims events journal files ->
     pc_sig c1 = pc_sig c2 -> c1 = c2) ->
  (forall k, is_revoked v id k = is_revoked v' id k) /\ was_revoked v id = was_revoked v' id /\
  pc_serial <$> current_cert v id = pc_serial <$> current_cert v' id /\ last_serial v id = last_serial v' id.
Proof using.
  cbn zeta. intros Hj Hf Hsig. pose proof (build_view trust events journal files) as H1'.
  pose proof (build_view trust events journal' files') as H2'.
  set (v := build_with trust events journal files) in *. set (v' := build_with trust events journal' files') in *.
  assert (forall a, a ∈ claims events journal files <-> a ∈ claims events journal' files') as Hcl
    by (intros a; by apply claims_perm).
  destruct (same_claims _ _ _ _ _ _ id H1' H2' Hcl Hsig) as (Erv & Ert & Hsub).
  destruct (same_claims _ _ _ _ _ _ id H2' H1' (fun a => iff_sym (Hcl a))) as (_ & _ & Hsub').
  { intros c1 c2 Hc1 Hc2. apply Hsig; by apply Hcl. }
  split; [intros k; unfold is_revoked; by rewrite Erv|]. split; [unfold was_revoked; by rewrite Erv, Ert|]. split.
  - pose proof (current_cert_spec v id) as Hc. pose proof (current_cert_spec v' id) as Hc'. rewrite <- Erv in Hc'.
    destruct (current_cert v id) as [c|], (current_cert v' id) as [c'|]; cbn; try done.
    + destruct Hc as (Hc1 & Hc2 & Hc3), Hc' as (Hc1' & Hc2' & Hc3'). f_equal. apply N.le_antisymm; auto.
    + destruct Hc as (Hc1 & Hc2 & Hc3). exfalso. apply Hc2, Hc', Hsub, Hc1.
    + destruct Hc' as (Hc1 & Hc2 & Hc3). exfalso. apply Hc2, Hc, Hsub', Hc1.
  - unfold last_serial. apply N.le_antisymm.
    + pose proof (foldl_max_in (map pc_serial (id_certs (project v id))) 0) as Hin. apply foldl_max_spec.
      apply elem_of_cons in Hin as [->|(c & -> & Hc)%list_elem_of_fmap]; [set_solver|].
      apply elem_of_cons. right. apply list_elem_of_fmap. eauto.
    + pose proof (foldl_max_in (map pc_serial (id_certs (project v' id))) 0) as Hin. apply foldl_max_spec.
      apply elem_of_cons in Hin as [->|(c & -> & Hc)%list_elem_of_fmap]; [set_solver|].
      apply elem_of_cons. right. apply list_elem_of_fmap. eauto.
Qed.

(** ** Exporting *)

Lemma project_dom v id : project v id <> no_identity -> id ∈ dom (rv_projects v).
Proof using.
  unfold project. intros Hp. apply elem_of_dom. destruct (rv_projects v !! id); [by eexists|done].
Qed.

Lemma sort_keys_elem x l : x ∈ sort_keys l <-> x ∈ l.
Proof using. unfold sort_keys. by rewrite merge_sort_Permutation. Qed.

Lemma export_claims v a :
  a ∈ (export_records v ≫= record_claims) <->
  (exists id c, a = CCert c /\ c ∈ id_certs (project v id)) \/
  (exists id k, a = CRevoke id k /\ k ∈ id_revoked (project v id)).
Proof using.
  rewrite list_elem_of_bind. unfold export_records, export_project. split.
  - intros (r & Ha & (id & Hr & Hid)%list_elem_of_bind).
    apply elem_of_app in Hr as [(c & -> & Hc)%list_elem_of_fmap|(k & -> & Hk)%list_elem_of_fmap].
    + rewrite merge_sort_Permutation in Hc. apply list_elem_of_singleton in Ha as ->. eauto.
    + apply sort_keys_elem, elem_of_elements in Hk. apply list_elem_of_singleton in Ha as ->. eauto.
  - assert (forall id, project v id <> no_identity -> id ∈ sort_keys (elements (dom (rv_projects v)))) as Hid
      by (intros id Hid; by apply sort_keys_elem, elem_of_elements, project_dom).
    intros [(id & c & -> & Hc)|(id & k & -> & Hk)].
    + exists (JRegister c). split; [set_solver|]. apply list_elem_of_bind. exists id.
      split; [|apply Hid; intros E; rewrite E in Hc; by apply not_elem_of_nil in Hc].
      apply elem_of_app. left. apply list_elem_of_fmap. exists c. by rewrite merge_sort_Permutation.
    + exists (JRevoke id k). split; [set_solver|]. apply list_elem_of_bind. exists id.
      split; [|apply Hid; intros E; rewrite E in Hk; by apply not_elem_of_empty in Hk].
      apply elem_of_app. right. apply list_elem_of_fmap. exists k. by rewrite sort_keys_elem, elem_of_elements.
Qed.

Lemma claims_elem events journal files a :
  a ∈ claims events journal files <->
  a ∈ (journal ≫= record_claims) \/ (exists c, a = CCert c /\ c ∈ files) \/ a ∈ (events ≫= event_claims).
Proof using.
  unfold claims. rewrite !elem_of_app. change (map CCert files) with (CCert <$> files). by rewrite list_elem_of_fmap.
Qed.

(** Rebuilding the journal from the view keeps every binding and revocation:
    the view of the exported records beside the same chain and files has the
    same revoked keys, the same certificates and the same serial in force. *)
Theorem export_restores trust events journal files id :
  let v := build_with trust events journal files in
  let v' := build_with trust events (export_records v) files in
  (forall c1 c2, CCert c1 ∈ claims events journal files -> CCert c2 ∈ claims events journal files ->
     pc_sig c1 = pc_sig c2 -> c1 = c2) ->
  (forall k, is_revoked v' id k = is_revoked v id k) /\
  (forall c, c ∈ all_certs v' id <-> c ∈ all_certs v id) /\
  pc_serial <$> current_cert v' id = pc_serial <$> current_cert v id.
Proof using.
  cbn zeta. intros Hsig. pose proof (build_view trust events journal files) as Hv.
  set (v := build_with trust events journal files) in *.
  pose proof (build_view trust events (export_records v) files) as Hv'. set (v' := build_with _ _ (export_records v) _) in *.
  assert (forall a, a ∈ claims events (export_records v) files ->
    a ∈ claims events journal files) as Hsub.
  { intros a. rewrite (claims_elem _ (export_records v)), export_claims. intros [[(i & c & -> & Hc)|(i & k & -> & Hk)]|Ha].
    - by apply (vo_certs _ _ _ _ Hv) in Hc as [? _].
    - by apply (vo_revoked _ _ _ _ Hv) in Hk.
    - apply claims_elem. by right. }
  assert (id_revoked (project v' id) = id_revoked (project v id)) as Erv.
  { apply set_eq. intros k. rewrite (vo_revoked _ _ _ _ Hv'), (vo_revoked _ _ _ _ Hv). split; [apply Hsub|].
    intros Hk. apply claims_elem. left. apply export_claims. right. exists id, k. split; [done|].
    by apply (vo_revoked _ _ _ _ Hv). }
  assert (forall c, c ∈ id_certs (project v' id) <-> c ∈ id_certs (project v id)) as Ece.
  { intros c. split; intros Hc.
    - destruct (vo_certs _ _ _ _ Hv' _ _ Hc) as (Hin & Ha & Hid). apply Hsub in Hin.
      destruct (vo_all _ _ _ _ Hv c Hin Ha) as (c' & Hc' & Hs). rewrite Hid in Hc'.
      destruct (vo_certs _ _ _ _ Hv _ _ Hc') as (Hin' & _). by rewrite (Hsig c c').
    - destruct (vo_certs _ _ _ _ Hv _ _ Hc) as (Hin & Ha & Hid).
      destruct (vo_all _ _ _ _ Hv' c) as (c' & Hc' & Hs); [|done|].
      { apply claims_elem. left. apply export_claims. left. eauto. }
      rewrite Hid in Hc'. destruct (vo_certs _ _ _ _ Hv' _ _ Hc') as (Hin' & _). apply Hsub in Hin'.
      by rewrite (Hsig c c'). }
  split; [intros k; unfold is_revoked; by rewrite Erv|]. split; [done|].
  pose proof (current_cert_spec v id) as Hc. pose proof (current_cert_spec v' id) as Hc'. rewrite Erv in Hc'.
  destruct (current_cert v id) as [c|], (current_cert v' id) as [c'|]; cbn; try done.
  - destruct Hc as (Hc1 & Hc2 & Hc3), Hc' as (Hc1' & Hc2' & Hc3'). f_equal. apply N.le_antisymm.
    + apply Hc3; [by apply Ece|done].
    + apply Hc3'; [by apply Ece|done].
  - destruct Hc as (Hc1 & Hc2 & _). exfalso. apply Hc2, Hc', Ece, Hc1.
  - destruct Hc' as (Hc1 & Hc2 & _). exfalso. apply Hc2, Hc, Ece, Hc1.
Qed.

(** What the export loses: a key that a rekey replaced is retired, not
    compromised; after a rebuild that finds the rekey only in the journal the
    same key counts as compromised. *)
Theorem export_forgets_retirement trust events journal files old c :
  let v := build_with trust events journal files in
  let v' := build_with trust events (export_records v) files in
  let id := pc_project_id c in
  JRekey old c ∈ journal -> CRetire id old ∉ (events ≫= event_claims) ->
  is_compromised v id old = false /\ is_compromised v' id old = true.
Proof using.
  cbn zeta. intros Hj Hno. pose proof (build_view trust events journal files) as Hv.
  set (v := build_with trust events journal files) in *.
  pose proof (build_view trust events (export_records v) files) as Hv'. set (v' := build_with _ _ (export_records v) _) in *.
  assert (forall a, a ∈ record_claims (JRekey old c) -> a ∈ claims events journal files) as Hin.
  { intros a Ha. apply claims_elem. left. apply list_elem_of_bind. eauto. }
  assert (old ∈ id_revoked (project v (pc_project_id c))) as Hr by (apply (vo_revoked _ _ _ _ Hv), Hin; set_solver).
  unfold is_compromised. split.
  - rewrite (bool_decide_eq_true_2 (old ∈ id_retired _)); [by rewrite andb_false_r|].
    apply (vo_retired _ _ _ _ Hv), Hin. set_solver.
  - rewrite bool_decide_eq_true_2, bool_decide_eq_false_2; [done| |].
    + rewrite (vo_retired _ _ _ _ Hv'), claims_elem, export_claims.
      intros [[(? & ? & ? & _)|(? & ? & ? & _)]|[(? & ? & _)|?]]; done.
    + apply (vo_revoked _ _ _ _ Hv'), claims_elem. left. apply export_claims. right. eauto.
Qed.

End Decisions.
