(* ===== verification/IdentityJournal.v ===== *)
(** * The identity journal

    project_identity_journal.rs: the file the daemon appends to before it acts,
    its lock file, and what a reader makes of a file that a crash cut short,
    that was emptied or that is gone. *)

From Stdlib Require Import Strings.String.
From S2P Require Import Prelude Codec Text Canon Identity.

Local Open Scope string_scope.
Local Open Scope list_scope.
Local Open Scope N_scope.

(** The JSON lines of records: [serde_json::to_vec], [serde_json::from_str] *)
Class JournalEnv := {
  record_to_json : JournalRecord -> string;
  record_from_json : string -> result JournalRecord string;
}.

(** A record is one line that reads back as itself, and no proper part of it
    from the start reads as a record. *)
Class JournalEnvLaws `{JournalEnv} : Prop := {
  record_line r : one_line (str_bytes (record_to_json r));
  record_json_reads r : record_from_json (record_to_json r) = Ok r;
  record_cut r n : (n < length (str_bytes (record_to_json r)))%nat ->
    exists e, record_from_json (string_of_list_byte (take n (str_bytes (record_to_json r)))) = Err e;
}.

(** The journal and the lock file of a manifests directory *)
Record JournalDir := mkDir { jd_file : option bytes; jd_lock : bool }.

Definition is_init (r : JournalRecord) : bool := match r with JInit => true | _ => false end.

Definition not_init (rs : list JournalRecord) : list JournalRecord := List.filter (fun r => negb (is_init r)) rs.

Section Journal.
Context `{JournalEnv} (path : string).

(** [init_line] *)
Definition record_bytes (r : JournalRecord) : bytes := str_bytes (record_to_json r) ++ [x0a].
Definition init_line : bytes := record_bytes JInit.

(** [write_private_atomic] of a file that must not exist; [write] is the
    outcome of the write *)
Definition write_exclusive (s : JournalDir) (b : bytes) (write : result unit string) : JournalDir * result unit IdentityError :=
  match write with
  | Err e => (s, Err (IdIo e))
  | Ok _ => match jd_file s with
            | Some _ => (s, Err (AlreadyExists path))
            | None => (mkDir (Some b) (jd_lock s), Ok tt)
            end
  end.

(** [lock]: the journal first, the lock file second; [opened] is the outcome
    of creating and locking the lock file *)
Definition lock (s : JournalDir) (write opened : result unit string) : JournalDir * result unit IdentityError :=
  let fresh := negb (jd_lock s) && bool_decide (jd_file s = None) in
  let '(s, r) := if fresh then write_exclusive s init_line write else (s, Ok tt) in
  match r with
  | Ok _ | Err (AlreadyExists _) =>
      match opened with
      | Ok _ => (mkDir (jd_file s) true, Ok tt)
      | Err e => (s, Err (IdIo e))
      end
  | Err e => (s, Err e)
  end.

(** [read_bytes]; [io] is the outcome of opening and reading *)
Definition read_bytes (s : JournalDir) (io : result unit string) : result (option bytes) IdentityError :=
  match jd_file s, io with
  | None, _ => Ok None
  | Some b, Ok _ => Ok (Some b)
  | Some _, Err e => Err (JournalCorrupt path ("unreadable: " +:+ e))
  end.

Fixpoint parse_records (i : N) (ls : list bytes) : result (list JournalRecord) IdentityError :=
  match ls with
  | [] => Ok []
  | l :: ls =>
      match record_from_json (string_of_list_byte l) with
      | Ok r => let? rs := parse_records (i + 1) ls in Ok (r :: rs)
      | Err e => Err (JournalCorrupt path ("line " +:+ pretty (i + 1) +:+ ": " +:+ e))
      end
  end.

(** [parse], [read] *)
Definition parse (s : JournalDir) (io : result unit string) (other_evidence : bool) : result (list JournalRecord) IdentityError :=
  let? b := read_bytes s io in
  match b with
  | None =>
      if other_evidence || jd_lock s then Err (JournalCorrupt path "is missing although this install has used it")
      else Ok []
  | Some [] => Err (JournalCorrupt path "exists but is empty")
  | Some b =>
      if utf8_valid b then
        let? rs := parse_records 0 (split_nl (strip_nl b)) in
        Ok (not_init rs)
      else Err (JournalCorrupt path "is not UTF-8")
  end.

(** What the file system did with an append: all of it, or a part before an
    error (all of it when only the sync failed) *)
Inductive Appended := Whole | Part (n : nat) (e : string).

(** [append]; [io] is the outcome of the reads, [write] of the first record's
    atomic write *)
Definition append (s : JournalDir) (io write : result unit string) (rec : JournalRecord) (out : Appended)
  : JournalDir * result unit IdentityError :=
  match parse s io false with
  | Err e => (s, Err e)
  | Ok _ =>
      match read_bytes s io with
      | Err e => (s, Err e)
      | Ok None => write_exclusive s (record_bytes rec) write
      | Ok (Some b) =>
          if bool_decide (last b = Some x0a) then
            match out with
            | Whole => (mkDir (Some (b ++ record_bytes rec)) (jd_lock s), Ok tt)
            | Part n e => (mkDir (Some (b ++ take n (record_bytes rec))) (jd_lock s), Err (IdIo e))
            end
          else (s, Err (JournalCorrupt path "does not end in a newline (torn write)"))
      end
  end.

(** [salvage] *)
Definition salvage (s : JournalDir) (io : result unit string) : list JournalRecord :=
  match read_bytes s io with
  | Ok (Some b) =>
      not_init (omap (fun l => match record_from_json (string_of_list_byte l) with Ok r => Some r | Err _ => None end)
                  (lines (utf8_lossy b)))
  | _ => []
  end.

(** [replace]: the journal is moved aside, then written anew; [rename] and
    [write] are the outcomes *)
Definition replace (s : JournalDir) (rename write : result unit string) (records : list JournalRecord)
  : JournalDir * result bool IdentityError :=
  let go s moved :=
    let '(s, r) := write_exclusive s (init_line ++ (records ≫= record_bytes)) write in
    (s, match r with Ok _ => Ok moved | Err e => Err e end) in
  match jd_file s with
  | None => go s false
  | Some _ =>
      match rename with
      | Err e => (s, Err (IdIo e))
      | Ok _ => go (mkDir None (jd_lock s)) true
      end
  end.

End Journal.

(** ** Text and records *)

Section Text.
Context `{JournalEnvLaws} (path : string).

Definition text (rs : list JournalRecord) : bytes := rs ≫= record_bytes.

Lemma text_lines rs : text rs = map (fun r => str_bytes (record_to_json r)) rs ≫= fun l => l ++ [x0a].
Proof. unfold text, record_bytes. induction rs as [|r rs IH]; [done|]. simpl. f_equal. exact IH. Qed.

Lemma text_one_lines rs : Forall one_line (map (fun r => str_bytes (record_to_json r)) rs).
Proof. apply Forall_forall. intros l (r & -> & _)%list_elem_of_fmap. apply record_line. Qed.

Lemma text_valid rs : utf8_valid (text rs) = true.
Proof. rewrite text_lines. apply lines_text, text_one_lines. Qed.

Lemma text_snoc rs r : text (rs ++ [r]) = text rs ++ record_bytes r.
Proof. unfold text. rewrite bind_app. simpl mbind. by rewrite app_nil_r. Qed.

Lemma text_ended rs : rs <> [] -> last (text rs) = Some x0a.
Proof.
  destruct rs as [|r rs _] using rev_ind; [done|]. intros _. rewrite text_snoc. unfold record_bytes.
  by rewrite app_assoc, last_snoc.
Qed.

Lemma text_split rs : split_lines (text rs) = map (fun r => str_bytes (record_to_json r)) rs.
Proof.
  induction rs as [|r rs IH]; [done|]. change (text (r :: rs)) with (record_bytes r ++ text rs).
  unfold record_bytes. rewrite <- app_assoc. cbn [app]. rewrite split_lines_newline, IH, split_lines_line; [done|].
  apply record_line.
Qed.

Lemma parse_records_text i rs ls :
  parse_records path i (map (fun r => str_bytes (record_to_json r)) rs ++ ls) =
  match parse_records path (i + lenN rs) ls with Ok rs' => Ok (rs ++ rs') | Err e => Err e end.
Proof.
  revert i. induction rs as [|r rs IH]; intros i; cbn [map app parse_records].
  - unfold lenN. cbn [length]. rewrite N.add_0_r. by destruct (parse_records path i ls).
  - unfold str_bytes at 1. rewrite string_of_list_byte_of_string, record_json_reads, IH.
    replace (i + lenN (r :: rs)) with (i + 1 + lenN rs) by (unfold lenN; cbn [length]; lia).
    by destruct (parse_records path (i + 1 + lenN rs) ls).
Qed.

End Text.

(** ** Runs

    A directory with the records the last repair wrote, and those whose append
    was acknowledged and those whose append was tried since.  Writers hold the
    lock. *)

Section Runs.
Context `{JournalEnvLaws} (path : string).

Record World := mkWorld { jw_dir : JournalDir; jw_base : list JournalRecord; jw_acked : list JournalRecord; jw_tried : list JournalRecord }.

Inductive journal_step : World -> World -> Prop :=
| step_lock w write opened s r :
    lock path (jw_dir w) write opened = (s, r) -> journal_step w (mkWorld s (jw_base w) (jw_acked w) (jw_tried w))
| step_append w io write rec out s r :
    jd_lock (jw_dir w) = true -> is_init rec = false -> append path (jw_dir w) io write rec out = (s, r) ->
    journal_step w (mkWorld s (jw_base w) (match r with Ok _ => jw_acked w ++ [rec] | Err _ => jw_acked w end) (jw_tried w ++ [rec]))
| step_lost w : jd_lock (jw_dir w) = true -> journal_step w (mkWorld (mkDir None true) (jw_base w) (jw_acked w) (jw_tried w))
| step_replace w rename write records s r :
    jd_lock (jw_dir w) = true -> Forall (fun x => is_init x = false) records ->
    replace path (jw_dir w) rename write records = (s, r) ->
    journal_step w (match r with
                    | Ok _ => mkWorld s records [] []
                    | Err _ => mkWorld s (jw_base w) (jw_acked w) (jw_tried w)
                    end).

Definition first_world : World := mkWorld (mkDir None false) [] [] [].

(** What a torn append leaves after the last whole line *)
Inductive torn_by (recs tried : list JournalRecord) : bytes -> Prop :=
| torn_none : torn_by recs tried []
| torn_some r n : is_init r = false -> recs ++ [r] `sublist_of` tried ->
    (0 < n < length (record_bytes r))%nat -> torn_by recs tried (take n (record_bytes r)).

Definition journal_inv (w : World) : Prop :=
  match jd_file (jw_dir w) with
  | None => jd_lock (jw_dir w) = true \/ jw_base w = [] /\ jw_acked w = [] /\ jw_tried w = []
  | Some b => exists recs torn, b = text (JInit :: jw_base w ++ recs) ++ torn /\
      Forall (fun x => is_init x = false) (jw_base w ++ recs) /\
      jw_acked w `sublist_of` recs /\ recs `sublist_of` jw_tried w /\ torn_by recs (jw_tried w) torn
  end.

Lemma torn_line recs tried torn :
  torn_by recs tried torn -> torn <> [] ->
  exists r, is_init r = false /\ recs ++ [r] `sublist_of` tried /\ x0a ∉ torn /\
    (torn = str_bytes (record_to_json r) \/ exists e, record_from_json (string_of_list_byte torn) = Err e).
Proof.
  intros Ht Hne. destruct Ht as [|r n Hr Hs Hn]; [done|]. exists r. split; [done|]. split; [done|].
  unfold record_bytes in *. rewrite length_app in Hn. cbn in Hn. rewrite take_app_le by lia. split.
  - destruct (record_line r) as (_ & Hl & _). intros Hin. apply Hl. apply list_elem_of_lookup in Hin as [i Hi]. apply lookup_take_Some in Hi as [Hi _].
    apply list_elem_of_lookup. eauto.
  - destruct (decide (n < length (str_bytes (record_to_json r)))%nat); [right; by apply record_cut|left].
    by rewrite take_ge by lia.
Qed.

Lemma torn_split rs torn : rs <> [] -> split_lines (text rs ++ torn) = split_lines (text rs) ++ split_lines torn.
Proof. intros Hne. by apply split_lines_ended, text_ended. Qed.

Lemma not_init_id rs : Forall (fun x => is_init x = false) rs -> not_init rs = rs.
Proof. unfold not_init. induction 1 as [|x l Hx _ IH]; [done|]. cbn. by rewrite Hx, IH. Qed.

(** What the readers make of a file in such a state *)
Lemma parse_good b base recs tried torn lk io ev :
  b = text (JInit :: base ++ recs) ++ torn -> Forall (fun x => is_init x = false) (base ++ recs) -> torn_by recs tried torn ->
  match parse path (mkDir (Some b) lk) io ev with
  | Ok rs => rs = base ++ recs /\ torn = [] \/
      exists r, rs = base ++ recs ++ [r] /\ torn = str_bytes (record_to_json r) /\ recs ++ [r] `sublist_of` tried
  | Err e => exists why, e = JournalCorrupt path why
  end.
Proof.
  intros -> Hni Ht. unfold parse, read_bytes. cbn [jd_file]. destruct io as [[]|]; [|eauto].
  set (b := text _ ++ torn). assert (b <> []) as Hb.
  { unfold b. change (text (JInit :: base ++ recs)) with (record_bytes JInit ++ text (base ++ recs)). unfold record_bytes.
    by destruct (str_bytes (record_to_json JInit)). }
  destruct (utf8_valid b); [|destruct b; [done|eauto]].
  assert (split_nl (strip_nl b) = map (fun r => str_bytes (record_to_json r)) (JInit :: base ++ recs) ++ split_lines torn) as E.
  { rewrite split_body by done. unfold b. by rewrite torn_split, text_split. }
  destruct b as [|x b0]; [done|]. rewrite E, parse_records_text. clear E Hb b0.
  destruct (decide (torn = [])) as [->|Hne].
  - cbn [split_lines parse_records]. left. rewrite app_nil_r. split; [|done]. unfold not_init. cbn. by apply not_init_id.
  - destruct (torn_line _ _ _ Ht Hne) as (r & Hr & Hs & Hnl & Hc). rewrite split_lines_one by done. cbn [parse_records].
    destruct Hc as [->|[e ->]]; [|eauto]. unfold str_bytes at 1. rewrite string_of_list_byte_of_string, record_json_reads.
    right. exists r. assert (not_init ((JInit :: base ++ recs) ++ [r]) = base ++ recs ++ [r]) as ->; [|done].
    unfold not_init. cbn. rewrite (assoc_L (++)). apply not_init_id, Forall_app. auto.
Qed.

Lemma record_bytes_nonempty r : record_bytes r <> [].
Proof. unfold record_bytes. by destruct (str_bytes (record_to_json r)). Qed.

(** A file that parses and ends in a newline is whole. *)
Lemma whole_file b base recs tried torn :
  b = text (JInit :: base) ++ torn -> torn_by recs tried torn -> last b = Some x0a -> torn = [].
Proof.
  intros -> Ht Hl. destruct (decide (torn = [])) as [|Hne]; [done|].
  destruct (torn_line _ _ _ Ht Hne) as (r & _ & _ & Hnl & _). exfalso. apply Hnl.
  destruct (exists_last Hne) as (t & x & E). subst torn. rewrite app_assoc, last_snoc in Hl. injection Hl as ->. set_solver.
Qed.

(** What an append leaves *)
Lemma append_whole base recs tried rec out :
  is_init rec = false -> Forall (fun x => is_init x = false) (base ++ recs) -> recs `sublist_of` tried ->
  let added := match out with Whole => record_bytes rec | Part n _ => take n (record_bytes rec) end in
  exists recs' torn, text (JInit :: base ++ recs) ++ added = text (JInit :: base ++ recs') ++ torn /\
    Forall (fun x => is_init x = false) (base ++ recs') /\
    (recs' = recs ++ [rec] /\ torn = [] \/ out <> Whole /\ recs' = recs /\ exists n, torn = take n (record_bytes rec)) /\
    recs' `sublist_of` tried ++ [rec] /\ torn_by recs' (tried ++ [rec]) torn.
Proof.
  intros Hr Hni Hs. cbn zeta.
  assert (recs ++ [rec] `sublist_of` tried ++ [rec]) as Hs' by (by apply sublist_app).
  assert (text (JInit :: base ++ recs) ++ record_bytes rec = text (JInit :: base ++ recs ++ [rec]) ++ []) as Hw.
  { rewrite app_nil_r. rewrite (assoc_L (++)). change (JInit :: (base ++ recs) ++ [rec]) with ((JInit :: base ++ recs) ++ [rec]). by rewrite text_snoc. }
  assert (Forall (fun x => is_init x = false) (base ++ recs ++ [rec])) as Hni' by (rewrite (assoc_L (++)); apply Forall_app; auto).
  destruct out as [|n e]; [|destruct (decide (length (record_bytes rec) <= n)%nat)].
  - exists (recs ++ [rec]), []. split_and!; auto; constructor.
  - rewrite take_ge by done. exists (recs ++ [rec]), []. split_and!; auto; constructor.
  - exists recs, (take n (record_bytes rec)). split_and!; eauto; [by apply sublist_inserts_r|].
    destruct n as [|n]; [constructor|]. constructor; [done..|]. lia.
Qed.

Lemma journal_append_inv w io write rec out s r :
  journal_inv w -> jd_lock (jw_dir w) = true -> is_init rec = false -> append path (jw_dir w) io write rec out = (s, r) ->
  journal_inv (mkWorld s (jw_base w) (match r with Ok _ => jw_acked w ++ [rec] | Err _ => jw_acked w end) (jw_tried w ++ [rec])) /\
  jd_lock s = true.
Proof.
  destruct w as [[f lk] base acked tried]. unfold journal_inv, append, read_bytes. cbn [jw_dir jd_file jd_lock jw_base jw_acked jw_tried].
  intros Hi -> Hr Ha. destruct f as [b|].
  2: { unfold parse, read_bytes in Ha. cbn [jd_file jd_lock] in Ha. rewrite orb_true_r in Ha. injection Ha as <- <-. cbn. auto. }
  destruct Hi as (recs & torn & -> & Hni & Hak & Htr & Ht).
  assert (forall s' e, (mkDir (Some (text (JInit :: base ++ recs) ++ torn)) true, Err e) = (s', r) ->
    (match jd_file s' with None => jd_lock s' = true \/ base = [] /\ match r with Ok _ => acked ++ [rec] | Err _ => acked end = [] /\ tried ++ [rec] = []
     | Some b => exists recs torn, b = text (JInit :: base ++ recs) ++ torn /\ Forall (fun x => is_init x = false) (base ++ recs) /\
      match r with Ok _ => acked ++ [rec] | Err _ => acked end `sublist_of` recs /\ recs `sublist_of` tried ++ [rec] /\
      torn_by recs (tried ++ [rec]) torn end) /\ jd_lock s' = true) as Hsame.
  { intros s' e [= <- <-]. cbn. split; [|done]. exists recs, torn. split_and!; try done; [by apply sublist_inserts_r|].
    destruct Ht; constructor; try done. by apply sublist_inserts_r. }
  destruct (parse _ _ _ _) as [rs|e]; [|by eapply Hsame]. cbn [jd_file jd_lock] in Ha.
  destruct io as [[]|]; [|by eapply Hsame]. case_bool_decide as Hl; [|by eapply Hsame].
  pose proof (whole_file _ _ _ _ _ eq_refl Ht Hl) as ->. rewrite app_nil_r in *.
  destruct (append_whole base recs tried rec out Hr Hni Htr) as (recs' & torn & E & Hni' & Hc & Htr' & Ht').
  destruct out as [|n e]; injection Ha as <- <-; cbn [jd_file jd_lock]; (split; [|done]); exists recs', torn; split_and!; try done.
  - destruct Hc as [[-> _]|[? _]]; [by apply sublist_app|done].
  - destruct Hc as [[-> _]|(_ & -> & _)]; [by apply sublist_inserts_r|done].
Qed.

Lemma cut_record r rec m : str_bytes (record_to_json r) = take m (record_bytes rec) -> r = rec.
Proof.
  intros E. assert (string_of_list_byte (take m (record_bytes rec)) = record_to_json r) as Er.
  { rewrite <- E. unfold str_bytes. by rewrite string_of_list_byte_of_string. }
  unfold record_bytes in *. destruct (decide (m < length (str_bytes (record_to_json rec)))%nat) as [Hm|Hm].
  - rewrite take_app_le in Er by lia. destruct (record_cut rec m Hm) as [e He]. rewrite Er, record_json_reads in He. done.
  - destruct (decide (m <= length (str_bytes (record_to_json rec)))%nat).
    + rewrite take_app_le, take_ge in Er by lia. unfold str_bytes in Er. rewrite string_of_list_byte_of_string in Er.
      pose proof (record_json_reads r) as H1'. rewrite <- Er, record_json_reads in H1'. by injection H1' as ->.
    + rewrite take_ge in E by (rewrite length_app; cbn; lia). exfalso. destruct (record_line r) as (_ & Hn & _).
      apply Hn. rewrite E. set_solver.
Qed.

Lemma parse_whole recs lk ev :
  Forall (fun x => is_init x = false) recs -> parse path (mkDir (Some (text (JInit :: recs))) lk) (Ok tt) ev = Ok recs.
Proof.
  intros Hni. unfold parse, read_bytes. cbn [jd_file]. rewrite text_valid.
  assert (text (JInit :: recs) <> []) as Hne.
  { intros E. pose proof (text_ended (JInit :: recs)) as Hx. rewrite E in Hx. by specialize (Hx ltac:(done)). }
  assert (split_nl (strip_nl (text (JInit :: recs))) = map (fun r => str_bytes (record_to_json r)) (JInit :: recs) ++ []) as E
    by (by rewrite split_body, text_split, app_nil_r).
  destruct (text (JInit :: recs)) as [|x b0]; [done|]. rewrite E, parse_records_text. cbn [parse_records].
  rewrite app_nil_r. unfold not_init. cbn. f_equal. by apply not_init_id.
Qed.

Lemma journal_lock_inv w write opened s r :
  journal_inv w -> lock path (jw_dir w) write opened = (s, r) -> journal_inv (mkWorld s (jw_base w) (jw_acked w) (jw_tried w)).
Proof.
  destruct w as [[f lk] base acked tried]. unfold journal_inv, lock, write_exclusive. cbn [jw_dir jd_file jd_lock jw_base jw_acked jw_tried].
  assert (exists recs torn, init_line = text (JInit :: [] ++ recs) ++ torn /\ Forall (fun x => is_init x = false) ([] ++ recs) /\
      [] `sublist_of` recs /\ recs `sublist_of` [] /\ torn_by recs [] torn) as Hinit.
  { exists [], []. split_and!; try done; [|constructor]. unfold init_line, text. simpl mbind. by rewrite !app_nil_r. }
  intros Hi Hl. destruct f as [b|].
  - rewrite andb_false_r in Hl. destruct opened; injection Hl as <- _; done.
  - rewrite bool_decide_eq_true_2, andb_true_r in Hl by done. destruct lk; cbn [negb] in Hl.
    + destruct opened; injection Hl as <- _; cbn; auto.
    + destruct Hi as [|(-> & -> & ->)]; [done|]. destruct write; [|injection Hl as <- _; cbn; by right].
      destruct opened; injection Hl as <- _; done.
Qed.

Lemma replace_inv w rename write records s r :
  journal_inv w -> jd_lock (jw_dir w) = true -> Forall (fun x => is_init x = false) records ->
  replace path (jw_dir w) rename write records = (s, r) ->
  journal_inv (match r with Ok _ => mkWorld s records [] [] | Err _ => mkWorld s (jw_base w) (jw_acked w) (jw_tried w) end).
Proof.
  destruct w as [[f lk] base acked tried]. cbn [jw_dir jd_lock]. intros Hi -> Hni Hr.
  assert (journal_inv (mkWorld (mkDir (Some (init_line ++ text records)) true) records [] [])) as Hnew.
  { unfold journal_inv. cbn [jw_dir jd_file jw_base jw_acked jw_tried]. exists [], []. rewrite !app_nil_r.
    split_and!; try done. constructor. }
  unfold replace, write_exclusive in Hr. cbn [jd_file jd_lock] in Hr.
  destruct f as [b|].
  - destruct rename; [|by injection Hr as <- <-]. destruct write; injection Hr as <- <-; [done|]. by left.
  - destruct write; injection Hr as <- <-; [done|]. by left.
Qed.

Lemma journal_step_inv w w' : journal_inv w -> journal_step w w' -> journal_inv w'.
Proof.
  intros Hi Hs. destruct Hs as [w write opened s r Hl|w io write rec out s r Hlk Hr Ha|w Hlk|w rename write records s r Hlk Hn Hr].
  - by eapply journal_lock_inv.
  - by eapply journal_append_inv.
  - by left.
  - by eapply replace_inv.
Qed.

Lemma journal_run_inv w : rtc journal_step first_world w -> journal_inv w.
Proof.
  intros Hr. assert (journal_inv first_world) as Hi by (by right). revert Hi.
  induction Hr as [|w w1 w2 Hs _ IH]; [done|]. intros Hi. apply IH. by eapply journal_step_inv.
Qed.

(** C33: A read never forgets what was acknowledged and never invents, since the
    last repair.  After any run of lockings, appends cut short at any byte,
    losses of the file and repairs, a read either reports the journal as corrupt
    or returns the records the last repair wrote (none when there was no repair)
    followed, in order, by every record whose append was acknowledged since and
    by nothing but records whose append was tried since.  A lost file is
    reported as corrupt until a repair.  Which records a repair writes is its
    caller's choice, and the claim says nothing of records before it. *)
Theorem journal_never_forgets w io ev :
  rtc journal_step first_world w ->
  match parse path (jw_dir w) io ev with
  | Ok rs => exists since, rs = jw_base w ++ since /\ jw_acked w `sublist_of` since /\ since `sublist_of` jw_tried w
  | Err e => exists why, e = JournalCorrupt path why
  end.
Proof.
  intros Hrun. pose proof (journal_run_inv w Hrun) as Hi. destruct w as [[[b|] lk] base acked tried]; unfold journal_inv in Hi;
    cbn [jw_dir jd_file jw_base jw_acked jw_tried] in *.
  - destruct Hi as (recs & torn & Hb & Hni & Hak & Htr & Ht).
    pose proof (parse_good b base recs tried torn lk io ev Hb Hni Ht) as Hp. destruct (parse _ _ _ _) as [rs|]; [|done].
    destruct Hp as [[-> _]|(r & -> & _ & Hs)]; [by eexists|]. eexists. split; [done|]. split; [by apply sublist_inserts_r|done].
  - unfold parse, read_bytes. cbn [jd_file jd_lock] in *. destruct (ev || lk) eqn:E; [eauto|].
    apply orb_false_elim in E as [_ ->]. destruct Hi as [|(-> & -> & ->)]; [done|by exists []].
Qed.

(** An append that is acknowledged reads back at the end of what was there;
    one that is not leaves the records as they were, adds the whole record, or
    makes every later read and append fail until a repair. *)
Theorem journal_append_atomic w io write rec out s r ev :
  rtc journal_step first_world w -> jd_lock (jw_dir w) = true -> is_init rec = false ->
  append path (jw_dir w) io write rec out = (s, r) ->
  match r with
  | Ok _ => exists rs, parse path (jw_dir w) io ev = Ok rs /\ parse path s (Ok tt) ev = Ok (rs ++ [rec])
  | Err _ =>
      parse path s (Ok tt) ev = parse path (jw_dir w) (Ok tt) ev \/
      (exists rs, parse path (jw_dir w) (Ok tt) ev = Ok rs /\ parse path s (Ok tt) ev = Ok (rs ++ [rec])) \/
      exists why, parse path s (Ok tt) ev = Err (JournalCorrupt path why)
  end.
Proof.
  intros Hrun Hlk Hr Ha. pose proof (journal_run_inv w Hrun) as Hi. destruct w as [[[b|] lk] base acked tried]; unfold journal_inv in Hi;
    cbn [jw_dir jd_file jd_lock jw_base jw_acked jw_tried] in *; subst lk.
  2: { unfold append, parse, read_bytes in Ha. cbn [jd_file jd_lock] in Ha. rewrite orb_true_r in Ha. injection Ha as <- <-. by left. }
  destruct Hi as (recs & torn & Hb & Hni & Hak & Htr & Ht). unfold append in Ha.
  destruct (parse path _ io false) as [rs|e]; [|injection Ha as <- <-; by left].
  unfold read_bytes in Ha. cbn [jd_file jd_lock] in Ha. destruct io as [[]|]; [|injection Ha as <- <-; by left].
  case_bool_decide as Hl; [|injection Ha as <- <-; by left]. pose proof (whole_file _ _ _ _ _ Hb Ht Hl) as ->.
  assert (forall recs', Forall (fun x => is_init x = false) recs' ->
    parse path (mkDir (Some (text (JInit :: recs'))) true) (Ok tt) ev = Ok recs') as Hwhole by (intros; by apply parse_whole).
  rewrite app_nil_r in Hb. subst b.
  destruct (append_whole base recs tried rec out Hr Hni Htr) as (recs' & torn & E & Hni' & Hc & Htr' & Ht').
  destruct out as [|n e]; apply pair_equal_spec in Ha as [<- <-].
  - destruct Hc as [[-> ->]|[? _]]; [|done]. exists (base ++ recs). rewrite E, app_nil_r, !Hwhole by done. by rewrite <- (assoc_L (++)).
  - rewrite E, (Hwhole (base ++ recs) Hni). destruct Hc as [[-> ->]|(_ & -> & m & Hm)].
    + right. left. exists (base ++ recs). rewrite app_nil_r, Hwhole by done. by rewrite <- (assoc_L (++)).
    + pose proof (parse_good _ base recs _ torn true (Ok tt) ev eq_refl Hni Ht') as Hp.
      destruct (parse _ _ _ _) as [rs'|e']; [|destruct Hp as [why ->]; eauto].
      destruct Hp as [[-> _]|(r & -> & Hj & _)]; [by left|]. right. left. exists (base ++ recs).
      rewrite (cut_record r rec m), <- (assoc_L (++)); [done|]. by rewrite <- Hm, <- Hj.
Qed.

(** While the file is there, a salvage recovers the records of the last
    repair and every record acknowledged since, in order, whatever the torn end is. *)
Theorem salvage_recovers w :
  rtc journal_step first_world w -> jd_file (jw_dir w) <> None ->
  jw_base w ++ jw_acked w `sublist_of` salvage path (jw_dir w) (Ok tt).
Proof.
  intros Hrun Hf. pose proof (journal_run_inv w Hrun) as Hi. destruct w as [[[b|] lk] base acked tried]; [|done].
  unfold journal_inv in Hi. cbn [jw_dir jd_file jw_base jw_acked jw_tried] in *.
  destruct Hi as (recs & torn & -> & Hni & Hak & _ & _). unfold salvage, read_bytes. cbn [jd_file].
  rewrite lossy_valid_app by apply text_valid. unfold lines. rewrite torn_split, map_app by done.
  destruct (lines_text (map (fun r => str_bytes (record_to_json r)) (JInit :: base ++ recs)) (text_one_lines _)) as [_ Hl].
  rewrite <- text_lines in Hl. unfold lines in Hl. rewrite Hl, omap_app.
  assert (forall rs, omap (fun l => match record_from_json (string_of_list_byte l) with Ok r => Some r | Err _ => None end)
    (map (fun r => str_bytes (record_to_json r)) rs) = rs) as Ho.
  { induction rs as [|r rs IH]; [done|]. cbn [map omap list_omap]. unfold str_bytes at 1.
    rewrite string_of_list_byte_of_string, record_json_reads. by f_equal. }
  rewrite Ho. unfold not_init. rewrite List.filter_app. cbn [List.filter is_init negb]. fold (not_init (base ++ recs)).
  rewrite not_init_id by done. apply sublist_inserts_r. by apply sublist_app.
Qed.

End Runs.

(** ** A concrete encoding

    A record is its number in binary between braces. *)

#[export] Instance project_cert_countable : Countable ProjectCert.
Proof.
  refine (inj_countable'
    (fun c => (pc_v c, pc_kind c, pc_project_id c, pc_project_pubkey c, pc_project_key_id c, pc_user_key_id c,
               pc_user_pubkey c, pc_serial c, pc_issued_at c, pc_expires_at c, pc_sig c))
    (fun '(a, b, c, d, e, f, g, h, i, j, k) => mkProjectCert a b c d e f g h i j k) _).
  by intros [].
Defined.

#[export] Instance journal_record_eq_dec : EqDecision JournalRecord.
Proof. solve_decision. Defined.

#[export] Instance journal_record_countable : Countable JournalRecord.
Proof.
  refine (inj_countable'
    (fun r => match r with
              | JRegister c => inl (inl c)
              | JRekey o c => inl (inr (o, c))
              | JInit => inr (inl tt)
              | JRevoke i k => inr (inr (i, k))
              end)
    (fun x => match x with
              | inl (inl c) => JRegister c
              | inl (inr (o, c)) => JRekey o c
              | inr (inl _) => JInit
              | inr (inr (i, k)) => JRevoke i k
              end) _).
  by intros [].
Defined.

Module ToyJournal.

Fixpoint bits (p : positive) : bytes :=
  match p with
  | xH => []
  | xO p => x30 :: bits p
  | xI p => x31 :: bits p
  end.

Fixpoint unbits (l : bytes) : option positive :=
  match l with
  | [] => Some xH
  | x30 :: l => xO <$> unbits l
  | x31 :: l => xI <$> unbits l
  | _ => None
  end.

Definition show (r : JournalRecord) : bytes := x7b :: bits (encode r) ++ [x7d].

Definition reads (l : bytes) : option JournalRecord :=
  match l with
  | x7b :: l =>
      match rev l with
      | x7d :: l => unbits (rev l) ≫= decode
      | _ => None
      end
  | _ => None
  end.

#[export] Instance env : JournalEnv := {|
  record_to_json r := string_of_list_byte (show r);
  record_from_json s := match reads (str_bytes s) with Some r => Ok r | None => Err "not a record" end;
|}.

Lemma unbits_bits p : unbits (bits p) = Some p.
Proof. induction p as [p IH|p IH|]; cbn; by rewrite ?IH. Qed.

Lemma bits_range p : Forall (fun b => b = x30 \/ b = x31) (bits p).
Proof. induction p; cbn; auto. Qed.

Lemma reads_show r : reads (show r) = Some r.
Proof.
  unfold reads, show. rewrite rev_app_distr. cbn [rev app]. rewrite rev_involutive, unbits_bits. cbn. apply decode_encode.
Qed.

Lemma reads_cut r n : (n < length (show r))%nat -> reads (take n (show r)) = None.
Proof.
  unfold show. cbn [length]. rewrite length_app. cbn. intros Hn. destruct n as [|n]; [done|]. cbn [take].
  rewrite take_app_le by lia. cbn [reads]. destruct (rev (take n (bits (encode r)))) as [|x l] eqn:E; [done|].
  assert (x ∈ bits (encode r)) as Hx.
  { apply (subseteq_take n). apply list_elem_of_In, in_rev. rewrite E. by left. }
  pose proof (proj1 (Forall_forall _ _) (bits_range (encode r)) x Hx) as [->| ->]; done.
Qed.

Lemma journal_laws : JournalEnvLaws.
Proof.
  split; intros r; cbn [env record_to_json record_from_json]; unfold str_bytes; rewrite ?list_byte_of_string_of_list_byte.
  - assert (printable (show r)) as Hp.
    { unfold show, printable. constructor; [done|]. apply Forall_app. split; [|by constructor].
      eapply Forall_impl; [apply bits_range|]. intros b [->| ->]; done. }
    split; [by apply ascii_utf8, printable_ascii|]. split; by apply printable_not_in.
  - by rewrite reads_show.
  - intros n Hn. rewrite list_byte_of_string_of_list_byte, reads_cut by done. eauto.
Qed.

Definition r1 : JournalRecord := JRevoke "a" "b".
Definition r2 : JournalRecord := JRevoke "c" "d".

Definition w0 : World := first_world.
Definition w1 : World := mkWorld (lock "j" (jw_dir w0) (Ok tt) (Ok tt)).1 [] [] [].
Definition w2 : World := mkWorld (append "j" (jw_dir w1) (Ok tt) (Ok tt) r1 Whole).1 [] [r1] [r1].
Definition w3 : World := mkWorld (append "j" (jw_dir w2) (Ok tt) (Ok tt) r2 (Part 5 "full")).1 [] [r1] [r1; r2].

Lemma run2 : rtc (journal_step "j") w0 w2.
Proof.
  eapply rtc_l; [exact (step_lock "j" w0 (Ok tt) (Ok tt) _ _ (surjective_pairing _))|].
  apply rtc_once. refine (step_append "j" w1 (Ok tt) (Ok tt) r1 Whole (jw_dir w2) (Ok tt) _ _ _); vm_compute; reflexivity.
Qed.

Lemma run3 : rtc (journal_step "j") w0 w3.
Proof.
  eapply rtc_r; [exact run2|].
  refine (step_append "j" w2 (Ok tt) (Ok tt) r2 (Part 5 "full") (jw_dir w3) (Err (IdIo "full")) _ _ _); vm_compute; reflexivity.
Qed.

(** A repair with the one record that was acknowledged, then the second append *)
Definition w4 : World := mkWorld (replace "j" (jw_dir w3) (Ok tt) (Ok tt) [r1]).1 [r1] [] [].
Definition w5 : World := mkWorld (append "j" (jw_dir w4) (Ok tt) (Ok tt) r2 Whole).1 [r1] [r2] [r2].

Lemma run5 : rtc (journal_step "j") w0 w5.
Proof.
  eapply rtc_r; [eapply rtc_r; [exact run3|]|].
  - refine (step_replace "j" w3 (Ok tt) (Ok tt) [r1] (jw_dir w4) (Ok true) _ _ _); [vm_compute; reflexivity| |vm_compute; reflexivity].
    constructor; [reflexivity|constructor].
  - refine (step_append "j" w4 (Ok tt) (Ok tt) r2 Whole (jw_dir w5) (Ok tt) _ _ _); vm_compute; reflexivity.
Qed.

(** The torn journal is refused until it is repaired. *)
Example torn_refused : exists why, parse "j" (jw_dir w3) (Ok tt) true = Err (JournalCorrupt "j" why).
Proof. eexists. vm_compute. reflexivity. Qed.

End ToyJournal.

#[local] Existing Instance ToyJournal.env.

Lemma journal_never_forgets_witness :
  exists since, [ToyJournal.r1; ToyJournal.r2] = [ToyJournal.r1] ++ since /\
    [ToyJournal.r2] `sublist_of` since /\ since `sublist_of` [ToyJournal.r2].
Proof.
  pose proof (@journal_never_forgets ToyJournal.env ToyJournal.journal_laws "j" ToyJournal.w5 (Ok tt) true ToyJournal.run5) as Hn.
  assert (parse "j" (jw_dir ToyJournal.w5) (Ok tt) true = Ok [ToyJournal.r1; ToyJournal.r2]) as E by (vm_compute; reflexivity).
  rewrite E in Hn. exact Hn.
Defined.

Lemma journal_append_atomic_witness :
  exists rs, parse "j" (jw_dir ToyJournal.w1) (Ok tt) true = Ok rs /\ parse "j" (jw_dir ToyJournal.w2) (Ok tt) true = Ok (rs ++ [ToyJournal.r1]).
Proof.
  refine (@journal_append_atomic ToyJournal.env ToyJournal.journal_laws "j" ToyJournal.w1 (Ok tt) (Ok tt) ToyJournal.r1 Whole
    (jw_dir ToyJournal.w2) (Ok tt) true _ _ _ _).
  - apply rtc_once. exact (step_lock "j" ToyJournal.w0 (Ok tt) (Ok tt) _ _ (surjective_pairing _)).
  - vm_compute. reflexivity.
  - reflexivity.
  - vm_compute. reflexivity.
Defined.

Lemma salvage_recovers_witness :
  [ToyJournal.r1] `sublist_of` salvage "j" (jw_dir ToyJournal.w3) (Ok tt).
Proof.
  refine (@salvage_recovers ToyJournal.env ToyJournal.journal_laws "j" ToyJournal.w3 ToyJournal.run3 _).
  vm_compute. congruence.
Defined.
