(* ===== verification/IdentityOps.v ===== *)
(** * Certifying, rekeying and revoking projects

    project_cert_rpc.rs and project_cert_store.rs: the user daemon's operations
    over the identity view.  Each appends to the identity journal first, then
    to the user chain, then writes or removes the certificate file. *)

From Stdlib Require Import Strings.String.
From S2P Require Import Prelude Codec Chain Delegation Canon KeyRotation Identity.

Local Open Scope string_scope.
Local Open Scope list_scope.
Local Open Scope N_scope.

Inductive IssueError :=
| Unavailable (m : string)
| Invalid (m : string)
| NotRegistered (id : string)
| RootMismatch
| Pop (m : string)
| Ident (e : IdentityError)
| Rotation (e : RotationError)
| Store (m : string)
| Incomplete (m : string).

(** [IssueError::kind] *)
Definition issue_kind (e : IssueError) : string :=
  match e with
  | Unavailable _ => "cert_unavailable"
  | Invalid _ => "invalid_params"
  | NotRegistered _ => "project_not_found"
  | RootMismatch => "root_mismatch"
  | Pop _ => "pop_failed"
  | Ident (KeyConflict _ _) => "key_conflict"
  | Ident (KeyRevoked _ _) => "key_revoked"
  | Ident (KeyReuse _ _) => "key_reuse"
  | Ident (JournalCorrupt _ _) => "journal_corrupt"
  | Ident (NotBound _) => "not_certified"
  | Ident (ProjectRevoked _) => "project_revoked"
  | Ident _ => "cert_error"
  | Rotation _ => "user_key_history_invalid"
  | Store _ => "project_store_error"
  | Incomplete _ => "identity_change_incomplete"
  end.

(** What the manifest store knows of a project *)
Record Manifest := mkManifest { mf_name : string; mf_root : bytes; mf_schema : N }.

(** A nonce the daemon issued, with the project it was issued for *)
Record DaemonNonce := mkNonce { dn_project_id : string; dn_nonce : string }.

Record RegisterRequest := mkRegister {
  rq_project_id : string;
  rq_project_pubkey : bytes;
  rq_root_sha256 : string;
  rq_pid : N;
  rq_exe_sha : string;
  rq_nonce : DaemonNonce;
  rq_pop_sig : bytes;
}.

Section Ops.
Context `{CanonEnv} `{IdentityEnv}.
Context (shake256 : bytes -> bytes) (to_vec : Json -> bytes) (cert_error : CertError -> string).

(** The daemon's environment: the user chain and key, and the contents of the
    manifest store: the rotation log, the identity journal, the certificate
    files by project, the manifests *)
Record CertEnv := mkCertEnv {
  ud_chain : LocalChain;
  ud_user_key : SigningKey;
  ud_rotations : list RotationRecord;
  ud_journal : list JournalRecord;
  ud_files : gmap string ProjectCert;
  ud_manifests : gmap string Manifest;
}.

Definition set_state (d : CertEnv) (c : LocalChain) (j : list JournalRecord) (f : gmap string ProjectCert) : CertEnv :=
  mkCertEnv c (ud_user_key d) (ud_rotations d) j f (ud_manifests d).

(** [user_pubkey], [user_history] *)
Definition user_pubkey (d : CertEnv) : bytes := vk_to_bytes (verifying_key (ud_user_key d)).

Definition user_history (d : CertEnv) : result UserKeyHistory IssueError :=
  match from_records (user_pubkey d) (ud_rotations d) with
  | Ok h => Ok h
  | Err e => Err (Rotation e)
  end.

(** [current_view], [view_from]; the directory is read in some order *)
Definition current_view (d : CertEnv) : result RevocationView IssueError :=
  let? trust := user_history d in
  Ok (build_with trust (tail_from (ud_chain d) 0) (ud_journal d) (map_to_list (ud_files d)).*2).

(** [registered_manifest] *)
Definition registered_manifest (d : CertEnv) (id : string) : result Manifest IssueError :=
  let? _ := throw_if (negb (validate_id id)) (Invalid "project id is not a canonical ULID") in
  ok_or (ud_manifests d !! id) (NotRegistered id).

(** [root_sha256] *)
Definition root_sha256 (root : bytes) : string := hex_string (sha256 root).

(** [verify_pop] *)
Definition verify_pop (d : CertEnv) (op : PopOp) (pubkey : bytes) (nonce : DaemonNonce) (project_id : string)
  (sig : bytes) : result unit IssueError :=
  let? _ := throw_if (negb (String.eqb (dn_project_id nonce) project_id)) (Pop "nonce was issued for another project") in
  match pop_verify pubkey op (key_id (user_pubkey d)) (dn_nonce nonce) project_id sig with
  | Ok _ => Ok tt
  | Err e => Err (Pop (cert_error e))
  end.

(** The clocks and the rule hash of a chain append, the outcome of the journal's
    append, whether a failed append left the whole record in the file (the
    write succeeded and the synchronisation did not), and the outcome of the
    write or removal of the certificate file *)
Record Io := mkIo {
  io_now : Z;
  io_now' : Z;
  io_stamp : option bytes;
  io_journal : result unit IdentityError;
  io_landed : bool;
  io_file : result unit string;
}.

(** Journal, then chain.  An append to the journal that fails ends the
    operation; the record may be in the journal all the same.  A record cut
    short makes the journal unreadable, which is modelled with its file. *)
Definition commit (d : CertEnv) (io : Io) (r : JournalRecord) (kind : string) (payload : Json)
  : CertEnv * result unit IssueError :=
  match io_journal io with
  | Err e =>
      (if io_landed io then set_state d (ud_chain d) (ud_journal d ++ [r]) (ud_files d) else d, Err (Ident e))
  | Ok _ =>
      (set_state d
         (local_append shake256 to_vec (ud_chain d) (io_now io) (io_now' io) (io_stamp io) SOURCE kind (Some payload)).1
         (ud_journal d ++ [r]) (ud_files d), Ok tt)
  end.

(** [write_cert_file] *)
Definition write_cert_file (d : CertEnv) (io : Io) (c : ProjectCert) : CertEnv * result unit string :=
  match io_file io with
  | Ok _ => (set_state d (ud_chain d) (ud_journal d) (<[pc_project_id c := c]> (ud_files d)), Ok tt)
  | Err e => (d, Err e)
  end.

Definition file_result (r : result unit string) (x : ProjectCert * bool) : result (ProjectCert * bool) IssueError :=
  match r with Ok _ => Ok x | Err e => Err (Ident (IdIo e)) end.

(** [register] after the checks of the request: the decision of the view *)
Definition register_planned (d : CertEnv) (io : Io) (req : RegisterRequest) (m : Manifest) (v : RevocationView)
  (history : UserKeyHistory) (now : Z) (plan : Registration)
  : CertEnv * result (ProjectCert * bool) IssueError :=
  let id := rq_project_id req in
  let certify serial payload :=
    match sign_cert (ud_user_key d) (mkCertRequest id (rq_project_pubkey req) serial now None) with
    | Err e => (d, Err (Ident e))
    | Ok c =>
        match commit d io (JRegister c) KIND_REGISTER (payload c) with
        | (d, Err e) => (d, Err e)
        | (d, Ok _) => let '(d, r) := write_cert_file d io c in (d, file_result r (c, true))
        end
    end in
  match plan with
  | Existing c =>
      if String.eqb (pc_user_key_id c) (key_id (user_pubkey d)) then
        match cert_verify c (user_pubkey d) now with
        | Err e => (d, Err (Ident (ICert e)))
        | Ok _ => let '(d, r) := write_cert_file d io c in (d, file_result r (c, false))
        end
      else
        match verify_cert_historic c history with
        | Err e => (d, Err (Ident e))
        | Ok _ =>
            certify (wrap_add64 (last_serial v id) 1) (fun c' =>
              JObj [("cert", cert_to_value c'); ("renewal", JBool true);
                    ("replaces_serial", json_num (pc_serial c)); ("replaces_user_key_id", JStr (pc_user_key_id c))])
        end
  | New serial =>
      certify serial (fun c =>
        JObj [("cert", cert_to_value c); ("manifest_schema", json_num (mf_schema m)); ("name", JStr (mf_name m));
              ("root_sha256", JStr (rq_root_sha256 req));
              ("spawn", JObj [("claimed_pid", json_num (rq_pid req)); ("exe_sha", JStr (rq_exe_sha req))])])
  end.

(** [register] *)
Definition register (d : CertEnv) (io : Io) (req : RegisterRequest) (now : Z)
  : CertEnv * result (ProjectCert * bool) IssueError :=
  let check :=
    let? m := registered_manifest d (rq_project_id req) in
    let? _ := throw_if (negb (String.eqb (rq_root_sha256 req) (root_sha256 (mf_root m)))) RootMismatch in
    let? _ := verify_pop d PopRegister (rq_project_pubkey req) (rq_nonce req) (rq_project_id req) (rq_pop_sig req) in
    let? history := user_history d in
    let? v := current_view d in
    match plan_registration v (rq_project_id req) (rq_project_pubkey req) with
    | Ok plan => Ok (m, history, v, plan)
    | Err e => Err (Ident e)
    end in
  match check with
  | Err e => (d, Err e)
  | Ok (m, history, v, plan) => register_planned d io req m v history now plan
  end.

(** [rekey]; the reason is the cleaned text *)
Definition rekey (d : CertEnv) (io : Io) (id : string) (new_pk : bytes) (nonce : DaemonNonce) (sig : bytes)
  (reason : string) (now : Z) : CertEnv * result (ProjectCert * bool) IssueError :=
  let check :=
    let? _ := registered_manifest d id in
    let? _ := verify_pop d PopRekey new_pk nonce id sig in
    let? v := current_view d in
    match plan_rekey v id new_pk with
    | Err e => Err (Ident e)
    | Ok (old, serial) =>
        match sign_cert (ud_user_key d) (mkCertRequest id new_pk serial now None) with
        | Err e => Err (Ident e)
        | Ok c => Ok (old, c)
        end
    end in
  match check with
  | Err e => (d, Err e)
  | Ok (old, c) =>
      match commit d io (JRekey old c) KIND_REKEY
              (JObj [("new_cert", cert_to_value c); ("old_key_id", JStr old); ("project_id", JStr id);
                     ("reason", JStr reason)]) with
      | (d, Err e) => (d, Err e)
      | (d, Ok _) =>
          let '(d, r) := write_cert_file d io c in
          (d, match r with
              | Ok _ => Ok (c, true)
              | Err e => Err (Incomplete ("project " +:+ id +:+ " is rekeyed (serial " +:+ pretty (pc_serial c) +:+
                                "), but writing " +:+ id +:+ ".cert.json failed: " +:+ e))
              end)
      end
  end.

(** [revoke] *)
Definition revoke (d : CertEnv) (io : Io) (id reason : string) : CertEnv * result string IssueError :=
  let check :=
    let? _ := throw_if (negb (validate_id id)) (Invalid "project id is not a canonical ULID") in
    let? v := current_view d in
    match bound_key_id v id with
    | None => Err (Ident (NotBound id))
    | Some old => Ok old
    end in
  match check with
  | Err e => (d, Err e)
  | Ok old =>
      match commit d io (JRevoke id old) KIND_REVOKE
              (JObj [("old_key_id", JStr old); ("project_id", JStr id); ("reason", JStr reason)]) with
      | (d, Err e) => (d, Err e)
      | (d, Ok _) =>
          match io_file io with
          | Ok _ => (set_state d (ud_chain d) (ud_journal d) (delete id (ud_files d)), Ok old)
          | Err e => (d, Err (Incomplete ("key " +:+ old +:+ " is revoked, but removing " +:+ id +:+ ".cert.json failed: " +:+ e)))
          end
      end
  end.

(** [has_chain_evidence], and the evidence that there should be a journal *)
Definition has_chain_evidence (d : CertEnv) : bool :=
  existsb (fun e => String.eqb (ce_source e) SOURCE) (tail_from (ud_chain d) 0).

Definition evidence (d : CertEnv) : bool := negb (bool_decide (ud_files d = ∅)) || has_chain_evidence d.

(** [repair]: a journal that does not read, from the outcome [read] of reading
    it with the evidence above, is replaced by the export of the view of what
    could be salvaged; [write] is the outcome of the replacement *)
Definition repair (d : CertEnv) (read : result (list JournalRecord) IdentityError) (salvaged : list JournalRecord)
  (write : result unit IdentityError) : CertEnv * result (N * N) IssueError :=
  match read with
  | Ok _ => (d, Err (Invalid "the identity journal is healthy; nothing to repair"))
  | Err _ =>
      match user_history d with
      | Err e => (d, Err e)
      | Ok trust =>
          let v := build_with trust (tail_from (ud_chain d) 0) salvaged (map_to_list (ud_files d)).*2 in
          let records := export_records v in
          match write with
          | Err e => (d, Err (Ident e))
          | Ok _ => (set_state d (ud_chain d) records (ud_files d), Ok (lenN records, rv_rejected v))
          end
      end
  end.

End Ops.
