(* ===== verification/IdentityRuns.v ===== *)
(** * The life of project identities

    Runs of the user daemon's certificate operations with a user key that is
    not rotated: registrations, rekeys, revocations, other events on the user
    chain, saves of the chain, crashes that lose its unsaved end, and
    certificate files put back from older copies. *)

From Stdlib Require Import Strings.String.
From S2P Require Import Prelude Codec Chain Delegation Canon KeyRotation Identity IdentityOps.

Local Open Scope string_scope.
Local Open Scope list_scope.
Local Open Scope N_scope.

(** The JSON of a certificate reads back; its version is a [u32] and its serial
    a [u64]. *)
Class IdentityEnvLaws `{IdentityEnv} : Prop := {
  cert_value_reads c : pc_v c < u32_mod -> pc_serial c < u64_mod -> cert_from_value (cert_to_value c) = Some c;
}.

#[export] Instance claim_eq_dec : EqDecision Claim.
Proof. solve_decision. Defined.

(** The claims of the journal *)
Definition journal_claims (j : list JournalRecord) : list Claim := j ≫= record_claims.

Section Journal.
Context `{CE : CanonEnv}.

(** A key a list of claims names for a project *)
Definition names (cl : list Claim) (id kid : string) : Prop :=
  CRevoke id kid ∈ cl \/ exists c, CCert c ∈ cl /\ pc_project_id c = id /\ pc_project_key_id c = kid.

(** What holds of the journal of a daemon with one user key *)
Record journal_good (pub : bytes) (j : list JournalRecord) : Prop := mkJournalGood {
  jg_valid : forall c, CCert c ∈ journal_claims j ->
    verify_cert_historic c (history_single pub) = Ok tt /\ pc_user_key_id c = key_id pub;
  jg_sigs : forall c c', CCert c ∈ journal_claims j -> CCert c' ∈ journal_claims j -> pc_sig c = pc_sig c' -> c = c';
  jg_exclusive : forall id id' kid, names (journal_claims j) id kid -> names (journal_claims j) id' kid -> id = id';
  jg_one : forall c c', CCert c ∈ journal_claims j -> CCert c' ∈ journal_claims j -> pc_project_id c = pc_project_id c' ->
    CRevoke (pc_project_id c) (pc_project_key_id c) ∉ journal_claims j ->
    CRevoke (pc_project_id c') (pc_project_key_id c') ∉ journal_claims j ->
    pc_project_key_id c = pc_project_key_id c';
  jg_retired : forall id kid, CRetire id kid ∈ journal_claims j -> CRevoke id kid ∈ journal_claims j;
  jg_revoked : forall id kid, JRevoke id kid ∈ j ->
    CRetire id kid ∉ journal_claims j /\
    forall c, CCert c ∈ journal_claims j -> pc_project_id c = id -> CRevoke id (pc_project_key_id c) ∈ journal_claims j;
}.

(** ** Growing the journal *)

Lemma journal_claims_snoc j r : journal_claims (j ++ [r]) = journal_claims j ++ record_claims r.
Proof using. unfold journal_claims. rewrite bind_app. simpl mbind. by rewrite app_nil_r. Qed.

(** A certificate for a project that has no key in force and was never revoked *)
Lemma good_register pub j c :
  journal_good pub j ->
  verify_cert_historic c (history_single pub) = Ok tt -> pc_user_key_id c = key_id pub ->
  (forall c', CCert c' ∈ journal_claims j -> pc_sig c' = pc_sig c -> c' = c) ->
  (forall id', names (journal_claims j) id' (pc_project_key_id c) -> id' = pc_project_id c) ->
  (forall c', CCert c' ∈ journal_claims j -> pc_project_id c' = pc_project_id c ->
     CRevoke (pc_project_id c) (pc_project_key_id c') ∈ journal_claims j) ->
  (forall k, CRevoke (pc_project_id c) k ∈ journal_claims j -> CRetire (pc_project_id c) k ∈ journal_claims j) ->
  journal_good pub (j ++ [JRegister c]).
Proof using.
  intros [Hva Hsig Hex Hone Hret Hrev] Hok Hu Hfresh Hown Hall Hnr. unfold names in *.
  assert (forall a, a ∈ journal_claims (j ++ [JRegister c]) <-> a ∈ journal_claims j \/ a = CCert c) as Hcl.
  { intros a. rewrite journal_claims_snoc, elem_of_app. cbn [record_claims]. by rewrite list_elem_of_singleton. }
  split; unfold names; setoid_rewrite Hcl.
  - intros c' [Hc|[= ->]]; [by apply Hva|done].
  - intros c1 c2 [H1'|[= ->]] [H2'|[= ->]] Hs; auto. symmetry. auto.
  - assert (forall id kid, names (journal_claims (j ++ [JRegister c])) id kid ->
      names (journal_claims j) id kid \/ id = pc_project_id c /\ kid = pc_project_key_id c) as Hn.
    { unfold names. setoid_rewrite Hcl. intros id kid [[?|?]|(x & [?|[= ->]] & <- & <-)]; eauto 7; done. }
    unfold names in Hn. setoid_rewrite Hcl in Hn.
    intros id id' kid H1'%Hn H2'%Hn. destruct H1' as [H1'|[-> ->]], H2' as [H2'|[-> ?]]; subst; eauto. symmetry. eauto.
  - intros c1 c2 [H1'|[= ->]] [H2'|[= ->]] Hid Hr1 Hr2; try done.
    + apply Hone; try done; (intros ?; first [by apply Hr1; left|by apply Hr2; left]).
    + exfalso. apply Hr1. left. rewrite Hid. by apply Hall.
    + exfalso. apply Hr2. left. rewrite <- Hid. apply Hall; [done|by symmetry].
  - intros id kid [?|?]; [by left; apply Hret|done].
  - intros id kid [Hj|Hj%list_elem_of_singleton]%elem_of_app; [|done]. destruct (Hrev _ _ Hj) as [Hn Hc].
    split; [intros [?|?]; done|]. intros c' [Hc'|[= ->]] <-; left; [by apply Hc|]. exfalso. apply Hn, Hnr.
    apply list_elem_of_bind. exists (JRevoke (pc_project_id c) kid). split; [set_solver|done].
Qed.

(** A certificate that replaces the key in force *)
Lemma good_rekey pub j old c :
  journal_good pub j ->
  verify_cert_historic c (history_single pub) = Ok tt -> pc_user_key_id c = key_id pub ->
  (forall c', CCert c' ∈ journal_claims j -> pc_sig c' = pc_sig c -> c' = c) ->
  (forall id', names (journal_claims j) id' (pc_project_key_id c) -> id' = pc_project_id c) ->
  (exists c0, CCert c0 ∈ journal_claims j /\ pc_project_id c0 = pc_project_id c /\ pc_project_key_id c0 = old) ->
  CRevoke (pc_project_id c) old ∉ journal_claims j ->
  journal_good pub (j ++ [JRekey old c]).
Proof using.
  intros [Hva Hsig Hex Hone Hret Hrev] Hok Hu Hfresh Hown (c0 & Hc0 & Hid0 & <-) Hun. set (id := pc_project_id c) in *.
  assert (forall a, a ∈ journal_claims (j ++ [JRekey (pc_project_key_id c0) c]) <->
    a ∈ journal_claims j \/ a = CRevoke id (pc_project_key_id c0) \/ a = CRetire id (pc_project_key_id c0) \/ a = CCert c) as Hcl.
  { intros a. rewrite journal_claims_snoc, elem_of_app. cbn [record_claims]. by rewrite !elem_of_cons, elem_of_nil, (right_id False or). }
  assert (forall x, CCert x ∈ journal_claims j -> pc_project_id x = id -> CRevoke id (pc_project_key_id x) ∈ journal_claims j \/
    pc_project_key_id x = pc_project_key_id c0) as Hall.
  { intros x Hx Hxi. destruct (decide (CRevoke id (pc_project_key_id x) ∈ journal_claims j)) as [|Hr]; [by left|right].
    apply Hone; rewrite ?Hxi, ?Hid0; done. }
  assert (forall id' k, JRevoke id' k ∈ j -> id' <> id) as Hne.
  { intros id' k Hj ->. apply Hun. destruct (Hrev _ _ Hj) as [_ Hc]. by apply Hc. }
  assert (forall i kid, names (journal_claims (j ++ [JRekey (pc_project_key_id c0) c])) i kid ->
      names (journal_claims j) i kid \/ i = id /\ kid = pc_project_key_id c) as Hn.
  { unfold names. setoid_rewrite Hcl. intros i kid [[?|[[= -> ->]|[?|?]]]|(x & [?|[?|[?|[= ->]]]] & <- & <-)]; eauto 7; done. }
  split; try setoid_rewrite Hcl.
  - intros c' [Hc|[?|[?|[= ->]]]]; [by apply Hva|done..].
  - intros c1 c2 [H1'|[?|[?|[= ->]]]] [H2'|[?|[?|[= ->]]]] Hs; auto; try done. symmetry. auto.
  - intros i i' kid H1'%Hn H2'%Hn. destruct H1' as [H1'|[-> ->]], H2' as [H2'|[-> ?]]; subst; eauto. symmetry. eauto.
  - intros c1 c2 [H1'|[?|[?|[= ->]]]] [H2'|[?|[?|[= ->]]]] Hid Hr1 Hr2; try done.
    + apply Hone; try done; (intros ?; first [by apply Hr1; left|by apply Hr2; left]).
    + exfalso. apply Hr1. rewrite Hid. destruct (Hall c1 H1' Hid) as [?| ->]; auto.
    + exfalso. apply Hr2. rewrite <- Hid. destruct (Hall c2 H2' (eq_sym Hid)) as [?| ->]; auto.
  - intros i kid [?|[?|[[= -> ->]|?]]]; [by left; apply Hret|done|auto|done].
  - intros i kid [Hj|Hj%list_elem_of_singleton]%elem_of_app; [|done]. destruct (Hrev _ _ Hj) as [Hnr Hc].
    specialize (Hne _ _ Hj). split; [intros [?|[?|[[= -> _]|?]]]; done|].
    intros x [Hx|[?|[?|[= ->]]]] Hxi; try done. by left; apply Hc.
Qed.

Lemma good_revoke pub j id c0 :
  journal_good pub j -> CCert c0 ∈ journal_claims j -> pc_project_id c0 = id ->
  CRevoke id (pc_project_key_id c0) ∉ journal_claims j ->
  journal_good pub (j ++ [JRevoke id (pc_project_key_id c0)]).
Proof using.
  intros [Hva Hsig Hex Hone Hret Hrev] Hc0 Hid0 Hun.
  assert (forall a, a ∈ journal_claims (j ++ [JRevoke id (pc_project_key_id c0)]) <->
    a ∈ journal_claims j \/ a = CRevoke id (pc_project_key_id c0)) as Hcl.
  { intros a. rewrite journal_claims_snoc, elem_of_app. cbn [record_claims]. by rewrite list_elem_of_singleton. }
  assert (forall i kid, names (journal_claims (j ++ [JRevoke id (pc_project_key_id c0)])) i kid ->
      names (journal_claims j) i kid) as Hn.
  { unfold names. setoid_rewrite Hcl. intros i kid [[?|[= -> ->]]|(x & [?|?] & <- & <-)]; eauto 7; done. }
  split; try setoid_rewrite Hcl.
  - intros c' [Hc|?]; [by apply Hva|done].
  - intros c1 c2 [H1'|?] [H2'|?] Hs; auto; done.
  - intros i i' kid H1'%Hn H2'%Hn. eauto.
  - intros c1 c2 [H1'|?] [H2'|?] Hid Hr1 Hr2; try done. apply Hone; try done; (intros ?; first [by apply Hr1; left|by apply Hr2; left]).
  - intros i kid [?|?]; [by left; apply Hret|done].
  - intros i kid [Hj|[= -> ->]%list_elem_of_singleton]%elem_of_app.
    + destruct (Hrev _ _ Hj) as [Hnr Hc]. split; [intros [?|?]; done|]. intros x [Hx|?] Hxi; [by left; apply Hc|done].
    + split; [intros [?%Hret|?]; done|]. intros x [Hx|?] Hxi; [|done].
      destruct (decide (CRevoke id (pc_project_key_id x) ∈ journal_claims j)) as [|Hr]; [by left|right].
      f_equal. apply Hone; rewrite ?Hxi, ?Hid0; done.
Qed.

End Journal.

Section Runs.
Context `{CE : CanonEnv} `{IE : IdentityEnv}.
Context (shake256 : bytes -> bytes) (to_vec : Json -> bytes) (cert_error : CertError -> string).

Record World := mkWorld { iw_env : CertEnv; iw_saved : LocalChain }.

Definition room (w : World) : Prop := lenN (lc_events (ud_chain (iw_env w))) + 1 < u64_mod.

(** The clock shows a year of four digits, keys have 32 bytes, and a new
    certificate has a signature that no other certificate has. *)
Inductive identity_step : World -> World -> Prop :=
| step_register w io req now d r :
    room w -> time_ok now -> length (rq_project_pubkey req) = 32%nat ->
    register shake256 to_vec cert_error (iw_env w) io req now = (d, r) ->
    (forall c c', JRegister c ∈ ud_journal d -> CCert c' ∈ journal_claims (ud_journal (iw_env w)) ->
       pc_sig c' = pc_sig c -> c' = c) ->
    identity_step w (mkWorld d (iw_saved w))
| step_rekey w io id pk nonce sig reason now d r :
    room w -> time_ok now -> length pk = 32%nat ->
    rekey shake256 to_vec cert_error (iw_env w) io id pk nonce sig reason now = (d, r) ->
    (forall old c c', JRekey old c ∈ ud_journal d -> CCert c' ∈ journal_claims (ud_journal (iw_env w)) ->
       pc_sig c' = pc_sig c -> c' = c) ->
    identity_step w (mkWorld d (iw_saved w))
| step_revoke w io id reason d r :
    room w -> revoke shake256 to_vec (iw_env w) io id reason = (d, r) ->
    identity_step w (mkWorld d (iw_saved w))
| step_other w op :
    room w -> neutral_for SOURCE op ->
    identity_step w (mkWorld (set_state (iw_env w) (chain_step shake256 to_vec (ud_chain (iw_env w)) op)
                                (ud_journal (iw_env w)) (ud_files (iw_env w))) (iw_saved w))
| step_files w files :
    (forall id c, files !! id = Some c -> CCert c ∈ journal_claims (ud_journal (iw_env w))) ->
    identity_step w (mkWorld (set_state (iw_env w) (ud_chain (iw_env w)) (ud_journal (iw_env w)) files) (iw_saved w))
| step_save w : identity_step w (mkWorld (iw_env w) (ud_chain (iw_env w)))
| step_crash w :
    identity_step w (mkWorld (set_state (iw_env w) (iw_saved w) (ud_journal (iw_env w)) (ud_files (iw_env w))) (iw_saved w)).

(** A daemon that has certified nothing yet *)
Definition first_daemon (chain_id interval : N) (now now' : Z) (k : SigningKey) (m : gmap string Manifest) : World :=
  let c := chain_new shake256 to_vec chain_id interval now now' in
  mkWorld (mkCertEnv c k [] [] ∅ m) c.

(** ** The invariant *)

Definition chain_claims (c : LocalChain) : list Claim := tail_from c 0 ≫= event_claims.

Definition pubkey (w : World) : bytes := user_pubkey (iw_env w).
Definition J (w : World) : list Claim := journal_claims (ud_journal (iw_env w)).

Definition chain_good (c : LocalChain) : Prop := chain_inv shake256 to_vec c /\ lc_events c <> [].

Record identity_inv (w : World) : Prop := mkIdInv {
  ii_rotations : ud_rotations (iw_env w) = [];
  ii_chain : chain_good (ud_chain (iw_env w));
  ii_saved : chain_good (iw_saved w);
  ii_ext : exists k, lc_events (ud_chain (iw_env w)) = lc_events (iw_saved w) ++ k;
  ii_events : chain_claims (ud_chain (iw_env w)) ⊆ J w;
  ii_files : forall id c, ud_files (iw_env w) !! id = Some c -> CCert c ∈ J w;
  ii_journal : journal_good (pubkey w) (ud_journal (iw_env w));
}.

(** The view of a daemon in such a state is its journal. *)
Lemma view_of_journal w v :
  identity_inv w -> current_view (iw_env w) = Ok v ->
  (forall id k, k ∈ id_revoked (project v id) <-> CRevoke id k ∈ J w) /\
  (forall id k, k ∈ id_retired (project v id) <-> CRetire id k ∈ J w) /\
  (forall id c, c ∈ id_certs (project v id) <-> CCert c ∈ J w /\ pc_project_id c = id) /\
  (forall id k, rv_key_owner v !! k = Some id <-> names (J w) id k).
Proof using.
  intros Hi Hv. destruct Hi as [Hrot _ _ _ Hev Hfi [Hva Hsig Hex _ _ _]].
  unfold current_view, user_history in Hv. rewrite Hrot in Hv.
  rewrite (proj2 (from_records_ok _ _ (history_single (user_pubkey (iw_env w))))) in Hv by done. injection Hv as <-.
  fold (pubkey w). set (evs := tail_from (ud_chain (iw_env w)) 0). set (fs := (map_to_list (ud_files (iw_env w))).*2).
  pose proof (build_view (history_single (pubkey w)) evs (ud_journal (iw_env w)) fs) as Hb.
  set (v := build_with _ _ _ _) in *.
  assert (forall a, a ∈ claims evs (ud_journal (iw_env w)) fs <-> a ∈ J w) as Hcl.
  { intros a. rewrite claims_elem. split; [|by left]. intros [Ha|[(c & -> & Hc)|Ha]]; [done| |by apply Hev].
    unfold fs in Hc. apply list_elem_of_fmap in Hc as ([id c'] & -> & Hc). apply elem_of_map_to_list in Hc. by eapply Hfi. }
  assert (forall c, CCert c ∈ J w -> admitted (history_single (pubkey w)) evs c) as Had.
  { intros c Hc. destruct (Hva c Hc) as [Hok Hk]. unfold admitted, rejection_cause.
    destruct (index_empty (history_single (pubkey w)) evs) as (_ & _ & ->). rewrite Hok, Hk. cbn [history_single uh_current].
    by rewrite String.eqb_refl. }
  assert (forall id k, names (J w) id k <-> claimed (history_single (pubkey w)) evs (claims evs (ud_journal (iw_env w)) fs) id k) as Hn.
  { intros id k. unfold names, claimed. setoid_rewrite Hcl. split; (intros [?|(c & Hc & ?)]; [by left|right; exists c]); naive_solver. }
  split_and!.
  - intros id k. by rewrite (vo_revoked _ _ _ _ Hb), Hcl.
  - intros id k. by rewrite (vo_retired _ _ _ _ Hb), Hcl.
  - intros id c. split.
    + intros Hc. destruct (vo_certs _ _ _ _ Hb _ _ Hc) as (Hin & _ & ?). by rewrite <- Hcl.
    + intros [Hin <-]. destruct (vo_all _ _ _ _ Hb c) as (c' & Hc' & Hs); [by apply Hcl|by apply Had|].
      destruct (vo_certs _ _ _ _ Hb _ _ Hc') as (Hin' & _ & _). 
      assert (c = c') as -> by (apply Hsig; [done|by apply Hcl|done]). done.
  - intros id k. rewrite Hn. split; [apply (vo_owner _ _ _ _ Hb)|].
    intros Hcd. destruct (vo_owned _ _ _ _ Hb _ _ Hcd) as [id' Hid']. rewrite Hid'. f_equal.
    apply (vo_owner _ _ _ _ Hb) in Hid'. apply Hn in Hcd, Hid'. by eapply Hex.
Qed.

(** ** The chain *)

Lemma chain_claims_source c : chain_claims c = of_source SOURCE c ≫= event_claims.
Proof using.
  unfold chain_claims, of_source.
  assert (forall e l, (e :: l) ≫= event_claims = event_claims e ++ (l ≫= event_claims)) as Hc by done.
  induction (tail_from c 0) as [|e l IH]; [done|]. rewrite filter_cons, Hc, IH. case_decide as E; [by rewrite Hc|].
  unfold event_claims at 1. by destruct (String.eqb_spec (ce_source e) SOURCE).
Qed.

Lemma chain_claims_extend c c' k :
  lc_events c' = lc_events c ++ k -> chain_claims c ⊆ chain_claims c'.
Proof using.
  intros [k' E]%tail_extends. unfold chain_claims. rewrite E, bind_app. set_solver.
Qed.

(** Certificate files that hold certificates of the journal *)
Lemma files_inv d s f :
  identity_inv (mkWorld d s) -> (forall id c, f !! id = Some c -> CCert c ∈ journal_claims (ud_journal d)) ->
  identity_inv (mkWorld (set_state d (ud_chain d) (ud_journal d) f) s).
Proof using. intros [? ? ? ? ? ? ?] Hf. by split. Qed.

Lemma cert_write_inv d s io c :
  identity_inv (mkWorld d s) -> CCert c ∈ journal_claims (ud_journal d) ->
  identity_inv (mkWorld (write_cert_file d io c).1 s).
Proof using.
  intros Hi Hc. unfold write_cert_file. destruct (io_file io); [|done]. cbn [fst]. apply files_inv; [done|].
  intros id c' Hl. apply lookup_insert_Some in Hl as [[_ <-]|[_ Hl]]; [done|]. by apply (ii_files _ Hi id).
Qed.

Lemma ok_inj {A E} (x y : A) : @Ok A E x = Ok y -> x = y.
Proof using. by intros [= ->]. Qed.

Lemma write_journal d io c : ud_journal (write_cert_file d io c).1 = ud_journal d.
Proof using. unfold write_cert_file. by destruct (io_file io). Qed.

Lemma commit_journal d io r kind payload d' u :
  commit shake256 to_vec d io r kind payload = (d', Ok u) -> ud_journal d' = ud_journal d ++ [r].
Proof using. unfold commit. destruct (io_journal io); [|done]. by intros [= <- _]. Qed.

Lemma commit_extends d io r kind payload d' x :
  commit shake256 to_vec d io r kind payload = (d', x) -> ud_journal d' = ud_journal d \/ ud_journal d' = ud_journal d ++ [r].
Proof using.
  unfold commit. destruct (io_journal io); [intros [= <- _]; by right|]. destruct (io_landed io); intros [= <- _]; [by right|by left].
Qed.

(** Journal, then chain; or, when the append fails, at most the journal *)
Lemma commit_inv w io r kind payload d' x :
  identity_inv w -> room w -> commit shake256 to_vec (iw_env w) io r kind payload = (d', x) ->
  (forall e, ce_source e = SOURCE -> ce_kind e = kind -> ce_payload e = Some payload -> event_claims e = record_claims r) ->
  (ud_journal d' = ud_journal (iw_env w) ++ [r] -> journal_good (pubkey w) (ud_journal (iw_env w) ++ [r])) ->
  identity_inv (mkWorld d' (iw_saved w)).
Proof using.
  intros Hi Hroom Hc Hcl Hg. pose proof Hi as [Hrot [Hci Hne] Hsv [k Hk] Hev Hfi _]. unfold commit in Hc.
  assert (forall id c, ud_files (iw_env w) !! id = Some c -> CCert c ∈ journal_claims (ud_journal (iw_env w) ++ [r])) as Hfi'.
  { intros id c Hl. rewrite journal_claims_snoc. apply elem_of_app. left. by eapply Hfi. }
  destruct (io_journal io).
  2: { destruct (io_landed io); [|injection Hc as <- _; by destruct w]. injection Hc as <- _. specialize (Hg eq_refl).
    split; cbn [iw_env iw_saved set_state ud_rotations ud_chain ud_files ud_journal]; try done; [by exists k|].
    intros a Ha. unfold J. cbn [iw_env set_state ud_journal]. rewrite journal_claims_snoc. apply elem_of_app. left. by apply Hev. }
  apply pair_equal_spec in Hc as [<- _]. specialize (Hg eq_refl).
  pose proof (chain_step_inv shake256 to_vec (ud_chain (iw_env w))
    (OpAppend (io_now io) (io_now' io) (io_stamp io) SOURCE kind (Some payload)) Hci Hroom) as Hci'.
  cbn [chain_step] in Hci'. unfold local_append in *.
  destruct (append_tail shake256 to_vec (ud_chain (iw_env w)) (io_now io) (io_now' io) (io_stamp io) SOURCE kind
    (Some payload) None Hci Hne) as (e & He & Ht & _ & Hs & Hki & Hp).
  set (c' := (append_with_key _ _ _ _ _ _ _ _ _ _).1) in *. clearbody c'.
  split; cbn [iw_env iw_saved set_state ud_rotations ud_chain ud_files ud_journal]; try done.
  - split; [done|]. rewrite He. by destruct (lc_events (ud_chain (iw_env w))).
  - exists (k ++ [e]). by rewrite He, Hk, app_assoc.
  - unfold J, chain_claims in *. cbn [iw_env set_state ud_journal]. rewrite Ht, bind_app, journal_claims_snoc. simpl mbind.
    rewrite app_nil_r, Hcl by done. set_solver.
Qed.

(** ** Decisions *)

Lemma refuse_reuse_ok v id kid : refuse_reuse v id kid = Ok tt -> forall o, rv_key_owner v !! kid = Some o -> o = id.
Proof using.
  unfold refuse_reuse, key_owner. intros Hr o Ho. rewrite Ho in Hr. by destruct (String.eqb_spec o id).
Qed.

Lemma register_cases d io req now d' r :
  register shake256 to_vec cert_error d io req now = (d', r) ->
  d' = d \/ exists m h v plan, current_view d = Ok v /\
    plan_registration v (rq_project_id req) (rq_project_pubkey req) = Ok plan /\
    register_planned shake256 to_vec d io req m v h now plan = (d', r).
Proof using.
  unfold register. destruct (registered_manifest d _) as [m|]; [|intros [= -> _]; by left].
  destruct (throw_if _ RootMismatch); [|intros [= -> _]; by left].
  destruct (verify_pop _ _ _ _ _ _ _) as [[]|]; [|intros [= -> _]; by left].
  destruct (user_history d) as [h|]; [|intros [= -> _]; by left].
  destruct (current_view d) as [v|] eqn:Hv; [|intros [= -> _]; by left].
  destruct (plan_registration _ _ _) as [plan|] eqn:Hp; [|intros [= -> _]; by left].
  intros E. right. exists m, h, v, plan. auto.
Qed.

(** What the view's decision to certify says of the journal *)
Lemma plan_new w v id pk serial :
  identity_inv w -> current_view (iw_env w) = Ok v -> plan_registration v id pk = Ok (New serial) ->
  (forall id', names (J w) id' (key_id pk) -> id' = id) /\
  (forall c', CCert c' ∈ J w -> pc_project_id c' = id -> CRevoke id (pc_project_key_id c') ∈ J w) /\
  (forall k, CRevoke id k ∈ J w -> CRetire id k ∈ J w) /\ serial < u64_mod.
Proof using.
  intros Hi Hv Hp. destruct (view_of_journal w v Hi Hv) as (Hrv & Hrt & Hce & How). unfold plan_registration in Hp.
  destruct (refuse_reuse v id (key_id pk)) as [[]|] eqn:Hr; [|done].
  destruct (is_revoked v id (key_id pk)); [done|]. cbn [throw_if] in Hp.
  pose proof (current_cert_spec v id) as Hc. destruct (current_cert v id) as [c|].
  { destruct (_ && _); [done|]. cbn [throw_if] in Hp. by destruct (String.eqb _ _). }
  destruct (was_revoked v id) eqn:Hw; [by rewrite bool_decide_eq_true_2 in Hp by done|].
  split_and!.
  - intros id' Hn%How. by eapply refuse_reuse_ok.
  - intros c' Hc' Hid. apply Hrv, Hc, Hce. done.
  - intros k Hk. apply Hrt. apply Hrv in Hk. unfold was_revoked in Hw. apply bool_decide_eq_false, dec_stable in Hw. set_solver.
  - injection Hp as <-. by apply N.mod_lt.
Qed.

Lemma plan_existing w v id pk c :
  identity_inv w -> current_view (iw_env w) = Ok v -> plan_registration v id pk = Ok (Existing c) -> CCert c ∈ J w.
Proof using.
  intros Hi Hv Hp. destruct (view_of_journal w v Hi Hv) as (_ & _ & Hce & _). unfold plan_registration in Hp.
  destruct (refuse_reuse v id (key_id pk)); [|done]. destruct (throw_if (is_revoked _ _ _) _); [|done].
  destruct (throw_if (_ && _) _); [|done].
  pose proof (current_cert_spec v id) as Hc. destruct (current_cert v id) as [c'|]; [|done].
  destruct (String.eqb _ _); [|done]. injection Hp as <-. destruct Hc as [Hc _]. by apply Hce in Hc as [? _].
Qed.

(** The key in force *)
Lemma bound_in_journal w v id old :
  identity_inv w -> current_view (iw_env w) = Ok v -> bound_key_id v id = Some old ->
  exists c0, CCert c0 ∈ J w /\ pc_project_id c0 = id /\ pc_project_key_id c0 = old /\ CRevoke id old ∉ J w.
Proof using.
  intros Hi Hv Hb. destruct (view_of_journal w v Hi Hv) as (Hrv & _ & Hce & _). unfold bound_key_id in Hb.
  pose proof (current_cert_spec v id) as Hc. destruct (current_cert v id) as [c|]; [|done]. injection Hb as <-.
  destruct Hc as ([Hc Hid]%Hce & Hr & _). exists c. rewrite Hrv in Hr. done.
Qed.

Lemma plan_rekey_journal w v id pk old serial :
  identity_inv w -> current_view (iw_env w) = Ok v -> plan_rekey v id pk = Ok (old, serial) ->
  bound_key_id v id = Some old /\ forall id', names (J w) id' (key_id pk) -> id' = id.
Proof using.
  intros Hi Hv Hp. destruct (view_of_journal w v Hi Hv) as (_ & _ & _ & How). unfold plan_rekey in Hp.
  destruct (bound_key_id v id) as [o|]; [|done]. cbn [ok_or] in Hp.
  destruct (refuse_reuse v id (key_id pk)) as [[]|] eqn:Hr; [|done].
  destruct (throw_if (String.eqb _ _) _); [|done]. destruct (throw_if (is_revoked _ _ _) _); [|done].
  injection Hp as <- _. split; [done|]. intros id' Hn%How. by eapply refuse_reuse_ok.
Qed.

Lemma rekey_cases d io id pk nonce sig reason now d' r :
  rekey shake256 to_vec cert_error d io id pk nonce sig reason now = (d', r) ->
  d' = d \/ exists v old serial c d1 x, current_view d = Ok v /\ plan_rekey v id pk = Ok (old, serial) /\
    sign_cert (ud_user_key d) (mkCertRequest id pk serial now None) = Ok c /\
    commit shake256 to_vec d io (JRekey old c) KIND_REKEY
      (JObj [("new_cert", cert_to_value c); ("old_key_id", JStr old); ("project_id", JStr id); ("reason", JStr reason)])
      = (d1, x) /\ (d' = d1 \/ x = Ok tt /\ d' = (write_cert_file d1 io c).1).
Proof using.
  unfold rekey. destruct (registered_manifest d id); [|intros [= -> _]; by left].
  destruct (verify_pop _ _ _ _ _ _ _) as [[]|]; [|intros [= -> _]; by left].
  destruct (current_view d) as [v|] eqn:Hv; [|intros [= -> _]; by left].
  destruct (plan_rekey v id pk) as [[old serial]|] eqn:Hp; [|intros [= -> _]; by left].
  destruct (sign_cert _ _) as [c|] eqn:Hs; [|intros [= -> _]; by left].
  destruct (commit _ _ _ _ _ _ _) as [d1 x] eqn:Hc. intros E. right. exists v, old, serial, c, d1, x. split_and!; try done.
  destruct x as [[]|]; [right|injection E as <- _; by left]. split; [done|]. destruct (write_cert_file d1 io c). by injection E as <- _.
Qed.

Lemma revoke_cases d io id reason d' r :
  revoke shake256 to_vec d io id reason = (d', r) ->
  d' = d \/ exists v old d1 x, current_view d = Ok v /\ bound_key_id v id = Some old /\
    commit shake256 to_vec d io (JRevoke id old) KIND_REVOKE
      (JObj [("old_key_id", JStr old); ("project_id", JStr id); ("reason", JStr reason)]) = (d1, x) /\
    (d' = d1 \/ d' = set_state d1 (ud_chain d1) (ud_journal d1) (delete id (ud_files d1))).
Proof using.
  unfold revoke. destruct (throw_if _ _); [|intros [= -> _]; by left].
  destruct (current_view d) as [v|] eqn:Hv; [|intros [= -> _]; by left].
  destruct (bound_key_id v id) as [old|] eqn:Hb; [|intros [= -> _]; by left].
  destruct (commit _ _ _ _ _ _ _) as [d1 x] eqn:Hc. intros E. right. exists v, old, d1, x. split_and!; try done.
  destruct x; [|injection E as <- _; auto]. destruct (io_file io); injection E as <- _; auto.
Qed.

(** Only the file's outcome makes an answer incomplete. *)
Lemma current_view_err d e : current_view d = Err e -> exists x, e = Rotation x.
Proof using. unfold current_view, user_history. destruct (from_records _ _); [done|]. intros [= <-]. eauto. Qed.

Lemma commit_err d io r kind payload d' e : commit shake256 to_vec d io r kind payload = (d', Err e) -> exists x, e = Ident x.
Proof using. unfold commit. destruct (io_journal io); [done|]. intros [= _ <-]. eauto. Qed.

Lemma verify_pop_err d op pk nonce id sig e : verify_pop cert_error d op pk nonce id sig = Err e -> exists x, e = Pop x.
Proof using.
  unfold verify_pop. destruct (negb _); cbn [throw_if]; [intros [= <-]; eauto|].
  destruct (pop_verify _ _ _ _ _ _); [done|]. intros [= <-]. eauto.
Qed.

Lemma revoke_answers d io id reason d' r :
  revoke shake256 to_vec d io id reason = (d', r) -> (exists old, r = Ok old) \/ (exists msg, r = Err (Incomplete msg)) ->
  exists v old, current_view d = Ok v /\ bound_key_id v id = Some old /\ JRevoke id old ∈ ud_journal d' /\ forall x, r = Ok x -> x = old.
Proof using.
  unfold revoke. intros Hr Ha. destruct (negb _); cbn [throw_if] in Hr; [injection Hr as _ <-; naive_solver|].
  destruct (current_view d) as [v|e] eqn:Hv; [|apply current_view_err in Hv as [x ->]; injection Hr as _ <-; naive_solver].
  destruct (bound_key_id v id) as [old|] eqn:Hb; [|injection Hr as _ <-; naive_solver].
  destruct (commit _ _ _ _ _ _ _) as [d1 [u|e]] eqn:Hc; [|apply commit_err in Hc as [x ->]; injection Hr as _ <-; naive_solver].
  exists v, old. do 2 (split; [done|]). apply commit_journal in Hc.
  destruct (io_file io); injection Hr as <- <-; cbn [set_state ud_journal]; rewrite Hc; (split; [set_solver|]); intros x Hx; congruence.
Qed.

Lemma rekey_answers d io id pk nonce sig reason now d' r :
  rekey shake256 to_vec cert_error d io id pk nonce sig reason now = (d', r) ->
  (exists c, r = Ok (c, true)) \/ (exists msg, r = Err (Incomplete msg)) ->
  exists v old serial c, current_view d = Ok v /\ plan_rekey v id pk = Ok (old, serial) /\
    sign_cert (ud_user_key d) (mkCertRequest id pk serial now None) = Ok c /\ ud_journal d' = ud_journal d ++ [JRekey old c].
Proof using.
  unfold rekey. intros Hr Ha. unfold registered_manifest in Hr.
  destruct (negb _); cbn [throw_if] in Hr; [injection Hr as _ <-; naive_solver|].
  destruct (ud_manifests d !! id); cbn [ok_or] in Hr; [|injection Hr as _ <-; naive_solver].
  destruct (verify_pop _ _ _ _ _ _ _) as [[]|] eqn:Hp; [|apply verify_pop_err in Hp as [x ->]; injection Hr as _ <-; naive_solver].
  destruct (current_view d) as [v|e] eqn:Hv; [|apply current_view_err in Hv as [x ->]; injection Hr as _ <-; naive_solver].
  destruct (plan_rekey v id pk) as [[old serial]|] eqn:Hpl; [|injection Hr as _ <-; naive_solver].
  destruct (sign_cert _ _) as [c|] eqn:Hs; [|injection Hr as _ <-; naive_solver].
  destruct (commit _ _ _ _ _ _ _) as [d1 [u|e]] eqn:Hc; [|apply commit_err in Hc as [x ->]; injection Hr as _ <-; naive_solver].
  exists v, old, serial, c. split_and!; try done. apply commit_journal in Hc. pose proof (write_journal d1 io c) as Hw.
  destruct (write_cert_file d1 io c) as [d2 r2]. injection Hr as <- _. cbn [fst] in Hw. by rewrite Hw.
Qed.

Lemma plan_rekey_new w v id pk old serial :
  identity_inv w -> current_view (iw_env w) = Ok v -> plan_rekey v id pk = Ok (old, serial) ->
  key_id pk <> old /\ CRevoke id (key_id pk) ∉ J w /\ serial < u64_mod.
Proof using.
  intros Hi Hv Hp. destruct (view_of_journal w v Hi Hv) as (Hrv & _). unfold plan_rekey in Hp.
  destruct (bound_key_id v id) as [o|]; [|done]. cbn [ok_or] in Hp. destruct (refuse_reuse v id (key_id pk)) as [[]|]; [|done].
  destruct (String.eqb_spec (key_id pk) o); [done|]. cbn [throw_if] in Hp.
  destruct (is_revoked v id (key_id pk)) eqn:Hr; [done|]. injection Hp as <- <-. split_and!; [done| |by apply N.mod_lt].
  rewrite <- Hrv. by apply bool_decide_eq_false in Hr.
Qed.

Lemma identity_revoke_inv w io id reason d r :
  identity_inv w -> room w -> revoke shake256 to_vec (iw_env w) io id reason = (d, r) ->
  identity_inv (mkWorld d (iw_saved w)).
Proof using.
  intros Hi Hroom Hrev. destruct w as [e s]. cbn [iw_env iw_saved] in *.
  apply revoke_cases in Hrev as [->|(v & old & d1 & x & Hv & Hb & Hcm & Hd)]; [done|].
  destruct (bound_in_journal (mkWorld e s) v id old Hi Hv Hb) as (c0 & Hc0 & Hid & <- & Hun).
  assert (identity_inv (mkWorld d1 s)) as Hi1.
  { apply (commit_inv (mkWorld e s) _ _ _ _ _ _ Hi Hroom Hcm).
    - intros ev Hs1 Hk1 Hp1. unfold event_claims. by rewrite Hs1, Hk1, Hp1.
    - intros _. apply good_revoke; try done. apply (ii_journal _ Hi). }
  destruct Hd as [->| ->]; [done|]. apply files_inv; [done|]. intros i c [_ Hl]%lookup_delete_Some.
    by apply (ii_files _ Hi1 i).
Qed.

(** ** Certificates *)

Context `{CL : !CanonEnvLaws} `{EL : !Ed25519Laws} `{IL : !IdentityEnvLaws}.

Lemma sign_good k id pk serial now c :
  sign_cert k (mkCertRequest id pk serial now None) = Ok c -> length pk = 32%nat -> time_ok now ->
  let pub := vk_to_bytes (verifying_key k) in
  verify_cert_historic c (history_single pub) = Ok tt /\ pc_user_key_id c = key_id pub /\
  pc_project_id c = id /\ pc_project_key_id c = key_id pk /\ pc_v c = CERT_VERSION /\ pc_serial c = serial.
Proof using CL EL.
  unfold sign_cert. cbn [cr_project_id cr_expires_at cr_issued_at]. destruct (validate_id id) eqn:Hv; [|done].
  cbn [negb throw_if]. intros [= <-] Hl Ht. cbn zeta. split; [|done].
  set (c := cert_sign k _).
  assert (parse_rfc3339 (pc_issued_at c) = Some (whole_secs now)) as Hp by (apply parse_rfc3339_secs; exact Ht).
  assert (cert_verify c (vk_to_bytes (verifying_key k)) (whole_secs now) = Ok tt) as Hok.
  { apply cert_sign_verifies; try done. cbn [cr_issued_at]. unfold MAX_ISSUE_SKEW_SECS. lia. }
  unfold verify_cert_historic, key_for, verify_signature_only, accepts. rewrite Hp. cbn [history_single uh_current].
  change (pc_user_key_id c) with (key_id (vk_to_bytes (verifying_key k))). rewrite String.eqb_refl.
  rewrite bool_decide_eq_true_2 by done. cbn [orb negb]. by rewrite Hok.
Qed.

Lemma register_inv w io req now d r :
  identity_inv w -> room w -> time_ok now -> length (rq_project_pubkey req) = 32%nat ->
  register shake256 to_vec cert_error (iw_env w) io req now = (d, r) ->
  (forall c c', JRegister c ∈ ud_journal d -> CCert c' ∈ J w -> pc_sig c' = pc_sig c -> c' = c) ->
  identity_inv (mkWorld d (iw_saved w)).
Proof using CL EL IL.
  intros Hi Hroom Ht Hl Hreg Hfresh. destruct w as [e s]. cbn [iw_env iw_saved] in *.
  apply register_cases in Hreg as [->|(m & h & v & [c|serial] & Hv & Hp & Hreg)]; [done| |].
  - pose proof (plan_existing (mkWorld e s) v _ _ _ Hi Hv Hp) as Hc. unfold register_planned in Hreg.
    rewrite (proj2 (String.eqb_eq _ _)) in Hreg by (apply (jg_valid _ _ (ii_journal _ Hi)), Hc).
    destruct (cert_verify _ _ _); [|by injection Hreg as <- _].
    pose proof (cert_write_inv e s io c Hi Hc) as Hw. destruct (write_cert_file e io c). by injection Hreg as <- _.
  - destruct (plan_new (mkWorld e s) v _ _ _ Hi Hv Hp) as (Hn & Hall & Hret & Hlt). unfold register_planned in Hreg.
    destruct (sign_cert _ _) as [c|] eqn:Hs; [|by injection Hreg as <- _].
    destruct (sign_good _ _ _ _ _ _ Hs Hl Ht) as (Hok & Hu & Hid & Hk & Hver & Hser).
    destruct (commit _ _ _ _ _ _ _) as [d1 x] eqn:Hcm.
    assert (ud_journal d = ud_journal d1) as Ej.
    { destruct x; [|by injection Hreg as <- _]. unfold write_cert_file in Hreg. destruct (io_file io); by injection Hreg as <- _. }
    assert (identity_inv (mkWorld d1 s)) as Hi1.
    { apply (commit_inv (mkWorld e s) _ _ _ _ _ _ Hi Hroom Hcm).
    + intros ev Hs1 Hk1 Hp1. unfold event_claims. rewrite Hs1, Hk1, Hp1. cbn [negb]. unfold cert_of.
      cbn -[cert_from_value cert_to_value]. by rewrite cert_value_reads by (rewrite ?Hver, ?Hser; done).
    + intros Ej1. cbn [iw_env] in Ej1. apply good_register; rewrite ?Hid, ?Hk; try done; [apply (ii_journal _ Hi)|].
      intros c' Hc'. apply Hfresh; [|done]. rewrite Ej, Ej1. set_solver. }
    destruct x as [u|]; [|by injection Hreg as <- _]. apply commit_journal in Hcm as Ej1.
    assert (CCert c ∈ journal_claims (ud_journal d1)) as Hc by (rewrite Ej1, journal_claims_snoc; set_solver).
    pose proof (cert_write_inv d1 s io c Hi1 Hc) as Hw. destruct (write_cert_file d1 io c). by injection Hreg as <- _.
Qed.

Lemma rekey_inv w io id pk nonce sig reason now d r :
  identity_inv w -> room w -> time_ok now -> length pk = 32%nat ->
  rekey shake256 to_vec cert_error (iw_env w) io id pk nonce sig reason now = (d, r) ->
  (forall old c c', JRekey old c ∈ ud_journal d -> CCert c' ∈ J w -> pc_sig c' = pc_sig c -> c' = c) ->
  identity_inv (mkWorld d (iw_saved w)).
Proof using CL EL IL.
  intros Hi Hroom Ht Hl Hrk Hfresh. destruct w as [e s]. cbn [iw_env iw_saved] in *.
  apply rekey_cases in Hrk as [->|(v & old & serial & c & d1 & x & Hv & Hp & Hs & Hcm & Hd)]; [done|].
  destruct (plan_rekey_journal (mkWorld e s) v _ _ _ _ Hi Hv Hp) as [Hb Hn].
  destruct (bound_in_journal (mkWorld e s) v id old Hi Hv Hb) as (c0 & Hc0 & Hid0 & Hk0 & Hun).
  destruct (plan_rekey_new (mkWorld e s) v _ _ _ _ Hi Hv Hp) as (_ & _ & Hlt).
  destruct (sign_good _ _ _ _ _ _ Hs Hl Ht) as (Hok & Hu & Hid & Hk & Hver & Hser).
  assert (ud_journal (write_cert_file d1 io c).1 = ud_journal d1) as Ej by (unfold write_cert_file; by destruct (io_file io)).
  assert (ud_journal d = ud_journal d1) as Ejd by (destruct Hd as [->|[_ ->]]; [done|exact Ej]).
  assert (identity_inv (mkWorld d1 s)) as Hi1.
  { apply (commit_inv (mkWorld e s) _ _ _ _ _ _ Hi Hroom Hcm).
  - intros ev Hs1 Hk1 Hp1. unfold event_claims. rewrite Hs1, Hk1, Hp1. cbn [negb]. unfold cert_of.
    cbn -[cert_from_value cert_to_value]. by rewrite cert_value_reads, Hid by (rewrite ?Hver, ?Hser; done).
  - intros Ej1. cbn [iw_env] in Ej1. apply good_rekey; rewrite ?Hid, ?Hk; try done; [apply (ii_journal _ Hi)| |by exists c0].
    intros c' Hc'. apply (Hfresh old); [|done]. rewrite Ejd, Ej1. set_solver. }
  destruct Hd as [->|[-> ->]]; [done|]. apply commit_journal in Hcm as Ej1.
  apply cert_write_inv; [done|]. rewrite Ej1, journal_claims_snoc. set_solver.
Qed.

(** ** Every step *)

Lemma identity_step_inv w w' : identity_inv w -> identity_step w w' -> identity_inv w'.
Proof using CL EL IL.
  intros Hi Hst. destruct Hst as [w io req now d r Hroom Ht Hl Hreg Hf|w io id pk nonce sig reason now d r Hroom Ht Hl Hr Hf
    |w io id reason d r Hroom Hr|w op Hroom Hn|w files Hf|w|w].
  - by eapply register_inv.
  - by eapply rekey_inv.
  - by eapply identity_revoke_inv.
  - destruct Hi as [Hrot [Hci Hne] Hsv [k Hk] Hev Hfi Hg].
    destruct (neutral_source shake256 to_vec SOURCE _ op eq_refl Hci Hne Hn) as [[k' Hk'] Hs].
    split; cbn [iw_env iw_saved set_state ud_chain ud_rotations ud_files ud_journal]; try done.
    + split; [by apply chain_step_inv|]. rewrite Hk'. by destruct (lc_events (ud_chain (iw_env w))).
    + exists (k ++ k'). by rewrite Hk', Hk, app_assoc.
    + rewrite chain_claims_source, Hs, <- chain_claims_source. exact Hev.
  - destruct w as [e s]. by apply files_inv.
  - destruct Hi as [Hrot Hci Hsv _ Hev Hfi Hg]. split; try done. exists []. by rewrite app_nil_r.
  - destruct Hi as [Hrot Hci Hsv [k Hk] Hev Hfi Hg].
    split; cbn [iw_env iw_saved set_state ud_chain ud_rotations ud_files ud_journal]; try done.
    + exists []. by rewrite app_nil_r.
    + intros a Ha. apply Hev. by eapply chain_claims_extend.
Qed.

Lemma first_daemon_inv chain_id interval now now' k m : identity_inv (first_daemon chain_id interval now now' k m).
Proof using.
  unfold first_daemon. destruct (chain_new_tail shake256 to_vec chain_id interval now now') as [Hne Ht].
  pose proof (chain_new_inv shake256 to_vec chain_id interval now now') as Hci.
  set (c := chain_new _ _ _ _ _ _) in *. clearbody c.
  split; cbn [iw_env iw_saved ud_chain ud_rotations ud_files]; try done.
  - exists []. by rewrite app_nil_r.
  - unfold chain_claims. by rewrite Ht.
  - split; unfold names, journal_claims; cbn; try (intros *; intros ?%not_elem_of_nil; done).
    intros id id' kid [?%not_elem_of_nil|(? & ?%not_elem_of_nil & _)]; done.
Qed.

Lemma identity_run_inv w w' : identity_inv w -> rtc identity_step w w' -> identity_inv w'.
Proof using CL EL IL. intros Hi Hr. induction Hr as [|w w1 w2 Hs _ IH]; [done|]. apply IH. by eapply identity_step_inv. Qed.

Lemma register_planned_journal d io req m v h now plan :
  ud_journal d `prefix_of` ud_journal (register_planned shake256 to_vec d io req m v h now plan).1.
Proof using.
  assert (forall io r kind p c, ud_journal d `prefix_of` ud_journal
    (match commit shake256 to_vec d io r kind p with
     | (d, Err e) => (d, Err e)
     | (d, Ok _) => let '(d, r) := write_cert_file d io c in (d, file_result r (c, true))
     end).1) as Hg.
  { intros io' r kind p c. destruct (commit _ _ _ _ _ _ _) as [d1 x] eqn:Hc.
    assert (ud_journal d `prefix_of` ud_journal d1) as Hp by (apply commit_extends in Hc as [->| ->]; [done|by apply prefix_app_r]).
    destruct x; [|done]. pose proof (write_journal d1 io' c) as Hw. destruct (write_cert_file d1 io' c). cbn [fst] in *. by rewrite Hw. }
  destruct plan as [c|serial]; unfold register_planned.
  - destruct (String.eqb _ _).
    + destruct (cert_verify _ _ _); [|done]. pose proof (write_journal d io c) as Hw. destruct (write_cert_file d io c).
      cbn [fst] in *. by rewrite Hw.
    + destruct (verify_cert_historic _ _); [|done]. destruct (sign_cert _ _) as [c'|]; [|done]. apply Hg.
  - destruct (sign_cert _ _) as [c'|]; [|done]. apply Hg.
Qed.

(** No step removes a line of the journal. *)
Lemma step_journal w w' : identity_step w w' -> ud_journal (iw_env w) `prefix_of` ud_journal (iw_env w').
Proof using.
  intros Hst. destruct Hst as [w io req now d r Hroom Ht Hl Hr Hf|w io id pk nonce sig reason now d r Hroom Ht Hl Hr Hf
    |w io id reason d r Hroom Hr|w op Hroom Hn|w files Hf|w|w]; cbn [iw_env set_state ud_journal]; try done.
  - apply register_cases in Hr as [->|(m & h & v & plan & _ & _ & Hr)]; [done|].
    pose proof (register_planned_journal (iw_env w) io req m v h now plan) as Hp. by rewrite Hr in Hp.
  - apply rekey_cases in Hr as [->|(v & old & serial & c & d1 & x & _ & _ & _ & Hcm%commit_extends & Hd)]; [done|].
    assert (ud_journal d = ud_journal d1) as -> by (destruct Hd as [->|[_ ->]]; [done|apply write_journal]).
    destruct Hcm as [->| ->]; [done|by apply prefix_app_r].
  - apply revoke_cases in Hr as [->|(v & old & d1 & x & _ & _ & Hcm%commit_extends & Hd)]; [done|].
    assert (ud_journal d = ud_journal d1) as -> by (by destruct Hd as [->| ->]).
    destruct Hcm as [->| ->]; [done|by apply prefix_app_r].
Qed.

Lemma run_journal w w' : rtc identity_step w w' -> ud_journal (iw_env w) `prefix_of` ud_journal (iw_env w').
Proof using. intros Hr. induction Hr as [|w w1 w2 Hs _ IH]; [done|]. etrans; [by apply step_journal|done]. Qed.

Lemma current_view_ok w : identity_inv w -> exists v, current_view (iw_env w) = Ok v.
Proof using.
  intros Hi. unfold current_view, user_history. rewrite (ii_rotations _ Hi).
  rewrite (proj2 (from_records_ok _ _ (history_single (user_pubkey (iw_env w))))) by done. by eexists.
Qed.

Lemma unrevoked_is_bound w v c :
  identity_inv w -> current_view (iw_env w) = Ok v -> CCert c ∈ J w ->
  CRevoke (pc_project_id c) (pc_project_key_id c) ∉ J w ->
  bound_key_id v (pc_project_id c) = Some (pc_project_key_id c).
Proof using.
  intros Hi Hv Hc Hr. destruct (view_of_journal w v Hi Hv) as (Hrv & _ & Hce & _). unfold bound_key_id.
  pose proof (current_cert_spec v (pc_project_id c)) as Hcc. destruct (current_cert v (pc_project_id c)) as [x|].
  - destruct Hcc as ([Hx Hxi]%Hce & Hxr & _). rewrite Hrv, <- Hxi in Hxr. cbn. f_equal.
    by apply (jg_one _ _ (ii_journal _ Hi)).
  - exfalso. apply Hr, Hrv, Hcc, Hce. done.
Qed.

(** C31: A key belongs to one project and a project has one key.  After any run
    of registrations, rekeys and revocations (their journal writes may fail with
    or without leaving the record), other events on the chain, saves, crashes
    that lose the unsaved end of the user chain, and certificate files restored
    from older copies, the daemon still has its view; two projects with the
    same key in force are the same project; a key that was ever certified or
    revoked for a project is in force for no other; and every certificate of a
    project whose key is not revoked carries the key in force and passes the
    check of certificates.  In these runs the user key is not rotated, the
    journal is not repaired, and no two certificates carry the same
    signature. *)
Theorem project_keys_exclusive chain_id interval now now' k m w :
  rtc identity_step (first_daemon chain_id interval now now' k m) w ->
  exists v, current_view (iw_env w) = Ok v /\
    (forall id id' kid, bound_key_id v id = Some kid -> bound_key_id v id' = Some kid -> id = id') /\
    (forall id id' kid, is_revoked v id kid = true \/ kid ∈ pc_project_key_id <$> all_certs v id ->
       bound_key_id v id' = Some kid -> id = id') /\
    (forall c, c ∈ all_certs v (pc_project_id c) -> is_revoked v (pc_project_id c) (pc_project_key_id c) = false ->
       bound_key_id v (pc_project_id c) = Some (pc_project_key_id c) /\ check_cert v c = Ok tt).
Proof using CL EL IL.
  intros Hrun. pose proof (identity_run_inv _ _ (first_daemon_inv _ _ _ _ _ _) Hrun) as Hi.
  destruct (current_view_ok w Hi) as [v Hv]. exists v. split; [done|].
  destruct (view_of_journal w v Hi Hv) as (Hrv & _ & Hce & _).
  assert (forall id kid, bound_key_id v id = Some kid -> names (J w) id kid) as Hb.
  { intros id kid Hb. destruct (bound_in_journal w v id kid Hi Hv Hb) as (c0 & ? & ? & ? & _). right. eauto. }
  pose proof (jg_exclusive _ _ (ii_journal _ Hi)) as Hex. split_and!.
  - intros id id' kid H1' H2'. eapply Hex; by apply Hb.
  - intros id id' kid Hk H2'. eapply Hex; [|by apply Hb]. destruct Hk as [Hk%bool_decide_eq_true|Hk].
    + left. by apply Hrv.
    + apply list_elem_of_fmap in Hk as (c & -> & [Hc Hid]%Hce). right. eauto.
  - intros c [Hc _]%Hce Hr. assert (bound_key_id v (pc_project_id c) = Some (pc_project_key_id c)) as Hbc.
    { apply (unrevoked_is_bound w); try done. rewrite <- Hrv. by apply bool_decide_eq_false in Hr. }
    split; [done|]. unfold check_cert. by rewrite Hr, Hbc, String.eqb_refl.
Qed.

(** Revoking a project is final.  Once a revocation answered (also when only
    the removal of the certificate file failed), no later run brings a key of
    that project back: whatever is registered, rekeyed, lost in a crash or put
    back as a file, the project has no certificate in force, every registration
    of it is refused, whatever the key, and a rekey finds no key to replace.
    The documentation of [revoke] has a later registration give the project a
    key again. *)
Theorem revoke_is_terminal chain_id interval now now' k m w io id reason d r w' v pk :
  rtc identity_step (first_daemon chain_id interval now now' k m) w -> room w ->
  revoke shake256 to_vec (iw_env w) io id reason = (d, r) ->
  (exists old, r = Ok old) \/ (exists msg, r = Err (Incomplete msg)) ->
  rtc identity_step (mkWorld d (iw_saved w)) w' -> current_view (iw_env w') = Ok v ->
  current_cert v id = None /\ (exists e, plan_registration v id pk = Err e) /\ plan_rekey v id pk = Err (NotBound id).
Proof using CL EL IL.
  intros Hrun Hroom Hrev Hans Hrun' Hv.
  pose proof (identity_run_inv _ _ (first_daemon_inv _ _ _ _ _ _) Hrun) as Hi.
  pose proof (identity_revoke_inv _ _ _ _ _ _ Hi Hroom Hrev) as Hi1. pose proof (identity_run_inv _ _ Hi1 Hrun') as Hi'.
  assert (exists old, JRevoke id old ∈ ud_journal (iw_env w')) as [old Hj].
  { apply run_journal in Hrun' as [l Hl]. cbn [iw_env] in Hl. rewrite Hl.
    destruct (revoke_answers _ _ _ _ _ _ Hrev Hans) as (_ & old & _ & _ & Hold & _). exists old. apply elem_of_app. by left. }
  destruct (jg_revoked _ _ (ii_journal _ Hi') _ _ Hj) as [Hnr Hall].
  destruct (view_of_journal w' v Hi' Hv) as (Hrv & Hrt & Hce & _).
  assert (current_cert v id = None) as Hn.
  { pose proof (current_cert_spec v id) as Hc. destruct (current_cert v id) as [c|]; [|done].
    destruct Hc as ([Hc Hid]%Hce & Hr & _). exfalso. apply Hr, Hrv, Hall; done. }
  split; [done|]. split; [|unfold plan_rekey, bound_key_id; by rewrite Hn].
  unfold plan_registration. destruct (refuse_reuse _ _ _); [|eauto]. destruct (is_revoked _ _ _); [eauto|]. cbn [throw_if].
  rewrite Hn, bool_decide_eq_true_2 by done. unfold was_revoked. rewrite bool_decide_eq_true_2; [eauto|].
  intros E. apply Hnr, Hrt. assert (CRevoke id old ∈ J w') as Ho%Hrv by (apply list_elem_of_bind; exists (JRevoke id old); set_solver).
  set_solver.
Qed.

(** A revoked key is out, for every project. *)
Lemma revoked_everywhere w v id old :
  identity_inv w -> current_view (iw_env w) = Ok v -> CRevoke id old ∈ J w ->
  is_revoked v id old = true /\
  forall id' pk, key_id pk = old ->
    bound_key_id v id' <> Some old /\ (exists e, plan_registration v id' pk = Err e) /\ (exists e, plan_rekey v id' pk = Err e).
Proof using.
  intros Hi Hv Hr. destruct (view_of_journal w v Hi Hv) as (Hrv & _ & _ & How).
  assert (is_revoked v id old = true) as Hrev by (by apply bool_decide_eq_true, Hrv). split; [done|]. intros id' pk Hpk.
  assert (rv_key_owner v !! old = Some id) as Hown by (apply How; by left).
  split; [|split].
  - intros Hb. destruct (bound_in_journal w v id' old Hi Hv Hb) as (c & Hc & Hid & Hk & Hun).
    assert (rv_key_owner v !! old = Some id') as Hown' by (apply How; right; eauto).
    rewrite Hown in Hown'. injection Hown' as ->. done.
  - unfold plan_registration, refuse_reuse, key_owner. rewrite Hpk, Hown. destruct (String.eqb_spec id id') as [<-|]; [|by eexists].
    rewrite Hrev. by eexists.
  - unfold plan_rekey, refuse_reuse, key_owner. rewrite Hpk, Hown. destruct (bound_key_id v id') as [o|]; [|by eexists]. cbn [ok_or].
    destruct (String.eqb_spec id id') as [<-|]; [|by eexists]. destruct (String.eqb old o); [by eexists|]. cbn [throw_if].
    rewrite Hrev. by eexists.
Qed.

(** C30: A revoked key never returns.  When a revocation answered (also when only
    the removal of the certificate file failed), the project had a key in force
    and has no certificate in force any more; and through any later run of
    registrations, rekeys, revocations, chain events, saves, crashes that lose
    the unsaved end of the chain and certificate files put back, that key stays
    revoked for the project, is in force for no project, and can neither be
    registered nor be made the new key of any project.  The user key is not
    rotated and the journal not repaired in these runs. *)
Theorem revoked_key_never_returns chain_id interval now now' k m w io id reason d r :
  rtc identity_step (first_daemon chain_id interval now now' k m) w -> room w ->
  revoke shake256 to_vec (iw_env w) io id reason = (d, r) ->
  (exists old, r = Ok old) \/ (exists msg, r = Err (Incomplete msg)) ->
  exists v0 old, current_view (iw_env w) = Ok v0 /\ bound_key_id v0 id = Some old /\ (forall x, r = Ok x -> x = old) /\
    (exists v1, current_view d = Ok v1 /\ current_cert v1 id = None) /\
    forall w', rtc identity_step (mkWorld d (iw_saved w)) w' ->
      exists v, current_view (iw_env w') = Ok v /\ is_revoked v id old = true /\
        forall id' pk, key_id pk = old ->
          bound_key_id v id' <> Some old /\ (exists e, plan_registration v id' pk = Err e) /\ (exists e, plan_rekey v id' pk = Err e).
Proof using CL EL IL.
  intros Hrun Hroom Hrev Hans. pose proof (identity_run_inv _ _ (first_daemon_inv _ _ _ _ _ _) Hrun) as Hi.
  pose proof (identity_revoke_inv _ _ _ _ _ _ Hi Hroom Hrev) as Hi1.
  destruct (revoke_answers _ _ _ _ _ _ Hrev Hans) as (v0 & old & Hv0 & Hb & Hj & Hx). exists v0, old. split_and!; try done.
  - destruct (current_view_ok _ Hi1) as [v1 Hv1]. exists v1. split; [exact Hv1|].
    destruct (view_of_journal _ v1 Hi1 Hv1) as (Hrv & _ & Hce & _). destruct (jg_revoked _ _ (ii_journal _ Hi1) _ _ Hj) as [_ Hall].
    pose proof (current_cert_spec v1 id) as Hc. destruct (current_cert v1 id) as [c|]; [|done].
    destruct Hc as ([Hc Hid]%Hce & Hr & _). exfalso. apply Hr, Hrv, Hall; done.
  - intros w' Hrun'. pose proof (identity_run_inv _ _ Hi1 Hrun') as Hi'. destruct (current_view_ok w' Hi') as [v Hv]. exists v. split; [done|].
    apply (revoked_everywhere w'); try done. apply run_journal in Hrun' as [l Hl]. cbn [iw_env] in Hl. unfold J. rewrite Hl.
    apply list_elem_of_bind. exists (JRevoke id old). split; [set_solver|]. apply elem_of_app. by left.
Qed.

(** C32: A rekey that answered takes effect: the new key is the one in force, the
    old one is revoked, and so it stays when the end of the chain with the
    rekey's event is lost.  The runs before it are without rotation of the user
    key and repair of the journal, and the new certificate does not share its
    signature with another one. *)
Theorem rekey_takes_effect chain_id interval now now' k m w io id pk nonce sig reason t d r (crash : bool) v :
  rtc identity_step (first_daemon chain_id interval now now' k m) w -> room w -> time_ok t -> length pk = 32%nat ->
  rekey shake256 to_vec cert_error (iw_env w) io id pk nonce sig reason t = (d, r) ->
  (forall old c c', JRekey old c ∈ ud_journal d -> CCert c' ∈ J w -> pc_sig c' = pc_sig c -> c' = c) ->
  (exists c, r = Ok (c, true)) \/ (exists msg, r = Err (Incomplete msg)) ->
  current_view (if crash then set_state d (iw_saved w) (ud_journal d) (ud_files d) else d) = Ok v ->
  bound_key_id v id = Some (key_id pk) /\
  exists v0 old, current_view (iw_env w) = Ok v0 /\ bound_key_id v0 id = Some old /\ is_revoked v id old = true.
Proof using CL EL IL.
  intros Hrun Hroom Ht Hl Hrk Hfresh Hans Hv. pose proof (identity_run_inv _ _ (first_daemon_inv _ _ _ _ _ _) Hrun) as Hi.
  pose proof (rekey_inv _ _ _ _ _ _ _ _ _ _ Hi Hroom Ht Hl Hrk Hfresh) as Hi1.
  set (e := if crash then _ else d) in Hv. assert (identity_inv (mkWorld e (iw_saved w))) as Hi'.
  { destruct crash; [|done]. exact (identity_step_inv _ _ Hi1 (step_crash (mkWorld d (iw_saved w)))). }
  assert (ud_journal e = ud_journal d) as Ej by (by destruct crash). clearbody e.
  destruct (rekey_answers _ _ _ _ _ _ _ _ _ _ Hrk Hans) as (v0 & old & serial & c & Hv0 & Hp & Hs & Hj).
  destruct (plan_rekey_journal w v0 _ _ _ _ Hi Hv0 Hp) as [Hb _].
  destruct (plan_rekey_new w v0 _ _ _ _ Hi Hv0 Hp) as (Hne & Hun & _).
  destruct (sign_good _ _ _ _ _ _ Hs Hl Ht) as (_ & _ & Hid & Hk & _).
  assert (J (mkWorld e (iw_saved w)) = J w ++ record_claims (JRekey old c)) as HJ.
  { unfold J. cbn [iw_env]. rewrite Ej, Hj. apply journal_claims_snoc. }
  split.
  - rewrite <- Hid, <- Hk. eapply (unrevoked_is_bound (mkWorld e (iw_saved w))); [done..| |]; rewrite HJ; cbn [record_claims].
    + set_solver.
    + rewrite elem_of_app, !elem_of_cons, elem_of_nil, Hid, Hk. intros [?|[[= ?]|[?|[?|?]]]]; done.
  - exists v0, old. split_and!; try done. apply bool_decide_eq_true.
    destruct (view_of_journal (mkWorld e (iw_saved w)) v Hi' Hv) as (Hrv & _). apply Hrv. rewrite HJ. cbn [record_claims].
    rewrite Hid. set_solver.
Qed.

End Runs.
