(* ===== verification/IdentityDemo.v ===== *)
(** * Project identities on concrete runs

    A toy environment with its laws, and runs of the user daemon: a project is
    registered, rekeyed while its certificate file cannot be written, and
    revoked before a crash loses the chain. *)

From Stdlib Require Import Strings.String.
From S2P Require Import Prelude Codec Text Chain Delegation Canon KeyRotation Identity IdentityOps IdentityRuns.

Local Open Scope string_scope.
Local Open Scope list_scope.
Local Open Scope N_scope.

Module ToyIdentity.

#[export] Instance ed : Ed25519 := ToyCanon.ed.
#[export] Instance env : CanonEnv := ToyCanon.env.

(** The JSON of a certificate, field by field *)
Definition to_value (c : ProjectCert) : Json :=
  JObj [("v", json_num (pc_v c)); ("type", JStr (pc_kind c)); ("project_id", JStr (pc_project_id c));
        ("project_pubkey", JStr (pc_project_pubkey c)); ("project_key_id", JStr (pc_project_key_id c));
        ("user_key_id", JStr (pc_user_key_id c)); ("user_pubkey", JStr (pc_user_pubkey c));
        ("serial", json_num (pc_serial c)); ("issued_at", JStr (pc_issued_at c));
        ("expires_at", json_opt_str (pc_expires_at c)); ("sig", JStr (pc_sig c))].

Definition str_at (k : string) (j : Json) : option string := json_get k j ≫= json_as_str.
Definition num_at (k : string) (j : Json) : option N := json_get k j ≫= json_as_u64.

Definition from_value (j : Json) : option ProjectCert :=
  v ← num_at "v" j; kind ← str_at "type" j; id ← str_at "project_id" j; pk ← str_at "project_pubkey" j;
  kid ← str_at "project_key_id" j; uid ← str_at "user_key_id" j; upk ← str_at "user_pubkey" j;
  serial ← num_at "serial" j; at_ ← str_at "issued_at" j; sig ← str_at "sig" j;
  Some (mkProjectCert v kind id pk kid uid upk serial at_ (str_at "expires_at" j) sig).

#[export] Instance ienv : IdentityEnv := {| cert_from_value := from_value; cert_to_value := to_value |}.

Lemma ienv_laws : @IdentityEnvLaws ienv.
Proof.
  split. intros [v kind id pk kid uid upk serial at_ ex sig] Hv Hs. cbn [pc_v pc_serial] in *.
  unfold cert_from_value, cert_to_value, ienv, from_value, num_at, to_value, json_num. cbn -[Z.of_N Z.ltb Z.leb].
  unfold u32_mod, u64_mod in *.
  assert (forall n, n < 18446744073709551616 -> (0 <=? Z.of_N n)%Z && (Z.of_N n <? 18446744073709551616)%Z = true) as Hn by lia.
  rewrite !Hn by lia. cbn -[Z.of_N]. rewrite !N2Z.id. by destruct ex.
Qed.

Definition hash (b : bytes) : bytes := ToyCanon.digest b.
Definition vec (j : Json) : bytes := [].
Definition err (e : CertError) : string := "".

Definition pid : string := "01JB8Z3Q0V6X9KQ4M2N7T5R1WD".
Definition user : byte := x07.
Definition pub : bytes := replicate 32 user.
Definition nonce : DaemonNonce := mkNonce pid (hex_string (replicate 16 x02)).
Definition root : bytes := [x2f].
Definition manifests : gmap string Manifest := {[ pid := mkManifest "demo" root 1 ]}.

(** The project key [k] proves that it holds the secret. *)
Definition pop (op : PopOp) (k : byte) : bytes :=
  match pop_sign (k : @SigningKey ed) op (key_id pub) (dn_nonce nonce) pid with Ok s => s | Err _ => [] end.

Definition request (k : byte) : RegisterRequest :=
  mkRegister pid (replicate 32 k) (root_sha256 root) 1 "exe" nonce (pop PopRegister k).

Definition io (t : Z) (file : result unit string) : Io := mkIo t t None (Ok tt) false file.
Definition good_io (t : Z) : Io := io t (Ok tt).
Definition bad_io (t : Z) : Io := io t (Err "disk full").

Abbreviation step := (identity_step hash vec err).
Abbreviation reg d t k := (register hash vec err d (good_io t) (request k) t).
Abbreviation rek d o t k := (rekey hash vec err d o pid (replicate 32 k) nonce (pop PopRekey k) "lost" t).

Definition w0 : World := first_daemon hash vec 1 0 5 5 user manifests.
Definition w1 : World := mkWorld (reg (iw_env w0) 10 x03).1 (iw_saved w0).
Definition w2 : World := mkWorld (rek (iw_env w1) (bad_io 20) 20 x04).1 (iw_saved w1).
Definition w3 : World := mkWorld (revoke hash vec (iw_env w2) (good_io 30) pid "stolen").1 (iw_saved w2).
Definition w4 : World := mkWorld (set_state (iw_env w3) (iw_saved w3) (ud_journal (iw_env w3)) (ud_files (iw_env w3))) (iw_saved w3).

Example registered : (reg (iw_env w0) 10 x03).2 = Ok (List.nth 0 (snd <$> map_to_list (ud_files (iw_env w1))) (cert_sign user ToyCanon.request), true).
Proof. vm_compute. reflexivity. Qed.

Example rekeyed_incomplete : exists m, (rek (iw_env w1) (bad_io 20) 20 x04).2 = Err (Incomplete m).
Proof. eexists. vm_compute. reflexivity. Qed.

Example refused_after_revocation :
  (reg (iw_env w4) 40 x05).2 = Err (Ident (ProjectRevoked pid)) /\
  (reg (iw_env w4) 40 x03).2 = Err (Ident (KeyRevoked pid (key_id (replicate 32 x03)))).
Proof. split; vm_compute; reflexivity. Qed.

(** New signatures, decided *)
Definition fresh (j : list JournalRecord) (cl : list Claim) : bool :=
  forallb (fun r => match r with
                    | JRegister c | JRekey _ c =>
                        forallb (fun a => match a with
                                          | CCert c' => negb (String.eqb (pc_sig c') (pc_sig c)) || bool_decide (c' = c)
                                          | _ => true
                                          end) cl
                    | _ => true
                    end) j.

Lemma fresh_sound j cl r c c' :
  fresh j cl = true -> r ∈ j -> (r = JRegister c \/ exists old, r = JRekey old c) -> CCert c' ∈ cl ->
  pc_sig c' = pc_sig c -> c' = c.
Proof.
  unfold fresh. rewrite forallb_forall. intros Hf Hr%list_elem_of_In Hc Hc'%list_elem_of_In Hs. specialize (Hf r Hr).
  assert (forallb (fun a => match a with
    | CCert c' => negb (String.eqb (pc_sig c') (pc_sig c)) || bool_decide (c' = c) | _ => true end) cl = true) as Hg
    by (destruct Hc as [->|[old ->]]; exact Hf).
  rewrite forallb_forall in Hg. specialize (Hg _ Hc'). cbn in Hg. rewrite Hs, String.eqb_refl in Hg. cbn in Hg.
  by apply bool_decide_eq_true in Hg.
Qed.

Definition unique (cl : list Claim) : bool :=
  forallb (fun a => match a with CCert c => fresh [JRegister c] cl | _ => true end) cl.

Lemma unique_sound cl :
  unique cl = true -> forall c1 c2, CCert c1 ∈ cl -> CCert c2 ∈ cl -> pc_sig c1 = pc_sig c2 -> c1 = c2.
Proof.
  unfold unique. rewrite forallb_forall. intros Hu c1 c2 H1 H2%list_elem_of_In Hs. specialize (Hu _ H2). cbn beta iota in Hu.
  refine (fresh_sound _ _ (JRegister c2) c2 c1 Hu _ (or_introl eq_refl) H1 Hs). set_solver.
Qed.

Lemma step01 : step w0 w1.
Proof.
  refine (step_register hash vec err w0 (good_io 10) (request x03) 10 _ _ _ _ _ _ _).
  - vm_compute. reflexivity.
  - split; vm_compute; congruence.
  - reflexivity.
  - apply surjective_pairing.
  - intros c c' Hc. refine (fresh_sound _ _ _ c c' _ Hc (or_introl eq_refl)). vm_compute. reflexivity.
Qed.

Lemma fresh12 : forall old c c', JRekey old c ∈ ud_journal (iw_env w2) -> CCert c' ∈ J w1 -> pc_sig c' = pc_sig c -> c' = c.
Proof.
  intros old c c' Hc. refine (fresh_sound _ _ _ c c' _ Hc (or_intror (ex_intro _ old eq_refl))). vm_compute. reflexivity.
Qed.

Lemma step12 : step w1 w2.
Proof.
  refine (step_rekey hash vec err w1 (bad_io 20) pid (replicate 32 x04) nonce (pop PopRekey x04) "lost" 20 _ _ _ _ _ _ fresh12).
  - vm_compute. reflexivity.
  - split; vm_compute; congruence.
  - reflexivity.
  - apply surjective_pairing.
Qed.

Lemma run01 : rtc step w0 w1.
Proof. apply rtc_once, step01. Qed.

Lemma run02 : rtc step w0 w2.
Proof. eapply rtc_r; [apply run01|apply step12]. Qed.

Lemma run34 : rtc step w3 w4.
Proof. apply rtc_once. exact (step_crash hash vec err w3). Qed.

(** The view of a world *)
Definition view (d : CertEnv) : RevocationView :=
  match current_view d with Ok v => v | Err _ => build pub [] [] [] end.

End ToyIdentity.

#[local] Existing Instance ToyIdentity.ed.
#[local] Existing Instance ToyIdentity.env.
#[local] Existing Instance ToyIdentity.ienv.

Lemma project_keys_exclusive_witness :
  exists v, current_view (iw_env ToyIdentity.w2) = Ok v /\
    bound_key_id v ToyIdentity.pid = Some (key_id (replicate 32 x04)) /\
    forall id', bound_key_id v id' = Some (key_id (replicate 32 x04)) -> ToyIdentity.pid = id'.
Proof.
  destruct (@project_keys_exclusive ToyIdentity.ed ToyIdentity.env ToyIdentity.ienv ToyIdentity.hash ToyIdentity.vec
    ToyIdentity.err ToyCanon.env_laws ToyCanon.ed_laws ToyIdentity.ienv_laws 1 0 5 5 ToyIdentity.user
    ToyIdentity.manifests ToyIdentity.w2 ToyIdentity.run02) as (v & Hv & He & _).
  exists v. split; [exact Hv|]. assert (v = ToyIdentity.view (iw_env ToyIdentity.w2)) as E
    by (unfold ToyIdentity.view; rewrite Hv; reflexivity).
  assert (bound_key_id v ToyIdentity.pid = Some (key_id (replicate 32 x04))) as Hb by (rewrite E; vm_compute; reflexivity).
  split; [exact Hb|]. intros id' Hb'. exact (He _ _ _ Hb Hb').
Defined.

Lemma revoke_is_terminal_witness :
  current_cert (ToyIdentity.view (iw_env ToyIdentity.w4)) ToyIdentity.pid = None /\
  (exists e, plan_registration (ToyIdentity.view (iw_env ToyIdentity.w4)) ToyIdentity.pid (replicate 32 x05) = Err e) /\
  plan_rekey (ToyIdentity.view (iw_env ToyIdentity.w4)) ToyIdentity.pid (replicate 32 x05) = Err (NotBound ToyIdentity.pid).
Proof.
  refine (@revoke_is_terminal ToyIdentity.ed ToyIdentity.env ToyIdentity.ienv ToyIdentity.hash ToyIdentity.vec
    ToyIdentity.err ToyCanon.env_laws ToyCanon.ed_laws ToyIdentity.ienv_laws 1 0 5 5 ToyIdentity.user ToyIdentity.manifests
    ToyIdentity.w2 (ToyIdentity.good_io 30) ToyIdentity.pid "stolen" (iw_env ToyIdentity.w3) _ ToyIdentity.w4 _
    (replicate 32 x05) ToyIdentity.run02 _ _ _ ToyIdentity.run34 _).
  - vm_compute. reflexivity.
  - apply surjective_pairing.
  - left. eexists. vm_compute. reflexivity.
  - vm_compute. reflexivity.
Defined.

Lemma revoked_key_never_returns_witness :
  is_revoked (ToyIdentity.view (iw_env ToyIdentity.w4)) ToyIdentity.pid (key_id (replicate 32 x04)) = true /\
  bound_key_id (ToyIdentity.view (iw_env ToyIdentity.w4)) ToyIdentity.pid <> Some (key_id (replicate 32 x04)) /\
  exists e, plan_registration (ToyIdentity.view (iw_env ToyIdentity.w4)) ToyIdentity.pid (replicate 32 x04) = Err e.
Proof.
  destruct (@revoked_key_never_returns ToyIdentity.ed ToyIdentity.env ToyIdentity.ienv ToyIdentity.hash ToyIdentity.vec
    ToyIdentity.err ToyCanon.env_laws ToyCanon.ed_laws ToyIdentity.ienv_laws 1 0 5 5 ToyIdentity.user ToyIdentity.manifests
    ToyIdentity.w2 (ToyIdentity.good_io 30) ToyIdentity.pid "stolen" (iw_env ToyIdentity.w3) _ ToyIdentity.run02
    ltac:(vm_compute; reflexivity) (surjective_pairing _)
    ltac:(left; eexists; vm_compute; reflexivity)) as (v0 & old & _ & _ & Hold & _ & Hlater).
  assert (old = key_id (replicate 32 x04)) as ->
    by (symmetry; apply Hold; vm_compute; reflexivity).
  destruct (Hlater ToyIdentity.w4 ToyIdentity.run34) as (v & Hv & Hr & Hk).
  assert (v = ToyIdentity.view (iw_env ToyIdentity.w4)) as <-
    by (unfold ToyIdentity.view; rewrite Hv; reflexivity).
  destruct (Hk ToyIdentity.pid (replicate 32 x04) eq_refl) as (Hb & Hp & _).
  split; [exact Hr|]. split; [exact Hb | exact Hp].
Defined.

Lemma rekey_takes_effect_witness :
  bound_key_id (ToyIdentity.view (set_state (iw_env ToyIdentity.w2) (iw_saved ToyIdentity.w1)
    (ud_journal (iw_env ToyIdentity.w2)) (ud_files (iw_env ToyIdentity.w2)))) ToyIdentity.pid = Some (key_id (replicate 32 x04)).
Proof.
  refine (proj1 (@rekey_takes_effect ToyIdentity.ed ToyIdentity.env ToyIdentity.ienv ToyIdentity.hash ToyIdentity.vec
    ToyIdentity.err ToyCanon.env_laws ToyCanon.ed_laws ToyIdentity.ienv_laws 1 0 5 5 ToyIdentity.user ToyIdentity.manifests
    ToyIdentity.w1 (ToyIdentity.bad_io 20) ToyIdentity.pid (replicate 32 x04) ToyIdentity.nonce
    (ToyIdentity.pop PopRekey x04) "lost" 20 (iw_env ToyIdentity.w2) _ true _
    ToyIdentity.run01 _ _ _ _ ToyIdentity.fresh12 _ _)).
  - vm_compute. reflexivity.
  - split; vm_compute; congruence.
  - reflexivity.
  - apply surjective_pairing.
  - right. eexists. vm_compute. reflexivity.
  - vm_compute. reflexivity.
Defined.

(** A certificate the journal revokes, with its file put back *)
Lemma revoked_key_stays_out_witness :
  bound_key_id (build_with (history_single ToyIdentity.pub) (tail_from (ud_chain (iw_env ToyIdentity.w3)) 0)
    (ud_journal (iw_env ToyIdentity.w3)) (map_to_list (ud_files (iw_env ToyIdentity.w3))).*2) ToyIdentity.pid
  <> Some (key_id (replicate 32 x04)).
Proof.
  refine (proj1 (@revoked_key_stays_out ToyIdentity.ed ToyIdentity.env ToyIdentity.ienv (history_single ToyIdentity.pub)
    (tail_from (ud_chain (iw_env ToyIdentity.w3)) 0) (ud_journal (iw_env ToyIdentity.w3))
    (map_to_list (ud_files (iw_env ToyIdentity.w3))).*2 ToyIdentity.pid (key_id (replicate 32 x04)) _)).
  apply (bool_decide_unpack _). vm_compute. exact I.
Defined.

Lemma export_restores_witness :
  let w := ToyIdentity.w2 in
  let v := build_with (history_single ToyIdentity.pub) [] (ud_journal (iw_env w)) [] in
  pc_serial <$> current_cert (build_with (history_single ToyIdentity.pub) [] (export_records v) []) ToyIdentity.pid =
  pc_serial <$> current_cert v ToyIdentity.pid.
Proof.
  refine (proj2 (proj2 (@export_restores ToyIdentity.ed ToyIdentity.env ToyIdentity.ienv (history_single ToyIdentity.pub)
    [] (ud_journal (iw_env ToyIdentity.w2)) [] ToyIdentity.pid _))).
  apply ToyIdentity.unique_sound. vm_compute. reflexivity.
Defined.
