(* ===== verification/Overlay.v ===== *)
(** Project governance overlays: the tighten-only merge of
    crates/clawft-types/src/config/overlay.rs (Module [Tighten]) and the
    kernel's merge of an overlay onto the parent policy,
    crates/clawft-kernel/src/governance_overlay.rs, with the parent policy's
    record of parent_policy.rs.

    The TOML parser, the [Display] of a float and the [Debug] of a string are
    the class [OverlayEnv]. *)

From Stdlib Require Import Strings.String Floats.SpecFloat.
From S2P Require Import Prelude.
From S2P Require Import Codec.
From S2P Require Import RateLimit.
From S2P Require Import Governance.
From S2P Require Import Delegation.
From S2P Require Import Canon.
Open Scope N_scope.

(** ** Data: config/overlay.rs *)

Record Limits := mkLimits {
  lim_risk_threshold : option f64;
  lim_max_processes : option N;
  lim_spawn_budget : option N;
  lim_human : option bool;
}.

Record OverlayDeny := mkDeny {
  od_id : string;
  od_actions : list string;
  od_reason : option string;
}.

Record OverlayApproval := mkApproval {
  oa_id : option string;
  oa_actions : list string;
  oa_reason : option string;
}.

(** [of_extra] holds the keys of the map of unknown top-level members, in
    order; their values are never read. *)
Record OverlayFile := mkOverlayFile {
  of_schema : N;
  of_deny : list OverlayDeny;
  of_require_approval : list OverlayApproval;
  of_limits : Limits;
  of_extra : list string;
}.

Record ParentView := mkView {
  pv_rule_ids : list string;
  pv_deny_actions : list string;
  pv_approval_actions : list string;
  pv_limits : Limits;
}.

Record EffectiveOverlay := mkEffOverlay {
  eo_deny_actions : list string;
  eo_approval_actions : list string;
  eo_deny_rules : list OverlayDeny;
  eo_approval_rules : list OverlayApproval;
  eo_limits : Limits;
}.

Definition OVERLAY_SCHEMA : N := 1.
Definition no_limits : Limits := mkLimits None None None None.
Definition default_file : OverlayFile := mkOverlayFile OVERLAY_SCHEMA [] [] no_limits [].

Class OverlayEnv := {
  f64_to_string : f64 -> string;
  dbg_str : string -> string;
  toml_from_str : string -> result OverlayFile string;
}.

(** [str::to_ascii_lowercase] *)
Fixpoint to_ascii_lowercase (s : string) : string :=
  match s with
  | EmptyString => EmptyString
  | String a s => String (ascii_lower a) (to_ascii_lowercase s)
  end.

(** [format!("{key}[{i}]")] *)
Definition indexed (key : string) (i : nat) : string := key +:+ "[" +:+ pretty (N.of_nat i) +:+ "]".

(** [(r.is_finite() && (0.0..=1.0).contains(&r))] *)
Definition unit_interval (r : f64) : bool :=
  F64.is_finite r && (F64.leb (F64.of_Z 0) r && F64.leb r (F64.of_Z 1)).

Module Tighten.

Inductive OverlayError :=
| Parse (msg : string)
| Schema (n : N)
| Forbidden (k : string)
| UnknownKey (k : string)
| MalformedId (key id : string)
| DuplicateId (key id : string)
| ShadowsParent (key id : string)
| EmptyActions (key : string)
| MalformedGlob (key pattern : string)
| InvalidLimit (key : string)
| Relaxes (key parent overlay : string).

(** [valid_glob] *)
Definition valid_glob (pattern : string) : bool :=
  let body := default pattern (strip_suffix_char "*" pattern) in
  negb (String.eqb pattern "") && negb (contains "*" body)
  && negb (existsb (fun w => contains w pattern) whitespace).

(** [glob_matches] *)
Definition glob_matches (pattern action : string) : bool :=
  match strip_suffix_char "*" pattern with
  | Some prefix => starts_with prefix action
  | None => String.eqb pattern action
  end.

Definition id_char (c : byte) : bool :=
  let n := Byte.to_N c in
  ((48 <=? n) && (n <=? 57)) || ((65 <=? n) && (n <=? 90)) || ((97 <=? n) && (n <=? 122))
  || bool_decide (c ∈ str_bytes "._-:").

(** [check_id] *)
Definition check_id (key id : string) : result string OverlayError :=
  if negb (String.eqb id "") && String.eqb id (trim id) && forallb id_char (str_bytes id)
  then Ok (to_ascii_lowercase id) else Err (MalformedId key id).

(** [check_actions] *)
Fixpoint check_globs (key : string) (i : nat) (actions : list string) : result unit OverlayError :=
  match actions with
  | [] => Ok tt
  | a :: actions =>
      if negb (valid_glob a) then Err (MalformedGlob (indexed key i) a)
      else check_globs key (S i) actions
  end.

Definition check_actions (key : string) (actions : list string) : result unit OverlayError :=
  if bool_decide (actions = []) then Err (EmptyActions key) else check_globs key 0 actions.

(** [tighten_rule_id]: the set of ids seen so far is the mutable argument *)
Definition tighten_rule_id (key id : string) (parent seen : gset string)
  : result (gset string) OverlayError :=
  let? norm := check_id (key +:+ ".id") id in
  if bool_decide (norm ∈ parent) then Err (ShadowsParent (key +:+ ".id") id)
  else if bool_decide (norm ∈ seen) then Err (DuplicateId (key +:+ ".id") id)
  else Ok ({[norm]} ∪ seen).

(** [tighten_num], for the order and the [Display] of the type *)
Definition tighten_num {T} (gt : T -> T -> bool) (show : T -> string) (key : string)
  (parent overlay : option T) : result (option T) OverlayError :=
  match parent, overlay with
  | Some p, Some o => if gt o p then Err (Relaxes key (show p) (show o)) else Ok (Some o)
  | None, Some o => Ok (Some o)
  | p, None => Ok p
  end.

Definition f64_gt (a b : f64) : bool := F64.ltb b a.
Definition u64_gt (a b : N) : bool := b <? a.

Section Merge.
Context `{OverlayEnv}.

(** [merge_limits] *)
Definition merge_limits (parent o : Limits) : result Limits OverlayError :=
  let? _ := match lim_risk_threshold o with
            | Some r => throw_if (negb (unit_interval r)) (InvalidLimit "limits.risk_threshold")
            | None => Ok tt
            end in
  let? human := match lim_human parent, lim_human o with
                | Some true, Some false =>
                    Err (Relaxes "limits.human_approval_required" "true" "false")
                | None, None => Ok None
                | p, q => Ok (Some (default false p || default false q))
                end in
  let? risk := tighten_num f64_gt f64_to_string "limits.risk_threshold"
                 (lim_risk_threshold parent) (lim_risk_threshold o) in
  let? procs := tighten_num u64_gt pretty "limits.max_processes"
                  (lim_max_processes parent) (lim_max_processes o) in
  let? spawn := tighten_num u64_gt pretty "limits.spawn_budget"
                  (lim_spawn_budget parent) (lim_spawn_budget o) in
  Ok (mkLimits risk procs spawn human).

(** [union]: through a [BTreeSet] *)
Definition union_globs (a b : list string) : list string := sort_keys (remove_dups (a ++ b)).

Fixpoint check_deny (i : nat) (l : list OverlayDeny) (parent seen : gset string)
  : result (gset string) OverlayError :=
  match l with
  | [] => Ok seen
  | d :: l =>
      let key := indexed "deny" i in
      let? seen := tighten_rule_id key (od_id d) parent seen in
      let? _ := check_actions (key +:+ ".actions") (od_actions d) in
      check_deny (S i) l parent seen
  end.

Fixpoint check_approval (i : nat) (l : list OverlayApproval) (parent seen : gset string)
  : result (gset string) OverlayError :=
  match l with
  | [] => Ok seen
  | a :: l =>
      let key := indexed "require_approval" i in
      let? seen := match oa_id a with
                   | Some id => tighten_rule_id key id parent seen
                   | None => Ok seen
                   end in
      let? _ := check_actions (key +:+ ".actions") (oa_actions a) in
      check_approval (S i) l parent seen
  end.

(** The normalised ids of the parent's rules *)
Definition norm_ids (ids : list string) : gset string :=
  list_to_set ((fun i => to_ascii_lowercase (trim i)) <$> ids).

(** [merge] *)
Definition merge (parent : ParentView) (overlay : OverlayFile)
  : result EffectiveOverlay OverlayError :=
  let? _ := throw_if (negb (of_schema overlay =? OVERLAY_SCHEMA)) (Schema (of_schema overlay)) in
  let? _ := match of_extra overlay with
            | key :: _ => Err (if String.eqb key "permit" || String.eqb key "deactivate"
                               then Forbidden key else UnknownKey key)
            | [] => Ok tt
            end in
  let? _ := match lim_risk_threshold (pv_limits parent) with
            | Some r => throw_if (negb (unit_interval r))
                          (InvalidLimit "parent.limits.risk_threshold")
            | None => Ok tt
            end in
  let parent_ids := norm_ids (pv_rule_ids parent) in
  let? seen := check_deny 0 (of_deny overlay) parent_ids ∅ in
  let? _ := check_approval 0 (of_require_approval overlay) parent_ids seen in
  let? limits := merge_limits (pv_limits parent) (of_limits overlay) in
  Ok (mkEffOverlay
        (union_globs (pv_deny_actions parent) (of_deny overlay ≫= od_actions))
        (union_globs (pv_approval_actions parent) (of_require_approval overlay ≫= oa_actions))
        (of_deny overlay) (of_require_approval overlay) limits).

(** [Display] *)
Definition to_string (e : OverlayError) : string :=
  match e with
  | Parse m => "overlay does not parse: " +:+ m
  | Schema n => "overlay `schema` is " +:+ pretty n +:+ ", expected " +:+ pretty OVERLAY_SCHEMA
  | Forbidden k => "overlay key `" +:+ k +:+ "` is not allowed: an overlay can only tighten"
  | UnknownKey k => "overlay has unknown key `" +:+ k +:+ "`"
  | MalformedId key id => "`" +:+ key +:+ "`: malformed rule id " +:+ dbg_str id
  | DuplicateId key id => "`" +:+ key +:+ "`: duplicate rule id " +:+ dbg_str id
  | ShadowsParent key id => "`" +:+ key +:+ "`: rule id " +:+ dbg_str id +:+ " shadows a parent rule"
  | EmptyActions key => "`" +:+ key +:+ "`: no actions"
  | MalformedGlob key p => "`" +:+ key +:+ "`: malformed action glob " +:+ dbg_str p
  | InvalidLimit key => "`" +:+ key +:+ "`: invalid value"
  | Relaxes key p o =>
      "`" +:+ key +:+ "`: " +:+ o +:+ " relaxes the parent value " +:+ p +:+ "; set it to " +:+ p
      +:+ " or lower in overlay.toml"
  end.

End Merge.

End Tighten.

(** ** The parent policy: parent_policy.rs *)

Record ParentPolicy := mkPolicy {
  pp_schema : N;
  pp_user_key_id : string;
  pp_version : N;
  pp_issued_at : string;
  pp_rules : list GovernanceRule;
  pp_limits : Limits;
  pp_rule_hash : string;
  pp_sig : string;
}.

Definition PARENT_SCHEMA : N := 1.

Inductive ParentPolicyError :=
| PSchema (n : N)
| PUserKey
| PIssuedAt
| PRuleId (i : nat)
| PLimit (k : string)
| PRuleHash
| PSigFormat
| PBadSignature
| PFile (msg : string)
| PRollback (have pinned : N).

(** [ParentPolicyError::key] and its [Display] *)
Definition policy_error_key (e : ParentPolicyError) : string :=
  match e with
  | PSchema _ => "parent-policy.schema"
  | PUserKey => "parent-policy.user_key_id"
  | PIssuedAt => "parent-policy.issued_at"
  | PRuleId i => indexed "parent-policy.rules" i +:+ ".id"
  | PLimit k => "parent-policy.limits." +:+ k
  | PRuleHash => "parent-policy.rule_hash"
  | PSigFormat | PBadSignature => "parent-policy.sig"
  | PFile _ => "parent-policy.json"
  | PRollback _ _ => "parent-policy.version"
  end.

Definition policy_error_to_string (e : ParentPolicyError) : string :=
  match e with
  | PSchema n => "`schema` is " +:+ pretty n +:+ ", expected " +:+ pretty PARENT_SCHEMA
  | PUserKey => "`user_key_id` does not match the trusted user key"
  | PIssuedAt => "`issued_at` is not a canonical UTC timestamp"
  | PRuleId i => "`" +:+ indexed "rules" i +:+ ".id` is malformed"
  | PLimit k => "`limits." +:+ k +:+ "` is invalid"
  | PRuleHash => "`rule_hash` does not match the rules and limits"
  | PSigFormat => "`sig` is malformed"
  | PBadSignature => "`sig` does not verify"
  | PFile m => m
  | PRollback have pinned =>
      "`version` " +:+ pretty have +:+ " is older than the accepted version " +:+ pretty pinned
  end.

(** ** Errors: governance_overlay.rs *)

Definition MAX_FILE_BYTES : N := 1048576.
Definition VERSION_PIN_FILE : string := "parent-policy.version".

Inductive OverlayError :=
| Io (path reason : string)
| TooLarge (path : string) (bytes : N)
| Overlay_ (e : Tighten.OverlayError)
| Parent (e : ParentPolicyError)
| IdCollision (key id : string)
| NotAChild
| Cert (msg : string)
| ApprovalOverlapsDeny (key glob parent_glob : string)
| OverlayMissing
| PinCorrupt (path reason : string)
| PinMissing
| Revoked (path : string).

(** [OverlayError::key] *)
Definition overlay_error_key (e : OverlayError) : string :=
  match e with
  | Io path _ | TooLarge path _ => path
  | Overlay_ e =>
      match e with
      | Tighten.Parse _ => "overlay.toml"
      | Tighten.Schema _ => "schema"
      | Tighten.Forbidden k | Tighten.UnknownKey k => k
      | Tighten.MalformedId key _ | Tighten.DuplicateId key _ | Tighten.ShadowsParent key _
      | Tighten.EmptyActions key | Tighten.MalformedGlob key _ | Tighten.InvalidLimit key
      | Tighten.Relaxes key _ _ => key
      end
  | Parent e => policy_error_key e
  | IdCollision key _ => key
  | NotAChild => "kernel.profile"
  | Cert _ => "project.cert.json"
  | ApprovalOverlapsDeny key _ _ => key
  | OverlayMissing => "overlay.toml"
  | PinCorrupt path _ => path
  | PinMissing => "state/" +:+ VERSION_PIN_FILE
  | Revoked _ => "revoked"
  end.

Section Errors.
Context `{OverlayEnv}.

(** [Display] *)
Definition overlay_error_to_string (e : OverlayError) : string :=
  match e with
  | Io path reason | PinCorrupt path reason => path +:+ ": " +:+ reason
  | TooLarge path n =>
      path +:+ ": " +:+ pretty n +:+ " bytes is over the " +:+ pretty MAX_FILE_BYTES +:+ " byte limit"
  | Overlay_ e => Tighten.to_string e
  | Parent e => "parent policy: " +:+ policy_error_to_string e
  | IdCollision key id =>
      "`" +:+ key +:+ "`: rule id " +:+ dbg_str id +:+ " collides with another rule"
  | NotAChild => "profile `project` needs a child runtime root (RootSource::Child)"
  | Cert m => "project certificate: " +:+ m
  | ApprovalOverlapsDeny key glob parent_glob =>
      "`" +:+ key +:+ "`: approval glob " +:+ dbg_str glob +:+ " overlaps the parent deny "
      +:+ dbg_str parent_glob
  | OverlayMissing =>
      "overlay.toml is missing but a non-empty overlay was applied; write an empty file to clear it"
  | PinMissing => "rollback pin is missing although the chain records an applied governance overlay"
  | Revoked m => "project revoked (" +:+ m +:+ ")"
  end.

(** [OverlayError::boot_message] *)
Definition boot_message (e : OverlayError) : string :=
  "governance overlay refused at `" +:+ overlay_error_key e +:+ "`: " +:+ overlay_error_to_string e
  +:+ "; fix it and start again (a project never starts with fewer rules than its parent)".

End Errors.

(** ** Hashes *)

(** [f64::to_bits]: sign, biased exponent, mantissa; a NaN is the quiet one. *)
Definition f64_bits (f : f64) : N :=
  let sign (s : bool) : N := if s then 9223372036854775808 else 0 in
  match f with
  | S754_zero s => sign s
  | S754_infinity s => sign s + 9218868437227405312
  | S754_nan => 9221120237041090560
  | S754_finite s m e =>
      if Npos m <? 4503599627370496 then sign s + Npos m
      else sign s + Z.to_N (e + 1075) * 4503599627370496 + (Npos m - 4503599627370496)
  end.

Definition OVERLAY_HASH_DOMAIN : string := "weftos-overlay-v1" +:+ nl.
Definition EFFECTIVE_HASH_DOMAIN : string := "weftos-effective-rules-v1" +:+ nl.
Definition PARENT_RULES_DOMAIN : string := "weftos-parent-rules-v1" +:+ nl.

(** [json!] of an [Option<bool>] *)
Definition json_opt_bool (o : option bool) : Json :=
  match o with Some b => JBool b | None => JNull end.

(** [limits_value] *)
Definition limits_value (l : Limits) : Json :=
  JObj [("risk_threshold_bits",
         json_opt_str ((fun r => hex_string (be_bytes 8 (f64_bits r))) <$> lim_risk_threshold l));
        ("max_processes", json_opt_num (lim_max_processes l));
        ("spawn_budget", json_opt_num (lim_spawn_budget l));
        ("human_approval_required", json_opt_bool (lim_human l))].

(** [norm_id] *)
Definition norm_id (id : string) : string := to_ascii_lowercase (trim id).

(** [serde_json::to_value] of a rule: the derived serialisation, absent
    options skipped *)
Definition branch_name (b : GovernanceBranch) : string :=
  match b with Legislative => "Legislative" | Executive => "Executive" | Judicial => "Judicial" end.
Definition severity_name (s : RuleSeverity) : string :=
  match s with
  | Advisory => "Advisory" | Warning => "Warning" | Blocking => "Blocking" | Critical => "Critical"
  end.
Definition rule_type_name (t : GovernanceRuleType) : string :=
  match t with
  | General => "general" | BrowserPolicy => "browser_policy" | BindingThread => "binding_thread"
  end.

Definition rule_value (r : GovernanceRule) : Json :=
  let opt (k : string) (o : option string) :=
    match o with Some v => [(k, JStr v)] | None => [] end in
  JObj ([("id", JStr (rule_id r)); ("description", JStr (description r));
         ("branch", JStr (branch_name (branch r))); ("severity", JStr (severity_name (severity r)));
         ("active", JBool (active r))]
        ++ opt "reference_url" (reference_url r) ++ opt "sop_category" (sop_category r)
        ++ [("rule_type", JStr (rule_type_name (rule_type r)))]
        ++ opt "action_selector" (action_selector r) ++ opt "tool_selector" (tool_selector r)
        ++ [("force_on_match", JBool (force_on_match r))]).

(** The order of [sort_by] on the pairs of normalised id and rendering *)
Definition keyed_le (a b : string * string * Json) : Prop :=
  Is_true (if String.eqb a.1.1 b.1.1 then str_leb a.1.2 b.1.2 else str_leb a.1.1 b.1.1).

#[global] Instance keyed_le_dec : RelDecision keyed_le.
Proof. intros a b. unfold keyed_le. apply _. Defined.

Section Hashes.
Context `{CanonEnv}.

(** [sorted_rule_values] *)
Definition keyed (r : GovernanceRule) : string * string * Json :=
  (norm_id (rule_id r), canonical_json (rule_value r), rule_value r).

Definition sorted_rule_values (rules : list GovernanceRule) : list Json :=
  (merge_sort keyed_le (keyed <$> rules)).*2.

(** [sha256_domain] *)
Definition sha256_domain (domain : string) (body : Json) : bytes :=
  sha256 (str_bytes domain ++ str_bytes (canonical_json body)).

(** [sort_by_key(canonical_json)] *)
Definition canon_le (a b : string * Json) : Prop := Is_true (str_leb a.1 b.1).

#[global] Instance canon_le_dec : RelDecision canon_le.
Proof using. intros a b. unfold canon_le. apply _. Defined.

Definition sort_by_canon (l : list Json) : list Json :=
  (merge_sort canon_le ((fun v => (canonical_json v, v)) <$> l)).*2.

(** The two [json!] entries of [overlay_hash] *)
Definition deny_value (d : OverlayDeny) : Json :=
  JObj [("id", JStr (norm_id (od_id d))); ("actions", JArr (JStr <$> sort_keys (od_actions d)));
        ("reason", json_opt_str (od_reason d))].

Definition approval_value (a : OverlayApproval) : Json :=
  JObj [("id", json_opt_str (norm_id <$> oa_id a)); ("actions", JArr (JStr <$> sort_keys (oa_actions a)));
        ("reason", json_opt_str (oa_reason a))].

(** [overlay_hash] *)
Definition overlay_hash (f : OverlayFile) : bytes :=
  sha256_domain OVERLAY_HASH_DOMAIN
    (JObj [("schema", json_num (of_schema f));
           ("deny", JArr (sort_by_canon (deny_value <$> of_deny f)));
           ("require_approval", JArr (sort_by_canon (approval_value <$> of_require_approval f)));
           ("limits", limits_value (of_limits f))]).

(** [parent_rules_hash] *)
Definition parent_rules_hash (rules : list GovernanceRule) (limits : Limits) : bytes :=
  sha256_domain PARENT_RULES_DOMAIN
    (JObj [("rules", JArr (sorted_rule_values rules)); ("limits", limits_value limits)]).

End Hashes.

(** ** The merge of governance_overlay.rs *)

Record Overlay := mkOverlay {
  ov_file : OverlayFile;
  ov_hash : bytes;
}.

Record Effective := mkEffective {
  ef_rules : list GovernanceRule;
  ef_limits : Limits;
  ef_deny_actions : list string;
  ef_approval_actions : list string;
  ef_parent_hash : bytes;
  ef_overlay_hash : bytes;
  ef_hash : bytes;
  ef_parent_version : N;
}.

(** [Effective::risk_threshold], [Effective::human_approval] *)
Definition eff_threshold (e : Effective) (d : f64) : f64 := default d (lim_risk_threshold (ef_limits e)).
Definition eff_human (e : Effective) (d : bool) : bool := default d (lim_human (ef_limits e)).

(** overlay_runtime.rs *)
Definition DEFAULT_RISK_THRESHOLD : f64 := F64.lit 7 1.

(** [selector_rule], [expand] *)
Definition selector_rule (id glob reason : string) (sev : RuleSeverity) (tag : string) : GovernanceRule :=
  mkRule id reason Judicial sev true None (Some tag) General (Some glob) None true.

Definition expand (base : string) (actions : list string) (reason tag : string) : list GovernanceRule :=
  imap (fun n glob =>
    selector_rule (if (length actions =? 1)%nat then base else indexed base n) glob reason Blocking tag)
    actions.

(** The closure [selector] of [parent_view], and [parent_view] *)
Definition forced_selector (r : GovernanceRule) : bool :=
  active r && is_blocking (severity r) && force_on_match r
  && bool_decide (rule_type r = General) && bool_decide (tool_selector r = None).

Definition selectors_tagged (approval : bool) (rules : list GovernanceRule) : list string :=
  omap (fun r => if forced_selector r && eqb (tagged OVERLAY_APPROVAL_TAG r) approval
                 then action_selector r else None) rules.

Definition parent_view (p : ParentPolicy) : ParentView :=
  mkView (rule_id <$> pp_rules p) (selectors_tagged false (pp_rules p))
    (selectors_tagged true (pp_rules p)) (pp_limits p).

(** [globs_overlap] *)
Definition globs_overlap (a b : string) : bool :=
  match strip_suffix_char "*" a, strip_suffix_char "*" b with
  | Some pa, Some pb => starts_with pb pa || starts_with pa pb
  | Some pa, None => starts_with pa b
  | None, Some pb => starts_with pb a
  | None, None => String.eqb a b
  end.

(** The first overlap of an approval glob with a glob the parent denies *)
Fixpoint overlap_in (i j : nat) (globs deny : list string) : result unit OverlayError :=
  match globs with
  | [] => Ok tt
  | g :: globs =>
      match List.find (globs_overlap g) deny with
      | Some pg =>
          Err (ApprovalOverlapsDeny (indexed "require_approval" i +:+ indexed ".actions" j) g pg)
      | None => overlap_in i (S j) globs deny
      end
  end.

Fixpoint check_overlaps (i : nat) (l : list OverlayApproval) (deny : list string)
  : result unit OverlayError :=
  match l with
  | [] => Ok tt
  | a :: l =>
      let? _ := overlap_in i 0 (oa_actions a) deny in
      check_overlaps (S i) l deny
  end.

Definition set_category (c : option string) (r : GovernanceRule) : GovernanceRule :=
  mkRule (rule_id r) (description r) (branch r) (severity r) (active r) (reference_url r) c
    (rule_type r) (action_selector r) (tool_selector r) (force_on_match r).

(** The parent's blocking rules become hard denials. *)
Definition harden (r : GovernanceRule) : GovernanceRule :=
  if is_blocking (severity r) && negb (tagged OVERLAY_APPROVAL_TAG r)
  then set_category (Some OVERLAY_DENY_TAG) r else r.

Definition raises_human (parent effective : Limits) : bool :=
  bool_decide (lim_human effective = Some true) && negb (bool_decide (lim_human parent = Some true)).

(** The rules the overlay adds *)
Definition deny_added (d : OverlayDeny) : list GovernanceRule :=
  expand (od_id d) (od_actions d) (default "denied by the project overlay" (od_reason d))
    OVERLAY_DENY_TAG.

Definition approval_added (i : nat) (a : OverlayApproval) : list GovernanceRule :=
  expand (default (indexed "overlay.approval" i) (oa_id a)) (oa_actions a)
    (default "human approval required by the project overlay" (oa_reason a)) OVERLAY_APPROVAL_TAG.

Definition added_rules (eo : EffectiveOverlay) : list GovernanceRule :=
  (eo_deny_rules eo ≫= deny_added) ++ List.concat (imap approval_added (eo_approval_rules eo)).

(** No added id repeats a parent's or another added one. *)
Fixpoint check_collisions (parent seen : gset string) (added : list GovernanceRule)
  : result unit OverlayError :=
  match added with
  | [] => Ok tt
  | r :: added =>
      let n := norm_id (rule_id r) in
      if bool_decide (n ∈ parent) || bool_decide (n ∈ seen) then Err (IdCollision "overlay" (rule_id r))
      else check_collisions parent ({[n]} ∪ seen) added
  end.

(** [Result::map_err] into [OverlayError::Overlay] *)
Definition of_tighten {T} (r : result T Tighten.OverlayError) : result T OverlayError :=
  map_err Overlay_ r.

Section Merge.
Context `{CanonEnv} `{OverlayEnv}.

(** [Overlay::from_file], [Overlay::empty], [Overlay::from_toml] *)
Definition overlay_from_file (f : OverlayFile) : Overlay := mkOverlay f (overlay_hash f).
Definition overlay_empty : Overlay := overlay_from_file default_file.
Definition overlay_from_toml (s : string) : result Overlay OverlayError :=
  match toml_from_str s with
  | Ok f => Ok (overlay_from_file f)
  | Err m => Err (Overlay_ (Tighten.Parse m))
  end.

(** The view the merge starts from: the engine default is the ceiling of a
    parent without a threshold. *)
Definition merge_view (p : ParentPolicy) : ParentView :=
  let view := parent_view p in
  let l := pv_limits view in
  mkView (pv_rule_ids view) (pv_deny_actions view) (pv_approval_actions view)
    (mkLimits (Some (default DEFAULT_RISK_THRESHOLD (lim_risk_threshold l)))
       (lim_max_processes l) (lim_spawn_budget l) (lim_human l)).

Definition effective_hash (parent_hash overlay_hash : bytes) (rules : list GovernanceRule)
  (limits : Limits) : bytes :=
  sha256_domain EFFECTIVE_HASH_DOMAIN
    (JObj [("parent_hash", JStr (hex_string parent_hash));
           ("overlay_hash", JStr (hex_string overlay_hash));
           ("rules", JArr (sorted_rule_values rules)); ("limits", limits_value limits)]).

(** [merge] *)
Definition merge (parent : ParentPolicy) (overlay : Overlay) : result Effective OverlayError :=
  let view := merge_view parent in
  let? eo := of_tighten (Tighten.merge view (ov_file overlay)) in
  let limits := eo_limits eo in
  let? _ := throw_if (bool_decide (lim_max_processes limits = Some 0))
              (Overlay_ (Tighten.InvalidLimit "limits.max_processes")) in
  let? _ := check_overlaps 0 (eo_approval_rules eo) (pv_deny_actions view) in
  let rules := if raises_human (pp_limits parent) limits then harden <$> pp_rules parent
               else pp_rules parent in
  let added := added_rules eo in
  let? _ := check_collisions (list_to_set ((fun r => norm_id (rule_id r)) <$> pp_rules parent)) ∅ added in
  let rules := rules ++ added in
  let parent_hash := parent_rules_hash (pp_rules parent) (pp_limits parent) in
  Ok (mkEffective rules limits (eo_deny_actions eo) (eo_approval_actions eo) parent_hash
        (ov_hash overlay) (effective_hash parent_hash (ov_hash overlay) rules limits)
        (pp_version parent)).

End Merge.

(** ** Globs *)

Lemma prefix_total p q s :
  starts_with p s = true -> starts_with q s = true -> starts_with p q || starts_with q p = true.
Proof.
  revert q s. induction p as [|a p IH]; intros q s Hp Hq; [by destruct q|].
  destruct q as [|b q]; [done|]. destruct s as [|c s]; [done|]. cbn in *.
  destruct (Ascii.ascii_dec a c) as [->|]; [|done]. destruct (Ascii.ascii_dec b c) as [->|]; [|done].
  destruct (Ascii.ascii_dec c c); [|done]. by apply IH with s.
Qed.

Lemma prefix_refl p : starts_with p p = true.
Proof. induction p as [|a p IH]; [done|]. cbn. by destruct (Ascii.ascii_dec a a). Qed.

(** The overlap test is exact: two globs overlap when some action matches
    both. *)
Theorem globs_overlap_exact a b :
  globs_overlap a b = true <->
  exists action, Tighten.glob_matches a action = true /\ Tighten.glob_matches b action = true.
Proof.
  unfold globs_overlap, Tighten.glob_matches.
  destruct (strip_suffix_char "*" a) as [pa|], (strip_suffix_char "*" b) as [pb|]; split.
  - intros [H|H]%orb_true_iff; [exists pa|exists pb]; rewrite prefix_refl; auto.
  - intros (act & Ha & Hb). by apply prefix_total with act.
  - intros H. exists b. by rewrite String.eqb_refl.
  - intros (act & Ha & ->%String.eqb_eq). done.
  - intros H. exists a. by rewrite String.eqb_refl.
  - intros (act & ->%String.eqb_eq & Hb). done.
  - intros ->%String.eqb_eq. exists b. by rewrite String.eqb_refl.
  - intros (act & Ha%String.eqb_eq & Hb%String.eqb_eq). apply String.eqb_eq. congruence.
Qed.

(** ** The merge only tightens *)

Lemma existsb_lift (f g : GovernanceRule -> bool) (h : GovernanceRule -> GovernanceRule) l k :
  (forall x, x ∈ l -> h x ∈ k) -> (forall x, x ∈ l -> f x = true -> g (h x) = true) ->
  existsb f l = true -> existsb g k = true.
Proof.
  intros Hin Hfg. rewrite !existsb_exists. intros (x & Hx%list_elem_of_In & Hf). exists (h x).
  split; [|by apply Hfg]. by apply list_elem_of_In, Hin.
Qed.

(** An approval tag sits on a rule of the general kind, as the overlay writes
    it. *)
Definition approval_general (r : GovernanceRule) : Prop :=
  tagged OVERLAY_APPROVAL_TAG r = true -> rule_type r = General.

Lemma harden_kept x :
  severity (harden x) = severity x /\ active (harden x) = active x /\
  rule_type (harden x) = rule_type x /\ rule_id (harden x) = rule_id x.
Proof. unfold harden. by destruct (is_blocking (severity x) && _). Qed.

Section Verdict.
Context (r : GovernanceRequest) (exc exc' human human' : bool).
Context (Hexc : exc = true -> exc' = true) (Hhum : human = true -> human' = true).

Definition lifted (x : GovernanceRule) : GovernanceRule :=
  if human' && negb human then harden x else x.

Lemma lifted_active x : active (lifted x) = active x.
Proof using. unfold lifted. destruct (_ && _); [|done]. apply harden_kept. Qed.

Lemma fires_mono x : rule_fires r exc x = true -> rule_fires r exc' x = true.
Proof using Hexc.
  unfold rule_fires. destruct (selectors_match x r); [|done]. cbn.
  destruct (rule_type x); try done. rewrite !orb_true_iff. intuition.
Qed.

Lemma lifted_fires x : rule_fires r exc x = true -> rule_fires r exc' (lifted x) = true.
Proof using Hexc.
  intros Hf%fires_mono. unfold lifted, harden. by repeat case_match.
Qed.

Lemma lifted_severity x : severity (lifted x) = severity x.
Proof using. unfold lifted. destruct (_ && _); [|done]. apply harden_kept. Qed.

Lemma lifted_type x : rule_type (lifted x) = rule_type x.
Proof using. unfold lifted. destruct (_ && _); [|done]. apply harden_kept. Qed.

Lemma lifted_blocks x : rule_blocks r exc x = true -> rule_blocks r exc' (lifted x) = true.
Proof using Hexc.
  unfold rule_blocks. intros [Hf Hs]%andb_prop. by rewrite lifted_fires, lifted_severity.
Qed.

Lemma lifted_warns x : rule_warns r exc x = true -> rule_warns r exc' (lifted x) = true.
Proof using Hexc.
  unfold rule_warns. intros [Hf Hs]%andb_prop. by rewrite lifted_fires, lifted_severity, lifted_type.
Qed.

Lemma lifted_hard x : rule_hard_denies r exc x = true -> rule_hard_denies r exc' (lifted x) = true.
Proof using Hexc.
  unfold rule_hard_denies. intros [Hb Ht]%andb_prop. rewrite (lifted_blocks x Hb). cbn.
  unfold lifted, harden. by repeat case_match.
Qed.

Lemma lifted_otherwise x :
  approval_general x -> rule_blocks_otherwise r exc x = true ->
  if human' && negb human then rule_hard_denies r exc' (lifted x) = true
  else rule_blocks_otherwise r exc' (lifted x) = true.
Proof using Hexc.
  intros Hgen Ho. unfold rule_blocks_otherwise in Ho. apply andb_prop in Ho as [Hb Hn].
  pose proof (lifted_blocks x Hb) as Hb'. unfold lifted in *.
  destruct (human' && negb human).
  - unfold rule_hard_denies. rewrite Hb'. cbn. unfold harden.
    apply andb_prop in Hb as [_ ->]. cbn.
    destruct (tagged OVERLAY_APPROVAL_TAG x) eqn:Ha; [|done]. exfalso.
    rewrite (Hgen Ha), bool_decide_eq_true_2, orb_true_r in Hn; done.
  - unfold rule_blocks_otherwise. by rewrite Hb'.
Qed.

Lemma verdict_le l k :
  Forall approval_general l -> (forall x, x ∈ l -> lifted x ∈ k) ->
  (verdict r exc human l <= verdict r exc' human' k)%nat.
Proof using Hexc Hhum.
  intros Hgen Hin. rewrite Forall_forall in Hgen.
  pose proof (existsb_lift _ (rule_blocks r exc') lifted l k Hin (fun x _ => lifted_blocks x)) as Hb.
  pose proof (existsb_lift _ (rule_warns r exc') lifted l k Hin (fun x _ => lifted_warns x)) as Hw.
  pose proof (existsb_lift _ (rule_hard_denies r exc') lifted l k Hin (fun x _ => lifted_hard x)) as Hh.
  pose proof (existsb_lift (rule_blocks_otherwise r exc)
    (if human' && negb human then rule_hard_denies r exc' else rule_blocks_otherwise r exc')
    lifted l k Hin) as Ho.
  assert (forall x, x ∈ l -> rule_blocks_otherwise r exc x = true ->
    (if human' && negb human then rule_hard_denies r exc' else rule_blocks_otherwise r exc') (lifted x) = true)
    as Hox by (intros x Hx Hf; pose proof (lifted_otherwise x (Hgen x Hx) Hf); by destruct (_ && _)).
  specialize (Ho Hox). clear Hox. pose proof (blocks_cases r exc l) as Hc. unfold verdict.
  destruct (existsb (rule_blocks r exc) l); [rewrite Hb by done|].
  - destruct (existsb (rule_hard_denies r exc) l); cbn; [by rewrite Hh|].
    destruct human; cbn in *.
    { rewrite Hhum by done. cbn. destruct (negb _); cbn; lia. }
    destruct (existsb (rule_blocks_otherwise r exc) l).
    + specialize (Ho eq_refl). destruct human'; cbn in Ho; rewrite Ho; cbn; rewrite ?andb_false_r;
        destruct (existsb _ l); cbn; lia.
    + destruct Hc as [?|[-> |?]]; [done..| |done]. cbn. destruct (negb _ && _); lia.
  - destruct (exc && existsb (rule_warns r exc) l) eqn:Hx; [|lia].
    apply andb_prop in Hx as [He Hws]. rewrite (Hw Hws), (Hexc He). cbn.
    destruct (existsb (rule_blocks r true) k); [|done]. destruct (negb _ && _); repeat constructor.
Qed.

End Verdict.

(** The limits an overlay leaves in force *)
Definition num_tightens (parent effective : option N) : Prop :=
  forall p, parent = Some p -> exists e, effective = Some e /\ e <= p.

Record limits_tighten (parent effective : Limits) : Prop := mkTightens {
  lt_risk : forall p, lim_risk_threshold parent = Some p ->
    exists e, lim_risk_threshold effective = Some e /\ F64.leb e p = true;
  lt_procs : num_tightens (lim_max_processes parent) (lim_max_processes effective);
  lt_spawn : num_tightens (lim_spawn_budget parent) (lim_spawn_budget effective);
  lt_human : lim_human parent = Some true -> lim_human effective = Some true;
}.

Lemma unit_interval_finite f : unit_interval f = true -> F64.is_finite f = true.
Proof. unfold unit_interval. by intros [? _]%andb_prop. Qed.

Lemma leb_refl_finite f : F64.is_finite f = true -> F64.leb f f = true.
Proof.
  intros Hf. apply F64.not_ltb_leb; [done..|]. unfold F64.ltb, SFltb.
  destruct f as [[]|[]| |[] m e]; try done; cbn; rewrite Z.compare_refl;
    change (Pos.compare_cont Eq m m) with (Pos.compare m m); by rewrite Pos.compare_refl.
Qed.

Lemma tighten_u64 key (parent overlay effective : option N) :
  Tighten.tighten_num Tighten.u64_gt pretty key parent overlay = Ok effective ->
  num_tightens parent effective /\ (forall o, overlay = Some o -> effective = Some o).
Proof.
  unfold Tighten.tighten_num, Tighten.u64_gt, num_tightens.
  destruct parent as [p|], overlay as [o|]; try destruct (N.ltb_spec p o); intros [= <-].
  - split; [|by intros ? [= ->]]. intros ? [= ->]. eauto.
  - split; [|done]. intros ? [= ->]. by exists p0.
  - split; [done|by intros ? [= ->]].
  - done.
Qed.

Section MergeFacts.
Context `{CanonEnv} `{OverlayEnv}.

Lemma merge_limits_tighten parent o l :
  (forall p, lim_risk_threshold parent = Some p -> unit_interval p = true) ->
  Tighten.merge_limits parent o = Ok l -> limits_tighten parent l.
Proof using.
  intros Hp Hm. unfold Tighten.merge_limits in Hm. inv_ok. subst.
  constructor; cbn.
  - intros p Hr. rewrite Hr in Hok1. specialize (Hp p Hr). apply unit_interval_finite in Hp.
    unfold Tighten.tighten_num, Tighten.f64_gt in Hok1.
    destruct (lim_risk_threshold o) as [q|]; [|injection Hok1 as <-; eauto using leb_refl_finite].
    destruct (F64.ltb p q) eqn:Hlt; [done|]. injection Hok1 as <-. exists q. split; [done|].
    inv_ok. apply negb_false_iff, unit_interval_finite in Hok. by apply F64.not_ltb_leb.
  - by eapply tighten_u64.
  - by eapply tighten_u64.
  - intros Hh. rewrite Hh in Hok0. destruct (lim_human o) as [[]|]; inv_ok; by subst.
Qed.

(** What an accepted merge consists of *)
Lemma merge_inv p ov eff :
  merge p ov = Ok eff ->
  exists eo, Tighten.merge (merge_view p) (ov_file ov) = Ok eo /\
    ef_limits eff = eo_limits eo /\
    ef_rules eff = (if raises_human (pp_limits p) (eo_limits eo) then harden <$> pp_rules p
                    else pp_rules p) ++ added_rules eo /\
    limits_tighten (pv_limits (merge_view p)) (ef_limits eff) /\
    check_overlaps 0 (eo_approval_rules eo) (pv_deny_actions (merge_view p)) = Ok tt /\
    check_collisions (list_to_set ((fun r => norm_id (rule_id r)) <$> pp_rules p)) ∅ (added_rules eo)
      = Ok tt /\
    lim_max_processes (eo_limits eo) <> Some 0.
Proof using.
  unfold merge, of_tighten, map_err. intros Hm.
  destruct (Tighten.merge (merge_view p) (ov_file ov)) as [eo|] eqn:He; [|done].
  inv_ok. subst. cbn [ef_limits ef_rules]. apply bool_decide_eq_false in Hok.
  exists eo. split; [done|]. split; [done|]. split; [done|]. split; [|destruct t0, t1; done].
  unfold Tighten.merge in He. inv_ok. subst. cbn [eo_limits]. eapply merge_limits_tighten; [|done].
  intros q Hq. rewrite Hq in Hok4. inv_ok. by apply negb_false_iff in Hok4.
Qed.

End MergeFacts.

(** The engines a parent and a project run, from their rules and limits *)
Definition parent_engine (lim : KeyedRateLimiter) (sc : option (EffectVector -> f64)) (p : ParentPolicy)
  : GovernanceEngine :=
  mkEngine (pp_rules p) (default DEFAULT_RISK_THRESHOLD (lim_risk_threshold (pp_limits p)))
    (default false (lim_human (pp_limits p))) lim sc.

Definition project_engine (lim : KeyedRateLimiter) (sc : option (EffectVector -> f64)) (e : Effective)
  : GovernanceEngine :=
  mkEngine (ef_rules e) (eff_threshold e DEFAULT_RISK_THRESHOLD) (eff_human e false) lim sc.

Lemma added_active eo x : x ∈ added_rules eo -> active x = true.
Proof.
  assert (forall base acts reason tag y, y ∈ expand base acts reason tag -> active y = true) as He.
  { intros base acts reason tag y. unfold expand. rewrite elem_of_lookup_imap. by intros (i & g & -> & _). }
  unfold added_rules. rewrite elem_of_app, list_elem_of_bind. intros [(d & Hd & _)|Hx].
  - by eapply He.
  - apply list_elem_of_In, in_concat in Hx as (l & Hl%list_elem_of_In & Hx%list_elem_of_In).
    apply elem_of_lookup_imap in Hl as (i & a & -> & _). by eapply He.
Qed.

Section Tightening.
Context `{CanonEnv} `{OverlayEnv}.

Lemma merge_threshold p ov eff mag :
  merge p ov = Ok eff ->
  F64.ltb (default DEFAULT_RISK_THRESHOLD (lim_risk_threshold (pp_limits p))) mag = true ->
  F64.ltb (eff_threshold eff DEFAULT_RISK_THRESHOLD) mag = true.
Proof using.
  intros (eo & _ & _ & _ & [Hr _ _ _] & _)%merge_inv Hlt. unfold eff_threshold.
  destruct (Hr _ eq_refl) as (e & -> & Hle). cbn [default from_option id] in *.
  by eapply F64.leb_ltb_trans.
Qed.

Lemma merge_human p ov eff :
  merge p ov = Ok eff ->
  (default false (lim_human (pp_limits p)) = true -> eff_human eff false = true) /\
  raises_human (pp_limits p) (ef_limits eff)
    = eff_human eff false && negb (default false (lim_human (pp_limits p))).
Proof using.
  intros (eo & _ & _ & _ & [_ _ _ Hh] & _)%merge_inv. cbn in Hh. unfold eff_human, raises_human.
  destruct (lim_human (pp_limits p)) as [[]|], (lim_human (ef_limits eff)) as [[]|]; cbn;
    split; try done; by specialize (Hh eq_refl).
Qed.

Lemma merge_rule_kept p ov eff x :
  merge p ov = Ok eff -> x ∈ pp_rules p ->
  (if raises_human (pp_limits p) (ef_limits eff) then harden x else x) ∈ ef_rules eff.
Proof using.
  intros (eo & _ & Hl & Hr & _)%merge_inv Hx. rewrite Hl, Hr. apply elem_of_app. left.
  destruct (raises_human _ _); [|done]. by apply list_elem_of_fmap_2.
Qed.

Lemma merge_tightens p ov eff inst lim sc now r :
  merge p ov = Ok eff -> Forall approval_general (pp_rules p) ->
  (strictness (gr_decision (Engine.evaluate inst (parent_engine lim sc p) now r).2)
   <= strictness (gr_decision (Engine.evaluate inst (project_engine lim sc eff) now r).2))%nat.
Proof using.
  intros Hm Hgen. pose proof (evaluate_cases inst (parent_engine lim sc p) now r) as Hp.
  pose proof (evaluate_cases inst (project_engine lim sc eff) now r) as Hc.
  cbn [parent_engine project_engine eval_limiter scorer risk_threshold human_approval_required] in Hp, Hc.
  destruct (RL.check lim now (Engine.eval_quota_key r)).2;
    destruct Hp as [-> _], Hc as [-> _]; [|done].
  destruct (merge_human p ov eff Hm) as [Hh Hrh].
  apply verdict_le; [by apply merge_threshold with ov|done|..].
  - apply Forall_forall. intros x [_ Hx]%list_elem_of_filter. rewrite Forall_forall in Hgen. by apply Hgen.
  - intros x [Ha Hx]%list_elem_of_filter. apply list_elem_of_filter. rewrite lifted_active.
    split; [done|]. unfold lifted. rewrite <- Hrh. by apply merge_rule_kept with ov.
Qed.

(** C23: A project is never governed less strictly than its parent.  Whatever
    overlay merges onto the parent's policy, for every request at every
    instant the engine built from the merged rules, threshold and approval
    flag decides at least as strictly as the engine built from the parent's,
    in the order permit, permit with warning, escalate, deny.  The parent's
    approval tags must sit on rules of the general kind, which is what the
    overlay merge itself writes. *)
Theorem overlay_only_tightens p ov eff inst lim sc now r :
  merge p ov = Ok eff -> Forall approval_general (pp_rules p) ->
  (strictness (gr_decision (Engine.evaluate inst (parent_engine lim sc p) now r).2)
   <= strictness (gr_decision (Engine.evaluate inst (project_engine lim sc eff) now r).2))%nat.
Proof using. apply merge_tightens. Qed.

Lemma added_deny_in p ov eff d g :
  merge p ov = Ok eff -> d ∈ of_deny (ov_file ov) -> g ∈ od_actions d ->
  exists x, x ∈ ef_rules eff /\ exists id reason, x = selector_rule id g reason Blocking OVERLAY_DENY_TAG.
Proof using.
  intros (eo & He & _ & Hr & _)%merge_inv Hd Hg. unfold Tighten.merge in He. inv_ok. subst eo.
  apply list_elem_of_lookup_1 in Hg as [i Hi]. eexists. split; [|by eauto].
  rewrite Hr. apply elem_of_app. right. apply elem_of_app. left. apply list_elem_of_bind.
  exists d. split; [|done]. unfold deny_added, expand. apply elem_of_lookup_imap. eauto.
Qed.

Lemma added_approval_in p ov eff a g :
  merge p ov = Ok eff -> a ∈ of_require_approval (ov_file ov) -> g ∈ oa_actions a ->
  exists x, x ∈ ef_rules eff /\
    exists id reason, x = selector_rule id g reason Blocking OVERLAY_APPROVAL_TAG.
Proof using.
  intros (eo & He & _ & Hr & _)%merge_inv Ha Hg. unfold Tighten.merge in He. inv_ok. subst eo.
  apply list_elem_of_lookup_1 in Hg as [j Hj]. apply list_elem_of_lookup_1 in Ha as [i Hi].
  eexists. split; [|by eauto].
  rewrite Hr. apply elem_of_app. right. apply elem_of_app. right. apply list_elem_of_In, in_concat.
  exists (approval_added i a). rewrite <- !list_elem_of_In. split.
  - apply elem_of_lookup_imap. eauto.
  - unfold approval_added, expand. apply elem_of_lookup_imap. eauto.
Qed.

Lemma selector_matches_glob g action :
  Tighten.glob_matches g action = true -> selector_matches g action = true.
Proof using. unfold Tighten.glob_matches, selector_matches. by destruct (String.eqb g ""). Qed.

(** The rules an overlay writes are enforced whatever else is in force: an
    action that a deny glob matches is denied, even when the approval flag is
    set, and one that an approval glob matches is never simply permitted. *)
Theorem overlay_rules_enforced p ov eff inst lim sc now r g :
  merge p ov = Ok eff -> Tighten.glob_matches g (rq_action r) = true ->
  let verdict := strictness (gr_decision (Engine.evaluate inst (project_engine lim sc eff) now r).2) in
  (forall d, d ∈ of_deny (ov_file ov) -> g ∈ od_actions d -> verdict = 3%nat) /\
  (forall a, a ∈ of_require_approval (ov_file ov) -> g ∈ oa_actions a -> (2 <= verdict)%nat).
Proof using.
  intros Hm Hg%selector_matches_glob. cbn zeta.
  pose proof (evaluate_cases inst (project_engine lim sc eff) now r) as Hc.
  cbn [project_engine eval_limiter scorer risk_threshold human_approval_required] in Hc.
  destruct (RL.check lim now (Engine.eval_quota_key r)).2;
    destruct Hc as [-> _]; [|split; intros; lia].
  set (exc := F64.ltb _ _).
  assert (forall id reason tag, let x := selector_rule id g reason Blocking tag in
    x ∈ ef_rules eff ->
    existsb (rule_blocks r exc) (Engine.active_rules (project_engine lim sc eff)) = true /\
    (tag = OVERLAY_DENY_TAG ->
     existsb (rule_hard_denies r exc) (Engine.active_rules (project_engine lim sc eff)) = true)) as Hx.
  { intros id reason tag x Hin.
    assert (rule_blocks r exc x = true) as Hb.
    { unfold rule_blocks, rule_fires, selectors_match. cbn. by rewrite Hg, orb_true_r. }
    assert (In x (Engine.active_rules (project_engine lim sc eff))) as Hi
      by (by apply list_elem_of_In, list_elem_of_filter).
    rewrite !existsb_exists. split; [by exists x|]. intros ->. exists x. split; [done|].
    unfold rule_hard_denies. by rewrite Hb. }
  split.
  - intros d Hd Hgd. destruct (added_deny_in p ov eff d g Hm Hd Hgd) as (x & Hin & id & reason & ->).
    destruct (Hx id reason _ Hin) as [Hb Hh]. unfold verdict. by rewrite Hb, Hh.
  - intros a Ha Hga. destruct (added_approval_in p ov eff a g Hm Ha Hga) as (x & Hin & id & reason & ->).
    destruct (Hx id reason _ Hin) as [Hb _]. unfold verdict. rewrite Hb.
    destruct (negb _ && _); lia.
Qed.

End Tightening.
