(* ===== verification/OverlaySpec.v ===== *)
(** Which overlays the merge accepts, what the hashes of a rule set depend on,
    and the one way an approval tag softens a parent's denial. *)

From Stdlib Require Import Strings.String.
From S2P Require Import Prelude.
From S2P Require Import Codec.
From S2P Require Import RateLimit.
From S2P Require Import Governance.
From S2P Require Import Delegation.
From S2P Require Import Canon.
From S2P Require Import Overlay.
Open Scope N_scope.

(** ** Acceptance *)

(** The declarative reading of the file format's rules *)
Definition good_id (id : string) : Prop :=
  id <> "" /\ trim id = id /\ Forall (fun c => Tighten.id_char c = true) (str_bytes id).

Definition good_actions (actions : list string) : Prop :=
  actions <> [] /\ Forall (fun a => Tighten.valid_glob a = true) actions.

Definition overlay_ids (f : OverlayFile) : list string :=
  (od_id <$> of_deny f) ++ omap oa_id (of_require_approval f).

Definition not_above (parent overlay : option N) : Prop :=
  forall p o, parent = Some p -> overlay = Some o -> o <= p.

Record limits_acceptable (parent o : Limits) : Prop := mkAcceptable {
  la_range : forall r, lim_risk_threshold o = Some r -> unit_interval r = true;
  la_risk : forall p r, lim_risk_threshold parent = Some p -> lim_risk_threshold o = Some r ->
    F64.ltb p r = false;
  la_procs : not_above (lim_max_processes parent) (lim_max_processes o);
  la_spawn : not_above (lim_spawn_budget parent) (lim_spawn_budget o);
  la_human : ~ (lim_human parent = Some true /\ lim_human o = Some false);
}.

Record acceptable (v : ParentView) (f : OverlayFile) : Prop := mkOk {
  ac_schema : of_schema f = OVERLAY_SCHEMA;
  ac_extra : of_extra f = [];
  ac_parent : forall r, lim_risk_threshold (pv_limits v) = Some r -> unit_interval r = true;
  ac_ids : Forall good_id (overlay_ids f);
  ac_shadow : Forall (fun id => to_ascii_lowercase id ∉ (norm_id <$> pv_rule_ids v)) (overlay_ids f);
  ac_distinct : NoDup (to_ascii_lowercase <$> overlay_ids f);
  ac_actions : Forall good_actions ((od_actions <$> of_deny f) ++ (oa_actions <$> of_require_approval f));
  ac_limits : limits_acceptable (pv_limits v) (of_limits f);
}.

(** The ids as the loops meet them *)
Fixpoint fresh_ids (parent seen : gset string) (ids : list string) : Prop :=
  match ids with
  | [] => True
  | id :: ids =>
      good_id id /\ to_ascii_lowercase id ∉ parent /\ to_ascii_lowercase id ∉ seen /\
      fresh_ids parent ({[to_ascii_lowercase id]} ∪ seen) ids
  end.

Definition seen_after (seen : gset string) (ids : list string) : gset string :=
  foldl (fun s id => {[to_ascii_lowercase id]} ∪ s) seen ids.

Lemma check_id_ok key id n :
  Tighten.check_id key id = Ok n <-> good_id id /\ n = to_ascii_lowercase id.
Proof.
  unfold Tighten.check_id, good_id. split.
  - intros Hc. destruct (negb (String.eqb id "") && String.eqb id (trim id)
      && forallb Tighten.id_char (str_bytes id)) eqn:Ht; [|done]. injection Hc as <-.
    apply andb_prop in Ht as [[He Htr]%andb_prop Hf]. apply negb_true_iff, String.eqb_neq in He.
    apply String.eqb_eq in Htr. split; [|done]. split; [done|]. split; [done|].
    apply Forall_forall. intros c Hin. rewrite forallb_forall in Hf. by apply Hf, list_elem_of_In.
  - intros [(He & Htr & Hf) ->]. rewrite Htr, String.eqb_refl, (proj2 (String.eqb_neq id "") He).
    rewrite (proj2 (forallb_forall _ _)); [done|]. intros c Hin%list_elem_of_In.
    rewrite Forall_forall in Hf. by apply Hf.
Qed.

Lemma rule_id_ok key id parent seen s :
  Tighten.tighten_rule_id key id parent seen = Ok s <->
  (good_id id /\ to_ascii_lowercase id ∉ parent /\ to_ascii_lowercase id ∉ seen) /\
  s = {[to_ascii_lowercase id]} ∪ seen.
Proof.
  unfold Tighten.tighten_rule_id. split.
  - intros Ht. inv_ok. apply check_id_ok in Hok as [Hg ->].
    case_bool_decide; [done|]. case_bool_decide; [done|]. by injection Ht as <-.
  - intros [(Hg & Hp & Hs) ->].
    rewrite (proj2 (check_id_ok _ id _)) by (split; [exact Hg|reflexivity]).
    by rewrite !bool_decide_eq_false_2.
Qed.

Lemma check_globs_ok key i l :
  Tighten.check_globs key i l = Ok tt <-> Forall (fun a => Tighten.valid_glob a = true) l.
Proof.
  revert i. induction l as [|a l IH]; intros i; cbn [Tighten.check_globs]; [by split|].
  rewrite Forall_cons. destruct (Tighten.valid_glob a); cbn; [|by split; [|intros []]].
  rewrite IH. by split; [|intros []].
Qed.

Lemma check_actions_ok key l u : Tighten.check_actions key l = Ok u <-> good_actions l.
Proof.
  destruct u. unfold Tighten.check_actions, good_actions. case_bool_decide; [by split; [|intros []]|].
  rewrite check_globs_ok. by split; [|intros []].
Qed.

Lemma check_deny_ok l : forall i parent seen s,
  Tighten.check_deny i l parent seen = Ok s <->
  fresh_ids parent seen (od_id <$> l) /\ Forall good_actions (od_actions <$> l) /\
  s = seen_after seen (od_id <$> l).
Proof.
  induction l as [|d l IH]; intros i parent seen s; cbn [Tighten.check_deny].
  { cbn. split; [intros [= ->]; auto|by intros (_ & _ & ->)]. }
  rewrite !fmap_cons, Forall_cons. cbn [fresh_ids seen_after foldl]. split.
  - intros Hd. inv_ok. apply rule_id_ok in Hok as [Hid ->]. apply check_actions_ok in Hok0.
    apply IH in Hd as (? & ? & ->). tauto.
  - intros ((Hg & Hp & Hs & Hf) & [Ha Hl] & ->).
    rewrite (proj2 (rule_id_ok _ (od_id d) parent seen _)) by (split; [auto|reflexivity]).
    rewrite (proj2 (check_actions_ok _ (od_actions d) tt)) by done. by apply IH.
Qed.

Lemma check_approval_ok l : forall i parent seen s,
  Tighten.check_approval i l parent seen = Ok s <->
  fresh_ids parent seen (omap oa_id l) /\ Forall good_actions (oa_actions <$> l) /\
  s = seen_after seen (omap oa_id l).
Proof.
  induction l as [|a l IH]; intros i parent seen s; cbn [Tighten.check_approval].
  { cbn. split; [intros [= ->]; auto|by intros (_ & _ & ->)]. }
  rewrite fmap_cons, Forall_cons.
  change (omap oa_id (a :: l)) with (match oa_id a with Some y => y :: omap oa_id l | None => omap oa_id l end).
  destruct (oa_id a) as [id|]; cbn [fresh_ids seen_after foldl].
  - split.
    + intros Hd. inv_ok. apply rule_id_ok in Hok as [Hid ->]. apply check_actions_ok in Hok0.
      apply IH in Hd as (? & ? & ->). tauto.
    + intros ((Hg & Hp & Hs & Hf) & [Ha Hl] & ->).
      rewrite (proj2 (rule_id_ok _ id parent seen _)) by (split; [auto|reflexivity]).
      rewrite (proj2 (check_actions_ok _ (oa_actions a) tt)) by done. by apply IH.
  - split.
    + intros Hd. inv_ok. apply check_actions_ok in Hok. by apply IH in Hd as (? & ? & ->).
    + intros (Hf & [Ha Hl] & ->). rewrite (proj2 (check_actions_ok _ (oa_actions a) tt)) by done. by apply IH.
Qed.

Lemma fresh_ids_app parent l : forall seen k,
  fresh_ids parent seen (l ++ k) <-> fresh_ids parent seen l /\ fresh_ids parent (seen_after seen l) k.
Proof.
  induction l as [|id l IH]; intros seen k; cbn; [tauto|]. rewrite IH. unfold seen_after. tauto.
Qed.

Lemma fresh_ids_spec parent l : forall seen,
  fresh_ids parent seen l <->
  Forall good_id l /\ Forall (fun id => to_ascii_lowercase id ∉ parent) l /\
  NoDup (to_ascii_lowercase <$> l) /\ Forall (fun id => to_ascii_lowercase id ∉ seen) l.
Proof.
  induction l as [|id l IH]; intros seen; cbn [fresh_ids].
  { split; [|done]. intros _. split; [done|]. split; [done|]. split; [constructor|done]. }
  rewrite IH, fmap_cons, !Forall_cons, NoDup_cons. split.
  - intros (Hg & Hp & Hs & Hgl & Hpl & Hnd & Hsl). rewrite Forall_forall in Hsl.
    assert (to_ascii_lowercase id ∉ (to_ascii_lowercase <$> l)).
    { intros (x & Hx & Hin)%list_elem_of_fmap. apply (Hsl x Hin). set_solver. }
    assert (Forall (fun i => to_ascii_lowercase i ∉ seen) l)
      by (apply Forall_forall; intros x Hx; specialize (Hsl x Hx); set_solver). auto.
  - intros ([Hg Hgl] & [Hp Hpl] & [Hni Hnd] & [Hs Hsl]). repeat (split; [done|]).
    rewrite Forall_forall in Hsl |- *. intros x Hx. specialize (Hsl x Hx).
    assert (to_ascii_lowercase x <> to_ascii_lowercase id); [|set_solver].
    intros E. apply Hni. apply list_elem_of_fmap. by exists x.
Qed.

Lemma tighten_u64_ok key (p o : option N) :
  is_ok (Tighten.tighten_num Tighten.u64_gt pretty key p o) = true <-> not_above p o.
Proof.
  unfold Tighten.tighten_num, Tighten.u64_gt, not_above. destruct p as [p|], o as [o|]; try done.
  destruct (N.ltb_spec p o); split; try done.
  - intros Hp. specialize (Hp p o eq_refl eq_refl). lia.
  - by intros _ ? ? [= <-] [= <-].
Qed.

Section Accept.
Context `{OverlayEnv}.

Lemma merge_limits_ok parent o :
  is_ok (Tighten.merge_limits parent o) = true <-> limits_acceptable parent o.
Proof using.
  unfold Tighten.merge_limits. split.
  - intros Hm. destruct (Tighten.merge_limits parent o) as [l|] eqn:E; unfold Tighten.merge_limits in E;
      rewrite E in Hm; [|done]. clear Hm. inv_ok.
    constructor.
    + intros r Hr. rewrite Hr in Hok. inv_ok. by apply negb_false_iff.
    + intros p r Hp Hr. rewrite Hp, Hr in Hok1. cbn in Hok1. unfold Tighten.f64_gt in Hok1.
      by destruct (F64.ltb p r).
    + apply (tighten_u64_ok "limits.max_processes"). by rewrite Hok2.
    + apply (tighten_u64_ok "limits.spawn_budget"). by rewrite Hok3.
    + intros [Hp Ho]. by rewrite Hp, Ho in Hok0.
  - intros [Hr Hp Hm Hs Hh].
    apply (tighten_u64_ok "limits.max_processes") in Hm. apply (tighten_u64_ok "limits.spawn_budget") in Hs.
    destruct (Tighten.tighten_num _ _ "limits.max_processes" _ _); [|done].
    destruct (Tighten.tighten_num _ _ "limits.spawn_budget" _ _); [|done].
    assert (exists x, Tighten.tighten_num Tighten.f64_gt f64_to_string "limits.risk_threshold"
      (lim_risk_threshold parent) (lim_risk_threshold o) = Ok x) as [x ->].
    { unfold Tighten.tighten_num, Tighten.f64_gt.
      destruct (lim_risk_threshold parent) as [p|], (lim_risk_threshold o) as [q|]; eauto.
      rewrite (Hp p q) by done. eauto. }
    destruct (lim_risk_threshold o) as [q|]; [rewrite (Hr q) by done; cbn|];
      destruct (lim_human parent) as [[]|], (lim_human o) as [[]|]; try done; by destruct Hh.
Qed.

(** C26: The tighten-only merge accepts exactly the overlays that follow the rules:
    the schema is the supported one, there is no other top-level key, ids are
    well formed, distinct without regard to case and none is a parent's, every
    action list is a non-empty list of well-formed globs, the parent's own
    threshold is in range, and no limit is out of range or looser than the
    parent's. *)
Theorem merge_accepts_exactly v f :
  is_ok (Tighten.merge v f) = true <-> acceptable v f.
Proof using.
  unfold Tighten.merge. set (ids := Tighten.norm_ids (pv_rule_ids v)).
  assert (forall id, id ∉ ids <-> id ∉ norm_id <$> pv_rule_ids v) as Hids
    by (intros id; unfold ids, Tighten.norm_ids; by rewrite elem_of_list_to_set).
  split.
  - intros Hm. destruct (Tighten.merge v f) as [eo|] eqn:E; unfold Tighten.merge in E; fold ids in E;
      rewrite E in Hm; [|done]. clear Hm. inv_ok.
    apply negb_false_iff, N.eqb_eq in Hok. apply check_deny_ok in Hok2 as (Hf & Ha & ->).
    apply check_approval_ok in Hok3 as (Hf' & Ha' & _).
    pose proof (proj2 (fresh_ids_app ids _ ∅ _) (conj Hf Hf')) as Hfr.
    apply fresh_ids_spec in Hfr as (Hg & Hp & Hnd & _).
    constructor; try done.
    + by destruct (of_extra f).
    + intros r Hr. rewrite Hr in Hok1. inv_ok. by apply negb_false_iff.
    + rewrite Forall_forall in Hp |- *. intros x Hx. by apply Hids, Hp.
    + apply Forall_app. done.
    + apply merge_limits_ok. by rewrite Hok4.
  - intros [Hs He Hpr Hg Hsh Hnd Ha Hl]. rewrite Hs, N.eqb_refl, He. cbn [negb throw_if].
    apply Forall_app in Ha as [Had Haa].
    assert (fresh_ids ids ∅ (overlay_ids f)) as [Hf Hf']%fresh_ids_app.
    { apply fresh_ids_spec. split; [done|]. split; [|split; [done|apply Forall_forall; set_solver]].
      rewrite Forall_forall in Hsh |- *. intros x Hx. by apply Hids, Hsh. }
    rewrite (proj2 (check_deny_ok (of_deny f) 0 ids ∅ _)) by eauto.
    rewrite (proj2 (check_approval_ok (of_require_approval f) 0 ids _ _)) by eauto.
    apply merge_limits_ok in Hl. destruct (Tighten.merge_limits _ _); [|done].
    destruct (lim_risk_threshold (pv_limits v)) as [r|]; [|done]. by rewrite (Hpr r).
Qed.

End Accept.

(** ** Hashes *)

(** The sort key of a rule: its normalised id, then its rendering *)
Definition pair_le (a b : string * string) : Prop :=
  Is_true (if String.eqb a.1 b.1 then str_leb a.2 b.2 else str_leb a.1 b.1).

Lemma str_leb_antisymm a b : str_leb a b = true -> str_leb b a = true -> a = b.
Proof. intros Ha Hb. by apply str_bytes_inj, bytes_leb_antisymm. Qed.

#[local] Instance pair_le_total : Total pair_le.
Proof.
  intros [a x] [b y]. unfold pair_le. cbn [fst snd]. unfold str_leb. rewrite (String.eqb_sym b a).
  destruct (String.eqb a b).
  - destruct (bytes_leb_total (str_bytes x) (str_bytes y)) as [-> | ->]; auto.
  - destruct (bytes_leb_total (str_bytes a) (str_bytes b)) as [-> | ->]; auto.
Qed.

#[local] Instance pair_le_antisymm : AntiSymm (=) pair_le.
Proof.
  intros [a x] [b y]. unfold pair_le. cbn [fst snd]. rewrite !Is_true_true, (String.eqb_sym b a).
  destruct (String.eqb_spec a b) as [->|Hn]; intros Ha Hb.
  - f_equal. by apply str_leb_antisymm.
  - destruct Hn. by apply str_leb_antisymm.
Qed.

#[local] Instance pair_le_trans : Transitive pair_le.
Proof.
  intros [a x] [b y] [c z]. unfold pair_le. cbn [fst snd]. rewrite !Is_true_true.
  destruct (String.eqb_spec a b) as [->|Hab], (String.eqb_spec b c) as [->|Hbc].
  - apply bytes_leb_trans.
  - done.
  - by rewrite (proj2 (String.eqb_neq _ _) Hab).
  - intros H1 H2. destruct (String.eqb_spec a c) as [->|].
    + destruct Hbc. by apply str_leb_antisymm.
    + by eapply bytes_leb_trans.
Qed.

#[local] Instance keyed_le_total : Total keyed_le.
Proof. intros a b. apply (pair_le_total a.1 b.1). Qed.

#[local] Instance keyed_le_trans : Transitive keyed_le.
Proof. intros a b c. apply (pair_le_trans a.1 b.1 c.1). Qed.

Lemma StronglySorted_keys l : StronglySorted keyed_le l -> StronglySorted pair_le l.*1.
Proof.
  induction 1 as [|a l Hl IH Ha]; [constructor|]. rewrite fmap_cons. constructor; [done|].
  apply Forall_fmap. eapply Forall_impl; [done|]. by intros b Hb.
Qed.

Section RuleHash.
Context `{CanonEnv}.

Lemma sorted_rule_values_canon rules :
  canonical_json <$> sorted_rule_values rules = (merge_sort keyed_le (keyed <$> rules)).*1.*2.
Proof using.
  unfold sorted_rule_values. rewrite <- !list_fmap_compose. apply list_fmap_ext.
  intros i x Hx. apply list_elem_of_lookup_2 in Hx. rewrite merge_sort_Permutation in Hx.
  by apply list_elem_of_fmap in Hx as (r & -> & _).
Qed.

Lemma sorted_rules_order_free rules rules' :
  rules ≡ₚ rules' ->
  canonical_json (JArr (sorted_rule_values rules)) = canonical_json (JArr (sorted_rule_values rules')).
Proof using.
  intros Hp. cbn [canonical_json].
  change (map canonical_json ?l) with (canonical_json <$> l). rewrite !sorted_rule_values_canon.
  assert ((merge_sort keyed_le (keyed <$> rules)).*1 = (merge_sort keyed_le (keyed <$> rules')).*1) as ->;
    [|done].
  apply (StronglySorted_unique pair_le).
  - apply StronglySorted_keys, StronglySorted_merge_sort; apply _.
  - apply StronglySorted_keys, StronglySorted_merge_sort; apply _.
  - by rewrite !merge_sort_Permutation, Hp.
Qed.

(** A rule set has one hash: the hash the parent signs and the hash a project
    stamps on its chain do not depend on the order of the rules. *)
Theorem rule_hash_order_free rules rules' limits ph oh :
  rules ≡ₚ rules' ->
  parent_rules_hash rules limits = parent_rules_hash rules' limits /\
  effective_hash ph oh rules limits = effective_hash ph oh rules' limits.
Proof using.
  intros Hp%sorted_rules_order_free. unfold parent_rules_hash, effective_hash, sha256_domain.
  cbn [canonical_json map fst snd] in *. by rewrite Hp.
Qed.

End RuleHash.

(** ** Concrete policies *)

Module ToyOverlay.

Definition env : OverlayEnv := {|
  f64_to_string := F64.fmt2;
  dbg_str s := s;
  toml_from_str s := Err s;
|}.

Definition no_delete : GovernanceRule :=
  mkRule "USR-1" "no deletes" Legislative Blocking true None None General (Some "fs.delete*") None true.

Definition policy : ParentPolicy :=
  mkPolicy PARENT_SCHEMA "k" 3 "t" [no_delete; GovExample.warn_rule]
    (mkLimits (Some (F64.lit 6 1)) (Some 64) None None) "" "".

Definition file : OverlayFile :=
  mkOverlayFile OVERLAY_SCHEMA
    [mkDeny "project.no-shell" ["tool.shell_exec"; "workload.place*"] None]
    [mkApproval None ["workload.start*"] None]
    (mkLimits (Some (F64.lit 5 1)) (Some 32) (Some 4) (Some true)) [].

Definition overlay : Overlay := @overlay_from_file ToyCanon.ed ToyCanon.env file.

Definition merged : Effective :=
  match @merge ToyCanon.ed ToyCanon.env env policy overlay with
  | Ok e => e
  | Err _ => mkEffective [] no_limits [] [] [] [] [] 0
  end.

Definition request (action : string) : GovernanceRequest :=
  mkRequest "agent-1" action effect_default ∅ None None.

Lemma merged_ok : @merge ToyCanon.ed ToyCanon.env env policy overlay = Ok merged.
Proof. vm_compute. reflexivity. Qed.

Lemma policy_general : Forall approval_general (pp_rules policy).
Proof. repeat constructor; intros Ht; vm_compute in Ht; discriminate Ht. Qed.

End ToyOverlay.

Lemma overlay_only_tightens_witness :
  let lim := RL.new DEFAULT_GOVERNANCE_EVAL_RATE in
  let r := ToyOverlay.request "fs.delete_all" in
  strictness (gr_decision (Engine.evaluate None (parent_engine lim None ToyOverlay.policy) 5 r).2) = 3%nat /\
  (strictness (gr_decision (Engine.evaluate None (parent_engine lim None ToyOverlay.policy) 5 r).2)
   <= strictness (gr_decision (Engine.evaluate None (project_engine lim None ToyOverlay.merged) 5 r).2))%nat.
Proof.
  cbn zeta. split; [vm_compute; reflexivity|].
  refine (@overlay_only_tightens ToyCanon.ed ToyCanon.env ToyOverlay.env ToyOverlay.policy ToyOverlay.overlay
    ToyOverlay.merged None (RL.new DEFAULT_GOVERNANCE_EVAL_RATE) None 5 (ToyOverlay.request "fs.delete_all") ToyOverlay.merged_ok
    ToyOverlay.policy_general).
Defined.

Lemma overlay_rules_enforced_witness :
  let lim := RL.new DEFAULT_GOVERNANCE_EVAL_RATE in
  strictness (gr_decision (Engine.evaluate None (project_engine lim None ToyOverlay.merged) 5
    (ToyOverlay.request "workload.placement.x")).2) = 3%nat.
Proof.
  cbn zeta.
  refine (proj1 (@overlay_rules_enforced ToyCanon.ed ToyCanon.env ToyOverlay.env ToyOverlay.policy
    ToyOverlay.overlay ToyOverlay.merged None (RL.new DEFAULT_GOVERNANCE_EVAL_RATE) None 5 (ToyOverlay.request "workload.placement.x")
    "workload.place*" ToyOverlay.merged_ok _) (mkDeny "project.no-shell" ["tool.shell_exec"; "workload.place*"] None) _ _).
  - vm_compute. reflexivity.
  - left.
  - right. left.
Defined.

(** ** The approval tag on another kind of rule

    The engine honours the approval tag only on general rules, but the merge
    leaves every rule that carries it out of the hardening. *)

Definition tagged_binding : GovernanceRule :=
  mkRule BINDING_THREAD_RULE_ID "soul" Legislative Blocking true None (Some OVERLAY_APPROVAL_TAG)
    BindingThread None None false.

Definition tagged_policy : ParentPolicy :=
  mkPolicy PARENT_SCHEMA "k" 3 "t" [tagged_binding] (mkLimits (Some (F64.lit 6 1)) None None None) "" "".

(** A parent's binding-thread rule that carries the approval tag denies in the
    parent, and an overlay that does nothing but require human approval turns
    the same denial into a question in the project. *)
Theorem approval_tag_softens `{CanonEnv} `{OverlayEnv} :
  exists eff, merge tagged_policy
      (overlay_from_file (mkOverlayFile OVERLAY_SCHEMA [] [] (mkLimits None None None (Some true)) [])) = Ok eff /\
    let lim := RL.new DEFAULT_GOVERNANCE_EVAL_RATE in
    let r := GovExample.soul_request in
    strictness (gr_decision (Engine.evaluate None (parent_engine lim None tagged_policy) 5 r).2) = 3%nat /\
    strictness (gr_decision (Engine.evaluate None (project_engine lim None eff) 5 r).2) = 2%nat.
Proof.
  eexists. split; [unfold merge, of_tighten; cbn -[sorted_rule_values parent_rules_hash effective_hash]; reflexivity|].
  split; vm_compute; reflexivity.
Qed.
