(* ===== verification/Policy.v ===== *)
(** The signed parent policy: crates/clawft-kernel/src/parent_policy.rs, with
    the size-capped file reads of governance_overlay.rs.

    The JSON (de)serialisation of a policy is the class [PolicyEnv].  What the
    file system answers to one operation is a [Disk]; a write is returned as
    the path and the contents written. *)

From Stdlib Require Import Strings.String Floats.SpecFloat.
From S2P Require Import Prelude.
From S2P Require Import Codec.
From S2P Require Import Governance.
From S2P Require Import Delegation.
From S2P Require Import Canon.
From S2P Require Import Overlay.
Open Scope N_scope.

Class PolicyEnv := {
  policy_to_json : ParentPolicy -> result string string;
  policy_from_json : string -> result ParentPolicy string;
}.

(** ** Files *)

(** [std::fs::metadata] *)
Inductive Meta :=
| MetaNotFound
| MetaErr (msg : string)
| MetaOk (is_file : bool) (len : N).

(** What one operation finds on disk: the metadata of a path, the outcome of
    reading a file as text ([None] is not found), the bytes of a file, and
    whether an atomic write goes through.  The read of [read_capped] is
    bounded, so [disk_text] of a path is what that read returns. *)
Record Disk := mkDisk {
  disk_meta : string -> Meta;
  disk_text : string -> result string (option string);
  disk_bytes : string -> option bytes;
  disk_write : string -> result unit string;
}.

(** [Path::exists] *)
Definition exists_ (d : Disk) (path : string) : bool :=
  match disk_meta d path with MetaOk _ _ => true | _ => false end.

Definition str_len (s : string) : N := lenN (str_bytes s).

(** [std::io::Error] of a text read, displayed *)
Definition io_reason (e : option string) : string := default "No such file or directory" e.

(** [read_capped] *)
Definition read_capped (d : Disk) (path : string) : result (option string) OverlayError :=
  match disk_meta d path with
  | MetaNotFound => Ok None
  | MetaErr m => Err (Io path m)
  | MetaOk is_file len =>
      let? _ := throw_if (negb is_file) (Io path "not a regular file") in
      let? _ := throw_if (MAX_FILE_BYTES <? len) (TooLarge path len) in
      match disk_text d path with
      | Err e => Err (Io path (io_reason e))
      | Ok buf =>
          let? _ := throw_if (MAX_FILE_BYTES <? str_len buf) (TooLarge path (str_len buf)) in
          Ok (Some buf)
      end
  end.

(** [Path::join] of a relative name *)
Definition join (p name : string) : string :=
  if String.eqb p "" then name
  else match strip_suffix_char "/" p with
       | Some _ => p +:+ name
       | None => p +:+ "/" +:+ name
       end.

(** ** Atomic writes

    The files of a directory by their path.  Each call may fail, and a write
    may stop after some bytes. *)

Abbreviation Files := (gmap string bytes).

Record WriteOutcome := mkOutcome {
  wo_mkdir : bool;
  wo_remove : bool;
  wo_create : bool;
  wo_written : nat;
  wo_write : bool;
  wo_sync : bool;
  wo_rename : bool;
  wo_cleanup : bool;
}.

(** The temporary name beside [name], for the process [pid] *)
Definition tmp_name (name : string) (pid : N) : string := "." +:+ name +:+ "." +:+ pretty pid +:+ ".tmp".

(** [write_atomic_0600] of [dir]/[name]: the states of the directory after each
    call, the last being the final one, and whether it succeeded *)
Definition write_atomic (dir name : string) (pid : N) (data : bytes) (o : WriteOutcome) (fs : Files)
  : list Files * bool :=
  let path := join dir name in
  let tmp := join dir (tmp_name name pid) in
  let cleanup fs := if wo_cleanup o then delete tmp fs else fs in
  if negb (wo_mkdir o) then ([fs], false)
  else
    let s1 := if wo_remove o then delete tmp fs else fs in
    if negb (wo_create o) || bool_decide (is_Some (s1 !! tmp)) then ([s1; cleanup s1], false)
    else
      let s2 := <[tmp := []]> s1 in
      if negb (wo_write o) then
        let s3 := <[tmp := take (wo_written o) data]> s2 in ([s1; s2; s3; cleanup s3], false)
      else
        let s3 := <[tmp := data]> s2 in
        if negb (wo_sync o) then ([s1; s2; s3; cleanup s3], false)
        else if negb (wo_rename o) then ([s1; s2; s3; cleanup s3], false)
        else ([s1; s2; s3; <[path := data]> (delete tmp s3)], true).

(** ** Verification *)

Definition PARENT_POLICY_DOMAIN : string := "weftos-parent-policy-v1" +:+ nl.
Definition VERSION_SLACK_SECS : N := 86400.

(** [check_limits] *)
Definition check_limits (l : Limits) : result unit ParentPolicyError :=
  let? _ := match lim_risk_threshold l with
            | Some r => throw_if (negb (unit_interval r)) (PLimit "risk_threshold")
            | None => Ok tt
            end in
  throw_if (bool_decide (lim_max_processes l = Some 0)) (PLimit "max_processes").

(** The loop over the rule ids *)
Fixpoint check_rule_ids (i : nat) (rules : list GovernanceRule) : result unit ParentPolicyError :=
  match rules with
  | [] => Ok tt
  | r :: rules =>
      if String.eqb (rule_id r) "" || negb (String.eqb (rule_id r) (trim (rule_id r)))
      then Err (PRuleId i) else check_rule_ids (S i) rules
  end.

Definition with_sig (sig : string) (p : ParentPolicy) : ParentPolicy :=
  mkPolicy (pp_schema p) (pp_user_key_id p) (pp_version p) (pp_issued_at p) (pp_rules p) (pp_limits p)
    (pp_rule_hash p) sig.

(** [f64::min] *)
Definition f64_min (a b : f64) : f64 :=
  match a, b with
  | S754_nan, _ => b
  | _, S754_nan => a
  | _, _ => if F64.ltb a b then a else b
  end.

(** [u64::try_from(now.timestamp()).unwrap_or(0)] *)
Definition clock_secs (now : Z) : N := Z.to_N (now / 1000000000).

(** [next_version] *)
Definition next_version (prev : N) (now : Z) : N := N.max (sat_add64 prev 1) (clock_secs now).

Section Policy.
Context `{CanonEnv} `{OverlayEnv} `{PolicyEnv}.

(** [load_overlay] *)
Definition load_overlay (d : Disk) (path : string) : result Overlay OverlayError :=
  let? text := read_capped d path in
  match text with
  | None => Ok overlay_empty
  | Some t => overlay_from_toml t
  end.

(** [ParentPolicy::body], [ParentPolicy::signed_bytes] *)
Definition policy_body (p : ParentPolicy) : Json :=
  JObj [("schema", json_num (pp_schema p)); ("user_key_id", JStr (pp_user_key_id p));
        ("version", json_num (pp_version p)); ("issued_at", JStr (pp_issued_at p));
        ("rules", JArr (sorted_rule_values (pp_rules p))); ("limits", limits_value (pp_limits p));
        ("rule_hash", JStr (pp_rule_hash p))].

Definition policy_bytes (p : ParentPolicy) : bytes :=
  str_bytes PARENT_POLICY_DOMAIN ++ str_bytes (canonical_json (policy_body p)).

(** [verify_parent_policy] *)
Definition verify_parent_policy (p : ParentPolicy) (user_pubkey : bytes) : result unit ParentPolicyError :=
  let? _ := throw_if (negb (pp_schema p =? PARENT_SCHEMA)) (PSchema (pp_schema p)) in
  let? _ := throw_if (negb (String.eqb (pp_user_key_id p) (key_id user_pubkey))) PUserKey in
  let ts_ok := match parse_rfc3339 (pp_issued_at p) with
               | Some t => String.eqb (rfc3339_secs t) (pp_issued_at p)
               | None => false
               end in
  let? _ := throw_if (negb ts_ok) PIssuedAt in
  let? _ := check_rule_ids 0 (pp_rules p) in
  let? _ := check_limits (pp_limits p) in
  let? _ := throw_if (negb (String.eqb (pp_rule_hash p)
                              (hex_string (parent_rules_hash (pp_rules p) (pp_limits p))))) PRuleHash in
  let? sig := ok_or (hex_decode_n 64 (pp_sig p)) PSigFormat in
  match vk_from_bytes user_pubkey with
  | Err _ => Err PUserKey
  | Ok vk => throw_if (negb (verify_strict vk (policy_bytes p) sig)) PBadSignature
  end.

(** [load_parent_policy] *)
Definition load_parent_policy (d : Disk) (path : string) : result ParentPolicy OverlayError :=
  let? text := read_capped d path in
  let? text := ok_or text (Parent (PFile (path +:+ " does not exist"))) in
  match policy_from_json text with
  | Ok p => Ok p
  | Err e => Err (Parent (PFile ("does not parse: " +:+ e)))
  end.

(** ** Export *)

(** [export_rules] *)
Definition export_rules (rules : list GovernanceRule) (engine_threshold : f64) (engine_human : bool)
  (limits : Limits) (key : SigningKey) (version : N) (issued_at : Z)
  : result ParentPolicy ParentPolicyError :=
  let threshold := match lim_risk_threshold limits with
                   | Some r => f64_min r engine_threshold
                   | None => engine_threshold
                   end in
  let limits := mkLimits (Some threshold) (lim_max_processes limits) (lim_spawn_budget limits)
                  (Some (engine_human || default false (lim_human limits))) in
  let? _ := check_limits limits in
  let pubkey := vk_to_bytes (verifying_key key) in
  let p := mkPolicy PARENT_SCHEMA (key_id pubkey) version (rfc3339_secs issued_at) rules limits
             (hex_string (parent_rules_hash rules limits)) "" in
  Ok (with_sig (hex_string (ed_sign key (policy_bytes p))) p).

(** [export] *)
Definition export (engine : GovernanceEngine) (limits : Limits) (key : SigningKey) (version : N)
  (issued_at : Z) : result ParentPolicy ParentPolicyError :=
  export_rules (rules engine) (risk_threshold engine) (human_approval_required engine) limits key
    version issued_at.

(** The version [export_rules_to] continues from: the one of a policy in the
    file that this key signed, at most the slack ahead of the clock *)
Definition prev_version (d : Disk) (path : string) (pubkey : bytes) (now : Z) : N :=
  let slack := clock_secs now + VERSION_SLACK_SECS in
  let prev := match load_parent_policy d path with
              | Ok p => if is_ok (verify_parent_policy p pubkey) then pp_version p else 0
              | Err _ => 0
              end in
  N.min prev slack.

(** [export_rules_to], with the file it writes *)
Definition export_rules_to (d : Disk) (path : string) (rules : list GovernanceRule)
  (engine_threshold : f64) (engine_human : bool) (limits : Limits) (key : SigningKey) (now : Z)
  : result (ParentPolicy * string) ParentPolicyError :=
  let pubkey := vk_to_bytes (verifying_key key) in
  let prev := prev_version d path pubkey now in
  let? p := export_rules rules engine_threshold engine_human limits key (next_version prev now) now in
  let? text := map_err (fun e => PFile ("serialize: " +:+ e)) (policy_to_json p) in
  let? _ := map_err (fun e => PFile (path +:+ ": " +:+ e)) (disk_write d path) in
  Ok (p, text).

(** [export_to] *)
Definition export_to (d : Disk) (path : string) (engine : GovernanceEngine) (limits : Limits)
  (key : SigningKey) (now : Z) : result (ParentPolicy * string) ParentPolicyError :=
  export_rules_to d path (rules engine) (risk_threshold engine) (human_approval_required engine)
    limits key now.

End Policy.

(** ** What an accepted policy establishes *)

Section PolicyFacts.
Context `{CanonEnvLaws} `{OverlayEnv} `{PolicyEnv} `{!Ed25519Laws}.

Definition rule_id_ok_ (r : GovernanceRule) : Prop := rule_id r <> "" /\ trim (rule_id r) = rule_id r.

Lemma check_rule_ids_ok i rules u : check_rule_ids i rules = Ok u <-> Forall rule_id_ok_ rules.
Proof using.
  destruct u. revert i. induction rules as [|r rules IH]; intros i; cbn [check_rule_ids]; [done|].
  rewrite Forall_cons. unfold rule_id_ok_ at 1.
  destruct (String.eqb_spec (rule_id r) "") as [He|He]; cbn; [by split; [|intros [[? _] _]]|].
  destruct (String.eqb_spec (rule_id r) (trim (rule_id r))) as [Ht|Ht]; cbn.
  - rewrite IH. split; [done|by intros [_ ?]].
  - split; [done|]. intros [[_ ?] _]. congruence.
Qed.

Lemma check_limits_ok l u :
  check_limits l = Ok u <->
  (forall r, lim_risk_threshold l = Some r -> unit_interval r = true) /\ lim_max_processes l <> Some 0.
Proof using.
  destruct u. unfold check_limits. split.
  - intros Hc. inv_ok. apply bool_decide_eq_false in Hc. split; [|done].
    intros r Hr. rewrite Hr in Hok. inv_ok. by apply negb_false_iff.
  - intros [Hr Hp]. rewrite (bool_decide_eq_false_2 _ Hp).
    destruct (lim_risk_threshold l) as [r|]; [|done]. by rewrite (Hr r).
Qed.

(** The statement a policy's signature covers, and the form it must have *)
Record policy_ok (p : ParentPolicy) (pk : bytes) : Prop := mkPolicyOk {
  po_schema : pp_schema p = PARENT_SCHEMA;
  po_key : pp_user_key_id p = key_id pk;
  po_time : exists t, parse_rfc3339 (pp_issued_at p) = Some t /\ rfc3339_secs t = pp_issued_at p;
  po_ids : Forall rule_id_ok_ (pp_rules p);
  po_risk : forall r, lim_risk_threshold (pp_limits p) = Some r -> unit_interval r = true;
  po_procs : lim_max_processes (pp_limits p) <> Some 0;
  po_hash : pp_rule_hash p = hex_string (parent_rules_hash (pp_rules p) (pp_limits p));
  po_sig : exists vk sig, vk_from_bytes pk = Ok vk /\ length sig = 64%nat /\
    pp_sig p = hex_string sig /\ verify_strict vk (policy_bytes p) sig = true;
}.

Lemma verify_policy_ok p pk :
  verify_parent_policy p pk = Ok tt <-> policy_ok p pk.
Proof using.
  unfold verify_parent_policy. split.
  - intros Hv. inv_ok. rewrite negb_false_iff in *.
    apply N.eqb_eq in Hok. apply String.eqb_eq in Hok0, Hok4. apply check_rule_ids_ok in Hok2.
    apply check_limits_ok in Hok3 as [Hr Hp]. apply hex_one_spelling in Hok5 as [Hl Hs].
    destruct (parse_rfc3339 (pp_issued_at p)) as [tm|] eqn:Ht; [|done]. apply String.eqb_eq in Hok1.
    constructor; try done; eauto 7.
  - intros [Hs Hk (t & Ht & Hts) Hids Hr Hp Hh (vk & sig & Hvk & Hl & Hsig & Hver)].
    rewrite Hs, Hk, Ht, Hts, !String.eqb_refl, N.eqb_refl. cbn [negb throw_if].
    rewrite (proj2 (check_rule_ids_ok 0 _ tt) Hids), (proj2 (check_limits_ok _ tt) (conj Hr Hp)).
    rewrite <- Hh, String.eqb_refl. cbn [negb throw_if].
    rewrite (proj2 (hex_one_spelling 64 (pp_sig p) sig)) by done. cbn [ok_or].
    by rewrite Hvk, Hver.
Qed.

(** A parent policy is accepted exactly when it has the supported schema, the
    trusted key's id, a canonical time, well-formed rule ids and limits, the
    hash of its own rules, and a signature of the trusted key over all of it. *)
Theorem policy_accepted_exactly p pk :
  verify_parent_policy p pk = Ok tt <-> policy_ok p pk.
Proof using. apply verify_policy_ok. Qed.

Lemma export_rules_inv rs th hum limits k version t p :
  export_rules rs th hum limits k version t = Ok p ->
  exists l, check_limits l = Ok tt /\ pp_version p = version /\ pp_rules p = rs /\ pp_limits p = l /\
    pp_schema p = PARENT_SCHEMA /\ pp_user_key_id p = key_id (vk_to_bytes (verifying_key k)) /\
    pp_issued_at p = rfc3339_secs t /\ pp_rule_hash p = hex_string (parent_rules_hash rs l) /\
    pp_sig p = hex_string (ed_sign k (policy_bytes p)).
Proof using.
  unfold export_rules. intros He. inv_ok. subst p. destruct t0.
  eexists. split; [exact Hok|]. cbn. repeat (split; [done|]). done.
Qed.

(** The user daemon exports what the project kernels accept: a policy that was
    signed verifies under the signer's key, provided the engine's rule ids are
    not empty and carry no surrounding white space. *)
Theorem export_verifies rs th hum limits k version t p :
  export_rules rs th hum limits k version t = Ok p ->
  Forall rule_id_ok_ rs -> time_ok t ->
  verify_parent_policy p (vk_to_bytes (verifying_key k)) = Ok tt.
Proof.
  intros (l & [Hr Hp]%check_limits_ok & Hv & Hrs & Hl & Hs & Hk & Hi & Hh & Hsig)%export_rules_inv Hids Ht.
  apply verify_policy_ok. constructor; try congruence.
  - rewrite Hi. eexists. split; [by apply parse_rfc3339_secs|apply rfc3339_secs_floor].
  - rewrite Hl. done.
  - do 2 eexists. split; [apply vk_round_trip|]. split; [apply sig_length|]. split; [exact Hsig|].
    apply sign_verifies_strict.
Qed.

(** Nothing stops the daemon from signing a policy that every project refuses:
    the export does not look at the rule ids, the verification does. *)
Theorem export_of_padded_id_refused rs th hum limits k version t p :
  export_rules rs th hum limits k version t = Ok p -> time_ok t ->
  Exists (fun r => trim (rule_id r) <> rule_id r) rs ->
  exists i, verify_parent_policy p (vk_to_bytes (verifying_key k)) = Err (PRuleId i).
Proof.
  intros (l & _ & _ & Hrs & _ & Hs & Hk & Hi & _)%export_rules_inv Ht Hex.
  unfold verify_parent_policy. rewrite Hs, Hk, Hi, parse_rfc3339_secs, rfc3339_secs_floor by done.
  rewrite !String.eqb_refl. cbn [negb throw_if N.eqb PARENT_SCHEMA]. rewrite Hrs.
  assert (forall i, exists j, check_rule_ids i rs = Err (PRuleId j)) as Hc.
  { clear -Hex. induction Hex as [r rs Hr|r rs Hex IH]; intros i; cbn [check_rule_ids].
    - destruct (String.eqb_spec (rule_id r) (trim (rule_id r))) as [E|E]; [congruence|].
      rewrite orb_true_r. eauto.
    - destruct (_ || _); eauto. }
  destruct (Hc 0%nat) as [j ->]. exists j. done.
Qed.

(** ** Versions *)

(** A new version is past the previous one and not behind the clock, until the
    width of the counter is reached. *)
Lemma next_version_past prev now :
  prev < u64_mod - 1 -> prev < next_version prev now /\ clock_secs now <= next_version prev now.
Proof using. unfold next_version, sat_add64, u64_mod in *. lia. Qed.

(** Exporting over a file that holds a policy of this key moves the version
    forward, as long as that version is at most a day ahead of the clock. *)
Theorem export_moves_forward d path rs th hum limits k now p text q :
  export_rules_to d path rs th hum limits k now = Ok (p, text) ->
  load_parent_policy d path = Ok q ->
  verify_parent_policy q (vk_to_bytes (verifying_key k)) = Ok tt ->
  pp_version q <= clock_secs now + VERSION_SLACK_SECS -> pp_version q < u64_mod - 1 ->
  pp_version q < pp_version p /\ clock_secs now <= pp_version p.
Proof using.
  unfold export_rules_to. intros He Hl Hv Hslack Hmax. inv_ok. subst.
  apply export_rules_inv in Hok as (l & _ & -> & _).
  unfold prev_version. rewrite Hl, Hv. cbn [is_ok]. rewrite N.min_l by done. by apply next_version_past.
Qed.

(** With a clock set back by more than the slack the version goes backwards:
    the export continues from the clamped version, so it signs a policy older
    than the one it replaces. *)
Theorem export_version_regresses d path rs th hum limits k now p text q :
  export_rules_to d path rs th hum limits k now = Ok (p, text) ->
  load_parent_policy d path = Ok q ->
  verify_parent_policy q (vk_to_bytes (verifying_key k)) = Ok tt ->
  clock_secs now + VERSION_SLACK_SECS + 1 < pp_version q ->
  pp_version p < pp_version q.
Proof using.
  unfold export_rules_to. intros He Hl Hv Hslack. inv_ok. subst.
  apply export_rules_inv in Hok as (l & _ & -> & _).
  unfold prev_version, next_version, sat_add64. rewrite Hl, Hv. cbn [is_ok].
  unfold VERSION_SLACK_SECS in *. lia.
Qed.

End PolicyFacts.

(** ** Crashes *)

Lemma string_app_inj_l p a b : p +:+ a = p +:+ b -> a = b.
Proof. intros E. apply (f_equal str_bytes) in E. rewrite !str_bytes_app in E. by apply str_bytes_inj, (app_inv_head (str_bytes p)). Qed.

Lemma join_inj d a b : join d a = join d b -> a = b.
Proof.
  unfold join. destruct (String.eqb d ""); [done|]. destruct (strip_suffix_char "/" d).
  - apply string_app_inj_l.
  - intros E%string_app_inj_l. by injection E.
Qed.

Lemma tmp_not_path dir name pid : join dir (tmp_name name pid) <> join dir name.
Proof.
  intros E%join_inj. apply (f_equal (fun s => length (str_bytes s))) in E.
  unfold tmp_name in E. rewrite !str_bytes_app, !length_app in E. cbn in E. lia.
Qed.

(** A file written atomically is never seen half written: after every call, a
    crash or a failed call at any point included, the file holds its old
    contents or the new ones, other files than the temporary one are
    untouched, and the call reports success exactly when the new contents are
    in place. *)
Theorem write_atomic_safe dir name pid data o fs :
  let path := join dir name in
  let tmp := join dir (tmp_name name pid) in
  let '(states, ok) := write_atomic dir name pid data o fs in
  Forall (fun s : Files => (s !! path = fs !! path \/ s !! path = Some data) /\
    forall other, other <> path -> other <> tmp -> s !! other = fs !! other) states /\
  exists final, last states = Some final /\
    final !! path = (if ok then Some data else fs !! path) /\
    (ok = true -> final !! tmp = None) /\ (wo_cleanup o = true -> wo_mkdir o = true -> final !! tmp = None).
Proof.
  cbn zeta. pose proof (tmp_not_path dir name pid) as Hne. unfold write_atomic.
  set (path := join dir name) in *. set (tmp := join dir (tmp_name name pid)) in *.
  destruct o as [[] [] [] n [] [] [] []]; cbn; try case_bool_decide; cbn;
    (split; [repeat constructor; intros; by simplify_map_eq|]);
    eexists; (split; [done|]); repeat split; intros; by simplify_map_eq.
Qed.
