(* ===== verification/OverlayRuntime.v ===== *)
(** A project kernel's live governance: crates/clawft-kernel/src/overlay_trust.rs
    and overlay_runtime.rs, with the child paths of
    crates/clawft-types/src/runtime_paths/child.rs.

    An operation takes what the file system answers it ([Disk] of Policy.v) and
    the instants it reads; it returns the files it wrote and the chain after
    its appends.  The JSON reader of certificates and the construction of a
    signing key from its seed are the class [TrustEnv]; the chain's digest and
    serializer are those of Chain.v. *)

From Stdlib Require Import Strings.String.
From S2P Require Import Prelude.
From S2P Require Import Codec.
From S2P Require Import Chain.
From S2P Require Import RateLimit.
From S2P Require Import Governance.
From S2P Require Import Gate.
From S2P Require Import Delegation.
From S2P Require Import Canon.
From S2P Require Import Overlay.
From S2P Require Import Policy.
Open Scope N_scope.

Class TrustEnv `{Ed25519} := {
  cert_from_json : string -> result ProjectCert string;
  sk_from_bytes : bytes -> SigningKey;
  shake256 : bytes -> bytes;
  to_vec : Json -> bytes;
  absolutize : string -> string;
}.

(** ** Paths *)

Inductive RootSource :=
| Child (id project_root trust_root : string)
| OtherRoot.

Record RuntimePaths := mkPaths {
  rp_root : string;
  rp_source : RootSource;
}.

Definition trust_root (p : RuntimePaths) : string :=
  match rp_source p with Child _ _ t => t | OtherRoot => rp_root p end.

Definition child_weftos_dir (p : RuntimePaths) : option string :=
  match rp_source p with Child _ root _ => Some (join root ".weftos") | OtherRoot => None end.

Definition child_id (p : RuntimePaths) : option string :=
  match rp_source p with Child id _ _ => Some id | OtherRoot => None end.

Definition parent_policy_path (p : RuntimePaths) : string := join (trust_root p) "parent-policy.json".
Definition revoked_marker (p : RuntimePaths) : string := join (trust_root p) "revoked".
Definition project_key_path (p : RuntimePaths) : option string :=
  (fun d => join d "project.key") <$> child_weftos_dir p.
Definition project_cert_path (p : RuntimePaths) : option string :=
  (fun d => join d "project.cert.json") <$> child_weftos_dir p.
Definition overlay_path (p : RuntimePaths) : option string :=
  (fun d => join d "overlay.toml") <$> child_weftos_dir p.
Definition state_dir (p : RuntimePaths) : option string :=
  (fun d => join d "state") <$> child_weftos_dir p.

(** [safe_component] *)
Definition safe_component (id : string) : bool :=
  negb (String.eqb id "")
  && forallb (fun c => let n := Byte.to_N c in
       ((48 <=? n) && (n <=? 57)) || ((65 <=? n) && (n <=? 90)) || ((97 <=? n) && (n <=? 122)))
     (str_bytes id).

(** [child_run_dir] *)
Definition child_run_dir (run_root id : string) : option string :=
  if safe_component id then Some (join run_root id) else None.

(** The marker the user daemon writes for a child, [revoked_marker] of the module *)
Definition daemon_revoked_marker (run_root id : string) : option string :=
  (fun d => join d "revoked") <$> child_run_dir run_root id.

(** [child_paths] *)
Definition child_paths (p : RuntimePaths) : result RuntimePaths OverlayError :=
  match child_id p with Some _ => Ok p | None => Err NotAChild end.

(** ** overlay_trust.rs *)

Definition USER_PIN_FILE : string := "user.pub".
Definition OVERLAY_APPLIED_SOURCE : string := "governance".
Definition OVERLAY_APPLIED_KIND : string := "governance.overlay.applied".
Definition OVERLAY_REJECTED_KIND : string := "governance.overlay.rejected".

Record History := mkHistory {
  last_overlay_hash : option string;
  max_parent_version : option N;
  user_pin_used : bool;
  any_applied : bool;
}.

Definition empty_history : History := mkHistory None None false false.

(** [Value::as_bool] *)
Definition json_as_bool (j : Json) : option bool := match j with JBool b => Some b | _ => None end.

(** The events [chain_history] reads *)
Definition is_applied (e : ChainEvent) : bool :=
  String.eqb (ce_kind e) OVERLAY_APPLIED_KIND && String.eqb (ce_source e) OVERLAY_APPLIED_SOURCE.

Definition history_step (h : History) (e : ChainEvent) : History :=
  let field k := ce_payload e ≫= json_get k in
  let version := match field "parent_version" ≫= json_as_u64 with
                 | Some v => Some (match max_parent_version h with Some m => N.max m v | None => v end)
                 | None => max_parent_version h
                 end in
  mkHistory (Some (default "" (field "overlay_hash" ≫= json_as_str))) version
    (user_pin_used h || bool_decide (field "user_pin" ≫= json_as_bool = Some true)) true.

(** [chain_history] *)
Definition chain_history (c : LocalChain) : History :=
  foldl history_step empty_history (List.filter is_applied (chain_tail c 0)).

(** [str::parse::<u64>] *)
Definition digit_of (c : byte) : option N :=
  let n := Byte.to_N c in if (48 <=? n) && (n <=? 57) then Some (n - 48) else None.

Fixpoint parse_digits (acc : N) (s : bytes) : option N :=
  match s with
  | [] => Some acc
  | c :: s =>
      d ← digit_of c;
      let v := acc * 10 + d in
      if v <? u64_mod then parse_digits v s else None
  end.

Definition parse_u64 (s : string) : option N :=
  let b := match str_bytes s with x2b :: b => b | b => b end in
  match b with [] => None | _ => parse_digits 0 b end.

Definition pin_path (p : RuntimePaths) : option string :=
  (fun d => join d VERSION_PIN_FILE) <$> state_dir p.

(** [read_pin] *)
Definition read_pin (d : Disk) (p : RuntimePaths) : result (option N) OverlayError :=
  match pin_path p with
  | None => Ok None
  | Some path =>
      match disk_text d path with
      | Ok t => match parse_u64 (trim t) with
                | Some v => Ok (Some v)
                | None => Err (PinCorrupt path "not a version number")
                end
      | Err None => Ok None
      | Err (Some e) => Err (PinCorrupt path e)
      end
  end.

(** A file written: its path and contents *)
Abbreviation Write := (string * string)%type.

(** [write_pin] *)
Definition write_pin (d : Disk) (p : RuntimePaths) (version : N) : result (list Write) OverlayError :=
  match pin_path p with
  | None => Err NotAChild
  | Some path =>
      let? _ := map_err (fun e => Io path e) (disk_write d path) in
      Ok [(path, pretty version)]
  end.

(** [write_user_pin] *)
Definition write_user_pin (d : Disk) (run_dir : string) (pubkey : bytes) : result (list Write) string :=
  let path := join run_dir USER_PIN_FILE in
  let? _ := disk_write d path in
  Ok [(path, hex_string pubkey +:+ nl)].

(** [check_version] *)
Definition check_version (parent : ParentPolicy) (pinned : option N) : result unit OverlayError :=
  match pinned with
  | Some v => throw_if (pp_version parent <? v) (Parent (PRollback (pp_version parent) v))
  | None => Ok tt
  end.

Section Trust.
Context `{CanonEnv} `{OverlayEnv} `{PolicyEnv} `{!TrustEnv}.

(** [Display] of a certificate error *)
Definition cert_error_to_string (e : CertError) : string :=
  match e with
  | BadVersion v => "unsupported certificate version " +:+ pretty v
  | BadType t => "unexpected certificate type " +:+ dbg_str t
  | BadHex f => "malformed hex field `" +:+ f +:+ "`"
  | BadTimestamp f => "malformed timestamp field `" +:+ f +:+ "`"
  | KeyIdMismatch f => "`" +:+ f +:+ "` does not match its public key"
  | UntrustedUser => "certificate not issued by the trusted user key"
  | BadSig => "signature does not verify"
  | Expired => "certificate expired"
  | NotYetValid => "certificate issued in the future"
  | BadProjectId => "project_id is not a canonical ULID"
  | BadDigest f => "field `" +:+ f +:+ "` is not 64 lowercase hex characters"
  | BadNonce => "nonce is not " +:+ pretty (N.of_nat POP_NONCE_HEX_LEN) +:+ " lowercase hex characters"
  end.

(** The user key of the pin file, or the certificate's own without one *)
Definition pinned_key (d : Disk) (p : RuntimePaths) (cert_pk : bytes) : result (bytes * bool) OverlayError :=
  let path := join (trust_root p) USER_PIN_FILE in
  let? pin := read_capped d path in
  match pin with
  | Some t =>
      let? k := ok_or (hex_decode_n 32 (trim t)) (Cert (path +:+ " is not 64 lowercase hex")) in
      if negb (bool_decide (k = cert_pk))
      then Err (Cert "`user_pubkey` differs from the user.pub pin in the run dir")
      else Ok (k, true)
  | None => Ok (cert_pk, false)
  end.

(** The key beside the certificate, when it can be read, is the certified one. *)
Definition check_project_key (d : Disk) (p : RuntimePaths) (c : ProjectCert) : result unit OverlayError :=
  match project_key_path p ≫= disk_bytes d with
  | Some seed =>
      if (length seed =? 32)%nat
         && negb (String.eqb (hex_string (vk_to_bytes (verifying_key (sk_from_bytes seed))))
                    (pc_project_pubkey c))
      then Err (Cert "project.key is not the certified project key") else Ok tt
  | None => Ok tt
  end.

(** [load_user_pubkey] *)
Definition load_user_pubkey (d : Disk) (p : RuntimePaths) (now : Z) : result (bytes * bool) OverlayError :=
  let? _ := throw_if (exists_ d (revoked_marker p)) (Revoked (revoked_marker p)) in
  let? path := ok_or (project_cert_path p) (Cert "no certificate path for this root") in
  let? text := read_capped d path in
  let? text := ok_or text (Cert (path +:+ " does not exist")) in
  let? cert := map_err (fun e => Cert ("does not parse: " +:+ e)) (cert_from_json text) in
  let? cert_pk := ok_or (hex_decode_n 32 (pc_user_pubkey cert))
                    (Cert "`user_pubkey` is not 64 lowercase hex") in
  let? key := pinned_key d p cert_pk in
  let? _ := map_err (fun e => Cert (cert_error_to_string e)) (cert_verify cert key.1 now) in
  let? _ := throw_if (negb (bool_decide (Some (pc_project_id cert) = child_id p)))
              (Cert "`project_id` is not this kernel's project") in
  let? _ := check_project_key d p cert in
  Ok key.

(** [RuntimePaths::child_at], [RuntimePaths::child_container_at] *)
Definition child_at (run_dir id project_root : string) : option RuntimePaths :=
  let run_dir := absolutize run_dir in
  if safe_component id then Some (mkPaths run_dir (Child id (absolutize project_root) run_dir)) else None.

Definition child_container_at (run_dir trust_dir id project_root : string) : option RuntimePaths :=
  p ← child_at run_dir id project_root;
  Some match rp_source p with
       | Child id root _ => mkPaths (rp_root p) (Child id root (absolutize trust_dir))
       | OtherRoot => p
       end.

(** [install_nested_policy]: the contract is set once *)
Definition install_nested_policy (contract : option (RuntimePaths * bytes * ParentPolicy))
  (run home id : string) (master : bytes) (policy : ParentPolicy)
  : option (RuntimePaths * bytes * ParentPolicy) * result unit string :=
  match verify_parent_policy policy master with
  | Err e => (contract, Err (policy_error_to_string e))
  | Ok _ =>
      match child_at run id home with
      | None => (contract, Err "invalid nested instance id")
      | Some paths =>
          match contract with
          | Some _ => (contract, Err "nested policy already installed")
          | None => (Some (paths, master, policy), Ok tt)
          end
      end
  end.

(** [nested_pin] *)
Definition nested_pin (d : Disk) (p : RuntimePaths) : result bytes OverlayError :=
  let? _ := throw_if (exists_ d (revoked_marker p)) (Cert "nested instance revoked") in
  match disk_text d (join (rp_root p) USER_PIN_FILE) with
  | Err e => Err (Cert (io_reason e))
  | Ok t => ok_or (hex_decode_n 32 (trim t)) (Cert "missing or malformed nested master pin")
  end.

End Trust.

(** ** overlay_runtime.rs *)

Record Applied := mkApplied {
  ap_parent_hash : string;
  ap_overlay_hash : string;
  ap_effective_hash : string;
  ap_parent_version : N;
  ap_rule_count : N;
  ap_restart_required : bool;
}.

(** [Applied::of], [Applied::to_json] *)
Definition applied_of (e boot : Effective) : Applied :=
  let l := ef_limits e in
  let b := ef_limits boot in
  mkApplied (hex_string (ef_parent_hash e)) (hex_string (ef_overlay_hash e)) (hex_string (ef_hash e))
    (ef_parent_version e) (lenN (ef_rules e))
    (negb (bool_decide (lim_max_processes l = lim_max_processes b))
     || negb (bool_decide (lim_spawn_budget l = lim_spawn_budget b))).

Definition applied_json (a : Applied) : Json :=
  JObj [("parent_hash", JStr (ap_parent_hash a)); ("overlay_hash", JStr (ap_overlay_hash a));
        ("effective_hash", JStr (ap_effective_hash a)); ("parent_version", json_num (ap_parent_version a));
        ("rule_count", json_num (ap_rule_count a)); ("restart_required", JBool (ap_restart_required a))].

Record Prepared := mkPrepared {
  pr_nested : bool;
  pr_paths : RuntimePaths;
  pr_user_pubkey : bytes;
  pr_user_pin : bool;
  pr_parent : ParentPolicy;
  pr_overlay : Overlay;
  pr_overlay_present : bool;
  pr_pinned : option N;
  pr_effective : Effective;
  pr_cell : option bytes;
}.

(** The boot-time caps of [KernelConfig] *)
Record SubagentCaps := mkSubagents {
  sa_enabled : bool;
  sa_max_per_conv : N;
}.

Record KernelCaps := mkCaps {
  kc_max_processes : N;
  kc_subagents : option SubagentCaps;
}.

Definition default_subagents : SubagentCaps := mkSubagents true 5.

(** [u32::try_from(n).unwrap_or(u32::MAX)] *)
Definition clamp_u32 (n : N) : N := if n <? u32_mod then n else u32_mod - 1.

(** [Prepared::apply_limits] *)
Definition apply_limits (pr : Prepared) (kc : KernelCaps) : KernelCaps :=
  let l := ef_limits (pr_effective pr) in
  let procs := match lim_max_processes l with
               | Some n => N.min (kc_max_processes kc) (clamp_u32 n)
               | None => kc_max_processes kc
               end in
  let sub := match lim_spawn_budget l with
             | Some b =>
                 let s := default default_subagents (kc_subagents kc) in
                 Some (mkSubagents (if b =? 0 then false else sa_enabled s)
                         (N.min (sa_max_per_conv s) (clamp_u32 b)))
             | None => kc_subagents kc
             end in
  mkCaps procs sub.

(** [Prepared::engine_params] *)
Definition engine_params (e : Effective) : f64 * bool :=
  (eff_threshold e DEFAULT_RISK_THRESHOLD, eff_human e false).

(** The gate of a set of rules, as boot and [apply_locked] build it *)
Definition build_gate (e : Effective) : GovernanceGate :=
  foldl gate_add_rule (with_chain (governance_gate_new (engine_params e).1 (engine_params e).2)) (ef_rules e).

(** The running project governance: the immutable members, the gate, the cell
    and the state behind the mutex *)
Record OverlayRuntime := mkRuntime {
  rt_nested : bool;
  rt_paths : RuntimePaths;
  rt_user_pubkey : bytes;
  rt_user_pin : bool;
  rt_boot : Effective;
  rt_gate : GovernanceGate;
  rt_cell : option bytes;
  rt_parent : ParentPolicy;
  rt_overlay : Overlay;
  rt_effective : Effective;
}.

Section Runtime.
Context `{CanonEnv} `{OverlayEnv} `{PolicyEnv} `{!TrustEnv}.

(** [prepare] *)
Definition prepare (d : Disk) (paths : RuntimePaths) (now : Z) : result Prepared OverlayError :=
  let? paths := child_paths paths in
  let? key := load_user_pubkey d paths now in
  let? parent := load_parent_policy d (parent_policy_path paths) in
  let? _ := map_err Parent (verify_parent_policy parent key.1) in
  let? pinned := read_pin d paths in
  let? _ := check_version parent pinned in
  let present := match overlay_path paths with Some p => exists_ d p | None => false end in
  let? overlay := match overlay_path paths with
                  | Some p => load_overlay d p
                  | None => Ok overlay_empty
                  end in
  let? effective := merge parent overlay in
  Ok (mkPrepared false paths key.1 key.2 parent overlay present pinned effective
        (Some (ef_hash effective))).

(** [prepare_nested]; [contract] is the installed contract *)
Definition prepare_nested (d : Disk) (contract : option (RuntimePaths * bytes * ParentPolicy))
  : result (option Prepared) OverlayError :=
  match contract with
  | None => Ok None
  | Some (paths, master, parent) =>
      let? pin := nested_pin d paths in
      let? _ := throw_if (negb (bool_decide (pin = master))) (Cert "nested master pin changed") in
      let? _ := map_err Parent (verify_parent_policy parent master) in
      let? pinned := read_pin d paths in
      let? _ := check_version parent pinned in
      let present := match overlay_path paths with Some p => exists_ d p | None => false end in
      let? overlay := match overlay_path paths with
                      | Some p => load_overlay d p
                      | None => Ok overlay_empty
                      end in
      let? effective := merge parent overlay in
      Ok (Some (mkPrepared true paths master true parent overlay present pinned effective
                  (Some (ef_hash effective))))
  end.

(** Neither the policy nor the pin may be below what the chain remembers. *)
Fixpoint check_floor (max : N) (have : list N) : result unit OverlayError :=
  match have with
  | [] => Ok tt
  | v :: have => if v <? max then Err (Parent (PRollback v max)) else check_floor max have
  end.

(** [Prepared::commit] *)
Definition commit (d : Disk) (pr : Prepared) (chain : LocalChain) : result (list Write) OverlayError :=
  let h := chain_history chain in
  let? _ := throw_if (bool_decide (pr_pinned pr = None) && any_applied h) PinMissing in
  let? _ := match max_parent_version h with
            | Some max => check_floor max (pp_version (pr_parent pr) :: option_list (pr_pinned pr))
            | None => Ok tt
            end in
  let? _ := throw_if (user_pin_used h && negb (pr_user_pin pr))
              (Cert "a user.pub pin was in use on an earlier boot but is now absent") in
  let empty := hex_string (ov_hash overlay_empty) in
  let? _ := match last_overlay_hash h with
            | Some l => throw_if (negb (pr_overlay_present pr) && negb (String.eqb l empty)) OverlayMissing
            | None => Ok tt
            end in
  if match pr_pinned pr with Some p => p <? pp_version (pr_parent pr) | None => true end
  then write_pin d (pr_paths pr) (pp_version (pr_parent pr)) else Ok [].

(** [applied_payload] *)
Definition applied_payload (a : Applied) (source : string) (user_pin : bool) (user_pubkey : bytes) : Json :=
  json_set "user_key_id" (JStr (key_id user_pubkey))
    (json_set "user_pin" (JBool user_pin) (json_set "source" (JStr source) (applied_json a))).

(** The two appends *)
Definition append_event (chain : LocalChain) (now now' : Z) (stamp : option bytes) (kind : string)
  (payload : Json) : LocalChain :=
  (local_append shake256 to_vec chain now now' stamp OVERLAY_APPLIED_SOURCE kind (Some payload)).1.

(** [Prepared::into_runtime] *)
Definition into_runtime (pr : Prepared) (chain : LocalChain) (now now' : Z)
  : OverlayRuntime * LocalChain :=
  let eff := pr_effective pr in
  let chain := append_event chain now now' (pr_cell pr) OVERLAY_APPLIED_KIND
                 (applied_payload (applied_of eff eff) "boot" (pr_user_pin pr) (pr_user_pubkey pr)) in
  (mkRuntime (pr_nested pr) (pr_paths pr) (pr_user_pubkey pr) (pr_user_pin pr) eff (build_gate eff)
     (pr_cell pr) (pr_parent pr) (pr_overlay pr) eff, chain).

(** [OverlayRuntime::recheck_trust] *)
Definition recheck_trust (d : Disk) (rt : OverlayRuntime) (now : Z) : result unit OverlayError :=
  let? key := (if rt_nested rt then let? pk := nested_pin d (rt_paths rt) in Ok (pk, true)
               else load_user_pubkey d (rt_paths rt) now) in
  let? _ := throw_if (rt_user_pin rt && negb key.2) (Cert "the user.pub pin that was in use is gone") in
  throw_if (negb (bool_decide (key.1 = rt_user_pubkey rt)))
    (Cert "the trusted user key changed since boot; restart the kernel").

(** [apply_locked], with [OverlayGate::swap] *)
Definition apply_locked (d : Disk) (rt : OverlayRuntime) (parent : ParentPolicy) (overlay : Overlay)
  : result (OverlayRuntime * list Write * Applied) OverlayError :=
  let? _ := check_version parent (Some (pp_version (rt_parent rt))) in
  let? effective := merge parent overlay in
  let gate := build_gate effective in
  let? writes := (if pp_version (rt_parent rt) <? pp_version parent
                  then write_pin d (rt_paths rt) (pp_version parent) else Ok []) in
  Ok (mkRuntime (rt_nested rt) (rt_paths rt) (rt_user_pubkey rt) (rt_user_pin rt) (rt_boot rt)
        (gate_inherit_config gate (rt_gate rt)) (Some (ef_hash effective)) parent overlay effective,
      writes, applied_of effective (rt_boot rt)).

(** The nested kernel's master policy is fixed at boot. *)
Definition nested_changed (rt : OverlayRuntime) (p : ParentPolicy) : result unit OverlayError :=
  throw_if (rt_nested rt && negb (String.eqb (pp_sig p) (pp_sig (rt_parent rt))))
    (Cert "nested master policy changes require a new signed boot contract and restart").

(** [record]: every outcome is a chain event, stamped with the hash in force *)
Definition record_result (rt : OverlayRuntime) (chain : LocalChain) (now now' : Z)
  (res : result Applied OverlayError) (source : string) : LocalChain :=
  match res with
  | Ok a => append_event chain now now' (rt_cell rt) OVERLAY_APPLIED_KIND
              (applied_payload a source (rt_user_pin rt) (rt_user_pubkey rt))
  | Err e => append_event chain now now' (rt_cell rt) OVERLAY_REJECTED_KIND
               (JObj [("source", JStr source); ("key", JStr (overlay_error_key e));
                      ("reason", JStr (overlay_error_to_string e))])
  end.

(** [s.overlay == Overlay::empty()]: the derived equality *)
Definition overlay_is_empty (o : Overlay) : bool :=
  match ov_file o with
  | mkOverlayFile schema [] [] (mkLimits None None None None) [] =>
      (schema =? OVERLAY_SCHEMA) && bool_decide (ov_hash o = ov_hash overlay_empty)
  | _ => false
  end.

(** The closure of [reload] *)
Definition reload_inner (d : Disk) (rt : OverlayRuntime) (clock : Z)
  : result (OverlayRuntime * list Write * Applied) OverlayError :=
  let? _ := recheck_trust d rt clock in
  let? overlay := match overlay_path (rt_paths rt) with
                  | Some p =>
                      if exists_ d p then load_overlay d p
                      else if negb (overlay_is_empty (rt_overlay rt)) then Err OverlayMissing
                      else Ok overlay_empty
                  | None => if negb (overlay_is_empty (rt_overlay rt)) then Err OverlayMissing
                            else Ok overlay_empty
                  end in
  let? disk := load_parent_policy d (parent_policy_path (rt_paths rt)) in
  let? _ := map_err Parent (verify_parent_policy disk (rt_user_pubkey rt)) in
  let? _ := nested_changed rt disk in
  let parent := if pp_version (rt_parent rt) <=? pp_version disk then disk else rt_parent rt in
  apply_locked d rt parent overlay.

(** The closure of [apply_parent_update] *)
Definition update_inner (d : Disk) (rt : OverlayRuntime) (clock : Z) (policy : ParentPolicy)
  : result (OverlayRuntime * list Write * Applied) OverlayError :=
  let? _ := recheck_trust d rt clock in
  let? _ := map_err Parent (verify_parent_policy policy (rt_user_pubkey rt)) in
  let? _ := nested_changed rt policy in
  apply_locked d rt policy (rt_overlay rt).

(** The state, the writes, the chain and the answer after one call *)
Definition finish (rt : OverlayRuntime) (chain : LocalChain) (now now' : Z) (source : string)
  (r : result (OverlayRuntime * list Write * Applied) OverlayError)
  : OverlayRuntime * LocalChain * list Write * result Applied OverlayError :=
  let '(rt', writes, res) := match r with
                             | Ok (rt', writes, a) => (rt', writes, Ok a)
                             | Err e => (rt, [], Err e)
                             end in
  (rt', record_result rt' chain now now' res source, writes, res).

(** [OverlayRuntime::reload] *)
Definition reload (d : Disk) (rt : OverlayRuntime) (chain : LocalChain) (clock now now' : Z) :=
  finish rt chain now now' "reload" (reload_inner d rt clock).

(** [OverlayRuntime::apply_parent_update] *)
Definition apply_parent_update (d : Disk) (rt : OverlayRuntime) (chain : LocalChain)
  (clock now now' : Z) (policy : ParentPolicy) :=
  finish rt chain now now' "parent.update" (update_inner d rt clock policy).

(** [OverlayRuntime::applied], [effective_rules], [effective_rules_and_hash] *)
Definition runtime_applied (rt : OverlayRuntime) : Applied := applied_of (rt_effective rt) (rt_boot rt).

Definition effective_rules (rt : OverlayRuntime) : list GovernanceRule * f64 * bool :=
  (ef_rules (rt_effective rt), (engine_params (rt_effective rt)).1, (engine_params (rt_effective rt)).2).

Definition effective_rules_and_hash (rt : OverlayRuntime) : list GovernanceRule * f64 * bool * string :=
  (effective_rules rt, ap_effective_hash (runtime_applied rt)).

End Runtime.
