(* ===== verification/OverlayLive.v ===== *)
(** What holds of a running project kernel: the rules in force are the merge of
    a signed policy and the overlay, they are never looser than that policy,
    the hash stamped on the chain is theirs, and the policy's version never
    goes back, not even across restarts with a tampered disk. *)

From Stdlib Require Import Strings.String.
From stdpp Require Import relations.
From S2P Require Import Prelude.
From S2P Require Import Codec.
From S2P Require Import Chain.
From S2P Require Import RateLimit.
From S2P Require Import Governance.
From S2P Require Import Gate.
From S2P Require Import Delegation.
From S2P Require Import Canon.
From S2P Require Import Overlay.
From S2P Require Import Policy.
From S2P Require Import OverlayRuntime.
Open Scope N_scope.

(** ** The gate of a rule set *)

Lemma add_rules_engine rs : forall g,
  let e := gg_engine (foldl gate_add_rule g rs) in
  rules e = rules (gg_engine g) ++ rs /\ risk_threshold e = risk_threshold (gg_engine g) /\
  human_approval_required e = human_approval_required (gg_engine g).
Proof.
  induction rs as [|r rs IH]; intros g; cbn [foldl]; [by rewrite app_nil_r|].
  destruct (IH (gate_add_rule g r)) as (H1 & H2 & H3). cbn in H1, H2, H3.
  cbn zeta. rewrite H1, H2, H3. by rewrite <- app_assoc.
Qed.

(** A gate enforces a merged rule set. *)
Record gate_runs (g : GovernanceGate) (e : Effective) : Prop := mkRuns {
  gu_rules : rules (gg_engine g) = ef_rules e;
  gu_threshold : risk_threshold (gg_engine g) = eff_threshold e DEFAULT_RISK_THRESHOLD;
  gu_human : human_approval_required (gg_engine g) = eff_human e false;
}.

Lemma build_gate_runs e : gate_runs (build_gate e) e.
Proof.
  unfold build_gate.
  destruct (add_rules_engine (ef_rules e)
    (with_chain (governance_gate_new (engine_params e).1 (engine_params e).2))) as (H1 & H2 & H3).
  by constructor.
Qed.

Lemma inherit_runs g old e : gate_runs g e -> gate_runs (gate_inherit_config g old) e.
Proof. intros [H1 H2 H3]. by constructor. Qed.

Lemma check_runs fv ts env g agent action ctx e :
  gate_runs g e -> gate_runs (governance_check fv ts env g agent action ctx).1.1 e.
Proof.
  intros [H1 H2 H3]. unfold governance_check. unfold Engine.evaluate.
  destruct (RL.check _ _ _) as [lim [|]]; by constructor.
Qed.

(** ** The chain's memory *)

Definition applied_max (h : History) (v : N) : option N :=
  Some (match max_parent_version h with Some m => N.max m v | None => v end).

Lemma chain_tail_all c : chain_tail c 0 = lc_events c.
Proof. done. Qed.

Section Memory.
Context `{CanonEnv} `{OverlayEnv} `{PolicyEnv} `{!TrustEnv}.

Lemma append_events c now now' stamp source kind payload :
  exists e, lc_events (local_append shake256 to_vec c now now' stamp source kind payload).1
      = lc_events c ++ [e] /\
    ce_source e = source /\ ce_kind e = kind /\ ce_payload e = payload /\ ce_rule_hash e = stamp.
Proof using.
  destruct (append_event_fields shake256 to_vec c now now' stamp source kind payload None)
    as (e & He & _ & _ & Hf). exists e. split; [exact He|exact Hf].
Qed.

Lemma history_snoc c c' e :
  lc_events c' = lc_events c ++ [e] ->
  chain_history c' = if is_applied e then history_step (chain_history c) e else chain_history c.
Proof using.
  intros He. unfold chain_history. rewrite !chain_tail_all, He, List.filter_app. cbn [List.filter].
  destruct (is_applied e); [by rewrite foldl_snoc|by rewrite app_nil_r].
Qed.

Lemma json_num_u64 v : v < u64_mod -> json_as_u64 (json_num v) = Some v.
Proof using.
  intros Hv. unfold json_as_u64, json_num, u64_mod in *.
  destruct (Z.leb_spec 0 (Z.of_N v)); [|lia].
  destruct (Z.ltb_spec (Z.of_N v) 18446744073709551616); [cbn; by rewrite N2Z.id|lia].
Qed.

(** Appending an applied change raises the remembered version. *)
Lemma append_applied_max c now now' stamp a source pin pk :
  ap_parent_version a < u64_mod ->
  max_parent_version (chain_history (append_event c now now' stamp OVERLAY_APPLIED_KIND
    (applied_payload a source pin pk))) = applied_max (chain_history c) (ap_parent_version a).
Proof using.
  intros Hv. unfold append_event.
  destruct (append_events c now now' stamp OVERLAY_APPLIED_SOURCE OVERLAY_APPLIED_KIND
    (Some (applied_payload a source pin pk))) as (e & Hev & Hs & Hk & Hp & _).
  rewrite (history_snoc _ _ _ Hev). unfold is_applied. rewrite Hs, Hk, !String.eqb_refl. cbn [andb].
  unfold history_step. rewrite Hp. cbn [mbind option_bind max_parent_version].
  change (json_get "parent_version" (applied_payload a source pin pk))
    with (Some (json_num (ap_parent_version a))). cbn [mbind option_bind].
  by rewrite json_num_u64.
Qed.

(** Any other append leaves the memory alone. *)
Lemma append_other_history c now now' stamp source kind payload :
  String.eqb kind OVERLAY_APPLIED_KIND && String.eqb source OVERLAY_APPLIED_SOURCE = false ->
  chain_history (local_append shake256 to_vec c now now' stamp source kind payload).1 = chain_history c.
Proof using.
  intros Hn. destruct (append_events c now now' stamp source kind payload) as (e & Hev & Hs & Hk & _).
  rewrite (history_snoc _ _ _ Hev). unfold is_applied. by rewrite Hs, Hk, Hn.
Qed.

End Memory.

(** ** Runs *)

(** A policy read from a file carries a version of its type's width. *)
Class PolicyEnvLaws `{PolicyEnv} : Prop := {
  policy_version_u64 s p : policy_from_json s = Ok p -> pp_version p < u64_mod;
}.

Section Live.
Context `{CanonEnv} `{OverlayEnv} `{PolicyEnvLaws} `{!TrustEnv}.
Context (from_value_effect : Json -> option EffectVector) (render_value : Json -> string).

Definition set_gate (g : GovernanceGate) (rt : OverlayRuntime) : OverlayRuntime :=
  mkRuntime (rt_nested rt) (rt_paths rt) (rt_user_pubkey rt) (rt_user_pin rt) (rt_boot rt) g (rt_cell rt)
    (rt_parent rt) (rt_overlay rt) (rt_effective rt).

(** One step of a running kernel: a reload, a pushed policy, a gate decision
    (which moves the gate's rate limiter), or an append by another component,
    which never writes the reserved kind under the reserved source. *)
Inductive live_step : OverlayRuntime * LocalChain -> OverlayRuntime * LocalChain -> Prop :=
| step_reload d rt c clock now now' rt' c' w res :
    reload d rt c clock now now' = (rt', c', w, res) -> live_step (rt, c) (rt', c')
| step_update d rt c clock now now' policy rt' c' w res :
    pp_version policy < u64_mod ->
    apply_parent_update d rt c clock now now' policy = (rt', c', w, res) -> live_step (rt, c) (rt', c')
| step_check env rt c agent action ctx :
    live_step (rt, c)
      (set_gate (governance_check from_value_effect render_value env (rt_gate rt) agent action ctx).1.1 rt, c)
| step_append rt c now now' stamp source kind payload :
    String.eqb kind OVERLAY_APPLIED_KIND && String.eqb source OVERLAY_APPLIED_SOURCE = false ->
    live_step (rt, c) (rt, (local_append shake256 to_vec c now now' stamp source kind payload).1).

Lemma update_steps d rt c clock now now' policy :
  pp_version policy < u64_mod ->
  let q := apply_parent_update d rt c clock now now' policy in live_step (rt, c) (q.1.1.1, q.1.1.2).
Proof using.
  intros Hu. cbn zeta. destruct (apply_parent_update d rt c clock now now' policy) as [[[rt' c'] w] res] eqn:E.
  by apply (step_update d rt c clock now now' policy rt' c' w res).
Qed.

Ltac rt_simpl :=
  cbn [fst snd rt_parent rt_overlay rt_effective rt_gate rt_cell rt_user_pubkey set_gate] in *.

(** A boot: prepared, committed against the restored chain, then running *)
Definition boots (paths : RuntimePaths) (c0 : LocalChain) (s : OverlayRuntime * LocalChain) : Prop :=
  exists d clock pr d' w now now', prepare d paths clock = Ok pr /\ commit d' pr c0 = Ok w /\
    s = into_runtime pr c0 now now'.

Record live_inv (s : OverlayRuntime * LocalChain) : Prop := mkLive {
  li_merge : merge (rt_parent s.1) (rt_overlay s.1) = Ok (rt_effective s.1);
  li_gate : gate_runs (rt_gate s.1) (rt_effective s.1);
  li_cell : rt_cell s.1 = Some (ef_hash (rt_effective s.1));
  li_signed : verify_parent_policy (rt_parent s.1) (rt_user_pubkey s.1) = Ok tt;
  li_width : pp_version (rt_parent s.1) < u64_mod;
  li_memory : max_parent_version (chain_history s.2) = Some (pp_version (rt_parent s.1));
}.

Lemma merge_version p ov eff : merge p ov = Ok eff -> ef_parent_version eff = pp_version p.
Proof using. unfold merge, of_tighten. intros Hm. inv_ok. by subst eff. Qed.

Lemma merge_hash p ov eff : merge p ov = Ok eff ->
  ef_hash eff = effective_hash (parent_rules_hash (pp_rules p) (pp_limits p)) (ov_hash ov) (ef_rules eff) (ef_limits eff).
Proof using. unfold merge, of_tighten. intros Hm. inv_ok. by subst eff. Qed.

Lemma load_policy_u64 d path p : load_parent_policy d path = Ok p -> pp_version p < u64_mod.
Proof using All.
  unfold load_parent_policy. intros Hl. inv_ok. subst. by eapply policy_version_u64.
Qed.

Lemma map_err_ok {T E F} (f : E -> F) (r : result T E) t : map_err f r = Ok t -> r = Ok t.
Proof using. destruct r; cbn; congruence. Qed.

(** What a prepared boot consists of *)
Lemma prepare_inv d paths clock pr :
  prepare d paths clock = Ok pr ->
  merge (pr_parent pr) (pr_overlay pr) = Ok (pr_effective pr) /\
  verify_parent_policy (pr_parent pr) (pr_user_pubkey pr) = Ok tt /\
  pp_version (pr_parent pr) < u64_mod /\ pr_cell pr = Some (ef_hash (pr_effective pr)).
Proof using All.
  unfold prepare. intros Hp. inv_ok. subst pr. cbn. apply map_err_ok in Hok2.
  split; [done|]. split; [by destruct t2|]. split; [by eapply load_policy_u64|done].
Qed.

(** A committed boot is not below what the chain remembers. *)
Lemma commit_floor d pr c w m :
  commit d pr c = Ok w -> max_parent_version (chain_history c) = Some m -> m <= pp_version (pr_parent pr).
Proof using.
  unfold commit. intros Hc Hm. inv_ok. rewrite Hm in Hok0. cbn [check_floor] in Hok0.
  destruct (N.ltb_spec (pp_version (pr_parent pr)) m); [done|lia].
Qed.

Lemma into_runtime_inv d' w paths clock pr d c now now' :
  prepare d paths clock = Ok pr -> commit d' pr c = Ok w -> live_inv (into_runtime pr c now now').
Proof using All.
  intros (Hm & Hv & Hu & Hc)%prepare_inv Hcom. pose proof (merge_version _ _ _ Hm) as Hver.
  constructor; unfold into_runtime; rt_simpl; try done.
  - apply build_gate_runs.
  - rewrite append_applied_max; cbn [ap_parent_version applied_of]; rewrite Hver; [|done]. unfold applied_max.
    destruct (max_parent_version (chain_history c)) as [m|] eqn:Hx; [|done].
    pose proof (commit_floor _ _ _ _ _ Hcom Hx). f_equal. lia.
Qed.

(** An accepted change keeps the invariant and does not lower the version. *)
Lemma apply_locked_inv d rt parent overlay rt' w a :
  apply_locked d rt parent overlay = Ok (rt', w, a) ->
  verify_parent_policy parent (rt_user_pubkey rt) = Ok tt ->
  merge (rt_parent rt') (rt_overlay rt') = Ok (rt_effective rt') /\
  gate_runs (rt_gate rt') (rt_effective rt') /\ rt_cell rt' = Some (ef_hash (rt_effective rt')) /\
  verify_parent_policy (rt_parent rt') (rt_user_pubkey rt') = Ok tt /\
  rt_parent rt' = parent /\ ap_parent_version a = pp_version parent /\
  pp_version (rt_parent rt) <= pp_version parent.
Proof using.
  unfold apply_locked, check_version. intros Ha Hv. inv_ok. subst. cbn.
  repeat (split; [done || by apply inherit_runs, build_gate_runs|]).
  split; [by apply merge_version in Hok0|]. apply N.ltb_ge in Hok. lia.
Qed.

Lemma refusal_inv rt c now now' source r rt' c' w res :
  live_inv (rt, c) -> finish rt c now now' source r = (rt', c', w, res) ->
  (forall rt'' w'' a, r = Ok (rt'', w'', a) -> exists d parent overlay,
     apply_locked d rt parent overlay = Ok (rt'', w'', a) /\
     verify_parent_policy parent (rt_user_pubkey rt) = Ok tt /\ pp_version parent < u64_mod) ->
  live_inv (rt', c') /\ pp_version (rt_parent rt) <= pp_version (rt_parent rt').
Proof using All.
  intros Hi Hf Hr. pose proof Hi as [_ _ _ _ _ Hmem]. rt_simpl.
  unfold finish in Hf. destruct r as [[[rt'' w''] a]|e]; inv_tuple Hf; subst.
  - destruct (Hr _ _ _ eq_refl) as (d & parent & overlay & Ha & Hv & Hu).
    destruct (apply_locked_inv _ _ _ _ _ _ _ Ha Hv) as (Hm & Hg & Hc & Hs & Hp & Hav & Hle).
    rewrite Hp. split; [|done]. constructor; rt_simpl; try done; [by rewrite Hp|].
    cbn [record_result]. rewrite append_applied_max by (by rewrite Hav). unfold applied_max.
    rewrite Hmem, Hav, Hp. f_equal. lia.
  - split; [|done]. destruct Hi as [Hm Hg Hc Hs Hu _]. constructor; rt_simpl; try done.
    cbn [record_result]. unfold append_event. by rewrite append_other_history.
Qed.

Lemma live_step_inv s s' :
  live_inv s -> live_step s s' ->
  live_inv s' /\ pp_version (rt_parent s.1) <= pp_version (rt_parent s'.1).
Proof using All.
  intros Hi Hs. destruct Hs as [d rt c clock now now' rt' c' w res Hr|
    d rt c clock now now' policy rt' c' w res Hu Hr|env rt c agent action ctx|
    rt c now now' stamp source kind payload Hn].
  - eapply refusal_inv; [done|exact Hr|]. unfold reload_inner. intros rt'' w'' a Hx. inv_ok.
    eexists _, _, _. split; [done|]. destruct Hi as [_ _ _ Hsig Hw _]. rt_simpl.
    apply map_err_ok in Hok2. destruct (_ <=? _); [|done]. split; [by destruct t2|].
    by eapply load_policy_u64.
  - eapply refusal_inv; [done|exact Hr|]. unfold update_inner. intros rt'' w'' a Hx. inv_ok.
    apply map_err_ok in Hok0. eexists _, _, _. split; [done|]. by destruct t0.
  - destruct Hi as [Hm Hg Hc Hsig Hw Hmem]. split; [|done]. constructor; rt_simpl; try done.
    by apply check_runs.
  - destruct Hi as [Hm Hg Hc Hsig Hw Hmem]. split; [|done]. constructor; rt_simpl; try done.
    by rewrite append_other_history.
Qed.

Lemma live_run_inv s s' :
  live_inv s -> rtc live_step s s' ->
  live_inv s' /\ pp_version (rt_parent s.1) <= pp_version (rt_parent s'.1).
Proof using All.
  intros Hi Hrun. induction Hrun as [s|s s' s'' Hs _ IH]; [done|].
  destruct (live_step_inv _ _ Hi Hs) as [Hi' Hle]. destruct (IH Hi') as [Hi'' Hle'].
  split; [done|lia].
Qed.

Lemma boots_inv paths c0 s : boots paths c0 s -> live_inv s.
Proof using All.
  intros (d & clock & pr & d' & w & now & now' & Hp & Hc & ->). by eapply into_runtime_inv.
Qed.

(** C25: At every moment of a project kernel's life, through reloads, pushed
    policies, decisions and appends by others, the policy in force is one the
    trusted user key signed; the effective rules are what [merge] makes of it
    and of the overlay in force; the engine behind the gate runs exactly these
    rules with their threshold and approval flag; and the hash stamped on the
    chain is the digest of these rules and limits with the hashes of policy and
    overlay.  If the approval tags of the policy sit on rules of the general
    kind only, that engine decides every request at least as strictly as an
    engine that runs the policy alone (the gate's list of exempt actions, which
    it consults after the engine, is not part of this comparison). *)
Theorem project_never_looser paths c0 s0 rt c inst now r :
  boots paths c0 s0 -> rtc live_step s0 (rt, c) ->
  let p := rt_parent rt in let eff := rt_effective rt in let e := gg_engine (rt_gate rt) in
  verify_parent_policy p (rt_user_pubkey rt) = Ok tt /\
  merge p (rt_overlay rt) = Ok eff /\
  rules e = ef_rules eff /\ risk_threshold e = eff_threshold eff DEFAULT_RISK_THRESHOLD /\
  human_approval_required e = eff_human eff false /\
  rt_cell rt = Some (effective_hash (parent_rules_hash (pp_rules p) (pp_limits p)) (ov_hash (rt_overlay rt)) (ef_rules eff) (ef_limits eff)) /\
  (Forall approval_general (pp_rules p) ->
   (strictness (gr_decision (Engine.evaluate inst (parent_engine (eval_limiter e) (scorer e) p) now r).2)
    <= strictness (gr_decision (Engine.evaluate inst e now r).2))%nat).
Proof using All.
  intros Hb Hrun. destruct (live_run_inv _ _ (boots_inv _ _ _ Hb) Hrun) as [[Hm Hg Hc Hs _ _] _].
  rt_simpl. cbn zeta. split; [done|]. split; [done|]. do 3 (split; [apply Hg|]). split.
  { rewrite Hc. f_equal. exact (merge_hash _ _ _ Hm). }
  intros Hgen. pose proof (merge_tightens _ _ _ inst (eval_limiter (gg_engine (rt_gate rt)))
    (scorer (gg_engine (rt_gate rt))) now r Hm Hgen) as Ht.
  assert (project_engine (eval_limiter (gg_engine (rt_gate rt))) (scorer (gg_engine (rt_gate rt)))
    (rt_effective rt) = gg_engine (rt_gate rt)) as E.
  { destruct Hg as [H1' H2' H3']. unfold project_engine. rewrite <- H1', <- H2', <- H3'.
    by destruct (gg_engine (rt_gate rt)). }
  by rewrite E in Ht.
Qed.

(** C24: The parent policy never rolls back.  In one life its version only grows;
    and a later boot on the same chain, whatever certificate, policy, pin or
    overlay the disk then holds, either is refused or runs a policy at least as
    new as any that was in force. *)
Theorem no_rollback paths paths' c0 s0 s1 s2 s3 :
  boots paths c0 s0 -> rtc live_step s0 s1 -> rtc live_step s1 s2 ->
  boots paths' s2.2 s3 ->
  pp_version (rt_parent s1.1) <= pp_version (rt_parent s2.1) <= pp_version (rt_parent s3.1).
Proof using All.
  intros Hb H01 H12 (d & clock & pr & d' & w & now & now' & Hp & Hc & ->).
  destruct (live_run_inv _ _ (boots_inv _ _ _ Hb) H01) as [Hi1 _].
  destruct (live_run_inv _ _ Hi1 H12) as [[_ _ _ _ _ Hmem] Hle]. split; [done|].
  unfold into_runtime. rt_simpl. by eapply commit_floor.
Qed.

(** A refused reload or update changes nothing but the chain, which records
    the refusal; nothing is written to disk. *)
Theorem refusal_changes_nothing d rt c clock now now' policy rt' c' w e :
  (reload d rt c clock now now' = (rt', c', w, Err e) \/
   apply_parent_update d rt c clock now now' policy = (rt', c', w, Err e)) ->
  rt' = rt /\ w = [] /\ chain_history c' = chain_history c /\
  exists ev, lc_events c' = lc_events c ++ [ev] /\ ce_kind ev = OVERLAY_REJECTED_KIND /\
    ce_rule_hash ev = rt_cell rt.
Proof using.
  intros Hr. assert (rt' = rt /\ w = [] /\ exists source, c' = record_result rt c now now' (Err e) source) as
    (-> & -> & source & ->).
  { destruct Hr as [Hr|Hr]; unfold reload, apply_parent_update, finish in Hr;
      destruct (match _ with Ok _ => _ | Err _ => _ end) as [[rt1 w1] [a|e1]] eqn:E; inv_tuple Hr; try done;
      repeat case_match; simplify_eq; eauto. }
  split; [done|]. split; [done|]. cbn [record_result]. unfold append_event.
  split; [by apply append_other_history|].
  destruct (append_events c now now' (rt_cell rt) OVERLAY_APPLIED_SOURCE OVERLAY_REJECTED_KIND
    (Some (JObj [("source", JStr source); ("key", JStr (overlay_error_key e));
                 ("reason", JStr (overlay_error_to_string e))]))) as (ev & Hev & _ & Hk & _ & Hst).
  by exists ev.
Qed.

End Live.
