(* ===== verification/OverlayDemo.v ===== *)
(** A concrete project: its certificate, policies, overlay and disk, a boot, a
    pushed policy and a second boot.  The theorems of OverlayLive.v and
    Policy.v are applied to it. *)

From Stdlib Require Import Strings.String.
From stdpp Require Import relations.
From S2P Require Import Prelude.
From S2P Require Import Codec.
From S2P Require Import Chain.
From S2P Require Import RateLimit.
From S2P Require Import Governance.
From S2P Require Import Gate.
From S2P Require Import Delegation.
From S2P Require Import Canon.
From S2P Require Import Overlay.
From S2P Require Import OverlaySpec.
From S2P Require Import Policy.
From S2P Require Import OverlayRuntime.
From S2P Require Import OverlayLive.
Open Scope N_scope.

Module Demo.

#[export] Existing Instance ToyCanon.ed.
#[export] Existing Instance ToyCanon.env.
#[export] Existing Instance ToyCanon.ed_laws.
#[export] Existing Instance ToyCanon.env_laws.

Definition user_key : SigningKey := x07.
Definition user_pk : bytes := vk_to_bytes (verifying_key user_key).
Definition project : string := "01JB8Z3Q0V6X9KQ4M2N7T5R1WD".

Definition cert : ProjectCert :=
  cert_sign user_key (mkCertRequest project (replicate 32 x03) 1 1000000000 None).

(** A policy of the user, at a version *)
Definition policy (version : N) : ParentPolicy :=
  match export_rules [ToyOverlay.no_delete] (F64.lit 6 1) false no_limits user_key version 2000000000 with
  | Ok p => p
  | Err _ => ToyOverlay.policy
  end.

Lemma policy_width v : v < 100 -> pp_version (policy v) < u64_mod.
Proof.
  intros Hv. unfold policy. destruct (export_rules _ _ _ _ _ v _) as [q|] eqn:E; [|done].
  apply export_rules_inv in E as (l & _ & -> & _). unfold u64_mod. lia.
Qed.

Definition file : OverlayFile :=
  mkOverlayFile OVERLAY_SCHEMA [mkDeny "project.no-shell" ["tool.shell*"] None] []
    (mkLimits None (Some 16) None (Some true)) [].

#[export] Instance overlay_env : OverlayEnv := {|
  f64_to_string := F64.fmt2;
  dbg_str s := s;
  toml_from_str s := if String.eqb s "overlay" then Ok file else Err s;
|}.

#[export] Instance policy_env : PolicyEnv := {|
  policy_to_json p := Ok (pretty (pp_version p));
  policy_from_json s := match parse_u64 s with
                        | Some v => if v <? 100 then Ok (policy v) else Err "version"
                        | None => Err "syntax"
                        end;
|}.

#[export] Instance trust_env : TrustEnv := {|
  cert_from_json s := if String.eqb s "cert" then Ok cert else Err s;
  sk_from_bytes b := default x00 (head b);
  shake256 b := le_bytes 32 (le_val b);
  to_vec _ := [];
  absolutize s := s;
|}.

#[export] Instance policy_laws : PolicyEnvLaws.
Proof.
  split. intros s p. cbn. destruct (parse_u64 s) as [v|]; [|done].
  destruct (N.ltb_spec v 100) as [Hv|]; [|done]. intros Hp. injection Hp as <-. by apply policy_width.
Qed.

Definition paths : RuntimePaths := mkPaths "/run/p" (Child project "/work" "/run/p").

(** The files: certificate, user pin, policy, overlay, and the version pin *)
Definition texts (policy_text : string) (pin : option string) : list (string * string) :=
  [("/work/.weftos/project.cert.json", "cert"); ("/run/p/user.pub", hex_string user_pk);
   ("/run/p/parent-policy.json", policy_text); ("/work/.weftos/overlay.toml", "overlay")]
  ++ match pin with Some v => [("/work/.weftos/state/parent-policy.version", v)] | None => [] end.

Fixpoint find_text (path : string) (l : list (string * string)) : option string :=
  match l with
  | [] => None
  | (k, t) :: l => if String.eqb k path then Some t else find_text path l
  end.

Definition disk (policy_text : string) (pin : option string) : Disk :=
  let file path := find_text path (texts policy_text pin) in
  mkDisk (fun p => match file p with Some t => MetaOk true (str_len t) | None => MetaNotFound end)
    (fun p => match file p with Some t => Ok t | None => Err None end)
    (fun p => None) (fun p => Ok tt).

Definition prepared (d : Disk) : option Prepared :=
  match prepare d paths 6000000000 with Ok p => Some p | Err _ => None end.

Definition fallback : Prepared :=
  mkPrepared false paths [] false ToyOverlay.policy overlay_empty false None ToyOverlay.merged None.

Definition first_boot : Prepared := default fallback (prepared (disk "3" None)).
Definition chain0 : LocalChain := local_new 7 1000.
Definition started : OverlayRuntime * LocalChain := into_runtime first_boot chain0 10 11.

(** A pushed policy of version 5, then a second boot from the same chain *)
Definition pushed := apply_parent_update (disk "3" (Some "3")) started.1 started.2 6000000000 20 21 (policy 5).
Definition second_boot : Prepared := default fallback (prepared (disk "5" (Some "1"))).

Lemma first_ok : prepare (disk "3" None) paths 6000000000 = Ok first_boot.
Proof. vm_compute. reflexivity. Qed.

Lemma first_committed : is_ok (commit (disk "3" None) first_boot chain0) = true.
Proof. vm_compute. reflexivity. Qed.

Lemma first_boots : boots paths chain0 (started.1, started.2).
Proof.
  unfold boots.
  destruct (commit (disk "3" None) first_boot chain0) as [w|e] eqn:Hc.
  - exists (disk "3" None), 6000000000%Z, first_boot, (disk "3" None), w, 10%Z, 11%Z.
    split; [exact first_ok|]. split; [exact Hc|]. symmetry. apply surjective_pairing.
  - pose proof first_committed as Hf. rewrite Hc in Hf. discriminate Hf.
Qed.

(** The state after the push *)
Definition after_push : OverlayRuntime * LocalChain := (pushed.1.1.1, pushed.1.1.2).

Lemma pushed_version : pp_version (policy 5) < u64_mod.
Proof. by apply policy_width. Qed.

Lemma push_runs fv rv : rtc (live_step fv rv) (started.1, started.2) (after_push.1, after_push.2).
Proof.
  apply rtc_once. unfold after_push. cbn [fst snd]. unfold pushed.
  exact (update_steps fv rv (disk "3" (Some "3")) started.1 started.2 6000000000 20 21 (policy 5)
    pushed_version).
Qed.

(** The disk of a third boot holds the newer policy and the pin of the push. *)
Definition third_boot : Prepared := default fallback (prepared (disk "5" (Some "5"))).

Lemma third_ok : prepare (disk "5" (Some "5")) paths 6000000000 = Ok third_boot.
Proof. vm_compute. reflexivity. Qed.

Lemma third_committed : commit (disk "5" (Some "5")) third_boot after_push.2 = Ok [].
Proof. vm_compute. reflexivity. Qed.

Definition restarted : OverlayRuntime * LocalChain := into_runtime third_boot after_push.2 30 31.

Lemma third_boots : boots paths (after_push.1, after_push.2).2 restarted.
Proof.
  cbn [snd]. unfold boots, restarted.
  exists (disk "5" (Some "5")), 6000000000%Z, third_boot, (disk "5" (Some "5")), [], 30%Z, 31%Z.
  split; [exact third_ok|]. split; [exact third_committed|reflexivity].
Qed.

Lemma push_accepted : is_ok pushed.2 = true /\ pp_version (rt_parent pushed.1.1.1) = 5.
Proof. vm_compute. done. Qed.

(** The pin of the second boot was lowered to 1: it is refused. *)
Lemma lowered_pin_refused :
  commit (disk "5" (Some "1")) second_boot pushed.1.1.2 = Err (Parent (PRollback 1 5)).
Proof. vm_compute. reflexivity. Qed.

End Demo.
Import Demo.

Lemma project_never_looser_witness :
  let rt := Demo.after_push.1 in
  verify_parent_policy (rt_parent rt) (rt_user_pubkey rt) = Ok tt /\ merge (rt_parent rt) (rt_overlay rt) = Ok (rt_effective rt).
Proof.
  refine (let H := project_never_looser (fun _ => None) (fun _ => "") Demo.paths Demo.chain0
    (Demo.started.1, Demo.started.2) Demo.after_push.1 Demo.after_push.2 None 5 (ToyOverlay.request "fs.delete") Demo.first_boots
    (Demo.push_runs _ _) in conj (proj1 H) (proj1 (proj2 H))).
Defined.

Lemma no_rollback_witness :
  pp_version (rt_parent (Demo.started.1, Demo.started.2).1)
    <= pp_version (rt_parent (Demo.after_push.1, Demo.after_push.2).1)
    <= pp_version (rt_parent Demo.restarted.1).
Proof.
  refine (no_rollback (fun _ => None) (fun _ => "") Demo.paths Demo.paths Demo.chain0
    (Demo.started.1, Demo.started.2) (Demo.started.1, Demo.started.2)
    (Demo.after_push.1, Demo.after_push.2) Demo.restarted Demo.first_boots (rtc_refl _ _) (Demo.push_runs _ _)
    Demo.third_boots).
Defined.

(** A policy older than the one running is refused. *)
Definition stale_push :=
  apply_parent_update (Demo.disk "3" (Some "3")) Demo.after_push.1 Demo.after_push.2 6000000000 40 41
    (Demo.policy 4).

Lemma stale_refused : stale_push.2 = Err (Parent (PRollback 4 5)).
Proof. vm_compute. reflexivity. Qed.

Lemma stale_def :
  apply_parent_update (Demo.disk "3" (Some "3")) Demo.after_push.1 Demo.after_push.2 6000000000 40 41
    (Demo.policy 4) = stale_push.
Proof. unfold stale_push. reflexivity. Qed.

Lemma quad_eta {A B C D} (x : A * B * C * D) e : x.2 = e -> x = (x.1.1.1, x.1.1.2, x.1.2, e).
Proof. destruct x as [[[? ?] ?] ?]. cbn. congruence. Qed.

Lemma refusal_changes_nothing_witness :
  stale_push.2 = Err (Parent (PRollback 4 5)) /\ stale_push.1.1.1 = Demo.after_push.1 /\ stale_push.1.2 = [].
Proof.
  pose proof stale_refused as E.
  split; [exact E|].
  refine (let H := refusal_changes_nothing (Demo.disk "3" (Some "3")) Demo.after_push.1 Demo.after_push.2
    6000000000 40 41 (Demo.policy 4) stale_push.1.1.1 stale_push.1.1.2 stale_push.1.2
    (Parent (PRollback 4 5)) (or_intror _) in conj (proj1 H) (proj1 (proj2 H))).
  exact (eq_trans stale_def (quad_eta stale_push _ E)).
Defined.

Lemma export_verifies_witness :
  verify_parent_policy (Demo.policy 3) Demo.user_pk = Ok tt.
Proof.
  refine (export_verifies [ToyOverlay.no_delete] (F64.lit 6 1) false no_limits Demo.user_key 3 2000000000
    (Demo.policy 3) _ _ _).
  - vm_compute. reflexivity.
  - repeat constructor. vm_compute. discriminate.
  - split; vm_compute; congruence.
Defined.

Lemma export_moves_forward_witness :
  exists p text, export_rules_to (Demo.disk "3" None) "/run/p/parent-policy.json" [ToyOverlay.no_delete]
      (F64.lit 6 1) false no_limits Demo.user_key 2000000000 = Ok (p, text) /\ 3 < pp_version p.
Proof.
  eexists _, _. split; [vm_compute; reflexivity|].
  refine (proj1 (export_moves_forward (Demo.disk "3" None) "/run/p/parent-policy.json" [ToyOverlay.no_delete]
    (F64.lit 6 1) false no_limits Demo.user_key 2000000000 _ _ (Demo.policy 3) _ _ _ _ _));
    vm_compute; reflexivity || congruence.
Defined.
