(* ===== verification/Acl.v ===== *)
(** The access-control engine of the resource tree:
    crates/exo-resource-tree/src/consent.rs (risk and consent policies) and
    permission.rs (ACL policies, the decision cache, the tree-walking checker
    with delegations). *)

From Stdlib Require Import Strings.String.
From S2P Require Import Prelude.
From S2P Require Import Codec.
From S2P Require Import Delegation.
Open Scope N_scope.

(** ** consent.rs *)

Inductive ConsentEffect := ConsentAllowed | ConsentDenied.

Inductive ConsentDecision :=
| CAllow
| CDeny (reason : string)
| CDefer (reason : string).

Record RiskScore := mkRisk { score : N; confidence_bps : N }.

(** [RiskScore::NEUTRAL], [RiskScore::new] *)
Definition NEUTRAL : RiskScore := mkRisk 50 5000.
Definition risk_new (score confidence : N) : RiskScore :=
  mkRisk (N.min score 100) (N.min confidence 10000).

Record ConsentPolicy := mkConsent {
  cns_principal : option Did;
  cns_action : Action;
  cns_effect : ConsentEffect;
  cns_reason : option string;
}.

(** [ConsentPolicy::allow], [ConsentPolicy::deny], [ConsentPolicy::matches] *)
Definition consent_allow (d : Did) (a : Action) : ConsentPolicy :=
  mkConsent (Some d) a ConsentAllowed None.
Definition consent_deny (d : Did) (a : Action) (reason : string) : ConsentPolicy :=
  mkConsent (Some d) a ConsentDenied (Some reason).

Definition consent_matches (p : ConsentPolicy) (d : Did) (a : Action) : bool :=
  if negb (bool_decide (cns_action p = a)) then false
  else match cns_principal p with Some q => String.eqb q d | None => true end.

Record ConsentProof := mkProof {
  prf_grantor : string;
  prf_grantee : string;
  prf_purpose : string;
  prf_created_at : Z;
}.

(** [create_consent_proof] *)
Definition create_consent_proof (grantor grantee : Did) (purpose : string) (now : Z) : ConsentProof :=
  mkProof grantor grantee purpose now.

(** The loop over the policies, with its flag [first_allow]. *)
Fixpoint consent_loop (ps : list ConsentPolicy) (d : Did) (a : Action) (first_allow : bool)
    : ConsentDecision :=
  match ps with
  | [] => if first_allow then CAllow else CDeny "no matching consent allow policy"
  | p :: ps =>
      if negb (consent_matches p d a) then consent_loop ps d a first_allow
      else match cns_effect p with
           | ConsentDenied => CDeny (default "consent policy deny" (cns_reason p))
           | ConsentAllowed => consent_loop ps d a true
           end
  end.

(** [evaluate] *)
Definition consent_evaluate (ps : list ConsentPolicy) (d : Did) (a : Action) (risk : RiskScore)
    (deny_at defer_at : N) : ConsentDecision :=
  if deny_at <=? score risk then
    CDeny ("risk score " +:+ pretty (score risk) +:+ " >= deny threshold " +:+ pretty deny_at)
  else if defer_at <=? score risk then
    CDefer ("risk score " +:+ pretty (score risk) +:+ " >= defer threshold " +:+ pretty defer_at)
  else consent_loop ps d a false.

(** ** permission.rs: policies *)

Inductive Decision := Allow | Deny | Delegate.

#[global] Instance Decision_eq_dec : EqDecision Decision.
Proof. solve_decision. Defined.

(** [Decision::is_allowed] *)
Definition is_allowed (d : Decision) : bool :=
  match d with Allow | Delegate => true | Deny => false end.

Inductive Effect := EffAllow | EffDeny.

Record AclPolicy := mkPolicy {
  pol_principal : option Principal;
  pol_role : option Role;
  pol_action : Action;
  pol_effect : Effect;
}.

(** [AclPolicy::allow], [AclPolicy::deny], [AclPolicy::matches] *)
Definition policy_allow (p : Principal) (a : Action) : AclPolicy := mkPolicy (Some p) None a EffAllow.
Definition policy_deny (p : Principal) (a : Action) : AclPolicy := mkPolicy (Some p) None a EffDeny.

Definition policy_matches (pol : AclPolicy) (p : Principal) (r : Role) (a : Action) : bool :=
  if negb (bool_decide (pol_action pol = a)) then false
  else if match pol_principal pol with Some q => negb (String.eqb q p) | None => false end then false
  else if match pol_role pol with Some q => negb (bool_decide (q = r)) | None => false end then false
  else true.

Definition effect_decision (e : Effect) : Decision :=
  match e with EffAllow => Allow | EffDeny => Deny end.

(** ** permission.rs: the decision cache

    Keyed by principal, resource and action. *)

Definition CacheKey : Type := Principal * ResourceId * Action.

Record EffectiveAclCache := mkCache {
  cache_entries : gmap CacheKey Decision;
  cache_max_size : N;
  cache_hits : N;
  cache_misses : N;
}.

Module Cache.

Definition new (max_size : N) : EffectiveAclCache := mkCache ∅ (N.max max_size 1) 0 0.

Definition get (c : EffectiveAclCache) (p : Principal) (r : ResourceId) (a : Action)
    : EffectiveAclCache * option Decision :=
  match cache_entries c !! ((p, r, a) : CacheKey) with
  | Some d => (mkCache (cache_entries c) (cache_max_size c) (wrap_add64 (cache_hits c) 1) (cache_misses c), Some d)
  | None => (mkCache (cache_entries c) (cache_max_size c) (cache_hits c) (wrap_add64 (cache_misses c) 1), None)
  end.

Definition set_entries (m : gmap CacheKey Decision) (c : EffectiveAclCache) : EffectiveAclCache :=
  mkCache m (cache_max_size c) (cache_hits c) (cache_misses c).

Definition put (c : EffectiveAclCache) (p : Principal) (r : ResourceId) (a : Action) (d : Decision)
    : EffectiveAclCache :=
  let m := if cache_max_size c <=? N.of_nat (size (cache_entries c)) then ∅ else cache_entries c in
  set_entries (<[((p, r, a) : CacheKey) := d]> m) c.

Definition key_principal (k : CacheKey) : Principal := k.1.1.
Definition key_resource (k : CacheKey) : ResourceId := k.1.2.

Definition invalidate_resource (c : EffectiveAclCache) (r : ResourceId) : EffectiveAclCache :=
  set_entries (filter (fun kv => key_resource kv.1 <> r) (cache_entries c)) c.

Definition invalidate_principal (c : EffectiveAclCache) (p : Principal) : EffectiveAclCache :=
  set_entries (filter (fun kv => key_principal kv.1 <> p) (cache_entries c)) c.

Definition clear (c : EffectiveAclCache) : EffectiveAclCache := set_entries ∅ c.

End Cache.

(** ** permission.rs: the checker *)

Record CapabilityChecker := mkChecker {
  policies : gmap ResourceId (list AclPolicy);
  delegations : gmap ResourceId (list DelegationCert);
  consent_policies : list ConsentPolicy;
  risk_scores : gmap string RiskScore;
  risk_deny_threshold : N;
  risk_defer_threshold : N;
  consent_enabled : bool;
  cache : EffectiveAclCache;
}.

Definition set_cache (f : EffectiveAclCache -> EffectiveAclCache) (k : CapabilityChecker) : CapabilityChecker :=
  mkChecker (policies k) (delegations k) (consent_policies k) (risk_scores k)
    (risk_deny_threshold k) (risk_defer_threshold k) (consent_enabled k) (f (cache k)).

Definition set_delegations (m : gmap ResourceId (list DelegationCert)) (k : CapabilityChecker) : CapabilityChecker :=
  mkChecker (policies k) m (consent_policies k) (risk_scores k)
    (risk_deny_threshold k) (risk_defer_threshold k) (consent_enabled k) (cache k).

Section Checker.
Context `{Ed25519}.

(** [CapabilityChecker::new], [with_consent], [with_risk_thresholds] *)
Definition checker_new : CapabilityChecker := mkChecker ∅ ∅ [] ∅ 90 70 false (Cache.new 1024).

Definition with_consent (k : CapabilityChecker) (enabled : bool) : CapabilityChecker :=
  mkChecker (policies k) (delegations k) (consent_policies k) (risk_scores k)
    (risk_deny_threshold k) (risk_defer_threshold k) enabled (cache k).

Definition with_risk_thresholds (k : CapabilityChecker) (deny defer : N) : CapabilityChecker :=
  mkChecker (policies k) (delegations k) (consent_policies k) (risk_scores k)
    (N.min deny 100) (N.min defer (N.min deny 100)) (consent_enabled k) (cache k).

(** [add_policy], [grant], [deny] *)
Definition add_policy (k : CapabilityChecker) (r : ResourceId) (p : AclPolicy) : CapabilityChecker :=
  set_cache (fun c => Cache.invalidate_resource c r)
    (mkChecker (<[r := default [] (policies k !! r) ++ [p]]> (policies k))
       (delegations k) (consent_policies k) (risk_scores k)
       (risk_deny_threshold k) (risk_defer_threshold k) (consent_enabled k) (cache k)).

Definition grant (k : CapabilityChecker) (r : ResourceId) (p : Principal) (a : Action) : CapabilityChecker :=
  add_policy k r (policy_allow p a).
Definition deny (k : CapabilityChecker) (r : ResourceId) (p : Principal) (a : Action) : CapabilityChecker :=
  add_policy k r (policy_deny p a).

(** [add_delegation] *)
Definition add_delegation (k : CapabilityChecker) (r : ResourceId) (cert : DelegationCert) : CapabilityChecker :=
  let who := principal_new (grantee cert) in
  set_cache (fun c => Cache.invalidate_resource (Cache.invalidate_principal c who) r)
    (set_delegations (<[r := default [] (delegations k !! r) ++ [cert]]> (delegations k)) k).

(** [revoke_delegation] *)
Definition revoke_delegation (k : CapabilityChecker) (r : ResourceId) (who : Principal)
    : CapabilityChecker * N :=
  match delegations k !! r with
  | Some certs =>
      let kept := filter (fun c => grantee c <> who) certs in
      let removed := lenN certs - lenN kept in
      let k := set_delegations (<[r := kept]> (delegations k)) k in
      (if 0 <? removed
       then set_cache (fun c => Cache.invalidate_resource (Cache.invalidate_principal c who) r) k
       else k, removed)
  | None => (k, 0)
  end.

(** The certificates [revoke_delegation_everywhere] marks *)
Definition to_revoke (who : Principal) (c : DelegationCert) : bool :=
  String.eqb (grantee c) who && negb (revoked c).

Definition revoke_matching (who : Principal) (certs : list DelegationCert) : list DelegationCert :=
  map (fun c => if to_revoke who c then cert_revoke c else c) certs.

(** A count summed over the lists of a map *)
Definition sum_values {V} (f : V -> N) (m : gmap ResourceId V) : N :=
  map_fold (fun _ v n => f v + n) 0 m.

(** [revoke_delegation_everywhere] *)
Definition revoke_delegation_everywhere (k : CapabilityChecker) (who : Principal)
    : CapabilityChecker * N :=
  let removed := sum_values (fun certs => lenN (filter (fun c => Is_true (to_revoke who c)) certs)) (delegations k) in
  let k := set_delegations (revoke_matching who <$> delegations k) k in
  (if 0 <? removed
   then set_cache (fun c => Cache.clear (Cache.invalidate_principal c who)) k
   else k, removed).

(** What [prune_delegations] keeps *)
Definition keep_cert (now : Z) (c : DelegationCert) : bool :=
  if revoked c then false
  else match expires_at c with Some exp => negb (exp <? now)%Z | None => true end.

(** [prune_delegations] *)
Definition prune_delegations (k : CapabilityChecker) (now : Z) : CapabilityChecker * N :=
  let keep (certs : list DelegationCert) := filter (fun c => Is_true (keep_cert now c)) certs in
  let pruned := sum_values (fun certs => lenN certs - lenN (keep certs)) (delegations k) in
  let k := set_delegations (keep <$> delegations k) k in
  (if 0 <? pruned then set_cache Cache.clear k else k, pruned).

(** [add_consent_policy], [set_risk_score] *)
Definition add_consent_policy (k : CapabilityChecker) (p : ConsentPolicy) : CapabilityChecker :=
  set_cache Cache.clear
    (mkChecker (policies k) (delegations k) (consent_policies k ++ [p]) (risk_scores k)
       (risk_deny_threshold k) (risk_defer_threshold k) (consent_enabled k) (cache k)).

Definition set_risk_score (k : CapabilityChecker) (p : Principal) (risk : RiskScore) : CapabilityChecker :=
  set_cache (fun c => Cache.invalidate_principal c p)
    (mkChecker (policies k) (delegations k) (consent_policies k) (<[p := risk]> (risk_scores k))
       (risk_deny_threshold k) (risk_defer_threshold k) (consent_enabled k) (cache k)).

(** [grant_with_consent] *)
Definition grant_with_consent (k : CapabilityChecker) (r : ResourceId) (grantor : Did)
    (grantee : Principal) (a : Action) (purpose : string) (now : Z) : CapabilityChecker * ConsentProof :=
  (grant k r grantee a, create_consent_proof grantor grantee purpose now).

(** [evaluate_uncached]: the body of the delegation walk *)
Definition cert_grants (p : Principal) (resource : ResourceId) (now : Z) (c : DelegationCert) : bool :=
  if negb (String.eqb (grantee c) p) then false
  else if negb (resource_in_scope resource (cert_resource c)) then false
  else is_ok (cert_validate c now).

Definition delegation_at (k : CapabilityChecker) (p : Principal) (resource : ResourceId) (now : Z)
    (r : ResourceId) : option Decision :=
  match delegations k !! r with
  | Some certs => first_some (fun c => if cert_grants p resource now c then Some Delegate else None) certs
  | None => None
  end.

(** [evaluate_uncached]: the body of the policy walk *)
Definition policy_at (k : CapabilityChecker) (p : Principal) (role : Role) (a : Action)
    (r : ResourceId) : option Decision :=
  match policies k !! r with
  | Some ps => first_some (fun pol => if policy_matches pol p role a
                                      then Some (effect_decision (pol_effect pol)) else None) ps
  | None => None
  end.

(** [evaluate_uncached]: the consent layer and the default *)
Definition consent_or_deny (k : CapabilityChecker) (p : Principal) (a : Action) : Decision :=
  if consent_enabled k then
    let risk := default NEUTRAL (risk_scores k !! p) in
    match consent_evaluate (consent_policies k) p a risk (risk_deny_threshold k) (risk_defer_threshold k) with
    | CAllow => Allow
    | CDeny _ | CDefer _ => Deny
    end
  else Deny.

Definition evaluate_uncached (k : CapabilityChecker) (p : Principal) (role : Role) (a : Action)
    (resource : ResourceId) (now : Z) : Decision :=
  match walk_up (delegation_at k p resource now) resource with
  | Some d => d
  | None =>
      match walk_up (policy_at k p role a) resource with
      | Some d => d
      | None => consent_or_deny k p a
      end
  end.

(** [check_permission], [check_permission_at] *)
Definition check_permission (k : CapabilityChecker) (p : Principal) (role : Role) (a : Action)
    (r : ResourceId) (now : Z) : CapabilityChecker * Decision :=
  let '(c, hit) := Cache.get (cache k) p r a in
  let k := set_cache (fun _ => c) k in
  match hit with
  | Some d => (k, d)
  | None =>
      let d := evaluate_uncached k p role a r now in
      (set_cache (fun c => Cache.put c p r a d) k, d)
  end.

Definition check_permission_at (k : CapabilityChecker) (p : Principal) (role : Role) (a : Action)
    (r : ResourceId) (now : Z) : Decision := evaluate_uncached k p role a r now.

(** [check_with_delegation_chain] *)
Definition check_with_delegation_chain (k : CapabilityChecker) (p : Principal) (role : Role) (a : Action)
    (r : ResourceId) (chain : list DelegationCert) (anchor : VerifyingKey) (now : Z)
    : result Decision DelegationError :=
  let? _u := validate_chain chain anchor now in
  let? leaf := ok_or (last chain) EmptyChain in
  if negb (String.eqb (grantee leaf) p) then Ok (check_permission_at k p role a r now)
  else if negb (resource_in_scope r (cert_resource leaf)) then Ok (check_permission_at k p role a r now)
  else Ok Delegate.

End Checker.

(** ** What the decision means *)

(** A certificate on the path to the root, for this principal, that covers the
    resource and is live and signed. *)
Definition granted_by_cert `{Ed25519} (k : CapabilityChecker) (p : Principal) (r : ResourceId) (now : Z) : Prop :=
  exists a certs c, ancestor r a /\ delegations k !! a = Some certs /\ c ∈ certs /\
    grantee c = p /\ resource_in_scope r (cert_resource c) = true /\
    cert_live c now /\ verify_signature c = Ok tt.

(** The policies on the path to the root, most specific first. *)
Definition acl_path (k : CapabilityChecker) (r : ResourceId) : list AclPolicy :=
  lineage r ≫= fun a => default [] (policies k !! a).

(** The consent layer lets the action through: low risk, an allow, no deny. *)
Definition consented (k : CapabilityChecker) (p : Principal) (a : Action) : Prop :=
  let s := score (default NEUTRAL (risk_scores k !! p)) in
  s < risk_deny_threshold k /\ s < risk_defer_threshold k /\
  (exists c, c ∈ consent_policies k /\ consent_matches c p a = true /\ cns_effect c = ConsentAllowed) /\
  (forall c, c ∈ consent_policies k -> consent_matches c p a = true -> cns_effect c = ConsentAllowed).

Lemma consent_loop_allow ps d a fa :
  consent_loop ps d a fa = CAllow <->
  (fa = true \/ exists c, c ∈ ps /\ consent_matches c d a = true /\ cns_effect c = ConsentAllowed) /\
  (forall c, c ∈ ps -> consent_matches c d a = true -> cns_effect c = ConsentAllowed).
Proof.
  revert fa. induction ps as [|q ps IH]; intros fa; cbn [consent_loop].
  { destruct fa; split; try done.
    - intros _. split; [by left|]. by intros ? ?%not_elem_of_nil.
    - intros [[|(c & Hc%not_elem_of_nil & _)] _]; done. }
  destruct (consent_matches q d a) eqn:Hq; cbn [negb].
  - destruct (cns_effect q) eqn:He.
    + rewrite IH. split.
      * intros [_ Hall]. split; [right; exists q; by rewrite elem_of_cons; auto|].
        intros c [->|Hc]%elem_of_cons Hm; [done|by apply Hall].
      * intros [_ Hall]. split; [by left|]. intros c Hc. apply Hall. by right.
    + split; [done|]. intros [_ Hall]. specialize (Hall q (list_elem_of_here _ _) Hq). congruence.
  - rewrite IH. split.
    + intros [Hex Hall]. split.
      * destruct Hex as [?|(c & Hc & ?)]; [by left|right]. exists c. split; [by right|done].
      * intros c [->|Hc]%elem_of_cons Hm; [congruence|by apply Hall].
    + intros [Hex Hall]. split; [|intros c Hc; apply Hall; by right].
      destruct Hex as [?|(c & [->|Hc]%elem_of_cons & Hm & ?)]; [by left|congruence|right; by eauto].
Qed.

Section Meaning.
Context `{Ed25519}.

Lemma cert_grants_true p r now c :
  cert_grants p r now c = true <->
  grantee c = p /\ resource_in_scope r (cert_resource c) = true /\ cert_live c now /\ verify_signature c = Ok tt.
Proof.
  unfold cert_grants. rewrite <- cert_validate_ok.
  destruct (String.eqb_spec (grantee c) p); cbn [negb]; [|split; [done|by intros [? _]]].
  destruct (resource_in_scope r (cert_resource c)); cbn [negb]; [|split; [done|by intros (_ & ? & _)]].
  destruct (cert_validate c now) as [[]|err]; cbn; [done|]. split; [done|]. by intros (_ & _ & ?).
Qed.

Lemma delegation_at_Some k p r now a d :
  delegation_at k p r now a = Some d <->
  d = Delegate /\ exists certs c, delegations k !! a = Some certs /\ c ∈ certs /\ cert_grants p r now c = true.
Proof.
  unfold delegation_at. destruct (delegations k !! a) as [certs|].
  2:{ split; [done|]. by intros (_ & ? & ? & ? & _). }
  rewrite first_some_Some. split.
  - intros (pre & c & post & -> & Hc & _). destruct (cert_grants p r now c) eqn:E; [|done].
    split; [congruence|]. exists (pre ++ c :: post), c. split; [done|]. split; [|done].
    rewrite elem_of_app, elem_of_cons. auto.
  - intros (-> & ? & c & [= <-] & Hc & Hg).
    destruct (first_some (fun c => if cert_grants p r now c then Some Delegate else None) certs) as [d|] eqn:E.
    + rewrite <- first_some_Some, E. apply first_some_Some in E as (? & c' & ? & _ & Hc' & _).
      destruct (cert_grants p r now c'); congruence.
    + exfalso. rewrite first_some_None, Forall_forall in E. specialize (E c Hc). cbn in E. by rewrite Hg in E.
Qed.

Lemma delegation_walk k p r now :
  (walk_up (delegation_at k p r now) r = Some Delegate /\ granted_by_cert k p r now) \/
  (walk_up (delegation_at k p r now) r = None /\ ~ granted_by_cert k p r now).
Proof.
  rewrite walk_up_first_some. destruct (first_some _ (lineage r)) as [d|] eqn:E.
  - left. apply first_some_Some in E as (pre & a & post & Hl & Ha & _).
    apply delegation_at_Some in Ha as (-> & certs & c & Hcs & Hc & Hg%cert_grants_true).
    split; [done|]. exists a, certs, c. split; [|done].
    apply elem_of_lineage. rewrite Hl, elem_of_app, elem_of_cons. auto.
  - right. split; [done|]. intros (a & certs & c & Ha & Hcs & Hc & Hg).
    rewrite first_some_None, Forall_forall in E. apply elem_of_lineage in Ha. specialize (E a Ha). cbn in E.
    assert (delegation_at k p r now a = Some Delegate) as Hd; [|congruence].
    apply delegation_at_Some. split; [done|]. exists certs, c. by rewrite cert_grants_true.
Qed.

(** The two nested loops over the policies are one search of [acl_path]. *)
Lemma first_some_bind {A B C} (f : B -> option C) (g : A -> list B) (l : list A) :
  first_some (fun x => first_some f (g x)) l = first_some f (l ≫= g).
Proof.
  induction l as [|x l IH]; [done|]. cbn [first_some mbind list_bind].
  change (foldr _ _ _) with (l ≫= g) in *. rewrite IH. clear IH. fold (@mbind list _ _ _ g l).
  induction (g x) as [|y gx IHg]; [done|]. cbn. destruct (f y); [done|apply IHg].
Qed.

Lemma policy_walk k p role a r :
  walk_up (policy_at k p role a) r =
  first_some (fun pol => if policy_matches pol p role a
                         then Some (effect_decision (pol_effect pol)) else None) (acl_path k r).
Proof.
  rewrite walk_up_first_some. unfold acl_path. rewrite <- first_some_bind.
  induction (lineage r) as [|x l IH]; [done|]. cbn [first_some]. rewrite IH. unfold policy_at.
  by destruct (policies k !! x).
Qed.

(** What a decision is meant to be *)
Definition decides (k : CapabilityChecker) (p : Principal) (role : Role) (a : Action) (r : ResourceId) (now : Z) (d : Decision) : Prop :=
  (d = Delegate <-> granted_by_cert k p r now) /\
  (~ granted_by_cert k p r now ->
   d = match find (fun pol => policy_matches pol p role a) (acl_path k r) with
       | Some pol => effect_decision (pol_effect pol)
       | None => consent_or_deny k p a
       end).

Lemma evaluate_decides k p role a r now : decides k p role a r now (evaluate_uncached k p role a r now).
Proof.
  assert (~ granted_by_cert k p r now ->
    evaluate_uncached k p role a r now =
    match find (fun pol => policy_matches pol p role a) (acl_path k r) with
    | Some pol => effect_decision (pol_effect pol)
    | None => consent_or_deny k p a
    end) as Hno.
  { intros Hg. unfold evaluate_uncached. destruct (delegation_walk k p r now) as [[_ ?]|[-> _]]; [done|].
    rewrite policy_walk. induction (acl_path k r) as [|pol l IH]; [done|]. cbn.
    destruct (policy_matches pol p role a); [done|apply IH]. }
  split; [|done]. destruct (delegation_walk k p r now) as [[Hw Hg]|[Hw Hg]].
  - split; [done|]. intros _. unfold evaluate_uncached. by rewrite Hw.
  - split; [|done]. rewrite (Hno Hg). destruct (find _ _) as [pol|].
    + by destruct (pol_effect pol).
    + unfold consent_or_deny. destruct (consent_enabled k); [|done]. by destruct (consent_evaluate _ _ _ _ _ _).
Qed.

(** C10: What the access-control engine decides.  [check_permission_at] always,
    and [check_permission] when the decision cache holds no entry for the
    principal, the resource and the action, answers [Delegate] exactly when a
    live, correctly signed certificate for the principal, covering the
    resource, sits on the resource or on one of its ancestors.  Otherwise the
    first policy that matches principal, role and action decides, searching
    the resource's own policies first and then its ancestors' up to the root;
    when none matches the consent layer decides, and denies when it is off.
    The answer is then the cached one; when the cache holds an entry,
    [check_permission] repeats it without looking at policies and
    certificates. *)
Theorem acl_decision_spec k p role a r now :
  decides k p role a r now (check_permission_at k p role a r now) /\
  let '(k', d) := check_permission k p role a r now in
  cache_entries (cache k') !! ((p, r, a) : CacheKey) = Some d /\
  match cache_entries (cache k) !! ((p, r, a) : CacheKey) with
  | Some cached => d = cached
  | None => decides k p role a r now d
  end.
Proof.
  split; [apply evaluate_decides|]. unfold check_permission, Cache.get.
  destruct (cache_entries (cache k) !! ((p, r, a) : CacheKey)) as [d|] eqn:E; [by split|].
  split; [cbn; by rewrite lookup_insert_eq|]. exact (evaluate_decides (set_cache _ k) p role a r now).
Qed.

End Meaning.

(** ** Access needs a grant *)

Section Access.
Context `{Ed25519}.

Lemma evaluate_delegate k p role a r now :
  evaluate_uncached k p role a r now = Delegate -> granted_by_cert k p r now.
Proof.
  unfold evaluate_uncached. destruct (delegation_walk k p r now) as [[_ ?]|[-> _]]; [done|].
  rewrite policy_walk. destruct (first_some _ _) as [d|] eqn:E.
  - apply first_some_Some in E as (? & pol & ? & _ & Hp & _).
    destruct (policy_matches pol p role a); [|done]. simplify_eq. by destruct (pol_effect pol).
  - unfold consent_or_deny. destruct (consent_enabled k); [|done]. by destruct (consent_evaluate _ _ _ _ _ _).
Qed.

(** The engine denies by default: it lets a principal act only if a live
    certificate delegates the resource to it, or a policy on the resource or
    an ancestor allows exactly this principal, role and action, or the consent
    layer is on, holds an allow and no deny for the action, and the
    principal's risk is below both thresholds. *)
Theorem access_needs_grant k p role a r now :
  is_allowed (check_permission_at k p role a r now) = true ->
  granted_by_cert k p r now \/
  (exists anc ps pol, ancestor r anc /\ policies k !! anc = Some ps /\ pol ∈ ps /\
     policy_matches pol p role a = true /\ pol_effect pol = EffAllow) \/
  (consent_enabled k = true /\ consented k p a).
Proof.
  unfold check_permission_at, evaluate_uncached.
  destruct (delegation_walk k p r now) as [[_ ?]|[-> _]]; [by left|]. right.
  rewrite policy_walk in *. destruct (first_some _ _) as [d|] eqn:E.
  - left. apply first_some_Some in E as (pre & pol & post & Hl & Hp & _).
    destruct (policy_matches pol p role a) eqn:Hm; [|done]. simplify_eq.
    assert (pol ∈ acl_path k r) as Hin by (rewrite Hl, elem_of_app, elem_of_cons; auto).
    unfold acl_path in Hin. apply list_elem_of_bind in Hin as (anc & Hpol & Hanc%elem_of_lineage).
    destruct (policies k !! anc) as [ps|] eqn:Hps; [|by apply not_elem_of_nil in Hpol].
    exists anc, ps, pol. repeat split; try done. by destruct (pol_effect pol).
  - right. unfold consent_or_deny in *. destruct (consent_enabled k); [|done]. split; [done|].
    unfold consent_evaluate in *. unfold consented.
    destruct (N.leb_spec (risk_deny_threshold k) (score (default NEUTRAL (risk_scores k !! p)))); [done|].
    destruct (N.leb_spec (risk_defer_threshold k) (score (default NEUTRAL (risk_scores k !! p)))); [done|].
    destruct (consent_loop _ _ _ _) eqn:Hloop; try done.
    apply consent_loop_allow in Hloop as [[?|Hex] Hall]; [done|]. auto.
Qed.

(** ** Operations *)

Inductive acl_op :=
| OpPolicy (r : ResourceId) (pol : AclPolicy)
| OpDelegate (r : ResourceId) (c : DelegationCert)
| OpRevoke (r : ResourceId) (p : Principal)
| OpRevokeAll (p : Principal)
| OpPrune (now : Z)
| OpConsent (c : ConsentPolicy)
| OpRisk (p : Principal) (risk : RiskScore)
| OpCheck (p : Principal) (role : Role) (a : Action) (r : ResourceId) (now : Z).

Definition acl_step (k : CapabilityChecker) (o : acl_op) : CapabilityChecker :=
  match o with
  | OpPolicy r pol => add_policy k r pol
  | OpDelegate r c => add_delegation k r c
  | OpRevoke r p => fst (revoke_delegation k r p)
  | OpRevokeAll p => fst (revoke_delegation_everywhere k p)
  | OpPrune now => fst (prune_delegations k now)
  | OpConsent c => add_consent_policy k c
  | OpRisk p risk => set_risk_score k p risk
  | OpCheck p role a r now => fst (check_permission k p role a r now)
  end.

Definition acl_run (k : CapabilityChecker) (ops : list acl_op) : CapabilityChecker :=
  fold_left acl_step ops k.

(** A certificate for [p] that is not revoked *)
Definition has_cert (m : gmap ResourceId (list DelegationCert)) (p : Principal) : Prop :=
  exists r certs c, m !! r = Some certs /\ c ∈ certs /\ grantee c = p /\ revoked c = false.

(** Every delegation the cache remembers still has a certificate behind it. *)
Definition delegate_backed (k : CapabilityChecker) : Prop :=
  forall p r a, cache_entries (cache k) !! ((p, r, a) : CacheKey) = Some Delegate -> has_cert (delegations k) p.

Lemma granted_has_cert k p r now : granted_by_cert k p r now -> has_cert (delegations k) p.
Proof.
  intros (a & certs & c & _ & Hm & Hc & Hg & _ & [Hr _] & _). by exists a, certs, c.
Qed.

Lemma sum_values_zero {V} (f : V -> N) m : sum_values f m = 0 -> forall r v, m !! r = Some v -> f v = 0.
Proof.
  unfold sum_values.
  apply (map_fold_weak_ind (fun n m => n = 0 -> forall r v, m !! r = Some v -> f v = 0)).
  - intros _ r v. by rewrite lookup_empty.
  - intros i x m' n Hi IH Hn r v [[-> ->]|[_ Hr]]%lookup_insert_Some; [lia|].
    apply (IH ltac:(lia) r v Hr).
Qed.

(** ** Revocation *)

Lemma backed_step k k' :
  delegate_backed k ->
  (forall p r a, cache_entries (cache k') !! ((p, r, a) : CacheKey) = Some Delegate ->
     cache_entries (cache k) !! ((p, r, a) : CacheKey) = Some Delegate /\
     (has_cert (delegations k) p -> has_cert (delegations k') p)) ->
  delegate_backed k'.
Proof. intros Hb H' p r a Hc. destruct (H' p r a Hc) as [Hk Hm]. apply Hm. by eapply Hb. Qed.

Lemma backed_add_delegation k r c : delegate_backed k -> delegate_backed (add_delegation k r c).
Proof.
  intros Hb. apply (backed_step k); [done|]. intros p r' a Hc. cbn in Hc.
  apply map_lookup_filter_Some in Hc as [[Hc _]%map_lookup_filter_Some _]. split; [done|].
  intros (r0 & certs & c0 & Hm & Hin & Hc0). cbn. destruct (decide (r = r0)) as [->|Hne].
  - exists r0, (certs ++ [c]), c0. rewrite lookup_insert_eq, Hm. split; [done|]. rewrite elem_of_app. auto.
  - exists r0, certs, c0. by rewrite lookup_insert_ne.
Qed.

Lemma backed_revoke k r who : delegate_backed k -> delegate_backed (fst (revoke_delegation k r who)).
Proof.
  intros Hb. unfold revoke_delegation. destruct (delegations k !! r) as [certs|] eqn:Hr; [|done]. cbn [fst].
  assert (forall p, p <> who \/ lenN certs - lenN (filter (fun c => grantee c <> who) certs) = 0 ->
    has_cert (delegations k) p ->
    has_cert (<[r:=filter (fun c => grantee c <> who) certs]> (delegations k)) p) as Hkeep.
  { intros p Hp (r0 & certs0 & c0 & Hm & Hin & Hg & Hrv). destruct (decide (r = r0)) as [->|Hne].
    - simplify_eq. exists r0, (filter (fun c => grantee c <> who) certs), c0.
      rewrite lookup_insert_eq, list_elem_of_filter. repeat split; try done.
      destruct Hp as [|Hn]; [done|]. by apply (lenN_filter_all _ _ _ Hn).
    - exists r0, certs0, c0. by rewrite lookup_insert_ne. }
  destruct (N.ltb_spec 0 (lenN certs - lenN (filter (fun c => grantee c <> who) certs))).
  - apply (backed_step k); [done|]. intros p r' a Hc. cbn in Hc.
    apply map_lookup_filter_Some in Hc as [[Hc Hw]%map_lookup_filter_Some _]. split; [done|].
    apply Hkeep. by left.
  - apply (backed_step k); [done|]. intros p r' a Hc. split; [done|]. apply Hkeep. right. lia.
Qed.

Lemma backed_revoke_everywhere k who :
  delegate_backed k -> delegate_backed (fst (revoke_delegation_everywhere k who)).
Proof.
  intros Hb. unfold revoke_delegation_everywhere. cbn [fst].
  destruct (N.ltb_spec 0 (sum_values (fun certs => lenN (filter (fun c => Is_true (to_revoke who c)) certs)) (delegations k)))
    as [|Hz].
  - intros p r a Hc. cbn in Hc. by rewrite lookup_empty in Hc.
  - apply (backed_step k); [done|]. intros p r a Hc. split; [done|].
    intros (r0 & certs & c0 & Hm & Hin & Hg & Hrv). cbn.
    exists r0, (revoke_matching who certs), c0. rewrite lookup_fmap, Hm. repeat split; try done.
    unfold revoke_matching. apply list_elem_of_fmap. exists c0. split; [|done].
    destruct (to_revoke who c0) eqn:Ht; [|done]. exfalso.
    apply N.le_0_r in Hz. pose proof (sum_values_zero _ _ Hz r0 certs Hm) as Hl. cbn in Hl.
    assert (c0 ∈ filter (fun c => Is_true (to_revoke who c)) certs) as Hf
      by (rewrite list_elem_of_filter; split; [by rewrite Ht|done]).
    unfold lenN in Hl. destruct (filter _ certs); [by apply not_elem_of_nil in Hf|done].
Qed.

Lemma backed_prune k now : delegate_backed k -> delegate_backed (fst (prune_delegations k now)).
Proof.
  intros Hb. unfold prune_delegations. cbn [fst].
  destruct (N.ltb_spec 0 (sum_values (fun certs => lenN certs -
    lenN (filter (fun c => Is_true (keep_cert now c)) certs)) (delegations k))) as [|Hz].
  - intros p r a Hc. cbn in Hc. by rewrite lookup_empty in Hc.
  - apply (backed_step k); [done|]. intros p r a Hc. split; [done|].
    intros (r0 & certs & c0 & Hm & Hin & Hg & Hrv). cbn.
    exists r0, (filter (fun c => Is_true (keep_cert now c)) certs), c0.
    rewrite lookup_fmap, Hm, list_elem_of_filter. repeat split; try done.
    eapply (lenN_filter_all (fun c => Is_true (keep_cert now c)) certs); [|done].
    apply N.le_0_r in Hz. apply (sum_values_zero _ _ Hz r0 certs Hm).
Qed.

Lemma backed_check k p role a r now :
  delegate_backed k -> delegate_backed (fst (check_permission k p role a r now)).
Proof.
  intros Hb. unfold check_permission, Cache.get.
  destruct (cache_entries (cache k) !! ((p, r, a) : CacheKey)) as [d|] eqn:Hd; cbn [fst]; [exact Hb|].
  set (k' := set_cache _ k). intros p' r' a' Hc. cbn in Hc.
  apply lookup_insert_Some in Hc as [[[= <- <- <-] He]|[_ Hc]].
  - apply evaluate_delegate in He. by apply granted_has_cert in He.
  - destruct (cache_max_size (cache k) <=? _); [by rewrite lookup_empty in Hc|]. by eapply Hb.
Qed.

Lemma backed_acl_step k o : delegate_backed k -> delegate_backed (acl_step k o).
Proof.
  intros Hb. destruct o; cbn [acl_step].
  - apply (backed_step k); [done|]. intros p r' a Hc. cbn in Hc.
    by apply map_lookup_filter_Some in Hc as [Hc _].
  - by apply backed_add_delegation.
  - by apply backed_revoke.
  - by apply backed_revoke_everywhere.
  - by apply backed_prune.
  - intros p r a Hc. cbn in Hc. by rewrite lookup_empty in Hc.
  - apply (backed_step k); [done|]. intros p' r' a Hc. cbn in Hc.
    by apply map_lookup_filter_Some in Hc as [Hc _].
  - by apply backed_check.
Qed.

Lemma backed_acl_run k ops : delegate_backed k -> delegate_backed (acl_run k ops).
Proof.
  unfold acl_run. revert k. induction ops as [|o ops IH]; intros k Hb; [done|].
  cbn. apply IH. by apply backed_acl_step.
Qed.

(** An operation other than adding a certificate for [p] *)
Definition no_new_cert (p : Principal) (o : acl_op) : Prop :=
  match o with OpDelegate _ c => grantee c <> p | _ => True end.

Lemma has_cert_step k o p :
  no_new_cert p o -> has_cert (delegations (acl_step k o)) p -> has_cert (delegations k) p.
Proof.
  intros Ho. destruct o as [| |r who|who|t| | |]; cbn [acl_step no_new_cert] in *; try (by intros ?).
  - intros (r0 & certs & c0 & Hm & Hin & Hg & Hrv). cbn in Hm.
    apply lookup_insert_Some in Hm as [[<- <-]|[_ Hm]]; [|by exists r0, certs, c0].
    apply elem_of_app in Hin as [Hin|Hin%list_elem_of_singleton]; [|by subst].
    destruct (delegations k !! r) as [certs|] eqn:Hr; [|by apply not_elem_of_nil in Hin]. by exists r, certs, c0.
  - unfold revoke_delegation. destruct (delegations k !! r) as [certs|] eqn:Hr; [|done].
    intros (r0 & certs0 & c0 & Hm & Hin & Hg & Hrv).
    assert (<[r:=filter (fun c => grantee c <> who) certs]> (delegations k) !! r0 = Some certs0) as Hm'.
    { revert Hm. cbn [fst]. by destruct (0 <? _). }
    apply lookup_insert_Some in Hm' as [[<- <-]|[_ Hm']]; [|by exists r0, certs0, c0].
    apply list_elem_of_filter in Hin as [_ Hin]. by exists r, certs, c0.
  - intros (r0 & certs0 & c0 & Hm & Hin & Hg & Hrv).
    assert ((revoke_matching who <$> delegations k) !! r0 = Some certs0) as Hm'.
    { revert Hm. unfold revoke_delegation_everywhere. cbn [fst]. by destruct (0 <? _). }
    rewrite lookup_fmap_Some in Hm'. destruct Hm' as (certs & <- & Hm').
    unfold revoke_matching in Hin. apply list_elem_of_fmap in Hin as (c & -> & Hin).
    exists r0, certs, c. destruct (to_revoke who c); [done|]. done.
  - intros (r0 & certs0 & c0 & Hm & Hin & Hg & Hrv).
    assert (((fun certs => filter (fun c => Is_true (keep_cert t c)) certs) <$> delegations k) !! r0 = Some certs0) as Hm'.
    { revert Hm. unfold prune_delegations. cbn [fst]. by destruct (0 <? _). }
    rewrite lookup_fmap_Some in Hm'. destruct Hm' as (certs & <- & Hm').
    apply list_elem_of_filter in Hin as [_ Hin]. by exists r0, certs, c0.
  - unfold check_permission, Cache.get. by destruct (cache_entries (cache k) !! _).
Qed.

Lemma has_cert_run k ops p :
  Forall (no_new_cert p) ops -> has_cert (delegations (acl_run k ops)) p -> has_cert (delegations k) p.
Proof.
  unfold acl_run. revert k. induction ops as [|o ops IH]; intros k Ho; [done|].
  apply Forall_cons in Ho as [Ho Hops]. cbn. intros Hc. apply (has_cert_step k o p Ho). by apply IH.
Qed.

Lemma revoke_everywhere_no_cert k p : ~ has_cert (delegations (fst (revoke_delegation_everywhere k p))) p.
Proof.
  intros (r & certs & c & Hm & Hin & Hg & Hrv).
  assert ((revoke_matching p <$> delegations k) !! r = Some certs) as Hm'.
  { revert Hm. unfold revoke_delegation_everywhere. cbn [fst]. by destruct (0 <? _). }
  rewrite lookup_fmap_Some in Hm'. destruct Hm' as (certs' & <- & _).
  unfold revoke_matching in Hin. apply list_elem_of_fmap in Hin as (c' & -> & _).
  destruct (to_revoke p c') eqn:Ht; [done|]. unfold to_revoke in Ht.
  rewrite Hrv, Hg, String.eqb_refl in Ht. done.
Qed.

(** C11: Revocation takes effect at once and lasts: from a checker with an
    empty cache, whatever operations ran before, once every delegation of a
    principal has been revoked neither [check_permission], its decision cache
    included, nor [check_permission_at] answers [Delegate] for it, whatever
    operations follow, until a certificate is registered for it again.  The
    check of a chain of certificates that the caller itself presents
    ([check_with_delegation_chain]) does not consult the registered ones and is
    not meant here. *)
Theorem revocation_effective k0 before p after role a r now :
  cache_entries (cache k0) = ∅ ->
  Forall (no_new_cert p) after ->
  let k := acl_run (fst (revoke_delegation_everywhere (acl_run k0 before) p)) after in
  snd (check_permission k p role a r now) <> Delegate /\ check_permission_at k p role a r now <> Delegate.
Proof.
  intros Hempty Hafter. set (k1 := fst (revoke_delegation_everywhere _ _)). cbn zeta.
  assert (delegate_backed (acl_run k1 after)) as Hb.
  { apply backed_acl_run, backed_revoke_everywhere, backed_acl_run.
    intros q r0 a0. by rewrite Hempty, lookup_empty. }
  assert (~ has_cert (delegations (acl_run k1 after)) p) as Hno.
  { intros Hc%has_cert_run; [|done]. by apply revoke_everywhere_no_cert in Hc. }
  split; [|intros He%evaluate_delegate%granted_has_cert; done]. unfold check_permission, Cache.get.
  destruct (cache_entries _ !! _) as [d|] eqn:Hd; cbn [snd].
  - intros ->. by apply Hb in Hd.
  - intros He%evaluate_delegate%granted_has_cert. done.
Qed.

(** ** The decision cache *)

(** A sequence of checks; the role is the principal's. *)
Fixpoint check_all (roles : Principal -> Role) (k : CapabilityChecker)
    (reqs : list (Principal * Action * ResourceId * Z)) : list Decision :=
  match reqs with
  | [] => []
  | (p, a, r, now) :: reqs =>
      let '(k, d) := check_permission k p (roles p) a r now in d :: check_all roles k reqs
  end.

Definition no_expiry (k : CapabilityChecker) : Prop :=
  forall r certs c, delegations k !! r = Some certs -> c ∈ certs -> expires_at c = None.

Lemma first_some_ext {A B} (f g : A -> option B) l :
  (forall x, x ∈ l -> f x = g x) -> first_some f l = first_some g l.
Proof.
  induction l as [|x l IH]; intros Hfg; [done|]. cbn. rewrite (Hfg x) by left. rewrite IH; [done|].
  intros y Hy. apply Hfg. by right.
Qed.

Lemma evaluate_no_expiry k p role a r now now' :
  no_expiry k -> evaluate_uncached k p role a r now = evaluate_uncached k p role a r now'.
Proof.
  intros Hn. unfold evaluate_uncached. rewrite !(walk_up_first_some (delegation_at _ _ _ _)).
  rewrite (first_some_ext _ (delegation_at k p r now')); [done|]. intros x _. unfold delegation_at.
  destruct (delegations k !! x) as [certs|] eqn:Hx; [|done]. apply first_some_ext. intros c Hc.
  unfold cert_grants, cert_validate. by rewrite (Hn x certs c Hx Hc).
Qed.

(** While the configuration does not change, the decision cache is
    transparent: starting with an empty cache, if every principal keeps one
    role and no certificate has an expiry, every check in a sequence of any
    length, cached or not, returns what an uncached evaluation returns. *)
Theorem cached_checks_agree roles k reqs :
  cache_entries (cache k) = ∅ -> no_expiry k ->
  check_all roles k reqs =
  map (fun '(p, a, r, now) => check_permission_at k p (roles p) a r now) reqs.
Proof.
  intros Hempty Hn.
  assert (forall k', policies k' = policies k -> delegations k' = delegations k ->
    consent_policies k' = consent_policies k -> risk_scores k' = risk_scores k ->
    risk_deny_threshold k' = risk_deny_threshold k -> risk_defer_threshold k' = risk_defer_threshold k ->
    consent_enabled k' = consent_enabled k ->
    (forall p r a d, cache_entries (cache k') !! ((p, r, a) : CacheKey) = Some d ->
       forall now, d = evaluate_uncached k p (roles p) a r now) ->
    check_all roles k' reqs = map (fun '(p, a, r, now) => check_permission_at k p (roles p) a r now) reqs) as Hgen.
  2:{ apply Hgen; try done. intros p r a d. by rewrite Hempty, lookup_empty. }
  clear Hempty. induction reqs as [|[[[p a] r] now] reqs IH]; intros k' E1 E2 E3 E4 E5 E6 E7 Hc; [done|].
  assert (forall c now', evaluate_uncached (set_cache c k') p (roles p) a r now' =
    evaluate_uncached k p (roles p) a r now') as Heq.
  { intros c now'. destruct k, k'. cbn in *. subst. done. }
  cbn [check_all map]. unfold check_permission, Cache.get.
  destruct (cache_entries (cache k') !! ((p, r, a) : CacheKey)) as [d|] eqn:Hd.
  - rewrite (Hc _ _ _ _ Hd now). f_equal. by apply IH.
  - rewrite Heq. f_equal. apply IH; try done. intros p' r' a' d Hl now'. cbn in Hl.
    apply lookup_insert_Some in Hl as [[[= <- <- <-] <-]|[_ Hl]]; [by apply evaluate_no_expiry|].
    destruct (cache_max_size (cache k') <=? _); [by rewrite lookup_empty in Hl|]. by eapply Hc.
Qed.

End Access.

(** ** Where the engine is weaker than its documentation *)

(** Chain validation does not tie a link's key to the grantee it extends,
    nor its scope to the scope it extends: from any chain the anchor accepts,
    anyone holding any signing key can sign one more link in the leaf
    grantee's name, for the whole tree, and the checker then answers
    [Delegate] for every action of the new grantee on every resource. *)
Theorem chain_escalation `{Ed25519Laws} k role a r chain anchor leaf now (key : SigningKey) intruder :
  validate_chain chain anchor now = Ok tt -> last chain = Some leaf ->
  check_with_delegation_chain k intruder role a r
    (chain ++ [cert_grant (grantee leaf) intruder "/" key None (Some leaf) now]) anchor now = Ok Delegate.
Proof.
  intros Hv Hl. unfold check_with_delegation_chain.
  rewrite forged_link_valid by done. rewrite last_snoc. cbn [ok_or cert_grant grantee cert_resource].
  by rewrite String.eqb_refl.
Qed.

(** The cached check can disagree with the policies: a deny added to an
    ancestor leaves an [Allow] cached for the descendant in force, and a
    decision cached for a principal in one role is served to it in another. *)
Theorem cache_outlives_policy `{Ed25519} :
  (let k := acl_run checker_new
     [OpPolicy "/" (policy_allow "alice" Write); OpCheck "alice" Viewer Write "/apps/x" 0;
      OpPolicy "/apps" (policy_deny "alice" Write)] in
   snd (check_permission k "alice" Viewer Write "/apps/x" 1) = Allow /\
   check_permission_at k "alice" Viewer Write "/apps/x" 1 = Deny) /\
  (let k := acl_run checker_new
     [OpPolicy "/" (mkPolicy None (Some RoleAdmin) Write EffAllow); OpCheck "alice" RoleAdmin Write "/apps" 0] in
   snd (check_permission k "alice" Viewer Write "/apps" 1) = Allow /\
   check_permission_at k "alice" Viewer Write "/apps" 1 = Deny).
Proof. split; split; vm_compute; reflexivity. Qed.

(** ** Witnesses, with a small signature scheme *)

Definition toy_ed25519 : Ed25519 := {|
  SigningKey := byte;
  VerifyingKey := byte;
  verifying_key := id;
  vk_to_bytes v := replicate 32 v;
  vk_from_bytes b := match b with v :: _ => Ok v | [] => Err "empty" end;
  ed_sign k _ := replicate 64 k;
  ed_verify v _ s := bool_decide (s = replicate 64 v);
  to_rfc3339 _ := "t" |}.

Lemma toy_laws : @Ed25519Laws toy_ed25519.
Proof.
  split; cbn; intros; try done. by apply bool_decide_eq_true.
Qed.

Definition toy_cert : DelegationCert :=
  @cert_grant toy_ed25519 "root" "mid" "/apps" x01 None None 0.

Lemma access_needs_grant_witness :
  let k := add_policy checker_new "/" (policy_allow "alice" Read) in
  @is_allowed (@check_permission_at toy_ed25519 k "alice" Viewer Read "/apps" 0) = true /\
  (@granted_by_cert toy_ed25519 k "alice" "/apps" 0 \/
   (exists anc ps pol, ancestor "/apps" anc /\ policies k !! anc = Some ps /\ pol ∈ ps /\
     policy_matches pol "alice" Viewer Read = true /\ pol_effect pol = EffAllow) \/
   (consent_enabled k = true /\ consented k "alice" Read)).
Proof.
  intros k. split; [vm_compute; reflexivity|].
  apply (@access_needs_grant toy_ed25519 k "alice" Viewer Read "/apps" 0). vm_compute. reflexivity.
Defined.

Definition toy_before : CapabilityChecker :=
  @acl_run toy_ed25519 checker_new [OpDelegate "/apps" toy_cert; OpCheck "mid" Viewer Read "/apps/x" 1].

Lemma revocation_effective_witness :
  snd (@check_permission toy_ed25519 toy_before "mid" Viewer Read "/apps/x" 1) = Delegate /\
  let k := @acl_run toy_ed25519 (fst (revoke_delegation_everywhere toy_before "mid")) [OpCheck "mid" Viewer Read "/apps/x" 2] in
  snd (@check_permission toy_ed25519 k "mid" Viewer Read "/apps/x" 3) <> Delegate /\
  @check_permission_at toy_ed25519 k "mid" Viewer Read "/apps/x" 3 <> Delegate.
Proof.
  split; [vm_compute; reflexivity|].
  apply (@revocation_effective toy_ed25519 checker_new _ "mid"); [reflexivity|]. repeat constructor.
Defined.

(** A caller that kept its certificate still passes the check of a chain. *)
Example chain_ignores_revocation :
  let k := fst (revoke_delegation_everywhere toy_before "mid") in
  @check_permission_at toy_ed25519 k "mid" Viewer Read "/apps/x" 3 <> Delegate /\
  @check_with_delegation_chain toy_ed25519 k "mid" Viewer Read "/apps/x" [toy_cert] x01 3 = Ok Delegate.
Proof. split; vm_compute; [discriminate|reflexivity]. Qed.

Lemma cached_checks_agree_witness :
  @check_all toy_ed25519 (fun _ => Viewer) (add_delegation checker_new "/apps" toy_cert)
    [("mid", Read, "/apps/x", 1%Z); ("mid", Read, "/apps/x", 2%Z)] = [Delegate; Delegate].
Proof.
  rewrite (@cached_checks_agree toy_ed25519); [vm_compute; reflexivity|reflexivity|].
  intros r certs c Hr Hc. cbn in Hr. apply lookup_insert_Some in Hr as [[<- <-]|[_ Hr]].
  - rewrite lookup_empty in Hc. cbn in Hc. apply list_elem_of_singleton in Hc. subst c. reflexivity.
  - by rewrite lookup_empty in Hr.
Defined.

Lemma chain_escalation_witness :
  @check_with_delegation_chain toy_ed25519 checker_new "eve" Viewer Delete "/kernel"
    ([toy_cert] ++ [@cert_grant toy_ed25519 "mid" "eve" "/" xee None (Some toy_cert) 5]) x01 5 = Ok Delegate.
Proof.
  apply (@chain_escalation toy_ed25519 toy_laws checker_new Viewer Delete "/kernel" [toy_cert] x01 toy_cert 5 xee "eve");
    vm_compute; reflexivity.
Defined.

Lemma acl_decision_spec_witness :
  let k := add_delegation checker_new "/apps" toy_cert in
  snd (@check_permission toy_ed25519 k "mid" Viewer Read "/apps/x" 1) = Delegate.
Proof.
  cbn zeta. pose proof (@acl_decision_spec toy_ed25519 (add_delegation checker_new "/apps" toy_cert) "mid" Viewer Read "/apps/x" 1) as [_ Hs].
  destruct (check_permission _ _ _ _ _ _) as [k' d]. destruct Hs as [_ Hs].
  assert (cache_entries (cache (add_delegation checker_new "/apps" toy_cert)) !! (("mid", "/apps/x", Read) : CacheKey) = None) as Hn
    by (vm_compute; reflexivity).
  rewrite Hn in Hs. apply Hs.
  exists "/apps", [toy_cert], toy_cert. repeat split; try (vm_compute; reflexivity).
  - eapply anc_parent; [reflexivity|constructor].
  - by left.
  - intros exp He. discriminate He.
Defined.
