(* ===== verification/Scoring.v ===== *)
(** Node scoring vectors: crates/exo-resource-tree/src/scoring.rs.  An [f32]
    is IEEE 754 binary32 with round-to-nearest-even, computed by the Standard
    Library's executable specification. *)

From Stdlib Require Import Floats.SpecFloat.
From S2P Require Import Prelude.
From S2P Require Import Codec.
Open Scope N_scope.

Module F32.

Definition f32 : Type := spec_float.
Definition of_Z (z : Z) : f32 := binary_normalize 24 128 z 0 false.
Definition add : f32 -> f32 -> f32 := SFadd 24 128.
Definition sub : f32 -> f32 -> f32 := SFsub 24 128.
Definition mul : f32 -> f32 -> f32 := SFmul 24 128.
Definition div : f32 -> f32 -> f32 := SFdiv 24 128.
Definition sqrt : f32 -> f32 := SFsqrt 24 128.
Definition ltb : f32 -> f32 -> bool := SFltb.
Definition leb : f32 -> f32 -> bool := SFleb.
Definition zero : f32 := S754_zero false.
Definition one : f32 := of_Z 1.
Definition half : f32 := div one (of_Z 2).

(** [f32::EPSILON], two to the minus 23 *)
Definition EPSILON : f32 := binary_normalize 24 128 1 (-23) false.

Definition is_nan (f : f32) : bool := match f with S754_nan => true | _ => false end.

(** [f32::to_bits]: sign, biased exponent, mantissa. *)
Definition to_bits (f : f32) : N :=
  let sign (s : bool) : N := if s then 2147483648 else 0 in
  match f with
  | S754_zero s => sign s
  | S754_infinity s => sign s + 2139095040
  | S754_nan => 2143289344
  | S754_finite s m e =>
      if Npos m <? 8388608 then sign s + Npos m
      else sign s + Z.to_N (e + 150) * 8388608 + (Npos m - 8388608)
  end.

(** [f32::to_le_bytes] *)
Definition to_le_bytes (f : f32) : bytes := le_bytes 4 (to_bits f).

(** [f32::clamp] *)
Definition clamp (x lo hi : f32) : f32 :=
  let x := if ltb x lo then lo else x in if ltb hi x then hi else x.

(** [Iterator::sum] starts at minus zero. *)
Definition sum (l : list f32) : f32 := foldl add (S754_zero true) l.

End F32.
Export F32 (f32).

Record NodeScoring := mkScoring {
  trust : f32;
  performance : f32;
  difficulty : f32;
  reward : f32;
  reliability : f32;
  velocity : f32;
}.

Module Score.

(** [NodeScoring::default] *)
Definition default : NodeScoring := mkScoring F32.half F32.half F32.half F32.half F32.half F32.half.

(** [NodeScoring::as_array], [from_array] *)
Definition as_array (s : NodeScoring) : list f32 :=
  [trust s; performance s; difficulty s; reward s; reliability s; velocity s].

(** [NodeScoring::to_hash_bytes] *)
Definition to_hash_bytes (s : NodeScoring) : bytes :=
  as_array s ≫= fun v => F32.to_le_bytes (if F32.is_nan v then F32.zero else v).

(** [NodeScoring::blend] *)
Definition blend (s obs : NodeScoring) (alpha : f32) : NodeScoring :=
  let a := F32.clamp alpha F32.zero F32.one in
  let inv := F32.sub F32.one a in
  let mix x y := F32.add (F32.mul x inv) (F32.mul y a) in
  mkScoring (mix (trust s) (trust obs)) (mix (performance s) (performance obs))
    (mix (difficulty s) (difficulty obs)) (mix (reward s) (reward obs))
    (mix (reliability s) (reliability obs)) (mix (velocity s) (velocity obs)).

(** One child of the weighted loop of [aggregate] *)
Definition add_weighted (total : f32) (acc child : NodeScoring) : NodeScoring :=
  let w := F32.div (reward child) total in
  let plus x y := F32.add x (F32.mul y w) in
  mkScoring (plus (trust acc) (trust child)) (plus (performance acc) (performance child))
    (plus (difficulty acc) (difficulty child)) (plus (reward acc) (reward child))
    (plus (reliability acc) (reliability child)) (plus (velocity acc) (velocity child)).

(** [NodeScoring::aggregate] *)
Definition aggregate (children : list NodeScoring) : NodeScoring :=
  match children with
  | [] => default
  | _ =>
      let total := F32.sum (map reward children) in
      if F32.leb total F32.EPSILON then
        let n := F32.of_Z (Z.of_nat (length children)) in
        let mean f := F32.div (F32.sum (map f children)) n in
        mkScoring (mean trust) (mean performance) (mean difficulty) (mean reward)
          (mean reliability) (mean velocity)
      else
        foldl (add_weighted total)
          (mkScoring F32.zero F32.zero F32.zero F32.zero F32.zero F32.zero) children
  end.

(** [NodeScoring::magnitude], [l2_distance], [cosine_similarity], [weighted_score] *)
Definition magnitude (s : NodeScoring) : f32 :=
  F32.sqrt (F32.sum (map (fun x => F32.mul x x) (as_array s))).

Definition l2_distance (s t : NodeScoring) : f32 :=
  F32.sqrt (F32.sum (zip_with (fun x y => F32.mul (F32.sub x y) (F32.sub x y)) (as_array s) (as_array t))).

Definition cosine_similarity (s t : NodeScoring) : f32 :=
  let dot := F32.sum (zip_with F32.mul (as_array s) (as_array t)) in
  let a := magnitude s in
  let b := magnitude t in
  if F32.ltb a F32.EPSILON || F32.ltb b F32.EPSILON then F32.zero
  else F32.div dot (F32.mul a b).

Definition weighted_score (s : NodeScoring) (weights : list f32) : f32 :=
  F32.sum (zip_with F32.mul (as_array s) weights).

(** [NodeScoring::dominates] *)
Definition dominates (s t : NodeScoring) : bool :=
  forallb (fun '(x, y) => F32.leb y x) (zip (as_array s) (as_array t))
  && existsb (fun '(x, y) => F32.ltb y x) (zip (as_array s) (as_array t)).

End Score.

Lemma to_hash_bytes_length s : length (Score.to_hash_bytes s) = 24%nat.
Proof. reflexivity. Qed.

(** The neutral vector as the hash sees it: six times 0.5, whose encoding is
    0x3f000000. *)
Lemma default_hash_bytes :
  Score.to_hash_bytes Score.default = concat (replicate 6 [x00; x00; x00; x3f]).
Proof. reflexivity. Qed.
