(* ===== verification/Tree.v ===== *)
(** The resource tree: crates/exo-resource-tree/src/tree.rs (structure and
    Merkle hashes), model.rs (nodes), boot.rs (the well-known namespaces) and
    merkle.rs (inclusion proofs). *)

From Stdlib Require Import Strings.String.
From S2P Require Import Prelude.
From S2P Require Import Codec.
From S2P Require Import Delegation.
From S2P Require Import Acl.
From S2P Require Import Scoring.
Open Scope N_scope.

(** ** Nodes *)

Inductive ResourceKind :=
| KNamespace | KService | KAgent | KDevice | KTopic | KContainer | KApp | KTool | KEnvironment
| KCustom (s : string).

Record ResourceNode := mkNode {
  nd_id : ResourceId;
  nd_kind : ResourceKind;
  nd_parent : option ResourceId;
  nd_children : list ResourceId;
  nd_metadata : gmap string Json;
  nd_merkle_hash : bytes;
  nd_scoring : NodeScoring;
  nd_created_at : Z;
  nd_updated_at : Z;
  nd_rbac_policies : list AclPolicy;
  nd_delegation_certs : list DelegationCert;
  nd_dirty : bool;
}.

Definition zero32 : bytes := replicate 32 x00.

(** [ResourceNode::new] *)
Definition node_new (now : Z) (id : ResourceId) (kind : ResourceKind) (parent : option ResourceId)
    : ResourceNode :=
  mkNode id kind parent [] ∅ zero32 Score.default now now [] [] true.

(** Field updates *)
Definition set_children (f : list ResourceId -> list ResourceId) (n : ResourceNode) : ResourceNode :=
  mkNode (nd_id n) (nd_kind n) (nd_parent n) (f (nd_children n)) (nd_metadata n) (nd_merkle_hash n)
    (nd_scoring n) (nd_created_at n) (nd_updated_at n) (nd_rbac_policies n) (nd_delegation_certs n) (nd_dirty n).
Definition set_hash (h : bytes) (n : ResourceNode) : ResourceNode :=
  mkNode (nd_id n) (nd_kind n) (nd_parent n) (nd_children n) (nd_metadata n) h
    (nd_scoring n) (nd_created_at n) (nd_updated_at n) (nd_rbac_policies n) (nd_delegation_certs n) (nd_dirty n).
Definition set_scoring (s : NodeScoring) (n : ResourceNode) : ResourceNode :=
  mkNode (nd_id n) (nd_kind n) (nd_parent n) (nd_children n) (nd_metadata n) (nd_merkle_hash n)
    s (nd_created_at n) (nd_updated_at n) (nd_rbac_policies n) (nd_delegation_certs n) (nd_dirty n).
Definition set_updated (t : Z) (n : ResourceNode) : ResourceNode :=
  mkNode (nd_id n) (nd_kind n) (nd_parent n) (nd_children n) (nd_metadata n) (nd_merkle_hash n)
    (nd_scoring n) (nd_created_at n) t (nd_rbac_policies n) (nd_delegation_certs n) (nd_dirty n).
Definition set_certs (f : list DelegationCert -> list DelegationCert) (n : ResourceNode) : ResourceNode :=
  mkNode (nd_id n) (nd_kind n) (nd_parent n) (nd_children n) (nd_metadata n) (nd_merkle_hash n)
    (nd_scoring n) (nd_created_at n) (nd_updated_at n) (nd_rbac_policies n) (f (nd_delegation_certs n)) (nd_dirty n).
Definition set_dirty (b : bool) (n : ResourceNode) : ResourceNode :=
  mkNode (nd_id n) (nd_kind n) (nd_parent n) (nd_children n) (nd_metadata n) (nd_merkle_hash n)
    (nd_scoring n) (nd_created_at n) (nd_updated_at n) (nd_rbac_policies n) (nd_delegation_certs n) b.
Definition set_meta (key : string) (v : Json) (n : ResourceNode) : ResourceNode :=
  mkNode (nd_id n) (nd_kind n) (nd_parent n) (nd_children n) (<[key := v]> (nd_metadata n)) (nd_merkle_hash n)
    (nd_scoring n) (nd_created_at n) (nd_updated_at n) (nd_rbac_policies n) (nd_delegation_certs n) (nd_dirty n).

Inductive TreeError :=
| NotFound (id : ResourceId)
| AlreadyExists (id : ResourceId)
| ParentNotFound (parent_id : ResourceId)
| NotEmpty (id : ResourceId) (child_count : N)
| InvalidPath (reason : string)
| Checkpoint (msg : string).

(** ** Structure *)

(** [ResourceTree] is its flat map from path to node. *)
Abbreviation ResourceTree := (gmap ResourceId ResourceNode).

Definition tree_new (now : Z) : ResourceTree := {[ rid_root := node_new now rid_root KNamespace None ]}.

(** [ResourceTree::insert] *)
Definition insert (t : ResourceTree) (now : Z) (id : ResourceId) (kind : ResourceKind) (parent_id : ResourceId)
    : ResourceTree * result unit TreeError :=
  if negb (starts_with "/" id) then (t, Err (InvalidPath ("path must start with '/': " +:+ id)))
  else match t !! id with
       | Some _ => (t, Err (AlreadyExists id))
       | None =>
           match t !! parent_id with
           | None => (t, Err (ParentNotFound parent_id))
           | Some _ =>
               let t := <[id := node_new now id kind (Some parent_id)]> t in
               (alter (set_children (fun cs => cs ++ [id])) parent_id t, Ok tt)
           end
       end.

(** [ResourceTree::remove] *)
Definition remove (t : ResourceTree) (id : ResourceId) : ResourceTree * result ResourceNode TreeError :=
  if is_root id then (t, Err (InvalidPath "cannot remove root node"))
  else match t !! id with
       | None => (t, Err (NotFound id))
       | Some node =>
           if 0 <? lenN (nd_children node) then (t, Err (NotEmpty id (lenN (nd_children node))))
           else
             let t := delete id t in
             (match nd_parent node with
              | Some p => alter (set_children (filter (fun c => c <> id))) p t
              | None => t
              end, Ok node)
       end.

(** [ResourceTree::get_mut], used to change a field of a node *)
Definition get_mut (t : ResourceTree) (id : ResourceId) (f : ResourceNode -> ResourceNode) : ResourceTree :=
  alter f id t.

(** [ResourceTree::children] *)
Definition children (t : ResourceTree) (id : ResourceId) : result (list ResourceNode) TreeError :=
  match t !! id with
  | None => Err (NotFound id)
  | Some node => Ok (omap (fun c => t !! c) (nd_children node))
  end.

(** The loop of [ResourceTree::ancestors] from [current]; a walk that repeats
    no node takes at most as many steps as there are nodes. *)
Fixpoint ancestors_loop (t : ResourceTree) (fuel : nat) (current : option ResourceId) : list ResourceId :=
  match fuel, current with
  | S fuel, Some p => p :: ancestors_loop t fuel (t !! p ≫= nd_parent)
  | _, _ => []
  end.

Definition ancestors (t : ResourceTree) (id : ResourceId) : list ResourceId :=
  ancestors_loop t (size t) (t !! id ≫= nd_parent).

(** [len], [is_empty] *)
Definition len (t : ResourceTree) : N := N.of_nat (size t).
Definition is_empty (t : ResourceTree) : bool := len t <=? 1.

(** [grant_delegation], [revoke_delegation]: the node and the checker *)
Definition grant_delegation (t : ResourceTree) (now : Z) (r : ResourceId) (cert : DelegationCert)
    (k : CapabilityChecker) : ResourceTree * CapabilityChecker * result unit TreeError :=
  match t !! r with
  | None => (t, k, Err (NotFound r))
  | Some _ =>
      (alter (fun n => set_updated now (set_certs (fun cs => cs ++ [cert]) n)) r t,
       add_delegation k r cert, Ok tt)
  end.

Definition tree_revoke_delegation (t : ResourceTree) (now : Z) (r : ResourceId) (who : Principal)
    (k : CapabilityChecker) : ResourceTree * CapabilityChecker * result N TreeError :=
  match t !! r with
  | None => (t, k, Err (NotFound r))
  | Some node =>
      let kept := filter (fun c => grantee c <> who) (nd_delegation_certs node) in
      let removed_node := lenN (nd_delegation_certs node) - lenN kept in
      let t := alter (fun n => set_updated now (set_certs (fun _ => kept) n)) r t in
      let '(k, removed_checker) := revoke_delegation k r who in
      (t, k, Ok (N.max removed_node removed_checker))
  end.

(** ** Merkle hashes

    [shake256] is the digest of the crate sha3 and [render] is
    [serde_json::Value::to_string]. *)

(** [Vec::sort] on hashes *)
Definition sort_hashes (l : list bytes) : list bytes := merge_sort (fun a b => Is_true (bytes_leb a b)) l.

Definition deeper (a b : ResourceId * nat) : Prop := (snd b <= snd a)%nat.

#[global] Instance deeper_dec a b : base.Decision (deeper a b).
Proof. unfold deeper. apply _. Defined.

Section Merkle.
Variables (shake256 : bytes -> bytes) (render : Json -> bytes).

(** [meta_bytes_from_map]: keys in order, each followed by its value *)
Definition meta_bytes (m : gmap string Json) : bytes :=
  sort_keys (map fst (map_to_list m)) ≫= fun k =>
    str_bytes k ++ match m !! k with Some v => render v | None => [] end.

(** [hash_from_parts] *)
Definition hash_from_parts (child_hashes : list bytes) (scoring meta : bytes) : bytes :=
  shake256 (concat child_hashes ++ scoring ++ meta).

(** The sorted hashes of the children that exist *)
Definition child_hashes (t : ResourceTree) (n : ResourceNode) : list bytes :=
  sort_hashes (omap (fun c => nd_merkle_hash <$> t !! c) (nd_children n)).

Definition node_hash (t : ResourceTree) (n : ResourceNode) : bytes :=
  hash_from_parts (child_hashes t n) (Score.to_hash_bytes (nd_scoring n)) (meta_bytes (nd_metadata n)).

(** [recompute_merkle] *)
Definition recompute_merkle (t : ResourceTree) (id : ResourceId) : ResourceTree :=
  match t !! id with
  | None => t
  | Some n => alter (set_hash (node_hash t n)) id t
  end.

(** The loop of [mark_dirty] *)
Fixpoint mark_dirty_loop (fuel : nat) (t : ResourceTree) (current : option ResourceId) : ResourceTree :=
  match fuel, current with
  | S fuel, Some cid =>
      match t !! cid with
      | None => t
      | Some node =>
          let t := <[cid := set_dirty true node]> t in
          let parent_ok := match nd_parent node with
                           | None => true
                           | Some p => match t !! p with Some n => nd_dirty n | None => false end
                           end in
          if nd_dirty node && parent_ok then t else mark_dirty_loop fuel t (nd_parent node)
      end
  | _, _ => t
  end.

(** [mark_dirty] *)
Definition mark_dirty (t : ResourceTree) (id : ResourceId) : ResourceTree :=
  mark_dirty_loop (S (size t)) t (Some id).

(** [has_dirty], [dirty_count] *)
Definition dirty_ids (t : ResourceTree) : list ResourceId :=
  map fst (filter (fun kv => Is_true (nd_dirty kv.2)) (map_to_list t)).
Definition dirty_count (t : ResourceTree) : N := lenN (dirty_ids t).
Definition has_dirty (t : ResourceTree) : bool := 0 <? dirty_count t.

(** The scoring vectors of the children that exist *)
Definition child_scorings (t : ResourceTree) (n : ResourceNode) : list NodeScoring :=
  omap (fun c => nd_scoring <$> t !! c) (nd_children n).

(** [aggregate_scoring_for] *)
Definition aggregate_scoring_for (t : ResourceTree) (id : ResourceId) : ResourceTree :=
  match t !! id with
  | None => t
  | Some n =>
      match nd_children n with
      | [] => t
      | _ =>
          match child_scorings t n with
          | [] => t
          | ss => alter (set_scoring (Score.aggregate ss)) id t
          end
      end
  end.

(** The body of the three recompute loops: aggregate, hash, clear the flag *)
Definition refresh (t : ResourceTree) (id : ResourceId) : ResourceTree :=
  alter (set_dirty false) id (recompute_merkle (aggregate_scoring_for t id) id).

(** [sort_by_key(Reverse(depth))] of the ids, the depth of each computed first *)
Definition deepest_first (t : ResourceTree) (ids : list ResourceId) : list ResourceId :=
  map fst (merge_sort deeper (map (fun id => (id, length (ancestors t id))) ids)).

(** [recompute_all]; [keys] is the order in which the map yields its keys *)
Definition recompute_all (keys : list ResourceId) (t : ResourceTree) : ResourceTree :=
  foldl refresh t (deepest_first t keys).

(** [recompute_dirty] *)
Definition recompute_dirty (keys : list ResourceId) (t : ResourceTree) : ResourceTree * N :=
  let dirty := filter (fun id => Is_true (match t !! id with Some n => nd_dirty n | None => false end)) keys in
  (foldl refresh t (deepest_first t dirty), lenN dirty).

(** [recompute_path_inner], [recompute_path], [recompute_path_preserve_scoring] *)
Definition recompute_path_inner (t : ResourceTree) (id : ResourceId) (aggregate_origin : bool)
    : ResourceTree * N :=
  match t !! id with
  | None => (t, 0)
  | Some _ =>
      let t := mark_dirty t id in
      let t := if aggregate_origin then aggregate_scoring_for t id else t in
      let t := alter (set_dirty false) id (recompute_merkle t id) in
      let ancs := ancestors t id in
      (foldl refresh t ancs, 1 + lenN ancs)
  end.

Definition recompute_path (t : ResourceTree) (id : ResourceId) : ResourceTree * N :=
  recompute_path_inner t id true.
Definition recompute_path_preserve_scoring (t : ResourceTree) (id : ResourceId) : ResourceTree * N :=
  recompute_path_inner t id false.

(** [update_scoring], [blend_scoring] *)
Definition update_scoring (t : ResourceTree) (now : Z) (id : ResourceId) (s : NodeScoring)
    : ResourceTree * option NodeScoring :=
  match t !! id with
  | None => (t, None)
  | Some n =>
      let t := alter (fun n => set_updated now (set_scoring s n)) id t in
      (fst (recompute_path_preserve_scoring t id), Some (nd_scoring n))
  end.

Definition blend_scoring (t : ResourceTree) (now : Z) (id : ResourceId) (obs : NodeScoring) (alpha : f32)
    : ResourceTree * bool :=
  match t !! id with
  | None => (t, false)
  | Some _ =>
      let t := alter (fun n => set_updated now (set_scoring (Score.blend (nd_scoring n) obs alpha) n)) id t in
      (fst (recompute_path_preserve_scoring t id), true)
  end.

(** [root_hash] *)
Definition root_hash (t : ResourceTree) : bytes :=
  match t !! rid_root with Some n => nd_merkle_hash n | None => zero32 end.

(** [bootstrap_fresh] *)
Definition insert_all (t : ResourceTree) (now : Z) (l : list (ResourceId * ResourceId))
    : ResourceTree * result unit TreeError :=
  foldl (fun '(t, r) '(id, p) =>
           match r with Ok _ => insert t now id KNamespace p | Err e => (t, Err e) end) (t, Ok tt) l.

Definition WELL_KNOWN : list (ResourceId * ResourceId) :=
  [("/kernel", "/"); ("/kernel/services", "/kernel"); ("/kernel/processes", "/kernel");
   ("/kernel/agents", "/kernel"); ("/network", "/"); ("/network/peers", "/network");
   ("/apps", "/"); ("/environments", "/")].

Definition bootstrap_fresh (keys : list ResourceId) (t : ResourceTree) (now : Z)
    : ResourceTree * result unit TreeError :=
  match insert_all t now WELL_KNOWN with
  | (t, Ok _) => (recompute_all keys t, Ok tt)
  | (t, Err e) => (t, Err e)
  end.

(** ** Inclusion proofs *)

Record MerkleProofLevel := mkLevel {
  lv_parent_id : ResourceId;
  lv_child_hashes_sorted : list bytes;
  lv_parent_scoring : bytes;
  lv_parent_meta_bytes : bytes;
  lv_parent_hash : bytes;
}.

Record MerkleInclusionProof := mkInclusion {
  pf_path : ResourceId;
  pf_node_hash : bytes;
  pf_levels : list MerkleProofLevel;
  pf_root_hash : bytes;
}.

(** The loop of [verify], on the levels left and the hash to find next *)
Fixpoint verify_levels (root : bytes) (expected : bytes) (levels : list MerkleProofLevel) : bool :=
  match levels with
  | [] => bool_decide (expected = root)
  | l :: rest =>
      if negb (bool_decide (expected ∈ lv_child_hashes_sorted l)) then false
      else
        let recomputed := hash_from_parts (lv_child_hashes_sorted l) (lv_parent_scoring l) (lv_parent_meta_bytes l) in
        if negb (bool_decide (recomputed = lv_parent_hash l)) then false
        else if match rest with [] => negb (bool_decide (recomputed = root)) | _ => false end then false
        else verify_levels root (lv_parent_hash l) rest
  end.

(** [MerkleInclusionProof::verify] *)
Definition verify (p : MerkleInclusionProof) : bool :=
  if String.eqb (pf_path p) "" then false
  else match pf_levels p with
       | [] => bool_decide (pf_node_hash p = pf_root_hash p) && is_root (pf_path p)
       | levels => verify_levels (pf_root_hash p) (pf_node_hash p) levels
       end.

(** The loop of [merkle_proof]; [None] is the early return of [?] *)
Fixpoint proof_levels (t : ResourceTree) (fuel : nat) (current : ResourceId) : option (list MerkleProofLevel) :=
  match fuel with
  | O => Some []
  | S fuel =>
      match t !! current ≫= nd_parent with
      | None => Some []
      | Some p =>
          match t !! p with
          | None => None
          | Some parent =>
              let level := mkLevel p (child_hashes t parent) (Score.to_hash_bytes (nd_scoring parent))
                             (meta_bytes (nd_metadata parent)) (nd_merkle_hash parent) in
              cons level <$> proof_levels t fuel p
          end
      end
  end.

(** [merkle_proof], [verify_proof] *)
Definition merkle_proof (t : ResourceTree) (id : ResourceId) : option MerkleInclusionProof :=
  match t !! id with
  | None => None
  | Some node =>
      if is_root id then Some (mkInclusion id (nd_merkle_hash node) [] (root_hash t))
      else (fun levels => mkInclusion id (nd_merkle_hash node) levels (root_hash t)) <$>
             proof_levels t (size t) id
  end.

Definition verify_proof (t : ResourceTree) (p : MerkleInclusionProof) : bool :=
  bool_decide (pf_root_hash p = root_hash t) && verify p.

End Merkle.

(** ** The structural invariant

    [depth] ranks the nodes: a node is one level below its parent, so the
    parent pointers have no cycle. *)

Record tree_wf (depth : ResourceId -> nat) (t : ResourceTree) : Prop := {
  wf_id : forall i n, t !! i = Some n -> nd_id n = i;
  wf_root : exists n, t !! rid_root = Some n /\ nd_parent n = None;
  wf_parent : forall i n, t !! i = Some n -> i <> rid_root ->
    exists p pn, nd_parent n = Some p /\ t !! p = Some pn /\ i ∈ nd_children pn /\ depth i = S (depth p);
  wf_child : forall p pn c, t !! p = Some pn -> c ∈ nd_children pn ->
    exists cn, t !! c = Some cn /\ nd_parent cn = Some p;
  wf_nodup : forall i n, t !! i = Some n -> NoDup (nd_children n);
}.

(** What the recomputations leave alone *)
Definition shape (n : ResourceNode) :=
  (nd_id n, nd_kind n, nd_parent n, nd_children n, nd_metadata n).
Definition links (n : ResourceNode) := (nd_id n, nd_parent n, nd_children n).

Definition same_links (t t' : ResourceTree) : Prop := forall i, links <$> t !! i = links <$> t' !! i.
Definition same_shape (t t' : ResourceTree) : Prop := forall i, shape <$> t !! i = shape <$> t' !! i.

#[global] Instance same_shape_equiv : Equivalence same_shape.
Proof.
  split.
  - intros t i. done.
  - intros t t' H i. by rewrite H.
  - intros t t' t'' H H' i. by rewrite H, H'.
Qed.

Lemma same_shape_links t t' : same_shape t t' -> same_links t t'.
Proof.
  intros H i. specialize (H i). destruct (t !! i), (t' !! i); simplify_eq/=; [|done].
  unfold shape, links in *. congruence.
Qed.

Lemma same_links_lookup t t' i n' :
  same_links t t' -> t' !! i = Some n' -> exists n, t !! i = Some n /\ links n = links n'.
Proof.
  intros H Hi. specialize (H i). rewrite Hi in H. destruct (t !! i) as [n|]; [|done].
  exists n. split; [done|]. cbn in H. congruence.
Qed.

Lemma same_links_sym t t' : same_links t t' -> same_links t' t.
Proof. intros H i. by rewrite H. Qed.

Lemma wf_same_links depth t t' : same_links t t' -> tree_wf depth t -> tree_wf depth t'.
Proof.
  intros Hs Hwf. pose proof (same_links_sym _ _ Hs) as Hs'. split.
  - intros i n' Hi. destruct (same_links_lookup _ _ _ _ Hs Hi) as (n & Hn & [= <- _ _]). by eapply wf_id.
  - destruct (wf_root _ _ Hwf) as (n & Hn & Hp).
    destruct (same_links_lookup _ _ _ _ Hs' Hn) as (n' & Hn' & [= _ E _]). exists n'. by rewrite E.
  - intros i n' Hi Hne. destruct (same_links_lookup _ _ _ _ Hs Hi) as (n & Hn & [= _ E _]).
    destruct (wf_parent _ _ Hwf i n Hn Hne) as (p & pn & Hp & Hpn & Hin & Hd).
    destruct (same_links_lookup _ _ _ _ Hs' Hpn) as (pn' & Hpn' & [= _ _ E']).
    exists p, pn'. rewrite <- E, E'. done.
  - intros p pn' c Hp Hc. destruct (same_links_lookup _ _ _ _ Hs Hp) as (pn & Hpn & [= _ _ E]).
    rewrite <- E in Hc. destruct (wf_child _ _ Hwf p pn c Hpn Hc) as (cn & Hcn & Hpar).
    destruct (same_links_lookup _ _ _ _ Hs' Hcn) as (cn' & Hcn' & [= _ E' _]). exists cn'. by rewrite E'.
  - intros i n' Hi. destruct (same_links_lookup _ _ _ _ Hs Hi) as (n & Hn & [= _ _ <-]). by eapply wf_nodup.
Qed.

Lemma same_links_alter t i f : (forall n, links (f n) = links n) -> same_links t (alter f i t).
Proof.
  intros Hf j. destruct (decide (i = j)) as [->|Hne].
  - rewrite lookup_alter_eq. destruct (t !! j); cbn; [by rewrite Hf|done].
  - by rewrite lookup_alter_ne.
Qed.

(** The root is nobody's child; a child is one level below its parent. *)
Lemma wf_child_depth depth t p pn c :
  tree_wf depth t -> t !! p = Some pn -> c ∈ nd_children pn -> c <> rid_root /\ depth c = S (depth p).
Proof.
  intros Hwf Hp Hc. destruct (wf_child _ _ Hwf p pn c Hp Hc) as (cn & Hcn & Hpar).
  assert (c <> rid_root) as Hne.
  { intros ->. destruct (wf_root _ _ Hwf) as (n & Hn & Hnp). congruence. }
  split; [done|]. destruct (wf_parent _ _ Hwf c cn Hcn Hne) as (p' & pn' & Hp' & _ & _ & Hd). congruence.
Qed.

Lemma wf_new now : tree_wf (fun _ => 0%nat) (tree_new now).
Proof.
  unfold tree_new. split.
  - by intros i n [<- <-]%lookup_singleton_Some.
  - eexists. by rewrite lookup_singleton_eq.
  - by intros i n [<- <-]%lookup_singleton_Some ?.
  - by intros p pn c [<- <-]%lookup_singleton_Some ?%not_elem_of_nil.
  - intros i n [<- <-]%lookup_singleton_Some. constructor.
Qed.

(** The tree after an accepted insertion *)
Definition inserted (t : ResourceTree) (now : Z) (id : ResourceId) (kind : ResourceKind) (p : ResourceId) : ResourceTree :=
  alter (set_children (fun cs => cs ++ [id])) p (<[id := node_new now id kind (Some p)]> t).

Lemma insert_ok t now id kind p t' :
  insert t now id kind p = (t', Ok tt) ->
  t' = inserted t now id kind p /\ t !! id = None /\ exists pn, t !! p = Some pn.
Proof.
  unfold insert. destruct (negb _); [done|].
  destruct (t !! id) eqn:Hid; [done|]. destruct (t !! p) as [pn|] eqn:Hp; [|done].
  intros [= <-]. eauto.
Qed.

Lemma inserted_lookup t now id kind p pn i n :
  t !! id = None -> t !! p = Some pn -> inserted t now id kind p !! i = Some n ->
  (i = id /\ n = node_new now id kind (Some p)) \/
  (i = p /\ n = set_children (fun cs => cs ++ [id]) pn) \/ (i <> id /\ i <> p /\ t !! i = Some n).
Proof.
  unfold inserted. intros Hid Hp Hi. assert (p <> id) by congruence. destruct (decide (i = p)) as [->|Hip].
  - rewrite lookup_alter_eq, lookup_insert_ne, Hp in Hi by done. simplify_eq/=. auto.
  - rewrite lookup_alter_ne in Hi by done. apply lookup_insert_Some in Hi as [[<- <-]|[Hne Hi]]; auto.
Qed.

Lemma inserted_keeps t now id kind p i n :
  t !! id = None -> t !! i = Some n -> exists n', inserted t now id kind p !! i = Some n' /\
    nd_parent n' = nd_parent n /\ nd_id n' = nd_id n /\ nd_children n ⊆ nd_children n'.
Proof.
  unfold inserted. intros Hid Hi. assert (i <> id) by congruence. destruct (decide (i = p)) as [->|Hip].
  - rewrite lookup_alter_eq, lookup_insert_ne, Hi by done. eexists. split; [done|]. cbn. repeat split. set_solver.
  - exists n. rewrite lookup_alter_ne, lookup_insert_ne by done. done.
Qed.

Lemma inserted_new t now id kind p :
  p <> id -> inserted t now id kind p !! id = Some (node_new now id kind (Some p)).
Proof. intros Hne. unfold inserted. rewrite lookup_alter_ne by done. apply lookup_insert_eq. Qed.

Lemma inserted_parent t now id kind p pn :
  p <> id -> t !! p = Some pn ->
  inserted t now id kind p !! p = Some (set_children (fun cs => cs ++ [id]) pn).
Proof. intros Hne Hp. unfold inserted. by rewrite lookup_alter_eq, lookup_insert_ne, Hp. Qed.

Lemma wf_insert depth t now id kind p t' :
  tree_wf depth t -> insert t now id kind p = (t', Ok tt) ->
  tree_wf (fun i => if decide (i = id) then S (depth p) else depth i) t'.
Proof.
  intros Hwf (-> & Hid & pn0 & Hp)%insert_ok. assert (p <> id) as Hpid by congruence.
  pose proof (fun i n => inserted_lookup t now id kind p pn0 i n Hid Hp) as Hlook.
  pose proof (fun i n => inserted_keeps t now id kind p i n Hid) as Hold.
  split.
  - intros i n [[-> ->]|[[-> ->]|(_ & _ & Hi)]]%Hlook; [done| |]; cbn; by eapply wf_id.
  - destruct (wf_root _ _ Hwf) as (n & Hn & Hnp). destruct (Hold _ _ Hn) as (n' & Hn' & E & _).
    exists n'. by rewrite E.
  - intros i n Hi Hne. destruct (decide (i = id)) as [->|Hiid].
    + rewrite inserted_new in Hi by done. injection Hi as <-.
      exists p, (set_children (fun cs => cs ++ [id]) pn0). rewrite (inserted_parent t now id kind p pn0) by done. cbn.
      rewrite elem_of_app, list_elem_of_singleton, decide_False by done. auto.
    + assert (exists n0, t !! i = Some n0 /\ nd_parent n = nd_parent n0) as (n0 & Hn0 & E).
      { destruct (Hlook _ _ Hi) as [[? _]|[[-> ->]|(_ & _ & ?)]]; [done|by exists pn0|by exists n]. }
      destruct (wf_parent _ _ Hwf i n0 Hn0 Hne) as (q & qn & Hq & Hqn & Hin & Hd).
      destruct (Hold _ _ Hqn) as (qn' & Hqn' & _ & _ & Hsub). exists q, qn'. rewrite E.
      repeat split; try done. { by apply Hsub. } rewrite decide_False; [done|]. congruence.
  - intros q qn c Hq Hc.
    assert (c = id /\ q = p \/ exists qn0, t !! q = Some qn0 /\ c ∈ nd_children qn0) as [[-> ->]|(qn0 & Hq0 & Hc0)].
    { destruct (Hlook _ _ Hq) as [[-> ->]|[[-> ->]|(_ & _ & ?)]]; [by apply not_elem_of_nil in Hc| |by eauto].
      cbn in Hc. apply elem_of_app in Hc as [Hc|Hc%list_elem_of_singleton]; eauto. }
    + exists (node_new now id kind (Some p)). split; [by apply inserted_new|done].
    + destruct (wf_child _ _ Hwf q qn0 c Hq0 Hc0) as (cn & Hcn & Hpar).
      destruct (Hold _ _ Hcn) as (cn' & Hcn' & E & _). exists cn'. by rewrite E.
  - intros i n [[-> ->]|[[-> ->]|(_ & _ & Hi)]]%Hlook; [constructor| |by eapply wf_nodup].
    cbn. apply NoDup_app. split; [by eapply wf_nodup|]. split; [|apply NoDup_singleton].
    intros c Hc ->%list_elem_of_singleton. destruct (wf_child _ _ Hwf p pn0 id Hp Hc) as (cn & ? & _). congruence.
Qed.

(** The tree after an accepted removal *)
Lemma remove_ok t id t' node depth :
  tree_wf depth t -> remove t id = (t', Ok node) ->
  id <> rid_root /\ t !! id = Some node /\ nd_children node = [] /\
  exists p pn, nd_parent node = Some p /\ t !! p = Some pn /\ p <> id /\
    t' = alter (set_children (filter (fun c => c <> id))) p (delete id t).
Proof.
  intros Hwf. unfold remove, is_root. destruct (String.eqb_spec id "/") as [|Hne]; [done|].
  destruct (t !! id) as [n|] eqn:Hid; [|done].
  destruct (nd_children n) as [|c cs] eqn:Hc; [|done]. cbn [lenN length N.of_nat N.ltb N.compare].
  destruct (wf_parent _ _ Hwf id n Hid Hne) as (p & pn & Hp & Hpn & _ & Hd). rewrite Hp.
  intros [= <- <-]. repeat split; try done. exists p, pn. repeat split; try done. intros ->. lia.
Qed.

Lemma wf_remove depth t id t' node :
  tree_wf depth t -> remove t id = (t', Ok node) -> tree_wf depth t'.
Proof.
  intros Hwf (Hroot & Hid & Hleaf & p & pn0 & Hpar & Hp & Hpid & ->)%(remove_ok _ _ _ _ _ Hwf).
  set (t' := alter _ _ _).
  assert (forall i n', t' !! i = Some n' -> i <> id /\ exists n, t !! i = Some n /\ nd_id n' = nd_id n /\
    nd_parent n' = nd_parent n /\ nd_children n' = filter (fun c => c <> id) (nd_children n)) as Hlook.
  { intros i n' Hi. unfold t' in Hi. rewrite lookup_alter in Hi. case_decide as E; subst.
    - rewrite lookup_delete_ne, Hp in Hi by done. simplify_eq/=. split; [done|]. by eexists.
    - apply lookup_delete_Some in Hi as [Hne Hi]. split; [done|]. exists n'. repeat split; try done.
      symmetry. apply list_filter_all. intros c Hc ->.
      destruct (wf_child _ _ Hwf i n' id Hi Hc) as (cn & ? & ?). congruence. }
  assert (forall i n, t !! i = Some n -> i <> id -> exists n', t' !! i = Some n' /\
    nd_parent n' = nd_parent n /\ nd_children n' = filter (fun c => c <> id) (nd_children n)) as Hkeep.
  { intros i n Hi Hne. assert (is_Some (t' !! i)) as [n' Hn'].
    { unfold t'. rewrite lookup_alter. case_decide; subst; rewrite lookup_delete_ne by done; rewrite Hi; eauto. }
    exists n'. split; [done|]. destruct (Hlook i n' Hn') as (_ & n0 & Hn0 & _ & ?). simplify_eq. done. }
  split.
  - intros i n' (_ & n & Hn & -> & _)%Hlook. by eapply wf_id.
  - destruct (wf_root _ _ Hwf) as (n & Hn & Hnp). destruct (Hkeep _ _ Hn) as (n' & Hn' & E & _); [done|].
    exists n'. by rewrite E.
  - intros i n' (Hne & n & Hn & _ & E & _)%Hlook Hr.
    destruct (wf_parent _ _ Hwf i n Hn Hr) as (q & qn & Hq & Hqn & Hin & Hd).
    assert (q <> id) as Hqid by (intros ->; rewrite Hid in Hqn; simplify_eq; rewrite Hleaf in Hin; by apply not_elem_of_nil in Hin).
    destruct (Hkeep _ _ Hqn Hqid) as (qn' & Hqn' & _ & Ec). exists q, qn'. rewrite E, Ec, list_elem_of_filter. done.
  - intros q qn' c (_ & qn & Hqn & _ & _ & Ec)%Hlook Hc. rewrite Ec in Hc. apply list_elem_of_filter in Hc as [Hcid Hc].
    destruct (wf_child _ _ Hwf q qn c Hqn Hc) as (cn & Hcn & Hcp).
    destruct (Hkeep _ _ Hcn Hcid) as (cn' & Hcn' & E & _). exists cn'. by rewrite E.
  - intros i n' (_ & n & Hn & _ & _ & ->)%Hlook. apply NoDup_filter. by eapply wf_nodup.
Qed.

(** ** The walk to the root *)

Lemma wf_depth_onto depth t i n k :
  tree_wf depth t -> t !! i = Some n -> (k <= depth i - depth rid_root)%nat -> (depth rid_root <= depth i)%nat ->
  exists j m, t !! j = Some m /\ (depth j = depth rid_root + k)%nat.
Proof.
  intros Hwf. remember (depth i - depth rid_root)%nat as d eqn:Ed. revert i n Ed.
  induction d as [|d IH]; intros i n Ed Hi Hk Hge.
  - destruct (wf_root _ _ Hwf) as (rn & Hrn & _). exists rid_root, rn. split; [done|]. lia.
  - destruct (decide (k = S d)) as [->|Hne]; [exists i, n; split; [done|lia]|].
    destruct (decide (i = rid_root)) as [->|Hir]; [lia|].
    destruct (wf_parent _ _ Hwf i n Hi Hir) as (p & pn & _ & Hp & _ & Hd).
    apply (IH p pn); [lia|done|lia|lia].
Qed.

Lemma wf_depth_ge depth t i n : tree_wf depth t -> t !! i = Some n -> (depth rid_root <= depth i)%nat.
Proof.
  intros Hwf. remember (depth i) as d eqn:Ed. revert i n Ed. induction (lt_wf d) as [d _ IH]. intros i n -> Hi.
  destruct (decide (i = rid_root)) as [->|Hir]; [done|].
  destruct (wf_parent _ _ Hwf i n Hi Hir) as (p & pn & _ & Hp & _ & Hd).
  enough (depth rid_root <= depth p)%nat by lia. apply (IH (depth p) ltac:(lia) p pn eq_refl Hp).
Qed.

(** There are as many nodes as levels, at least. *)
Lemma wf_depth_lt_size depth t i n :
  tree_wf depth t -> t !! i = Some n -> (depth i - depth rid_root < size t)%nat.
Proof.
  intros Hwf Hi. pose proof (wf_depth_ge _ _ _ _ Hwf Hi) as Hge.
  set (d := (depth i - depth rid_root)%nat) in *.
  assert (seq (depth rid_root) (S d) ⊆+ map (fun kv => depth kv.1) (map_to_list t)) as Hsub.
  { apply NoDup_submseteq; [apply NoDup_seq|]. intros x Hx%elem_of_seq.
    destruct (wf_depth_onto depth t i n (x - depth rid_root) Hwf Hi) as (j & m & Hj & Hd); [lia|lia|].
    apply list_elem_of_fmap. exists (j, m). split; [cbn; lia|]. by apply elem_of_map_to_list. }
  apply submseteq_length in Hsub. rewrite length_seq, length_map, length_map_to_list in Hsub. lia.
Qed.

(** [l] is the path from [i], excluded, to the root. *)
Inductive up_path (t : ResourceTree) : ResourceId -> list ResourceId -> Prop :=
| up_root i n : t !! i = Some n -> nd_parent n = None -> up_path t i []
| up_step i n p l : t !! i = Some n -> nd_parent n = Some p -> up_path t p l -> up_path t i (p :: l).

Lemma ancestors_loop_path depth t fuel i n :
  tree_wf depth t -> t !! i = Some n -> (depth i - depth rid_root <= fuel)%nat ->
  up_path t i (ancestors_loop t fuel (nd_parent n)) /\
  length (ancestors_loop t fuel (nd_parent n)) = (depth i - depth rid_root)%nat.
Proof.
  intros Hwf. revert i n. induction fuel as [|fuel IH]; intros i n Hi Hf.
  all: destruct (decide (i = rid_root)) as [->|Hne];
    [destruct (wf_root _ _ Hwf) as (rn & Hrn & Hrp); simplify_eq; rewrite Hrp;
     cbn; split; [by econstructor|lia]|].
  all: destruct (wf_parent _ _ Hwf i n Hi Hne) as (p & pn & Hp & Hpn & _ & Hd).
  all: pose proof (wf_depth_ge _ _ _ _ Hwf Hpn) as Hge.
  { lia. }
  rewrite Hp. cbn [ancestors_loop]. rewrite Hpn. cbn [mbind option_bind].
  destruct (IH p pn Hpn) as [Hup Hl]; [lia|]. split; [by econstructor|]. cbn. lia.
Qed.

(** The loop of [ancestors] ends at the root, after one step per level. *)
Lemma ancestors_path depth t i n :
  tree_wf depth t -> t !! i = Some n ->
  up_path t i (ancestors t i) /\ length (ancestors t i) = (depth i - depth rid_root)%nat.
Proof.
  intros Hwf Hi. unfold ancestors. rewrite Hi. cbn [mbind option_bind].
  apply (ancestors_loop_path depth); [done|done|].
  pose proof (wf_depth_lt_size _ _ _ _ Hwf Hi). lia.
Qed.

Lemma up_path_depth depth t i l :
  tree_wf depth t -> up_path t i l -> Forall (fun a => (depth a < depth i)%nat) l /\
  StronglySorted (fun a b => (depth b < depth a)%nat) l.
Proof.
  intros Hwf. induction 1 as [i n Hi Hp|i n p l Hi Hp Hup [IHl IHs]]; [by repeat constructor|].
  assert (depth i = S (depth p)) as Hd.
  { destruct (decide (i = rid_root)) as [->|Hne].
    - destruct (wf_root _ _ Hwf) as (rn & Hrn & Hrp). congruence.
    - destruct (wf_parent _ _ Hwf i n Hi Hne) as (p' & ? & ? & _ & _ & ?). congruence. }
  split; [|by constructor]. constructor; [lia|]. eapply Forall_impl; [exact IHl|]. intros a Ha. cbn in Ha. lia.
Qed.

Lemma up_path_same_links t t' i l : same_links t t' -> up_path t i l -> up_path t' i l.
Proof.
  intros Hs%same_links_sym. induction 1 as [i n Hi Hp|i n p l Hi Hp Hup IH];
    destruct (same_links_lookup _ _ _ _ Hs Hi) as (n' & Hn' & [= _ E _]); rewrite Hp in E; by econstructor.
Qed.

Lemma up_path_unique t i l l' : up_path t i l -> up_path t i l' -> l = l'.
Proof.
  intros H. revert l'. induction H as [i n Hi Hp|i n p l Hi Hp Hup IH]; intros l' H'.
  - inversion H'; by simplify_eq.
  - inversion H'; simplify_eq. f_equal. by apply IH.
Qed.

(** Every member of the path but the root has its parent on it. *)
Lemma up_path_closed t i l j n p :
  up_path t i l -> j ∈ i :: l -> t !! j = Some n -> nd_parent n = Some p -> p ∈ l.
Proof.
  induction 1 as [i m Hi Hp|i m q l Hi Hp Hup IH]; intros Hj Hn Hnp.
  - apply list_elem_of_singleton in Hj as ->. congruence.
  - apply elem_of_cons in Hj as [->|Hj]; [simplify_eq; left|]. right. by apply IH.
Qed.

(** ** Correctness of the hashes *)

Section MerkleProps.
Variables (shake256 : bytes -> bytes) (render : Json -> bytes).
Abbreviation hash_node := (node_hash shake256 render).
Abbreviation step := (refresh shake256 render).

(** A node's hash commits to its children's hashes, its scoring and its
    metadata; an inner node's scoring aggregates its children's. *)
Definition hash_ok (t : ResourceTree) (n : ResourceNode) : Prop := nd_merkle_hash n = hash_node t n.

Definition new_score (t : ResourceTree) (n : ResourceNode) : NodeScoring :=
  match child_scorings t n with [] => nd_scoring n | ss => Score.aggregate ss end.

Definition score_ok (t : ResourceTree) (n : ResourceNode) : Prop := nd_scoring n = new_score t n.

(** The tree's hashes are right everywhere, its scorings outside [E]. *)
Definition merkle_ok (E : ResourceId -> Prop) (t : ResourceTree) : Prop :=
  forall i n, t !! i = Some n -> hash_ok t n /\ (~ E i -> score_ok t n).

(** The same with hashes that may be stale in [H] *)
Definition merkle_off (H E : ResourceId -> Prop) (t : ResourceTree) : Prop :=
  forall i n, t !! i = Some n -> (~ H i -> hash_ok t n) /\ (~ E i -> score_ok t n).

Lemma merkle_off_ok E t : merkle_off (fun _ => False) E t -> merkle_ok E t.
Proof. intros Hok i n Hi. destruct (Hok i n Hi) as [Hh Hs]. split; [apply Hh; tauto|done]. Qed.

Lemma child_hashes_ext t t' n n' :
  nd_children n = nd_children n' ->
  (forall c, c ∈ nd_children n -> nd_merkle_hash <$> t !! c = nd_merkle_hash <$> t' !! c) ->
  child_hashes t n = child_hashes t' n'.
Proof.
  unfold child_hashes. intros <- Hc. f_equal.
  induction (nd_children n) as [|c cs IH]; [done|]. cbn. rewrite (Hc c) by left.
  rewrite IH; [done|]. intros d Hd. apply Hc. by right.
Qed.

Lemma child_scorings_ext t t' n n' :
  nd_children n = nd_children n' ->
  (forall c, c ∈ nd_children n -> nd_scoring <$> t !! c = nd_scoring <$> t' !! c) ->
  child_scorings t n = child_scorings t' n'.
Proof.
  unfold child_scorings. intros <- Hc.
  induction (nd_children n) as [|c cs IH]; [done|]. cbn. rewrite (Hc c) by left.
  rewrite IH; [done|]. intros d Hd. apply Hc. by right.
Qed.

(** What one pass over a node does *)
Definition refreshed (t : ResourceTree) (n : ResourceNode) : ResourceNode :=
  let n := set_scoring (new_score t n) n in
  set_dirty false (set_hash (hash_node t n) n).

Lemma aggregate_lookup t i n :
  t !! i = Some n -> aggregate_scoring_for t i = <[i := set_scoring (new_score t n) n]> t.
Proof.
  intros Hi. unfold aggregate_scoring_for, new_score. rewrite Hi.
  assert (<[i:=set_scoring (nd_scoring n) n]> t = t) as Hid.
  { replace (set_scoring (nd_scoring n) n) with n by (by destruct n). by apply insert_id. }
  destruct (nd_children n) as [|c cs] eqn:Hc.
  - assert (child_scorings t n = []) as -> by (unfold child_scorings; by rewrite Hc). by rewrite Hid.
  - destruct (child_scorings t n) as [|s ss]; [by rewrite Hid|].
    apply map_eq. intros j. rewrite lookup_alter, lookup_insert. by case_decide; simplify_eq; rewrite ?Hi.
Qed.

Lemma refresh_lookup t i n :
  t !! i = Some n -> step t i = <[i := refreshed t n]> t.
Proof.
  intros Hi. unfold refresh. rewrite (aggregate_lookup _ _ _ Hi). unfold recompute_merkle.
  rewrite lookup_insert_eq. apply map_eq. intros j. rewrite !lookup_alter, !lookup_insert.
  destruct (decide (i = j)) as [<-|Hne]; [|done]. rewrite !decide_True by done. cbn. f_equal.
  unfold refreshed. do 2 f_equal. unfold node_hash. f_equal. apply child_hashes_ext; [done|].
  intros c _. rewrite lookup_insert. case_decide; [subst; by rewrite Hi|done].
Qed.

Lemma refresh_shape t i : same_shape t (step t i).
Proof.
  destruct (t !! i) as [n|] eqn:Hi.
  - rewrite (refresh_lookup _ _ _ Hi). intros j. rewrite lookup_insert. case_decide; [subst; by rewrite Hi|done].
  - intros j. unfold refresh, recompute_merkle, aggregate_scoring_for. rewrite !Hi.
    rewrite lookup_alter. case_decide; [by subst; rewrite Hi|done].
Qed.

Lemma foldl_refresh_shape t l : same_shape t (foldl step t l).
Proof.
  revert t. induction l as [|i l IH]; intros t; [done|]. cbn. etransitivity; [apply refresh_shape|apply IH].
Qed.

(** The children of a node do not change by a pass over a node that is not
    one of them. *)
Lemma refresh_others t x xn n :
  t !! x = Some xn -> (x ∉ nd_children n) ->
  hash_node (step t x) n = hash_node t n /\ new_score (step t x) n = new_score t n.
Proof.
  intros Hx Hc. rewrite (refresh_lookup _ _ _ Hx).
  assert (child_scorings (<[x:=refreshed t xn]> t) n = child_scorings t n) as Es.
  { apply child_scorings_ext; [done|]. intros c Hcc. rewrite lookup_insert_ne; [done|]. by intros ->. }
  unfold new_score. rewrite Es. split; [|done].
  unfold node_hash. f_equal. apply child_hashes_ext; [done|]. intros c Hcc. rewrite lookup_insert_ne; [done|]. by intros ->.
Qed.

(** Passing over a list of nodes that is sorted deepest first and contains the
    parents of its members makes the whole tree right, if it was right at the
    other nodes. *)
Lemma foldl_refresh_off H E depth l t :
  tree_wf depth t ->
  StronglySorted (fun a b => (depth b <= depth a)%nat) l -> NoDup l ->
  (forall i, i ∈ l -> is_Some (t !! i)) ->
  (forall i n p, i ∈ l -> t !! i = Some n -> nd_parent n = Some p -> p ∈ l) ->
  (forall i n, t !! i = Some n -> i ∉ l -> (~ H i -> hash_ok t n) /\ (~ E i -> score_ok t n)) ->
  merkle_off H E (foldl step t l).
Proof.
  revert t. induction l as [|x l IH]; intros t Hwf Hs Hnd Hin Hcl Hok.
  { intros i n Hi. apply Hok; [done|]. apply not_elem_of_nil. }
  cbn [foldl]. destruct (Hin x (list_elem_of_here _ _)) as [xn Hx].
  pose proof (refresh_shape t x) as Hsh. pose proof (same_shape_links _ _ Hsh) as Hli.
  apply StronglySorted_inv in Hs as [Hs Hall]. apply NoDup_cons in Hnd as [Hxl Hnd].
  rewrite Forall_forall in Hall.
  assert (forall i n, t !! i = Some n -> nd_parent n = Some x -> i ∉ l) as Hbelow.
  { intros i n Hi Hp Hil. specialize (Hall i Hil). cbn in Hall.
    assert (i <> rid_root) as Hne by (intros ->; destruct (wf_root _ _ Hwf) as (? & ? & ?); congruence).
    destruct (wf_parent _ _ Hwf i n Hi Hne) as (? & ? & ? & _ & _ & ?). simplify_eq. lia. }
  apply IH; try done.
  - by eapply wf_same_links.
  - intros i Hi. specialize (Hsh i). destruct (Hin i) as [n Hn]; [by right|]. rewrite Hn in Hsh.
    destruct (step t x !! i); [by eexists|done].
  - intros i n' p Hi Hn' Hp. destruct (same_links_lookup _ _ _ _ Hli Hn') as (n & Hn & [= _ E1 _]).
    rewrite Hp in E1. assert (p ∈ x :: l) as [->|?]%elem_of_cons; [|by eapply Hbelow in Hi|done].
    apply (Hcl i n); [by right|done|done].
  - intros i n' Hi Hil. destruct (decide (i = x)) as [->|Hne].
    + rewrite (refresh_lookup _ _ _ Hx), lookup_insert_eq in Hi. injection Hi as <-.
      assert (x ∉ nd_children xn) as Hself.
      { intros Hc. destruct (wf_child_depth _ _ _ _ _ Hwf Hx Hc). lia. }
      destruct (refresh_others t x xn (refreshed t xn) Hx Hself) as [E1 E2].
      unfold hash_ok, score_ok. rewrite E1, E2. split; [done|]. intros _. unfold refreshed, new_score.
      cbn. unfold child_scorings. cbn. by destruct (omap _ _).
    + rewrite (refresh_lookup _ _ _ Hx), lookup_insert_ne in Hi by done.
      assert (x ∉ nd_children n') as Hnc.
      { intros Hc. destruct (wf_child _ _ Hwf i n' x Hi Hc) as (xn' & Hxn' & Hxp). simplify_eq.
        assert (i ∈ x :: l) as [?|?]%elem_of_cons; [|done..]. by eapply Hcl; [left|..]. }
      destruct (refresh_others t x xn n' Hx Hnc) as [E1 E2]. unfold hash_ok, score_ok. rewrite E1, E2.
      apply Hok; [done|]. by intros [?|?]%elem_of_cons.
Qed.

Lemma foldl_refresh_ok E depth l t :
  tree_wf depth t ->
  StronglySorted (fun a b => (depth b <= depth a)%nat) l -> NoDup l ->
  (forall i, i ∈ l -> is_Some (t !! i)) ->
  (forall i n p, i ∈ l -> t !! i = Some n -> nd_parent n = Some p -> p ∈ l) ->
  (forall i n, t !! i = Some n -> i ∉ l -> hash_ok t n /\ (~ E i -> score_ok t n)) ->
  merkle_ok E (foldl step t l).
Proof.
  intros Hwf Hs Hnd Hin Hcl Hok. apply merkle_off_ok, (foldl_refresh_off _ _ depth); try done.
  intros i n Hi Hl. by destruct (Hok i n Hi Hl).
Qed.

(** *** The full pass *)

Lemma deepest_first_perm t ids : deepest_first t ids ≡ₚ ids.
Proof.
  unfold deepest_first. rewrite merge_sort_Permutation, map_map. cbn. by rewrite map_id.
Qed.

Lemma deepest_first_sorted depth t ids :
  tree_wf depth t -> (forall i, i ∈ ids -> is_Some (t !! i)) ->
  StronglySorted (fun a b => (depth b <= depth a)%nat) (deepest_first t ids).
Proof.
  intros Hwf Hids. unfold deepest_first. set (l := map _ ids).
  assert (StronglySorted deeper (merge_sort deeper l)) as Hs.
  { apply StronglySorted_merge_sort.
    - intros a b c Hab Hbc. unfold deeper in *. lia.
    - intros a b. unfold deeper. lia. }
  assert (forall kv, kv ∈ merge_sort deeper l -> (depth kv.1 = kv.2 + depth rid_root)%nat) as Hd.
  { intros kv Hkv. rewrite merge_sort_Permutation in Hkv. unfold l in Hkv.
    apply list_elem_of_fmap in Hkv as (i & -> & Hi). cbn. destruct (Hids i Hi) as [n Hn].
    destruct (ancestors_path depth t i n Hwf Hn) as [_ ->]. pose proof (wf_depth_ge _ _ _ _ Hwf Hn). lia. }
  induction Hs as [|a k Hs IH Hall]; [constructor|]. cbn. constructor.
  - apply IH. intros kv Hkv. apply Hd. by right.
  - rewrite Forall_forall. rewrite Forall_forall in Hall. intros j Hj. apply list_elem_of_fmap in Hj as (kv & -> & Hkv).
    rewrite (Hd a) by left. rewrite (Hd kv) by (by right). specialize (Hall kv Hkv). unfold deeper in Hall. lia.
Qed.

(** The map yields each key once. *)
Definition keys_of (t : ResourceTree) (keys : list ResourceId) : Prop := keys ≡ₚ (map_to_list t).*1.

Lemma keys_of_elem t keys i : keys_of t keys -> i ∈ keys <-> is_Some (t !! i).
Proof. intros ->. apply elem_of_map_keys. Qed.

Lemma recompute_all_ok depth t keys :
  tree_wf depth t -> keys_of t keys -> merkle_ok (fun _ => False) (recompute_all shake256 render keys t).
Proof.
  intros Hwf Hk. unfold recompute_all.
  assert (forall i, i ∈ deepest_first t keys <-> is_Some (t !! i)) as Hel.
  { intros i. rewrite deepest_first_perm. by apply keys_of_elem. }
  apply (foldl_refresh_ok _ depth); [done| | | | |].
  - apply deepest_first_sorted; [done|]. intros i. by apply keys_of_elem.
  - rewrite deepest_first_perm, Hk. apply NoDup_fst_map_to_list.
  - intros i. by apply Hel.
  - intros i n p _ Hi Hp. apply Hel. assert (i <> rid_root) as Hne.
    { intros ->. destruct (wf_root _ _ Hwf) as (? & ? & ?). congruence. }
    destruct (wf_parent _ _ Hwf i n Hi Hne) as (q & qn & Hq & Hqn & _). simplify_eq. by eexists.
  - intros i n Hi Hno. exfalso. apply Hno, Hel. by eexists.
Qed.

(** *** The incremental pass *)

(** Equal up to the dirty flags *)
Definition same_clean (t t' : ResourceTree) : Prop :=
  forall i, set_dirty false <$> t !! i = set_dirty false <$> t' !! i.

#[global] Instance same_clean_equiv : Equivalence same_clean.
Proof.
  split.
  - intros t i. done.
  - intros t t' H i. by rewrite H.
  - intros t t' t'' H H' i. by rewrite H, H'.
Qed.

Lemma clean_fields n n' :
  set_dirty false n = set_dirty false n' ->
  shape n = shape n' /\ nd_merkle_hash n = nd_merkle_hash n' /\ nd_scoring n = nd_scoring n'.
Proof. destruct n, n'. intros H. injection H. intros. by subst. Qed.

Lemma same_clean_fields t t' i : same_clean t t' ->
  shape <$> t !! i = shape <$> t' !! i /\
  nd_merkle_hash <$> t !! i = nd_merkle_hash <$> t' !! i /\
  nd_scoring <$> t !! i = nd_scoring <$> t' !! i.
Proof.
  intros H. specialize (H i). destruct (t !! i) as [n|], (t' !! i) as [n'|]; try done.
  cbn in *. apply (inj Some) in H as (E1 & E2 & E3)%clean_fields. by rewrite E1, E2, E3.
Qed.

Lemma same_clean_shape t t' : same_clean t t' -> same_shape t t'.
Proof. intros H i. by apply same_clean_fields. Qed.

Lemma same_clean_lookup t t' i n' : same_clean t t' -> t' !! i = Some n' ->
  exists n, t !! i = Some n /\ set_dirty false n = set_dirty false n'.
Proof.
  intros H Hi. specialize (H i). rewrite Hi in H. destruct (t !! i) as [n|]; [|done].
  exists n. split; [done|]. cbn in H. congruence.
Qed.

Lemma same_clean_ok t t' i n' :
  same_clean t t' -> t' !! i = Some n' ->
  exists n, t !! i = Some n /\ (hash_ok t n -> hash_ok t' n') /\ (score_ok t n -> score_ok t' n').
Proof.
  intros H Hi. destruct (same_clean_lookup _ _ _ _ H Hi) as (n & Hn & E). exists n. split; [done|].
  apply clean_fields in E as ([= _ _ _ Ec Em] & Eh & Es).
  assert (child_hashes t n = child_hashes t' n') as Ech.
  { apply child_hashes_ext; [done|]. intros c _. by apply same_clean_fields. }
  assert (child_scorings t n = child_scorings t' n') as Ecs.
  { apply child_scorings_ext; [done|]. intros c _. by apply same_clean_fields. }
  unfold hash_ok, score_ok, node_hash, new_score. rewrite Ech, Ecs, Eh, Es, Em. auto.
Qed.

Lemma mark_dirty_clean t id : same_clean t (mark_dirty t id).
Proof.
  unfold mark_dirty. generalize (Some id) as cur. generalize (S (size t)) as fuel. intros fuel.
  revert t. induction fuel as [|fuel IH]; intros t cur; cbn [mark_dirty_loop]; [done|].
  destruct cur as [cid|]; [|done]. destruct (t !! cid) as [n|] eqn:Hn; [|done].
  assert (same_clean t (<[cid:=set_dirty true n]> t)) as Hc.
  { intros j. rewrite lookup_insert. case_decide; [subst; by rewrite Hn|done]. }
  destruct (nd_dirty n && _); [done|]. etransitivity; [exact Hc|apply IH].
Qed.

Lemma ancestors_same_links depth t t' id n :
  tree_wf depth t -> same_links t t' -> t !! id = Some n -> ancestors t' id = ancestors t id.
Proof.
  intros Hwf Hs Hid. pose proof (wf_same_links _ _ _ Hs Hwf) as Hwf'.
  destruct (same_links_lookup _ _ _ _ (same_links_sym _ _ Hs) Hid) as (n' & Hid' & _).
  destruct (ancestors_path depth t id n Hwf Hid) as [Hup _].
  destruct (ancestors_path depth t' id n' Hwf' Hid') as [Hup' _].
  eapply up_path_unique; [exact Hup'|]. by eapply up_path_same_links.
Qed.

(** The path from a node is a list [foldl_refresh_ok] accepts. *)
Lemma path_sorted depth t id l : tree_wf depth t -> up_path t id l ->
  StronglySorted (fun a b => (depth b <= depth a)%nat) (id :: l) /\ NoDup (id :: l) /\
  (forall i, i ∈ id :: l -> is_Some (t !! i)) /\
  (forall i n p, i ∈ id :: l -> t !! i = Some n -> nd_parent n = Some p -> p ∈ l).
Proof.
  intros Hwf Hup. destruct (up_path_depth depth t id l Hwf Hup) as [Hlt Hs]. split_and!.
  - constructor; [|eapply Forall_impl; [exact Hlt|cbn; lia]].
    clear -Hs. induction Hs as [|a l Hs IH Hall]; constructor; [done|].
    eapply Forall_impl; [exact Hall|cbn; lia].
  - constructor.
    + intros Hin. rewrite Forall_forall in Hlt. specialize (Hlt id Hin). cbn in Hlt. lia.
    + clear -Hs. induction Hs as [|a l Hs IH Hall]; constructor; [|done].
      intros Hin. rewrite Forall_forall in Hall. specialize (Hall a Hin). cbn in Hall. lia.
  - clear -Hup. induction Hup as [i n Hi Hp|i n p l Hi Hp Hup IH]; intros j.
    + intros ->%list_elem_of_singleton. by eexists.
    + intros [->|Hj]%elem_of_cons; [by eexists|by apply IH].
  - intros i n p Hi Hn Hp. by eapply up_path_closed.
Qed.

Lemma path_refresh_ok E depth t id l :
  tree_wf depth t -> up_path t id l ->
  (forall i m, t !! i = Some m -> i ∉ id :: l -> hash_ok t m /\ (~ E i -> score_ok t m)) ->
  merkle_ok E (foldl step t (id :: l)).
Proof.
  intros Hwf Hup Hoff. destruct (path_sorted depth t id l Hwf Hup) as (Hs & Hnd & Hin & Hcl).
  apply (foldl_refresh_ok _ depth); try done. intros i n p Hi Hn Hp. right. by eapply Hcl.
Qed.

(** Recomputing the path from a node to the root makes the whole tree right, if
    it was right off the path. *)
Lemma recompute_path_ok depth t id n :
  tree_wf depth t -> t !! id = Some n ->
  (forall i m, t !! i = Some m -> i ∉ id :: ancestors t id -> hash_ok t m /\ score_ok t m) ->
  merkle_ok (fun _ => False) (fst (recompute_path shake256 render t id)).
Proof.
  intros Hwf Hid Hoff. unfold recompute_path, recompute_path_inner. rewrite Hid. cbn [fst].
  pose proof (mark_dirty_clean t id) as Hc. set (u := mark_dirty t id) in *.
  pose proof (same_shape_links _ _ (same_clean_shape _ _ Hc)) as Hli.
  change (alter (set_dirty false) id (recompute_merkle shake256 render (aggregate_scoring_for u id) id)) with (step u id).
  rewrite (ancestors_same_links depth t (step u id) id n Hwf); [| |done].
  2:{ intros i. rewrite (Hli i). by apply same_shape_links, refresh_shape. }
  change (foldl step (step u id) (ancestors t id)) with (foldl step u (id :: ancestors t id)).
  apply (path_refresh_ok _ depth).
  - by eapply wf_same_links.
  - eapply up_path_same_links; [exact Hli|]. by eapply ancestors_path.
  - intros i m' Hi Hno. destruct (same_clean_ok _ _ _ _ Hc Hi) as (m & Hm & Hh & Hsc).
    destruct (Hoff i m Hm Hno). auto.
Qed.

(** *** Right trees are determined by their content *)

(** Two right trees of one shape, whose childless nodes score the same, have
    the same hashes and scorings everywhere. *)
Lemma merkle_ok_unique depth t t' :
  tree_wf depth t -> same_shape t t' ->
  merkle_ok (fun _ => False) t -> merkle_ok (fun _ => False) t' ->
  (forall i n n', t !! i = Some n -> t' !! i = Some n' -> nd_children n = [] -> nd_scoring n = nd_scoring n') ->
  forall i n n', t !! i = Some n -> t' !! i = Some n' ->
    nd_merkle_hash n = nd_merkle_hash n' /\ nd_scoring n = nd_scoring n'.
Proof.
  intros Hwf Hsh Hok Hok' Hleaf.
  enough (forall k i n n', (size t + depth rid_root - depth i <= k)%nat -> t !! i = Some n -> t' !! i = Some n' ->
    nd_merkle_hash n = nd_merkle_hash n' /\ nd_scoring n = nd_scoring n') as Hk by (intros i n n'; by apply (Hk _ i n n' (le_n _))).
  induction k as [|k IH]; intros i n n' Hd Hi Hi'.
  { pose proof (wf_depth_lt_size _ _ _ _ Hwf Hi). pose proof (wf_depth_ge _ _ _ _ Hwf Hi). lia. }
  assert (nd_children n = nd_children n' /\ nd_metadata n = nd_metadata n') as [Ec Em].
  { specialize (Hsh i). rewrite Hi, Hi' in Hsh. cbn in Hsh. unfold shape in Hsh. by simplify_eq. }
  assert (forall c, c ∈ nd_children n -> exists cn cn', t !! c = Some cn /\ t' !! c = Some cn' /\
    nd_merkle_hash cn = nd_merkle_hash cn' /\ nd_scoring cn = nd_scoring cn') as Hch.
  { intros c Hc. destruct (wf_child _ _ Hwf i n c Hi Hc) as (cn & Hcn & _).
    destruct (wf_child_depth _ _ _ _ _ Hwf Hi Hc) as [_ Hdc].
    pose proof (wf_depth_lt_size _ _ _ _ Hwf Hcn). pose proof (wf_depth_ge _ _ _ _ Hwf Hi).
    destruct (t' !! c) as [cn'|] eqn:Hcn'; [|specialize (Hsh c); by rewrite Hcn, Hcn' in Hsh].
    exists cn, cn'. repeat split; try done; by (eapply (IH c); [lia|done|done]). }
  assert (child_scorings t n = child_scorings t' n') as Ecs.
  { apply child_scorings_ext; [done|]. intros c Hc. destruct (Hch c Hc) as (cn & cn' & -> & -> & _ & E). cbn. congruence. }
  assert (child_hashes t n = child_hashes t' n') as Ech.
  { apply child_hashes_ext; [done|]. intros c Hc. destruct (Hch c Hc) as (cn & cn' & -> & -> & E & _). cbn. congruence. }
  destruct (Hok i n Hi) as [Hh Hs]. destruct (Hok' i n' Hi') as [Hh' Hs'].
  assert (nd_scoring n = nd_scoring n') as Es.
  { destruct (nd_children n) as [|c cs] eqn:Hcs; [by eapply Hleaf|].
    specialize (Hs ltac:(tauto)). specialize (Hs' ltac:(tauto)). unfold score_ok, new_score in Hs, Hs'.
    rewrite Hs, Hs', Ecs. destruct (child_scorings t' n') as [|s ss] eqn:Hcs'; [|done].
    exfalso. destruct (Hch c) as (cn & _ & Hcn & _); [left|].
    unfold child_scorings in Ecs. rewrite Hcs in Ecs. cbn in Ecs. by rewrite Hcn in Ecs. }
  split; [|done]. unfold hash_ok, node_hash in Hh, Hh'. by rewrite Hh, Hh', Ech, Es, Em.
Qed.

(** *** Mutations *)

(** A pass leaves the scoring of the childless nodes alone. *)
Lemma foldl_refresh_leaf t l i n :
  t !! i = Some n -> nd_children n = [] -> nd_scoring <$> foldl step t l !! i = Some (nd_scoring n).
Proof.
  revert t n. induction l as [|x l IH]; intros t n Hi Hc; cbn [foldl]; [by rewrite Hi|].
  destruct (t !! x) as [xn|] eqn:Hx.
  - destruct (decide (x = i)) as [->|Hne].
    + rewrite (IH (step t i) (refreshed t n)); [| |done].
      * f_equal. unfold refreshed, new_score, child_scorings. cbn. by rewrite Hc.
      * by rewrite (refresh_lookup _ _ _ Hi), lookup_insert_eq.
    + apply IH; [|done]. by rewrite (refresh_lookup _ _ _ Hx), lookup_insert_ne.
  - apply IH; [|done]. unfold refresh, recompute_merkle, aggregate_scoring_for. rewrite !Hx.
    rewrite lookup_alter_ne; [done|]. congruence.
Qed.

Lemma recompute_all_leaf keys t i n :
  t !! i = Some n -> nd_children n = [] ->
  nd_scoring <$> recompute_all shake256 render keys t !! i = Some (nd_scoring n).
Proof. apply foldl_refresh_leaf. Qed.

Lemma recompute_path_shape_leaf t id :
  same_shape t (fst (recompute_path shake256 render t id)) /\
  forall i n, t !! i = Some n -> nd_children n = [] ->
    nd_scoring <$> fst (recompute_path shake256 render t id) !! i = Some (nd_scoring n).
Proof.
  unfold recompute_path, recompute_path_inner. destruct (t !! id) as [m|] eqn:Hid.
  2:{ split; [done|]. intros i n Hi _. cbn. by rewrite Hi. }
  cbn [fst]. pose proof (mark_dirty_clean t id) as Hc. set (u := mark_dirty t id) in *.
  change (alter (set_dirty false) id (recompute_merkle shake256 render (aggregate_scoring_for u id) id)) with (step u id).
  set (l := ancestors _ id). change (foldl step (step u id) l) with (foldl step u (id :: l)). split.
  - etransitivity; [by apply same_clean_shape|apply foldl_refresh_shape].
  - intros i n Hi Hn. destruct (same_clean_lookup _ _ _ _ (symmetry Hc) Hi) as (n' & Hn' & E).
    apply clean_fields in E as ([= _ _ _ Ec _] & _ & <-). apply foldl_refresh_leaf; [done|congruence].
Qed.

(** One accepted change of a tree, and the node whose path it touches *)
Inductive mutation (t : ResourceTree) : ResourceTree -> ResourceId -> Prop :=
| mut_edit f id : is_Some (t !! id) -> (forall n, links (f n) = links n) -> mutation t (get_mut t id f) id
| mut_insert now id kind p t' : insert t now id kind p = (t', Ok tt) -> mutation t t' id
| mut_remove id node p t' : remove t id = (t', Ok node) -> nd_parent node = Some p -> mutation t t' p.

Lemma mutation_wf depth t t' x :
  tree_wf depth t -> mutation t t' x -> (exists depth', tree_wf depth' t') /\ is_Some (t' !! x).
Proof.
  intros Hwf Hm. destruct Hm as [f id [n Hn] Hf|now id kind p t' Hi|id node p t' Hr Hp].
  - split; [exists depth; by eapply wf_same_links; [apply same_links_alter|]|].
    unfold get_mut. rewrite lookup_alter_eq, Hn. by eexists.
  - split; [eexists; by eapply wf_insert|]. apply insert_ok in Hi as (-> & Hid & pn & Hpn).
    rewrite inserted_new by congruence. by eexists.
  - split; [exists depth; by eapply wf_remove|].
    apply (remove_ok _ _ _ _ depth Hwf) in Hr as (_ & _ & _ & q & qn & Hq & Hqn & Hne & ->). simplify_eq.
    rewrite lookup_alter_eq, lookup_delete_ne, Hqn by done. by eexists.
Qed.

(** What a parent reads of a child *)
Definition summary (n : ResourceNode) : bytes * NodeScoring := (nd_merkle_hash n, nd_scoring n).

Lemma summary_fields (a b : option ResourceNode) :
  summary <$> a = summary <$> b ->
  nd_merkle_hash <$> a = nd_merkle_hash <$> b /\ nd_scoring <$> a = nd_scoring <$> b.
Proof.
  destruct a as [a|], b as [b|]; try done. intros [= E1 E2]. change (Some (nd_merkle_hash a) = Some (nd_merkle_hash b) /\
    Some (nd_scoring a) = Some (nd_scoring b)). by rewrite E1, E2.
Qed.

Lemma summary_alter (t : ResourceTree) i f c :
  (forall n, summary (f n) = summary n) -> summary <$> alter f i t !! c = summary <$> t !! c.
Proof.
  intros Hf. rewrite lookup_alter. case_decide; [subst|done]. destruct (t !! c); cbn; [by rewrite Hf|done].
Qed.

(** A node other than the touched one and its parent is as before, and reads
    the same of its children. *)
Lemma mutation_local depth t t' x i n' :
  tree_wf depth t -> mutation t t' x -> t' !! i = Some n' -> i <> x ->
  (forall xn, t' !! x = Some xn -> nd_parent xn <> Some i) ->
  t !! i = Some n' /\ forall c, c ∈ nd_children n' -> summary <$> t' !! c = summary <$> t !! c.
Proof.
  intros Hwf Hm Hi Hix Hpar. destruct Hm as [f id [n Hn] Hf|now id kind p t' Hins|id node p t' Hr Hp].
  - unfold get_mut in *. rewrite lookup_alter_ne in Hi by done. split; [done|]. intros c Hc.
    rewrite lookup_alter_ne; [done|]. intros <-. destruct (wf_child _ _ Hwf i n' id Hi Hc) as (cn & Hcn & Hcp).
    simplify_eq. apply (Hpar (f n)); [by rewrite lookup_alter_eq, Hn|].
    specialize (Hf n). unfold links in Hf. injection Hf as _ -> _. done.
  - apply insert_ok in Hins as (-> & Hid & pn & Hpn).
    destruct (inserted_lookup _ _ _ _ _ _ _ _ Hid Hpn Hi) as [[? _]|[[-> ->]|(_ & Hip & Hti)]]; [done| |].
    + exfalso. by apply (Hpar (node_new now id kind (Some p))); [apply inserted_new; congruence|].
    + split; [done|]. intros c Hc. destruct (wf_child _ _ Hwf i n' c Hti Hc) as (cn & Hcn & _).
      unfold inserted. rewrite summary_alter by done. rewrite lookup_insert_ne; [done|congruence].
  - apply (remove_ok _ _ _ _ depth Hwf) in Hr as (_ & Hid & _ & q & qn & Hq & Hqn & Hne & ->). simplify_eq.
    rewrite lookup_alter_ne in Hi by done. apply lookup_delete_Some in Hi as [_ Hi]. split; [done|].
    intros c Hc. rewrite summary_alter by done. rewrite lookup_delete_ne; [done|]. intros <-.
    destruct (wf_child _ _ Hwf i n' id Hi Hc) as (cn & Hcn & Hcp). congruence.
Qed.

(** Off the path from the touched node a node is as before and hashes and
    scores as before. *)
Lemma mutation_reads depth t t' x i n' :
  tree_wf depth t -> mutation t t' x -> t' !! i = Some n' -> i ∉ x :: ancestors t' x ->
  t !! i = Some n' /\ hash_node t' n' = hash_node t n' /\ new_score t' n' = new_score t n'.
Proof.
  intros Hwf Hm Hi Hno. destruct (mutation_wf _ _ _ _ Hwf Hm) as [[depth' Hwf'] [xn Hx]].
  destruct (ancestors_path depth' t' x xn Hwf' Hx) as [Hup _].
  destruct (mutation_local depth t t' x i n' Hwf Hm Hi) as [Hti Hc].
  - intros ->. apply Hno. left.
  - intros xn' Hxn' Hpar. apply Hno. right. eapply up_path_closed; [exact Hup|left|done|done].
  - split; [done|]. unfold node_hash, new_score. split.
    + f_equal. apply child_hashes_ext; [done|]. intros c Hcc. by apply summary_fields, Hc.
    + assert (child_scorings t' n' = child_scorings t n') as ->; [|done].
      apply child_scorings_ext; [done|]. intros c Hcc. by apply summary_fields, Hc.
Qed.

Lemma mutation_off_path depth t t' x i n' :
  tree_wf depth t -> merkle_ok (fun _ => False) t -> mutation t t' x ->
  t' !! i = Some n' -> i ∉ x :: ancestors t' x -> hash_ok t' n' /\ score_ok t' n'.
Proof.
  intros Hwf Hok Hm Hi Hno. destruct (mutation_reads depth t t' x i n' Hwf Hm Hi Hno) as (Hti & E1 & E2).
  destruct (Hok i n' Hti) as [Hh Hs]. unfold hash_ok, score_ok in *. rewrite E1, E2. split; [done|]. apply Hs. tauto.
Qed.

Lemma same_shape_alter (t : ResourceTree) i f : (forall n, shape (f n) = shape n) -> same_shape t (alter f i t).
Proof.
  intros Hf j. rewrite lookup_alter. case_decide; [subst|done]. destruct (t !! j); cbn; [by rewrite Hf|done].
Qed.

Lemma recompute_merkle_shape t i : same_shape t (recompute_merkle shake256 render t i).
Proof. unfold recompute_merkle. destruct (t !! i); [|done]. by apply same_shape_alter. Qed.

Lemma aggregate_shape t i : same_shape t (aggregate_scoring_for t i).
Proof.
  unfold aggregate_scoring_for. destruct (t !! i) as [n|]; [|done]. destruct (nd_children n); [done|].
  destruct (child_scorings t n); [done|]. by apply same_shape_alter.
Qed.

Lemma recompute_path_inner_shape t id b :
  same_shape t (fst (recompute_path_inner shake256 render t id b)).
Proof.
  unfold recompute_path_inner. destruct (t !! id); [|done]. cbn [fst].
  etransitivity; [apply same_clean_shape, mark_dirty_clean|].
  etransitivity; [|apply foldl_refresh_shape].
  etransitivity; [|by apply same_shape_alter].
  destruct b; (etransitivity; [|apply recompute_merkle_shape]); [apply aggregate_shape|done].
Qed.

(** *** Stale hashes *)

#[global] Instance hash_ok_dec t n : base.Decision (hash_ok t n).
Proof. unfold hash_ok. apply _. Defined.

(** The pass over one node without aggregation *)
Definition rehash (t : ResourceTree) (id : ResourceId) : ResourceTree :=
  alter (set_dirty false) id (recompute_merkle shake256 render t id).

Lemma rehash_lookup t i n : t !! i = Some n -> rehash t i = <[i := set_dirty false (set_hash (hash_node t n) n)]> t.
Proof.
  intros Hi. unfold rehash, recompute_merkle. rewrite Hi. apply map_eq. intros j.
  destruct (decide (i = j)) as [<-|Hne]; [by rewrite !lookup_alter_eq, lookup_insert_eq, Hi|].
  by rewrite !lookup_alter_ne, lookup_insert_ne.
Qed.

Lemma rehash_links t i : same_links t (rehash t i).
Proof.
  destruct (t !! i) as [n|] eqn:Hi.
  - rewrite (rehash_lookup _ _ _ Hi). intros j. rewrite lookup_insert. case_decide; [subst; by rewrite Hi|done].
  - unfold rehash, recompute_merkle. rewrite Hi. by apply same_links_alter.
Qed.

(** After the pass the node is right and its parent alone may have become
    wrong. *)
Lemma rehash_hash depth t i n j m : tree_wf depth t -> t !! i = Some n -> rehash t i !! j = Some m ->
  nd_parent n <> Some j -> (j = i \/ exists m0, t !! j = Some m0 /\ hash_ok t m0) -> hash_ok (rehash t i) m.
Proof.
  intros Hwf Hi Hj Hp Hor. rewrite (rehash_lookup _ _ _ Hi) in *.
  assert (i ∉ nd_children m) as Hc.
  { intros Hc. apply lookup_insert_Some in Hj as [[<- <-]|[Hne Hj]].
    - destruct (wf_child_depth _ _ _ _ _ Hwf Hi Hc). lia.
    - destruct (wf_child _ _ Hwf j m i Hj Hc) as (n' & Hn' & Hp'). congruence. }
  assert (hash_node (<[i:=set_dirty false (set_hash (hash_node t n) n)]> t) m = hash_node t m) as E.
  { unfold node_hash. f_equal. apply child_hashes_ext; [done|]. intros c Hcc. rewrite lookup_insert_ne; [done|congruence]. }
  unfold hash_ok. rewrite E. apply lookup_insert_Some in Hj as [[<- <-]|[Hne Hj]]; [done|].
  destruct Hor as [->|(m0 & Hm0 & Hh)]; [done|]. by simplify_eq.
Qed.

Lemma aggregate_hash_ok t id n i m : t !! id = Some n -> i <> id -> t !! i = Some m -> hash_ok t m ->
  aggregate_scoring_for t id !! i = Some m /\ hash_ok (aggregate_scoring_for t id) m.
Proof.
  intros Hid Hne Hi Hh. rewrite (aggregate_lookup _ _ _ Hid). split; [by rewrite lookup_insert_ne|].
  unfold hash_ok in *. rewrite Hh. unfold node_hash. f_equal. apply child_hashes_ext; [done|]. intros c _.
  rewrite lookup_insert. case_decide; [subst; by rewrite Hid|done].
Qed.

(** Recomputing a path repairs the hashes on it and keeps the right ones. *)
Lemma recompute_path_off depth t id n b i m :
  tree_wf depth t -> t !! id = Some n -> fst (recompute_path_inner shake256 render t id b) !! i = Some m ->
  (i ∉ id :: ancestors t id -> exists m0, t !! i = Some m0 /\ hash_ok t m0) ->
  hash_ok (fst (recompute_path_inner shake256 render t id b)) m.
Proof.
  intros Hwf Hid. unfold recompute_path_inner. rewrite Hid. cbn [fst].
  pose proof (mark_dirty_clean t id) as Hc. set (u := mark_dirty t id) in *.
  set (v := if b then aggregate_scoring_for u id else u).
  assert (same_shape u v) as Huv by (subst v; destruct b; [apply aggregate_shape|done]).
  assert (same_links t v) as Hlv.
  { apply same_shape_links. etransitivity; [by apply same_clean_shape|done]. }
  pose proof (wf_same_links _ _ _ Hlv Hwf) as Hwfv.
  destruct (same_links_lookup _ _ _ _ (same_links_sym _ _ Hlv) Hid) as (nv & Hnv & [= _ Ep _]).
  fold (rehash v id). pose proof (rehash_links v id) as Hlr.
  rewrite (ancestors_same_links depth t (rehash v id) id n Hwf); [| |done].
  2:{ intros j. by rewrite (Hlv j), (Hlr j). }
  destruct (ancestors_path depth t id n Hwf Hid) as [Hup _].
  destruct (path_sorted depth t id _ Hwf Hup) as (Hs & Hnd & Hin & Hcl).
  apply StronglySorted_inv in Hs as [Hs _]. apply NoDup_cons in Hnd as [_ Hnd].
  intros Hi Hoff.
  refine (proj1 (foldl_refresh_off (fun j => j = i -> False) (fun _ => True) depth _ (rehash v id) _ Hs Hnd _ _ _ i m Hi) _); [| | | |tauto].
  - eapply wf_same_links; [exact Hlr|done].
  - intros j Hj. destruct (Hin j) as [x Hx]; [by right|].
    destruct (same_links_lookup _ _ _ _ (same_links_sym _ _ Hlv) Hx) as (y & Hy & _).
    destruct (same_links_lookup _ _ _ _ (same_links_sym _ _ Hlr) Hy) as (z & Hz & _). by eexists.
  - intros j x p Hj Hx Hp. destruct (same_links_lookup _ _ _ _ Hlr Hx) as (y & Hy & [= _ E1 _]).
    destruct (same_links_lookup _ _ _ _ Hlv Hy) as (z & Hz & [= _ E2 _]). apply (Hcl j z); [by right|done|congruence].
  - intros j x Hx Hj. split; [|tauto]. intros Hji. apply dec_stable in Hji as ->.
    apply (rehash_hash depth v id nv i x Hwfv Hnv Hx).
    + rewrite Ep. intros Hp. apply Hj. by apply (Hcl id n); [left|..].
    + destruct (decide (i = id)) as [->|Hne]; [by left|right]. destruct Hoff as (m0 & Hm0 & Hh).
      { by intros [?|?]%elem_of_cons. }
      destruct (same_clean_lookup _ _ _ _ (symmetry Hc) Hm0) as (m1 & Hm1 & _).
      destruct (same_clean_ok _ _ _ _ Hc Hm1) as (m0' & Hm0' & Hh' & _). simplify_eq.
      exists m1. subst v. destruct b; [|by split; [|apply Hh']].
      destruct (same_clean_lookup _ _ _ _ (symmetry Hc) Hid) as (un & Hun & _). apply (aggregate_hash_ok u id un); auto.
Qed.

(** A change that off the path from [x] neither touches a node nor what a
    node's hash is computed from *)
Record local_change (t t' : ResourceTree) (x : ResourceId) : Prop := {
  lc_wf : exists depth, tree_wf depth t';
  lc_at : is_Some (t' !! x);
  lc_off : forall i n, t' !! i = Some n -> i ∉ x :: ancestors t' x -> t !! i = Some n /\ hash_node t' n = hash_node t n;
}.

Lemma mutation_local_change depth t t' x : tree_wf depth t -> mutation t t' x -> local_change t t' x.
Proof.
  intros Hwf Hm. destruct (mutation_wf _ _ _ _ Hwf Hm). split; [done..|]. intros i n Hi Hno.
  by destruct (mutation_reads depth t t' x i n Hwf Hm Hi Hno) as (? & ? & _).
Qed.

(** A later edit of [x] itself stays on the path. *)
Lemma local_change_edit t t' x f : (forall n, links (f n) = links n) -> local_change t t' x -> local_change t (get_mut t' x f) x.
Proof.
  intros Hf [[depth Hwf] [xn Hx] Hoff]. pose proof (same_links_alter t' x f Hf) as Hl.
  pose proof (mutation_local_change depth t' (get_mut t' x f) x Hwf (mut_edit _ f x ltac:(by eexists) Hf)) as [Hwf' Hat Hoff'].
  split; [done..|]. intros i n Hi Hno. destruct (Hoff' i n Hi Hno) as [Hi' ->]. apply Hoff; [done|].
  unfold get_mut in Hno. by rewrite (ancestors_same_links depth t' _ x xn Hwf Hl Hx) in Hno.
Qed.

(** A change and the recomputation of its path leave no hash stale that was
    right before; what stays stale is off the path and has not changed. *)
Lemma change_path_stale t t' x b i m :
  local_change t t' x ->
  fst (recompute_path_inner shake256 render t' x b) !! i = Some m ->
  hash_ok (fst (recompute_path_inner shake256 render t' x b)) m \/
  exists n, t !! i = Some n /\ ~ hash_ok t n /\ shape m = shape n.
Proof.
  intros [[depth' Hwf'] [xn Hx] Hoff] Hi.
  pose proof (recompute_path_inner_shape t' x b i) as Hsh. rewrite Hi in Hsh.
  destruct (t' !! i) as [n'|] eqn:Hn'; [|done]. cbn in Hsh. apply (inj Some) in Hsh.
  destruct (decide (i ∈ x :: ancestors t' x)) as [Hin|Hout].
  { left. by apply (recompute_path_off depth' t' x xn b i m). }
  destruct (Hoff i n' Hn' Hout) as [Hti E].
  destruct (decide (hash_ok t n')) as [Hh|Hh]; [left|right; by exists n'].
  apply (recompute_path_off depth' t' x xn b i m); [done..|]. intros _. exists n'. split; [done|].
  unfold hash_ok in *. by rewrite E.
Qed.

Lemma merkle_fields_agree depth t u v :
  tree_wf depth t -> same_shape t u -> same_shape t v ->
  merkle_ok (fun _ => False) u -> merkle_ok (fun _ => False) v ->
  (forall i n, t !! i = Some n -> nd_children n = [] ->
     nd_scoring <$> u !! i = Some (nd_scoring n) /\ nd_scoring <$> v !! i = Some (nd_scoring n)) ->
  forall i, summary <$> u !! i = summary <$> v !! i.
Proof.
  intros Hwf Hu Hv Hou Hov Hleaf i.
  assert (same_shape u v) as Huv by (etransitivity; [symmetry; exact Hu|exact Hv]).
  destruct (u !! i) as [n|] eqn:Hi; [|specialize (Huv i); rewrite Hi in Huv; by destruct (v !! i)].
  destruct (v !! i) as [n'|] eqn:Hi'; [|specialize (Huv i); by rewrite Hi, Hi' in Huv].
  pose proof (wf_same_links _ _ _ (same_shape_links _ _ Hu) Hwf) as Hwfu.
  destruct (merkle_ok_unique depth u v Hwfu Huv Hou Hov) with (i := i) (n := n) (n' := n') as [E1 E2]; try done.
  - intros j m m' Hj Hj' Hc. destruct (same_links_lookup _ _ _ _ (same_shape_links _ _ Hu) Hj) as (m0 & Hm0 & [= _ _ E]).
    rewrite Hc in E. destruct (Hleaf j m0 Hm0 E) as [H1 H2]. rewrite Hj in H1. rewrite Hj' in H2. cbn in *. congruence.
  - cbn. unfold summary. by rewrite E1, E2.
Qed.

(** *** Operations *)

Inductive tree_op :=
| OInsert (now : Z) (id : ResourceId) (kind : ResourceKind) (p : ResourceId)
| ORemove (id : ResourceId)
| OSetMeta (id : ResourceId) (key : string) (v : Json)
| OUpdateScoring (now : Z) (id : ResourceId) (s : NodeScoring)
| OBlendScoring (now : Z) (id : ResourceId) (s : NodeScoring) (alpha : f32)
| OMarkDirty (id : ResourceId)
| ORecomputePath (id : ResourceId)
| ORecomputeDirty (keys : list ResourceId)
| ORecomputeAll (keys : list ResourceId).

Definition tree_step (t : ResourceTree) (o : tree_op) : ResourceTree :=
  match o with
  | OInsert now id kind p => fst (insert t now id kind p)
  | ORemove id => fst (remove t id)
  | OSetMeta id key v => get_mut t id (set_meta key v)
  | OUpdateScoring now id s => fst (update_scoring shake256 render t now id s)
  | OBlendScoring now id s alpha => fst (blend_scoring shake256 render t now id s alpha)
  | OMarkDirty id => mark_dirty t id
  | ORecomputePath id => fst (recompute_path shake256 render t id)
  | ORecomputeDirty keys => fst (recompute_dirty shake256 render keys t)
  | ORecomputeAll keys => recompute_all shake256 render keys t
  end.

Lemma insert_err t now id kind p t' e : insert t now id kind p = (t', Err e) -> t' = t.
Proof. unfold insert. intros H. cases. Qed.

Lemma remove_err t id t' e : remove t id = (t', Err e) -> t' = t.
Proof. unfold remove. intros H. cases. Qed.

Lemma links_step t o :
  match o with OInsert _ _ _ _ | ORemove _ => True | _ => same_links t (tree_step t o) end.
Proof.
  destruct o as [| |id key v|now id s|now id s alpha|id|id|keys|keys]; cbn [tree_step]; try done.
  - by apply same_links_alter.
  - unfold update_scoring. destruct (t !! id); [|done]. cbn [fst]. intros i.
    rewrite (same_links_alter t id (fun n => set_updated now (set_scoring s n)) ltac:(done) i).
    apply same_shape_links, recompute_path_inner_shape.
  - unfold blend_scoring. destruct (t !! id); [|done]. cbn [fst]. intros i.
    rewrite (same_links_alter t id (fun n => set_updated now (set_scoring (Score.blend (nd_scoring n) s alpha) n)) ltac:(done) i).
    apply same_shape_links, recompute_path_inner_shape.
  - apply same_shape_links, same_clean_shape, mark_dirty_clean.
  - apply same_shape_links, recompute_path_inner_shape.
  - apply same_shape_links, foldl_refresh_shape.
  - apply same_shape_links, foldl_refresh_shape.
Qed.

Lemma wf_tree_step depth t o : tree_wf depth t -> exists depth', tree_wf depth' (tree_step t o).
Proof.
  intros Hwf. pose proof (links_step t o) as Hl.
  destruct o as [now id kind p|id| | | | | | |]; try (exists depth; by eapply wf_same_links).
  - cbn [tree_step]. destruct (insert t now id kind p) as [t' [[]|e]] eqn:E; cbn [fst].
    + eexists. by eapply wf_insert.
    + apply insert_err in E as ->. by exists depth.
  - cbn [tree_step]. destruct (remove t id) as [t' [n|e]] eqn:E; cbn [fst].
    + exists depth. by eapply wf_remove.
    + apply remove_err in E as ->. by exists depth.
Qed.

(** C12: Whatever operations run on a fresh tree, it stays a tree: the root
    exists and has no parent; every other node's parent exists and lists it
    as a child; every listed child exists and points back; no child is listed
    twice; and the parent pointers have no cycle, so that the walk from any
    node to the root ends there, having visited one node per level. *)
Theorem tree_invariant now ops :
  exists depth, tree_wf depth (foldl tree_step (tree_new now) ops) /\
    forall i n, foldl tree_step (tree_new now) ops !! i = Some n ->
      up_path (foldl tree_step (tree_new now) ops) i (ancestors (foldl tree_step (tree_new now) ops) i).
Proof.
  assert (exists depth, tree_wf depth (foldl tree_step (tree_new now) ops)) as [depth Hwf].
  { assert (exists depth, tree_wf depth (tree_new now)) as Hinit by (eexists; apply wf_new).
    revert Hinit. generalize (tree_new now) as t. induction ops as [|o ops IH]; intros t [depth Hwf]; [by exists depth|].
    cbn. apply IH. by eapply wf_tree_step. }
  exists depth. split; [done|]. intros i n Hi. by eapply ancestors_path.
Qed.

(** Whatever order the node map yields its keys in, the full recomputation
    leaves every node's hash equal to the digest of its children's sorted
    hashes, its scoring and its metadata, and every inner node's scoring equal
    to the aggregate of its children's; two orders give the same hashes. *)
Theorem recompute_all_correct depth t keys keys' :
  tree_wf depth t -> keys_of t keys -> keys_of t keys' ->
  merkle_ok (fun _ => False) (recompute_all shake256 render keys t) /\
  forall i, summary <$> recompute_all shake256 render keys t !! i =
            summary <$> recompute_all shake256 render keys' t !! i.
Proof.
  intros Hwf Hk Hk'. split; [by eapply recompute_all_ok|].
  apply (merkle_fields_agree depth t); try done.
  1-2: apply foldl_refresh_shape.
  1-2: by eapply recompute_all_ok.
  intros i n Hi Hc. split; by apply recompute_all_leaf.
Qed.

(** C13: The incremental update is equivalent to the full one.  Take a
    well-formed tree as a full recomputation leaves it: every hash is the
    digest of its node's content and the scoring of every inner node is the
    aggregate of its children's (so no scoring was set by hand on an inner
    node since).  After one change of a node's content, one insertion or one
    removal, recomputing only the path from the touched node to the root gives
    every node the hash and the scoring that recomputing the whole tree
    gives. *)
Theorem path_update_equals_full depth t t' x keys :
  tree_wf depth t -> merkle_ok (fun _ => False) t -> mutation t t' x -> keys_of t' keys ->
  forall i, summary <$> fst (recompute_path shake256 render t' x) !! i =
            summary <$> recompute_all shake256 render keys t' !! i.
Proof.
  intros Hwf Hok Hm Hk. destruct (mutation_wf _ _ _ _ Hwf Hm) as [[depth' Hwf'] [xn Hx]].
  destruct (recompute_path_shape_leaf t' x) as [Hsh Hleaf].
  apply (merkle_fields_agree depth' t'); try done.
  - apply foldl_refresh_shape.
  - eapply recompute_path_ok; [done|done|]. intros i m Hi Hno. by apply (mutation_off_path depth t t' x i m).
  - by eapply recompute_all_ok.
  - intros i n Hi Hc. split; [by apply Hleaf|by apply recompute_all_leaf].
Qed.

(** *** Inclusion proofs *)

Lemma sort_hashes_elem l h : h ∈ sort_hashes l <-> h ∈ l.
Proof. unfold sort_hashes. by rewrite merge_sort_Permutation. Qed.

Lemma child_hash_listed t p pn i n :
  t !! i = Some n -> t !! p = Some pn -> i ∈ nd_children pn -> nd_merkle_hash n ∈ child_hashes t pn.
Proof.
  intros Hi Hp Hin. unfold child_hashes. rewrite sort_hashes_elem. apply list_elem_of_omap.
  exists i. by rewrite Hi.
Qed.

Lemma proof_levels_verify depth t fuel i n :
  tree_wf depth t -> (forall j m, t !! j = Some m -> nd_children m <> [] -> hash_ok t m) ->
  t !! i = Some n -> i <> rid_root -> (depth i - depth rid_root <= fuel)%nat ->
  exists l ls, proof_levels render t fuel i = Some (l :: ls) /\
    verify_levels shake256 (root_hash t) (nd_merkle_hash n) (l :: ls) = true.
Proof.
  intros Hwf Hok. revert i n. induction fuel as [|fuel IH]; intros i n Hi Hne Hf.
  all: destruct (wf_parent _ _ Hwf i n Hi Hne) as (p & pn & Hp & Hpn & Hin & Hd).
  all: pose proof (wf_depth_ge _ _ _ _ Hwf Hpn) as Hge.
  { lia. }
  cbn [proof_levels]. rewrite Hi. cbn [mbind option_bind]. rewrite Hp, Hpn.
  assert (hash_from_parts shake256 (child_hashes t pn) (Score.to_hash_bytes (nd_scoring pn))
            (meta_bytes render (nd_metadata pn)) = nd_merkle_hash pn) as Hh.
  { symmetry. apply (Hok p pn Hpn). intros E. rewrite E in Hin. by apply not_elem_of_nil in Hin. }
  pose proof (child_hash_listed t p pn i n Hi Hpn Hin) as Hlisted.
  destruct (decide (p = rid_root)) as [->|Hpr].
  - assert (proof_levels render t fuel rid_root = Some []) as ->.
    { destruct (wf_root _ _ Hwf) as (rn & Hrn & Hrp). destruct fuel; cbn; [done|]. by rewrite Hrn; cbn; rewrite Hrp. }
    eexists _, _. split; [done|]. cbn [verify_levels lv_child_hashes_sorted lv_parent_scoring lv_parent_meta_bytes lv_parent_hash].
    rewrite Hh. unfold root_hash. rewrite Hpn.
    rewrite !bool_decide_eq_true_2; done.
  - destruct (IH p pn Hpn Hpr ltac:(lia)) as (l & ls & Hls & Hv). rewrite Hls.
    eexists _, _. split; [done|]. cbn [verify_levels lv_child_hashes_sorted lv_parent_scoring lv_parent_meta_bytes lv_parent_hash].
    rewrite Hh. rewrite bool_decide_eq_true_2 by done. rewrite bool_decide_eq_true_2 by done. exact Hv.
Qed.

(** Only the hashes of inner nodes have to be right. *)
Lemma proofs_verify depth t id n :
  tree_wf depth t -> (forall j m, t !! j = Some m -> nd_children m <> [] -> hash_ok t m) ->
  t !! id = Some n -> id <> "" ->
  exists p, merkle_proof render t id = Some p /\ pf_path p = id /\ pf_node_hash p = nd_merkle_hash n /\
    verify_proof shake256 t p = true.
Proof.
  intros Hwf Hok Hid Hne. unfold merkle_proof, is_root. rewrite Hid.
  destruct (String.eqb_spec id "/") as [->|Hroot].
  - eexists. split; [done|]. repeat split. unfold verify_proof, verify. cbn.
    unfold root_hash. change rid_root with "/". rewrite Hid. by rewrite !bool_decide_eq_true_2.
  - destruct (proof_levels_verify depth t (size t) id n Hwf Hok Hid Hroot) as (l & ls & -> & Hv).
    { pose proof (wf_depth_lt_size _ _ _ _ Hwf Hid). lia. }
    eexists. split; [done|]. repeat split. unfold verify_proof, verify. cbn [pf_path pf_levels pf_root_hash pf_node_hash].
    apply String.eqb_neq in Hne as ->. rewrite bool_decide_eq_true_2 by done. exact Hv.
Qed.

(** Every node of a tree whose hashes are right has an inclusion proof,
    and the proof verifies against the tree's root hash. *)
Theorem inclusion_proofs_verify depth t id n :
  tree_wf depth t -> (forall j m, t !! j = Some m -> hash_ok t m) ->
  t !! id = Some n -> id <> "" ->
  exists p, merkle_proof render t id = Some p /\ pf_path p = id /\ pf_node_hash p = nd_merkle_hash n /\
    verify_proof shake256 t p = true.
Proof. intros Hwf Hok. apply (proofs_verify depth); [done|]. intros j m Hj _. by apply (Hok j). Qed.

(** The path in an inclusion proof is not bound by the hashes: whatever
    tree a proof of a node below the root verifies against, the same proof
    with any other non-empty path verifies too. *)
Theorem proof_path_unbound t p path :
  pf_levels p <> [] -> path <> "" -> verify_proof shake256 t p = true ->
  verify_proof shake256 t (mkInclusion path (pf_node_hash p) (pf_levels p) (pf_root_hash p)) = true.
Proof.
  intros Hl Hne. unfold verify_proof, verify. cbn [pf_path pf_levels pf_root_hash pf_node_hash].
  apply String.eqb_neq in Hne as ->. destruct (pf_levels p) as [|l ls]; [done|].
  intros [-> Hv]%andb_prop. by destruct (String.eqb (pf_path p) "").
Qed.

End MerkleProps.

(** ** The dirty flags *)

(** Two insertions are enough to hide a change from the incremental
    update: in a tree without dirty nodes, inserting a node and then a child of
    it and marking the child dirty leaves the root clean, because the marking
    stops at the new node, which was born dirty; [recompute_dirty] then leaves
    no dirty node behind and the root hash of the tree without the two. *)
Theorem dirty_root_missed shake256 render :
  let t0 := recompute_all shake256 render ["/"] (tree_new 0) in
  let t1 := fst (insert t0 1 "/apps" KNamespace "/") in
  let t2 := mark_dirty (fst (insert t1 1 "/apps/x" KApp "/apps")) "/apps/x" in
  let t3 := fst (recompute_dirty shake256 render ["/"; "/apps"; "/apps/x"] t2) in
  has_dirty t0 = false /\ has_dirty t3 = false /\ root_hash t3 = root_hash t0 /\
  (nd_children <$> t3 !! "/") = Some ["/apps"].
Proof. vm_compute. done. Qed.

(** ** Witnesses *)

Definition toy_digest (b : bytes) : bytes := b.
Definition toy_render (j : Json) : bytes := [x7b; x7d].
Definition toy_tree : ResourceTree := fst (insert (tree_new 0) 1 "/apps" KNamespace "/").
Definition tree_keys (t : ResourceTree) : list ResourceId := (map_to_list t).*1.
Definition toy_right : ResourceTree := recompute_all toy_digest toy_render (tree_keys toy_tree) toy_tree.
Definition toy_depth (i : ResourceId) : nat := if decide (i = "/apps") then 1 else 0.

Lemma toy_tree_wf : tree_wf toy_depth toy_tree.
Proof. exact (wf_insert _ _ 1 "/apps" KNamespace "/" toy_tree (wf_new 0) eq_refl). Qed.

Lemma toy_right_wf : tree_wf toy_depth toy_right.
Proof. eapply wf_same_links; [apply same_shape_links, foldl_refresh_shape|apply toy_tree_wf]. Qed.

Lemma toy_right_ok : merkle_ok toy_digest toy_render (fun _ => False) toy_right.
Proof. eapply recompute_all_ok; [apply toy_tree_wf|]. unfold keys_of, tree_keys. reflexivity. Qed.

Lemma recompute_all_correct_witness :
  merkle_ok toy_digest toy_render (fun _ => False) (recompute_all toy_digest toy_render ["/apps"; "/"] toy_tree).
Proof.
  apply (recompute_all_correct toy_digest toy_render toy_depth toy_tree ["/apps"; "/"] (tree_keys toy_tree)).
  - apply toy_tree_wf.
  - unfold keys_of. apply NoDup_Permutation.
    + repeat constructor; set_solver.
    + apply NoDup_fst_map_to_list.
    + intros i. change (i ∈ ["/apps"; "/"] <-> i ∈ (map_to_list toy_tree).*1). vm_compute ((map_to_list toy_tree).*1).
      set_solver.
  - unfold keys_of, tree_keys. reflexivity.
Defined.

Lemma path_update_equals_full_witness :
  let t' := get_mut toy_right "/apps" (set_meta "owner" (JStr "ops")) in
  root_hash (fst (recompute_path toy_digest toy_render t' "/apps")) =
  root_hash (recompute_all toy_digest toy_render (tree_keys t') t').
Proof.
  intros t'. unfold root_hash.
  assert (summary <$> fst (recompute_path toy_digest toy_render t' "/apps") !! rid_root =
          summary <$> recompute_all toy_digest toy_render (tree_keys t') t' !! rid_root) as E.
  { apply (path_update_equals_full toy_digest toy_render toy_depth toy_right t' "/apps" (tree_keys t')).
    - apply toy_right_wf.
    - apply toy_right_ok.
    - apply mut_edit; [vm_compute; by eexists|done].
    - unfold keys_of, tree_keys. reflexivity. }
  apply summary_fields in E as [E _].
  destruct (fst (recompute_path toy_digest toy_render t' "/apps") !! rid_root), (recompute_all toy_digest toy_render (tree_keys t') t' !! rid_root);
    cbn in E; congruence.
Defined.

Lemma inclusion_proofs_verify_witness :
  exists p, merkle_proof toy_render toy_right "/apps" = Some p /\
    verify_proof toy_digest toy_right p = true.
Proof.
  destruct (toy_right !! "/apps") as [n|] eqn:Hn; [|vm_compute in Hn; discriminate Hn].
  destruct (inclusion_proofs_verify toy_digest toy_render toy_depth toy_right "/apps" n toy_right_wf) as (p & Hp & _ & _ & Hv).
  - intros j m Hj. exact (proj1 (toy_right_ok j m Hj)).
  - exact Hn.
  - discriminate.
  - exists p. split; [exact Hp|exact Hv].
Defined.

Lemma proof_path_unbound_witness :
  match merkle_proof toy_render toy_right "/apps" with
  | Some p => verify_proof toy_digest toy_right
                (mkInclusion "/kernel" (pf_node_hash p) (pf_levels p) (pf_root_hash p)) = true
  | None => False
  end.
Proof.
  destruct (merkle_proof toy_render toy_right "/apps") as [p|] eqn:Hp; [|vm_compute in Hp; discriminate Hp].
  apply (proof_path_unbound toy_digest toy_right p "/kernel").
  - vm_compute in Hp. injection Hp as <-. discriminate.
  - discriminate.
  - vm_compute in Hp. injection Hp as <-. vm_compute. reflexivity.
Defined.
