(* ===== verification/TreeDiff.v ===== *)
(** Comparing resource trees: crates/exo-resource-tree/src/merkle.rs, the walk
    over differing subtrees ([merkle_diff]).

    The equality of JSON values is code of serde_json: [json_eq].  A hash set
    yields its members and a hash map its keys in an order of its own:
    [set_order] and [key_order]. *)

From Stdlib Require Import Strings.String.
From Stdlib Require Import Floats.SpecFloat.
From S2P Require Import Prelude.
From S2P Require Import Codec.
From S2P Require Import Delegation.
From S2P Require Import Scoring.
From S2P Require Import Tree.
Open Scope N_scope.

#[global] Instance ResourceKind_eq_dec : EqDecision ResourceKind.
Proof. solve_decision. Defined.

(** ** Data *)

Inductive MerkleDiffKind := Added | Modified | Removed.

#[global] Instance MerkleDiffKind_eq_dec : EqDecision MerkleDiffKind.
Proof. solve_decision. Defined.

Record DiffNodePayload := mkPayload {
  dp_id : ResourceId;
  dp_kind : ResourceKind;
  dp_parent : option ResourceId;
  dp_metadata : gmap string Json;
  dp_scoring : NodeScoring;
  dp_merkle_hash : bytes;
}.

(** [DiffNodePayload::from_node] *)
Definition from_node (n : ResourceNode) : DiffNodePayload :=
  mkPayload (nd_id n) (nd_kind n) (nd_parent n) (nd_metadata n) (nd_scoring n) (nd_merkle_hash n).

Record SiblingWitness := mkSibling { sw_id : ResourceId; sw_merkle_hash : bytes }.

Record MerkleDiffEntry := mkEntry {
  de_id : ResourceId;
  de_diff_kind : MerkleDiffKind;
  de_node : option DiffNodePayload;
  de_sibling_witnesses : list SiblingWitness;
}.

Record MerkleDiff := mkDiff {
  df_local_root : bytes;
  df_remote_root : bytes;
  df_entries : list MerkleDiffEntry;
  df_nodes_visited : N;
}.

(** [is_empty], [in_sync], [changed_count] *)
Definition diff_is_empty (d : MerkleDiff) : bool := match df_entries d with [] => true | _ => false end.
Definition in_sync (d : MerkleDiff) : bool :=
  bool_decide (df_local_root d = df_remote_root d) && diff_is_empty d.
Definition changed_count (d : MerkleDiff) : N := lenN (df_entries d).

(** ** The walk *)

Section Diff.
Context (json_eq : Json -> Json -> bool).
Context (set_order : gset ResourceId -> list ResourceId) (key_order : gmap ResourceId bytes -> list ResourceId).

(** [PartialEq] of the metadata maps and of the scoring arrays *)
Definition metadata_eqb (m m' : gmap string Json) : bool :=
  (size m =? size m')%nat &&
  forallb (fun kv => match m' !! kv.1 with Some v => json_eq kv.2 v | None => false end) (map_to_list m).

Definition scoring_eqb (s s' : NodeScoring) : bool :=
  forallb (fun p => SFeqb p.1 p.2) (zip (Score.as_array s) (Score.as_array s')).

(** [hash_map] *)
Definition hash_map (t : ResourceTree) : gmap ResourceId bytes := nd_merkle_hash <$> t.

(** [sibling_witnesses_for] *)
Definition sibling_witnesses_for (t : ResourceTree) (id : ResourceId) : list SiblingWitness :=
  match t !! id ≫= nd_parent with
  | None => []
  | Some p =>
      match t !! p with
      | None => []
      | Some parent =>
          omap (fun c => (fun n => mkSibling c (nd_merkle_hash n)) <$> t !! c)
            (filter (fun c => c <> id) (nd_children parent))
      end
  end.

Definition added_entry (t : ResourceTree) (id : ResourceId) (n : ResourceNode) : MerkleDiffEntry :=
  mkEntry id Added (Some (from_node n)) (sibling_witnesses_for t id).
Definition modified_entry (t : ResourceTree) (id : ResourceId) (n : ResourceNode) : MerkleDiffEntry :=
  mkEntry id Modified (Some (from_node n)) (sibling_witnesses_for t id).
Definition removed_entry (id : ResourceId) : MerkleDiffEntry := mkEntry id Removed None [].

(** The loop of [collect_subtree_added]; the top of the stack is the head of
    the list.  [None] when the fuel runs out. *)
Fixpoint collect_subtree_added (fuel : nat) (t : ResourceTree) (stack : list ResourceId)
    (entries : list MerkleDiffEntry) (visited : N) : option (list MerkleDiffEntry * N) :=
  match fuel with
  | O => None
  | S fuel =>
      match stack with
      | [] => Some (entries, visited)
      | cid :: rest =>
          match t !! cid with
          | Some node => collect_subtree_added fuel t (nd_children node ++ rest) (entries ++ [added_entry t cid node]) (visited + 1)
          | None => collect_subtree_added fuel t rest entries (visited + 1)
          end
      end
  end.

(** Whether the content of a node differs from the remote one, when its body
    is known *)
Definition content_diff (l : ResourceNode) (r : option ResourceNode) : bool :=
  match r with
  | Some r =>
      negb (bool_decide (nd_kind r = nd_kind l)) || negb (metadata_eqb (nd_metadata r) (nd_metadata l))
      || negb (scoring_eqb (nd_scoring r) (nd_scoring l))
  | None => true
  end.

(** The [while] loop of [merkle_diff_against_hashes] *)
Fixpoint diff_walk (fuel : nat) (t : ResourceTree) (remote_hashes : gmap ResourceId bytes) (remote_tree : option ResourceTree)
    (queue : list ResourceId) (seen : gset ResourceId) (entries : list MerkleDiffEntry) (visited : N)
    : option (list MerkleDiffEntry * N) :=
  match fuel with
  | O => None
  | S fuel =>
      match queue with
      | [] => Some (entries, visited)
      | id :: queue =>
          if bool_decide (id ∈ seen) then diff_walk fuel t remote_hashes remote_tree queue seen entries visited
          else
            let seen := {[id]} ∪ seen in
            let visited := visited + 1 in
            let remote_node := remote_tree ≫= fun r => r !! id in
            match t !! id, remote_hashes !! id with
            | Some lnode, Some rh =>
                if bool_decide (nd_merkle_hash lnode = rh) then diff_walk fuel t remote_hashes remote_tree queue seen entries visited
                else
                  let entries := if content_diff lnode remote_node then entries ++ [modified_entry t id lnode] else entries in
                  let child_ids : gset ResourceId :=
                    list_to_set (nd_children lnode) ∪
                    match remote_node with Some r => list_to_set (nd_children r) | None => ∅ end in
                  diff_walk fuel t remote_hashes remote_tree (queue ++ set_order child_ids) seen entries visited
            | Some _, None =>
                match collect_subtree_added (S (size t)) t [id] entries visited with
                | None => None
                | Some (entries, visited) => diff_walk fuel t remote_hashes remote_tree queue seen entries visited
                end
            | None, Some _ =>
                let more := match remote_node with Some r => nd_children r | None => [] end in
                diff_walk fuel t remote_hashes remote_tree (queue ++ more) seen (entries ++ [removed_entry id]) visited
            | None, None => diff_walk fuel t remote_hashes remote_tree queue seen entries visited
            end
      end
  end.

(** The final loop, over the remote paths *)
Definition sweep_removed (t : ResourceTree) (keys : list ResourceId) (entries : list MerkleDiffEntry) (visited : N)
    : list MerkleDiffEntry * N :=
  foldl (fun '(entries, visited) rid =>
           match t !! rid with
           | Some _ => (entries, visited)
           | None =>
               if existsb (fun e => String.eqb (de_id e) rid) entries then (entries, visited)
               else (entries ++ [removed_entry rid], visited + 1)
           end) (entries, visited) keys.

(** [merkle_diff_against_hashes] *)
Definition merkle_diff_against_hashes (t : ResourceTree) (remote_hashes : gmap ResourceId bytes)
    (remote_tree : option ResourceTree) : option MerkleDiff :=
  let local_root := root_hash t in
  let remote_root := default zero32 (remote_hashes !! rid_root) in
  if bool_decide (local_root = remote_root) && bool_decide (is_Some (remote_hashes !! rid_root))
  then Some (mkDiff local_root remote_root [] 1)
  else
    match diff_walk (S (size t + size remote_hashes)) t remote_hashes remote_tree [rid_root] ∅ [] 0 with
    | None => None
    | Some (entries, visited) =>
        let '(entries, visited) := sweep_removed t (key_order remote_hashes) entries visited in
        Some (mkDiff local_root remote_root entries visited)
    end.

(** [ResourceTree::merkle_diff] *)
Definition merkle_diff (t other : ResourceTree) : option MerkleDiff :=
  merkle_diff_against_hashes t (hash_map other) (Some other).

(** ** What the difference should be *)

(** Every common ancestor of [i] hashes differently on the two sides. *)
Definition differs_above (l r : ResourceTree) (i : ResourceId) : bool :=
  forallb (fun a => match l !! a, r !! a with
                    | Some ln, Some rn => negb (bool_decide (nd_merkle_hash ln = nd_merkle_hash rn))
                    | _, _ => true
                    end) (ancestors l i).

(** The entry for one path, by comparing the two trees there *)
Definition diff_spec (l r : ResourceTree) (i : ResourceId) : option MerkleDiffEntry :=
  if bool_decide (root_hash l = root_hash r) then None
  else match l !! i, r !! i with
       | Some ln, None => if differs_above l r i then Some (added_entry l i ln) else None
       | Some ln, Some rn =>
           if negb (bool_decide (nd_merkle_hash ln = nd_merkle_hash rn)) && differs_above l r i && content_diff ln (Some rn)
           then Some (modified_entry l i ln) else None
       | None, Some _ => Some (removed_entry i)
       | None, None => None
       end.

End Diff.

(** Paths that both trees have hang in the same place. *)
Definition same_parents (l r : ResourceTree) : Prop :=
  forall i ln rn, l !! i = Some ln -> r !! i = Some rn -> nd_parent ln = nd_parent rn.

(** ** Worklists

    A search over [kids] from [start] in which every node has one parent: it
    takes each node below [start] once, whatever the order of the list. *)

Section Worklist.
Context {A : Type} `{EqDecision A} (kids : A -> list A) (par : A -> option A) (D : list A) (P : A -> Prop) (start : A).

Inductive below : A -> Prop :=
| below_start : below start
| below_kid x c : below x -> c ∈ kids x -> below c.

Record work (dn q : list A) : Prop := {
  wk_nodup : NoDup (dn ++ q);
  wk_ok : forall c, c ∈ dn ++ q -> P c /\ c ∈ D /\ below c /\ (c = start \/ exists y, y ∈ dn /\ par c = Some y);
  wk_start : start ∈ dn ++ q;
  wk_closed : forall x c, x ∈ dn -> c ∈ kids x -> c ∈ dn ++ q;
}.

Context (start_P : P start) (start_D : start ∈ D).
Context (kids_ok : forall x c, P x -> c ∈ kids x -> P c /\ par c = Some x /\ c <> start /\ c ∈ D).
Context (kids_nodup : forall x, P x -> NoDup (kids x)).

Lemma work_init : work [] [start].
Proof using start_P start_D.
  split; cbn.
  - apply NoDup_singleton.
  - intros c ->%list_elem_of_singleton. repeat split; auto. constructor.
  - left.
  - intros x c Hx. by apply not_elem_of_nil in Hx.
Qed.

Lemma work_step dn x q q' : work dn (x :: q) -> q' ≡ₚ kids x ++ q -> work (dn ++ [x]) q'.
Proof using kids_ok kids_nodup.
  intros [Hnd Hok Hst Hcl] Hq. destruct (Hok x) as (HPx & _ & Hbx & _); [apply elem_of_app; right; left|].
  assert ((dn ++ [x]) ++ q' ≡ₚ kids x ++ (dn ++ x :: q)) as Hperm.
  { rewrite Hq, <- app_assoc. cbn. rewrite (Permutation_middle _ _ x), !app_assoc. f_equiv. apply Permutation_app_comm. }
  split.
  - rewrite Hperm. apply NoDup_app. split; [by apply kids_nodup|]. split; [|done].
    intros c Hc Hin. destruct (kids_ok x c HPx Hc) as (_ & Hp & Hne & _).
    destruct (Hok c Hin) as (_ & _ & _ & [?|(y & Hy & Hpy)]); [done|]. simplify_eq.
    apply NoDup_app in Hnd as (_ & Hnd & _). apply (Hnd _ Hy). left.
  - intros c Hc. rewrite Hperm in Hc. apply elem_of_app in Hc as [Hc|Hc].
    + destruct (kids_ok x c HPx Hc) as (HP & Hp & _ & HD). repeat split; [done|done|by econstructor|].
      right. exists x. split; [apply elem_of_app; right; left|done].
    + destruct (Hok c Hc) as (HP & HD & Hb & [?|(y & Hy & Hpy)]); repeat split; auto. right. exists y. split; [apply elem_of_app; by left|done].
  - rewrite Hperm. apply elem_of_app. by right.
  - intros y c Hy Hc. rewrite Hperm. apply elem_of_app. apply elem_of_app in Hy as [Hy| ->%list_elem_of_singleton]; [|by left].
    right. by apply (Hcl y c).
Qed.

Lemma work_length dn q : work dn q -> (length dn + length q <= length D)%nat.
Proof.
  intros [Hnd Hok _ _]. rewrite <- length_app. apply submseteq_length, NoDup_submseteq; [done|].
  intros c Hc. by apply Hok.
Qed.

Lemma work_done dn : work dn [] -> NoDup dn /\ forall c, c ∈ dn <-> below c.
Proof.
  intros [Hnd Hok Hst Hcl]. rewrite !app_nil_r in *. split; [done|]. intros c. split.
  - intros Hc. by apply Hok.
  - induction 1 as [|x c Hx IH Hc]; [done|]. by apply (Hcl x c).
Qed.

End Worklist.

(** ** The subtree of an added node *)

Definition tree_kids (t : ResourceTree) (x : ResourceId) : list ResourceId :=
  match t !! x with Some n => nd_children n | None => [] end.
Definition tree_par (t : ResourceTree) (x : ResourceId) : option ResourceId := t !! x ≫= nd_parent.
Definition tree_dom (t : ResourceTree) : list ResourceId := (map_to_list t).*1.

Lemma elem_of_tree_dom t i : i ∈ tree_dom t <-> is_Some (t !! i).
Proof. apply keys_of_elem. unfold keys_of, tree_dom. reflexivity. Qed.

Lemma length_tree_dom t : length (tree_dom t) = size t.
Proof. unfold tree_dom. by rewrite length_fmap, length_map_to_list. Qed.

Lemma tree_kids_spec depth t x c : tree_wf depth t -> c ∈ tree_kids t x ->
  is_Some (t !! x) /\ is_Some (t !! c) /\ tree_par t c = Some x /\ c <> rid_root /\ depth c = S (depth x).
Proof.
  intros Hwf. unfold tree_kids, tree_par. destruct (t !! x) as [xn|] eqn:Hx; [|by intros ?%not_elem_of_nil]. intros Hc.
  destruct (wf_child _ _ Hwf x xn c Hx Hc) as (cn & Hcn & Hp). destruct (wf_child_depth _ _ _ _ _ Hwf Hx Hc).
  rewrite Hcn. repeat split; [by eexists..|done|done|done].
Qed.

Lemma tree_kids_nodup depth t x : tree_wf depth t -> NoDup (tree_kids t x).
Proof. intros Hwf. unfold tree_kids. destruct (t !! x) eqn:E; [by eapply wf_nodup|constructor]. Qed.

(** A node is below the members of its path to the root. *)
Lemma below_path depth t id c l : tree_wf depth t -> up_path t c l -> below (tree_kids t) id c <-> id ∈ c :: l.
Proof.
  intros Hwf Hup. split.
  - intros Hb. revert l Hup. induction Hb as [|x c Hb IH Hc]; intros l Hup; [left|]. right.
    destruct (tree_kids_spec _ _ _ _ Hwf Hc) as (_ & _ & Hp & _). unfold tree_par in Hp.
    inversion Hup as [i n Hi Hn|i n p l' Hi Hn Hup']; subst; rewrite Hi in Hp; cbn in Hp; [congruence|]. simplify_eq. by apply IH.
  - induction Hup as [i n Hi Hp|i n p l Hi Hp Hup IH].
    + intros ->%list_elem_of_singleton. constructor.
    + intros [->|Hin]%elem_of_cons; [constructor|]. apply (below_kid _ _ p); [by apply IH|].
      assert (i <> rid_root) as Hne by (intros ->; destruct (wf_root _ _ Hwf) as (? & ? & ?); congruence).
      destruct (wf_parent _ _ Hwf i n Hi Hne) as (q & qn & Hq & Hqn & Hin' & _). unfold tree_kids. simplify_eq. by rewrite Hqn.
Qed.

(** The order in which [collect_subtree_added] takes the nodes *)
Fixpoint preorder (fuel : nat) (t : ResourceTree) (stack : list ResourceId) : list ResourceId :=
  match fuel, stack with
  | S fuel, x :: rest => x :: preorder fuel t (tree_kids t x ++ rest)
  | _, _ => []
  end.

Definition added_at (t : ResourceTree) (i : ResourceId) : list MerkleDiffEntry :=
  match t !! i with Some n => [added_entry t i n] | None => [] end.

Section Subtree.
Context (depth : ResourceId -> nat) (t : ResourceTree) (id : ResourceId) (wf : tree_wf depth t).

Definition in_subtree (x : ResourceId) : Prop := is_Some (t !! x) /\ (depth id <= depth x)%nat.
Abbreviation swork := (work (tree_kids t) (tree_par t) (tree_dom t) in_subtree id).

Lemma subtree_kids x c : in_subtree x -> c ∈ tree_kids t x ->
  in_subtree c /\ tree_par t c = Some x /\ c <> id /\ c ∈ tree_dom t.
Proof using wf.
  intros [_ Hd] Hc. destruct (tree_kids_spec _ _ _ _ wf Hc) as (_ & Hs & Hp & _ & Hdc).
  repeat split; [done|lia|done| |by apply elem_of_tree_dom]. intros ->. lia.
Qed.

Lemma collect_loop fuel dn stack es v :
  swork dn stack -> (size t < fuel + length dn)%nat ->
  swork (dn ++ preorder fuel t stack) [] /\
  collect_subtree_added fuel t stack es v
    = Some (es ++ (preorder fuel t stack ≫= added_at t), v + lenN (preorder fuel t stack)).
Proof using wf.
  revert dn stack es v. induction fuel as [|fuel IH]; intros dn stack es v Hw Hf.
  { pose proof (work_length _ _ _ _ _ _ _ Hw). rewrite length_tree_dom in *. lia. }
  destruct stack as [|x rest]; cbn [collect_subtree_added preorder].
  { rewrite app_nil_r. cbn. by rewrite app_nil_r, N.add_0_r. }
  assert (swork (dn ++ [x]) (tree_kids t x ++ rest)) as Hw'.
  { eapply work_step; [exact subtree_kids| |exact Hw|done]. intros y _. by eapply tree_kids_nodup. }
  destruct (wk_ok _ _ _ _ _ _ _ Hw x) as ([[n Hn] _] & _); [apply elem_of_app; right; left|].
  destruct (IH (dn ++ [x]) (tree_kids t x ++ rest) (es ++ [added_entry t x n]) (v + 1) Hw') as [Hd Hc].
  { rewrite length_app. cbn. lia. }
  rewrite <- app_assoc in Hd. split; [exact Hd|]. rewrite Hn.
  unfold tree_kids in *. rewrite Hn in *. rewrite Hc. do 2 f_equal.
  - rewrite <- app_assoc. do 2 f_equal. cbn. unfold added_at at 2. by rewrite Hn.
  - unfold lenN. cbn [length]. lia.
Qed.

(** The added subtree is every node below the one it starts at, once. *)
Lemma collect_subtree n es v : t !! id = Some n ->
  NoDup (preorder (S (size t)) t [id]) /\
  (forall c, c ∈ preorder (S (size t)) t [id] <-> below (tree_kids t) id c) /\
  collect_subtree_added (S (size t)) t [id] es v
    = Some (es ++ (preorder (S (size t)) t [id] ≫= added_at t), v + lenN (preorder (S (size t)) t [id])).
Proof using wf.
  intros Hn. destruct (collect_loop (S (size t)) [] [id] es v) as [Hd Hc].
  - apply work_init; [split; [by eexists|done]|]. apply elem_of_tree_dom. by eexists.
  - cbn. lia.
  - destruct (work_done _ _ _ _ _ _ Hd). auto.
Qed.

End Subtree.

(** ** The walk *)

Section Walk.
Context (json_eq : Json -> Json -> bool) (set_order : gset ResourceId -> list ResourceId).
Context (set_order_perm : forall X, set_order X ≡ₚ elements X).
Context (dl dr : ResourceId -> nat) (l r : ResourceTree).
Context (wfl : tree_wf dl l) (wfr : tree_wf dr r) (agree : same_parents l r).

Definition walk_kids (y : ResourceId) : list ResourceId :=
  match l !! y, r !! y with
  | Some ln, Some rn =>
      if bool_decide (nd_merkle_hash ln = nd_merkle_hash rn) then []
      else set_order (list_to_set (nd_children ln) ∪ list_to_set (nd_children rn))
  | None, Some rn => nd_children rn
  | _, None => []
  end.
Definition walk_par (c : ResourceId) : option ResourceId :=
  match l !! c with Some n => nd_parent n | None => tree_par r c end.
Definition in_either (x : ResourceId) : Prop := is_Some (l !! x) \/ is_Some (r !! x).
Abbreviation wwork := (work walk_kids walk_par (tree_dom l ++ tree_dom r) in_either rid_root).
Abbreviation visit := (below walk_kids rid_root).

(** What the walk emits at a node *)
Definition emit (y : ResourceId) : list MerkleDiffEntry :=
  match l !! y, r !! y with
  | Some ln, Some rn =>
      if bool_decide (nd_merkle_hash ln = nd_merkle_hash rn) then []
      else if content_diff json_eq ln (Some rn) then [modified_entry l y ln] else []
  | Some _, None => preorder (S (size l)) l [y] ≫= added_at l
  | None, Some _ => [removed_entry y]
  | None, None => []
  end.

Lemma in_either_dom x : x ∈ tree_dom l ++ tree_dom r <-> in_either x.
Proof. unfold in_either. by rewrite elem_of_app, !elem_of_tree_dom. Qed.

Lemma elem_of_set_order X c : c ∈ set_order X <-> c ∈ X.
Proof using set_order_perm. by rewrite set_order_perm, elem_of_elements. Qed.

Lemma walk_kids_from y c : c ∈ walk_kids y -> c ∈ tree_kids l y \/ c ∈ tree_kids r y.
Proof using set_order_perm.
  unfold walk_kids, tree_kids. destruct (l !! y), (r !! y); try (by intros ?%not_elem_of_nil); [|by right].
  case_bool_decide; [by intros ?%not_elem_of_nil|]. rewrite elem_of_set_order, elem_of_union, !elem_of_list_to_set. done.
Qed.

Lemma walk_kids_ok x c : in_either x -> c ∈ walk_kids x ->
  in_either c /\ walk_par c = Some x /\ c <> rid_root /\ c ∈ tree_dom l ++ tree_dom r.
Proof using set_order_perm wfl wfr agree.
  intros _ Hc. rewrite in_either_dom. unfold walk_par, in_either.
  destruct (walk_kids_from _ _ Hc) as [Hk|Hk].
  - destruct (tree_kids_spec _ _ _ _ wfl Hk) as (_ & Hs & Hp & Hne & _). unfold tree_par in Hp.
    destruct (l !! c) as [cn|] eqn:E; [|done]. cbn in Hp. auto.
  - destruct (tree_kids_spec _ _ _ _ wfr Hk) as (_ & Hs & Hp & Hne & _). repeat split; [by right| |done|by right].
    destruct (l !! c) as [cn|] eqn:E; [|done]. unfold tree_par in Hp. destruct (r !! c) as [rn|] eqn:E'; [|done].
    rewrite (agree c cn rn E E'). done.
Qed.

Lemma walk_kids_nodup x : in_either x -> NoDup (walk_kids x).
Proof using set_order_perm wfr.
  intros _. unfold walk_kids. destruct (l !! x), (r !! x) eqn:E; try constructor; [|by eapply wf_nodup].
  case_bool_decide; [constructor|]. rewrite set_order_perm. apply NoDup_elements.
Qed.

Lemma walk_length dn q : wwork dn q -> (length dn + length q <= size l + size r)%nat.
Proof. intros Hw. pose proof (work_length _ _ _ _ _ _ _ Hw) as H. by rewrite length_app, !length_tree_dom in H. Qed.

Lemma walk_loop fuel dn q (seen : gset ResourceId) es v :
  wwork dn q -> (forall x, x ∈ seen <-> x ∈ dn) -> (size l + size r < fuel + length dn)%nat ->
  exists more v', wwork (dn ++ more) [] /\
    diff_walk json_eq set_order fuel l (hash_map r) (Some r) q seen es v = Some (es ++ (more ≫= emit), v').
Proof using set_order_perm wfl wfr agree.
  revert dn q seen es v. induction fuel as [|fuel IH]; intros dn q seen es v Hw Hs Hf.
  { pose proof (walk_length _ _ Hw). lia. }
  destruct q as [|x q]; cbn [diff_walk].
  { exists [], v. rewrite !app_nil_r. done. }
  rewrite bool_decide_eq_false_2.
  2:{ rewrite Hs. intros Hx. pose proof (wk_nodup _ _ _ _ _ _ _ Hw) as (_ & Hnd & _)%NoDup_app. apply (Hnd x Hx). left. }
  assert (forall q' es' v', q' ≡ₚ walk_kids x ++ q -> es' = es ++ emit x ->
    exists more v'', wwork (dn ++ more) [] /\
      diff_walk json_eq set_order fuel l (hash_map r) (Some r) q' ({[x]} ∪ seen) es' v' = Some (es ++ (more ≫= emit), v'')) as Hstep.
  { intros q' es' v' Hq ->. pose proof (work_step _ _ _ _ _ walk_kids_ok walk_kids_nodup dn x q q' Hw Hq) as Hw'.
    destruct (IH (dn ++ [x]) q' ({[x]} ∪ seen) (es ++ emit x) v' Hw') as (more & v'' & Hd & Hres).
    - intros y. rewrite elem_of_union, elem_of_singleton, elem_of_app, list_elem_of_singleton, Hs. split; intros [?|?]; auto.
    - rewrite length_app. cbn. lia.
    - exists (x :: more), v''. rewrite <- app_assoc in Hd, Hres. done. }
  assert (hash_map r !! x = nd_merkle_hash <$> r !! x) as -> by apply lookup_fmap. cbn [mbind option_bind].
  pose proof (eq_refl (walk_kids x)) as Hk. unfold walk_kids at 2 in Hk. pose proof (eq_refl (emit x)) as He. unfold emit at 2 in He.
  destruct (l !! x) as [ln|] eqn:Hl, (r !! x) as [rn|] eqn:Hr; cbn [fmap option_fmap option_map]; rewrite Hk, He in Hstep; clear Hk He.
  - case_bool_decide; [apply Hstep; by rewrite ?app_nil_r|]. apply Hstep; [apply Permutation_app_comm|].
    destruct (content_diff json_eq ln (Some rn)); by rewrite ?app_nil_r.
  - destruct (collect_subtree dl l x wfl ln es (v + 1) Hl) as (_ & _ & ->). by apply Hstep.
  - apply Hstep; [apply Permutation_app_comm|done].
  - apply Hstep; by rewrite ?app_nil_r.
Qed.

Lemma walk_spec :
  exists ps v, NoDup ps /\ (forall c, c ∈ ps <-> visit c) /\
    diff_walk json_eq set_order (S (size l + size (hash_map r))) l (hash_map r) (Some r) [rid_root] ∅ [] 0 = Some (ps ≫= emit, v).
Proof using set_order_perm wfl wfr agree.
  destruct (wf_root _ _ wfl) as (rn & Hrn & _).
  destruct (walk_loop (S (size l + size (hash_map r))) [] [rid_root] ∅ [] 0) as (ps & v & Hd & Hres).
  - apply work_init; [|apply in_either_dom]; left; by eexists.
  - intros x. split; [by intros ?%elem_of_empty|by intros ?%not_elem_of_nil].
  - unfold hash_map. rewrite map_size_fmap. cbn. lia.
  - destruct (work_done _ _ _ _ _ _ Hd). by exists ps, v.
Qed.

(** *** What is visited *)

Definition hash_differs (a : ResourceId) : Prop :=
  exists ln rn, l !! a = Some ln /\ r !! a = Some rn /\ nd_merkle_hash ln <> nd_merkle_hash rn.

Lemma visit_in_either x : visit x -> in_either x.
Proof using set_order_perm wfl wfr agree.
  destruct (wf_root _ _ wfl) as (n & Hn & _).
  induction 1 as [|x c Hx IH Hc]; [left; by eexists|]. by apply (walk_kids_ok x c).
Qed.

(** Ancestors of a common path are common. *)
Lemma common_up i p a : up_path l i p -> is_Some (r !! i) -> a ∈ i :: p -> is_Some (r !! a).
Proof using wfr agree.
  intros Hup. revert a. induction Hup as [i n Hi Hp|i n p pth Hi Hp Hup IH]; intros a [rn Hr].
  - intros ->%list_elem_of_singleton. by eexists.
  - intros [->|Ha]%elem_of_cons; [by eexists|]. apply IH; [|done].
    assert (i <> rid_root) as Hne.
    { intros ->. destruct (wf_root _ _ wfr) as (rn' & Hrn' & Hp'). simplify_eq. pose proof (agree _ _ _ Hi Hr). congruence. }
    destruct (wf_parent _ _ wfr i rn Hr Hne) as (q & qn & Hq & Hqn & _).
    pose proof (agree _ _ _ Hi Hr). assert (q = p) as -> by congruence. by eexists.
Qed.

Lemma visit_parent i n p : l !! i = Some n -> nd_parent n = Some p -> visit i <-> visit p /\ hash_differs p.
Proof using set_order_perm wfl wfr agree.
  intros Hi Hp. assert (i <> rid_root) as Hne.
  { intros ->. destruct (wf_root _ _ wfl) as (rn' & Hrn' & Hp'). congruence. }
  destruct (wf_parent _ _ wfl i n Hi Hne) as (q & pn & Hq & Hpn & Hin & _). assert (q = p) as -> by congruence. split.
  - intros Hv. destruct Hv as [|x c Hx Hc]; [done|].
    destruct (walk_kids_ok x c (visit_in_either x Hx) Hc) as (_ & Hpar & _). unfold walk_par in Hpar. rewrite Hi in Hpar.
    assert (x = p) as -> by congruence. split; [done|]. unfold walk_kids in Hc. rewrite Hpn in Hc.
    destruct (r !! p) as [rn|] eqn:Hr; [|by apply not_elem_of_nil in Hc].
    case_bool_decide; [by apply not_elem_of_nil in Hc|]. by exists pn, rn.
  - intros [Hv (ln & rn & Hl & Hr & Hd)]. apply (below_kid _ _ p); [done|]. unfold walk_kids. rewrite Hl, Hr.
    rewrite bool_decide_eq_false_2 by done. simplify_eq. rewrite elem_of_set_order, elem_of_union, !elem_of_list_to_set. by left.
Qed.

Lemma visit_iff i p : up_path l i p -> visit i <-> forall a, a ∈ p -> hash_differs a.
Proof using set_order_perm wfl wfr agree.
  induction 1 as [i n Hi Hp|i n p pth Hi Hp Hup IH].
  - split; [by intros _ a ?%not_elem_of_nil|]. intros _. destruct (decide (i = rid_root)) as [->|Hne]; [constructor|].
    destruct (wf_parent _ _ wfl i n Hi Hne) as (? & ? & ? & _). congruence.
  - rewrite (visit_parent i n p Hi Hp), IH. split.
    + intros [Ha Hd] a [->|?]%elem_of_cons; auto.
    + intros Ha. split; [intros a Hin; apply Ha; by right|]. apply Ha. left.
Qed.

(** The root of the added subtree that an added path is in *)
Definition added_root (p : list ResourceId) (y : ResourceId) : Prop := y ∈ p /\ r !! y = None /\ visit y.

Lemma added_root_step i n p pth y :
  l !! i = Some n -> nd_parent n = Some p -> up_path l p pth -> r !! i = None ->
  added_root (i :: p :: pth) y <-> match r !! p with None => added_root (p :: pth) y | Some _ => y = i /\ visit i end.
Proof using set_order_perm wfl wfr agree.
  intros Hi Hp Hup Hr. unfold added_root. destruct (r !! p) as [pn|] eqn:Hrp.
  - split.
    + intros ([->|Hin]%elem_of_cons & Hy & Hv); [done|].
      destruct (common_up p pth y Hup ltac:(by eexists) Hin) as [? ?]. congruence.
    + intros [-> Hv]. split; [left|done].
  - split.
    + intros ([->|Hin]%elem_of_cons & Hy & Hv); [|done].
      apply (visit_parent i n p Hi Hp) in Hv as [_ (ln & rn & _ & ? & _)]. congruence.
    + intros (Hin & Hy & Hv). split; [by right|done].
Qed.

Lemma added_root_unique i p y y' : up_path l i p -> r !! i = None ->
  added_root (i :: p) y -> added_root (i :: p) y' -> y = y'.
Proof using set_order_perm wfl wfr agree.
  induction 1 as [i n Hi Hp|i n p pth Hi Hp Hup IH]; intros Hr.
  - unfold added_root. intros (->%list_elem_of_singleton & _) (->%list_elem_of_singleton & _). done.
  - rewrite !(added_root_step i n p pth) by done. destruct (r !! p) eqn:Hrp; [by intros [-> _] [-> _]|]. by apply IH.
Qed.

Lemma added_root_iff i p : up_path l i p -> r !! i = None ->
  (exists y, added_root (i :: p) y) <->
  forall a ln rn, a ∈ p -> l !! a = Some ln -> r !! a = Some rn -> nd_merkle_hash ln <> nd_merkle_hash rn.
Proof using set_order_perm wfl wfr agree.
  induction 1 as [i n Hi Hp|i n p pth Hi Hp Hup IH]; intros Hr.
  - destruct (decide (i = rid_root)) as [->|Hne].
    + destruct (wf_root _ _ wfr) as (? & ? & _). congruence.
    + destruct (wf_parent _ _ wfl i n Hi Hne) as (? & ? & ? & _). congruence.
  - setoid_rewrite (added_root_step i n p pth); [|done..]. destruct (r !! p) as [pn|] eqn:Hrp.
    + trans (visit i); [split; [by intros (y & -> & ?)|by exists i]|].
      rewrite (visit_iff i (p :: pth)) by (by econstructor). split.
      * intros Ha a ln rn Hin Hla Hra. destruct (Ha a Hin) as (? & ? & ? & ? & ?). congruence.
      * intros Ha a Hin. destruct (common_up p pth a Hup ltac:(by eexists) Hin) as [rn Hra].
        destruct (path_sorted dl l p pth wfl Hup) as (_ & _ & Hex & _). destruct (Hex a Hin) as [ln Hla].
        exists ln, rn. eauto.
    + rewrite IH by done. split.
      * intros Ha a ln rn [->|Hin]%elem_of_cons; [congruence|eauto].
      * intros Ha a ln rn Hin. apply Ha. by right.
Qed.

(** *** What is emitted *)

Lemma added_ids sub : (forall c, c ∈ sub -> is_Some (l !! c)) -> de_id <$> (sub ≫= added_at l) = sub.
Proof.
  induction sub as [|c sub IH]; intros H; [done|]. rewrite bind_cons, fmap_app.
  rewrite IH by (intros d Hd; apply H; by right). destruct (H c) as [n Hn]; [left|]. unfold added_at. by rewrite Hn.
Qed.

Lemma elem_of_added sub e : e ∈ sub ≫= added_at l <-> exists i n, i ∈ sub /\ l !! i = Some n /\ e = added_entry l i n.
Proof.
  rewrite list_elem_of_bind. unfold added_at. split.
  - intros (i & He & Hi). destruct (l !! i) as [n|] eqn:E; [|by apply not_elem_of_nil in He].
    apply list_elem_of_singleton in He as ->. eauto.
  - intros (i & n & Hi & Hn & ->). exists i. rewrite Hn. split; [by apply list_elem_of_singleton|done].
Qed.

Lemma elem_of_preorder y ln i p : l !! y = Some ln -> up_path l i p -> i ∈ preorder (S (size l)) l [y] <-> y ∈ i :: p.
Proof using wfl.
  intros Hy Hup. destruct (collect_subtree dl l y wfl ln [] 0 Hy) as (_ & Hb & _). by rewrite Hb, (below_path dl l y i p).
Qed.

Lemma preorder_exists y ln c : l !! y = Some ln -> c ∈ preorder (S (size l)) l [y] -> is_Some (l !! c).
Proof using wfl.
  intros Hy Hc. destruct (collect_subtree dl l y wfl ln [] 0 Hy) as (_ & Hb & _). apply Hb in Hc.
  destruct Hc as [|x c _ Hc]; [by eexists|]. by apply (tree_kids_spec dl l x c wfl).
Qed.

(** The id of an emitted entry tells the visited node it comes from. *)
Lemma emit_cases y e : visit y -> e ∈ emit y ->
  (de_id e = y /\ is_Some (r !! y)) \/
  (exists i n, de_id e = i /\ l !! i = Some n /\ r !! i = None /\ added_root (i :: ancestors l i) y).
Proof using set_order_perm wfl wfr agree.
  intros Hv. unfold emit. destruct (l !! y) as [ln|] eqn:Hl, (r !! y) as [rn|] eqn:Hr.
  - repeat case_match; try (by intros ?%not_elem_of_nil). intros ->%list_elem_of_singleton. left. eauto.
  - intros (i & n & Hin & Hn & ->)%elem_of_added. right. exists i, n. destruct (ancestors_path dl l i n wfl Hn) as [Hup _].
    apply (elem_of_preorder y ln i _ Hl Hup) in Hin. split_and!; [done|done| |by split].
    destruct (r !! i) eqn:Hri; [|done]. destruct (common_up i _ y Hup ltac:(by eexists) Hin). congruence.
  - intros ->%list_elem_of_singleton. left. eauto.
  - by intros ?%not_elem_of_nil.
Qed.

Lemma emit_nodup y : visit y -> NoDup (de_id <$> emit y).
Proof using wfl.
  intros Hv. unfold emit. destruct (l !! y) as [ln|] eqn:Hl, (r !! y) as [rn|] eqn:Hr; repeat case_match; try constructor;
    try apply not_elem_of_nil; try apply NoDup_nil_2.
  rewrite added_ids by (intros c; by apply (preorder_exists y ln)). by apply (collect_subtree dl l y wfl ln [] 0).
Qed.

Lemma emit_disjoint y y' e e' : visit y -> visit y' -> e ∈ emit y -> e' ∈ emit y' -> de_id e = de_id e' -> y = y'.
Proof using set_order_perm wfl wfr agree.
  intros Hv Hv' He He' Hid.
  destruct (emit_cases y e Hv He) as [[H1 [rn1 H2]]|(i & n & H1 & H2 & H3 & H4)], (emit_cases y' e' Hv' He') as [[H1' [rn2 H2']]|(i' & n' & H1' & H2' & H3' & H4')].
  - congruence.
  - simplify_eq. congruence.
  - simplify_eq. congruence.
  - assert (i' = i) as -> by congruence. destruct (ancestors_path dl l i n wfl H2) as [Hup _].
    by apply (added_root_unique i (ancestors l i)).
Qed.

Lemma walk_nodup ps : NoDup ps -> (forall y, y ∈ ps -> visit y) -> NoDup (de_id <$> (ps ≫= emit)).
Proof using set_order_perm wfl wfr agree.
  induction ps as [|y ps IH]; intros Hnd Hv; [constructor|]. apply NoDup_cons in Hnd as [Hy Hnd].
  rewrite bind_cons, fmap_app. apply NoDup_app. split; [apply emit_nodup, Hv; left|]. split.
  - intros i (e & -> & He)%list_elem_of_fmap (e' & Hid & (y' & He' & Hy')%list_elem_of_bind)%list_elem_of_fmap.
    assert (y = y') as -> by (eapply emit_disjoint; [apply Hv; left|apply Hv; right; exact Hy'|done|done|done]). done.
  - apply IH; [done|]. intros z Hz. apply Hv. by right.
Qed.

(** The walk finds the added and the modified paths of [diff_spec]; it finds
    some of the removed ones. *)
Lemma differs_above_spec i : differs_above l r i = true <->
  forall a ln rn, a ∈ ancestors l i -> l !! a = Some ln -> r !! a = Some rn -> nd_merkle_hash ln <> nd_merkle_hash rn.
Proof.
  unfold differs_above. rewrite forallb_forall. setoid_rewrite <- list_elem_of_In. split.
  - intros H a ln rn Ha Hl Hr. specialize (H a Ha). rewrite Hl, Hr in H. by case_bool_decide.
  - intros H a Ha. destruct (l !! a) eqn:El, (r !! a) eqn:Er; try done. rewrite bool_decide_eq_false_2; [done|]. by eapply H.
Qed.

Lemma common_visit i ln rn : l !! i = Some ln -> r !! i = Some rn -> visit i <-> differs_above l r i = true.
Proof using set_order_perm wfl wfr agree.
  intros Hl Hr. destruct (ancestors_path dl l i ln wfl Hl) as [Hup _]. rewrite (visit_iff i _ Hup), differs_above_spec. split.
  - intros H a an rn' Ha Hla Hra. destruct (H a Ha) as (? & ? & ? & ? & ?). congruence.
  - intros H a Ha. destruct (path_sorted dl l i _ wfl Hup) as (_ & _ & Hex & _). destruct (Hex a) as [an Hla]; [by right|].
    destruct (common_up i _ a Hup ltac:(by eexists)) as [rn' Hra]; [by right|]. exists an, rn'. eauto.
Qed.

Lemma walk_emits e : root_hash l <> root_hash r -> de_diff_kind e <> Removed ->
  (exists y, visit y /\ e ∈ emit y) <-> diff_spec json_eq l r (de_id e) = Some e.
Proof using set_order_perm wfl wfr agree.
  intros Hroot Hk. unfold diff_spec. rewrite bool_decide_eq_false_2 by done. split.
  - intros (y & Hv & He). destruct (emit_cases y e Hv He) as [[Hid [rn Hr]]|(i & n & Hid & Hl & Hr & Hroot')]; rewrite Hid, Hr.
    + unfold emit in He. rewrite Hr in He. destruct (l !! y) as [ln|] eqn:Hl; [|by apply list_elem_of_singleton in He as ->].
      pose proof (proj1 (common_visit y ln rn Hl Hr) Hv) as ->.
      case_bool_decide; [by apply not_elem_of_nil in He|]. cbn [negb andb].
      destruct (content_diff json_eq ln (Some rn)); [|by apply not_elem_of_nil in He]. by apply list_elem_of_singleton in He as ->.
    + rewrite Hl. destruct (ancestors_path dl l i n wfl Hl) as [Hup _].
      assert (differs_above l r i = true) as ->. { apply differs_above_spec, (added_root_iff i _ Hup Hr). eauto. }
      destruct Hroot' as (_ & Hry & _). unfold emit in He. rewrite Hry in He.
      destruct (l !! y) as [yn|]; [|by apply not_elem_of_nil in He].
      apply elem_of_added in He as (i' & n' & _ & Hn' & ->). cbn in Hid. simplify_eq. done.
  - destruct (l !! de_id e) as [ln|] eqn:Hl, (r !! de_id e) as [rn|] eqn:Hr.
    + case_bool_decide; [done|]. cbn [negb andb]. destruct (differs_above l r (de_id e)) eqn:Hd; [|done].
      destruct (content_diff json_eq ln (Some rn)) eqn:Hc; [|done]. intros [= He]. exists (de_id e).
      rewrite (common_visit _ ln rn Hl Hr). split; [done|]. unfold emit. rewrite Hl, Hr, bool_decide_eq_false_2 by done.
      rewrite Hc, He. left.
    + destruct (differs_above l r (de_id e)) eqn:Hd; [|done]. intros [= He].
      destruct (ancestors_path dl l _ ln wfl Hl) as [Hup _].
      rewrite differs_above_spec, <- (added_root_iff _ _ Hup Hr) in Hd. destruct Hd as (y & Hin & Hy & Hv). exists y. split; [done|].
      unfold emit. rewrite Hy. destruct (path_sorted dl l _ _ wfl Hup) as (_ & _ & Hex & _). destruct (Hex y Hin) as [yn Hyn].
      rewrite Hyn. apply elem_of_added. exists (de_id e), ln. split_and!; [|done|done]. by apply (elem_of_preorder y yn _ _ Hyn Hup).
    + intros [= He]. by rewrite <- He in Hk.
    + done.
Qed.

Lemma emit_removed y e : e ∈ emit y -> de_diff_kind e = Removed -> l !! de_id e = None /\ is_Some (r !! de_id e) /\ e = removed_entry (de_id e).
Proof.
  unfold emit. destruct (l !! y) as [ln|] eqn:Hl, (r !! y) as [rn|] eqn:Hr.
  - repeat case_match; try (by intros ?%not_elem_of_nil). by intros ->%list_elem_of_singleton.
  - by intros (i & n & _ & _ & ->)%elem_of_added.
  - intros ->%list_elem_of_singleton. cbn. rewrite Hl, Hr. eauto.
  - by intros ?%not_elem_of_nil.
Qed.

End Walk.

Lemma sweep_spec t keys es v : NoDup keys ->
  exists v', sweep_removed t keys es v
    = (es ++ (removed_entry <$> filter (fun k => ~ is_Some (t !! k) /\ k ∉ de_id <$> es) keys), v').
Proof.
  revert es v. induction keys as [|k keys IH]; intros es v Hnd; [exists v; cbn; by rewrite app_nil_r|].
  apply NoDup_cons in Hnd as [Hk Hnd]. unfold sweep_removed in *. cbn [foldl]. rewrite filter_cons.
  destruct (t !! k) as [n|] eqn:Ht.
  { destruct (IH es v Hnd) as [v' Hv']. exists v'. rewrite Hv', decide_False; [done|]. intros [[] _]. by eexists. }
  destruct (existsb (fun e => String.eqb (de_id e) k) es) eqn:He.
  { destruct (IH es v Hnd) as [v' Hv']. exists v'. rewrite Hv', decide_False; [done|]. intros [_ []].
    apply existsb_exists in He as (e & Hin & <-%String.eqb_eq). apply list_elem_of_fmap_2. by apply list_elem_of_In. }
  destruct (IH (es ++ [removed_entry k]) (v + 1) Hnd) as [v' Hv']. exists v'. rewrite Hv', decide_True.
  - f_equal. rewrite <- app_assoc, fmap_cons. do 3 f_equal. apply list_filter_iff_elem. intros k' Hk'.
    rewrite fmap_app, elem_of_app. cbn. rewrite list_elem_of_singleton.
    split; intros [? Hn]; (split; [done|]); intros Hor; apply Hn; [by left|]. destruct Hor as [?| ->]; done.
  - split; [by intros [? ?]|]. intros (e & -> & Hin)%list_elem_of_fmap. apply Bool.not_true_iff_false in He. apply He.
    apply existsb_exists. exists e. split; [by apply list_elem_of_In|]. apply String.eqb_refl.
Qed.

(** The walk and the sweep together report what [diff_spec] asks for. *)
Lemma entries_exact json_eq set_order (Hset : forall X, set_order X ≡ₚ elements X) dl dr l r
    (Hl : tree_wf dl l) (Hr : tree_wf dr r) (Hag : same_parents l r) ps keys e :
  root_hash l <> root_hash r -> (forall c, c ∈ ps <-> below (walk_kids set_order l r) rid_root c) ->
  keys ≡ₚ (map_to_list (hash_map r)).*1 ->
  e ∈ (ps ≫= emit json_eq l r) ++
      (removed_entry <$> filter (fun k => ~ is_Some (l !! k) /\ k ∉ de_id <$> (ps ≫= emit json_eq l r)) keys) <->
  diff_spec json_eq l r (de_id e) = Some e.
Proof.
  intros Hroot Hps Hkeys. pose proof (fun e => walk_emits json_eq set_order Hset dl dr l r Hl Hr Hag e Hroot) as Hwalk.
  assert (forall k, k ∈ keys <-> is_Some (r !! k)) as Hk.
  { intros k. rewrite Hkeys, <- fmap_is_Some with (f := nd_merkle_hash), <- lookup_fmap. apply elem_of_map_keys. }
  assert (e ∈ ps ≫= emit json_eq l r <-> exists y, below (walk_kids set_order l r) rid_root y /\ e ∈ emit json_eq l r y) as Hin.
  { rewrite list_elem_of_bind. setoid_rewrite Hps. split; intros (y & ? & ?); eauto. }
  rewrite elem_of_app, list_elem_of_fmap. setoid_rewrite list_elem_of_filter. setoid_rewrite Hk.
  destruct (decide (de_diff_kind e = Removed)) as [Hrem|Hrem].
  2:{ rewrite Hin, (Hwalk e Hrem). split; [intros [?|(k & -> & _)]; done|by left]. }
  unfold diff_spec at 1. rewrite bool_decide_eq_false_2 by done. split.
  - intros [(y & _ & He)%Hin|(k & -> & [Hn _] & [rn Hrn])].
    + destruct (emit_removed json_eq l r y e He Hrem) as (-> & [rn ->] & ->). done.
    + cbn. rewrite Hrn. destruct (l !! k); [|done]. destruct Hn. by eexists.
  - destruct (l !! de_id e) as [ln|] eqn:El.
    { intros Hsp. repeat case_match; try done; injection Hsp as Hsp; by rewrite <- Hsp in Hrem. }
    destruct (r !! de_id e) as [rn|] eqn:Er; [|done]. intros [= He].
    destruct (decide (de_id e ∈ de_id <$> (ps ≫= emit json_eq l r))) as [Hd|Hd].
    + apply list_elem_of_fmap in Hd as (e' & Hid & (y & He' & Hy)%list_elem_of_bind). left.
      destruct (decide (de_diff_kind e' = Removed)) as [Hrem'|Hrem'].
      * destruct (emit_removed json_eq l r y e' He' Hrem') as (_ & _ & E'). rewrite <- Hid, He in E'. subst e'.
        apply list_elem_of_bind. eauto.
      * assert (diff_spec json_eq l r (de_id e') = Some e') as Hs by (apply (Hwalk e' Hrem'); exists y; by rewrite <- Hps).
        unfold diff_spec in Hs. rewrite bool_decide_eq_false_2, <- Hid, El, Er in Hs by done. by simplify_eq.
    + right. exists (de_id e). split_and!; [done| |done|by eexists]. rewrite El. by intros [? ?].
Qed.

(** C16: The difference of two trees is computed exactly.  For two
    well-formed trees in which common paths hang in the same place, in
    whatever order sets and maps are iterated, the walk ends, and it reports
    each path at most once: as removed if only the remote tree has it; as added
    if only the local tree has it, and as modified if both have it with
    different hash and content, provided every common ancestor hashes
    differently on the two sides; and nothing else.  The trees count as in sync
    exactly when their root hashes are equal, and then nothing is reported. *)
Theorem diff_exact json_eq set_order key_order dl dr l r :
  (forall X, set_order X ≡ₚ elements X) -> (forall m, key_order m ≡ₚ (map_to_list m).*1) ->
  tree_wf dl l -> tree_wf dr r -> same_parents l r ->
  exists d, merkle_diff json_eq set_order key_order l r = Some d /\
    in_sync d = bool_decide (root_hash l = root_hash r) /\
    NoDup (de_id <$> df_entries d) /\
    forall e, e ∈ df_entries d <-> diff_spec json_eq l r (de_id e) = Some e.
Proof.
  intros Hset Hkey Hl Hr Hag. unfold merkle_diff, merkle_diff_against_hashes.
  destruct (wf_root _ _ Hr) as (rn & Hrn & _).
  assert (hash_map r !! rid_root = Some (root_hash r)) as Hroot.
  { unfold hash_map, root_hash. by rewrite lookup_fmap, Hrn. }
  rewrite Hroot. cbn [default]. rewrite (bool_decide_eq_true_2 (is_Some _)) by (by eexists). rewrite andb_true_r.
  case_bool_decide as Heq.
  { eexists. split; [done|]. unfold in_sync. cbn. rewrite bool_decide_eq_true_2 by done. split_and!; [done|constructor|].
    intros e. unfold diff_spec. rewrite bool_decide_eq_true_2 by done. split; [by intros ?%not_elem_of_nil|done]. }
  destruct (walk_spec json_eq set_order Hset dl dr l r Hl Hr Hag) as (ps & v & Hnd & Hps & ->).
  assert (NoDup (key_order (hash_map r))) as Hkn by (rewrite Hkey; apply NoDup_fst_map_to_list).
  destruct (sweep_spec l (key_order (hash_map r)) (ps ≫= emit json_eq l r) v Hkn) as [v' ->].
  eexists. split; [done|]. cbn [df_entries]. split_and!.
  - unfold in_sync. cbn. by rewrite bool_decide_eq_false_2.
  - rewrite fmap_app, <- list_fmap_compose. apply NoDup_app. split_and!.
    + apply (walk_nodup json_eq set_order Hset dl dr l r Hl Hr Hag ps Hnd). intros y. by apply Hps.
    + intros i Hi (k & -> & [[_ Hk] _]%list_elem_of_filter)%list_elem_of_fmap. done.
    + replace (de_id ∘ removed_entry) with (@id ResourceId) by done. rewrite list_fmap_id. by apply NoDup_filter.
  - intros e. by apply (entries_exact json_eq set_order Hset dl dr l r Hl Hr Hag).
Qed.

(** A renaming is invisible: a hash covers neither the path nor the kind of a
    node, so that two trees that differ in the name and the kind of a leaf have
    equal root hashes and count as in sync. *)
Theorem rename_not_seen shake256 render json_eq set_order key_order :
  let base := tree_new 0 in
  let l := fst (recompute_path shake256 render (fst (insert base 1 "/a" KApp "/")) "/a") in
  let r := fst (recompute_path shake256 render (fst (insert base 1 "/b" KTool "/")) "/b") in
  is_Some (l !! "/a") /\ r !! "/a" = None /\
  in_sync <$> merkle_diff json_eq set_order key_order l r = Some true.
Proof.
  intros base l r. split; [vm_compute; by eexists|]. split; [by vm_compute|].
  assert (root_hash l = root_hash r) as E by (vm_compute; reflexivity).
  assert (hash_map r !! rid_root = Some (root_hash r)) as Hr.
  { unfold hash_map, root_hash. rewrite lookup_fmap. destruct (r !! rid_root) eqn:Er; [done|vm_compute in Er; discriminate]. }
  unfold merkle_diff, merkle_diff_against_hashes. rewrite Hr. cbn [default].
  rewrite (bool_decide_eq_true_2 (is_Some _)), (bool_decide_eq_true_2 (root_hash l = _)) by (done || by eexists).
  unfold in_sync. cbn. by rewrite bool_decide_eq_true_2.
Qed.

(** ** Witnesses *)

Definition toy_base : ResourceTree := recompute_all toy_digest toy_render (tree_keys (tree_new 0)) (tree_new 0).

Lemma toy_base_wf : tree_wf (fun _ => 0%nat) toy_base.
Proof. eapply wf_same_links; [apply same_shape_links, foldl_refresh_shape|apply wf_new]. Qed.

Lemma diff_exact_witness :
  exists d, merkle_diff (fun _ _ => true) elements (fun m => (map_to_list m).*1) toy_right toy_base = Some d /\
    in_sync d = false /\ exists e, e ∈ df_entries d /\ de_id e = "/apps" /\ de_diff_kind e = Added.
Proof.
  destruct (diff_exact (fun _ _ => true) elements (fun m => (map_to_list m).*1) toy_depth (fun _ => 0%nat) toy_right toy_base)
    as (d & Hd & Hs & _ & He).
  - intros X. reflexivity.
  - intros m. reflexivity.
  - apply toy_right_wf.
  - apply toy_base_wf.
  - intros i ln rn Hl Hr. assert (i = "/") as ->.
    { destruct (same_links_lookup (tree_new 0) toy_base i rn) as (n & Hn & _); [|done|].
      - apply same_shape_links, foldl_refresh_shape.
      - unfold tree_new in Hn. by apply lookup_singleton_Some in Hn as [<- _]. }
    vm_compute in Hl. vm_compute in Hr. injection Hl as <-. injection Hr as <-. reflexivity.
  - exists d. split; [exact Hd|]. split; [rewrite Hs; vm_compute; reflexivity|].
    destruct (diff_spec (fun _ _ => true) toy_right toy_base "/apps") as [e|] eqn:E; [|vm_compute in E; discriminate E].
    exists e. assert (de_id e = "/apps" /\ de_diff_kind e = Added) as [E1 E2] by (vm_compute in E; injection E as <-; split; reflexivity).
    split; [apply He; rewrite E1; exact E|]. split; [exact E1|exact E2].
Defined.
