(* ===== verification/TreeManager.v ===== *)
(** The tree manager: crates/clawft-kernel/src/tree_manager.rs, the facade that
    keeps the resource tree, the mutation log of
    crates/exo-resource-tree/src/mutation.rs and the audit chain in step, and
    crates/clawft-kernel/src/mesh_tree.rs, the messages of tree
    synchronisation.

    The code of other crates is the class [TreeEnv], next to [Ed25519].  An
    operation that reads the clock takes a [Tick] with the instants it reads.
    The locks are not modelled: every operation runs to its end. *)

From Stdlib Require Import Strings.String.
From Stdlib Require Import Floats.SpecFloat.
From S2P Require Import Prelude.
From S2P Require Import Codec.
From S2P Require Import Chain.
From S2P Require Import Process.
From S2P Require Import Capability.
From S2P Require Import Governance.
From S2P Require Import Delegation.
From S2P Require Import Scoring.
From S2P Require Import Tree.
From S2P Require Import TreeDiff.
Open Scope N_scope.

(** SHAKE-256 and SHA-256; [Value::to_string], [serde_json::to_vec],
    [from_slice] and the equality of values; the (de)serialisation of nodes;
    [Debug] of a string and [Display] of a signature error; the iteration
    orders of the hash maps and sets. *)
Class TreeEnv := {
  shake256 : bytes -> bytes;
  sha256 : bytes -> bytes;
  render : Json -> bytes;
  to_vec : Json -> bytes;
  from_slice : bytes -> option Json;
  json_eq : Json -> Json -> bool;
  ser_nodes : list ResourceNode -> result bytes string;
  de_nodes : bytes -> result (list ResourceNode) string;
  dbg_str : string -> string;
  sig_error : string;
  node_order : ResourceTree -> list ResourceId;
  set_order : gset ResourceId -> list ResourceId;
  key_order : gmap ResourceId bytes -> list ResourceId;
}.

(** What the manager relies on: every member is yielded once, and a value
    equals itself. *)
Class TreeEnvLaws `{TreeEnv} : Prop := {
  node_order_perm t : node_order t ≡ₚ (map_to_list t).*1;
  set_order_perm X : set_order X ≡ₚ elements X;
  key_order_perm m : key_order m ≡ₚ (map_to_list m).*1;
  json_eq_refl v : json_eq v v = true;
}.

(** ** Mutations: mutation.rs *)

Inductive MutationEvent :=
| MCreate (id : ResourceId) (kind : ResourceKind) (parent : ResourceId) (timestamp : Z) (signature : option bytes)
| MRemove (id : ResourceId) (timestamp : Z) (signature : option bytes)
| MUpdateMeta (id : ResourceId) (key : string) (value : option Json) (timestamp : Z) (signature : option bytes)
| MMove (id old_parent new_parent : ResourceId) (timestamp : Z) (signature : option bytes)
| MUpdateScoring (id : ResourceId) (old new : NodeScoring) (timestamp : Z) (signature : option bytes).

(** [MutationLog] is its list of events, oldest first. *)
Abbreviation MutationLog := (list MutationEvent).

(** The resource an event is about *)
Definition mutation_id (ev : MutationEvent) : ResourceId :=
  match ev with
  | MCreate id _ _ _ _ | MRemove id _ _ | MUpdateMeta id _ _ _ _ | MMove id _ _ _ _ | MUpdateScoring id _ _ _ _ => id
  end.

(** ** Errors: the boxed errors of the manager, with the [Display] of error.rs *)

Inductive MgrError :=
| TreeErr (e : TreeError)
| Msg (s : string).

Definition tree_error_display (e : TreeError) : string :=
  match e with
  | NotFound id => "resource not found: " +:+ id
  | AlreadyExists id => "resource already exists: " +:+ id
  | ParentNotFound p => "parent not found: " +:+ p
  | NotEmpty id n => "cannot remove non-empty node: " +:+ id +:+ " has " +:+ pretty n +:+ " children"
  | InvalidPath reason => "invalid path: " +:+ reason
  | Checkpoint msg => "checkpoint error: " +:+ msg
  end.

Definition mgr_error_display (e : MgrError) : string :=
  match e with TreeErr e => tree_error_display e | Msg s => s end.

(** ** State *)

(** The instants and the rule hash one operation reads: for the node, for a
    timestamp in its metadata, for the chain event, for the checkpoint the
    append may make, for the log. *)
Record Tick := mkTick {
  tk_node : Z;
  tk_meta : Z;
  tk_chain : Z;
  tk_check : Z;
  tk_stamp : option bytes;
  tk_log : Z;
}.

Record TreeStats := mkTreeStats { ts_node_count : N; ts_mutation_count : N; ts_root_hash : string }.

Record TreeNodeSnapshot := mkNodeSnapshot {
  sn_path : string;
  sn_kind : string;
  sn_metadata : gmap string string;
  sn_hash : string;
}.

Record TreeSnapshot := mkTreeSnapshot {
  ss_root_hash : string;
  ss_node_count : N;
  ss_nodes : list TreeNodeSnapshot;
  ss_taken_at : Z;
}.

(** mesh_tree.rs *)
Inductive TreeDiffType := TDAdded | TDModified | TDRemoved.

Record TreeNodeDiff := mkNodeDiff {
  nf_path : string;
  nf_kind : string;
  nf_hash : string;
  nf_metadata : gmap string string;
  nf_chain_seq : option N;
  nf_diff_type : TreeDiffType;
}.

Record TreeSyncResponse := mkSyncResponse {
  sr_remote_root_hash : string;
  sr_in_sync : bool;
  sr_diff_nodes : list TreeNodeDiff;
  sr_deleted_paths : list string;
}.

Record MerkleProof := mkMerkleProof {
  mp_path : string;
  mp_node_hash : string;
  mp_sibling_hashes : list string;
  mp_root_hash : string;
}.

Inductive TreeSyncAction := InSync | FullPull | FullPush | IncrementalSync.

(** [compare_tree_roots] *)
Definition compare_tree_roots (local_hash remote_hash : string) : TreeSyncAction :=
  if String.eqb local_hash remote_hash then InSync
  else if String.eqb local_hash "" then FullPull
  else if String.eqb remote_hash "" then FullPush
  else IncrementalSync.

(** [hex_hash] *)
Definition hex_hash (h : bytes) : string := string_of_list_byte (hex_encode h).

(** [MerkleProof::verify], [MerkleProof::from_inclusion] *)
Definition wire_proof_verify (p : MerkleProof) : bool :=
  negb (String.eqb (mp_path p) "") && negb (String.eqb (mp_node_hash p) "") && negb (String.eqb (mp_root_hash p) "").

Definition from_inclusion (p : MerkleInclusionProof) : MerkleProof :=
  mkMerkleProof (pf_path p) (hex_hash (pf_node_hash p))
    (pf_levels p ≫= fun level => map hex_hash (lv_child_hashes_sorted level)) (hex_hash (pf_root_hash p)).

(** [Value::from(f32)]: a number that is not finite becomes [null]. *)
Definition json_f32 (f : f32) : Json :=
  match f with
  | S754_zero s => JFloat (S754_zero s)
  | S754_finite s m e => JFloat (binary_normalize 53 1024 (if s then Zneg m else Zpos m) e s)
  | _ => JNull
  end.

Definition scoring_json (s : NodeScoring) : Json := JArr (map json_f32 (Score.as_array s)).

Definition del_meta (key : string) (n : ResourceNode) : ResourceNode :=
  mkNode (nd_id n) (nd_kind n) (nd_parent n) (nd_children n) (delete key (nd_metadata n)) (nd_merkle_hash n)
    (nd_scoring n) (nd_created_at n) (nd_updated_at n) (nd_rbac_policies n) (nd_delegation_certs n) (nd_dirty n).

(** The fields [apply_merkle_diff_verified] takes from a payload *)
Definition set_payload (p : DiffNodePayload) (n : ResourceNode) : ResourceNode :=
  mkNode (nd_id n) (dp_kind p) (nd_parent n) (nd_children n) (dp_metadata p) (nd_merkle_hash n)
    (dp_scoring p) (nd_created_at n) (nd_updated_at n) (nd_rbac_policies n) (nd_delegation_certs n) (nd_dirty n).

(** ** Tools: wasm_runner/types.rs *)

Inductive ToolCategory := CFilesystem | CAgent | CSystem | CEcc | CUser.

Record BuiltinToolSpec := mkToolSpec {
  sp_name : string;
  sp_category : ToolCategory;
  sp_description : string;
  sp_parameters : Json;
  sp_gate_action : string;
  sp_effect : EffectVector;
  sp_native : bool;
}.

Record ToolVersion := mkToolVersion {
  tv_version : N;
  tv_module_hash : bytes;
  tv_signature : bytes;
  tv_deployed_at : Z;
  tv_revoked : bool;
  tv_chain_seq : N;
}.

(** What precedes and follows the first dot ([splitn(2, '.')]) and the last
    one ([rsplit('.')]) *)
Fixpoint split_dot (s : string) : option (string * string) :=
  match s with
  | EmptyString => None
  | String a s =>
      if Ascii.eqb a "."%char then Some (EmptyString, s)
      else match split_dot s with Some (p, q) => Some (String a p, q) | None => None end
  end.

Fixpoint rsplit_dot (s : string) : option (string * string) :=
  match s with
  | EmptyString => None
  | String a s =>
      match rsplit_dot s with
      | Some (p, q) => Some (String a p, q)
      | None => if Ascii.eqb a "."%char then Some (EmptyString, s) else None
      end
  end.

Definition short_name (s : string) : string := match rsplit_dot s with Some (_, q) => q | None => s end.

Definition category_dir (c : ToolCategory) : string :=
  match c with CFilesystem => "fs" | CAgent => "agent" | CSystem => "sys" | CEcc => "ecc" | CUser => "user" end.

(** [?] on an operation that changes the manager *)
Notation "'let!' m := c 'in' k" :=
  (match c with (m, Ok _) => k | (m, Err e) => (m, Err e) end)
  (at level 10, m name, c at level 100, k at level 200) : rust_scope.

Module Tm.
Section Manager.
Context `{ED : Ed25519} `{TE : TreeEnv}.

Record TreeManager := mkTm {
  tree : ResourceTree;
  mutation_log : MutationLog;
  chain : LocalChain;
  signing_key : option SigningKey;
}.

Definition set_tree (t : ResourceTree) (m : TreeManager) : TreeManager := mkTm t (mutation_log m) (chain m) (signing_key m).
Definition log_append (ev : MutationEvent) (m : TreeManager) : TreeManager :=
  mkTm (tree m) (mutation_log m ++ [ev]) (chain m) (signing_key m).

(** [TreeManager::new], [set_signing_key] *)
Definition new (now : Z) (c : LocalChain) : TreeManager := mkTm (tree_new now) [] c None.
Definition set_signing_key (k : SigningKey) (m : TreeManager) : TreeManager :=
  mkTm (tree m) (mutation_log m) (chain m) (Some k).

(** [self.chain.append] *)
Definition append (k : Tick) (m : TreeManager) (source kind : string) (payload : Json) : TreeManager * ChainEvent :=
  let '(c, ev) := local_append shake256 to_vec (chain m) (tk_chain k) (tk_check k) (tk_stamp k) source kind (Some payload) in
  (mkTm (tree m) (mutation_log m) c (signing_key m), ev).

(** [sign_bytes], [mutation_canonical_bytes], [mutation_signature] *)
Definition sign_bytes (m : TreeManager) (data : bytes) : option bytes :=
  if signs_project_domain data then None else (fun k => ed_sign k data) <$> signing_key m.

Definition mutation_canonical_bytes (operation path : string) (timestamp : Z) : bytes :=
  str_bytes (operation +:+ "|" +:+ path +:+ "|" +:+ to_rfc3339 timestamp).

Definition mutation_signature (m : TreeManager) (operation path : string) (timestamp : Z) : option bytes :=
  sign_bytes m (mutation_canonical_bytes operation path timestamp).

(** [mutation_sign_parts], [verify_mutation_signature] *)
Definition mutation_sign_parts (ev : MutationEvent) : string * string * Z * option bytes :=
  match ev with
  | MCreate id _ _ ts sig => ("create", id, ts, sig)
  | MRemove id ts sig => ("remove", id, ts, sig)
  | MUpdateMeta id _ _ ts sig => ("update_meta", id, ts, sig)
  | MMove id _ _ ts sig => ("move", id, ts, sig)
  | MUpdateScoring id _ _ ts sig => ("update_scoring", id, ts, sig)
  end.

Definition verify_mutation_signature (ev : MutationEvent) (pubkey : VerifyingKey) : result unit MgrError :=
  let '(op, path, ts, sig_opt) := mutation_sign_parts ev in
  match sig_opt with
  | None => Err (Msg "mutation event has no signature")
  | Some sig =>
      if negb (length sig =? 64)%nat then
        Err (Msg ("mutation signature length " +:+ pretty (lenN sig) +:+ ", expected 64"))
      else if ed_verify pubkey (mutation_canonical_bytes op path ts) sig then Ok tt
      else Err (Msg ("mutation signature verify failed: " +:+ sig_error))
  end.

(** [format!("{kind:?}")] *)
Definition kind_debug (k : ResourceKind) : string :=
  match k with
  | KNamespace => "Namespace" | KService => "Service" | KAgent => "Agent" | KDevice => "Device" | KTopic => "Topic"
  | KContainer => "Container" | KApp => "App" | KTool => "Tool" | KEnvironment => "Environment"
  | KCustom s => "Custom(" +:+ dbg_str s +:+ ")"
  end.

(** [bootstrap]; [times] are the clock readings of its loop *)
Definition bootstrapped_paths : list string :=
  ["/kernel"; "/kernel/services"; "/kernel/processes"; "/kernel/agents"; "/network"; "/network/peers"; "/apps"; "/environments"].

Definition bootstrap_event (m : TreeManager) (times : nat -> Z) (i : nat) (path : string) : MutationEvent :=
  MCreate path KNamespace (default rid_root (parent path)) (times i) (mutation_signature m "create" path (times i)).

Definition bootstrap (k : Tick) (times : nat -> Z) (m : TreeManager) : TreeManager * result unit MgrError :=
  match insert_all (tree m) (tk_node k) WELL_KNOWN with
  | (t, Err e) => (set_tree t m, Err (TreeErr e))
  | (t, Ok _) =>
      let t := recompute_all shake256 render (node_order t) t in
      let m := mkTm t (mutation_log m ++ imap (bootstrap_event m times) bootstrapped_paths) (chain m) (signing_key m) in
      let '(m, _) := append k m "tree" "bootstrap" (JObj [("node_count", json_num (len t)); ("root_hash", JStr (hex_hash (root_hash t)))]) in
      (m, Ok tt)
  end.

(** [insert] *)
Definition insert (k : Tick) (id : ResourceId) (kind : ResourceKind) (parent : ResourceId) (m : TreeManager)
    : TreeManager * result unit MgrError :=
  match Tree.insert (tree m) (tk_node k) id kind parent with
  | (t, Err e) => (set_tree t m, Err (TreeErr e))
  | (t, Ok _) =>
      let '(m, ev) := append k (set_tree t m) "tree" "insert"
                        (JObj [("path", JStr id); ("kind", JStr (kind_debug kind)); ("parent", JStr parent)]) in
      let t := get_mut (tree m) id (set_meta "chain_seq" (json_num (ce_sequence ev))) in
      let t := fst (recompute_path shake256 render t id) in
      (log_append (MCreate id kind parent (tk_log k) (mutation_signature m "create" id (tk_log k))) (set_tree t m), Ok tt)
  end.

(** [remove] *)
Definition remove (k : Tick) (id : ResourceId) (m : TreeManager) : TreeManager * result unit MgrError :=
  match Tree.remove (tree m) id with
  | (t, Err e) => (set_tree t m, Err (TreeErr e))
  | (t, Ok removed) =>
      let t := match nd_parent removed with
               | Some p => fst (recompute_path shake256 render t p)
               | None => t
               end in
      let '(m, _) := append k (set_tree t m) "tree" "remove" (JObj [("path", JStr id)]) in
      (log_append (MRemove id (tk_log k) (mutation_signature m "remove" id (tk_log k))) m, Ok tt)
  end.

(** [update_meta] *)
Definition update_meta (k : Tick) (id : ResourceId) (key : string) (value : Json) (m : TreeManager)
    : TreeManager * result unit MgrError :=
  match tree m !! id with
  | None => (m, Err (Msg ("node not found: " +:+ id)))
  | Some _ =>
      let t := get_mut (tree m) id (fun n => set_updated (tk_node k) (set_meta key value n)) in
      let t := fst (recompute_path shake256 render t id) in
      let '(m, _) := append k (set_tree t m) "tree" "update_meta" (JObj [("path", JStr id); ("key", JStr key)]) in
      (log_append (MUpdateMeta id key (Some value) (tk_log k) (mutation_signature m "update_meta" id (tk_log k))) m, Ok tt)
  end.

(** [register_service], [register_service_with_manifest] *)
Definition register_service (k : Tick) (name : string) (m : TreeManager) : TreeManager * result unit MgrError :=
  insert k ("/kernel/services/" +:+ name) KService "/kernel/services" m.

Definition register_service_with_manifest (k k' : Tick) (name service_type : string) (m : TreeManager)
    : TreeManager * result unit MgrError :=
  let! m := register_service k name m in
  let '(m, _) := append k' m "service" "service.manifest"
                   (JObj [("name", JStr name); ("service_type", JStr service_type);
                          ("tree_path", JStr ("/kernel/services/" +:+ name));
                          ("registered_at", JStr (to_rfc3339 (tk_meta k')))]) in
  (m, Ok tt).

(** [register_agent] *)
Definition agent_path (agent_id : string) : ResourceId := "/kernel/agents/" +:+ agent_id.

Definition agent_meta (k : Tick) (pid : N) (caps : AgentCapabilities) (n : ResourceNode) : ResourceNode :=
  set_meta "can_exec_tools" (JBool (can_exec_tools caps))
    (set_meta "can_ipc" (JBool (can_ipc caps))
       (set_meta "can_spawn" (JBool (can_spawn caps))
          (set_meta "spawn_time" (JStr (to_rfc3339 (tk_meta k)))
             (set_meta "state" (JStr "starting")
                (set_meta "pid" (json_num pid) n))))).

Definition register_agent (k : Tick) (agent_id : string) (pid : N) (caps : AgentCapabilities) (m : TreeManager)
    : TreeManager * result unit MgrError :=
  let rid := agent_path agent_id in
  match Tree.insert (tree m) (tk_node k) rid KAgent "/kernel/agents" with
  | (t, Err e) => (set_tree t m, Err (TreeErr e))
  | (t, Ok _) =>
      let t := get_mut t rid (agent_meta k pid caps) in
      let t := fst (recompute_path shake256 render t rid) in
      let '(m, ev) := append k (set_tree t m) "agent" "agent.spawn"
        (JObj [("agent_id", JStr agent_id); ("pid", json_num pid);
               ("capabilities", JObj [("can_spawn", JBool (can_spawn caps)); ("can_ipc", JBool (can_ipc caps));
                                      ("can_exec_tools", JBool (can_exec_tools caps)); ("can_network", JBool (can_network caps))])]) in
      let t := get_mut (tree m) rid (set_meta "chain_seq" (json_num (ce_sequence ev))) in
      (log_append (MCreate rid KAgent "/kernel/agents" (tk_log k) (mutation_signature m "create" rid (tk_log k))) (set_tree t m), Ok tt)
  end.

(** [unregister_agent], [update_agent_state] *)
Definition unregister_agent (k : Tick) (agent_id : string) (pid : N) (exit_code : Z) (m : TreeManager)
    : TreeManager * result unit MgrError :=
  let rid := agent_path agent_id in
  let t := get_mut (tree m) rid (fun n =>
             set_updated (tk_node k)
               (set_meta "stop_time" (JStr (to_rfc3339 (tk_meta k)))
                  (set_meta "exit_code" (JNum exit_code) (set_meta "state" (JStr "exited") n)))) in
  let t := fst (recompute_path shake256 render t rid) in
  let '(m, _) := append k (set_tree t m) "agent" "agent.stop"
                   (JObj [("agent_id", JStr agent_id); ("pid", json_num pid); ("exit_code", JNum exit_code)]) in
  (log_append (MUpdateMeta rid "state" (Some (JStr "exited")) (tk_log k) (mutation_signature m "update_meta" rid (tk_log k))) m, Ok tt).

Definition update_agent_state (k : Tick) (agent_id state : string) (m : TreeManager) : TreeManager * result unit MgrError :=
  update_meta k (agent_path agent_id) "state" (JStr state) m.

(** [stats], [get_scoring] *)
Definition stats (m : TreeManager) : TreeStats :=
  mkTreeStats (len (tree m)) (lenN (mutation_log m)) (hex_hash (root_hash (tree m))).
Definition get_scoring (m : TreeManager) (id : ResourceId) : option NodeScoring := nd_scoring <$> tree m !! id.

(** [update_scoring], [blend_scoring] *)
Definition update_scoring (k : Tick) (id : ResourceId) (scoring : NodeScoring) (m : TreeManager)
    : TreeManager * result unit MgrError :=
  match Tree.update_scoring shake256 render (tree m) (tk_node k) id scoring with
  | (t, None) => (set_tree t m, Err (Msg ("node not found: " +:+ id)))
  | (t, Some old) =>
      let '(m, _) := append k (set_tree t m) "scoring" "scoring.update"
                       (JObj [("path", JStr id); ("old", scoring_json old); ("new", scoring_json scoring)]) in
      (log_append (MUpdateScoring id old scoring (tk_log k) (mutation_signature m "update_scoring" id (tk_log k))) m, Ok tt)
  end.

Definition blend_scoring (k : Tick) (id : ResourceId) (observation : NodeScoring) (alpha : f32) (m : TreeManager)
    : TreeManager * result unit MgrError :=
  match tree m !! id with
  | None => (m, Err (Msg ("node not found: " +:+ id)))
  | Some node =>
      let old := nd_scoring node in
      let t := fst (Tree.blend_scoring shake256 render (tree m) (tk_node k) id observation alpha) in
      match t !! id with
      | None => (set_tree t m, Err (Msg ("node not found: " +:+ id)))
      | Some node =>
          let new := nd_scoring node in
          let '(m, _) := append k (set_tree t m) "scoring" "scoring.blend"
                           (JObj [("path", JStr id); ("alpha", json_f32 alpha); ("old", scoring_json old); ("new", scoring_json new)]) in
          (log_append (MUpdateScoring id old new (tk_log k) (mutation_signature m "update_scoring" id (tk_log k))) m, Ok tt)
      end
  end.

(** *** Checkpoints *)

(** [exo_resource_tree::to_checkpoint], [from_checkpoint] *)
Definition to_checkpoint (t : ResourceTree) : result bytes TreeError :=
  match ser_nodes (omap (fun i => t !! i) (node_order t)) with
  | Ok data => Ok data
  | Err e => Err (Checkpoint ("failed to serialize: " +:+ e))
  end.

Definition from_nodes (nodes : list ResourceNode) : ResourceTree :=
  foldl (fun t n => <[nd_id n := n]> t) ∅ nodes.

Definition from_checkpoint (data : bytes) : result ResourceTree TreeError :=
  match de_nodes data with
  | Err e => Err (Checkpoint ("failed to deserialize: " +:+ e))
  | Ok [] => Err (Checkpoint "checkpoint is empty")
  | Ok nodes => Ok (from_nodes nodes)
  end.

(** [save_checkpoint] up to the file it writes, [load_checkpoint] from the
    file it reads *)
Definition save_checkpoint (m : TreeManager) : result bytes MgrError :=
  match to_checkpoint (tree m) with Ok data => Ok data | Err e => Err (TreeErr e) end.

Definition load_checkpoint (data : bytes) (m : TreeManager) : TreeManager * result unit MgrError :=
  match from_checkpoint data with
  | Err e => (m, Err (TreeErr e))
  | Ok restored => (mkTm restored [] (chain m) (signing_key m), Ok tt)
  end.

(** [checkpoint] *)
Definition checkpoint (k : Tick) (m : TreeManager) : TreeManager * result Json MgrError :=
  match to_checkpoint (tree m) with
  | Err e => (m, Err (TreeErr e))
  | Ok tree_data =>
      let '(c, cp) := create_checkpoint (chain m) (tk_meta k) in
      let root := JStr (hex_hash (root_hash (tree m))) in
      let doc := JObj [("tree", default JNull (from_slice tree_data)); ("mutation_count", json_num (lenN (mutation_log m)));
                       ("chain_checkpoint", JObj [("chain_id", json_num (cp_chain_id cp)); ("sequence", json_num (cp_sequence cp));
                                                  ("timestamp", JStr (to_rfc3339 (cp_timestamp cp)))]);
                       ("root_hash", root)] in
      let '(m, _) := append k (mkTm (tree m) (mutation_log m) c (signing_key m)) "tree" "checkpoint"
                       (JObj [("root_hash", root); ("chain_seq", json_num (cp_sequence cp))]) in
      (m, Ok doc)
  end.

(** *** Synchronisation *)

(** [v.to_string()] over a metadata map *)
Definition render_metadata (md : gmap string Json) : gmap string string := (fun v => string_of_list_byte (render v)) <$> md.

(** [snapshot] *)
Definition snapshot (now : Z) (m : TreeManager) : TreeSnapshot :=
  mkTreeSnapshot (hex_hash (root_hash (tree m))) (len (tree m))
    (omap (fun i => (fun n => mkNodeSnapshot i (kind_debug (nd_kind n)) (render_metadata (nd_metadata n)) (hex_hash (nd_merkle_hash n)))
                      <$> tree m !! i) (node_order (tree m))) now.

(** [mutation_event_eq] *)
Definition opt_json_eq (a b : option Json) : bool :=
  match a, b with Some v, Some w => json_eq v w | None, None => true | _, _ => false end.

Definition mutation_event_eq (a b : MutationEvent) : bool :=
  match a, b with
  | MCreate i k p t _, MCreate i' k' p' t' _ =>
      String.eqb i i' && bool_decide (k = k') && String.eqb p p' && (t =? t')%Z
  | MRemove i t _, MRemove i' t' _ => String.eqb i i' && (t =? t')%Z
  | MUpdateMeta i k v t _, MUpdateMeta i' k' v' t' _ =>
      String.eqb i i' && String.eqb k k' && opt_json_eq v v' && (t =? t')%Z
  | _, _ => false
  end.

(** The [match] of [apply_remote_mutation_inner], on the tree *)
Definition apply_mutation (now : Z) (ev : MutationEvent) (t : ResourceTree) : ResourceTree * result unit MgrError :=
  match ev with
  | MCreate id kind parent _ _ =>
      match t !! id with
      | Some _ => (t, Ok tt)
      | None =>
          match Tree.insert t now id kind parent with
          | (t, Err e) => (t, Err (TreeErr e))
          | (t, Ok _) => (fst (recompute_path shake256 render t id), Ok tt)
          end
      end
  | MRemove id _ _ =>
      match t !! id with
      | None => (t, Ok tt)
      | Some _ =>
          match Tree.remove t id with
          | (t, Err e) => (t, Err (TreeErr e))
          | (t, Ok removed) =>
              (match nd_parent removed with Some p => fst (recompute_path shake256 render t p) | None => t end, Ok tt)
          end
      end
  | MUpdateMeta id key value _ _ =>
      let t := get_mut t id (fun n => set_updated now (match value with Some v => set_meta key v n | None => del_meta key n end)) in
      (fst (recompute_path shake256 render t id), Ok tt)
  | MUpdateScoring id _ new _ _ =>
      match t !! id with
      | Some _ => (fst (Tree.update_scoring shake256 render t now id new), Ok tt)
      | None => (t, Ok tt)
      end
  | MMove _ _ _ _ _ => (t, Ok tt)
  end.

(** [apply_remote_mutation] and its checked variant *)
Definition apply_remote_mutation_inner (now : Z) (ev : MutationEvent) (m : TreeManager) : TreeManager * result unit MgrError :=
  if match last (mutation_log m) with Some e => mutation_event_eq e ev | None => false end
  then (m, Err (Msg "mutation replay rejected: exact duplicate of last event"))
  else
    match apply_mutation now ev (tree m) with
    | (t, Err e) => (set_tree t m, Err e)
    | (t, Ok _) => (log_append ev (set_tree t m), Ok tt)
    end.

Definition apply_remote_mutation (now : Z) (ev : MutationEvent) (m : TreeManager) : TreeManager * result unit MgrError :=
  apply_remote_mutation_inner now ev m.

Definition apply_remote_mutation_verified (now : Z) (ev : MutationEvent) (peer_pubkey : VerifyingKey) (m : TreeManager)
    : TreeManager * result unit MgrError :=
  match verify_mutation_signature ev peer_pubkey with
  | Err e => (m, Err e)
  | Ok _ => apply_remote_mutation_inner now ev m
  end.

(** [merkle_diff], [merkle_proof], [verify_merkle_proof] *)
Definition merkle_diff (m other : TreeManager) : option MerkleDiff :=
  TreeDiff.merkle_diff json_eq set_order key_order (tree m) (tree other).
Definition merkle_proof (m : TreeManager) (id : ResourceId) : option MerkleInclusionProof := Tree.merkle_proof render (tree m) id.
Definition verify_merkle_proof (m : TreeManager) (p : MerkleInclusionProof) : bool := Tree.verify_proof shake256 (tree m) p.

(** [signed_events_for_diff] *)
Definition signed_events_for_diff (diff : MerkleDiff) (m : TreeManager) : list MutationEvent :=
  let paths : gset string := list_to_set (map de_id (df_entries diff)) in
  filter (fun ev => mutation_id ev ∈ paths) (mutation_log m).

(** The first loop of [apply_merkle_diff_verified] *)
Fixpoint apply_events (now : Z) (events : list MutationEvent) (peer_pubkey : VerifyingKey) (applied : N) (m : TreeManager)
    : TreeManager * result N MgrError :=
  match events with
  | [] => (m, Ok applied)
  | ev :: events =>
      if existsb (fun e => mutation_event_eq e ev) (mutation_log m) then apply_events now events peer_pubkey applied m
      else match apply_remote_mutation_verified now ev peer_pubkey m with
           | (m, Ok _) => apply_events now events peer_pubkey (applied + 1) m
           | (m, Err e) =>
               if contains "replay" (mgr_error_display e) then apply_events now events peer_pubkey applied m
               else (m, Err e)
           end
  end.

(** The second loop: one entry of the difference *)
Definition reconcile_entry (now : Z) (t : ResourceTree) (entry : MerkleDiffEntry) : ResourceTree :=
  match de_node entry with
  | None => t
  | Some payload =>
      if bool_decide (de_diff_kind entry = Removed) then t
      else
        let t := match t !! dp_id payload, dp_parent payload with
                 | None, Some parent => fst (Tree.insert t now (dp_id payload) (dp_kind payload) parent)
                 | _, _ => t
                 end in
        let t := get_mut t (dp_id payload) (set_payload payload) in
        fst (recompute_path shake256 render t (dp_id payload))
  end.

(** [apply_merkle_diff_verified] *)
Definition apply_merkle_diff_verified (now : Z) (diff : MerkleDiff) (signed_events : list MutationEvent)
    (peer_pubkey : VerifyingKey) (m : TreeManager) : TreeManager * result N MgrError :=
  if in_sync diff then (m, Ok 0)
  else match apply_events now signed_events peer_pubkey 0 m with
       | (m, Err e) => (m, Err e)
       | (m, Ok applied) => (set_tree (foldl (reconcile_entry now) (tree m) (df_entries diff)) m, Ok applied)
       end.

(** [tree_sync_response_from_diff] *)
Definition chain_seq_of (md : gmap string Json) : option N := md !! "chain_seq" ≫= json_as_u64.

Definition entry_diff (m : TreeManager) (entry : MerkleDiffEntry) : option TreeNodeDiff :=
  let diff_type := match de_diff_kind entry with Added => TDAdded | Modified => TDModified | Removed => TDRemoved end in
  match de_node entry with
  | Some p =>
      Some (mkNodeDiff (de_id entry) (kind_debug (dp_kind p)) (hex_hash (dp_merkle_hash p)) (render_metadata (dp_metadata p))
              (chain_seq_of (dp_metadata p)) diff_type)
  | None =>
      (fun n => mkNodeDiff (de_id entry) (kind_debug (nd_kind n)) (hex_hash (nd_merkle_hash n)) (render_metadata (nd_metadata n))
                  (chain_seq_of (nd_metadata n)) diff_type) <$> tree m !! de_id entry
  end.

Definition tree_sync_response_from_diff (diff : MerkleDiff) (m : TreeManager) : TreeSyncResponse :=
  mkSyncResponse (hex_hash (df_local_root diff)) (in_sync diff)
    (omap (entry_diff m) (filter (fun e => de_diff_kind e <> Removed) (df_entries diff)))
    (map de_id (filter (fun e => de_diff_kind e = Removed) (df_entries diff))).

(** *** The life of a tool *)

(** [build_tool] *)
Definition build_tool (k : Tick) (name : string) (wasm_bytes : bytes) (key : SigningKey) (m : TreeManager)
    : TreeManager * ToolVersion :=
  let module_hash := sha256 wasm_bytes in
  let sig := ed_sign key module_hash in
  let '(m, ev) := append k m "tool" "tool.build"
                    (JObj [("name", JStr name); ("module_hash", JStr (hex_hash module_hash)); ("sig_algo", JStr "Ed25519")]) in
  (m, mkToolVersion 1 module_hash sig (tk_meta k) false (ce_sequence ev)).

(** An element of the version history *)
Definition version_json (v : ToolVersion) : Json :=
  JObj [("version", json_num (tv_version v)); ("module_hash", JStr (hex_hash (tv_module_hash v)));
        ("deployed_at", JStr (to_rfc3339 (tv_deployed_at v))); ("revoked", JBool (tv_revoked v)); ("chain_seq", json_num (tv_chain_seq v))].

(** [deploy_tool]; [ks] are the ticks of its steps *)
Definition deploy_tool (ks : nat -> Tick) (spec : BuiltinToolSpec) (v : ToolVersion) (m : TreeManager)
    : TreeManager * result unit MgrError :=
  let cat := category_dir (sp_category spec) in
  let cat_path := "/kernel/tools/" +:+ cat in
  let! m := match tree m !! cat_path with
            | None => insert (ks 0%nat) cat_path KNamespace "/kernel/tools" m
            | Some _ => (m, Ok tt)
            end in
  let tool_path := "/kernel/tools/" +:+ cat +:+ "/" +:+ short_name (sp_name spec) in
  let! m := insert (ks 1%nat) tool_path KTool cat_path m in
  let! m := update_meta (ks 2%nat) tool_path "tool_version" (json_num (tv_version v)) m in
  let! m := update_meta (ks 3%nat) tool_path "module_hash" (JStr (hex_hash (tv_module_hash v))) m in
  let! m := update_meta (ks 4%nat) tool_path "gate_action" (JStr (sp_gate_action spec)) m in
  let! m := update_meta (ks 5%nat) tool_path "deployed_at" (JStr (to_rfc3339 (tv_deployed_at v))) m in
  let! m := update_meta (ks 6%nat) tool_path "versions" (JArr [version_json v]) m in
  let '(m, _) := append (ks 7%nat) m "tool" "tool.deploy"
                   (JObj [("name", JStr (sp_name spec)); ("version", json_num (tv_version v)); ("tree_path", JStr tool_path);
                          ("module_hash", JStr (hex_hash (tv_module_hash v))); ("gate_action", JStr (sp_gate_action spec))]) in
  (m, Ok tt).

(** The path [update_tool_version], [revoke_tool_version] and
    [get_tool_versions] look under *)
Definition tool_path_of (name : string) : option ResourceId :=
  (fun pq => "/kernel/tools/" +:+ pq.1 +:+ "/" +:+ pq.2) <$> split_dot name.

(** [serde_json::from_value::<Vec<Value>>] *)
Definition json_as_array (v : Json) : option (list Json) := match v with JArr l => Some l | _ => None end.
Definition meta_versions (n : ResourceNode) : list Json := default [] (nd_metadata n !! "versions" ≫= json_as_array).
Definition meta_hash (n : ResourceNode) : string := default "" (nd_metadata n !! "module_hash" ≫= json_as_str).

(** [update_tool_version] *)
Definition update_tool_version (ks : nat -> Tick) (name : string) (v : ToolVersion) (m : TreeManager)
    : TreeManager * result unit MgrError :=
  match tool_path_of name with
  | None => (m, Err (Msg ("invalid tool name: " +:+ name)))
  | Some tool_path =>
      match tree m !! tool_path with
      | None => (m, Err (Msg ("tool not found: " +:+ tool_path)))
      | Some node =>
          let old_version := default 0 (nd_metadata node !! "tool_version" ≫= json_as_u64) mod u32_mod in
          let old_hash := meta_hash node in
          let! m := update_meta (ks 0%nat) tool_path "tool_version" (json_num (tv_version v)) m in
          let! m := update_meta (ks 1%nat) tool_path "module_hash" (JStr (hex_hash (tv_module_hash v))) m in
          let! m := update_meta (ks 2%nat) tool_path "deployed_at" (JStr (to_rfc3339 (tv_deployed_at v))) m in
          match tree m !! tool_path with
          | None => (m, Err (Msg ("tool not found: " +:+ tool_path)))
          | Some node =>
              let! m := update_meta (ks 3%nat) tool_path "versions" (JArr (meta_versions node ++ [version_json v])) m in
              let '(m, _) := append (ks 4%nat) m "tool" "tool.version.update"
                (JObj [("name", JStr name); ("old_version", json_num old_version); ("new_version", json_num (tv_version v));
                       ("old_hash", JStr old_hash); ("new_hash", JStr (hex_hash (tv_module_hash v)))]) in
              (m, Ok tt)
          end
      end
  end.

(** [revoke_tool_version] *)
Definition revoke_tool_version (ks : nat -> Tick) (name : string) (version : N) (m : TreeManager)
    : TreeManager * result unit MgrError :=
  match tool_path_of name with
  | None => (m, Err (Msg ("invalid tool name: " +:+ name)))
  | Some tool_path =>
      match tree m !! tool_path with
      | None => (m, Err (Msg ("tool not found: " +:+ tool_path)))
      | Some _ =>
          let! m := update_meta (ks 0%nat) tool_path ("v" +:+ pretty version +:+ "_revoked") (JBool true) m in
          let! m := update_meta (ks 1%nat) tool_path ("v" +:+ pretty version +:+ "_revoked_at") (JStr (to_rfc3339 (tk_meta (ks 1%nat)))) m in
          let module_hash := default "" (meta_hash <$> tree m !! tool_path) in
          let '(m, _) := append (ks 2%nat) m "tool" "tool.version.revoke"
                           (JObj [("name", JStr name); ("version", json_num version); ("module_hash", JStr module_hash)]) in
          (m, Ok tt)
      end
  end.

(** [get_tool_versions] *)
Definition get_tool_versions (name : string) (m : TreeManager) : list Json :=
  match tool_path_of name with
  | None => []
  | Some tool_path => default [] (meta_versions <$> tree m !! tool_path)
  end.

End Manager.
End Tm.

(** ** The invariant of the tree under the manager *)

Section ManagerTree.
Context `{ED : Ed25519} `{TE : TreeEnv}.
Abbreviation hash_right := (hash_ok shake256 render).
Abbreviation repath := (recompute_path_inner shake256 render).

Lemma append_eq k m source kind payload :
  Tm.append k m source kind payload =
  (Tm.mkTm (Tm.tree m) (Tm.mutation_log m)
     (local_append shake256 to_vec (Tm.chain m) (tk_chain k) (tk_check k) (tk_stamp k) source kind (Some payload)).1 (Tm.signing_key m),
   (local_append shake256 to_vec (Tm.chain m) (tk_chain k) (tk_check k) (tk_stamp k) source kind (Some payload)).2).
Proof. unfold Tm.append. by destruct (local_append _ _ _ _ _ _ _ _ _). Qed.

(** A childless agent node may carry a stale hash; nothing else. *)
Definition agent_leaf (i : ResourceId) (n : ResourceNode) : Prop :=
  String.prefix "/kernel/agents/" i = true /\ nd_children n = [].

Record tree_inv (t : ResourceTree) : Prop := {
  ti_wf : exists depth, tree_wf depth t;
  ti_path : forall i n, t !! i = Some n -> starts_with "/" i = true;
  ti_hash : forall i n, t !! i = Some n -> hash_right t n \/ agent_leaf i n;
}.

Lemma inv_path t t' x b : tree_inv t -> local_change shake256 render t t' x ->
  (forall i n, t' !! i = Some n -> starts_with "/" i = true) -> tree_inv (fst (repath t' x b)).
Proof.
  intros [_ _ Hh] Hlc Hp. pose proof (recompute_path_inner_shape shake256 render t' x b) as Hsh. split.
  - destruct (lc_wf _ _ _ _ _ Hlc) as [depth Hwf]. exists depth. by eapply wf_same_links; [apply same_shape_links|].
  - intros i n Hi. specialize (Hsh i). rewrite Hi in Hsh. destruct (t' !! i) as [n'|] eqn:E; [by eapply Hp|done].
  - intros i n Hi. destruct (change_path_stale _ _ _ _ _ _ _ _ Hlc Hi) as [?|(n0 & Hn0 & Hno & [= _ _ _ Ec _])]; [by left|].
    destruct (Hh i n0 Hn0) as [?|[??]]; [done|]. right. split; [done|congruence].
Qed.

Lemma inv_edit t x f b : tree_inv t -> (forall n, links (f n) = links n) -> tree_inv (fst (repath (get_mut t x f) x b)).
Proof.
  intros Hinv Hf. destruct (ti_wf t Hinv) as [depth Hwf]. destruct (t !! x) as [n|] eqn:Hx.
  - apply (inv_path t); [done| |].
    + apply (mutation_local_change _ _ depth); [done|]. by apply mut_edit; [eexists|].
    + intros i m Hi. destruct (same_links_lookup _ _ _ _ (same_links_alter t x f Hf) Hi) as (m0 & Hm0 & _). by eapply ti_path.
  - assert (get_mut t x f = t) as ->.
    { apply map_eq. intros j. unfold get_mut. rewrite lookup_alter. case_decide; [subst; by rewrite Hx|done]. }
    unfold recompute_path_inner. by rewrite Hx.
Qed.

Lemma inv_insert t now id kind p t' f b : tree_inv t -> Tree.insert t now id kind p = (t', Ok tt) ->
  (forall n, links (f n) = links n) -> tree_inv (fst (repath (get_mut t' id f) id b)).
Proof.
  intros Hinv Hins Hf. destruct (ti_wf t Hinv) as [depth Hwf]. apply (inv_path t); [done| |].
  - apply local_change_edit; [done|]. apply (mutation_local_change _ _ depth); [done|]. by eapply mut_insert.
  - intros i m Hi. destruct (same_links_lookup _ _ _ _ (same_links_alter t' id f Hf) Hi) as (m0 & Hm0 & _).
    assert (starts_with "/" id = true) as Hid. { unfold Tree.insert in Hins. by destruct (starts_with "/" id). }
    apply insert_ok in Hins as (-> & Hnew & pn & Hpn).
    destruct (inserted_lookup _ _ _ _ _ _ _ _ Hnew Hpn Hm0) as [[-> _]|[[-> _]|(_ & _ & ?)]]; [done|by eapply ti_path..].
Qed.

Lemma inv_remove t id n t' : tree_inv t -> Tree.remove t id = (t', Ok n) ->
  tree_inv (match nd_parent n with Some p => fst (recompute_path shake256 render t' p) | None => t' end).
Proof.
  intros Hinv Hr. destruct (ti_wf t Hinv) as [depth Hwf].
  pose proof (remove_ok _ _ _ _ depth Hwf Hr) as (_ & Hid & _ & q & qn & Hq & Hqn & Hne & ->). rewrite Hq. apply (inv_path t); [done| |].
  - apply (mutation_local_change _ _ depth); [done|]. by eapply mut_remove.
  - intros i m Hi. rewrite lookup_alter in Hi. case_decide; subst.
    + by apply (ti_path t Hinv i qn).
    + apply lookup_delete_Some in Hi as [_ Hi]. by eapply ti_path.
Qed.

(** Writing to a childless agent without a recomputation *)
Lemma inv_touch_agent t x n f : tree_inv t -> t !! x = Some n -> agent_leaf x n ->
  (forall n, links (f n) = links n) -> (forall n, summary (f n) = summary n) -> tree_inv (get_mut t x f).
Proof.
  intros [[depth Hwf] Hp Hh] Hx [Hpre Hleaf] Hf Hs. split.
  - exists depth. by eapply wf_same_links; [apply same_links_alter|].
  - intros i m Hi. destruct (same_links_lookup _ _ _ _ (same_links_alter t x f Hf) Hi) as (m0 & Hm0 & _). by eapply Hp.
  - intros i m Hi. unfold get_mut in Hi. rewrite lookup_alter in Hi. case_decide as Hd; [subst i|].
    + right. split; [done|]. rewrite Hx in Hi. cbn in Hi. simplify_eq. specialize (Hf n). unfold links in Hf. congruence.
    + destruct (Hh i m Hi) as [Hok|?]; [left|by right]. unfold hash_ok, node_hash in *. rewrite Hok. f_equal.
      apply child_hashes_ext; [done|]. intros c _. symmetry. by apply summary_fields, summary_alter.
Qed.

(** *** The operations *)

Lemma insert_inv k id kind p m : tree_inv (Tm.tree m) -> tree_inv (Tm.tree (Tm.insert k id kind p m).1).
Proof.
  intros Hinv. unfold Tm.insert. destruct (Tree.insert _ _ _ _ _) as [t [[]|e]] eqn:E.
  - rewrite append_eq. cbn. by eapply inv_insert.
  - apply insert_err in E as ->. done.
Qed.

Lemma remove_inv k id m : tree_inv (Tm.tree m) -> tree_inv (Tm.tree (Tm.remove k id m).1).
Proof.
  intros Hinv. unfold Tm.remove. destruct (Tree.remove _ _) as [t [n|e]] eqn:E.
  - rewrite append_eq. cbn. by eapply inv_remove.
  - apply remove_err in E as ->. done.
Qed.

Lemma update_meta_inv k id key v m : tree_inv (Tm.tree m) -> tree_inv (Tm.tree (Tm.update_meta k id key v m).1).
Proof.
  intros Hinv. unfold Tm.update_meta. destruct (Tm.tree m !! id); [|done]. rewrite append_eq. cbn. by apply inv_edit.
Qed.

Lemma agent_meta_links k pid caps n : links (Tm.agent_meta k pid caps n) = links n.
Proof. done. Qed.

Lemma register_agent_inv k a pid caps m : tree_inv (Tm.tree m) -> tree_inv (Tm.tree (Tm.register_agent k a pid caps m).1).
Proof.
  intros Hinv. unfold Tm.register_agent. destruct (Tree.insert _ _ _ _ _) as [t [[]|e]] eqn:E.
  2:{ apply insert_err in E as ->. done. }
  rewrite append_eq. cbn [fst snd Tm.log_append Tm.set_tree Tm.tree].
  pose proof (inv_insert _ _ _ _ _ _ (Tm.agent_meta k pid caps) true Hinv E (agent_meta_links k pid caps)) as Hinv'.
  pose proof E as (-> & Hnew & pn & Hpn)%insert_ok.
  pose proof (recompute_path_inner_shape shake256 render (get_mut (inserted (Tm.tree m) (tk_node k) (Tm.agent_path a) KAgent "/kernel/agents")
    (Tm.agent_path a) (Tm.agent_meta k pid caps)) (Tm.agent_path a) true (Tm.agent_path a)) as Hsh.
  unfold get_mut in Hsh. rewrite lookup_alter_eq, inserted_new in Hsh by congruence. cbn [fmap option_fmap option_map] in Hsh.
  destruct (fst (repath _ _ true) !! Tm.agent_path a) as [n|] eqn:Hn; [|done].
  eapply inv_touch_agent; [exact Hinv'|exact Hn| |done|done]. split; [apply prefix_app|].
  cbn in Hsh. apply (inj Some) in Hsh. unfold shape in Hsh. cbn in Hsh. congruence.
Qed.

Lemma unregister_agent_inv k a pid code m : tree_inv (Tm.tree m) -> tree_inv (Tm.tree (Tm.unregister_agent k a pid code m).1).
Proof. intros Hinv. unfold Tm.unregister_agent. rewrite append_eq. cbn. by apply inv_edit. Qed.

Lemma tree_scoring_inv t now id s : tree_inv t -> tree_inv (fst (Tree.update_scoring shake256 render t now id s)).
Proof. intros Hinv. unfold Tree.update_scoring. destruct (t !! id); [|done]. by apply inv_edit. Qed.

Lemma update_scoring_inv k id s m : tree_inv (Tm.tree m) -> tree_inv (Tm.tree (Tm.update_scoring k id s m).1).
Proof.
  intros Hinv. unfold Tm.update_scoring. pose proof (tree_scoring_inv (Tm.tree m) (tk_node k) id s Hinv) as H.
  destruct (Tree.update_scoring _ _ _ _ _ _) as [t [old|]]; [rewrite append_eq|]; done.
Qed.

Lemma blend_scoring_inv k id s alpha m : tree_inv (Tm.tree m) -> tree_inv (Tm.tree (Tm.blend_scoring k id s alpha m).1).
Proof.
  intros Hinv. unfold Tm.blend_scoring. destruct (Tm.tree m !! id) as [n|] eqn:E; [|done].
  assert (tree_inv (fst (Tree.blend_scoring shake256 render (Tm.tree m) (tk_node k) id s alpha))) as H.
  { unfold Tree.blend_scoring. rewrite E. by apply inv_edit. }
  destruct (fst (Tree.blend_scoring _ _ _ _ _ _ _) !! id); [rewrite append_eq|]; done.
Qed.

Lemma apply_mutation_inv now ev t : tree_inv t -> tree_inv (Tm.apply_mutation now ev t).1.
Proof.
  intros Hinv. destruct ev as [id kind p ts sg|id ts sg|id key v ts sg|id p p' ts sg|id old nw ts sg]; cbn [Tm.apply_mutation]; [| | |done|].
  - destruct (t !! id); [done|]. destruct (Tree.insert t now id kind p) as [t' [[]|e]] eqn:E; cbn [fst].
    + pose proof (inv_insert _ _ _ _ _ _ (fun n => n) true Hinv E ltac:(done)) as H. unfold get_mut in H.
      assert (alter (fun n : ResourceNode => n) id t' = t') as Ht by (apply map_eq; intros j; rewrite lookup_alter; case_decide; [subst; by destruct (t' !! j)|done]).
      by rewrite Ht in H.
    + apply insert_err in E as ->. done.
  - destruct (t !! id); [|done]. destruct (Tree.remove t id) as [t' [n|e]] eqn:E; cbn [fst].
    + by eapply inv_remove.
    + apply remove_err in E as ->. done.
  - cbn [fst]. apply inv_edit; [done|]. intros n. by destruct v.
  - destruct (t !! id); [|done]. by apply tree_scoring_inv.
Qed.

Lemma apply_remote_inv now ev m : tree_inv (Tm.tree m) -> tree_inv (Tm.tree (Tm.apply_remote_mutation_inner now ev m).1).
Proof.
  intros Hinv. unfold Tm.apply_remote_mutation_inner. destruct (match last _ with Some _ => _ | None => _ end); [done|].
  pose proof (apply_mutation_inv now ev (Tm.tree m) Hinv) as H. by destruct (Tm.apply_mutation now ev (Tm.tree m)) as [t [[]|e]].
Qed.

Lemma apply_verified_inv now ev pk m : tree_inv (Tm.tree m) -> tree_inv (Tm.tree (Tm.apply_remote_mutation_verified now ev pk m).1).
Proof.
  intros Hinv. unfold Tm.apply_remote_mutation_verified. destruct (Tm.verify_mutation_signature ev pk); [|done]. by apply apply_remote_inv.
Qed.

Lemma apply_events_inv now evs pk n m : tree_inv (Tm.tree m) -> tree_inv (Tm.tree (Tm.apply_events now evs pk n m).1).
Proof.
  revert n m. induction evs as [|ev evs IH]; intros n m Hinv; cbn [Tm.apply_events]; [done|].
  destruct (existsb _ _); [by apply IH|]. pose proof (apply_verified_inv now ev pk m Hinv) as H.
  destruct (Tm.apply_remote_mutation_verified now ev pk m) as [m' [[]|e]]; [by apply IH|]. destruct (contains _ _); [by apply IH|done].
Qed.

Lemma reconcile_inv now t entry : tree_inv t -> tree_inv (Tm.reconcile_entry now t entry).
Proof.
  intros Hinv. unfold Tm.reconcile_entry. destruct (de_node entry) as [p|]; [|done]. case_bool_decide; [done|].
  destruct (t !! dp_id p) as [n|] eqn:E; [by apply inv_edit|]. destruct (dp_parent p) as [q|]; [|by apply inv_edit].
  destruct (Tree.insert t now (dp_id p) (dp_kind p) q) as [t' [[]|e]] eqn:Ei; cbn [fst].
  - by eapply inv_insert.
  - apply insert_err in Ei as ->. by apply inv_edit.
Qed.

Lemma sync_inv now diff evs pk m : tree_inv (Tm.tree m) -> tree_inv (Tm.tree (Tm.apply_merkle_diff_verified now diff evs pk m).1).
Proof.
  intros Hinv. unfold Tm.apply_merkle_diff_verified. destruct (in_sync diff); [done|].
  pose proof (apply_events_inv now evs pk 0 m Hinv) as H. destruct (Tm.apply_events now evs pk 0 m) as [m' [n|e]]; [|done]. cbn [fst Tm.set_tree Tm.tree] in *.
  revert H. generalize (Tm.tree m'). induction (df_entries diff) as [|e es IH]; intros t Ht; [done|]. cbn [foldl]. by apply IH, reconcile_inv.
Qed.

(** *** Bootstrapping a fresh tree *)

Lemma insert_all_inv l t now : (exists depth, tree_wf depth t) -> (forall i n, t !! i = Some n -> starts_with "/" i = true) ->
  (exists depth, tree_wf depth (insert_all t now l).1) /\ (forall i n, (insert_all t now l).1 !! i = Some n -> starts_with "/" i = true).
Proof.
  unfold insert_all. generalize (@Ok unit TreeError tt). revert t. induction l as [|[id p] l IH]; intros t r Hwf Hp; [done|]. cbn [foldl].
  destruct r as [[]|e]; [|by apply IH]. destruct (Tree.insert t now id KNamespace p) as [t' [[]|e]] eqn:E.
  - apply IH.
    + destruct Hwf as [depth Hwf]. eexists. by eapply wf_insert.
    + assert (starts_with "/" id = true) as Hid by (unfold Tree.insert in E; by destruct (starts_with "/" id)).
      apply insert_ok in E as (-> & Hn & pn & Hpn). intros i n Hi.
      destruct (inserted_lookup _ _ _ _ _ _ _ _ Hn Hpn Hi) as [[-> _]|[[-> _]|(_ & _ & ?)]]; [done|by eapply Hp..].
  - apply insert_err in E as ->. by apply IH.
Qed.

Lemma bootstrap_inv `{!TreeEnvLaws} k times now c key :
  tree_inv (Tm.tree (Tm.bootstrap k times (Tm.mkTm (tree_new now) [] c key)).1).
Proof.
  unfold Tm.bootstrap. cbn [Tm.tree].
  destruct (insert_all_inv WELL_KNOWN (tree_new now) (tk_node k)) as [[depth Hwf] Hp].
  { eexists. apply wf_new. } { unfold tree_new. by intros i n [<- _]%lookup_singleton_Some. }
  assert ((insert_all (tree_new now) (tk_node k) WELL_KNOWN).2 = Ok tt) as Hok by (vm_compute; reflexivity).
  destruct (insert_all (tree_new now) (tk_node k) WELL_KNOWN) as [t r]. cbn in Hok. subst r. cbn [fst] in *. rewrite append_eq. cbn [fst Tm.tree].
  pose proof (foldl_refresh_shape shake256 render t (deepest_first t (node_order t))) as Hsh. split.
  - exists depth. eapply wf_same_links; [by apply same_shape_links|done].
  - intros i n Hi. specialize (Hsh i). unfold recompute_all in Hi. rewrite Hi in Hsh. destruct (t !! i) eqn:E; [by eapply Hp|done].
  - intros i n Hi. left. eapply (recompute_all_ok shake256 render depth t); [done|apply node_order_perm|done].
Qed.
End ManagerTree.

(** ** Histories *)

Section Histories.
Context `{ED : Ed25519} `{TE : TreeEnv}.

(** A call of the manager, or ([DoOther]) an append to the shared chain by
    another component *)
Inductive tm_op :=
| DoInsert (k : Tick) (id : ResourceId) (kind : ResourceKind) (p : ResourceId)
| DoRemove (k : Tick) (id : ResourceId)
| DoUpdateMeta (k : Tick) (id : ResourceId) (key : string) (v : Json)
| DoRegisterService (k : Tick) (name : string)
| DoRegisterManifest (k k' : Tick) (name ty : string)
| DoRegisterAgent (k : Tick) (a : string) (pid : N) (caps : AgentCapabilities)
| DoUnregisterAgent (k : Tick) (a : string) (pid : N) (code : Z)
| DoAgentState (k : Tick) (a st : string)
| DoUpdateScoring (k : Tick) (id : ResourceId) (s : NodeScoring)
| DoBlendScoring (k : Tick) (id : ResourceId) (s : NodeScoring) (alpha : f32)
| DoBuildTool (k : Tick) (name : string) (wasm : bytes) (key : SigningKey)
| DoDeployTool (ks : nat -> Tick) (spec : BuiltinToolSpec) (v : ToolVersion)
| DoUpdateTool (ks : nat -> Tick) (name : string) (v : ToolVersion)
| DoRevokeTool (ks : nat -> Tick) (name : string) (version : N)
| DoCheckpoint (k : Tick)
| DoOther (k : Tick) (source kind : string) (payload : Json)
| DoRemote (now : Z) (ev : MutationEvent)
| DoRemoteVerified (now : Z) (ev : MutationEvent) (pk : VerifyingKey)
| DoSync (now : Z) (diff : MerkleDiff) (evs : list MutationEvent) (pk : VerifyingKey).

Definition tm_step (m : Tm.TreeManager) (o : tm_op) : Tm.TreeManager :=
  match o with
  | DoInsert k id kind p => (Tm.insert k id kind p m).1
  | DoRemove k id => (Tm.remove k id m).1
  | DoUpdateMeta k id key v => (Tm.update_meta k id key v m).1
  | DoRegisterService k name => (Tm.register_service k name m).1
  | DoRegisterManifest k k' name ty => (Tm.register_service_with_manifest k k' name ty m).1
  | DoRegisterAgent k a pid caps => (Tm.register_agent k a pid caps m).1
  | DoUnregisterAgent k a pid code => (Tm.unregister_agent k a pid code m).1
  | DoAgentState k a st => (Tm.update_agent_state k a st m).1
  | DoUpdateScoring k id s => (Tm.update_scoring k id s m).1
  | DoBlendScoring k id s alpha => (Tm.blend_scoring k id s alpha m).1
  | DoBuildTool k name wasm key => (Tm.build_tool k name wasm key m).1
  | DoDeployTool ks spec v => (Tm.deploy_tool ks spec v m).1
  | DoUpdateTool ks name v => (Tm.update_tool_version ks name v m).1
  | DoRevokeTool ks name version => (Tm.revoke_tool_version ks name version m).1
  | DoCheckpoint k => (Tm.checkpoint k m).1
  | DoOther k source kind payload => (Tm.append k m source kind payload).1
  | DoRemote now ev => (Tm.apply_remote_mutation now ev m).1
  | DoRemoteVerified now ev pk => (Tm.apply_remote_mutation_verified now ev pk m).1
  | DoSync now diff evs pk => (Tm.apply_merkle_diff_verified now diff evs pk m).1
  end.

Definition is_remote (o : tm_op) : bool := match o with DoRemote _ _ | DoRemoteVerified _ _ _ => true | _ => false end.
Definition is_sync (o : tm_op) : bool := match o with DoSync _ _ _ _ => true | _ => false end.
Definition is_local (o : tm_op) : bool := negb (is_remote o || is_sync o).

(** The state a kernel starts from: a new manager, its key, the bootstrap *)
Definition booted (k : Tick) (times : nat -> Z) (now : Z) (c : LocalChain) (key : option SigningKey) : Tm.TreeManager :=
  (Tm.bootstrap k times (Tm.mkTm (tree_new now) [] c key)).1.

(** What the elementary operations preserve, the others preserve.  [K] are the
    metadata keys the callers of [update_meta] may write. *)
Section Closure.
Context (I : Tm.TreeManager -> Prop) (K : string -> Prop).
Context (K_fixed : forall key, key ∈ ["state"; "tool_version"; "module_hash"; "gate_action"; "deployed_at"; "versions"] -> K key).
Context (K_revoked : forall s, K ("v" +:+ s)).
Context (I_insert : forall k id kind p m, I m -> I (Tm.insert k id kind p m).1).
Context (I_remove : forall k id m, I m -> I (Tm.remove k id m).1).
Context (I_meta : forall k id key v m, K key -> I m -> I (Tm.update_meta k id key v m).1).
Context (I_register : forall k a pid caps m, I m -> I (Tm.register_agent k a pid caps m).1).
Context (I_unregister : forall k a pid code m, I m -> I (Tm.unregister_agent k a pid code m).1).
Context (I_scoring : forall k id s m, I m -> I (Tm.update_scoring k id s m).1).
Context (I_blend : forall k id s alpha m, I m -> I (Tm.blend_scoring k id s alpha m).1).
Context (I_append : forall k m source kind payload, I m -> I (Tm.append k m source kind payload).1).
Context (I_checkpoint : forall now m, I m ->
  I (Tm.mkTm (Tm.tree m) (Tm.mutation_log m) (create_checkpoint (Tm.chain m) now).1 (Tm.signing_key m))).

Lemma then_inv {A B} (c : Tm.TreeManager * result A MgrError) (f : Tm.TreeManager -> Tm.TreeManager * result B MgrError) :
  I c.1 -> (forall m, I m -> I (f m).1) -> I (let! m := c in f m).1.
Proof. destruct c as [m [?|?]]; cbn; auto. Qed.

Lemma finish_inv k m source kind payload : I m ->
  I (let '(m, _) := Tm.append k m source kind payload in (m, @Ok unit MgrError tt)).1.
Proof using I_append. intros Hm. specialize (I_append k m source kind payload Hm). by destruct (Tm.append k m source kind payload). Qed.

Lemma fixed_meta k id key v m : key ∈ ["state"; "tool_version"; "module_hash"; "gate_action"; "deployed_at"; "versions"] -> I m ->
  I (Tm.update_meta k id key v m).1.
Proof using K_fixed I_meta. intros Hk. apply I_meta. by apply K_fixed. Qed.

Lemma deploy_inv ks spec v m : I m -> I (Tm.deploy_tool ks spec v m).1.
Proof using K_fixed I_insert I_meta I_append.
  intros Hm. unfold Tm.deploy_tool.
  apply then_inv; [destruct (Tm.tree m !! _); [done|by apply I_insert]|clear m Hm; intros m Hm].
  apply then_inv; [by apply I_insert|clear m Hm; intros m Hm].
  do 5 (apply then_inv; [apply fixed_meta; [by repeat constructor|done]|clear m Hm; intros m Hm]).
  by apply finish_inv.
Qed.

Lemma update_tool_inv ks name v m : I m -> I (Tm.update_tool_version ks name v m).1.
Proof using K_fixed I_meta I_append.
  intros Hm. unfold Tm.update_tool_version. destruct (Tm.tool_path_of name) as [p|]; [|done].
  destruct (Tm.tree m !! p) as [n|]; [|done].
  do 3 (apply then_inv; [apply fixed_meta; [by repeat constructor|done]|clear m Hm; intros m Hm]).
  destruct (Tm.tree m !! p) as [n'|]; [|done].
  apply then_inv; [apply fixed_meta; [by repeat constructor|done]|clear m Hm; intros m Hm]. by apply finish_inv.
Qed.

Lemma revoke_tool_inv ks name version m : I m -> I (Tm.revoke_tool_version ks name version m).1.
Proof using K_revoked I_meta I_append.
  intros Hm. unfold Tm.revoke_tool_version. destruct (Tm.tool_path_of name) as [p|]; [|done].
  destruct (Tm.tree m !! p) as [n|]; [|done].
  do 2 (apply then_inv; [apply I_meta; [apply K_revoked|done]|clear m Hm; intros m Hm]). by apply finish_inv.
Qed.

Lemma local_step_inv o m : is_local o = true -> (forall k id key v, o = DoUpdateMeta k id key v -> K key) -> I m -> I (tm_step m o).
Proof using K_fixed K_revoked I_insert I_remove I_meta I_register I_unregister I_scoring I_blend I_append I_checkpoint.
  intros Hl Hk Hm. destruct o; try discriminate Hl; cbn [tm_step].
  - by apply I_insert.
  - by apply I_remove.
  - apply I_meta; [by eapply Hk|done].
  - by apply I_insert.
  - unfold Tm.register_service_with_manifest. apply then_inv; [by apply I_insert|]. intros m' Hm'. by apply finish_inv.
  - by apply I_register.
  - by apply I_unregister.
  - apply fixed_meta; [by repeat constructor|done].
  - by apply I_scoring.
  - by apply I_blend.
  - unfold Tm.build_tool. match goal with |- context [Tm.append ?k ?m ?s ?kd ?p] => pose proof (I_append k m s kd p Hm) as H end.
    by destruct (Tm.append _ _ _ _ _).
  - by apply deploy_inv.
  - by apply update_tool_inv.
  - by apply revoke_tool_inv.
  - unfold Tm.checkpoint. destruct (Tm.to_checkpoint _) as [data|e]; [|done].
    pose proof (I_checkpoint (tk_meta k) m Hm) as Hc. destruct (create_checkpoint _ _) as [c cp]. cbn [fst] in Hc.
    match goal with |- context [Tm.append ?k ?m ?s ?kd ?p] => pose proof (I_append k m s kd p Hc) as H end.
    by destruct (Tm.append _ _ _ _ _).
  - by apply I_append.
Qed.

End Closure.

Lemma step_tree_inv o m : tree_inv (Tm.tree m) -> tree_inv (Tm.tree (tm_step m o)).
Proof.
  intros Hm. destruct (is_local o) eqn:Hl.
  - refine (local_step_inv (fun m => tree_inv (Tm.tree m)) (fun _ => True) (fun _ _ => Logic.I) (fun _ => Logic.I)
      insert_inv remove_inv (fun k id key v m _ => update_meta_inv k id key v m) register_agent_inv unregister_agent_inv
      update_scoring_inv blend_scoring_inv _ (fun _ m Hm => Hm) o m Hl (fun _ _ _ _ _ => Logic.I) Hm).
    intros. by rewrite append_eq.
  - destruct o; try discriminate Hl; cbn [tm_step].
    + by apply apply_remote_inv.
    + by apply apply_verified_inv.
    + by apply sync_inv.
Qed.

Lemma steps_ind (I : Tm.TreeManager -> Prop) ops m :
  (forall o m, o ∈ ops -> I m -> I (tm_step m o)) -> I m -> I (foldl tm_step m ops).
Proof.
  revert m. induction ops as [|o ops IH]; intros m Hs Hm; [done|]. cbn [foldl]. apply IH.
  - intros o' m' Ho'. apply Hs. by right.
  - apply Hs; [left|done].
Qed.

(** C14: Every resource the manager holds can be proved.  From a bootstrapped
    tree, through any sequence of local changes, remote events, signed or not,
    synchronisations and appends to the chain by others, the tree stays
    well-formed and every node has an inclusion proof that verifies against the
    tree's root hash; and every node's stored hash is the digest of its content,
    except possibly that of a childless agent. *)
Theorem manager_proofs_verify `{!TreeEnvLaws} k times now c key ops id n :
  let m := foldl tm_step (booted k times now c key) ops in
  Tm.tree m !! id = Some n ->
  (exists depth, tree_wf depth (Tm.tree m)) /\
  (hash_ok shake256 render (Tm.tree m) n \/ agent_leaf id n) /\
  exists p, Tm.merkle_proof m id = Some p /\ pf_path p = id /\ pf_node_hash p = nd_merkle_hash n /\
    Tm.verify_merkle_proof m p = true.
Proof.
  intros m Hid. assert (tree_inv (Tm.tree m)) as [[depth Hwf] Hp Hh].
  { apply (steps_ind (fun m => tree_inv (Tm.tree m))); [|apply bootstrap_inv]. intros o m' _. apply step_tree_inv. }
  split; [by exists depth|]. split; [by apply Hh|]. apply (proofs_verify shake256 render depth); [done| |done|].
  - intros j mj Hj Hc. destruct (Hh j mj Hj) as [?|[_ ?]]; done.
  - intros ->. by specialize (Hp _ _ Hid).
Qed.

End Histories.

(** ** Traceability *)

Section Trace.
Context `{ED : Ed25519} `{TE : TreeEnv}.

(** A chain event that records the creation of a resource *)
Definition records_creation (ev : ChainEvent) (i : ResourceId) : Prop :=
  (ce_source ev = "tree" /\ ce_kind ev = "insert" /\ exists rest, ce_payload ev = Some (JObj (("path", JStr i) :: rest))) \/
  (ce_source ev = "agent" /\ ce_kind ev = "agent.spawn" /\
     exists a rest, i = Tm.agent_path a /\ ce_payload ev = Some (JObj (("agent_id", JStr a) :: rest))).

Definition chain_seq_meta (n : ResourceNode) : option Json := nd_metadata n !! "chain_seq".

Definition traced (t : ResourceTree) (evs : list ChainEvent) : Prop :=
  forall i n, t !! i = Some n -> i ∈ rid_root :: Tm.bootstrapped_paths \/
    exists s ev, chain_seq_meta n = Some (json_num s) /\ evs !! N.to_nat s = Some ev /\ records_creation ev i.

(** No node appears and none changes its [chain_seq]. *)
Definition keeps_seq (t t' : ResourceTree) : Prop :=
  forall i n', t' !! i = Some n' -> exists n, t !! i = Some n /\ chain_seq_meta n' = chain_seq_meta n.

Lemma keeps_seq_trans t t' t'' : keeps_seq t t' -> keeps_seq t' t'' -> keeps_seq t t''.
Proof.
  intros H H' i n'' Hi. destruct (H' i n'' Hi) as (n' & Hn' & ->). by apply H.
Qed.

Lemma keeps_seq_shape t t' : same_shape t t' -> keeps_seq t t'.
Proof.
  intros H i n' Hi. specialize (H i). rewrite Hi in H. destruct (t !! i) as [n|]; [|done]. cbn in H.
  exists n. split; [done|]. unfold chain_seq_meta, shape in *. congruence.
Qed.

Lemma keeps_seq_repath t x b : keeps_seq t (fst (recompute_path_inner shake256 render t x b)).
Proof. apply keeps_seq_shape, recompute_path_inner_shape. Qed.

Lemma keeps_seq_alter t x f : (forall n, chain_seq_meta (f n) = chain_seq_meta n) -> keeps_seq t (alter f x t).
Proof.
  intros Hf i n' Hi. rewrite lookup_alter in Hi. case_decide as Hd; [subst|by exists n'].
  destruct (t !! i) as [n|]; [|done]. cbn in Hi. simplify_eq. by exists n.
Qed.

Lemma keeps_seq_edit t x f b : (forall n, chain_seq_meta (f n) = chain_seq_meta n) ->
  keeps_seq t (fst (recompute_path_inner shake256 render (get_mut t x f) x b)).
Proof. intros Hf. eapply keeps_seq_trans; [by apply keeps_seq_alter|apply keeps_seq_repath]. Qed.

Lemma keeps_seq_remove t id n t' : Tree.remove t id = (t', Ok n) -> keeps_seq t t'.
Proof.
  unfold Tree.remove. intros H. repeat (case_match; simplify_eq); intros i n' Hi.
  - rewrite lookup_alter in Hi. case_decide as Hd; [subst|apply lookup_delete_Some in Hi as [_ Hi]; by exists n'].
    destruct (delete id t !! i) as [n0|] eqn:E; [|done]. cbn in Hi. simplify_eq. apply lookup_delete_Some in E as [_ E]. by exists n0.
  - apply lookup_delete_Some in Hi as [_ Hi]. by exists n'.
Qed.

Lemma seq_meta_other key v n : key <> "chain_seq" -> chain_seq_meta (set_meta key v n) = chain_seq_meta n.
Proof. intros Hk. unfold chain_seq_meta. cbn. by rewrite lookup_insert_ne. Qed.

Lemma traced_keeps t t' evs more : traced t evs -> keeps_seq t t' -> traced t' (evs ++ more).
Proof.
  intros Ht Hk i n' Hi. destruct (Hk i n' Hi) as (n & Hn & ->). destruct (Ht i n Hn) as [?|(s & ev & Hs & Hev & Hr)]; [by left|right].
  exists s, ev. split_and!; [done| |done]. by apply lookup_app_l_Some.
Qed.

(** A created node carries the number of the event that is appended. *)
Lemma traced_created t t' evs id n ev s : traced t evs ->
  (forall i n', t' !! i = Some n' -> i <> id -> exists n, t !! i = Some n /\ chain_seq_meta n' = chain_seq_meta n) ->
  t' !! id = Some n -> chain_seq_meta n = Some (json_num s) -> s = lenN evs -> records_creation ev id -> traced t' (evs ++ [ev]).
Proof.
  intros Ht Hold Hid Hs -> Hr i n' Hi. destruct (decide (i = id)) as [->|Hne].
  - right. simplify_eq. exists (lenN evs), ev. split_and!; [done| |done]. unfold lenN. rewrite Nat2N.id.
    by rewrite lookup_app_r, Nat.sub_diag by lia.
  - destruct (Hold i n' Hi Hne) as (n0 & Hn0 & ->). destruct (Ht i n0 Hn0) as [?|(s & e & Hs' & Hev & Hr')]; [by left|right].
    exists s, e. split_and!; [done| |done]. by apply lookup_app_l_Some.
Qed.

(** What an append does to the chain *)
Lemma append_chain k m source kind payload :
  let r := Tm.append k m source kind payload in
  lc_events (Tm.chain r.1) = lc_events (Tm.chain m) ++ [r.2] /\
  ce_sequence r.2 = lc_sequence (Tm.chain m) /\ ce_source r.2 = source /\ ce_kind r.2 = kind /\ ce_payload r.2 = Some payload /\
  Tm.tree r.1 = Tm.tree m /\ (chain_inv shake256 to_vec (Tm.chain m) -> lenN (lc_events (Tm.chain m)) + 1 < u64_mod ->
    chain_inv shake256 to_vec (Tm.chain r.1)).
Proof.
  cbn zeta. rewrite append_eq. cbn [fst snd Tm.chain Tm.tree]. unfold local_append, append_with_key. cbn [fst snd].
  rewrite auto_checkpoint_events. split_and!; try done. intros Hc Hl. by apply (append_inv shake256 to_vec (Tm.chain m)).
Qed.

(** Name the result of the append in the goal and what is known of it. *)
Ltac split_append m' ev H :=
  match goal with |- context [Tm.append ?k ?m ?s ?kd ?pl] =>
    pose proof (append_chain k m s kd pl) as H; destruct (Tm.append k m s kd pl) as [m' ev] end.

(** As long as the chain's numbers do not overflow: the chain is intact and
    every node is traced. *)
Definition trace_ok (m : Tm.TreeManager) : Prop :=
  lenN (lc_events (Tm.chain m)) < u64_mod ->
  chain_inv shake256 to_vec (Tm.chain m) /\ traced (Tm.tree m) (lc_events (Tm.chain m)).

(** An operation that appends one event and creates no node *)
Lemma trace_keeps_append k m t source kind payload : trace_ok m -> keeps_seq (Tm.tree m) t ->
  trace_ok (Tm.append k (Tm.set_tree t m) source kind payload).1.
Proof.
  intros Hm Hk Hl. destruct (append_chain k (Tm.set_tree t m) source kind payload) as (Hev & _ & _ & _ & _ & Ht & Hc).
  rewrite Hev, lenN_app in Hl. cbn [Tm.set_tree Tm.chain] in *. unfold lenN at 2 in Hl. cbn in Hl.
  destruct (Hm ltac:(lia)) as [Hci Htr]. split; [apply Hc; [done|lia]|]. rewrite Hev, Ht. by apply (traced_keeps (Tm.tree m)).
Qed.

Lemma trace_log m ev : trace_ok m -> trace_ok (Tm.log_append ev m).
Proof. done. Qed.

Lemma created_others t now id kind p t' f i n' : Tree.insert t now id kind p = (t', Ok tt) ->
  fst (recompute_path_inner shake256 render (get_mut t' id f) id true) !! i = Some n' -> i <> id ->
  exists n, t !! i = Some n /\ chain_seq_meta n' = chain_seq_meta n.
Proof.
  intros (-> & Hnew & pn & Hpn)%insert_ok Hi Hne. destruct (keeps_seq_repath _ _ _ i n' Hi) as (n1 & Hn1 & ->).
  unfold get_mut in Hn1. rewrite lookup_alter_ne in Hn1 by done.
  destruct (inserted_lookup _ _ _ _ _ _ _ _ Hnew Hpn Hn1) as [[? _]|[[-> ->]|(_ & _ & ?)]]; [done|by exists pn|by exists n1].
Qed.

Lemma created_node t now id kind p t' f : Tree.insert t now id kind p = (t', Ok tt) ->
  exists n, fst (recompute_path_inner shake256 render (get_mut t' id f) id true) !! id = Some n /\
    nd_metadata n = nd_metadata (f (node_new now id kind (Some p))).
Proof.
  intros (-> & Hnew & pn & Hpn)%insert_ok.
  pose proof (recompute_path_inner_shape shake256 render (get_mut (inserted t now id kind p) id f) id true id) as Hsh.
  unfold get_mut in Hsh at 1. rewrite lookup_alter_eq, inserted_new in Hsh by congruence. cbn [fmap option_fmap option_map] in Hsh.
  destruct (fst (recompute_path_inner _ _ _ _ _) !! id) as [n|]; [|done]. exists n. split; [done|].
  cbn in Hsh. apply (inj Some) in Hsh. unfold shape in Hsh. congruence.
Qed.

Lemma insert_trace k id kind p m : trace_ok m -> trace_ok (Tm.insert k id kind p m).1.
Proof.
  intros Hm. unfold Tm.insert. destruct (Tree.insert _ _ _ _ _) as [t [[]|e]] eqn:E.
  2:{ apply insert_err in E as ->. by destruct m. }
  split_append m' ev H.
  cbn [fst snd Tm.set_tree Tm.chain Tm.tree] in H. destruct H as (Hev & Hs & Hsrc & Hkd & Hpl & Ht & Hc).
  intros Hl. cbn [fst Tm.log_append Tm.set_tree Tm.chain Tm.tree] in *. rewrite Hev, lenN_app in Hl. unfold lenN at 2 in Hl. cbn in Hl.
  destruct (Hm ltac:(lia)) as [Hci Htr]. split; [apply Hc; [done|lia]|]. rewrite Hev, Ht.
  destruct (created_node _ _ _ _ _ _ (set_meta "chain_seq" (json_num (ce_sequence ev))) E) as (n & Hn & Hmd).
  eapply (traced_created (Tm.tree m) _ _ id n); [done| |exact Hn| | |].
  - intros i n' Hi Hne. by apply (created_others _ _ _ _ _ _ _ _ _ E Hi).
  - unfold chain_seq_meta. rewrite Hmd. apply lookup_insert_eq.
  - rewrite Hs. apply (ci_next _ _ _ Hci).
  - left. eauto.
Qed.

Lemma register_agent_trace k a pid caps m : trace_ok m -> trace_ok (Tm.register_agent k a pid caps m).1.
Proof.
  intros Hm. unfold Tm.register_agent. destruct (Tree.insert _ _ _ _ _) as [t [[]|e]] eqn:E.
  2:{ apply insert_err in E as ->. by destruct m. }
  split_append m' ev H.
  cbn [fst snd Tm.set_tree Tm.chain Tm.tree] in H. destruct H as (Hev & Hs & Hsrc & Hkd & Hpl & Ht & Hc).
  intros Hl. cbn [fst Tm.log_append Tm.set_tree Tm.chain Tm.tree] in *. rewrite Hev, lenN_app in Hl. unfold lenN at 2 in Hl. cbn in Hl.
  destruct (Hm ltac:(lia)) as [Hci Htr]. split; [apply Hc; [done|lia]|]. rewrite Hev, Ht.
  destruct (created_node _ _ _ _ _ _ (Tm.agent_meta k pid caps) E) as (n & Hn & Hmd).
  eapply (traced_created (Tm.tree m) _ _ (Tm.agent_path a) (set_meta "chain_seq" (json_num (ce_sequence ev)) n)); [done| | | | |].
  - intros i n' Hi Hne. unfold get_mut in Hi at 1. rewrite lookup_alter_ne in Hi by done. by apply (created_others _ _ _ _ _ _ _ _ _ E Hi).
  - unfold get_mut at 1. rewrite lookup_alter_eq. unfold recompute_path. by rewrite Hn.
  - apply lookup_insert_eq.
  - rewrite Hs. apply (ci_next _ _ _ Hci).
  - right. eauto 10.
Qed.

Lemma finish_trace k m t source kind payload ev : trace_ok m -> keeps_seq (Tm.tree m) t ->
  trace_ok (let '(m, _) := Tm.append k (Tm.set_tree t m) source kind payload in (Tm.log_append (ev m) m, @Ok unit MgrError tt)).1.
Proof.
  intros Hm Hk. pose proof (trace_keeps_append k m t source kind payload Hm Hk) as H. by destruct (Tm.append _ _ _ _ _).
Qed.

Lemma remove_trace k id m : trace_ok m -> trace_ok (Tm.remove k id m).1.
Proof.
  intros Hm. unfold Tm.remove. destruct (Tree.remove _ _) as [t [n|e]] eqn:E.
  - apply (finish_trace k m _ _ _ _ (fun m => MRemove id (tk_log k) (Tm.mutation_signature m "remove" id (tk_log k)))); [done|].
    apply keeps_seq_remove in E. destruct (nd_parent n); [|done]. eapply keeps_seq_trans; [exact E|apply keeps_seq_repath].
  - apply remove_err in E as ->. by destruct m.
Qed.

Lemma update_meta_trace k id key v m : key <> "chain_seq" -> trace_ok m -> trace_ok (Tm.update_meta k id key v m).1.
Proof.
  intros Hk Hm. unfold Tm.update_meta. destruct (Tm.tree m !! id); [|done].
  apply (finish_trace k m _ _ _ _ (fun m => MUpdateMeta id key (Some v) (tk_log k) (Tm.mutation_signature m "update_meta" id (tk_log k)))); [done|].
  apply keeps_seq_edit. intros n. by rewrite <- (seq_meta_other key v n Hk).
Qed.

Lemma unregister_agent_trace k a pid code m : trace_ok m -> trace_ok (Tm.unregister_agent k a pid code m).1.
Proof.
  intros Hm. unfold Tm.unregister_agent.
  apply (finish_trace k m _ _ _ _ (fun m => MUpdateMeta (Tm.agent_path a) "state" (Some (JStr "exited")) (tk_log k)
    (Tm.mutation_signature m "update_meta" (Tm.agent_path a) (tk_log k)))); [done|].
  apply keeps_seq_edit. intros n. etrans; [by apply (seq_meta_other "stop_time")|].
  etrans; [by apply (seq_meta_other "exit_code")|]. by apply seq_meta_other.
Qed.

Lemma update_scoring_trace k id s m : trace_ok m -> trace_ok (Tm.update_scoring k id s m).1.
Proof.
  intros Hm. unfold Tm.update_scoring, Tree.update_scoring. destruct (Tm.tree m !! id) as [n|] eqn:E; [|by destruct m].
  apply (finish_trace k m _ _ _ _ (fun m => MUpdateScoring id (nd_scoring n) s (tk_log k) (Tm.mutation_signature m "update_scoring" id (tk_log k)))); [done|].
  by apply keeps_seq_edit.
Qed.

Lemma blend_scoring_trace k id s alpha m : trace_ok m -> trace_ok (Tm.blend_scoring k id s alpha m).1.
Proof.
  intros Hm. unfold Tm.blend_scoring. destruct (Tm.tree m !! id) as [n|] eqn:E; [|done].
  assert (keeps_seq (Tm.tree m) (fst (Tree.blend_scoring shake256 render (Tm.tree m) (tk_node k) id s alpha))) as Hk.
  { unfold Tree.blend_scoring. rewrite E. by apply keeps_seq_edit. }
  destruct (fst (Tree.blend_scoring _ _ _ _ _ _ _) !! id) as [n'|].
  - by apply (finish_trace k m _ _ _ _ (fun m => MUpdateScoring id (nd_scoring n) (nd_scoring n') (tk_log k) (Tm.mutation_signature m "update_scoring" id (tk_log k)))).
  - intros Hl. destruct (Hm Hl) as [Hc Ht]. split; [done|]. cbn [fst Tm.set_tree Tm.chain Tm.tree].
    rewrite <- (app_nil_r (lc_events _)). by eapply traced_keeps.
Qed.

Lemma insert_all_ids l t now i n : (insert_all t now l).1 !! i = Some n -> is_Some (t !! i) \/ i ∈ l.*1.
Proof.
  unfold insert_all. generalize (@Ok unit TreeError tt). revert t. induction l as [|[id p] l IH]; intros t r; cbn [foldl]; [left; by eexists|].
  destruct r as [[]|e]; [|intros [?|?]%IH; [by left|right; by right]].
  destruct (Tree.insert t now id KNamespace p) as [t' [[]|e]] eqn:E.
  - intros [[n' Hi]|?]%IH; [|right; by right]. apply insert_ok in E as (-> & Hn & pn & Hpn).
    destruct (inserted_lookup _ _ _ _ _ _ _ _ Hn Hpn Hi) as [[-> _]|[[-> _]|(_ & _ & ?)]]; [right; left|left; by eexists..].
  - apply insert_err in E as ->. intros [?|?]%IH; [by left|right; by right].
Qed.

Lemma booted_trace k times now c key : chain_inv shake256 to_vec c -> trace_ok (booted k times now c key).
Proof.
  intros Hc. unfold booted, Tm.bootstrap. cbn [Tm.tree].
  assert (forall i n, (insert_all (tree_new now) (tk_node k) WELL_KNOWN).1 !! i = Some n -> i ∈ rid_root :: Tm.bootstrapped_paths) as Hids.
  { intros i n [[n' Hi]|Hi]%insert_all_ids; [|by right]. unfold tree_new in Hi. apply lookup_singleton_Some in Hi as [<- _]. left. }
  destruct (insert_all (tree_new now) (tk_node k) WELL_KNOWN) as [t [[]|e]]; cbn [fst] in Hids.
  2:{ intros _. split; [done|]. intros i n Hi. left. by eapply Hids. }
  split_append m' ev H.
  cbn [fst snd Tm.chain Tm.tree] in *. destruct H as (Hev & _ & _ & _ & _ & Ht & Hc').
  intros Hl. cbn [fst] in *. rewrite Hev, lenN_app in Hl. unfold lenN at 2 in Hl. cbn in Hl. split; [apply Hc'; [done|lia]|].
  intros i n. rewrite Ht. intros Hi. left. pose proof (foldl_refresh_shape shake256 render t (deepest_first t (node_order t)) i) as Hsh.
  unfold recompute_all in Hi. rewrite Hi in Hsh. destruct (t !! i) eqn:E; [by eapply Hids|done].
Qed.

(** Every resource leads to the chain event that created it.  From
    bootstrap on an intact chain, through any sequence of local operations and
    of appends by other components, the chain stays intact, and every resource
    but the well-known namespaces carries, in its [chain_seq], the number of an
    event of the chain that records its creation: a [tree.insert] with its path,
    or an [agent.spawn] with its agent.  Callers do not write the key
    [chain_seq] themselves, and the numbers stay below two to the 64. *)
Theorem resources_traced k times now c key ops id n :
  let m := foldl tm_step (booted k times now c key) ops in
  chain_inv shake256 to_vec c -> Forall (fun o => is_local o = true) ops ->
  (forall k id v, DoUpdateMeta k id "chain_seq" v ∉ ops) ->
  lenN (lc_events (Tm.chain m)) < u64_mod ->
  valid (verify_integrity shake256 to_vec (Tm.chain m)) = true /\
  (Tm.tree m !! id = Some n -> id ∉ rid_root :: Tm.bootstrapped_paths ->
   exists s ev, chain_seq_meta n = Some (json_num s) /\ lc_events (Tm.chain m) !! N.to_nat s = Some ev /\
     ce_sequence ev = s /\ records_creation ev id).
Proof.
  intros m Hc Hl Hk Hlen. assert (trace_ok m) as Hm.
  { apply steps_ind; [|by apply booted_trace]. intros o m' Ho Hm'. rewrite Forall_forall in Hl.
    refine (local_step_inv trace_ok (fun key => key <> "chain_seq") _ _ insert_trace remove_trace update_meta_trace register_agent_trace
      unregister_agent_trace update_scoring_trace blend_scoring_trace _ _ o m' (Hl o Ho) _ Hm').
    - intros x Hx ->. repeat (apply elem_of_cons in Hx as [?|Hx]; [done|]). by apply not_elem_of_nil in Hx.
    - done.
    - intros k' m1 s kd p Hm1. replace m1 with (Tm.set_tree (Tm.tree m1) m1) by (by destruct m1).
      apply trace_keeps_append; [done|]. by apply keeps_seq_shape.
    - intros t m1 Hm1 Hl1. destruct (Hm1 Hl1) as [Hci Htr]. split; [by apply checkpoint_inv|done].
    - intros k' id' x v -> ->. by apply (Hk k' id' v). }
  destruct (Hm Hlen) as [Hci Htr]. split.
  - unfold verify_integrity. cbn. by rewrite (ci_valid _ _ _ Hci).
  - intros Hid Hno. destruct (Htr id n Hid) as [?|(s & ev & Hs & Hev & Hr)]; [done|]. exists s, ev. split_and!; [done..| |done].
    assert (map ce_sequence (lc_events (Tm.chain m)) !! N.to_nat s = Some (ce_sequence ev)) as Hq by (by rewrite list_lookup_fmap, Hev).
    rewrite (ci_seqs _ _ _ Hci), list_lookup_fmap in Hq. apply lookup_lt_Some in Hev as Hlt.
    rewrite lookup_seq_lt in Hq by done. cbn in Hq. apply (inj Some) in Hq. rewrite <- Hq. lia.
Qed.
End Trace.
