(* ===== verification/TreeAudit.v ===== *)
(** What the records of the tree manager are worth: the mutation log as a
    description of the tree, the signatures in it, what a synchronisation
    checks, and the history of a tool (crates/clawft-kernel/src/tree_manager.rs,
    modelled in TreeManager.v). *)

From Stdlib Require Import Strings.String.
From S2P Require Import Prelude.
From S2P Require Import Codec.
From S2P Require Import Chain.
From S2P Require Import Delegation.
From S2P Require Import Acl.
From S2P Require Import Scoring.
From S2P Require Import Tree.
From S2P Require Import TreeDiff.
From S2P Require Import TreeManager.
Open Scope N_scope.

(** ** The skeleton of a tree: which resources, of which kind, and how they hang
    together *)

Definition skel (n : ResourceNode) : ResourceKind * option ResourceId * list ResourceId := (nd_kind n, nd_parent n, nd_children n).
Definition same_skel (t t' : ResourceTree) : Prop := forall i, skel <$> t !! i = skel <$> t' !! i.

#[global] Instance same_skel_equiv : Equivalence same_skel.
Proof.
  split.
  - intros t i. done.
  - intros t t' H i. by rewrite H.
  - intros t t' t'' H H' i. by rewrite H, H'.
Qed.

Lemma same_skel_shape t t' : same_shape t t' -> same_skel t t'.
Proof.
  intros H i. specialize (H i). destruct (t !! i) as [n|], (t' !! i) as [n'|]; try done. cbn in *.
  apply (inj Some) in H. unfold shape, skel in *. congruence.
Qed.

Lemma same_skel_cases t t' i : same_skel t t' ->
  (t !! i = None /\ t' !! i = None) \/ exists n n', t !! i = Some n /\ t' !! i = Some n' /\ skel n = skel n'.
Proof.
  intros H. specialize (H i). destruct (t !! i) as [n|], (t' !! i) as [n'|]; try done; [|by left].
  right. exists n, n'. cbn in H. apply (inj Some) in H. done.
Qed.

Lemma same_skel_alter t t' i f f' : same_skel t t' -> (forall n n', skel n = skel n' -> skel (f n) = skel (f' n')) ->
  same_skel (alter f i t) (alter f' i t').
Proof.
  intros H Hf j. rewrite !lookup_alter. case_decide; [subst|apply H].
  destruct (same_skel_cases t t' j H) as [[-> ->]|(n & n' & -> & -> & E)]; [done|]. cbn. f_equal. by apply Hf.
Qed.

Lemma same_skel_edit t i f : (forall n, skel (f n) = skel n) -> same_skel t (get_mut t i f).
Proof.
  intros Hf j. unfold get_mut. rewrite lookup_alter. case_decide; [subst|done]. destruct (t !! j); cbn; [by rewrite Hf|done].
Qed.

Lemma insert_skel t t' now now' id kind p : same_skel t t' ->
  same_skel (insert t now id kind p).1 (insert t' now' id kind p).1 /\ (insert t now id kind p).2 = (insert t' now' id kind p).2.
Proof.
  intros H. unfold insert. destruct (negb _); [done|].
  destruct (same_skel_cases t t' id H) as [[-> ->]|(n & n' & -> & -> & _)]; [|done].
  destruct (same_skel_cases t t' p H) as [[-> ->]|(n & n' & -> & -> & _)]; [done|]. split; [|done]. cbn [fst].
  apply same_skel_alter.
  - intros j. rewrite !lookup_insert. case_decide; [done|apply H].
  - intros a b [= E1 E2 E3]. unfold skel. cbn. by rewrite E1, E2, E3.
Qed.

Lemma remove_skel t t' id : same_skel t t' ->
  same_skel (remove t id).1 (remove t' id).1 /\
  match (remove t id).2, (remove t' id).2 with Ok n, Ok n' => nd_parent n = nd_parent n' | Err e, Err e' => e = e' | _, _ => False end.
Proof.
  intros H. unfold remove. destruct (is_root id); [done|].
  destruct (same_skel_cases t t' id H) as [[-> ->]|(n & n' & -> & -> & E)]; [done|]. pose proof E as [= E1 E2 E3]. rewrite E2, E3.
  destruct (0 <? _); [done|]. cbn [fst snd]. split; [|done].
  assert (same_skel (delete id t) (delete id t')) as Hd by (intros j; rewrite !lookup_delete; case_decide; [done|apply H]).
  destruct (nd_parent n'); [|done]. apply same_skel_alter; [done|]. intros a b [= F1 F2 F3]. unfold skel. cbn. by rewrite F1, F2, F3.
Qed.

Section Audit.
Context `{ED : Ed25519} `{TE : TreeEnv}.

Lemma repath_skel t x b : same_skel t (fst (recompute_path_inner shake256 render t x b)).
Proof. apply same_skel_shape, recompute_path_inner_shape. Qed.

Lemma repath_skel2 t t' x x' b b' : same_skel t t' ->
  same_skel (fst (recompute_path_inner shake256 render t x b)) (fst (recompute_path_inner shake256 render t' x' b')).
Proof. intros H. by rewrite <- !repath_skel. Qed.

Lemma scoring_skel t now id s : same_skel t (fst (Tree.update_scoring shake256 render t now id s)).
Proof.
  unfold Tree.update_scoring. destruct (t !! id); [|done]. cbn [fst]. etransitivity; [|apply repath_skel]. by apply same_skel_edit.
Qed.

(** Applying an event does the same to trees of the same skeleton. *)
Lemma apply_skel t t' now now' ev : same_skel t t' ->
  same_skel (Tm.apply_mutation now ev t).1 (Tm.apply_mutation now' ev t').1 /\
  is_ok (Tm.apply_mutation now ev t).2 = is_ok (Tm.apply_mutation now' ev t').2.
Proof.
  intros H. destruct ev as [id kind p ts sg|id ts sg|id key v ts sg|id p p' ts sg|id old nw ts sg]; cbn [Tm.apply_mutation]; [| | |done|].
  - destruct (same_skel_cases t t' id H) as [[-> ->]|(n & n' & -> & -> & _)]; [|done].
    destruct (insert_skel t t' now now' id kind p H) as [Hi Hr].
    destruct (insert t now id kind p) as [u [[]|e]], (insert t' now' id kind p) as [u' [[]|e']]; try done. cbn [fst snd] in *.
    split; [by apply repath_skel2|done].
  - destruct (same_skel_cases t t' id H) as [[-> ->]|(n & n' & -> & -> & _)]; [done|].
    destruct (remove_skel t t' id H) as [Hi Hr].
    destruct (remove t id) as [u [m|e]], (remove t' id) as [u' [m'|e']]; try done. cbn [fst snd] in *. rewrite Hr.
    split; [|done]. destruct (nd_parent m'); [by apply repath_skel2|done].
  - cbn [fst snd]. split; [|done]. apply repath_skel2. rewrite <- !same_skel_edit; [done|by destruct v..].
  - destruct (same_skel_cases t t' id H) as [[-> ->]|(n & n' & -> & -> & _)]; [done|]. cbn [fst snd].
    split; [|done]. by rewrite <- !scoring_skel.
Qed.

(** A refused event leaves the tree as it was. *)
Lemma apply_err now ev t e : (Tm.apply_mutation now ev t).2 = Err e -> (Tm.apply_mutation now ev t).1 = t.
Proof.
  destruct ev as [id kind p ts sg|id ts sg|id key v ts sg|id p p' ts sg|id old nw ts sg]; cbn [Tm.apply_mutation]; try done.
  - destruct (t !! id); [done|]. destruct (insert t now id kind p) as [u [[]|e']] eqn:E; [done|]. intros _. by apply insert_err in E.
  - destruct (t !! id); [|done]. destruct (remove t id) as [u [m|e']] eqn:E; [done|]. intros _. by apply remove_err in E.
  - by destruct (t !! id).
Qed.

(** Once applied, an event and its duplicates change the skeleton no more. *)
Lemma apply_idem now now' ev ev' t : (Tm.apply_mutation now ev t).2 = Ok tt -> Tm.mutation_event_eq ev ev' = true ->
  same_skel (Tm.apply_mutation now' ev' (Tm.apply_mutation now ev t).1).1 (Tm.apply_mutation now ev t).1.
Proof.
  destruct ev as [id kind p ts sg|id ts sg|id key v ts sg|id p p' ts sg|id old nw ts sg], ev' as [id' kind' p'' ts' sg'|id' ts' sg'|id' key' v' ts' sg'|? ? ? ? ?|? ? ? ? ?];
    try done; cbn [Tm.mutation_event_eq]; intros Hok Heq.
  - rewrite !andb_true_iff in Heq. destruct Heq as [[[->%String.eqb_eq _] _] _]. cbn [Tm.apply_mutation] in *.
    assert (is_Some ((Tm.apply_mutation now (MCreate id' kind p ts sg) t).1 !! id')) as [n Hn]; [|cbn [Tm.apply_mutation] in Hn; by rewrite Hn].
    cbn [Tm.apply_mutation]. destruct (t !! id') as [m|] eqn:E; [by eexists|].
    destruct (insert t now id' kind p) as [u [[]|e]] eqn:Ei; [|done]. apply insert_ok in Ei as (-> & Hnew & pn & Hpn). cbn [fst]. unfold recompute_path.
    destruct (same_skel_cases _ _ id' (repath_skel (inserted t now id' kind p) id' true)) as [[Hno _]|(a & b & _ & -> & _)]; [|by eexists].
    rewrite inserted_new in Hno by congruence. done.
  - rewrite !andb_true_iff in Heq. destruct Heq as [->%String.eqb_eq _].
    assert ((Tm.apply_mutation now (MRemove id' ts sg) t).1 !! id' = None) as Hn; [|cbn [Tm.apply_mutation] in *; by rewrite Hn].
    cbn [Tm.apply_mutation] in *. destruct (t !! id') as [m|] eqn:E; [|done].
    destruct (remove t id') as [u [n|e]] eqn:Er; [|done]. cbn [fst].
    assert (u !! id' = None) as Hu.
    { unfold remove in Er. rewrite E in Er. destruct (is_root id'); [done|]. destruct (0 <? _); [done|]. simplify_eq.
      destruct (nd_parent n); [rewrite lookup_alter; case_decide; subst; by rewrite lookup_delete_eq|by rewrite lookup_delete_eq]. }
    destruct (nd_parent n) as [q|]; [|done].
    destruct (same_skel_cases _ _ id' (repath_skel u q true)) as [[_ ?]|(a & b & ? & _)]; [done|congruence].
  - cbn [Tm.apply_mutation fst]. symmetry. etransitivity; [|apply repath_skel]. apply same_skel_edit. intros n. by destruct v'.
Qed.

(** ** Replaying the log *)

(** A new manager that applies a log, event by event, at instant [z] *)
Definition replay (z : Z) (c : LocalChain) (log : MutationLog) : Tm.TreeManager :=
  foldl (fun m ev => (Tm.apply_remote_mutation z ev m).1) (Tm.new z c) log.

(** A log describes a tree: replayed, it gives the tree's skeleton. *)
Definition describes (z : Z) (c : LocalChain) (t : ResourceTree) (log : MutationLog) : Prop :=
  same_skel t (Tm.tree (replay z c log)) /\
  forall e e', last (Tm.mutation_log (replay z c log)) = Some e -> Tm.mutation_event_eq e e' = true ->
    same_skel (Tm.apply_mutation z e' (Tm.tree (replay z c log))).1 (Tm.tree (replay z c log)).

Lemma describes_event z c t log ev now t' : describes z c t log -> same_skel t' (Tm.apply_mutation now ev t).1 ->
  describes z c t' (log ++ [ev]).
Proof.
  intros [Ht Hidem] Ht'. unfold describes, replay in *. rewrite foldl_app. cbn [foldl].
  set (r := foldl _ (Tm.new z c) log) in *.
  destruct (apply_skel t (Tm.tree r) now z ev Ht) as [Happ _]. rewrite <- Ht' in Happ.
  unfold Tm.apply_remote_mutation, Tm.apply_remote_mutation_inner.
  destruct (match last (Tm.mutation_log r) with Some e => _ | None => _ end) eqn:Hdup; cbn [fst].
  { split; [|done]. destruct (last (Tm.mutation_log r)) as [e|] eqn:Hl; [|done]. etransitivity; [exact Happ|]. by apply (Hidem e). }
  pose proof (apply_err z ev (Tm.tree r)) as He. pose proof (fun e' => apply_idem z z ev e' (Tm.tree r)) as Hi.
  destruct (Tm.apply_mutation z ev (Tm.tree r)) as [u [[]|e]]; cbn [fst snd] in *.
  - cbn [Tm.log_append Tm.set_tree Tm.tree Tm.mutation_log]. split; [done|]. intros e e'. rewrite last_snoc. intros [= <-] Heq. by apply Hi.
  - specialize (He e eq_refl) as ->. destruct r. cbn in *. done.
Qed.

(** An event that does not touch the skeleton *)
Lemma describes_content z c t t' log ev : describes z c t log -> same_skel t t' ->
  (forall t, same_skel t (Tm.apply_mutation z ev t).1) -> describes z c t' (log ++ [ev]).
Proof. intros Hd Ht Hev. apply (describes_event z c t log ev z); [done|]. by rewrite <- Hev, Ht. Qed.

Lemma describes_insert_all z c l t now log evs : describes z c t log -> (insert_all t now l).2 = Ok tt ->
  Forall2 (fun p ev => exists ts sg, ev = MCreate p.1 KNamespace p.2 ts sg) l evs ->
  describes z c (insert_all t now l).1 (log ++ evs).
Proof.
  unfold insert_all. intros Hd Hok Hevs. revert t log Hd Hok. induction Hevs as [|[id p] ev l evs (ts & sg & ->) Hevs IH]; intros t log Hd Hok.
  { by rewrite app_nil_r. }
  cbn [foldl] in *. destruct (insert t now id KNamespace p) as [u [[]|e]] eqn:E.
  - rewrite cons_middle, app_assoc. apply IH; [|done]. eapply (describes_event z c t log _ now); [exact Hd|].
    cbn [Tm.apply_mutation fst snd]. pose proof (insert_ok _ _ _ _ _ _ E) as (_ & -> & _). rewrite E. apply repath_skel.
  - exfalso. clear -Hok. induction l as [|[id' p'] l IH]; [done|]. by apply IH.
Qed.

Definition log_ok (z : Z) (c : LocalChain) (m : Tm.TreeManager) : Prop := describes z c (Tm.tree m) (Tm.mutation_log m).

Lemma booted_log_ok z c k times now c0 key : log_ok z c (booted k times now c0 key).
Proof.
  unfold booted, Tm.bootstrap, log_ok. cbn [Tm.tree].
  assert ((insert_all (tree_new now) (tk_node k) WELL_KNOWN).2 = Ok tt) as Hok by (vm_compute; reflexivity).
  pose proof (describes_insert_all z c WELL_KNOWN (tree_new now) (tk_node k) []
    (imap (Tm.bootstrap_event (Tm.mkTm (tree_new now) [] c0 key) times) Tm.bootstrapped_paths)) as Hd.
  destruct (insert_all (tree_new now) (tk_node k) WELL_KNOWN) as [t r]. cbn in Hok. subst r.
  rewrite append_eq. cbn [fst Tm.tree Tm.mutation_log app]. cbn [fst app] in Hd.
  destruct Hd as [Hd1 Hd2].
  - split; [|done]. intros i. change (Tm.tree (replay z c [])) with (tree_new z). unfold tree_new. rewrite !lookup_singleton. by case_decide.
  - done.
  - repeat constructor; by eexists _, _.
  - split; [|done]. etransitivity; [|exact Hd1]. symmetry. apply same_skel_shape, foldl_refresh_shape.
Qed.

(** *** The operations *)

Lemma insert_log_ok z c k id kind p m : log_ok z c m -> log_ok z c (Tm.insert k id kind p m).1.
Proof.
  intros Hm. unfold Tm.insert, log_ok. destruct (insert _ _ _ _ _) as [t [[]|e]] eqn:E; [|apply insert_err in E as ->; by destruct m].
  rewrite append_eq. cbn [fst snd Tm.log_append Tm.set_tree Tm.tree Tm.mutation_log].
  eapply describes_event; [exact Hm|]. cbn [Tm.apply_mutation]. pose proof (insert_ok _ _ _ _ _ _ E) as (_ & -> & _).
  rewrite E. apply repath_skel2. symmetry. by apply same_skel_edit.
Qed.

Lemma remove_log_ok z c k id m : log_ok z c m -> log_ok z c (Tm.remove k id m).1.
Proof.
  intros Hm. unfold Tm.remove, log_ok. destruct (remove _ _) as [t [n|e]] eqn:E; [|apply remove_err in E as ->; by destruct m].
  rewrite append_eq. cbn [fst snd Tm.log_append Tm.set_tree Tm.tree Tm.mutation_log].
  eapply (describes_event _ _ _ _ _ 0); [exact Hm|]. cbn [Tm.apply_mutation].
  assert (is_Some (Tm.tree m !! id)) as [n' ->]. { unfold remove in E. destruct (is_root id); [done|]. destruct (Tm.tree m !! id); [by eexists|done]. }
  by rewrite E.
Qed.

Lemma edit_skel t x f b : (forall n, skel (f n) = skel n) -> same_skel t (fst (recompute_path_inner shake256 render (get_mut t x f) x b)).
Proof. intros Hf. etransitivity; [by apply (same_skel_edit t x f)|apply repath_skel]. Qed.

Lemma meta_event_skel z id key v ts sg t : same_skel t (Tm.apply_mutation z (MUpdateMeta id key v ts sg) t).1.
Proof. cbn [Tm.apply_mutation fst]. apply edit_skel. intros n. by destruct v. Qed.

Lemma scoring_event_skel z id old nw ts sg t : same_skel t (Tm.apply_mutation z (MUpdateScoring id old nw ts sg) t).1.
Proof. cbn [Tm.apply_mutation]. destruct (t !! id); [apply scoring_skel|done]. Qed.

Lemma update_meta_log_ok z c k id key v m : log_ok z c m -> log_ok z c (Tm.update_meta k id key v m).1.
Proof.
  intros Hm. unfold Tm.update_meta, log_ok. destruct (Tm.tree m !! id); [|done]. rewrite append_eq. cbn [fst Tm.log_append Tm.set_tree Tm.tree Tm.mutation_log].
  eapply describes_content; [exact Hm|by apply edit_skel|]. intros t. apply meta_event_skel.
Qed.

Lemma register_log_ok z c k a pid caps m : log_ok z c m -> log_ok z c (Tm.register_agent k a pid caps m).1.
Proof.
  intros Hm. unfold Tm.register_agent, log_ok. destruct (insert _ _ _ _ _) as [t [[]|e]] eqn:E; [|apply insert_err in E as ->; by destruct m].
  rewrite append_eq. cbn [fst snd Tm.log_append Tm.set_tree Tm.tree Tm.mutation_log].
  eapply describes_event; [exact Hm|]. cbn [Tm.apply_mutation]. pose proof (insert_ok _ _ _ _ _ _ E) as (_ & -> & _).
  rewrite E. etransitivity; [symmetry; by apply same_skel_edit|]. apply repath_skel2. symmetry. by apply same_skel_edit.
Qed.

Lemma unregister_log_ok z c k a pid code m : log_ok z c m -> log_ok z c (Tm.unregister_agent k a pid code m).1.
Proof.
  intros Hm. unfold Tm.unregister_agent, log_ok. rewrite append_eq. cbn [fst Tm.log_append Tm.set_tree Tm.tree Tm.mutation_log].
  eapply describes_content; [exact Hm|by apply edit_skel|]. intros t. apply meta_event_skel.
Qed.

Lemma scoring_log_ok z c k id s m : log_ok z c m -> log_ok z c (Tm.update_scoring k id s m).1.
Proof.
  intros Hm. unfold Tm.update_scoring, log_ok. pose proof (scoring_skel (Tm.tree m) (tk_node k) id s) as Hs. unfold Tree.update_scoring in *.
  destruct (Tm.tree m !! id); [|by destruct m].
  rewrite append_eq. cbn [fst Tm.log_append Tm.set_tree Tm.tree Tm.mutation_log].
  eapply describes_content; [exact Hm|exact Hs|]. intros t. apply scoring_event_skel.
Qed.

Lemma blend_log_ok z c k id s alpha m : log_ok z c m -> log_ok z c (Tm.blend_scoring k id s alpha m).1.
Proof.
  intros Hm. unfold Tm.blend_scoring, log_ok. destruct (Tm.tree m !! id) as [n|] eqn:E; [|done].
  assert (same_skel (Tm.tree m) (fst (Tree.blend_scoring shake256 render (Tm.tree m) (tk_node k) id s alpha))) as Hs.
  { unfold Tree.blend_scoring. rewrite E. by apply edit_skel. }
  destruct (fst (Tree.blend_scoring _ _ _ _ _ _ _) !! id) as [n'|] eqn:E'.
  - rewrite append_eq. cbn [fst Tm.log_append Tm.set_tree Tm.tree Tm.mutation_log].
    eapply describes_content; [exact Hm|exact Hs|]. intros t. apply scoring_event_skel.
  - destruct (same_skel_cases _ _ id Hs) as [[? _]|(? & ? & _ & ? & _)]; congruence.
Qed.

Lemma remote_log_ok z c now ev m : log_ok z c m -> log_ok z c (Tm.apply_remote_mutation_inner now ev m).1.
Proof.
  intros Hm. unfold Tm.apply_remote_mutation_inner, log_ok. destruct (match last _ with Some _ => _ | None => _ end); [done|].
  pose proof (apply_err now ev (Tm.tree m)) as He. pose proof (describes_event z c (Tm.tree m) (Tm.mutation_log m) ev now) as Hd.
  destruct (Tm.apply_mutation now ev (Tm.tree m)) as [t [[]|e]]; cbn [fst snd] in *.
  - by apply (Hd t Hm).
  - specialize (He e eq_refl) as ->. by destruct m.
Qed.

(** C15: The mutation log describes the tree.  From bootstrap, through any
    sequence of local operations and of remote events, signed or not (all but
    synchronisations by payload), a new node that applies the log in order
    arrives at the same resources, with the same kinds, parents and children in
    the same order. *)
Theorem log_rebuilds_tree z c k times now c0 key ops :
  Forall (fun o => is_sync o = false) ops ->
  let m := foldl tm_step (booted k times now c0 key) ops in
  same_skel (Tm.tree m) (Tm.tree (replay z c (Tm.mutation_log m))).
Proof.
  intros Hops. cbn zeta. assert (log_ok z c (foldl tm_step (booted k times now c0 key) ops)) as [? _]; [|done].
  apply steps_ind; [|apply booted_log_ok]. intros o m Ho Hm. rewrite Forall_forall in Hops. specialize (Hops o Ho).
  destruct (is_local o) eqn:Hl.
  - refine (local_step_inv (log_ok z c) (fun _ => True) (fun _ _ => Logic.I) (fun _ => Logic.I) (insert_log_ok z c) (remove_log_ok z c)
      (fun k id x v m _ => update_meta_log_ok z c k id x v m) (register_log_ok z c) (unregister_log_ok z c) (scoring_log_ok z c)
      (blend_log_ok z c) _ (fun _ m Hm => Hm) o m Hl (fun _ _ _ _ _ => Logic.I) Hm).
    intros k' m' s kd p Hm'. unfold log_ok. by rewrite append_eq.
  - destruct o as [| | | | | | | | | | | | | | | |t ev|t ev pk|]; try discriminate; cbn [tm_step].
    + by apply remote_log_ok.
    + unfold Tm.apply_remote_mutation_verified. destruct (Tm.verify_mutation_signature ev pk); [by apply remote_log_ok|done].
Qed.

(** ** Signatures *)

(** What the manager signs is never in the domain of project signatures. *)
Lemma canonical_not_project op path ts : op ∈ ["create"; "remove"; "update_meta"; "update_scoring"] ->
  signs_project_domain (Tm.mutation_canonical_bytes op path ts) = false.
Proof.
  intros Hop. unfold signs_project_domain. apply bool_decide_eq_false_2.
  repeat (apply elem_of_cons in Hop as [->|Hop]; [intros [=]|]). by apply not_elem_of_nil in Hop.
Qed.

Lemma signature_some m k op path ts : op ∈ ["create"; "remove"; "update_meta"; "update_scoring"] -> Tm.signing_key m = Some k ->
  Tm.mutation_signature m op path ts = Some (ed_sign k (Tm.mutation_canonical_bytes op path ts)).
Proof.
  intros Hop Hk. unfold Tm.mutation_signature, Tm.sign_bytes. by rewrite canonical_not_project, Hk.
Qed.

Context `{EL : !Ed25519Laws}.

Lemma signed_verifies ev k op path ts : Tm.mutation_sign_parts ev = (op, path, ts, Some (ed_sign k (Tm.mutation_canonical_bytes op path ts))) ->
  Tm.verify_mutation_signature ev (verifying_key k) = Ok tt.
Proof using EL.
  intros Hp. unfold Tm.verify_mutation_signature. rewrite Hp, sig_length, Nat.eqb_refl. cbn [negb]. by rewrite sign_verifies.
Qed.

(** The manager holds a key and everything in its log verifies under it. *)
Definition signed (k : SigningKey) (m : Tm.TreeManager) : Prop :=
  Tm.signing_key m = Some k /\ Forall (fun ev => Tm.verify_mutation_signature ev (verifying_key k) = Ok tt) (Tm.mutation_log m).

Lemma signed_snoc k m t c ev : signed k m -> Tm.verify_mutation_signature ev (verifying_key k) = Ok tt ->
  signed k (Tm.mkTm t (Tm.mutation_log m ++ [ev]) c (Tm.signing_key m)).
Proof. intros [Hk Hl] Hev. split; [done|]. cbn. apply Forall_app. split; [done|]. by constructor. Qed.

Ltac signed_op Hm :=
  rewrite append_eq; cbn [fst snd Tm.log_append Tm.set_tree Tm.tree Tm.mutation_log Tm.signing_key Tm.chain];
  apply (signed_snoc _ _ _ _ _ Hm); eapply signed_verifies; cbn [Tm.mutation_sign_parts]; repeat f_equal;
  apply signature_some; [by repeat constructor|apply Hm].

Lemma insert_signed sk k id kind p m : signed sk m -> signed sk (Tm.insert k id kind p m).1.
Proof using EL. intros Hm. unfold Tm.insert. destruct (insert _ _ _ _ _) as [t [[]|e]]; [signed_op Hm|done]. Qed.

Lemma remove_signed sk k id m : signed sk m -> signed sk (Tm.remove k id m).1.
Proof using EL. intros Hm. unfold Tm.remove. destruct (remove _ _) as [t [n|e]]; [signed_op Hm|done]. Qed.

Lemma update_meta_signed sk k id key v m : signed sk m -> signed sk (Tm.update_meta k id key v m).1.
Proof using EL. intros Hm. unfold Tm.update_meta. destruct (Tm.tree m !! id); [signed_op Hm|done]. Qed.

Lemma register_signed sk k a pid caps m : signed sk m -> signed sk (Tm.register_agent k a pid caps m).1.
Proof using EL. intros Hm. unfold Tm.register_agent. destruct (insert _ _ _ _ _) as [t [[]|e]]; [signed_op Hm|done]. Qed.

Lemma unregister_signed sk k a pid code m : signed sk m -> signed sk (Tm.unregister_agent k a pid code m).1.
Proof using EL. intros Hm. unfold Tm.unregister_agent. signed_op Hm. Qed.

Lemma scoring_signed sk k id s m : signed sk m -> signed sk (Tm.update_scoring k id s m).1.
Proof using EL. intros Hm. unfold Tm.update_scoring. destruct (Tree.update_scoring _ _ _ _ _ _) as [t [old|]]; [signed_op Hm|done]. Qed.

Lemma blend_signed sk k id s alpha m : signed sk m -> signed sk (Tm.blend_scoring k id s alpha m).1.
Proof using EL.
  intros Hm. unfold Tm.blend_scoring. destruct (Tm.tree m !! id); [|done].
  destruct (fst (Tree.blend_scoring _ _ _ _ _ _ _) !! id); [signed_op Hm|done].
Qed.

Lemma booted_signed sk k times now c : signed sk (booted k times now c (Some sk)).
Proof using EL.
  unfold booted, Tm.bootstrap. destruct (insert_all _ _ _) as [t [[]|e]]; [|by split; [|constructor]].
  rewrite append_eq. split; [done|]. cbn [fst Tm.mutation_log app]. apply Forall_forall. intros ev Hev.
  apply elem_of_lookup_imap in Hev as (i & path & -> & _). unfold Tm.bootstrap_event.
  eapply signed_verifies. cbn [Tm.mutation_sign_parts]. rewrite (signature_some _ sk); [done|by repeat constructor|done].
Qed.

(** What a node signs, its peers accept.  With a signing key set before
    bootstrap, every event in the mutation log, through any sequence of local
    operations, verifies under the public key. *)
Theorem log_events_verify sk k times now c ops ev :
  Forall (fun o => is_local o = true) ops ->
  ev ∈ Tm.mutation_log (foldl tm_step (booted k times now c (Some sk)) ops) ->
  Tm.verify_mutation_signature ev (verifying_key sk) = Ok tt.
Proof using EL.
  intros Hops Hev. assert (signed sk (foldl tm_step (booted k times now c (Some sk)) ops)) as [_ Hl].
  { apply steps_ind; [|apply booted_signed]. intros o m Ho Hm. rewrite Forall_forall in Hops.
    refine (local_step_inv (signed sk) (fun _ => True) (fun _ _ => Logic.I) (fun _ => Logic.I) (insert_signed sk) (remove_signed sk)
      (fun k id x v m _ => update_meta_signed sk k id x v m) (register_signed sk) (unregister_signed sk) (scoring_signed sk)
      (blend_signed sk) _ (fun _ m Hm => Hm) o m (Hops o Ho) (fun _ _ _ _ _ => Logic.I) Hm).
    intros k' m' s kd p Hm'. by rewrite append_eq. }
  rewrite Forall_forall in Hl. by apply Hl.
Qed.

(** ** Synchronisation *)

(** Every event a synchronisation adds to the log was verified. *)
Lemma apply_events_verified now evs pk n m : exists new,
  Tm.mutation_log (Tm.apply_events now evs pk n m).1 = Tm.mutation_log m ++ new /\
  Forall (fun ev => ev ∈ evs /\ Tm.verify_mutation_signature ev pk = Ok tt) new.
Proof.
  revert n m. induction evs as [|ev evs IH]; intros n m; cbn [Tm.apply_events]; [exists []; by rewrite app_nil_r|].
  assert (forall l : list MutationEvent, Forall (fun e => e ∈ evs /\ Tm.verify_mutation_signature e pk = Ok tt) l ->
    Forall (fun e => e ∈ ev :: evs /\ Tm.verify_mutation_signature e pk = Ok tt) l) as Hsub.
  { intros l Hl. eapply Forall_impl; [exact Hl|]. intros e [? ?]. split; [by right|done]. }
  destruct (existsb _ _).
  { destruct (IH n m) as (new & -> & Hn). exists new. auto. }
  unfold Tm.apply_remote_mutation_verified. destruct (Tm.verify_mutation_signature ev pk) as [[]|e] eqn:Hv.
  2:{ destruct (contains _ _); [|exists []; by rewrite app_nil_r]. destruct (IH n m) as (new & -> & Hn). exists new. auto. }
  assert (forall r, Tm.apply_remote_mutation_inner now ev m = r ->
    Tm.mutation_log r.1 = Tm.mutation_log m ++ (if is_ok r.2 then [ev] else [])) as Hlog.
  { intros r <-. unfold Tm.apply_remote_mutation_inner. destruct (match last _ with Some _ => _ | None => _ end); [by rewrite app_nil_r|].
    destruct (Tm.apply_mutation now ev (Tm.tree m)) as [t [[]|e]]; [done|]. cbn. by rewrite app_nil_r. }
  destruct (Tm.apply_remote_mutation_inner now ev m) as [m' [[]|e]]; specialize (Hlog _ eq_refl); cbn [fst snd is_ok] in Hlog.
  - destruct (IH (n + 1) m') as (new & -> & Hn). exists (ev :: new). rewrite Hlog, <- app_assoc. split; [done|].
    constructor; [split; [left|done]|auto].
  - rewrite app_nil_r in Hlog. destruct (contains _ _).
    + destruct (IH n m') as (new & -> & Hn). rewrite Hlog. exists new. auto.
    + exists []. rewrite app_nil_r. done.
Qed.

(** A synchronisation authenticates its events and not its payloads.  Whatever
    is sent, the log grows only by events of the message that verify under the
    peer's key, and an event that fails verification with any other reason than
    a replay stops it.  But a message with no event at all and one added entry
    is accepted under every key, and writes the node it carries, its kind and
    its metadata, under any existing parent. *)
Theorem sync_payload_unverified now pk m lr rr visited p q :
  (forall diff evs, exists new,
     Tm.mutation_log (Tm.apply_merkle_diff_verified now diff evs pk m).1 = Tm.mutation_log m ++ new /\
     Forall (fun ev => ev ∈ evs /\ Tm.verify_mutation_signature ev pk = Ok tt) new) /\
  (starts_with "/" (dp_id p) = true -> Tm.tree m !! dp_id p = None -> dp_parent p = Some q -> is_Some (Tm.tree m !! q) ->
   let r := Tm.apply_merkle_diff_verified now (mkDiff lr rr [mkEntry (dp_id p) Added (Some p) []] visited) [] pk m in
   r.2 = Ok 0 /\ Tm.mutation_log r.1 = Tm.mutation_log m /\
   exists n, Tm.tree r.1 !! dp_id p = Some n /\ nd_kind n = dp_kind p /\ nd_metadata n = dp_metadata p /\ nd_parent n = Some q).
Proof.
  split.
  - intros diff evs. unfold Tm.apply_merkle_diff_verified. destruct (in_sync diff); [exists []; by rewrite app_nil_r|].
    destruct (apply_events_verified now evs pk 0 m) as (new & Hlog & Hnew). exists new.
    by destruct (Tm.apply_events now evs pk 0 m) as [m' [n|e]].
  - intros Hslash Hnew Hpar [qn Hq] r. subst r. unfold Tm.apply_merkle_diff_verified, in_sync. cbn [df_entries diff_is_empty].
    rewrite andb_false_r. cbn [Tm.apply_events fst snd Tm.set_tree Tm.mutation_log Tm.tree]. split; [done|]. split; [done|].
    cbn [foldl]. unfold Tm.reconcile_entry. cbn [de_node de_diff_kind]. rewrite bool_decide_eq_false_2 by done.
    rewrite Hnew, Hpar. unfold insert. rewrite Hslash, Hnew, Hq. cbn [negb fst].
    fold (inserted (Tm.tree m) now (dp_id p) (dp_kind p) q). set (t := inserted _ _ _ _ _).
    pose proof (recompute_path_inner_shape shake256 render (get_mut t (dp_id p) (set_payload p)) (dp_id p) true (dp_id p)) as Hsh.
    unfold get_mut in Hsh at 1. subst t. rewrite lookup_alter_eq, inserted_new in Hsh by congruence. cbn [fmap option_fmap option_map] in Hsh.
    unfold recompute_path. destruct (fst (recompute_path_inner _ _ _ _ _) !! dp_id p) as [n|]; [|done].
    exists n. cbn in Hsh. apply (inj Some) in Hsh. unfold shape in Hsh. cbn in Hsh. split; [done|]. split_and!; congruence.
Qed.

(** A signature covers the operation, the path and the time of an event: not
    the value it writes. *)
Theorem signature_ignores_value id key v key' v' ts sg pk :
  Tm.verify_mutation_signature (MUpdateMeta id key v ts sg) pk = Tm.verify_mutation_signature (MUpdateMeta id key' v' ts sg) pk.
Proof. done. Qed.

Lemma apply_meta_spec now id key v ts sg m n : Tm.tree m !! id = Some n ->
  (forall e, last (Tm.mutation_log m) = Some e -> Tm.mutation_event_eq e (MUpdateMeta id key (Some v) ts sg) = false) ->
  exists m' n', Tm.apply_remote_mutation now (MUpdateMeta id key (Some v) ts sg) m = (m', Ok tt) /\
    Tm.tree m' !! id = Some n' /\ nd_metadata n' = <[key := v]> (nd_metadata n) /\
    Tm.mutation_log m' = Tm.mutation_log m ++ [MUpdateMeta id key (Some v) ts sg].
Proof.
  intros Hn Hlast. unfold Tm.apply_remote_mutation, Tm.apply_remote_mutation_inner.
  assert (match last (Tm.mutation_log m) with Some e => Tm.mutation_event_eq e (MUpdateMeta id key (Some v) ts sg) | None => false end = false) as ->.
  { destruct (last (Tm.mutation_log m)) as [e|]; [by apply Hlast|done]. }
  cbn [Tm.apply_mutation]. set (f := fun n => set_updated now (set_meta key v n)).
  pose proof (recompute_path_inner_shape shake256 render (get_mut (Tm.tree m) id f) id true id) as Hsh.
  unfold get_mut in Hsh at 1. rewrite lookup_alter_eq, Hn in Hsh. cbn [fmap option_fmap option_map] in Hsh.
  destruct (fst (recompute_path_inner shake256 render (get_mut (Tm.tree m) id f) id true) !! id) as [n'|] eqn:E; [|done].
  eexists _, n'. split; [reflexivity|]. split; [exact E|]. split; [|done].
  cbn in Hsh. apply (inj Some) in Hsh. unfold shape in Hsh. cbn in Hsh. congruence.
Qed.

(** Only a duplicate of the newest event is refused as a replay: an older write
    of a metadata key is accepted again and undoes a newer one. *)
Theorem older_write_replayed now id key v w ts ts' sg sg' m n :
  Tm.tree m !! id = Some n -> ts <> ts' -> Tm.mutation_log m = [] ->
  let old := MUpdateMeta id key (Some v) ts sg in
  let m2 := (Tm.apply_remote_mutation now (MUpdateMeta id key (Some w) ts' sg') (Tm.apply_remote_mutation now old m).1).1 in
  exists m3 n3, Tm.apply_remote_mutation now old m2 = (m3, Ok tt) /\ Tm.tree m3 !! id = Some n3 /\ nd_metadata n3 !! key = Some v.
Proof.
  intros Hn Hts Hlog. cbn zeta.
  destruct (apply_meta_spec now id key v ts sg m n Hn) as (m1 & n1 & -> & Hn1 & _ & Hl1); [by rewrite Hlog|]. cbn [fst].
  destruct (apply_meta_spec now id key w ts' sg' m1 n1 Hn1) as (m2 & n2 & -> & Hn2 & _ & Hl2).
  { rewrite Hl1. intros e. rewrite last_snoc. intros [= <-]. cbn. assert ((ts =? ts')%Z = false) as -> by lia. apply andb_false_r. }
  cbn [fst]. destruct (apply_meta_spec now id key v ts sg m2 n2 Hn2) as (m3 & n3 & -> & Hn3 & Hmd & _).
  { rewrite Hl2. intros e. rewrite last_snoc. intros [= <-]. cbn. assert ((ts' =? ts)%Z = false) as -> by lia. apply andb_false_r. }
  exists m3, n3. split; [done|]. split; [done|]. rewrite Hmd. apply lookup_insert_eq.
Qed.

(** ** The history of a tool *)

Lemma update_meta_spec k id key v m n : Tm.tree m !! id = Some n ->
  exists m' n', Tm.update_meta k id key v m = (m', Ok tt) /\ Tm.tree m' !! id = Some n' /\ nd_metadata n' = <[key := v]> (nd_metadata n).
Proof.
  intros Hn. unfold Tm.update_meta. rewrite Hn, append_eq. set (f := fun n => set_updated (tk_node k) (set_meta key v n)).
  pose proof (recompute_path_inner_shape shake256 render (get_mut (Tm.tree m) id f) id true id) as Hsh.
  unfold get_mut in Hsh at 1. rewrite lookup_alter_eq, Hn in Hsh. cbn [fmap option_fmap option_map] in Hsh.
  destruct (fst (recompute_path_inner shake256 render (get_mut (Tm.tree m) id f) id true) !! id) as [n'|] eqn:E; [|done].
  eexists _, n'. split; [reflexivity|]. split; [exact E|].
  cbn in Hsh. apply (inj Some) in Hsh. unfold shape in Hsh. cbn in Hsh. congruence.
Qed.

Lemma append_tree k m source kind payload : Tm.tree (Tm.append k m source kind payload).1 = Tm.tree m.
Proof. by rewrite append_eq. Qed.

(** The node of a tool, with its versions *)
Definition has_versions (path : ResourceId) (vs : list Json) (m : Tm.TreeManager) : Prop :=
  exists n, Tm.tree m !! path = Some n /\ nd_metadata n !! "versions" = Some (JArr vs).

Lemma has_versions_get name path vs m : Tm.tool_path_of name = Some path -> has_versions path vs m -> Tm.get_tool_versions name m = vs.
Proof.
  intros Hp (n & Hn & Hv). unfold Tm.get_tool_versions, Tm.meta_versions. rewrite Hp, Hn. cbn. by rewrite Hv.
Qed.

Lemma other_key_versions k path key v vs m : key <> "versions" -> has_versions path vs m ->
  exists m', Tm.update_meta k path key v m = (m', Ok tt) /\ has_versions path vs m'.
Proof.
  intros Hk (n & Hn & Hv). destruct (update_meta_spec k path key v m n Hn) as (m' & n' & -> & Hn' & Hmd).
  exists m'. split; [done|]. exists n'. split; [done|]. by rewrite Hmd, lookup_insert_ne.
Qed.

Lemma set_versions k path v vs m : has_versions path vs m \/ is_Some (Tm.tree m !! path) ->
  exists m', Tm.update_meta k path "versions" (JArr v) m = (m', Ok tt) /\ has_versions path v m'.
Proof.
  intros Hor. assert (exists n, Tm.tree m !! path = Some n) as [n Hn] by (destruct Hor as [(n & ? & _)|[n ?]]; eauto).
  destruct (update_meta_spec k path "versions" (JArr v) m n Hn) as (m' & n' & -> & Hn' & Hmd).
  exists m'. split; [done|]. exists n'. split; [done|]. by rewrite Hmd, lookup_insert_eq.
Qed.

Lemma update_tool_spec ks name path v vs m : Tm.tool_path_of name = Some path -> has_versions path vs m ->
  exists m', Tm.update_tool_version ks name v m = (m', Ok tt) /\ has_versions path (vs ++ [Tm.version_json v]) m'.
Proof.
  intros Hp Hv. unfold Tm.update_tool_version. rewrite Hp. pose proof Hv as (n & -> & _).
  destruct (other_key_versions (ks 0%nat) path "tool_version" (json_num (tv_version v)) vs m ltac:(done) Hv) as (m1 & -> & Hv1).
  destruct (other_key_versions (ks 1%nat) path "module_hash" (JStr (hex_hash (tv_module_hash v))) vs m1 ltac:(done) Hv1) as (m2 & -> & Hv2).
  destruct (other_key_versions (ks 2%nat) path "deployed_at" (JStr (to_rfc3339 (tv_deployed_at v))) vs m2 ltac:(done) Hv2) as (m3 & -> & Hv3).
  pose proof Hv3 as (n3 & -> & Hmd). assert (Tm.meta_versions n3 = vs) as -> by (unfold Tm.meta_versions; by rewrite Hmd).
  destruct (set_versions (ks 3%nat) path (vs ++ [Tm.version_json v]) vs m3 ltac:(by left)) as (m4 & -> & (n4 & Hn4 & Hm4)).
  rewrite append_eq. eexists. split; [reflexivity|]. exists n4. done.
Qed.

(** A path with one dot splits there, from either end. *)
Definition no_dot (s : string) : bool := match split_dot s with None => true | Some _ => false end.

Lemma split_dot_app s t : no_dot s = true -> split_dot (s +:+ "." +:+ t) = Some (s, t).
Proof.
  unfold no_dot. induction s as [|a s IH]; [done|]. cbn [split_dot]. change (String a s +:+ "." +:+ t) with (String a (s +:+ "." +:+ t)).
  cbn [split_dot]. destruct (Ascii.eqb a "."); [done|]. destruct (split_dot s) as [[p q]|]; [done|]. intros _. by rewrite IH.
Qed.

Lemma rsplit_none s : no_dot s = true -> rsplit_dot s = None.
Proof.
  unfold no_dot. induction s as [|a s IH]; [done|]. cbn. destruct (Ascii.eqb a "."); [done|].
  destruct (split_dot s) as [[p q]|]; [done|]. intros _. by rewrite IH.
Qed.

Lemma rsplit_app s t : no_dot t = true -> rsplit_dot (s +:+ "." +:+ t) = Some (s, t).
Proof.
  intros Ht. induction s as [|a s IH].
  - change ("" +:+ "." +:+ t) with (String "." t). cbn [rsplit_dot]. by rewrite rsplit_none.
  - change (String a s +:+ "." +:+ t) with (String a (s +:+ "." +:+ t)). cbn [rsplit_dot]. by rewrite IH.
Qed.

Lemma category_no_dot c : no_dot (category_dir c) = true.
Proof. by destruct c. Qed.

Lemma insert_at k id kind p m m' : Tm.insert k id kind p m = (m', Ok tt) -> is_Some (Tm.tree m' !! id).
Proof.
  unfold Tm.insert. destruct (insert _ _ _ _ _) as [t [[]|e]] eqn:E; [|done]. rewrite append_eq. cbn [fst snd]. intros [= <-].
  cbn [Tm.log_append Tm.set_tree Tm.tree].
  destruct (created_node _ _ _ _ _ _ (set_meta "chain_seq" (json_num (ce_sequence (local_append shake256 to_vec (Tm.chain m) (tk_chain k) (tk_check k) (tk_stamp k) "tree" "insert"
    (Some (JObj [("path", JStr id); ("kind", JStr (Tm.kind_debug kind)); ("parent", JStr p)]))).2))) E) as (n & Hn & _).
  exists n. exact Hn.
Qed.

Lemma deploy_spec ks spec v m m' : Tm.deploy_tool ks spec v m = (m', Ok tt) ->
  has_versions ("/kernel/tools/" +:+ category_dir (sp_category spec) +:+ "/" +:+ short_name (sp_name spec)) [Tm.version_json v] m'.
Proof.
  unfold Tm.deploy_tool. destruct (match Tm.tree m !! _ with None => _ | Some _ => _ end) as [m0 [[]|e]]; [|done].
  set (path := "/kernel/tools/" +:+ category_dir (sp_category spec) +:+ "/" +:+ short_name (sp_name spec)).
  destruct (Tm.insert (ks 1%nat) path KTool _ m0) as [m1 [[]|e]] eqn:E; [|done]. apply insert_at in E as [n1 Hn1].
  destruct (update_meta_spec (ks 2%nat) path "tool_version" (json_num (tv_version v)) m1 n1 Hn1) as (m2 & n2 & -> & Hn2 & _).
  destruct (update_meta_spec (ks 3%nat) path "module_hash" (JStr (hex_hash (tv_module_hash v))) m2 n2 Hn2) as (m3 & n3 & -> & Hn3 & _).
  destruct (update_meta_spec (ks 4%nat) path "gate_action" (JStr (sp_gate_action spec)) m3 n3 Hn3) as (m4 & n4 & -> & Hn4 & _).
  destruct (update_meta_spec (ks 5%nat) path "deployed_at" (JStr (to_rfc3339 (tv_deployed_at v))) m4 n4 Hn4) as (m5 & n5 & -> & Hn5 & _).
  destruct (set_versions (ks 6%nat) path [Tm.version_json v] [] m5 ltac:(right; by eexists)) as (m6 & -> & Hv).
  rewrite append_eq. intros [= <-]. exact Hv.
Qed.

Lemma revoke_key_ne s t : (8 <= String.length t)%nat -> "v" +:+ s +:+ t <> "versions".
Proof.
  intros Ht E. apply (f_equal String.length) in E. rewrite !string_length_app in E. cbn in E. lia.
Qed.

(** The version history of a tool is complete.  After a tool named
    [category.short] is deployed, every update of it succeeds, and the versions
    read back are the deployed one and the updates, in order; revoking a version
    succeeds and leaves the history as it is. *)
Theorem tool_versions_recorded ks spec v m m' short vs :
  sp_name spec = category_dir (sp_category spec) +:+ "." +:+ short -> no_dot short = true ->
  Tm.deploy_tool ks spec v m = (m', Ok tt) ->
  let upd r (p : (nat -> Tick) * ToolVersion) := let! m := r in Tm.update_tool_version p.1 (sp_name spec) p.2 m in
  exists m'', foldl upd (m', Ok tt) vs = (m'', Ok tt) /\
    Tm.get_tool_versions (sp_name spec) m'' = Tm.version_json <$> v :: vs.*2 /\
    forall kr n, exists m3, Tm.revoke_tool_version kr (sp_name spec) n m'' = (m3, Ok tt) /\
      Tm.get_tool_versions (sp_name spec) m3 = Tm.version_json <$> v :: vs.*2.
Proof.
  intros Hname Hshort Hd upd. set (path := "/kernel/tools/" +:+ category_dir (sp_category spec) +:+ "/" +:+ short).
  assert (Tm.tool_path_of (sp_name spec) = Some path) as Hp.
  { unfold Tm.tool_path_of. rewrite Hname, split_dot_app; [done|apply category_no_dot]. }
  assert (has_versions path [Tm.version_json v] m') as Hv.
  { pose proof (deploy_spec ks spec v m m' Hd) as Hv. unfold short_name in Hv. by rewrite Hname, rsplit_app in Hv. }
  assert (forall us m us', has_versions path us m ->
    exists m'', foldl upd (m, Ok tt) us' = (m'', Ok tt) /\ has_versions path (us ++ (Tm.version_json <$> us'.*2)) m'') as Hupd.
  { intros us m1 us'. revert us m1. induction us' as [|[k u] us' IH]; intros us m1 Hm1; cbn [foldl]; [exists m1; cbn; by rewrite app_nil_r|].
    destruct (update_tool_spec k (sp_name spec) path u us m1 Hp Hm1) as (m2 & Hm2 & Hv2).
    assert (upd (m1, Ok tt) (k, u) = (m2, Ok tt)) as -> by exact Hm2.
    destruct (IH _ _ Hv2) as (m3 & -> & Hv3). exists m3. split; [done|]. by rewrite <- app_assoc in Hv3. }
  destruct (Hupd _ _ vs Hv) as (m2 & -> & Hv2). exists m2. split; [done|]. split; [by apply (has_versions_get _ path)|].
  intros kr n. unfold Tm.revoke_tool_version. rewrite Hp. pose proof Hv2 as (n2 & -> & _).
  destruct (other_key_versions (kr 0%nat) path ("v" +:+ pretty n +:+ "_revoked") (JBool true) _ m2 ltac:(by apply revoke_key_ne; cbn; lia) Hv2) as (m3 & -> & Hv3).
  destruct (other_key_versions (kr 1%nat) path ("v" +:+ pretty n +:+ "_revoked_at") (JStr (to_rfc3339 (tk_meta (kr 1%nat)))) _ m3 ltac:(by apply revoke_key_ne; cbn; lia) Hv3) as (m4 & -> & Hv4).
  rewrite append_eq. eexists. split; [reflexivity|]. apply (has_versions_get _ path); [done|exact Hv4].
Qed.

End Audit.

(** ** Where the records fall short *)

Lemma meta_bytes_length (f : Json -> bytes) (md : gmap string Json) :
  length (meta_bytes f md) = sum_list ((fun kv => (length (str_bytes kv.1) + length (f kv.2))%nat) <$> map_to_list md).
Proof.
  unfold meta_bytes. assert (sort_keys (map fst (map_to_list md)) ≡ₚ (map_to_list md).*1) as Hp by apply merge_sort_Permutation.
  revert Hp. generalize (sort_keys (map fst (map_to_list md))) as ks. intros ks Hp.
  assert (length (ks ≫= fun k => str_bytes k ++ match md !! k with Some v => f v | None => [] end) =
    sum_list ((fun k => (length (str_bytes k) + length (match md !! k with Some v => f v | None => [] end))%nat) <$> ks)) as ->.
  { induction ks as [|k ks IH]; [done|]. clear Hp. rewrite bind_cons, !length_app, fmap_cons. cbn [sum_list]. f_equal. clear.
    induction ks as [|k' ks IH]; [done|]. rewrite bind_cons, !length_app, fmap_cons. cbn [sum_list]. by rewrite IH. }
  rewrite Hp. rewrite <- list_fmap_compose. f_equal. apply list_fmap_ext. intros i [k v] Hi. cbn.
  apply list_elem_of_lookup_2, elem_of_map_to_list in Hi. by rewrite Hi.
Qed.

(** Registering an agent leaves its hash behind its content: the number of the
    chain event is written after the hash was computed, so that the stored hash
    is not the digest of the node, unless the digest has a collision. *)
Theorem agent_hash_stale `{ED : Ed25519} `{TE : TreeEnv} depth k a pid caps m m' :
  tree_wf depth (Tm.tree m) -> Tm.register_agent k a pid caps m = (m', Ok tt) ->
  exists n, Tm.tree m' !! Tm.agent_path a = Some n /\
    (hash_ok shake256 render (Tm.tree m') n -> exists x y, x <> y /\ shake256 x = shake256 y).
Proof.
  intros Hwf. unfold Tm.register_agent. destruct (insert _ _ _ _ _) as [t [[]|e]] eqn:E; [|done]. rewrite append_eq.
  cbn [fst snd]. intros [= <-]. cbn [Tm.log_append Tm.set_tree Tm.tree]. unfold recompute_path.
  set (rid := Tm.agent_path a) in *. set (v := json_num _). set (t1 := get_mut t rid (Tm.agent_meta k pid caps)).
  destruct (created_node _ _ _ _ _ _ (Tm.agent_meta k pid caps) E) as (n & Hn & Hmd). fold t1 in Hn.
  set (u := fst (recompute_path_inner shake256 render t1 rid true)) in *.
  exists (set_meta "chain_seq" v n). unfold get_mut. rewrite lookup_alter_eq, Hn. split; [done|].
  assert (hash_ok shake256 render u n) as Hu.
  { assert (exists d1, tree_wf d1 t1) as [d1 Hwf1].
    { eexists. eapply wf_same_links; [apply same_links_alter; done|]. by eapply wf_insert. }
    assert (is_Some (t1 !! rid)) as [n1 Hn1].
    { pose proof (recompute_path_inner_shape shake256 render t1 rid true rid) as Hsh. unfold u in Hn. rewrite Hn in Hsh. destruct (t1 !! rid); [by eexists|done]. }
    apply (recompute_path_off _ _ d1 t1 rid n1 true rid n Hwf1 Hn1 Hn). intros []. left. }
  intros Hh. unfold hash_ok, node_hash, hash_from_parts in Hu, Hh. cbn [nd_merkle_hash set_meta nd_scoring nd_metadata] in Hh. rewrite Hu in Hh.
  eexists _, _. split; [|exact Hh].
  assert (child_hashes (alter (set_meta "chain_seq" v) rid u) (set_meta "chain_seq" v n) = child_hashes u n) as ->.
  { apply child_hashes_ext; [done|]. intros c _. by apply summary_fields, summary_alter. }
  intros Heq. apply (app_inv_head (concat (child_hashes u n))), (app_inv_head (Score.to_hash_bytes (nd_scoring n))) in Heq.
  apply (f_equal length) in Heq. rewrite !meta_bytes_length in Heq.
  rewrite map_to_list_insert in Heq; [|by rewrite Hmd]. cbn in Heq. lia.
Qed.

(** A tool whose short name has a dot is deployed under its last part and looked
    up under everything after its first: it can be deployed and never updated,
    revoked or listed. *)
Theorem dotted_tool_unreachable `{ED : Ed25519} `{TE : TreeEnv} (spec : BuiltinToolSpec) a b :
  sp_name spec = category_dir (sp_category spec) +:+ "." +:+ a +:+ "." +:+ b -> no_dot b = true ->
  short_name (sp_name spec) = b /\
  Tm.tool_path_of (sp_name spec) = Some ("/kernel/tools/" +:+ category_dir (sp_category spec) +:+ "/" +:+ (a +:+ "." +:+ b)).
Proof.
  intros Hn Hb. unfold short_name, Tm.tool_path_of. rewrite Hn. split.
  - replace (category_dir (sp_category spec) +:+ "." +:+ a +:+ "." +:+ b)
      with ((category_dir (sp_category spec) +:+ "." +:+ a) +:+ "." +:+ b) by (by rewrite !string_app_assoc).
    by rewrite rsplit_app.
  - rewrite split_dot_app; [done|apply category_no_dot].
Qed.

(** ** Witnesses *)

Definition toy_env : TreeEnv := {|
  shake256 := take 8;
  sha256 := take 8;
  render := toy_render;
  to_vec := toy_render;
  from_slice _ := None;
  json_eq _ _ := true;
  ser_nodes _ := Ok [];
  de_nodes _ := Ok [];
  dbg_str s := s;
  sig_error := "signature error";
  node_order := tree_keys;
  set_order := elements;
  key_order m := (map_to_list m).*1 |}.

Lemma toy_env_laws : @TreeEnvLaws toy_env.
Proof. split; done. Qed.

Definition toy_tick (t : Z) : Tick := mkTick t t t t None t.
Definition toy_chain : LocalChain := chain_new (@shake256 toy_env) (@to_vec toy_env) 1 0 0 0.
Definition toy_booted : @Tm.TreeManager toy_ed25519 :=
  @booted toy_ed25519 toy_env (toy_tick 1) (fun _ => 1%Z) 0 toy_chain (Some x07).
Definition toy_ops : list (@tm_op toy_ed25519) :=
  [@DoInsert toy_ed25519 (toy_tick 2) "/kernel/tools" KNamespace "/kernel"; @DoInsert toy_ed25519 (toy_tick 3) "/apps/x" KApp "/apps"].
Definition toy_manager : @Tm.TreeManager toy_ed25519 := foldl (@tm_step toy_ed25519 toy_env) toy_booted toy_ops.

Lemma manager_proofs_verify_witness :
  exists p, @Tm.merkle_proof toy_ed25519 toy_env toy_manager "/apps/x" = Some p /\
    @Tm.verify_merkle_proof toy_ed25519 toy_env toy_manager p = true.
Proof.
  assert (is_Some (Tm.tree toy_manager !! "/apps/x")) as [n Hn] by (vm_compute; eexists; reflexivity).
  destruct (@manager_proofs_verify toy_ed25519 toy_env toy_env_laws (toy_tick 1) (fun _ => 1%Z) 0 toy_chain (Some x07) toy_ops "/apps/x" n Hn)
    as (_ & _ & p & Hp & _ & _ & Hv).
  exists p. split; [exact Hp|exact Hv].
Defined.

Lemma resources_traced_witness :
  exists n s ev, Tm.tree toy_manager !! "/apps/x" = Some n /\ chain_seq_meta n = Some (json_num s) /\
    lc_events (Tm.chain toy_manager) !! N.to_nat s = Some ev /\ @records_creation ev "/apps/x".
Proof.
  assert (is_Some (Tm.tree toy_manager !! "/apps/x")) as [n Hn] by (vm_compute; eexists; reflexivity).
  destruct (@resources_traced toy_ed25519 toy_env (toy_tick 1) (fun _ => 1%Z) 0 toy_chain (Some x07) toy_ops "/apps/x" n)
    as (_ & H).
  - apply chain_new_inv.
  - repeat constructor.
  - intros k id v H. apply elem_of_cons in H as [H|H]; [discriminate H|]. apply elem_of_cons in H as [H|H]; [discriminate H|].
    by apply not_elem_of_nil in H.
  - vm_compute. reflexivity.
  - destruct (H Hn) as (s & ev & Hs & Hev & _ & Hr).
    + apply (bool_decide_unpack _). vm_compute. exact Logic.I.
    + exists n, s, ev. split; [exact Hn|]. split; [exact Hs|]. split; [exact Hev|exact Hr].
Defined.

Lemma log_rebuilds_tree_witness :
  same_skel (Tm.tree toy_manager) (Tm.tree (@replay toy_ed25519 toy_env 9 toy_chain (Tm.mutation_log toy_manager))).
Proof.
  apply (@log_rebuilds_tree toy_ed25519 toy_env 9 toy_chain (toy_tick 1) (fun _ => 1%Z) 0 toy_chain (Some x07) toy_ops).
  repeat constructor.
Defined.

Lemma log_events_verify_witness :
  exists ev, last (Tm.mutation_log toy_manager) = Some ev /\
    @Tm.verify_mutation_signature toy_ed25519 toy_env ev (@verifying_key toy_ed25519 x07) = Ok tt.
Proof.
  assert (is_Some (last (Tm.mutation_log toy_manager))) as [ev Hev] by (vm_compute; eexists; reflexivity).
  exists ev. split; [exact Hev|].
  apply (@log_events_verify toy_ed25519 toy_env toy_laws x07 (toy_tick 1) (fun _ => 1%Z) 0 toy_chain toy_ops ev).
  - repeat constructor.
  - apply last_Some_elem_of in Hev. exact Hev.
Defined.

Definition toy_payload : DiffNodePayload :=
  mkPayload "/apps/evil" KApp (Some "/apps") {["owner" := JStr "mallory"]} Score.default zero32.

Lemma sync_payload_unverified_witness :
  let r := @Tm.apply_merkle_diff_verified toy_ed25519 toy_env 5 (mkDiff [] [] [mkEntry "/apps/evil" Added (Some toy_payload) []] 1) [] x08 toy_manager in
  exists n, Tm.tree r.1 !! "/apps/evil" = Some n /\ nd_metadata n !! "owner" = Some (JStr "mallory").
Proof.
  intros r. destruct (@sync_payload_unverified toy_ed25519 toy_env 5 x08 toy_manager [] [] 1 toy_payload "/apps") as [_ H].
  destruct H as (_ & _ & n & Hn & _ & Hmd & _).
  - reflexivity.
  - vm_compute. reflexivity.
  - reflexivity.
  - vm_compute. eexists. reflexivity.
  - exists n. split; [exact Hn|]. rewrite Hmd. reflexivity.
Defined.

Definition toy_spec : BuiltinToolSpec :=
  mkToolSpec "fs.read" CFilesystem "reads" JNull "tool.fs.read" Governance.effect_default true.
Definition toy_version (n : N) : ToolVersion := mkToolVersion n [] [] 0 false 0.

Lemma tool_versions_recorded_witness :
  exists m', @Tm.deploy_tool toy_ed25519 toy_env (fun _ => toy_tick 4) toy_spec (toy_version 1) toy_manager = (m', Ok tt) /\
    @Tm.get_tool_versions toy_ed25519 "fs.read" (@Tm.update_tool_version toy_ed25519 toy_env (fun _ => toy_tick 5) "fs.read" (toy_version 2) m').1
      = [@Tm.version_json toy_ed25519 (toy_version 1); @Tm.version_json toy_ed25519 (toy_version 2)].
Proof.
  destruct (@Tm.deploy_tool toy_ed25519 toy_env (fun _ => toy_tick 4) toy_spec (toy_version 1) toy_manager) as [m' r] eqn:E.
  assert (r = Ok tt) as -> by (apply (f_equal snd) in E; vm_compute in E; symmetry; exact E).
  exists m'. split; [reflexivity|].
  destruct (@tool_versions_recorded toy_ed25519 toy_env (fun _ => toy_tick 4) toy_spec (toy_version 1) toy_manager m' "read"
    [(fun _ => toy_tick 5, toy_version 2)] eq_refl eq_refl E) as (m2 & Hm2 & Hv & _).
  cbn [foldl fst snd] in Hm2. change (sp_name toy_spec) with "fs.read" in Hm2, Hv. rewrite Hm2. exact Hv.
Defined.
