(* ===== verification/TreeView.v ===== *)
(** Per-agent views of the resource tree: crates/clawft-kernel/src/tree_view.rs,
    and how they fit the paths the tree manager uses. *)

From Stdlib Require Import Strings.String.
From S2P Require Import Prelude.
From S2P Require Import Process.
From S2P Require Import Delegation.
From S2P Require Import TreeManager.
Open Scope N_scope.

Inductive TreeScope :=
| SFull
| SRestricted (agent_path : string)
| SNamespace (agent_path : string) (namespaces : list string)
| SNone.

Record AgentTreeView := mkView { vw_agent_id : string; vw_pid : N; vw_scope : TreeScope }.

Module View.

(** [full_access], [restricted], [namespace_scoped] *)
Definition full_access (agent_id : string) (pid : N) : AgentTreeView := mkView agent_id pid SFull.
Definition restricted (agent_id : string) (pid : N) : AgentTreeView :=
  mkView agent_id pid (SRestricted ("/agents/" +:+ agent_id)).
Definition namespace_scoped (agent_id : string) (pid : N) (namespaces : list string) : AgentTreeView :=
  mkView agent_id pid (SNamespace ("/agents/" +:+ agent_id) namespaces).

Definition can_read (v : AgentTreeView) (path : string) : bool :=
  match vw_scope v with
  | SFull => true
  | SRestricted agent_path => starts_with agent_path path || starts_with "/kernel/config/" path
  | SNamespace agent_path namespaces => starts_with agent_path path || existsb (fun ns => starts_with ns path) namespaces
  | SNone => false
  end.

Definition can_write (v : AgentTreeView) (path : string) : bool :=
  match vw_scope v with
  | SFull => true
  | SRestricted agent_path => starts_with agent_path path
  | SNamespace agent_path namespaces => starts_with agent_path path || existsb (fun ns => starts_with ns path) namespaces
  | SNone => false
  end.

Definition assert_read (v : AgentTreeView) (path : string) : result unit KernelError :=
  if can_read v path then Ok tt
  else Err (CapabilityDenied (vw_pid v) ("read path '" +:+ path +:+ "'")
              ("agent '" +:+ vw_agent_id v +:+ "' not authorized for path '" +:+ path +:+ "'")).

Definition assert_write (v : AgentTreeView) (path : string) : result unit KernelError :=
  if can_write v path then Ok tt
  else Err (CapabilityDenied (vw_pid v) ("write path '" +:+ path +:+ "'")
              ("agent '" +:+ vw_agent_id v +:+ "' not authorized to write path '" +:+ path +:+ "'")).

End View.

Lemma prefix_iff p s : String.prefix p s = true <-> exists rest, s = p +:+ rest.
Proof. split; [apply prefix_true_app|]. intros [rest ->]. apply prefix_app. Qed.

(** The paths a view opens: everything, or what extends one of its roots *)
Definition roots (v : AgentTreeView) : list string :=
  match vw_scope v with
  | SFull => [""]
  | SRestricted p => [p]
  | SNamespace p ns => p :: ns
  | SNone => []
  end.

(** A view opens exactly the extensions of its roots: writing is granted there
    and nowhere else, reading there and, for a restricted agent, under the
    kernel's configuration; so no view can write what it cannot read; and a
    refusal names the agent's process. *)
Theorem view_exact v path :
  (View.assert_write v path = Ok tt <-> exists root rest, root ∈ roots v /\ path = root +:+ rest) /\
  (View.assert_read v path = Ok tt <->
     View.assert_write v path = Ok tt \/ ((exists p, vw_scope v = SRestricted p) /\ exists rest, path = "/kernel/config/" +:+ rest)) /\
  (View.assert_write v path <> Ok tt -> exists action reason, View.assert_write v path = Err (CapabilityDenied (vw_pid v) action reason)).
Proof.
  unfold View.assert_write, View.assert_read. split_and!.
  - transitivity (View.can_write v path = true); [by destruct (View.can_write v path)|].
    unfold View.can_write, roots. destruct (vw_scope v) as [|p|p ns|].
    + split; [|done]. intros _. exists "", path. split; [left|done].
    + rewrite prefix_iff. split; [intros [rest ->]; exists p, rest; split; [left|done]|].
      intros (root & rest & ->%list_elem_of_singleton & ->). eauto.
    + rewrite orb_true_iff, existsb_exists. setoid_rewrite prefix_iff. setoid_rewrite elem_of_cons. setoid_rewrite <- list_elem_of_In. split.
      * intros [[rest ->]|(ns0 & Hin & rest & ->)]; [exists p, rest; auto|exists ns0, rest; auto].
      * intros (root & rest & [->|Hin] & ->); [left; eauto|right; eauto].
    + split; [done|]. by intros (? & ? & ?%not_elem_of_nil & _).
  - transitivity (View.can_read v path = true); [by destruct (View.can_read v path)|].
    assert ((if View.can_write v path then Ok tt else Err (CapabilityDenied (vw_pid v) ("write path '" +:+ path +:+ "'")
      ("agent '" +:+ vw_agent_id v +:+ "' not authorized to write path '" +:+ path +:+ "'"))) = Ok tt <-> View.can_write v path = true) as ->
      by (by destruct (View.can_write v path)).
    unfold View.can_write, View.can_read. destruct (vw_scope v) as [|p|p ns|].
    + split; [by left|done].
    + rewrite orb_true_iff, (prefix_iff "/kernel/config/"). split; [intros [?|?]; [by left|right; split; [eauto|done]]|].
      intros [?|[_ ?]]; [by left|by right].
    + split; [by left|]. intros [?|[[? ?] _]]; done.
    + split; [done|]. intros [?|[[? ?] _]]; done.
  - destruct (View.can_write v path); [done|eauto].
Qed.

(** An agent's root is not closed by a separator: an agent also reads and writes
    the subtree of every agent whose name extends its own. *)
Theorem view_leaks_to_longer_names a suffix pid rest :
  View.can_write (View.restricted a pid) ("/agents/" +:+ (a +:+ suffix) +:+ rest) = true.
Proof. unfold View.can_write. cbn. rewrite prefix_iff. exists (suffix +:+ rest). by rewrite !string_app_assoc. Qed.

(** The view's root is not where the tree manager registers the agent: a
    restricted agent cannot read its own node. *)
Theorem view_misses_own_node a pid : View.can_read (View.restricted a pid) (Tm.agent_path a) = false.
Proof. done. Qed.
