(* ===== verification/Mesh.v ===== *)
(** Protocol code of the mesh: mesh_framing.rs (frames on the wire),
    mesh_dedup.rs (the filter of recently seen ids) and the failure detector of
    mesh_heartbeat.rs, with the monotonic clock of mesh_clock.rs as an
    argument. *)

From Stdlib Require Import Strings.String.
From S2P Require Import Prelude.
From S2P Require Import Codec.
Open Scope N_scope.

(** ** mesh_framing.rs *)

Definition MAX_MESSAGE_SIZE : N := 16 * 1024 * 1024.

Inductive MeshError :=
| Transport (msg : string)
| HandshakeErr (msg : string)
| PeerNotConnected (peer : string)
| MeshTooLarge (size max : N)
| ConnectionClosed
| MeshTimeout (msg : string)
| Encryption (msg : string)
| GenesisMismatch
| Io (msg : string).

Inductive FrameType :=
| Handshake | IpcMessage | ChainSync | TreeSync | ServiceAdvert | ProcessAdvert | Heartbeat
| JoinRequest | JoinResponse | SyncDigest | ArtifactRequest | ArtifactResponse | LogAggregation
| AssessmentSync | SensorObservation | InferRequest | InferResponse | TopicRequest | TopicData.

(** [FrameType::as_byte]: the discriminants *)
Definition as_byte (f : FrameType) : N :=
  match f with
  | Handshake => 0x01 | IpcMessage => 0x02 | ChainSync => 0x03 | TreeSync => 0x04
  | ServiceAdvert => 0x05 | ProcessAdvert => 0x06 | Heartbeat => 0x07 | JoinRequest => 0x08
  | JoinResponse => 0x09 | SyncDigest => 0x0A | ArtifactRequest => 0x0B | ArtifactResponse => 0x0C
  | LogAggregation => 0x0D | AssessmentSync => 0x0E | SensorObservation => 0x0F
  | InferRequest => 0x10 | InferResponse => 0x11 | TopicRequest => 0x12 | TopicData => 0x13
  end.

(** [FrameType::from_byte] *)
Definition from_byte (b : N) : option FrameType :=
  match b with
  | 0x01 => Some Handshake | 0x02 => Some IpcMessage | 0x03 => Some ChainSync | 0x04 => Some TreeSync
  | 0x05 => Some ServiceAdvert | 0x06 => Some ProcessAdvert | 0x07 => Some Heartbeat
  | 0x08 => Some JoinRequest | 0x09 => Some JoinResponse | 0x0A => Some SyncDigest
  | 0x0B => Some ArtifactRequest | 0x0C => Some ArtifactResponse | 0x0D => Some LogAggregation
  | 0x0E => Some AssessmentSync | 0x0F => Some SensorObservation | 0x10 => Some InferRequest
  | 0x11 => Some InferResponse | 0x12 => Some TopicRequest | 0x13 => Some TopicData
  | _ => None
  end.

Record MeshFrame := mkFrame { frame_type : FrameType; frame_payload : bytes }.

(** [MeshFrame::encode] *)
Definition encode (f : MeshFrame) : result bytes MeshError :=
  let total := 1 + lenN (frame_payload f) in
  if MAX_MESSAGE_SIZE <? total then Err (MeshTooLarge total MAX_MESSAGE_SIZE)
  else Ok (be_bytes 4 total ++ [byte_of (as_byte (frame_type f))] ++ frame_payload f).

(** [MeshFrame::decode] *)
Definition decode (data : bytes) : result MeshFrame MeshError :=
  match data with
  | [] => Err (Transport "empty frame")
  | b :: payload =>
      match from_byte (Byte.to_N b) with
      | None => Err (Transport ("unknown frame type: 0x" +:+ string_of_list_byte (hex_byte b)))
      | Some t => Ok (mkFrame t payload)
      end
  end.

(** [read_frame] on the message the transport delivers *)
Definition read_frame (data : bytes) : result MeshFrame MeshError :=
  if MAX_MESSAGE_SIZE + 4 <? lenN data then Err (MeshTooLarge (lenN data) MAX_MESSAGE_SIZE)
  else if lenN data <? 5 then Err (Transport "short frame")
  else
    let declared := be_val (take 4 data) in
    if MAX_MESSAGE_SIZE <? declared then Err (MeshTooLarge declared MAX_MESSAGE_SIZE)
    else if negb (declared =? lenN data - 4) then Err (Transport "frame length mismatch")
    else decode (drop 4 data).

Lemma from_byte_as_byte f : from_byte (as_byte f) = Some f.
Proof. by destruct f. Qed.

Lemma as_byte_from_byte b f : from_byte b = Some f -> as_byte f = b.
Proof.
  unfold from_byte. intros H. repeat (case_match; try done); by simplify_eq.
Qed.

Lemma as_byte_small f : as_byte f < 256.
Proof. by destruct f. Qed.

Lemma read_frame_encodes data f : read_frame data = Ok f -> encode f = Ok data.
Proof.
  unfold read_frame, encode.
  destruct (N.ltb_spec (MAX_MESSAGE_SIZE + 4) (lenN data)) as [|Hmax]; [done|].
  destruct (N.ltb_spec (lenN data) 5) as [|Hmin]; [done|].
  destruct (N.ltb_spec MAX_MESSAGE_SIZE (be_val (take 4 data))) as [|Hd]; [done|].
  destruct (N.eqb_spec (be_val (take 4 data)) (lenN data - 4)) as [Heq|]; [|done]. cbn [negb].
  destruct (drop 4 data) as [|b payload] eqn:Hdrop; [done|]. cbn [decode].
  destruct (from_byte (Byte.to_N b)) as [t|] eqn:Ht; [|done]. intros [= <-]. cbn [frame_payload frame_type].
  assert (1 + lenN payload = lenN data - 4) as Hlen.
  { pose proof (length_drop data 4) as Hl. rewrite Hdrop in Hl. unfold lenN in *. cbn in Hl. lia. }
  rewrite Hlen, <- Heq. destruct (N.ltb_spec MAX_MESSAGE_SIZE (be_val (take 4 data))); [lia|]. f_equal.
  assert (length (take 4 data) = 4%nat) as Htake by (rewrite length_take; unfold lenN in Hmin; lia).
  rewrite <- Htake at 1. rewrite be_bytes_val, (as_byte_from_byte _ _ Ht), to_N_byte_of.
  change (take 4 data ++ b :: payload = data). rewrite <- Hdrop. apply take_drop.
Qed.

Lemma be_prefix_split total (rest : bytes) :
  take 4 (be_bytes 4 total ++ rest) = be_bytes 4 total /\ drop 4 (be_bytes 4 total ++ rest) = rest /\
  lenN (be_bytes 4 total ++ rest) = 4 + lenN rest.
Proof.
  split_and!.
  - rewrite take_app_le by (rewrite be_bytes_length; lia). apply take_ge. rewrite be_bytes_length. lia.
  - rewrite <- (be_bytes_length 4 total) at 1. apply drop_app_length.
  - rewrite lenN_app. unfold lenN at 1. by rewrite be_bytes_length.
Qed.

Lemma encode_reads_back data f : encode f = Ok data -> read_frame data = Ok f.
Proof.
  unfold read_frame, encode.
  destruct (N.ltb_spec MAX_MESSAGE_SIZE (1 + lenN (frame_payload f))) as [|Hle]; [done|]. intros Henc.
  set (total := 1 + lenN (frame_payload f)) in *.
  set (rest := [byte_of (as_byte (frame_type f))] ++ frame_payload f) in *.
  assert (data = be_bytes 4 total ++ rest) as -> by congruence.
  assert (total < 256 ^ N.of_nat 4) as Hsmall.
  { change (256 ^ N.of_nat 4) with 4294967296. unfold MAX_MESSAGE_SIZE in Hle. lia. }
  assert (lenN rest = total) as Hrest by (unfold rest, total, lenN; cbn; lia).
  destruct (be_prefix_split total rest) as (-> & -> & ->). rewrite Hrest, be_val_bytes by done.
  destruct (N.ltb_spec (MAX_MESSAGE_SIZE + 4) (4 + total)); [lia|].
  destruct (N.ltb_spec (4 + total) 5); [unfold total in *; lia|].
  destruct (N.ltb_spec MAX_MESSAGE_SIZE total); [lia|].
  destruct (N.eqb_spec total (4 + total - 4)); [|lia]. cbn [negb].
  unfold rest. cbn [decode app]. rewrite byte_of_to_N, N.mod_small by apply as_byte_small.
  rewrite from_byte_as_byte. by destruct f.
Qed.

(** C17: The wire format is a bijection: reading accepts a message exactly when
    it is the encoding of the frame it returns.  What [write_frame] sends is
    read back unchanged, and no other byte string, however framed, is taken
    for that frame. *)
Theorem frame_round_trip data f : read_frame data = Ok f <-> encode f = Ok data.
Proof. split; [apply read_frame_encodes|apply encode_reads_back]. Qed.

(** ** mesh_dedup.rs

    Times are the nanoseconds of [MonoTime]; [order] is the order in which the
    map of seen ids is iterated. *)

Record DedupFilter := mkDedup { seen : gmap string N; ttl : N; max_entries : N }.

Definition dedup_new (ttl max_entries : N) : DedupFilter := mkDedup ∅ ttl max_entries.
Definition default_mesh : DedupFilter := dedup_new (60 * 1000000000) 10000.

(** [min_by_key]: the first entry of least time *)
Fixpoint min_entry (l : list (string * N)) : option (string * N) :=
  match l with
  | [] => None
  | x :: l =>
      match min_entry l with
      | None => Some x
      | Some y => if snd y <? snd x then Some y else Some x
      end
  end.

Section Dedup.
Variable order : gmap string N -> list (string * N).

(** [evict_expired], [evict_oldest]; subtraction saturates. *)
Definition evict_expired (f : DedupFilter) (now : N) : DedupFilter :=
  mkDedup (filter (fun kv => now - kv.2 < ttl f) (seen f)) (ttl f) (max_entries f).

Definition evict_oldest (f : DedupFilter) : DedupFilter :=
  match min_entry (order (seen f)) with
  | Some (k, _) => mkDedup (delete k (seen f)) (ttl f) (max_entries f)
  | None => f
  end.

(** [check_and_insert]; the clock reads [now] for the eviction and [now'] for
    the entry. *)
Definition check_and_insert (f : DedupFilter) (now now' : N) (id : string) : DedupFilter * bool :=
  let f := evict_expired f now in
  match seen f !! id with
  | Some _ => (f, false)
  | None =>
      let f := if max_entries f <=? N.of_nat (size (seen f)) then evict_oldest f else f in
      (mkDedup (<[id := now']> (seen f)) (ttl f) (max_entries f), true)
  end.

(** [is_duplicate] *)
Definition is_duplicate (f : DedupFilter) (now : N) (id : string) : bool :=
  match seen f !! id with Some t => now - t <? ttl f | None => false end.

(** A sequence of arrivals, and how many of them were new *)
Fixpoint arrivals (f : DedupFilter) (l : list (string * N * N)) : DedupFilter * N :=
  match l with
  | [] => (f, 0)
  | (id, now, now') :: l =>
      let '(f, fresh) := check_and_insert f now now' id in
      let '(f, n) := arrivals f l in (f, (if fresh then 1 else 0) + n)
  end.

Hypothesis order_perm : forall m, order m ≡ₚ map_to_list m.

Lemma min_entry_some l x : min_entry l = Some x -> x ∈ l /\ Forall (fun y => snd x <= snd y) l.
Proof.
  revert x. induction l as [|y l IH]; intros x H; [done|]. cbn in H.
  destruct (min_entry l) as [z|] eqn:Hz.
  - destruct (IH z eq_refl) as [Hin Hall]. destruct (N.ltb_spec (snd z) (snd y)); injection H as <-.
    + split; [by right|]. constructor; [lia|done].
    + split; [by left|]. constructor; [lia|]. eapply Forall_impl; [exact Hall|]. cbn. lia.
  - injection H as <-. destruct l as [|z l].
    + split; [by left|]. by repeat constructor.
    + exfalso. cbn in Hz. destruct (min_entry l); [by destruct (_ <? _)|done].
Qed.

Lemma min_entry_none l : min_entry l = None -> l = [].
Proof. destruct l as [|x l]; [done|]. cbn. destruct (min_entry l); [by destruct (_ <? _)|done]. Qed.

(** The entries other than [id] that are at least as recent as [t] *)
Definition newer (m : gmap string N) (id : string) (t : N) : gmap string N :=
  filter (fun kv => kv.1 <> id /\ t <= kv.2) m.

Lemma newer_insert_le m id t k v :
  N.of_nat (size (newer (<[k := v]> m) id t)) <= N.of_nat (size (newer m id t)) + 1.
Proof.
  unfold newer. destruct (decide (k <> id /\ t <= v)) as [Hp|Hp].
  - rewrite map_filter_insert_True by done. pose proof (size_insert_le (newer m id t) k v). unfold newer in *. lia.
  - rewrite map_filter_insert_False by done. rewrite map_filter_delete.
    pose proof (size_delete_le (newer m id t) k). unfold newer in *. lia.
Qed.

Lemma newer_sub m m' id t : m ⊆ m' -> N.of_nat (size (newer m id t)) <= N.of_nat (size (newer m' id t)).
Proof.
  intros Hs. unfold newer. enough (size (newer m id t) <= size (newer m' id t))%nat by (unfold newer in *; lia).
  by apply map_subseteq_size, map_filter_subseteq_mono.
Qed.

(** An eviction removes an entry only if every other one is at least as recent. *)
Lemma evict_oldest_keeps f id t :
  seen f !! id = Some t -> N.of_nat (size (newer (seen f) id t)) + 1 < N.of_nat (size (seen f)) ->
  seen (evict_oldest f) !! id = Some t.
Proof.
  intros Hid Hlt. unfold evict_oldest. destruct (min_entry (order (seen f))) as [[k v]|] eqn:Hm; [|done]. cbn.
  apply min_entry_some in Hm as [Hin Hall]. rewrite order_perm in Hin, Hall. apply elem_of_map_to_list in Hin.
  destruct (decide (k = id)) as [->|Hne]; [|by rewrite lookup_delete_ne]. exfalso. simplify_eq.
  assert (newer (seen f) id t = delete id (seen f)) as Heq.
  { apply map_eq. intros j. unfold newer. destruct (decide (j = id)) as [->|Hj].
    - rewrite lookup_delete_eq. apply map_lookup_filter_None. right. intros x _ [? _]. done.
    - rewrite lookup_delete_ne by done. destruct (seen f !! j) as [x|] eqn:Hx.
      + apply map_lookup_filter_Some. split; [done|]. split; [done|]. cbn.
        rewrite Forall_forall in Hall. apply (Hall (j, x)). by apply elem_of_map_to_list.
      + apply map_lookup_filter_None. by left. }
  rewrite Heq, map_size_delete_Some in Hlt by eauto. lia.
Qed.

Lemma evict_oldest_sub f : seen (evict_oldest f) ⊆ seen f.
Proof.
  unfold evict_oldest. destruct (min_entry _) as [[k v]|]; [|done]. cbn. apply delete_subseteq.
Qed.

Lemma evict_oldest_config f : ttl (evict_oldest f) = ttl f /\ max_entries (evict_oldest f) = max_entries f.
Proof. unfold evict_oldest. by destruct (min_entry _) as [[k v]|]. Qed.

Lemma check_config f now now' id :
  ttl (fst (check_and_insert f now now' id)) = ttl f /\ max_entries (fst (check_and_insert f now now' id)) = max_entries f.
Proof.
  unfold check_and_insert. destruct (seen (evict_expired f now) !! id); [done|].
  destruct (_ <=? _); cbn; [|done]. destruct (evict_oldest_config (evict_expired f now)) as [-> ->]. done.
Qed.

(** One arrival of another id keeps the entry of [id], while fewer than
    [max_entries] ids came after it. *)
Lemma check_keeps f now now' k id t :
  seen f !! id = Some t -> now - t < ttl f ->
  N.of_nat (size (newer (seen f) id t)) + 1 < max_entries f ->
  let '(f', fresh) := check_and_insert f now now' k in
  seen f' !! id = Some t /\
  N.of_nat (size (newer (seen f') id t)) <= N.of_nat (size (newer (seen f) id t)) + (if fresh then 1 else 0).
Proof.
  intros Hid Httl Hmax. unfold check_and_insert. set (g := evict_expired f now).
  assert (seen g ⊆ seen f) as Hgf by apply map_filter_subseteq.
  assert (seen g !! id = Some t) as Hg by (by apply map_lookup_filter_Some).
  pose proof (newer_sub _ _ id t Hgf) as Hn.
  destruct (seen g !! k) as [v|] eqn:Hk; [split; [done|lia]|].
  assert (k <> id) as Hne by congruence. cbn [seen].
  rewrite lookup_insert_ne by done.
  set (g' := if max_entries g <=? _ then evict_oldest g else g).
  assert (seen g' ⊆ seen g /\ seen g' !! id = Some t) as [Hsub Hid'].
  { subst g'. destruct (N.leb_spec (max_entries g) (N.of_nat (size (seen g)))) as [Hfull|]; [|done].
    split; [apply evict_oldest_sub|]. apply evict_oldest_keeps; [done|]. change (max_entries g) with (max_entries f) in Hfull. lia. }
  split; [done|]. pose proof (newer_insert_le (seen g') id t k now'). pose proof (newer_sub _ _ id t Hsub). lia.
Qed.

Lemma arrivals_keep l f id t last :
  seen f !! id = Some t -> last - t < ttl f -> Forall (fun e => e.1.2 <= last) l ->
  N.of_nat (size (newer (seen f) id t)) + snd (arrivals f l) < max_entries f ->
  seen (fst (arrivals f l)) !! id = Some t /\ ttl (fst (arrivals f l)) = ttl f.
Proof.
  revert f. induction l as [|[[k now] now'] l IH]; intros f Hid Httl Hle Hmax; [done|].
  apply Forall_cons in Hle as [Hnow Hle]. cbn in Hnow. cbn [arrivals] in *.
  pose proof (check_config f now now' k) as [Ht Hm].
  destruct (check_and_insert f now now' k) as [f' fresh] eqn:Hc. cbn [fst] in Ht, Hm.
  destruct (arrivals f' l) as [f'' n] eqn:Ha. cbn [fst snd] in *.
  destruct (decide (fresh = true)) as [->|Hdup].
  - change (if true then 1 else 0) with 1 in Hmax.
    pose proof (check_keeps f now now' k id t Hid ltac:(lia) ltac:(lia)) as Hk. rewrite Hc in Hk. destruct Hk as [Hid' Hn].
    specialize (IH f' Hid'). rewrite Ha in IH. cbn [fst snd] in IH. rewrite Ht, Hm in IH. apply IH; [done|done|lia].
  - destruct fresh; [done|]. change (if false then 1 else 0) with 0 in Hmax. unfold check_and_insert in Hc.
    destruct (seen (evict_expired f now) !! k) eqn:Hk; [|done]. injection Hc as <-.
    assert (seen (evict_expired f now) !! id = Some t) as Hid' by (apply map_lookup_filter_Some; split; [done|cbn; lia]).
    specialize (IH _ Hid'). rewrite Ha in IH. cbn [fst snd] in IH. apply IH; [done|done|].
    pose proof (newer_sub (seen (evict_expired f now)) (seen f) id t (map_filter_subseteq _ _)).
    change (max_entries (evict_expired f now)) with (max_entries f). lia.
Qed.

(** A replayed message is caught.  Once an id has been accepted, at a time
    later than every entry of the filter, it is rejected for the whole time to
    live, whatever arrives in between, as long as fewer new ids arrive than
    the filter holds. *)
Theorem dedup_rejects_replay f id t0 t l now now' :
  (forall k v, seen f !! k = Some v -> v < t) ->
  snd (check_and_insert f t0 t id) = true ->
  Forall (fun e => e.1.2 <= now) l -> now - t < ttl f ->
  snd (arrivals (fst (check_and_insert f t0 t id)) l) < max_entries f ->
  snd (check_and_insert (fst (arrivals (fst (check_and_insert f t0 t id)) l)) now now' id) = false.
Proof.
  intros Hold Hnew Hl Httl Hmax. pose proof (check_config f t0 t id) as [Ht Hm].
  assert (seen (fst (check_and_insert f t0 t id)) !! id = Some t /\
    size (newer (seen (fst (check_and_insert f t0 t id))) id t) = 0%nat) as [Hid Hsz].
  { unfold check_and_insert in *. set (g := evict_expired f t0) in *.
    assert (seen g ⊆ seen f) as Hgf by apply map_filter_subseteq.
    destruct (seen g !! id); [done|]. cbn [fst seen].
    set (g' := if max_entries g <=? _ then evict_oldest g else g).
    assert (seen g' ⊆ seen f) as Hsub.
    { subst g'. destruct (_ <=? _); [|done]. etransitivity; [apply evict_oldest_sub|done]. }
    rewrite lookup_insert_eq. split; [done|]. apply map_size_empty_iff, map_empty.
    intros k. apply map_lookup_filter_None. right. intros v Hkv [Hne Hle]. cbn in *. apply lookup_insert_Some in Hkv as [[? _]|[_ Hkv]]; [congruence|].
    specialize (Hold k v (lookup_weaken _ _ _ _ Hkv Hsub)). lia. }
  destruct (arrivals_keep l _ id t now Hid) as [Hkeep Httl']; [by rewrite Ht|done|rewrite Hm; lia|].
  unfold check_and_insert at 1. rewrite Ht in Httl'.
  assert (seen (evict_expired (fst (arrivals (fst (check_and_insert f t0 t id)) l)) now) !! id = Some t) as ->; [|done].
  apply map_lookup_filter_Some. split; [done|]. cbn. by rewrite Httl'.
Qed.

End Dedup.

Lemma dedup_rejects_replay_witness :
  snd (check_and_insert map_to_list
        (fst (arrivals map_to_list (fst (check_and_insert map_to_list (dedup_new 100 2) 5 5 "m1")) [("m2", 6, 7)])) 10 10 "m1")
  = false.
Proof.
  apply (dedup_rejects_replay map_to_list (fun m => reflexivity _) (dedup_new 100 2) "m1" 5 5 [("m2", 6, 7)] 10 10).
  - intros k v Hk. cbn in Hk. by rewrite lookup_empty in Hk.
  - vm_compute. reflexivity.
  - repeat constructor. cbn. lia.
  - vm_compute. reflexivity.
  - vm_compute. reflexivity.
Defined.

(** ** mesh_heartbeat.rs *)

Record HeartbeatConfig := mkHbConfig {
  probe_interval : N;
  ping_timeout : N;
  indirect_timeout : N;
  indirect_witnesses : N;
  suspect_timeout : N;
}.

Definition hb_default : HeartbeatConfig :=
  mkHbConfig 1000000000 500000000 1000000000 3 5000000000.

Inductive HeartbeatState := Alive | Suspect | Dead.

#[global] Instance HeartbeatState_eq_dec : EqDecision HeartbeatState.
Proof. solve_decision. Defined.

Record PeerHeartbeat := mkPeer {
  hb_state : HeartbeatState;
  last_seen : N;
  suspect_since : option N;
  missed_count : N;
  last_ping_seq : N;
}.

Module Peer.

Definition new (now : N) : PeerHeartbeat := mkPeer Alive now None 0 0.

Definition record_alive (p : PeerHeartbeat) (now : N) : PeerHeartbeat :=
  mkPeer Alive now None 0 (last_ping_seq p).

Definition record_miss (cfg : HeartbeatConfig) (p : PeerHeartbeat) (now : N) : PeerHeartbeat :=
  let missed := wrap_add32 (missed_count p) 1 in
  match hb_state p with
  | Alive => mkPeer Suspect (last_seen p) (Some now) missed (last_ping_seq p)
  | Suspect =>
      let state := match suspect_since p with
                   | Some since => if suspect_timeout cfg <=? now - since then Dead else Suspect
                   | None => Suspect
                   end in
      mkPeer state (last_seen p) (suspect_since p) missed (last_ping_seq p)
  | Dead => mkPeer Dead (last_seen p) (suspect_since p) missed (last_ping_seq p)
  end.

Definition is_unreachable (cfg : HeartbeatConfig) (p : PeerHeartbeat) (now : N) : bool :=
  bool_decide (hb_state p = Dead) || (suspect_timeout cfg * 3 <? now - last_seen p).

End Peer.

Record HeartbeatTracker := mkTracker {
  hb_config : HeartbeatConfig;
  hb_peers : gmap string PeerHeartbeat;
  hb_next_sequence : N;
}.

Module Tracker.

Definition new (cfg : HeartbeatConfig) : HeartbeatTracker := mkTracker cfg ∅ 1.

Definition with_peers (f : gmap string PeerHeartbeat -> gmap string PeerHeartbeat) (t : HeartbeatTracker)
    : HeartbeatTracker := mkTracker (hb_config t) (f (hb_peers t)) (hb_next_sequence t).

(** [entry(id).or_insert_with] *)
Definition add_peer (t : HeartbeatTracker) (now : N) (id : string) : HeartbeatTracker :=
  match hb_peers t !! id with
  | Some _ => t
  | None => with_peers (insert id (Peer.new now)) t
  end.

Definition remove_peer (t : HeartbeatTracker) (id : string) : HeartbeatTracker := with_peers (delete id) t.

Definition record_alive (t : HeartbeatTracker) (now : N) (id : string) : HeartbeatTracker :=
  with_peers (alter (fun p => Peer.record_alive p now) id) t.

Definition record_miss (t : HeartbeatTracker) (now : N) (id : string) : HeartbeatTracker :=
  with_peers (alter (fun p => Peer.record_miss (hb_config t) p now) id) t.

Definition next_sequence (t : HeartbeatTracker) : HeartbeatTracker * N :=
  (mkTracker (hb_config t) (hb_peers t) (wrap_add64 (hb_next_sequence t) 1), hb_next_sequence t).

Definition in_state (s : HeartbeatState) (t : HeartbeatTracker) : list string :=
  map fst (filter (fun kv => hb_state kv.2 = s) (map_to_list (hb_peers t))).
Definition suspect_peers : HeartbeatTracker -> list string := in_state Suspect.
Definition dead_peers : HeartbeatTracker -> list string := in_state Dead.
Definition peer_count (t : HeartbeatTracker) : N := N.of_nat (size (hb_peers t)).
Definition peer_state (t : HeartbeatTracker) (id : string) : option HeartbeatState :=
  hb_state <$> hb_peers t !! id.

End Tracker.

(** What is observed of one peer, with the time of each observation *)
Inductive observation := ObsAlive (now : N) | ObsMiss (now : N).

Definition observe (cfg : HeartbeatConfig) (p : PeerHeartbeat) (o : observation) : PeerHeartbeat :=
  match o with
  | ObsAlive now => Peer.record_alive p now
  | ObsMiss now => Peer.record_miss cfg p now
  end.

(** The times of the misses since the peer last answered, in order *)
Definition misses (obs : list observation) : list N :=
  foldl (fun ms o => match o with ObsAlive _ => [] | ObsMiss now => ms ++ [now] end) [] obs.

(** The verdict the misses since the last answer call for: suspect from the
    first one, dead from the first one that comes [suspect_timeout] after it. *)
Definition verdict (cfg : HeartbeatConfig) (ms : list N) : HeartbeatState :=
  match ms with
  | [] => Alive
  | first :: later => if existsb (fun m => suspect_timeout cfg <=? m - first) later then Dead else Suspect
  end.

Lemma misses_snoc obs o :
  misses (obs ++ [o]) = match o with ObsAlive _ => [] | ObsMiss now => misses obs ++ [now] end.
Proof. unfold misses. rewrite foldl_app. by destruct o. Qed.

(** The failure detector tells a peer's state from the misses since its
    last answer alone: it is alive when there are none, suspect from the first
    miss, and dead exactly when a later miss comes at least the suspect
    timeout after that first one; one answer clears everything. *)
Theorem heartbeat_verdict cfg now obs :
  let p := foldl (observe cfg) (Peer.new now) obs in
  hb_state p = verdict cfg (misses obs) /\ suspect_since p = head (misses obs) /\
  missed_count p = lenN (misses obs) mod u32_mod.
Proof.
  induction obs as [|o obs IH] using rev_ind; [done|]. rewrite foldl_app, misses_snoc. cbn [foldl].
  set (p := foldl (observe cfg) (Peer.new now) obs) in *. destruct IH as (Hs & Hf & Hc).
  destruct o as [t|t]; [done|]. cbn [observe].
  assert (wrap_add32 (missed_count p) 1 = lenN (misses obs ++ [t]) mod u32_mod) as Hcount.
  { unfold wrap_add32. rewrite Hc, lenN_app, N.Div0.add_mod_idemp_l. done. }
  unfold Peer.record_miss. rewrite Hcount, Hs, Hf. destruct (misses obs) as [|first later]; cbn [verdict head app]; [done|].
  rewrite existsb_app. cbn [existsb]. destruct (existsb _ later); cbn [orb]; [done|].
  rewrite orb_false_r. by destruct (suspect_timeout cfg <=? t - first).
Qed.
