(* ===== verification/Budget.v ===== *)
(** Fixed-window budgets: refusal_budget.rs (chain writes caused by
    unauthenticated requests) and the restart tracker of supervisor.rs.  Times
    are nanoseconds of a monotonic clock. *)

From S2P Require Import Prelude.
Open Scope N_scope.

(** ** refusal_budget.rs *)

Definition DEFAULT_PER_WINDOW : N := 16.
Definition DEFAULT_WINDOW : N := 60 * 1000000000.

(** [RefusalBudget] with its locked [State] *)
Record RefusalBudget := mkRefusal {
  per_window : N;
  rf_window : N;
  rf_start : N;
  rf_used : N;
  rf_suppressed : N;
}.

Module Refusal.

Definition new (per_window window now : N) : RefusalBudget := mkRefusal per_window window now 0 0.

(** [RefusalBudget::take]; the clock reads [now] for the elapsed time and
    [now'] for the start of a new window. *)
Definition take (b : RefusalBudget) (now now' : N) : RefusalBudget * option N :=
  let expired := rf_window b <=? now - rf_start b in
  let start := if expired then now' else rf_start b in
  let used := if expired then 0 else rf_used b in
  if per_window b <=? used then
    (mkRefusal (per_window b) (rf_window b) start used (sat_add64 (rf_suppressed b) 1), None)
  else (mkRefusal (per_window b) (rf_window b) start (used + 1) 0, Some (rf_suppressed b)).

Fixpoint run (b : RefusalBudget) (calls : list (N * N)) : RefusalBudget * list (N * option N) :=
  match calls with
  | [] => (b, [])
  | (now, now') :: calls =>
      let '(b, r) := take b now now' in
      let '(b, rs) := run b calls in (b, (now, r) :: rs)
  end.

End Refusal.

(** ** supervisor.rs: restart budgets *)

Inductive RestartStrategy := OneForOne | OneForAll | RestForOne | Permanent | Transient.

Record RestartBudget := mkBudget { max_restarts : N; within_secs : N }.
Definition budget_default : RestartBudget := mkBudget 5 60.

Record RestartTracker := mkRestart {
  restart_count : N;
  window_start : N;
  last_restart : option N;
  backoff_ms : N;
}.

Module Restart.

Definition new (now : N) : RestartTracker := mkRestart 0 now None 0.

(** [next_backoff_ms] *)
Definition next_backoff_ms (count : N) : N :=
  let exponent := count - 1 in
  N.min (sat_mul64 100 (N.shiftl 1 (N.min exponent 20))) 30000.

(** [Duration::as_secs] of the time since the window started *)
Definition elapsed_secs (t : RestartTracker) (now : N) : N := (now - window_start t) / 1000000000.

(** [check_window] *)
Definition check_window (b : RestartBudget) (t : RestartTracker) (now : N) : RestartTracker :=
  if within_secs b <? elapsed_secs t now
  then mkRestart 0 now (last_restart t) (backoff_ms t) else t.

(** [record_restart]; [now'] is the second read of the clock. *)
Definition record_restart (b : RestartBudget) (t : RestartTracker) (now now' : N) : RestartTracker * bool :=
  let t := check_window b t now in
  let count := wrap_add32 (restart_count t) 1 in
  (mkRestart count (window_start t) (Some now') (next_backoff_ms count), count <=? max_restarts b).

(** [is_exhausted], [remaining], [should_restart] *)
Definition is_exhausted (b : RestartBudget) (t : RestartTracker) (now : N) : bool :=
  if within_secs b <? elapsed_secs t now then false else max_restarts b <=? restart_count t.

Definition remaining (b : RestartBudget) (t : RestartTracker) (now : N) : N :=
  if within_secs b <? elapsed_secs t now then max_restarts b else max_restarts b - restart_count t.

Definition should_restart (s : RestartStrategy) (exit_code : Z) : bool :=
  match s with
  | Permanent => false
  | Transient => negb (exit_code =? 0)%Z
  | _ => true
  end.

Fixpoint run (b : RestartBudget) (t : RestartTracker) (calls : list (N * N)) : RestartTracker * list (N * bool) :=
  match calls with
  | [] => (t, [])
  | (now, now') :: calls =>
      let '(t, ok) := record_restart b t now now' in
      let '(t, oks) := run b t calls in (t, (now, ok) :: oks)
  end.

End Restart.

(** ** The fixed window both are *)

Section Window.
Variables (width cap : N).

(** One call in a window that started at [start] and granted [used]: the time
    it reads, and the time a new window would start. *)
Definition win_step (start used now now' : N) : N * N * bool :=
  let '(start, used) := if width <=? now - start then (now', 0) else (start, used) in
  if cap <=? used then (start, used, false) else (start, used + 1, true).

(** The times of the granted calls *)
Fixpoint granted (start used : N) (calls : list (N * N)) : list N :=
  match calls with
  | [] => []
  | (now, now') :: calls =>
      let '(start, used, ok) := win_step start used now now' in
      (if ok then [now] else []) ++ granted start used calls
  end.

(** The clock reads of the calls, in order *)
Definition reads (calls : list (N * N)) : list N := flat_map (fun c => [c.1; c.2]) calls.

Definition in_span (a b : N) (l : list N) : N := lenN (filter (fun t => a <= t < b) l).

Lemma in_span_nil a b : in_span a b [] = 0.
Proof. reflexivity. Qed.

Lemma in_span_cons a b x l :
  in_span a b (x :: l) = (if decide (a <= x < b) then 1 else 0) + in_span a b l.
Proof. unfold in_span. rewrite filter_cons. case_decide; unfold lenN; cbn [length]; lia. Qed.

Lemma in_span_out a b l : Forall (fun t => b <= t) l -> in_span a b l = 0.
Proof.
  intros H. unfold in_span. rewrite list_filter_none; [done|]. intros x Hx. rewrite Forall_forall in H.
  specialize (H x Hx). cbn in H. lia.
Qed.

Lemma granted_ge lo start used calls : Forall (fun t => lo <= t) (reads calls) -> Forall (fun t => lo <= t) (granted start used calls).
Proof.
  revert start used. induction calls as [|[now now'] calls IH]; intros start used H; [constructor|].
  apply Forall_cons in H as [Hn H]. apply Forall_cons in H as [_ H]. cbn [granted].
  destruct (win_step start used now now') as [[s u] ok].
  apply Forall_app. split; [destruct ok; by repeat constructor|by apply IH].
Qed.

Lemma reads_cons now now' calls :
  StronglySorted N.le (reads ((now, now') :: calls)) ->
  now <= now' /\ Forall (N.le now') (reads calls) /\ StronglySorted N.le (reads calls).
Proof.
  intros H. apply StronglySorted_inv in H as [H Hn]. apply Forall_cons in Hn as [Hn _].
  apply StronglySorted_inv in H as [H H']. done.
Qed.

(** A window that started inside the span grants what it has left. *)
Lemma span_last a b start used calls :
  b - a <= width -> a <= start -> used <= cap -> StronglySorted N.le (start :: reads calls) ->
  in_span a b (granted start used calls) <= cap - used.
Proof.
  intros Hw Ha. revert used. induction calls as [|[now now'] calls IH]; intros used Hu Hs; [cbn [granted]; rewrite in_span_nil; lia|].
  apply StronglySorted_inv in Hs as [Hs Hall]. apply Forall_cons in Hall as [Hn Hall]. apply Forall_cons in Hall as [_ Hall]. cbn in Hn.
  apply reads_cons in Hs as (Hnn & Hge & Hs). cbn [granted]. unfold win_step.
  destruct (N.leb_spec width (now - start)) as [Hexp|Hin].
  - assert (Forall (fun t => b <= t) (reads calls)) as Hb.
    { eapply Forall_impl; [exact Hge|]. cbn. lia. }
    destruct (cap <=? 0); cbn [app]; rewrite ?in_span_cons, in_span_out by (by apply granted_ge);
      [lia|]. case_decide; lia.
  - assert (StronglySorted N.le (start :: reads calls)) as Hs' by (by constructor).
    destruct (N.leb_spec cap used) as [Hfull|Hfree]; cbn [app].
    + by apply IH.
    + rewrite in_span_cons. specialize (IH (used + 1) ltac:(lia) Hs'). case_decide; lia.
Qed.

(** Calls that all come after the start of the span *)
Lemma span_mid a b start used calls :
  b - a <= width -> used <= cap -> StronglySorted N.le (reads calls) -> Forall (fun t => a <= t) (reads calls) ->
  in_span a b (granted start used calls) <= cap - used + cap.
Proof.
  intros Hw. revert start used. induction calls as [|[now now'] calls IH]; intros start used Hu Hs Ha;
    [cbn [granted]; rewrite in_span_nil; lia|].
  apply reads_cons in Hs as (Hnn & Hge & Hs). apply Forall_cons in Ha as [_ Ha]. apply Forall_cons in Ha as [Han Ha]. cbn in Han.
  cbn [granted]. unfold win_step. destruct (N.leb_spec width (now - start)) as [Hexp|Hin].
  - assert (forall u, u <= cap -> in_span a b (granted now' u calls) <= cap - u) as Hlast.
    { intros u Hu'. apply span_last; [done|done|done|by constructor]. }
    destruct (N.leb_spec cap 0) as [Hz|Hp]; cbn [app].
    + specialize (Hlast 0 ltac:(lia)). lia.
    + rewrite in_span_cons. specialize (Hlast (0 + 1) ltac:(lia)). case_decide; lia.
  - destruct (N.leb_spec cap used) as [Hfull|Hfree]; cbn [app].
    + by apply IH.
    + rewrite in_span_cons. specialize (IH start (used + 1) ltac:(lia) Hs Ha). case_decide; lia.
Qed.

(** A span no longer than the window meets at most two windows. *)
Lemma span_two_windows a b start used calls :
  b - a <= width -> used <= cap -> StronglySorted N.le (reads calls) ->
  in_span a b (granted start used calls) <= 2 * cap.
Proof.
  intros Hw. revert start used. induction calls as [|[now now'] calls IH]; intros start used Hu Hs; [cbn [granted]; rewrite in_span_nil; lia|].
  destruct (decide (a <= now)) as [Han|Han].
  - pose proof (span_mid a b start used ((now, now') :: calls) Hw Hu Hs) as Hm.
    enough (in_span a b (granted start used ((now, now') :: calls)) <= cap - used + cap) by lia. apply Hm.
    apply reads_cons in Hs as (Hnn & Hge & Hs). constructor; [done|]. constructor; [cbn; lia|].
    eapply Forall_impl; [exact Hge|]. cbn. lia.
  - apply reads_cons in Hs as (Hnn & Hge & Hs). cbn [granted]. unfold win_step.
    destruct (if width <=? now - start then (now', 0) else (start, used)) as [s u] eqn:E.
    assert (u <= cap) by (destruct (width <=? now - start); simplify_eq; lia).
    destruct (N.leb_spec cap u); cbn [app].
    + by apply IH.
    + rewrite in_span_cons, decide_False by lia. apply IH; [lia|done].
Qed.

End Window.

(** ** Refusals *)

Definition chained (rs : list (N * option N)) : list N :=
  omap (fun r => match snd r with Some _ => Some (fst r) | None => None end) rs.

(** The suppressed counts that were reported, and the calls that were suppressed *)
Definition reported (rs : list (N * option N)) : N :=
  foldr (fun r n => default 0 (snd r) + n) 0 rs.
Definition suppressed (rs : list (N * option N)) : N :=
  foldr (fun r n => (match snd r with Some _ => 0 | None => 1 end) + n) 0 rs.

Lemma refusal_run_granted b calls :
  chained (snd (Refusal.run b calls)) = granted (rf_window b) (per_window b) (rf_start b) (rf_used b) calls.
Proof.
  revert b. induction calls as [|[now now'] calls IH]; intros b; [done|].
  cbn [Refusal.run granted]. unfold Refusal.take, win_step.
  destruct (rf_window b <=? now - rf_start b); destruct (per_window b <=? _);
    match goal with |- context [Refusal.run ?b' calls] => specialize (IH b'); destruct (Refusal.run b' calls) as [b'' rs] end;
    cbn in *; by rewrite IH.
Qed.

Lemma refusal_run_counts b calls :
  rf_suppressed b + lenN calls < u64_mod ->
  let '(b', rs) := Refusal.run b calls in
  reported rs + rf_suppressed b' = rf_suppressed b + suppressed rs.
Proof.
  revert b. induction calls as [|[now now'] calls IH]; intros b Hlen; [cbn; lia|].
  assert (lenN ((now, now') :: calls) = 1 + lenN calls) as Hl by (unfold lenN; cbn; lia).
  cbn [Refusal.run]. unfold Refusal.take. destruct (per_window b <=? _).
  - match goal with |- context [Refusal.run ?b' calls] => specialize (IH b'); destruct (Refusal.run b' calls) as [b'' rs] end.
    cbn [reported suppressed foldr snd default rf_suppressed] in *.
    change (foldr _ 0 rs) with (reported rs) at 1. change (foldr _ 0 rs) with (suppressed rs).
    rewrite sat_add64_small in IH by lia. specialize (IH ltac:(lia)). cbn. lia.
  - match goal with |- context [Refusal.run ?b' calls] => specialize (IH b'); destruct (Refusal.run b' calls) as [b'' rs] end.
    cbn [reported suppressed foldr snd default rf_suppressed] in *.
    change (foldr _ 0 rs) with (reported rs) at 1. change (foldr _ 0 rs) with (suppressed rs).
    specialize (IH ltac:(lia)). cbn. lia.
Qed.

(** Unauthenticated requests cannot grow the chain without bound: in any
    stretch of time no longer than the window at most twice the budget of
    refusals is chained, however many arrive; and none is lost from the
    record, since the counts reported on the chained ones and the count still
    pending add up to the refusals that were not chained. *)
Theorem refusals_bounded budget window now0 calls a b :
  StronglySorted N.le (reads calls) -> b - a <= window -> lenN calls < u64_mod ->
  let '(st, rs) := Refusal.run (Refusal.new budget window now0) calls in
  in_span a b (chained rs) <= 2 * budget /\ reported rs + rf_suppressed st = suppressed rs.
Proof.
  intros Hs Hw Hlen. pose proof (refusal_run_granted (Refusal.new budget window now0) calls) as Hg.
  pose proof (refusal_run_counts (Refusal.new budget window now0) calls) as Hc.
  destruct (Refusal.run (Refusal.new budget window now0) calls) as [st rs]. cbn [snd] in Hg. split.
  - rewrite Hg. by apply span_two_windows; [|cbn; lia|].
  - cbn in Hc. apply Hc. done.
Qed.

Lemma refusals_bounded_witness :
  in_span 0 60 (chained (snd (Refusal.run (Refusal.new 2 60 0) [(1, 1); (2, 3); (3, 3); (70, 71); (71, 71)]))) <= 4.
Proof.
  pose proof (refusals_bounded 2 60 0 [(1, 1); (2, 3); (3, 3); (70, 71); (71, 71)] 0 60) as H.
  destruct (Refusal.run (Refusal.new 2 60 0) [(1, 1); (2, 3); (3, 3); (70, 71); (71, 71)]) as [st rs] eqn:E. cbn [snd].
  apply H.
  - cbn. repeat (constructor; try lia).
  - lia.
  - reflexivity.
Defined.

(** ** Restarts *)

Definition restarts (rs : list (N * bool)) : list N :=
  omap (fun r : N * bool => if snd r then Some (fst r) else None) rs.

(** A window is over when more than [within_secs] whole seconds have passed. *)
Definition restart_width (b : RestartBudget) : N := (within_secs b + 1) * 1000000000.

Lemma elapsed_window b t now :
  (within_secs b <? Restart.elapsed_secs t now) = (restart_width b <=? now - window_start t).
Proof.
  unfold Restart.elapsed_secs, restart_width. apply eq_bool_prop_intro. rewrite !Is_true_true, N.ltb_lt, N.leb_le.
  split; intros H.
  - pose proof (N.Div0.mul_div_le (now - window_start t) 1000000000). lia.
  - enough (within_secs b + 1 <= (now - window_start t) / 1000000000) by lia.
    apply N.div_le_lower_bound; lia.
Qed.

Lemma restart_run_granted b t calls :
  max_restarts b < u32_mod -> restart_count t + lenN calls < u32_mod ->
  restarts (snd (Restart.run b t calls)) =
  granted (restart_width b) (max_restarts b) (window_start t) (N.min (restart_count t) (max_restarts b))
    (map (fun c => (c.1, c.1)) calls).
Proof.
  intros Hmax. revert t. induction calls as [|[now now'] calls IH]; intros t Hlen; [done|].
  assert (lenN ((now, now') :: calls) = 1 + lenN calls) as Hl by (unfold lenN; cbn; lia).
  cbn [Restart.run map granted fst]. unfold Restart.record_restart, Restart.check_window, win_step.
  rewrite elapsed_window. destruct (restart_width b <=? now - window_start t).
  - cbn [restart_count window_start]. rewrite wrap_add32_small by (unfold u32_mod in *; lia).
    match goal with |- context [Restart.run b ?t' calls] => specialize (IH t'); destruct (Restart.run b t' calls) as [t'' rs] end.
    cbn [restart_count window_start snd] in *. specialize (IH ltac:(lia)).
    destruct (N.leb_spec (0 + 1) (max_restarts b)), (N.leb_spec (max_restarts b) 0); try lia; cbn; fold (restarts rs); rewrite IH.
    + rewrite N.min_l by lia. done.
    + rewrite N.min_r by lia. by replace (max_restarts b) with 0 by lia.
  - rewrite wrap_add32_small by lia.
    match goal with |- context [Restart.run b ?t' calls] => specialize (IH t'); destruct (Restart.run b t' calls) as [t'' rs] end.
    cbn [restart_count window_start snd] in *. specialize (IH ltac:(lia)).
    destruct (N.leb_spec (restart_count t + 1) (max_restarts b)),
      (N.leb_spec (max_restarts b) (N.min (restart_count t) (max_restarts b))); try lia; cbn; fold (restarts rs); rewrite IH.
    + do 2 f_equal. lia.
    + f_equal. lia.
Qed.

Lemma backoff_bounds count : 100 <= Restart.next_backoff_ms count <= 30000.
Proof.
  unfold Restart.next_backoff_ms. rewrite N.shiftl_1_l.
  assert (1 <= 2 ^ N.min (count - 1) 20) by (change 1 with (2 ^ 0); apply N.pow_le_mono_r; lia).
  unfold sat_mul64, u64_mod. lia.
Qed.

Lemma reads_firsts calls :
  StronglySorted N.le (reads calls) -> StronglySorted N.le (reads (map (fun c => (c.1, c.1)) calls)).
Proof.
  induction calls as [|[now now'] calls IH]; intros H; [constructor|].
  apply reads_cons in H as (Hnn & Hge & Hs).
  assert (Forall (N.le now) (reads (map (fun c => (c.1, c.1)) calls))) as Hf.
  { clear -Hnn Hge. induction calls as [|[n n'] calls IH]; [constructor|].
    apply Forall_cons in Hge as [H1 H2]. apply Forall_cons in H2 as [_ H2]. cbn in H1.
    constructor; [cbn; lia|]. constructor; [cbn; lia|by apply IH]. }
  constructor; [constructor; [by apply IH|done]|]. constructor; [done|done].
Qed.

(** The delay doubles with every restart until it reaches thirty seconds. *)
Lemma backoff_doubles count :
  1 <= count -> count <= 20 ->
  Restart.next_backoff_ms (count + 1) = N.min (2 * Restart.next_backoff_ms count) 30000.
Proof.
  intros H1 H2. unfold Restart.next_backoff_ms. rewrite !N.shiftl_1_l.
  rewrite (N.min_l (count + 1 - 1)), (N.min_l (count - 1)) by lia. replace (count + 1 - 1) with (N.succ (count - 1)) by lia. rewrite N.pow_succ_r'.
  assert (2 ^ (count - 1) <= 2 ^ 20) as Hp by (apply N.pow_le_mono_r; lia). change (2 ^ 20) with 1048576 in Hp.
  unfold sat_mul64, u64_mod. lia.
Qed.

(** A failing agent cannot be restarted in a tight loop: in any stretch of
    time no longer than the budget's window (its seconds and one more) at most
    twice the budget of restarts is granted, and after every attempt the
    backoff is between a tenth of a second and thirty seconds. *)
Theorem restarts_bounded bud now0 calls a b :
  StronglySorted N.le (reads calls) -> b - a <= restart_width bud ->
  max_restarts bud < u32_mod -> lenN calls < u32_mod ->
  let '(t, rs) := Restart.run bud (Restart.new now0) calls in
  in_span a b (restarts rs) <= 2 * max_restarts bud /\
  (calls <> [] -> 100 <= backoff_ms t <= 30000).
Proof.
  intros Hs Hw Hmax Hlen. pose proof (restart_run_granted bud (Restart.new now0) calls Hmax) as Hg.
  assert (forall t, calls <> [] \/ 100 <= backoff_ms t <= 30000 ->
    100 <= backoff_ms (fst (Restart.run bud t calls)) <= 30000) as Hb.
  { clear. induction calls as [|[now now'] calls IH]; intros t H; [by destruct H|]. cbn [Restart.run].
    unfold Restart.record_restart. set (t1 := mkRestart _ _ _ _).
    specialize (IH t1 ltac:(right; apply backoff_bounds)). by destruct (Restart.run bud t1 calls). }
  specialize (Hb (Restart.new now0)). destruct (Restart.run bud (Restart.new now0) calls) as [t rs]. cbn [fst snd] in *. split.
  - rewrite Hg by (cbn; lia). apply span_two_windows; [done|cbn; lia|by apply reads_firsts].
  - intros Hne. apply Hb. by left.
Qed.

Lemma restarts_bounded_witness :
  in_span 0 61000000000 (restarts (snd (Restart.run budget_default (Restart.new 0)
    (map (fun s => (s * 1000000000, s * 1000000000 + 1)) [1; 2; 3; 4; 5; 6])))) <= 10.
Proof.
  pose proof (restarts_bounded budget_default 0
    (map (fun s => (s * 1000000000, s * 1000000000 + 1)) [1; 2; 3; 4; 5; 6]) 0 61000000000) as H.
  destruct (Restart.run budget_default (Restart.new 0) _) as [t rs]. cbn [snd].
  apply H.
  - cbn. repeat (constructor; try lia).
  - vm_compute. discriminate.
  - reflexivity.
  - reflexivity.
Defined.

(** The factor two is reached: ten restarts within one second under the default
    budget of five per minute. *)
Lemma restart_burst :
  restarts (snd (Restart.run budget_default (Restart.new 0)
    (replicate 5 (60000000000, 60000000000) ++ replicate 5 (61000000000, 61000000000))))
  = replicate 5 60000000000 ++ replicate 5 61000000000.
Proof. vm_compute. reflexivity. Qed.
