(* ===== verification/UnionFind.v ===== *)
(** The incremental component index of causal.rs ([ComponentIndex]): a
    union-find forest with union by rank and path compression.  The loops of
    [find] carry fuel, the number of registered nodes, which [find_spec] shows
    to be enough; [refines_parts] relates the index to the partition it stands
    for. *)

From S2P Require Import Prelude.
Open Scope N_scope.

Record ComponentIndex := mkIndex {
  uf_parent : gmap N N;
  uf_rank : gmap N N;
  uf_count : N;
}.

Module UF.

(** [ComponentIndex::new], [clear] *)
Definition new : ComponentIndex := mkIndex ∅ ∅ 0.

(** [ComponentIndex::add] *)
Definition add (i : ComponentIndex) (id : N) : ComponentIndex :=
  match uf_parent i !! id with
  | Some _ => i
  | None => mkIndex (<[id := id]> (uf_parent i)) (<[id := 0]> (uf_rank i)) (wrap_add64 (uf_count i) 1)
  end.

(** The first loop of [find]: up to the root.  No result stands for a missing
    key (the index operator panics) or for exhausted fuel. *)
Fixpoint root_loop (fuel : nat) (p : gmap N N) (root : N) : option N :=
  match fuel with
  | O => None
  | S fuel =>
      match p !! root with
      | None => None
      | Some up => if up =? root then Some root else root_loop fuel p up
      end
  end.

(** The second loop of [find]: every node of the path is hung below the root. *)
Fixpoint compress (fuel : nat) (p : gmap N N) (cur root : N) : option (gmap N N) :=
  if cur =? root then Some p
  else
    match fuel with
    | O => None
    | S fuel =>
        match p !! cur with
        | None => None
        | Some up => compress fuel (<[cur := root]> p) up root
        end
    end.

(** [ComponentIndex::find] *)
Definition find (i : ComponentIndex) (id : N) : ComponentIndex * option N :=
  match uf_parent i !! id with
  | None => (i, None)
  | Some _ =>
      let fuel := size (uf_parent i) in
      match root_loop fuel (uf_parent i) id with
      | None => (i, None)
      | Some root =>
          match compress fuel (uf_parent i) id root with
          | None => (i, None)
          | Some p => (mkIndex p (uf_rank i) (uf_count i), Some root)
          end
      end
  end.

Definition rank_of (i : ComponentIndex) (x : N) : N := default 0 (uf_rank i !! x).

(** The linking half of [union], on two different roots; ranks are [u8]. *)
Definition link_roots (i : ComponentIndex) (ra rb : N) : ComponentIndex :=
  let a := rank_of i ra in
  let b := rank_of i rb in
  let count := uf_count i - 1 in
  if a <? b then mkIndex (<[ra := rb]> (uf_parent i)) (uf_rank i) count
  else if b <? a then mkIndex (<[rb := ra]> (uf_parent i)) (uf_rank i) count
  else mkIndex (<[rb := ra]> (uf_parent i)) (<[ra := (a + 1) mod u8_mod]> (uf_rank i)) count.

(** [ComponentIndex::union] *)
Definition union (i : ComponentIndex) (a b : N) : ComponentIndex * bool :=
  let '(i, oa) := find i a in
  match oa with
  | None => (i, false)
  | Some ra =>
      let '(i, ob) := find i b in
      match ob with
      | None => (i, false)
      | Some rb => if ra =? rb then (i, false) else (link_roots i ra rb, true)
      end
  end.

End UF.

(** ** The root of a node *)

Inductive Rep (p : gmap N N) : N -> N -> Prop :=
| rep_root r : p !! r = Some r -> Rep p r r
| rep_step x y r : p !! x = Some y -> x <> y -> Rep p y r -> Rep p x r.

Lemma rep_is_root p x r : Rep p x r -> p !! r = Some r.
Proof. by induction 1. Qed.

Lemma rep_dom p x r : Rep p x r -> is_Some (p !! x).
Proof. destruct 1; eauto. Qed.

Lemma rep_fun p x r r' : Rep p x r -> Rep p x r' -> r = r'.
Proof.
  intros H. revert r'. induction H as [r Hr|x y r Hxy Hne _ IH]; intros r' H'.
  - destruct H'; [done|]. congruence.
  - destruct H' as [|x y' r' Hxy' _ H']; [congruence|]. apply IH. congruence.
Qed.

(** Two nodes of one tree *)
Definition same (p : gmap N N) (x y : N) : Prop := exists r, Rep p x r /\ Rep p y r.

Lemma same_sym p x y : same p x y -> same p y x.
Proof. intros (r & ? & ?). by exists r. Qed.

Lemma same_trans p x y z : same p x y -> same p y z -> same p x z.
Proof. intros (r & Hx & Hy) (r' & Hy' & Hz). rewrite (rep_fun _ _ _ _ Hy' Hy) in Hz. by exists r. Qed.

Lemma same_roots p r r' : p !! r = Some r -> p !! r' = Some r' -> same p r r' -> r = r'.
Proof.
  intros Hr Hr' (s & H & H'). transitivity s; [exact (rep_fun _ _ _ _ (rep_root _ _ Hr) H)|].
  exact (rep_fun _ _ _ _ H' (rep_root _ _ Hr')).
Qed.

(** ** Well-formedness *)

(** The forest is ranked: ranks grow along the edges.  That bounds the length
    of a path. *)
Record ranked (p rk : gmap N N) : Prop := {
  rk_dom : forall x, is_Some (p !! x) <-> is_Some (rk !! x);
  rk_closed : forall x y, p !! x = Some y -> is_Some (p !! y);
  rk_up : forall x y, p !! x = Some y -> x <> y -> default 0 (rk !! x) < default 0 (rk !! y);
}.

(** The nodes of higher rank: what a walk up from [x] has left *)
Definition higher (p rk : gmap N N) (x : N) : gmap N N :=
  filter (fun kv => default 0 (rk !! x) < default 0 (rk !! kv.1)) p.

Lemma higher_lt p rk x : is_Some (p !! x) -> (size (higher p rk x) < size p)%nat.
Proof.
  intros [y Hx]. unfold higher.
  assert (filter (fun kv => default 0 (rk !! x) < default 0 (rk !! kv.1)) p ⊆ delete x p) as Hsub.
  { apply map_subseteq_spec. intros k v [Hk Hlt]%map_lookup_filter_Some. cbn in Hlt.
    rewrite lookup_delete_ne; [done|]. intros ->. lia. }
  apply map_subseteq_size in Hsub. rewrite map_size_delete_Some in Hsub by eauto.
  assert (size p <> 0)%nat by (apply map_size_non_empty_iff; intros ->; by rewrite lookup_empty in Hx). lia.
Qed.

Lemma higher_step p rk x y :
  ranked p rk -> p !! x = Some y -> x <> y -> (size (higher p rk y) < size (higher p rk x))%nat.
Proof.
  intros Hr Hxy Hne. pose proof (rk_up _ _ Hr _ _ Hxy Hne) as Hup.
  destruct (rk_closed _ _ Hr _ _ Hxy) as [z Hz].
  assert (higher p rk y ⊆ delete y (higher p rk x)) as Hsub.
  { apply map_subseteq_spec. intros k v [Hk Hlt]%map_lookup_filter_Some. cbn in Hlt.
    rewrite lookup_delete_ne by (intros ->; lia). apply map_lookup_filter_Some. split; [done|]. cbn. lia. }
  apply map_subseteq_size in Hsub.
  assert (higher p rk x !! y = Some z) as Hin by (by apply map_lookup_filter_Some).
  rewrite map_size_delete_Some in Hsub by eauto.
  assert (size (higher p rk x) <> 0)%nat by (apply map_size_non_empty_iff; intros E; rewrite E, lookup_empty in Hin; done).
  lia.
Qed.

Lemma root_loop_total p rk fuel x :
  ranked p rk -> is_Some (p !! x) -> (size (higher p rk x) < fuel)%nat ->
  exists r, UF.root_loop fuel p x = Some r /\ Rep p x r.
Proof.
  intros Hr. revert x. induction fuel as [|fuel IH]; intros x [y Hx] Hf; [lia|]. cbn [UF.root_loop].
  rewrite Hx. destruct (N.eqb_spec y x) as [->|Hne]; [eexists; split; [done|by constructor]|].
  destruct (IH y) as (r & Hl & Hrep).
  - by apply (rk_closed _ _ Hr x).
  - pose proof (higher_step p rk x y Hr Hx ltac:(congruence)). lia.
  - exists r. split; [done|]. eapply rep_step; eauto.
Qed.

Lemma rep_total p rk x : ranked p rk -> is_Some (p !! x) -> exists r, Rep p x r.
Proof.
  intros Hr Hx. destruct (root_loop_total p rk (size p) x Hr Hx) as (r & _ & H); [by apply higher_lt|eauto].
Qed.

Lemma same_refl p rk x : ranked p rk -> is_Some (p !! x) -> same p x x.
Proof. intros Hr Hx. destruct (rep_total p rk x Hr Hx) as [r H]. by exists r. Qed.

Lemma rep_rank p rk x r : ranked p rk -> Rep p x r -> x <> r -> default 0 (rk !! x) < default 0 (rk !! r).
Proof.
  intros Hr. induction 1 as [r Hroot|x y r Hxy Hne Hrep IH]; intros Hxr; [done|].
  pose proof (rk_up _ _ Hr _ _ Hxy Hne). destruct (decide (y = r)) as [->|Hyr]; [done|].
  specialize (IH Hyr). lia.
Qed.

(** ** Path compression keeps the trees *)

Lemma hang_rep p c r x s :
  Rep p c r -> c <> r -> Rep p x s <-> Rep (<[c := r]> p) x s.
Proof.
  intros Hc Hne. pose proof (rep_is_root _ _ _ Hc) as Hroot.
  assert (Rep (<[c := r]> p) r r) as Hr' by (constructor; by rewrite lookup_insert_ne).
  assert (forall x s, Rep p x s -> Rep (<[c := r]> p) x s) as Hto.
  { clear x s. intros x s H. induction H as [s Hs|x y s Hxy Hxne Hrep IH].
    - destruct (decide (s = c)) as [->|]; [|constructor; by rewrite lookup_insert_ne].
      pose proof (rep_fun _ _ _ _ Hc (rep_root _ _ Hs)). congruence.
    - destruct (decide (x = c)) as [->|]; [|eapply rep_step; [by rewrite lookup_insert_ne|done|done]].
      rewrite (rep_fun _ _ _ _ (rep_step _ _ _ _ Hxy Hxne Hrep) Hc).
      eapply rep_step; [by rewrite lookup_insert_eq|done|done]. }
  split; [apply Hto|]. intros H. induction H as [s Hs|x y s Hxy Hxne Hrep IH].
  - destruct (decide (s = c)) as [->|Hsc]; [rewrite lookup_insert_eq in Hs; congruence|].
    rewrite lookup_insert_ne in Hs by done. by constructor.
  - destruct (decide (x = c)) as [->|Hxc].
    + rewrite lookup_insert_eq in Hxy. simplify_eq.
      by rewrite (rep_fun _ _ _ _ IH (rep_root _ _ Hroot)).
    + rewrite lookup_insert_ne in Hxy by done. by eapply rep_step.
Qed.

Lemma hang_ranked p rk c r :
  ranked p rk -> Rep p c r -> c <> r -> ranked (<[c := r]> p) rk.
Proof.
  intros Hr Hc Hne. destruct (rep_dom _ _ _ Hc) as [y Hy]. pose proof (rep_is_root _ _ _ Hc) as Hroot.
  assert (forall x, is_Some (<[c := r]> p !! x) <-> is_Some (p !! x)) as Hdom.
  { intros x. destruct (decide (x = c)) as [->|]; [rewrite lookup_insert_eq, Hy; split; eauto|by rewrite lookup_insert_ne]. }
  split.
  - intros x. rewrite Hdom. apply (rk_dom _ _ Hr).
  - intros x z Hxz. apply Hdom. apply lookup_insert_Some in Hxz as [[_ <-]|[_ Hxz]]; [eauto|by apply (rk_closed _ _ Hr x)].
  - intros x z Hxz Hxne. apply lookup_insert_Some in Hxz as [[<- <-]|[_ Hxz]]; [by apply (rep_rank p)|by apply (rk_up _ _ Hr)].
Qed.

Lemma compress_spec p rk fuel c r :
  ranked p rk -> Rep p c r -> (size (higher p rk c) <= fuel)%nat ->
  exists p', UF.compress fuel p c r = Some p' /\ ranked p' rk /\ (forall x s, Rep p x s <-> Rep p' x s).
Proof.
  revert p c. induction fuel as [|fuel IH]; intros p c Hr Hc Hf; cbn [UF.compress];
    (destruct (N.eqb_spec c r) as [->|Hne]; [by exists p|]);
    destruct Hc as [|c y r Hcy Hcne Hrep]; try done.
  - pose proof (higher_step p rk c y Hr Hcy Hcne). lia.
  - rewrite Hcy. pose proof (rep_step _ _ _ _ Hcy Hcne Hrep) as Hc.
    assert (forall x, is_Some (<[c := r]> p !! x) <-> is_Some (p !! x)) as Hdom.
    { intros x. destruct (decide (x = c)) as [->|]; [rewrite lookup_insert_eq, Hcy; split; eauto|by rewrite lookup_insert_ne]. }
    destruct (IH (<[c := r]> p) y) as (p' & Hp & Hr' & Hsame).
    + by apply hang_ranked.
    + by apply hang_rep.
    + pose proof (higher_step p rk c y Hr Hcy Hcne) as Hlt.
      assert (size (higher (<[c := r]> p) rk y) = size (higher p rk y)) as ->; [|lia].
      rewrite <- !(size_dom (D := gset N)). f_equal. apply set_eq. intros x. rewrite !elem_of_dom. unfold higher.
      split; intros [z [Hz Hlt']%map_lookup_filter_Some].
      * destruct (proj1 (Hdom x) ltac:(eauto)) as [w Hw]. exists w. by apply map_lookup_filter_Some.
      * destruct (proj2 (Hdom x) ltac:(eauto)) as [w Hw]. exists w. by apply map_lookup_filter_Some.
    + exists p'. split; [done|]. split; [done|]. intros x s. rewrite (hang_rep p c r x s Hc Hne). apply Hsame.
Qed.

(** ** The whole index *)

Definition cls (p : gmap N N) (r : N) : gset N :=
  filter (fun x => UF.root_loop (size p) p x = Some r) (dom p).
Definition roots (p : gmap N N) : gset N := filter (fun x => p !! x = Some x) (dom p).

Lemma elem_of_cls p rk r x : ranked p rk -> x ∈ cls p r <-> Rep p x r.
Proof.
  intros Hr. unfold cls. rewrite elem_of_filter, elem_of_dom. split.
  - intros [Hl Hx]. destruct (root_loop_total p rk (size p) x Hr Hx) as (s & Hs & Hrep); [by apply higher_lt|].
    congruence.
  - intros Hrep. pose proof (rep_dom _ _ _ Hrep) as Hx. split; [|done].
    destruct (root_loop_total p rk (size p) x Hr Hx) as (s & Hs & Hrep'); [by apply higher_lt|].
    by rewrite (rep_fun _ _ _ _ Hrep Hrep').
Qed.

Lemma elem_of_roots p r : r ∈ roots p <-> p !! r = Some r.
Proof. unfold roots. rewrite elem_of_filter, elem_of_dom. naive_solver. Qed.

Lemma cls_size p r : (size (cls p r) <= size p)%nat.
Proof. rewrite <- (size_dom (D := gset N) p). apply subseteq_size. intros x [_ ?]%elem_of_filter. done. Qed.

Lemma roots_size p : (size (roots p) <= size p)%nat.
Proof. rewrite <- (size_dom (D := gset N) p). apply subseteq_size. intros x [_ ?]%elem_of_filter. done. Qed.

Lemma cls_ext p p' rk rk' :
  ranked p rk -> ranked p' rk' -> (forall x s, Rep p x s <-> Rep p' x s) -> forall r, cls p r = cls p' r.
Proof.
  intros Hr Hr' H r. apply set_eq. intros x. by rewrite (elem_of_cls p rk), (elem_of_cls p' rk').
Qed.

Lemma roots_ext p p' : (forall x s, Rep p x s <-> Rep p' x s) -> roots p = roots p'.
Proof.
  intros H. apply set_eq. intros x. rewrite !elem_of_roots. split; intros Hx;
    eapply rep_is_root; [apply H|apply H]; by constructor.
Qed.

Record uf_wf (i : ComponentIndex) : Prop := {
  wf_ranked : ranked (uf_parent i) (uf_rank i);
  wf_count : uf_count i = N.of_nat (size (roots (uf_parent i)));
  wf_weight : forall r, uf_parent i !! r = Some r ->
    2 ^ UF.rank_of i r <= N.of_nat (size (cls (uf_parent i) r));
}.

Lemma new_wf : uf_wf UF.new.
Proof.
  split.
  - split; intros x; cbn; rewrite ?lookup_empty; [split; intros [? ?]; done|..]; intros y; by rewrite lookup_empty.
  - reflexivity.
  - intros r. cbn. by rewrite lookup_empty.
Qed.

Definition registered (i : ComponentIndex) (x : N) : Prop := is_Some (uf_parent i !! x).
Definition together (i : ComponentIndex) (x y : N) : Prop := same (uf_parent i) x y.

Lemma together_registered i x y : together i x y -> registered i x /\ registered i y.
Proof. intros (r & Hx & Hy). split; by eapply rep_dom. Qed.

(** [find] always returns, answers the root, and changes no tree. *)
Lemma find_spec i id :
  uf_wf i -> registered i id ->
  exists i' r, UF.find i id = (i', Some r) /\ Rep (uf_parent i) id r /\ uf_wf i' /\
    (forall x s, Rep (uf_parent i) x s <-> Rep (uf_parent i') x s).
Proof.
  intros Hwf Hid. pose proof (wf_ranked _ Hwf) as Hr. unfold UF.find. pose proof Hid as [y Hy]. rewrite Hy.
  destruct (root_loop_total _ _ (size (uf_parent i)) id Hr Hid) as (r & Hl & Hrep); [by apply higher_lt|].
  rewrite Hl. destruct (compress_spec _ _ (size (uf_parent i)) id r Hr Hrep) as (p' & Hc & Hr' & Hsame).
  { pose proof (higher_lt _ (uf_rank i) id Hid). lia. }
  rewrite Hc. eexists _, r. split; [done|]. split; [done|]. split; [|done]. split; cbn.
  - done.
  - rewrite (wf_count _ Hwf). by rewrite (roots_ext _ p').
  - intros s Hs. rewrite <- (cls_ext (uf_parent i) p' _ _ Hr Hr' Hsame). apply (wf_weight _ Hwf).
    eapply rep_is_root. apply Hsame. by constructor.
Qed.

Lemma find_unregistered i id : ~ registered i id -> UF.find i id = (i, None).
Proof. intros H. unfold UF.find. destruct (uf_parent i !! id) eqn:E; [|done]. destruct H. by exists n. Qed.

(** ** Registering a node *)

Lemma add_rep p id x s :
  p !! id = None -> (forall x y, p !! x = Some y -> is_Some (p !! y)) ->
  Rep (<[id := id]> p) x s <-> Rep p x s \/ (x = id /\ s = id).
Proof.
  intros Hnew Hcl. split.
  - intros H. induction H as [s Hs|x y s Hxy Hne Hrep IH].
    + apply lookup_insert_Some in Hs as [[<- _]|[_ Hs]]; [by right|left; by constructor].
    + apply lookup_insert_Some in Hxy as [[<- <-]|[Hxid Hxy]]; [done|]. destruct IH as [IH|[-> ->]]; [left; by eapply rep_step|].
      destruct (Hcl _ _ Hxy) as [? ?]. congruence.
  - intros [H|[-> ->]]; [|constructor; by rewrite lookup_insert_eq].
    assert (forall z w, p !! z = Some w -> <[id := id]> p !! z = Some w) as Hz.
    { intros z w Hzw. rewrite lookup_insert_ne; [done|]. congruence. }
    induction H as [s Hs|x y s Hxy Hne Hrep IH]; [constructor; auto|eapply rep_step; eauto].
Qed.

Lemma add_spec i id :
  uf_wf i -> N.of_nat (size (uf_parent i)) + 1 < u64_mod ->
  uf_wf (UF.add i id) /\
  (forall x, registered (UF.add i id) x <-> x = id \/ registered i x) /\
  (forall x y, together (UF.add i id) x y <-> together i x y \/ (x = id /\ y = id)).
Proof.
  intros Hwf Hsz. pose proof (wf_ranked _ Hwf) as Hr. unfold UF.add.
  destruct (uf_parent i !! id) as [y|] eqn:Hid.
  { split; [done|]. split; intros x; [unfold registered; naive_solver|]. intros z. split; [by left|].
    intros [?|[-> ->]]; [done|]. eapply same_refl; eauto. }
  pose proof (add_rep (uf_parent i) id) as Hrep. specialize (fun x s => Hrep x s Hid (rk_closed _ _ Hr)).
  assert (ranked (<[id := id]> (uf_parent i)) (<[id := 0]> (uf_rank i))) as Hr'.
  { assert (uf_rank i !! id = None) as Hid'.
    { destruct (uf_rank i !! id) eqn:E; [|done]. destruct (proj2 (rk_dom _ _ Hr id) ltac:(eauto)). congruence. }
    split.
    - intros x. destruct (decide (x = id)) as [->|]; [rewrite !lookup_insert_eq; split; eauto|].
      rewrite !lookup_insert_ne by done. apply (rk_dom _ _ Hr).
    - intros x z Hxz. destruct (decide (z = id)) as [->|]; [rewrite lookup_insert_eq; eauto|]. rewrite lookup_insert_ne by done.
      apply lookup_insert_Some in Hxz as [[_ <-]|[_ Hxz]]; [done|by apply (rk_closed _ _ Hr x)].
    - intros x z Hxz Hne. apply lookup_insert_Some in Hxz as [[<- <-]|[Hx Hxz]]; [done|].
      destruct (decide (z = id)) as [->|]; [destruct (rk_closed _ _ Hr _ _ Hxz); congruence|].
      rewrite !lookup_insert_ne by done. by apply (rk_up _ _ Hr). }
  split; [split; cbn|split].
  - done.
  - rewrite (wf_count _ Hwf). pose proof (roots_size (uf_parent i)). rewrite wrap_add64_small by lia.
    assert (roots (<[id := id]> (uf_parent i)) = {[id]} ∪ roots (uf_parent i)) as ->.
    { apply set_eq. intros x. rewrite elem_of_union, elem_of_singleton, !elem_of_roots, lookup_insert_Some.
      destruct (decide (x = id)); naive_solver. }
    rewrite size_union, size_singleton by (intros x ->%elem_of_singleton; rewrite elem_of_roots; congruence). lia.
  - intros r Hroot. unfold UF.rank_of. cbn [uf_rank].
    destruct (decide (r = id)) as [->|Hne].
    + rewrite lookup_insert_eq. change (2 ^ default 0 (Some 0)) with 1. assert (id ∈ cls (<[id := id]> (uf_parent i)) id) as Hin.
      { eapply elem_of_cls; [done|]. apply Hrep. by right. }
      assert (size (cls (<[id := id]> (uf_parent i)) id) <> 0)%nat by (apply size_non_empty_iff; set_solver).
      lia.
    + rewrite lookup_insert_ne in Hroot |- * by done. pose proof (wf_weight _ Hwf r Hroot) as Hw. unfold UF.rank_of in Hw.
      assert (cls (<[id := id]> (uf_parent i)) r = cls (uf_parent i) r) as ->; [|done].
      apply set_eq. intros x. rewrite (elem_of_cls _ _ _ _ Hr'), (elem_of_cls _ _ _ _ Hr), Hrep.
      split; [intros [?|[_ ->]]; done|by left].
  - intros x. unfold registered. cbn. rewrite lookup_insert_is_Some. split; [intros [<-|[_ ?]]; auto|].
    intros [->|?]; [by left|]. destruct (decide (id = x)); auto.
  - assert (forall z, ~ Rep (uf_parent i) z id) as Hno by (intros z Hz; apply rep_is_root in Hz; congruence).
    intros x y. unfold together, same. cbn. setoid_rewrite Hrep. split.
    + intros (r & [Hx|[-> ->]] & [Hy|[-> Hr2]]); [left; by exists r| |by destruct (Hno y)|by right].
      subst. by destruct (Hno x).
    + intros [(r & Hx & Hy)|[-> ->]]; [exists r|exists id]; auto.
Qed.

(** ** Linking two roots *)

Lemma link_rep p a b x s :
  p !! a = Some a -> p !! b = Some b -> a <> b ->
  Rep (<[b := a]> p) x s <-> (Rep p x s /\ s <> b) \/ (Rep p x b /\ s = a).
Proof.
  intros Ha Hb Hne.
  assert (Rep (<[b := a]> p) a a) as Ha' by (constructor; by rewrite lookup_insert_ne).
  split.
  - intros H. induction H as [s Hs|x y s Hxy Hxne Hrep IH].
    + apply lookup_insert_Some in Hs as [[-> Hs]|[Hbs Hs]]; [done|]. left. split; [by constructor|done].
    + apply lookup_insert_Some in Hxy as [[<- <-]|[Hbx Hxy]].
      * right. split; [by constructor|]. symmetry. exact (rep_fun _ _ _ _ Ha' Hrep).
      * destruct IH as [[? ?]|[? ->]]; [left|right]; (split; [by eapply rep_step|done]).
  - intros [[H Hs]|[H ->]].
    + induction H as [s Hroot|x y s Hxy Hxne Hrep IH]; [constructor; by rewrite lookup_insert_ne|].
      eapply rep_step; [rewrite lookup_insert_ne; [done|congruence]|done|by apply IH].
    + remember b as s eqn:Es. induction H as [s Hroot|x y s Hxy Hxne Hrep IH].
      * subst. eapply rep_step; [by rewrite lookup_insert_eq|done|done].
      * subst. eapply rep_step; [rewrite lookup_insert_ne; [done|congruence]|done|by apply IH].
Qed.

Section HangRoot.
Context (i : ComponentIndex) (a b : N) (rk : gmap N N).
Hypothesis Hwf : uf_wf i.
Hypothesis Ha : uf_parent i !! a = Some a.
Hypothesis Hb : uf_parent i !! b = Some b.
Hypothesis Hne : a <> b.
Hypothesis Hdom : forall x, is_Some (uf_rank i !! x) <-> is_Some (rk !! x).
Hypothesis Hother : forall x, x <> a -> default 0 (rk !! x) = UF.rank_of i x.
Hypothesis Hgrow : UF.rank_of i a <= default 0 (rk !! a).
Hypothesis Hlt : UF.rank_of i b < default 0 (rk !! a).
Hypothesis Hweight : 2 ^ default 0 (rk !! a) <= 2 ^ UF.rank_of i a + 2 ^ UF.rank_of i b.

Let p := uf_parent i.
Let p' := <[b := a]> p.

Lemma hang_root_ranked : ranked p' rk.
Proof using All.
  pose proof (wf_ranked _ Hwf : ranked p (uf_rank i)) as Hr. unfold UF.rank_of in *.
  assert (forall x, is_Some (p' !! x) <-> is_Some (p !! x)) as Hd.
  { intros x. unfold p', p. destruct (decide (x = b)) as [->|]; [rewrite lookup_insert_eq, Hb; split; eauto|by rewrite lookup_insert_ne]. }
  split.
  - intros x. rewrite Hd, <- Hdom. apply (rk_dom _ _ Hr).
  - intros x y Hxy. apply Hd. apply lookup_insert_Some in Hxy as [[_ <-]|[_ Hxy]]; [eauto|by apply (rk_closed _ _ Hr x)].
  - intros x y Hxy Hxne. apply lookup_insert_Some in Hxy as [[<- <-]|[Hbx Hxy]].
    + by rewrite (Hother b).
    + pose proof (rk_up _ _ Hr x y Hxy Hxne) as Hup.
      assert (x <> a) as Hxa by (intros ->; unfold p in *; congruence). rewrite (Hother x Hxa).
      destruct (decide (y = a)) as [->|Hya]; [lia|by rewrite (Hother y Hya)].
Qed.

Lemma hang_root_cls r :
  p' !! r = Some r -> cls p' r = if decide (r = a) then cls p a ∪ cls p b else cls p r.
Proof using All.
  intros Hroot. pose proof (wf_ranked _ Hwf : ranked p (uf_rank i)) as Hr. pose proof hang_root_ranked as Hr'.
  apply set_eq. intros x. rewrite (elem_of_cls _ _ _ _ Hr'). unfold p'. rewrite link_rep by done.
  assert (r <> b) as Hrb by (intros ->; unfold p' in Hroot; rewrite lookup_insert_eq in Hroot; congruence).
  case_decide as Hra; [subst; rewrite elem_of_union|]; rewrite !(elem_of_cls _ _ _ _ Hr).
  - split; [intros [[? _]|[? _]]; auto|intros [?|?]; [left|right]; done].
  - split; [intros [[? _]|[_ ?]]; done|by left].
Qed.

Lemma hang_root_wf : uf_wf (mkIndex p' rk (uf_count i - 1)).
Proof using All.
  pose proof hang_root_ranked as Hr'. split; cbn; [done| |].
  - assert (roots p' = roots p ∖ {[b]}) as ->.
    { apply set_eq. intros x. rewrite elem_of_difference, elem_of_singleton, !elem_of_roots. unfold p'.
      rewrite lookup_insert_Some. split; [intros [[-> ?]|[? ?]]; [congruence|split; [done|congruence]]|].
      intros [? ?]. right. split; [congruence|done]. }
    assert (b ∈ roots p) as Hin by (by apply elem_of_roots).
    rewrite (wf_count _ Hwf), size_difference, size_singleton by set_solver. fold p.
    assert (size (roots p) <> 0)%nat by (apply size_non_empty_iff; set_solver). lia.
  - intros r Hroot. rewrite hang_root_cls by done. case_decide as Hra.
    + subst. unfold UF.rank_of at 1. cbn [uf_rank].
      rewrite size_union by (intros x Hxa Hxb; pose proof (wf_ranked _ Hwf : ranked p (uf_rank i)) as Hr;
        apply (elem_of_cls _ _ _ _ Hr) in Hxa, Hxb; by destruct (Hne (rep_fun _ _ _ _ Hxa Hxb))).
      pose proof (wf_weight _ Hwf a Ha). pose proof (wf_weight _ Hwf b Hb). fold p in H, H0. lia.
    + unfold UF.rank_of. cbn [uf_rank]. rewrite (Hother r) by done. apply (wf_weight _ Hwf).
      unfold p' in Hroot. apply lookup_insert_Some in Hroot as [[-> ?]|[_ ?]]; [congruence|done].
Qed.

Lemma hang_root_together x y :
  same p' x y <-> same p x y \/ (same p x a /\ same p y b) \/ (same p x b /\ same p y a).
Proof using All.
  assert (forall z r, p !! r = Some r -> same p z r <-> Rep p z r) as Hsr.
  { intros z r Hr. split; [intros (s & Hz & Hs); by rewrite (rep_fun _ _ _ _ (rep_root _ _ Hr) Hs)|].
    intros Hz. exists r. split; [done|by constructor]. }
  rewrite (Hsr x a), (Hsr x b), (Hsr y a), (Hsr y b) by done. unfold same, p'. setoid_rewrite link_rep; [|done..]. split.
  - intros (r & [[Hx Hxr]|[Hx Hxr]] & [[Hy Hyr]|[Hy Hyr]]); subst; eauto 6.
  - intros [(r & Hx & Hy)|[[Hx Hy]|[Hx Hy]]].
    + destruct (decide (r = b)) as [->|]; [exists a|exists r]; auto.
    + exists a. auto.
    + exists a. auto.
Qed.

End HangRoot.

Lemma pow2_small n k : 2 ^ n <= N.of_nat k -> N.of_nat k < u64_mod -> n < 64.
Proof.
  intros H1 H2. destruct (N.lt_ge_cases n 64) as [|Hge]; [done|].
  pose proof (N.pow_le_mono_r 2 64 n ltac:(lia) Hge) as Hp. change (2 ^ 64) with u64_mod in Hp. lia.
Qed.

(** The side conditions of [HangRoot] when no rank changes *)
Ltac solve_hang := first [done | congruence | apply N.le_add_r | unfold UF.rank_of in *; lia].

Lemma link_roots_spec i ra rb :
  uf_wf i -> uf_parent i !! ra = Some ra -> uf_parent i !! rb = Some rb -> ra <> rb ->
  N.of_nat (size (uf_parent i)) < u64_mod ->
  uf_wf (UF.link_roots i ra rb) /\
  (forall x, registered (UF.link_roots i ra rb) x <-> registered i x) /\
  (forall x y, together (UF.link_roots i ra rb) x y <->
     together i x y \/ (together i x ra /\ together i y rb) \/ (together i x rb /\ together i y ra)).
Proof.
  intros Hwf Ha Hb Hne Hsz. unfold UF.link_roots.
  assert (forall c d x, uf_parent i !! c = Some c -> is_Some (<[c := d]> (uf_parent i) !! x) <-> is_Some (uf_parent i !! x)) as Hd.
  { intros c d x Hc. destruct (decide (x = c)) as [->|]; [rewrite lookup_insert_eq, Hc; split; eauto|by rewrite lookup_insert_ne]. }
  destruct (N.ltb_spec (UF.rank_of i ra) (UF.rank_of i rb)) as [Hlt|Hge];
    [|destruct (N.ltb_spec (UF.rank_of i rb) (UF.rank_of i ra)) as [Hlt|Hge']].
  - split; [|split]; [apply hang_root_wf; solve_hang|intros x; by apply Hd|].
    intros x y. unfold together. cbn. rewrite (hang_root_together i rb ra (uf_rank i)) by solve_hang. tauto.
  - split; [|split]; [apply hang_root_wf; solve_hang|intros x; by apply Hd|].
    intros x y. unfold together. cbn. by rewrite (hang_root_together i ra rb (uf_rank i)) by solve_hang.
  - assert (UF.rank_of i ra < 64) as Hsmall.
    { apply (pow2_small _ (size (cls (uf_parent i) ra))); [by apply (wf_weight _ Hwf)|].
      pose proof (cls_size (uf_parent i) ra). lia. }
    rewrite N.mod_small by (unfold u8_mod; lia).
    assert (UF.rank_of i ra = UF.rank_of i rb) as Heq by lia.
    assert (is_Some (uf_rank i !! ra)) as Hra by (apply (rk_dom _ _ (wf_ranked _ Hwf)); eauto).
    split; [|split]; [apply hang_root_wf|intros x; by apply Hd|intros x y; unfold together; cbn;
      apply (hang_root_together i ra rb (<[ra := UF.rank_of i ra + 1]> (uf_rank i)))];
      rewrite ?lookup_insert_eq; cbn [from_option id]; eauto; try lia;
      try (intros z; destruct (decide (z = ra)) as [->|]; [rewrite lookup_insert_eq; split; eauto|by rewrite lookup_insert_ne]);
      try (intros z Hz; by rewrite lookup_insert_ne);
      rewrite <- Heq, N.add_1_r, N.pow_succ_r'; lia.
Qed.

Lemma rep_registered i i' :
  uf_wf i -> uf_wf i' -> (forall x s, Rep (uf_parent i) x s <-> Rep (uf_parent i') x s) ->
  forall x, registered i' x <-> registered i x.
Proof.
  intros Hw Hw' Hs x. split; intros Hx.
  - destruct (rep_total _ _ x (wf_ranked _ Hw') Hx) as [r Hr%Hs]. by eapply rep_dom.
  - destruct (rep_total _ _ x (wf_ranked _ Hw) Hx) as [r Hr%Hs]. by eapply rep_dom.
Qed.

(** [union] merges the trees of two registered nodes, and says whether they
    were apart. *)
Lemma union_spec i a b :
  uf_wf i -> registered i a -> registered i b -> N.of_nat (size (uf_parent i)) < u64_mod ->
  let '(i', merged) := UF.union i a b in
  uf_wf i' /\ (forall x, registered i' x <-> registered i x) /\
  (forall x y, together i' x y <->
     together i x y \/ (together i x a /\ together i y b) \/ (together i x b /\ together i y a)) /\
  (merged = true <-> ~ together i a b).
Proof.
  intros Hwf Ha Hb Hsz. unfold UF.union.
  destruct (find_spec i a Hwf Ha) as (i1 & ra & -> & Hra & Hwf1 & Hs1).
  assert (forall x, registered i1 x <-> registered i x) as Hreg1 by (by apply rep_registered).
  destruct (find_spec i1 b Hwf1 ltac:(by apply Hreg1)) as (i2 & rb & -> & Hrb & Hwf2 & Hs2).
  assert (forall x s, Rep (uf_parent i) x s <-> Rep (uf_parent i2) x s) as Hs by (intros x s; by rewrite Hs1).
  assert (forall x, registered i2 x <-> registered i x) as Hreg by (by apply rep_registered).
  assert (forall x y, together i2 x y <-> together i x y) as Ht by (intros x y; unfold together, same; by setoid_rewrite Hs).
  apply Hs1 in Hrb.
  assert (forall z x r, Rep (uf_parent i) x r -> together i z x <-> together i z r) as Hrt.
  { intros z x r Hx. assert (together i x r) as Hxr by (exists r; split; [done|constructor; by eapply rep_is_root]).
    split; intros H; (eapply same_trans; [exact H|]); [done|by apply same_sym]. }
  destruct (N.eqb_spec ra rb) as [->|Hne].
  - assert (together i a b) as Hab by (by exists rb).
    split; [done|]. split; [done|]. split; [|split; [done|by intros []]]. intros x y. rewrite Ht. split; [by left|].
    intros [?|[[H1 H2]|[H1 H2]]]; [done| |]; (eapply same_trans; [exact H1|]); (eapply same_trans; [|apply same_sym; exact H2]); [done|by apply same_sym].
  - assert (uf_parent i2 !! ra = Some ra) as Ra by (eapply rep_is_root; by apply Hs).
    assert (uf_parent i2 !! rb = Some rb) as Rb by (eapply rep_is_root; by apply Hs).
    destruct (link_roots_spec i2 ra rb Hwf2 Ra Rb Hne) as (Hw & Hr & Hl).
    { assert (dom (uf_parent i2) =@{gset N} dom (uf_parent i)) as Hd by (apply set_eq; intros x; rewrite !elem_of_dom; apply Hreg).
      rewrite <- (size_dom (D := gset N)), Hd, size_dom. done. }
    split; [done|]. split; [intros x; by rewrite Hr|]. split.
    + intros x y. rewrite Hl, !Ht. by rewrite (Hrt x a ra), (Hrt y b rb), (Hrt x b rb), (Hrt y a ra) by done.
    + split; [|done]. intros _ (r & H1 & H2). rewrite (rep_fun _ _ _ _ Hra H1), (rep_fun _ _ _ _ Hrb H2) in Hne. done.
Qed.

Lemma union_unregistered i a b :
  uf_wf i -> ~ (registered i a /\ registered i b) -> (UF.union i a b).2 = false.
Proof.
  intros Hwf H. unfold UF.union. destruct (uf_parent i !! a) eqn:Ha.
  - assert (registered i a) as Hra by (by eexists). destruct (find_spec i a Hwf Hra) as (i1 & ra & -> & _ & Hwf1 & Hs).
    rewrite find_unregistered; [done|]. rewrite (rep_registered i i1) by done. tauto.
  - by rewrite (find_unregistered i a) by (intros [? ?]; congruence).
Qed.

(** ** The partition an index stands for *)

(** [parts i D E]: the index [i] holds the nodes [D], and two of them are
    together exactly if the edges [E] connect them. *)
Record parts (i : ComponentIndex) (D : gset N) (E : N -> N -> Prop) : Prop := {
  pt_wf : uf_wf i;
  pt_dom : forall x, registered i x <-> x ∈ D;
  pt_conn : forall x y, x ∈ D -> y ∈ D -> together i x y <-> rtsc E x y;
}.

Lemma parts_size i D E : parts i D E -> size (uf_parent i) = size D.
Proof.
  intros H. rewrite <- (size_dom (D := gset N)). f_equal. apply set_eq. intros x. rewrite elem_of_dom. apply (pt_dom _ _ _ H).
Qed.

Lemma parts_new : parts UF.new ∅ (fun _ _ => False).
Proof.
  split; [apply new_wf| |set_solver]. intros x. unfold registered. cbn. rewrite lookup_empty. split; [by intros [? ?]|set_solver].
Qed.

Lemma parts_ext i D E E' : (forall x y, E x y <-> E' x y) -> parts i D E -> parts i D E'.
Proof.
  intros HE [Hw Hd Hc]. split; [done|done|]. intros x y Hx Hy. rewrite Hc by done. unfold rtsc.
  assert (forall x y, sc E x y <-> sc E' x y) as Hsc by (intros u v; unfold sc; by rewrite !HE).
  split; apply rtc_subrel; intros u v; apply Hsc.
Qed.

(** Edges between nodes of [D] only connect nodes of [D]. *)
Lemma conn_closed (E : N -> N -> Prop) (D : gset N) x y :
  (forall u v, E u v -> u ∈ D /\ v ∈ D) -> rtsc E x y -> x = y \/ (x ∈ D /\ y ∈ D).
Proof.
  intros HE. unfold rtsc. induction 1 as [x|x y z Hxy _ IH]; [by left|]. right.
  assert (x ∈ D /\ y ∈ D) as [Hx Hy] by (destruct Hxy as [H|H]; apply HE in H; tauto).
  destruct IH as [->|[_ ?]]; done.
Qed.

Lemma parts_add i D E id :
  parts i D E -> id ∉ D -> (forall u v, E u v -> u ∈ D /\ v ∈ D) -> N.of_nat (size D) + 1 < u64_mod ->
  parts (UF.add i id) ({[id]} ∪ D) E.
Proof.
  intros Hp Hid HE Hsz. rewrite <- (parts_size _ _ _ Hp) in Hsz.
  destruct (add_spec i id (pt_wf _ _ _ Hp) Hsz) as (Hw & Hr & Ht).
  split; [done| |].
  - intros x. rewrite Hr, (pt_dom _ _ _ Hp). set_solver.
  - intros x y Hx Hy. rewrite Ht. split.
    + intros [H|[-> ->]]; [|unfold rtsc; apply rtc_refl].
      destruct (together_registered _ _ _ H) as [?%(pt_dom _ _ _ Hp) ?%(pt_dom _ _ _ Hp)]. by apply (pt_conn _ _ _ Hp).
    + intros H. destruct (conn_closed E D x y HE H) as [->|[HxD HyD]]; [|left; by apply (pt_conn _ _ _ Hp)].
      destruct (decide (y = id)) as [->|Hne]; [by right|]. left. apply (pt_conn _ _ _ Hp); [set_solver..|done].
Qed.

Definition plus_edge (E : N -> N -> Prop) (a b : N) : N -> N -> Prop := fun x y => E x y \/ (x = a /\ y = b).

Lemma conn_plus (E : N -> N -> Prop) a b x y :
  rtsc (plus_edge E a b) x y <->
  rtsc E x y \/ (rtsc E x a /\ rtsc E y b) \/ (rtsc E x b /\ rtsc E y a).
Proof.
  assert (forall u v, rtsc E u v -> rtsc E v u) as Hsym by (intros u v H; by symmetry).
  assert (forall u v w, rtsc E u v -> rtsc E v w -> rtsc E u w) as Htr by (intros u v w H1 H2; by transitivity v).
  assert (forall u, rtsc E u u) as Hrefl by (intros u; reflexivity).
  split.
  - unfold rtsc at 1. induction 1 as [x|x z y Hxz _ IH]; [left; apply Hrefl|].
    assert (rtsc E x z \/ (x = a /\ z = b) \/ (x = b /\ z = a)) as Hstep.
    { destruct Hxz as [[H|H]|[H|[-> ->]]]; [left; by apply rtsc_lr|by right; left|left; by apply rtsc_rl|by right; right]. }
    destruct Hstep as [Hstep|[[-> ->]|[-> ->]]], IH as [H|[[H1 H2]|[H1 H2]]]; eauto 8.
  - assert (forall u v, rtsc E u v -> rtsc (plus_edge E a b) u v) as Hsub.
    { intros u v. unfold rtsc. apply rtc_subrel. intros ? ? [H|H]; [left|right]; by left. }
    assert (rtsc (plus_edge E a b) a b) as Hab by (apply rtsc_lr; right; done).
    intros [H|[[H1 H2]|[H1 H2]]]; [by apply Hsub| |].
    + transitivity a; [by apply Hsub|]. transitivity b; [done|]. symmetry. by apply Hsub.
    + transitivity b; [by apply Hsub|]. transitivity a; [by symmetry|]. symmetry. by apply Hsub.
Qed.

Lemma parts_union i D E a b :
  parts i D E -> a ∈ D -> b ∈ D -> N.of_nat (size D) < u64_mod ->
  parts (UF.union i a b).1 D (plus_edge E a b).
Proof.
  intros Hp Ha Hb Hsz. rewrite <- (parts_size _ _ _ Hp) in Hsz.
  pose proof (union_spec i a b (pt_wf _ _ _ Hp) ltac:(by apply (pt_dom _ _ _ Hp)) ltac:(by apply (pt_dom _ _ _ Hp)) Hsz) as H.
  destruct (UF.union i a b) as [i' m]. destruct H as (Hw & Hr & Ht & _). split; [done| |].
  - intros x. cbn. rewrite Hr. apply (pt_dom _ _ _ Hp).
  - intros x y Hx Hy. cbn. rewrite Ht, conn_plus. by rewrite !(pt_conn _ _ _ Hp).
Qed.

(** The counter is the number of components: it equals the length of every list
    with one node of each. *)
Lemma parts_count i D E l :
  parts i D E -> (forall x, x ∈ l -> x ∈ D) ->
  (forall x, x ∈ D -> exists y, y ∈ l /\ rtsc E x y) ->
  ForallOrdPairs (fun x y => ~ rtsc E x y) l ->
  uf_count i = lenN l.
Proof.
  intros Hp Hl Hcov Hap. rewrite (wf_count _ (pt_wf _ _ _ Hp)).
  pose proof (wf_ranked _ (pt_wf _ _ _ Hp)) as Hr. set (p := uf_parent i) in *.
  set (root x := default 0 (UF.root_loop (size p) p x)).
  assert (forall x, x ∈ D -> Rep p x (root x)) as Hroot.
  { intros x Hx%(pt_dom _ _ _ Hp). destruct (root_loop_total p _ (size p) x Hr Hx) as (r & Hl' & Hrep); [by apply higher_lt|].
    unfold root. by rewrite Hl'. }
  assert (forall x y, x ∈ D -> y ∈ D -> root x = root y <-> rtsc E x y) as Heq.
  { intros x y Hx Hy. rewrite <- (pt_conn _ _ _ Hp) by done. split.
    - intros H. exists (root x). split; [by apply Hroot|]. rewrite H. by apply Hroot.
    - intros (r & Hxr & Hyr). by rewrite (rep_fun _ _ _ _ (Hroot x Hx) Hxr), (rep_fun _ _ _ _ (Hroot y Hy) Hyr). }
  assert (NoDup (root <$> l)) as Hnd.
  { clear Hcov. induction Hap as [|x l Hx _ IH]; [constructor|]. cbn. constructor; [|apply IH; intros y Hy; apply Hl; by right].
    intros (y & Hxy & Hy)%list_elem_of_fmap. rewrite Forall_forall in Hx. apply (Hx y Hy).
    apply Heq; [apply Hl; by left|apply Hl; by right|done]. }
  assert (roots p = list_to_set (root <$> l)) as ->.
  { apply set_eq. intros r. rewrite elem_of_roots, elem_of_list_to_set, list_elem_of_fmap. split.
    - intros Hrr. assert (r ∈ D) as HrD by (apply (pt_dom _ _ _ Hp); by exists r).
      destruct (Hcov r HrD) as (y & Hy & Hry). exists y. split; [|done]. apply Heq in Hry; [|done|by apply Hl].
      rewrite <- Hry. exact (rep_fun _ _ _ _ (rep_root _ _ Hrr) (Hroot r HrD)).
    - intros (y & -> & Hy). eapply rep_is_root, Hroot. by apply Hl. }
  unfold lenN. by rewrite size_list_to_set, length_fmap.
Qed.

(** One node of each component *)
Definition representatives (D : gset N) (E : N -> N -> Prop) (l : list N) : Prop :=
  (forall x, x ∈ l -> x ∈ D) /\ (forall x, x ∈ D -> exists y, y ∈ l /\ rtsc E x y) /\
  ForallOrdPairs (fun x y => ~ rtsc E x y) l.

Lemma parts_representatives i D E : parts i D E -> exists l, representatives D E l.
Proof.
  intros Hp. exists (elements (roots (uf_parent i))).
  assert (forall x, x ∈ elements (roots (uf_parent i)) -> x ∈ D) as Hin.
  { intros x Hx%elem_of_elements%elem_of_roots. apply (pt_dom _ _ _ Hp). by exists x. }
  split; [done|]. split.
  - intros x Hx. destruct (rep_total _ _ x (wf_ranked _ (pt_wf _ _ _ Hp)) ltac:(by apply (pt_dom _ _ _ Hp))) as [r Hr].
    pose proof (rep_is_root _ _ _ Hr) as Hroot. exists r.
    assert (r ∈ elements (roots (uf_parent i))) as Hel by (by apply elem_of_elements, elem_of_roots).
    split; [done|]. apply (pt_conn _ _ _ Hp); [done|by apply Hin|]. exists r. split; [done|by constructor].
  - assert (forall l, NoDup l -> (forall x, x ∈ l -> x ∈ elements (roots (uf_parent i))) -> ForallOrdPairs (fun x y => ~ rtsc E x y) l) as H.
    { induction l as [|x l IH]; intros Hnd Hl; [constructor|]. apply NoDup_cons in Hnd as [Hx Hnd]. constructor.
      - apply Forall_forall. intros y Hy Hxy. apply Hx. assert (x ∈ elements (roots (uf_parent i)) /\ y ∈ elements (roots (uf_parent i))) as [Hxr Hyr].
        { split; apply Hl; [by left|by right]. }
        apply (pt_conn _ _ _ Hp) in Hxy; [|by apply Hin..]. apply elem_of_elements, elem_of_roots in Hxr, Hyr.
        by rewrite (same_roots _ _ _ Hxr Hyr Hxy).
      - apply IH; [done|]. intros y Hy. apply Hl. by right. }
    apply H; [apply NoDup_elements|done].
Qed.

Lemma parts_count_eq i i' D E : parts i D E -> parts i' D E -> uf_count i = uf_count i'.
Proof.
  intros Hp Hp'. destruct (parts_representatives i D E Hp) as (l & H1 & H2 & H3).
  by rewrite (parts_count i D E l), (parts_count i' D E l).
Qed.
