(* ===== verification/Causal.v ===== *)
(** The causal graph of causal.rs: nodes, typed weighted edges in both
    directions, the counters, the component index, metadata, the governed
    [clear], conversations and snapshots.  Traversals are in CausalPath.v. *)

From Stdlib Require Import Floats.SpecFloat.
From S2P Require Import Prelude.
From S2P Require Import Codec.
From S2P Require Import Process.
From S2P Require Import RateLimit.
From S2P Require Import Governance.
From S2P Require Import Scoring.
From S2P Require Import UnionFind.
Open Scope N_scope.

(** ** Data *)

Abbreviation NodeId := N.

Inductive CausalEdgeType :=
| Causes | Inhibits | Correlates | Enables | Follows | Contradicts | TriggeredBy | EvidenceFor.

#[export] Instance CausalEdgeType_eq_dec : EqDecision CausalEdgeType.
Proof. solve_decision. Defined.

(** [Display for CausalEdgeType] *)
Definition edge_type_to_string (t : CausalEdgeType) : string :=
  match t with
  | Causes => "Causes" | Inhibits => "Inhibits" | Correlates => "Correlates" | Enables => "Enables"
  | Follows => "Follows" | Contradicts => "Contradicts" | TriggeredBy => "TriggeredBy" | EvidenceFor => "EvidenceFor"
  end.

Record CausalEdge := mkEdge {
  edge_source : NodeId;
  edge_target : NodeId;
  edge_type : CausalEdgeType;
  edge_weight : f32;
  edge_timestamp : N;
  edge_chain_seq : N;
  source_universal_id : bytes;
  target_universal_id : bytes;
}.

Record CausalNode := mkCNode {
  cn_id : NodeId;
  cn_label : string;
  cn_created_at : N;
  cn_metadata : Json;
}.

Record CausalGraph := mkGraph {
  cg_nodes : gmap N CausalNode;
  forward_edges : gmap N (list CausalEdge);
  reverse_edges : gmap N (list CausalEdge);
  next_node_id : N;
  cg_node_count : N;
  cg_edge_count : N;
  components : ComponentIndex;
  cg_chain : bool;
  cg_governance : option GovernanceEngine;
}.

(** A JSON number from an [f32]: widened to binary64, [null] if not finite. *)
Definition json_f32 (f : f32) : Json :=
  match f with
  | S754_zero s => JFloat (S754_zero s)
  | S754_finite s m e => JFloat (binary_normalize 53 1024 (if s then Z.neg m else Z.pos m) e s)
  | _ => JNull
  end.

Definition cg_audit (g : CausalGraph) (kind : string) (payload : list (string * Json)) : list AuditReq :=
  if cg_chain g then [mkAudit "causal" kind (Some (JObj payload))] else [].

Module Graph.

(** [CausalGraph::new], [set_chain_manager], [set_governance_engine] *)
Definition new : CausalGraph := mkGraph ∅ ∅ ∅ 1 0 0 UF.new false None.
Definition set_chain_manager (g : CausalGraph) : CausalGraph :=
  mkGraph (cg_nodes g) (forward_edges g) (reverse_edges g) (next_node_id g) (cg_node_count g) (cg_edge_count g)
    (components g) true (cg_governance g).
Definition set_governance_engine (g : CausalGraph) (e : GovernanceEngine) : CausalGraph :=
  mkGraph (cg_nodes g) (forward_edges g) (reverse_edges g) (next_node_id g) (cg_node_count g) (cg_edge_count g)
    (components g) (cg_chain g) (Some e).

Definition with_nodes (g : CausalGraph) (m : gmap N CausalNode) : CausalGraph :=
  mkGraph m (forward_edges g) (reverse_edges g) (next_node_id g) (cg_node_count g) (cg_edge_count g)
    (components g) (cg_chain g) (cg_governance g).
Definition with_components (g : CausalGraph) (i : ComponentIndex) : CausalGraph :=
  mkGraph (cg_nodes g) (forward_edges g) (reverse_edges g) (next_node_id g) (cg_node_count g) (cg_edge_count g)
    i (cg_chain g) (cg_governance g).

(** [CausalGraph::add_node] *)
Definition add_node (g : CausalGraph) (label : string) (metadata : Json) : CausalGraph * list AuditReq * NodeId :=
  let id := next_node_id g in
  (mkGraph (<[id := mkCNode id label 0 metadata]> (cg_nodes g)) (<[id := []]> (forward_edges g))
     (<[id := []]> (reverse_edges g)) (wrap_add64 (next_node_id g) 1) (wrap_add64 (cg_node_count g) 1)
     (cg_edge_count g) (UF.add (components g) id) (cg_chain g) (cg_governance g),
   cg_audit g "causal.node.add" [("node_id", json_num id); ("label", JStr label)], id).

(** [CausalGraph::get_node] *)
Definition get_node (g : CausalGraph) (id : NodeId) : option CausalNode := cg_nodes g !! id.

(** [CausalGraph::set_node_state] *)
Definition set_node_state (g : CausalGraph) (id : NodeId) (state : string) : CausalGraph * list AuditReq * bool :=
  match cg_nodes g !! id with
  | None => (g, [], false)
  | Some n =>
      let previous := json_get "state" (cn_metadata n) ≫= json_as_str in
      let metadata := match cn_metadata n with
                      | JObj l => JObj (assoc_set "state" (JStr state) l)
                      | _ => JObj [("state", JStr state)]
                      end in
      (with_nodes g (<[id := mkCNode (cn_id n) (cn_label n) (cn_created_at n) metadata]> (cg_nodes g)),
       if bool_decide (previous = Some state) then []
       else cg_audit g "causal.node.state" [("node_id", json_num id); ("from", json_opt_str previous); ("to", JStr state)],
       true)
  end.

Definition PROTECTED_METADATA_KEYS : list string := ["state"; "uid"; "chain_seq"; "text"; "conv_id"].

(** [CausalGraph::merge_node_metadata] *)
Definition merge_node_metadata (g : CausalGraph) (id : NodeId) (patch : list (string * Json)) : CausalGraph * bool :=
  match cg_nodes g !! id with
  | None => (g, false)
  | Some n =>
      let obj := match cn_metadata n with JObj l => l | _ => [] end in
      let merge obj (kv : string * Json) :=
        if bool_decide (kv.1 ∈ PROTECTED_METADATA_KEYS) then obj else assoc_set kv.1 kv.2 obj in
      (with_nodes g (<[id := mkCNode (cn_id n) (cn_label n) (cn_created_at n) (JObj (foldl merge obj patch))]> (cg_nodes g)), true)
  end.

(** [get_forward_edges], [get_reverse_edges], [get_edges_by_type] *)
Definition get_forward_edges (g : CausalGraph) (id : NodeId) : list CausalEdge := default [] (forward_edges g !! id).
Definition get_reverse_edges (g : CausalGraph) (id : NodeId) : list CausalEdge := default [] (reverse_edges g !! id).
Definition get_edges_by_type (g : CausalGraph) (id : NodeId) (t : CausalEdgeType) : list CausalEdge :=
  filter (fun e => edge_type e = t) (get_forward_edges g id).

(** [node_count], [edge_count], [degree], [in_degree], [out_degree] *)
Definition node_count (g : CausalGraph) : N := cg_node_count g.
Definition edge_count (g : CausalGraph) : N := cg_edge_count g.
Definition degree (g : CausalGraph) (id : NodeId) : N := lenN (get_forward_edges g id) + lenN (get_reverse_edges g id).
Definition in_degree (g : CausalGraph) (id : NodeId) : N := lenN (get_reverse_edges g id).
Definition out_degree (g : CausalGraph) (id : NodeId) : N := lenN (get_forward_edges g id).

(** [component_count_fast] *)
Definition component_count_fast (g : CausalGraph) : N := uf_count (components g).

(** [CausalGraph::link] *)
Definition link (g : CausalGraph) (source target : NodeId) (t : CausalEdgeType) (weight : f32) (timestamp chain_seq : N)
  : CausalGraph * list AuditReq * bool :=
  if negb (bool_decide (is_Some (cg_nodes g !! source))) || negb (bool_decide (is_Some (cg_nodes g !! target))) then (g, [], false)
  else
    let edge := mkEdge source target t weight timestamp chain_seq (replicate 32 x00) (replicate 32 x00) in
    (mkGraph (cg_nodes g) (alter (fun l => l ++ [edge]) source (forward_edges g))
       (alter (fun l => l ++ [edge]) target (reverse_edges g)) (next_node_id g) (cg_node_count g)
       (wrap_add64 (cg_edge_count g) 1) (UF.union (components g) source target).1 (cg_chain g) (cg_governance g),
     cg_audit g "causal.edge.add"
       [("source", json_num source); ("target", json_num target); ("edge_type", JStr (edge_type_to_string t)); ("weight", json_f32 weight)],
     true).

Section Iteration.
(** The order in which the node map is iterated *)
Context (order : gmap N CausalNode -> list N).

(** [node_ids] *)
Definition node_ids (g : CausalGraph) : list N := order (cg_nodes g).

(** [rebuild_component_index] *)
Definition rebuild_component_index (g : CausalGraph) : CausalGraph :=
  let ids := node_ids g in
  let idx := foldl UF.add UF.new ids in
  let idx := foldl (fun idx id =>
                      foldl (fun idx e => (UF.union idx (edge_source e) (edge_target e)).1) idx (get_forward_edges g id))
               idx ids in
  with_components g idx.

(** The halves of [remove_node]: the edges that leave the node, then the ones
    that enter it. *)
Definition remove_outgoing (g : CausalGraph) (id : NodeId) : CausalGraph :=
  match forward_edges g !! id with
  | None => g
  | Some fwd =>
      mkGraph (cg_nodes g) (delete id (forward_edges g))
        (foldl (fun rev e => alter (filter (fun e' => edge_source e' <> id)) (edge_target e) rev) (reverse_edges g) fwd)
        (next_node_id g) (cg_node_count g) (wrap_sub64 (cg_edge_count g) (lenN fwd)) (components g) (cg_chain g) (cg_governance g)
  end.

Definition remove_incoming (g : CausalGraph) (id : NodeId) : CausalGraph :=
  match reverse_edges g !! id with
  | None => g
  | Some rev =>
      mkGraph (cg_nodes g)
        (foldl (fun fwd e => alter (filter (fun e' => edge_target e' <> id)) (edge_source e) fwd) (forward_edges g) rev)
        (delete id (reverse_edges g))
        (next_node_id g) (cg_node_count g) (wrap_sub64 (cg_edge_count g) (lenN rev)) (components g) (cg_chain g) (cg_governance g)
  end.

(** [CausalGraph::remove_node] *)
Definition remove_node (g : CausalGraph) (id : NodeId) : CausalGraph * list AuditReq * option CausalNode :=
  match cg_nodes g !! id with
  | None => (g, [], None)
  | Some n =>
      let g := with_nodes g (delete id (cg_nodes g)) in
      let g := remove_incoming (remove_outgoing g id) id in
      let g := mkGraph (cg_nodes g) (forward_edges g) (reverse_edges g) (next_node_id g) (wrap_sub64 (cg_node_count g) 1)
                 (cg_edge_count g) (components g) (cg_chain g) (cg_governance g) in
      let g := rebuild_component_index g in
      (g, cg_audit g "causal.node.remove" [("node_id", json_num id); ("label", JStr (cn_label n))], Some n)
  end.

(** [CausalGraph::unlink] *)
Definition unlink (g : CausalGraph) (source target : NodeId) : CausalGraph * list AuditReq * N :=
  let fwd := get_forward_edges g source in
  let kept := filter (fun e => edge_target e <> target) fwd in
  let count := lenN fwd - lenN kept in
  let g := mkGraph (cg_nodes g) (alter (filter (fun e => edge_target e <> target)) source (forward_edges g))
             (alter (filter (fun e => edge_source e <> source)) target (reverse_edges g)) (next_node_id g) (cg_node_count g)
             (wrap_sub64 (cg_edge_count g) count) (components g) (cg_chain g) (cg_governance g) in
  let g := if 0 <? count then rebuild_component_index g else g in
  (g, cg_audit g "causal.edge.remove" [("source", json_num source); ("target", json_num target); ("removed_count", json_num count)], count).

(** The request [clear] puts to the governance engine *)
Definition clear_request (inst : Instance_) : GovernanceRequest :=
  Request.with_effect (Request.new inst "causal" "causal.clear")
    (mkEffect (F64.lit 8 1) (fairness effect_default) (privacy effect_default) (novelty effect_default) (security effect_default)).

(** [CausalGraph::clear] *)
Definition clear (inst : Instance_) (now : N) (g : CausalGraph) : CausalGraph * list AuditReq * result unit KernelError :=
  let wipe e :=
    (mkGraph ∅ ∅ ∅ (next_node_id g) 0 0 UF.new (cg_chain g) e,
     cg_audit g "causal.clear" [("node_count", json_num (cg_node_count g)); ("edge_count", json_num (cg_edge_count g))], Ok tt) in
  match cg_governance g with
  | None => wipe None
  | Some e =>
      let '(e, r) := Engine.evaluate inst e now (clear_request inst) in
      match gr_decision r with
      | GDeny _ | EscalateToHuman _ =>
          (set_governance_engine g e, [],
           Err (GovernanceDenied ("causal.clear denied: " +:+ decision_to_string (gr_decision r))))
      | _ => wipe (Some e)
      end
  end.

(** [metadata.conv_id] of a node *)
Definition in_conv (conv_id : string) (n : CausalNode) : bool :=
  bool_decide (json_get "conv_id" (cn_metadata n) ≫= json_as_str = Some conv_id).

(** [nodes_for_conv] *)
Definition nodes_for_conv (g : CausalGraph) (conv_id : string) : list CausalNode :=
  omap (fun id => match cg_nodes g !! id with Some n => if in_conv conv_id n then Some n else None | None => None end) (node_ids g).

(** [edges_for_conv]; [set_order] is the iteration order of the set of ids. *)
Definition edges_for_conv (set_order : gset N -> list N) (g : CausalGraph) (conv_id : string) : list CausalEdge :=
  let ids : gset N := dom (filter (fun kv : N * CausalNode => in_conv conv_id kv.2 = true) (cg_nodes g)) in
  filter (fun e => edge_source e ∈ ids /\ edge_target e ∈ ids) (set_order ids ≫= get_forward_edges g).

(** [CausalGraphSnapshot] and [to_snapshot] *)
Record CausalGraphSnapshot := mkSnapshot {
  snap_next_node_id : N;
  snap_nodes : list CausalNode;
  snap_forward_edges : gmap N (list CausalEdge);
}.

Definition to_snapshot (g : CausalGraph) : CausalGraphSnapshot :=
  mkSnapshot (next_node_id g) (omap (fun id => cg_nodes g !! id) (node_ids g))
    (filter (fun kv => kv.2 <> []) (forward_edges g)).

(** One edge of the restoring loop *)
Definition restore_edge (g : CausalGraph) (source_id : N) (e : CausalEdge) : CausalGraph :=
  mkGraph (cg_nodes g) (alter (fun l => l ++ [e]) source_id (forward_edges g))
    (alter (fun l => l ++ [e]) (edge_target e) (reverse_edges g)) (next_node_id g) (cg_node_count g)
    (wrap_add64 (cg_edge_count g) 1) (components g) (cg_chain g) (cg_governance g).

Definition restore_node (g : CausalGraph) (n : CausalNode) : CausalGraph :=
  mkGraph (<[cn_id n := n]> (cg_nodes g)) (<[cn_id n := []]> (forward_edges g)) (<[cn_id n := []]> (reverse_edges g))
    (next_node_id g) (cg_node_count g) (cg_edge_count g) (components g) (cg_chain g) (cg_governance g).

(** [from_snapshot]; [edge_order] is the iteration order of the edge map. *)
Definition from_snapshot (edge_order : gmap N (list CausalEdge) -> list (N * list CausalEdge)) (s : CausalGraphSnapshot) : CausalGraph :=
  let g := mkGraph ∅ ∅ ∅ (snap_next_node_id s) 0 0 UF.new false None in
  let g := foldl restore_node g (snap_nodes s) in
  let g := mkGraph (cg_nodes g) (forward_edges g) (reverse_edges g) (next_node_id g) (lenN (snap_nodes s))
             (cg_edge_count g) (components g) (cg_chain g) (cg_governance g) in
  let g := foldl (fun g (kv : N * list CausalEdge) => foldl (fun g e => restore_edge g kv.1 e) g kv.2) g
             (edge_order (snap_forward_edges s)) in
  rebuild_component_index g.

End Iteration.

End Graph.

(** ** The edges of a graph *)

(** All the edges of an adjacency map *)
Definition edges_of (m : gmap N (list CausalEdge)) : list CausalEdge := map_to_list m ≫= snd.

Lemma elem_of_edges_of m e : e ∈ edges_of m <-> exists s l, m !! s = Some l /\ e ∈ l.
Proof.
  unfold edges_of. rewrite list_elem_of_bind. split.
  - intros ([s l] & He & Hin%elem_of_map_to_list). eauto.
  - intros (s & l & Hl & He). exists (s, l). split; [done|by apply elem_of_map_to_list].
Qed.

Lemma edges_of_delete m s l : m !! s = Some l -> edges_of m ≡ₚ l ++ edges_of (delete s m).
Proof. intros H. unfold edges_of. by rewrite <- (map_to_list_delete m s l H). Qed.

Lemma edges_of_insert m s l : m !! s = None -> edges_of (<[s := l]> m) ≡ₚ l ++ edges_of m.
Proof. intros H. unfold edges_of. by rewrite (map_to_list_insert m s l H). Qed.

Lemma edges_of_alter m s l f :
  m !! s = Some l -> edges_of (alter f s m) ≡ₚ f l ++ edges_of (delete s m).
Proof.
  intros H. rewrite (edges_of_delete _ s (f l)) by (by rewrite lookup_alter_eq, H). by rewrite delete_alter_eq.
Qed.

Lemma edges_of_push m s l e : m !! s = Some l -> edges_of (alter (fun l => l ++ [e]) s m) ≡ₚ e :: edges_of m.
Proof. intros H. rewrite (edges_of_alter _ _ _ _ H), (edges_of_delete _ _ _ H). solve_Permutation. Qed.

Lemma edges_of_filter m (P : CausalEdge -> Prop) `{Pdec : !forall e, Decision (P e)} :
  edges_of (filter P <$> m) = filter P (edges_of m).
Proof.
  unfold edges_of. rewrite map_to_list_fmap. induction (map_to_list m) as [|[s l] k IH]; [done|].
  rewrite fmap_cons, !bind_cons, filter_app. f_equal. exact IH.
Qed.

(** Filtering the lists of enough keys is filtering every list. *)
Lemma foldl_alter_filter {A} (P : CausalEdge -> Prop) `{Pdec : !forall e, Decision (P e)} (key : A -> N) (l : list A) (m : gmap N (list CausalEdge)) :
  (forall s v, m !! s = Some v -> (exists a, a ∈ l /\ key a = s) \/ filter P v = v) ->
  foldl (fun m a => alter (filter P) (key a) m) m l = filter P <$> m.
Proof.
  assert (forall v : list CausalEdge, filter P (filter P v) = filter P v) as Hidem.
  { intros v. apply list_filter_all. intros x Hx. by apply list_elem_of_filter in Hx as [? _]. }
  revert m. induction l as [|a l IH]; intros m H; cbn [foldl].
  - apply map_eq. intros s. rewrite lookup_fmap. destruct (m !! s) as [v|] eqn:E; [|done]. cbn.
    destruct (H s v E) as [(a & Ha & _)|Hv]; [by apply not_elem_of_nil in Ha|by rewrite Hv].
  - rewrite IH.
    + apply map_eq. intros s. rewrite !lookup_fmap. destruct (decide (s = key a)) as [->|Hne].
      * rewrite lookup_alter_eq. destruct (m !! key a); cbn; [|done]. by rewrite Hidem.
      * by rewrite lookup_alter_ne.
    + intros s v Hv. destruct (decide (s = key a)) as [->|Hne].
      * right. rewrite lookup_alter_eq in Hv. destruct (m !! key a) as [w|]; [|done]. cbn in Hv. injection Hv as <-. apply Hidem.
      * rewrite lookup_alter_ne in Hv by done. destruct (H s v Hv) as [(b & Hb & Hk)|?]; [|by right].
        left. exists b. split; [|done]. apply elem_of_cons in Hb as [->|?]; [congruence|done].
Qed.

(** There is an edge from [a] to [b]. *)
Definition linked (g : CausalGraph) (a b : N) : Prop :=
  exists e, e ∈ edges_of (forward_edges g) /\ edge_source e = a /\ edge_target e = b.

(** ** The invariant *)

Record graph_wf (g : CausalGraph) : Prop := {
  gw_id : forall i n, cg_nodes g !! i = Some n -> cn_id n = i /\ i < next_node_id g;
  gw_next : N.of_nat (size (cg_nodes g)) < next_node_id g;
  gw_fwd : forall i, is_Some (forward_edges g !! i) <-> is_Some (cg_nodes g !! i);
  gw_rev : forall i, is_Some (reverse_edges g !! i) <-> is_Some (cg_nodes g !! i);
  gw_source : forall s l e, forward_edges g !! s = Some l -> e ∈ l -> edge_source e = s;
  gw_target : forall e, e ∈ edges_of (forward_edges g) -> is_Some (cg_nodes g !! edge_target e);
  gw_mirror : forall t l, reverse_edges g !! t = Some l ->
    l ≡ₚ filter (fun e => edge_target e = t) (edges_of (forward_edges g));
  gw_nodes : cg_node_count g = N.of_nat (size (cg_nodes g));
  gw_edges : cg_edge_count g = lenN (edges_of (forward_edges g));
  gw_parts : parts (components g) (dom (cg_nodes g)) (linked g);
}.

Lemma gw_source_node g e : graph_wf g -> e ∈ edges_of (forward_edges g) -> is_Some (cg_nodes g !! edge_source e).
Proof.
  intros Hw (s & l & Hl & He)%elem_of_edges_of. rewrite (gw_source _ Hw s l e Hl He). apply (gw_fwd _ Hw). eauto.
Qed.

Lemma linked_nodes g a b : graph_wf g -> linked g a b -> a ∈ dom (cg_nodes g) /\ b ∈ dom (cg_nodes g).
Proof.
  intros Hw (e & He & <- & <-). rewrite !elem_of_dom. split; [by apply gw_source_node|by apply (gw_target _ Hw)].
Qed.

Lemma linked_forward g a b :
  graph_wf g -> linked g a b <-> exists e, e ∈ Graph.get_forward_edges g a /\ edge_target e = b.
Proof.
  intros Hw. unfold linked, Graph.get_forward_edges. split.
  - intros (e & (s & l & Hl & He)%elem_of_edges_of & Hs & Ht). exists e. split; [|done].
    rewrite (gw_source _ Hw s l e Hl He) in Hs. subst s. by rewrite Hl.
  - intros (e & He & Ht). destruct (forward_edges g !! a) as [l|] eqn:Hl; [|by apply not_elem_of_nil in He].
    exists e. split; [apply elem_of_edges_of; eauto|]. split; [by apply (gw_source _ Hw a l)|done].
Qed.

Lemma linked_reverse g a b :
  graph_wf g -> linked g a b <-> exists e, e ∈ Graph.get_reverse_edges g b /\ edge_source e = a.
Proof.
  intros Hw. unfold linked, Graph.get_reverse_edges. split.
  - intros (e & He & Hs & Ht). exists e. split; [|done].
    destruct (proj2 (gw_rev _ Hw b)) as [l Hl]; [subst b; by apply (gw_target _ Hw)|]. rewrite Hl.
    cbn. rewrite (gw_mirror _ Hw b l Hl). by apply list_elem_of_filter.
  - intros (e & He & Hs). destruct (reverse_edges g !! b) as [l|] eqn:Hl; [|by apply not_elem_of_nil in He].
    cbn in He. rewrite (gw_mirror _ Hw b l Hl) in He. apply list_elem_of_filter in He as [Ht He]. by exists e.
Qed.

(** ** Rebuilding the component index *)

Lemma fold_add_parts ids i D E :
  parts i D E -> NoDup ids -> (forall x, x ∈ ids -> x ∉ D) -> (forall u v, E u v -> u ∈ D /\ v ∈ D) ->
  N.of_nat (size D) + lenN ids < u64_mod ->
  parts (foldl UF.add i ids) (list_to_set ids ∪ D) E.
Proof.
  revert i D. induction ids as [|x ids IH]; intros i D Hp Hnd Hnew HE Hsz; cbn [foldl list_to_set].
  { by rewrite union_empty_l_L. }
  apply NoDup_cons in Hnd as [Hx Hnd]. assert (lenN (x :: ids) = 1 + lenN ids) as Hl by (unfold lenN; cbn; lia).
  replace ({[x]} ∪ list_to_set ids ∪ D) with (list_to_set ids ∪ ({[x]} ∪ D)) by set_solver.
  apply IH; [|done|intros y Hy; specialize (Hnew y); set_solver|set_solver|].
  - apply parts_add; [done|apply Hnew; by left|done|lia].
  - rewrite size_union, size_singleton by (specialize (Hnew x); set_solver). lia.
Qed.

Lemma fold_union_parts es i D E :
  parts i D E -> (forall e, e ∈ es -> edge_source e ∈ D /\ edge_target e ∈ D) -> N.of_nat (size D) < u64_mod ->
  parts (foldl (fun i e => (UF.union i (edge_source e) (edge_target e)).1) i es) D
    (fun a b => E a b \/ exists e, e ∈ es /\ edge_source e = a /\ edge_target e = b).
Proof.
  revert i E. induction es as [|e es IH]; intros i E Hp Hes Hsz; cbn [foldl].
  - eapply parts_ext; [|exact Hp]. intros x y. split; [by left|]. intros [?|(e & He & _)]; [done|by apply not_elem_of_nil in He].
  - eapply parts_ext; [|apply IH; [apply parts_union; [exact Hp|apply Hes; by left..|done]|intros e' He'; apply Hes; by right|done]].
    intros x y. unfold plus_edge. split.
    + intros [[?|[-> ->]]|(e' & He & ?)]; [by left|right; exists e; split; [by left|done]|right; exists e'; split; [by right|done]].
    + intros [?|(e' & He & Hs & Ht)]; [by left; left|]. apply elem_of_cons in He as [->|He]; [left; right; done|right; eauto].
Qed.

Lemma foldl_bind {A B C} (f : A -> C -> A) (h : B -> list C) (l : list B) (a : A) :
  foldl (fun a b => foldl f a (h b)) a l = foldl f a (l ≫= h).
Proof.
  revert a. induction l as [|b l IH]; intros a; [done|]. rewrite bind_cons, foldl_app. cbn [foldl]. apply IH.
Qed.

Section Props.
Context (order : gmap N CausalNode -> list N).
Hypothesis order_perm : forall m, order m ≡ₚ (map_to_list m).*1.

Lemma order_elem m i : i ∈ order m <-> is_Some (m !! i).
Proof using order_perm. rewrite order_perm. apply elem_of_map_keys. Qed.

Lemma order_nodup m : NoDup (order m).
Proof using order_perm. rewrite order_perm. apply NoDup_fst_map_to_list. Qed.

Lemma order_length m : lenN (order m) = N.of_nat (size m).
Proof using order_perm. unfold lenN. by rewrite order_perm, length_fmap, length_map_to_list. Qed.

(** The adjacency part of the invariant is enough for the index to be right
    after a rebuild. *)
Lemma rebuild_parts g :
  (forall i, is_Some (forward_edges g !! i) -> is_Some (cg_nodes g !! i)) ->
  (forall s l e, forward_edges g !! s = Some l -> e ∈ l -> edge_source e = s) ->
  (forall e, e ∈ edges_of (forward_edges g) -> is_Some (cg_nodes g !! edge_target e)) ->
  N.of_nat (size (cg_nodes g)) < u64_mod ->
  parts (components (Graph.rebuild_component_index order g)) (dom (cg_nodes g)) (linked g).
Proof using order_perm.
  intros Hf Hs Ht Hsz. unfold Graph.rebuild_component_index. cbn [components Graph.with_components].
  rewrite foldl_bind. set (ids := Graph.node_ids order g).
  assert (list_to_set ids = dom (cg_nodes g)) as Hids.
  { apply set_eq. intros x. rewrite elem_of_list_to_set, elem_of_dom. apply order_elem. }
  assert (forall e, e ∈ (ids ≫= Graph.get_forward_edges g) <-> e ∈ edges_of (forward_edges g)) as Hes.
  { intros e. rewrite list_elem_of_bind, elem_of_edges_of. unfold Graph.get_forward_edges. split.
    - intros (i & He & _). destruct (forward_edges g !! i) as [l|] eqn:Hl; [eauto|by apply not_elem_of_nil in He].
    - intros (s & l & Hl & He). exists s. rewrite Hl. split; [done|]. apply order_elem. apply Hf. eauto. }
  eapply parts_ext; [|apply fold_union_parts].
  2: { rewrite <- Hids, <- (union_empty_r_L (list_to_set ids)). apply fold_add_parts; [apply parts_new|apply order_nodup|set_solver|done|].
       rewrite size_empty. unfold ids, Graph.node_ids. rewrite order_length. lia. }
  - intros a b. cbn. unfold linked. setoid_rewrite Hes. split; [by intros [[]|?]|by right].
  - intros e He%Hes. rewrite !elem_of_dom. split; [|by apply Ht]. apply elem_of_edges_of in He as (s & l & Hl & He).
    rewrite (Hs s l e Hl He). apply Hf. eauto.
  - by rewrite size_dom.
Qed.

(** ** Every operation preserves it *)

Lemma new_graph_wf : graph_wf Graph.new.
Proof using Type.
  split; cbn.
  - intros i n. by rewrite lookup_empty.
  - reflexivity.
  - intros i. rewrite !lookup_empty. split; by intros [? ?].
  - intros i. rewrite !lookup_empty. split; by intros [? ?].
  - intros x l e. by rewrite lookup_empty.
  - intros e He. by apply not_elem_of_nil in He.
  - intros t l. by rewrite lookup_empty.
  - reflexivity.
  - reflexivity.
  - eapply parts_ext; [|rewrite dom_empty_L; apply parts_new]. intros x y. split; [done|].
    intros (e & He & _). by apply not_elem_of_nil in He.
Qed.

Lemma add_node_wf g label md :
  graph_wf g -> next_node_id g + 1 < u64_mod -> graph_wf (Graph.add_node g label md).1.1.
Proof using Type.
  intros Hw Hb. set (id := next_node_id g) in *. cbn.
  assert (cg_nodes g !! id = None) as Hid.
  { destruct (cg_nodes g !! id) as [n|] eqn:E; [|done]. pose proof (gw_id _ Hw id n E). lia. }
  assert (forward_edges g !! id = None) as Hf by (apply eq_None_not_Some; rewrite (gw_fwd _ Hw), Hid; by intros [? ?]).
  pose proof (edges_of_insert (forward_edges g) id [] Hf : edges_of (<[id := []]> (forward_edges g)) ≡ₚ edges_of (forward_edges g)) as Hes.
  pose proof (gw_next _ Hw) as Hn. fold id in Hn.
  assert (forall (m : gmap N (list CausalEdge)) i, is_Some (m !! i) <-> is_Some (cg_nodes g !! i) ->
    is_Some (<[id := []]> m !! i) <-> is_Some (<[id := mkCNode id label 0 md]> (cg_nodes g) !! i)) as Hd.
  { intros m i Hi. rewrite !lookup_insert_is_Some. by rewrite Hi. }
  split; cbn; fold id; rewrite ?wrap_add64_small by lia.
  - intros i n [[<- <-]|[Hne Hi]]%lookup_insert_Some; [cbn; split; [done|lia]|].
    destruct (gw_id _ Hw i n Hi) as [? Hlt]. fold id in Hlt. split; [done|lia].
  - rewrite map_size_insert_None by done. lia.
  - intros i. apply Hd, (gw_fwd _ Hw).
  - intros i. apply Hd, (gw_rev _ Hw).
  - intros x l e [[<- <-]|[_ Hl]]%lookup_insert_Some He; [by apply not_elem_of_nil in He|by apply (gw_source _ Hw x l)].
  - intros e He. rewrite Hes in He. apply (gw_target _ Hw) in He. rewrite lookup_insert_is_Some.
    destruct (decide (id = edge_target e)); auto.
  - intros t l Hl. rewrite Hes. apply lookup_insert_Some in Hl as [[<- <-]|[_ Hl]]; [|by apply (gw_mirror _ Hw)].
    rewrite list_filter_none; [done|]. intros e He%(gw_target _ Hw) Ht. rewrite Ht, Hid in He. by destruct He.
  - rewrite (gw_nodes _ Hw), map_size_insert_None by done. rewrite wrap_add64_small by lia. lia.
  - rewrite (gw_edges _ Hw). unfold lenN. by rewrite Hes.
  - eapply parts_ext; [|rewrite dom_insert_L; apply (parts_add _ _ _ id (gw_parts _ Hw))].
    + intros x y. unfold linked. cbn. by setoid_rewrite Hes.
    + by rewrite elem_of_dom, Hid.
    + intros u v. by apply linked_nodes.
    + rewrite size_dom. lia.
Qed.

(** A change of node contents that keeps the ids *)
Lemma with_nodes_wf g m :
  graph_wf g -> (forall i, cn_id <$> m !! i = cn_id <$> cg_nodes g !! i) -> graph_wf (Graph.with_nodes g m).
Proof using Type.
  intros Hw Hm.
  assert (forall i, is_Some (m !! i) <-> is_Some (cg_nodes g !! i)) as Hd.
  { intros i. specialize (Hm i). destruct (m !! i), (cg_nodes g !! i); try done; split; eauto. }
  assert (dom m = dom (cg_nodes g)) as Hdom by (apply set_eq; intros i; rewrite !elem_of_dom; apply Hd).
  assert (size m = size (cg_nodes g)) as Hsz by (rewrite <- !(size_dom (D := gset N)); by rewrite Hdom).
  destruct Hw as [H1 H2 H3 H4 H5 H6 H7 H8 H9 H10]. split; cbn; try done.
  - intros i n Hi. specialize (Hm i). rewrite Hi in Hm. destruct (cg_nodes g !! i) as [n'|] eqn:E; [|done].
    cbn in Hm. injection Hm as ->. by apply H1.
  - by rewrite Hsz.
  - intros i. by rewrite H3, Hd.
  - intros i. by rewrite H4, Hd.
  - intros e He. by apply Hd, H6.
  - by rewrite Hsz.
  - rewrite Hdom. exact H10.
Qed.

Lemma set_node_state_wf g id st : graph_wf g -> graph_wf (Graph.set_node_state g id st).1.1.
Proof using Type.
  intros Hw. unfold Graph.set_node_state. destruct (cg_nodes g !! id) as [n|] eqn:E; [|done]. cbn [fst].
  apply with_nodes_wf; [done|]. intros i. destruct (decide (i = id)) as [->|]; [by rewrite lookup_insert_eq, E|by rewrite lookup_insert_ne].
Qed.

Lemma merge_node_metadata_wf g id patch : graph_wf g -> graph_wf (Graph.merge_node_metadata g id patch).1.
Proof using Type.
  intros Hw. unfold Graph.merge_node_metadata. destruct (cg_nodes g !! id) as [n|] eqn:E; [|done]. cbn [fst].
  apply with_nodes_wf; [done|]. intros i. destruct (decide (i = id)) as [->|]; [by rewrite lookup_insert_eq, E|by rewrite lookup_insert_ne].
Qed.

Lemma link_wf g s t ty w ts cs :
  graph_wf g -> next_node_id g < u64_mod -> cg_edge_count g + 1 < u64_mod -> graph_wf (Graph.link g s t ty w ts cs).1.1.
Proof using Type.
  intros Hw Hb He. unfold Graph.link. case_bool_decide as Hs; [|done]. case_bool_decide as Ht; [|done]. cbn [negb orb fst].
  set (e := mkEdge s t ty w ts cs _ _). pose proof (gw_next _ Hw) as Hn.
  destruct (proj2 (gw_fwd _ Hw s) Hs) as [l Hl]. destruct (proj2 (gw_rev _ Hw t) Ht) as [k Hk].
  pose proof (edges_of_push (forward_edges g) s l e Hl) as Hes.
  assert (forall (m : gmap N (list CausalEdge)) j i, is_Some (alter (fun l => l ++ [e]) j m !! i) <-> is_Some (m !! i)) as Hd.
  { intros m j i. destruct (decide (i = j)) as [->|]; [rewrite lookup_alter_eq; by rewrite fmap_is_Some|by rewrite lookup_alter_ne]. }
  split; cbn.
  - apply (gw_id _ Hw).
  - apply (gw_next _ Hw).
  - intros i. rewrite Hd. apply (gw_fwd _ Hw).
  - intros i. rewrite Hd. apply (gw_rev _ Hw).
  - intros x v e' Hv He'. destruct (decide (x = s)) as [->|Hx].
    + rewrite lookup_alter_eq, Hl in Hv. cbn in Hv. injection Hv as <-.
      apply elem_of_app in He' as [He'|He']; [by apply (gw_source _ Hw s l)|]. by apply list_elem_of_singleton in He' as ->.
    + rewrite lookup_alter_ne in Hv by done. by apply (gw_source _ Hw x v).
  - intros e'. rewrite Hes, elem_of_cons. intros [->|He']; [done|by apply (gw_target _ Hw)].
  - intros x v Hv. rewrite Hes, filter_cons. cbn [edge_target e]. destruct (decide (t = x)) as [<-|Hx].
    + rewrite lookup_alter_eq, Hk in Hv. cbn in Hv. injection Hv as <-. rewrite (gw_mirror _ Hw t k Hk). solve_Permutation.
    + rewrite lookup_alter_ne in Hv by done. by apply (gw_mirror _ Hw).
  - apply (gw_nodes _ Hw).
  - rewrite wrap_add64_small by done. rewrite (gw_edges _ Hw). unfold lenN. rewrite Hes. cbn [length]. lia.
  - eapply parts_ext; [|apply (parts_union _ _ _ s t (gw_parts _ Hw))].
    + intros x y. unfold linked, plus_edge. cbn. setoid_rewrite Hes. split.
      * intros [(e' & He' & Hxy)|[-> ->]]; [exists e'; split; [by right|done]|exists e; split; [by left|done]].
      * intros (e' & He' & Hxy). apply elem_of_cons in He' as [->|He']; [right; cbn in Hxy; by destruct Hxy as [-> ->]|left; eauto].
    + by apply elem_of_dom.
    + by apply elem_of_dom.
    + rewrite size_dom. lia.
Qed.

Lemma clear_wf inst now g : graph_wf g -> graph_wf (Graph.clear inst now g).1.1.
Proof using Type.
  intros Hw. pose proof (gw_next _ Hw) as Hn. unfold Graph.clear.
  assert (forall e, graph_wf (mkGraph ∅ ∅ ∅ (next_node_id g) 0 0 UF.new (cg_chain g) e)) as Hwipe.
  { intros e. destruct new_graph_wf as [H1 H2 H3 H4 H5 H6 H7 H8 H9 H10]. split; cbn in *; try done. change (N.of_nat (size (∅ : gmap N CausalNode))) with 0. lia. }
  destruct (cg_governance g) as [e|]; [|apply Hwipe].
  destruct (Engine.evaluate inst e now (Graph.clear_request inst)) as [e' r].
  assert (graph_wf (Graph.set_governance_engine g e')) as Hg.
  { destruct Hw as [H1 H2 H3 H4 H5 H6 H7 H8 H9 H10]. by split. }
  destruct (gr_decision r); [apply Hwipe|apply Hwipe|exact Hg|exact Hg].
Qed.

(** *** Removing edges *)

(** What removing edges leaves: the edges that satisfy [keep], in both
    directions, over the nodes [m]. *)
Record pruned (g g' : CausalGraph) (m : gmap N CausalNode) (keep : CausalEdge -> Prop) `{!forall e, Decision (keep e)} : Prop := {
  pr_nodes : cg_nodes g' = m;
  pr_sub : m ⊆ cg_nodes g;
  pr_next : next_node_id g' = next_node_id g;
  pr_fwd : forall i, is_Some (forward_edges g' !! i) <-> is_Some (m !! i);
  pr_rev : forall i, is_Some (reverse_edges g' !! i) <-> is_Some (m !! i);
  pr_source : forall s l e, forward_edges g' !! s = Some l -> e ∈ l -> edge_source e = s;
  pr_edges : edges_of (forward_edges g') ≡ₚ filter keep (edges_of (forward_edges g));
  pr_mirror : forall t l, reverse_edges g' !! t = Some l ->
    exists k, reverse_edges g !! t = Some k /\ l = filter keep k;
  pr_target : forall e, e ∈ edges_of (forward_edges g) -> keep e -> is_Some (m !! edge_target e);
  pr_node_count : cg_node_count g' = N.of_nat (size m);
  pr_edge_count : cg_edge_count g' = lenN (edges_of (forward_edges g'));
}.

Lemma filter_comm (P Q : CausalEdge -> Prop) `{Pdec : !forall e, Decision (P e)} `{Qdec : !forall e, Decision (Q e)} (l : list CausalEdge) :
  filter P (filter Q l) = filter Q (filter P l).
Proof using Type.
  induction l as [|x l IH]; [done|]. rewrite (filter_cons Q), (filter_cons P).
  destruct (decide (Q x)), (decide (P x)); rewrite ?(filter_cons P), ?(filter_cons Q), ?decide_True, ?decide_False by done; by rewrite ?IH.
Qed.

Lemma pruned_rebuild_wf g g' m keep `{!forall e, Decision (keep e)} :
  graph_wf g -> next_node_id g < u64_mod -> pruned g g' m keep -> graph_wf (Graph.rebuild_component_index order g').
Proof using order_perm.
  intros Hw Hb [Hm Hsub Hnx Hf Hr Hs He Hmi Ht Hnc Hec]. subst m.
  assert (size (cg_nodes g') <= size (cg_nodes g))%nat as Hsz by (by apply map_subseteq_size).
  pose proof (gw_next _ Hw) as Hn.
  assert (forall e, e ∈ edges_of (forward_edges g') -> is_Some (cg_nodes g' !! edge_target e)) as Ht'.
  { intros e. rewrite He, list_elem_of_filter. intros [Hk Hin]. by apply Ht. }
  split; cbn.
  - intros i n Hi. rewrite Hnx. apply (gw_id _ Hw). by eapply lookup_weaken.
  - rewrite Hnx. lia.
  - done.
  - done.
  - done.
  - done.
  - intros t l Hl. destruct (Hmi t l Hl) as (k & Hk & ->). rewrite He, (gw_mirror _ Hw t k Hk). by rewrite filter_comm.
  - done.
  - done.
  - exact (rebuild_parts g' (fun i => proj1 (Hf i)) Hs Ht' ltac:(lia)).
Qed.

Lemma lenN_filter_split (P : CausalEdge -> Prop) `{Pdec : !forall e, Decision (P e)} (l : list CausalEdge) :
  lenN l = lenN (filter P l) + lenN (filter (fun e => ~ P e) l).
Proof using Type.
  unfold lenN. induction l as [|x l IH]; [done|]. rewrite !filter_cons. destruct (decide (P x)), (decide (~ P x)); try done; cbn [length]; lia.
Qed.

Lemma filter_and (P Q : CausalEdge -> Prop) `{Pdec : !forall e, Decision (P e)} `{Qdec : !forall e, Decision (Q e)} (l : list CausalEdge) :
  filter (fun e => P e /\ Q e) l = filter P (filter Q l).
Proof using Type.
  induction l as [|x l IH]; [done|]. rewrite !filter_cons. destruct (decide (Q x)); [rewrite filter_cons|];
    destruct (decide (P x /\ Q x)), (decide (P x)); try tauto; by rewrite IH.
Qed.

Lemma filter_alter_is_Some (P : CausalEdge -> Prop) `{Pdec : !forall e, Decision (P e)} j (m : gmap N (list CausalEdge)) i :
  is_Some (alter (filter P) j m !! i) <-> is_Some (m !! i).
Proof using Type.
  destruct (decide (i = j)) as [->|]; [rewrite lookup_alter_eq; by rewrite fmap_is_Some|by rewrite lookup_alter_ne].
Qed.

(** Filtering one list is filtering all of them, when the other lists have
    nothing to lose. *)
Lemma alter_filter_fmap (P Q : CausalEdge -> Prop) `{Pdec : !forall e, Decision (P e)} `{Qdec : !forall e, Decision (Q e)} j (m : gmap N (list CausalEdge)) :
  (forall l, m !! j = Some l -> filter P l = filter Q l) ->
  (forall i l, i <> j -> m !! i = Some l -> filter Q l = l) ->
  alter (filter P) j m = filter Q <$> m.
Proof using Type.
  intros Hj Hi. apply map_eq. intros i. rewrite lookup_fmap. destruct (decide (i = j)) as [->|Hne].
  - rewrite lookup_alter_eq. destruct (m !! j) as [l|] eqn:E; [|done]. cbn. by rewrite (Hj l).
  - rewrite lookup_alter_ne by done. destruct (m !! i) as [l|] eqn:E; [|done]. cbn. by rewrite (Hi i l).
Qed.

Lemma reverse_target g t l e : graph_wf g -> reverse_edges g !! t = Some l -> e ∈ l -> edge_target e = t /\ e ∈ edges_of (forward_edges g).
Proof using Type. intros Hw Hl He. rewrite (gw_mirror _ Hw t l Hl) in He. by apply list_elem_of_filter in He as [? ?]. Qed.

Lemma unlink_pruned g s t :
  graph_wf g -> lenN (edges_of (forward_edges g)) < u64_mod ->
  let fwd := Graph.get_forward_edges g s in
  let count := lenN fwd - lenN (filter (fun e => edge_target e <> t) fwd) in
  pruned g (mkGraph (cg_nodes g) (alter (filter (fun e => edge_target e <> t)) s (forward_edges g))
             (alter (filter (fun e => edge_source e <> s)) t (reverse_edges g)) (next_node_id g) (cg_node_count g)
             (wrap_sub64 (cg_edge_count g) count) (components g) (cg_chain g) (cg_governance g))
    (cg_nodes g) (fun e => ~ (edge_source e = s /\ edge_target e = t)).
Proof using Type.
  intros Hw Hlen fwd count. set (keep := fun e => ~ (edge_source e = s /\ edge_target e = t)).
  assert (alter (filter (fun e => edge_target e <> t)) s (forward_edges g) = filter keep <$> forward_edges g) as Hf.
  { apply alter_filter_fmap.
    - intros l Hl. apply list_filter_iff_elem. intros e He. unfold keep. rewrite (gw_source _ Hw s l e Hl He). tauto.
    - intros i l Hne Hl. apply list_filter_all. intros e He. unfold keep. rewrite (gw_source _ Hw i l e Hl He). tauto. }
  assert (alter (filter (fun e => edge_source e <> s)) t (reverse_edges g) = filter keep <$> reverse_edges g) as Hr.
  { apply alter_filter_fmap.
    - intros l Hl. apply list_filter_iff_elem. intros e He. unfold keep. destruct (reverse_target g t l e Hw Hl He) as [-> _]. tauto.
    - intros i l Hne Hl. apply list_filter_all. intros e He. unfold keep. destruct (reverse_target g i l e Hw Hl He) as [-> _]. tauto. }
  assert (edges_of (filter keep <$> forward_edges g) = filter keep (edges_of (forward_edges g))) as Hes by apply edges_of_filter.
  rewrite Hf, Hr. split; cbn; try done.
  - intros i. rewrite lookup_fmap, fmap_is_Some. apply (gw_fwd _ Hw).
  - intros i. rewrite lookup_fmap, fmap_is_Some. apply (gw_rev _ Hw).
  - intros i l e Hl He. rewrite lookup_fmap in Hl. destruct (forward_edges g !! i) as [k|] eqn:E; [|done]. cbn in Hl.
    injection Hl as <-. apply list_elem_of_filter in He as [_ He]. by apply (gw_source _ Hw i k).
  - by rewrite Hes.
  - intros i l Hl. rewrite lookup_fmap in Hl. destruct (reverse_edges g !! i) as [k|] eqn:E; [|done]. cbn in Hl. injection Hl as <-. eauto.
  - intros e He _. by apply (gw_target _ Hw).
  - apply (gw_nodes _ Hw).
  - rewrite (gw_edges _ Hw), Hes. pose proof (lenN_filter_split keep (edges_of (forward_edges g))) as Hsp.
    assert (count = lenN (filter (fun e => ~ keep e) (edges_of (forward_edges g)))) as ->.
    { subst count fwd. unfold Graph.get_forward_edges. destruct (forward_edges g !! s) as [l|] eqn:E; cbn.
      - assert (filter (fun e => ~ keep e) (edges_of (delete s (forward_edges g))) = []) as Hnil.
        { apply list_filter_none. intros e (x & k & Hk & He)%elem_of_edges_of. apply lookup_delete_Some in Hk as [Hne Hk].
          unfold keep. rewrite (gw_source _ Hw x k e Hk He). intros Hnk. apply Hnk. intros [? _]. congruence. }
        unfold lenN at 3. rewrite (edges_of_delete _ s l E), filter_app, Hnil, app_nil_r. fold (lenN (filter (fun e => ~ keep e) l)).
        rewrite (lenN_filter_split (fun e => edge_target e <> t) l).
        assert (filter (fun e => ~ edge_target e <> t) l = filter (fun e => ~ keep e) l) as ->; [|lia].
        apply list_filter_iff_elem. intros e He. unfold keep. rewrite (gw_source _ Hw s l e E He).
        pose proof (eq_refl s). tauto.
      - rewrite list_filter_none; [done|]. intros e (x & k & Hk & He)%elem_of_edges_of Hnk. apply Hnk. intros [Hs _].
        rewrite (gw_source _ Hw x k e Hk He) in Hs. congruence. }
    rewrite wrap_sub64_small by lia. lia.
Qed.

Lemma unlink_wf g s t :
  graph_wf g -> next_node_id g < u64_mod -> lenN (edges_of (forward_edges g)) < u64_mod -> graph_wf (Graph.unlink order g s t).1.1.
Proof using order_perm.
  intros Hw Hb Hlen. pose proof (unlink_pruned g s t Hw Hlen) as Hp. unfold Graph.unlink. cbn zeta in *.
  set (count := lenN (Graph.get_forward_edges g s) - _) in *. cbn [fst].
  destruct (N.ltb_spec 0 count) as [Hc|Hc]; [by eapply pruned_rebuild_wf|].
  set (g' := mkGraph _ _ _ _ _ _ _ _ _) in *.
  assert (forall e, e ∈ edges_of (forward_edges g) -> ~ (edge_source e = s /\ edge_target e = t)) as Hkeep.
  { intros e (x & l & Hl & He)%elem_of_edges_of [Hs Ht]. rewrite (gw_source _ Hw x l e Hl He) in Hs. subst x.
    assert (count = 0) as Hz by lia. unfold count, Graph.get_forward_edges in Hz. rewrite Hl in Hz.
    by apply (lenN_filter_all _ _ e Hz He). }
  pose proof (pruned_rebuild_wf g g' _ _ Hw Hb Hp) as Hw'.
  assert (parts (components g) (dom (cg_nodes g)) (linked g')) as Hparts.
  { eapply parts_ext; [|apply (gw_parts _ Hw)]. intros x y. unfold linked. setoid_rewrite (pr_edges _ _ _ _ Hp).
    setoid_rewrite list_elem_of_filter. split; intros (e & He & Hxy); exists e; [|tauto]. split; [split; [by apply Hkeep|done]|done]. }
  destruct Hw' as [H1 H2 H3 H4 H5 H6 H7 H8 H9 _]. by split.
Qed.

Section RemoveNode.
Context (g : CausalGraph) (id : N) (n : CausalNode).
Hypothesis Hw : graph_wf g.
Hypothesis Hn : cg_nodes g !! id = Some n.

Let keep (e : CausalEdge) : Prop := edge_source e <> id /\ edge_target e <> id.
Let es := edges_of (forward_edges g).

Lemma remove_outgoing_eq :
  exists fwd, forward_edges g !! id = Some fwd /\
  Graph.remove_outgoing (Graph.with_nodes g (delete id (cg_nodes g))) id =
  mkGraph (delete id (cg_nodes g)) (delete id (forward_edges g)) (filter (fun e => edge_source e <> id) <$> reverse_edges g)
    (next_node_id g) (cg_node_count g) (wrap_sub64 (cg_edge_count g) (lenN fwd)) (components g) (cg_chain g) (cg_governance g).
Proof using Hw Hn.
  destruct (proj2 (gw_fwd _ Hw id) ltac:(eauto)) as [fwd Hf]. exists fwd. split; [done|].
  unfold Graph.remove_outgoing. cbn. rewrite Hf. f_equal. apply foldl_alter_filter. intros t v Hv.
  destruct (decide (Exists (fun e => edge_source e = id) v)) as [Hx|Hx].
  - left. apply Exists_exists in Hx as (e & He & Hs). destruct (reverse_target g t v e Hw Hv He) as [Ht Hin].
    apply elem_of_edges_of in Hin as (x & l & Hl & Hin). rewrite (gw_source _ Hw x l e Hl Hin) in Hs. subst x.
    exists e. split; [congruence|done].
  - right. apply list_filter_all. intros e He Hs. apply Hx, Exists_exists. eauto.
Qed.

Lemma delete_forward_edges fwd :
  forward_edges g !! id = Some fwd -> edges_of (delete id (forward_edges g)) ≡ₚ filter (fun e => edge_source e <> id) es.
Proof using Hw.
  intros Hf. unfold es. rewrite (edges_of_delete _ id fwd Hf), filter_app, (list_filter_none _ fwd), list_filter_all; [done| |].
  - intros e (x & l & Hl & He)%elem_of_edges_of. apply lookup_delete_Some in Hl as [Hne Hl]. rewrite (gw_source _ Hw x l e Hl He). congruence.
  - intros e He Hs. apply Hs. by apply (gw_source _ Hw id fwd).
Qed.

Lemma remove_edges_eq :
  exists fwd rev, forward_edges g !! id = Some fwd /\ reverse_edges g !! id = Some rev /\
  Graph.remove_incoming (Graph.remove_outgoing (Graph.with_nodes g (delete id (cg_nodes g))) id) id =
  mkGraph (delete id (cg_nodes g)) (filter (fun e => edge_target e <> id) <$> delete id (forward_edges g))
    (delete id (filter (fun e => edge_source e <> id) <$> reverse_edges g)) (next_node_id g) (cg_node_count g)
    (wrap_sub64 (wrap_sub64 (cg_edge_count g) (lenN fwd)) (lenN (filter (fun e => edge_source e <> id) rev)))
    (components g) (cg_chain g) (cg_governance g).
Proof using Hw Hn.
  destruct remove_outgoing_eq as (fwd & Hf & ->). destruct (proj2 (gw_rev _ Hw id) ltac:(eauto)) as [rev Hr].
  exists fwd, rev. split; [done|]. split; [done|]. unfold Graph.remove_incoming. cbn. rewrite lookup_fmap, Hr. cbn. f_equal.
  apply foldl_alter_filter. intros x v Hv. apply lookup_delete_Some in Hv as [Hne Hv].
  destruct (decide (Exists (fun e => edge_target e = id) v)) as [Hx|Hx].
  - left. apply Exists_exists in Hx as (e & He & Ht). pose proof (gw_source _ Hw x v e Hv He) as Hs.
    exists e. split; [|done]. apply list_elem_of_filter. split; [congruence|]. rewrite (gw_mirror _ Hw id rev Hr).
    apply list_elem_of_filter. split; [done|]. apply elem_of_edges_of. eauto.
  - right. apply list_filter_all. intros e He Ht. apply Hx, Exists_exists. eauto.
Qed.

Lemma removed_edge_count fwd rev :
  forward_edges g !! id = Some fwd -> reverse_edges g !! id = Some rev ->
  lenN es = lenN fwd + lenN (filter (fun e => edge_source e <> id) rev) + lenN (filter keep es).
Proof using Hw.
  intros Hf Hr. rewrite (lenN_filter_split (fun e => edge_source e <> id) es).
  assert (lenN (filter (fun e => ~ edge_source e <> id) es) = lenN fwd) as ->.
  { unfold lenN, es. rewrite (edges_of_delete _ id fwd Hf), filter_app, (list_filter_all _ fwd), (list_filter_none _ (edges_of _)), app_nil_r; [done| |].
    - intros e (x & l & Hl & He)%elem_of_edges_of Hnn. apply lookup_delete_Some in Hl as [Hne Hl]. apply Hnn.
      rewrite (gw_source _ Hw x l e Hl He). congruence.
    - intros e He Hne. apply Hne. by apply (gw_source _ Hw id fwd). }
  rewrite (lenN_filter_split (fun e => edge_target e <> id) (filter (fun e => edge_source e <> id) es)).
  assert (filter keep es = filter (fun e => edge_target e <> id) (filter (fun e => edge_source e <> id) es)) as ->.
  { unfold keep. rewrite filter_and. by rewrite filter_comm. }
  assert (lenN (filter (fun e => ~ edge_target e <> id) (filter (fun e => edge_source e <> id) es))
          = lenN (filter (fun e => edge_source e <> id) rev)) as ->; [|lia].
  unfold lenN. rewrite (gw_mirror _ Hw id rev Hr), filter_comm. fold es. do 3 f_equal.
  apply list_filter_iff_elem. intros e _. destruct (decide (edge_target e = id)); tauto.
Qed.

Lemma remove_pruned :
  lenN es < u64_mod -> cg_node_count g < u64_mod ->
  let g' := Graph.remove_incoming (Graph.remove_outgoing (Graph.with_nodes g (delete id (cg_nodes g))) id) id in
  pruned g (mkGraph (cg_nodes g') (forward_edges g') (reverse_edges g') (next_node_id g') (wrap_sub64 (cg_node_count g') 1)
             (cg_edge_count g') (components g') (cg_chain g') (cg_governance g'))
    (delete id (cg_nodes g)) keep.
Proof using Hw Hn.
  intros Hlen Hcnt. destruct remove_edges_eq as (fwd & rev & Hf & Hr & ->). cbn zeta. cbn [cg_nodes forward_edges reverse_edges
    next_node_id cg_node_count cg_edge_count components cg_chain cg_governance].
  assert (edges_of (filter (fun e => edge_target e <> id) <$> delete id (forward_edges g)) ≡ₚ filter keep es) as Hes.
  { rewrite edges_of_filter, (delete_forward_edges fwd Hf). unfold keep. by rewrite filter_and, filter_comm. }
  pose proof (removed_edge_count fwd rev Hf Hr) as Hsum.
  assert (cg_node_count g = N.of_nat (size (cg_nodes g)) /\ size (cg_nodes g) <> 0%nat) as [Hnc Hnz].
  { split; [apply (gw_nodes _ Hw)|]. apply map_size_non_empty_iff. intros E. by rewrite E, lookup_empty in Hn. }
  split; cbn; try done.
  - apply delete_subseteq.
  - intros i. rewrite lookup_fmap, fmap_is_Some, !lookup_delete_is_Some. by rewrite (gw_fwd _ Hw).
  - intros i. rewrite !lookup_delete_is_Some, lookup_fmap, fmap_is_Some. by rewrite (gw_rev _ Hw).
  - intros x l e Hl He. rewrite lookup_fmap in Hl. destruct (delete id (forward_edges g) !! x) as [k|] eqn:E; [|done].
    cbn in Hl. injection Hl as <-. apply lookup_delete_Some in E as [_ E]. apply list_elem_of_filter in He as [_ He].
    by apply (gw_source _ Hw x k).
  - intros t l [Hne Hl]%lookup_delete_Some. rewrite lookup_fmap in Hl. destruct (reverse_edges g !! t) as [k|] eqn:E; [|done].
    cbn in Hl. injection Hl as <-. exists k. split; [done|]. apply list_filter_iff_elem. intros e He.
    destruct (reverse_target g t k e Hw E He) as [Ht _]. unfold keep. rewrite Ht. split; [|tauto]. intros ?. split; [done|congruence].
  - intros e He [_ Hk]. rewrite lookup_delete_is_Some. split; [congruence|by apply (gw_target _ Hw)].
  - rewrite wrap_sub64_small by lia. rewrite map_size_delete_Some by eauto. lia.
  - rewrite (gw_edges _ Hw). fold es. rewrite !wrap_sub64_small by (rewrite ?wrap_sub64_small by lia; lia).
    unfold lenN in *. rewrite Hes. lia.
Qed.

End RemoveNode.

Lemma remove_node_wf g id :
  graph_wf g -> next_node_id g < u64_mod -> lenN (edges_of (forward_edges g)) < u64_mod -> graph_wf (Graph.remove_node order g id).1.1.
Proof using order_perm.
  intros Hw Hb Hlen. unfold Graph.remove_node. destruct (cg_nodes g !! id) as [n|] eqn:Hn; [|done]. cbn [fst].
  pose proof (gw_next _ Hw). eapply pruned_rebuild_wf; [exact Hw|done|]. apply (remove_pruned g id n); [done..|].
  rewrite (gw_nodes _ Hw). lia.
Qed.

(** ** Executions *)

Inductive graph_op :=
| GAdd (label : string) (md : Json)
| GState (id : N) (st : string)
| GMerge (id : N) (patch : list (string * Json))
| GRemove (id : N)
| GLink (s t : N) (ty : CausalEdgeType) (w : f32) (ts cs : N)
| GUnlink (s t : N)
| GClear (inst : Instance_) (now : N).

Definition graph_step (g : CausalGraph) (o : graph_op) : CausalGraph * list AuditReq :=
  match o with
  | GAdd label md => (Graph.add_node g label md).1
  | GState id st => (Graph.set_node_state g id st).1
  | GMerge id patch => ((Graph.merge_node_metadata g id patch).1, [])
  | GRemove id => (Graph.remove_node order g id).1
  | GLink s t ty w ts cs => (Graph.link g s t ty w ts cs).1
  | GUnlink s t => (Graph.unlink order g s t).1
  | GClear inst now => (Graph.clear inst now g).1
  end.

Definition graph_run (g : CausalGraph) (ops : list graph_op) : CausalGraph :=
  foldl (fun g o => (graph_step g o).1) g ops.

(** What one operation does to the two counters that could overflow *)
Lemma graph_step_bounds g o k :
  graph_wf g -> k + 2 < u64_mod -> next_node_id g <= 1 + k -> cg_edge_count g <= k ->
  graph_wf (graph_step g o).1 /\ next_node_id (graph_step g o).1 <= 2 + k /\ cg_edge_count (graph_step g o).1 <= k + 1.
Proof using order_perm.
  intros Hw Hk Hn He. pose proof (gw_edges _ Hw) as Hec. destruct o as [label md|id st|id patch|id|s t ty w ts cs|s t|inst now]; cbn [graph_step].
  - split; [apply add_node_wf; [done|lia]|]. cbn. rewrite wrap_add64_small by lia. lia.
  - split; [by apply set_node_state_wf|]. unfold Graph.set_node_state. destruct (cg_nodes g !! id); cbn; lia.
  - split; [by apply merge_node_metadata_wf|]. unfold Graph.merge_node_metadata. destruct (cg_nodes g !! id); cbn; lia.
  - split; [apply remove_node_wf; [done|lia|lia]|]. unfold Graph.remove_node. destruct (cg_nodes g !! id) as [n|] eqn:Hid; [|cbn; lia].
    cbn. destruct (remove_edges_eq g id n Hw Hid) as (fwd & rev & Hf & Hr & ->). cbn.
    pose proof (removed_edge_count g id Hw fwd rev Hf Hr). rewrite !wrap_sub64_small; rewrite ?wrap_sub64_small; lia.
  - split; [apply link_wf; [done|lia|lia]|]. unfold Graph.link. destruct (_ || _); cbn; [lia|]. rewrite wrap_add64_small by lia. lia.
  - split; [apply unlink_wf; [done|lia|lia]|]. pose proof (unlink_pruned g s t Hw ltac:(lia)) as Hpr.
    cbn zeta in Hpr. pose proof (pr_edge_count _ _ _ _ Hpr) as Hp. pose proof (pr_edges _ _ _ _ Hpr) as Hes. clear Hpr.
    unfold Graph.unlink. cbn zeta. set (count := lenN (Graph.get_forward_edges g s) - _) in *. set (g' := mkGraph _ _ _ _ _ _ _ _ _) in *.
    assert (cg_edge_count (if 0 <? count then Graph.rebuild_component_index order g' else g') <= k) as Hc.
    { transitivity (cg_edge_count g'); [by destruct (0 <? count)|]. rewrite Hp. unfold lenN. rewrite Hes.
      pose proof (filter_length_le (fun e => ~ (edge_source e = s /\ edge_target e = t)) (edges_of (forward_edges g))). unfold lenN in Hec. lia. }
    cbn [fst]. split; [|lia]. transitivity (next_node_id g); [by destruct (0 <? count)|lia].
  - split; [by apply clear_wf|]. unfold Graph.clear. destruct (cg_governance g) as [e|]; [|cbn; lia].
    destruct (Engine.evaluate inst e now (Graph.clear_request inst)) as [e' r]. destruct (gr_decision r); cbn; lia.
Qed.

Lemma graph_run_bounds g ops k :
  graph_wf g -> k + lenN ops + 2 < u64_mod -> next_node_id g <= 1 + k -> cg_edge_count g <= k ->
  graph_wf (graph_run g ops) /\ next_node_id (graph_run g ops) <= 1 + k + lenN ops /\ cg_edge_count (graph_run g ops) <= k + lenN ops.
Proof using order_perm.
  revert g k. induction ops as [|o ops IH]; intros g k Hw Hk Hn He; [split; [done|cbn; lia]|].
  assert (lenN (o :: ops) = 1 + lenN ops) as Hl by (unfold lenN; cbn; lia).
  destruct (graph_step_bounds g o k Hw) as (Hw' & Hn' & He'); [lia..|].
  destruct (IH (graph_step g o).1 (k + 1)) as (? & ? & ?); [done|lia|lia|done|]. split; [done|]. cbn [graph_run foldl] in *. unfold graph_run in *. lia.
Qed.

Lemma node_ids_set g : list_to_set (Graph.node_ids order g) = dom (cg_nodes g).
Proof using order_perm. apply set_eq. intros x. rewrite elem_of_list_to_set, elem_of_dom. apply order_elem. Qed.

Lemma forward_edges_listed g :
  graph_wf g -> Graph.node_ids order g ≫= Graph.get_forward_edges g ≡ₚ edges_of (forward_edges g).
Proof using order_perm.
  intros Hw. assert ((map_to_list (forward_edges g)).*1 ≡ₚ Graph.node_ids order g) as Hk.
  { apply NoDup_Permutation; [apply NoDup_fst_map_to_list|apply order_nodup|]. intros x. unfold Graph.node_ids.
    rewrite order_elem, <- (gw_fwd _ Hw), list_elem_of_fmap. split.
    - intros ([y l] & -> & H%elem_of_map_to_list). eauto.
    - intros [l H]. exists (x, l). split; [done|by apply elem_of_map_to_list]. }
  rewrite <- Hk. unfold edges_of. clear Hk.
  assert (forall kv, kv ∈ map_to_list (forward_edges g) -> Graph.get_forward_edges g kv.1 = kv.2) as H.
  { intros [x l] H%elem_of_map_to_list. unfold Graph.get_forward_edges. cbn. by rewrite H. }
  induction (map_to_list (forward_edges g)) as [|kv l IH]; [done|]. rewrite fmap_cons, !bind_cons.
  rewrite IH by (intros; apply H; by right). by rewrite (H kv) by left.
Qed.

(** C19: The causal graph stays consistent.  After any sequence of operations
    (fewer than two to the 64) on an empty graph, every edge joins two
    existing nodes, each node's incoming list holds exactly the edges that
    point at it, and the node, edge and component counters are exact: the
    component counter of the incremental index is the length of every list
    with one node per connected component. *)
Theorem causal_graph_consistent ops :
  lenN ops + 2 < u64_mod ->
  let g := graph_run Graph.new ops in
  (forall s e, e ∈ Graph.get_forward_edges g s ->
     edge_source e = s /\ is_Some (Graph.get_node g s) /\ is_Some (Graph.get_node g (edge_target e))) /\
  (forall t, Graph.get_reverse_edges g t ≡ₚ filter (fun e => edge_target e = t) (Graph.node_ids order g ≫= Graph.get_forward_edges g)) /\
  Graph.node_count g = lenN (Graph.node_ids order g) /\
  Graph.edge_count g = lenN (Graph.node_ids order g ≫= Graph.get_forward_edges g) /\
  (forall reps, representatives (list_to_set (Graph.node_ids order g)) (linked g) reps ->
     Graph.component_count_fast g = lenN reps).
Proof using order_perm.
  intros Hops g. assert (graph_wf g) as Hw.
  { apply (graph_run_bounds Graph.new ops 0); [apply new_graph_wf|lia|cbn; lia|cbn; lia]. }
  pose proof (forward_edges_listed g Hw) as Hes.
  split; [|split; [|split; [|split]]].
  - intros s e He. unfold Graph.get_forward_edges in He. destruct (forward_edges g !! s) as [l|] eqn:Hl; [|by apply not_elem_of_nil in He].
    split; [by apply (gw_source _ Hw s l)|]. split; [apply (gw_fwd _ Hw); eauto|]. apply (gw_target _ Hw), elem_of_edges_of. eauto.
  - intros t. rewrite Hes. unfold Graph.get_reverse_edges. destruct (reverse_edges g !! t) as [l|] eqn:Hl; [by apply (gw_mirror _ Hw)|].
    rewrite list_filter_none; [done|]. intros e He%(gw_target _ Hw) <-. apply (gw_rev _ Hw) in He as [? ?]. congruence.
  - unfold Graph.node_count, Graph.node_ids. by rewrite order_length, (gw_nodes _ Hw).
  - unfold Graph.edge_count. rewrite (gw_edges _ Hw). unfold lenN. by rewrite Hes.
  - intros reps (H1 & H2 & H3). eapply parts_count; [apply (gw_parts _ Hw)|..]; [|by rewrite node_ids_set in H2|done].
    intros x Hx. rewrite <- node_ids_set. by apply H1.
Qed.

(** ** Snapshots *)

Context (edge_order : gmap N (list CausalEdge) -> list (N * list CausalEdge)).
Hypothesis edge_order_perm : forall m, edge_order m ≡ₚ map_to_list m.

Lemma restore_nodes l g :
  NoDup (cn_id <$> l) -> (forall n, n ∈ l -> cg_nodes g !! cn_id n = None) ->
  let g' := foldl Graph.restore_node g l in
  cg_nodes g' = list_to_map ((fun n => (cn_id n, n)) <$> l) ∪ cg_nodes g /\
  forward_edges g' = list_to_map ((fun n => (cn_id n, [])) <$> l) ∪ forward_edges g /\
  reverse_edges g' = list_to_map ((fun n => (cn_id n, [])) <$> l) ∪ reverse_edges g /\
  next_node_id g' = next_node_id g /\ cg_edge_count g' = cg_edge_count g.
Proof using Type.
  revert g. induction l as [|n l IH]; intros g Hnd Hnew; cbn [foldl fmap list_fmap list_to_map foldr].
  { by rewrite !(left_id_L ∅ (∪)). }
  rewrite fmap_cons in Hnd. apply NoDup_cons in Hnd as [Hn Hnd].
  destruct (IH (Graph.restore_node g n) Hnd) as (H1 & H2 & H3 & H4 & H5).
  { intros m Hm. cbn. rewrite lookup_insert_ne; [apply Hnew; by right|]. intros Heq. apply Hn. rewrite Heq. by apply list_elem_of_fmap_2. }
  rewrite H1, H2, H3, H4, H5. cbn.
  assert (forall {V} (f : CausalNode -> V) (k : gmap N V), list_to_map ((fun n => (cn_id n, f n)) <$> l) ∪ <[cn_id n := f n]> k
     = <[cn_id n := f n]> (list_to_map ((fun n => (cn_id n, f n)) <$> l)) ∪ k) as Hins.
  { intros V f k. rewrite <- insert_union_l, insert_union_r; [done|]. apply not_elem_of_list_to_map_1.
    intros (m & Heq & Hm)%list_elem_of_fmap. apply list_elem_of_fmap in Hm as (m' & -> & Hm). cbn in Heq.
    apply Hn. rewrite Heq. by apply list_elem_of_fmap_2. }
  rewrite (Hins _ (fun n => n)), (Hins _ (fun _ => [])). done.
Qed.

(** Restoring the edges of one source *)
Lemma restore_source s l g :
  let g' := foldl (fun g e => Graph.restore_edge g s e) g l in
  cg_nodes g' = cg_nodes g /\ forward_edges g' = alter (fun k => k ++ l) s (forward_edges g) /\
  (forall t, reverse_edges g' !! t = (fun k => k ++ filter (fun e => edge_target e = t) l) <$> reverse_edges g !! t) /\
  next_node_id g' = next_node_id g /\ cg_node_count g' = cg_node_count g /\
  (cg_edge_count g + lenN l < u64_mod -> cg_edge_count g' = cg_edge_count g + lenN l).
Proof using Type.
  revert g. induction l as [|e l IH]; intros g; cbn [foldl].
  - split; [done|]. split; [|split; [|split; [done|split; [done|intros _; symmetry; apply N.add_0_r]]]].
    + apply map_eq. intros i. destruct (decide (i = s)) as [->|]; [rewrite lookup_alter_eq|by rewrite lookup_alter_ne].
      destruct (forward_edges g !! s); cbn; by rewrite ?app_nil_r.
    + intros t. destruct (reverse_edges g !! t); cbn; by rewrite ?app_nil_r.
  - destruct (IH (Graph.restore_edge g s e)) as (H1 & H2 & H3 & H4 & H5 & H6).
    assert (lenN (e :: l) = 1 + lenN l) as Hl by (unfold lenN; cbn; lia).
    split; [done|]. split; [|split; [|split; [done|split; [done|]]]].
    + rewrite H2. cbn. apply map_eq. intros i. destruct (decide (i = s)) as [->|]; [|by rewrite !lookup_alter_ne].
      rewrite !lookup_alter_eq. destruct (forward_edges g !! s); cbn; [|done]. by rewrite <- app_assoc.
    + intros t. rewrite H3. cbn [Graph.restore_edge reverse_edges]. rewrite filter_cons. destruct (decide (edge_target e = t)) as [<-|Hne].
      * rewrite lookup_alter_eq. destruct (reverse_edges g !! edge_target e); cbn; [|done]. by rewrite <- app_assoc.
      * by rewrite lookup_alter_ne.
    + intros Hb. cbn in H6. rewrite wrap_add64_small in H6 by lia. rewrite H6 by lia. lia.
Qed.

Lemma restore_edges ls g :
  NoDup ls.*1 ->
  let g' := foldl (fun g (kv : N * list CausalEdge) => foldl (fun g e => Graph.restore_edge g kv.1 e) g kv.2) g ls in
  cg_nodes g' = cg_nodes g /\
  (forall s, forward_edges g' !! s = (fun k => k ++ default [] ((list_to_map ls : gmap N (list CausalEdge)) !! s)) <$> forward_edges g !! s) /\
  (forall t, reverse_edges g' !! t = (fun k => k ++ filter (fun e => edge_target e = t) (ls ≫= snd)) <$> reverse_edges g !! t) /\
  next_node_id g' = next_node_id g /\ cg_node_count g' = cg_node_count g /\
  (cg_edge_count g + lenN (ls ≫= snd) < u64_mod -> cg_edge_count g' = cg_edge_count g + lenN (ls ≫= snd)).
Proof using Type.
  revert g. induction ls as [|[s l] ls IH]; intros g Hnd; cbn [foldl].
  - split; [done|]. split; [|split; [|split; [done|split; [done|intros _; symmetry; apply N.add_0_r]]]]; intros i.
    + destruct (forward_edges g !! i); cbn; [|done]. by rewrite lookup_empty, app_nil_r.
    + destruct (reverse_edges g !! i); cbn; by rewrite ?app_nil_r.
  - rewrite fmap_cons in Hnd. apply NoDup_cons in Hnd as [Hs Hnd]. cbn [fst snd] in *.
    destruct (restore_source s l g) as (A1 & A2 & A3 & A4 & A5 & A6).
    destruct (IH (foldl (fun g e => Graph.restore_edge g s e) g l) Hnd) as (H1 & H2 & H3 & H4 & H5 & H6).
    rewrite bind_cons, lenN_app. cbn [snd]. split; [by rewrite H1|]. split; [|split; [|split; [by rewrite H4|split; [by rewrite H5|]]]].
    + intros i. rewrite H2, A2. cbn [list_to_map foldr fst snd]. destruct (decide (i = s)) as [->|Hne].
      * rewrite lookup_alter_eq, lookup_insert_eq, (not_elem_of_list_to_map_1 (M := gmap N) ls s Hs).
        destruct (forward_edges g !! s); cbn; by rewrite ?app_nil_r.
      * by rewrite lookup_alter_ne, lookup_insert_ne by done.
    + intros t. rewrite H3, A3, filter_app. destruct (reverse_edges g !! t); cbn; by rewrite ?app_assoc.
    + intros Hb. rewrite A6 in H6 by lia. rewrite H6 by lia. lia.
Qed.

(** Two graphs with the same content: lists of incoming edges may differ in
    order, the component index in its trees. *)
Record same_content (g g' : CausalGraph) : Prop := {
  sc_nodes : cg_nodes g' = cg_nodes g;
  sc_forward : forward_edges g' = forward_edges g;
  sc_reverse : forall t, Graph.get_reverse_edges g' t ≡ₚ Graph.get_reverse_edges g t;
  sc_next : next_node_id g' = next_node_id g;
  sc_node_count : Graph.node_count g' = Graph.node_count g;
  sc_edge_count : Graph.edge_count g' = Graph.edge_count g;
  sc_components : Graph.component_count_fast g' = Graph.component_count_fast g;
}.

Lemma snapshot_nodes g :
  graph_wf g ->
  let l := omap (fun id => cg_nodes g !! id) (order (cg_nodes g)) in
  NoDup (cn_id <$> l) /\ lenN l = N.of_nat (size (cg_nodes g)) /\ cn_id <$> l = order (cg_nodes g).
Proof using order_perm.
  intros Hw l. assert (forall ids : list N, (forall i, i ∈ ids -> is_Some (cg_nodes g !! i)) -> map cn_id (omap (fun id => cg_nodes g !! id) ids) = ids) as H.
  { induction ids as [|i ids IH]; intros Hi; [done|]. destruct (Hi i ltac:(by left)) as [n Hn]. cbn. rewrite Hn. cbn.
    rewrite (proj1 (gw_id _ Hw i n Hn)). f_equal. apply IH. intros j Hj. apply Hi. by right. }
  assert (cn_id <$> l = order (cg_nodes g)) as Hl by (apply H; intros i; by apply order_elem).
  split; [rewrite Hl; apply order_nodup|]. split; [|done]. rewrite <- (order_length (cg_nodes g)), <- Hl. unfold lenN. by rewrite length_fmap.
Qed.

Lemma node_map_of_list g :
  graph_wf g ->
  let l := omap (fun id => cg_nodes g !! id) (order (cg_nodes g)) in
  (list_to_map ((fun n => (cn_id n, n)) <$> l) : gmap N CausalNode) = cg_nodes g /\
  (forall i, (list_to_map ((fun n => (cn_id n, [])) <$> l) : gmap N (list CausalEdge)) !! i = (fun _ => []) <$> cg_nodes g !! i).
Proof using order_perm.
  intros Hw l. destruct (snapshot_nodes g Hw) as (Hnd & _ & Hids). fold l in Hnd, Hids.
  assert (forall n, n ∈ l <-> cg_nodes g !! cn_id n = Some n) as Hl.
  { intros n. unfold l. rewrite list_elem_of_omap. split.
    - intros (i & _ & Hi). by rewrite (proj1 (gw_id _ Hw i n Hi)).
    - intros Hn. exists (cn_id n). split; [apply order_elem; eauto|done]. }
  assert (forall {V} (f : CausalNode -> V) i, (list_to_map ((fun n => (cn_id n, f n)) <$> l) : gmap N V) !! i = f <$> cg_nodes g !! i) as Hmap.
  { intros V f i. destruct (cg_nodes g !! i) as [n|] eqn:Hi; cbn.
    - pose proof (proj1 (gw_id _ Hw i n Hi)) as <-. apply elem_of_list_to_map_1; [by rewrite <- list_fmap_compose|].
      apply list_elem_of_fmap. exists n. split; [done|by apply Hl].
    - apply not_elem_of_list_to_map_1. rewrite <- list_fmap_compose. change (i ∉ cn_id <$> l).
      rewrite Hids, order_elem, Hi. by intros [? ?]. }
  split; [|intros i; apply (Hmap _ (fun _ => []))]. apply map_eq. intros i. rewrite (Hmap _ (fun n => n)). by destruct (cg_nodes g !! i).
Qed.

Lemma edges_of_nonempty m :
  map_to_list (filter (fun kv : N * list CausalEdge => kv.2 <> []) m) ≫= snd ≡ₚ edges_of m.
Proof using Type.
  induction m as [|s l m Hs IH] using map_ind; [done|]. rewrite (edges_of_insert _ _ _ Hs). destruct (decide (l = [])) as [->|Hne].
  - rewrite map_filter_insert_False by (cbn; tauto). rewrite map_filter_delete, delete_id; [exact IH|]. apply map_lookup_filter_None. by left.
  - rewrite map_filter_insert_True by done. rewrite map_to_list_insert by (apply map_lookup_filter_None; by left). by rewrite bind_cons, IH.
Qed.

Lemma restored_content g :
  graph_wf g -> next_node_id g < u64_mod -> cg_edge_count g < u64_mod ->
  same_content g (Graph.from_snapshot order edge_order (Graph.to_snapshot order g)).
Proof using order_perm edge_order_perm.
  intros Hw Hb Heb. destruct (snapshot_nodes g Hw) as (Hnd & Hlen & _). destruct (node_map_of_list g Hw) as [Hm1 Hm2]. cbn zeta in *.
  set (l := omap (fun id => cg_nodes g !! id) (order (cg_nodes g))) in *.
  unfold Graph.from_snapshot, Graph.to_snapshot. cbn [Graph.snap_next_node_id Graph.snap_nodes Graph.snap_forward_edges].
  fold (Graph.node_ids order g). change (omap _ (Graph.node_ids order g)) with l.
  set (g0 := mkGraph ∅ ∅ ∅ (next_node_id g) 0 0 UF.new false None).
  destruct (restore_nodes l g0 Hnd) as (N1 & N2 & N3 & N4 & N5); [intros n _; apply lookup_empty|].
  set (g1 := foldl Graph.restore_node g0 l) in *. cbn [g0 cg_nodes forward_edges reverse_edges] in N1, N2, N3.
  rewrite (right_id_L ∅ (∪)) in N1. rewrite (right_id_L ∅ (∪)) in N2. rewrite (right_id_L ∅ (∪)) in N3. rewrite Hm1 in N1.
  set (g2 := mkGraph (cg_nodes g1) _ _ _ _ _ _ _ _).
  set (ls := edge_order _). assert (ls ≡ₚ map_to_list (filter (fun kv : N * list CausalEdge => kv.2 <> []) (forward_edges g))) as Hls by apply edge_order_perm.
  assert (NoDup ls.*1) as Hlnd by (rewrite Hls; apply NoDup_fst_map_to_list).
  assert (ls ≫= snd ≡ₚ edges_of (forward_edges g)) as Hle by (rewrite Hls; apply edges_of_nonempty).
  destruct (restore_edges ls g2 Hlnd) as (E1 & E2 & E3 & E4 & E5 & E6).
  set (g3 := foldl _ g2 ls) in *. cbn [cg_nodes forward_edges reverse_edges next_node_id cg_node_count cg_edge_count g2] in *.
  assert (forward_edges g3 = forward_edges g) as Hfwd.
  { apply map_eq. intros s. rewrite E2, N2, Hm2.
    assert ((list_to_map ls : gmap N (list CausalEdge)) = filter (fun kv => kv.2 <> []) (forward_edges g)) as ->.
    { rewrite (list_to_map_proper ls _ Hlnd Hls). apply list_to_map_to_list. }
    destruct (forward_edges g !! s) as [k|] eqn:Hk.
    - destruct (proj1 (gw_fwd _ Hw s) ltac:(eauto)) as [n ->]. cbn. f_equal. destruct (decide (k = [])) as [->|Hne].
      + destruct (filter _ (forward_edges g) !! s) as [k'|] eqn:Hf; [|done]. apply map_lookup_filter_Some in Hf as [Hf Hne]. cbn in Hne. congruence.
      + by rewrite (proj2 (map_lookup_filter_Some (fun kv : N * list CausalEdge => kv.2 <> []) _ s k) (conj Hk Hne)).
    - destruct (cg_nodes g !! s) eqn:Hs; [|done]. destruct (proj2 (gw_fwd _ Hw s) ltac:(eauto)). congruence. }
  assert (cg_nodes g3 = cg_nodes g) as Hnodes by (by rewrite E1).
  split; cbn.
  - done.
  - done.
  - intros t. unfold Graph.get_reverse_edges. cbn. rewrite E3, N3, Hm2. destruct (reverse_edges g !! t) as [k|] eqn:Hk.
    + destruct (proj1 (gw_rev _ Hw t) ltac:(eauto)) as [n ->]. cbn. rewrite Hle. symmetry. by apply (gw_mirror _ Hw).
    + destruct (cg_nodes g !! t) eqn:Ht; [|done]. destruct (proj2 (gw_rev _ Hw t) ltac:(eauto)). congruence.
  - by rewrite E4, N4.
  - unfold Graph.node_count. cbn. rewrite E5, Hlen. symmetry. apply (gw_nodes _ Hw).
  - unfold Graph.edge_count. cbn. rewrite N5 in E6. rewrite E6; cbn [g0 cg_edge_count].
    + rewrite (gw_edges _ Hw). unfold lenN. rewrite Hle. lia.
    + rewrite (gw_edges _ Hw) in Heb. unfold lenN in *. rewrite Hle. lia.
  - unfold Graph.component_count_fast. eapply parts_count_eq; [|apply (gw_parts _ Hw)].
    rewrite <- Hnodes. eapply parts_ext; [|apply (rebuild_parts g3)].
    + intros x y. unfold linked. by rewrite Hfwd.
    + intros i. rewrite Hfwd, Hnodes. apply (gw_fwd _ Hw).
    + rewrite Hfwd. apply (gw_source _ Hw).
    + rewrite Hfwd, Hnodes. apply (gw_target _ Hw).
    + rewrite Hnodes. pose proof (gw_next _ Hw). lia.
Qed.

(** Saving and restoring loses nothing: the graph rebuilt from the
    snapshot of any graph the operations can produce has the same nodes, ids,
    outgoing edges in the same order, incoming edges, counters, next id and
    component count, in whatever order the maps are iterated. *)
Theorem snapshot_round_trip ops :
  lenN ops + 2 < u64_mod ->
  let g := graph_run Graph.new ops in
  same_content g (Graph.from_snapshot order edge_order (Graph.to_snapshot order g)).
Proof using order_perm edge_order_perm.
  intros Hops g. assert (graph_wf g /\ next_node_id g < u64_mod /\ cg_edge_count g < u64_mod) as (Hw & Hb & Heb).
  { pose proof (graph_run_bounds Graph.new ops 0 new_graph_wf ltac:(lia) ltac:(cbn; lia) ltac:(cbn; lia)) as (Hw & Hn & He).
    fold g in Hw, Hn, He. split; [done|]. split; lia. }
  by apply restored_content.
Qed.

End Props.

(** Three nodes, two edges and an edge taken back *)
Definition listed (m : gmap N CausalNode) : list N := (map_to_list m).*1.
Definition demo : list graph_op :=
  [GAdd "a" JNull; GAdd "b" JNull; GAdd "c" JNull; GLink 1 2 Causes F32.one 0 0; GLink 2 1 Enables F32.one 0 0; GUnlink 2 1].

Lemma causal_graph_consistent_witness :
  Graph.edge_count (graph_run listed Graph.new demo)
  = lenN (Graph.node_ids listed (graph_run listed Graph.new demo) ≫= Graph.get_forward_edges (graph_run listed Graph.new demo)).
Proof.
  destruct (causal_graph_consistent listed (fun m => reflexivity _) demo) as (_ & _ & _ & H & _); [reflexivity|]. exact H.
Defined.

Example demo_components : Graph.component_count_fast (graph_run listed Graph.new demo) = 2.
Proof. vm_compute. reflexivity. Qed.

Lemma snapshot_round_trip_witness :
  same_content (graph_run listed Graph.new demo)
    (Graph.from_snapshot listed map_to_list (Graph.to_snapshot listed (graph_run listed Graph.new demo))).
Proof.
  apply (snapshot_round_trip listed (fun m => reflexivity _) map_to_list (fun m => reflexivity _) demo). reflexivity.
Defined.
