(* ===== verification/CausalPath.v ===== *)
(** Traversals of the causal graph (causal.rs): bounded breadth-first search in
    both directions, shortest paths, explained chains, and connected
    components.  The searches carry fuel, one unit per queued node; no result
    stands for exhausted fuel, and the theorems show that there always is a
    result. *)

From S2P Require Import Prelude.
From S2P Require Import Codec.
From S2P Require Import Scoring.
From S2P Require Import UnionFind.
From S2P Require Import Causal.
Open Scope N_scope.

(** ** The code *)

Module Search.

(** The neighbours [bfs] looks at *)
Definition neighbors (g : CausalGraph) (forward : bool) (x : N) : list N :=
  if forward then edge_target <$> Graph.get_forward_edges g x else edge_source <$> Graph.get_reverse_edges g x.

(** The inner loop of [bfs]: one neighbour *)
Definition bfs_visit (d : N) (st : gset N * list N * list (N * N)) (y : N) : gset N * list N * list (N * N) :=
  let '(visited, res, queue) := st in
  if decide (y ∈ visited) then (visited, res, queue) else ({[y]} ∪ visited, res ++ [y], queue ++ [(y, d + 1)]).

(** The outer loop of [bfs] *)
Fixpoint bfs_loop (fuel : nat) (nbrs : N -> list N) (depth : N) (visited : gset N) (res : list N) (queue : list (N * N))
  : option (list N) :=
  match queue with
  | [] => Some res
  | (current, d) :: queue =>
      match fuel with
      | O => None
      | S fuel =>
          if depth <=? d then bfs_loop fuel nbrs depth visited res queue
          else
            let '(visited, res, queue) := foldl (bfs_visit d) (visited, res, queue) (nbrs current) in
            bfs_loop fuel nbrs depth visited res queue
      end
  end.

(** [CausalGraph::bfs], [traverse_forward], [traverse_reverse] *)
Definition bfs (g : CausalGraph) (start depth : N) (forward : bool) : option (list N) :=
  bfs_loop (S (size (cg_nodes g))) (neighbors g forward) depth {[start]} [] [(start, 0)].
Definition traverse_forward (g : CausalGraph) (start depth : N) : option (list N) := bfs g start depth true.
Definition traverse_reverse (g : CausalGraph) (start depth : N) : option (list N) := bfs g start depth false.

(** The search of [find_path] and [trace_causal_chain]: [note] is what the
    parent map keeps of the edge by which a node was reached. *)
Section ParentSearch.
Context {D : Type} (note : N -> CausalEdge -> D).

(** The inner loop; it stops with the parent map when it reaches [to]. *)
Fixpoint scan (to current d : N) (es : list CausalEdge) (visited : gset N) (parent : gmap N D) (queue : list (N * N))
  : gmap N D + (gset N * gmap N D * list (N * N)) :=
  match es with
  | [] => inr (visited, parent, queue)
  | e :: es =>
      let y := edge_target e in
      if decide (y ∈ visited) then scan to current d es visited parent queue
      else
        let visited := {[y]} ∪ visited in
        let parent := <[y := note current e]> parent in
        if y =? to then inl parent else scan to current d es visited parent (queue ++ [(y, d + 1)])
  end.

(** The outer loop: the parent map, or nothing when the queue runs empty. *)
Fixpoint search_loop (fuel : nat) (g : CausalGraph) (to max_depth : N) (visited : gset N) (parent : gmap N D) (queue : list (N * N))
  : option (option (gmap N D)) :=
  match queue with
  | [] => Some None
  | (current, d) :: queue =>
      match fuel with
      | O => None
      | S fuel =>
          if max_depth <=? d then search_loop fuel g to max_depth visited parent queue
          else
            match scan to current d (Graph.get_forward_edges g current) visited parent queue with
            | inl parent => Some (Some parent)
            | inr (visited, parent, queue) => search_loop fuel g to max_depth visited parent queue
            end
      end
  end.

Definition search (g : CausalGraph) (from to max_depth : N) : option (option (gmap N D)) :=
  search_loop (S (size (cg_nodes g))) g to max_depth {[from]} ∅ [(from, 0)].

End ParentSearch.

(** Reconstruction: from [to] up the parent map until [from] *)
Fixpoint climb (fuel : nat) (parent : gmap N N) (from cur : N) (path : list N) : option (list N) :=
  if cur =? from then Some (from :: path)
  else
    match fuel with
    | O => None
    | S fuel =>
        match parent !! cur with
        | None => None
        | Some up => climb fuel parent from up (cur :: path)
        end
    end.

Definition note_node (current : N) (e : CausalEdge) : N := current.

(** [CausalGraph::find_path] *)
Definition find_path (g : CausalGraph) (from to max_depth : N) : option (option (list N)) :=
  if from =? to then Some (Some [from])
  else if negb (bool_decide (is_Some (cg_nodes g !! from))) || negb (bool_decide (is_Some (cg_nodes g !! to))) then Some None
  else
    match search note_node g from to max_depth with
    | None => None
    | Some None => Some None
    | Some (Some parent) => Some <$> climb (size parent) parent from to []
    end.

Record CausalChain := mkCausalChain {
  cc_path : list (N * CausalEdgeType * N);
  explanation : string;
  total_weight : f32;
}.

Definition label_for (g : CausalGraph) (id : N) : string :=
  match Graph.get_node g id with Some n => cn_label n | None => "node:" +:+ pretty id end.

Definition note_edge (current : N) (e : CausalEdge) : N * CausalEdgeType * f32 := (current, edge_type e, edge_weight e).

(** Reconstruction with the edges used; the weight is summed from [to] back. *)
Fixpoint climb_edges (fuel : nat) (parent : gmap N (N * CausalEdgeType * f32)) (from cur : N)
  (steps : list (N * CausalEdgeType * N)) (weight : f32) : option (list (N * CausalEdgeType * N) * f32) :=
  if cur =? from then Some (steps, weight)
  else
    match fuel with
    | O => None
    | S fuel =>
        match parent !! cur with
        | None => None
        | Some (up, t, w) => climb_edges fuel parent from up ((up, t, cur) :: steps) (F32.add weight w)
        end
    end.

Definition explain (g : CausalGraph) (steps : list (N * CausalEdgeType * N)) : string :=
  match steps with
  | [] => ""
  | (src, _, _) :: _ =>
      foldl (fun s (st : N * CausalEdgeType * N) => s +:+ " --" +:+ edge_type_to_string st.1.2 +:+ "--> " +:+ label_for g st.2)
        (label_for g src) steps
  end.

(** [CausalGraph::trace_causal_chain] *)
Definition trace_causal_chain (g : CausalGraph) (from to max_depth : N) : option (option CausalChain) :=
  if from =? to then Some (Some (mkCausalChain [] (label_for g from) F32.zero))
  else if negb (bool_decide (is_Some (cg_nodes g !! from))) || negb (bool_decide (is_Some (cg_nodes g !! to))) then Some None
  else
    match search note_edge g from to max_depth with
    | None => None
    | Some None => Some None
    | Some (Some parent) =>
        match climb_edges (size parent) parent from to [] F32.zero with
        | None => None
        | Some (steps, w) => Some (Some (mkCausalChain steps (explain g steps) w))
        end
    end.

(** The queue step of [connected_components]: forward targets, then reverse
    sources. *)
Definition cc_neighbors (g : CausalGraph) (x : N) : list N := neighbors g true x ++ neighbors g false x.

Definition cc_visit (st : gset N * list N) (y : N) : gset N * list N :=
  let '(visited, queue) := st in
  if decide (y ∈ visited) then (visited, queue) else ({[y]} ∪ visited, queue ++ [y]).

Fixpoint component_loop (fuel : nat) (g : CausalGraph) (visited : gset N) (component queue : list N) : option (gset N * list N) :=
  match queue with
  | [] => Some (visited, component)
  | current :: queue =>
      match fuel with
      | O => None
      | S fuel =>
          let '(visited, queue) := foldl cc_visit (visited, queue) (cc_neighbors g current) in
          component_loop fuel g visited (component ++ [current]) queue
      end
  end.

(** [component.sort()] and [sort_by_key] on the length, largest first *)
Definition sort_ids (l : list N) : list N := merge_sort N.le l.
Definition longer (a b : list N) : Prop := (length b <= length a)%nat.
#[global] Instance longer_dec a b : Decision (longer a b).
Proof. unfold longer. apply _. Defined.

Fixpoint components_loop (g : CausalGraph) (ids : list N) (visited : gset N) (components : list (list N)) : option (list (list N)) :=
  match ids with
  | [] => Some components
  | id :: ids =>
      if decide (id ∈ visited) then components_loop g ids visited components
      else
        match component_loop (size (cg_nodes g)) g ({[id]} ∪ visited) [] [id] with
        | None => None
        | Some (visited, component) => components_loop g ids visited (components ++ [sort_ids component])
        end
  end.

(** [CausalGraph::connected_components] *)
Definition connected_components (order : gmap N CausalNode -> list N) (g : CausalGraph) : option (list (list N)) :=
  merge_sort longer <$> components_loop g (Graph.node_ids order g) ∅ [].

End Search.

(** ** Breadth-first search with distances

    The ghost state of a search: the label of every visited node, which will be
    its distance from the start, and the queue. *)

Section Labels.
Context (nbrs : N -> list N) (s depth : N).

Definition adj (x y : N) : Prop := y ∈ nbrs x.

Record binv (L : gmap N N) (q : list (N * N)) (h : N) : Prop := {
  bi_start : L !! s = Some 0;
  bi_sound : forall x k, L !! x = Some k -> nsteps adj (N.to_nat k) s x;
  bi_queue : forall x d, (x, d) ∈ q -> L !! x = Some d /\ h <= d <= h + 1;
  bi_sorted : StronglySorted (fun a b => a.2 <= b.2) q;
  bi_max : forall x k, L !! x = Some k -> k <= h + 1;
  bi_closed : forall x k, L !! x = Some k ->
    (x, k) ∈ q \/ (k < depth -> forall y, adj x y -> exists j, L !! y = Some j /\ j <= k + 1);
}.

Lemma binv_init : binv {[s := 0]} [(s, 0)] 0.
Proof.
  split.
  - by rewrite lookup_singleton_eq.
  - intros x k [<- <-]%lookup_singleton_Some. constructor.
  - intros x d [= -> ->]%list_elem_of_singleton. rewrite lookup_singleton_eq. split; [done|lia].
  - repeat constructor.
  - intros x k [<- <-]%lookup_singleton_Some. lia.
  - intros x k [<- <-]%lookup_singleton_Some. left. by left.
Qed.

(** Labels are complete up to the depth of the queue. *)
Lemma binv_complete L q h m n y :
  binv L q h -> (forall x k, (x, k) ∈ q -> m <= k) -> m <= depth -> N.of_nat n <= m -> nsteps adj n s y ->
  exists j, L !! y = Some j /\ j <= N.of_nat n.
Proof.
  intros Hi Hq Hm. revert y. induction n as [|n IH]; intros y Hn Hy.
  - inversion Hy; subst. exists 0. split; [apply (bi_start _ _ _ Hi)|lia].
  - apply nsteps_inv_r in Hy as (x & Hx & Hxy). destruct (IH x ltac:(lia) Hx) as (j & Hj & Hjn).
    destruct (bi_closed _ _ _ Hi x j Hj) as [Hin|Hcl]; [specialize (Hq x j Hin); lia|].
    destruct (Hcl ltac:(lia) y Hxy) as (i & Hi' & Hle). exists i. split; [done|lia].
Qed.

Definition lvisit (d : N) (st : gmap N N * list (N * N)) (y : N) : gmap N N * list (N * N) :=
  match st.1 !! y with Some _ => st | None => (<[y := d + 1]> st.1, st.2 ++ [(y, d + 1)]) end.

Lemma lvisit_spec d ys L q :
  let '(L', q') := foldl (lvisit d) (L, q) ys in
  exists news, q' = q ++ news /\ L ⊆ L' /\ size L' = (size L + length news)%nat /\
    (forall y, y ∈ ys -> is_Some (L' !! y)) /\
    (forall y j, L' !! y = Some j -> L !! y = Some j \/ (L !! y = None /\ y ∈ ys /\ j = d + 1 /\ (y, j) ∈ news)) /\
    (forall p, p ∈ news -> p.2 = d + 1 /\ L' !! p.1 = Some (d + 1)).
Proof.
  revert L q. induction ys as [|y ys IH]; intros L q; cbn [foldl].
  { exists []. rewrite app_nil_r. split; [done|]. split; [done|]. split; [cbn; lia|].
    split; [by intros ? ?%not_elem_of_nil|]. split; [by left|by intros ? ?%not_elem_of_nil]. }
  unfold lvisit at 2. cbn [fst snd]. destruct (L !! y) as [k|] eqn:Hy.
  - specialize (IH L q). destruct (foldl (lvisit d) (L, q) ys) as [L' q']. destruct IH as (news & Hq & Hsub & Hsz & Hin & Hnew & Hp).
    exists news. split; [done|]. split; [done|]. split; [done|]. split; [|split; [|done]].
    + intros z [->|Hz]%elem_of_cons; [|by apply Hin]. exists k. by eapply lookup_weaken.
    + intros z j Hz. destruct (Hnew z j Hz) as [?|(? & ? & ?)]; [by left|]. right. split; [done|]. split; [by right|done].
  - specialize (IH (<[y := d + 1]> L) (q ++ [(y, d + 1)])).
    destruct (foldl (lvisit d) (<[y := d + 1]> L, q ++ [(y, d + 1)]) ys) as [L' q'].
    destruct IH as (news & Hq & Hsub & Hsz & Hin & Hnew & Hp). exists ((y, d + 1) :: news).
    assert (L' !! y = Some (d + 1)) as HyL by (eapply lookup_weaken; [|exact Hsub]; by rewrite lookup_insert_eq).
    split; [by rewrite Hq, <- app_assoc|]. split; [etransitivity; [|exact Hsub]; by apply insert_subseteq|].
    split; [rewrite Hsz, map_size_insert_None by done; cbn; lia|]. split; [|split].
    + intros z [->|Hz]%elem_of_cons; [eauto|by apply Hin].
    + intros z j Hz. destruct (Hnew z j Hz) as [[[<- <-]|[_ ?]]%lookup_insert_Some|(Hz' & ? & ? & ?)].
      * right. split; [done|]. split; [by left|]. split; [done|by left].
      * by left.
      * apply lookup_insert_None in Hz' as [? _]. right. split; [done|]. split; [by right|]. split; [done|by right].
    + intros p [->|Hp']%elem_of_cons; [done|by apply Hp].
Qed.

Lemma binv_skip L cur d q h : binv L ((cur, d) :: q) h -> depth <= d -> binv L q h.
Proof.
  intros [H1 H2 H3 H4 H5 H6] Hd. split; [done|done|intros x e He; apply H3; by right|by apply StronglySorted_inv in H4 as [? _]|done|].
  intros x k Hk. destruct (H6 x k Hk) as [[[= -> ->]|?]%elem_of_cons|?]; [right; lia|by left|by right].
Qed.

Lemma binv_scan L cur d q h :
  binv L ((cur, d) :: q) h -> let '(L', q') := foldl (lvisit d) (L, q) (nbrs cur) in binv L' q' d.
Proof.
  intros [H1 H2 H3 H4 H5 H6]. destruct (H3 cur d ltac:(by left)) as [Hcur Hd].
  apply StronglySorted_inv in H4 as [Hs Hall]. rewrite Forall_forall in Hall.
  pose proof (lvisit_spec d (nbrs cur) L q) as Hv. destruct (foldl (lvisit d) (L, q) (nbrs cur)) as [L' q'].
  destruct Hv as (news & -> & Hsub & _ & Hin & Hnew & Hp). split.
  - by eapply lookup_weaken.
  - intros x k Hk. destruct (Hnew x k Hk) as [?|(_ & Hx & -> & _)]; [by apply H2|].
    replace (N.to_nat (d + 1)) with (S (N.to_nat d)) by lia. eapply nsteps_r; [by apply H2|done].
  - intros x e [He|He]%elem_of_app.
    + destruct (H3 x e ltac:(by right)) as [Hx ?]. specialize (Hall (x, e) He). cbn in Hall. split; [by eapply lookup_weaken|lia].
    + destruct (Hp _ He) as [Hx Hx']. cbn in Hx, Hx'. subst. split; [done|lia].
  - apply StronglySorted_app_2; [|done|].
    + intros [x1 e1] [x2 e2] He1 He2. destruct (H3 x1 e1 ltac:(by right)) as [_ ?]. destruct (Hp _ He2) as [? _]. cbn in *. lia.
    + assert (forall l, (forall p, p ∈ l -> p.2 = d + 1) -> StronglySorted (fun a b : N * N => a.2 <= b.2) l) as Hc.
      { induction l as [|p l IH]; intros Hl; constructor; [apply IH; intros; apply Hl; by right|].
        apply Forall_forall. intros p' Hp'. rewrite (Hl p) by left. rewrite (Hl p') by (by right). lia. }
      apply Hc. intros p Hin'. by apply Hp.
  - intros x k Hk. destruct (Hnew x k Hk) as [?|(_ & _ & -> & _)]; [|lia]. specialize (H5 x k ltac:(done)). lia.
  - intros x k Hk. destruct (Hnew x k Hk) as [Hold|(_ & _ & -> & Hn)]; [|left; apply elem_of_app; by right].
    destruct (H6 x k Hold) as [[[= -> ->]|Hq]%elem_of_cons|Hcl]; [|left; apply elem_of_app; by left|].
    + right. intros _ y Hy. destruct (Hin y Hy) as [j Hj]. exists j. split; [done|].
      destruct (Hnew y j Hj) as [Hj'|(_ & _ & -> & _)]; [specialize (H5 y j Hj'); lia|lia].
    + right. intros Hlt y Hy. destruct (Hcl Hlt y Hy) as (j & Hj & ?). exists j. split; [by eapply lookup_weaken|done].
Qed.

(** At the end the labels are the distances up to [depth]. *)
Lemma binv_done L h x :
  binv L [] h -> (forall y k, L !! y = Some k -> k <= depth) ->
  is_Some (L !! x) <-> bsteps adj (N.to_nat depth) s x.
Proof.
  intros Hi Hmax. rewrite bsteps_nsteps. split.
  - intros [k Hk]. exists (N.to_nat k). specialize (Hmax x k Hk). split; [lia|by apply (bi_sound _ _ _ Hi)].
  - intros (n & Hn & Hs). destruct (binv_complete L [] h depth n x Hi) as (j & Hj & _); [by intros ? ? ?%not_elem_of_nil|lia|lia|done|eauto].
Qed.

End Labels.

(** ** Bounded traversal *)

(** The visited set and the result list of [bfs] against the labels *)
Lemma bfs_visit_labels s d ys L res q :
  is_Some (L !! s) -> NoDup res -> list_to_set res = dom L ∖ {[s]} ->
  exists res', foldl (Search.bfs_visit d) (dom L, res, q) ys =
    (dom (foldl (lvisit d) (L, q) ys).1, res', (foldl (lvisit d) (L, q) ys).2) /\
  NoDup res' /\ list_to_set res' = dom (foldl (lvisit d) (L, q) ys).1 ∖ {[s]}.
Proof.
  revert L res q. induction ys as [|y ys IH]; intros L res q Hs Hnd Hres; cbn [foldl]; [by exists res|].
  unfold Search.bfs_visit at 2, lvisit at 2 4 6. cbn [fst snd]. destruct (L !! y) as [k|] eqn:Hy.
  - rewrite decide_True by (apply elem_of_dom; eauto). by apply IH.
  - rewrite decide_False by (rewrite elem_of_dom, Hy; by intros [? ?]). rewrite <- dom_insert_L with (x := d + 1).
    assert (y <> s) as Hys by (intros ->; rewrite Hy in Hs; by destruct Hs).
    assert (y ∉ (list_to_set res : gset N)) as Hnew by (rewrite Hres, elem_of_difference, elem_of_dom, Hy; by intros [[? ?] _]).
    apply IH.
    + rewrite lookup_insert_ne by done. done.
    + apply NoDup_app. split; [done|]. split; [|apply NoDup_singleton]. intros x Hx ->%list_elem_of_singleton. apply Hnew. by apply elem_of_list_to_set.
    + rewrite list_to_set_app_L, Hres, dom_insert_L. set_solver.
Qed.

Section Bfs.
Context (nbrs : N -> list N) (s depth : N) (U : gset N).
Hypothesis Hs : s ∈ U.
Hypothesis HU : forall x y, adj nbrs x y -> y ∈ U.

Definition bounded_labels (L : gmap N N) : Prop := dom L ⊆ U /\ forall y k, L !! y = Some k -> k <= depth.

Lemma lvisit_bounded d L q ys :
  bounded_labels L -> d < depth -> (forall y, y ∈ ys -> y ∈ U) -> bounded_labels (foldl (lvisit d) (L, q) ys).1.
Proof using Type.
  intros [HL Hk] Hd Hys. pose proof (lvisit_spec d ys L q) as Hv. destruct (foldl (lvisit d) (L, q) ys) as [L' q'].
  destruct Hv as (news & _ & _ & _ & _ & Hnew & _). split; cbn [fst].
  - intros y [j Hj]%elem_of_dom. destruct (Hnew y j Hj) as [?|(_ & Hy & _)]; [apply HL, elem_of_dom; eauto|by apply Hys].
  - intros y j Hj. destruct (Hnew y j Hj) as [?|(_ & _ & -> & _)]; [by eapply Hk|lia].
Qed.

(** What is left to pop: the queue and the nodes not yet visited *)
Lemma lvisit_measure d L q ys :
  dom (foldl (lvisit d) (L, q) ys).1 ⊆ U -> dom L ⊆ U ->
  (length (foldl (lvisit d) (L, q) ys).2 + (size U - size (foldl (lvisit d) (L, q) ys).1) = length q + (size U - size L))%nat.
Proof using Type.
  intros H1 H2. pose proof (lvisit_spec d ys L q) as Hv. destruct (foldl (lvisit d) (L, q) ys) as [L' q'].
  destruct Hv as (news & -> & _ & Hsz & _). cbn [fst snd] in *. apply subseteq_size in H1, H2. rewrite size_dom in H1, H2.
  rewrite length_app. lia.
Qed.

Lemma bfs_loop_spec fuel L res q h :
  binv nbrs s depth L q h -> bounded_labels L -> NoDup res -> list_to_set res = dom L ∖ {[s]} ->
  (length q + (size U - size L) <= fuel)%nat ->
  exists l, Search.bfs_loop fuel nbrs depth (dom L) res q = Some l /\ NoDup l /\
    forall x, x ∈ l <-> x <> s /\ bsteps (adj nbrs) (N.to_nat depth) s x.
Proof using Hs HU.
  revert L res q h. induction fuel as [|fuel IH]; intros L res q h Hi Hb Hnd Hres Hf;
    (destruct q as [|[cur d] q]; [exists res; split; [done|]; split; [done|]; intros x;
       rewrite <- (binv_done nbrs s depth L h x Hi (proj2 Hb)), <- elem_of_dom;
       rewrite <- (elem_of_list_to_set (C := gset N)), Hres, elem_of_difference, elem_of_singleton; tauto|]).
  - cbn [length] in Hf. lia.
  - cbn [Search.bfs_loop]. destruct (N.leb_spec depth d) as [Hd|Hd].
    + apply (IH L res q h); [by eapply binv_skip|done|done|done|cbn [length] in Hf; lia].
    + destruct (bfs_visit_labels s d (nbrs cur) L res q) as (res' & -> & Hnd' & Hres'); [eexists; apply (bi_start _ _ _ _ _ _ Hi)|done|done|].
      pose proof (binv_scan nbrs s depth L cur d q h Hi) as Hi'.
      pose proof (lvisit_bounded d L q (nbrs cur) Hb Hd (fun y => HU cur y)) as Hb'.
      pose proof (lvisit_measure d L q (nbrs cur) (proj1 Hb') (proj1 Hb)) as Hm.
      destruct (foldl (lvisit d) (L, q) (nbrs cur)) as [L' q']. cbn [fst snd] in *.
      apply (IH L' res' q' d); [done|done|done|done|cbn [length] in Hf; lia].
Qed.

End Bfs.

Lemma forward_adj g x y : graph_wf g -> adj (Search.neighbors g true) x y <-> linked g x y.
Proof.
  intros Hw. rewrite (linked_forward g x y Hw). unfold adj, Search.neighbors. rewrite list_elem_of_fmap. naive_solver.
Qed.

Lemma reverse_adj g x y : graph_wf g -> adj (Search.neighbors g false) x y <-> linked g y x.
Proof.
  intros Hw. rewrite (linked_reverse g y x Hw). unfold adj, Search.neighbors. rewrite list_elem_of_fmap. naive_solver.
Qed.

Lemma bsteps_iff {A} (R R' : relation A) n x y : (forall a b, R a b <-> R' a b) -> bsteps R n x y <-> bsteps R' n x y.
Proof.
  intros H. split; (induction 1 as [|n a b c Hab _ IH]; [constructor|]); (eapply bsteps_l; [by apply H|done]).
Qed.

Lemma bfs_spec g start depth fwd :
  graph_wf g ->
  exists l, Search.bfs g start depth fwd = Some l /\ NoDup l /\
    forall x, x ∈ l <-> x <> start /\ bsteps (adj (Search.neighbors g fwd)) (N.to_nat depth) start x.
Proof.
  intros Hw. unfold Search.bfs. set (U := {[start]} ∪ dom (cg_nodes g)).
  assert (forall x y, adj (Search.neighbors g fwd) x y -> y ∈ U) as HU.
  { intros x y H. unfold U. destruct fwd; [apply forward_adj in H|apply reverse_adj in H]; try done;
      apply linked_nodes in H; try done; set_solver. }
  assert (dom ({[start := 0]} : gmap N N) = {[start]}) as Hd by apply dom_singleton_L.
  rewrite <- Hd. apply (bfs_loop_spec (Search.neighbors g fwd) start depth U ltac:(unfold U; set_solver) HU) with (h := 0).
  - apply binv_init.
  - split; [rewrite Hd; unfold U; set_solver|]. intros y k [<- <-]%lookup_singleton_Some. lia.
  - constructor.
  - rewrite Hd. set_solver.
  - rewrite map_size_singleton. cbn [length]. unfold U. pose proof (size_union_alt {[start]} (dom (cg_nodes g) : gset N)) as Hsz.
    rewrite Hsz, size_singleton. pose proof (subseteq_size (dom (cg_nodes g) ∖ {[start]}) (dom (cg_nodes g) : gset N) ltac:(set_solver)) as Hle.
    rewrite size_dom in Hle. lia.
Qed.

(** ** Shortest paths *)

(** A walk along edges, as the list of its nodes *)
Inductive walk (R : N -> N -> Prop) : N -> N -> list N -> Prop :=
| walk_here x : walk R x x [x]
| walk_step x y z p : R x y -> walk R y z p -> walk R x z (x :: p).

Lemma walk_nsteps R x y p : walk R x y p -> nsteps R (length p - 1) x y.
Proof.
  induction 1 as [x|x y z p Hxy Hw IH]; [constructor|]. cbn [length]. destruct p as [|w p]; [inversion Hw|].
  cbn [length] in *. replace (S (S (length p)) - 1)%nat with (S (S (length p) - 1)) by lia. by eapply nsteps_l.
Qed.

Section Parents.
Context {D : Type} (note : N -> CausalEdge -> D) (g : CausalGraph) (from to max_depth : N).
Hypothesis Hw : graph_wf g.
Hypothesis Hne : from <> to.

Let nbrs := Search.neighbors g true.

(** Every visited node but the start has a parent one step closer. *)
Definition parents_ok (L : gmap N N) (parent : gmap N D) : Prop :=
  (forall y j, y <> from -> L !! y = Some j ->
    exists x e i, parent !! y = Some (note x e) /\ e ∈ Graph.get_forward_edges g x /\ edge_target e = y /\ L !! x = Some i /\ j = i + 1) /\
  dom parent = dom L ∖ {[from]}.

Lemma parents_ok_add L parent cur d e :
  parents_ok L parent -> is_Some (L !! from) -> L !! cur = Some d -> e ∈ Graph.get_forward_edges g cur -> L !! edge_target e = None ->
  parents_ok (<[edge_target e := d + 1]> L) (<[edge_target e := note cur e]> parent).
Proof using All.
  intros [Hp Hd] [lf Hf] Hcur He Hnew. assert (edge_target e <> from) as Hef by congruence. split.
  - intros y j Hy Hj. apply lookup_insert_Some in Hj as [[<- <-]|[Hne' Hj]].
    + exists cur, e, d. rewrite lookup_insert_eq. split; [done|]. split; [done|]. split; [done|]. split; [|done].
      rewrite lookup_insert_ne by congruence. done.
    + destruct (Hp y j Hy Hj) as (x & e' & i & H1 & H2 & H3 & H4 & H5). exists x, e', i. rewrite lookup_insert_ne by done.
      split; [done|]. split; [done|]. split; [done|]. split; [|done]. rewrite lookup_insert_ne by congruence. done.
  - rewrite !dom_insert_L, Hd. set_solver.
Qed.

(** One scan: either it reaches [to], or it is the labelling of all the
    neighbours. *)
Lemma scan_spec es L parent cur d q :
  parents_ok L parent -> is_Some (L !! from) -> L !! cur = Some d -> L !! to = None ->
  (forall e, e ∈ es -> e ∈ Graph.get_forward_edges g cur) ->
  match Search.scan note to cur d es (dom L) parent q with
  | inl parent' => exists L', parents_ok L' parent' /\ L ⊆ L' /\ L' !! to = Some (d + 1)
  | inr (vis, parent', q') =>
      exists L', foldl (lvisit d) (L, q) (edge_target <$> es) = (L', q') /\ vis = dom L' /\ parents_ok L' parent' /\ L' !! to = None
  end.
Proof using All.
  revert L parent q. induction es as [|e es IH]; intros L parent q Hp Hf Hcur Hto Hes; cbn [Search.scan].
  { exists L. done. }
  rewrite fmap_cons. cbn [foldl]. unfold lvisit at 2. cbn [fst snd].
  assert (forall e', e' ∈ es -> e' ∈ Graph.get_forward_edges g cur) as Hes' by (intros e' He'; apply Hes; by right).
  destruct (L !! edge_target e) as [k|] eqn:Hy.
  - rewrite decide_True by (apply elem_of_dom; eauto). by apply IH.
  - rewrite decide_False by (rewrite elem_of_dom, Hy; by intros [? ?]).
    pose proof (parents_ok_add L parent cur d e Hp Hf Hcur ltac:(apply Hes; by left) Hy) as Hp'.
    rewrite <- (dom_insert_L L (edge_target e) (d + 1)).
    destruct (N.eqb_spec (edge_target e) to) as [Heq|Hneq].
    + exists (<[edge_target e := d + 1]> L). split; [done|]. split; [by apply insert_subseteq|]. rewrite <- Heq. by rewrite lookup_insert_eq.
    + specialize (IH (<[edge_target e := d + 1]> L) (<[edge_target e := note cur e]> parent) (q ++ [(edge_target e, d + 1)]) Hp').
      assert (is_Some (<[edge_target e := d + 1]> L !! from)) as Hf'.
      { rewrite lookup_insert_is_Some. destruct (decide (edge_target e = from)); auto. }
      specialize (IH Hf' ltac:(rewrite lookup_insert_ne by congruence; done) ltac:(by rewrite lookup_insert_ne) Hes').
      destruct (Search.scan note to cur d es _ _ _) as [parent'|[[vis parent'] q']]; [|done].
      destruct IH as (L' & ? & Hsub & ?). exists L'. split; [done|]. split; [|done]. etransitivity; [|exact Hsub]. by apply insert_subseteq.
Qed.

(** The parent map of a found path: [to] has a label, which is its distance. *)
Definition found (parent : gmap N D) : Prop :=
  exists L k, parents_ok L parent /\ L !! from = Some 0 /\ L !! to = Some k /\ k <= max_depth /\
    (forall n, nsteps (linked g) n from to -> (N.to_nat k <= n)%nat).

Lemma nsteps_linked n x y : nsteps (adj nbrs) n x y <-> nsteps (linked g) n x y.
Proof using All.
  assert (forall a b, adj nbrs a b <-> linked g a b) as H by (intros a b; by apply forward_adj).
  split; (induction 1 as [|n a b c Hab _ IH]; [constructor|]); (eapply nsteps_l; [by apply H|done]).
Qed.

Let U := {[from]} ∪ dom (cg_nodes g) : gset N.

Lemma search_loop_spec fuel L parent q h :
  binv nbrs from max_depth L q h -> bounded_labels max_depth U L -> parents_ok L parent -> L !! to = None ->
  (length q + (size U - size L) <= fuel)%nat ->
  exists r, Search.search_loop note fuel g to max_depth (dom L) parent q = Some r /\
    match r with
    | Some parent' => found parent'
    | None => forall n, nsteps (linked g) n from to -> (N.to_nat max_depth < n)%nat
    end.
Proof using All.
  assert (forall x y, adj nbrs x y -> y ∈ U) as HU.
  { intros x y H%forward_adj; [|done]. apply linked_nodes in H; [|done]. unfold U. set_solver. }
  revert L parent q h. induction fuel as [|fuel IH]; intros L parent q h Hi Hb Hp Hto Hf;
    (destruct q as [|[cur d] q]; [exists None; split; [done|]; intros n Hn; apply nsteps_linked in Hn;
       destruct (decide (n <= N.to_nat max_depth)%nat) as [Hle|]; [|lia];
       destruct (binv_complete nbrs from max_depth L [] h max_depth n to Hi) as (j & Hj & _);
         [by intros ? ? ?%not_elem_of_nil|lia|lia|done|congruence]|]).
  - cbn [length] in Hf. lia.
  - cbn [Search.search_loop]. destruct (N.leb_spec max_depth d) as [Hd|Hd].
    + apply (IH L parent q h); [by eapply binv_skip|done|done|done|cbn [length] in Hf; lia].
    + destruct (bi_queue _ _ _ _ _ _ Hi cur d ltac:(by left)) as [Hcur Hdh].
      pose proof (scan_spec (Graph.get_forward_edges g cur) L parent cur d q Hp
        ltac:(eexists; apply (bi_start _ _ _ _ _ _ Hi)) Hcur Hto ltac:(done)) as Hscan.
      destruct (Search.scan note to cur d _ (dom L) parent q) as [parent'|[[vis parent'] q']].
      * destruct Hscan as (L' & Hp' & Hsub & Hl). exists (Some parent'). split; [done|]. exists L', (d + 1).
        split; [done|]. split; [eapply lookup_weaken; [apply (bi_start _ _ _ _ _ _ Hi)|done]|]. split; [done|]. split; [lia|].
        intros n Hn%nsteps_linked. destruct (decide (n <= N.to_nat d)%nat) as [Hle|]; [|lia].
        destruct (binv_complete nbrs from max_depth L ((cur, d) :: q) h d n to Hi) as (j & Hj & _); [|lia|lia|done|congruence].
        intros x k Hin. pose proof (bi_sorted _ _ _ _ _ _ Hi) as Hsrt. apply StronglySorted_inv in Hsrt as [_ Hall].
        apply elem_of_cons in Hin as [[= -> ->]|Hin]; [lia|]. rewrite Forall_forall in Hall. exact (Hall (x, k) Hin).
      * destruct Hscan as (L' & Hfold & -> & Hp' & Hto').
        change (edge_target <$> Graph.get_forward_edges g cur) with (nbrs cur) in Hfold.
        pose proof (binv_scan nbrs from max_depth L cur d q h Hi) as Hi'.
        pose proof (lvisit_bounded max_depth U d L q (nbrs cur) Hb Hd (fun y => HU cur y)) as Hb'.
        pose proof (lvisit_measure U d L q (nbrs cur) (proj1 Hb') (proj1 Hb)) as Hm.
        rewrite Hfold in Hi', Hb', Hm. cbn [fst snd] in *.
        apply (IH L' parent' q' d); [done|done|done|done|cbn [length] in Hf; lia].
Qed.

Lemma search_spec :
  exists r, Search.search note g from to max_depth = Some r /\
    match r with
    | Some parent' => found parent'
    | None => forall n, nsteps (linked g) n from to -> (N.to_nat max_depth < n)%nat
    end.
Proof using All.
  unfold Search.search. assert (dom ({[from := 0]} : gmap N N) = {[from]}) as Hd by apply dom_singleton_L.
  rewrite <- Hd. apply search_loop_spec with (h := 0).
  - apply binv_init.
  - split; [rewrite Hd; unfold U; set_solver|]. intros y k [<- <-]%lookup_singleton_Some. lia.
  - split; [|rewrite Hd, dom_empty_L; set_solver]. intros y j Hy [<- <-]%lookup_singleton_Some. done.
  - by rewrite lookup_singleton_ne.
  - rewrite map_size_singleton. cbn [length]. unfold U. pose proof (size_union_alt {[from]} (dom (cg_nodes g) : gset N)) as Hsz.
    rewrite Hsz, size_singleton. pose proof (subseteq_size (dom (cg_nodes g) ∖ {[from]}) (dom (cg_nodes g) : gset N) ltac:(set_solver)) as Hle.
    rewrite size_dom in Hle. lia.
Qed.

End Parents.

Section Climb.
Context (g : CausalGraph) (from to : N).
Hypothesis Hw : graph_wf g.

(** A label is at most the number of nodes with a parent: one for each smaller
    label. *)
Lemma label_le_size {D} (note : N -> CausalEdge -> D) L parent n k :
  parents_ok note g from L parent -> L !! from = Some 0 -> L !! n = Some k -> (N.to_nat k <= size parent)%nat.
Proof using Type.
  intros [Hp Hd] H0 Hn. rewrite <- (size_dom (D := gset N)).
  assert (exists l, length l = N.to_nat k /\ NoDup l /\ (forall x, x ∈ l -> x ∈ dom parent) /\
    (forall x, x ∈ l -> exists j, L !! x = Some j /\ j <= k)) as (l & Hlen & Hnd & Hin & _).
  { remember (N.to_nat k) as m eqn:Hm. revert n k Hn Hm. induction m as [|m IH]; intros n k Hn Hm.
    - exists []. split; [done|]. split; [constructor|]. split; by intros ? ?%not_elem_of_nil.
    - assert (n <> from) as Hnf by (intros ->; assert (k = 0) by congruence; lia).
      destruct (Hp n k Hnf Hn) as (x & e & i & Hpar & _ & _ & Hx & Hk).
      destruct (IH x i Hx ltac:(lia)) as (l & Hlen & Hnd & Hin & Hlab). exists (n :: l).
      split; [cbn; by rewrite Hlen|]. split; [|split].
      + constructor; [|done]. intros Hnl. destruct (Hlab n Hnl) as (j & Hj & ?). assert (j = k) by congruence. lia.
      + intros y [->|Hy]%elem_of_cons; [apply elem_of_dom; eauto|by apply Hin].
      + intros y [->|Hy]%elem_of_cons; [exists k; split; [done|lia]|]. destruct (Hlab y Hy) as (j & ? & ?). exists j. split; [done|lia]. }
  rewrite <- Hlen. rewrite <- (size_list_to_set (C := gset N)) by done. apply subseteq_size. intros x Hx%elem_of_list_to_set. by apply Hin.
Qed.

Lemma climb_spec fuel L parent cur k path :
  parents_ok Search.note_node g from L parent -> L !! from = Some 0 -> L !! cur = Some k -> (N.to_nat k <= fuel)%nat ->
  walk (linked g) cur to (cur :: path) ->
  exists p, Search.climb fuel parent from cur path = Some p /\ walk (linked g) from to p /\
    length p = (N.to_nat k + length (cur :: path))%nat.
Proof using Hw.
  intros Hp H0. revert cur k path. induction fuel as [|fuel IH]; intros cur k path Hcur Hf Hwalk; cbn [Search.climb];
    (destruct (N.eqb_spec cur from) as [->|Hne];
      [exists (from :: path); split; [done|]; split; [done|]; assert (k = 0) as -> by congruence; done|]);
    destruct (proj1 Hp cur k Hne Hcur) as (x & e & i & Hpar & He & Ht & Hx & ->); [lia|].
  rewrite Hpar. unfold Search.note_node in *. destruct (IH x i (cur :: path) Hx) as (p & Hc & Hpw & Hlen).
  - lia.
  - eapply walk_step; [|exact Hwalk]. apply linked_forward; [done|]. eauto.
  - exists p. split; [done|]. split; [done|]. rewrite Hlen. cbn [length]. lia.
Qed.

End Climb.

Lemma walk_nodes R x y p : walk R x y p -> x <> y -> exists z w, R x z /\ R w y.
Proof.
  induction 1 as [x|x y z p Hxy Hw IH]; intros Hne; [done|]. destruct (decide (y = z)) as [->|Hyz]; [eauto|].
  destruct (IH Hyz) as (_ & w & _ & ?). eauto.
Qed.

Lemma find_path_spec g from to max_depth :
  graph_wf g ->
  exists r, Search.find_path g from to max_depth = Some r /\
    match r with
    | Some p => walk (linked g) from to p /\ (length p <= S (N.to_nat max_depth))%nat /\
        forall p', walk (linked g) from to p' -> (length p <= length p')%nat
    | None => forall p', walk (linked g) from to p' -> (S (N.to_nat max_depth) < length p')%nat
    end.
Proof.
  intros Hw. unfold Search.find_path. destruct (N.eqb_spec from to) as [->|Hne].
  { exists (Some [to]). split; [done|]. split; [constructor|]. split; [cbn; lia|].
    intros p' Hp'. destruct p'; [inversion Hp'|cbn; lia]. }
  assert (forall p', walk (linked g) from to p' -> from ∈ dom (cg_nodes g) /\ to ∈ dom (cg_nodes g)) as Hnodes.
  { intros p' Hp'. destruct (walk_nodes _ _ _ _ Hp' Hne) as (z & w & H1 & H2). apply linked_nodes in H1, H2; try done. tauto. }
  case_bool_decide as Hf; cbn [negb orb].
  2: { exists None. split; [done|]. intros p' [?%elem_of_dom _]%Hnodes. done. }
  case_bool_decide as Ht; cbn [negb orb].
  2: { exists None. split; [done|]. intros p' [_ ?%elem_of_dom]%Hnodes. done. }
  destruct (search_spec Search.note_node g from to max_depth Hw Hne) as (r & -> & Hr). destruct r as [parent|].
  - destruct Hr as (L & k & Hp & H0 & Hk & Hmax & Hmin).
    destruct (climb_spec g from to Hw (size parent) L parent to k []) as (p & -> & Hpw & Hlen);
      [done|done|done|by eapply label_le_size|constructor|].
    exists (Some p). split; [done|]. split; [done|]. cbn [length] in Hlen. split; [lia|].
    intros p' Hp'. pose proof (Hmin _ (walk_nsteps _ _ _ _ Hp')). destruct p' as [|? p']; [inversion Hp'|]. cbn [length] in *. lia.
  - exists None. split; [done|]. intros p' Hp'. pose proof (Hr _ (walk_nsteps _ _ _ _ Hp')). destruct p' as [|? p']; [inversion Hp'|].
    cbn [length] in *. lia.
Qed.

(** ** Explained chains *)

(** A chain of typed edges of the graph *)
Inductive typed_walk (g : CausalGraph) : N -> N -> list (N * CausalEdgeType * N) -> Prop :=
| tw_here x : typed_walk g x x []
| tw_step x y z t st :
    (exists e, e ∈ Graph.get_forward_edges g x /\ edge_type e = t /\ edge_target e = y) ->
    typed_walk g y z st -> typed_walk g x z ((x, t, y) :: st).

Lemma typed_walk_nsteps g x y st : graph_wf g -> typed_walk g x y st -> nsteps (linked g) (length st) x y.
Proof.
  intros Hw. induction 1 as [x|x y z t st (e & He & _ & Ht) _ IH]; [constructor|]. eapply nsteps_l; [|exact IH].
  apply linked_forward; [done|]. eauto.
Qed.

(** A walk with an edge joins nodes of the graph. *)
Lemma typed_walk_nodes g x y st :
  graph_wf g -> typed_walk g x y st -> x = y \/ (is_Some (Graph.get_node g x) /\ is_Some (Graph.get_node g y)).
Proof.
  intros Hw. induction 1 as [x|x y z t st (e & He & _ & Ht) _ IH]; [by left|]. right.
  assert (linked g x y) as (e' & He' & <- & <-) by (apply linked_forward; [done|]; eauto).
  split; [by apply (gw_source_node g e')|]. destruct IH as [<-|[_ ?]]; [by apply (gw_target _ Hw)|done].
Qed.

Lemma nsteps_typed_walk g n x y : graph_wf g -> nsteps (linked g) n x y -> exists st, typed_walk g x y st /\ length st = n.
Proof.
  intros Hw. induction 1 as [x|n x y z Hxy _ (st & Hst & Hlen)]; [exists []; split; [constructor|done]|].
  apply linked_forward in Hxy as (e & He & Ht); [|done]. exists ((x, edge_type e, y) :: st). split; [|cbn; by rewrite Hlen].
  econstructor; eauto.
Qed.

Lemma climb_edges_spec g from to fuel L parent cur k st w :
  parents_ok Search.note_edge g from L parent -> L !! from = Some 0 -> L !! cur = Some k -> (N.to_nat k <= fuel)%nat ->
  typed_walk g cur to st ->
  exists st' w', Search.climb_edges fuel parent from cur st w = Some (st', w') /\ typed_walk g from to st' /\
    length st' = (N.to_nat k + length st)%nat.
Proof.
  intros Hp H0. revert cur k st w. induction fuel as [|fuel IH]; intros cur k st w Hcur Hf Hwalk; cbn [Search.climb_edges];
    (destruct (N.eqb_spec cur from) as [->|Hne];
      [exists st, w; split; [done|]; split; [done|]; assert (k = 0) as -> by congruence; done|]);
    destruct (proj1 Hp cur k Hne Hcur) as (x & e & i & Hpar & He & Ht & Hx & ->); [lia|].
  rewrite Hpar. unfold Search.note_edge. destruct (IH x i ((x, edge_type e, cur) :: st) (F32.add w (edge_weight e)) Hx) as (st' & w' & Hc & Hpw & Hlen).
  - lia.
  - econstructor; [|exact Hwalk]. eauto.
  - exists st', w'. split; [done|]. split; [done|]. rewrite Hlen. cbn [length]. lia.
Qed.

Lemma trace_spec g from to max_depth :
  graph_wf g ->
  exists r, Search.trace_causal_chain g from to max_depth = Some r /\
    match r with
    | Some c => typed_walk g from to (Search.cc_path c) /\ (length (Search.cc_path c) <= N.to_nat max_depth)%nat /\
        (forall st, typed_walk g from to st -> (length (Search.cc_path c) <= length st)%nat)
    | None => forall st, typed_walk g from to st -> (N.to_nat max_depth < length st)%nat
    end.
Proof.
  intros Hw. unfold Search.trace_causal_chain. destruct (N.eqb_spec from to) as [->|Hne].
  { eexists. split; [done|]. cbn. split; [constructor|]. split; [lia|intros; lia]. }
  assert (forall st, typed_walk g from to st -> from ∈ dom (cg_nodes g) /\ to ∈ dom (cg_nodes g)) as Hnodes.
  { intros st Hst%typed_walk_nsteps; [|done]. destruct st as [|s st]; [by inversion Hst|]. cbn [length] in Hst.
    pose proof (nsteps_inv_r _ _ _ Hst) as (z & _ & Hz). inversion Hst as [|? ? y ? Hy _]; subst.
    split; [by apply (linked_nodes g from y)|by apply (linked_nodes g z to)]. }
  case_bool_decide as Hf; cbn [negb orb].
  2: { exists None. split; [done|]. intros st [?%elem_of_dom _]%Hnodes. done. }
  case_bool_decide as Ht; cbn [negb orb].
  2: { exists None. split; [done|]. intros st [_ ?%elem_of_dom]%Hnodes. done. }
  destruct (search_spec Search.note_edge g from to max_depth Hw Hne) as (r & -> & Hr). destruct r as [parent|].
  - destruct Hr as (L & k & Hp & H0 & Hk & Hmax & Hmin).
    destruct (climb_edges_spec g from to (size parent) L parent to k [] F32.zero) as (st & w & -> & Hst & Hlen);
      [done|done|done|by eapply label_le_size|constructor|].
    eexists. split; [done|]. cbn [Search.cc_path]. split; [done|]. cbn [length] in Hlen. split; [lia|].
    intros st' Hst'%typed_walk_nsteps; [|done]. specialize (Hmin _ Hst'). lia.
  - exists None. split; [done|]. intros st Hst%typed_walk_nsteps; [|done]. by apply Hr.
Qed.

(** ** Connected components *)

Section Component.
Context (g : CausalGraph) (id : N) (V0 : gset N).
Hypothesis Hw : graph_wf g.
Hypothesis Hid : id ∈ dom (cg_nodes g).
Hypothesis HV0 : id ∉ V0.
(** The nodes visited before are whole components. *)
Hypothesis Hclosed : forall x y, x ∈ V0 -> sc (linked g) x y -> y ∈ V0.

Lemma cc_adj x y : y ∈ Search.cc_neighbors g x <-> sc (linked g) x y.
Proof using All.
  unfold Search.cc_neighbors. rewrite elem_of_app. unfold sc.
  pose proof (forward_adj g x y Hw) as H1. pose proof (reverse_adj g x y Hw) as H2. unfold adj in *. by rewrite H1, H2.
Qed.

Record cinv (vis : gset N) (comp q : list N) : Prop := {
  ci_vis : vis = V0 ∪ list_to_set (comp ++ q);
  ci_nodup : NoDup (comp ++ q);
  ci_fresh : forall x, x ∈ comp ++ q -> x ∉ V0;
  ci_conn : forall x, x ∈ comp ++ q -> rtsc (linked g) id x;
  ci_id : id ∈ comp ++ q;
  ci_done : forall x y, x ∈ comp -> sc (linked g) x y -> y ∈ vis;
}.

Lemma cinv_node vis comp q x : cinv vis comp q -> x ∈ comp ++ q -> x ∈ dom (cg_nodes g).
Proof using All.
  intros Hi Hx. destruct (conn_closed (linked g) (dom (cg_nodes g)) id x (fun u v => linked_nodes g u v Hw) (ci_conn _ _ _ Hi x Hx)) as [<-|[_ ?]]; done.
Qed.

(** Visiting some neighbours of [cur], which has just left the queue *)
Lemma cc_visit_spec cur ys vis comp q :
  (forall y, y ∈ ys -> sc (linked g) cur y) -> cur ∈ comp -> 
  vis = V0 ∪ list_to_set (comp ++ q) -> NoDup (comp ++ q) -> (forall x, x ∈ comp ++ q -> x ∉ V0) ->
  (forall x, x ∈ comp ++ q -> rtsc (linked g) id x) ->
  let '(vis', q') := foldl Search.cc_visit (vis, q) ys in
  exists k, q' = q ++ k /\ vis' = V0 ∪ list_to_set (comp ++ q') /\ NoDup (comp ++ q') /\ (forall x, x ∈ comp ++ q' -> x ∉ V0) /\
    (forall x, x ∈ comp ++ q' -> rtsc (linked g) id x) /\ vis ⊆ vis' /\ (forall y, y ∈ ys -> y ∈ vis').
Proof using All.
  intros Hys Hcur. revert vis q. induction ys as [|y ys IH]; intros vis q Hv Hnd Hfr Hco; cbn [foldl].
  { exists []. rewrite app_nil_r. repeat (split; [done|]). by intros ? ?%not_elem_of_nil. }
  specialize (IH ltac:(intros z Hz; apply Hys; by right)). unfold Search.cc_visit at 2. destruct (decide (y ∈ vis)) as [Hy|Hy].
  - specialize (IH vis q Hv Hnd Hfr Hco). destruct (foldl Search.cc_visit (vis, q) ys) as [vis' q'].
    destruct IH as (k & H1 & H2 & H3 & H4 & H5 & H6 & H7). exists k. repeat (split; [done|]). intros z [->|Hz]%elem_of_cons; [by apply H6|by apply H7].
  - assert (forall x, x ∈ comp ++ q ++ [y] <-> x ∈ comp ++ q \/ x = y) as Hel.
    { intros x. rewrite app_assoc, elem_of_app, list_elem_of_singleton. done. }
    assert (sc (linked g) cur y) as Hcy by (apply Hys; by left).
    specialize (IH ({[y]} ∪ vis) (q ++ [y])). destruct (foldl Search.cc_visit ({[y]} ∪ vis, q ++ [y]) ys) as [vis' q'].
    destruct IH as (k & H1 & H2 & H3 & H4 & H5 & H6 & H7).
    + rewrite Hv, app_assoc, (list_to_set_app_L (comp ++ q)). set_solver.
    + rewrite app_assoc. apply NoDup_app. split; [done|]. split; [|apply NoDup_singleton]. intros x Hx ->%list_elem_of_singleton.
      apply Hy. rewrite Hv. apply elem_of_union_r, elem_of_list_to_set. done.
    + intros x [Hx| ->]%Hel; [by apply Hfr|]. intros Hx. apply (Hfr cur); [apply elem_of_app; by left|]. eapply Hclosed; [exact Hx|].
      destruct Hcy as [?|?]; [by right|by left].
    + intros x [Hx| ->]%Hel; [by apply Hco|]. eapply rtc_r; [apply (Hco cur), elem_of_app; by left|done].
    + exists (y :: k). rewrite H1, <- app_assoc in *. split; [done|]. repeat (split; [done|]). split; [set_solver|].
      intros z [->|Hz]%elem_of_cons; [set_solver|by apply H7].
Qed.

Lemma component_loop_spec fuel vis comp q :
  cinv vis comp q -> (size (cg_nodes g) <= fuel + length comp)%nat ->
  exists c, Search.component_loop fuel g vis comp q = Some (V0 ∪ list_to_set c, c) /\ NoDup c /\
    (forall x, x ∈ c <-> rtsc (linked g) id x).
Proof using All.
  revert vis comp q. induction fuel as [|fuel IH]; intros vis comp q Hi Hf;
    (destruct q as [|cur q];
      [exists comp; pose proof (ci_vis _ _ _ Hi) as Hvis; rewrite app_nil_r in Hvis; split; [cbn; by rewrite Hvis|];
       destruct Hi as [_ Hnd Hfr Hco Hii Hdn]; rewrite app_nil_r in *; split; [done|]; intros x; split; [apply Hco|];
       intros Hx; apply (rtc_ind_r (fun x => x ∈ comp) id (R := sc (linked g))) in Hx; [done|done|];
       intros y z _ Hyz Hy; specialize (Hdn y z Hy Hyz); subst vis; apply elem_of_union in Hdn as [Hz|Hz%elem_of_list_to_set]; [|done];
       exfalso; apply (Hfr y Hy); eapply Hclosed; [exact Hz|]; destruct Hyz as [?|?]; [by right|by left]|]).
  - exfalso. assert (length (comp ++ cur :: q) <= size (cg_nodes g))%nat as Hle.
    { rewrite <- (size_dom (D := gset N)), <- (size_list_to_set (C := gset N)) by apply (ci_nodup _ _ _ Hi). apply subseteq_size.
      intros x Hx%elem_of_list_to_set. by eapply cinv_node. }
    rewrite length_app in Hle. cbn [length] in Hle. lia.
  - cbn [Search.component_loop]. destruct Hi as [Hv Hnd Hfr Hco Hii Hdn].
    assert (comp ++ cur :: q = (comp ++ [cur]) ++ q) as Happ by (by rewrite <- app_assoc). rewrite Happ in *.
    pose proof (cc_visit_spec cur (Search.cc_neighbors g cur) vis (comp ++ [cur]) q) as Hvs.
    destruct (foldl Search.cc_visit (vis, q) (Search.cc_neighbors g cur)) as [vis' q'].
    destruct Hvs as (k & H1 & H2 & H3 & H4 & H5 & H6 & H7).
    { intros y Hy. by apply cc_adj. } { apply elem_of_app. right. by left. } { done. } { done. } { done. } { done. }
    apply IH; [|rewrite length_app; cbn [length]; lia]. split; try done.
    + subst q'. rewrite app_assoc. apply elem_of_app. by left.
    + intros x y [Hx| ->%list_elem_of_singleton]%elem_of_app Hxy; [apply H6; by eapply Hdn|]. apply H7. by apply cc_adj.
Qed.

Lemma component_spec :
  exists c, Search.component_loop (size (cg_nodes g)) g ({[id]} ∪ V0) [] [id] = Some (V0 ∪ list_to_set c, c) /\ NoDup c /\
    (forall x, x ∈ c <-> rtsc (linked g) id x).
Proof using All.
  apply component_loop_spec; [|cbn; lia]. split; cbn.
  - set_solver.
  - apply NoDup_singleton.
  - by intros x ->%list_elem_of_singleton.
  - intros x ->%list_elem_of_singleton. apply rtc_refl.
  - by left.
  - by intros ? ? ?%not_elem_of_nil.
Qed.

End Component.

Lemma ForallOrdPairs_snoc {A} (R : A -> A -> Prop) l x :
  ForallOrdPairs R l -> Forall (fun y => R y x) l -> ForallOrdPairs R (l ++ [x]).
Proof.
  induction 1 as [|y l Hy _ IH]; intros Hall; cbn; [repeat constructor|]. apply Forall_cons in Hall as [Hyx Hall].
  constructor; [|by apply IH]. apply Forall_app. split; [done|by repeat constructor].
Qed.

Section Components.
Context (g : CausalGraph).
Hypothesis Hw : graph_wf g.

Definition component_of (r : N) (c : list N) : Prop :=
  r ∈ dom (cg_nodes g) /\ NoDup c /\ StronglySorted N.le c /\ forall x, x ∈ c <-> rtsc (linked g) r x.

Record comps_ok (V : gset N) (l : list N) (comps : list (list N)) : Prop := {
  co_comps : Forall2 component_of l comps;
  co_apart : ForallOrdPairs (fun x y => ~ rtsc (linked g) x y) l;
  co_visited : forall x, x ∈ V <-> exists r, r ∈ l /\ rtsc (linked g) r x;
}.

Lemma comps_ok_snoc V l comps id c :
  comps_ok V l comps -> id ∈ dom (cg_nodes g) -> id ∉ V -> NoDup c -> (forall x, x ∈ c <-> rtsc (linked g) id x) ->
  comps_ok (V ∪ list_to_set c) (l ++ [id]) (comps ++ [Search.sort_ids c]).
Proof using Type.
  intros [H1 H2 H3] Hid HV Hnd Hc.
  assert (Search.sort_ids c ≡ₚ c) as Hperm by apply merge_sort_Permutation.
  split.
  - apply Forall2_app; [done|]. constructor; [|constructor]. split; [done|]. split; [by rewrite Hperm|].
    split; [apply StronglySorted_merge_sort; [apply _|intros a b; lia]|]. intros x. by rewrite Hperm.
  - apply ForallOrdPairs_snoc; [done|]. apply Forall_forall. intros r Hr Hrid. apply HV, H3. eauto.
  - intros x. rewrite elem_of_union, H3, elem_of_list_to_set, Hc. setoid_rewrite elem_of_app. setoid_rewrite list_elem_of_singleton. split.
    + intros [(r & Hr & Hx)|Hx]; eauto.
    + intros (r & [Hr| ->] & Hx); eauto.
Qed.

Lemma components_loop_spec ids V l comps :
  comps_ok V l comps -> (forall x, x ∈ ids -> x ∈ dom (cg_nodes g)) ->
  exists V' l' comps', Search.components_loop g ids V comps = Some comps' /\ comps_ok V' l' comps' /\
    V ⊆ V' /\ (forall x, x ∈ ids -> x ∈ V').
Proof using Hw.
  revert V l comps. induction ids as [|id ids IH]; intros V l comps Hok Hids; cbn [Search.components_loop].
  { exists V, l, comps. repeat (split; [done|]). by intros ? ?%not_elem_of_nil. }
  assert (forall x, x ∈ ids -> x ∈ dom (cg_nodes g)) as Hids' by (intros x Hx; apply Hids; by right).
  destruct (decide (id ∈ V)) as [Hin|Hnew].
  - destruct (IH V l comps Hok Hids') as (V' & l' & comps' & H1 & H2 & H3 & H4). exists V', l', comps'. repeat (split; [done|]).
    intros x [->|Hx]%elem_of_cons; [by apply H3|by apply H4].
  - destruct (component_spec g id V Hw ltac:(apply Hids; by left) Hnew) as (c & -> & Hnd & Hc).
    { intros x y Hx Hxy. apply (co_visited _ _ _ Hok) in Hx as (r & Hr & Hrx). apply (co_visited _ _ _ Hok). exists r. split; [done|].
      by eapply rtc_r. }
    destruct (IH (V ∪ list_to_set c) (l ++ [id]) (comps ++ [Search.sort_ids c])) as (V' & l' & comps' & H1 & H2 & H3 & H4).
    { apply comps_ok_snoc; [done|apply Hids; by left|done|done|done]. } { done. }
    exists V', l', comps'. split; [done|]. split; [done|]. split; [set_solver|].
    intros x [->|Hx]%elem_of_cons; [|by apply H4]. apply H3, elem_of_union_r, elem_of_list_to_set, Hc. apply rtc_refl.
Qed.

End Components.

Section Exact.
Context (order : gmap N CausalNode -> list N).
Hypothesis order_perm : forall m, order m ≡ₚ (map_to_list m).*1.

Lemma reachable_wf ops : lenN ops + 2 < u64_mod -> graph_wf (graph_run order Graph.new ops).
Proof using order_perm.
  intros H. apply (graph_run_bounds order order_perm Graph.new ops 0); [apply new_graph_wf|lia|cbn; lia|cbn; lia].
Qed.

(** C21: Bounded traversal is exact.  On every graph the operations can
    produce, a forward (reverse) traversal always ends and returns, each once,
    exactly the other nodes that at most [depth] edges lead to (lead from). *)
Theorem traversal_exact ops start depth :
  lenN ops + 2 < u64_mod ->
  let g := graph_run order Graph.new ops in
  (exists l, Search.traverse_forward g start depth = Some l /\ NoDup l /\
     forall x, x ∈ l <-> x <> start /\ bsteps (linked g) (N.to_nat depth) start x) /\
  (exists l, Search.traverse_reverse g start depth = Some l /\ NoDup l /\
     forall x, x ∈ l <-> x <> start /\ bsteps (fun a b => linked g b a) (N.to_nat depth) start x).
Proof using order_perm.
  intros Hops g. pose proof (reachable_wf ops Hops : graph_wf g) as Hw. split.
  - destruct (bfs_spec g start depth true Hw) as (l & H1 & H2 & H3). exists l. split; [done|]. split; [done|].
    intros x. rewrite H3. f_equiv. apply bsteps_iff. intros a b. by apply forward_adj.
  - destruct (bfs_spec g start depth false Hw) as (l & H1 & H2 & H3). exists l. split; [done|]. split; [done|].
    intros x. rewrite H3. f_equiv. apply bsteps_iff. intros a b. by apply reverse_adj.
Qed.

(** C20: Path search is exact.  On every graph that fewer than 2^64 operations
    can produce, for two different ids, or for a node of the graph and itself,
    both searches always end; [find_path] returns a path from one to the other
    that no path is shorter than, and [trace_causal_chain] a chain of existing
    edges with their types that no chain is shorter than; both return nothing
    exactly when every path has more than [max_depth] edges, and so when one of
    two different ids is not in the graph. *)
Theorem shortest_paths ops from to max_depth :
  lenN ops + 2 < u64_mod ->
  let g := graph_run order Graph.new ops in
  (from = to -> is_Some (Graph.get_node g from)) ->
  (exists r, Search.find_path g from to max_depth = Some r /\
    match r with
    | Some p => walk (linked g) from to p /\ (length p <= S (N.to_nat max_depth))%nat /\
        forall p', walk (linked g) from to p' -> (length p <= length p')%nat
    | None => forall p', walk (linked g) from to p' -> (S (N.to_nat max_depth) < length p')%nat
    end) /\
  (exists r, Search.trace_causal_chain g from to max_depth = Some r /\
    (Graph.get_node g from = None \/ Graph.get_node g to = None -> r = None) /\
    match r with
    | Some c => typed_walk g from to (Search.cc_path c) /\ (length (Search.cc_path c) <= N.to_nat max_depth)%nat /\
        (forall st, typed_walk g from to st -> (length (Search.cc_path c) <= length st)%nat)
    | None => forall st, typed_walk g from to st -> (N.to_nat max_depth < length st)%nat
    end).
Proof using order_perm.
  intros Hops g Hself. pose proof (reachable_wf ops Hops : graph_wf g) as Hw. split; [by apply find_path_spec|].
  destruct (trace_spec g from to max_depth Hw) as (r & Hr & Hspec). exists r. split; [done|]. split; [|done].
  intros Hmiss. destruct r as [c|]; [|done]. exfalso. destruct Hspec as [Ht _].
  destruct (typed_walk_nodes g from to (Search.cc_path c) Hw Ht) as [->|[[? Hf] [? Hto]]].
  - destruct (Hself eq_refl) as [n Hn]. destruct Hmiss; congruence.
  - destruct Hmiss; congruence.
Qed.

(** The incremental component counter agrees with the search.  On every
    graph the operations can produce, [connected_components] ends and returns
    the partition of the nodes into connected components, each in ascending
    order and the largest first, and their number is what the union-find
    counter says. *)
Theorem components_agree ops :
  lenN ops + 2 < u64_mod ->
  let g := graph_run order Graph.new ops in
  exists cs, Search.connected_components order g = Some cs /\
    Graph.component_count_fast g = lenN cs /\
    (forall x, is_Some (Graph.get_node g x) <-> exists c, c ∈ cs /\ x ∈ c) /\
    (forall c x, c ∈ cs -> x ∈ c -> forall y, y ∈ c <-> rtsc (linked g) x y) /\
    (forall c, c ∈ cs -> NoDup c /\ StronglySorted N.le c) /\
    StronglySorted Search.longer cs.
Proof using order_perm.
  intros Hops g. pose proof (reachable_wf ops Hops : graph_wf g) as Hw.
  destruct (components_loop_spec g Hw (Graph.node_ids order g) ∅ [] []) as (V & l & comps & Hloop & [H1 H2 H3] & _ & Hall).
  { split; [constructor|constructor|]. intros x. split; [set_solver|]. by intros (r & Hr%not_elem_of_nil & _). }
  { intros x Hx. apply elem_of_dom. by apply (order_elem order order_perm). }
  unfold Search.connected_components. rewrite Hloop. cbn [fmap option_fmap option_map]. eexists. split; [done|].
  assert (merge_sort Search.longer comps ≡ₚ comps) as Hperm by apply merge_sort_Permutation.
  assert (forall c, c ∈ comps -> exists r, r ∈ l /\ component_of g r c) as Hc.
  { intros c Hc. apply list_elem_of_lookup in Hc as [i Hi]. destruct (Forall2_lookup_r _ _ _ _ _ H1 Hi) as (r & Hr & Hco).
    exists r. split; [by eapply list_elem_of_lookup_2|done]. }
  assert (forall r, r ∈ l -> exists c, c ∈ comps /\ component_of g r c) as Hr.
  { intros r Hr. apply list_elem_of_lookup in Hr as [i Hi]. destruct (Forall2_lookup_l _ _ _ _ _ H1 Hi) as (c & Hc' & Hco).
    exists c. split; [by eapply list_elem_of_lookup_2|done]. }
  assert (forall x, x ∈ dom (cg_nodes g) -> exists r, r ∈ l /\ rtsc (linked g) r x) as Hcov.
  { intros x Hx. apply H3, Hall. apply (order_elem order order_perm). by apply elem_of_dom. }
  split; [|split; [|split; [|split]]].
  - unfold lenN. rewrite Hperm. rewrite <- (Forall2_length _ _ _ H1). apply (parts_count _ _ _ l (gw_parts _ Hw)); [| |done].
    + intros x Hx. destruct (Hr x Hx) as (c & _ & Hco). apply Hco.
    + intros x Hx. destruct (Hcov x Hx) as (r & Hr' & Hrx). exists r. split; [done|by symmetry].
  - intros x. setoid_rewrite Hperm. unfold Graph.get_node. split.
    + intros Hx%elem_of_dom. destruct (Hcov x Hx) as (r & Hrl & Hrx). destruct (Hr r Hrl) as (c & Hcc & Hco). exists c. split; [done|by apply Hco].
    + intros (c & Hcc & Hx). destruct (Hc c Hcc) as (r & _ & (Hd & _ & _ & Hin)). apply Hin in Hx. apply elem_of_dom.
      destruct (conn_closed (linked g) (dom (cg_nodes g)) r x (fun u v => linked_nodes g u v Hw) Hx) as [<-|[_ ?]]; done.
  - intros c x Hcc Hx y. rewrite Hperm in Hcc. destruct (Hc c Hcc) as (r & _ & (_ & _ & _ & Hin)). rewrite Hin. apply Hin in Hx.
    split; intros H; [by transitivity r; [symmetry|]|by transitivity x].
  - intros c Hcc. rewrite Hperm in Hcc. destruct (Hc c Hcc) as (r & _ & (_ & ? & ? & _)). done.
  - apply StronglySorted_merge_sort; [intros a b c; unfold Search.longer; lia|intros a b; unfold Search.longer; lia].
Qed.

End Exact.

Lemma traversal_exact_witness :
  exists l, Search.traverse_forward (graph_run listed Graph.new demo) 1 1 = Some l /\ NoDup l.
Proof.
  destruct (traversal_exact listed (fun m => reflexivity _) demo 1 1) as [(l & H1 & H2 & _) _]; [reflexivity|]. exists l. split; assumption.
Defined.

Lemma shortest_paths_witness :
  exists r, Search.find_path (graph_run listed Graph.new demo) 1 2 3 = Some r.
Proof.
  destruct (shortest_paths listed (fun m => reflexivity _) demo 1 2 3) as [(r & H & _) _]; [reflexivity|discriminate|]. exists r. exact H.
Defined.

(** A chain from an id that is not in the graph to itself is found. *)
Example missing_node_traced :
  Graph.get_node (graph_run listed Graph.new demo) 9 = None /\
  exists c, Search.trace_causal_chain (graph_run listed Graph.new demo) 9 9 3 = Some (Some c).
Proof. split; [vm_compute; reflexivity|]. eexists. vm_compute. reflexivity. Qed.

Lemma components_agree_witness :
  exists cs, Search.connected_components listed (graph_run listed Graph.new demo) = Some cs /\
    Graph.component_count_fast (graph_run listed Graph.new demo) = lenN cs.
Proof.
  destruct (components_agree listed (fun m => reflexivity _) demo) as (cs & H1 & H2 & _); [reflexivity|]. exists cs. split; assumption.
Defined.

Example demo_path : Search.find_path (graph_run listed Graph.new demo) 1 2 3 = Some (Some [1; 2]).
Proof. vm_compute. reflexivity. Qed.

Example demo_split : Search.connected_components listed (graph_run listed Graph.new demo) = Some [[1; 2]; [3]].
Proof. vm_compute. reflexivity. Qed.
