(* ===== verification/CausalStats.v ===== *)
(** Statistics over the causal graph (causal.rs): co-modification coupling and
    edge volatility with the uniformity triage of crates/clawft-treecalc. *)

From Stdlib Require Import Floats.SpecFloat.
From S2P Require Import Prelude.
From S2P Require Import Codec.
From S2P Require Import UnionFind.
From S2P Require Import Causal.
Open Scope N_scope.

(** ** clawft-treecalc *)

Inductive Form := Atom | Sequence | Branch.

(** [triage] *)
Definition triage {K} `{EqDecision K} (kinds : list K) : Form :=
  match kinds with
  | [] => Atom
  | first :: rest => if forallb (fun k => bool_decide (k = first)) rest then Sequence else Branch
  end.

(** ** Volatility *)

(** [f64::max]: a NaN loses *)
Definition f64_max (a b : f64) : f64 :=
  match a, b with
  | S754_nan, _ => b
  | _, S754_nan => a
  | _, _ => if F64.ltb a b then b else a
  end.

(** [edge_type_volatility] *)
Definition edge_type_volatility (t : CausalEdgeType) : f64 :=
  match t with
  | Correlates => F64.lit 20 1
  | Follows => F64.lit 15 1
  | EvidenceFor => F64.lit 12 1
  | TriggeredBy => F64.lit 13 1
  | Contradicts => F64.lit 5 1
  | Causes => F64.lit 3 1
  | Enables => F64.lit 4 1
  | Inhibits => F64.lit 4 1
  end.

(** The deduplicating fold of the mixed case *)
Fixpoint max_distinct (seen : list CausalEdgeType) (m : f64) (kinds : list CausalEdgeType) : f64 :=
  match kinds with
  | [] => m
  | k :: kinds =>
      if decide (k ∈ seen) then max_distinct seen m kinds
      else max_distinct (k :: seen) (f64_max m (edge_type_volatility k)) kinds
  end.

(** [max_volatility_batched] *)
Definition max_volatility_batched (edges : list CausalEdge) : f64 :=
  let kinds := edge_type <$> edges in
  match kinds with
  | [] => F64.of_Z 1
  | first :: _ =>
      match triage kinds with
      | Sequence => f64_max (edge_type_volatility first) (F64.of_Z 1)
      | Atom => F64.of_Z 1
      | Branch => max_distinct [] (F64.of_Z 1) kinds
      end
  end.

(** The per-edge fold it replaces *)
Definition max_volatility (edges : list CausalEdge) : f64 :=
  foldl (fun m e => f64_max m (edge_type_volatility (edge_type e))) (F64.of_Z 1) edges.

(** The values a fold can reach, and what they dominate *)
Definition reached (m : f64) : Prop :=
  m ∈ [F64.of_Z 1; F64.lit 20 1; F64.lit 15 1; F64.lit 12 1; F64.lit 13 1].
Definition covers (m : f64) (k : CausalEdgeType) : Prop := f64_max m (edge_type_volatility k) = m.

Lemma reached_cases m (P : f64 -> Prop) :
  reached m -> P (F64.of_Z 1) -> P (F64.lit 20 1) -> P (F64.lit 15 1) -> P (F64.lit 12 1) -> P (F64.lit 13 1) -> P m.
Proof. unfold reached. rewrite !elem_of_cons, elem_of_nil. intros [->|[->|[->|[->|[->|[]]]]]]; done. Qed.

Lemma reached_step m k : reached m -> reached (f64_max m (edge_type_volatility k)).
Proof.
  intros H. pattern m. apply (reached_cases m); [done|..]; unfold reached; rewrite !elem_of_cons; destruct k; vm_compute; tauto.
Qed.

Lemma covers_self m k : reached m -> covers (f64_max m (edge_type_volatility k)) k.
Proof. intros H. pattern m. apply (reached_cases m); [done|..]; destruct k; vm_compute; reflexivity. Qed.

Lemma covers_mono m k j : reached m -> covers m j -> covers (f64_max m (edge_type_volatility k)) j.
Proof.
  intros H. pattern m. apply (reached_cases m); [done|..]; destruct k, j; vm_compute; congruence.
Qed.

Lemma max_distinct_fold seen m kinds :
  reached m -> (forall k, k ∈ seen -> covers m k) ->
  max_distinct seen m kinds = foldl (fun m k => f64_max m (edge_type_volatility k)) m kinds.
Proof.
  revert seen m. induction kinds as [|k kinds IH]; intros seen m Hm Hs; [done|]. cbn [max_distinct foldl].
  destruct (decide (k ∈ seen)) as [Hk|Hk].
  - rewrite (Hs k Hk : f64_max m (edge_type_volatility k) = m). by apply IH.
  - apply IH; [by apply reached_step|]. intros j [->|Hj]%elem_of_cons; [by apply covers_self|by apply covers_mono, Hs].
Qed.

Lemma foldl_covered m kinds :
  (forall k, k ∈ kinds -> covers m k) -> foldl (fun m k => f64_max m (edge_type_volatility k)) m kinds = m.
Proof.
  induction kinds as [|k kinds IH]; intros H; [done|]. cbn. rewrite (H k ltac:(by left) : f64_max m (edge_type_volatility k) = m).
  apply IH. intros j Hj. apply H. by right.
Qed.

(** The batched volatility is the plain one.  Dispatching on the
    uniformity of the edge kinds and folding over distinct kinds gives, for
    every list of edges, exactly the binary64 value of the per-edge fold it
    replaces. *)
Theorem volatility_batched_exact edges : max_volatility_batched edges = max_volatility edges.
Proof.
  unfold max_volatility_batched, max_volatility.
  assert (forall m, foldl (fun m e => f64_max m (edge_type_volatility (edge_type e))) m edges
    = foldl (fun m k => f64_max m (edge_type_volatility k)) m (edge_type <$> edges)) as ->.
  { induction edges as [|e es IH]; intros m; [done|]. rewrite fmap_cons. cbn [foldl]. apply IH. }
  destruct (edge_type <$> edges) as [|first kinds]; [done|]. cbn [triage].
  assert (reached (F64.of_Z 1)) as H1 by (unfold reached; by left).
  destruct (forallb (fun k => bool_decide (k = first)) kinds) eqn:Hall.
  - cbn [foldl]. rewrite foldl_covered; [by destruct first|]. intros k Hk.
    apply forallb_forall with (x := k) in Hall; [|by apply list_elem_of_In]. apply bool_decide_eq_true in Hall as ->. by apply covers_self.
  - apply max_distinct_fold; [done|]. by intros k ?%not_elem_of_nil.
Qed.

(** ** Coupling *)

Record ChangeEvent := mkChange { ch_node_ids : list N; ch_timestamp : N }.

Record CouplingPair := mkCoupling { node_a : N; node_b : N; co_changes : N; coupling_score : f64 }.

(** [sort] and [dedup] *)
Fixpoint dedup (l : list N) : list N :=
  match l with
  | x :: (y :: _) as l' => if x =? y then dedup l' else x :: dedup l'
  | _ => l
  end.
Definition changed_nodes (e : ChangeEvent) : list N := dedup (merge_sort N.le (ch_node_ids e)).

(** The pairs [(nodes\[i\], nodes\[j\])] with [i < j] *)
Fixpoint pairs (l : list N) : list (N * N) :=
  match l with [] => [] | x :: l => ((fun y => (x, y)) <$> l) ++ pairs l end.

Definition bump {K} `{Countable K} (m : gmap K N) (k : K) : gmap K N := <[k := default 0 (m !! k) + 1]> m.

(** The counting loop of [compute_coupling] *)
Definition count_event (st : gmap N N * gmap (N * N) N) (e : ChangeEvent) : gmap N N * gmap (N * N) N :=
  let nodes := changed_nodes e in (foldl bump st.1 nodes, foldl bump st.2 (pairs nodes)).
Definition counts (events : list ChangeEvent) : gmap N N * gmap (N * N) N := foldl count_event (∅, ∅) events.

Definition coupling_pair (change : gmap N N) (ab : N * N) (co : N) : CouplingPair :=
  let most := N.max (default 1 (change !! ab.1)) (default 1 (change !! ab.2)) in
  mkCoupling ab.1 ab.2 co (F64.div (F64.of_Z (Z.of_N co)) (F64.of_Z (Z.of_N most))).

(** [b.partial_cmp(a)]: a score that is not smaller comes first *)
Definition score_desc (a b : CouplingPair) : Prop := F64.ltb (coupling_score a) (coupling_score b) = false.
#[global] Instance score_desc_dec a b : Decision (score_desc a b).
Proof. unfold score_desc. apply _. Defined.

(** [CausalGraph::compute_coupling]; [pair_order] is the iteration order of the
    pair map. *)
Definition compute_coupling (pair_order : gmap (N * N) N -> list (N * N * N)) (events : list ChangeEvent) : list CouplingPair :=
  let '(change, co) := counts events in
  merge_sort score_desc ((fun kv : N * N * N => coupling_pair change kv.1 kv.2) <$> pair_order co).

Lemma dedup_cons y z l : dedup (y :: z :: l) = if y =? z then dedup (z :: l) else y :: dedup (z :: l).
Proof. reflexivity. Qed.

Lemma dedup_elem l x : x ∈ dedup l <-> x ∈ l.
Proof.
  induction l as [|y [|z l] IH]; [done|done|]. rewrite dedup_cons. destruct (N.eqb_spec y z) as [->|Hne].
  - rewrite IH, !elem_of_cons. tauto.
  - rewrite elem_of_cons, IH, (elem_of_cons _ _ y). done.
Qed.

Lemma dedup_sorted l : StronglySorted N.le l -> StronglySorted N.lt (dedup l).
Proof.
  induction l as [|y [|z l] IH]; [constructor|by repeat constructor|]. intros Hs. apply StronglySorted_inv in Hs as [Hs Hall].
  rewrite dedup_cons. destruct (N.eqb_spec y z) as [->|Hne]; [by apply IH|]. constructor; [by apply IH|].
  apply Forall_forall. intros w Hw. rewrite dedup_elem in Hw. apply Forall_cons in Hall as [Hyz _]. apply StronglySorted_inv in Hs as [_ Hz].
  rewrite Forall_forall in Hz. apply elem_of_cons in Hw as [->|Hw]; [lia|]. specialize (Hz w Hw). cbn in Hz. lia.
Qed.

Lemma changed_nodes_sorted e : StronglySorted N.lt (changed_nodes e).
Proof. apply dedup_sorted, StronglySorted_merge_sort; [apply _|intros a b; lia]. Qed.

Lemma changed_nodes_elem e x : x ∈ changed_nodes e <-> x ∈ ch_node_ids e.
Proof. unfold changed_nodes. rewrite dedup_elem. by rewrite merge_sort_Permutation. Qed.

Lemma sorted_lt_nodup l : StronglySorted N.lt l -> NoDup l.
Proof.
  induction 1 as [|x l _ IH Hall]; constructor; [|done]. rewrite Forall_forall in Hall. intros Hx. specialize (Hall x Hx). lia.
Qed.

Lemma pairs_spec l :
  StronglySorted N.lt l -> NoDup (pairs l) /\ forall a b, (a, b) ∈ pairs l <-> a ∈ l /\ b ∈ l /\ a < b.
Proof.
  induction 1 as [|x l Hs [IHn IHe] Hall]; cbn [pairs].
  { split; [constructor|]. intros a b. rewrite !elem_of_nil. tauto. }
  rewrite Forall_forall in Hall. pose proof (sorted_lt_nodup l Hs) as Hnd. split.
  - apply NoDup_app. split; [apply NoDup_fmap_2; [by intros ? ? [= ->]|done]|]. split; [|done].
    intros [a b] (y & [= -> ->] & Hy)%list_elem_of_fmap [Hx _]%IHe. specialize (Hall x Hx). cbn in Hall. lia.
  - intros a b. rewrite elem_of_app, list_elem_of_fmap, IHe, !elem_of_cons. split.
    + intros [(y & [= -> ->] & Hy)|(? & ? & ?)]; [|tauto]. split; [by left|]. split; [by right|]. by apply Hall.
    + intros ([->|Ha] & [->|Hb] & Hlt); [lia|left; eauto| |right; done]. specialize (Hall a Ha). cbn in Hall. lia.
Qed.

Lemma bump_fold {K} `{Countable K} (l : list K) (m : gmap K N) k :
  NoDup l -> foldl bump m l !! k = if decide (k ∈ l) then Some (default 0 (m !! k) + 1) else m !! k.
Proof.
  revert m. induction l as [|x l IH]; intros m Hnd; [done|]. apply NoDup_cons in Hnd as [Hx Hnd]. cbn [foldl]. rewrite IH by done.
  unfold bump. destruct (decide (k = x)) as [->|Hne].
  - rewrite decide_False by done. by rewrite lookup_insert_eq, decide_True by left.
  - rewrite lookup_insert_ne by done. destruct (decide (k ∈ l)); [by rewrite decide_True by (by right)|].
    rewrite decide_False; [done|]. rewrite elem_of_cons. tauto.
Qed.

(** How many events changed a node, and both nodes of a pair *)
Definition changes (events : list ChangeEvent) (x : N) : N := lenN (filter (fun e => x ∈ ch_node_ids e) events).
Definition together_changes (events : list ChangeEvent) (a b : N) : N :=
  lenN (filter (fun e => a ∈ ch_node_ids e /\ b ∈ ch_node_ids e) events).

Lemma lenN_cons {A} (x : A) l : lenN (x :: l) = 1 + lenN l.
Proof. unfold lenN. cbn. lia. Qed.

Definition seen_count (o : option N) (n : N) : Prop := o = if n =? 0 then None else Some n.

Lemma counts_from events st x a b n k :
  a < b -> seen_count (st.1 !! x) n -> seen_count (st.2 !! (a, b)) k ->
  let st' := foldl count_event st events in
  seen_count (st'.1 !! x) (n + changes events x) /\ seen_count (st'.2 !! (a, b)) (k + together_changes events a b).
Proof.
  intros Hab. revert st n k. induction events as [|e events IH]; intros st n k Hn Hk; cbn [foldl].
  { unfold changes, together_changes. cbn. by rewrite !N.add_0_r. }
  assert (forall (c : bool) (o : option N) m, seen_count o m -> seen_count (if c then Some (default 0 o + 1) else o) ((if c then 1 else 0) + m)) as Hstep.
  { unfold seen_count. intros c o m ->. destruct c; [|done]. destruct (N.eqb_spec m 0) as [->|]; [done|]. cbn.
    destruct (N.eqb_spec (1 + m) 0); [lia|]. f_equal. lia. }
  unfold changes, together_changes. rewrite !filter_cons. specialize (IH (count_event st e)).
  pose proof (pairs_spec _ (changed_nodes_sorted e)) as [Hpn Hpe]. pose proof (sorted_lt_nodup _ (changed_nodes_sorted e)) as Hnd.
  destruct (IH ((if decide (x ∈ ch_node_ids e) then 1 else 0) + n) ((if decide (a ∈ ch_node_ids e /\ b ∈ ch_node_ids e) then 1 else 0) + k)) as [H1 H2].
  - cbn [count_event fst]. rewrite bump_fold by done.
    destruct (decide (x ∈ changed_nodes e)) as [Hx|Hx]; rewrite changed_nodes_elem in Hx; [rewrite decide_True by done|rewrite decide_False by done].
    + exact (Hstep true _ _ Hn).
    + exact (Hstep false _ _ Hn).
  - cbn [count_event snd]. rewrite bump_fold by done.
    destruct (decide ((a, b) ∈ pairs (changed_nodes e))) as [Hp|Hp]; rewrite Hpe, !changed_nodes_elem in Hp;
      [rewrite decide_True by tauto|rewrite decide_False by tauto].
    + exact (Hstep true _ _ Hk).
    + exact (Hstep false _ _ Hk).
  - unfold changes, together_changes in *. split.
    + revert H1. destruct (decide (x ∈ ch_node_ids e)); rewrite ?lenN_cons; [|done]. by replace (n + (1 + lenN (filter (fun e => x ∈ ch_node_ids e) events))) with (1 + n + lenN (filter (fun e => x ∈ ch_node_ids e) events)) by lia.
    + revert H2. destruct (decide (a ∈ ch_node_ids e /\ b ∈ ch_node_ids e)); rewrite ?lenN_cons; [|done].
      by replace (k + (1 + lenN (filter (fun e => a ∈ ch_node_ids e /\ b ∈ ch_node_ids e) events))) with (1 + k + lenN (filter (fun e => a ∈ ch_node_ids e /\ b ∈ ch_node_ids e) events)) by lia.
Qed.

Lemma counts_ordered events a b : is_Some ((counts events).2 !! (a, b)) -> a < b.
Proof.
  unfold counts. assert (forall st : gmap N N * gmap (N * N) N, (forall a b, is_Some (st.2 !! (a, b)) -> a < b) ->
    forall a b, is_Some ((foldl count_event st events).2 !! (a, b)) -> a < b) as H.
  { induction events as [|e events IH]; intros st Hst; [done|]. cbn [foldl]. apply IH. intros c d. cbn [count_event snd].
    pose proof (pairs_spec _ (changed_nodes_sorted e)) as [Hpn Hpe]. rewrite bump_fold by done.
    destruct (decide ((c, d) ∈ pairs (changed_nodes e))) as [Hp|Hp]; [intros _; apply Hpe in Hp as (_ & _ & ?); done|apply Hst]. }
  apply (H (∅, ∅)). intros c d. cbn. rewrite lookup_empty. by intros [? ?].
Qed.

#[global] Instance score_desc_total : Total score_desc.
Proof.
  intros a b. unfold score_desc. generalize (coupling_score a) (coupling_score b). clear a b. intros x y.
  assert (forall m1 m2 e1 e2, match Z.compare e1 e2 with Lt => Some Lt | Gt => Some Gt | Eq => Some (Pos.compare_cont Eq m1 m2) end = Some Lt ->
     match Z.compare e2 e1 with Lt => Some Lt | Gt => Some Gt | Eq => Some (Pos.compare_cont Eq m2 m1) end = Some Gt) as Hpos.
  { intros m1 m2 e1 e2. rewrite (Z.compare_antisym e1 e2). destruct (Z.compare e1 e2); cbn; try done.
    change (Pos.compare_cont Eq m1 m2) with (Pos.compare m1 m2). change (Pos.compare_cont Eq m2 m1) with (Pos.compare m2 m1).
    rewrite (Pos.compare_antisym m1 m2). by destruct (Pos.compare m1 m2). }
  destruct (F64.ltb x y) eqn:E; [right|by left]. unfold F64.ltb, SFltb in *.
  destruct x as [[]|[]| |[] m e], y as [[]|[]| |[] m' e']; cbn in *; try done.
  - rewrite (Z.compare_antisym e' e) in E. destruct (Z.compare e' e); cbn in *; try done.
    change (Pos.compare_cont Eq m m') with (Pos.compare m m') in E. change (Pos.compare_cont Eq m' m) with (Pos.compare m' m).
    rewrite (Pos.compare_antisym m m'). by destruct (Pos.compare m m').
  - rewrite (Z.compare_antisym e e'). destruct (Z.compare e e'); cbn in *; try done.
    change (Pos.compare_cont Eq m m') with (Pos.compare m m') in E. change (Pos.compare_cont Eq m' m) with (Pos.compare m' m).
    rewrite (Pos.compare_antisym m m'). by destruct (Pos.compare m m').
Qed.

(** Coupling counts what it says.  The result has one entry for each pair
    of nodes that changed in a common event, with the number of such events
    and its quotient by the larger of the two nodes' change counts; nothing
    else is listed, and the scores come in descending order. *)
Theorem coupling_exact pair_order events :
  (forall m, pair_order m ≡ₚ map_to_list m) ->
  (forall p, p ∈ compute_coupling pair_order events <->
     node_a p < node_b p /\ 0 < together_changes events (node_a p) (node_b p) /\
     co_changes p = together_changes events (node_a p) (node_b p) /\
     coupling_score p = F64.div (F64.of_Z (Z.of_N (co_changes p)))
                          (F64.of_Z (Z.of_N (N.max (changes events (node_a p)) (changes events (node_b p)))))) /\
  Sorted score_desc (compute_coupling pair_order events).
Proof.
  intros Hord. unfold compute_coupling. pose proof (counts_ordered events) as Hlt.
  assert (forall x a b, a < b -> seen_count ((counts events).1 !! x) (changes events x) /\ seen_count ((counts events).2 !! (a, b)) (together_changes events a b)) as Hcnt.
  { intros x a b Hab. apply (counts_from events (∅, ∅) x a b 0 0 Hab); unfold seen_count; cbn; by rewrite lookup_empty. }
  assert (forall a b, 0 < together_changes events a b -> 0 < changes events a /\ 0 < changes events b) as Hpos.
  { intros a b. unfold together_changes, changes, lenN. intros H.
    destruct (filter (fun e => a ∈ ch_node_ids e /\ b ∈ ch_node_ids e) events) as [|e l] eqn:E; [done|].
    assert (e ∈ filter (fun e => a ∈ ch_node_ids e /\ b ∈ ch_node_ids e) events) as He by (rewrite E; by left).
    apply list_elem_of_filter in He as [[Ha Hb] He].
    assert (forall x, x ∈ ch_node_ids e -> 0 < N.of_nat (length (filter (fun e => x ∈ ch_node_ids e) events))) as Hx; [|split; by apply Hx].
    intros x Hx. assert (e ∈ filter (fun e => x ∈ ch_node_ids e) events) as Hin by (by apply list_elem_of_filter).
    destruct (filter (fun e => x ∈ ch_node_ids e) events); [by apply not_elem_of_nil in Hin|cbn; lia]. }
  destruct (counts events) as [change co]. cbn [fst snd] in *. split.
  - intros p. rewrite merge_sort_Permutation, list_elem_of_fmap. setoid_rewrite Hord.
    assert (forall a b, 0 < together_changes events a b -> a < b ->
      N.max (default 1 (change !! a)) (default 1 (change !! b)) = N.max (changes events a) (changes events b)) as Hmax.
    { intros a b Htc Hab. destruct (Hpos a b Htc). destruct (Hcnt a a b Hab) as [Ha _]. destruct (Hcnt b a b Hab) as [Hb _].
      unfold seen_count in Ha, Hb. rewrite Ha, Hb. destruct (N.eqb_spec (changes events a) 0), (N.eqb_spec (changes events b) 0); try lia. done. }
    split.
    + intros ([[a b] n] & -> & Hin%elem_of_map_to_list). cbn [fst snd]. assert (a < b) as Hab by (apply Hlt; eauto).
      destruct (Hcnt a a b Hab) as [_ Hc]. unfold seen_count in Hc. rewrite Hin in Hc.
      destruct (N.eqb_spec (together_changes events a b) 0); [done|]. injection Hc as ->. unfold coupling_pair. cbn.
      split; [done|]. split; [lia|]. split; [done|]. by rewrite Hmax by (done || lia).
    + destruct p as [a b c sc]. cbn. intros (Hab & Htc & -> & ->). exists (a, b, together_changes events a b). split.
      * unfold coupling_pair. cbn. by rewrite Hmax.
      * apply elem_of_map_to_list. destruct (Hcnt a a b Hab) as [_ Hc]. unfold seen_count in Hc. rewrite Hc.
        destruct (N.eqb_spec (together_changes events a b) 0); [lia|done].
  - apply Sorted_merge_sort. apply _.
Qed.

Lemma coupling_exact_witness :
  Sorted score_desc (compute_coupling map_to_list [mkChange [3; 1; 3] 0; mkChange [1; 2; 3] 1]).
Proof. apply (coupling_exact map_to_list [mkChange [3; 1; 3] 0; mkChange [1; 2; 3] 1]). intros m. reflexivity. Defined.

Example coupling_demo :
  (fun p => (node_a p, node_b p, co_changes p)) <$> compute_coupling map_to_list [mkChange [3; 1; 3] 0; mkChange [1; 2; 3] 1]
  = [(1, 3, 2); (2, 3, 1); (1, 2, 1)].
Proof. vm_compute. reflexivity. Qed.
