(* ===== verification/Discovery.v ===== *)
(** Peer discovery on the mesh: mesh_kad.rs (256-bit keys, the routing table,
    namespaced records, the Kademlia backend), mesh_bootstrap.rs (seed peers
    and peer exchange), mesh_mdns.rs without its sockets, and the coordinator of
    mesh_discovery.rs over the [DiscoveryBackend] interface. *)

From Stdlib Require Import Strings.String.
From S2P Require Import Prelude.
From S2P Require Import Delegation.
Open Scope N_scope.

(** ** Keys *)

Definition K_BUCKET_SIZE : N := 20.

(** [[u8; 32]]: 32 numbers below 256, the first one most significant. *)
Definition DhtKey : Type := list N.

Definition key_wf (k : DhtKey) : Prop := length k = 32%nat /\ Forall (fun b => b < 256) k.

Definition xor_distance (a b : DhtKey) : DhtKey := zip_with N.lxor a b.

(** [u8::leading_zeros] *)
Definition byte_leading_zeros (b : N) : N := 8 - N.size b.

Fixpoint leading_zeros_from (i : N) (key : DhtKey) : N :=
  match key with
  | [] => 256
  | byte :: rest => if negb (byte =? 0) then i * 8 + byte_leading_zeros byte else leading_zeros_from (i + 1) rest
  end.

Definition leading_zeros (key : DhtKey) : N := leading_zeros_from 0 key.

Definition bucket_index (distance : DhtKey) : N :=
  let lz := leading_zeros distance in
  if 256 <=? lz then 0 else 255 - lz.

(** The order on [[u8; 32]] is lexicographic. *)
Fixpoint key_leb (a b : DhtKey) : bool :=
  match a, b with
  | x :: a, y :: b => if x <? y then true else if y <? x then false else key_leb a b
  | [], _ => true
  | _ :: _, [] => false
  end.

(** ** Records and namespaced keys *)

Record DhtEntry := mkDhtEntry {
  dht_key : string;
  dht_node_id : string;
  dht_address : string;
  dht_platform : string;
  dht_last_seen : N;
  governance_genesis_prefix : string
}.

#[global] Instance DhtEntry_eq_dec : EqDecision DhtEntry.
Proof. solve_decision. Defined.

Record NamespacedDhtKey := mkNsKey {
  genesis_prefix : string;
  key_type : string;
  ns_name : string
}.

(** [s.chars().take(n).collect()]: a scalar starts at every byte that is not a
    UTF-8 continuation byte (binary 10xxxxxx). *)
Definition is_continuation (a : ascii) : bool := N.land (Ascii.N_of_ascii a) 192 =? 128.

Fixpoint take_chars (n : nat) (s : string) : string :=
  match s with
  | EmptyString => EmptyString
  | String a rest =>
      if is_continuation a then String a (take_chars n rest)
      else match n with O => EmptyString | S n => String a (take_chars n rest) end
  end.

Module NsKey.

Definition service (genesis_hash name : string) : NamespacedDhtKey := mkNsKey (take_chars 16 genesis_hash) "svc" name.
Definition node (genesis_hash node_id : string) : NamespacedDhtKey := mkNsKey (take_chars 16 genesis_hash) "node" node_id.
Definition agent (genesis_hash agent_id : string) : NamespacedDhtKey := mkNsKey (take_chars 16 genesis_hash) "agent" agent_id.

Definition to_key_string (k : NamespacedDhtKey) : string :=
  key_type k +:+ ":" +:+ genesis_prefix k +:+ ":" +:+ ns_name k.

(** [s.splitn(3, ':')] must give three parts. *)
Definition from_key_string (s : string) : option NamespacedDhtKey :=
  match split_colon s with
  | (key_type, Some rest) =>
      match split_colon rest with
      | (genesis_prefix, Some name) => Some (mkNsKey genesis_prefix key_type name)
      | (_, None) => None
      end
  | (_, None) => None
  end.

Definition matches_genesis (k : NamespacedDhtKey) (genesis_hash : string) : bool :=
  String.eqb (genesis_prefix k) (take_chars 16 genesis_hash).

End NsKey.

(** ** The routing table *)

Record KademliaTable := mkKadTable {
  local_key : DhtKey;
  buckets : list (list DhtEntry);
  records : gmap string DhtEntry
}.

(** [bucket.iter_mut().find(..)] and the assignment through it: replace the
    first entry of the same node, if there is one. *)
Fixpoint replace_entry (entry : DhtEntry) (bucket : list DhtEntry) : option (list DhtEntry) :=
  match bucket with
  | [] => None
  | e :: rest =>
      if String.eqb (dht_node_id e) (dht_node_id entry) then Some (entry :: rest)
      else (e ::.) <$> replace_entry entry rest
  end.

(** The bytes of a node id, cut or filled with zeros to 32: the key
    [find_closest] measures. *)
Definition node_key (e : DhtEntry) : DhtKey :=
  let bytes := Ascii.N_of_ascii <$> String.list_ascii_of_string (dht_node_id e) in
  take 32 bytes ++ replicate (32 - length bytes) 0.

Definition by_distance (a b : DhtEntry * DhtKey) : Prop := Is_true (key_leb a.2 b.2).

#[global] Instance by_distance_dec a b : Decision (by_distance a b) := _.

Module Kad.

Definition new (local_key : DhtKey) : KademliaTable := mkKadTable local_key (replicate 256 []) ∅.

(** [self.buckets[idx]]: the index is below 256 ([bucket_index_lt]), the number
    of buckets ([Kad.run_buckets]). *)
Definition bucket (t : KademliaTable) (idx : N) : list DhtEntry := default [] (buckets t !! N.to_nat idx).

Definition bucket_for (t : KademliaTable) (peer_key : DhtKey) : N :=
  bucket_index (xor_distance (local_key t) peer_key).

Definition add_peer (peer_key : DhtKey) (entry : DhtEntry) (t : KademliaTable) : KademliaTable :=
  let idx := bucket_for t peer_key in
  let bucket := bucket t idx in
  let recorded := <[dht_node_id entry := entry]> (records t) in
  match replace_entry entry bucket with
  | Some bucket' => mkKadTable (local_key t) (<[N.to_nat idx := bucket']> (buckets t)) recorded
  | None =>
      let bucket' := if lenN bucket <? K_BUCKET_SIZE then bucket ++ [entry] else bucket in
      mkKadTable (local_key t) (<[N.to_nat idx := bucket']> (buckets t)) recorded
  end.

(** [order] is the iteration order of the [HashMap]; [sort_by_key] is stable. *)
Definition find_closest (order : gmap string DhtEntry -> list (string * DhtEntry)) (target : DhtKey) (k : N)
    (t : KademliaTable) : list DhtEntry :=
  let all_entries := (fun p : string * DhtEntry => (p.2, xor_distance target (node_key p.2))) <$> order (records t) in
  fst <$> take (N.to_nat k) (merge_sort by_distance all_entries).

Definition put (key : string) (entry : DhtEntry) (t : KademliaTable) : KademliaTable :=
  mkKadTable (local_key t) (buckets t) (<[key := entry]> (records t)).

Definition get (key : string) (t : KademliaTable) : option DhtEntry := records t !! key.
Definition peer_count (t : KademliaTable) : N := N.of_nat (size (records t)).
Definition bucket_len (t : KademliaTable) (idx : N) : N :=
  match buckets t !! N.to_nat idx with Some b => lenN b | None => 0 end.

End Kad.

(** ** The discovery interface *)

Inductive DiscoverySource := SeedPeer | Mdns | Kademlia | PeerExchange | Manual.

Record DiscoveredPeer := mkPeer {
  peer_node_id : string;
  peer_address : string;
  peer_platform : string;
  peer_source : DiscoverySource
}.

Inductive DiscoveryError := BackendError (msg : string) | InvalidAddress (addr : string) | NotStarted.

Record MdnsAnnouncement := mkAnn {
  ann_service : string;
  ann_node_id : string;
  ann_address : string;
  ann_port : N;
  ann_platform : string;
  governance_genesis : string
}.

(** What the outside delivers to a call: the clock in seconds, the outcome of
    binding a socket (an error text when both binds fail), and the announcement
    decoded from the datagram received in time, if there is one. *)
Record World := mkWorld {
  now_secs : N;
  bind_error : option string;
  datagram : option MdnsAnnouncement
}.

(** [trait DiscoveryBackend] *)
Class DiscoveryBackend (B : Type) := {
  backend_name : string;
  backend_start : World -> B -> B * result unit DiscoveryError;
  backend_poll : World -> B -> B * list DiscoveredPeer;
  backend_stop : B -> B * result unit DiscoveryError
}.

(** *** Kademlia *)

Record KademliaDiscovery := mkKadDisc {
  kd_table : KademliaTable;
  kd_genesis : string;
  kd_node_id : string;
  kd_address : string;
  kd_platform : string;
  kd_pending : list DiscoveredPeer;
  kd_active : bool
}.

Definition kd_with_table (t : KademliaTable) (d : KademliaDiscovery) : KademliaDiscovery :=
  mkKadDisc t (kd_genesis d) (kd_node_id d) (kd_address d) (kd_platform d) (kd_pending d) (kd_active d).

Module KadDisc.

Definition new (local_key : DhtKey) (node_id address platform governance_genesis : string) : KademliaDiscovery :=
  mkKadDisc (Kad.new local_key) governance_genesis node_id address platform [] false.

Definition add_bootstrap_peer (peer_key : DhtKey) (entry : DhtEntry) (d : KademliaDiscovery) : KademliaDiscovery :=
  kd_with_table (Kad.add_peer peer_key entry (kd_table d)) d.

Definition put_service (service_name : string) (entry : DhtEntry) (d : KademliaDiscovery) : KademliaDiscovery :=
  kd_with_table (Kad.put (NsKey.to_key_string (NsKey.service (kd_genesis d) service_name)) entry (kd_table d)) d.

Definition get_service (service_name : string) (d : KademliaDiscovery) : option DhtEntry :=
  Kad.get (NsKey.to_key_string (NsKey.service (kd_genesis d) service_name)) (kd_table d).

Definition put_node (node_id : string) (entry : DhtEntry) (d : KademliaDiscovery) : KademliaDiscovery :=
  kd_with_table (Kad.put (NsKey.to_key_string (NsKey.node (kd_genesis d) node_id)) entry (kd_table d)) d.

Definition get_node (node_id : string) (d : KademliaDiscovery) : option DhtEntry :=
  Kad.get (NsKey.to_key_string (NsKey.node (kd_genesis d) node_id)) (kd_table d).

Definition inject_peer (peer_key : DhtKey) (entry : DhtEntry) (d : KademliaDiscovery) : KademliaDiscovery :=
  let peer := mkPeer (dht_node_id entry) (dht_address entry) (dht_platform entry) Kademlia in
  mkKadDisc (Kad.add_peer peer_key entry (kd_table d)) (kd_genesis d) (kd_node_id d) (kd_address d) (kd_platform d)
    (kd_pending d ++ [peer]) (kd_active d).

Definition start (w : World) (d : KademliaDiscovery) : KademliaDiscovery * result unit DiscoveryError :=
  let self_key := NsKey.to_key_string (NsKey.node (kd_genesis d) (kd_node_id d)) in
  let entry := mkDhtEntry self_key (kd_node_id d) (kd_address d) (kd_platform d) (now_secs w) (take_chars 16 (kd_genesis d)) in
  (mkKadDisc (Kad.put self_key entry (kd_table d)) (kd_genesis d) (kd_node_id d) (kd_address d) (kd_platform d)
     (kd_pending d) true, Ok tt).

Definition poll (w : World) (d : KademliaDiscovery) : KademliaDiscovery * list DiscoveredPeer :=
  if negb (kd_active d) then (d, [])
  else (mkKadDisc (kd_table d) (kd_genesis d) (kd_node_id d) (kd_address d) (kd_platform d) [] (kd_active d), kd_pending d).

Definition stop (d : KademliaDiscovery) : KademliaDiscovery * result unit DiscoveryError :=
  (mkKadDisc (kd_table d) (kd_genesis d) (kd_node_id d) (kd_address d) (kd_platform d) [] false, Ok tt).

End KadDisc.

#[global] Instance kademlia_backend : DiscoveryBackend KademliaDiscovery := {
  backend_name := "kademlia";
  backend_start := KadDisc.start;
  backend_poll := KadDisc.poll;
  backend_stop := KadDisc.stop
}.

(** *** Seed peers *)

Record BootstrapDiscovery := mkBootstrap {
  seed_addresses : list string;
  discovered : list DiscoveredPeer;
  bootstrapped : bool
}.

Definition seed_peer (i : nat) (addr : string) : DiscoveredPeer :=
  mkPeer ("seed-" +:+ pretty i) addr "unknown" SeedPeer.

Module Bootstrap.

Definition new (seed_addresses : list string) : BootstrapDiscovery := mkBootstrap seed_addresses [] false.

Definition add_seed (address : string) (d : BootstrapDiscovery) : BootstrapDiscovery :=
  if bool_decide (address ∈ seed_addresses d) then d
  else mkBootstrap (seed_addresses d ++ [address]) (discovered d) (bootstrapped d).

Definition start (w : World) (d : BootstrapDiscovery) : BootstrapDiscovery * result unit DiscoveryError :=
  (if negb (bootstrapped d) then
     mkBootstrap (seed_addresses d) (discovered d ++ imap seed_peer (seed_addresses d)) true
   else d, Ok tt).

Definition poll (w : World) (d : BootstrapDiscovery) : BootstrapDiscovery * list DiscoveredPeer :=
  (mkBootstrap (seed_addresses d) [] (bootstrapped d), discovered d).

Definition stop (d : BootstrapDiscovery) : BootstrapDiscovery * result unit DiscoveryError :=
  (mkBootstrap (seed_addresses d) [] (bootstrapped d), Ok tt).

End Bootstrap.

#[global] Instance bootstrap_backend : DiscoveryBackend BootstrapDiscovery := {
  backend_name := "bootstrap";
  backend_start := Bootstrap.start;
  backend_poll := Bootstrap.poll;
  backend_stop := Bootstrap.stop
}.

(** *** Peer exchange *)

Record PeerExchangeDiscovery := mkPex { pex_pending : list DiscoveredPeer }.

Module Pex.

Definition new : PeerExchangeDiscovery := mkPex [].

Definition add_peers_from_exchange (peers : list DiscoveredPeer) (d : PeerExchangeDiscovery) : PeerExchangeDiscovery :=
  mkPex (pex_pending d ++ ((fun p => mkPeer (peer_node_id p) (peer_address p) (peer_platform p) PeerExchange) <$> peers)).

Definition start (w : World) (d : PeerExchangeDiscovery) : PeerExchangeDiscovery * result unit DiscoveryError := (d, Ok tt).
Definition poll (w : World) (d : PeerExchangeDiscovery) : PeerExchangeDiscovery * list DiscoveredPeer := (mkPex [], pex_pending d).
Definition stop (d : PeerExchangeDiscovery) : PeerExchangeDiscovery * result unit DiscoveryError := (mkPex [], Ok tt).

End Pex.

#[global] Instance pex_backend : DiscoveryBackend PeerExchangeDiscovery := {
  backend_name := "peer-exchange";
  backend_start := Pex.start;
  backend_poll := Pex.poll;
  backend_stop := Pex.stop
}.

(** *** mDNS, with the socket reduced to whether one is bound *)

Record MdnsDiscovery := mkMdns {
  local_announcement : MdnsAnnouncement;
  md_pending : list DiscoveredPeer;
  md_socket : bool;
  md_active : bool;
  md_known : gset string
}.

Module MdnsDisc.

Definition WEFTOS_SERVICE_NAME : string := "_weftos._tcp.local".

Definition new (node_id listen_addr : string) (port : N) (platform governance_genesis : string) : MdnsDiscovery :=
  mkMdns (mkAnn WEFTOS_SERVICE_NAME node_id listen_addr port platform governance_genesis) [] false false ∅.

Definition try_receive (w : World) (d : MdnsDiscovery) : MdnsDiscovery * list DiscoveredPeer :=
  if negb (md_socket d) then (d, [])
  else match datagram w with
       | Some ann =>
           if negb (String.eqb (ann_node_id ann) (ann_node_id (local_announcement d)))
              && negb (bool_decide (ann_node_id ann ∈ md_known d)) then
             (mkMdns (local_announcement d) (md_pending d) (md_socket d) (md_active d) ({[ann_node_id ann]} ∪ md_known d),
              [mkPeer (ann_node_id ann) (ann_address ann +:+ ":" +:+ pretty (ann_port ann)) (ann_platform ann) Mdns])
           else (d, [])
       | None => (d, [])
       end.

(** The announcement sent on start is best effort and leaves no trace here. *)
Definition start (w : World) (d : MdnsDiscovery) : MdnsDiscovery * result unit DiscoveryError :=
  match bind_error w with
  | Some e => (d, Err (BackendError ("bind failed: " +:+ e)))
  | None => (mkMdns (local_announcement d) (md_pending d) true true (md_known d), Ok tt)
  end.

Definition poll (w : World) (d : MdnsDiscovery) : MdnsDiscovery * list DiscoveredPeer :=
  if negb (md_active d) then (d, [])
  else let '(d, peers) := try_receive w d in
       (mkMdns (local_announcement d) [] (md_socket d) (md_active d) (md_known d), peers ++ md_pending d).

Definition stop (d : MdnsDiscovery) : MdnsDiscovery * result unit DiscoveryError :=
  (mkMdns (local_announcement d) [] false false (md_known d), Ok tt).

End MdnsDisc.

#[global] Instance mdns_backend : DiscoveryBackend MdnsDiscovery := {
  backend_name := "mdns";
  backend_start := MdnsDisc.start;
  backend_poll := MdnsDisc.poll;
  backend_stop := MdnsDisc.stop
}.

(** ** The coordinator *)

(** [Box<dyn DiscoveryBackend>] *)
Record Boxed := Box {
  carrier : Type;
  ops : DiscoveryBackend carrier;
  inner : carrier
}.

Arguments Box {_ _} _.

Record DiscoveryCoordinator := mkCoord {
  backends : list Boxed;
  known_peers : gset string
}.

Module Coord.

Definition new : DiscoveryCoordinator := mkCoord [] ∅.

Definition add_backend (b : Boxed) (c : DiscoveryCoordinator) : DiscoveryCoordinator :=
  mkCoord (backends c ++ [b]) (known_peers c).

(** [for backend in &mut self.backends { f(backend)?; }]: the first error ends
    the loop and the backends after it are untouched.  [f] takes the position of
    the backend, which selects what the outside delivers to its call. *)
Fixpoint try_each (f : nat -> Boxed -> Boxed * result unit DiscoveryError) (bs : list Boxed) : list Boxed * result unit DiscoveryError :=
  match bs with
  | [] => ([], Ok tt)
  | b :: rest =>
      match f O b with
      | (b, Ok _) => let '(rest, r) := try_each (fun i => f (S i)) rest in (b :: rest, r)
      | (b, Err e) => (b :: rest, Err e)
      end
  end.

Definition start_boxed (w : World) (b : Boxed) : Boxed * result unit DiscoveryError :=
  let '(i, r) := @backend_start _ (ops b) w (inner b) in (@Box _ (ops b) i, r).

Definition stop_boxed (b : Boxed) : Boxed * result unit DiscoveryError :=
  let '(i, r) := @backend_stop _ (ops b) (inner b) in (@Box _ (ops b) i, r).

Definition poll_boxed (w : World) (b : Boxed) : Boxed * list DiscoveredPeer :=
  let '(i, peers) := @backend_poll _ (ops b) w (inner b) in (@Box _ (ops b) i, peers).

Definition start_all (ws : nat -> World) (c : DiscoveryCoordinator) : DiscoveryCoordinator * result unit DiscoveryError :=
  let '(bs, r) := try_each (fun i => start_boxed (ws i)) (backends c) in (mkCoord bs (known_peers c), r).

Definition stop_all (c : DiscoveryCoordinator) : DiscoveryCoordinator * result unit DiscoveryError :=
  let '(bs, r) := try_each (fun _ => stop_boxed) (backends c) in (mkCoord bs (known_peers c), r).

(** The inner loop: keep the peers whose id [known_peers.insert] had not seen. *)
Fixpoint admit_new (known : gset string) (peers : list DiscoveredPeer) : gset string * list DiscoveredPeer :=
  match peers with
  | [] => (known, [])
  | peer :: rest =>
      if bool_decide (peer_node_id peer ∈ known) then admit_new known rest
      else let '(known, new_peers) := admit_new ({[peer_node_id peer]} ∪ known) rest in (known, peer :: new_peers)
  end.

Fixpoint poll_loop (ws : nat -> World) (known : gset string) (bs : list Boxed) : list Boxed * gset string * list DiscoveredPeer :=
  match bs with
  | [] => ([], known, [])
  | b :: rest =>
      let '(b, peers) := poll_boxed (ws O) b in
      let '(known, new_peers) := admit_new known peers in
      let '(rest, known, more) := poll_loop (fun i => ws (S i)) known rest in
      (b :: rest, known, new_peers ++ more)
  end.

Definition poll_all (ws : nat -> World) (c : DiscoveryCoordinator) : DiscoveryCoordinator * list DiscoveredPeer :=
  let '(bs, known, new_peers) := poll_loop ws (known_peers c) (backends c) in (mkCoord bs known, new_peers).

Definition known_peer_count (c : DiscoveryCoordinator) : N := N.of_nat (size (known_peers c)).
Definition is_known (node_id : string) (c : DiscoveryCoordinator) : bool := bool_decide (node_id ∈ known_peers c).

End Coord.

(** ** The keys as numbers *)

(** The 256-bit number a key stands for. *)
Fixpoint key_val (k : DhtKey) : N :=
  match k with [] => 0 | b :: rest => b * 256 ^ lenN rest + key_val rest end.

Lemma pow256 n : 256 ^ n = 2 ^ (8 * n).
Proof. by rewrite N.pow_mul_r. Qed.

Lemma key_val_lt k : Forall (fun b => b < 256) k -> key_val k < 256 ^ lenN k.
Proof.
  induction 1 as [|b k Hb Hk IH]; cbn [key_val]; [done|].
  replace (lenN (b :: k)) with (N.succ (lenN k)) by (unfold lenN; cbn; lia). rewrite N.pow_succ_r'. nia.
Qed.

Lemma bits_high n x i : x < 2 ^ n -> n <= i -> N.testbit x i = false.
Proof. intros Hx Hi. rewrite <- (N.mod_small x (2 ^ n)) by done. by apply N.mod_pow2_bits_high. Qed.

Lemma lxor_lt n x y : x < 2 ^ n -> y < 2 ^ n -> N.lxor x y < 2 ^ n.
Proof.
  intros Hx Hy. assert (N.lxor x y = N.lxor x y mod 2 ^ n) as ->; [|apply N.mod_lt, N.pow_nonzero; done].
  apply N.bits_inj. intros i. destruct (N.lt_ge_cases i n).
  - by rewrite N.mod_pow2_bits_low.
  - rewrite N.mod_pow2_bits_high, N.lxor_spec, !(bits_high n) by done. done.
Qed.

Lemma block_lxor n a x : x < 2 ^ n -> a * 2 ^ n + x = N.lxor (N.shiftl a n) x.
Proof.
  intros Hx. rewrite N.shiftl_mul_pow2. rewrite <- N.add_nocarry_lxor; [done|].
  apply N.bits_inj. intros i. rewrite N.land_spec, N.bits_0. destruct (N.lt_ge_cases i n).
  - by rewrite N.mul_pow2_bits_low.
  - by rewrite (bits_high n x), andb_false_r.
Qed.

Lemma lxor_blocks n a b x y : x < 2 ^ n -> y < 2 ^ n ->
  N.lxor (a * 2 ^ n + x) (b * 2 ^ n + y) = N.lxor a b * 2 ^ n + N.lxor x y.
Proof.
  intros Hx Hy. pose proof (lxor_lt n x y Hx Hy). rewrite !block_lxor by done. rewrite N.shiftl_lxor.
  rewrite !N.lxor_assoc. f_equal. rewrite <- !N.lxor_assoc. f_equal. by rewrite N.lxor_comm.
Qed.

Lemma key_val_xor a b : length a = length b -> Forall (fun b => b < 256) a -> Forall (fun b => b < 256) b ->
  key_val (xor_distance a b) = N.lxor (key_val a) (key_val b).
Proof.
  revert b. induction a as [|x a IH]; intros [|y b] Hlen Ha Hb; try done.
  injection Hlen as Hlen. inversion_clear Ha. inversion_clear Hb. cbn [xor_distance zip_with key_val].
  change (zip_with N.lxor a b) with (xor_distance a b). rewrite IH by done.
  assert (lenN (xor_distance a b) = lenN a) as -> by (unfold lenN, xor_distance; rewrite length_zip_with; lia).
  assert (lenN b = lenN a) as -> by (unfold lenN; lia). rewrite pow256. symmetry. apply lxor_blocks; rewrite <- pow256.
  - by apply key_val_lt.
  - replace (lenN a) with (lenN b) by (unfold lenN; lia). by apply key_val_lt.
Qed.

Lemma leading_zeros_from_spec i k : Forall (fun b => b < 256) k -> key_val k <> 0 ->
  leading_zeros_from i k + 1 + N.log2 (key_val k) = 8 * (i + lenN k).
Proof.
  revert i. induction k as [|b k IH]; intros i Hk Hz; [done|]. inversion_clear Hk as [|?? Hb Hk'].
  assert (lenN (b :: k) = lenN k + 1) as -> by (unfold lenN; cbn; lia).
  cbn [leading_zeros_from key_val] in *. destruct (N.eqb_spec b 0) as [->|Hb0]; cbn [negb].
  - rewrite N.mul_0_l, N.add_0_l in *. rewrite IH by done. lia.
  - unfold byte_leading_zeros. rewrite N.size_log2 by done.
    pose proof (N.log2_lt_pow2 b 8 ltac:(lia)) as [Hl _]. specialize (Hl Hb). rewrite pow256.
    assert (N.log2 (b * 2 ^ (8 * lenN k) + key_val k) = N.log2 b + 8 * lenN k) as ->; [|lia].
    pose proof (key_val_lt k Hk') as Hlt. rewrite pow256 in Hlt.
    pose proof (N.log2_spec b ltac:(lia)) as [H1 H2]. rewrite N.pow_succ_r' in H2.
    apply (N.log2_unique' _ _ ((b - 2 ^ N.log2 b) * 2 ^ (8 * lenN k) + key_val k)); rewrite ?N.pow_add_r; [lia|nia|].
    rewrite N.mul_sub_distr_r. nia.
Qed.

Lemma key_val_zero k : key_val k = 0 -> Forall (fun b => b = 0) k.
Proof.
  induction k as [|b k IH]; [constructor|]. cbn [key_val]. intros H.
  assert (256 ^ lenN k <> 0) by (apply N.pow_nonzero; done). constructor; [nia|apply IH; nia].
Qed.

Lemma leading_zeros_from_zero i k : Forall (fun b => b = 0) k -> leading_zeros_from i k = 256.
Proof. intros H. revert i. induction H as [|b k -> _ IH]; intros i; [done|apply IH]. Qed.

Lemma bucket_index_lt d : bucket_index d < 256.
Proof. unfold bucket_index. destruct (256 <=? leading_zeros d); lia. Qed.

Lemma xor_distance_wf a b : key_wf a -> key_wf b -> key_wf (xor_distance a b).
Proof.
  intros [Ha Fa] [Hb Fb]. split; [unfold xor_distance; rewrite length_zip_with; lia|].
  unfold xor_distance. clear Ha Hb. revert b Fb. induction Fa as [|x a Hx Fa IH]; intros [|y b] Fb; try (by constructor).
  inversion_clear Fb. cbn. constructor; [|by apply IH]. by apply (lxor_lt 8).
Qed.

Lemma key_leb_val a b : length a = length b -> Forall (fun b => b < 256) a -> Forall (fun b => b < 256) b ->
  key_leb a b = (key_val a <=? key_val b).
Proof.
  revert b. induction a as [|x a IH]; intros [|y b] Hlen Ha Hb; try done.
  injection Hlen as Hlen. inversion_clear Ha as [|?? _ Ha']. inversion_clear Hb as [|?? _ Hb'].
  cbn [key_leb key_val]. assert (lenN b = lenN a) as -> by (unfold lenN; lia).
  pose proof (key_val_lt a Ha') as Hla. pose proof (key_val_lt b Hb') as Hlb. replace (lenN b) with (lenN a) in Hlb by (unfold lenN; lia).
  destruct (N.ltb_spec x y); [symmetry; apply N.leb_le; nia|]. destruct (N.ltb_spec y x); [symmetry; apply N.leb_gt; nia|].
  assert (x = y) as -> by lia. rewrite IH by done. destruct (N.leb_spec (key_val a) (key_val b)), (N.leb_spec (y * 256 ^ lenN a + key_val a) (y * 256 ^ lenN a + key_val b)); done || lia.
Qed.

(** The bucket of a peer is the position of the most significant bit in
    which its key differs from the local key, so bucket 255 holds the far half of
    the key space and bucket 0 the nearest keys; a node's own key goes to
    bucket 0. *)
Theorem bucket_is_highest_bit a b : key_wf a -> key_wf b ->
  bucket_index (xor_distance a b) = N.log2 (N.lxor (key_val a) (key_val b)).
Proof.
  intros Ha Hb. destruct (xor_distance_wf a b Ha Hb) as [Hlen Hd]. destruct Ha, Hb.
  rewrite <- key_val_xor by (done || congruence). unfold bucket_index, leading_zeros.
  destruct (N.eq_dec (key_val (xor_distance a b)) 0) as [Hz|Hz].
  - by rewrite leading_zeros_from_zero, Hz by by apply key_val_zero.
  - pose proof (leading_zeros_from_spec 0 _ Hd Hz) as Hs. unfold lenN in Hs. rewrite Hlen in Hs.
    destruct (N.leb_spec 256 (leading_zeros_from 0 (xor_distance a b))); lia.
Qed.

Lemma bucket_is_highest_bit_witness : bucket_index (xor_distance (replicate 32 0) (128 :: replicate 31 0)) = 255.
Proof.
  rewrite bucket_is_highest_bit; [vm_compute; reflexivity|split; [reflexivity|by repeat constructor]..].
Defined.

(** ** Closest peers *)

Lemma node_key_wf e : key_wf (node_key e).
Proof.
  unfold node_key. split.
  - rewrite length_app, length_take, length_replicate. lia.
  - apply Forall_app. split; [|apply Forall_replicate; done].
    apply Forall_take, Forall_fmap, Forall_forall. intros a _. cbn. destruct a as [[] [] [] [] [] [] [] []]; done.
Qed.

(** The distance of a record from a key. *)
Definition distance (target : DhtKey) (e : DhtEntry) : N := N.lxor (key_val target) (key_val (node_key e)).

Definition measured (target : DhtKey) (e : DhtEntry) : DhtEntry * DhtKey := (e, xor_distance target (node_key e)).

Lemma by_distance_iff target x y : key_wf target ->
  by_distance (measured target x) (measured target y) <-> distance target x <= distance target y.
Proof.
  intros Ht. unfold by_distance, measured, distance. cbn.
  destruct (xor_distance_wf _ _ Ht (node_key_wf x)) as [Hlx Hx], (xor_distance_wf _ _ Ht (node_key_wf y)) as [Hly Hy].
  rewrite key_leb_val by (done || congruence).
  destruct Ht, (node_key_wf x), (node_key_wf y). rewrite !key_val_xor by (done || congruence).
  by rewrite Is_true_true, N.leb_le.
Qed.

Lemma key_leb_total a b : key_leb a b \/ key_leb b a.
Proof.
  revert b. induction a as [|x a IH]; intros [|y b]; cbn; auto.
  destruct (N.ltb_spec x y), (N.ltb_spec y x); cbn; auto.
Qed.

#[global] Instance by_distance_total : Total by_distance.
Proof. intros x y. apply key_leb_total. Qed.

#[global] Instance by_distance_trans : Transitive by_distance.
Proof.
  intros [x kx] [y ky] [z kz]. unfold by_distance. cbn. clear. revert ky kz.
  induction kx as [|a kx IH]; intros [|b ky] [|c kz]; cbn; try done.
  destruct (N.ltb_spec a b), (N.ltb_spec b a), (N.ltb_spec b c), (N.ltb_spec c b), (N.ltb_spec a c), (N.ltb_spec c a);
    try done; try lia. apply IH.
Qed.

(** A lookup returns the closest records.  Whatever the map's iteration
    order, the answer has [k] records or all of them, in ascending XOR distance
    from the target, and every record left out is at least as far as every one
    returned. *)
Theorem closest_exact order target k t :
  (forall m, order m ≡ₚ map_to_list m) -> key_wf target ->
  exists rest,
    Kad.find_closest order target k t ++ rest ≡ₚ snd <$> map_to_list (records t) /\
    lenN (Kad.find_closest order target k t) = N.min k (Kad.peer_count t) /\
    StronglySorted (fun x y => distance target x <= distance target y) (Kad.find_closest order target k t ++ rest).
Proof.
  intros Hord Ht. unfold Kad.find_closest.
  set (all := snd <$> order (records t)).
  assert ((fun p : string * DhtEntry => (p.2, xor_distance target (node_key p.2))) <$> order (records t) = measured target <$> all) as ->
    by (unfold all; by rewrite <- list_fmap_compose).
  pose proof (merge_sort_Permutation by_distance (measured target <$> all)) as Hp.
  pose proof (StronglySorted_merge_sort by_distance (measured target <$> all)) as Hs.
  set (sorted := merge_sort by_distance (measured target <$> all)) in *.
  assert (exists l, sorted = measured target <$> l) as [l Hl].
  { apply Permutation_map_inv in Hp as (l & Hl & _). exists l. exact Hl. }
  rewrite Hl in *. assert (forall l : list DhtEntry, fst <$> (measured target <$> l) = l) as Hfst.
  { intros l'. rewrite <- list_fmap_compose. apply list_fmap_id. }
  rewrite <- fmap_take, Hfst. exists (drop (N.to_nat k) l). rewrite take_drop. apply (fmap_Permutation fst) in Hp. rewrite !Hfst in Hp.
  assert (l ≡ₚ snd <$> map_to_list (records t)) as Hall by (rewrite Hp; unfold all; by rewrite Hord).
  split; [done|]. split.
  - unfold lenN, Kad.peer_count. rewrite length_take, (Permutation_length Hall), length_fmap, length_map_to_list. lia.
  - clear -Hs Ht. induction l as [|x l IH]; [constructor|]. inversion_clear Hs as [|?? Hs' Hx]. constructor; [by apply IH|].
    rewrite Forall_fmap in Hx. eapply Forall_impl; [exact Hx|]. intros y. apply by_distance_iff. done.
Qed.

Definition demo_entry (id : string) : DhtEntry := mkDhtEntry id id "10.0.0.1:9489" "linux" 0 "deadbeef01234567".

Definition demo_table : KademliaTable :=
  foldr (fun id => Kad.add_peer (replicate 32 7) (demo_entry id)) (Kad.new (replicate 32 0)) ["a"; "b"; "p"]%string.

Example closest_demo : dht_node_id <$> Kad.find_closest map_to_list (98 :: replicate 31 0) 2 demo_table = ["b"; "a"]%string.
Proof. vm_compute. reflexivity. Qed.

Lemma closest_exact_witness : exists rest,
    Kad.find_closest map_to_list (98 :: replicate 31 0) 2 demo_table ++ rest ≡ₚ snd <$> map_to_list (records demo_table) /\
    lenN (Kad.find_closest map_to_list (98 :: replicate 31 0) 2 demo_table) = 2 /\
    StronglySorted (fun x y => distance (98 :: replicate 31 0) x <= distance (98 :: replicate 31 0) y)
      (Kad.find_closest map_to_list (98 :: replicate 31 0) 2 demo_table ++ rest).
Proof.
  apply (closest_exact map_to_list (98 :: replicate 31 0) 2 demo_table); [intros m; reflexivity|].
  split; [reflexivity|by repeat constructor].
Defined.

(** ** What a table holds, from its history *)

Inductive kad_op := AddPeer (peer_key : DhtKey) (entry : DhtEntry) | Put (key : string) (entry : DhtEntry).

Definition kad_step (t : KademliaTable) (o : kad_op) : KademliaTable :=
  match o with AddPeer k e => Kad.add_peer k e t | Put k e => Kad.put k e t end.

Definition kad_run (local : DhtKey) (os : list kad_op) : KademliaTable := foldl kad_step (Kad.new local) os.

(** The last announcement of a node under a key that falls into bucket [i], and
    the last write of a record. *)
Definition announced (local : DhtKey) (i : N) (id : string) (o : kad_op) : option DhtEntry :=
  match o with
  | AddPeer k e => if (bucket_index (xor_distance local k) =? i) && String.eqb (dht_node_id e) id then Some e else None
  | Put _ _ => None
  end.

Definition written (key : string) (o : kad_op) : option DhtEntry :=
  match o with
  | AddPeer _ e => if String.eqb (dht_node_id e) key then Some e else None
  | Put k e => if String.eqb k key then Some e else None
  end.

Definition latest (f : kad_op -> option DhtEntry) (os : list kad_op) : option DhtEntry := last (omap f os).

Lemma latest_snoc f os o : latest f (os ++ [o]) = match f o with Some e => Some e | None => latest f os end.
Proof.
  unfold latest. rewrite omap_app. cbn. destruct (f o); cbn; [apply last_snoc|by rewrite app_nil_r].
Qed.

(** One bucket against its history. *)
Definition bucket_ok (local : DhtKey) (os : list kad_op) (i : N) (b : list DhtEntry) : Prop :=
  NoDup (dht_node_id <$> b) /\ lenN b <= K_BUCKET_SIZE /\
  (forall e, e ∈ b -> latest (announced local i (dht_node_id e)) os = Some e) /\
  (forall id e, latest (announced local i id) os = Some e -> e ∈ b \/ lenN b = K_BUCKET_SIZE).

Lemma replace_entry_spec e b :
  match replace_entry e b with
  | Some b' => exists b1 old b2, b = b1 ++ old :: b2 /\ b' = b1 ++ e :: b2 /\ dht_node_id old = dht_node_id e
  | None => dht_node_id e ∉ dht_node_id <$> b
  end.
Proof.
  induction b as [|x b IH]; cbn; [by apply not_elem_of_nil|].
  destruct (String.eqb_spec (dht_node_id x) (dht_node_id e)) as [Heq|Hne].
  - by exists [], x, b.
  - destruct (replace_entry e b) as [b'|]; cbn.
    + destruct IH as (b1 & old & b2 & -> & -> & Hid). by exists (x :: b1), old, b2.
    + rewrite elem_of_cons. intros [|]; congruence.
Qed.

Lemma bucket_ok_other local os o i b :
  (forall id, announced local i id o = None) -> bucket_ok local os i b -> bucket_ok local (os ++ [o]) i b.
Proof.
  intros Hn (Hd & Hl & Hin & Hout). split; [done|]. split; [done|].
  split; [intros e|intros id e]; rewrite latest_snoc, Hn; [apply Hin|apply Hout].
Qed.

(** The bucket [add_peer] writes back. *)
Definition placed (e : DhtEntry) (b : list DhtEntry) : list DhtEntry :=
  match replace_entry e b with
  | Some b' => b'
  | None => if lenN b <? K_BUCKET_SIZE then b ++ [e] else b
  end.

Lemma placed_elem e b : NoDup (dht_node_id <$> b) ->
  NoDup (dht_node_id <$> placed e b) /\ (lenN b <= K_BUCKET_SIZE -> lenN b <= lenN (placed e b) <= K_BUCKET_SIZE) /\
  (e ∈ placed e b \/ lenN (placed e b) >= K_BUCKET_SIZE /\ dht_node_id e ∉ dht_node_id <$> placed e b) /\
  (forall x, dht_node_id x <> dht_node_id e -> x ∈ placed e b <-> x ∈ b) /\
  (forall x, dht_node_id x = dht_node_id e -> x ∈ placed e b -> x = e).
Proof.
  intros Hd. unfold placed. pose proof (replace_entry_spec e b) as Hr. destruct (replace_entry e b) as [b'|].
  - destruct Hr as (b1 & old & b2 & -> & -> & Hid). rewrite fmap_app, fmap_cons, Hid in Hd.
    rewrite fmap_app, fmap_cons. split; [done|]. split; [unfold lenN; rewrite !length_app; cbn; lia|].
    split; [left; set_solver|]. apply NoDup_app in Hd as (_ & Hd1 & [Hd2 _]%NoDup_cons). split; intros x Hx.
    + rewrite !elem_of_app, !elem_of_cons. split; intros [H|[->|H]]; auto; congruence.
    + intros [H|[->|H]%elem_of_cons]%elem_of_app; [|done|]; exfalso.
      * apply (Hd1 (dht_node_id e)); [rewrite <- Hx; by apply list_elem_of_fmap_2|left].
      * apply Hd2. rewrite <- Hx. by apply list_elem_of_fmap_2.
  - destruct (N.ltb_spec (lenN b) K_BUCKET_SIZE) as [Hlt|Hge].
    + rewrite lenN_app, fmap_app. split; [apply NoDup_app; split; [done|]; split; [|apply NoDup_singleton]; by intros ? ? ->%list_elem_of_singleton|].
      split; [unfold lenN in *; cbn; lia|]. split; [left; set_solver|]. split; intros x Hx.
      * rewrite elem_of_app, list_elem_of_singleton. split; [intros [H| ->]; [done|congruence]|auto].
      * intros [H|H%list_elem_of_singleton]%elem_of_app; [|done]. destruct Hr. rewrite <- Hx. by apply list_elem_of_fmap_2.
    + split; [done|]. split; [lia|]. split; [right; split; [lia|done]|]. split; [done|]. intros x Hx H. destruct Hr. rewrite <- Hx. by apply list_elem_of_fmap_2.
Qed.

Lemma bucket_ok_placed local os k e b :
  let i := bucket_index (xor_distance local k) in
  bucket_ok local os i b -> bucket_ok local (os ++ [AddPeer k e]) i (placed e b).
Proof.
  intros i (Hd & Hl & Hin & Hout). destruct (placed_elem e b Hd) as (Hd' & Hlen & He & Hother & Hsame).
  specialize (Hlen Hl). split; [done|]. split; [lia|].
  assert (forall id, announced local i id (AddPeer k e) = if String.eqb (dht_node_id e) id then Some e else None) as Han.
  { intros id. cbn. fold i. by rewrite N.eqb_refl. }
  split.
  - intros x Hx. rewrite latest_snoc, Han. destruct (String.eqb_spec (dht_node_id e) (dht_node_id x)) as [Heq|Hne].
    + f_equal. symmetry. by apply Hsame.
    + apply Hin. by apply Hother.
  - intros id x. rewrite latest_snoc, Han. destruct (String.eqb_spec (dht_node_id e) id) as [<-|Hne].
    + intros [= <-]. destruct He as [H|[H _]]; [by left|right; lia].
    + intros Hlat. assert (dht_node_id x = id) as Hid.
      { unfold latest in Hlat. apply last_Some_elem_of, list_elem_of_omap in Hlat as (o & _ & Ho).
        destruct o as [k' e'|]; [|done]. cbn in Ho. destruct (_ =? _); [|done]. cbn in Ho.
        by destruct (String.eqb_spec (dht_node_id e') id); simplify_eq. }
      destruct (Hout id x Hlat); [left; apply Hother; congruence|right; lia].
Qed.

Lemma kad_run_ok local os :
  let t := kad_run local os in
  local_key t = local /\ length (buckets t) = 256%nat /\
  (forall i, i < 256 -> bucket_ok local os i (Kad.bucket t i)) /\ (forall key, Kad.get key t = latest (written key) os).
Proof.
  induction os as [|o os IH] using rev_ind; cbn zeta in *.
  { split; [done|]. split; [done|]. split; [|intros key; apply lookup_empty]. intros i Hi.
    unfold Kad.bucket, kad_run. cbn [foldl Kad.new buckets]. rewrite lookup_replicate_2 by lia.
    split; [constructor|]. split; [done|]. split; [intros e He; by apply not_elem_of_nil in He|done]. }
  unfold kad_run in *. rewrite foldl_app. cbn [foldl]. set (t := foldl kad_step (Kad.new local) os) in *.
  destruct IH as (Hlocal & Hlen & Hb & Hget). destruct o as [k e|k e]; cbn [kad_step].
  - assert (Kad.add_peer k e t = mkKadTable local (<[N.to_nat (Kad.bucket_for t k) := placed e (Kad.bucket t (Kad.bucket_for t k))]> (buckets t))
      (<[dht_node_id e := e]> (records t))) as ->.
    { unfold Kad.add_peer, placed. rewrite Hlocal. by destruct (replace_entry e _). }
    unfold Kad.bucket_for. rewrite Hlocal. pose proof (bucket_index_lt (xor_distance local k)) as Hi0.
    split; [done|]. split; [cbn; by rewrite length_insert|]. split.
    + intros i Hi. unfold Kad.bucket. cbn [buckets]. destruct (N.eq_dec i (bucket_index (xor_distance local k))) as [->|Hne].
      * rewrite list_lookup_insert_eq by lia. cbn. by apply bucket_ok_placed, Hb.
      * rewrite list_lookup_insert_ne by lia. apply bucket_ok_other; [|by apply Hb]. intros id. cbn.
        by destruct (N.eqb_spec (bucket_index (xor_distance local k)) i).
    + intros key. rewrite latest_snoc, <- Hget. unfold Kad.get. cbn. destruct (String.eqb_spec (dht_node_id e) key) as [<-|].
      * by rewrite lookup_insert_eq.
      * by rewrite lookup_insert_ne.
  - split; [done|]. split; [done|]. split.
    + intros i Hi. apply bucket_ok_other; [done|]. by apply Hb.
    + intros key. rewrite latest_snoc, <- Hget. unfold Kad.get. cbn. destruct (String.eqb_spec k key) as [<-|].
      * by rewrite lookup_insert_eq.
      * by rewrite lookup_insert_ne.
Qed.

(** The routing table says what its history says.  After any sequence of
    announcements and stores, every bucket holds at most twenty nodes, each once
    and with its most recent announcement under a key of that bucket; a node
    that was announced is missing from its bucket only when the bucket is full;
    and a record reads back as its last write. *)
Theorem kad_table_exact local os i : i < 256 ->
  bucket_ok local os i (Kad.bucket (kad_run local os) i) /\ Kad.bucket_len (kad_run local os) i <= K_BUCKET_SIZE /\
  (forall key, Kad.get key (kad_run local os) = latest (written key) os).
Proof.
  intros Hi. destruct (kad_run_ok local os) as (_ & Hlen & Hb & Hget). specialize (Hb i Hi). split; [done|]. split; [|done].
  destruct Hb as (_ & Hl & _). revert Hl. unfold Kad.bucket, Kad.bucket_len.
  destruct (lookup_lt_is_Some_2 (buckets (kad_run local os)) (N.to_nat i)) as [b ->]; [lia|]. done.
Qed.

Lemma kad_table_exact_witness :
  let os := [AddPeer (replicate 32 7) (demo_entry "a"); Put "k" (demo_entry "b")]%string in
  bucket_ok (replicate 32 0) os 250 (Kad.bucket (kad_run (replicate 32 0) os) 250) /\
  Kad.bucket_len (kad_run (replicate 32 0) os) 250 <= K_BUCKET_SIZE /\
  (forall key, Kad.get key (kad_run (replicate 32 0) os) = latest (written key) os).
Proof. apply kad_table_exact. reflexivity. Defined.

Example kad_bucket_demo : dht_node_id <$> Kad.bucket demo_table 250 = ["p"; "b"; "a"]%string.
Proof. vm_compute. reflexivity. Qed.

(** ** Namespaced keys *)

Definition no_colon (s : string) : Prop := all_chars (fun a => negb (Ascii.eqb a ":"%char)) s = true.

Lemma split_colon_spec s p q : split_colon s = (p, Some q) <-> s = p +:+ ":" +:+ q /\ no_colon p.
Proof.
  unfold no_colon. revert p. induction s as [|a s IH]; intros p; cbn [split_colon].
  - split; [done|]. intros [H _]. by destruct p.
  - destruct (Ascii.eqb_spec a ":"%char) as [->|Ha].
    + split; [intros [= <- <-]; done|]. intros [H Hp]. destruct p as [|c p]; cbn in H; [injection H as ->; done|].
      injection H as <- _. cbn in Hp. done.
    + destruct (split_colon s) as [p' q'] eqn:E. split.
      * intros [= <- ->]. destruct (IH p') as [[-> Hp] _]; [done|]. cbn. apply Ascii.eqb_neq in Ha. by rewrite Ha.
      * intros [H Hp]. destruct p as [|c p]; cbn in H; [by injection H as -> _|]. injection H as <- ->. cbn in Hp.
        apply andb_prop in Hp as [_ Hp]. destruct (IH p) as [_ IH']. specialize (IH' (conj eq_refl Hp)). injection IH' as -> ->. done.
Qed.

(** Parsing a namespaced key inverts printing it, and accepts exactly the
    strings that print a key whose type and genesis prefix have no colon (the
    name may have any). *)
Theorem dht_key_round_trip s k :
  NsKey.from_key_string s = Some k <-> s = NsKey.to_key_string k /\ no_colon (key_type k) /\ no_colon (genesis_prefix k).
Proof.
  unfold NsKey.from_key_string, NsKey.to_key_string. destruct k as [pre ty nm]. cbn [key_type genesis_prefix ns_name]. split.
  - destruct (split_colon s) as [t [rest|]] eqn:E1; [|done]. destruct (split_colon rest) as [g [n|]] eqn:E2; [|done].
    intros [= <- <- <-]. apply split_colon_spec in E1 as [-> Ht], E2 as [-> Hg]. done.
  - intros (-> & Ht & Hg). rewrite (proj2 (split_colon_spec _ ty (pre +:+ ":" +:+ nm)) (conj eq_refl Ht)).
    by rewrite (proj2 (split_colon_spec _ pre nm) (conj eq_refl Hg)).
Qed.

Lemma no_colon_take n s : no_colon s -> no_colon (take_chars n s).
Proof.
  unfold no_colon. revert n. induction s as [|a s IH]; intros n; cbn; [done|]. intros [Ha Hs]%andb_prop.
  destruct (is_continuation a); [cbn; by rewrite Ha, IH|]. destruct n; cbn; [done|]. by rewrite Ha, IH.
Qed.

(** Records of different clusters and of different kinds never share a
    key: when two genesis hashes have no colon, the keys of two records are equal
    only if their kinds, the first sixteen characters of the hashes and their
    names are. *)
Theorem namespaces_disjoint g g' name name' ty ty' :
  no_colon g -> no_colon g' -> no_colon ty -> no_colon ty' ->
  NsKey.to_key_string (mkNsKey (take_chars 16 g) ty name) = NsKey.to_key_string (mkNsKey (take_chars 16 g') ty' name') ->
  ty = ty' /\ take_chars 16 g = take_chars 16 g' /\ name = name' /\
  NsKey.matches_genesis (mkNsKey (take_chars 16 g) ty name) g' = true.
Proof.
  intros Hg Hg' Ht Ht' Heq. apply (no_colon_take 16) in Hg, Hg'. unfold NsKey.to_key_string in Heq. cbn in Heq.
  assert (forall p p' q q' : string, no_colon p -> no_colon p' -> p +:+ ":" +:+ q = p' +:+ ":" +:+ q' -> p = p' /\ q = q') as Hinj.
  { intros p p' q q' Hp Hp' H. assert (split_colon (p +:+ ":" +:+ q) = (p, Some q)) as E by by apply split_colon_spec.
    rewrite H in E. rewrite (proj2 (split_colon_spec _ p' q') (conj eq_refl Hp')) in E. by simplify_eq. }
  apply Hinj in Heq as [<- Heq]; [|done..]. apply Hinj in Heq as [Hpre <-]; [|done..].
  repeat split; [done|]. unfold NsKey.matches_genesis. cbn. rewrite Hpre. apply String.eqb_refl.
Qed.

Lemma namespaces_disjoint_witness :
  "svc" = "svc" /\ take_chars 16 "deadbeef012345670000" = take_chars 16 "deadbeef01234567ffff" /\ "auth" = "auth" /\
  NsKey.matches_genesis (mkNsKey (take_chars 16 "deadbeef012345670000") "svc" "auth") "deadbeef01234567ffff" = true.
Proof. apply namespaces_disjoint; vm_compute; reflexivity. Defined.

(** Node records and namespaced records share one map, so a peer that announces
    itself under a service's key string replaces that service. *)
Lemma peer_shadows_service d peer_key name address :
  let id := NsKey.to_key_string (NsKey.service (kd_genesis d) name) in
  let forged := mkDhtEntry id id address "unknown" 0 "" in
  KadDisc.get_service name (KadDisc.inject_peer peer_key forged d) = Some forged.
Proof.
  unfold KadDisc.get_service, KadDisc.inject_peer, Kad.get, Kad.add_peer. cbn.
  destruct (replace_entry _ _); cbn; apply lookup_insert_eq.
Qed.

(** ** The coordinator reports a peer once *)

Inductive coord_op := AddBackend (b : Boxed) | StartAll (ws : nat -> World) | PollAll (ws : nat -> World) | StopAll.

Definition coord_step (st : DiscoveryCoordinator * list DiscoveredPeer) (o : coord_op) : DiscoveryCoordinator * list DiscoveredPeer :=
  let '(c, reported) := st in
  match o with
  | AddBackend b => (Coord.add_backend b c, reported)
  | StartAll ws => ((Coord.start_all ws c).1, reported)
  | PollAll ws => let '(c, new_peers) := Coord.poll_all ws c in (c, reported ++ new_peers)
  | StopAll => ((Coord.stop_all c).1, reported)
  end.

Definition coord_run (os : list coord_op) : DiscoveryCoordinator * list DiscoveredPeer := foldl coord_step (Coord.new, []) os.

(** What the backends yield in one round of polling, in their order. *)
Definition yielded (ws : nat -> World) (bs : list Boxed) : list DiscoveredPeer :=
  concat (imap (fun i b => (Coord.poll_boxed (ws i) b).2) bs).

Lemma admit_new_app known l1 l2 :
  Coord.admit_new known (l1 ++ l2) =
  let '(k1, n1) := Coord.admit_new known l1 in let '(k2, n2) := Coord.admit_new k1 l2 in (k2, n1 ++ n2).
Proof.
  revert known. induction l1 as [|p l1 IH]; intros known; cbn.
  - by destruct (Coord.admit_new known l2).
  - case_bool_decide; rewrite IH; [done|]. destruct (Coord.admit_new _ l1) as [k1 n1]. by destruct (Coord.admit_new k1 l2).
Qed.

Lemma poll_loop_yielded ws known bs :
  let '(bs', known', new_peers) := Coord.poll_loop ws known bs in Coord.admit_new known (yielded ws bs) = (known', new_peers).
Proof.
  revert ws known. induction bs as [|b bs IH]; intros ws known; [done|]. cbn [Coord.poll_loop].
  unfold yielded. cbn [imap concat]. rewrite admit_new_app. destruct (Coord.poll_boxed (ws O) b) as [b' peers]. cbn [snd].
  destruct (Coord.admit_new known peers) as [k1 n1]. specialize (IH (fun i => ws (S i)) k1).
  destruct (Coord.poll_loop _ k1 bs) as [[bs' k2] more]. unfold yielded in IH.
  change (imap _ bs) with (imap (fun i b => (Coord.poll_boxed (ws (S i)) b).2) bs). by rewrite IH.
Qed.

Lemma admit_new_spec known peers :
  let '(known', new_peers) := Coord.admit_new known peers in
  NoDup (peer_node_id <$> new_peers) /\ known' = known ∪ list_to_set (peer_node_id <$> new_peers) /\
  (forall p, p ∈ new_peers <->
     exists l1 l2, peers = l1 ++ p :: l2 /\ peer_node_id p ∉ known /\ peer_node_id p ∉ (peer_node_id <$> l1)).
Proof.
  revert known. induction peers as [|q peers IH]; intros known; cbn [Coord.admit_new].
  { split; [constructor|]. split; [set_solver|]. intros p. split; [by intros ?%not_elem_of_nil|]. intros ([|] & ? & ? & _); done. }
  case_bool_decide as Hq.
  - specialize (IH known). destruct (Coord.admit_new known peers) as [k n]. destruct IH as (Hd & -> & Hiff).
    split; [done|]. split; [done|]. intros p. rewrite Hiff. split.
    + intros (l1 & l2 & -> & Hp & Hp1). exists (q :: l1), l2. split; [done|]. split; [done|]. cbn. rewrite elem_of_cons. intros [Heq|]; congruence.
    + intros ([|q' l1] & l2 & Heq & Hp & Hp1); injection Heq as -> ->; [done|]. exists l1, l2. split; [done|]. split; [done|]. set_solver.
  - specialize (IH ({[peer_node_id q]} ∪ known)). destruct (Coord.admit_new _ peers) as [k n]. destruct IH as (Hd & -> & Hiff).
    split; [|split; [set_solver|]].
    + cbn. constructor; [|done]. intros (p & Heq & Hp)%list_elem_of_fmap. apply Hiff in Hp as (_ & _ & _ & Hp & _). set_solver.
    + intros p. rewrite elem_of_cons, Hiff. split.
      * intros [->|(l1 & l2 & -> & Hp & Hp1)]; [exists [], peers; set_solver|]. exists (q :: l1), l2. split; [done|]. split; [set_solver|].
        cbn. rewrite elem_of_cons. intros [Heq|]; [|done]. rewrite Heq in Hp. set_solver.
      * intros ([|q' l1] & l2 & Heq & Hp & Hp1); injection Heq as -> ->; [by left|right]. exists l1, l2. split; [done|]. split; set_solver.
Qed.

(** The coordinator reports every peer once.  Over any sequence of calls
    and for every backend behind the interface, no node id is reported twice
    and the known peers are those reported; and a poll reports exactly the
    first occurrence, in the backends' order, of each id not known before. *)
Theorem coordinator_reports_once os ws :
  let '(c, reported) := coord_run os in
  NoDup (peer_node_id <$> reported) /\ known_peers c = list_to_set (peer_node_id <$> reported) /\
  (forall p, p ∈ (Coord.poll_all ws c).2 <->
     exists l1 l2, yielded ws (backends c) = l1 ++ p :: l2 /\
       Coord.is_known (peer_node_id p) c = false /\ peer_node_id p ∉ (peer_node_id <$> l1)).
Proof.
  unfold coord_run. destruct (foldl coord_step _ os) as [c reported] eqn:E.
  assert (NoDup (peer_node_id <$> reported) /\ known_peers c = list_to_set (peer_node_id <$> reported)) as [Hd Hk].
  { revert c reported E. induction os as [|o os IH] using rev_ind; intros c reported.
    { intros [= <- <-]. split; [constructor|done]. }
    rewrite foldl_app. destruct (foldl coord_step _ os) as [c0 r0] eqn:E0. destruct (IH c0 r0 eq_refl) as [Hd Hk].
    destruct o as [b|ws'|ws'|]; cbn; [intros [= <- <-]; done| | |].
    - unfold Coord.start_all. destruct (Coord.try_each _ _). intros [= <- <-]. done.
    - unfold Coord.poll_all. pose proof (poll_loop_yielded ws' (known_peers c0) (backends c0)) as Hy.
      destruct (Coord.poll_loop _ _ _) as [[bs k] n]. pose proof (admit_new_spec (known_peers c0) (yielded ws' (backends c0))) as Hs.
      rewrite Hy in Hs. destruct Hs as (Hdn & -> & Hiff). intros [= <- <-]. rewrite fmap_app, list_to_set_app_L, Hk. split; [|done].
      apply NoDup_app. split; [done|]. split; [|done]. intros id Hid (p & -> & Hp)%list_elem_of_fmap.
      apply Hiff in Hp as (_ & _ & _ & Hp & _). apply Hp. rewrite Hk. by apply elem_of_list_to_set.
    - unfold Coord.stop_all. destruct (Coord.try_each _ _). intros [= <- <-]. done. }
  split; [done|]. split; [done|]. intros p. unfold Coord.poll_all. pose proof (poll_loop_yielded ws (known_peers c) (backends c)) as Hy.
  destruct (Coord.poll_loop _ _ _) as [[bs k] n]. pose proof (admit_new_spec (known_peers c) (yielded ws (backends c))) as Hs.
  rewrite Hy in Hs. destruct Hs as (_ & _ & Hiff). cbn [snd]. rewrite Hiff. unfold Coord.is_known.
  by setoid_rewrite bool_decide_eq_false.
Qed.

Example coordinator_demo :
  let w := fun _ => mkWorld 0 None (Some (mkAnn "s" "n1" "10.0.0.2" 9489 "linux" "other-cluster")) in
  (fun p => (peer_node_id p, peer_address p)) <$>
  (coord_run [AddBackend (Box (Bootstrap.new ["a"; "b"])); AddBackend (Box (MdnsDisc.new "me" "10.0.0.1" 9489 "linux" "g"));
              StartAll w; PollAll w; StopAll; StartAll w; PollAll w]).2
  = [("seed-0", "a"); ("seed-1", "b"); ("n1", "10.0.0.2:9489")]%string.
Proof. vm_compute. reflexivity. Qed.
