(* ===== verification/Cluster.v ===== *)
(** Cluster membership: cluster.rs (the peers a node knows, their health, what
    the mesh reports about them, the file they are kept in, the pairing window)
    and the host list of revocation.rs.  The membership calls the rate limiter
    of [RateLimit.v] and a gate behind the interface of [Gate.v].

    The peers file is the list of records last written to it; the file system
    is assumed to accept the writes.  Times are nanoseconds; the clocks are read
    once per call. *)

From Stdlib Require Import Strings.String.
From S2P Require Import Prelude.
From S2P Require Import Process.
From S2P Require Import RateLimit.
From S2P Require Import Gate.
Open Scope N_scope.

(** ** Data *)

Inductive NodePlatform := CloudNative | Edge | Browser | Wasi | CustomPlatform (label : string).

#[global] Instance NodePlatform_eq_dec : EqDecision NodePlatform.
Proof. solve_decision. Defined.

Definition platform_to_string (p : NodePlatform) : string :=
  match p with
  | CloudNative => "cloud-native"
  | Edge => "edge"
  | Browser => "browser"
  | Wasi => "wasi"
  | CustomPlatform name => "custom(" +:+ name +:+ ")"
  end.

Inductive NodeState := Joining | Active | Suspect | Unreachable | Leaving | Left | Unverified.

#[global] Instance NodeState_eq_dec : EqDecision NodeState.
Proof. solve_decision. Defined.

Definition state_to_string (s : NodeState) : string :=
  match s with
  | Joining => "joining" | Active => "active" | Suspect => "suspect" | Unreachable => "unreachable"
  | Leaving => "leaving" | Left => "left" | Unverified => "unverified"
  end.

Record PeerNode := mkPeerNode {
  pn_id : string;
  pn_name : string;
  pn_platform : NodePlatform;
  pn_state : NodeState;
  pn_address : option string;
  first_seen : Z;
  last_heartbeat : Z;
  pn_capabilities : list string;
  pn_labels : gmap string string
}.

Definition with_state (s : NodeState) (p : PeerNode) : PeerNode :=
  mkPeerNode (pn_id p) (pn_name p) (pn_platform p) s (pn_address p) (first_seen p) (last_heartbeat p) (pn_capabilities p) (pn_labels p).

Definition with_heartbeat (t : Z) (p : PeerNode) : PeerNode :=
  mkPeerNode (pn_id p) (pn_name p) (pn_platform p) (pn_state p) (pn_address p) (first_seen p) t (pn_capabilities p) (pn_labels p).

Definition with_address (a : option string) (p : PeerNode) : PeerNode :=
  mkPeerNode (pn_id p) (pn_name p) (pn_platform p) (pn_state p) a (first_seen p) (last_heartbeat p) (pn_capabilities p) (pn_labels p).

Record ClusterConfig := mkClusterConfig {
  cc_node_id : string;
  cc_node_name : string;
  cc_platform : NodePlatform;
  heartbeat_interval_secs : N;
  suspect_threshold : N;
  unreachable_threshold : N;
  max_nodes : N;
  bind_address : option string;
  seed_peers : list string;
  identity_key_path : option string;
  peer_add_max_per_source : N;
  peer_add_window_ms : N
}.

(** [ClusterConfig::default], with the fresh UUID as an argument. *)
Definition default_config (uuid : string) : ClusterConfig :=
  mkClusterConfig uuid "local" CloudNative 5 3 10 0 None [] None
    (max_per_window DEFAULT_PEER_ADD_RATE) (window DEFAULT_PEER_ADD_RATE / 1000000).

Definition peer_add_rate_config (c : ClusterConfig) : RateLimitConfig :=
  mkRate (peer_add_max_per_source c) (peer_add_window_ms c * 1000000).

Inductive ClusterError :=
| NodeAlreadyExists (node_id : string)
| NodeNotFound (node_id : string)
| ClusterFull (max : N)
| ClusterMesh (msg : string)
| AuthFailed (msg : string)
| InvalidTransition (from to : string)
| ClusterRateLimited.

Definition KNOWN_CAPABILITIES : list string :=
  ["ipc"; "chain"; "tree"; "governance"; "ecc"; "wasm"; "containers"; "apps"; "mesh"; "discovery"; "heartbeat"; "compute"]%string.

Definition validate_capabilities (capabilities : list string) : list string :=
  filter (fun c => c ∉ KNOWN_CAPABILITIES) capabilities.

(** [UNVERIFIED_TTL], [STALE_UNREACHABLE_AFTER], [STALE_REMOVE_AFTER] *)
Definition secs (n : Z) : Z := (n * 1000000000)%Z.
Definition UNVERIFIED_TTL : Z := secs 3600.
Definition STALE_UNREACHABLE_AFTER : Z := secs 600.
Definition STALE_REMOVE_AFTER : Z := secs (24 * 3600).

(** [is_legacy_uuid_id] *)
Fixpoint split_dash (s : string) : list string :=
  match s with
  | EmptyString => [EmptyString]
  | String a rest =>
      if Ascii.eqb a "-"%char then EmptyString :: split_dash rest
      else match split_dash rest with p :: ps => String a p :: ps | [] => [String a EmptyString] end
  end.

Definition hex_digit (a : ascii) : bool :=
  let n := Ascii.N_of_ascii a in
  ((48 <=? n) && (n <=? 57)) || ((65 <=? n) && (n <=? 70)) || ((97 <=? n) && (n <=? 102)).

Definition is_legacy_uuid_id (id : string) : bool :=
  let parts := split_dash id in
  (lenN parts =? 5)
  && forallb (fun pn : string * nat => (String.length pn.1 =? pn.2)%nat && forallb hex_digit (String.list_ascii_of_string pn.1))
       (zip parts [8; 4; 4; 4; 12]%nat).

(** [str::trim_start_matches] with a non-empty pattern: each round drops at
    least one byte, so the length is fuel enough. *)
Fixpoint trim_start_matches_fuel (fuel : nat) (p s : string) : string :=
  match fuel, strip_prefix p s with
  | S fuel, Some rest => trim_start_matches_fuel fuel p rest
  | _, _ => s
  end.

Definition trim_start_matches (p s : string) : string := trim_start_matches_fuel (String.length s) p s.

(** The platform label of a mesh announcement, as [mesh_upsert] reads it. *)
Definition platform_of_label (platform : option string) : NodePlatform :=
  match platform with
  | Some other =>
      if String.eqb other "edge" then Edge
      else if String.eqb other "browser" then Browser
      else if String.eqb other "wasi" then Wasi
      else if String.prefix "custom:" other then CustomPlatform (trim_start_matches "custom:" other)
      else if negb (String.eqb other "cloud-native") && negb (String.eqb other "linux") then CustomPlatform other
      else CloudNative
  | None => CloudNative
  end.

Inductive MeshPeerEvent :=
| EvJoined (node_id : string) (address platform : option string) (verified : bool)
| EvLeft (node_id : string)
| EvAlive (node_id : string)
| EvSuspect (node_id : string)
| EvUnreachable (node_id : string)
| EvRecovered (node_id : string) (address : option string) (verified : bool).

Definition event_node_id (e : MeshPeerEvent) : string :=
  match e with
  | EvJoined id _ _ _ | EvLeft id | EvAlive id | EvSuspect id | EvUnreachable id | EvRecovered id _ _ => id
  end.

(** ** Membership *)

Record ClusterMembership (G : Type) := mkMembership {
  cm_config : ClusterConfig;
  cm_peers : gmap string PeerNode;
  peer_add_limiter : KeyedRateLimiter;
  persist_path : bool;
  peers_file : option (list PeerNode);
  heartbeat_dirty : bool;
  cm_chain : bool;
  cm_gate : option G
}.

Arguments mkMembership {_}.
Arguments cm_config {_}.
Arguments cm_peers {_}.
Arguments peer_add_limiter {_}.
Arguments persist_path {_}.
Arguments peers_file {_}.
Arguments heartbeat_dirty {_}.
Arguments cm_chain {_}.
Arguments cm_gate {_}.

(** What one call reads from outside: the wall clock, the monotonic clock and
    the gate's view of the kernel. *)
Record Now := mkNow { utc : Z; mono : N; gate_env : GateEnv }.

(** [Self::auto_removable] *)
Definition auto_removable (p : PeerNode) : bool :=
  let mesh := bool_decide (pn_labels p !! "source" = Some "mesh") in
  let junk := bool_decide (pn_platform p = CloudNative) && bool_decide (pn_address p = Some "127.0.0.1:0")
              && bool_decide (pn_labels p = ∅) in
  mesh || junk.

(** [chrono::Duration::from_std(..).unwrap_or(Duration::MAX)]: the largest
    duration is [i64::MAX] milliseconds. *)
Definition chrono_duration (d : Z) : Z := Z.min d (9223372036854775807 * 1000000).

(** [Self::is_stale_at] *)
Definition is_stale_at (p : PeerNode) (now max_age : Z) : bool := (chrono_duration max_age <? now - last_heartbeat p)%Z.

(** [Self::peer_add_source_key] *)
Definition peer_add_source_key (p : PeerNode) : string :=
  match pn_address p with
  | Some addr => if negb (String.eqb addr "") then addr else pn_id p
  | None => pn_id p
  end.

Module Members.

Section Members.
Context {G : Type} `{GateBackend G}.
(** The iteration order of the peers' [DashMap]. *)
Context (order : gmap string PeerNode -> list (string * PeerNode)).

Abbreviation Membership := (ClusterMembership G).

Definition new (config : ClusterConfig) : Membership :=
  mkMembership config ∅ (RL.new (peer_add_rate_config config)) false None false false None.

Definition with_chain (m : Membership) : Membership :=
  mkMembership (cm_config m) (cm_peers m) (peer_add_limiter m) (persist_path m) (peers_file m) (heartbeat_dirty m) true (cm_gate m).

Definition with_gate (g : option G) (m : Membership) : Membership :=
  mkMembership (cm_config m) (cm_peers m) (peer_add_limiter m) (persist_path m) (peers_file m) (heartbeat_dirty m) (cm_chain m) g.

Definition with_limiter (l : KeyedRateLimiter) (m : Membership) : Membership :=
  mkMembership (cm_config m) (cm_peers m) l (persist_path m) (peers_file m) (heartbeat_dirty m) (cm_chain m) (cm_gate m).

Definition with_peers (ps : gmap string PeerNode) (m : Membership) : Membership :=
  mkMembership (cm_config m) ps (peer_add_limiter m) (persist_path m) (peers_file m) (heartbeat_dirty m) (cm_chain m) (cm_gate m).

Definition with_file (path : bool) (f : option (list PeerNode)) (m : Membership) : Membership :=
  mkMembership (cm_config m) (cm_peers m) (peer_add_limiter m) path f (heartbeat_dirty m) (cm_chain m) (cm_gate m).

Definition with_dirty (d : bool) (m : Membership) : Membership :=
  mkMembership (cm_config m) (cm_peers m) (peer_add_limiter m) (persist_path m) (peers_file m) d (cm_chain m) (cm_gate m).

Definition with_peer_add_rate_limit (c : RateLimitConfig) (m : Membership) : Membership :=
  with_limiter (RL.set_config (peer_add_limiter m) c) m.

Definition with_min_peer_interval (interval : N) (m : Membership) : Membership :=
  if interval =? 0 then with_peer_add_rate_limit unlimited_config m
  else with_peer_add_rate_limit (mkRate 1 interval) m.

Definition local_node_id (m : Membership) : string := cc_node_id (cm_config m).

Definition persist (m : Membership) : Membership :=
  if persist_path m then
    let peers := snd <$> filter (fun e : string * PeerNode => e.1 <> local_node_id m) (order (cm_peers m)) in
    with_file true (Some peers) m
  else m.

(** The reasons a record of the file is skipped when it is read back. *)
Definition keep_on_load (local : string) (now : Z) (p : PeerNode) : bool :=
  negb (String.eqb (pn_id p) local) && negb (auto_removable p && is_stale_at p now STALE_REMOVE_AFTER)
  && negb (is_legacy_uuid_id (pn_id p)).

(** Whether skipping a record asks for the file to be rewritten. *)
Definition prunes (local : string) (now : Z) (p : PeerNode) : bool :=
  negb (String.eqb (pn_id p) local)
  && ((auto_removable p && is_stale_at p now STALE_REMOVE_AFTER) || is_legacy_uuid_id (pn_id p)).

(** [with_persist_path]: [file] is what the path holds, when it can be read
    and parsed. *)
Definition with_persist_path (now : Now) (file : option (list PeerNode)) (m : Membership) : Membership :=
  let m' := with_file true file m in
  match file with
  | None => m'
  | Some listed =>
      let kept := filter (fun p => keep_on_load (local_node_id m) (utc now) p = true) listed in
      let m' := with_peers (foldl (fun ps p => <[pn_id p := p]> ps) (cm_peers m) kept) m' in
      if existsb (prunes (local_node_id m) (utc now)) listed then persist m' else m'
  end.

Definition audit (m : Membership) (kind : string) (fields : list (string * Json)) : list AuditReq :=
  if cm_chain m then [mkAudit "cluster" kind (Some (JObj fields))] else [].

Definition effect_json (risk security : Z) : Json :=
  JObj [("risk", JFloat (F64.lit risk 1)); ("security", JFloat (F64.lit security 1))]%string.

(** The gate's answer: without a gate nothing is denied. *)
Definition ask (now : Now) (action : string) (context : Json) (m : Membership) : Membership * list AuditReq * bool :=
  match cm_gate m with
  | Some g =>
      let '(g, au, d) := check (gate_env now) g (local_node_id m) action context in
      (with_gate (Some g) m, au, is_deny d)
  | None => (m, [], false)
  end.

(** [max_nodes > 0 && self.peers.len() as u32 >= max_nodes] *)
Definition is_full (m : Membership) : bool :=
  let max := max_nodes (cm_config m) in
  (0 <? max) && (max <=? N.of_nat (size (cm_peers m)) mod u32_mod).

Definition add_peer (now : Now) (peer : PeerNode) (m : Membership) : Membership * list AuditReq * result unit ClusterError :=
  let context := JObj [("peer_id", JStr (pn_id peer)); ("peer_name", JStr (pn_name peer));
                       ("platform", JStr (platform_to_string (pn_platform peer))); ("effect", effect_json 4 3)]%string in
  let '(m, gate_audit, denied) := ask now "cluster.peer.add" context m in
  if denied then (m, gate_audit, Err (AuthFailed "governance denied peer addition"))
  else
    let '(limiter, ok) := RL.check (peer_add_limiter m) (mono now) (peer_add_source_key peer) in
    let m := with_limiter limiter m in
    if negb ok then (m, gate_audit, Err ClusterRateLimited)
    else match cm_peers m !! pn_id peer with
         | Some _ => (m, gate_audit, Err (NodeAlreadyExists (pn_id peer)))
         | None =>
             if is_full m then (m, gate_audit, Err (ClusterFull (max_nodes (cm_config m))))
             else
               let logged := audit m "cluster.peer.add"
                 [("node_id", JStr (pn_id peer)); ("name", JStr (pn_name peer));
                  ("platform", JStr (platform_to_string (pn_platform peer)))]%string in
               (persist (with_peers (<[pn_id peer := peer]> (cm_peers m)) m), gate_audit ++ logged, Ok tt)
         end.

Definition remove_peer (now : Now) (node_id : string) (m : Membership) : Membership * list AuditReq * result PeerNode ClusterError :=
  let context := JObj [("peer_id", JStr node_id); ("effect", effect_json 3 2)]%string in
  let '(m, gate_audit, denied) := ask now "cluster.peer.remove" context m in
  if denied then (m, gate_audit, Err (AuthFailed "governance denied peer removal"))
  else match cm_peers m !! node_id with
       | Some peer =>
           let logged := audit m "cluster.peer.remove" [("node_id", JStr (pn_id peer)); ("name", JStr (pn_name peer))]%string in
           (persist (with_peers (delete node_id (cm_peers m)) m), gate_audit ++ logged, Ok peer)
       | None => (m, gate_audit, Err (NodeNotFound node_id))
       end.

Definition update_state (node_id : string) (new_state : NodeState) (m : Membership) : Membership * list AuditReq * result unit ClusterError :=
  match cm_peers m !! node_id with
  | None => (m, [], Err (NodeNotFound node_id))
  | Some entry =>
      let logged := audit m "cluster.peer.state"
        [("node_id", JStr node_id); ("from", JStr (state_to_string (pn_state entry))); ("to", JStr (state_to_string new_state))]%string in
      (persist (with_peers (<[node_id := with_state new_state entry]> (cm_peers m)) m), logged, Ok tt)
  end.

Definition heartbeat (now : Now) (node_id : string) (m : Membership) : Membership * result unit ClusterError :=
  match cm_peers m !! node_id with
  | None => (m, Err (NodeNotFound node_id))
  | Some entry =>
      let entry := with_heartbeat (utc now) entry in
      let entry := if bool_decide (pn_state entry = Suspect) then with_state Active entry else entry in
      (with_dirty true (with_peers (<[node_id := entry]> (cm_peers m)) m), Ok tt)
  end.

Definition get_peer (node_id : string) (m : Membership) : option PeerNode := cm_peers m !! node_id.

Definition list_peers (m : Membership) : list (string * NodeState * NodePlatform) :=
  (fun e : string * PeerNode => (e.1, pn_state e.2, pn_platform e.2)) <$> order (cm_peers m).

Definition count_by_state (s : NodeState) (m : Membership) : N :=
  lenN (filter (fun e : string * PeerNode => pn_state e.2 = s) (order (cm_peers m))).

Definition len (m : Membership) : N := N.of_nat (size (cm_peers m)).

Definition active_peers (m : Membership) : list string :=
  fst <$> filter (fun e : string * PeerNode => pn_state e.2 = Active) (order (cm_peers m)).

(** [ids.iter().filter(|id| self.remove_peer(id).is_ok()).count()] *)
Fixpoint remove_all (now : Now) (ids : list string) (m : Membership) : Membership * list AuditReq * N :=
  match ids with
  | [] => (m, [], 0)
  | id :: ids =>
      let '(m, au, r) := remove_peer now id m in
      let '(m, au', n) := remove_all now ids m in
      (m, au ++ au', (if is_ok r then 1 else 0) + n)
  end.

(** [for id in &demote { let _ = self.update_state(id, Unreachable); }] *)
Fixpoint demote_all (ids : list string) (m : Membership) : Membership * list AuditReq :=
  match ids with
  | [] => (m, [])
  | id :: ids =>
      let '(m, au, _) := update_state id Unreachable m in
      let '(m, au') := demote_all ids m in
      (m, au ++ au')
  end.

Definition expire_unverified (now : Now) (max_age : Z) (m : Membership) : Membership * list AuditReq * N :=
  let cutoff := (utc now - chrono_duration max_age)%Z in
  let stale := fst <$> filter (fun e : string * PeerNode => pn_state e.2 = Unverified /\ (last_heartbeat e.2 < cutoff)%Z) (order (cm_peers m)) in
  remove_all now stale m.

(** Which of its two lists [expire_stale_at] puts a peer into. *)
Definition to_remove (local : string) (at_ remove_after : Z) (e : string * PeerNode) : bool :=
  negb (String.eqb e.1 local) && auto_removable e.2 && is_stale_at e.2 at_ remove_after.

Definition is_live (s : NodeState) : bool := match s with Active | Suspect | Joining => true | _ => false end.

Definition to_demote (local : string) (at_ unreachable_after remove_after : Z) (e : string * PeerNode) : bool :=
  negb (String.eqb e.1 local) && negb (auto_removable e.2 && is_stale_at e.2 at_ remove_after)
  && is_stale_at e.2 at_ unreachable_after && is_live (pn_state e.2).

Definition expire_stale_at (now : Now) (at_ unreachable_after remove_after : Z) (m : Membership) : Membership * list AuditReq * N :=
  let local := local_node_id m in
  let remove := fst <$> filter (fun e => to_remove local at_ remove_after e = true) (order (cm_peers m)) in
  let demote := fst <$> filter (fun e => to_demote local at_ unreachable_after remove_after e = true) (order (cm_peers m)) in
  let '(m, au) := demote_all demote m in
  let '(m, au', removed) := remove_all now remove m in
  let m := if heartbeat_dirty m then persist (with_dirty false m) else m in
  (m, au ++ au', removed).

Definition expire_stale (now : Now) (unreachable_after remove_after : Z) (m : Membership) : Membership * list AuditReq * N :=
  expire_stale_at now (utc now) unreachable_after remove_after m.

(** [mesh_upsert] on a peer already held: the new record, and whether it asks
    for the file to be written. *)
Definition upsert_entry (now : Now) (address : option string) (verified : bool) (entry : PeerNode) : PeerNode * bool :=
  let to := match verified, pn_state entry with
            | true, Active => None
            | true, _ => Some Active
            | false, (Active | Unverified) => None
            | false, _ => Some Unverified
            end in
  let entry' := match to with Some s => with_state s entry | None => entry end in
  let may_refresh := verified || bool_decide (pn_state entry' = Unverified) in
  let entry' := if may_refresh then with_heartbeat (utc now) entry' else entry' in
  let moves := may_refresh && bool_decide (address <> None) && bool_decide (pn_address entry' <> address) in
  let entry' := if moves then with_address address entry' else entry' in
  (entry', (match to with Some _ => true | None => false end) || moves).

Definition mesh_upsert (now : Now) (node_id : string) (address platform : option string) (verified : bool)
    (m : Membership) : Membership * result bool ClusterError :=
  match cm_peers m !! node_id with
  | Some entry =>
      let '(entry, changed) := upsert_entry now address verified entry in
      let m := with_peers (<[node_id := entry]> (cm_peers m)) m in
      (if changed then persist m else m, Ok true)
  | None =>
      if is_full m then (m, Err (ClusterFull (max_nodes (cm_config m))))
      else
        let peer := mkPeerNode node_id node_id (platform_of_label platform) (if verified then Active else Unverified) address
                      (utc now) (utc now) ["mesh"%string] {["source" := "mesh"]}%string in
        (persist (with_peers (<[node_id := peer]> (cm_peers m)) m), Ok true)
  end.

Definition apply_mesh_peer_event (now : Now) (event : MeshPeerEvent) (m : Membership)
    : Membership * list AuditReq * result bool ClusterError :=
  match event with
  | EvJoined node_id address platform verified =>
      let '(m, r) := mesh_upsert now node_id address platform verified m in (m, [], r)
  | EvRecovered node_id address verified =>
      let '(m, r) := mesh_upsert now node_id address None verified m in (m, [], r)
  | EvAlive node_id =>
      match cm_peers m !! node_id with
      | Some p =>
          if bool_decide (pn_state p = Unverified) then (m, [], Ok false)
          else
            let '(m, _) := heartbeat now node_id m in
            match get_peer node_id m with
            | Some p =>
                if negb (bool_decide (pn_state p = Active)) && negb (bool_decide (pn_state p = Unverified)) then
                  let '(m, au, _) := update_state node_id Active m in (m, au, Ok true)
                else (m, [], Ok true)
            | None => (m, [], Ok true)
            end
      | None => let '(m, r) := mesh_upsert now node_id None None false m in (m, [], r)
      end
  | EvSuspect node_id =>
      match cm_peers m !! node_id with
      | Some p =>
          if bool_decide (pn_state p = Unverified) then (m, [], Ok false)
          else let '(m, au, r) := update_state node_id Suspect m in
               (m, au, match r with Ok _ => Ok true | Err e => Err e end)
      | None => (m, [], Ok false)
      end
  | EvUnreachable node_id =>
      match cm_peers m !! node_id with
      | Some p =>
          if bool_decide (pn_state p = Unverified) then
            let '(m, au, _) := remove_peer now node_id m in (m, au, Ok true)
          else let '(m, au, r) := update_state node_id Unreachable m in
               (m, au, match r with Ok _ => Ok true | Err e => Err e end)
      | None => (m, [], Ok false)
      end
  | EvLeft node_id =>
      match cm_peers m !! node_id with
      | Some _ =>
          let '(m, au, _) := update_state node_id Left m in
          let '(m, au', _) := remove_peer now node_id m in
          (m, au ++ au', Ok true)
      | None => (m, [], Ok false)
      end
  end.

(** A tick of the mesh listener's reaper. *)
Definition reap (now : Now) (m : Membership) : Membership * list AuditReq :=
  let '(m, au, _) := expire_unverified now UNVERIFIED_TTL m in
  let '(m, au', _) := expire_stale now STALE_UNREACHABLE_AFTER STALE_REMOVE_AFTER m in
  (m, au ++ au').

End Members.

End Members.

(** ** revocation.rs: banned hosts *)

Record RevokedHost := mkRevoked { host_id : string; revoked_at : N; revoke_reason : string }.

(** The list and the file it is saved to after every change. *)
Record RevocationList := mkRevocations { hosts : list RevokedHost; hosts_file : option (list RevokedHost) }.

Module Revocation.

Definition new : RevocationList := mkRevocations [] None.

(** [load]: a file that is missing or does not parse gives an empty list. *)
Definition load (file : option (list RevokedHost)) : RevocationList := mkRevocations (default [] file) file.

Definition is_revoked (host : string) (l : RevocationList) : bool := existsb (fun h => String.eqb (host_id h) host) (hosts l).

Definition save (hs : list RevokedHost) : RevocationList := mkRevocations hs (Some hs).

Definition revoke_host (now_secs : N) (host reason : string) (l : RevocationList) : RevocationList * bool :=
  if existsb (fun h => String.eqb (host_id h) host) (hosts l) then (l, false)
  else (save (hosts l ++ [mkRevoked host now_secs reason]), true).

Definition unrevoke_host (host : string) (l : RevocationList) : RevocationList * bool :=
  let kept := filter (fun h => host_id h <> host) (hosts l) in
  if lenN kept <? lenN (hosts l) then (save kept, true) else (mkRevocations kept (hosts_file l), false).

Definition len (l : RevocationList) : N := lenN (hosts l).

End Revocation.

(** [add_peer_checked] *)
Definition add_peer_checked {G} `{GateBackend G} order (now : Now) (peer : PeerNode) (banned : RevocationList)
    (m : ClusterMembership G) : ClusterMembership G * list AuditReq * result unit ClusterError :=
  if Revocation.is_revoked (pn_id peer) banned then
    (m, [], Err (AuthFailed ("host '" +:+ pn_id peer +:+ "' is revoked")))
  else Members.add_peer order now peer m.

(** ** The pairing window *)

Record PairingGate := mkPairing {
  window_until : option N;
  pending_pairs : list string;
  paired_hosts : gset string;
  paired_file : option (gset string)
}.

Module Pairing.

Definition new (file : option (gset string)) : PairingGate := mkPairing None [] ∅ file.

Definition save (g : PairingGate) : PairingGate :=
  mkPairing (window_until g) (pending_pairs g) (paired_hosts g) (Some (paired_hosts g)).

(** [load], of a file that can be read and parsed; a missing one is created. *)
Definition load (g : PairingGate) : PairingGate * N :=
  match paired_file g with
  | None => (save g, 0)
  | Some listed =>
      let all := paired_hosts g ∪ listed in
      (mkPairing (window_until g) (pending_pairs g) all (paired_file g), N.of_nat (size all))
  end.

Definition open_pairing_window (now duration : N) (g : PairingGate) : PairingGate :=
  mkPairing (Some (now + duration)) [] (paired_hosts g) (paired_file g).

Definition is_pairing_open (now : N) (g : PairingGate) : bool :=
  match window_until g with Some deadline => now <? deadline | None => false end.

Definition should_accept_peer (now : N) (peer_id : string) (g : PairingGate) : PairingGate * bool :=
  if bool_decide (peer_id ∈ paired_hosts g) then (g, true)
  else if is_pairing_open now g then
    (save (mkPairing (window_until g) (pending_pairs g ++ [peer_id]) ({[peer_id]} ∪ paired_hosts g) (paired_file g)), true)
  else (g, false).

Definition unpair (peer_id : string) (g : PairingGate) : PairingGate * bool :=
  if bool_decide (peer_id ∈ paired_hosts g) then
    (save (mkPairing (window_until g) (pending_pairs g) (paired_hosts g ∖ {[peer_id]}) (paired_file g)), true)
  else (g, false).

End Pairing.

(** ** Membership as a machine *)

Section Machine.
Context {G : Type} {GB : GateBackend G}.
Context (order : gmap string PeerNode -> list (string * PeerNode)).
Hypothesis order_perm : forall ps, order ps ≡ₚ map_to_list ps.
Implicit Types m : ClusterMembership G.

(** The calls on a membership; [Restart] is a new process that reads the file the
    old one left. *)
Inductive member_op :=
| AddPeer (peer : PeerNode)
| RemovePeer (node_id : string)
| UpdateState (node_id : string) (s : NodeState)
| BeatOf (node_id : string)
| MeshEvent (e : MeshPeerEvent)
| Reap
| ExpireStale (at_ unreachable_after remove_after : Z)
| ExpireUnverified (max_age : Z)
| Restart.

Definition restart (now : Now) m : ClusterMembership G :=
  let fresh := mkMembership (cm_config m) ∅ (RL.new (peer_add_rate_config (cm_config m))) false None false (cm_chain m) (cm_gate m) in
  if persist_path m then Members.with_persist_path order now (peers_file m) fresh else fresh.

Definition member_step (now : Now) (o : member_op) m : ClusterMembership G * list AuditReq :=
  match o with
  | AddPeer p => (Members.add_peer order now p m).1
  | RemovePeer id => (Members.remove_peer order now id m).1
  | UpdateState id s => (Members.update_state order id s m).1
  | BeatOf id => ((Members.heartbeat now id m).1, [])
  | MeshEvent e => (Members.apply_mesh_peer_event order now e m).1
  | Reap => Members.reap order now m
  | ExpireStale t u r => (Members.expire_stale_at order now t u r m).1
  | ExpireUnverified a => (Members.expire_unverified order now a m).1
  | Restart => (restart now m, [])
  end.

Fixpoint member_run (os : list (Now * member_op)) m : ClusterMembership G * list AuditReq :=
  match os with
  | [] => (m, [])
  | (now, o) :: os =>
      let '(m, au) := member_step now o m in
      let '(m, au') := member_run os m in
      (m, au ++ au')
  end.

(** Every peer is kept under its own id, a membership with a bound respects it,
    and the file, when there is one, lists other nodes once each. *)
Record members_wf m : Prop := {
  wf_ids : forall id p, cm_peers m !! id = Some p -> pn_id p = id;
  wf_bound : max_nodes (cm_config m) < u32_mod /\
             (0 < max_nodes (cm_config m) -> N.of_nat (size (cm_peers m)) <= max_nodes (cm_config m));
  wf_file : forall listed, peers_file m = Some listed ->
             NoDup (pn_id <$> listed) /\ Forall (fun p => pn_id p <> Members.local_node_id m) listed /\
             (0 < max_nodes (cm_config m) -> lenN listed <= max_nodes (cm_config m))
}.

(** *** Every call is a sequence of edits

    An edit leaves the peers alone, writes the file, changes one record, adds
    one or removes one.  [R] bounds how the state of a peer may change. *)

(** The gate's state only changes by being asked. *)
Definition gate_next (g g' : option G) : Prop :=
  g' = g \/ exists g0 env agent action context, g = Some g0 /\ g' = Some (check env g0 agent action context).1.1.

Inductive edit (R : string -> option NodeState -> NodeState -> Prop) : ClusterMembership G -> ClusterMembership G -> Prop :=
| edit_same m m' :
    cm_config m' = cm_config m -> cm_peers m' = cm_peers m -> persist_path m' = persist_path m ->
    peers_file m' = peers_file m -> gate_next (cm_gate m) (cm_gate m') -> edit R m m'
| edit_persist m : edit R m (Members.persist order m)
| edit_put m id p p' :
    cm_peers m !! id = Some p -> pn_id p' = pn_id p -> R id (Some (pn_state p)) (pn_state p') ->
    edit R m (Members.with_peers (<[id := p']> (cm_peers m)) m)
| edit_new m p :
    cm_peers m !! pn_id p = None -> Members.is_full m = false -> R (pn_id p) None (pn_state p) ->
    edit R m (Members.with_peers (<[pn_id p := p]> (cm_peers m)) m)
| edit_del m id : edit R m (Members.with_peers (delete id (cm_peers m)) m).

Definition edits R : ClusterMembership G -> ClusterMembership G -> Prop := rtc (edit R).

(** The gate may refuse to remove a peer. *)
Definition removal_denied (gate : option G) : Prop :=
  exists g env agent context, gate = Some g /\ is_deny (check env g agent "cluster.peer.remove" context).2 = true.

(** The calls that vouch for a node: an operator's, and a verified join. *)
Definition vouches (id : string) (o : member_op) : Prop :=
  match o with
  | AddPeer p => pn_id p = id
  | UpdateState i _ => i = id
  | MeshEvent (EvJoined i _ _ true) | MeshEvent (EvRecovered i _ true) => i = id
  | _ => False
  end.

(** A change of state that makes no member of an unverified or new peer. *)
Definition guarded (old : option NodeState) (new : NodeState) : Prop :=
  match old with None | Some Unverified => new = Unverified | Some _ => True end.

(** How one call may change the state of a peer, with the gate it finds. *)
Definition changes_by (gate : option G) (o : member_op) (id : string) (old : option NodeState) (new : NodeState) : Prop :=
  vouches id o \/ guarded old new \/ (removal_denied gate /\ o = MeshEvent (EvLeft id) /\ new = Left).

Lemma persist_edits R m m' : edits R m m' -> edits R m (Members.persist order m').
Proof. intros H1. eapply rtc_r; [exact H1|]. apply edit_persist. Qed.

Lemma ask_fields now action context m :
  let m' := (Members.ask now action context m).1.1 in
  cm_config m' = cm_config m /\ cm_peers m' = cm_peers m /\ persist_path m' = persist_path m /\
  peers_file m' = peers_file m /\ gate_next (cm_gate m) (cm_gate m').
Proof.
  unfold Members.ask. destruct (cm_gate m) as [g|] eqn:Eg.
  - destruct (check _ _ _ _ _) as [[g' au] d] eqn:E. repeat split. right.
    exists g, (gate_env now), (Members.local_node_id m), action, context. by rewrite E.
  - repeat split. by left.
Qed.

Lemma ask_same now action context m R : edits R m (Members.ask now action context m).1.1.
Proof. destruct (ask_fields now action context m) as (? & ? & ? & ? & ?). apply rtc_once. by apply edit_same. Qed.

Lemma ask_denied now context m :
  (Members.ask now "cluster.peer.remove" context m).2 = true -> removal_denied (cm_gate m).
Proof.
  unfold Members.ask. destruct (cm_gate m) as [g|]; [|done].
  destruct (check _ _ _ _ _) as [[g' au] d] eqn:E. cbn. intros Hd.
  exists g, (gate_env now), (Members.local_node_id m), context. by rewrite E.
Qed.

Lemma put_persist R m m0 id p p' :
  edits R m m0 -> cm_peers m0 !! id = Some p -> pn_id p' = pn_id p -> R id (Some (pn_state p)) (pn_state p') ->
  edits R m (Members.persist order (Members.with_peers (<[id := p']> (cm_peers m0)) m0)).
Proof. intros. apply persist_edits. eapply rtc_r; [done|]. by eapply edit_put. Qed.

Lemma remove_peer_edits R now id m : edits R m (Members.remove_peer order now id m).1.1.
Proof.
  unfold Members.remove_peer. pose proof (ask_same now "cluster.peer.remove"
    (JObj [("peer_id", JStr id); ("effect", Members.effect_json 3 2)]%string) m R) as Hask.
  destruct (Members.ask _ _ _ m) as [[m0 au] denied]. cbn in Hask. destruct denied; [done|].
  destruct (cm_peers m0 !! id); [|done]. cbn. apply persist_edits. eapply rtc_r; [done|apply edit_del].
Qed.

Lemma update_state_edits R id s m :
  (forall p, cm_peers m !! id = Some p -> R id (Some (pn_state p)) s) -> edits R m (Members.update_state order id s m).1.1.
Proof.
  intros HR. unfold Members.update_state. destruct (cm_peers m !! id) as [p|] eqn:E; [|apply rtc_refl].
  cbn. eapply put_persist; [apply rtc_refl|done|done|]. cbn. by apply HR.
Qed.

Lemma persist_fields m :
  cm_config (Members.persist order m) = cm_config m /\ cm_peers (Members.persist order m) = cm_peers m /\
  persist_path (Members.persist order m) = persist_path m /\ cm_gate (Members.persist order m) = cm_gate m /\
  heartbeat_dirty (Members.persist order m) = heartbeat_dirty m.
Proof. unfold Members.persist. by destruct (persist_path m) eqn:E. Qed.

Lemma update_state_peers id s m :
  cm_peers (Members.update_state order id s m).1.1 = alter (with_state s) id (cm_peers m).
Proof.
  unfold Members.update_state. destruct (cm_peers m !! id) as [p|] eqn:E; cbn.
  - rewrite (proj1 (proj2 (persist_fields _))). cbn. symmetry. apply map_eq. intros i. rewrite lookup_alter.
    case_decide; subst; [by rewrite lookup_insert_eq, E|by rewrite lookup_insert_ne].
  - symmetry. apply map_eq. intros i. rewrite lookup_alter. case_decide; subst; by rewrite ?E.
Qed.

Lemma heartbeat_edits (R : string -> option NodeState -> NodeState -> Prop) now id m :
  (forall s, R id (Some s) s) -> R id (Some Suspect) Active -> edits R m (Members.heartbeat now id m).1.
Proof.
  intros Hr Hs. unfold Members.heartbeat. destruct (cm_peers m !! id) as [p|] eqn:E; [|apply rtc_refl]. cbn.
  match goal with |- edits _ _ (Members.with_dirty _ ?m') => apply (rtc_r m m'); [|apply edit_same; try done; by left] end.
  apply rtc_once. eapply edit_put; [done|by case_bool_decide|].
  case_bool_decide as Hp; cbn in *; [by rewrite Hp|done].
Qed.

Lemma upsert_entry_spec now address verified p :
  let p' := (Members.upsert_entry now address verified p).1 in
  pn_id p' = pn_id p /\
  pn_state p' = match verified, pn_state p with
                | true, _ => Active | false, Active => Active | false, _ => Unverified end.
Proof.
  unfold Members.upsert_entry. destruct p as [i n pl st a f h c l].
  destruct verified, st; cbn; repeat case_match; done.
Qed.

Lemma mesh_upsert_edits (R : string -> option NodeState -> NodeState -> Prop) now id address platform (verified : bool) m :
  (forall old, R id old (if verified then Active else Unverified)) -> (verified = false -> R id (Some Active) Active) ->
  edits R m (Members.mesh_upsert order now id address platform verified m).1.
Proof.
  intros HR Hact. unfold Members.mesh_upsert. destruct (cm_peers m !! id) as [p|] eqn:E.
  - destruct (upsert_entry_spec now address verified p) as [Hid Hs]. destruct (Members.upsert_entry _ _ _ p) as [p' changed]. cbn in *.
    assert (edits R m (Members.with_peers (<[id := p']> (cm_peers m)) m)) as He.
    { apply rtc_once. eapply edit_put; [done..|]. rewrite Hs. destruct verified; [apply HR|].
      destruct (pn_state p); try apply HR; by apply Hact. }
    destruct changed; [by apply persist_edits|done].
  - destruct (Members.is_full m) eqn:Ef; [apply rtc_refl|]. cbn. apply persist_edits, rtc_once.
    match goal with |- edit _ _ (Members.with_peers (<[_ := ?p]> _) _) => apply (edit_new R m p); [done..|apply HR] end.
Qed.

Lemma remove_all_edits R now ids m : edits R m (Members.remove_all order now ids m).1.1.
Proof.
  revert m. induction ids as [|id ids IH]; intros m; [apply rtc_refl|]. cbn [Members.remove_all].
  pose proof (remove_peer_edits R now id m) as H1. destruct (Members.remove_peer _ _ _ m) as [[m1 au1] r1].
  specialize (IH m1). destruct (Members.remove_all _ _ _ m1) as [[m2 au2] n2]. cbn in *. by etrans.
Qed.

Lemma demote_all_edits (R : string -> option NodeState -> NodeState -> Prop) ids m :
  (forall id p, id ∈ ids -> cm_peers m !! id = Some p -> pn_state p <> Unverified) ->
  (forall id s, s <> Unverified -> R id (Some s) Unreachable) -> edits R m (Members.demote_all order ids m).1.
Proof.
  intros Hl HR. revert m Hl. induction ids as [|id ids IH]; intros m Hl; [apply rtc_refl|]. cbn [Members.demote_all].
  pose proof (update_state_edits R id Unreachable m) as H1. pose proof (update_state_peers id Unreachable m) as H2.
  destruct (Members.update_state _ _ _ m) as [[m1 au1] r1].
  specialize (IH m1). destruct (Members.demote_all _ _ m1) as [m2 au2]. cbn in *. etrans; [apply H1|apply IH].
  - intros p Hp. apply HR. apply (Hl id); [left|done].
  - intros id' p Hid'. rewrite H2, lookup_alter. case_decide as Heq; [|apply Hl; by right].
    intros (p0 & _ & ->)%fmap_Some. done.
Qed.

Lemma expire_stale_edits (R : string -> option NodeState -> NodeState -> Prop) now t u r m :
  (forall id s, s <> Unverified -> R id (Some s) Unreachable) -> edits R m (Members.expire_stale_at order now t u r m).1.1.
Proof.
  intros HR. unfold Members.expire_stale_at. set (demote := fst <$> filter _ _). set (remove := fst <$> filter _ _).
  pose proof (demote_all_edits R demote m) as H1. destruct (Members.demote_all _ _ m) as [m1 au1]. cbn in H1.
  pose proof (remove_all_edits R now remove m1) as H2. destruct (Members.remove_all _ _ _ m1) as [[m2 au2] n]. cbn in *.
  assert (edits R m m2) as H3.
  { etrans; [apply H1|exact H2]; [|exact HR]. subst demote remove. intros id p Hid Hp.
    apply list_elem_of_fmap in Hid as ([id' p'] & -> & [Hd Hin]%list_elem_of_filter). rewrite order_perm in Hin.
    apply elem_of_map_to_list in Hin. cbn in Hp. assert (p' = p) as -> by congruence. unfold Members.to_demote in Hd.
    apply andb_prop in Hd as [_ Hlive]. cbn in Hlive. by destruct (pn_state p). }
  destruct (heartbeat_dirty m2); [|done]. apply persist_edits. eapply rtc_r; [exact H3|]. apply edit_same; try done. by left.
Qed.

Lemma guarded_refl g o id s : changes_by g o id (Some s) s.
Proof. right. left. by destruct s. Qed.

Lemma guarded_down g o id s s' : s <> Unverified -> changes_by g o id (Some s) s'.
Proof. intros Hs. right. left. by destruct s. Qed.

Lemma guarded_unverified g o id old : changes_by g o id old Unverified.
Proof. right. left. by destruct old as [[]|]. Qed.

#[local] Hint Resolve guarded_refl guarded_down guarded_unverified : core.

Lemma upsert_edits g o now id address platform (verified : bool) m :
  (verified = true -> vouches id o) ->
  edits (changes_by g o) m (Members.mesh_upsert order now id address platform verified m).1.
Proof. intros Hv. apply mesh_upsert_edits; [|auto]. intros old. destruct verified; [left; by apply Hv|auto]. Qed.

Lemma add_peer_edits now p m : edits (changes_by (cm_gate m) (AddPeer p)) m (Members.add_peer order now p m).1.1.
Proof.
  unfold Members.add_peer. match goal with |- context [Members.ask now ?a ?c m] => pose proof (ask_same now a c m (changes_by (cm_gate m) (AddPeer p))) as Ha;
    destruct (Members.ask now a c m) as [[m0 au] denied] end. cbn in Ha.
  destruct denied; [done|]. destruct (RL.check _ _ _) as [l ok].
  assert (edits (changes_by (cm_gate m) (AddPeer p)) m (Members.with_limiter l m0)) as Hl by (eapply rtc_r; [exact Ha|apply edit_same; try done; by left]).
  destruct ok; [|done]. cbn [negb]. destruct (cm_peers (Members.with_limiter l m0) !! pn_id p) eqn:E; [done|].
  destruct (Members.is_full _) eqn:Ef; [done|]. cbn [fst]. apply persist_edits. eapply rtc_r; [exact Hl|].
  apply edit_new; [done..|]. by left.
Qed.

(** A peer that leaves is removed, unless the gate keeps it, marked. *)
Lemma left_edits now id m :
  edits (changes_by (cm_gate m) (MeshEvent (EvLeft id))) m (Members.apply_mesh_peer_event order now (EvLeft id) m).1.1.
Proof.
  cbn. destruct (cm_peers m !! id) as [p|] eqn:E; [|apply rtc_refl]. unfold Members.update_state. rewrite E.
  set (m1 := Members.persist order _). unfold Members.remove_peer.
  match goal with |- context [Members.ask now ?a ?c m1] => pose proof (ask_same now a c m1 (changes_by (cm_gate m) (MeshEvent (EvLeft id)))) as Ha;
    pose proof (ask_denied now c m1) as Hd; pose proof (ask_fields now a c m1) as (Hc & Hp & Hpath & Hfile & Hg);
    destruct (Members.ask now a c m1) as [[m2 au] denied] end. cbn in *.
  pose proof (persist_fields (Members.with_peers (<[id := with_state Left p]> (cm_peers m)) m)) as (Hc1 & Hp1 & Hpath1 & Hg1 & _). cbn in *. fold m1 in Hc1, Hp1, Hpath1, Hg1. rewrite Hg1 in Hd, Hg.
  destruct denied.
  - cbn. etrans; [|exact Ha]. subst m1. eapply put_persist; [apply rtc_refl|done|done|]. cbn. right. right. by split; [apply Hd|].
  - rewrite Hp, Hp1, lookup_insert_eq. cbn. rewrite delete_insert_eq.
    eapply rtc_l; [apply (edit_del _ m id)|]. eapply rtc_l; [apply edit_persist|]. apply rtc_once.
    unfold Members.persist. cbn. rewrite Hpath, Hpath1. cbn. destruct (persist_path m) eqn:Ep; cbn.
    + apply edit_same; cbn; try done; [congruence|]. unfold Members.local_node_id. cbn. by rewrite Hc, Hc1.
    + apply edit_same; cbn; try congruence. rewrite Hfile. subst m1. unfold Members.persist. cbn. by rewrite Ep.
Qed.

Lemma event_edits now e m : edits (changes_by (cm_gate m) (MeshEvent e)) m (Members.apply_mesh_peer_event order now e m).1.1.
Proof.
  destruct e as [id a pl v|id|id|id|id|id a v].
  - cbn. pose proof (upsert_edits (cm_gate m) (MeshEvent (EvJoined id a pl v)) now id a pl v m) as Hu.
    destruct (Members.mesh_upsert _ _ _ _ _ _ m). apply Hu. by intros ->.
  - apply left_edits.
  - cbn. destruct (cm_peers m !! id) as [p|] eqn:E.
    + case_bool_decide as Hu; [apply rtc_refl|]. pose proof (heartbeat_edits (changes_by (cm_gate m) (MeshEvent (EvAlive id))) now id m) as Hh.
      destruct (Members.heartbeat now id m) as [m1 r] eqn:Eh. cbn in *. unfold Members.get_peer.
      destruct (cm_peers m1 !! id) as [p1|] eqn:E1; [|apply Hh; auto]. destruct (_ && _) eqn:Ec; [|apply Hh; auto].
      apply andb_prop in Ec as [_ Hun]. pose proof (update_state_edits (changes_by (cm_gate m) (MeshEvent (EvAlive id))) id Active m1) as Hs.
      destruct (Members.update_state _ _ _ m1) as [[m2 au] r2]. cbn in *. etrans; [apply Hh; auto|apply Hs].
      intros p2 Hp2. rewrite E1 in Hp2. injection Hp2 as <-. apply guarded_down. by case_bool_decide.
    + pose proof (upsert_edits (cm_gate m) (MeshEvent (EvAlive id)) now id None None false m) as Hu.
      destruct (Members.mesh_upsert _ _ _ _ _ _ m). by apply Hu.
  - cbn. destruct (cm_peers m !! id) as [p|] eqn:E; [|apply rtc_refl]. case_bool_decide as Hu; [apply rtc_refl|].
    pose proof (update_state_edits (changes_by (cm_gate m) (MeshEvent (EvSuspect id))) id Suspect m) as Hs.
    destruct (Members.update_state _ _ _ m) as [[m2 au] r2]. apply Hs. intros p'. rewrite E. intros [= <-]. auto.
  - cbn. destruct (cm_peers m !! id) as [p|] eqn:E; [|apply rtc_refl]. case_bool_decide as Hu.
    + pose proof (remove_peer_edits (changes_by (cm_gate m) (MeshEvent (EvUnreachable id))) now id m) as Hr.
      by destruct (Members.remove_peer _ _ _ m) as [[m2 au] r2].
    + pose proof (update_state_edits (changes_by (cm_gate m) (MeshEvent (EvUnreachable id))) id Unreachable m) as Hs.
      destruct (Members.update_state _ _ _ m) as [[m2 au] r2]. apply Hs. intros p'. rewrite E. intros [= <-]. auto.
  - cbn. pose proof (upsert_edits (cm_gate m) (MeshEvent (EvRecovered id a v)) now id a None v m) as Hu.
    destruct (Members.mesh_upsert _ _ _ _ _ _ m). apply Hu. by intros ->.
Qed.

Lemma step_edits now o m : o <> Restart -> edits (changes_by (cm_gate m) o) m (member_step now o m).1.
Proof.
  intros Ho. destruct o as [p|id|id s|id|e| |t u r|a|]; cbn [member_step]; [..|done].
  - apply add_peer_edits.
  - apply remove_peer_edits.
  - apply update_state_edits. intros p _. by left.
  - cbn [fst]. apply heartbeat_edits; auto.
  - apply event_edits.
  - unfold Members.reap, Members.expire_unverified, Members.expire_stale.
    pose proof (fun ids => remove_all_edits (changes_by (cm_gate m) Reap) now ids m) as H1.
    match goal with |- context [Members.remove_all order now ?ids m] => specialize (H1 ids); destruct (Members.remove_all order now ids m) as [[m1 au1] n1] end.
    pose proof (expire_stale_edits (changes_by (cm_gate m) Reap) now (utc now) STALE_UNREACHABLE_AFTER STALE_REMOVE_AFTER m1) as H2.
    destruct (Members.expire_stale_at _ _ _ _ _ m1) as [[m2 au2] n2]. cbn in *. etrans; [exact H1|]. apply H2. auto.
  - apply expire_stale_edits. auto.
  - apply remove_all_edits.
Qed.

(** *** The invariant *)

Lemma elem_of_order ps id p : (id, p) ∈ order ps <-> ps !! id = Some p.
Proof using order_perm. rewrite order_perm. apply elem_of_map_to_list. Qed.

(** What [persist] writes. *)
Definition listing (local : string) (ps : gmap string PeerNode) : list PeerNode :=
  snd <$> filter (fun e : string * PeerNode => e.1 <> local) (order ps).

Lemma elem_of_listing local ps p :
  (forall id p, ps !! id = Some p -> pn_id p = id) -> p ∈ listing local ps <-> ps !! pn_id p = Some p /\ pn_id p <> local.
Proof using order_perm.
  intros Hids. unfold listing. rewrite list_elem_of_fmap. split.
  - intros ([id q] & -> & [Hne Hin]%list_elem_of_filter). cbn in *. apply elem_of_order in Hin. by rewrite (Hids id q Hin).
  - intros [Hp Hne]. exists (pn_id p, p). split; [done|]. apply list_elem_of_filter. by rewrite elem_of_order.
Qed.

Lemma listing_ids local ps :
  (forall id p, ps !! id = Some p -> pn_id p = id) ->
  pn_id <$> listing local ps = fst <$> filter (fun e : string * PeerNode => e.1 <> local) (order ps).
Proof using order_perm.
  intros Hids. unfold listing. rewrite <- list_fmap_compose. apply list_fmap_ext. intros i [id p] Hi. cbn.
  apply Hids, elem_of_order. apply list_elem_of_lookup_2 in Hi. by apply list_elem_of_filter in Hi as [_ ?].
Qed.

Lemma persist_file m :
  peers_file (Members.persist order m) = if persist_path m then Some (listing (Members.local_node_id m) (cm_peers m)) else peers_file m.
Proof. unfold Members.persist. by destruct (persist_path m). Qed.

Lemma persist_wf m : members_wf m -> members_wf (Members.persist order m).
Proof using order_perm.
  intros [Hids Hb Hf]. destruct (persist_fields m) as (Hc & Hp & Hpath & _). split.
  - by rewrite Hp.
  - by rewrite Hc, Hp.
  - unfold Members.local_node_id. rewrite Hc, persist_file. intros listed. destruct (persist_path m); [|apply Hf].
    intros [= <-]. rewrite listing_ids by done. split; [apply NoDup_fmap_filter; rewrite order_perm; apply NoDup_fst_map_to_list|].
    split; [apply Forall_forall; intros p Hin; by apply elem_of_listing in Hin as [_ ?]|].
    intros Hmax. destruct Hb as [_ Hb]. specialize (Hb Hmax). unfold lenN, listing. rewrite length_fmap.
    match goal with |- context [filter ?P ?l] => pose proof (filter_length_le P l) as Hle end.
    pose proof (Permutation_length (order_perm (cm_peers m))) as Hl. rewrite length_map_to_list in Hl. lia.
Qed.

Lemma put_wf m id p :
  members_wf m -> pn_id p = id -> is_Some (cm_peers m !! id) \/ Members.is_full m = false ->
  members_wf (Members.with_peers (<[id := p]> (cm_peers m)) m).
Proof.
  intros [Hids [Hmax Hb] Hf] Hid Hroom. split; cbn; [| |done].
  - intros id' p'. rewrite lookup_insert. case_decide; [by intros [= <-]; subst|apply Hids].
  - split; [done|]. intros Hpos. specialize (Hb Hpos). destruct (cm_peers m !! id) as [q|] eqn:E.
    + by rewrite map_size_insert_Some by eauto.
    + rewrite map_size_insert_None by done. destruct Hroom as [[? ?]|Hfull]; [done|].
      unfold Members.is_full in Hfull. rewrite N.mod_small in Hfull by lia.
      destruct (N.ltb_spec 0 (max_nodes (cm_config m))); [|lia]. cbn in Hfull. apply N.leb_gt in Hfull. lia.
Qed.

Lemma edit_wf R m m' : edit R m m' -> members_wf m -> members_wf m'.
Proof using order_perm.
  destruct 1 as [m m' Hc Hp Hpath Hfile _|m|m id p p' Hp Hid _|m p Hp Hfull _|m id]; intros Hwf.
  - destruct Hwf as [Hids Hb Hf]. split; unfold Members.local_node_id; rewrite ?Hc, ?Hp, ?Hfile; done.
  - by apply persist_wf.
  - apply put_wf; [done| |left; eauto]. rewrite Hid. by apply (wf_ids m).
  - apply put_wf; [done..|by right].
  - destruct Hwf as [Hids [Hmax Hb] Hf]. split; cbn; [| |done].
    + intros i q [_ Hq]%lookup_delete_Some. by apply Hids.
    + split; [done|]. intros Hpos. specialize (Hb Hpos). pose proof (size_delete_le (cm_peers m) id). lia.
Qed.

(** Reading the file back. *)
Definition loaded (kept : list PeerNode) : gmap string PeerNode := foldl (fun ps p => <[pn_id p := p]> ps) ∅ kept.

Lemma load_fold kept (ps : gmap string PeerNode) :
  NoDup (pn_id <$> kept) ->
  (forall id q, foldl (fun ps p => <[pn_id p := p]> ps) ps kept !! id = Some q <->
     (q ∈ kept /\ pn_id q = id) \/ (~ id ∈ (pn_id <$> kept) /\ ps !! id = Some q)) /\
  (size (foldl (fun ps p => <[pn_id p := p]> ps) ps kept) <= size ps + length kept)%nat.
Proof.
  revert ps. induction kept as [|p kept IH]; intros ps Hd; [split; [|cbn; lia]|].
  { intros id q. cbn. split; [intros Hq; right; split; [apply not_elem_of_nil|done]|by intros [[?%not_elem_of_nil _]|[_ ?]]]. }
  apply NoDup_cons in Hd as [Hn Hd]. cbn [foldl]. destruct (IH (<[pn_id p := p]> ps) Hd) as [Hl Hs]. split.
  - intros id q. rewrite Hl, lookup_insert_Some, fmap_cons, not_elem_of_cons, elem_of_cons. split.
    + intros [[Hq Hid]|[Hk [[Hid ->]|[Hne Hq]]]]; [by auto|by auto|]. right. split; [split; [congruence|done]|done].
    + intros [[[->|Hq] Hid]|[[Hne Hk] Hq]]; [|by auto|].
      * right. subst id. split; [done|]. by left.
      * right. split; [done|]. right. split; [congruence|done].
  - pose proof (size_insert_le ps (pn_id p) p). cbn. lia.
Qed.

Lemma loaded_lookup kept : NoDup (pn_id <$> kept) ->
  (forall id q, loaded kept !! id = Some q <-> q ∈ kept /\ pn_id q = id) /\ (size (loaded kept) <= length kept)%nat.
Proof.
  intros Hd. unfold loaded. destruct (load_fold kept ∅ Hd) as [Hl Hs]. split; [|by rewrite map_size_empty in Hs].
  intros id q. rewrite Hl, lookup_empty. split; [by intros [|[_ ?]]|by left].
Qed.

(** The membership a restart starts from, before the file is pruned. *)
Definition rehydrated (now : Now) m (listed : list PeerNode) : ClusterMembership G :=
  mkMembership (cm_config m)
    (loaded (filter (fun p => Members.keep_on_load (Members.local_node_id m) (utc now) p = true) listed))
    (RL.new (peer_add_rate_config (cm_config m))) true (Some listed) false (cm_chain m) (cm_gate m).

Lemma restart_cases now m R :
  (exists path, restart now m = mkMembership (cm_config m) ∅ (RL.new (peer_add_rate_config (cm_config m))) path None false (cm_chain m) (cm_gate m))
  \/ (exists listed, persist_path m = true /\ peers_file m = Some listed /\ edits R (rehydrated now m listed) (restart now m) /\
                    cm_peers (restart now m) = cm_peers (rehydrated now m listed)).
Proof.
  unfold restart, Members.with_persist_path. destruct (persist_path m); [|left; by exists false].
  destruct (peers_file m) as [listed|]; [right; exists listed|left; by exists true].
  split; [done|]. split; [done|]. destruct (existsb _ listed).
  - change (edits R (rehydrated now m listed) (Members.persist order (rehydrated now m listed)) /\
            cm_peers (Members.persist order (rehydrated now m listed)) = cm_peers (rehydrated now m listed)).
    split; [apply persist_edits, rtc_refl|by destruct (persist_fields (rehydrated now m listed)) as (_ & -> & _)].
  - split; [apply rtc_refl|done].
Qed.

Lemma rehydrated_wf now m listed : members_wf m -> peers_file m = Some listed -> members_wf (rehydrated now m listed).
Proof.
  intros [_ [Hmax Hb] Hf] Hl. destruct (Hf listed Hl) as (Hd & Hloc & Hlen).
  pose proof (NoDup_fmap_filter (fun p => Members.keep_on_load (Members.local_node_id m) (utc now) p = true) pn_id listed Hd) as Hd'.
  destruct (loaded_lookup _ Hd') as [Hlook Hsize]. split; cbn.
  - intros id p Hp. by apply Hlook in Hp as [_ ?].
  - split; [done|]. intros Hpos. specialize (Hlen Hpos). unfold lenN in Hlen.
    match goal with H : (_ <= length (filter ?P listed))%nat |- _ => pose proof (filter_length_le P listed) end. lia.
  - by intros ? [= <-].
Qed.

Lemma edits_wf R m m' : edits R m m' -> members_wf m -> members_wf m'.
Proof using order_perm. induction 1 as [|m m1 m' He _ IH]; [done|]. intros Hwf. apply IH. by eapply edit_wf. Qed.

Lemma restart_or_not (o : member_op) : o = Restart \/ o <> Restart.
Proof. destruct o; (by left) || (by right). Qed.

Lemma member_step_wf now o m : members_wf m -> members_wf (member_step now o m).1.
Proof using order_perm.
  intros Hwf. destruct (restart_or_not o) as [->|Ho]; [|eapply edits_wf; [by apply step_edits|done]].
  cbn. destruct (restart_cases now m (fun _ _ _ => True)) as [[path ->]|(listed & _ & Hf & He & _)].
  - destruct Hwf as [_ [Hmax _] _]. split; cbn; [by intros ??; rewrite lookup_empty| |done]. split; [done|]. rewrite map_size_empty. lia.
  - eapply edits_wf; [done|]. by apply rehydrated_wf.
Qed.

Lemma run_wf os m : members_wf m -> members_wf (member_run os m).1.
Proof using order_perm.
  revert m. induction os as [|[now o] os IH]; intros m Hwf; [done|]. cbn [member_run].
  pose proof (member_step_wf now o m Hwf) as H1. destruct (member_step now o m) as [m1 au]. specialize (IH m1 H1).
  by destruct (member_run os m1).
Qed.

(** A membership at boot: no peers, and possibly a file to write to. *)
Definition boot (config : ClusterConfig) (path chain : bool) (gate : option G) : ClusterMembership G :=
  mkMembership config ∅ (RL.new (peer_add_rate_config config)) path None false chain gate.

Lemma boot_wf config path chain gate : max_nodes config < u32_mod -> members_wf (boot config path chain gate).
Proof.
  intros Hmax. split; cbn; [by intros ??; rewrite lookup_empty| |done]. split; [done|]. rewrite map_size_empty. lia.
Qed.

(** *** Gates that let peers go

    [Quiet] is a property of gates that being asked preserves and that never
    refuses a removal. *)

Definition lets_peers_go (Quiet : G -> Prop) : Prop :=
  forall g env agent action context, Quiet g ->
    Quiet (check env g agent action context).1.1 /\ is_deny (check env g agent "cluster.peer.remove" context).2 = false.

Definition quiet (Quiet : G -> Prop) (gate : option G) : Prop := match gate with Some g => Quiet g | None => True end.

Lemma quiet_never_denies Quiet gate : lets_peers_go Quiet -> quiet Quiet gate -> ~ removal_denied gate.
Proof. intros HQ Hq (g & env & agent & context & -> & Hd). destruct (HQ g env agent EmptyString context Hq) as [_ H1]. congruence. Qed.

Lemma gate_next_quiet Quiet g g' : lets_peers_go Quiet -> gate_next g g' -> quiet Quiet g -> quiet Quiet g'.
Proof. intros HQ [->|(g0 & env & agent & action & context & -> & ->)] Hq; [done|]. by apply HQ. Qed.

Lemma edits_quiet Quiet R m m' : lets_peers_go Quiet -> edits R m m' -> quiet Quiet (cm_gate m) -> quiet Quiet (cm_gate m').
Proof.
  intros HQ. induction 1 as [|m m1 m' He _ IH]; [done|]. intros Hq. apply IH.
  destruct He as [m m2 ???? Hg|m| | |]; cbn; try done; [by eapply gate_next_quiet|].
  by destruct (persist_fields m) as (_ & _ & _ & -> & _).
Qed.

Lemma step_quiet Quiet now o m :
  lets_peers_go Quiet -> quiet Quiet (cm_gate m) -> quiet Quiet (cm_gate (member_step now o m).1).
Proof using order_perm.
  intros HQ Hq. destruct (restart_or_not o) as [->|Ho]; [|eapply edits_quiet; [done|by apply step_edits|done]].
  cbn. destruct (restart_cases now m (fun _ _ _ => True)) as [[path ->]|(listed & _ & Hf & He & _)]; [done|].
  by eapply edits_quiet.
Qed.

(** *** Unverified peers *)

Definition only_unverified (id : string) m : Prop :=
  (forall p, cm_peers m !! id = Some p -> pn_state p = Unverified) /\
  (forall listed p, peers_file m = Some listed -> p ∈ listed -> pn_id p = id -> pn_state p = Unverified).

Lemma edit_unverified (R : string -> option NodeState -> NodeState -> Prop) id m m' :
  (forall old new, R id old new -> guarded old new) -> edit R m m' -> members_wf m -> only_unverified id m -> only_unverified id m'.
Proof using order_perm.
  intros HR He Hwf [Hp Hf]. destruct He as [m m' Hc Hps Hpath Hfile _|m|m i p p' Hi Hid Hr|m p Hi Hfull Hr|m i].
  - split; rewrite ?Hps, ?Hfile; done.
  - split; [by rewrite (proj1 (proj2 (persist_fields m)))|]. intros listed p. rewrite persist_file.
    destruct (persist_path m); [|apply Hf]. intros [= <-] [Hl _]%elem_of_listing <-; [by apply Hp|apply (wf_ids m Hwf)].
  - split; [|done]. cbn. intros q. rewrite lookup_insert. case_decide as Heq; [|apply Hp]. intros [= <-]. subst i.
    apply HR in Hr. rewrite (Hp p Hi) in Hr. done.
  - split; [|done]. cbn. intros q. rewrite lookup_insert. case_decide as Heq; [|apply Hp]. intros [= <-]. rewrite Heq in Hr.
    by apply HR in Hr.
  - split; [|done]. cbn. intros q [_ Hq]%lookup_delete_Some. by apply Hp.
Qed.

Lemma edits_unverified (R : string -> option NodeState -> NodeState -> Prop) id m m' :
  (forall old new, R id old new -> guarded old new) -> edits R m m' -> members_wf m -> only_unverified id m -> only_unverified id m'.
Proof using order_perm.
  intros HR He. induction He as [|m m1 m' He _ IH]; [done|]. intros Hwf Hu. apply IH; [by eapply edit_wf|by eapply edit_unverified].
Qed.

Lemma step_unverified now o id m :
  ~ removal_denied (cm_gate m) -> ~ vouches id o -> members_wf m -> only_unverified id m -> only_unverified id (member_step now o m).1.
Proof using order_perm.
  intros Hden Hv Hwf Hu. destruct (restart_or_not o) as [->|Ho].
  - cbn. destruct (restart_cases now m (fun _ => guarded)) as [[path ->]|(listed & _ & Hf & He & _)].
    + split; cbn; [by intros ?; rewrite lookup_empty|done].
    + eapply edits_unverified; [|exact He| |]; [done|by apply rehydrated_wf|]. destruct Hu as [_ Hu]. split; cbn.
      * intros p Hp. destruct (wf_file m Hwf listed Hf) as (Hd & _).
        apply (loaded_lookup _ (NoDup_fmap_filter _ pn_id _ Hd)) in Hp as [[_ Hp]%list_elem_of_filter Hid]. by eapply Hu.
      * intros ? p [= <-]. by apply Hu.
  - eapply edits_unverified; [|by apply step_edits|done..]. intros old new [Hv'|[Hg|[Hd _]]]; done.
Qed.

(** Membership stays consistent.  After any sequence of operator calls, mesh
    events, reaper ticks and restarts, with any gate, every peer is held under
    its own id, a configured maximum is respected, and the file lists each
    other node once and never the local one. *)
Theorem cluster_consistent config path chain gate os :
  max_nodes config < u32_mod -> members_wf (member_run os (boot config path chain gate)).1.
Proof using order_perm. intros Hmax. by apply run_wf, boot_wf. Qed.

(** C18: Nobody becomes a member on a claim.  A node that no operator added or
    changed and whose id no join verified is only ever listed as unverified,
    through every sequence of mesh events, heartbeats, reaper ticks and restarts,
    provided the gate does not refuse to remove peers. *)
Theorem unverified_needs_vouching Quiet config path chain gate os id :
  max_nodes config < u32_mod -> lets_peers_go Quiet -> quiet Quiet gate -> (forall now o, (now, o) ∈ os -> ~ vouches id o) ->
  let m := (member_run os (boot config path chain gate)).1 in
  (forall p, Members.get_peer id m = Some p -> pn_state p = Unverified) /\ id ∉ Members.active_peers order m.
Proof using order_perm.
  intros Hmax HQ Hq Hos m. assert (only_unverified id m) as [Hu _].
  { subst m. pose proof (boot_wf config path chain gate Hmax) as Hwf.
    assert (only_unverified id (boot config path chain gate)) as Hu by (split; cbn; [by intros ?; rewrite lookup_empty|done]).
    change (quiet Quiet (cm_gate (boot config path chain gate))) in Hq.
    revert Hwf Hu Hq Hos. generalize (boot config path chain gate). induction os as [|[now o] os IH]; intros m Hwf Hu Hq Hos; [done|].
    cbn [member_run]. pose proof (member_step_wf now o m Hwf) as Hwf1. pose proof (step_quiet Quiet now o m HQ Hq) as Hq1.
    pose proof (step_unverified now o id m (quiet_never_denies _ _ HQ Hq)) as Hu1.
    destruct (member_step now o m) as [m1 au]. cbn in *. specialize (IH m1 Hwf1). destruct (member_run os m1). apply IH; [|done|].
    - apply Hu1; [|done..]. apply (Hos now). left.
    - intros now' o' Hin. apply (Hos now'). by right. }
  split; [exact Hu|]. unfold Members.active_peers. intros ([i p] & Hi & [Hs Hin]%list_elem_of_filter)%list_elem_of_fmap.
  apply elem_of_order in Hin. cbn in *. subst i. specialize (Hu p Hin). congruence.
Qed.

(** Restarting brings the members back.  A node that restarts on the file
    its predecessor wrote holds exactly the peers of the predecessor, less the
    local entry, the ids of the old format and the removable peers not heard
    for a day. *)
Theorem restart_round_trip m now :
  members_wf m -> persist_path m = true ->
  cm_peers (restart now (Members.persist order m)) =
  filter (fun e => Members.keep_on_load (Members.local_node_id m) (utc now) e.2 = true) (cm_peers m).
Proof using GB order_perm.
  intros Hwf Hpath. pose proof (persist_wf m Hwf) as Hwf'. pose proof (wf_ids m Hwf) as Hids.
  destruct (persist_fields m) as (Hc & _ & Hpath' & _).
  pose proof (persist_file m) as Hfile. rewrite Hpath in Hfile. set (m' := Members.persist order m) in *.
  assert (Members.local_node_id m' = Members.local_node_id m) as Hloc by (unfold Members.local_node_id; by rewrite Hc).
  destruct (restart_cases now m' (fun _ _ _ => True)) as [[path Hr]|(listed & _ & Hl & _ & ->)].
  { revert Hr. unfold restart, Members.with_persist_path. rewrite Hpath', Hpath, Hfile. intros Hr. exfalso.
    apply (f_equal peers_file) in Hr. revert Hr. destruct (existsb _ _); [rewrite persist_file|]; done. }
  rewrite Hfile in Hl. injection Hl as <-. destruct (wf_file m' Hwf' _ Hfile) as (Hd & _). cbn. rewrite Hloc.
  apply map_eq. intros id. apply option_eq. intros p.
  rewrite (proj1 (loaded_lookup _ (NoDup_fmap_filter _ pn_id _ Hd))), map_lookup_filter_Some, list_elem_of_filter, elem_of_listing by done. cbn. split.
  - intros ((Hk & Hp & _) & <-). done.
  - intros [Hp Hk]. rewrite (Hids _ _ Hp). split; [|done]. split; [done|]. split; [done|].
    unfold Members.keep_on_load in Hk. apply andb_prop in Hk as [[Hk _]%andb_prop _]. rewrite (Hids _ _ Hp) in Hk.
    by destruct (String.eqb_spec id (Members.local_node_id m)).
Qed.

(** *** Reaping *)

Lemma remove_peer_effect Quiet now id m : lets_peers_go Quiet -> quiet Quiet (cm_gate m) ->
  let '(m', _, r) := Members.remove_peer order now id m in
  cm_peers m' = delete id (cm_peers m) /\ is_ok r = bool_decide (is_Some (cm_peers m !! id)) /\ quiet Quiet (cm_gate m').
Proof.
  intros HQ Hq. pose proof (edits_quiet Quiet _ _ _ HQ (remove_peer_edits (fun _ _ _ => True) now id m) Hq) as Hq'. revert Hq'.
  unfold Members.remove_peer. match goal with |- context [Members.ask now ?a ?c m] => pose proof (ask_denied now c m) as Hden;
    pose proof (ask_fields now a c m) as (_ & Hp & _); destruct (Members.ask now a c m) as [[m0 au] denied] end. cbn in *.
  destruct denied; [by destruct (quiet_never_denies _ _ HQ Hq); apply Hden|]. rewrite Hp. destruct (cm_peers m !! id) eqn:E.
  - intros Hq'. split; [|done]. rewrite (proj1 (proj2 (persist_fields _))). done.
  - intros Hq'. split; [|done]. rewrite Hp. symmetry. by apply delete_id.
Qed.

Lemma remove_all_effect Quiet now ids m : lets_peers_go Quiet -> quiet Quiet (cm_gate m) -> NoDup ids ->
  (forall id, id ∈ ids -> is_Some (cm_peers m !! id)) ->
  let '(m', _, n) := Members.remove_all order now ids m in
  (forall id, cm_peers m' !! id = if decide (id ∈ ids) then None else cm_peers m !! id) /\ n = lenN ids.
Proof.
  intros HQ. revert m. induction ids as [|id ids IH]; intros m Hq Hnd Hin; [done|].
  apply NoDup_cons in Hnd as [Hn Hnd]. cbn [Members.remove_all]. pose proof (remove_peer_effect Quiet now id m HQ Hq) as H1.
  destruct (Members.remove_peer _ _ _ m) as [[m1 au] r]. destruct H1 as (Hp & Hr & Hq1). specialize (IH m1 Hq1 Hnd).
  destruct (Members.remove_all _ _ _ m1) as [[m2 au2] n]. destruct IH as [IH ->].
  { intros i Hi. rewrite Hp, lookup_delete_ne by congruence. apply Hin. by right. }
  rewrite Hr, bool_decide_true by (apply Hin; left). split; [|unfold lenN; cbn; lia].
  intros i. rewrite IH, Hp. destruct (decide (i = id)) as [->|Hne].
  - rewrite decide_False by done. rewrite decide_True by left. apply lookup_delete_eq.
  - rewrite lookup_delete_ne by done.
    destruct (decide (i ∈ ids)); [rewrite decide_True by by right|rewrite decide_False by (rewrite elem_of_cons; tauto)]; done.
Qed.

Lemma demote_all_effect ids m id :
  cm_peers (Members.demote_all order ids m).1 !! id =
  if decide (id ∈ ids) then with_state Unreachable <$> (cm_peers m !! id) else cm_peers m !! id.
Proof.
  revert m. induction ids as [|i ids IH]; intros m; [done|]. cbn [Members.demote_all].
  pose proof (update_state_peers i Unreachable m) as Hu. destruct (Members.update_state _ _ _ m) as [[m1 au] r]. specialize (IH m1).
  destruct (Members.demote_all _ _ m1) as [m2 au2]. cbn in *. rewrite IH, Hu, lookup_alter. destruct (decide (i = id)) as [->|Hne].
  - rewrite (decide_True (P := id ∈ id :: ids)) by left. destruct (decide (id ∈ ids)); [|done]. by destruct (cm_peers m !! id).
  - destruct (decide (id ∈ ids)); [rewrite decide_True by by right|rewrite decide_False by (rewrite elem_of_cons; intros [|]; congruence)]; done.
Qed.

Lemma demote_all_gate ids m : cm_gate (Members.demote_all order ids m).1 = cm_gate m.
Proof.
  revert m. induction ids as [|i ids IH]; intros m; [done|]. cbn [Members.demote_all]. unfold Members.update_state at 1.
  destruct (cm_peers m !! i) as [p|].
  - specialize (IH (Members.persist order (Members.with_peers (<[i := with_state Unreachable p]> (cm_peers m)) m))).
    destruct (Members.demote_all _ _ _). cbn in *. rewrite IH. by destruct (persist_fields (Members.with_peers (<[i := with_state Unreachable p]> (cm_peers m)) m)) as (_ & _ & _ & -> & _).
  - specialize (IH m). by destruct (Members.demote_all _ _ m).
Qed.

Lemma elem_of_picked (f : string * PeerNode -> bool) ps id :
  id ∈ fst <$> filter (fun e => f e = true) (order ps) <-> exists p, ps !! id = Some p /\ f (id, p) = true.
Proof using order_perm.
  rewrite list_elem_of_fmap. split.
  - intros ([i p] & -> & [Hf Hin]%list_elem_of_filter). apply elem_of_order in Hin. eauto.
  - intros (p & Hp & Hf). exists (id, p). split; [done|]. apply list_elem_of_filter. by rewrite elem_of_order.
Qed.

(** The reaper does what its two ages say.  Unless the gate refuses
    removals: the local node is untouched; a removable peer silent for longer
    than the removal age is gone; any other peer that was live and silent for
    longer than the unreachable age is marked unreachable; every other record is
    unchanged; and the number returned is the number removed. *)
Theorem stale_reap_exact Quiet now t u r m :
  lets_peers_go Quiet -> quiet Quiet (cm_gate m) ->
  let '(m', _, removed) := Members.expire_stale_at order now t u r m in
  (forall id, Members.get_peer id m' =
     match Members.get_peer id m with
     | None => None
     | Some p =>
         if Members.to_remove (Members.local_node_id m) t r (id, p) then None
         else if Members.to_demote (Members.local_node_id m) t u r (id, p) then Some (with_state Unreachable p)
         else Some p
     end) /\
  removed = lenN (filter (fun e => Members.to_remove (Members.local_node_id m) t r e = true) (map_to_list (cm_peers m))).
Proof using order_perm.
  intros HQ Hq. unfold Members.expire_stale_at. set (local := Members.local_node_id m).
  set (remove := fst <$> filter (fun e => Members.to_remove _ _ _ e = true) _).
  set (demote := fst <$> filter (fun e => Members.to_demote _ _ _ _ e = true) _).
  pose proof (demote_all_effect demote m) as Hdem. pose proof (demote_all_gate demote m) as Hg.
  destruct (Members.demote_all _ _ m) as [m1 au1]. cbn [fst] in Hdem, Hg. rewrite <- Hg in Hq.
  pose proof (remove_all_effect Quiet now remove m1 HQ Hq) as Hrem. destruct (Members.remove_all _ _ _ m1) as [[m2 au2] n].
  destruct Hrem as [Hrem ->].
  { apply NoDup_fmap_filter. rewrite order_perm. apply NoDup_fst_map_to_list. }
  { intros id (p & Hp & _)%elem_of_picked. rewrite Hdem, Hp. destruct (decide _); eauto. }
  assert (forall id, Members.get_peer id (if heartbeat_dirty m2 then Members.persist order (Members.with_dirty false m2) else m2) = cm_peers m2 !! id) as Hget.
  { intros id. unfold Members.get_peer. destruct (heartbeat_dirty m2); [|done]. by rewrite (proj1 (proj2 (persist_fields _))). }
  split.
  - intros id. rewrite Hget, Hrem, Hdem. unfold Members.get_peer. destruct (cm_peers m !! id) as [p|] eqn:E.
    + destruct (Members.to_remove local t r (id, p)) eqn:Er; [rewrite decide_True by (apply elem_of_picked; eauto); done|].
      rewrite decide_False by (intros (q & Hq' & Hr)%elem_of_picked; congruence).
      destruct (Members.to_demote local t u r (id, p)) eqn:Ed; [rewrite decide_True by (apply elem_of_picked; eauto); done|].
      rewrite decide_False by (intros (q & Hq' & Hr)%elem_of_picked; congruence). done.
    + by destruct (decide (id ∈ remove)), (decide (id ∈ demote)).
  - unfold lenN, remove. rewrite length_fmap. f_equal.
    apply Permutation_length. by rewrite order_perm.
Qed.

End Machine.

(** ** Examples *)

(** A gate that refuses a list of actions. *)
Record Refusing := mkRefusing { refused : list string }.

#[global] Instance refusing_gate : GateBackend Refusing := {
  check env g agent action context := (g, [], if bool_decide (action ∈ refused g) then Deny "refused" None else Permit None);
  check_teardown env g agent action context := (g, [], Permit None)
}.

Definition lets_go (g : Refusing) : Prop := "cluster.peer.remove"%string ∉ refused g.

Lemma refusing_lets_go : lets_peers_go lets_go.
Proof. intros g env agent action context Hg. split; [done|]. cbn. by rewrite bool_decide_eq_false_2. Qed.

Definition demo_now (t : Z) : Now := mkNow t (Z.to_N t) (mkGateEnv (PT.new 4) 0 None).

Definition demo_config : ClusterConfig := default_config "local".

Definition operator_peer (id : string) : PeerNode := mkPeerNode id id Edge Active (Some "10.0.0.9:9489") 0 0 ["mesh"]%string ∅.

Definition demo_trace : list (Now * member_op) :=
  [(demo_now 1, AddPeer (operator_peer "op")); (demo_now 2, MeshEvent (EvJoined "mesh" (Some "10.0.0.7:1") (Some "edge") true));
   (demo_now 3, MeshEvent (EvJoined "claim" None None false)); (demo_now 4, MeshEvent (EvAlive "claim"));
   (demo_now 5, MeshEvent (EvSuspect "claim")); (demo_now 6, BeatOf "claim"); (demo_now 7, Restart);
   (demo_now 8, MeshEvent (EvLeft "claim")); (demo_now 9, MeshEvent (EvAlive "claim"))]%string.

Definition demo_boot (refused : list string) : ClusterMembership Refusing := boot demo_config true false (Some (mkRefusing refused)).

Example demo_members :
  (fun e => (e.1, pn_state e.2)) <$> map_to_list (cm_peers (member_run map_to_list demo_trace (demo_boot [])).1)
  = [("op", Active); ("claim", Unverified); ("mesh", Active)]%string.
Proof. vm_compute. reflexivity. Qed.

Lemma cluster_consistent_witness : members_wf (member_run map_to_list demo_trace (demo_boot [])).1.
Proof. apply cluster_consistent; [intros ps; reflexivity|vm_compute; reflexivity]. Defined.

Lemma unverified_needs_vouching_witness :
  let m := (member_run map_to_list demo_trace (demo_boot [])).1 in
  (forall p, Members.get_peer "claim" m = Some p -> pn_state p = Unverified) /\ ("claim"%string ∉ Members.active_peers map_to_list m).
Proof.
  apply (unverified_needs_vouching map_to_list (fun ps => reflexivity _) lets_go); [vm_compute; reflexivity|apply refusing_lets_go|apply not_elem_of_nil|].
  intros now o Hin. repeat (apply elem_of_cons in Hin as [Hin|Hin]; [injection Hin as -> ->; intros Hv; exact Hv || discriminate Hv|]). by apply not_elem_of_nil in Hin.
Defined.

(** The proviso is needed: a gate that refuses to remove peers leaves a departed
    peer in the table as [Left], from where the next sign of life activates it,
    although no join ever verified its id. *)
Lemma left_then_alive_activates :
  let m := (member_run map_to_list demo_trace (demo_boot ["cluster.peer.remove"]%string)).1 in
  pn_state <$> Members.get_peer "claim" m = Some Active.
Proof. vm_compute. reflexivity. Qed.

Definition demo_m : ClusterMembership Refusing := (member_run map_to_list demo_trace (demo_boot [])).1.

Lemma restart_round_trip_witness :
  cm_peers (restart map_to_list (demo_now 10) (Members.persist map_to_list demo_m)) =
  filter (fun e => Members.keep_on_load (Members.local_node_id demo_m) (utc (demo_now 10)) e.2 = true) (cm_peers demo_m).
Proof.
  apply restart_round_trip; [intros ps; reflexivity| |vm_compute; reflexivity].
  apply run_wf; [intros ps; reflexivity|]. apply boot_wf. vm_compute. reflexivity.
Defined.

Lemma stale_reap_exact_witness :
  let '(m', _, removed) := Members.expire_stale_at map_to_list (demo_now 10) (secs 90000) (secs 600) (secs 86400) demo_m in
  (forall id, Members.get_peer id m' =
     match Members.get_peer id demo_m with
     | None => None
     | Some p =>
         if Members.to_remove (Members.local_node_id demo_m) (secs 90000) (secs 86400) (id, p) then None
         else if Members.to_demote (Members.local_node_id demo_m) (secs 90000) (secs 600) (secs 86400) (id, p) then Some (with_state Unreachable p)
         else Some p
     end) /\
  removed = lenN (filter (fun e => Members.to_remove (Members.local_node_id demo_m) (secs 90000) (secs 86400) e = true) (map_to_list (cm_peers demo_m))).
Proof.
  apply (stale_reap_exact map_to_list (fun ps => reflexivity _) lets_go); [apply refusing_lets_go|apply not_elem_of_nil].
Defined.

Example stale_reap_demo :
  let '(m', _, removed) := Members.expire_stale_at map_to_list (demo_now 10) (secs 90000) (secs 600) (secs 86400) demo_m in
  ((fun e => (e.1, pn_state e.2)) <$> map_to_list (cm_peers m'), removed) = ([("op", Unreachable)]%string, 2).
Proof. vm_compute. reflexivity. Qed.

(** ** What the pairing window lets in *)

(** [Reboot] is a new process that loads the file. *)
Inductive pairing_op := OpenWindow (at_ duration : N) | Accept (at_ : N) (peer_id : string) | Unpair (peer_id : string) | Reboot.

#[global] Instance pairing_op_eq_dec : EqDecision pairing_op.
Proof. solve_decision. Defined.

Definition pairing_step (g : PairingGate) (o : pairing_op) : PairingGate :=
  match o with
  | OpenWindow t d => Pairing.open_pairing_window t d g
  | Accept t id => (Pairing.should_accept_peer t id g).1
  | Unpair id => (Pairing.unpair id g).1
  | Reboot => (Pairing.load (Pairing.new (paired_file g))).1
  end.

Definition pairing_run (os : list pairing_op) : PairingGate := foldl pairing_step (Pairing.new None) os.

Definition keeps_window (o : pairing_op) : Prop := match o with OpenWindow _ _ | Reboot => False | _ => True end.

(** The last window opened since the last reboot reaches beyond [now]. *)
Definition window_open (os : list pairing_op) (now : N) : Prop :=
  exists a t d b, os = a ++ OpenWindow t d :: b /\ now < t + d /\ Forall keeps_window b.

(** The peer was let in while a window was open, and not unpaired since. *)
Definition paired_in (os : list pairing_op) (id : string) : Prop :=
  exists a t b, os = a ++ Accept t id :: b /\ window_open a t /\ Unpair id ∉ b.

Lemma window_open_snoc os o now :
  window_open (os ++ [o]) now <->
  match o with OpenWindow t d => now < t + d | Reboot => False | _ => window_open os now end.
Proof.
  split.
  - intros (a & t & d & b & Heq & Hnow & Hb). destruct b as [|o' b _] using rev_ind.
    + apply app_inj_tail in Heq as [_ ->]. done.
    + rewrite app_comm_cons, app_assoc in Heq. apply app_inj_tail in Heq as [-> ->]. apply Forall_app in Hb as [Hb Ho].
      apply Forall_cons in Ho as [Ho _]. destruct o'; try done; by exists a, t, d, b.
  - intros H. destruct o as [t d|t id|id|].
    + by exists os, t, d, [].
    + destruct H as (a & t' & d & b & -> & Hnow & Hb). exists a, t', d, (b ++ [Accept t id]). split; [by rewrite <- app_assoc|].
      split; [done|]. apply Forall_app. split; [done|]. by repeat constructor.
    + destruct H as (a & t' & d & b & -> & Hnow & Hb). exists a, t', d, (b ++ [Unpair id]). split; [by rewrite <- app_assoc|].
      split; [done|]. apply Forall_app. split; [done|]. by repeat constructor.
    + done.
Qed.

Lemma paired_in_snoc os o id :
  paired_in (os ++ [o]) id <-> (o = Unpair id -> False) /\ (paired_in os id \/ exists t, o = Accept t id /\ window_open os t).
Proof.
  split.
  - intros (a & t & b & Heq & Hw & Hb). destruct b as [|o' b _] using rev_ind.
    + apply app_inj_tail in Heq as [-> ->]. split; [done|]. right. by exists t.
    + rewrite app_comm_cons, app_assoc in Heq. apply app_inj_tail in Heq as [-> ->]. rewrite elem_of_app, list_elem_of_singleton in Hb.
      split; [intros ->; tauto|]. left. exists a, t, b. tauto.
  - intros [Hne [(a & t & b & -> & Hw & Hb)|(t & -> & Hw)]].
    + exists a, t, (b ++ [o]). split; [by rewrite <- app_assoc|]. split; [done|]. rewrite elem_of_app, list_elem_of_singleton. intros [|]; [done|]. by apply Hne.
    + exists os, t, []. split; [done|]. split; [done|]. apply not_elem_of_nil.
Qed.

Lemma pairing_state os :
  let g := pairing_run os in
  (forall now, Pairing.is_pairing_open now g = true <-> window_open os now) /\
  (forall id, id ∈ paired_hosts g <-> paired_in os id) /\ default ∅ (paired_file g) = paired_hosts g.
Proof.
  induction os as [|o os IH] using rev_ind; cbn zeta in *.
  { split; [|split; [|done]].
    - intros now. split; [done|]. intros (a & t & d & b & H & _). by destruct a.
    - intros id. split; [by intros ?%elem_of_empty|]. intros (a & t & b & H & _). by destruct a. }
  unfold pairing_run in *. rewrite foldl_app. cbn [foldl]. set (g := foldl pairing_step _ os) in *. destruct IH as (Hw & Hp & Hf).
  split; [|split].
  - intros now. rewrite window_open_snoc. destruct o as [t d|t id|id|]; cbn [pairing_step].
    + apply N.ltb_lt.
    + unfold Pairing.should_accept_peer. case_bool_decide; [apply Hw|]. destruct (Pairing.is_pairing_open t g); apply Hw.
    + unfold Pairing.unpair. case_bool_decide; apply Hw.
    + unfold Pairing.load, Pairing.new. cbn. by destruct (paired_file g).
  - intros id. rewrite paired_in_snoc, <- Hp. destruct o as [t d|t i|i|]; cbn [pairing_step].
    + cbn. split; [by intros Hx; split; [|left]|]. intros [_ [|(? & ? & _)]]; done.
    + unfold Pairing.should_accept_peer. case_bool_decide as Hi; cbn.
      * split; [by intros Hx; split; [|left]|]. intros [_ [|(t' & [= -> ->] & _)]]; done.
      * specialize (Hw t). destruct (Pairing.is_pairing_open t g); cbn.
        -- rewrite elem_of_union, elem_of_singleton. split.
           ++ intros [->|Hx]; [|by split; [|left]]. split; [done|]. right. exists t. split; [done|by apply Hw].
           ++ intros [_ [|(t' & [= -> ->] & _)]]; auto.
        -- split; [by intros Hx; split; [|left]|]. intros [_ [|(t' & [= -> ->] & Ho)]]; [done|]. apply Hw in Ho. done.
    + unfold Pairing.unpair. case_bool_decide as Hi; cbn.
      * rewrite elem_of_difference, elem_of_singleton. split; [intros [H1 H2]; split; [congruence|by left]|].
        intros [H1 [H2|(? & ? & _)]]; [|done]. split; [done|]. intros ->. by apply H1.
      * split; [intros H1; split; [congruence|by left]|]. intros [_ [|(? & ? & _)]]; done.
    + unfold Pairing.load, Pairing.new. rewrite <- Hf. cbn. destruct (paired_file g); cbn.
      * rewrite elem_of_union. split; [intros [?%elem_of_empty|Hx]; [done|by split; [|left]]|]. intros [_ [|(? & ? & _)]]; [by right|done].
      * split; [by intros ?%elem_of_empty|]. intros [_ [?%elem_of_empty|(? & ? & _)]]; done.
  - destruct o as [t d|t i|i|]; cbn [pairing_step]; [done| | |].
    + unfold Pairing.should_accept_peer. case_bool_decide; [done|]. by destruct (Pairing.is_pairing_open t g).
    + unfold Pairing.unpair. by case_bool_decide.
    + unfold Pairing.load, Pairing.new. cbn. destruct (paired_file g); cbn; [|done]. by rewrite union_empty_l_L.
Qed.

(** A peer is let in exactly when it may be.  Whatever was called before,
    reboots included, a peer is accepted if and only if the pairing window is
    open now, or the peer was accepted in an open window before and has not been
    unpaired since. *)
Theorem pairing_exact os now id :
  (Pairing.should_accept_peer now id (pairing_run os)).2 = true <-> window_open os now \/ paired_in os id.
Proof.
  destruct (pairing_state os) as (Hw & Hp & _). rewrite <- Hw, <- Hp. unfold Pairing.should_accept_peer.
  case_bool_decide as Hi; cbn; [tauto|]. destruct (Pairing.is_pairing_open now _); cbn; intuition.
Qed.

Example pairing_demo :
  let os := [OpenWindow 0 60; Accept 10 "a"; Reboot; Accept 20 "b"]%string in
  ((Pairing.should_accept_peer 100 "a" (pairing_run os)).2, (Pairing.should_accept_peer 30 "b" (pairing_run os)).2) = (true, false).
Proof. vm_compute. reflexivity. Qed.
