(* ===== verification/Delivery.v ===== *)
(** Message delivery around the router: dead_letter.rs (the bounded queue of
    undeliverable messages), reliable_queue.rs (acknowledgements, retries with
    backoff, dead-lettering) and timer.rs (one-shot and repeating timers).
    These modules belong to the feature os-patterns.  Monotonic instants and
    durations are nanoseconds in [N], wall-clock times nanoseconds in [Z]. *)

From Stdlib Require Import Strings.String Floats.SpecFloat.
From S2P Require Import Prelude.
From S2P Require Import Process.
From S2P Require Import Ipc.
Open Scope N_scope.

(** ** dead_letter.rs *)

Inductive DeadLetterReason :=
| TargetNotFound (pid : Pid)
| InboxFull (pid : Pid)
| DeliveryTimeout (duration_ms : N)
| GovernanceDenied (reason : string)
| AgentExited (pid : Pid).

Definition reason_to_string (r : DeadLetterReason) : string :=
  match r with
  | TargetNotFound pid => "target_not_found(pid=" +:+ pretty pid +:+ ")"
  | InboxFull pid => "inbox_full(pid=" +:+ pretty pid +:+ ")"
  | DeliveryTimeout ms => "timeout(" +:+ pretty ms +:+ "ms)"
  | GovernanceDenied reason => "governance_denied(" +:+ reason +:+ ")"
  | AgentExited pid => "agent_exited(pid=" +:+ pretty pid +:+ ")"
  end.

Record DeadLetter := mkLetter {
  dl_message : KernelMessage;
  dl_reason : DeadLetterReason;
  dl_timestamp : Z;
  retry_count : N
}.

Record DeadLetterQueue := mkDlq {
  letters : list DeadLetter;
  max_size : N;
  dlq_chain : bool
}.

Definition DEFAULT_DLQ_CAPACITY : N := 10000.

Module Dlq.

Definition new (max_size : N) : DeadLetterQueue := mkDlq [] max_size false.
Definition with_default_capacity : DeadLetterQueue := new DEFAULT_DLQ_CAPACITY.
Definition with_chain (q : DeadLetterQueue) : DeadLetterQueue := mkDlq (letters q) (max_size q) true.

(** [while letters.len() >= self.max_size { letters.pop_front(); }]: [None] when
    the fuel runs out first. *)
Fixpoint evict (fuel : nat) (max : N) (ls : list DeadLetter) : option (list DeadLetter) :=
  if max <=? lenN ls then match fuel with O => None | S fuel => evict fuel max (tail ls) end
  else Some ls.

Definition push (l : DeadLetter) (q : DeadLetterQueue) : option DeadLetterQueue :=
  ls ← evict (length (letters q)) (max_size q) (letters q);
  Some (mkDlq (ls ++ [l]) (max_size q) (dlq_chain q)).

(** [IpcDeadLetterEvent]; [dbg_str] and [rfc3339] render strings and times. *)
Definition intake_audit (dbg_str : string -> string) (rfc3339 : Z -> string) (now : Z) (m : KernelMessage)
    (r : DeadLetterReason) : AuditReq :=
  mkAudit "ipc" "ipc.dead_letter"
    (Some (JObj [("message_id", JStr (msg_id m)); ("from_pid", json_num (msg_from m));
                 ("target", JStr (target_debug dbg_str (msg_target m)));
                 ("payload_type", JStr (type_name (msg_payload m))); ("reason", JStr (reason_to_string r));
                 ("timestamp", JStr (rfc3339 now))]%string)).

Definition intake (dbg_str : string -> string) (rfc3339 : Z -> string) (now : Z) (m : KernelMessage)
    (r : DeadLetterReason) (q : DeadLetterQueue) : option (DeadLetterQueue * list AuditReq) :=
  let au := if dlq_chain q then [intake_audit dbg_str rfc3339 now m r] else [] in
  q ← push (mkLetter m r now 0) q; Some (q, au).

Definition re_add (l : DeadLetter) (q : DeadLetterQueue) : option DeadLetterQueue := push l q.

Definition len (q : DeadLetterQueue) : N := lenN (letters q).

Definition concerns (pid : Pid) (l : DeadLetter) : bool :=
  match dl_reason l with
  | TargetNotFound p | InboxFull p | AgentExited p => p =? pid
  | _ => match msg_target (dl_message l) with TProcess p => p =? pid | _ => false end
  end.

Definition query_by_target (pid : Pid) (q : DeadLetterQueue) : list DeadLetter :=
  filter (fun l => concerns pid l = true) (letters q).

Definition variant_name (r : DeadLetterReason) : string :=
  match r with
  | TargetNotFound _ => "TargetNotFound" | InboxFull _ => "InboxFull" | DeliveryTimeout _ => "Timeout"
  | GovernanceDenied _ => "GovernanceDenied" | AgentExited _ => "AgentExited"
  end.

Definition query_by_reason (name : string) (q : DeadLetterQueue) : list DeadLetter :=
  filter (fun l => variant_name (dl_reason l) = name) (letters q).

Definition query_by_time_range (since until : Z) (q : DeadLetterQueue) : list DeadLetter :=
  filter (fun l => (since <= dl_timestamp l)%Z /\ (dl_timestamp l <= until)%Z) (letters q).

(** The first letter with the id leaves the queue. *)
Fixpoint take_first (id : string) (ls : list DeadLetter) : option (DeadLetter * list DeadLetter) :=
  match ls with
  | [] => None
  | l :: ls =>
      if String.eqb (msg_id (dl_message l)) id then Some (l, ls)
      else '(x, rest) ← take_first id ls; Some (x, l :: rest)
  end.

Definition take_for_retry (id : string) (q : DeadLetterQueue) : option (DeadLetter * DeadLetterQueue) :=
  '(l, rest) ← take_first id (letters q);
  Some (mkLetter (dl_message l) (dl_reason l) (dl_timestamp l) (wrap_add32 (retry_count l) 1),
        mkDlq rest (max_size q) (dlq_chain q)).

Definition clear (q : DeadLetterQueue) : DeadLetterQueue := mkDlq [] (max_size q) (dlq_chain q).

End Dlq.

(** ** reliable_queue.rs *)

Record ReliableConfig := mkReliable {
  max_retries : N;
  initial_timeout : N;
  max_timeout : N;
  backoff_multiplier : f64
}.

Definition reliable_default : ReliableConfig := mkReliable 3 5000000000 30000000000 (F64.of_Z 2).

Record PendingDelivery := mkPending {
  pd_message : KernelMessage;
  attempts : N;
  first_sent : N;
  last_attempt : N;
  ack_deadline : N
}.

Inductive DeliveryResult :=
| Acknowledged (msg_id : string) (ack_time_ms : N)
| MaxRetriesExceeded (msg_id : string) (attempts : N)
| DeadLettered (msg_id reason : string).

(** The learned policy, when one is installed and trained: from the attempt, the
    age in milliseconds and the queue's depth, a delay and a discard verdict. *)
Definition Policy : Type := N -> N -> N -> N * bool.

Record ReliableQueue := mkRq {
  rq_pending : gmap string PendingDelivery;
  rq_config : ReliableConfig;
  dead_letter : DeadLetterQueue;
  policy : option Policy
}.

(** [Duration::as_secs_f64], [f64::min], [Duration::from_secs_f64] (rounding to
    the nearest nanosecond, ties to even; [None] where it panics). *)
Definition as_secs_f64 (d : N) : f64 :=
  F64.add (F64.of_Z (Z.of_N (d / 1000000000)))
    (F64.div (F64.of_Z (Z.of_N (d mod 1000000000))) (F64.of_Z 1000000000)).

Definition f64_min (a b : f64) : f64 :=
  match a, b with
  | S754_nan, _ => b
  | _, S754_nan => a
  | _, _ => if F64.ltb b a then b else a
  end.

Definition div_half_even (n d : Z) : Z :=
  let q := (n / d)%Z in let r := (n mod d)%Z in
  if (2 * r <? d)%Z then q else if (d <? 2 * r)%Z then (q + 1)%Z else if Z.even q then q else (q + 1)%Z.

Definition from_secs_f64 (f : f64) : option N :=
  match f with
  | S754_zero _ => Some 0
  | S754_finite false m e =>
      let ns := if (0 <=? e)%Z then (Z.pos m * 1000000000 * 2 ^ e)%Z else div_half_even (Z.pos m * 1000000000) (2 ^ (- e)) in
      if (ns <? Z.of_N u64_mod * 1000000000)%Z then Some (Z.to_N ns) else None
  | _ => None
  end.

Module Rq.

Section Rq.
(** [f64::powi] of the platform, and the iteration order of the pending map. *)
Context (powi : f64 -> Z -> f64) (order : gmap string PendingDelivery -> list (string * PendingDelivery)).
Context (dbg_str : string -> string) (rfc3339 : Z -> string).

Definition new (config : ReliableConfig) (dlq : DeadLetterQueue) : ReliableQueue := mkRq ∅ config dlq None.

Definition with_pending (p : gmap string PendingDelivery) (q : ReliableQueue) : ReliableQueue :=
  mkRq p (rq_config q) (dead_letter q) (policy q).

(** [uuid] is the fresh id used when the message has none. *)
Definition register (now : N) (uuid : string) (msg : KernelMessage) (q : ReliableQueue) : ReliableQueue * (string * KernelMessage) :=
  let corr := default uuid (correlation_id msg) in
  let msg := mkMsg (msg_id msg) (msg_from msg) (msg_target msg) (msg_payload msg) (msg_timestamp msg) (Some corr) (trace_id msg) in
  let p := mkPending msg 1 now now (now + initial_timeout (rq_config q)) in
  (with_pending (<[corr := p]> (rq_pending q)) q, (corr, msg)).

(** [first_sent.elapsed().as_millis() as u64] *)
Definition age_ms (now : N) (p : PendingDelivery) : N := ((now - first_sent p) / 1000000) mod u64_mod.

Definition acknowledge (now : N) (corr : string) (q : ReliableQueue) : ReliableQueue * option DeliveryResult :=
  match rq_pending q !! corr with
  | Some p => (with_pending (delete corr (rq_pending q)) q, Some (Acknowledged (msg_id (pd_message p)) (age_ms now p)))
  | None => (q, None)
  end.

(** [as i32] *)
Definition as_i32 (n : N) : Z := let z := Z.of_N (n mod u32_mod) in if (z <? 2147483648)%Z then z else (z - 4294967296)%Z.

Definition compute_next_timeout (q : ReliableQueue) (attempt_idx message_age_ms queue_depth : N) : option N :=
  let c := rq_config q in
  let backoff := F64.mul (as_secs_f64 (initial_timeout c)) (powi (backoff_multiplier c) (as_i32 attempt_idx)) in
  fallback ← from_secs_f64 (f64_min backoff (as_secs_f64 (max_timeout c)));
  match policy q with
  | None => Some fallback
  | Some predict =>
      let '(delay_ms, _) := predict attempt_idx message_age_ms queue_depth in
      Some (N.min delay_ms ((max_timeout c / 1000000) mod u64_mod) * 1000000)
  end.

Definition bump (now : N) (q : ReliableQueue) (p : PendingDelivery) : option PendingDelivery :=
  let n := wrap_add32 (attempts p) 1 in
  t ← compute_next_timeout q (n - 1) (age_ms now p) (N.of_nat (size (rq_pending q)));
  Some (mkPending (pd_message p) n (first_sent p) now (now + t)).

Definition is_late (now : N) (p : PendingDelivery) : bool := ack_deadline p <=? now.

(** [None]: a timeout could not be converted, and the call panicked. *)
Definition check_timeouts (now : N) (q : ReliableQueue) : option (ReliableQueue * list (string * KernelMessage)) :=
  let late := filter (fun e : string * PendingDelivery => is_late now e.2 = true) (order (rq_pending q)) in
  if forallb (fun e : string * PendingDelivery => bool_decide (is_Some (bump now q e.2))) late then
    let step p := if is_late now p then default p (bump now q p) else p in
    Some (with_pending (step <$> rq_pending q) q, (fun e : string * PendingDelivery => (e.1, pd_message e.2)) <$> late)
  else None.

Definition should_discard (q : ReliableQueue) (n message_age_ms queue_depth : N) : bool :=
  let fallback := max_retries (rq_config q) <? n in
  match policy q with
  | None => fallback
  | Some predict => fallback || (predict n message_age_ms queue_depth).2
  end.

Fixpoint bury (now : N) (utc : Z) (ids : list string) (q : ReliableQueue) : option (ReliableQueue * list AuditReq * list DeliveryResult) :=
  match ids with
  | [] => Some (q, [], [])
  | id :: ids =>
      match rq_pending q !! id with
      | None => bury now utc ids q
      | Some p =>
          '(dlq, au) ← Dlq.intake dbg_str rfc3339 utc (pd_message p) (DeliveryTimeout (age_ms now p)) (dead_letter q);
          let q := mkRq (delete id (rq_pending q)) (rq_config q) dlq (policy q) in
          '(q, au', rs) ← bury now utc ids q;
          Some (q, au ++ au', MaxRetriesExceeded (msg_id (pd_message p)) (attempts p) :: rs)
      end
  end.

(** The ids whose delivery is given up. *)
Definition exhausted (now : N) (q : ReliableQueue) : list string :=
  let depth := N.of_nat (size (rq_pending q)) in
  fst <$> filter (fun e : string * PendingDelivery => should_discard q (attempts e.2) (age_ms now e.2) depth = true) (order (rq_pending q)).

Definition expire_max_retries (now : N) (utc : Z) (q : ReliableQueue) : option (ReliableQueue * list AuditReq * list DeliveryResult) :=
  bury now utc (exhausted now q) q.

Definition pending_count (q : ReliableQueue) : N := N.of_nat (size (rq_pending q)).
Definition is_pending (corr : string) (q : ReliableQueue) : bool := bool_decide (is_Some (rq_pending q !! corr)).

Definition cancel (corr : string) (q : ReliableQueue) : ReliableQueue * option KernelMessage :=
  (with_pending (delete corr (rq_pending q)) q, pd_message <$> rq_pending q !! corr).

Definition timeout_for_attempt (q : ReliableQueue) (attempt : N) : option N :=
  compute_next_timeout q attempt 0 (N.of_nat (size (rq_pending q))).

End Rq.

End Rq.

(** ** timer.rs *)

Record TimerEntry := mkTimer {
  tm_id : string;
  owner_pid : Pid;
  fire_at : Z;
  repeat_interval : option N;
  tm_payload : MessagePayload;
  tm_cancelled : bool
}.

Record TimerInfo := mkTimerInfo {
  ti_id : string;
  ti_owner_pid : Pid;
  ti_fire_at : Z;
  repeat_interval_ms : option N;
  ti_cancelled : bool
}.

Record TimerService := mkTimers { timers : gmap string TimerEntry; next_id : N }.

(** [chrono::Duration::from_std(..).unwrap_or_default()]: beyond [i64::MAX]
    milliseconds the duration is zero. *)
Definition chrono_or_zero (d : N) : Z := if d <=? 9223372036854775807 * 1000000 then Z.of_N d else 0%Z.

Module Timers.

Definition new : TimerService := mkTimers ∅ 1.

Definition timer_info (e : TimerEntry) : TimerInfo :=
  mkTimerInfo (tm_id e) (owner_pid e) (fire_at e) ((fun d => (d / 1000000) mod u64_mod) <$> repeat_interval e) (tm_cancelled e).

Definition next_timer_id (s : TimerService) : TimerService * string :=
  (mkTimers (timers s) (wrap_add64 (next_id s) 1), "timer-" +:+ pretty (next_id s)).

(** [create_oneshot] and [create_repeating] differ in the interval they store. *)
Definition create (now : Z) (pid : Pid) (delay : N) (repeat : option N) (payload : MessagePayload) (s : TimerService) : TimerService * string :=
  let '(s, id) := next_timer_id s in
  let entry := mkTimer id pid (now + chrono_or_zero delay) repeat payload false in
  (mkTimers (<[id := entry]> (timers s)) (next_id s), id).

Definition create_oneshot (now : Z) (pid : Pid) (delay : N) (payload : MessagePayload) (s : TimerService) : TimerService * string :=
  create now pid delay None payload s.

Definition create_repeating (now : Z) (pid : Pid) (interval : N) (payload : MessagePayload) (s : TimerService) : TimerService * string :=
  create now pid interval (Some interval) payload s.

Definition cancelled (e : TimerEntry) : TimerEntry :=
  mkTimer (tm_id e) (owner_pid e) (fire_at e) (repeat_interval e) (tm_payload e) true.

Definition cancel (id : string) (s : TimerService) : TimerService * bool :=
  match timers s !! id with
  | Some e => (mkTimers (<[id := cancelled e]> (timers s)) (next_id s), true)
  | None => (s, false)
  end.

Definition cancel_for_pid (pid : Pid) (s : TimerService) : TimerService * N :=
  (mkTimers ((fun e => if owner_pid e =? pid then cancelled e else e) <$> timers s) (next_id s),
   lenN (filter (fun p : string * TimerEntry => owner_pid p.2 = pid) (map_to_list (timers s)))).

Definition remove (id : string) (s : TimerService) : TimerService * option TimerEntry :=
  (mkTimers (delete id (timers s)) (next_id s), timers s !! id).

Definition cleanup_cancelled (s : TimerService) : TimerService * N :=
  (mkTimers (filter (fun p => tm_cancelled p.2 = false) (timers s)) (next_id s),
   lenN (filter (fun p : string * TimerEntry => tm_cancelled p.2 = true) (map_to_list (timers s)))).

Definition info (id : string) (s : TimerService) : option TimerInfo := timer_info <$> timers s !! id.
Definition len (s : TimerService) : N := N.of_nat (size (timers s)).

Definition list_for_pid (order : gmap string TimerEntry -> list (string * TimerEntry)) (pid : Pid) (s : TimerService) : list TimerInfo :=
  timer_info <$> (snd <$> filter (fun p : string * TimerEntry => owner_pid p.2 = pid) (order (timers s))).

Definition is_due (now : Z) (e : TimerEntry) : bool := negb (tm_cancelled e) && (fire_at e <=? now)%Z.

(** The messages of the due timers, in iteration order; each takes the next
    number of the process-wide message counter. *)
Fixpoint fire (now : Z) (counter : N) (due : list TimerEntry) : N * list (Pid * KernelMessage) :=
  match due with
  | [] => (counter, [])
  | e :: due =>
      let '(counter, m) := Msg.new counter now 0 (TProcess (owner_pid e)) (tm_payload e) in
      let '(counter, ms) := fire now counter due in
      (counter, (owner_pid e, m) :: ms)
  end.

Definition collect_due (order : gmap string TimerEntry -> list (string * TimerEntry)) (now : Z) (counter : N) (s : TimerService)
    : TimerService * N * list (Pid * KernelMessage) :=
  let visited := order (timers s) in
  let due := filter (fun p : string * TimerEntry => is_due now p.2 = true) visited in
  let to_remove := fst <$> filter (fun p : string * TimerEntry =>
    tm_cancelled p.2 = true \/ (is_due now p.2 = true /\ repeat_interval p.2 = None)) visited in
  let to_reschedule := omap (fun p : string * TimerEntry => (p.1,.) <$> repeat_interval p.2) due in
  let '(counter, ms) := fire now counter (snd <$> due) in
  let kept := foldl (fun ts id => delete id ts) (timers s) to_remove in
  let rescheduled := foldl (fun ts (p : string * N) =>
    alter (fun e => mkTimer (tm_id e) (owner_pid e) (now + chrono_or_zero p.2) (repeat_interval e) (tm_payload e) (tm_cancelled e)) p.1 ts) kept to_reschedule in
  (mkTimers rescheduled (next_id s), counter, ms).

End Timers.

(** ** The dead letters keep the newest *)

Lemma evict_spec fuel max ls : 0 < max -> (length ls <= fuel)%nat ->
  Dlq.evict fuel max ls = Some (drop (length ls + 1 - N.to_nat max) ls).
Proof.
  intros Hmax. revert ls. induction fuel as [|fuel IH]; intros ls Hf; cbn [Dlq.evict]; unfold lenN.
  - destruct ls; [|cbn in Hf; lia]. cbn [length]. change (N.of_nat 0) with 0. destruct (N.leb_spec max 0); [lia|]. by rewrite drop_nil.
  - destruct (N.leb_spec max (N.of_nat (length ls))) as [Hle|Hgt].
    + destruct ls as [|l ls]; [cbn in Hle; lia|]. cbn [tail]. rewrite IH by (cbn in Hf; lia). cbn [length] in *.
      replace (S (length ls) + 1 - N.to_nat max)%nat with (S (length ls + 1 - N.to_nat max)) by lia. done.
    + replace (length ls + 1 - N.to_nat max)%nat with O by lia. done.
Qed.

(** With capacity zero the loop never ends. *)
Lemma evict_zero fuel ls : Dlq.evict fuel 0 ls = None.
Proof. revert ls. induction fuel as [|fuel IH]; intros ls; cbn [Dlq.evict]; (destruct (N.leb_spec 0 (lenN ls)); [|lia]); [done|apply IH]. Qed.

(** The last [n] elements of a list. *)
Definition newest {A} (n : N) (l : list A) : list A := drop (length l - N.to_nat n) l.

Lemma newest_snoc {A} n (l : list A) x : 0 < n -> newest n (l ++ [x]) = drop (length (newest n l) + 1 - N.to_nat n) (newest n l) ++ [x].
Proof.
  intros Hn. unfold newest. rewrite length_app, length_drop. cbn [length].
  destruct (decide (length l < N.to_nat n)%nat) as [Hlt|Hge].
  - replace (length l + 1 - N.to_nat n)%nat with O by lia. replace (length l - N.to_nat n)%nat with O by lia.
    replace (length l - 0 + 1 - N.to_nat n)%nat with O by lia. done.
  - rewrite drop_drop. rewrite drop_app_le by lia. f_equal. f_equal. lia.
Qed.

Lemma newest_length {A} n (l : list A) : (length (newest n l) <= N.to_nat n)%nat.
Proof. unfold newest. rewrite length_drop. lia. Qed.

Lemma push_spec l q : 0 < max_size q ->
  Dlq.push l q = Some (mkDlq (drop (length (letters q) + 1 - N.to_nat (max_size q)) (letters q) ++ [l]) (max_size q) (dlq_chain q)).
Proof. intros Hmax. unfold Dlq.push. by rewrite evict_spec by (done || lia). Qed.

(** The dead letter queue always takes a letter and keeps the newest.  With
    a positive capacity its eviction loop ends, and after any sequence of intakes
    the queue holds exactly the last [max_size] of them in order; with capacity
    zero no amount of work completes an intake. *)
Theorem dlq_keeps_newest dbg_str rfc3339 max (ms : list (KernelMessage * DeadLetterReason * Z)) :
  (0 < max ->
   foldl (fun q '(m, r, t) => q ← q; fst <$> Dlq.intake dbg_str rfc3339 t m r q) (Some (Dlq.new max)) ms
   = Some (mkDlq (newest max ((fun '(m, r, t) => mkLetter m r t 0) <$> ms)) max false)) /\
  (forall fuel ls, Dlq.evict fuel 0 ls = None).
Proof.
  split; [|intros; apply evict_zero]. intros Hmax. induction ms as [|[[m r] t] ms IH] using rev_ind; [done|].
  rewrite foldl_app, IH, fmap_app. set (l := _ <$> ms).
  change (fst <$> Dlq.intake dbg_str rfc3339 t m r (mkDlq (newest max l) max false) = Some (mkDlq (newest max (l ++ [mkLetter m r t 0])) max false)).
  unfold Dlq.intake. rewrite push_spec, newest_snoc by done. done.
Qed.

Definition demo_msg (id : string) (corr : option string) : KernelMessage := mkMsg id 1 (TProcess 2) (PText "hi") 0 corr None.

Lemma dlq_keeps_newest_witness :
  foldl (fun q '(m, r, t) => q ← q; fst <$> Dlq.intake (fun s => s) (fun _ => "now"%string) t m r q) (Some (Dlq.new 2))
    [(demo_msg "a" None, TargetNotFound 1, 0%Z); (demo_msg "b" None, InboxFull 1, 1%Z); (demo_msg "c" None, AgentExited 1, 2%Z)]
  = Some (mkDlq [mkLetter (demo_msg "b" None) (InboxFull 1) 1 0; mkLetter (demo_msg "c" None) (AgentExited 1) 2 0] 2 false).
Proof.
  apply (dlq_keeps_newest (fun s => s) (fun _ => "now"%string) 2
    [(demo_msg "a" None, TargetNotFound 1, 0%Z); (demo_msg "b" None, InboxFull 1, 1%Z); (demo_msg "c" None, AgentExited 1, 2%Z)]).
  reflexivity.
Defined.

(** ** Reliable delivery against its log *)

Section Reliable.
Context (powi : f64 -> Z -> f64) (order : gmap string PendingDelivery -> list (string * PendingDelivery)).
Context (dbg_str : string -> string) (rfc3339 : Z -> string).
Hypothesis order_perm : forall m, order m ≡ₚ map_to_list m.
Implicit Types q : ReliableQueue.

Inductive rq_op :=
| Register (now : N) (uuid : string) (msg : KernelMessage)
| Ack (now : N) (corr : string)
| CheckTimeouts (now : N)
| Expire (now : N) (utc : Z)
| Cancel (corr : string).

(** What happened to a tracked message, with the time of an attempt and the
    deadline it set; and the end of a check of the deadlines *)
Inductive rq_event :=
| Registered (corr : string) (m : KernelMessage) (now deadline : N)
| Retried (corr : string) (m : KernelMessage) (now deadline : N)
| Checked (now : N)
| Acked (corr : string) (id : string)
| Cancelled (corr : string) (m : KernelMessage)
| Died (corr : string) (m : KernelMessage) (n : N).

Definition died_event (p : string * PendingDelivery) : rq_event := Died p.1 (pd_message p.2) (attempts p.2).

Definition deadline_of q (c : string) : N := default 0 (ack_deadline <$> rq_pending q !! c).

(** One call, with the events it stands for. *)
Definition rq_step (o : rq_op) q : option (ReliableQueue * list rq_event) :=
  match o with
  | Register now uuid msg =>
      let '(q, (c, m)) := Rq.register now uuid msg q in Some (q, [Registered c m now (deadline_of q c)])
  | Ack now c =>
      let '(q, r) := Rq.acknowledge now c q in
      Some (q, match r with Some (Acknowledged id _) => [Acked c id] | _ => [] end)
  | CheckTimeouts now =>
      match Rq.check_timeouts powi order now q with
      | Some (q, rs) => Some (q, ((fun p : string * KernelMessage => Retried p.1 p.2 now (deadline_of q p.1)) <$> rs) ++ [Checked now])
      | None => None
      end
  | Expire now utc =>
      match Rq.expire_max_retries order dbg_str rfc3339 now utc q with
      | Some (q', _, _) => Some (q', died_event <$> omap (fun c => (c,.) <$> rq_pending q !! c) (Rq.exhausted order now q))
      | None => None
      end
  | Cancel c => let '(q, r) := Rq.cancel c q in Some (q, match r with Some m => [Cancelled c m] | None => [] end)
  end.

Fixpoint rq_run (os : list rq_op) q : option (ReliableQueue * list rq_event) :=
  match os with
  | [] => Some (q, [])
  | o :: os =>
      match rq_step o q with
      | Some (q, evs) => match rq_run os q with Some (q, evs') => Some (q, evs ++ evs') | None => None end
      | None => None
      end
  end.

(** A tracked message: its attempts, the time of the last one, its deadline *)
Record track_state := mkTrack { ts_msg : KernelMessage; ts_attempts : N; ts_last : N; ts_deadline : N }.

(** The tracked messages, from the log alone. *)
Definition track (c : string) (st : option track_state) (e : rq_event) : option track_state :=
  match e with
  | Registered c' m now d => if String.eqb c c' then Some (mkTrack m 1 now d) else st
  | Retried c' _ now d => if String.eqb c c' then (fun t => mkTrack (ts_msg t) (wrap_add32 (ts_attempts t) 1) now d) <$> st else st
  | Checked _ => st
  | Acked c' _ | Cancelled c' _ | Died c' _ _ => if String.eqb c c' then None else st
  end.

Definition tracked (log : list rq_event) (c : string) : option track_state := foldl (track c) None log.

(** The wait before the retry with this index *)
Definition backoff_of (config : ReliableConfig) (idx : N) : option N :=
  from_secs_f64 (f64_min (F64.mul (as_secs_f64 (initial_timeout config)) (powi (backoff_multiplier config) (Rq.as_i32 idx)))
                   (as_secs_f64 (max_timeout config))).

(** An event speaks of a message that is tracked when it happens. *)
Definition event_ok (config : ReliableConfig) (pol : option Policy) (before : string -> option track_state) (e : rq_event) : Prop :=
  match e with
  | Registered c m now d => correlation_id m = Some c /\ d = now + initial_timeout config
  | Retried c m now d => exists t, before c = Some t /\ ts_msg t = m /\ ts_deadline t <= now /\
      (pol = None -> exists w, backoff_of config (wrap_add32 (ts_attempts t) 1 - 1) = Some w /\ d = now + w)
  | Checked now => forall c t, before c = Some t -> now < ts_deadline t \/ ts_last t = now
  | Acked c id => exists t, before c = Some t /\ id = msg_id (ts_msg t)
  | Cancelled c m => exists t, before c = Some t /\ ts_msg t = m
  | Died c m n => exists t, before c = Some t /\ ts_msg t = m /\ ts_attempts t = n /\ (pol = None -> max_retries config <= n)
  end.

Fixpoint log_ok (config : ReliableConfig) (pol : option Policy) (before : string -> option track_state) (log : list rq_event) : Prop :=
  match log with
  | [] => True
  | e :: log => event_ok config pol before e /\ log_ok config pol (fun c => track c (before c) e) log
  end.

(** The messages given up, in order. *)
Definition dead_of (log : list rq_event) : list KernelMessage :=
  omap (fun e => match e with Died _ m _ => Some m | _ => None end) log.

Definition entry (p : PendingDelivery) : track_state := mkTrack (pd_message p) (attempts p) (last_attempt p) (ack_deadline p).

(** Every retry gets a timeout. *)
Definition timeouts_ok (config : ReliableConfig) : Prop :=
  forall idx, is_Some (from_secs_f64 (f64_min
    (F64.mul (as_secs_f64 (initial_timeout config)) (powi (backoff_multiplier config) idx)) (as_secs_f64 (max_timeout config)))).

Lemma bump_some now q p : timeouts_ok (rq_config q) ->
  exists d, Rq.bump powi now q p = Some (mkPending (pd_message p) (wrap_add32 (attempts p) 1) (first_sent p) now d) /\
    (policy q = None -> exists w, backoff_of (rq_config q) (wrap_add32 (attempts p) 1 - 1) = Some w /\ d = now + w).
Proof.
  intros Hok. unfold Rq.bump, Rq.compute_next_timeout, backoff_of.
  destruct (Hok (Rq.as_i32 (wrap_add32 (attempts p) 1 - 1))) as [f ->]. cbn. destruct (policy q) as [predict|]; [|eauto].
  destruct (predict _ _ _) as [d b]. by eexists.
Qed.

Lemma log_ok_app config pol before l1 l2 :
  log_ok config pol before (l1 ++ l2) <->
  log_ok config pol before l1 /\ log_ok config pol (fun c => foldl (track c) (before c) l1) l2.
Proof.
  revert before. induction l1 as [|e l1 IH]; intros before; cbn; [tauto|]. rewrite IH. tauto.
Qed.

(** The agreement of a queue with what a log says. *)
Definition agrees (before : string -> option track_state) q : Prop :=
  forall c, before c = entry <$> rq_pending q !! c.

(** Events that concern distinct ids can be looked at one by one. *)
Lemma log_distinct config pol (before : string -> option track_state) (f : string * PendingDelivery -> rq_event)
    (g : string -> option track_state -> option track_state) (ls : list (string * PendingDelivery)) :
  NoDup (fst <$> ls) ->
  (forall c st p, track c st (f p) = if String.eqb c p.1 then g c st else st) ->
  (forall p b, p ∈ ls -> b p.1 = before p.1 -> event_ok config pol b (f p)) ->
  log_ok config pol before (f <$> ls) /\
  (forall c, foldl (track c) (before c) (f <$> ls) = if decide (c ∈ fst <$> ls) then g c (before c) else before c).
Proof.
  intros Hd Htr. revert before Hd. induction ls as [|p ls IH]; intros before Hd Hok; [done|].
  apply NoDup_cons in Hd as [Hn Hd]. destruct (IH (fun c => track c (before c) (f p)) Hd) as [Hlog Hfold].
  { intros p' b Hp' Hb. apply Hok; [by right|]. rewrite Hb, Htr. destruct (String.eqb_spec p'.1 p.1) as [Heq|]; [|done].
    destruct Hn. rewrite <- Heq. by apply list_elem_of_fmap_2. }
  split; [split; [apply Hok; [left|done]|exact Hlog]|]. intros c. rewrite fmap_cons. cbn [foldl]. rewrite Hfold, Htr.
  rewrite fmap_cons. destruct (String.eqb_spec c p.1) as [->|Hne].
  - rewrite decide_False by done. by rewrite decide_True by left.
  - destruct (decide (c ∈ fst <$> ls)); [rewrite decide_True by by right|rewrite decide_False by (rewrite elem_of_cons; tauto)]; done.
Qed.

Lemma elem_of_filtered (P : string * PendingDelivery -> Prop) `{!forall e, Decision (P e)} m c p :
  (c, p) ∈ filter P (order m) <-> m !! c = Some p /\ P (c, p).
Proof using order_perm. rewrite list_elem_of_filter, order_perm, elem_of_map_to_list. split; by intros []. Qed.

Lemma check_timeouts_step now q before : timeouts_ok (rq_config q) -> agrees before q ->
  exists q' evs, rq_step (CheckTimeouts now) q = Some (q', evs) /\ rq_config q' = rq_config q /\ policy q' = policy q /\
    dead_letter q' = dead_letter q /\ dead_of evs = [] /\ log_ok (rq_config q) (policy q) before evs /\
    agrees (fun c => foldl (track c) (before c) evs) q'.
Proof using order_perm.
  intros Hok Hag. cbn [rq_step]. unfold Rq.check_timeouts. set (late := filter _ _).
  assert (forallb (fun e : string * PendingDelivery => bool_decide (is_Some (Rq.bump powi now q e.2))) late = true) as ->.
  { apply forallb_forall. intros e _. by destruct (bump_some now q e.2 Hok) as (d & -> & _). }
  set (q1 := Rq.with_pending _ q).
  assert (forall c p, rq_pending q !! c = Some p -> exists p1, rq_pending q1 !! c = Some p1 /\ pd_message p1 = pd_message p /\
    if Rq.is_late now p then attempts p1 = wrap_add32 (attempts p) 1 /\ last_attempt p1 = now /\
      (policy q = None -> exists w, backoff_of (rq_config q) (wrap_add32 (attempts p) 1 - 1) = Some w /\ ack_deadline p1 = now + w)
    else p1 = p) as Hnew.
  { intros c p Hp. cbn. rewrite lookup_fmap, Hp. cbn. destruct (Rq.is_late now p); [|by eexists].
    destruct (bump_some now q p Hok) as (d & -> & Hd). eexists. split; [done|]. done. }
  eexists q1, _. split; [done|]. split; [done|]. split; [done|]. split; [done|].
  rewrite <- list_fmap_compose. set (f := fun e : string * PendingDelivery => Retried e.1 (pd_message e.2) now (deadline_of q1 e.1)).
  change (_ ∘ _) with f. split.
  { unfold dead_of. rewrite omap_app. clear. induction late as [|e l IH]; [done|exact IH]. }
  destruct (log_distinct (rq_config q) (policy q) before f
    (fun c st => (fun t => mkTrack (ts_msg t) (wrap_add32 (ts_attempts t) 1) now (deadline_of q1 c)) <$> st) late) as [H1 H2].
  - apply NoDup_fmap_filter. rewrite order_perm. apply NoDup_fst_map_to_list.
  - intros c st p. cbn. destruct (String.eqb_spec c p.1) as [->|]; done.
  - intros [c p] b Hp Hb. apply elem_of_filtered in Hp as [Hp Hl]. cbn [fst snd f event_ok] in *. exists (entry p). rewrite Hb, Hag, Hp. split; [done|].
    split; [done|]. unfold Rq.is_late in Hl. apply N.leb_le in Hl. split; [done|]. intros Hpol.
    destruct (Hnew c p Hp) as (p1 & Hp1 & _ & Hif). unfold Rq.is_late in Hif. rewrite (proj2 (N.leb_le _ _)) in Hif by done.
    destruct Hif as (_ & _ & Hw). destruct (Hw Hpol) as (w & Hw1 & Hw2). exists w. split; [exact Hw1|]. unfold deadline_of. rewrite Hp1. exact Hw2.
  - assert (agrees (fun c => foldl (track c) (before c) (f <$> late)) q1) as Hag1.
    { intros c. rewrite H2, Hag. destruct (rq_pending q !! c) as [p|] eqn:E.
      2: { cbn. rewrite lookup_fmap, E. by destruct (decide _). }
      destruct (Hnew c p E) as (p1 & Hp1 & Hm & Hif). rewrite Hp1. cbn. destruct (Rq.is_late now p) eqn:El.
      - rewrite decide_True by (apply (list_elem_of_fmap_2 fst late (c, p)); by apply elem_of_filtered). destruct Hif as (Ha & Hla & _).
        unfold entry, deadline_of. rewrite Hp1, Hm, Ha, Hla. done.
      - rewrite decide_False; [by rewrite Hif|]. intros ([c' p'] & -> & [Hp Hl]%elem_of_filtered)%list_elem_of_fmap. cbn in *. congruence. }
    split.
    + apply log_ok_app. split; [exact H1|]. split; [|done]. intros c t Ht. rewrite Hag1 in Ht.
      destruct (rq_pending q !! c) as [p|] eqn:E; [|cbn in Ht; rewrite lookup_fmap, E in Ht; done].
      destruct (Hnew c p E) as (p1 & Hp1 & _ & Hif). rewrite Hp1 in Ht. injection Ht as <-. cbn.
      destruct (Rq.is_late now p) eqn:El; [right; by destruct Hif as (_ & ? & _)|left]. rewrite Hif. by apply N.leb_gt in El.
    + intros c. rewrite foldl_app. exact (Hag1 c).
Qed.

Lemma bury_spec now utc ids q before :
  0 < max_size (dead_letter q) -> NoDup ids -> agrees before q -> (forall c, c ∈ ids -> is_Some (rq_pending q !! c)) ->
  (forall c p, c ∈ ids -> rq_pending q !! c = Some p -> policy q = None -> max_retries (rq_config q) < attempts p) ->
  let evs := died_event <$> omap (fun c => (c,.) <$> rq_pending q !! c) ids in
  exists q' au rs ds, Rq.bury dbg_str rfc3339 now utc ids q = Some (q', au, rs) /\
    rq_config q' = rq_config q /\ policy q' = policy q /\ max_size (dead_letter q') = max_size (dead_letter q) /\
    log_ok (rq_config q) (policy q) before evs /\ agrees (fun c => foldl (track c) (before c) evs) q' /\
    dl_message <$> ds = dead_of evs /\
    (forall old, letters (dead_letter q) = newest (max_size (dead_letter q)) old ->
                 letters (dead_letter q') = newest (max_size (dead_letter q)) (old ++ ds)).
Proof.
  revert q before. induction ids as [|c ids IH]; intros q before Hmax Hd Hag Hsome Hlim evs.
  { exists q, [], [], []. do 7 (split; [done|]). intros old. by rewrite app_nil_r. }
  apply NoDup_cons in Hd as [Hn Hd]. destruct (Hsome c) as [p Hp]; [left|]. cbn [Rq.bury]. rewrite Hp.
  unfold Dlq.intake. rewrite push_spec by done. cbn [mbind option_bind].
  set (dlq := mkDlq _ _ _). set (q1 := mkRq (delete c (rq_pending q)) (rq_config q) dlq (policy q)).
  assert (forall c', c' ∈ ids -> rq_pending q1 !! c' = rq_pending q !! c') as Hsame.
  { intros c' Hc'. cbn. rewrite lookup_delete_ne; [done|]. congruence. }
  assert (evs = Died c (pd_message p) (attempts p) :: (died_event <$> omap (fun c => (c,.) <$> rq_pending q1 !! c) ids)) as ->.
  { subst evs. cbn. rewrite Hp. cbn. f_equal. f_equal. clear -Hsame. induction ids as [|c' ids IH]; [done|].
    change (omap ?f (c' :: ids)) with (match f c' with Some y => y :: omap f ids | None => omap f ids end). cbn beta.
    rewrite Hsame by left. rewrite IH by (intros; apply Hsame; by right). done. }
  destruct (IH q1 (fun c' => track c' (before c') (Died c (pd_message p) (attempts p)))) as (q' & au & rs & ds & -> & Hc & Hpol & Hm & Hlog & Hag' & Hds & Hlet).
  - done.
  - done.
  - intros c'. cbn. destruct (String.eqb_spec c' c) as [->|Hne]; [by rewrite lookup_delete_eq|]. by rewrite lookup_delete_ne, Hag.
  - intros c' Hc'. rewrite Hsame by done. apply Hsome. by right.
  - intros c' p' Hc'. rewrite Hsame by done. apply Hlim. by right.
  - eexists q', _, _, (mkLetter (pd_message p) (DeliveryTimeout (Rq.age_ms now p)) utc 0 :: ds). split; [reflexivity|].
    split; [done|]. split; [done|]. split; [done|]. split; [|split; [exact Hag'|split]].
    + split; [|exact Hlog]. cbn. exists (entry p). rewrite Hag, Hp. do 3 (split; [done|]). intros Hn0. apply N.lt_le_incl. apply (Hlim c p); [by left|done|done].
    + cbn. by rewrite Hds.
    + intros old Hold. cbn in Hlet. rewrite (Hlet (old ++ [mkLetter (pd_message p) (DeliveryTimeout (Rq.age_ms now p)) utc 0])).
      * by rewrite <- app_assoc.
      * rewrite newest_snoc by done. by rewrite Hold.
Qed.

(** One call from a queue that agrees with the log so far. *)
Lemma step_ok o q before :
  0 < max_size (dead_letter q) -> timeouts_ok (rq_config q) -> agrees before q ->
  exists q' evs ds, rq_step o q = Some (q', evs) /\ rq_config q' = rq_config q /\ policy q' = policy q /\
    max_size (dead_letter q') = max_size (dead_letter q) /\ log_ok (rq_config q) (policy q) before evs /\
    agrees (fun c => foldl (track c) (before c) evs) q' /\ dl_message <$> ds = dead_of evs /\
    (forall old, letters (dead_letter q) = newest (max_size (dead_letter q)) old ->
                 letters (dead_letter q') = newest (max_size (dead_letter q)) (old ++ ds)).
Proof using order_perm.
  intros Hmax Hok Hag. destruct o as [now uuid msg|now c|now|now utc|c].
  - eexists _, _, []. split; [reflexivity|]. do 3 (split; [done|]).
    set (c0 := default uuid (correlation_id msg)). split.
    { cbn. split; [|done]. split; [done|]. unfold deadline_of. cbn. by rewrite lookup_insert_eq. }
    split.
    { intros c. cbn. fold c0. unfold deadline_of. cbn. fold c0. rewrite lookup_insert_eq. cbn. destruct (String.eqb_spec c c0) as [->|Hne].
      - by rewrite lookup_insert_eq.
      - by rewrite lookup_insert_ne. }
    split; [done|]. intros old. by rewrite app_nil_r.
  - cbn [rq_step]. unfold Rq.acknowledge. destruct (rq_pending q !! c) as [p|] eqn:E.
    + eexists _, _, []. split; [reflexivity|]. do 3 (split; [done|]). split.
      { cbn. split; [|done]. exists (entry p). by rewrite Hag, E. }
      split; [|split; [done|intros old; by rewrite app_nil_r]]. intros c'. cbn.
      destruct (String.eqb_spec c' c) as [->|Hne]; [by rewrite lookup_delete_eq|by rewrite lookup_delete_ne, Hag].
    + eexists _, _, []. split; [reflexivity|]. do 6 (split; [done|]). intros old. by rewrite app_nil_r.
  - destruct (check_timeouts_step now q before Hok Hag) as (q' & evs & Hs & Hc & Hp & Hd & Hdead & Hlog & Hag').
    exists q', evs, []. rewrite Hd, Hdead. do 7 (split; [done|]). intros old. by rewrite app_nil_r.
  - cbn [rq_step]. unfold Rq.expire_max_retries.
    assert (forall c, c ∈ Rq.exhausted order now q -> exists p, rq_pending q !! c = Some p /\
      Rq.should_discard q (attempts p) (Rq.age_ms now p) (N.of_nat (size (rq_pending q))) = true) as Hex.
    { intros c ([c' p] & -> & [Hp Hs]%elem_of_filtered)%list_elem_of_fmap. by exists p. }
    destruct (bury_spec now utc (Rq.exhausted order now q) q before Hmax) as (q' & au & rs & ds & -> & H1); [| |  | |by exists q', (died_event <$> omap (fun c => (c,.) <$> rq_pending q !! c) (Rq.exhausted order now q)), ds].
    + apply NoDup_fmap_filter. rewrite order_perm. apply NoDup_fst_map_to_list.
    + done.
    + intros c Hc. destruct (Hex c Hc) as (p & Hp & _). eauto.
    + intros c p Hc Hp Hpol. destruct (Hex c Hc) as (p' & Hp' & Hs). unfold Rq.should_discard in Hs. rewrite Hpol in Hs.
      apply N.ltb_lt in Hs. congruence.
  - cbn [rq_step]. unfold Rq.cancel. destruct (rq_pending q !! c) as [p|] eqn:E; cbn [fmap option_fmap option_map].
    + eexists _, _, []. split; [reflexivity|]. do 3 (split; [done|]). split.
      { cbn. split; [|done]. exists (entry p). by rewrite Hag, E. }
      split; [|split; [done|intros old; by rewrite app_nil_r]]. intros c'. cbn.
      destruct (String.eqb_spec c' c) as [->|Hne]; [by rewrite lookup_delete_eq|by rewrite lookup_delete_ne, Hag].
    + eexists _, _, []. split; [reflexivity|]. do 4 (split; [done|]). split; [|split; [done|intros old; by rewrite app_nil_r]].
      intros c'. cbn. rewrite Hag. destruct (String.eqb_spec c' c) as [->|Hne]; [by rewrite E, lookup_delete_eq|by rewrite lookup_delete_ne].
Qed.


End Reliable.

(** A power function for examples: exponents other than zero give the base. *)
Definition demo_powi (b : f64) (n : Z) : f64 := if (n =? 0)%Z then F64.of_Z 1 else b.

Definition demo_ops : list rq_op :=
  [Register 0 "u" (demo_msg "m1" None); Register 0 "v" (demo_msg "m2" (Some "c2")); Ack 1000000 "c2"; CheckTimeouts 5000000000;
   CheckTimeouts 20000000000; CheckTimeouts 40000000000; Expire 40000000000 7; Cancel "zz"]%string.


Example reliable_demo :
  (fun '(q, log) => (Rq.pending_count q, msg_id <$> dead_of log, lenN log)) <$>
  rq_run demo_powi map_to_list (fun s => s) (fun _ => "t"%string) demo_ops (mkRq ∅ reliable_default (Dlq.new 5) None)
  = Some (0, ["m1"%string], 10).
Proof. vm_compute. reflexivity. Qed.

(** ** Timers *)

Section TimerProps.
Context (order : gmap string TimerEntry -> list (string * TimerEntry)).
Hypothesis order_perm : forall m, order m ≡ₚ map_to_list m.
Implicit Types s : TimerService.

(** The timer a repeating one becomes when it fires. *)
Definition rearmed (now : Z) (d : N) (e : TimerEntry) : TimerEntry :=
  mkTimer (tm_id e) (owner_pid e) (now + chrono_or_zero d) (repeat_interval e) (tm_payload e) (tm_cancelled e).

(** What a collection leaves of one timer. *)
Definition after_collect (now : Z) (e : TimerEntry) : option TimerEntry :=
  if tm_cancelled e then None
  else if Timers.is_due now e then (fun d => rearmed now d e) <$> repeat_interval e else Some e.

Lemma foldl_delete_lookup ids (m : gmap string TimerEntry) id :
  foldl (fun ts id => delete id ts) m ids !! id = if decide (id ∈ ids) then None else m !! id.
Proof.
  revert m. induction ids as [|i ids IH]; intros m; [done|]. cbn [foldl]. rewrite IH. destruct (decide (id = i)) as [->|Hne].
  - rewrite (decide_True (P := i ∈ i :: ids)) by left. rewrite lookup_delete_eq. by destruct (decide _).
  - rewrite lookup_delete_ne by done.
    destruct (decide (id ∈ ids)); [rewrite decide_True by by right|rewrite decide_False by (rewrite elem_of_cons; tauto)]; done.
Qed.

Lemma foldl_rearm_lookup now (ps : list (string * N)) (m : gmap string TimerEntry) id :
  NoDup (fst <$> ps) ->
  let m' := foldl (fun ts (p : string * N) => alter (rearmed now p.2) p.1 ts) m ps in
  (id ∉ (fst <$> ps) -> m' !! id = m !! id) /\ (forall d, (id, d) ∈ ps -> m' !! id = rearmed now d <$> m !! id).
Proof.
  revert m. induction ps as [|[i d] ps IH]; intros m Hd; [split; [done|by intros ? ?%not_elem_of_nil]|].
  apply NoDup_cons in Hd as [Hn Hd]. cbn [foldl fst snd]. destruct (IH (alter (rearmed now d) i m) Hd) as [H1 H2]. split.
  - rewrite fmap_cons, elem_of_cons. cbn. intros Hni. rewrite H1 by tauto. apply lookup_alter_ne. intros ->. tauto.
  - intros d' [[= -> ->]|Hin]%elem_of_cons; [rewrite H1 by done; apply lookup_alter_eq|]. rewrite (H2 d' Hin). f_equal.
    apply lookup_alter_ne. intros ->. apply Hn. by apply (list_elem_of_fmap_2 fst ps (id, d')).
Qed.

Definition interval_of (p : string * TimerEntry) : option (string * N) := (p.1,.) <$> repeat_interval p.2.

Lemma intervals_nodup due : NoDup (fst <$> due) -> NoDup (fst <$> omap interval_of due).
Proof.
  induction due as [|[i e] due IH]; [constructor|]. rewrite fmap_cons. intros [Hn Hd]%NoDup_cons.
  change (omap interval_of ((i, e) :: due)) with (match interval_of (i, e) with Some y => y :: omap interval_of due | None => omap interval_of due end).
  destruct (interval_of (i, e)) as [[i' d]|] eqn:E; [|by apply IH]. rewrite fmap_cons. apply NoDup_cons. split; [|by apply IH].
  assert (i' = i) as -> by (unfold interval_of in E; cbn in E; destruct (repeat_interval e); cbn in E; congruence).
  intros ([i2 d2] & Hi & ([i3 e3] & Hin & Hr)%list_elem_of_omap)%list_elem_of_fmap. unfold interval_of in Hr. cbn in *.
  destruct (repeat_interval e3); [|done]. simplify_eq/=. apply Hn. by apply (list_elem_of_fmap_2 fst due (i2, e3)).
Qed.

Lemma fire_spec now counter due :
  (fun pm : Pid * KernelMessage => (pm.1, msg_from pm.2, msg_target pm.2, msg_payload pm.2)) <$> (Timers.fire now counter due).2
  = (fun e => (owner_pid e, 0, TProcess (owner_pid e), tm_payload e)) <$> due.
Proof.
  revert counter. induction due as [|e due IH]; intros counter; [done|]. cbn [Timers.fire]. unfold Msg.new, Msg.build, next_ipc_msg_id.
  specialize (IH (wrap_add64 counter 1)). destruct (Timers.fire now _ due) as [c ms]. cbn in *. by rewrite IH.
Qed.

Lemma collect_lookup now counter s id :
  timers (Timers.collect_due order now counter s).1.1 !! id = timers s !! id ≫= after_collect now.
Proof using order_perm.
  unfold Timers.collect_due. set (due := filter (fun p : string * TimerEntry => Timers.is_due now p.2 = true) _).
  destruct (Timers.fire now counter _) as [c ms]. cbn [fst timers].
  change (fun e => mkTimer (tm_id e) (owner_pid e) (now + chrono_or_zero ?d) (repeat_interval e) (tm_payload e) (tm_cancelled e)) with (rearmed now d).
  set (again := omap _ due). change (foldl _ _ again) with (foldl (fun ts (p : string * N) => alter (rearmed now p.2) p.1 ts)
    (foldl (fun ts id => delete id ts) (timers s) (fst <$> filter (fun p : string * TimerEntry =>
      tm_cancelled p.2 = true \/ (Timers.is_due now p.2 = true /\ repeat_interval p.2 = None)) (order (timers s)))) again).
  assert (forall id e, (id, e) ∈ order (timers s) <-> timers s !! id = Some e) as Hin by (intros; rewrite order_perm; apply elem_of_map_to_list).
  assert (NoDup (fst <$> due)) as Hdd by (apply NoDup_fmap_filter; rewrite order_perm; apply NoDup_fst_map_to_list).
  assert (forall i d, (i, d) ∈ again <-> exists e, timers s !! i = Some e /\ Timers.is_due now e = true /\ repeat_interval e = Some d) as Hagain.
  { intros i d. unfold again. rewrite list_elem_of_omap. split.
    - intros ([i' e] & [Hd He]%list_elem_of_filter & Hr). cbn in *. destruct (repeat_interval e) eqn:Er; [|done]. injection Hr as -> ->.
      exists e. by rewrite <- Hin.
    - intros (e & He & Hd & Hr). exists (i, e). split; [|cbn; by rewrite Hr]. apply list_elem_of_filter. by rewrite Hin. }
  assert (NoDup (fst <$> again)) as Hda.
  { by apply intervals_nodup. }
  match goal with |- foldl _ ?m again !! id = _ => destruct (foldl_rearm_lookup now again m id Hda) as [Hno Hyes] end.
  rewrite foldl_delete_lookup in Hno, Hyes. set (gone := fst <$> filter _ _).
  assert (id ∈ gone <-> exists e, timers s !! id = Some e /\ (tm_cancelled e = true \/ (Timers.is_due now e = true /\ repeat_interval e = None))) as Hgone.
  { unfold gone. rewrite list_elem_of_fmap. split.
    - intros ([i e] & -> & [He Hi]%list_elem_of_filter). exists e. by rewrite <- Hin.
    - intros (e & He & Hc). exists (id, e). split; [done|]. apply list_elem_of_filter. by rewrite Hin. }
  destruct (timers s !! id) as [e|] eqn:E; cbn [mbind option_bind].
  - unfold after_collect. destruct (tm_cancelled e) eqn:Ec.
    { rewrite decide_True in Hno by (apply Hgone; eauto). apply Hno.
      intros ([i d] & -> & (e' & He' & Hd & _)%Hagain)%list_elem_of_fmap. cbn in He', E. assert (e' = e) as -> by congruence.
      unfold Timers.is_due in Hd. by rewrite Ec in Hd. }
    assert (id ∈ gone -> Timers.is_due now e = true /\ repeat_interval e = None) as Hg.
    { intros (e' & He' & [Hc|Hc])%Hgone; congruence. }
    destruct (Timers.is_due now e) eqn:Ed; [destruct (repeat_interval e) as [d|] eqn:Er|].
    + rewrite decide_False in Hyes by (intros [_ ?]%Hg; done). apply Hyes. apply Hagain. eauto.
    + rewrite decide_True in Hno by (apply Hgone; eauto). apply Hno.
      intros ([i d] & -> & (e' & He' & _ & Hr)%Hagain)%list_elem_of_fmap. cbn in He', E. congruence.
    + rewrite decide_False in Hno by (intros [? _]%Hg; done). apply Hno.
      intros ([i d] & -> & (e' & He' & Hd & _)%Hagain)%list_elem_of_fmap. cbn in He', E. congruence.
  - assert (foldl (fun ts (p : string * N) => alter (rearmed now p.2) p.1 ts) (foldl (fun ts id => delete id ts) (timers s) gone) again !! id
      = if decide (id ∈ gone) then None else None) as ->; [|by destruct (decide _)]. apply Hno.
    intros ([i d] & -> & (e' & He' & _)%Hagain)%list_elem_of_fmap. cbn in He', E. congruence.
Qed.

(** *** Histories *)

Inductive timer_op :=
| CreateTimer (now : Z) (pid : Pid) (delay : N) (repeat : bool) (payload : MessagePayload)
| CancelTimer (id : string)
| CancelPid (pid : Pid)
| RemoveTimer (id : string)
| CleanupCancelled
| CollectDue (now : Z) (counter : N).

(** The timers that fire in a collection. *)
Definition firing (now : Z) s : list (string * TimerEntry) := filter (fun p => Timers.is_due now p.2 = true) (order (timers s)).

Definition timer_step (s : TimerService) (o : timer_op) : TimerService * list (string * TimerEntry) :=
  match o with
  | CreateTimer now pid d true pl => ((Timers.create_repeating now pid d pl s).1, [])
  | CreateTimer now pid d false pl => ((Timers.create_oneshot now pid d pl s).1, [])
  | CancelTimer id => ((Timers.cancel id s).1, [])
  | CancelPid pid => ((Timers.cancel_for_pid pid s).1, [])
  | RemoveTimer id => ((Timers.remove id s).1, [])
  | CleanupCancelled => ((Timers.cleanup_cancelled s).1, [])
  | CollectDue now counter => ((Timers.collect_due order now counter s).1.1, firing now s)
  end.

Fixpoint timer_run (os : list timer_op) s : TimerService * list (string * TimerEntry) :=
  match os with
  | [] => (s, [])
  | o :: os => let '(s, fired) := timer_step s o in let '(s, more) := timer_run os s in (s, fired ++ more)
  end.

Definition one_shot (p : string * TimerEntry) : Prop := repeat_interval p.2 = None.
#[local] Instance one_shot_dec p : Decision (one_shot p).
Proof. unfold one_shot. apply _. Defined.

Definition issued (n : N) (id : string) : Prop := exists k, k < n /\ id = ("timer-" +:+ pretty k)%string.

Lemma issued_mono n n' id : n <= n' -> issued n id -> issued n' id.
Proof. intros Hn (k & Hk & ->). exists k. split; [lia|done]. Qed.

(** Ids in use and ids that fired were issued; a one-shot that fired is gone. *)
Record timers_ok (log : list (string * TimerEntry)) s : Prop := {
  ok_issued : forall id, is_Some (timers s !! id) -> issued (next_id s) id;
  ok_logged : forall p, p ∈ log -> issued (next_id s) p.1;
  ok_gone : forall p, p ∈ log -> one_shot p -> timers s !! p.1 = None;
  ok_once : NoDup (fst <$> filter one_shot log)
}.

(** Calls other than creation and collection only shrink or relabel the table. *)
Lemma shrink_ok log s (ts : gmap string TimerEntry) :
  timers_ok log s -> (forall id, is_Some (ts !! id) -> is_Some (timers s !! id)) -> timers_ok log (mkTimers ts (next_id s)).
Proof.
  intros [Hi Hl Hg Ho] Hsub. split; cbn; [by auto|done| |done]. intros p Hp Hone. specialize (Hg p Hp Hone).
  destruct (ts !! p.1) eqn:E; [|done]. destruct (Hsub p.1) as [e He]; [eauto|]. congruence.
Qed.

Lemma create_ok log s now pid d r pl :
  timers_ok log s -> next_id s + 1 < u64_mod -> timers_ok log (Timers.create now pid d r pl s).1.
Proof.
  intros [Hi Hl Hg Ho] Hn. unfold Timers.create, Timers.next_timer_id. rewrite wrap_add64_small by done. split; cbn; [| | |done].
  - intros id. rewrite lookup_insert. case_decide as Heq; intros Hs; [|eapply issued_mono; [|by apply Hi]; lia].
    exists (next_id s). split; [lia|done].
  - intros p Hp. eapply issued_mono; [|by apply Hl]. lia.
  - intros p Hp Hone. rewrite lookup_insert_ne; [by apply Hg|]. intros Heq. destruct (Hl p Hp) as (k & Hk & Hid). rewrite Hid in Heq.
    apply (inj (append "timer-")), (inj pretty) in Heq. lia.
Qed.

Lemma collect_ok log s now counter :
  timers_ok log s -> timers_ok (log ++ firing now s) (Timers.collect_due order now counter s).1.1.
Proof using order_perm.
  intros [Hi Hl Hg Ho].
  assert (next_id (Timers.collect_due order now counter s).1.1 = next_id s) as Hnext.
  { unfold Timers.collect_due. by destruct (Timers.fire _ _ _). }
  assert (forall p, p ∈ firing now s <-> timers s !! p.1 = Some p.2 /\ Timers.is_due now p.2 = true) as Hf.
  { intros [id e]. unfold firing. rewrite list_elem_of_filter, order_perm, elem_of_map_to_list. split; by intros []. }
  split; rewrite ?Hnext.
  - intros id. rewrite collect_lookup. intros [e' He']. apply bind_Some in He' as (e & He & _). apply Hi. eauto.
  - intros p [Hp|[Hp _]%Hf]%elem_of_app; [by apply Hl|]. apply Hi. eauto.
  - intros p [Hp|[Hp Hd]%Hf]%elem_of_app Hone; rewrite collect_lookup; [by rewrite Hg|]. rewrite Hp. cbn. unfold after_collect.
    destruct (tm_cancelled p.2); [done|]. rewrite Hd, Hone. done.
  - rewrite filter_app, fmap_app. apply NoDup_app. split; [done|]. split.
    + intros id (p & -> & [H1 Hp]%list_elem_of_filter)%list_elem_of_fmap (p' & Heq & [H2 [Hp' _]%Hf]%list_elem_of_filter)%list_elem_of_fmap.
      specialize (Hg p Hp H1). congruence.
    + apply NoDup_fmap_filter. unfold firing. apply NoDup_fmap_filter. rewrite order_perm. apply NoDup_fst_map_to_list.
Qed.

Lemma timer_step_ok log s o :
  timers_ok log s -> next_id s + 1 < u64_mod ->
  let '(s', fired) := timer_step s o in timers_ok (log ++ fired) s' /\ next_id s' <= next_id s + 1.
Proof using order_perm.
  intros Hok Hn. destruct o as [now pid d [] pl|id|pid|id| |now counter]; cbn [timer_step]; rewrite ?app_nil_r.
  - split; [by apply create_ok|]. cbn. rewrite wrap_add64_small; lia.
  - split; [by apply create_ok|]. cbn. rewrite wrap_add64_small; lia.
  - unfold Timers.cancel. destruct (timers s !! id) as [e|] eqn:E; [|split; [done|cbn; lia]]. split; [|cbn; lia]. apply shrink_ok; [done|].
    intros id'. rewrite lookup_insert. case_decide; subst; [eauto|done].
  - split; [|cbn; lia]. apply shrink_ok; [done|]. intros id. rewrite lookup_fmap. by destruct (timers s !! id).
  - split; [|cbn; lia]. apply shrink_ok; [done|]. intros id' [e [_ He]%lookup_delete_Some]. eauto.
  - split; [|cbn; lia]. apply shrink_ok; [done|]. intros id' [e [He _]%map_lookup_filter_Some]. eauto.
  - split; [by apply collect_ok|]. unfold Timers.collect_due. destruct (Timers.fire _ _ _). cbn. lia.
Qed.

(** Timers fire when they should.  A collection delivers one message, from
    the kernel, to the owner of each timer that is due and not cancelled; then
    cancelled timers and fired one-shots are gone, fired repeating timers are
    due one interval later, and all others are unchanged.  Over any history a
    one-shot timer fires at most once. *)
Theorem timers_exact os now counter :
  lenN os + 2 < u64_mod ->
  let '(s, fired) := timer_run os Timers.new in
  let '(s', _, ms) := Timers.collect_due order now counter s in
  (forall id, timers s' !! id = timers s !! id ≫= after_collect now) /\
  (fun pm : Pid * KernelMessage => (pm.1, msg_from pm.2, msg_target pm.2, msg_payload pm.2)) <$> ms
    ≡ₚ (fun p : string * TimerEntry => (owner_pid p.2, 0, TProcess (owner_pid p.2), tm_payload p.2)) <$>
         filter (fun p => Timers.is_due now p.2 = true) (map_to_list (timers s)) /\
  NoDup (fst <$> filter one_shot (fired ++ firing now s)).
Proof using order_perm.
  intros Hlen.
  assert (forall log s, timers_ok log s -> lenN os + next_id s + 1 < u64_mod ->
    let '(s', fired) := timer_run os s in timers_ok (log ++ fired) s') as Hrun.
  { clear Hlen. induction os as [|o os IH]; intros log s Hok Hn; cbn [timer_run]; [by rewrite app_nil_r|].
    unfold lenN in *. cbn [length] in Hn. pose proof (timer_step_ok log s o Hok) as Hs. destruct (timer_step s o) as [s1 f1].
    destruct Hs as [Hok1 Hn1]; [lia|]. specialize (IH _ s1 Hok1). destruct (timer_run os s1). rewrite app_assoc. apply IH. lia. }
  specialize (Hrun [] Timers.new). destruct (timer_run os Timers.new) as [s fired].
  assert (timers_ok fired s) as Hok.
  { apply Hrun; [|cbn; lia]. split; cbn; [by intros id [e He]|by intros p ?%not_elem_of_nil|by intros p ?%not_elem_of_nil|constructor]. }
  pose proof (collect_lookup now counter s) as Hlook. pose proof (ok_once _ _ (collect_ok fired s now counter Hok)) as Honce.
  unfold Timers.collect_due in *. pose proof (fire_spec now counter (snd <$> firing now s)) as Hfire. unfold firing in *.
  destruct (Timers.fire now counter _) as [c ms]. cbn [fst snd] in *. split; [exact Hlook|]. split; [|exact Honce].
  rewrite Hfire, <- list_fmap_compose. by rewrite order_perm.
Qed.

End TimerProps.

Definition timer_demo : list timer_op :=
  [CreateTimer 0 7 10 false (PText "once"); CreateTimer 0 8 10 true (PText "again"); CreateTimer 0 9 5 false (PText "never");
   CancelTimer "timer-3"; CollectDue 12 0; CollectDue 30 0]%string.

Example timer_demo_fired : fst <$> (timer_run map_to_list timer_demo Timers.new).2 = ["timer-1"; "timer-2"; "timer-2"]%string.
Proof. vm_compute. reflexivity. Qed.

Lemma timers_exact_witness :
  NoDup (fst <$> filter one_shot ((timer_run map_to_list timer_demo Timers.new).2 ++ firing map_to_list 50 (timer_run map_to_list timer_demo Timers.new).1)).
Proof.
  pose proof (timers_exact map_to_list (fun m => reflexivity _) timer_demo 50 0) as H.
  destruct (timer_run map_to_list timer_demo Timers.new) as [s fired]. destruct (Timers.collect_due map_to_list 50 0 s) as [[s' c] ms].
  apply H. vm_compute. reflexivity.
Defined.
