(* ===== verification/CowMemory.v ===== *)
(** * Branchable memory

    crates/clawft-cow-memory: a lineage of vector stores with a writable tip,
    checkpoints, a promotable base and nodes inherited from the lineage it was
    forked from; queries walk the chain and merge.  The vector store itself
    (rvf-runtime) is the class [Rvf]. *)

From Stdlib Require Import Strings.String SpecFloat.
From S2P Require Import Prelude Codec Scoring.

Local Open Scope string_scope.
Local Open Scope list_scope.
Local Open Scope N_scope.

Abbreviation vec := (list f32).

(** The process-wide counters start at one. *)
Definition FIRST_ID : N := 1.

Inductive CowMemoryError :=
| CRvf (e : string)
| CIo (e : string)
| DimensionMismatch (expected got : N)
| CheckpointNotFound (id : N)
| InvalidDimension
| Paused
| ManifestCorrupt (path reason : string).

(** [l2_normalize] *)
Definition l2_normalize (v : vec) : vec :=
  let norm_sq := F32.sum (map (fun x => F32.mul x x) v) in
  if F32.leb norm_sq F32.EPSILON then v
  else let norm := F32.sqrt norm_sq in map (fun x => F32.div x norm) v.

(** The open handle of a store.  A mutating call returns the handle as it left
    it, also when it failed. *)
Class Rvf := {
  St : Type;
  rvf_create : N -> result St string;
  rvf_derive : St -> N -> result St string;
  rvf_open : St -> result St string;
  rvf_open_readonly : St -> result St string;
  rvf_dimension : St -> N;
  rvf_ingest : St -> list (N * vec) -> St * result unit string;
  rvf_delete : St -> list N -> St * result unit string;
  rvf_freeze : St -> St * result unit string;
  rvf_query : St -> vec -> N -> result (list (N * f32)) string;
  rvf_file_id : St -> bytes;
  rvf_witness : St -> bytes;
}.

(** [VectorTags], [VectorItem] *)
Abbreviation VectorTags := (gmap string string).

Record VectorItem := mkItem {
  vi_id : option N;
  vi_vector : vec;
  vi_text : option string;
  vi_tags : VectorTags;
}.

(** A file: its directory and its name *)
Abbreviation Path := (string * string)%type.

Section Cow.
Context `{Rvf}.

Record MemoryNode := mkNode {
  mn_id : N;
  mn_label : option string;
  mn_path : Path;
  mn_created_at : N;
  mn_store : St;
  mn_edit_log : gmap N vec;
  mn_tombstones : gset N;
  mn_texts : gmap N string;
  mn_tags : gmap N VectorTags;
}.

Inductive ManifestRole := MAncestor | MBase | MInherited.

Record ManifestNode := mkManifestNode {
  mf_role : ManifestRole;
  mf_id : N;
  mf_label : option string;
  mf_file : string;
  mf_created_at : N;
  mf_tombstones : gset N;
}.

Record LineageManifest := mkLineage {
  lm_schema : N;
  lm_dimension : N;
  lm_paused : bool;
  lm_next_checkpoint : N;
  lm_next_vector : N;
  lm_ancestors : list ManifestNode;
  lm_base : ManifestNode;
  lm_inherited : list ManifestNode;
}.

Definition MANIFEST_SCHEMA_VERSION : N := 1.

(** What is at [manifest.json]: a manifest, or text that does not parse *)
Inductive ManifestFile := Manifest (m : LineageManifest) | Garbage (why : string).

(** The process-wide counters and the file system *)
Record World := mkWorld {
  w_node_seq : N;
  w_vector_id : N;
  w_files : gmap Path St;
  w_manifests : gmap string ManifestFile;
}.

Record BranchableMemory := mkMem {
  bm_dir : string;
  bm_dim : N;
  bm_working : option MemoryNode;
  bm_ancestors : list MemoryNode;
  bm_base : MemoryNode;
  bm_inherited : list MemoryNode;
}.

Definition set_files (w : World) (f : gmap Path St) : World := mkWorld (w_node_seq w) (w_vector_id w) f (w_manifests w).

(** [CheckpointId::alloc], [bump_watermark], [next_vector_id] *)
Definition alloc (w : World) : World * N :=
  (mkWorld (wrap_add64 (w_node_seq w) 1) (w_vector_id w) (w_files w) (w_manifests w), w_node_seq w).

Definition next_vector_id (w : World) : World * N :=
  (mkWorld (w_node_seq w) (wrap_add64 (w_vector_id w) 1) (w_files w) (w_manifests w), w_vector_id w).

Definition bump_watermarks (w : World) (node vector : N) : World :=
  mkWorld (N.max (w_node_seq w) node) (N.max (w_vector_id w) vector) (w_files w) (w_manifests w).

(** [MemoryNode::wrap], [create_root], [derive_from] *)
Definition wrap (id : N) (st : St) (p : Path) (label : option string) (now : N) : MemoryNode :=
  mkNode id label p now st ∅ ∅ ∅ ∅.

Definition lift {A} (r : result A string) : result A CowMemoryError :=
  match r with Ok x => Ok x | Err e => Err (CRvf e) end.

Definition create_root (w : World) (id : N) (p : Path) (dim : N) (label : option string) (now : N)
  : World * result MemoryNode CowMemoryError :=
  match rvf_create dim with
  | Err e => (w, Err (CRvf e))
  | Ok st => (set_files w (<[p := st]> (w_files w)), Ok (wrap id st p label now))
  end.

Definition derive_from (w : World) (id : N) (parent : St) (p : Path) (dim : N) (label : option string) (now : N)
  : World * result MemoryNode CowMemoryError :=
  match rvf_derive parent dim with
  | Err e => (w, Err (CRvf e))
  | Ok st => (set_files w (<[p := st]> (w_files w)), Ok (wrap id st p label now))
  end.

(** [open_readonly_snapshot] *)
Definition open_file (w : World) (p : Path) (read_only : bool) : result St CowMemoryError :=
  match w_files w !! p with
  | None => Err (CRvf "not found")
  | Some st => lift (if read_only then rvf_open_readonly st else rvf_open st)
  end.

Definition open_readonly_snapshot (w : World) (n : MemoryNode) : result MemoryNode CowMemoryError :=
  let? st := open_file w (mn_path n) true in
  Ok (mkNode (mn_id n) (mn_label n) (mn_path n) (mn_created_at n) st ∅ (mn_tombstones n) (mn_texts n) (mn_tags n)).

Definition working_name (id : N) : string := "node-" +:+ pretty id +:+ ".working.rvf".
Definition base_name (id : N) : string := "node-" +:+ pretty id +:+ ".base.rvf".

(** A fresh writable tip over [parent] *)
Definition fresh_working (w : World) (dir : string) (parent : St) (dim : N) (now : N)
  : World * result MemoryNode CowMemoryError :=
  let '(w, id) := alloc w in
  derive_from w id parent (dir, working_name id) dim (Some "working") now.

(** [build_manifest], [write_manifest]; [io] is the outcome of the write and
    the rename *)
Definition manifest_node_for (n : MemoryNode) (role : ManifestRole) : ManifestNode :=
  mkManifestNode role (mn_id n) (mn_label n) (mn_path n).2 (mn_created_at n) (mn_tombstones n).

Definition build_manifest (w : World) (m : BranchableMemory) : LineageManifest :=
  mkLineage MANIFEST_SCHEMA_VERSION (bm_dim m) (match bm_working m with None => true | Some _ => false end) (w_node_seq w) (w_vector_id w)
    (map (fun n => manifest_node_for n MAncestor) (bm_ancestors m)) (manifest_node_for (bm_base m) MBase)
    (map (fun n => manifest_node_for n MInherited) (bm_inherited m)).

Definition write_manifest (w : World) (m : BranchableMemory) (io : result unit string) : World * result unit CowMemoryError :=
  match io with
  | Err e => (w, Err (CIo e))
  | Ok _ => (mkWorld (w_node_seq w) (w_vector_id w) (w_files w) (<[bm_dir m := Manifest (build_manifest w m)]> (w_manifests w)), Ok tt)
  end.

Definition with_manifest {A} (w : World) (m : BranchableMemory) (io : result unit string) (x : A)
  : World * BranchableMemory * result A CowMemoryError :=
  let '(w, r) := write_manifest w m io in
  (w, m, match r with Ok _ => Ok x | Err e => Err e end).

(** ** Creating *)

(** [create_with_options]; [mk] is the outcome of creating the directory *)
Definition create (w : World) (dir : string) (dim now now' : N) (mk io : result unit string)
  : World * result BranchableMemory CowMemoryError :=
  if dim =? 0 then (w, Err InvalidDimension)
  else match mk with
  | Err e => (w, Err (CIo e))
  | Ok _ =>
      let '(w, bid) := alloc w in
      match create_root w bid (dir, base_name bid) dim (Some "base") now with
      | (w, Err e) => (w, Err e)
      | (w, Ok base) =>
          match fresh_working w dir (mn_store base) dim now' with
          | (w, Err e) => (w, Err e)
          | (w, Ok working) =>
              let m := mkMem dir dim (Some working) [] base [] in
              let '(w, r) := write_manifest w m io in
              (w, match r with Ok _ => Ok m | Err e => Err e end)
          end
      end
  end.

(** ** Writing and reading *)

Definition with_working (m : BranchableMemory) (n : option MemoryNode) : BranchableMemory :=
  mkMem (bm_dir m) (bm_dim m) n (bm_ancestors m) (bm_base m) (bm_inherited m).

(** The ids and normalized vectors of a batch; ids are taken from the counter
    as the items are checked *)
Fixpoint assign (w : World) (dim : N) (items : list VectorItem) : World * result (list (N * vec)) CowMemoryError :=
  match items with
  | [] => (w, Ok [])
  | it :: items =>
      if negb (lenN (vi_vector it) =? dim) then (w, Err (DimensionMismatch dim (lenN (vi_vector it))))
      else
        let '(w, id) := match vi_id it with Some i => (w, i) | None => next_vector_id w end in
        match assign w dim items with
        | (w, Ok l) => (w, Ok ((id, l2_normalize (vi_vector it)) :: l))
        | (w, Err e) => (w, Err e)
        end
  end.

(** The bookkeeping of one item *)
Definition note_item (n : MemoryNode) (x : (N * vec) * VectorItem) : MemoryNode :=
  let '((id, v), it) := x in
  mkNode (mn_id n) (mn_label n) (mn_path n) (mn_created_at n) (mn_store n) (<[id := v]> (mn_edit_log n))
    (mn_tombstones n ∖ {[id]})
    (match vi_text it with Some t => <[id := t]> (mn_texts n) | None => mn_texts n end)
    (if bool_decide (vi_tags it = ∅) then mn_tags n else <[id := vi_tags it]> (mn_tags n)).

Definition set_store (n : MemoryNode) (st : St) : MemoryNode :=
  mkNode (mn_id n) (mn_label n) (mn_path n) (mn_created_at n) st (mn_edit_log n) (mn_tombstones n) (mn_texts n) (mn_tags n).

(** [ingest] *)
Definition ingest (w : World) (m : BranchableMemory) (items : list VectorItem)
  : World * BranchableMemory * result (list N) CowMemoryError :=
  match items with
  | [] => (w, m, Ok [])
  | _ =>
      match bm_working m with
      | None => (w, m, Err Paused)
      | Some n =>
          match assign w (bm_dim m) items with
          | (w, Err e) => (w, m, Err e)
          | (w, Ok batch) =>
              let '(st, r) := rvf_ingest (mn_store n) batch in
              let w := set_files w (<[mn_path n := st]> (w_files w)) in
              let n := set_store n st in
              match r with
              | Err e => (w, with_working m (Some n), Err (CRvf e))
              | Ok _ => (w, with_working m (Some (foldl note_item n (zip batch items))), Ok batch.*1)
              end
          end
      end
  end.

(** [delete] *)
Definition forget (n : MemoryNode) (ids : list N) : MemoryNode :=
  mkNode (mn_id n) (mn_label n) (mn_path n) (mn_created_at n) (mn_store n)
    (foldl (fun l i => base.delete i l) (mn_edit_log n) ids) (mn_tombstones n ∪ list_to_set ids)
    (foldl (fun l i => base.delete i l) (mn_texts n) ids) (foldl (fun l i => base.delete i l) (mn_tags n) ids).

Definition delete (m : BranchableMemory) (ids : list N) : BranchableMemory * result unit CowMemoryError :=
  match ids with
  | [] => (m, Ok tt)
  | _ =>
      match bm_working m with
      | None => (m, Err Paused)
      | Some n => (with_working m (Some (forget n ids)), Ok tt)
      end
  end.

(** [chain_priority_order] *)
Definition chain_priority_order (m : BranchableMemory) : list MemoryNode :=
  option_list (bm_working m) ++ bm_ancestors m ++ [bm_base m] ++ bm_inherited m.

Definition OVERSCAN_FACTOR : N := 4.

(** One result of a node: not masked, not hidden, not seen *)
Definition keep (masked tombs : gset N) (st : gset N * list (N * f32)) (r : N * f32) : gset N * list (N * f32) :=
  if bool_decide (r.1 ∈ masked) || bool_decide (r.1 ∈ tombs) || bool_decide (r.1 ∈ st.1) then st
  else ({[r.1]} ∪ st.1, st.2 ++ [r]).

(** [query_chain]: the walk, from the ids masked and seen so far *)
Fixpoint walk_chain (chain : list MemoryNode) (q : vec) (overscan : N) (masked seen : gset N)
  : result (list (N * f32)) CowMemoryError :=
  match chain with
  | [] => Ok []
  | n :: chain =>
      let? res := lift (rvf_query (mn_store n) q overscan) in
      let '(seen, kept) := foldl (keep masked (mn_tombstones n)) (seen, []) res in
      let? older := walk_chain chain q overscan (masked ∪ mn_tombstones n) seen in
      Ok (kept ++ older)
  end.

Definition scored_le (a b : N * f32) : Prop := F32.ltb b.2 a.2 = false.

#[local] Instance scored_le_dec : RelDecision scored_le.
Proof. intros a b. unfold scored_le. apply _. Defined.

Definition overscan_of (k : N) : N := N.max (N.max (N.min (k * OVERSCAN_FACTOR) (u64_mod - 1)) k) 1.

Definition query_chain (chain : list MemoryNode) (q : vec) (k : N) : result (list (N * f32)) CowMemoryError :=
  let? merged := walk_chain chain q (overscan_of k) ∅ ∅ in
  Ok (take (N.to_nat k) (merge_sort scored_le merged)).

(** [query] *)
Definition query (m : BranchableMemory) (v : vec) (k : N) : result (list (N * f32)) CowMemoryError :=
  if negb (lenN v =? bm_dim m) then Err (DimensionMismatch (bm_dim m) (lenN v))
  else if k =? 0 then Ok []
  else query_chain (chain_priority_order m) (l2_normalize v) k.

(** [diff] *)
Definition diff (m : BranchableMemory) : list N * list N :=
  match bm_working m with
  | None => ([], [])
  | Some n => (merge_sort N.le (elements (dom (mn_edit_log n))), merge_sort N.le (elements (mn_tombstones n)))
  end.

(** ** Checkpoints *)

Definition set_label (n : MemoryNode) (label : option string) : MemoryNode :=
  mkNode (mn_id n) label (mn_path n) (mn_created_at n) (mn_store n) (mn_edit_log n) (mn_tombstones n) (mn_texts n) (mn_tags n).

(** [MemoryNode::freeze] *)
Definition freeze (w : World) (n : MemoryNode) : World * MemoryNode * result unit CowMemoryError :=
  let '(st, r) := rvf_freeze (mn_store n) in
  (set_files w (<[mn_path n := st]> (w_files w)), set_store n st, lift r).

(** [checkpoint] *)
Definition checkpoint (w : World) (m : BranchableMemory) (label : string) (now : N) (io : result unit string)
  : World * BranchableMemory * result N CowMemoryError :=
  match bm_working m with
  | None => (w, m, Err Paused)
  | Some n =>
      let '(w, n, r) := freeze w n in
      match r with
      | Err e => (w, with_working m (Some n), Err e)
      | Ok _ =>
          match fresh_working w (bm_dir m) (mn_store n) (bm_dim m) now with
          | (w, Err e) => (w, with_working m (Some n), Err e)
          | (w, Ok n') =>
              with_manifest w (mkMem (bm_dir m) (bm_dim m) (Some n') (set_label n (Some label) :: bm_ancestors m)
                                 (bm_base m) (bm_inherited m)) io (mn_id n)
          end
      end
  end.

(** [pause] *)
Definition pause (w : World) (m : BranchableMemory) (label : string) (io : result unit string)
  : World * BranchableMemory * result unit CowMemoryError :=
  match bm_working m with
  | None => (w, m, Ok tt)
  | Some n =>
      let '(w, n, r) := freeze w n in
      match r with
      | Err e => (w, with_working m (Some n), Err e)
      | Ok _ =>
          with_manifest w (mkMem (bm_dir m) (bm_dim m) None (set_label n (Some label) :: bm_ancestors m)
                             (bm_base m) (bm_inherited m)) io tt
      end
  end.

(** The store a new tip derives from *)
Definition head_store (m : BranchableMemory) : St :=
  match bm_ancestors m with n :: _ => mn_store n | [] => mn_store (bm_base m) end.

(** [resume] *)
Definition resume (w : World) (m : BranchableMemory) (now : N) (io : result unit string)
  : World * BranchableMemory * result unit CowMemoryError :=
  match bm_working m with
  | Some _ => (w, m, Ok tt)
  | None =>
      match fresh_working w (bm_dir m) (head_store m) (bm_dim m) now with
      | (w, Err e) => (w, m, Err e)
      | (w, Ok n) => with_manifest w (with_working m (Some n)) io tt
      end
  end.

(** [remove_file_best_effort]; removals of files in [stuck] fail *)
Definition remove_files (w : World) (stuck : gset Path) (ps : list Path) : World :=
  set_files w (foldl (fun f p => if bool_decide (p ∈ stuck) then f else base.delete p f) (w_files w) ps).

Definition with_ancestors (m : BranchableMemory) (ns : list MemoryNode) : BranchableMemory :=
  mkMem (bm_dir m) (bm_dim m) (bm_working m) ns (bm_base m) (bm_inherited m).

(** [rollback]: the checkpoints newer than the target are gone, also when the
    new tip cannot be made *)
Definition rollback (w : World) (m : BranchableMemory) (to : option N) (now : N) (stuck : gset Path) (io : result unit string)
  : World * BranchableMemory * result unit CowMemoryError :=
  match bm_working m with
  | None => (w, m, Err Paused)
  | Some old =>
      match match to with
            | None => Ok (length (bm_ancestors m))
            | Some id => ok_or (fst <$> list_find (fun n => mn_id n = id) (bm_ancestors m)) (CheckpointNotFound id)
            end with
      | Err e => (w, m, Err e)
      | Ok idx =>
          let discarded := take idx (bm_ancestors m) in
          let m := with_ancestors m (drop idx (bm_ancestors m)) in
          match fresh_working w (bm_dir m) (head_store m) (bm_dim m) now with
          | (w, Err e) => (w, m, Err e)
          | (w, Ok n) =>
              let w := remove_files w stuck (map mn_path discarded ++ [mn_path old]) in
              with_manifest w (with_working m (Some n)) io tt
          end
      end
  end.

Record PromoteReport := mkReport {
  pr_ingested : N;
  pr_deleted : N;
  pr_child : bytes;
  pr_parent : bytes;
  pr_parent_hash : bytes;
}.

(** One node's replay into the base: its edits, then its tombstones *)
Definition copy_into {V} (from : gmap N V) (ids : list N) (to : gmap N V) : gmap N V :=
  foldl (fun m i => match from !! i with Some x => <[i := x]> m | None => m end) to ids.

Definition replay_edits (w : World) (base n : MemoryNode) : World * MemoryNode * result N CowMemoryError :=
  if bool_decide (mn_edit_log n = ∅) then (w, base, Ok 0)
  else
    let batch := map_to_list (mn_edit_log n) in
    let '(st, r) := rvf_ingest (mn_store base) batch in
    let w := set_files w (<[mn_path base := st]> (w_files w)) in
    match r with
    | Err e => (w, set_store base st, Err (CRvf e))
    | Ok _ =>
        (w, mkNode (mn_id base) (mn_label base) (mn_path base) (mn_created_at base) st (mn_edit_log base) (mn_tombstones base)
              (copy_into (mn_texts n) batch.*1 (mn_texts base)) (copy_into (mn_tags n) batch.*1 (mn_tags base)), Ok (lenN batch))
    end.

Definition replay_tombstones (w : World) (base n : MemoryNode) : World * MemoryNode * result N CowMemoryError :=
  if bool_decide (mn_tombstones n = ∅) then (w, base, Ok 0)
  else
    let ids := elements (mn_tombstones n) in
    let '(st, r) := rvf_delete (mn_store base) ids in
    let w := set_files w (<[mn_path base := st]> (w_files w)) in
    match r with
    | Err e => (w, set_store base st, Err (CRvf e))
    | Ok _ =>
        (w, mkNode (mn_id base) (mn_label base) (mn_path base) (mn_created_at base) st (mn_edit_log base)
              (mn_tombstones base ∪ mn_tombstones n) (mn_texts base) (mn_tags base), Ok (lenN ids))
    end.

Fixpoint replay (w : World) (base : MemoryNode) (ns : list MemoryNode) (ing del : N)
  : World * MemoryNode * result (N * N) CowMemoryError :=
  match ns with
  | [] => (w, base, Ok (ing, del))
  | n :: ns =>
      let '(w, base, r) := replay_edits w base n in
      match r with
      | Err e => (w, base, Err e)
      | Ok i =>
          let '(w, base, r) := replay_tombstones w base n in
          match r with
          | Err e => (w, base, Err e)
          | Ok d => replay w base ns (ing + i) (del + d)
          end
      end
  end.

Definition with_base (m : BranchableMemory) (b : MemoryNode) : BranchableMemory :=
  mkMem (bm_dir m) (bm_dim m) (bm_working m) (bm_ancestors m) b (bm_inherited m).

(** [promote] *)
Definition promote (w : World) (m : BranchableMemory) (now : N) (stuck : gset Path) (io : result unit string)
  : World * BranchableMemory * result PromoteReport CowMemoryError :=
  match bm_working m with
  | None => (w, m, Err Paused)
  | Some old =>
      let '(w, base, r) := replay w (bm_base m) (rev (bm_ancestors m) ++ [old]) 0 0 in
      match r with
      | Err e => (w, with_base m base, Err e)
      | Ok (ing, del) =>
          let discarded := bm_ancestors m in
          let m := mkMem (bm_dir m) (bm_dim m) (bm_working m) [] base (bm_inherited m) in
          match fresh_working w (bm_dir m) (mn_store base) (bm_dim m) now with
          | (w, Err e) => (w, m, Err e)
          | (w, Ok n) =>
              let w := remove_files w stuck (map mn_path discarded ++ [mn_path old]) in
              with_manifest w (with_working m (Some n)) io
                (mkReport ing del (rvf_file_id (mn_store old)) (rvf_file_id (mn_store base)) (rvf_witness (mn_store base)))
          end
      end
  end.

(** ** Branches *)

Fixpoint snapshots (w : World) (ns : list MemoryNode) : result (list MemoryNode) CowMemoryError :=
  match ns with
  | [] => Ok []
  | n :: ns => let? x := open_readonly_snapshot w n in let? xs := snapshots w ns in Ok (x :: xs)
  end.

(** [spawn_independent] from the nodes of the source point *)
Definition spawn_independent (w : World) (m : BranchableMemory) (source : list MemoryNode) (dir : string) (now now' : N)
  (mk io : result unit string) : World * result BranchableMemory CowMemoryError :=
  match mk with
  | Err e => (w, Err (CIo e))
  | Ok _ =>
      match snapshots w (source ++ [bm_base m] ++ bm_inherited m) with
      | Err e => (w, Err e)
      | Ok [] => (w, Err (CIo "spawn_independent: inherited chain unexpectedly empty"))
      | Ok (h :: t) =>
          let '(w, bid) := alloc w in
          match derive_from w bid (mn_store h) (dir, base_name bid) (bm_dim m) (Some "base") now with
          | (w, Err e) => (w, Err e)
          | (w, Ok base) =>
              match fresh_working w dir (mn_store base) (bm_dim m) now' with
              | (w, Err e) => (w, Err e)
              | (w, Ok working) =>
                  let child := mkMem dir (bm_dim m) (Some working) [] base (h :: t) in
                  let '(w, r) := write_manifest w child io in
                  (w, match r with Ok _ => Ok child | Err e => Err e end)
              end
          end
      end
  end.

(** [branch], [fork] *)
Definition branch (w : World) (m : BranchableMemory) (dir : string) (now now' : N) (mk io : result unit string)
  : World * result BranchableMemory CowMemoryError :=
  match bm_working m with
  | None => (w, Err Paused)
  | Some n => spawn_independent w m (n :: bm_ancestors m) dir now now' mk io
  end.

Definition fork (w : World) (m : BranchableMemory) (from : N) (dir : string) (now now' : N) (mk io : result unit string)
  : World * result BranchableMemory CowMemoryError :=
  match list_find (fun n => mn_id n = from) (bm_ancestors m) with
  | None => (w, Err (CheckpointNotFound from))
  | Some (idx, _) => spawn_independent w m (drop idx (bm_ancestors m)) dir now now' mk io
  end.

(** ** Reopening *)

(** [reopen_node]: a fresh id, no edit log, no texts, no tags *)
Definition reopen_node (w : World) (dir : string) (n : ManifestNode) (read_only : bool) (now : N)
  : World * result MemoryNode CowMemoryError :=
  let p := (dir, mf_file n) in
  match open_file w p read_only with
  | Err e => (w, Err e)
  | Ok st =>
      let '(w, id) := alloc w in
      let node := wrap id st p (mf_label n) now in
      (w, Ok (mkNode (mn_id node) (mn_label node) (mn_path node) (mf_created_at n) st ∅ (mf_tombstones n) ∅ ∅))
  end.

Fixpoint reopen_nodes (w : World) (dir : string) (ns : list ManifestNode) (now : N)
  : World * result (list MemoryNode) CowMemoryError :=
  match ns with
  | [] => (w, Ok [])
  | n :: ns =>
      match reopen_node w dir n true now with
      | (w, Err e) => (w, Err e)
      | (w, Ok x) =>
          match reopen_nodes w dir ns now with
          | (w, Err e) => (w, Err e)
          | (w, Ok xs) => (w, Ok (x :: xs))
          end
      end
  end.

(** [open_with_manifest] *)
Definition open_with_manifest (w : World) (dir : string) (lm : LineageManifest) (now : N)
  : World * result BranchableMemory CowMemoryError :=
  let w := bump_watermarks w (lm_next_checkpoint lm) (lm_next_vector lm) in
  match reopen_node w dir (lm_base lm) false now with
  | (w, Err e) => (w, Err e)
  | (w, Ok base) =>
      match reopen_nodes w dir (lm_ancestors lm) now with
      | (w, Err e) => (w, Err e)
      | (w, Ok ancestors) =>
          match reopen_nodes w dir (lm_inherited lm) now with
          | (w, Err e) => (w, Err e)
          | (w, Ok inherited) =>
              let m := mkMem dir (lm_dimension lm) None ancestors base inherited in
              if lm_paused lm then (w, Ok m)
              else match fresh_working w dir (head_store m) (lm_dimension lm) now with
                   | (w, Err e) => (w, Err e)
                   | (w, Ok n) => (w, Ok (with_working m (Some n)))
                   end
          end
      end
  end.

(** [find_base_file]: the first in name order *)
Definition is_base_file (name : string) : bool := String.prefix (rev_string ".base.rvf") (rev_string name).

Definition find_base_file (w : World) (dir : string) : result string CowMemoryError :=
  let names := List.filter is_base_file ((List.filter (fun p => String.eqb p.1 dir) (elements (dom (w_files w)))).*2) in
  ok_or (head (sort_keys names)) (CIo ("no *.base.rvf file found in " +:+ dir)).

(** [open] *)
Definition open (w : World) (dir : string) (now : N) : World * result BranchableMemory CowMemoryError :=
  match w_manifests w !! dir with
  | Some (Garbage why) => (w, Err (ManifestCorrupt (dir +:+ "/manifest.json") ("failed to parse manifest json: " +:+ why)))
  | Some (Manifest lm) =>
      if negb (lm_schema lm =? MANIFEST_SCHEMA_VERSION) then
        (w, Err (ManifestCorrupt (dir +:+ "/manifest.json")
               ("unsupported manifest schema_version " +:+ pretty (lm_schema lm) +:+ " (expected 1)")))
      else open_with_manifest w dir lm now
  | None =>
      match find_base_file w dir with
      | Err e => (w, Err e)
      | Ok name =>
          match open_file w (dir, name) false with
          | Err e => (w, Err e)
          | Ok st =>
              let '(w, id) := alloc w in
              let base := wrap id st (dir, name) (Some "base") now in
              match fresh_working w dir st (rvf_dimension st) now with
              | (w, Err e) => (w, Err e)
              | (w, Ok n) => (w, Ok (mkMem dir (rvf_dimension st) (Some n) [] base []))
              end
          end
      end
  end.

End Cow.
