(* ===== verification/CowSpec.v ===== *)
(** * What branchable memory promises

    The stores of a lineage, walked from the newest, are one map from ids to
    vectors, with the maps of the checkpoints behind it.  Every operation does
    to those maps what its name says. *)

From Stdlib Require Import Strings.String SpecFloat.
From S2P Require Import Prelude Codec Scoring CowMemory.

Local Open Scope string_scope.
Local Open Scope list_scope.
Local Open Scope N_scope.

(** A batch written to a map, in order *)
Definition write_all (m : gmap N vec) (b : list (N * vec)) : gmap N vec := foldl (fun m x => <[x.1 := x.2]> m) m b.

(** What the crate relies on of rvf-runtime, as its comments record it: a
    derived store starts empty, a batch is written in order, a deletion marks
    ids that are present and is never undone by a later write, opening and
    freezing change nothing, and a query scans the ids of its own store that
    are not marked and returns the nearest. *)
Class RvfLaws `{Rvf} := {
  written : St -> gmap N vec;
  dropped : St -> gset N;
  dist : vec -> vec -> f32;
  create_empty dim st : rvf_create dim = Ok st -> written st = ∅ /\ dropped st = ∅;
  derive_empty p dim st : rvf_derive p dim = Ok st -> written st = ∅ /\ dropped st = ∅;
  open_same st st' : rvf_open st = Ok st' -> written st' = written st /\ dropped st' = dropped st;
  readonly_same st st' : rvf_open_readonly st = Ok st' -> written st' = written st /\ dropped st' = dropped st;
  freeze_same st st' : rvf_freeze st = (st', Ok tt) -> written st' = written st /\ dropped st' = dropped st;
  ingest_writes st b st' : rvf_ingest st b = (st', Ok tt) ->
    written st' = write_all (written st) b /\ dropped st' = dropped st;
  delete_marks st ids st' : rvf_delete st ids = (st', Ok tt) ->
    written st' = written st /\
    forall i, i ∈ dropped st' <-> i ∈ dropped st \/ (i ∈ ids /\ is_Some (written st !! i));
  query_found st q k res : rvf_query st q k = Ok res ->
    NoDup res.*1 /\
    (forall i d, (i, d) ∈ res -> i ∉ dropped st /\ exists v, written st !! i = Some v /\ d = dist q v) /\
    (lenN (elements (dom (written st))) <= k ->
     forall i v, written st !! i = Some v -> i ∉ dropped st -> (i, dist q v) ∈ res);
}.

(** ** Distances in order *)

Lemma ltb_asym (a b : f32) : F32.ltb a b = true -> F32.ltb b a = false.
Proof.
  unfold F32.ltb, SFltb. destruct a as [[]|[]| |[] m1 e1], b as [[]|[]| |[] m2 e2]; cbn; try done; F64.sf_cases.
Qed.

Lemma not_ltb_trans (a b c : f32) :
  F32.is_nan b = false -> F32.ltb b a = false -> F32.ltb c b = false -> F32.ltb c a = false.
Proof.
  unfold F32.ltb, SFltb.
  destruct a as [[]|[]| |[] m1 e1], b as [[]|[]| |[] m2 e2], c as [[]|[]| |[] m3 e3]; cbn; try done; F64.sf_cases.
Qed.

#[local] Instance scored_le_total : Total scored_le.
Proof. intros a b. unfold scored_le. destruct (F32.ltb b.2 a.2) eqn:E; [right; by apply ltb_asym|by left]. Qed.

#[local] Existing Instance scored_le_dec.

(** A list sorted by distances that are numbers is sorted throughout. *)
Lemma scored_sorted l :
  Forall (fun x => F32.is_nan x.2 = false) l -> Sorted scored_le l -> StronglySorted scored_le l.
Proof.
  intros Hn Hs. induction Hs as [|x l Hs IH Hr]; [constructor|]. apply Forall_cons in Hn as [Hx Hn]. constructor; [by apply IH|].
  specialize (IH Hn). destruct Hr as [|y l Hxy]; constructor; [done|]. apply Forall_cons in Hn as [Hy Hn].
  apply StronglySorted_inv in IH as [_ IH]. eapply Forall_impl; [exact IH|]. intros z Hyz. unfold scored_le in *.
  by eapply not_ltb_trans.
Qed.

Section View.
Context `{RvfLaws}.

Definition live (st : St) : gmap N vec := filter (fun p => p.1 ∉ dropped st) (written st).

(** What a lineage shows: the newest node that has the id decides, by its
    vector or by its tombstone *)
Definition hide (t : gset N) (m : gmap N vec) : gmap N vec := filter (fun p => p.1 ∉ t) m.

Definition view (ns : list MemoryNode) : gmap N vec :=
  foldr (fun n v => hide (mn_tombstones n) (live (mn_store n) ∪ v)) ∅ ns.

Fixpoint points (ns rest : list MemoryNode) : list (N * gmap N vec) :=
  match ns with
  | [] => []
  | n :: ns => (mn_id n, view (n :: ns ++ rest)) :: points ns rest
  end.

(** The abstract memory: the id of the writable tip (none while paused), what
    is visible, the checkpoints, newest first, and what is durable *)
Record Abs := mkAbs {
  a_tip : option N;
  a_view : gmap N vec;
  a_points : list (N * gmap N vec);
  a_base : gmap N vec;
}.

Definition root (m : BranchableMemory) : list MemoryNode := bm_base m :: bm_inherited m.

Definition abs (m : BranchableMemory) : Abs :=
  mkAbs (mn_id <$> bm_working m) (view (chain_priority_order m)) (points (bm_ancestors m) (root m)) (view (root m)).

(** ** The operations *)

Inductive Op :=
| OIngest (items : list VectorItem)
| ODelete (ids : list N)
| OCheckpoint (label : string) (now : N) (io : result unit string)
| OPause (label : string) (io : result unit string)
| OResume (now : N) (io : result unit string)
| ORollback (to : option N) (now : N) (stuck : gset Path) (io : result unit string)
| OPromote (now : N) (stuck : gset Path) (io : result unit string).

Inductive Reply := RIds (ids : list N) | RPoint (id : N) | RDone | RPromoted (r : PromoteReport).

Definition reply {A} (f : A -> Reply) (r : result A CowMemoryError) : result Reply CowMemoryError :=
  match r with Ok x => Ok (f x) | Err e => Err e end.

Definition run (w : World) (m : BranchableMemory) (o : Op) : World * BranchableMemory * result Reply CowMemoryError :=
  match o with
  | OIngest items => let '(w, m, r) := ingest w m items in (w, m, reply RIds r)
  | ODelete ids => let '(m, r) := CowMemory.delete m ids in (w, m, reply (fun _ => RDone) r)
  | OCheckpoint l now io => let '(w, m, r) := checkpoint w m l now io in (w, m, reply RPoint r)
  | OPause l io => let '(w, m, r) := pause w m l io in (w, m, reply (fun _ => RDone) r)
  | OResume now io => let '(w, m, r) := resume w m now io in (w, m, reply (fun _ => RDone) r)
  | ORollback to now stuck io => let '(w, m, r) := rollback w m to now stuck io in (w, m, reply (fun _ => RDone) r)
  | OPromote now stuck io => let '(w, m, r) := promote w m now stuck io in (w, m, reply RPromoted r)
  end.

(** What an operation that succeeds does to the abstract memory *)
Inductive spec_step : Op -> Reply -> Abs -> Abs -> Prop :=
| sp_nothing o r a : o = OIngest [] /\ r = RIds [] \/ o = ODelete [] /\ r = RDone -> spec_step o r a a
| sp_ingest items ids t v ps b :
    length ids = length items -> (forall k it i, items !! k = Some it -> vi_id it = Some i -> ids !! k = Some i) ->
    spec_step (OIngest items) (RIds ids) (mkAbs (Some t) v ps b)
      (mkAbs (Some t) (write_all v (zip ids (map (fun it => l2_normalize (vi_vector it)) items))) ps b)
| sp_delete ids t v ps b :
    spec_step (ODelete ids) RDone (mkAbs (Some t) v ps b) (mkAbs (Some t) (hide (list_to_set ids) v) ps b)
| sp_checkpoint l now io t t' v ps b :
    spec_step (OCheckpoint l now io) (RPoint t) (mkAbs (Some t) v ps b) (mkAbs (Some t') v ((t, v) :: ps) b)
| sp_pause l io t v ps b : spec_step (OPause l io) RDone (mkAbs (Some t) v ps b) (mkAbs None v ((t, v) :: ps) b)
| sp_paused l io v ps b : spec_step (OPause l io) RDone (mkAbs None v ps b) (mkAbs None v ps b)
| sp_resume now io t' v ps b : spec_step (OResume now io) RDone (mkAbs None v ps b) (mkAbs (Some t') v ps b)
| sp_running now io t v ps b : spec_step (OResume now io) RDone (mkAbs (Some t) v ps b) (mkAbs (Some t) v ps b)
| sp_discard now stuck io t t' v ps b :
    spec_step (ORollback None now stuck io) RDone (mkAbs (Some t) v ps b) (mkAbs (Some t') b [] b)
| sp_rollback id now stuck io t t' v newer vp ps b :
    id ∉ newer.*1 ->
    spec_step (ORollback (Some id) now stuck io) RDone (mkAbs (Some t) v (newer ++ (id, vp) :: ps) b)
      (mkAbs (Some t') vp ((id, vp) :: ps) b)
| sp_promote now stuck io rep t t' v ps b :
    spec_step (OPromote now stuck io) (RPromoted rep) (mkAbs (Some t) v ps b) (mkAbs (Some t') v [] v).

(** ** The invariant *)

(** The store of a checkpoint or a tip never deletes: deletions are tombstones of
    the node. *)
Definition node_ok (n : MemoryNode) : Prop := dropped (mn_store n) = ∅.

Record mem_ok (m : BranchableMemory) : Prop := mkMemOk {
  mo_nodes : Forall node_ok (option_list (bm_working m) ++ bm_ancestors m);
  mo_base : dropped (mn_store (bm_base m)) ⊆ mn_tombstones (bm_base m);
}.

(** No node writes an id again that an older one, down to the base, deleted *)
Fixpoint no_readd (ns : list MemoryNode) : Prop :=
  match ns with
  | [] => True
  | n :: ns => Forall (fun o => dom (mn_edit_log n) ## mn_tombstones o) ns /\ no_readd ns
  end.

(** A node that was written to in this process: its edit log is what it shows.
    A node with content that was opened again from its file is none. *)
Definition logged (n : MemoryNode) : Prop := mn_edit_log n = hide (mn_tombstones n) (written (mn_store n)).

Definition in_process (m : BranchableMemory) : Prop := Forall logged (option_list (bm_working m) ++ bm_ancestors m).

Definition promotable (m : BranchableMemory) : Prop :=
  in_process m /\
  no_readd (option_list (bm_working m) ++ bm_ancestors m ++ [bm_base m]).

(** ** Views *)

Lemma hide_lookup t m i : hide t m !! i = if decide (i ∈ t) then None else m !! i.
Proof.
  unfold hide. case_decide as Hd.
  - apply map_lookup_filter_None. right. intros x _ Hx. done.
  - destruct (m !! i) as [x|] eqn:E; [by apply map_lookup_filter_Some|]. apply map_lookup_filter_None. by left.
Qed.

Lemma live_lookup st i : live st !! i = if decide (i ∈ dropped st) then None else written st !! i.
Proof. apply (hide_lookup (dropped st) (written st)). Qed.

Lemma view_lookup n ns i :
  view (n :: ns) !! i =
  if decide (i ∈ mn_tombstones n) then None
  else match live (mn_store n) !! i with Some v => Some v | None => view ns !! i end.
Proof.
  cbn [view foldr]. rewrite hide_lookup. case_decide; [done|]. rewrite lookup_union. fold (view ns).
  destruct (live (mn_store n) !! i), (view ns !! i); done.
Qed.

Lemma view_ext n n' ns ns' :
  written (mn_store n) = written (mn_store n') -> dropped (mn_store n) = dropped (mn_store n') ->
  mn_tombstones n = mn_tombstones n' -> view ns = view ns' -> view (n :: ns) = view (n' :: ns').
Proof.
  intros E1 E2 E3 E4. apply map_eq. intros i. by rewrite !view_lookup, !live_lookup, E1, E2, E3, E4.
Qed.

(** A node with nothing written shows what is below it. *)
Lemma view_fresh n ns : written (mn_store n) = ∅ -> mn_tombstones n = ∅ -> view (n :: ns) = view ns.
Proof.
  intros E1 E2. apply map_eq. intros i. rewrite view_lookup, live_lookup, E1, E2, lookup_empty.
  rewrite decide_False by set_solver. by destruct (decide _).
Qed.

Lemma write_all_lookup m b i :
  write_all m b !! i = match last (filter (fun x => x.1 = i) b) with Some x => Some x.2 | None => m !! i end.
Proof.
  unfold write_all. revert m. induction b as [|[j v] b IH]; intros m; [done|]. cbn [foldl]. rewrite IH, filter_cons. cbn [fst].
  case_decide as E; [|by rewrite lookup_insert_ne]. subst j. rewrite lookup_insert_eq.
  destruct (filter _ b) as [|x l]; [done|]. destruct (last (x :: l)) eqn:E; [|by apply last_None in E].
  by rewrite last_cons_cons, E.
Qed.

(** Writing below a view that does not hide it *)
Lemma write_all_dom m b i : is_Some (write_all m b !! i) <-> i ∈ b.*1 \/ is_Some (m !! i).
Proof.
  unfold write_all. revert m. induction b as [|[j v] b IH]; intros m; cbn [foldl fmap list_fmap fst]; [set_solver|].
  rewrite IH, elem_of_cons. destruct (decide (i = j)) as [->|]; [rewrite lookup_insert_eq|rewrite lookup_insert_ne by done]; naive_solver.
Qed.

Lemma write_all_other m b i : i ∉ b.*1 -> write_all m b !! i = m !! i.
Proof.
  unfold write_all. revert m. induction b as [|[j v] b IH]; intros m; cbn [foldl fmap list_fmap fst]; [done|].
  intros [Hj Hb]%not_elem_of_cons. rewrite IH by done. by rewrite lookup_insert_ne.
Qed.

Lemma write_all_same m m' b i : i ∈ b.*1 -> write_all m b !! i = write_all m' b !! i.
Proof.
  unfold write_all. revert m m'. induction b as [|[j v] b IH]; intros m m'; cbn [foldl fmap list_fmap fst]; [set_solver|].
  intros Hi. destruct (decide (i ∈ b.*1)) as [Hb|Hb]; [by apply IH|].
  assert (i = j) as -> by (apply elem_of_cons in Hi as [|]; done).
  fold (write_all (<[j := v]> m) b) (write_all (<[j := v]> m') b). rewrite !write_all_other by done. by rewrite !lookup_insert_eq.
Qed.

Lemma hide_write t m b : write_all (hide t m) b = hide (t ∖ list_to_set b.*1) (write_all m b).
Proof.
  apply map_eq. intros i. rewrite hide_lookup. destruct (decide (i ∈ b.*1)) as [Hi|Hi].
  - rewrite (write_all_same _ m) by done. rewrite decide_False; [done|]. rewrite elem_of_difference, elem_of_list_to_set. tauto.
  - rewrite !write_all_other by done. rewrite hide_lookup. 
    destruct (decide (i ∈ t)); [rewrite decide_True|rewrite decide_False]; try done;
      rewrite elem_of_difference, elem_of_list_to_set; tauto.
Qed.

Lemma abs_working m n :
  bm_working m = Some n ->
  abs m = mkAbs (Some (mn_id n)) (view (n :: bm_ancestors m ++ root m)) (points (bm_ancestors m) (root m)) (view (root m)).
Proof. intros Hw. unfold abs, chain_priority_order. by rewrite Hw. Qed.

Lemma abs_paused m :
  bm_working m = None ->
  abs m = mkAbs None (view (bm_ancestors m ++ root m)) (points (bm_ancestors m) (root m)) (view (root m)).
Proof. intros Hw. unfold abs, chain_priority_order. by rewrite Hw. Qed.

Lemma mem_ok_working m n :
  bm_working m = Some n ->
  mem_ok m <-> node_ok n /\ Forall node_ok (bm_ancestors m) /\ dropped (mn_store (bm_base m)) ⊆ mn_tombstones (bm_base m).
Proof.
  intros Hw. split.
  - intros [Hns Hb]. rewrite Hw in Hns. apply Forall_cons in Hns as [? ?]. done.
  - intros (? & ? & ?). split; [rewrite Hw; by constructor|done].
Qed.

(** ** A fresh tip *)

Definition blank (n : MemoryNode) : Prop :=
  written (mn_store n) = ∅ /\ dropped (mn_store n) = ∅ /\ mn_tombstones n = ∅ /\ mn_edit_log n = ∅.

Lemma derive_blank w id p path dim label now w' n : derive_from w id p path dim label now = (w', Ok n) -> blank n.
Proof.
  unfold derive_from. destruct (rvf_derive p dim) as [st|] eqn:E; [|done]. intros [= _ <-].
  apply derive_empty in E as [? ?]. done.
Qed.

Lemma fresh_blank w dir p dim now w' n : fresh_working w dir p dim now = (w', Ok n) -> blank n.
Proof. unfold fresh_working. destruct (alloc w). apply derive_blank. Qed.

Lemma blank_ok n : blank n -> node_ok n.
Proof. by intros (E1 & E2 & _). Qed.

Lemma blank_view n ns : blank n -> view (n :: ns) = view ns.
Proof. intros (E1 & _ & E3 & _). by apply view_fresh. Qed.

(** ** Writing *)

Lemma assign_spec w dim items w' b :
  assign w dim items = (w', Ok b) ->
  b.*2 = map (fun it => l2_normalize (vi_vector it)) items /\ length b = length items /\
  forall k it i, items !! k = Some it -> vi_id it = Some i -> b.*1 !! k = Some i.
Proof.
  revert w w' b. induction items as [|it items IH]; intros w w' b; cbn [assign].
  - intros [= _ <-]. done.
  - destruct (negb _); [done|]. destruct (match vi_id it with Some i => (w, i) | None => next_vector_id w end) as [w1 id] eqn:Ei.
    destruct (assign w1 dim items) as [w2 [l|e]] eqn:Ea; [|done]. intros [= _ <-].
    destruct (IH _ _ _ Ea) as (E1 & E2 & E3). cbn [fmap list_fmap fst snd map length]. split; [by rewrite <- E1|]. split; [by rewrite E2|].
    intros [|k] it' i Hk Hid; cbn in *; [|by eapply E3]. injection Hk as ->. rewrite Hid in Ei. by injection Ei as _ ->.
Qed.

Lemma note_items n b items :
  length b = length items ->
  let n' := foldl note_item n (zip b items) in
  mn_id n' = mn_id n /\ mn_store n' = mn_store n /\ mn_tombstones n' = mn_tombstones n ∖ list_to_set b.*1 /\
  mn_edit_log n' = write_all (mn_edit_log n) b.
Proof.
  cbn zeta. revert n items. induction b as [|[id v] b IH]; intros n [|it items] Hl; try done.
  - cbn [foldl zip zip_with fmap list_fmap list_to_set]. split_and!; try done. set_solver.
  - cbn [zip zip_with foldl]. destruct (IH (note_item n ((id, v), it)) items) as (-> & -> & -> & ->); [by injection Hl|].
    unfold note_item. cbn [mn_id mn_store mn_tombstones mn_edit_log fmap list_fmap fst list_to_set foldr].
    split_and!; try done. set_solver.
Qed.

Lemma ingest_refines w m items w' m' ids :
  mem_ok m -> ingest w m items = (w', m', Ok ids) ->
  mem_ok m' /\ spec_step (OIngest items) (RIds ids) (abs m) (abs m').
Proof.
  intros Hok Hr. unfold ingest in Hr. destruct items as [|it items']; [injection Hr as <- <- <-; split; [done|constructor; by left]|].
  set (items := it :: items') in *. clearbody items.
  destruct (bm_working m) as [n|] eqn:Hw; [|done]. destruct (assign _ _ _) as [w1 [b|]] eqn:Ha; [|done].
  destruct (rvf_ingest _ b) as [st [[]|]] eqn:Hi; [|done]. injection Hr as _ <- <-.
  destruct (assign_spec _ _ _ _ _ Ha) as (E2 & El & Eid). destruct (ingest_writes _ _ _ Hi) as [Ew Ed].
  destruct (proj1 (mem_ok_working m n Hw) Hok) as (Hd & Hns & Hb).
  destruct (note_items (set_store n st) b items El) as (Ni & Ns & Nt & Ne). set (n' := foldl note_item _ _) in *. clearbody n'.
  cbn [set_store mn_id mn_store mn_tombstones mn_edit_log] in *. split.
  - apply (mem_ok_working (with_working m (Some n')) n' eq_refl). split_and!; [|done..]. unfold node_ok. by rewrite Ns, Ed.
  - assert (view (n' :: bm_ancestors m ++ root m) = write_all (view (n :: bm_ancestors m ++ root m)) b) as Hv.
    { apply map_eq. intros i. rewrite view_lookup, live_lookup, Ns, Ed, Ew, Nt, Hd, (decide_False (P := i ∈ ∅)) by set_solver.
      destruct (decide (i ∈ b.*1)) as [Hin|Hin].
      - rewrite decide_False by (rewrite elem_of_difference, elem_of_list_to_set; tauto).
        rewrite (write_all_same (written _) (view (n :: bm_ancestors m ++ root m))) by done.
        destruct (write_all _ b !! i) eqn:E; [done|]. exfalso. apply eq_None_not_Some in E. apply E, write_all_dom. by left.
      - rewrite !write_all_other, view_lookup, live_lookup, Hd, (decide_False (P := i ∈ ∅)) by (done || set_solver).
        destruct (decide (i ∈ mn_tombstones n)); [rewrite decide_True|rewrite decide_False]; try done;
          rewrite elem_of_difference, elem_of_list_to_set; tauto. }
    rewrite (abs_working m n Hw), (abs_working (with_working m (Some n')) n' eq_refl).
    cbn [with_working bm_ancestors]. change (root (with_working m (Some n'))) with (root m). rewrite Hv, Ni.
    replace b with (zip b.*1 (map (fun it => l2_normalize (vi_vector it)) items)) at 2 by (rewrite <- E2; apply zip_fst_snd).
    apply sp_ingest; [by rewrite length_fmap|done].
Qed.

Lemma foldl_delete (m : gmap N vec) ids : foldl (fun l i => base.delete i l) m ids = hide (list_to_set ids) m.
Proof.
  apply map_eq. intros i. rewrite hide_lookup. revert m. induction ids as [|j ids IH]; intros m; cbn [foldl list_to_set foldr].
  - rewrite decide_False; [done|set_solver].
  - rewrite IH. destruct (decide (i = j)) as [->|Hne].
    + rewrite lookup_delete_eq. rewrite (decide_True (P := j ∈ {[j]} ∪ _)) by set_solver. by destruct (decide _).
    + rewrite lookup_delete_ne by done. destruct (decide (i ∈ list_to_set ids)); [rewrite decide_True|rewrite decide_False]; try done; set_solver.
Qed.

Lemma hide_hide s t m : hide s (hide t m) = hide (t ∪ s) m.
Proof.
  apply map_eq. intros i. rewrite !hide_lookup.
  destruct (decide (i ∈ s)), (decide (i ∈ t)); [rewrite decide_True| rewrite decide_True|rewrite decide_True|rewrite decide_False]; try done; set_solver.
Qed.

Lemma delete_refines m ids m' :
  mem_ok m -> CowMemory.delete m ids = (m', Ok tt) -> mem_ok m' /\ spec_step (ODelete ids) RDone (abs m) (abs m').
Proof.
  intros Hok Hr. unfold CowMemory.delete in Hr. destruct ids as [|i ids']; [injection Hr as <-; split; [done|constructor; by right]|].
  set (ids := i :: ids') in *. clearbody ids. destruct (bm_working m) as [n|] eqn:Hw; [|done]. injection Hr as <-.
  destruct (proj1 (mem_ok_working m n Hw) Hok) as (Hd & Hns & Hb). split.
  - apply (mem_ok_working (with_working m (Some (forget n ids))) (forget n ids) eq_refl). by split_and!.
  - assert (view (forget n ids :: bm_ancestors m ++ root m) = hide (list_to_set ids) (view (n :: bm_ancestors m ++ root m))) as Hv.
    { cbn [view foldr forget mn_tombstones mn_store]. by rewrite hide_hide. }
    rewrite (abs_working m n Hw), (abs_working (with_working m (Some (forget n ids))) _ eq_refl).
    cbn [with_working bm_ancestors]. change (root (with_working m (Some (forget n ids)))) with (root m). rewrite Hv. apply sp_delete.
Qed.

(** ** Checkpoints *)

Lemma with_manifest_ok {A} w m io (x : A) w' m' y : with_manifest w m io x = (w', m', Ok y) -> m' = m /\ y = x.
Proof. unfold with_manifest, write_manifest. destruct io; [|done]. by intros [= _ <- <-]. Qed.

(** Freezing and naming a node changes nothing it shows. *)
Definition alike (n n' : MemoryNode) : Prop :=
  mn_id n' = mn_id n /\ mn_tombstones n' = mn_tombstones n /\ mn_edit_log n' = mn_edit_log n /\
  written (mn_store n') = written (mn_store n) /\ dropped (mn_store n') = dropped (mn_store n).

Lemma freeze_alike w n w' n' l : freeze w n = (w', n', Ok tt) -> alike n (set_label n' l).
Proof.
  unfold freeze. destruct (rvf_freeze (mn_store n)) as [st [[]|]] eqn:E; [|done]. intros [= _ <-].
  apply freeze_same in E as [? ?]. done.
Qed.

Lemma alike_ok n n' : alike n n' -> node_ok n -> node_ok n'.
Proof. intros (_ & _ & _ & _ & E5). unfold node_ok. by rewrite E5. Qed.

Lemma alike_view n n' ns : alike n n' -> view (n' :: ns) = view (n :: ns).
Proof. intros (_ & E2 & E3 & E4 & E5). by apply view_ext. Qed.

Lemma checkpoint_refines w m l now io w' m' id :
  mem_ok m -> checkpoint w m l now io = (w', m', Ok id) ->
  mem_ok m' /\ spec_step (OCheckpoint l now io) (RPoint id) (abs m) (abs m').
Proof.
  intros Hok Hr. unfold checkpoint in Hr. destruct (bm_working m) as [n|] eqn:Hw; [|done].
  destruct (freeze w n) as [[w1 n1] [[]|]] eqn:Hf; [|done]. apply (freeze_alike _ _ _ _ (Some l)) in Hf as Hal.
  destruct (fresh_working _ _ _ _ _) as [w2 [n2|]] eqn:Hn; [|done]. apply fresh_blank in Hn.
  apply with_manifest_ok in Hr as [-> ->]. destruct (proj1 (mem_ok_working m n Hw) Hok) as (Hno & Hns & Hb).
  set (n1' := set_label n1 (Some l)) in *. split.
  - apply (mem_ok_working (mkMem _ _ (Some n2) _ _ _) n2 eq_refl). split_and!; [by apply blank_ok| |done].
    constructor; [by eapply alike_ok|done].
  - rewrite (abs_working m n Hw), (abs_working (mkMem _ _ (Some n2) _ _ _) n2 eq_refl). cbn [bm_ancestors points app].
    change (root (mkMem _ _ _ _ (bm_base m) (bm_inherited m))) with (root m).
    change (mn_id n1) with (mn_id n1'). rewrite (blank_view n2), (alike_view n n1') by done. rewrite (proj1 Hal). apply sp_checkpoint.
Qed.

Lemma pause_refines w m l io w' m' :
  mem_ok m -> pause w m l io = (w', m', Ok tt) -> mem_ok m' /\ spec_step (OPause l io) RDone (abs m) (abs m').
Proof.
  intros Hok Hr. unfold pause in Hr. destruct (bm_working m) as [n|] eqn:Hw.
  2: { injection Hr as _ <-. split; [done|]. rewrite (abs_paused m Hw). apply sp_paused. }
  destruct (freeze w n) as [[w1 n1] [[]|]] eqn:Hf; [|done]. apply (freeze_alike _ _ _ _ (Some l)) in Hf as Hal.
  apply with_manifest_ok in Hr as [-> _]. destruct (proj1 (mem_ok_working m n Hw) Hok) as (Hno & Hns & Hb).
  set (n1' := set_label n1 (Some l)) in *. split.
  - split; cbn [bm_working bm_ancestors bm_base]; [|done]. change (option_list None) with (@nil MemoryNode). cbn [app].
    constructor; [by eapply alike_ok|done].
  - rewrite (abs_working m n Hw), (abs_paused (mkMem _ _ None _ _ _) eq_refl). cbn [bm_ancestors points app].
    change (root (mkMem _ _ _ _ (bm_base m) (bm_inherited m))) with (root m).
    rewrite (alike_view n n1'), (proj1 Hal) by done. apply sp_pause.
Qed.

Lemma resume_refines w m now io w' m' :
  mem_ok m -> resume w m now io = (w', m', Ok tt) -> mem_ok m' /\ spec_step (OResume now io) RDone (abs m) (abs m').
Proof.
  intros Hok Hr. unfold resume in Hr. destruct (bm_working m) as [n|] eqn:Hw.
  { injection Hr as _ <-. split; [done|]. rewrite (abs_working m n Hw). apply sp_running. }
  destruct (fresh_working _ _ _ _ _) as [w2 [n2|]] eqn:Hn; [|done]. apply fresh_blank in Hn.
  apply with_manifest_ok in Hr as [-> _]. destruct Hok as [Hns Hb]. rewrite Hw in Hns. split.
  - apply (mem_ok_working (with_working m (Some n2)) n2 eq_refl). split_and!; [by apply blank_ok|done..].
  - rewrite (abs_paused m Hw), (abs_working (with_working m (Some n2)) n2 eq_refl). cbn [with_working bm_ancestors].
    change (root (with_working m (Some n2))) with (root m). rewrite (blank_view n2) by done. apply sp_resume.
Qed.

Lemma points_split idx ns rest :
  exists newer, points ns rest = newer ++ points (drop idx ns) rest /\ newer.*1 = mn_id <$> take idx ns.
Proof.
  revert ns. induction idx as [|idx IH]; intros [|n ns]; try (by exists []).
  destruct (IH ns) as (newer & E & Ei). cbn [points drop take]. exists ((mn_id n, view (n :: ns ++ rest)) :: newer).
  cbn [app fmap list_fmap fst]. rewrite E. split; [done|]. f_equal. exact Ei.
Qed.

(** A new tip after the checkpoints from [idx] on were kept *)
Lemma kept_tip m idx n2 :
  blank n2 -> Forall node_ok (bm_ancestors m) -> dropped (mn_store (bm_base m)) ⊆ mn_tombstones (bm_base m) ->
  let m' := with_working (with_ancestors m (drop idx (bm_ancestors m))) (Some n2) in
  mem_ok m' /\
  abs m' = mkAbs (Some (mn_id n2)) (view (drop idx (bm_ancestors m) ++ root m)) (points (drop idx (bm_ancestors m)) (root m)) (view (root m)).
Proof.
  intros Hn Hns Hb. cbn zeta. set (m' := with_working _ _). split.
  - apply (mem_ok_working m' n2 eq_refl). split_and!; [by apply blank_ok|by apply Forall_drop|done].
  - rewrite (abs_working m' n2 eq_refl). cbn [m' with_working with_ancestors bm_ancestors].
    change (root m') with (root m). by rewrite blank_view.
Qed.

Lemma rollback_refines w m to now stuck io w' m' :
  mem_ok m -> rollback w m to now stuck io = (w', m', Ok tt) ->
  mem_ok m' /\ spec_step (ORollback to now stuck io) RDone (abs m) (abs m').
Proof.
  intros Hok Hr. unfold rollback in Hr. destruct (bm_working m) as [n|] eqn:Hw; [|done].
  destruct (proj1 (mem_ok_working m n Hw) Hok) as (Hno & Hns & Hb).
  destruct (match to with None => _ | Some _ => _ end) as [idx|] eqn:Hidx; [|done].
  destruct (fresh_working _ _ _ _ _) as [w2 [n2|]] eqn:Hn; [|done]. apply fresh_blank in Hn.
  apply with_manifest_ok in Hr as [-> _]. destruct (kept_tip m idx n2 Hn Hns Hb) as [Hok' Ha]. split; [done|].
  rewrite (abs_working m n Hw), Ha. destruct to as [id|].
  - destruct (list_find _ _) as [[j x]|] eqn:Hf; [|done]. injection Hidx as ->.
    apply list_find_Some in Hf as (Hx & Hid & Hmin).
    destruct (points_split idx (bm_ancestors m) (root m)) as (newer & -> & Ei).
    rewrite (drop_S _ x idx Hx). cbn [points app]. rewrite Hid. apply sp_rollback. rewrite Ei.
    intros (y & E & (k & Hk)%list_elem_of_lookup)%list_elem_of_fmap. apply lookup_take_Some in Hk as [Hk Hlt].
    by apply (Hmin k y Hk Hlt).
  - injection Hidx as <-. rewrite drop_all. cbn [points app]. apply sp_discard.
Qed.

(** ** Promotion *)

Lemma write_map_to_list m (e : gmap N vec) i : write_all m (map_to_list e) !! i = match e !! i with Some v => Some v | None => m !! i end.
Proof.
  destruct (e !! i) as [v|] eqn:E.
  - apply elem_of_map_to_list in E as Hin. rewrite write_all_lookup.
    destruct (last _) as [x|] eqn:El.
    + assert (x ∈ filter (fun x => x.1 = i) (map_to_list e)) as Hx by (apply last_Some in El as [l ->]; set_solver).
      apply list_elem_of_filter in Hx as [Hi Hx]. destruct x as [j u]. cbn in Hi. subst j.
      apply elem_of_map_to_list in Hx. cbn. congruence.
    + apply last_None in El. exfalso. assert ((i, v) ∈ filter (fun x => x.1 = i) (map_to_list e)) as Hx by (by apply list_elem_of_filter).
      rewrite El in Hx. set_solver.
  - apply write_all_other. intros ((j, u) & E' & Hx)%list_elem_of_fmap. cbn in E'. subst j.
    apply elem_of_map_to_list in Hx. congruence.
Qed.

(** The store and the tombstones after one node was replayed *)
Definition replayed (base n base' : MemoryNode) : Prop :=
  (forall i, written (mn_store base') !! i = match mn_edit_log n !! i with Some v => Some v | None => written (mn_store base) !! i end) /\
  (forall i, i ∈ dropped (mn_store base') -> i ∈ dropped (mn_store base) \/ i ∈ mn_tombstones n) /\
  mn_tombstones base' = mn_tombstones base ∪ mn_tombstones n.

Lemma replay_edits_ok w base n w' base' k :
  replay_edits w base n = (w', base', Ok k) ->
  (forall i, written (mn_store base') !! i = match mn_edit_log n !! i with Some v => Some v | None => written (mn_store base) !! i end) /\
  dropped (mn_store base') = dropped (mn_store base) /\ mn_tombstones base' = mn_tombstones base.
Proof.
  unfold replay_edits. case_bool_decide as He.
  - intros [= _ <- _]. rewrite He. done.
  - destruct (rvf_ingest _ _) as [st [[]|]] eqn:Hi; [|done]. intros [= _ <- _]. cbn [mn_store mn_tombstones].
    apply ingest_writes in Hi as [-> ->]. split; [|done]. intros i. apply write_map_to_list.
Qed.

Lemma replay_tombstones_ok w base n w' base' k :
  replay_tombstones w base n = (w', base', Ok k) ->
  written (mn_store base') = written (mn_store base) /\
  (forall i, i ∈ dropped (mn_store base') -> i ∈ dropped (mn_store base) \/ i ∈ mn_tombstones n) /\
  mn_tombstones base' = mn_tombstones base ∪ mn_tombstones n.
Proof.
  unfold replay_tombstones. case_bool_decide as He.
  - intros [= _ <- _]. rewrite He. split; [done|]. split; [auto|set_solver].
  - destruct (rvf_delete _ _) as [st [[]|]] eqn:Hi; [|done]. intros [= _ <- _]. cbn [mn_store mn_tombstones].
    apply delete_marks in Hi as [-> Hd]. split; [done|]. split; [|done].
    intros i [?|[?%elem_of_elements _]]%Hd; auto.
Qed.

Lemma replayed_view base n base' inh :
  replayed base n base' -> node_ok n -> logged n -> dropped (mn_store base) ⊆ mn_tombstones base ->
  dom (mn_edit_log n) ## mn_tombstones base ->
  dropped (mn_store base') ⊆ mn_tombstones base' /\ view (base' :: inh) = view (n :: base :: inh).
Proof.
  intros (Hw & Hd & Ht) Hn He Hb Hdis. split.
  - intros i Hi. rewrite Ht. apply elem_of_union. destruct (Hd i Hi); [left; by apply Hb|by right].
  - apply map_eq. intros i. rewrite !view_lookup, !live_lookup, Ht, Hn, (decide_False (P := i ∈ ∅)) by set_solver.
    assert (i ∉ mn_tombstones n -> written (mn_store n) !! i = mn_edit_log n !! i) as Hwn.
    { intros Hi. rewrite He, hide_lookup. by rewrite decide_False. }
    destruct (decide (i ∈ mn_tombstones n)) as [Hi|Hi]; [by rewrite decide_True by set_solver|]. rewrite Hwn by done.
    destruct (decide (i ∈ mn_tombstones base)) as [Hib|Hib].
    + rewrite decide_True by set_solver. destruct (mn_edit_log n !! i) eqn:E; [|done]. exfalso.
      apply (Hdis i); [by apply elem_of_dom|done].
    + rewrite decide_False by set_solver. rewrite decide_False by (intros [?%Hb|?]%Hd; done).
      rewrite (decide_False (P := i ∈ dropped (mn_store base))) by (intros ?%Hb; done). rewrite Hw. by destruct (mn_edit_log n !! i).
Qed.

Lemma view_tail l ns ns' : view ns = view ns' -> view (l ++ ns) = view (l ++ ns').
Proof. intros E. induction l as [|n l IH]; [done|]. cbn [app]. by apply view_ext. Qed.

Lemma no_readd_tail l n base : no_readd (l ++ [n; base]) -> dom (mn_edit_log n) ## mn_tombstones base /\ no_readd (l ++ [n; base]).
Proof.
  intros Hn. split; [|done]. induction l as [|x l IH]; cbn [app no_readd] in Hn; [|tauto].
  destruct Hn as [Hf _]. by apply Forall_cons in Hf as [? _].
Qed.

Lemma no_readd_merge l n base b :
  no_readd (l ++ [n; base]) -> mn_tombstones b = mn_tombstones base ∪ mn_tombstones n -> no_readd (l ++ [b]).
Proof.
  intros Hn Ht. induction l as [|x l IH]; cbn [app no_readd] in *; [done|]. destruct Hn as [Hf Hn]. split; [|by apply IH].
  apply Forall_app in Hf as [Hl Hf]. apply Forall_app. split; [done|].
  apply Forall_cons in Hf as [H1' Hf]. apply Forall_cons in Hf as [H2' _]. constructor; [|done]. rewrite Ht. set_solver.
Qed.

(** The nodes are replayed oldest first. *)
Lemma replay_view w base ns inh w' base' ing del r :
  replay w base ns ing del = (w', base', Ok r) ->
  Forall node_ok ns -> Forall logged ns -> dropped (mn_store base) ⊆ mn_tombstones base -> no_readd (rev ns ++ [base]) ->
  dropped (mn_store base') ⊆ mn_tombstones base' /\ view (base' :: inh) = view (rev ns ++ base :: inh).
Proof.
  revert w base ing del. induction ns as [|n ns IH]; intros w base ing del Hr Hok Hlog Hb Hna; cbn [replay] in Hr.
  { by injection Hr as _ <- _. }
  destruct (replay_edits w base n) as [[w1 b1] [i|]] eqn:E1; [|done].
  destruct (replay_tombstones w1 b1 n) as [[w2 b2] [d|]] eqn:E2; [|done].
  apply replay_edits_ok in E1 as (Hw1 & Hd1 & Ht1). apply replay_tombstones_ok in E2 as (Hw2 & Hd2 & Ht2).
  assert (replayed base n b2) as Hrep. { split; [by intros j; rewrite Hw2|]. split; [by rewrite <- Hd1|by rewrite Ht2, Ht1]. }
  apply Forall_cons in Hok as [Hn Hok]. apply Forall_cons in Hlog as [Hln Hlog]. cbn [rev] in Hna |- *. rewrite <- app_assoc in Hna |- *. cbn [app] in Hna |- *.
  destruct (no_readd_tail _ _ _ Hna) as [Hnb Hna'].
  destruct (replayed_view base n b2 inh Hrep Hn Hln Hb Hnb) as [Hb2 Hv2].
  destruct (IH w2 b2 _ _ Hr Hok Hlog Hb2) as [Hb' Hv'].
  - apply (no_readd_merge _ n base); [done|]. by destruct Hrep as (_ & _ & ->).
  - split; [done|]. rewrite Hv'. by apply view_tail.
Qed.

Lemma promote_refines w m now stuck io w' m' rep :
  mem_ok m -> promotable m -> promote w m now stuck io = (w', m', Ok rep) ->
  mem_ok m' /\ spec_step (OPromote now stuck io) (RPromoted rep) (abs m) (abs m').
Proof.
  intros Hok Hpr Hr. unfold promote in Hr. destruct Hpr as [Hlg Hpr]. unfold in_process in Hlg. destruct (bm_working m) as [n|] eqn:Hw; [|done].
  destruct (proj1 (mem_ok_working m n Hw) Hok) as (Hno & Hns & Hb). change (option_list (Some n)) with [n] in Hpr, Hlg. cbn [app] in Hpr, Hlg.
  destruct (replay _ _ _ _ _) as [[w1 base] [[ing del]|]] eqn:Hre; [|done].
  assert (rev (rev (bm_ancestors m) ++ [n]) = n :: bm_ancestors m) as Erev by (rewrite rev_app_distr, rev_involutive; done).
  destruct (replay_view _ _ _ (bm_inherited m) _ _ _ _ _ Hre) as [Hb' Hv].
  { apply Forall_app. split; [|constructor; [done|constructor]]. by apply List.Forall_rev. }
  { apply Forall_cons in Hlg as [? ?]. apply Forall_app. split; [by apply List.Forall_rev|]. by constructor. }
  { done. }
  { by rewrite Erev. }
  rewrite Erev in Hv. destruct (fresh_working _ _ _ _ _) as [w2 [n2|]] eqn:Hn; [|done]. apply fresh_blank in Hn.
  apply with_manifest_ok in Hr as [-> ->]. set (m' := with_working _ _). split.
  - apply (mem_ok_working m' n2 eq_refl). split_and!; [by apply blank_ok|constructor|done].
  - rewrite (abs_working m n Hw), (abs_working m' n2 eq_refl). cbn [m' with_working bm_ancestors points app].
    change (root m') with (base :: bm_inherited m). rewrite (blank_view n2), Hv by done. apply sp_promote.
Qed.

Lemma op_refines w m o w' m' r :
  mem_ok m -> (forall now stuck io, o = OPromote now stuck io -> promotable m) ->
  run w m o = (w', m', Ok r) -> mem_ok m' /\ spec_step o r (abs m) (abs m').
Proof.
  intros Hok Hp Hr. destruct o as [items|ids|l now io|l io|now io|to now stuck io|now stuck io]; cbn [run] in Hr.
  - destruct (ingest w m items) as [[w1 m1] [x|]] eqn:E; [|done]. injection Hr as _ <- <-. by eapply ingest_refines.
  - destruct (CowMemory.delete m ids) as [m1 [[]|]] eqn:E; [|done]. injection Hr as _ <- <-. by apply delete_refines.
  - destruct (checkpoint w m l now io) as [[w1 m1] [x|]] eqn:E; [|done]. injection Hr as _ <- <-. by eapply checkpoint_refines.
  - destruct (pause w m l io) as [[w1 m1] [[]|]] eqn:E; [|done]. injection Hr as _ <- <-. by eapply pause_refines.
  - destruct (resume w m now io) as [[w1 m1] [[]|]] eqn:E; [|done]. injection Hr as _ <- <-. by eapply resume_refines.
  - destruct (rollback w m to now stuck io) as [[w1 m1] [[]|]] eqn:E; [|done]. injection Hr as _ <- <-. by eapply rollback_refines.
  - destruct (promote w m now stuck io) as [[w1 m1] [x|]] eqn:E; [|done]. injection Hr as _ <- <-.
    eapply promote_refines; [done|by eapply Hp|done].
Qed.

(** *** What was written in this process stays in the edit logs *)

Lemma blank_logged n : blank n -> logged n.
Proof. intros (E1 & _ & E3 & E4). unfold logged. by rewrite E4, E1, E3. Qed.

Lemma alike_logged n n' : alike n n' -> logged n -> logged n'.
Proof. intros (_ & E2 & E3 & E4 & _). unfold logged. by rewrite E3, E2, E4. Qed.

Lemma in_process_tip m n : bm_working m = Some n -> in_process m <-> logged n /\ Forall logged (bm_ancestors m).
Proof. intros Hw. unfold in_process. rewrite Hw. change (option_list (Some n)) with [n]. cbn [app]. apply Forall_cons. Qed.

Lemma ingest_logged w m items w' m' ids : ingest w m items = (w', m', Ok ids) -> in_process m -> in_process m'.
Proof.
  intros Hr. unfold ingest in Hr. destruct items as [|it items']; [by injection Hr as <- <- <-|].
  set (items := it :: items') in *. clearbody items. destruct (bm_working m) as [n|] eqn:Hw; [|done].
  destruct (assign _ _ _) as [w1 [b|]] eqn:Ha; [|done]. destruct (rvf_ingest _ b) as [st [[]|]] eqn:Hi; [|done].
  injection Hr as _ <- <-. destruct (assign_spec _ _ _ _ _ Ha) as (_ & El & _). destruct (ingest_writes _ _ _ Hi) as [Ew _].
  destruct (note_items (set_store n st) b items El) as (_ & Ns & Nt & Ne). set (n' := foldl note_item _ _) in *. clearbody n'.
  cbn [set_store mn_store mn_tombstones mn_edit_log] in *.
  intros [Hl Ha']%(in_process_tip m n Hw). apply (in_process_tip (with_working m (Some n')) n' eq_refl). split; [|done].
  unfold logged in *. by rewrite Ne, Nt, Ns, Ew, Hl, hide_write.
Qed.

Lemma delete_logged m ids m' : CowMemory.delete m ids = (m', Ok tt) -> in_process m -> in_process m'.
Proof.
  intros Hr. unfold CowMemory.delete in Hr. destruct ids as [|i ids']; [by injection Hr as <-|].
  set (ids := i :: ids') in *. clearbody ids. destruct (bm_working m) as [n|] eqn:Hw; [|done]. injection Hr as <-.
  intros [Hl Ha]%(in_process_tip m n Hw). apply (in_process_tip (with_working m (Some (forget n ids))) _ eq_refl). split; [|done].
  unfold logged in *. cbn [forget mn_edit_log mn_tombstones mn_store]. by rewrite foldl_delete, Hl, hide_hide.
Qed.

Lemma checkpoint_logged w m l now io w' m' id : checkpoint w m l now io = (w', m', Ok id) -> in_process m -> in_process m'.
Proof.
  intros Hr. unfold checkpoint in Hr. destruct (bm_working m) as [n|] eqn:Hw; [|done].
  destruct (freeze w n) as [[w1 n1] [[]|]] eqn:Hf; [|done]. apply (freeze_alike _ _ _ _ (Some l)) in Hf as Hal.
  destruct (fresh_working _ _ _ _ _) as [w2 [n2|]] eqn:Hn; [|done]. apply fresh_blank in Hn. apply with_manifest_ok in Hr as [-> _].
  intros [Hl Ha]%(in_process_tip m n Hw). apply (in_process_tip (mkMem _ _ (Some n2) _ _ _) n2 eq_refl).
  split; [by apply blank_logged|]. constructor; [by eapply alike_logged|done].
Qed.

Lemma pause_logged w m l io w' m' : pause w m l io = (w', m', Ok tt) -> in_process m -> in_process m'.
Proof.
  intros Hr. unfold pause in Hr. destruct (bm_working m) as [n|] eqn:Hw; [|by injection Hr as _ <-].
  destruct (freeze w n) as [[w1 n1] [[]|]] eqn:Hf; [|done]. apply (freeze_alike _ _ _ _ (Some l)) in Hf as Hal.
  apply with_manifest_ok in Hr as [-> _]. intros [Hl Ha]%(in_process_tip m n Hw). unfold in_process. cbn [bm_working bm_ancestors].
  change (option_list None) with (@nil MemoryNode). cbn [app]. constructor; [by eapply alike_logged|done].
Qed.

Lemma resume_logged w m now io w' m' : resume w m now io = (w', m', Ok tt) -> in_process m -> in_process m'.
Proof.
  intros Hr. unfold resume in Hr. destruct (bm_working m) as [n|] eqn:Hw; [by injection Hr as _ <-|].
  destruct (fresh_working _ _ _ _ _) as [w2 [n2|]] eqn:Hn; [|done]. apply fresh_blank in Hn. apply with_manifest_ok in Hr as [-> _].
  unfold in_process at 1. rewrite Hw. intros Ha. apply (in_process_tip (with_working m (Some n2)) n2 eq_refl).
  split; [by apply blank_logged|done].
Qed.

Lemma rollback_logged w m to now stuck io w' m' : rollback w m to now stuck io = (w', m', Ok tt) -> in_process m -> in_process m'.
Proof.
  intros Hr. unfold rollback in Hr. destruct (bm_working m) as [n|] eqn:Hw; [|done].
  destruct (match to with None => _ | Some _ => _ end) as [idx|]; [|done].
  destruct (fresh_working _ _ _ _ _) as [w2 [n2|]] eqn:Hn; [|done]. apply fresh_blank in Hn. apply with_manifest_ok in Hr as [-> _].
  intros [_ Ha]%(in_process_tip m n Hw). set (m' := with_working _ _). apply (in_process_tip m' n2 eq_refl).
  split; [by apply blank_logged|]. by apply Forall_drop.
Qed.

Lemma promote_logged w m now stuck io w' m' rep : promote w m now stuck io = (w', m', Ok rep) -> in_process m'.
Proof.
  intros Hr. unfold promote in Hr. destruct (bm_working m) as [n|]; [|done].
  destruct (replay _ _ _ _ _) as [[w1 base] [[ing del]|]]; [|done].
  destruct (fresh_working _ _ _ _ _) as [w2 [n2|]] eqn:Hn; [|done]. apply fresh_blank in Hn. apply with_manifest_ok in Hr as [-> ->].
  set (m' := with_working _ _). apply (in_process_tip m' n2 eq_refl). split; [by apply blank_logged|constructor].
Qed.

Lemma op_logged w m o w' m' r : run w m o = (w', m', Ok r) -> in_process m -> in_process m'.
Proof.
  intros Hr. destruct o as [items|ids|l now io|l io|now io|to now stuck io|now stuck io]; cbn [run] in Hr.
  - destruct (ingest w m items) as [[w1 m1] [x|]] eqn:E; [|done]. injection Hr as _ <- _. by eapply ingest_logged.
  - destruct (CowMemory.delete m ids) as [m1 [[]|]] eqn:E; [|done]. injection Hr as _ <- _. by eapply delete_logged.
  - destruct (checkpoint w m l now io) as [[w1 m1] [x|]] eqn:E; [|done]. injection Hr as _ <- _. by eapply checkpoint_logged.
  - destruct (pause w m l io) as [[w1 m1] [[]|]] eqn:E; [|done]. injection Hr as _ <- _. by eapply pause_logged.
  - destruct (resume w m now io) as [[w1 m1] [[]|]] eqn:E; [|done]. injection Hr as _ <- _. by eapply resume_logged.
  - destruct (rollback w m to now stuck io) as [[w1 m1] [[]|]] eqn:E; [|done]. injection Hr as _ <- _. by eapply rollback_logged.
  - destruct (promote w m now stuck io) as [[w1 m1] [x|]] eqn:E; [|done]. injection Hr as _ <- _. intros _. by eapply promote_logged.
Qed.

(** C34: Branchable memory is one map with a stack of snapshots.  Every
    operation that succeeds does to the visible map, to the checkpoints and to
    the durable map exactly what its specification says: a batch is written
    over what was visible, a deletion hides its ids, a checkpoint, a pause and
    a resumption change nothing that is visible, a rollback restores the map of
    its checkpoint (or the durable one) and forgets the newer ones, and a
    promotion makes what is visible durable.  In the memory no checkpoint or
    tip deletes in its store and what the base's store deletes is tombstoned:
    creating, branching, successful operations and opening again after a pause
    give such a memory, a store operation that fails may not.  A promotion
    needs further that every checkpoint and the tip were written in this
    process (successful operations keep this; a checkpoint opened again has no
    edit log and promoting it loses its vectors) and that none writes an id
    again that an older one deleted. *)
Theorem cow_refines w m o w' m' r :
  mem_ok m -> (forall now stuck io, o = OPromote now stuck io -> promotable m) ->
  run w m o = (w', m', Ok r) -> mem_ok m' /\ (in_process m -> in_process m') /\ spec_step o r (abs m) (abs m').
Proof. intros Hok Hp Hr. destruct (op_refines _ _ _ _ _ _ Hok Hp Hr). split_and!; try done. by eapply op_logged. Qed.

(** ** Queries *)

(** What the walk keeps of one node's results *)
Lemma keep_results masked tombs res seen kept seen' kept' :
  NoDup res.*1 -> foldl (keep masked tombs) (seen, kept) res = (seen', kept') ->
  exists new, kept' = kept ++ new /\ NoDup new.*1 /\
    (forall r, r ∈ new <-> r ∈ res /\ r.1 ∉ masked /\ r.1 ∉ tombs /\ r.1 ∉ seen) /\
    forall i, i ∈ seen' <-> i ∈ seen \/ i ∈ new.*1.
Proof.
  revert seen kept. induction res as [|r res IH]; intros seen kept Hnd Hf; cbn [foldl] in Hf.
  - injection Hf as <- <-. exists []. rewrite app_nil_r. split_and!; try done; try constructor; set_solver.
  - cbn [fmap list_fmap] in Hnd. apply NoDup_cons in Hnd as [Hr Hnd].
    assert (forall x, x ∈ res -> x.1 <> r.1) as Hne by (intros x Hx E; apply Hr; rewrite <- E; by apply list_elem_of_fmap_2).
    unfold keep at 2 in Hf. cbn [fst snd] in Hf. destruct (bool_decide (r.1 ∈ masked) || _ || _) eqn:Ec.
    + destruct (IH _ _ Hnd Hf) as (new & -> & Hnn & Hin & Hse). exists new. split_and!; try done. intros x. rewrite Hin, elem_of_cons.
      split; [tauto|]. intros [[->|?] (Hm & Ht & Hs)]; [|done].
      rewrite !bool_decide_eq_false_2 in Ec by done. done.
    + apply orb_false_elim in Ec as [[Hm Ht]%orb_false_elim Hs]. apply bool_decide_eq_false in Hm, Ht, Hs.
      destruct (IH _ _ Hnd Hf) as (new & -> & Hnn & Hin & Hse). exists (r :: new). rewrite <- app_assoc. split_and!; [done| | |].
      * cbn [fmap list_fmap]. constructor; [|done]. intros (x & E & Hx)%list_elem_of_fmap. apply Hin in Hx as (Hx & _). by apply (Hne x Hx).
      * intros x. rewrite !elem_of_cons, Hin. split.
        -- intros [->|(Hx & ? & ? & Hns)]; [tauto|]. split_and!; try tauto. set_solver.
        -- intros [[->|Hx] (? & ? & ?)]; [by left|right]. split_and!; try done. specialize (Hne x Hx). set_solver.
      * intros i. rewrite Hse. cbn [fmap list_fmap]. rewrite elem_of_cons. set_solver.
Qed.

Definition fits (ov : N) (n : MemoryNode) : Prop := lenN (elements (dom (written (mn_store n)))) <= ov.

Lemma walk_exact chain q ov masked seen merged :
  walk_chain chain q ov masked seen = Ok merged -> Forall (fits ov) chain ->
  NoDup merged.*1 /\
  forall i d, (i, d) ∈ merged <-> i ∉ masked /\ i ∉ seen /\ exists v, view chain !! i = Some v /\ d = dist q v.
Proof.
  revert masked seen merged. induction chain as [|n chain IH]; intros masked seen merged Hw Hfit; cbn [walk_chain] in Hw.
  { injection Hw as <-. split; [constructor|]. intros i d. split; [set_solver|]. by intros (_ & _ & v & Hv & _). }
  apply Forall_cons in Hfit as [Hf Hfit]. destruct (rvf_query _ _ _) as [res|] eqn:Hq; [|done]. cbn [lift] in Hw.
  destruct (query_found _ _ _ _ Hq) as (Hnd & Hs & Hall). specialize (Hall Hf).
  destruct (foldl _ _ res) as [seen' kept] eqn:Hk. destruct (keep_results _ _ _ _ _ _ _ Hnd Hk) as (new & -> & Hnn & Hin & Hse).
  cbn [app] in Hw. destruct (walk_chain chain _ _ _ _) as [older|] eqn:Ho; [|done]. injection Hw as <-.
  destruct (IH _ _ _ Ho Hfit) as [Hon Hoi]. split.
  - rewrite fmap_app. apply NoDup_app. split_and!; [done| |done]. intros i Hi ((j, d) & -> & Hx)%list_elem_of_fmap.
    apply Hoi in Hx as (_ & Hns & _). apply Hns, Hse. by right.
  - intros i d. rewrite elem_of_app, Hin, Hoi, view_lookup, live_lookup, Hse, elem_of_union. cbn [fst].
    assert (forall d', (i, d') ∈ res <-> i ∉ dropped (mn_store n) /\ exists v, written (mn_store n) !! i = Some v /\ d' = dist q v) as Hres.
    { intros d'. split; [apply Hs|]. intros (Hd & v & Hv & ->). by apply Hall. }
    assert (i ∈ new.*1 <-> (exists d', (i, d') ∈ res) /\ i ∉ masked /\ i ∉ mn_tombstones n /\ i ∉ seen) as Hni.
    { rewrite list_elem_of_fmap. split.
      - intros ((j, d') & -> & (Hx & ?)%Hin). eauto.
      - intros [[d' Hx] ?]. exists (i, d'). split; [done|]. by apply Hin. }
    rewrite Hni. setoid_rewrite Hres. destruct (decide (i ∈ mn_tombstones n)) as [Ht|Ht].
    { split; [intros [(_ & _ & ? & _)|([] & _)]; tauto|]. intros (_ & _ & v & ? & _). done. }
    destruct (decide (i ∈ dropped (mn_store n))) as [Hd|Hd]; [|destruct (written (mn_store n) !! i) as [v|] eqn:Ew].
    + split; [|intros (? & ? & ?); right; split_and!; try tauto; intros [?|([? [? _]] & _)]; tauto].
      intros [([? _] & _)|(? & ? & ?)]; tauto.
    + split.
      * intros [((_ & v' & [= ->] & ->) & ? & ? & ?)|(? & Hc & _)]; [eauto|]. exfalso. apply Hc. right. split; [eauto|tauto].
      * intros (? & ? & v' & [= ->] & ->). left. split_and!; eauto.
    + split.
      * intros [((_ & v' & ? & _) & _)|(? & ? & ?)]; [done|tauto].
      * intros (? & ? & ?). right. split_and!; try tauto. intros [?|([? (_ & v' & ? & _)] & _)]; [tauto|done].
Qed.

(** C35: A query finds the nearest visible vectors.  As long as no store of the
    lineage holds more than four times the number of results asked for (the
    number being positive) and no visible vector is at a distance that is not a
    number (an infinite component gives one), a query that answers returns each
    id once, with the distance of the vector that is visible under it, as many
    as there are up to the number asked for, and no visible vector that it
    leaves out is nearer than one it returns. *)
Theorem query_exact m v k res :
  query m v k = Ok res -> 0 < k ->
  Forall (fits (overscan_of k)) (chain_priority_order m) ->
  (forall i u, a_view (abs m) !! i = Some u -> F32.is_nan (dist (l2_normalize v) u) = false) ->
  NoDup res.*1 /\ length res = Nat.min (N.to_nat k) (size (a_view (abs m))) /\
  (forall i d, (i, d) ∈ res -> exists u, a_view (abs m) !! i = Some u /\ d = dist (l2_normalize v) u) /\
  (forall i u j d, a_view (abs m) !! i = Some u -> i ∉ res.*1 -> (j, d) ∈ res -> F32.ltb (dist (l2_normalize v) u) d = false).
Proof.
  intros Hq Hk Hfit Hnan. unfold query, query_chain in Hq. destruct (negb _); [done|].
  rewrite (proj2 (N.eqb_neq k 0)) in Hq by lia. destruct (walk_chain _ _ _ _ _) as [merged|] eqn:Hw; [|done]. injection Hq as <-.
  destruct (walk_exact _ _ _ _ _ _ Hw Hfit) as [Hnd Hin]. cbn [abs a_view] in *. set (V := view (chain_priority_order m)) in *.
  set (q := l2_normalize v) in *. set (s := merge_sort scored_le merged).
  assert (s ≡ₚ merged) as Hp by apply merge_sort_Permutation.
  assert (forall i d, (i, d) ∈ s <-> exists u, V !! i = Some u /\ d = dist q u) as Hs.
  { intros i d. rewrite Hp, Hin. set_solver. }
  assert (NoDup s.*1) as Hnds by (by rewrite Hp).
  assert (StronglySorted scored_le s) as Hss.
  { apply scored_sorted; [|apply Sorted_merge_sort, _]. apply Forall_forall. intros [i d] (u & Hu & ->)%Hs. by eapply Hnan. }
  assert (length s = size V) as Hlen.
  { rewrite <- (length_fmap fst), <- size_dom. rewrite <- (size_list_to_set (C := gset N) s.*1) by done. f_equal.
    apply set_eq. intros i. rewrite elem_of_list_to_set, elem_of_dom, list_elem_of_fmap. split.
    - intros ((j, d) & -> & (u & Hu & _)%Hs). by eexists.
    - intros [u Hu]. exists (i, dist q u). split; [done|]. apply Hs. eauto. }
  clearbody s. rewrite <- (take_drop (N.to_nat k) s) in Hss, Hnds. split_and!.
  - rewrite fmap_app in Hnds. by apply NoDup_app in Hnds as [? _].
  - by rewrite length_take, Hlen.
  - intros i d Hi. apply Hs. by apply (subseteq_take (N.to_nat k) s).
  - intros i u j d Hu Hni Hj. assert ((i, dist q u) ∈ drop (N.to_nat k) s) as Hd.
    { assert ((i, dist q u) ∈ s) as Hi by (apply Hs; eauto). rewrite <- (take_drop (N.to_nat k) s) in Hi.
      apply elem_of_app in Hi as [Hi|Hi]; [|done]. exfalso. apply Hni. by apply (list_elem_of_fmap_2 fst _ (i, dist q u)). }
    exact (StronglySorted_app_1_elem_of _ _ _ _ _ Hss Hj Hd).
Qed.

End View.
