(* ===== verification/CowFiles.v ===== *)
(** * The files of a lineage

    Every node of a lineage has a file of its own that holds what the node
    holds, so a lineage can be branched and, after a pause, opened again. *)

From Stdlib Require Import Strings.String SpecFloat.
From S2P Require Import Prelude Codec Scoring CowMemory CowSpec.

Local Open Scope string_scope.
Local Open Scope list_scope.
Local Open Scope N_scope.

(** ** File names *)

Lemma append_inv_tail (a b x y : string) : String.length x = String.length y -> a +:+ x = b +:+ y -> a = b /\ x = y.
Proof.
  intros Hl E. apply (f_equal str_bytes) in E. rewrite !str_bytes_app in E.
  assert (forall s, length (str_bytes s) = String.length s) as Hs.
  { intros s. unfold str_bytes, list_byte_of_string. rewrite List.length_map. induction s as [|c s IH]; [done|]. cbn. by f_equal. }
  apply app_inj_2 in E as [E1 E2]; [|by rewrite !Hs]. by apply str_bytes_inj in E1, E2.
Qed.

Lemma working_name_inj i j : working_name i = working_name j -> i = j.
Proof.
  unfold working_name. intros E. apply (append_inv_tail ("node-" +:+ pretty i) ("node-" +:+ pretty j) ".working.rvf" ".working.rvf" eq_refl) in E as [E _].
  injection E as E. change (pretty i = pretty j) in E. exact (inj (A:=N) pretty _ _ E).
Qed.

Lemma working_not_base i j : working_name i <> base_name j.
Proof.
  unfold working_name, base_name. intros E.
  assert ("node-" +:+ pretty i +:+ ".working.rvf" = ("node-" +:+ pretty i +:+ ".wo") +:+ "rking.rvf") as E1.
  { change ("node-" +:+ (pretty i +:+ ".wo" +:+ "rking.rvf") = "node-" +:+ ((pretty i +:+ ".wo") +:+ "rking.rvf")).
    f_equal. symmetry. apply string_app_assoc. }
  rewrite E1 in E. by apply (append_inv_tail _ ("node-" +:+ pretty j) "rking.rvf" ".base.rvf" eq_refl) in E as [_ E].
Qed.

Section Files.
Context `{RvfLaws}.

(** The file of a node holds what the node holds. *)
Definition synced (w : World) (n : MemoryNode) : Prop :=
  exists st, w_files w !! mn_path n = Some st /\ written st = written (mn_store n) /\ dropped st = dropped (mn_store n).

Definition named (w : World) (dir : string) (n : MemoryNode) : Prop :=
  (mn_path n).1 = dir /\ exists id, id < w_node_seq w /\ ((mn_path n).2 = working_name id \/ (mn_path n).2 = base_name id).

Definition files_ok (w : World) (dir : string) (ns : list MemoryNode) : Prop :=
  NoDup (mn_path <$> ns) /\ Forall (synced w) ns /\ Forall (named w dir) ns.

Lemma fo_mono w w' dir ns :
  files_ok w dir ns -> w_files w' = w_files w -> w_node_seq w <= w_node_seq w' -> files_ok w' dir ns.
Proof.
  intros (Hnd & Hs & Hn) Ef Hle. split; [done|]. split.
  - eapply Forall_impl; [exact Hs|]. intros n. unfold synced. by rewrite Ef.
  - eapply Forall_impl; [exact Hn|]. intros n [Hd (id & Hid & ?)]. split; [done|]. exists id. split; [lia|done].
Qed.

Lemma fo_sublist w dir ns ns' : ns' `sublist_of` ns -> files_ok w dir ns -> files_ok w dir ns'.
Proof.
  intros Hsub (Hnd & Hs & Hn). split; [eapply sublist_NoDup; [exact Hnd|by apply fmap_sublist]|].
  assert (forall x, x ∈ ns' -> x ∈ ns) as Hin by (intros x Hx; eapply elem_of_submseteq; [exact Hx|by apply sublist_submseteq]).
  rewrite Forall_forall in Hs, Hn. split; apply Forall_forall; intros x Hx; [apply Hs|apply Hn]; by apply Hin.
Qed.

(** The file of one node is written. *)
Lemma fo_write w dir l1 n n' l2 :
  files_ok w dir (l1 ++ n :: l2) -> mn_path n' = mn_path n ->
  files_ok (set_files w (<[mn_path n := mn_store n']> (w_files w))) dir (l1 ++ n' :: l2).
Proof.
  intros (Hnd & Hs & Hn) Ep. rewrite fmap_app, fmap_cons in Hnd.
  assert (mn_path n ∉ (mn_path <$> l1) /\ mn_path n ∉ (mn_path <$> l2)) as [H1' H2'].
  { apply NoDup_app in Hnd as (_ & Hd & Hc). apply NoDup_cons in Hc as [Hc _]. split; [|done]. intros Hx. apply (Hd _ Hx). set_solver. }
  assert (forall x, synced w x -> mn_path x <> mn_path n ->
    synced (set_files w (<[mn_path n := mn_store n']> (w_files w))) x) as Hother.
  { intros x (st & Hst & ?) Hne. exists st. cbn [set_files w_files]. by rewrite lookup_insert_ne. }
  apply Forall_app in Hs as [Hs1 Hs2]. apply Forall_cons in Hs2 as [_ Hs2].
  apply Forall_app in Hn as [Hn1 Hn2]. apply Forall_cons in Hn2 as [Hn0 Hn2].
  split; [by rewrite fmap_app, fmap_cons, Ep|]. split; apply Forall_app; split.
  - apply Forall_forall. intros x Hx. apply Hother; [by apply (proj1 (Forall_forall _ _) Hs1)|]. intros E. apply H1'. rewrite <- E.
    by apply list_elem_of_fmap_2.
  - constructor.
    + exists (mn_store n'). cbn [set_files w_files]. rewrite Ep, lookup_insert_eq. done.
    + apply Forall_forall. intros x Hx. apply Hother; [by apply (proj1 (Forall_forall _ _) Hs2)|]. intros E. apply H2'. rewrite <- E.
      by apply list_elem_of_fmap_2.
  - exact Hn1.
  - constructor; [|exact Hn2]. unfold named in *. by rewrite Ep.
Qed.

(** A node whose file and contents stay *)
Lemma fo_same w dir l1 n n' l2 :
  files_ok w dir (l1 ++ n :: l2) -> mn_path n' = mn_path n -> mn_store n' = mn_store n -> files_ok w dir (l1 ++ n' :: l2).
Proof.
  intros (Hnd & Hs & Hn) Ep Es. unfold files_ok in *. rewrite !fmap_app, !fmap_cons in *.
  rewrite !Forall_app, !Forall_cons in *. unfold synced, named in *. by rewrite Ep, Es.
Qed.

Definition room (w : World) : Prop := w_node_seq w + 1 < u64_mod.

(** A fresh tip gets a file of its own. *)
Lemma fo_fresh w dir p dim now w' n ns :
  fresh_working w dir p dim now = (w', Ok n) -> room w -> files_ok w dir ns -> files_ok w' dir (n :: ns).
Proof.
  unfold fresh_working, alloc, derive_from. intros Hf Hroom (Hnd & Hs & Hn). destruct (rvf_derive p dim) as [st|]; [|done].
  injection Hf as <- <-. unfold room in Hroom. rewrite (wrap_add64_small (w_node_seq w) 1) by done.
  set (path := (dir, working_name (w_node_seq w))).
  assert (path ∉ (mn_path <$> ns)) as Hfr.
  { intros (x & Ex & Hx)%list_elem_of_fmap. rewrite Forall_forall in Hn. destruct (Hn x Hx) as [_ (id & Hid & Hnm)].
    rewrite <- Ex in Hnm. cbn [path snd] in Hnm. destruct Hnm as [E%working_name_inj|E]; [lia|by apply working_not_base in E]. }
  split; [|split].
  - cbn [fmap list_fmap]. by constructor.
  - constructor; [exists st; cbn; by rewrite lookup_insert_eq|]. apply Forall_forall. intros x Hx.
    destruct (proj1 (Forall_forall _ _) Hs x Hx) as (st' & Hst & ?). exists st'. cbn [set_files w_files]. split; [|done].
    rewrite lookup_insert_ne; [done|]. intros E. apply Hfr. fold path in E. rewrite E. by apply list_elem_of_fmap_2.
  - constructor; [split; [done|]; exists (w_node_seq w); cbn; split; [lia|by left]|].
    eapply Forall_impl; [exact Hn|]. intros x [Hd (id & Hid & ?)]. split; [done|]. exists id. cbn. split; [lia|done].
Qed.

Lemma fo_remove w dir ns stuck ps :
  files_ok w dir ns -> (forall p, p ∈ ps -> p ∉ (mn_path <$> ns)) -> files_ok (remove_files w stuck ps) dir ns.
Proof.
  intros (Hnd & Hs & Hn) Hp. split; [done|]. split; [|done]. apply Forall_forall. intros x Hx.
  destruct (proj1 (Forall_forall _ _) Hs x Hx) as (st & Hst & ?). exists st. split; [|done]. unfold remove_files. cbn [set_files w_files].
  assert (mn_path x ∉ ps) as Hxp by (intros Hin; apply (Hp _ Hin); by apply list_elem_of_fmap_2).
  clear -Hst Hxp. revert Hst. generalize (w_files w). induction ps as [|p ps IH]; intros f Hf; [done|]. cbn [foldl].
  apply not_elem_of_cons in Hxp as [Hne Hxp]. apply IH; [done|]. destruct (bool_decide (p ∈ stuck)); [done|].
  by rewrite lookup_delete_ne.
Qed.

(** ** Every operation keeps the files *)

Definition own (m : BranchableMemory) : list MemoryNode := option_list (bm_working m) ++ bm_ancestors m ++ [bm_base m].

Record kept (w : World) (m : BranchableMemory) (w' : World) (m' : BranchableMemory) : Prop := mkKept {
  k_files : files_ok w' (bm_dir m') (own m');
  k_dir : bm_dir m' = bm_dir m;
  k_inherited : bm_inherited m' = bm_inherited m;
}.

Lemma own_working m n : bm_working m = Some n -> own m = n :: bm_ancestors m ++ [bm_base m].
Proof. intros Hw. unfold own. by rewrite Hw. Qed.

Lemma assign_world w dim items w' r : assign w dim items = (w', r) -> w_files w' = w_files w /\ w_node_seq w' = w_node_seq w.
Proof.
  revert w w' r. induction items as [|it items IH]; intros w w' r; cbn [assign]; [by intros [= <- _]|].
  destruct (negb _); [by intros [= <- _]|]. destruct (vi_id it) as [i|]; unfold next_vector_id;
    (destruct (assign _ _ _) as [w2 [l|e]] eqn:Ea; apply IH in Ea as [E1 E2]; intros [= <- _]; done).
Qed.

Lemma note_items_path n l : mn_path (foldl note_item n l) = mn_path n /\ mn_store (foldl note_item n l) = mn_store n.
Proof. revert n. induction l as [|[[id v] it] l IH]; intros n; [done|]. cbn [foldl]. by destruct (IH (note_item n ((id, v), it))) as [-> ->]. Qed.

Lemma with_manifest_files {A} w m io (x : A) w' m' y :
  with_manifest w m io x = (w', m', Ok y) -> files_ok w (bm_dir m) (own m) -> files_ok w' (bm_dir m') (own m') /\ m' = m.
Proof.
  intros Hm Hf. destruct (with_manifest_ok _ _ _ _ _ _ _ Hm) as [-> _]. split; [|done]. unfold with_manifest, write_manifest in Hm.
  destruct io; [|done]. injection Hm as <- _. by eapply fo_mono.
Qed.

Lemma ingest_files w m items w' m' ids :
  ingest w m items = (w', m', Ok ids) -> files_ok w (bm_dir m) (own m) -> kept w m w' m'.
Proof.
  intros Hr Hf. unfold ingest in Hr. destruct items as [|it items']; [injection Hr as <- <- _; by split|].
  destruct (bm_working m) as [n|] eqn:Hw; [|done]. destruct (assign _ _ _) as [w1 [b|]] eqn:Ha; [|done].
  apply assign_world in Ha as [Ef Es]. destruct (rvf_ingest _ b) as [st [[]|]]; [|done].
  rewrite (own_working m n Hw) in Hf. injection Hr as <- <- _. split; [|done..].
  set (n' := foldl note_item (set_store n st) _). destruct (note_items_path (set_store n st) (zip b (it :: items'))) as [Ep Est].
  fold n' in Ep, Est. change (own (with_working m (Some n'))) with ([] ++ n' :: bm_ancestors m ++ [bm_base m]).
  apply (fo_same _ _ [] (set_store n st)); [|done..].
  apply (fo_write w1 (bm_dir m) [] n (set_store n st)); [|done]. eapply fo_mono; [exact Hf|done|]. by rewrite Es.
Qed.

Lemma delete_files w m ids m' :
  CowMemory.delete m ids = (m', Ok tt) -> files_ok w (bm_dir m) (own m) -> kept w m w m'.
Proof.
  intros Hr Hf. unfold CowMemory.delete in Hr. destruct ids as [|i ids]; [injection Hr as <-; by split|].
  destruct (bm_working m) as [n|] eqn:Hw; [|done]. injection Hr as <-. rewrite (own_working m n Hw) in Hf. split; [|done..].
  by apply (fo_same _ _ [] n (forget n (i :: ids))).
Qed.

Lemma freeze_files w n w' n' l rest dir :
  freeze w n = (w', n', Ok tt) -> files_ok w dir (n :: rest) ->
  files_ok w' dir (set_label n' l :: rest) /\ w_node_seq w' = w_node_seq w.
Proof.
  unfold freeze. destruct (rvf_freeze (mn_store n)) as [st [[]|]]; [|done]. intros [= <- <-] Hf. split; [|done].
  apply (fo_same _ _ [] (set_store n st)); [|done..]. by apply (fo_write w dir [] n (set_store n st)).
Qed.

Lemma checkpoint_files w m l now io w' m' id :
  checkpoint w m l now io = (w', m', Ok id) -> room w -> files_ok w (bm_dir m) (own m) -> kept w m w' m'.
Proof.
  intros Hr Hroom Hf. unfold checkpoint in Hr. destruct (bm_working m) as [n|] eqn:Hw; [|done].
  destruct (freeze w n) as [[w1 n1] [[]|]] eqn:Hz; [|done]. rewrite (own_working m n Hw) in Hf.
  destruct (freeze_files _ _ _ _ (Some l) _ _ Hz Hf) as [Hf1 Es].
  destruct (fresh_working _ _ _ _ _) as [w2 [n2|]] eqn:Hn; [|done].
  assert (room w1) as Hroom1 by (unfold room in *; by rewrite Es).
  pose proof (fo_fresh _ _ _ _ _ _ _ _ Hn Hroom1 Hf1) as Hf2. apply with_manifest_files in Hr as [Hf3 ->]; [by split|exact Hf2].
Qed.

Lemma pause_files w m l io w' m' :
  pause w m l io = (w', m', Ok tt) -> files_ok w (bm_dir m) (own m) -> kept w m w' m'.
Proof.
  intros Hr Hf. unfold pause in Hr. destruct (bm_working m) as [n|] eqn:Hw; [|injection Hr as <- <-; by split].
  destruct (freeze w n) as [[w1 n1] [[]|]] eqn:Hz; [|done]. rewrite (own_working m n Hw) in Hf.
  destruct (freeze_files _ _ _ _ (Some l) _ _ Hz Hf) as [Hf1 Es].
  apply with_manifest_files in Hr as [Hf3 ->]; [by split|exact Hf1].
Qed.

Lemma resume_files w m now io w' m' :
  resume w m now io = (w', m', Ok tt) -> room w -> files_ok w (bm_dir m) (own m) -> kept w m w' m'.
Proof.
  intros Hr Hroom Hf. unfold resume in Hr. destruct (bm_working m) as [n|] eqn:Hw; [injection Hr as <- <-; by split|].
  destruct (fresh_working _ _ _ _ _) as [w2 [n2|]] eqn:Hn; [|done]. unfold own in Hf. rewrite Hw in Hf.
  pose proof (fo_fresh _ _ _ _ _ _ _ _ Hn Hroom Hf) as Hf2. apply with_manifest_files in Hr as [Hf3 ->]; [by split|exact Hf2].
Qed.

(** A fresh tip replaces the old one and the nodes of [gone], whose files are
    removed. *)
Lemma tip_replaced w dir n2 gone keep stuck :
  files_ok w dir (n2 :: gone ++ keep) -> files_ok (remove_files w stuck (mn_path <$> gone)) dir (n2 :: keep).
Proof.
  intros Hf. pose proof Hf as (Hnd & _ & _). apply fo_remove.
  - eapply fo_sublist; [|exact Hf]. apply sublist_skip, sublist_inserts_l. done.
  - assert ((n2 :: gone ++ keep) ≡ₚ gone ++ n2 :: keep) as Hp by solve_Permutation.
    rewrite Hp, fmap_app in Hnd. apply NoDup_app in Hnd as (_ & Hd & _). exact Hd.
Qed.

Lemma fo_perm w dir ns ns' : ns ≡ₚ ns' -> files_ok w dir ns -> files_ok w dir ns'.
Proof. intros Hp (Hnd & Hs & Hn). unfold files_ok. by rewrite <- Hp. Qed.

Lemma remove_files_perm w stuck ps ps' dir ns :
  ps ≡ₚ ps' -> files_ok (remove_files w stuck ps) dir ns -> files_ok (remove_files w stuck ps') dir ns.
Proof.
  intros Hp Hf. assert (forall f : gmap Path St, foldl (fun f p => if bool_decide (p ∈ stuck) then f else base.delete p f) f ps =
    foldl (fun f p => if bool_decide (p ∈ stuck) then f else base.delete p f) f ps') as E.
  { clear Hf. induction Hp as [|x l l' _ IH|x y l|l l' l'' _ IH1 _ IH2]; intros f; cbn [foldl]; [done|apply IH| |by rewrite IH1].
    f_equal. destruct (bool_decide (x ∈ stuck)), (bool_decide (y ∈ stuck)); try done. apply delete_delete. }
  unfold remove_files in *. by rewrite <- E.
Qed.

Lemma rollback_files w m to now stuck io w' m' :
  rollback w m to now stuck io = (w', m', Ok tt) -> room w -> files_ok w (bm_dir m) (own m) -> kept w m w' m'.
Proof.
  intros Hr Hroom Hf. unfold rollback in Hr. destruct (bm_working m) as [n|] eqn:Hw; [|done].
  destruct (match to with None => _ | Some _ => _ end) as [idx|]; [|done].
  destruct (fresh_working _ _ _ _ _) as [w2 [n2|]] eqn:Hn; [|done]. rewrite (own_working m n Hw) in Hf.
  pose proof (fo_fresh _ _ _ _ _ _ _ _ Hn Hroom Hf) as Hf2.
  apply with_manifest_files in Hr as [Hf3 ->]; [by split|]. set (m1 := with_working _ _).
  change (own m1) with (n2 :: drop idx (bm_ancestors m) ++ [bm_base m]). change (bm_dir m1) with (bm_dir m).
  apply (remove_files_perm _ _ (mn_path <$> (n :: take idx (bm_ancestors m)))).
  { rewrite fmap_cons. change (map mn_path (take idx (bm_ancestors m))) with (mn_path <$> take idx (bm_ancestors m)). solve_Permutation. }
  apply tip_replaced. cbn [app]. rewrite app_assoc, take_drop. exact Hf2.
Qed.

Lemma replay_files w dir l base ns w' base' ing del r :
  replay w base ns ing del = (w', base', Ok r) -> files_ok w dir (l ++ [base]) ->
  files_ok w' dir (l ++ [base']) /\ w_node_seq w' = w_node_seq w.
Proof.
  revert w base ing del. induction ns as [|n ns IH]; intros w base ing del Hr Hf; cbn [replay] in Hr; [by injection Hr as <- <- _|].
  destruct (replay_edits w base n) as [[w1 b1] [i|]] eqn:E1; [|done].
  destruct (replay_tombstones w1 b1 n) as [[w2 b2] [d|]] eqn:E2; [|done].
  assert (files_ok w1 dir (l ++ [b1]) /\ w_node_seq w1 = w_node_seq w) as [Hf1 Es1].
  { unfold replay_edits in E1. destruct (bool_decide _); [by injection E1 as <- <- _|].
    destruct (rvf_ingest _ _) as [st [[]|]]; [|done]. injection E1 as <- <- _. split; [|done].
    match goal with |- files_ok _ _ (l ++ [?b]) => exact (fo_write w dir l base b [] Hf eq_refl) end. }
  assert (files_ok w2 dir (l ++ [b2]) /\ w_node_seq w2 = w_node_seq w1) as [Hf2 Es2].
  { unfold replay_tombstones in E2. destruct (bool_decide _); [by injection E2 as <- <- _|].
    destruct (rvf_delete _ _) as [st [[]|]]; [|done]. injection E2 as <- <- _. split; [|done].
    match goal with |- files_ok _ _ (l ++ [?b]) => exact (fo_write w1 dir l b1 b [] Hf1 eq_refl) end. }
  destruct (IH w2 b2 _ _ Hr Hf2) as [Hf' Es]. split; [done|]. by rewrite Es, Es2, Es1.
Qed.

Lemma promote_files w m now stuck io w' m' rep :
  promote w m now stuck io = (w', m', Ok rep) -> room w -> files_ok w (bm_dir m) (own m) -> kept w m w' m'.
Proof.
  intros Hr Hroom Hf. unfold promote in Hr. destruct (bm_working m) as [n|] eqn:Hw; [|done].
  destruct (replay _ _ _ _ _) as [[w1 base] [[ing del]|]] eqn:Hre; [|done]. rewrite (own_working m n Hw) in Hf.
  destruct (replay_files _ _ (n :: bm_ancestors m) _ _ _ _ _ _ _ Hre Hf) as [Hf1 Es1].
  assert (room w1) as Hroom1 by (unfold room in *; by rewrite Es1).
  destruct (fresh_working _ _ _ _ _) as [w2 [n2|]] eqn:Hn; [|done].
  pose proof (fo_fresh _ _ _ _ _ _ _ _ Hn Hroom1 Hf1) as Hf2.
  apply with_manifest_files in Hr as [Hf3 ->]; [by split|]. set (m1 := with_working _ _).
  change (own m1) with (n2 :: [base]). change (bm_dir m1) with (bm_dir m).
  apply (remove_files_perm _ _ (mn_path <$> (n :: bm_ancestors m))).
  { rewrite fmap_cons. change (map mn_path (bm_ancestors m)) with (mn_path <$> bm_ancestors m). solve_Permutation. }
  apply tip_replaced. exact Hf2.
Qed.

Lemma run_files w m o w' m' r :
  run w m o = (w', m', Ok r) -> room w -> files_ok w (bm_dir m) (own m) -> kept w m w' m'.
Proof.
  intros Hr Hroom Hf. destruct o as [items|ids|l now io|l io|now io|to now stuck io|now stuck io]; cbn [run] in Hr.
  - destruct (ingest w m items) as [[w1 m1] [x|]] eqn:E; [|done]. injection Hr as <- <- _. by eapply ingest_files.
  - destruct (CowMemory.delete m ids) as [m1 [[]|]] eqn:E; [|done]. injection Hr as <- <- _. by eapply delete_files.
  - destruct (checkpoint w m l now io) as [[w1 m1] [x|]] eqn:E; [|done]. injection Hr as <- <- _. by eapply checkpoint_files.
  - destruct (pause w m l io) as [[w1 m1] [[]|]] eqn:E; [|done]. injection Hr as <- <- _. by eapply pause_files.
  - destruct (resume w m now io) as [[w1 m1] [[]|]] eqn:E; [|done]. injection Hr as <- <- _. by eapply resume_files.
  - destruct (rollback w m to now stuck io) as [[w1 m1] [[]|]] eqn:E; [|done]. injection Hr as <- <- _. by eapply rollback_files.
  - destruct (promote w m now stuck io) as [[w1 m1] [x|]] eqn:E; [|done]. injection Hr as <- <- _. by eapply promote_files.
Qed.

(** ** Opening again *)

Definition restored (n n' : MemoryNode) : Prop :=
  mn_tombstones n' = mn_tombstones n /\ written (mn_store n') = written (mn_store n) /\ dropped (mn_store n') = dropped (mn_store n).

Lemma restored_views ns ns' rest rest' :
  Forall2 restored ns ns' -> view rest' = view rest ->
  view (ns' ++ rest') = view (ns ++ rest) /\ (points ns' rest').*2 = (points ns rest).*2.
Proof.
  intros Hr Hv. induction Hr as [|n n' ns ns' (Ht & Ew & Ed) _ [IH1 IH2]]; [done|]. cbn [app points fmap list_fmap snd].
  assert (view (n' :: ns' ++ rest') = view (n :: ns ++ rest)) as E by (by apply view_ext). split; [done|]. by rewrite E, <- IH2.
Qed.

(** A node that was opened again keeps its file. *)
Definition again (n n' : MemoryNode) : Prop := restored n n' /\ mn_path n' = mn_path n.

Lemma reopen_node_inv w dir n role ro now w' n' :
  reopen_node w dir (manifest_node_for n role) ro now = (w', Ok n') -> synced w n -> (mn_path n).1 = dir ->
  again n n' /\ w_files w' = w_files w /\ (room w -> w_node_seq w' = w_node_seq w + 1).
Proof.
  intros Hr (st & Hst & Ew & Ed) Hd. unfold reopen_node, open_file in Hr. cbn [manifest_node_for mf_file] in Hr.
  rewrite <- Hd, <- surjective_pairing, Hst in Hr.
  destruct (lift _) as [st'|] eqn:Eo; [|done]. unfold alloc in Hr. apply pair_equal_spec in Hr as [<- Hr]. injection Hr as <-.
  assert (written st' = written st /\ dropped st' = dropped st) as [Ew' Ed'].
  { destruct ro; [destruct (rvf_open_readonly st) eqn:E|destruct (rvf_open st) eqn:E]; cbn [lift] in Eo; try done; injection Eo as ->;
      [by apply readonly_same|by apply open_same]. }
  split; [|split; [done|]].
  - split; [|done]. split; [done|]. cbn [mn_store]. by rewrite Ew', Ed'.
  - unfold room. intros Hroom. cbn [w_node_seq]. by apply wrap_add64_small.
Qed.

Lemma synced_files w w' n : w_files w' = w_files w -> synced w n -> synced w' n.
Proof. intros E. unfold synced. by rewrite E. Qed.

Lemma reopen_nodes_inv w dir ns role now w' ns' :
  reopen_nodes w dir (map (fun n => manifest_node_for n role) ns) now = (w', Ok ns') ->
  Forall (synced w) ns -> Forall (fun n => (mn_path n).1 = dir) ns ->
  Forall2 again ns ns' /\ w_files w' = w_files w /\
  (w_node_seq w + lenN ns < u64_mod -> w_node_seq w' = w_node_seq w + lenN ns).
Proof.
  revert w w' ns'. induction ns as [|n ns IH]; intros w w' ns' Hr Hs Hd; cbn [map reopen_nodes] in Hr.
  { injection Hr as <- <-. split_and!; [constructor|done|]. unfold lenN. cbn [length]. lia. }
  apply Forall_cons in Hs as [Hsn Hs]. apply Forall_cons in Hd as [Hdn Hd].
  destruct (reopen_node w dir _ true now) as [w1 [x|]] eqn:E1; [|done]. destruct (reopen_nodes w1 dir _ now) as [w2 [xs|]] eqn:E2; [|done].
  injection Hr as <- <-. destruct (reopen_node_inv _ _ _ _ _ _ _ _ E1 Hsn Hdn) as (Hx & Ef1 & Hq1).
  destruct (IH _ _ _ E2) as (Hxs & Ef2 & Hq2); [by eapply Forall_impl; [exact Hs|]; intros; eapply synced_files|done|].
  split; [by constructor|]. split; [by rewrite Ef2|]. unfold lenN in *. cbn [length]. intros Hl.
  specialize (Hq1 ltac:(unfold room; lia)). specialize (Hq2 ltac:(lia)). lia.
Qed.

(** The world of another process, with the directory as it was left *)
Definition left_dir (dir : string) (w w' : World) : Prop :=
  (forall p, p.1 = dir -> w_files w' !! p = w_files w !! p) /\ w_manifests w' !! dir = w_manifests w !! dir.

Lemma left_synced dir w w' ns :
  (forall p, p.1 = dir -> w_files w' !! p = w_files w !! p) -> Forall (named w dir) ns -> Forall (synced w) ns -> Forall (synced w') ns.
Proof.
  intros Hf Hn Hs. apply Forall_forall. intros n Hin. destruct (proj1 (Forall_forall _ _) Hs n Hin) as (st & Hst & ?).
  exists st. rewrite Hf; [done|]. by destruct (proj1 (Forall_forall _ _) Hn n Hin).
Qed.

Lemma pause_manifest w m l io w1 m1 :
  bm_working m <> None -> pause w m l io = (w1, m1, Ok tt) ->
  w_manifests w1 !! bm_dir m = Some (Manifest (build_manifest w1 m1)) /\ bm_working m1 = None.
Proof.
  intros Hw Hp. unfold pause in Hp. destruct (bm_working m) as [n|]; [|done]. destruct (freeze w n) as [[w0 n0] [[]|]]; [|done].
  unfold with_manifest, write_manifest in Hp. destruct io; [|done]. injection Hp as <- <-. cbn [bm_working]. split; [|done].
  cbn [w_manifests bm_dir]. by rewrite lookup_insert_eq.
Qed.

(** What opening the directory of a paused memory gives *)
Definition reopened (m m' : BranchableMemory) : Prop :=
  bm_working m' = None /\ bm_inherited m' = [] /\ bm_dir m' = bm_dir m /\
  again (bm_base m) (bm_base m') /\ Forall2 again (bm_ancestors m) (bm_ancestors m').

Lemma own_paused m : bm_working m = None -> own m = bm_ancestors m ++ [bm_base m].
Proof. intros Hw. unfold own. by rewrite Hw. Qed.

Lemma reopen_inv w m w' now w2 m2 :
  files_ok w (bm_dir m) (own m) -> bm_inherited m = [] -> bm_working m = None ->
  w_manifests w !! bm_dir m = Some (Manifest (build_manifest w m)) -> left_dir (bm_dir m) w w' ->
  open w' (bm_dir m) now = (w2, Ok m2) ->
  reopened m m2 /\ w_files w2 = w_files w' /\
  (N.max (w_node_seq w') (w_node_seq w) + lenN (bm_ancestors m) + 1 < u64_mod ->
   w_node_seq w2 = N.max (w_node_seq w') (w_node_seq w) + lenN (bm_ancestors m) + 1).
Proof.
  intros (_ & Hy & Hn) Hinh Hw Hman Hl Ho. pose proof (left_synced _ _ _ _ (proj1 Hl) Hn Hy) as Hy'.
  rewrite (own_paused m Hw) in Hn, Hy'. apply Forall_app in Hn as [Hna Hnb]. apply Forall_app in Hy' as [Hya Hyb].
  rewrite Forall_singleton in Hnb, Hyb. unfold open in Ho. rewrite (proj2 Hl), Hman in Ho.
  unfold open_with_manifest in Ho. cbn [build_manifest lm_schema lm_base lm_ancestors lm_inherited lm_paused] in Ho.
  rewrite N.eqb_refl, Hw, Hinh in Ho. cbn [negb map reopen_nodes] in Ho. set (w1 := bump_watermarks _ _ _) in Ho.
  destruct (reopen_node w1 _ _ _ _) as [w3 [base|]] eqn:E1; [|done]. destruct (reopen_nodes w3 _ _ _) as [w4 [anc|]] eqn:E2; [|done].
  apply pair_equal_spec in Ho as [<- Ho]. injection Ho as <-.
  destruct (reopen_node_inv _ _ _ _ _ _ _ _ E1 Hyb (proj1 Hnb)) as (Hb & Ef1 & Hq1).
  destruct (reopen_nodes_inv _ _ _ _ _ _ _ E2) as (Ha & Ef2 & Hq2).
  { eapply Forall_impl; [exact Hya|]. intros n. by apply synced_files. }
  { eapply Forall_impl; [exact Hna|]. by intros n [? _]. }
  split; [done|]. split; [by rewrite Ef2, Ef1|]. intros Hroom.
  assert (w_node_seq w1 = N.max (w_node_seq w') (w_node_seq w)) as Eq by done. unfold room in Hq1.
  specialize (Hq1 ltac:(lia)). specialize (Hq2 ltac:(lia)). lia.
Qed.

Lemma again_own w w' dir ns ns' :
  Forall2 again ns ns' -> files_ok w dir ns -> (forall p, p.1 = dir -> w_files w' !! p = w_files w !! p) ->
  w_node_seq w <= w_node_seq w' -> files_ok w' dir ns'.
Proof.
  intros Ha (Hnd & Hy & Hn) Hl Hq. pose proof (left_synced _ _ _ _ Hl Hn Hy) as Hy'.
  assert ((mn_path <$> ns') = (mn_path <$> ns)) as Ep by (induction Ha as [|n n' ns ns' [_ E] _ IH]; [done|]; rewrite !fmap_cons, E; f_equal;
    apply IH; [by apply NoDup_cons in Hnd as [_ ?]|by apply Forall_cons in Hy as [_ ?]|by apply Forall_cons in Hn as [_ ?]|by apply Forall_cons in Hy' as [_ ?]]).
  split; [by rewrite Ep|]. clear Ep Hnd Hy Hl. induction Ha as [|n n' ns ns' [(_ & Ew & Ed) E] _ IH]; [done|].
  apply Forall_cons in Hn as [[Hd (id & Hid & Hnm)] Hn]. apply Forall_cons in Hy' as [(st & Hst & Hw' & Hd') Hy'].
  destruct (IH Hn Hy') as [IH1 IH2]. split; constructor; try done.
  - exists st. by rewrite E, Ew, Ed.
  - split; [by rewrite E|]. exists id. rewrite E. split; [lia|done].
Qed.

Lemma again_ok m m' : reopened m m' -> bm_working m = None -> mem_ok m -> mem_ok m'.
Proof.
  intros (Hw' & _ & _ & ((Ht & _ & Ed) & _) & Ha) Hw [Hn Hb]. rewrite Hw in Hn. split.
  - rewrite Hw'. change (option_list None) with (@nil MemoryNode) in *. cbn [app] in *.
    induction Ha as [|n n' ns ns' [(_ & _ & E) _] _ IH]; [done|]. apply Forall_cons in Hn as [Hx Hn].
    constructor; [|by apply IH]. unfold node_ok in *. by rewrite E.
  - by rewrite Ht, Ed.
Qed.

(** ** Lineages

    A memory that was created, operated on, paused and opened again, also by
    another process; other lineages may change files in other directories and
    take ids. *)

Inductive lineage : World -> BranchableMemory -> Prop :=
| l_create w dir dim now now' mk io w' m :
    w_node_seq w + 2 < u64_mod -> create w dir dim now now' mk io = (w', Ok m) -> lineage w' m
| l_run w m o w' m' r :
    lineage w m -> room w -> (forall now stuck io, o = OPromote now stuck io -> promotable m) ->
    run w m o = (w', m', Ok r) -> lineage w' m'
| l_world w m w' :
    lineage w m -> (forall p, p.1 = bm_dir m -> w_files w' !! p = w_files w !! p) -> w_node_seq w <= w_node_seq w' ->
    lineage w' m
| l_open w m l io w1 m1 w1' now w2 m2 :
    lineage w m -> bm_working m <> None -> pause w m l io = (w1, m1, Ok tt) -> left_dir (bm_dir m) w1 w1' ->
    N.max (w_node_seq w1') (w_node_seq w1) + lenN (bm_ancestors m1) + 1 < u64_mod ->
    open w1' (bm_dir m) now = (w2, Ok m2) -> lineage w2 m2.

Lemma create_inv w dir dim now now' mk io w' m :
  w_node_seq w + 2 < u64_mod -> create w dir dim now now' mk io = (w', Ok m) ->
  mem_ok m /\ files_ok w' (bm_dir m) (own m) /\ bm_inherited m = [].
Proof.
  unfold create. intros Hroom Hc. destruct (dim =? 0); [done|]. destruct mk; [|done]. unfold alloc in Hc. unfold create_root in Hc.
  rewrite (wrap_add64_small (w_node_seq w) 1) in Hc by lia.
  destruct (rvf_create dim) as [st|] eqn:Hst; [|done]. apply create_empty in Hst as [Ew Ed].
  set (base := wrap _ st _ _ _) in Hc. destruct (fresh_working _ _ _ _ _) as [w2 [n2|]] eqn:Hn; [|done].
  unfold write_manifest in Hc. destruct io; [|done]. injection Hc as <- <-.
  assert (files_ok w2 dir (n2 :: [base])) as Hf.
  { eapply fo_fresh; [exact Hn| |].
    - unfold room. cbn [set_files w_node_seq]. lia.
    - split; [apply NoDup_singleton|]. split.
      + constructor; [|constructor]. exists st. cbn [set_files w_files base wrap mn_path]. by rewrite lookup_insert_eq.
      + constructor; [|constructor]. split; [done|]. exists (w_node_seq w). cbn. split; [lia|by right]. }
  split; [|split]; [|eapply fo_mono; [exact Hf|done|done]|done].
  apply (mem_ok_working (mkMem dir dim (Some n2) [] base []) n2 eq_refl). apply fresh_blank in Hn.
  split_and!; [by apply blank_ok|constructor|]. cbn [bm_base base wrap mn_store]. rewrite Ed. set_solver.
Qed.

Lemma open_inv w m l io w1 m1 w1' now w2 m2 :
  mem_ok m -> files_ok w (bm_dir m) (own m) -> bm_inherited m = [] -> bm_working m <> None ->
  pause w m l io = (w1, m1, Ok tt) -> left_dir (bm_dir m) w1 w1' ->
  N.max (w_node_seq w1') (w_node_seq w1) + lenN (bm_ancestors m1) + 1 < u64_mod ->
  open w1' (bm_dir m) now = (w2, Ok m2) -> mem_ok m2 /\ files_ok w2 (bm_dir m2) (own m2) /\ bm_inherited m2 = [].
Proof.
  intros Hok Hf Hinh Hw Hp Hl Hroom Ho. destruct (pause_manifest _ _ _ _ _ _ Hw Hp) as [Hman Hw1].
  destruct (pause_refines _ _ _ _ _ _ Hok Hp) as [Hok1 _]. destruct (pause_files _ _ _ _ _ _ Hp Hf) as [Hf1 Hdir Hinh1].
  rewrite <- Hdir in Hman, Hl, Ho. rewrite Hinh in Hinh1.
  destruct (reopen_inv _ _ _ _ _ _ Hf1 Hinh1 Hw1 Hman Hl Ho) as (Hre & Ef & Hq). pose proof Hre as (Hw2 & Hi2 & Hd2 & Hb & Ha).
  split; [by eapply again_ok|]. split; [|done]. rewrite Hd2, (own_paused m2 Hw2). rewrite (own_paused m1 Hw1) in Hf1.
  eapply again_own; [|exact Hf1| |rewrite Hq by done; lia].
  - apply Forall2_app; [done|]. by constructor.
  - rewrite Ef. exact (proj1 Hl).
Qed.

Lemma lineage_inv w m : lineage w m -> mem_ok m /\ files_ok w (bm_dir m) (own m) /\ bm_inherited m = [].
Proof.
  induction 1 as [w dir dim now now' mk io w' m Hroom Hc|w m o w' m' r _ (Hok & Hf & Hinh) Hroom Hp Hr|w m w' _ (Hok & Hf & Hinh) Hw Hs
    |w m l io w1 m1 w1' now w2 m2 _ (Hok & Hf & Hinh) Hw Hp Hl Hroom Ho].
  - by eapply create_inv.
  - destruct (op_refines w m o w' m' r Hok Hp Hr) as [Hok' _]. destruct (run_files _ _ _ _ _ _ Hr Hroom Hf) as [? ? ->]. done.
  - split; [done|]. split; [|done]. destruct Hf as (Hnd & Hsy & Hn). split; [done|]. split; apply Forall_forall; intros n Hin.
    + destruct (proj1 (Forall_forall _ _) Hsy n Hin) as (st & Hst & ?). exists st. rewrite Hw; [done|].
      by destruct (proj1 (Forall_forall _ _) Hn n Hin).
    + destruct (proj1 (Forall_forall _ _) Hn n Hin) as [Hd (id & ? & ?)]. split; [done|]. exists id. split; [lia|done].
  - by eapply open_inv.
Qed.

(** ** A pause is survived *)

Lemma sp_pause_inv l io r t v ps b a :
  spec_step (OPause l io) r (mkAbs (Some t) v ps b) a -> a = mkAbs None v ((t, v) :: ps) b.
Proof.
  intros Hs. remember (OPause l io) as o eqn:Eo. remember (mkAbs (Some t) v ps b) as a0 eqn:Ea.
  destruct Hs as [o r a [[-> _]|[-> _]]| | | | | | | | | |]; try done; try (by simplify_eq).
Qed.

Section Reopen.
Context (opens : forall st, exists st', rvf_open st = Ok st').
Context (reads : forall st, exists st', rvf_open_readonly st = Ok st').

Lemma reopen_node_total w dir n role ro now :
  synced w n -> (mn_path n).1 = dir -> exists w' n', reopen_node w dir (manifest_node_for n role) ro now = (w', Ok n').
Proof using opens reads.
  intros (st & Hst & _) Hd. unfold reopen_node, open_file. cbn [manifest_node_for mf_file]. rewrite <- Hd, <- surjective_pairing, Hst.
  destruct (alloc w) as [w1 id]. destruct ro; [destruct (reads st) as [st' ->]|destruct (opens st) as [st' ->]]; by eexists _, _.
Qed.

Lemma reopen_nodes_total w dir ns role now :
  Forall (synced w) ns -> Forall (fun n => (mn_path n).1 = dir) ns ->
  exists w' ns', reopen_nodes w dir (map (fun n => manifest_node_for n role) ns) now = (w', Ok ns').
Proof using opens reads.
  revert w. induction ns as [|n ns IH]; intros w Hs Hd; cbn [map reopen_nodes]; [by eexists _, _|].
  apply Forall_cons in Hs as [Hsn Hs]. apply Forall_cons in Hd as [Hdn Hd].
  destruct (reopen_node_total w dir n role true now Hsn Hdn) as (w1 & n' & E). rewrite E.
  destruct (reopen_node_inv _ _ _ _ _ _ _ _ E Hsn Hdn) as (_ & Ef & _).
  destruct (IH w1) as (w2 & ns' & ->); [by eapply Forall_impl; [exact Hs|]; intros; eapply synced_files|done|]. by eexists _, _.
Qed.

Lemma reopen_total w m w' now :
  files_ok w (bm_dir m) (own m) -> bm_inherited m = [] -> bm_working m = None ->
  w_manifests w !! bm_dir m = Some (Manifest (build_manifest w m)) -> left_dir (bm_dir m) w w' ->
  exists w2 m2, open w' (bm_dir m) now = (w2, Ok m2).
Proof using opens reads.
  intros (_ & Hy & Hn) Hinh Hw Hman Hl. pose proof (left_synced _ _ _ _ (proj1 Hl) Hn Hy) as Hy'.
  rewrite (own_paused m Hw) in Hn, Hy'. apply Forall_app in Hn as [Hna Hnb]. apply Forall_app in Hy' as [Hya Hyb].
  rewrite Forall_singleton in Hnb, Hyb. unfold open. rewrite (proj2 Hl), Hman.
  unfold open_with_manifest. cbn [build_manifest lm_schema lm_base lm_ancestors lm_inherited lm_paused].
  rewrite N.eqb_refl, Hw, Hinh. cbn [negb map reopen_nodes]. set (w1 := bump_watermarks _ _ _).
  destruct (reopen_node_total w1 (bm_dir m) (bm_base m) MBase false now Hyb (proj1 Hnb)) as (w3 & base & E1). rewrite E1.
  destruct (reopen_node_inv _ _ _ _ _ _ _ _ E1 Hyb (proj1 Hnb)) as (_ & Ef1 & _).
  destruct (reopen_nodes_total w3 (bm_dir m) (bm_ancestors m) MAncestor now) as (w4 & anc & ->).
  { eapply Forall_impl; [exact Hya|]. intros n. by apply synced_files. }
  { eapply Forall_impl; [exact Hna|]. by intros n [? _]. }
  by eexists _, _.
Qed.

Lemma reopened_abs m m' :
  reopened m m' -> bm_working m = None -> bm_inherited m = [] ->
  a_tip (abs m') = None /\ a_view (abs m') = a_view (abs m) /\ (a_points (abs m')).*2 = (a_points (abs m)).*2 /\
  a_base (abs m') = a_base (abs m).
Proof.
  intros (Hw' & Hi' & _ & [(Ht & Ew & Ed) _] & Ha) Hw Hi. rewrite (abs_paused m Hw), (abs_paused m' Hw'). cbn [a_tip a_view a_points a_base].
  assert (view (root m') = view (root m)) as Hroot by (unfold root; rewrite Hi, Hi'; by apply view_ext).
  destruct (restored_views (bm_ancestors m) (bm_ancestors m') (root m) (root m')) as [Ev Ep]; [|done|done].
  eapply Forall2_impl; [exact Ha|]. by intros ? ? [? _].
Qed.


End Reopen.

(** ** Branches *)

Lemma snapshots_ok w ns xs : snapshots w ns = Ok xs -> Forall (synced w) ns -> Forall2 restored ns xs.
Proof.
  revert xs. induction ns as [|n ns IH]; intros xs Hs Hy; cbn [snapshots] in Hs; [by injection Hs as <-|].
  apply Forall_cons in Hy as [(st & Hst & Ew & Ed) Hy]. unfold open_readonly_snapshot, open_file in Hs. rewrite Hst in Hs.
  destruct (rvf_open_readonly st) as [st'|] eqn:Eo; [|done]. cbn [lift] in Hs. destruct (snapshots w ns) as [l|]; [|done].
  injection Hs as <-. constructor; [|by apply IH]. apply readonly_same in Eo as [Ew' Ed']. split; [done|]. cbn [mn_store].
  by rewrite Ew', Ed'.
Qed.

Lemma spawn_sees w m source dir now now' mk io w' c :
  spawn_independent w m source dir now now' mk io = (w', Ok c) -> bm_inherited m = [] ->
  Forall (synced w) (source ++ [bm_base m]) ->
  mem_ok c /\ exists t, abs c = mkAbs (Some t) (view (source ++ root m)) [] (view (source ++ root m)).
Proof.
  unfold spawn_independent. intros Hs Hinh Hy. destruct mk as [u|]; [|done]. rewrite Hinh in Hs. rewrite app_nil_r in Hs.
  destruct (snapshots w _) as [[|h ts]|] eqn:Hsn; [done| |done]. apply (snapshots_ok _ _ _ Hsn) in Hy.
  destruct (alloc w) as [w1 bid]. destruct (derive_from _ _ _ _ _ _ _) as [w2 [base|]] eqn:Hb; [|done].
  destruct (fresh_working _ _ _ _ _) as [w3 [n|]] eqn:Hn; [|done]. unfold write_manifest in Hs. destruct io; [|done].
  apply pair_equal_spec in Hs as [_ Hs]. injection Hs as <-. apply derive_blank in Hb. apply fresh_blank in Hn.
  set (c := mkMem _ _ (Some n) _ _ _). assert (view (h :: ts) = view (source ++ root m)) as Hv.
  { destruct (restored_views _ _ [] [] Hy eq_refl) as [Hv _]. rewrite !app_nil_r in Hv. unfold root. rewrite Hinh. exact Hv. }
  split.
  - apply (mem_ok_working c n eq_refl). split_and!; [by apply blank_ok|constructor|]. destruct Hb as (_ & Ed & _). cbn [c bm_base].
    rewrite Ed. set_solver.
  - exists (mn_id n). rewrite (abs_working c n eq_refl). cbn [c bm_ancestors points app].
    change (root c) with (base :: h :: ts). rewrite (blank_view n) by done. rewrite (blank_view base) by done. by rewrite Hv.
Qed.

Lemma points_drop ns rest k n :
  ns !! k = Some n -> (mn_id n, view (drop k ns ++ rest)) ∈ points ns rest.
Proof.
  revert k. induction ns as [|x ns IH]; intros [|k] Hk; cbn [lookup list_lookup] in Hk; try done; cbn [points drop].
  - injection Hk as ->. left.
  - right. by apply IH.
Qed.

(** A branch starts from what its source shows, and a fork from what the
    checkpoint showed: that is what it sees and what it falls back to. *)
Lemma branch_view w m from dir now now' mk io w' c :
  lineage w m ->
  match from with
  | None => branch w m dir now now' mk io
  | Some id => fork w m id dir now now' mk io
  end = (w', Ok c) ->
  mem_ok c /\ exists t v, abs c = mkAbs (Some t) v [] v /\
    match from with None => v = a_view (abs m) | Some id => (id, v) ∈ a_points (abs m) end.
Proof.
  intros (_ & (_ & Hy & _) & Hinh)%lineage_inv Hb. destruct from as [id|].
  - unfold fork in Hb. destruct (list_find _ _) as [[k n]|] eqn:Hl; [|done]. apply list_find_Some in Hl as (Hk & Hid & _).
    destruct (spawn_sees _ _ _ _ _ _ _ _ _ _ Hb Hinh) as (Hok & t & Ha).
    { unfold own in Hy. apply Forall_app in Hy as [_ Hy]. apply Forall_app in Hy as [Hy1 Hy2]. apply Forall_app. split; [|done].
      by apply Forall_drop. }
    split; [done|]. eexists t, _. split; [exact Ha|]. rewrite <- Hid. cbn [abs a_points]. by apply points_drop.
  - unfold branch in Hb. destruct (bm_working m) as [n|] eqn:Hw; [|done]. rewrite (own_working m n Hw) in Hy.
    destruct (spawn_sees _ _ _ _ _ _ _ _ _ _ Hb Hinh Hy) as (Hok & t & Ha). split; [done|]. eexists t, _. split; [exact Ha|].
    by rewrite (abs_working m n Hw).
Qed.

(** ** Isolation

    Whatever an operation does, also one that fails, the files outside the
    lineage's directory stay as they are. *)

Definition away (dir : string) (w w' : World) : Prop := forall p, p.1 <> dir -> w_files w' !! p = w_files w !! p.
Definition home (dir : string) (n : MemoryNode) : Prop := (mn_path n).1 = dir.

#[local] Instance away_refl dir : Reflexive (away dir).
Proof. by intros w p. Qed.

#[local] Instance away_trans dir : Transitive (away dir).
Proof. intros w1 w2 w3 H1' H2' p Hp. by rewrite H2', H1'. Qed.

Lemma away_write dir w p st : p.1 = dir -> away dir w (set_files w (<[p := st]> (w_files w))).
Proof. intros Hp q Hq. cbn [set_files w_files]. rewrite lookup_insert_ne; [done|]. by intros ->. Qed.

Lemma away_remove dir w stuck ps : Forall (fun p => p.1 = dir) ps -> away dir w (remove_files w stuck ps).
Proof.
  unfold away, remove_files. cbn [set_files w_files]. intros Hps p Hp. generalize (w_files w). induction Hps as [|q ps Hq _ IH]; intros f; [done|].
  cbn [foldl]. rewrite IH. case_bool_decide; [done|]. rewrite lookup_delete_ne; [done|]. by intros ->.
Qed.

Lemma away_fresh w dir p dim now w' r :
  fresh_working w dir p dim now = (w', r) -> away dir w w' /\ match r with Ok n => home dir n | Err _ => True end.
Proof.
  unfold fresh_working, alloc, derive_from. destruct (rvf_derive p dim) as [st|]; intros E; apply pair_equal_spec in E as [<- <-].
  - split; [|done]. set (w1 := mkWorld _ _ _ _). transitivity w1; [done|]. by apply away_write.
  - done.
Qed.

Lemma away_freeze dir w n w' n' r :
  freeze w n = (w', n', r) -> home dir n -> away dir w w' /\ home dir n'.
Proof.
  unfold freeze. destruct (rvf_freeze _) as [st f]. intros E Hn. apply pair_equal_spec in E as [E _]. apply pair_equal_spec in E as [<- <-].
  split; [by apply away_write|done].
Qed.

Lemma away_manifest {A} dir w m io (x : A) w' m' r : with_manifest w m io x = (w', m', r) -> away dir w w' /\ m' = m.
Proof. unfold with_manifest, write_manifest. by destruct io; intros [= <- <- _]. Qed.

Record apart (w : World) (m : BranchableMemory) (w' : World) (m' : BranchableMemory) : Prop := mkApart {
  ap_files : away (bm_dir m) w w';
  ap_dir : bm_dir m' = bm_dir m;
  ap_own : Forall (home (bm_dir m)) (own m');
}.

Lemma home_working dir m n : bm_working m = Some n ->
  Forall (home dir) (own m) <-> home dir n /\ Forall (home dir) (bm_ancestors m) /\ home dir (bm_base m).
Proof. intros Hw. rewrite (own_working m n Hw), Forall_cons, Forall_app, Forall_singleton. done. Qed.

Lemma home_paused dir m : bm_working m = None ->
  Forall (home dir) (own m) <-> Forall (home dir) (bm_ancestors m) /\ home dir (bm_base m).
Proof.
  intros Hw. unfold own. rewrite Hw. change (option_list None) with (@nil MemoryNode). cbn [app]. by rewrite Forall_app, Forall_singleton.
Qed.

Lemma ingest_apart w m items w' m' r :
  ingest w m items = (w', m', r) -> Forall (home (bm_dir m)) (own m) -> apart w m w' m'.
Proof.
  intros Hi Ho. unfold ingest in Hi. destruct items as [|it items]; [by injection Hi as <- <- _|].
  destruct (bm_working m) as [n|] eqn:Hw; [|by injection Hi as <- <- _].
  destruct (proj1 (home_working _ m n Hw) Ho) as (Hn & Ha & Hb).
  destruct (assign w (bm_dim m) _) as [w1 [b|]] eqn:Has; apply assign_world in Has as [Hfs _].
  2: { injection Hi as <- <- _. split; [|done|done]. intros p _. by rewrite Hfs. }
  destruct (rvf_ingest _ _) as [st [u|]]; injection Hi as <- <- _; split; try done;
    try (by transitivity w1; [intros p _; by rewrite Hfs|apply away_write]); apply (home_working _ (with_working m _) _ eq_refl); split; try done.
  unfold home. by rewrite (proj1 (note_items_path _ _)).
Qed.

Lemma delete_apart w m ids m' r :
  CowMemory.delete m ids = (m', r) -> Forall (home (bm_dir m)) (own m) -> apart w m w m'.
Proof.
  unfold CowMemory.delete. intros Hd Ho. destruct ids as [|i ids]; [by injection Hd as <- _|].
  destruct (bm_working m) as [n|] eqn:Hw; injection Hd as <- _; split; try done.
  apply (home_working _ (with_working m _) _ eq_refl). by apply (home_working _ m n Hw) in Ho.
Qed.

Lemma checkpoint_apart w m l now io w' m' r :
  checkpoint w m l now io = (w', m', r) -> Forall (home (bm_dir m)) (own m) -> apart w m w' m'.
Proof.
  unfold checkpoint. intros Hc Ho. destruct (bm_working m) as [n|] eqn:Hw; [|by injection Hc as <- <- _].
  destruct (proj1 (home_working _ m n Hw) Ho) as (Hn & Ha & Hb).
  destruct (freeze w n) as [[w1 n1] f] eqn:Hf. apply (away_freeze (bm_dir m)) in Hf as [Hw1 Hn1]; [|done].
  assert (Forall (home (bm_dir m)) (own (with_working m (Some n1)))) as Ho1 by (by apply (home_working _ (with_working m _) n1 eq_refl)).
  destruct f as [u|]; [|by injection Hc as <- <- _].
  destruct (fresh_working _ _ _ _ _) as [w2 f] eqn:Hfr. apply away_fresh in Hfr as [Hw2 Hn2].
  assert (away (bm_dir m) w w2) as Hw12 by (by transitivity w1). destruct f as [n2|]; [|by injection Hc as <- <- _].
  apply (away_manifest (bm_dir m)) in Hc as [Hw3 ->]. split; [by transitivity w2|done|].
  apply (home_working _ (mkMem _ _ (Some n2) _ _ _) n2 eq_refl). split_and!; [done|by constructor|done].
Qed.

Lemma pause_apart w m l io w' m' r :
  pause w m l io = (w', m', r) -> Forall (home (bm_dir m)) (own m) -> apart w m w' m'.
Proof.
  unfold pause. intros Hc Ho. destruct (bm_working m) as [n|] eqn:Hw; [|by injection Hc as <- <- _].
  destruct (proj1 (home_working _ m n Hw) Ho) as (Hn & Ha & Hb).
  destruct (freeze w n) as [[w1 n1] f] eqn:Hf. apply (away_freeze (bm_dir m)) in Hf as [Hw1 Hn1]; [|done].
  assert (Forall (home (bm_dir m)) (own (with_working m (Some n1)))) as Ho1 by (by apply (home_working _ (with_working m _) n1 eq_refl)).
  destruct f as [u|]; [|by injection Hc as <- <- _].
  apply (away_manifest (bm_dir m)) in Hc as [Hw3 ->]. split; [by transitivity w1|done|].
  apply home_paused; [done|]. split; [by constructor|done].
Qed.

Lemma resume_apart w m now io w' m' r :
  resume w m now io = (w', m', r) -> Forall (home (bm_dir m)) (own m) -> apart w m w' m'.
Proof.
  unfold resume. intros Hc Ho. destruct (bm_working m) as [n|] eqn:Hw; [by injection Hc as <- <- _|].
  destruct (proj1 (home_paused _ m Hw) Ho) as (Ha & Hb).
  destruct (fresh_working _ _ _ _ _) as [w2 f] eqn:Hfr. apply away_fresh in Hfr as [Hw2 Hn2]. destruct f as [n2|]; [|by injection Hc as <- <- _].
  apply (away_manifest (bm_dir m)) in Hc as [Hw3 ->]. split; [by transitivity w2|done|].
  by apply (home_working _ (with_working m _) n2 eq_refl).
Qed.

Lemma home_paths dir ns : Forall (home dir) ns -> Forall (fun p => p.1 = dir) (map mn_path ns).
Proof. intros Hh. apply Forall_map. exact Hh. Qed.

Lemma rollback_apart w m to now stuck io w' m' r :
  rollback w m to now stuck io = (w', m', r) -> Forall (home (bm_dir m)) (own m) -> apart w m w' m'.
Proof.
  unfold rollback. intros Hc Ho. destruct (bm_working m) as [n|] eqn:Hw; [|by injection Hc as <- <- _].
  destruct (proj1 (home_working _ m n Hw) Ho) as (Hn & Ha & Hb).
  destruct (match to with None => _ | Some _ => _ end) as [idx|]; [|by injection Hc as <- <- _].
  assert (Forall (home (bm_dir m)) (own (with_ancestors m (drop idx (bm_ancestors m))))) as Ho1.
  { apply (home_working _ (with_ancestors m _) n Hw). split_and!; [done|by apply Forall_drop|done]. }
  destruct (fresh_working _ _ _ _ _) as [w2 f] eqn:Hfr. apply away_fresh in Hfr as [Hw2 Hn2]. destruct f as [n2|]; [|by injection Hc as <- <- _].
  apply (away_manifest (bm_dir m)) in Hc as [Hw3 ->]. split; [|done|].
  - transitivity w2; [done|]. etransitivity; [|exact Hw3]. apply away_remove. apply Forall_app. split; [|by constructor].
    by apply home_paths, Forall_take.
  - apply (home_working _ (with_working _ _) n2 eq_refl). split_and!; [done|by apply Forall_drop|done].
Qed.

Lemma replay_apart dir w base ns ing del w' base' r :
  replay w base ns ing del = (w', base', r) -> home dir base -> away dir w w' /\ home dir base'.
Proof.
  revert w base ing del. induction ns as [|n ns IH]; intros w base ing del Hr Hb; cbn [replay] in Hr; [by injection Hr as <- <- _|].
  destruct (replay_edits w base n) as [[w1 b1] r1] eqn:E1.
  assert (away dir w w1 /\ home dir b1) as [Hw1 Hb1].
  { unfold replay_edits in E1. case_bool_decide; [by injection E1 as <- <- _|].
    destruct (rvf_ingest _ _) as [st [u|]]; injection E1 as <- <- _; by split; [apply away_write|]. }
  destruct r1 as [i|]; [|by injection Hr as <- <- _]. destruct (replay_tombstones w1 b1 n) as [[w2 b2] r2] eqn:E2.
  assert (away dir w1 w2 /\ home dir b2) as [Hw2 Hb2].
  { unfold replay_tombstones in E2. case_bool_decide; [by injection E2 as <- <- _|].
    destruct (rvf_delete _ _) as [st [u|]]; injection E2 as <- <- _; by split; [apply away_write|]. }
  assert (away dir w w2) as Hw12 by (by transitivity w1). destruct r2 as [d|]; [|by injection Hr as <- <- _].
  destruct (IH _ _ _ _ Hr Hb2) as [? ?]. split; [by transitivity w2|done].
Qed.

Lemma promote_apart w m now stuck io w' m' r :
  promote w m now stuck io = (w', m', r) -> Forall (home (bm_dir m)) (own m) -> apart w m w' m'.
Proof.
  unfold promote. intros Hc Ho. destruct (bm_working m) as [n|] eqn:Hw; [|by injection Hc as <- <- _].
  destruct (proj1 (home_working _ m n Hw) Ho) as (Hn & Ha & Hb).
  destruct (replay _ _ _ _ _) as [[w1 base] f] eqn:Hre. destruct (replay_apart _ _ _ _ _ _ _ _ _ Hre Hb) as [Hw1 Hb1].
  destruct f as [[ing del]|].
  2: { injection Hc as <- <- _. split; [done|done|]. by apply (home_working _ (with_base m base) n Hw). }
  destruct (fresh_working _ _ _ _ _) as [w2 f] eqn:Hfr. apply away_fresh in Hfr as [Hw2 Hn2]. cbn [bm_dir] in Hw2, Hn2.
  assert (away (bm_dir m) w w2) as Hw12 by (by transitivity w1). destruct f as [n2|].
  2: { injection Hc as <- <- _. split; [done|done|]. apply (home_working _ (mkMem _ _ _ [] base _) n eq_refl). by split_and!. }
  apply (away_manifest (bm_dir m)) in Hc as [Hw3 ->]. split; [|done|].
  - transitivity w2; [done|]. etransitivity; [|exact Hw3]. apply away_remove. apply Forall_app. split; [|by constructor].
    by apply home_paths.
  - apply (home_working _ (with_working _ _) n2 eq_refl). by split_and!.
Qed.

Lemma run_apart w m o w' m' r : run w m o = (w', m', r) -> Forall (home (bm_dir m)) (own m) -> apart w m w' m'.
Proof.
  intros Hr Ho. destruct o as [items|ids|l now io|l io|now io|to now stuck io|now stuck io]; cbn [run] in Hr.
  - destruct (ingest w m items) as [[w1 m1] x] eqn:E. injection Hr as <- <- _. by eapply ingest_apart.
  - destruct (CowMemory.delete m ids) as [m1 x] eqn:E. injection Hr as <- <- _. by eapply delete_apart.
  - destruct (checkpoint w m l now io) as [[w1 m1] x] eqn:E. injection Hr as <- <- _. by eapply checkpoint_apart.
  - destruct (pause w m l io) as [[w1 m1] x] eqn:E. injection Hr as <- <- _. by eapply pause_apart.
  - destruct (resume w m now io) as [[w1 m1] x] eqn:E. injection Hr as <- <- _. by eapply resume_apart.
  - destruct (rollback w m to now stuck io) as [[w1 m1] x] eqn:E. injection Hr as <- <- _. by eapply rollback_apart.
  - destruct (promote w m now stuck io) as [[w1 m1] x] eqn:E. injection Hr as <- <- _. by eapply promote_apart.
Qed.

(** A sequence of operations, the failing ones included *)
Fixpoint runs (w : World) (m : BranchableMemory) (os : list Op) : World * BranchableMemory :=
  match os with [] => (w, m) | o :: os => let '(w, m, _) := run w m o in runs w m os end.

Lemma runs_apart w m os w' m' : runs w m os = (w', m') -> Forall (home (bm_dir m)) (own m) -> apart w m w' m'.
Proof.
  revert w m. induction os as [|o os IH]; intros w m Hr Ho; cbn [runs] in Hr; [by injection Hr as <- <-|].
  destruct (run w m o) as [[w1 m1] r] eqn:E. destruct (run_apart _ _ _ _ _ _ E Ho) as [Hf1 Hd1 Ho1].
  rewrite <- Hd1 in Ho1. destruct (IH _ _ Hr Ho1) as [Hf2 Hd2 Ho2]. rewrite Hd1 in Hf2, Hd2, Ho2. split; [by transitivity w1|done|done].
Qed.

Lemma spawn_apart w m source dir now now' mk io w' c :
  spawn_independent w m source dir now now' mk io = (w', Ok c) -> away dir w w' /\ bm_dir c = dir /\ Forall (home dir) (own c).
Proof.
  unfold spawn_independent, alloc, derive_from. intros Hs. destruct mk as [u|]; [|done].
  destruct (snapshots w _) as [[|h ts]|]; [done| |done]. destruct (rvf_derive _ _) as [st|]; [|done].
  destruct (fresh_working _ _ _ _ _) as [w3 [n|]] eqn:Hn; [|done]. apply away_fresh in Hn as [Hw3 Hn].
  unfold write_manifest in Hs. destruct io as [u'|]; [|done]. apply pair_equal_spec in Hs as [<- Hs]. injection Hs as <-. split_and!.
  - set (w1 := mkWorld _ _ _ _) in Hw3. transitivity w1; [done|]. etransitivity; [|etransitivity; [exact Hw3|done]]. by apply away_write.
  - done.
  - apply (home_working _ (mkMem _ _ (Some n) _ _ _) n eq_refl). split_and!; [done|constructor|done].
Qed.


End Files.
