(* ===== verification/CowDemo.v ===== *)
(** * A store for branchable memory, and what happens on it

    A small vector store that keeps the laws branchable memory relies on,
    concrete runs of the theorems on it, and runs that show where the
    guarantees end. *)

From Stdlib Require Import Strings.String SpecFloat.
From S2P Require Import Prelude Codec Scoring CowMemory CowSpec CowFiles.

Local Open Scope string_scope.
Local Open Scope list_scope.
Local Open Scope N_scope.

#[local] Existing Instance scored_le_dec.

Module ToyRvf.

Record store := mkStore { s_dim : N; s_ro : bool; s_written : gmap N vec; s_dropped : gset N }.

(** The squared distance *)
Definition l2 (a b : vec) : f32 := F32.sum (zip_with (fun x y => F32.mul (F32.sub x y) (F32.sub x y)) a b).

Definition put (s : store) (b : list (N * vec)) : store * result unit string :=
  if s_ro s then (s, Err "read only") else (mkStore (s_dim s) false (write_all (s_written s) b) (s_dropped s), Ok tt).

Definition mark (s : store) (ids : list N) : store * result unit string :=
  if s_ro s then (s, Err "read only")
  else (mkStore (s_dim s) false (s_written s) (s_dropped s ∪ filter (fun i => is_Some (s_written s !! i)) (list_to_set ids)), Ok tt).

Definition scored (s : store) (q : vec) : list (N * f32) :=
  (fun x => (x.1, l2 q x.2)) <$> filter (fun x => x.1 ∉ s_dropped s) (map_to_list (s_written s)).

#[export] Instance rvf : Rvf := {
  St := store;
  rvf_create dim := Ok (mkStore dim false ∅ ∅);
  rvf_derive _ dim := Ok (mkStore dim false ∅ ∅);
  rvf_open s := Ok (mkStore (s_dim s) false (s_written s) (s_dropped s));
  rvf_open_readonly s := Ok (mkStore (s_dim s) true (s_written s) (s_dropped s));
  rvf_dimension := s_dim;
  rvf_ingest := put;
  rvf_delete := mark;
  rvf_freeze s := (mkStore (s_dim s) true (s_written s) (s_dropped s), Ok tt);
  rvf_query s q k := Ok (take (N.to_nat k) (merge_sort scored_le (scored s q)));
  rvf_file_id _ := [];
  rvf_witness _ := [];
}.

Lemma scored_keys s q : NoDup (scored s q).*1.
Proof.
  unfold scored. rewrite <- list_fmap_compose. change (fst ∘ _) with (@fst N vec).
  eapply sublist_NoDup; [apply (NoDup_fst_map_to_list (s_written s))|]. apply fmap_sublist, sublist_filter.
Qed.

Lemma scored_elem s q i d :
  (i, d) ∈ scored s q <-> i ∉ s_dropped s /\ exists v, s_written s !! i = Some v /\ d = l2 q v.
Proof.
  unfold scored. rewrite list_elem_of_fmap. split.
  - intros ((j, v) & [= -> ->] & (Hd & Hin)%list_elem_of_filter). split; [done|]. exists v. by apply elem_of_map_to_list in Hin.
  - intros (Hd & v & Hv & ->). exists (i, v). split; [done|]. apply list_elem_of_filter. split; [done|]. by apply elem_of_map_to_list.
Qed.

#[export] Instance laws : RvfLaws.
Proof.
  refine {| written := s_written : St -> _; dropped := s_dropped : St -> _; dist := l2 |}.
  1-5: cbn; naive_solver.
  - intros st b st' E. cbn in E. unfold put in E. destruct (s_ro st); [done|]. by injection E as <-.
  - intros st ids st' E. cbn in E. unfold mark in E. destruct (s_ro st); [done|]. injection E as <-. split; [done|].
    intros i. cbn [s_dropped]. rewrite elem_of_union, elem_of_filter, elem_of_list_to_set. naive_solver.
  - intros st q k res E. cbn in E. injection E as <-. set (l := merge_sort scored_le (scored st q)).
    assert (l ≡ₚ scored st q) as Hp by apply merge_sort_Permutation. split_and!.
    + eapply sublist_NoDup; [|by apply fmap_sublist, sublist_take]. rewrite Hp. apply scored_keys.
    + intros i d Hi. apply scored_elem. rewrite <- Hp. by apply (subseteq_take (N.to_nat k) l).
    + intros Hk i v Hv Hd. rewrite take_ge; [rewrite Hp; apply scored_elem; eauto|]. rewrite Hp. unfold scored. rewrite length_fmap.
      rewrite length_filter. transitivity (length (map_to_list (s_written st))); [done|].
      rewrite length_map_to_list, <- size_dom. unfold size, set_size, lenN in *. cbn. lia.
Defined.

End ToyRvf.

#[local] Existing Instance ToyRvf.rvf.
#[local] Existing Instance ToyRvf.laws.

(** ** A run *)

Definition fs (l : list Z) : vec := F32.of_Z <$> l.
Definition item (i : N) (l : list Z) : VectorItem := mkItem (Some i) (fs l) None ∅.
Definition unit_vec (l : list Z) : vec := l2_normalize (fs l).
Definition world0 : World := mkWorld FIRST_ID FIRST_ID ∅ ∅.
Definition nothing : BranchableMemory := mkMem "" 0 None [] (wrap 0 (ToyRvf.mkStore 0 false ∅ ∅) ("", "") None 0) [].

Definition got (x : World * result BranchableMemory CowMemoryError) : World * BranchableMemory :=
  (x.1, match x.2 with Ok m => m | Err _ => nothing end).

Definition go (x : World * BranchableMemory) (o : Op) : World * BranchableMemory := (run x.1 x.2 o).1.
Definition make (dir : string) (w : World) : World * BranchableMemory := got (create w dir 2 0 0 (Ok tt) (Ok tt)).
Definition sees (x : World * BranchableMemory) : list (N * vec) := map_to_list (a_view (abs x.2)).

Definition s0 := make "a" world0.
Definition s1 := go s0 (OIngest [item 1 [1; 0]; item 2 [0; 1]]%Z).
Definition s2 := go s1 (OCheckpoint "one" 5 (Ok tt)).
Definition s3 := go s2 (ODelete [1]).
Definition s4 := go s3 (OIngest [item 3 [3; 4]; item 2 [-1; 0]]%Z).
Definition s5 := go s4 (OPromote 9 ∅ (Ok tt)).

Example s5_seen : sees s5 = sees s4 /\ sees s4 = map_to_list (<[3 := unit_vec [3; 4]%Z]> {[2 := unit_vec [-1; 0]%Z]} : gmap N vec).
Proof. vm_compute. done. Qed.

(** Each step as a run that succeeds *)
Lemma go_ok x o r : (run x.1 x.2 o).2 = Ok r -> run x.1 x.2 o = ((go x o).1, (go x o).2, Ok r).
Proof. unfold go. destruct (run x.1 x.2 o) as [[w m] r']. by intros [= ->]. Qed.

Lemma pause_ok x l io : (pause x.1 x.2 l io).2 = Ok tt -> pause x.1 x.2 l io = ((go x (OPause l io)).1, (go x (OPause l io)).2, Ok tt).
Proof. unfold go. cbn [run]. destruct (pause x.1 x.2 l io) as [[w m] r]. by intros [= ->]. Qed.

Lemma got_ok x : match x.2 with Ok _ => true | Err _ => false end = true -> x = ((got x).1, Ok (got x).2).
Proof. by destruct x as [w [m|]]. Qed.

Lemma go_lineage x o r :
  lineage x.1 x.2 -> w_node_seq x.1 + 1 < u64_mod -> (forall now stuck io, o <> OPromote now stuck io) ->
  (run x.1 x.2 o).2 = Ok r -> lineage (go x o).1 (go x o).2.
Proof.
  intros Hl Hr Hp Ho. eapply l_run; [exact Hl|exact Hr| |by apply go_ok]. intros now stuck io E. by destruct (Hp now stuck io).
Qed.

Ltac demo_step := first [by_vm | intros; discriminate].

Lemma s0_lineage : lineage s0.1 s0.2.
Proof. refine (l_create world0 "a" 2 0 0 (Ok tt) (Ok tt) _ _ _ _); [by_vm|]. apply got_ok. by_vm. Qed.

Lemma s4_lineage : lineage s4.1 s4.2.
Proof.
  refine (go_lineage s3 _ (RIds [3; 2]) _ _ _ _); [|demo_step..].
  refine (go_lineage s2 _ RDone _ _ _ _); [|demo_step..].
  refine (go_lineage s1 _ (RPoint 2) _ _ _ _); [|demo_step..].
  refine (go_lineage s0 _ (RIds [1; 2]) _ _ _ _); [|demo_step..]. exact s0_lineage.
Qed.

Lemma s4_nodes :
  option_list (bm_working s4.2) ++ bm_ancestors s4.2 =
    [default (bm_base s4.2) (bm_working s4.2); default (bm_base s4.2) (head (bm_ancestors s4.2))].
Proof. by_vm. Qed.

Lemma s4_promotable : promotable s4.2.
Proof.
  split; [unfold in_process; rewrite s4_nodes; repeat constructor; unfold logged; by_vm|].
  assert (option_list (bm_working s4.2) ++ bm_ancestors s4.2 ++ [bm_base s4.2] =
    [default (bm_base s4.2) (bm_working s4.2); default (bm_base s4.2) (head (bm_ancestors s4.2)); bm_base s4.2]) as ->
    by by_vm.
  repeat split; repeat constructor; apply (bool_decide_unpack _); vm_compute; done.
Qed.

Lemma cow_refines_witness :
  spec_step (OPromote 9 ∅ (Ok tt)) (RPromoted (mkReport 4 1 [] [] [])) (abs s4.2) (abs s5.2).
Proof.
  refine (proj2 (proj2 (cow_refines s4.1 s4.2 (OPromote 9 ∅ (Ok tt)) s5.1 s5.2 _ _ _ _))).
  - exact (proj1 (lineage_inv _ _ s4_lineage)).
  - intros now stuck io _. exact s4_promotable.
  - apply (go_ok s4). by_vm.
Defined.

Ltac by_dec := apply (bool_decide_unpack _); match goal with |- ?g => exact (I <: g) end.

Definition near : vec := fs [1; 0]%Z.
Definition found : list (N * f32) := match query s4.2 near 2 with Ok l => l | Err _ => [] end.

Lemma query_exact_witness :
  found.*1 = [3; 2] /\ length found = 2%nat /\
  (forall i u j d, a_view (abs s4.2) !! i = Some u -> i ∉ found.*1 -> (j, d) ∈ found ->
     F32.ltb (dist (l2_normalize near) u) d = false).
Proof.
  destruct (query_exact s4.2 near 2 found) as (_ & Hl & _ & Hn); [by_vm|by_vm| | |split; [by_vm|]; split; [exact Hl|exact Hn]].
  - unfold fits. by_dec.
  - change (map_Forall (fun _ u => F32.is_nan (dist (l2_normalize near) u) = false) (a_view (abs s4.2))). by_dec.
Defined.

Definition s6 := go s4 (OPause "stop" (Ok tt)).

Lemma toy_opens (st : St) : exists st', rvf_open st = Ok st'.
Proof. by eexists. Qed.

Lemma toy_reads (st : St) : exists st', rvf_open_readonly st = Ok st'.
Proof. by eexists. Qed.

(** Another process: the files and manifests are there, the counters start again *)
Definition next_process (w : World) : World := mkWorld FIRST_ID FIRST_ID (w_files w) (w_manifests w).

Lemma next_process_left dir w : left_dir dir w (next_process w).
Proof. by split. Qed.


(** It goes on where it stopped. *)
Definition s7 := got (open (next_process s6.1) "a" 77).
Definition s8 := go (go s7 (OResume 78 (Ok tt))) (OIngest [item 4 [1; 1]%Z]).

Lemma s8_lineage : lineage s8.1 s8.2.
Proof.
  refine (go_lineage (go s7 (OResume 78 (Ok tt))) _ (RIds [4]) _ _ _ _); [|demo_step..].
  refine (go_lineage s7 _ RDone _ _ _ _); [|demo_step..].
  refine (l_open s4.1 s4.2 "stop" (Ok tt) s6.1 s6.2 (next_process s6.1) 77 s7.1 s7.2 s4_lineage _ _ _ _ _).
  - intros E. assert (match bm_working s4.2 with Some _ => true | None => false end = true) as Hw by by_vm. by rewrite E in Hw.
  - apply (pause_ok s4). by_vm.
  - apply next_process_left.
  - by_vm.
  - apply got_ok. by_vm.
Qed.

Definition b0 := got (branch s4.1 s4.2 "b" 20 20 (Ok tt) (Ok tt)).
Definition b_ops : list Op :=
  [OIngest [item 7 [1; 1]%Z]; ORollback (Some 99) 21 ∅ (Ok tt); OPromote 22 ∅ (Ok tt); ODelete [2]].


(** ** Where the guarantees end *)

(** A store asked for its four nearest leaves out an id it holds a new version
    of; the walk then takes the old version from a checkpoint. *)
Definition t1 := go (go s0 (OIngest [item 1 [1; 0]%Z])) (OCheckpoint "old" 5 (Ok tt)).
Definition t2 := go t1 (OIngest [item 1 [-1; 0]; item 2 [1; 1]; item 3 [1; 1]; item 4 [1; 1]; item 5 [1; 1]]%Z).

Example stale_version_returned :
  query t2.2 near 1 = Ok [(1, F32.zero)] /\ a_view (abs t2.2) !! 1 = Some (unit_vec [-1; 0]%Z).
Proof. split; by_vm. Qed.

(** A checkpoint deletes an id, the tip writes it again, and the promotion hides
    what was visible. *)
Definition p1 := go (go s0 (OIngest [item 1 [1; 0]%Z])) (OPromote 5 ∅ (Ok tt)).
Definition p2 := go (go p1 (ODelete [1])) (OCheckpoint "gone" 6 (Ok tt)).
Definition p3 := go p2 (OIngest [item 1 [0; 1]%Z]).
Definition p4 := go p3 (OPromote 7 ∅ (Ok tt)).

Example promotion_hides_readded :
  a_view (abs p3.2) !! 1 = Some (unit_vec [0; 1]%Z) /\ (run p3.1 p3.2 (OPromote 7 ∅ (Ok tt))).2 = Ok (RPromoted (mkReport 1 1 [] [] [])) /\
  a_view (abs p4.2) !! 1 = None.
Proof. split_and!; by_vm. Qed.

(** The manifest of a branch names its inherited files without their
    directories: a branch that was paused does not open again. *)
Definition b1 := go b0 (OPause "stop" (Ok tt)).

Example branch_not_reopened :
  (run b0.1 b0.2 (OPause "stop" (Ok tt))).2 = Ok RDone /\ (open b1.1 "b" 77).2 = Err (CRvf "not found").
Proof. split; by_vm. Qed.

(** A branch of a branch opens the files of the first source again and shows
    what that source wrote since, which the branch itself does not. *)
Definition g1 := go (b0.1, s4.2) (OIngest [item 9 [1; 0]%Z]).
Definition g2 := got (branch g1.1 b0.2 "c" 30 30 (Ok tt) (Ok tt)).

Example grandchild_sees_later : a_view (abs b0.2) !! 9 = None /\ a_view (abs g2.2) !! 9 = Some (unit_vec [1; 0]%Z).
Proof. split; by_vm. Qed.

(** A checkpoint that was opened again has no edit log: promoting it removes its
    file and its vectors. *)
Definition r1 := go (go s0 (OIngest [item 1 [1; 0]%Z])) (OPause "stop" (Ok tt)).
Definition r2 := go (got (open (next_process r1.1) "a" 77)) (OResume 78 (Ok tt)).
Definition r3 := go r2 (OPromote 79 ∅ (Ok tt)).

Example reopened_promotion_loses :
  sees r2 = [(1, unit_vec [1; 0]%Z)] /\ (run r2.1 r2.2 (OPromote 79 ∅ (Ok tt))).2 = Ok (RPromoted (mkReport 0 0 [] [] [])) /\ sees r3 = [].
Proof. split_and!; by_vm. Qed.

(** A vector with an infinite component is accepted; its distances are not
    numbers, and the order of the results falls apart around them. *)
Definition odd : VectorItem := mkItem (Some 1) [S754_infinity false; F32.zero] None ∅.
Definition n1 := go s0 (OIngest [odd; item 2 [-1; 0]; item 3 [1; 0]]%Z).

Example infinite_hides_nearest :
  query n1.2 near 2 = Ok [(2, F32.of_Z 4); (1, S754_nan)] /\
  a_view (abs n1.2) !! 3 = Some (unit_vec [1; 0]%Z) /\ dist (l2_normalize near) (unit_vec [1; 0]%Z) = F32.zero.
Proof. split_and!; by_vm. Qed.
