(* ===== verification/AnchorProject.v ===== *)
(** * Anchoring a project chain with the user daemon: the project

    chain_anchor_parent.rs and chain_anchor_parent_types.rs: a project kernel
    signs a statement about the head of its chain, keeps it in a pending file,
    submits it, and records the acknowledgement on its own chain.  The link to
    the user daemon is the class [ParentTransport]; nothing is assumed of its
    answers beyond their types.  Counters of accepted statements are not
    wrapped at 2^64. *)

From Stdlib Require Import Strings.String.
From S2P Require Import Prelude Codec Chain Delegation Canon.

Local Open Scope string_scope.
Local Open Scope list_scope.
Local Open Scope N_scope.

(** [ANCHOR_SOURCE] *)
Definition ANCHOR_SOURCE : string := "project.anchor".
Definition KIND_ANCHOR : string := "project.anchor".
Definition KIND_ANCHORED : string := "project.anchored".

Record AnchorAck := mkAck { ack_user_seq : N; ack_user_event_hash : string }.

Inductive AnchorSubmitError :=
| Unreachable (m : string)
| Rejected (kind message : string) (last : option (ProjectAnchorStmt * AnchorAck)) (key_history : list bytes).

Record ParentAnchorConfig := mkParentConfig {
  backoff_base_secs : Z;
  backoff_max_secs : Z;
  submit_timeout_secs : N;
}.

(** [ParentAnchorConfig::default] *)
Definition parent_config_default : ParentAnchorConfig := mkParentConfig 5 300 10.

(** [AnchorReceipt] of chain.rs *)
Record AnchorReceipt := mkReceipt { rc_hash : bytes; rc_tx_id : string; rc_anchored_at : Z }.

(** The link, with whatever is behind it as its state.  No answer within the
    deadline is [None]. *)
Class ParentTransport := {
  Link : Type;
  submit : Link -> ProjectAnchorStmt -> Link * option (result AnchorAck AnchorSubmitError);
}.

(** [serde_json] on a statement *)
Class AnchorSerde := {
  stmt_to_value : ProjectAnchorStmt -> Json;
  stmt_from_value : Json -> option ProjectAnchorStmt;
}.

(** [Accepted] *)
Record Recorded := mkRecorded { rd_stmt : ProjectAnchorStmt; rd_ack : AnchorAck }.

(** [State] *)
Record AnchorState := mkAnchorState {
  as_last : option Recorded;
  as_failures : N;
  as_retry_at : option Z;
  as_last_error : option string;
}.

Definition anchor_state_default : AnchorState := mkAnchorState None 0 None None.

(** [parse_anchored] *)
Definition parse_anchored `{AnchorSerde} (p : Json) : option Recorded :=
  stmt ← json_get "statement" p ≫= stmt_from_value;
  seq ← json_get "user_seq" p ≫= json_as_u64;
  h ← json_get "user_event_hash" p ≫= json_as_str;
  Some (mkRecorded stmt (mkAck seq h)).

(** The clocks and the rule hash of a chain append *)
Record Tick := mkTick { tk_now : Z; tk_now' : Z; tk_stamp : option bytes }.

(** What the machine does during an operation: the outcomes of the writes of
    the pending file, whether its removals succeed, the clocks of the appends *)
Record AnchorIo := mkAnchorIo {
  ai_write : result unit string;
  ai_rewrite : result unit string;
  ai_remove : bool;
  ai_tick : Tick;
  ai_tick' : Tick;
}.

Section Project.
Context `{CanonEnv} `{AnchorSerde}.
Context (shake256 : bytes -> bytes) (to_vec : Json -> bytes).

(** [ParentAnchor].  The pending file: absent, a last line that does not
    parse, or a statement. *)
Record ParentAnchor := mkParent {
  pa_chain : LocalChain;
  pa_key : SigningKey;
  pa_project_id : string;
  pa_cert_serial : N;
  pa_cfg : ParentAnchorConfig;
  pa_pending : option (option ProjectAnchorStmt);
  pa_state : AnchorState;
  pa_inflight : N;
}.

Definition with_chain (p : ParentAnchor) (c : LocalChain) : ParentAnchor :=
  mkParent c (pa_key p) (pa_project_id p) (pa_cert_serial p) (pa_cfg p) (pa_pending p) (pa_state p) (pa_inflight p).
Definition with_pending (p : ParentAnchor) (f : option (option ProjectAnchorStmt)) : ParentAnchor :=
  mkParent (pa_chain p) (pa_key p) (pa_project_id p) (pa_cert_serial p) (pa_cfg p) f (pa_state p) (pa_inflight p).
Definition with_state (p : ParentAnchor) (s : AnchorState) : ParentAnchor :=
  mkParent (pa_chain p) (pa_key p) (pa_project_id p) (pa_cert_serial p) (pa_cfg p) (pa_pending p) s (pa_inflight p).
Definition with_inflight (p : ParentAnchor) (n : N) : ParentAnchor :=
  mkParent (pa_chain p) (pa_key p) (pa_project_id p) (pa_cert_serial p) (pa_cfg p) (pa_pending p) (pa_state p) n.

(** [set_cert_serial] *)
Definition set_cert_serial (p : ParentAnchor) (serial : N) : ParentAnchor :=
  mkParent (pa_chain p) (pa_key p) (pa_project_id p) serial (pa_cfg p) (pa_pending p) (pa_state p) (pa_inflight p).

(** [receipt_of] *)
Definition receipt_of (a : Recorded) (now : Z) : AnchorReceipt :=
  mkReceipt (default zero_hash (hex_decode_n 32 (an_head_hash (rd_stmt a)))) ("parent-" +:+ pretty (ack_user_seq (rd_ack a))) now.

(** [recover] *)
Definition is_anchored (e : ChainEvent) : bool :=
  String.eqb (ce_source e) ANCHOR_SOURCE && String.eqb (ce_kind e) KIND_ANCHORED.

Definition recover_step (id : string) (best : option Recorded) (e : ChainEvent) : option Recorded :=
  if negb (is_anchored e) then best
  else match ce_payload e ≫= parse_anchored with
       | None => best
       | Some a =>
           if String.eqb (an_project_id (rd_stmt a)) id &&
              match best with None => true | Some b => an_seq (rd_stmt b) <? an_seq (rd_stmt a) end
           then Some a else best
       end.

Definition recover (c : LocalChain) (id : string) : option Recorded := foldl (recover_step id) None (chain_tail c 0).

(** [read_pending] *)
Definition read_pending (p : ParentAnchor) : option ProjectAnchorStmt := mjoin (pa_pending p).

(** [write_pending] *)
Definition write_pending (p : ParentAnchor) (s : ProjectAnchorStmt) (w : result unit string) : ParentAnchor * result unit string :=
  match w with
  | Ok _ => (with_pending p (Some (Some s)), Ok tt)
  | Err e => (p, Err ("write " +:+ e))
  end.

(** [new] *)
Definition new (c : LocalChain) (key : SigningKey) (id : string) (serial : N) (cfg : ParentAnchorConfig)
  (pending : option (option ProjectAnchorStmt)) (removes : bool) : ParentAnchor :=
  let last := recover c id in
  let covered := match mjoin pending, last with
                 | Some s, Some l => an_seq s <=? an_seq (rd_stmt l)
                 | _, _ => false
                 end in
  mkParent c key id serial cfg (if covered && removes then None else pending) (mkAnchorState last 0 None None) 0.

(** [head_event], [event_for], [has_head], [covered] *)
Definition head_event (c : LocalChain) : result ChainEvent string :=
  ok_or (last (chain_tail c 1)) "project chain is empty; nothing to anchor".

Definition event_for (c : LocalChain) (h : bytes) : result ChainEvent string :=
  let? head := head_event c in
  if bool_decide (ce_hash head = h) then Ok head
  else ok_or (snd <$> list_find (fun e => ce_hash e = h) (rev (lc_events c))) "hash is not an event of the project chain".

Definition has_head (c : LocalChain) (seq : N) (h : string) : bool :=
  existsb (fun e => (ce_sequence e =? seq) && String.eqb (hex_string (ce_hash e)) h) (chain_tail c 0).

Definition covered (last : Recorded) (e : ChainEvent) : bool :=
  let h := an_head_seq (rd_stmt last) in
  (ce_sequence e <=? h) || ((ce_sequence e =? h + 1) && is_anchored e).

(** [build] *)
Definition build (p : ParentAnchor) (last : option Recorded) (e : ChainEvent) (now : Z) : ProjectAnchorStmt :=
  anchor_sign (pa_key p)
    (mkAnchor (pa_project_id p) "" (pa_cert_serial p)
       (match last with Some l => an_seq (rd_stmt l) + 1 | None => 1 end) (ce_chain_id e) (hex_string (ce_hash e))
       (ce_sequence e) (hex_string (default zero_hash (ce_rule_hash e))) (rfc3339_secs now)
       (match last with Some l => Some (anchor_hash (rd_stmt l)) | None => None end) "").

(** [fail]: the shift of an [i64] keeps its low 64 bits *)
Definition i64_of (z : Z) : Z := ((z + 9223372036854775808) mod 18446744073709551616 - 9223372036854775808)%Z.

Definition fail {A} (p : ParentAnchor) (now : Z) (why : string) : ParentAnchor * result A string :=
  let st := pa_state p in
  let failures := N.min (as_failures st + 1) (u32_mod - 1) in
  let shift := N.min (failures - 1) 20 in
  let secs := Z.min (i64_of (Z.shiftl (backoff_base_secs (pa_cfg p)) (Z.of_N shift))) (backoff_max_secs (pa_cfg p)) in
  (with_state p (mkAnchorState (as_last st) failures (Some (now + secs * 1000000000)%Z) (Some why)), Err why).

(** [record] *)
Definition anchored_payload (s : ProjectAnchorStmt) (a : AnchorAck) : Json :=
  JObj [("statement", stmt_to_value s); ("user_seq", json_num (ack_user_seq a));
        ("user_event_hash", JStr (ack_user_event_hash a))].

Definition record (p : ParentAnchor) (s : ProjectAnchorStmt) (a : AnchorAck) (t : Tick) (removes : bool) : ParentAnchor * Recorded :=
  let c := (local_append shake256 to_vec (pa_chain p) (tk_now t) (tk_now' t) (tk_stamp t) ANCHOR_SOURCE KIND_ANCHORED
              (Some (anchored_payload s a))).1 in
  let clear := match read_pending p with None => true | Some q => an_seq q <=? an_seq s end in
  let p := with_pending (with_chain p c) (if clear && removes then None else pa_pending p) in
  (with_state p (mkAnchorState (Some (mkRecorded s a)) 0 None None), mkRecorded s a).

(** [adopt] *)
Definition adopt (p : ParentAnchor) (last : ProjectAnchorStmt * AnchorAck) (t : Tick) (removes : bool)
  : ParentAnchor * result Recorded string :=
  let '(s, a) := last in
  let pk := vk_to_bytes (verifying_key (pa_key p)) in
  if negb (String.eqb (an_project_id s) (pa_project_id p)) then (p, Err "statement is for another project")
  else if negb (String.eqb (key_id pk) (an_project_key_id s)) || match anchor_verify s pk with Ok _ => false | Err _ => true end then
    (p, Err "statement does not verify under the current project key")
  else if negb (match as_last (pa_state p) with
                | Some o => (an_seq s =? an_seq (rd_stmt o) + 1) && bool_decide (an_prev_anchor s = Some (anchor_hash (rd_stmt o)))
                | None => (an_seq s =? 1) && bool_decide (an_prev_anchor s = None)
                end) then (p, Err "statement is not the next one after the recorded anchor chain")
  else if negb (has_head (pa_chain p) (an_head_seq s) (an_head_hash s)) then
    (p, Err ("our chain has no event " +:+ an_head_hash s +:+ " at seq " +:+ pretty (an_head_seq s) +:+
             "; refusing to record a head we did not produce"))
  else let '(p, r) := record p s a t removes in (p, Ok r).

(** ** Submitting *)

Section Link.
Context `{ParentTransport}.

(** [submit_bounded] *)
Definition submit_bounded (p : ParentAnchor) (l : Link) (s : ProjectAnchorStmt)
  : ParentAnchor * Link * result AnchorAck AnchorSubmitError :=
  if 0 <? pa_inflight p then (p, l, Err (Unreachable "previous submit still in flight"))
  else match submit l s with
       | (l, Some r) => (p, l, r)
       | (l, None) =>
           (with_inflight p 1, l, Err (Unreachable ("no answer within " +:+ pretty (submit_timeout_secs (pa_cfg p)) +:+ " s")))
       end.

(** The second attempt of [deliver] *)
Definition deliver_again (p : ParentAnchor) (l : Link) (s : ProjectAnchorStmt) (now : Z) (io : AnchorIo)
  : ParentAnchor * Link * result AnchorReceipt string :=
  let '(p, l, r) := submit_bounded p l s in
  match r with
  | Ok a => let '(p, acc) := record p s a (ai_tick' io) (ai_remove io) in (p, l, Ok (receipt_of acc now))
  | Err (Unreachable m) => let '(p, r) := fail p now ("parent unreachable: " +:+ m) in (p, l, r)
  | Err (Rejected kind message _ _) =>
      let '(p, r) := fail p now ("parent rejected anchor (" +:+ kind +:+ "): " +:+ message) in (p, l, r)
  end.

(** [deliver] *)
Definition deliver (p : ParentAnchor) (l : Link) (s : ProjectAnchorStmt) (now : Z) (io : AnchorIo)
  : ParentAnchor * Link * result AnchorReceipt string :=
  let '(p, l, r) := submit_bounded p l s in
  match r with
  | Ok a => let '(p, acc) := record p s a (ai_tick io) (ai_remove io) in (p, l, Ok (receipt_of acc now))
  | Err (Unreachable m) => let '(p, r) := fail p now ("parent unreachable: " +:+ m) in (p, l, r)
  | Err (Rejected kind message None _) =>
      let '(p, r) := fail p now ("parent rejected anchor (" +:+ kind +:+ "): " +:+ message) in (p, l, r)
  | Err (Rejected kind message (Some last) _) =>
      match adopt p last (ai_tick io) (ai_remove io) with
      | (p, Err why) =>
          let '(p, r) := fail p now ("parent rejected anchor (" +:+ kind +:+ "): " +:+ message +:+ "; not adopted: " +:+ why) in (p, l, r)
      | (p, Ok acc) =>
          match head_event (pa_chain p) with
          | Err e => (p, l, Err e)
          | Ok head =>
              if covered acc head then (p, l, Ok (receipt_of acc now))
              else
                let s := build p (Some acc) head now in
                match write_pending p s (ai_rewrite io) with
                | (p, Err e) => (p, l, Err e)
                | (p, Ok _) => deliver_again p l s now io
                end
          end
      end
  end.

(** [anchor_event] for an event that is not covered *)
Definition submit_new (p : ParentAnchor) (l : Link) (last : option Recorded) (e : ChainEvent) (now : Z) (force : bool) (io : AnchorIo)
  : ParentAnchor * Link * result AnchorReceipt string :=
  let s := build p last e now in
  match write_pending p s (ai_write io) with
  | (p, Err e) => (p, l, Err e)
  | (p, Ok _) =>
      match as_retry_at (pa_state p) with
      | Some t => if negb force && (now <? t)%Z then (p, l, Err ("parent unreachable; next retry after " +:+ rfc3339_secs t))
                  else deliver p l s now io
      | None => deliver p l s now io
      end
  end.

(** [anchor_event] *)
Definition anchor_event (p : ParentAnchor) (l : Link) (e : ChainEvent) (now : Z) (force : bool) (io : AnchorIo)
  : ParentAnchor * Link * result AnchorReceipt string :=
  let last := as_last (pa_state p) in
  match last with
  | Some a =>
      if covered a e then (p, l, Ok (receipt_of a now)) else submit_new p l last e now force io
  | None => submit_new p l last e now force io
  end.

(** [anchor_head_at] *)
Definition anchor_head_at (p : ParentAnchor) (l : Link) (now : Z) (force : bool) (io : AnchorIo)
  : ParentAnchor * Link * result AnchorReceipt string :=
  match head_event (pa_chain p) with
  | Err e => (p, l, Err e)
  | Ok e => anchor_event p l e now force io
  end.

(** [ChainAnchor::anchor] *)
Definition anchor (p : ParentAnchor) (l : Link) (h : bytes) (now : Z) (io : AnchorIo)
  : ParentAnchor * Link * result AnchorReceipt string :=
  match event_for (pa_chain p) h with
  | Err e => (p, l, Err e)
  | Ok e => anchor_event p l e now false io
  end.

(** [retry_pending_at] *)
Definition retry_pending_at (p : ParentAnchor) (l : Link) (now : Z) (io : AnchorIo)
  : ParentAnchor * Link * result (option AnchorReceipt) string :=
  match read_pending p with
  | None => (p, l, Ok None)
  | Some s =>
      if match as_last (pa_state p) with Some a => an_seq s <=? an_seq (rd_stmt a) | None => false end then
        (with_pending p (if ai_remove io then None else pa_pending p), l, Ok None)
      else if match as_retry_at (pa_state p) with Some t => (now <? t)%Z | None => false end then (p, l, Ok None)
      else let '(p, l, r) := deliver p l s now io in
           (p, l, match r with Ok x => Ok (Some x) | Err e => Err e end)
  end.

(** [ChainAnchor::verify] *)
Definition verify_receipt (p : ParentAnchor) (r : AnchorReceipt) : bool :=
  existsb (fun e => is_anchored e &&
             match ce_payload e ≫= parse_anchored with
             | Some a => String.eqb (an_head_hash (rd_stmt a)) (hex_string (rc_hash r)) &&
                         String.eqb ("parent-" +:+ pretty (ack_user_seq (rd_ack a))) (rc_tx_id r)
             | None => false
             end) (chain_tail (pa_chain p) 0).

(** ** Runs

    The project kernel: other components append to the chain (never under a
    reserved source), the head is anchored, pending statements are sent again,
    an abandoned submission ends, the pending file is lost or damaged.  The
    chain is saved on a shutdown only; a crash comes back with the chain of the
    last shutdown and with the pending file as it is. *)

Inductive POp :=
| PAppend (t : Tick) (source kind : string) (payload : option Json)
| PAnchor (h : bytes) (now : Z) (io : AnchorIo)
| PAnchorHead (now : Z) (force : bool) (io : AnchorIo)
| PRetry (now : Z) (io : AnchorIo)
| PSubmitEnds
| PSetSerial (serial : N)
| PRestart (key : SigningKey) (serial : N) (removes : bool)
| PCrash (key : SigningKey) (serial : N) (removes : bool)
| PPendingLost (damaged : bool).

(** A project kernel, the chain it saved last and its link *)
Record PWorld := mkPWorld { pw_parent : ParentAnchor; pw_saved : LocalChain; pw_link : Link }.

Definition with_parent (x : PWorld) (r : ParentAnchor * Link) : PWorld := mkPWorld r.1 (pw_saved x) r.2.

Definition pstep (x : PWorld) (o : POp) : PWorld :=
  let p := pw_parent x in
  let l := pw_link x in
  match o with
  | PAppend t source kind payload =>
      if is_reserved_source source then x
      else with_parent x
             (with_chain p (local_append shake256 to_vec (pa_chain p) (tk_now t) (tk_now' t) (tk_stamp t) source kind payload).1, l)
  | PAnchor h now io => with_parent x (anchor p l h now io).1
  | PAnchorHead now force io => with_parent x (anchor_head_at p l now force io).1
  | PRetry now io => with_parent x (retry_pending_at p l now io).1
  | PSubmitEnds => with_parent x (with_inflight p 0, l)
  | PSetSerial serial => with_parent x (set_cert_serial p serial, l)
  | PRestart key serial removes =>
      mkPWorld (new (pa_chain p) key (pa_project_id p) serial (pa_cfg p) (pa_pending p) removes) (pa_chain p) l
  | PCrash key serial removes =>
      mkPWorld (new (pw_saved x) key (pa_project_id p) serial (pa_cfg p) (pa_pending p) removes) (pw_saved x) l
  | PPendingLost damaged => with_parent x (with_pending p (if damaged then Some None else None), l)
  end.

Definition prun (x : PWorld) (os : list POp) : PWorld := foldl pstep x os.

(** What the chain records as anchored, in order *)
Definition anchored_of (c : LocalChain) (id : string) : list Recorded :=
  omap (fun e => if is_anchored e
                 then match ce_payload e ≫= parse_anchored with
                      | Some a => if String.eqb (an_project_id (rd_stmt a)) id then Some a else None
                      | None => None
                      end
                 else None) (lc_events c).

(** [s] comes right after [prev] *)
Definition follows (prev : option Recorded) (s : ProjectAnchorStmt) : Prop :=
  an_seq s = match prev with Some l => an_seq (rd_stmt l) + 1 | None => 1 end /\
  an_prev_anchor s = match prev with Some l => Some (anchor_hash (rd_stmt l)) | None => None end.

Fixpoint chained (prev : option Recorded) (l : list Recorded) : Prop :=
  match l with
  | [] => True
  | a :: l => follows prev (rd_stmt a) /\ chained (Some a) l
  end.

Definition own_head (c : LocalChain) (s : ProjectAnchorStmt) : Prop :=
  exists e, e ∈ lc_events c /\ ce_sequence e = an_head_seq s /\ hex_string (ce_hash e) = an_head_hash s.

(** A statement that may be sent: next in line, about our own chain *)
Definition sendable (p : ParentAnchor) (s : ProjectAnchorStmt) : Prop :=
  follows (as_last (pa_state p)) s /\ an_project_id s = pa_project_id p /\ own_head (pa_chain p) s.

Definition stale (p : ParentAnchor) (s : ProjectAnchorStmt) : Prop :=
  exists a, as_last (pa_state p) = Some a /\ an_seq s <= an_seq (rd_stmt a).

(** What may wait in the pending file when the kernel crashes: nothing, or a
    statement that the saved chain knows, as an old one or as the next one about
    one of its events *)
Definition crash_safe (x : PWorld) : Prop :=
  forall s, read_pending (pw_parent x) = Some s ->
    let id := pa_project_id (pw_parent x) in
    (exists a, recover (pw_saved x) id = Some a /\ an_seq s <= an_seq (rd_stmt a)) \/
    follows (recover (pw_saved x) id) s /\ an_project_id s = id /\ own_head (pw_saved x) s.

Fixpoint crashes_safely (x : PWorld) (os : list POp) : Prop :=
  match os with
  | [] => True
  | o :: os => match o with PCrash _ _ _ => crash_safe x | _ => True end /\ crashes_safely (pstep x o) os
  end.

(** A chain whose acknowledgements are numbered and linked, each about an event
    of it *)
Definition own_history (c : LocalChain) (id : string) : Prop :=
  chained None (anchored_of c id) /\ Forall (fun a => own_head c (rd_stmt a)) (anchored_of c id).

Record panchor_inv (p : ParentAnchor) : Prop := mkPInv {
  pi_chained : chained None (anchored_of (pa_chain p) (pa_project_id p));
  pi_own : Forall (fun a => own_head (pa_chain p) (rd_stmt a)) (anchored_of (pa_chain p) (pa_project_id p));
  pi_last : as_last (pa_state p) = last (anchored_of (pa_chain p) (pa_project_id p));
  pi_pending : forall s, read_pending p = Some s -> stale p s \/ sendable p s;
}.

End Link.

(** ** What the invariant rests on *)

Lemma chained_snoc prev l a :
  chained prev (l ++ [a]) <-> chained prev l /\ follows (match last l with Some x => Some x | None => prev end) (rd_stmt a).
Proof.
  revert prev. induction l as [|x l IH]; intros prev; cbn [app chained]; [tauto|]. rewrite IH.
  destruct l as [|y l]; [tauto|]. rewrite last_cons_cons. destruct (last (y :: l)) eqn:E; [tauto|by apply last_None in E].
Qed.

Lemma chained_nth_from prev l k a :
  chained prev l -> l !! k = Some a ->
  an_seq (rd_stmt a) = match prev with Some b => an_seq (rd_stmt b) | None => 0 end + N.of_nat k + 1 /\
  an_prev_anchor (rd_stmt a) =
    match k with O => (fun b => anchor_hash (rd_stmt b)) <$> prev | S k => anchor_hash ∘ rd_stmt <$> l !! k end.
Proof.
  revert prev k. induction l as [|x l IH]; intros prev [|k] Hc Hk; cbn in Hk; try done; destruct Hc as [[Hs Hp] Hc].
  - injection Hk as <-. rewrite Hs, Hp. by destruct prev; split; [lia| |lia|].
  - destruct (IH _ _ Hc Hk) as [E1 E2]. rewrite E1, E2, Hs. split; [destruct prev; lia|by destruct k].
Qed.

Lemma chained_nth l k a :
  chained None l -> l !! k = Some a ->
  an_seq (rd_stmt a) = N.of_nat k + 1 /\
  an_prev_anchor (rd_stmt a) = match k with O => None | S k => anchor_hash ∘ rd_stmt <$> l !! k end.
Proof. intros Hc Hk. destruct (chained_nth_from None l k a Hc Hk) as [E1 E2]. split; [lia|]. rewrite E2. by destruct k. Qed.

Lemma own_head_app c c' evs s : lc_events c' = lc_events c ++ evs -> own_head c s -> own_head c' s.
Proof. intros E (e & Hin & ?). exists e. rewrite E, elem_of_app. auto. Qed.

Lemma has_head_spec c seq h s :
  has_head c seq h = true -> an_head_seq s = seq -> an_head_hash s = h -> own_head c s.
Proof.
  unfold has_head. intros (e & Hin & Hb)%existsb_exists <- <-. apply andb_true_iff in Hb as [Hs Hh].
  exists e. split; [by apply list_elem_of_In|]. split; [by apply N.eqb_eq|by apply String.eqb_eq].
Qed.

(** The newest of a chained list is what recovery finds. *)
Lemma recover_last c id : chained None (anchored_of c id) -> recover c id = last (anchored_of c id).
Proof.
  unfold recover, anchored_of, chain_tail. cbn [Nat.eqb orb]. induction (lc_events c) as [|e evs IH] using rev_ind; [done|].
  rewrite omap_app, foldl_snoc. cbn [omap list_omap]. intros Hc. unfold recover_step at 1.
  destruct (is_anchored e); cbn [negb]; [|rewrite app_nil_r in *; by apply IH].
  destruct (ce_payload e ≫= parse_anchored) as [a|]; [|rewrite app_nil_r in *; by apply IH].
  destruct (String.eqb _ id); cbn [andb] in *; [|rewrite app_nil_r in *; by apply IH].
  apply chained_snoc in Hc as [Hc Hf]. rewrite last_snoc. rewrite (IH Hc) in *.
  destruct (last (omap _ evs)) as [b|]; [|done]. destruct Hf as [Hs _]. rewrite (proj2 (N.ltb_lt _ _)) by lia. done.
Qed.

End Project.

(** ** Whatever the user daemon answers *)

(** The JSON of a statement reads back. *)
Class AnchorSerdeLaws `{AnchorSerde} : Prop := {
  stmt_value_reads s : stmt_from_value (stmt_to_value s) = Some s;
}.

(** A sequence number in an answer is a [u64]; nothing else is known. *)
Class TransportTyped `{ParentTransport} : Prop := {
  ack_is_u64 l s l' a : submit l s = (l', Some (Ok a)) -> ack_user_seq a < u64_mod;
  last_is_u64 l s l' k m x ks : submit l s = (l', Some (Err (Rejected k m (Some x) ks))) -> ack_user_seq x.2 < u64_mod;
}.

Section Kept.
Context `{CanonEnv} `{AnchorSerdeLaws} `{TransportTyped}.
Context (shake256 : bytes -> bytes) (to_vec : Json -> bytes).

Lemma parse_payload s a : ack_user_seq a < u64_mod -> parse_anchored (anchored_payload s a) = Some (mkRecorded s a).
Proof.
  intros Ha. unfold parse_anchored, anchored_payload. cbn [json_get assoc_get String.eqb Ascii.eqb Bool.eqb mbind option_bind].
  rewrite stmt_value_reads. unfold json_num, json_as_u64. cbn [mbind option_bind].
  rewrite (proj2 (Z.leb_le _ _)), (proj2 (Z.ltb_lt _ _)) by (unfold u64_mod in *; lia). cbn [andb json_as_str]. rewrite N2Z.id. by destruct a.
Qed.

(** A chain that grew by an event that is not an acknowledgement *)
Lemma inv_grow p c e :
  panchor_inv p -> lc_events c = lc_events (pa_chain p) ++ [e] -> is_anchored e = false -> panchor_inv (with_chain p c).
Proof.
  intros [Hc Ho Hl Hp] He Hn.
  assert (anchored_of c (pa_project_id p) = anchored_of (pa_chain p) (pa_project_id p)) as E.
  { unfold anchored_of. rewrite He, omap_app. cbn [omap list_omap]. rewrite Hn. apply app_nil_r. }
  split; cbn [with_chain pa_chain pa_project_id pa_state pa_pending]; rewrite ?E; try done.
  - eapply Forall_impl; [exact Ho|]. intros a. by apply own_head_app with [e].
  - intros s Hs. destruct (Hp s Hs) as [Hst|(Hf & Hi & Hh)]; [by left|right]. split_and!; try done. by eapply own_head_app.
Qed.

(** Changes that leave chain, state and pending file alone, or lose the file *)
Lemma inv_same p p' :
  panchor_inv p -> pa_chain p' = pa_chain p -> pa_project_id p' = pa_project_id p -> as_last (pa_state p') = as_last (pa_state p) ->
  (read_pending p' = read_pending p \/ read_pending p' = None) -> panchor_inv p'.
Proof.
  intros [Hc Ho Hl Hp] Ec Ei Es Ep. split; rewrite ?Ec, ?Ei, ?Es; try done. intros s Hs. unfold stale, sendable.
  rewrite Ec, Ei, Es. destruct Ep as [Ep|Ep]; rewrite Ep in Hs; [|done]. by apply Hp.
Qed.

Lemma record_inv p s a t rm :
  panchor_inv p -> sendable p s -> ack_user_seq a < u64_mod -> panchor_inv (record shake256 to_vec p s a t rm).1.
Proof.
  intros [Hc Ho Hl Hp] (Hf & Hi & Hh) Ha. unfold record. cbn [fst].
  destruct (append_event_fields shake256 to_vec (pa_chain p) (tk_now t) (tk_now' t) (tk_stamp t) ANCHOR_SOURCE KIND_ANCHORED
    (Some (anchored_payload s a)) None) as (e & He & _ & _ & Hs & Hk & Hpl & _).
  fold (local_append shake256 to_vec (pa_chain p) (tk_now t) (tk_now' t) (tk_stamp t) ANCHOR_SOURCE KIND_ANCHORED
    (Some (anchored_payload s a))) in He. set (c := (local_append _ _ _ _ _ _ _ _ _).1) in *.
  assert (anchored_of c (pa_project_id p) = anchored_of (pa_chain p) (pa_project_id p) ++ [mkRecorded s a]) as E.
  { unfold anchored_of. rewrite He, omap_app. cbn [omap list_omap]. unfold is_anchored. rewrite Hs, Hk. cbn [String.eqb].
    rewrite !String.eqb_refl, Hpl. cbn [andb mbind option_bind]. rewrite parse_payload by done. cbn [rd_stmt].
    by rewrite Hi, String.eqb_refl. }
  assert (forall x, own_head (pa_chain p) x -> own_head c x) as Hown by (intros x; by apply own_head_app with [e]).
  split; cbn [with_state with_pending with_chain pa_chain pa_project_id pa_state pa_pending as_last]; rewrite ?E.
  - apply chained_snoc. split; [done|]. rewrite <- Hl. cbn [rd_stmt]. by destruct (as_last (pa_state p)).
  - apply Forall_app. split; [eapply Forall_impl; [exact Ho|]; intros x; apply Hown|]. constructor; [by apply Hown|done].
  - by rewrite last_snoc.
  - intros q Hq. left. exists (mkRecorded s a). split; [done|]. cbn [rd_stmt]. unfold read_pending in Hq. cbn [pa_pending] in Hq.
    destruct (_ && rm); [done|]. fold (read_pending p) in Hq. destruct (Hp q Hq) as [(b & Hb & Hle)|((Hq1 & _) & _)].
    + rewrite Hb in Hf. destruct Hf as [-> _]. lia.
    + destruct Hf as [-> _]. rewrite Hq1. done.
Qed.

Lemma adopt_inv p x t rm p' r :
  panchor_inv p -> ack_user_seq x.2 < u64_mod -> adopt shake256 to_vec p x t rm = (p', r) -> panchor_inv p'.
Proof.
  intros Hinv Ha Had. destruct x as [s a]. unfold adopt in Had. destruct (negb _) eqn:Ei; [by injection Had as <- _|].
  destruct (negb _ || _); [by injection Had as <- _|]. destruct (negb _) eqn:Ef in Had; [by injection Had as <- _|].
  destruct (negb (has_head _ _ _)) eqn:Eh; [by injection Had as <- _|].
  apply negb_false_iff in Ei, Ef, Eh. apply String.eqb_eq in Ei.
  destruct (record _ _ p s a t rm) as [p1 r1] eqn:Er. injection Had as <- _.
  change p1 with (p1, r1).1. rewrite <- Er. apply record_inv; [done| |done]. split; [|split; [done|]].
  - destruct (as_last (pa_state p)) as [o|]; apply andb_true_iff in Ef as [E1 E2]; apply N.eqb_eq in E1;
      apply bool_decide_eq_true in E2; by split.
  - by eapply has_head_spec.
Qed.

Lemma fail_inv {A} p now why : panchor_inv p -> panchor_inv (fail (A:=A) p now why).1.
Proof. intros Hi. apply (inv_same p); try done. by left. Qed.

Lemma build_sendable p e now : e ∈ lc_events (pa_chain p) -> sendable p (build p (as_last (pa_state p)) e now).
Proof. intros He. split; [|split; [done|]]; [by destruct (as_last (pa_state p))|]. exists e. split; [done|]. done. Qed.

Lemma head_event_in c e : head_event c = Ok e -> e ∈ lc_events c.
Proof.
  unfold head_event, chain_tail. destruct (last _) as [x|] eqn:El; [|done]. intros [= <-]. apply last_Some_elem_of in El.
  destruct (_ || _); [done|]. by eapply (subseteq_drop _ _ x).
Qed.

Lemma with_inflight_inv p n : panchor_inv p -> panchor_inv (with_inflight p n).
Proof. intros Hi. apply (inv_same p); try done. by left. Qed.

(** What a submission leaves, and what an answer may carry *)
Lemma submit_bounded_inv p l s p' l' r :
  submit_bounded p l s = (p', l', r) ->
  (p' = p \/ p' = with_inflight p 1) /\
  match r with
  | Ok a => ack_user_seq a < u64_mod
  | Err (Rejected _ _ (Some x) _) => ack_user_seq x.2 < u64_mod
  | _ => True
  end.
Proof.
  unfold submit_bounded. destruct (0 <? pa_inflight p); [intros [= <- _ <-]; auto|].
  destruct (submit l s) as [l1 [r1|]] eqn:Es; intros [= <- _ <-]; [|auto]. split; [auto|].
  destruct r1 as [a|[m|k m [x|] ks]]; try done; [by eapply ack_is_u64|by eapply last_is_u64].
Qed.

Lemma submit_keeps p l s p' l' r :
  submit_bounded p l s = (p', l', r) -> panchor_inv p -> panchor_inv p' /\ (sendable p s -> sendable p' s) /\ pa_chain p' = pa_chain p.
Proof.
  intros Hs Hi. destruct (submit_bounded_inv _ _ _ _ _ _ Hs) as [[->| ->] _]; [done|].
  split; [by apply with_inflight_inv|]. done.
Qed.

Lemma deliver_again_inv p l s now io : panchor_inv p -> sendable p s -> panchor_inv (deliver_again shake256 to_vec p l s now io).1.1.
Proof.
  intros Hi Hs. unfold deliver_again. destruct (submit_bounded p l s) as [[p1 l1] r] eqn:Er.
  destruct (submit_keeps _ _ _ _ _ _ Er Hi) as (Hi1 & Hs1 & _). apply submit_bounded_inv in Er as [_ Ha].
  destruct r as [a|[m|k m x ks]].
  - apply (record_inv p1 s a (ai_tick' io) (ai_remove io) Hi1 (Hs1 Hs)) in Ha. by destruct (record _ _ _ _ _ _ _).
  - exact (fail_inv (A:=unit) p1 now _ Hi1).
  - exact (fail_inv (A:=unit) p1 now _ Hi1).
Qed.

Lemma write_pending_inv p s w p' r :
  write_pending p s w = (p', r) -> panchor_inv p -> sendable p s ->
  panchor_inv p' /\ sendable p' s /\ pa_chain p' = pa_chain p /\ pa_state p' = pa_state p.
Proof.
  unfold write_pending. intros Hw Hi Hs. destruct w; injection Hw as <- _; [|done]. split; [|done].
  destruct Hi as [Hc Ho Hl Hp]. split; try done. cbn. intros q [= <-]. by right.
Qed.

Lemma deliver_inv p l s now io : panchor_inv p -> sendable p s -> panchor_inv (deliver shake256 to_vec p l s now io).1.1.
Proof.
  intros Hi Hs. unfold deliver. destruct (submit_bounded p l s) as [[p1 l1] r] eqn:Er.
  destruct (submit_keeps _ _ _ _ _ _ Er Hi) as (Hi1 & Hs1 & _). apply submit_bounded_inv in Er as [_ Ha].
  destruct r as [a|[m|k m [x|] ks]].
  - apply (record_inv p1 s a (ai_tick io) (ai_remove io) Hi1 (Hs1 Hs)) in Ha. by destruct (record _ _ _ _ _ _ _).
  - exact (fail_inv (A:=unit) p1 now _ Hi1).
  - destruct (adopt _ _ p1 x _ _) as [p2 [acc|why]] eqn:Ead; pose proof (adopt_inv _ _ _ _ _ _ Hi1 Ha Ead) as Hi2.
    2: { exact (fail_inv (A:=unit) p2 now _ Hi2). }
    destruct (head_event (pa_chain p2)) as [head|] eqn:Eh; [|done]. destruct (covered acc head); [done|].
    assert (as_last (pa_state p2) = Some acc) as Hacc.
    { destruct x as [s' a']. unfold adopt in Ead. repeat (destruct (_ : bool) in Ead; [done|]). by injection Ead as <- <-. }
    rewrite <- Hacc. pose proof (build_sendable p2 head now (head_event_in _ _ Eh)) as Hb.
    destruct (write_pending p2 _ _) as [p3 [u|]] eqn:Ew; destruct (write_pending_inv _ _ _ _ _ Ew Hi2 Hb) as (Hi3 & Hb3 & _); [|done].
    by apply deliver_again_inv.
  - exact (fail_inv (A:=unit) p1 now _ Hi1).
Qed.

Lemma submit_new_inv p l e now force io :
  panchor_inv p -> e ∈ lc_events (pa_chain p) -> panchor_inv (submit_new shake256 to_vec p l (as_last (pa_state p)) e now force io).1.1.
Proof.
  intros Hi He. unfold submit_new. pose proof (build_sendable p e now He) as Hb.
  destruct (write_pending p _ _) as [p1 [u|]] eqn:Ew; destruct (write_pending_inv _ _ _ _ _ Ew Hi Hb) as (Hi1 & Hb1 & _); [|done].
  destruct (as_retry_at (pa_state p1)); [destruct (negb force && _); [done|]|]; by apply deliver_inv.
Qed.

Lemma anchor_event_inv p l e now force io :
  panchor_inv p -> e ∈ lc_events (pa_chain p) -> panchor_inv (anchor_event shake256 to_vec p l e now force io).1.1.
Proof.
  intros Hi He. pose proof (submit_new_inv p l e now force io Hi He) as Hn. unfold anchor_event.
  destruct (as_last (pa_state p)) as [a|]; [|done]. by destruct (covered a e).
Qed.

Lemma event_for_in c h e : event_for c h = Ok e -> e ∈ lc_events c.
Proof.
  unfold event_for. destruct (head_event c) as [x|] eqn:Eh; [|done]. case_bool_decide; [intros [= <-]; by apply head_event_in|].
  destruct (list_find _ _) as [[k y]|] eqn:El; [|done]. intros [= <-]. apply list_find_Some in El as [El _].
  apply list_elem_of_lookup_2 in El. apply list_elem_of_In, in_rev, list_elem_of_In in El. done.
Qed.

(** Coming back with a chain *)
Lemma new_back c key id serial cfg pending rm :
  own_history c id ->
  (forall s, mjoin pending = Some s ->
    (exists a, recover c id = Some a /\ an_seq s <= an_seq (rd_stmt a)) \/
    follows (recover c id) s /\ an_project_id s = id /\ own_head c s) ->
  panchor_inv (new c key id serial cfg pending rm).
Proof.
  intros [Hc Ho] Hp. split; try done.
  - cbn [new pa_state as_last]. by apply recover_last.
  - intros s Hs. unfold read_pending, new in Hs. cbn [pa_pending] in Hs. destruct (_ && rm); [done|]. exact (Hp s Hs).
Qed.

(** No operation changes the project id. *)
Lemma record_id p s a t rm : pa_project_id (record shake256 to_vec p s a t rm).1 = pa_project_id p.
Proof. done. Qed.

Lemma adopt_id p x t rm p' r : adopt shake256 to_vec p x t rm = (p', r) -> pa_project_id p' = pa_project_id p.
Proof.
  destruct x as [s a]. unfold adopt. repeat (destruct (_ : bool); [by intros [= <- _]|]).
  pose proof (record_id p s a t rm) as E. destruct (record _ _ p s a t rm) as [p1 r1]. by intros [= <- _].
Qed.

Lemma submit_bounded_id p l s p' l' r : submit_bounded p l s = (p', l', r) -> pa_project_id p' = pa_project_id p.
Proof. by intros [[->| ->] _]%submit_bounded_inv. Qed.

Lemma deliver_again_id p l s now io : pa_project_id (deliver_again shake256 to_vec p l s now io).1.1 = pa_project_id p.
Proof.
  unfold deliver_again. destruct (submit_bounded p l s) as [[p1 l1] r] eqn:E. apply submit_bounded_id in E as <-.
  destruct r as [a|[m|k m x ks]]; [|done..]. pose proof (record_id p1 s a (ai_tick' io) (ai_remove io)) as Er.
  by destruct (record _ _ p1 s a _ _).
Qed.

Lemma write_pending_id p s w p' r : write_pending p s w = (p', r) -> pa_project_id p' = pa_project_id p.
Proof. unfold write_pending. by destruct w; intros [= <- _]. Qed.

Lemma deliver_id p l s now io : pa_project_id (deliver shake256 to_vec p l s now io).1.1 = pa_project_id p.
Proof.
  unfold deliver. destruct (submit_bounded p l s) as [[p1 l1] r] eqn:E. apply submit_bounded_id in E as <-.
  destruct r as [a|[m|k m [x|] ks]]; [|done| |done].
  - pose proof (record_id p1 s a (ai_tick io) (ai_remove io)) as Er. by destruct (record _ _ p1 s a _ _).
  - destruct (adopt _ _ p1 x _ _) as [p2 [acc|why]] eqn:Ea; apply adopt_id in Ea as <-; [|done].
    destruct (head_event _) as [head|]; [|done]. destruct (covered acc head); [done|].
    destruct (write_pending p2 _ _) as [p3 [u|]] eqn:Ew; apply write_pending_id in Ew as <-; [|done]. apply deliver_again_id.
Qed.

Lemma submit_new_id p l last e now force io : pa_project_id (submit_new shake256 to_vec p l last e now force io).1.1 = pa_project_id p.
Proof.
  unfold submit_new. destruct (write_pending p _ _) as [p1 [u|]] eqn:Ew; apply write_pending_id in Ew as <-; [|done].
  destruct (as_retry_at _); [destruct (negb force && _); [done|]|]; apply deliver_id.
Qed.

Lemma anchor_event_id p l e now force io : pa_project_id (anchor_event shake256 to_vec p l e now force io).1.1 = pa_project_id p.
Proof. unfold anchor_event. destruct (as_last _) as [a|]; [destruct (covered a e); [done|]|]; apply submit_new_id. Qed.

Lemma retry_id p l now io : pa_project_id (retry_pending_at shake256 to_vec p l now io).1.1 = pa_project_id p.
Proof.
  unfold retry_pending_at. destruct (read_pending p) as [s|]; [|done]. destruct (match as_last _ with Some _ => _ | None => _ end); [done|].
  destruct (match as_retry_at _ with Some _ => _ | None => _ end); [done|]. pose proof (deliver_id p l s now io) as E.
  by destruct (deliver _ _ p l s now io) as [[p1 l1] r].
Qed.

Lemma pstep_id x o : pa_project_id (pw_parent (pstep shake256 to_vec x o)) = pa_project_id (pw_parent x).
Proof.
  destruct o as [t source kind payload|h now io|now force io|now io| |serial|key serial rm|key serial rm|d]; cbn [pstep]; try done.
  - by destruct (is_reserved_source source).
  - cbn [with_parent pw_parent]. unfold anchor. destruct (event_for _ h); [apply anchor_event_id|done].
  - cbn [with_parent pw_parent]. unfold anchor_head_at. destruct (head_event _); [apply anchor_event_id|done].
  - apply retry_id.
Qed.

Definition pw_inv (x : PWorld) : Prop :=
  panchor_inv (pw_parent x) /\ own_history (pw_saved x) (pa_project_id (pw_parent x)).

Lemma panchor_history p : panchor_inv p -> own_history (pa_chain p) (pa_project_id p).
Proof. by intros [? ? _ _]. Qed.

Lemma retry_inv p l now io : panchor_inv p -> panchor_inv (retry_pending_at shake256 to_vec p l now io).1.1.
Proof.
  intros Hi. unfold retry_pending_at. destruct (read_pending p) as [s|] eqn:Ep; [|done].
  destruct (match as_last _ with Some _ => _ | None => _ end) eqn:Est.
  { apply (inv_same p); try done. cbn [fst]. destruct (ai_remove io); [by right|by left]. }
  destruct (match as_retry_at _ with Some _ => _ | None => _ end); [done|].
  assert (sendable p s) as Hs.
  { destruct (pi_pending p Hi s Ep) as [(a & Ea & Hle)|]; [|done]. rewrite Ea in Est. by apply N.leb_gt in Est; lia. }
  pose proof (deliver_inv p l s now io Hi Hs) as Hd. by destruct (deliver _ _ p l s now io) as [[p1 l1] r].
Qed.

Lemma pstep_parent x o :
  match o with PCrash _ _ _ => crash_safe x | _ => True end -> pw_inv x -> panchor_inv (pw_parent (pstep shake256 to_vec x o)).
Proof.
  intros Hs [Hi Hh]. destruct o as [t source kind payload|h now io|now force io|now io| |serial|key serial rm|key serial rm|d]; cbn [pstep].
  - destruct (is_reserved_source source) eqn:Er; [done|].
    destruct (append_event_fields shake256 to_vec (pa_chain (pw_parent x)) (tk_now t) (tk_now' t) (tk_stamp t) source kind payload None)
      as (e & He & _ & _ & Es & _). apply (inv_grow _ _ e Hi He). unfold is_anchored. rewrite Es.
    destruct (String.eqb_spec source ANCHOR_SOURCE) as [->|]; [by vm_compute in Er|done].
  - cbn [with_parent pw_parent]. unfold anchor. destruct (event_for _ h) as [e|] eqn:Ee; [|done].
    apply anchor_event_inv; [done|by eapply event_for_in].
  - cbn [with_parent pw_parent]. unfold anchor_head_at. destruct (head_event _) as [e|] eqn:Ee; [|done].
    apply anchor_event_inv; [done|by apply head_event_in].
  - by apply retry_inv.
  - by apply with_inflight_inv.
  - apply (inv_same (pw_parent x)); try done. by left.
  - apply new_back; [by apply panchor_history|]. intros s Hp. destruct Hi as [Hc _ Hl Hpend]. rewrite (recover_last _ _ Hc), <- Hl.
    exact (Hpend s Hp).
  - apply new_back; [done|]. exact Hs.
  - apply (inv_same (pw_parent x)); try done. cbn. by destruct d; right.
Qed.

Lemma pstep_inv x o :
  match o with PCrash _ _ _ => crash_safe x | _ => True end -> pw_inv x -> pw_inv (pstep shake256 to_vec x o).
Proof.
  intros Hs Hx. split; [by apply pstep_parent|]. rewrite pstep_id. destruct Hx as [Hi Hh].
  destruct o; cbn [pstep]; try done; [by destruct (is_reserved_source source)|]. by apply panchor_history.
Qed.

Lemma prun_inv x os : crashes_safely shake256 to_vec x os -> pw_inv x -> pw_inv (prun shake256 to_vec x os).
Proof.
  revert x. induction os as [|o os IH]; intros x Hs Hi; [done|]. cbn [prun foldl]. destruct Hs as [Ho Hs].
  apply IH; [done|]. by apply pstep_inv.
Qed.

(** A project that has recorded nothing yet, with or without a saved chain *)
Lemma first_inv c saved key id serial cfg l :
  anchored_of c id = [] -> anchored_of saved id = [] -> pw_inv (mkPWorld (new c key id serial cfg None true) saved l).
Proof.
  intros Ec Es. assert (forall d, anchored_of d id = [] -> own_history d id) as Hnone.
  { intros d E. unfold own_history. rewrite E. by split. }
  split; [apply new_back; [by apply Hnone|done]|by apply Hnone].
Qed.

(** C38: The project records only its own history.  From a chain without
    acknowledgements and whatever the link answers, through appends, anchorings,
    retries, lost or damaged pending files, restarts after a shutdown (which
    saves the chain) and crashes (which bring back the chain of the last
    shutdown), the acknowledgements on the project chain are numbered from one
    without gap, each carries the digest of the one before it, each is about an
    event that is really on the project chain, and a restart continues after the
    newest of them.  At a crash the pending file must hold nothing, or a
    statement that the saved chain knows (already recorded there, or next in
    line about one of its events): a statement about an event the crash loses is
    sent and recorded all the same. *)
Theorem recorded_anchors_own c saved key id serial cfg l os :
  anchored_of c id = [] -> anchored_of saved id = [] ->
  let x := mkPWorld (new c key id serial cfg None true) saved l in
  crashes_safely shake256 to_vec x os ->
  let p := pw_parent (prun shake256 to_vec x os) in
  let recs := anchored_of (pa_chain p) (pa_project_id p) in
  (forall k a, recs !! k = Some a ->
     an_seq (rd_stmt a) = N.of_nat k + 1 /\
     an_prev_anchor (rd_stmt a) = match k with O => None | S k => anchor_hash ∘ rd_stmt <$> recs !! k end /\
     own_head (pa_chain p) (rd_stmt a)) /\
  as_last (pa_state p) = last recs /\ recover (pa_chain p) (pa_project_id p) = last recs.
Proof using H2 H4.
  intros Ec Es x Hs p recs. destruct (prun_inv x os Hs (first_inv c saved key id serial cfg l Ec Es)) as [[Hc Ho Hl _] _].
  fold p in Hc, Ho, Hl. fold recs in Hc, Ho, Hl. split; [|split; [done|by apply recover_last]]. intros k a Hk.
  destruct (chained_nth recs k a Hc Hk) as [Hq Hp]. split_and!; [done|done|]. by apply (proj1 (Forall_lookup _ _) Ho k).
Qed.

End Kept.
