(* ===== verification/AnchorUser.v ===== *)
(** * Anchoring a project chain with the user daemon: the daemon

    anchor_rpc.rs, anchor_record.rs, anchor_reset.rs and anchor_error.rs: the
    user daemon verifies a project's signed statement, appends it to the user
    chain, seals a record of it, and after a crash brings record and chain back
    into agreement.  The accept lock is the order of the operations; the daemon
    has one chain, so the key of its tables is the project id.  Counters of
    accepted statements and epochs are not wrapped at 2^64. *)

From Stdlib Require Import Strings.String.
From S2P Require Import Prelude Codec Text Chain Delegation Canon KeyRotation Identity IdentityOps AnchorProject.

Local Open Scope string_scope.
Local Open Scope list_scope.
Local Open Scope N_scope.

Definition MAX_AHEAD_SECS : Z := 300.
Definition BACKOFF_AFTER : N := 3.
Definition BACKOFF_MAX_SECS : Z := 60.
Definition KIND_RESET : string := "project.anchor.reset".
Definition RECORD_DOMAIN : string := "weftos-project-anchor-record-v1" +:+ nl.
Definition RESET_DOMAIN : string := "weftos-project-anchor-reset-v1" +:+ nl.

#[export] Instance anchor_stmt_eq_dec : EqDecision ProjectAnchorStmt.
Proof. solve_decision. Defined.

(** [Accepted] *)
Record Accepted := mkAccepted {
  ac_statement : ProjectAnchorStmt;
  ac_user_seq : N;
  ac_user_event_hash : string;
  ac_rec_sig : string;
  ac_epoch : N;
}.

(** [Accepted::ack] *)
Definition ack_of (a : Accepted) : AnchorAck := mkAck (ac_user_seq a) (ac_user_event_hash a).

(** [Resync] *)
Record Resync := mkResync { rs_last : Accepted; rs_key_history : list string }.

Inductive AnchorError :=
| AUnavailable (m : string)
| AIdentity (e : IssueError)
| ANotCertified (id : string)
| AKeyRevoked (project_id key_id : string)
| ACertInvalid (m : string)
| ABadStatement (m : string)
| ABadSignature
| ASeq (got want : N) (last : option Resync)
| APrev (last : option Resync)
| AFuture
| AHeadRegress (got last : N)
| AChainId (got want : N)
| ANothingToReset (id : string)
| ABackoff (secs : Z)
| AStore (m : string).

(** [AnchorError::kind] *)
Definition anchor_kind (e : AnchorError) : string :=
  match e with
  | AUnavailable _ => "anchor_unavailable"
  | AIdentity e => issue_kind e
  | ANotCertified _ => "anchor_not_certified"
  | AKeyRevoked _ _ => "anchor_key_revoked"
  | ACertInvalid _ => "anchor_cert_invalid"
  | ABadStatement _ => "anchor_bad_statement"
  | ABadSignature => "anchor_bad_signature"
  | ASeq _ _ _ => "anchor_seq"
  | APrev _ => "anchor_prev"
  | AFuture => "anchor_future"
  | AHeadRegress _ _ => "anchor_head_regress"
  | AChainId _ _ => "anchor_chain_id"
  | ANothingToReset _ => "anchor_nothing_to_reset"
  | ABackoff _ => "anchor_backoff"
  | AStore _ => "anchor_store"
  end.

(** [AnchorError::resync] *)
Definition resync_of (e : AnchorError) : option Resync :=
  match e with ASeq _ _ last => last | APrev last => last | _ => None end.

(** [ResetRecord] *)
Record ResetRecord := mkReset {
  re_project_id : string;
  re_epoch : N;
  re_retired_statement_hash : string;
  re_retired_seq : N;
  re_user_seq : N;
  re_user_event_hash : string;
  re_at : string;
  re_reason : string;
  re_rec_sig : string;
}.

(** The characters of a string as their bytes, and [char::is_control] *)
Definition chars_of (b : bytes) : list bytes :=
  foldr (fun x acc =>
    match acc with
    | (y :: c) :: rest => if cont 0x80 0xBF y then (x :: y :: c) :: rest else [x] :: acc
    | _ => [x] :: acc
    end) [] b.

Definition is_control (c : bytes) : bool :=
  match c with
  | [x] => (Byte.to_N x <? 32) || (Byte.to_N x =? 127)
  | [x; y] => (Byte.to_N x =? 194) && (Byte.to_N y <? 160)
  | _ => false
  end.

(** The owner's reason: no control characters, at most 256 characters *)
Definition clean_reason (s : string) : string :=
  string_of_list_byte (concat (take 256 (List.filter (fun c => negb (is_control c)) (chars_of (str_bytes s))))).

Inductive Seal := SealOk | SealBad | SealUncorroborated.

#[export] Instance seal_eq_dec : EqDecision Seal.
Proof. solve_decision. Defined.

(** The outcome of the writes of the record (once while loading, once when
    accepting) and the clocks of the chain appends *)
Record UserIo := mkUserIo {
  ui_load : result unit string;
  ui_record : result unit string;
  ui_tick : Tick;
  ui_tick' : Tick;
}.

Section User.
Context `{CanonEnv} `{IdentityEnv} `{AnchorSerde}.
Context (shake256 : bytes -> bytes) (to_vec : Json -> bytes) (cert_text : CertError -> string) (ident_text : IdentityError -> string)
  (issue_text : IssueError -> string) (anchor_text : AnchorError -> string) (serde_text : Json -> string).

(** The daemon: identity store, chain and keys; the record files, a damaged one
    as [None]; the reset files; the markers of ignored records; and in memory
    the last accepted statement, the epoch and the backoff per project *)
Record Daemon := mkDaemon {
  da_env : CertEnv;
  da_records : gmap string (option Accepted);
  da_resets : gmap string (option (list ResetRecord));
  da_markers : gset string;
  da_index : gmap string (option Accepted);
  da_epochs : gmap string N;
  da_backoff : gmap string (N * option Z);
}.

Definition set_env (d : Daemon) (e : CertEnv) : Daemon :=
  mkDaemon e (da_records d) (da_resets d) (da_markers d) (da_index d) (da_epochs d) (da_backoff d).
Definition set_chain (d : Daemon) (c : LocalChain) : Daemon :=
  set_env d (mkCertEnv c (ud_user_key (da_env d)) (ud_rotations (da_env d)) (ud_journal (da_env d)) (ud_files (da_env d)) (ud_manifests (da_env d))).
Definition set_records (d : Daemon) (r : gmap string (option Accepted)) : Daemon :=
  mkDaemon (da_env d) r (da_resets d) (da_markers d) (da_index d) (da_epochs d) (da_backoff d).
Definition set_resets (d : Daemon) (r : gmap string (option (list ResetRecord))) : Daemon :=
  mkDaemon (da_env d) (da_records d) r (da_markers d) (da_index d) (da_epochs d) (da_backoff d).
Definition set_markers (d : Daemon) (m : gset string) : Daemon :=
  mkDaemon (da_env d) (da_records d) (da_resets d) m (da_index d) (da_epochs d) (da_backoff d).
Definition set_index (d : Daemon) (i : gmap string (option Accepted)) : Daemon :=
  mkDaemon (da_env d) (da_records d) (da_resets d) (da_markers d) i (da_epochs d) (da_backoff d).
Definition set_epochs (d : Daemon) (e : gmap string N) : Daemon :=
  mkDaemon (da_env d) (da_records d) (da_resets d) (da_markers d) (da_index d) e (da_backoff d).
Definition set_backoff (d : Daemon) (b : gmap string (N * option Z)) : Daemon :=
  mkDaemon (da_env d) (da_records d) (da_resets d) (da_markers d) (da_index d) (da_epochs d) b.

Definition events_of (d : Daemon) : list ChainEvent := chain_tail (ud_chain (da_env d)) 0.

(** The view of the identity store, its failure as an anchor error *)
Definition view_of_daemon (d : Daemon) : result RevocationView AnchorError :=
  match current_view (da_env d) with Ok v => Ok v | Err e => Err (AIdentity e) end.

(** [structural] *)
Definition check_hex (name v : string) (n : nat) : result unit AnchorError :=
  throw_if (negb (is_lower_hex v n))
    (ABadStatement ("`" +:+ name +:+ "` is not " +:+ pretty (N.of_nat n) +:+ " lowercase hex characters")).

Definition structural (s : ProjectAnchorStmt) (now : Z) : result unit AnchorError :=
  let? _ := throw_if (negb (validate_id (an_project_id s))) (ABadStatement "project_id is not a canonical ULID") in
  let? _ := check_hex "project_key_id" (an_project_key_id s) 32 in
  let? _ := check_hex "head_hash" (an_head_hash s) 64 in
  let? _ := check_hex "rule_hash" (an_rule_hash s) 64 in
  let? _ := check_hex "sig" (an_sig s) 128 in
  let? _ := match an_prev_anchor s with
            | Some p => throw_if (negb (is_lower_hex p 64)) (ABadStatement "`prev_anchor` is not 64 lowercase hex characters")
            | None => Ok tt
            end in
  match parse_rfc3339 (an_at s) with
  | Some t =>
      if negb (String.eqb (rfc3339_secs t) (an_at s)) then Err (ABadStatement "`at` is not canonical RFC 3339 (YYYY-MM-DDTHH:MM:SSZ)")
      else throw_if (now + MAX_AHEAD_SECS * 1000000000 <? t)%Z AFuture
  | None => Err (ABadStatement "`at` is not canonical RFC 3339 (YYYY-MM-DDTHH:MM:SSZ)")
  end.

(** [history_keys] *)
Definition history_keys (v : RevocationView) (id : string) : list string := pc_project_pubkey <$> key_history v id.

(** ** The sealed record *)

(** [record_bytes] *)
Definition record_bytes (statement_hash : string) (user_seq : N) (user_event_hash : string) (epoch : N) : bytes :=
  let body := JObj [("statement_hash", JStr statement_hash); ("user_seq", json_num user_seq); ("user_event_hash", JStr user_event_hash)] in
  domain_bytes RECORD_DOMAIN (if 0 <? epoch then json_set "epoch" (json_num epoch) body else body).

(** [seal] *)
Definition seal (e : CertEnv) (s : ProjectAnchorStmt) (user_seq : N) (user_event_hash : string) (epoch : N) : Accepted :=
  mkAccepted s user_seq user_event_hash
    (hex_string (ed_sign (ud_user_key e) (record_bytes (anchor_hash s) user_seq user_event_hash epoch))) epoch.

(** The key of the history that signed these bytes at that time *)
Definition signer_of (h : UserKeyHistory) (at_ : Z) (b sig : bytes) : option bytes :=
  snd <$> list_find (fun pk => accepts h pk at_ = true /\
                               match vk_from_bytes pk with Ok vk => verify_strict vk b sig | Err _ => false end = true)
            (uh_current h :: (rt_pubkey <$> uh_retired h)).

(** [retired_seal_corroborated] *)
Definition payload_get (k : string) (e : ChainEvent) : option Json := ce_payload e ≫= json_get k.

Definition rotation_seq (events : list ChainEvent) (signer_id : string) : option N :=
  head (omap (fun e =>
    old ← payload_get "record" e ≫= text_of "old_key_id";
    if String.eqb (ce_source e) SOURCE && String.eqb (ce_kind e) KIND_ROTATED && String.eqb old signer_id then Some (ce_sequence e) else None)
    events).

Definition retired_seal_corroborated (events : list ChainEvent) (a : Accepted) (signer : bytes) : bool :=
  match rotation_seq events (key_id signer) with
  | None => false
  | Some r =>
      existsb (fun e =>
        String.eqb (ce_source e) ANCHOR_SOURCE && String.eqb (ce_kind e) KIND_ANCHOR && (ce_sequence e =? ac_user_seq a) &&
        (ce_sequence e <? r) && String.eqb (hex_string (ce_hash e)) (ac_user_event_hash a) &&
        match ce_payload e with
        | Some p => bool_decide (text_of "statement_hash" p = Some (anchor_hash (ac_statement a))) &&
                    bool_decide (text_of "project_id" p = Some (an_project_id (ac_statement a)))
        | None => false
        end) events
  end.

(** [seal_ok] *)
Definition seal_ok (d : Daemon) (a : Accepted) : Seal :=
  match hex_decode_n 64 (ac_rec_sig a), user_history (da_env d), parse_rfc3339 (an_at (ac_statement a)) with
  | Some sig, Ok h, Some at_ =>
      match signer_of h at_ (record_bytes (anchor_hash (ac_statement a)) (ac_user_seq a) (ac_user_event_hash a) (ac_epoch a)) sig with
      | None => SealBad
      | Some signer =>
          if bool_decide (signer = uh_current h) || retired_seal_corroborated (events_of d) a signer then SealOk else SealUncorroborated
      end
  | _, _, _ => SealBad
  end.

(** [statement_ok] *)
Definition statement_ok (v : RevocationView) (s : ProjectAnchorStmt) : bool :=
  existsb (fun c => String.eqb (pc_project_key_id c) (an_project_key_id s) &&
             match hex_decode_n 32 (pc_project_pubkey c) with Some pk => is_ok (anchor_verify s pk) | None => false end)
    (all_certs v (an_project_id s)).

(** [read_file]; the writes and removals of the marker succeed *)
Definition read_file (d : Daemon) (id : string) (v : RevocationView) : Daemon * option Accepted :=
  match da_records d !! id with
  | None => (set_markers d (da_markers d ∖ {[id]}), None)
  | Some None => (d, None)
  | Some (Some a) =>
      let s := if String.eqb (an_project_id (ac_statement a)) id then seal_ok d a else SealBad in
      let ok := bool_decide (s = SealOk) && statement_ok v (ac_statement a) in
      let d := if bool_decide (s = SealUncorroborated) then set_markers d ({[id]} ∪ da_markers d)
               else if ok then set_markers d (da_markers d ∖ {[id]}) else d in
      (d, if ok then Some a else None)
  end.

(** [write_file] *)
Definition write_file (d : Daemon) (a : Accepted) (w : result unit string) : Daemon * result unit AnchorError :=
  let id := an_project_id (ac_statement a) in
  match w with
  | Ok _ => (set_markers (set_records d (<[id := Some a]> (da_records d))) (da_markers d ∖ {[id]}), Ok tt)
  | Err e => (d, Err (AStore ("record accepted anchor: " +:+ e)))
  end.

(** [append_event] *)
Definition anchor_payload (s : ProjectAnchorStmt) (recovered : option Accepted) (epoch : N) : Json :=
  let p := JObj [("project_id", JStr (an_project_id s)); ("statement", stmt_to_value s); ("statement_hash", JStr (anchor_hash s))] in
  let p := if 0 <? epoch then json_set "epoch" (json_num epoch) p else p in
  match recovered with
  | None => p
  | Some old =>
      json_set "original_user_event_hash" (JStr (ac_user_event_hash old))
        (json_set "original_user_seq" (json_num (ac_user_seq old)) (json_set "recovered" (JBool true) p))
  end.

Definition append_event (d : Daemon) (s : ProjectAnchorStmt) (recovered : option Accepted) (epoch : N) (t : Tick) : Daemon * Accepted :=
  let '(c, e) := local_append shake256 to_vec (ud_chain (da_env d)) (tk_now t) (tk_now' t) (tk_stamp t) ANCHOR_SOURCE KIND_ANCHOR
                   (Some (anchor_payload s recovered epoch)) in
  (set_chain d c, seal (da_env d) s (ce_sequence e) (hex_string (ce_hash e)) epoch).

(** ** The last accepted statement *)

(** [current_epoch] *)
Definition epoch_event (id : string) (e : ChainEvent) : option N :=
  p ← ce_payload e;
  if String.eqb (ce_source e) ANCHOR_SOURCE && String.eqb (ce_kind e) KIND_RESET then
    pid ← text_of "project_id" p; if String.eqb pid id then json_get "epoch" p ≫= json_as_u64 else None
  else None.

Definition current_epoch (events : list ChainEvent) (id : string) : N :=
  foldl (fun cur e => if e =? cur + 1 then e else cur) 0 (merge_sort N.le (omap (epoch_event id) events)).

(** The statement of a chain event, when it is of this project and epoch *)
Definition statement_event (id : string) (epoch : N) (e : ChainEvent) : option ProjectAnchorStmt :=
  if String.eqb (ce_source e) ANCHOR_SOURCE && String.eqb (ce_kind e) KIND_ANCHOR &&
     (default 0 (payload_get "epoch" e ≫= json_as_u64) =? epoch) then
    s ← payload_get "statement" e ≫= stmt_from_value;
    if String.eqb (an_project_id s) id then Some s else None
  else None.

(** [max_by_key]: of equal ones the last *)
Definition best_step (best : option Accepted) (a : Accepted) : option Accepted :=
  match best with
  | Some b => if an_seq (ac_statement a) <? an_seq (ac_statement b) then Some b else Some a
  | None => Some a
  end.

Definition chain_best (d : Daemon) (id : string) (epoch : N) : option Accepted :=
  foldl best_step None
    (omap (fun e => s ← statement_event id epoch e; Some (seal (da_env d) s (ce_sequence e) (hex_string (ce_hash e)) epoch)) (events_of d)).

(** [load_last] *)
Definition load_last (d : Daemon) (id : string) (v : RevocationView) (epoch : N) (io : UserIo)
  : Daemon * result (option Accepted) AnchorError :=
  let '(d, file) := read_file d id v in
  let best := chain_best d id epoch in
  match file with
  | Some f =>
      if negb (ac_epoch f =? epoch) then (d, Ok best)
      else if match best with Some c => an_seq (ac_statement f) <=? an_seq (ac_statement c) | None => false end then (d, Ok best)
      else if is_compromised v id (an_project_key_id (ac_statement f)) then (d, Ok best)
      else
        let '(d, fixed) := append_event d (ac_statement f) (Some f) epoch (ui_tick io) in
        match write_file d fixed (ui_load io) with
        | (d, Ok _) => (d, Ok (Some fixed))
        | (d, Err e) => (d, Err e)
        end
  | None => (d, Ok best)
  end.

(** [cached_last] *)
Definition cached_last (d : Daemon) (id : string) (v : RevocationView) (io : UserIo) : Daemon * result (option Accepted) AnchorError :=
  match da_index d !! id with
  | Some l => (d, Ok l)
  | None =>
      let epoch := current_epoch (events_of d) id in
      match load_last d id v epoch io with
      | (d, Err e) => (d, Err e)
      | (d, Ok last) => (set_index (set_epochs d (<[id := epoch]> (da_epochs d))) (<[id := last]> (da_index d)), Ok last)
      end
  end.

(** [last_accepted] *)
Definition last_accepted (d : Daemon) (id : string) (io : UserIo) : Daemon * result (option Accepted) AnchorError :=
  match view_of_daemon d with
  | Err e => (d, Err e)
  | Ok v => cached_last d id v io
  end.
(** ** Submitting *)

(** [cert_error] *)
Definition cert_error (e : CertError) : AnchorError :=
  match e with BadSig => ABadSignature | other => ABadStatement (cert_text other) end.

(** [check_cert] *)
Definition check_in_force (d : Daemon) (v : RevocationView) (s : ProjectAnchorStmt) (now : Z) : result bytes AnchorError :=
  let revoked := AKeyRevoked (an_project_id s) (an_project_key_id s) in
  if is_revoked v (an_project_id s) (an_project_key_id s) then Err revoked
  else match current_cert v (an_project_id s) with
  | None => Err (ANotCertified (an_project_id s))
  | Some c =>
      if negb (String.eqb (pc_project_key_id c) (an_project_key_id s)) then Err revoked
      else match user_history (da_env d) with
      | Err e => Err (ACertInvalid (issue_text e))
      | Ok h =>
          match verify_cert_historic c h with
          | Err e => Err (ACertInvalid (ident_text e))
          | Ok _ =>
              if match pc_expires_at c ≫= parse_rfc3339 with Some t => (t <=? now)%Z | None => false end then
                Err (ACertInvalid (cert_text Expired))
              else if negb (an_cert_serial s =? pc_serial c) then
                Err (ACertInvalid ("cert_serial " +:+ pretty (an_cert_serial s) +:+ " is not the certificate in force (" +:+
                                   pretty (pc_serial c) +:+ ")"))
              else ok_or (hex_decode_n 32 (pc_project_pubkey c)) (ACertInvalid "certificate public key is malformed")
          end
      end
  end.

(** [accept]: the checks *)
Definition accept_checks (v : RevocationView) (s : ProjectAnchorStmt) (last : option Accepted) : result unit AnchorError :=
  let resync := (fun l => mkResync l (history_keys v (an_project_id s))) <$> last in
  let want := match last with Some l => an_seq (ac_statement l) + 1 | None => 1 end in
  let? _ := throw_if (negb (an_seq s =? want)) (ASeq (an_seq s) want resync) in
  let? _ := throw_if (negb (bool_decide (an_prev_anchor s = (fun l => anchor_hash (ac_statement l)) <$> last))) (APrev resync) in
  match last with
  | None => Ok tt
  | Some l =>
      let? _ := throw_if (an_head_seq s <? an_head_seq (ac_statement l)) (AHeadRegress (an_head_seq s) (an_head_seq (ac_statement l))) in
      throw_if (negb (an_chain_id s =? an_chain_id (ac_statement l))) (AChainId (an_chain_id s) (an_chain_id (ac_statement l)))
  end.

(** [accept] *)
Definition accept (d : Daemon) (v : RevocationView) (s : ProjectAnchorStmt) (last : option Accepted) (io : UserIo)
  : Daemon * result Accepted AnchorError :=
  match accept_checks v s last with
  | Err e => (d, Err e)
  | Ok _ =>
      let id := an_project_id s in
      let '(d, a) := append_event d s None (default 0 (da_epochs d !! id)) (ui_tick' io) in
      let d := set_index d (<[id := Some a]> (da_index d)) in
      let '(d, w) := write_file d a (ui_record io) in
      (d, match w with Ok _ => Ok a | Err e => Err e end)
  end.

(** The count of refusals; [u32] addition *)
Definition count_refusal (b : gmap string (N * option Z)) (id : string) (now : Z) : gmap string (N * option Z) :=
  let '(n, until) := default (0, None) (b !! id) in
  let n := wrap_add32 n 1 in
  let secs := Z.min (Z.shiftl 1 (Z.of_N (N.min (n - BACKOFF_AFTER) 6))) BACKOFF_MAX_SECS in
  <[id := (n, if BACKOFF_AFTER <=? n then Some (now + secs * 1000000000)%Z else until)]> b.

(** [accept], with the refusals counted *)
Definition submit_counted (d : Daemon) (v : RevocationView) (s : ProjectAnchorStmt) (last : option Accepted) (now : Z) (io : UserIo)
  : Daemon * result Accepted AnchorError :=
  let id := an_project_id s in
  match accept d v s last io with
  | (d, Ok a) => (set_backoff d (delete id (da_backoff d)), Ok a)
  | (d, Err (AStore m)) => (d, Err (AStore m))
  | (d, Err e) => (set_backoff d (count_refusal (da_backoff d) id now), Err e)
  end.

(** [submit] under the lock, for a statement that is not the last one again *)
Definition submit_fresh (d : Daemon) (v : RevocationView) (s : ProjectAnchorStmt) (last : option Accepted) (now : Z) (io : UserIo)
  : Daemon * result Accepted AnchorError :=
  let id := an_project_id s in
  match da_backoff d !! id ≫= snd with
  | Some until =>
      if (now <? until)%Z then (d, Err (ABackoff (Z.max ((until - now) / 1000000000) 1))) else submit_counted d v s last now io
  | None => submit_counted d v s last now io
  end.

(** [submit] under the lock, from the last accepted statement on *)
Definition submit_locked (d : Daemon) (v : RevocationView) (s : ProjectAnchorStmt) (last : option Accepted) (now : Z) (io : UserIo)
  : Daemon * result Accepted AnchorError :=
  match last with
  | Some l =>
      if bool_decide (ac_statement l = s) then ((write_file d l (ui_record io)).1, Ok l) else submit_fresh d v s last now io
  | None => submit_fresh d v s last now io
  end.

(** [submit] *)
Definition submit_anchor (d : Daemon) (s : ProjectAnchorStmt) (now : Z) (io : UserIo) : Daemon * result Accepted AnchorError :=
  match (let? _ := structural s now in
         let? v := view_of_daemon d in
         let? pk := check_in_force d v s now in
         match anchor_verify s pk with Ok _ => Ok v | Err e => Err (cert_error e) end) with
  | Err e => (d, Err e)
  | Ok v =>
      match cached_last d (an_project_id s) v io with
      | (d, Err e) => (d, Err e)
      | (d, Ok last) => submit_locked d v s last now io
      end
  end.

(** [AnchorError::to_submit_error] *)
Definition to_submit_error (e : AnchorError) : AnchorSubmitError :=
  Rejected (anchor_kind e) (anchor_text e) ((fun r => (ac_statement (rs_last r), ack_of (rs_last r))) <$> resync_of e)
    (match resync_of e with Some r => omap (hex_decode_n 32) (rs_key_history r) | None => [] end).

(** ** The owner's operations *)

(** [restore] *)
Definition restore (d : Daemon) (params : Json) (now : Z) (io : UserIo) : Daemon * result Json AnchorError :=
  match (let? sv := ok_or (json_get "statement" params) (ABadStatement "missing `statement`") in
         let? s := ok_or (stmt_from_value sv) (ABadStatement ("not an anchor statement: " +:+ serde_text sv)) in
         let? user_seq := ok_or (json_get "user_seq" params ≫= json_as_u64) (ABadStatement "missing `user_seq`") in
         let? h := ok_or (text_of "user_event_hash" params) (ABadStatement "missing `user_event_hash`") in
         let? _ := throw_if (negb (is_lower_hex h 64)) (ABadStatement "`user_event_hash` is not 64 lowercase hex characters") in
         let? _ := structural s (now + 36500 * 86400 * 1000000000)%Z in
         let? v := view_of_daemon d in
         let? _ := throw_if (is_compromised v (an_project_id s) (an_project_key_id s)) (AKeyRevoked (an_project_id s) (an_project_key_id s)) in
         let? pk := ok_or ((snd <$> list_find (fun c => pc_project_key_id c = an_project_key_id s) (key_history v (an_project_id s)))
                             ≫= fun c => hex_decode_n 32 (pc_project_pubkey c)) (ANotCertified (an_project_id s)) in
         match anchor_verify s pk with Ok _ => Ok (s, user_seq, h, v) | Err e => Err (cert_error e) end) with
  | Err e => (d, Err e)
  | Ok (s, user_seq, h, v) =>
      let id := an_project_id s in
      match cached_last d id v io with
      | (d, Err e) => (d, Err e)
      | (d, Ok last) =>
          if match last with
             | Some l => (an_seq s <? an_seq (ac_statement l)) || ((an_seq (ac_statement l) =? an_seq s) && negb (bool_decide (ac_statement l = s)))
             | None => false
             end then (d, Err (ABadStatement "the daemon's record is already at or beyond this statement; restore never rewinds"))
          else
            let sealed := seal (da_env d) s user_seq h (default 0 (da_epochs d !! id)) in
            match write_file d sealed (ui_record io) with
            | (d, Err e) => (d, Err e)
            | (d, Ok _) =>
                let d := set_backoff (set_index d (delete id (da_index d))) (delete id (da_backoff d)) in
                match cached_last d id v (mkUserIo (ui_load io) (ui_record io) (ui_tick' io) (ui_tick' io)) with
                | (d, Err e) => (d, Err e)
                | (d, Ok last) =>
                    let fixed := default sealed last in
                    (d, Ok (JObj [("project_id", JStr (an_project_id (ac_statement fixed))); ("seq", json_num (an_seq (ac_statement fixed)));
                                  ("user_seq", json_num (ac_user_seq fixed)); ("user_event_hash", JStr (ac_user_event_hash fixed))]))
                end
            end
      end
  end.

(** [reset_record::bytes], [sign], [sig_ok] *)
Definition reset_bytes (r : ResetRecord) : bytes :=
  domain_bytes RESET_DOMAIN
    (JObj [("project_id", JStr (re_project_id r)); ("epoch", json_num (re_epoch r));
           ("retired_statement_hash", JStr (re_retired_statement_hash r)); ("retired_seq", json_num (re_retired_seq r));
           ("user_seq", json_num (re_user_seq r)); ("user_event_hash", JStr (re_user_event_hash r));
           ("at", JStr (re_at r)); ("reason", JStr (re_reason r))]).

Definition reset_sign (e : CertEnv) (r : ResetRecord) : ResetRecord :=
  mkReset (re_project_id r) (re_epoch r) (re_retired_statement_hash r) (re_retired_seq r) (re_user_seq r) (re_user_event_hash r)
    (re_at r) (re_reason r) (hex_string (ed_sign (ud_user_key e) (reset_bytes r))).

Definition reset_sig_ok (d : Daemon) (r : ResetRecord) : bool :=
  match hex_decode_n 64 (re_rec_sig r), user_history (da_env d), parse_rfc3339 (re_at r) with
  | Some sig, Ok h, Some at_ => bool_decide (is_Some (signer_of h at_ (reset_bytes r) sig))
  | _, _, _ => false
  end.

(** [read_records], [record] *)
Definition read_resets (d : Daemon) (id : string) : list ResetRecord :=
  match da_resets d !! id with
  | Some (Some l) => List.filter (fun r => String.eqb (re_project_id r) id && reset_sig_ok d r) l
  | _ => []
  end.

Definition record_reset (d : Daemon) (r : ResetRecord) (w : result unit string) : Daemon * result unit AnchorError :=
  match w with
  | Ok _ => (set_resets d (<[re_project_id r := Some (read_resets d (re_project_id r) ++ [r])]> (da_resets d)), Ok tt)
  | Err e => (d, Err (AStore ("record anchor reset: " +:+ e)))
  end.

(** [reset] *)
Definition reset (d : Daemon) (params : Json) (now : Z) (io : UserIo) : Daemon * result Json AnchorError :=
  match (let? id := ok_or (text_of "project_id" params) (ABadStatement "missing `project_id`") in
         let? _ := throw_if (negb (validate_id id)) (ABadStatement "project_id is not a canonical ULID") in
         let? _ := ok_or (ud_manifests (da_env d) !! id) (ABadStatement "project is not registered") in
         let? v := view_of_daemon d in Ok (id, v)) with
  | Err e => (d, Err e)
  | Ok (id, v) =>
      let reason := clean_reason (default "" (text_of "reason" params)) in
      match cached_last d id v io with
      | (d, Err e) => (d, Err e)
      | (d, Ok None) => (d, Err (ANothingToReset id))
      | (d, Ok (Some last)) =>
          let epoch := ac_epoch last + 1 in
          let at_ := rfc3339_secs now in
          let s := ac_statement last in
          let t := ui_tick' io in
          let '(c, ev) := local_append shake256 to_vec (ud_chain (da_env d)) (tk_now t) (tk_now' t) (tk_stamp t) ANCHOR_SOURCE KIND_RESET
            (Some (JObj [("project_id", JStr id); ("epoch", json_num epoch);
               ("retired", JObj [("statement_hash", JStr (anchor_hash s)); ("seq", json_num (an_seq s));
                  ("head_seq", json_num (an_head_seq s)); ("chain_id", json_num (an_chain_id s));
                  ("user_seq", json_num (ac_user_seq last)); ("user_event_hash", JStr (ac_user_event_hash last))]);
               ("reason", JStr reason); ("at", JStr at_)])) in
          let d := set_chain d c in
          let rec := reset_sign (da_env d)
                       (mkReset id epoch (anchor_hash s) (an_seq s) (ce_sequence ev) (hex_string (ce_hash ev)) at_ reason "") in
          let '(d, w) := record_reset d rec (ui_record io) in
          let d := set_backoff (set_index (set_epochs d (<[id := epoch]> (da_epochs d))) (<[id := None]> (da_index d))) (delete id (da_backoff d)) in
          (d, match w with
              | Err e => Err e
              | Ok _ => Ok (JObj [("project_id", JStr id); ("epoch", json_num epoch);
                                  ("retired", JObj [("seq", json_num (re_retired_seq rec)); ("statement_hash", JStr (re_retired_statement_hash rec))]);
                                  ("user_seq", json_num (re_user_seq rec)); ("user_event_hash", JStr (re_user_event_hash rec))])
              end)
      end
  end.

(** [reconcile]; the directory lists the record files in some order *)
Fixpoint reconcile_ids (d : Daemon) (v : RevocationView) (ids : list string) (io : UserIo) : Daemon * result (list string) AnchorError :=
  match ids with
  | [] => (d, Ok [])
  | id :: ids =>
      if negb (validate_id id) then reconcile_ids d v ids io
      else
        let before := lc_sequence (ud_chain (da_env d)) in
        match cached_last d id v io with
        | (d, Err e) => (d, Err e)
        | (d, Ok _) =>
            let changed := negb (lc_sequence (ud_chain (da_env d)) =? before) in
            match reconcile_ids d v ids io with
            | (d, Err e) => (d, Err e)
            | (d, Ok l) => (d, Ok (if changed then id :: l else l))
            end
        end
  end.

Definition reconcile (d : Daemon) (io : UserIo) : Daemon * result (list string) AnchorError :=
  match view_of_daemon d with
  | Err e => (d, Err e)
  | Ok v => reconcile_ids d v (map_to_list (da_records d)).*1 io
  end.

End User.
