(* ===== verification/AnchorRuns.v ===== *)
(** * The anchors of a project, over the life of the user daemon

    Submissions by any project, other events on the user chain, changes of the
    identity store, restarts, and crashes that lose the end of the chain. *)

From Stdlib Require Import Strings.String.
From S2P Require Import Prelude Codec Text Chain Delegation Canon KeyRotation Identity IdentityOps AnchorProject AnchorUser.

Local Open Scope string_scope.
Local Open Scope list_scope.
Local Open Scope N_scope.

Section Runs.
Context `{CanonEnvLaws} `{!Ed25519Laws} `{IdentityEnv} `{AnchorSerdeLaws}.
Context (shake256 : bytes -> bytes) (to_vec : Json -> bytes) (cert_text : CertError -> string) (ident_text : IdentityError -> string)
  (issue_text : IssueError -> string).

Abbreviation submit_anchor := (submit_anchor shake256 to_vec cert_text ident_text issue_text).
Abbreviation cached_last := (cached_last shake256 to_vec).
Abbreviation load_last := (load_last shake256 to_vec).

(** ** The accepted statements of a project *)

(** [s] may be accepted after [prev] *)
Definition snext (prev : option ProjectAnchorStmt) (s : ProjectAnchorStmt) : Prop :=
  an_seq s = match prev with Some p => an_seq p + 1 | None => 1 end /\
  an_prev_anchor s = anchor_hash <$> prev /\
  match prev with Some p => an_head_seq p <= an_head_seq s /\ an_chain_id s = an_chain_id p | None => True end.

Fixpoint slinked (prev : option ProjectAnchorStmt) (l : list ProjectAnchorStmt) : Prop :=
  match l with [] => True | s :: l => snext prev s /\ slinked (Some s) l end.

Lemma slinked_snoc prev l s :
  slinked prev (l ++ [s]) <-> slinked prev l /\ snext (match last l with Some x => Some x | None => prev end) s.
Proof.
  revert prev. induction l as [|x l IH]; intros prev; cbn [app slinked]; [tauto|]. rewrite IH.
  destruct l as [|y l]; [tauto|]. rewrite last_cons_cons. destruct (last (y :: l)) eqn:E; [tauto|by apply last_None in E].
Qed.

Lemma slinked_seq prev l k s :
  slinked prev l -> l !! k = Some s -> an_seq s = match prev with Some p => an_seq p | None => 0 end + N.of_nat k + 1.
Proof.
  revert prev k. induction l as [|x l IH]; intros prev [|k] Hc Hk; cbn in Hk; try done; destruct Hc as [(Hs & _) Hl].
  - injection Hk as <-. rewrite Hs. destruct prev; lia.
  - rewrite (IH _ _ Hl Hk), Hs. destruct prev; lia.
Qed.

(** The newest has the greatest number, and no other has it. *)
Lemma slinked_last l s x : slinked None l -> last l = Some s -> x ∈ l -> an_seq x <= an_seq s /\ (an_seq x = an_seq s -> x = s).
Proof.
  intros Hl Hs (k & Hk)%list_elem_of_lookup. rewrite last_lookup in Hs.
  rewrite (slinked_seq _ _ _ _ Hl Hk), (slinked_seq _ _ _ _ Hl Hs). apply lookup_lt_Some in Hk as Hlt. split; [lia|].
  intros E. assert (k = pred (length l)) as -> by lia. congruence.
Qed.

(** ** Events that do not concern a project *)

Lemma foldl_noop {A B} (f : A -> B -> A) l v : Forall (fun x => forall v, f v x = v) l -> foldl f v l = v.
Proof using. intros Hf. induction Hf as [|x l Hx _ IH]; [done|]. cbn [foldl]. by rewrite Hx. Qed.

Lemma view_same (e e' : CertEnv) evs :
  lc_events (ud_chain e') = lc_events (ud_chain e) ++ evs -> Forall (fun ev => ce_source ev <> SOURCE) evs ->
  ud_user_key e' = ud_user_key e -> ud_rotations e' = ud_rotations e -> ud_journal e' = ud_journal e -> ud_files e' = ud_files e ->
  current_view e' = current_view e.
Proof.
  intros Ee Hs Ek Er Ej Ef. unfold current_view, user_history, user_pubkey. rewrite Ek, Er, Ej, Ef.
  destruct (from_records _ _) as [trust|]; [|done]. f_equal. unfold build_with, tail_from. rewrite Ee, filter_app, !foldl_app.
  set (new := filter _ evs). assert (Forall (fun ev => ce_source ev <> SOURCE) new) as Hnew.
  { apply Forall_forall. intros x (_ & Hx)%list_elem_of_filter. by apply (proj1 (Forall_forall _ _) Hs). }
  rewrite (foldl_noop index_event new), (foldl_noop ingest_event new); [done| |]; (eapply Forall_impl; [exact Hnew|]); intros x Hx v; unfold index_event, ingest_event;
    by destruct (String.eqb_spec (ce_source x) SOURCE).
Qed.

Lemma epoch_same evs evs' id : Forall (fun ev => epoch_event id ev = None) evs' -> current_epoch (evs ++ evs') id = current_epoch evs id.
Proof.
  intros Hn. unfold current_epoch. rewrite omap_app. assert (omap (epoch_event id) evs' = []) as ->; [|by rewrite app_nil_r].
  induction Hn as [|x l Hx _ IH]; [done|]. cbn [omap list_omap]. by rewrite Hx.
Qed.

(** The event an anchor appends *)
Lemma appended_event d s rc e t d' a :
  append_event shake256 to_vec d s rc e t = (d', a) ->
  exists ev c, lc_events c = lc_events (ud_chain (da_env d)) ++ [ev] /\
    ce_source ev = ANCHOR_SOURCE /\
    (forall id e' x, statement_event id e' ev = Some x -> x = s /\ an_project_id s = id) /\
    (forall id, epoch_event id ev = None) /\
    a = seal (da_env d) s (ac_user_seq a) (ac_user_event_hash a) e /\ d' = set_chain d c.
Proof.
  unfold append_event. intros Ha.
  destruct (local_append _ _ _ _ _ _ _ _ _) as [c ev] eqn:El. injection Ha as <- <-.
  destruct (append_event_fields shake256 to_vec (ud_chain (da_env d)) (tk_now t) (tk_now' t) (tk_stamp t) ANCHOR_SOURCE KIND_ANCHOR
    (Some (anchor_payload s rc e)) None) as (ev' & Hev & _ & _ & Hs & Hk & Hp & _).
  unfold local_append in El. rewrite El in Hev. cbn [fst] in Hev. exists ev', c. split; [done|]. split; [done|]. split_and!; [| |done|done].
  - intros id e' x. unfold statement_event, payload_get. rewrite Hp. cbn [mbind option_bind]. destruct (_ && _ && _); [|done].
    assert (json_get "statement" (anchor_payload s rc e) = Some (stmt_to_value s)) as ->.
    { unfold anchor_payload. by destruct (0 <? e), rc. }
    cbn [mbind option_bind]. rewrite stmt_value_reads. cbn [mbind option_bind].
    destruct (String.eqb_spec (an_project_id s) id); [by intros [= <-]|done].
  - intros id. unfold epoch_event. rewrite Hs, Hk, Hp. done.
Qed.

(** ** The invariant

    [H] lists what was accepted for the project in its epoch. *)

Definition known (d : Daemon) (id : string) (s : ProjectAnchorStmt) : Prop :=
  forall v, current_view (da_env d) = Ok v -> statement_ok v s = true /\ is_compromised v id (an_project_key_id s) = false.

(** A record as the daemon seals it with its key *)
Definition sealed (d : Daemon) (e : N) (a : Accepted) : Prop :=
  a = seal (da_env d) (ac_statement a) (ac_user_seq a) (ac_user_event_hash a) e.

Record anchors_inv (d : Daemon) (id : string) (e : N) (hist : list ProjectAnchorStmt) : Prop := mkAnchorsInv {
  ui_epoch_ok : current_epoch (events_of d) id = e;
  ui_chain_ok : forall ev s, ev ∈ events_of d -> statement_event id e ev = Some s -> s ∈ hist;
  ui_file : match last hist with
            | Some s => exists q h, da_records d !! id = Some (Some (seal (da_env d) s q h e))
            | None => forall a, da_records d !! id = Some (Some a) -> ac_epoch a <> e
            end;
  ui_cache : forall l, da_index d !! id = Some l -> ac_statement <$> l = last hist /\ da_epochs d !! id = Some e /\ forall a, l = Some a -> sealed d e a;
  ui_linked : slinked None hist;
  ui_good : Forall (fun s => an_project_id s = id /\ is_Some (parse_rfc3339 (an_at s))) hist;
  ui_known : forall s, last hist = Some s -> known d id s;
}.

Lemma events_of_set_chain d c : events_of (set_chain d c) = lc_events c.
Proof. done. Qed.

(** What is done for other projects leaves it alone. *)
Lemma inv_frame d d' id e hist evs :
  anchors_inv d id e hist ->
  lc_events (ud_chain (da_env d')) = lc_events (ud_chain (da_env d)) ++ evs ->
  Forall (fun ev => ce_source ev <> SOURCE /\ epoch_event id ev = None /\ statement_event id e ev = None) evs ->
  ud_user_key (da_env d') = ud_user_key (da_env d) -> ud_rotations (da_env d') = ud_rotations (da_env d) ->
  ud_journal (da_env d') = ud_journal (da_env d) -> ud_files (da_env d') = ud_files (da_env d) ->
  da_records d' !! id = da_records d !! id -> da_index d' !! id = da_index d !! id -> da_epochs d' !! id = da_epochs d !! id ->
  anchors_inv d' id e hist.
Proof.
  intros [He Hc Hf Hi Hl Hg Hk] Ee Hev Ek Er Ej Eff Erec Eix Eep.
  assert (Forall (fun ev => ce_source ev <> SOURCE) evs /\ Forall (fun ev => epoch_event id ev = None) evs) as [Hs Hn]
    by (split; eapply Forall_impl; [exact Hev| |exact Hev|]; naive_solver).
  split; try done.
  - unfold events_of, chain_tail in *. cbn [Nat.eqb orb] in *. rewrite Ee, epoch_same by done. done.
  - unfold events_of, chain_tail in *. cbn [Nat.eqb orb] in *. rewrite Ee. intros ev s Hin Hst. apply elem_of_app in Hin as [Hin|Hin].
    + by apply (Hc ev).
    + destruct (proj1 (Forall_forall _ _) Hev ev Hin) as (_ & _ & Hno). congruence.
  - rewrite Erec. destruct (last hist) as [s|]; [|done]. destruct Hf as (q & h & ->). exists q, h. unfold seal. by rewrite Ek.
  - rewrite Eix, Eep. unfold sealed, seal in *. rewrite Ek. exact Hi.
  - intros s Hs'. unfold known. rewrite (view_same (da_env d) _ evs) by done. by apply Hk.
Qed.

(** A record the daemon sealed reads back. *)
Lemma sealed_reads d id v s q h e :
  da_records d !! id = Some (Some (seal (da_env d) s q h e)) -> an_project_id s = id -> is_Some (parse_rfc3339 (an_at s)) ->
  current_view (da_env d) = Ok v -> statement_ok v s = true ->
  read_file d id v = (set_markers d (da_markers d ∖ {[id]}), Some (seal (da_env d) s q h e)).
Proof.
  intros Hr Hid [t Ht] Hv Hs. unfold read_file. rewrite Hr. cbn [seal ac_statement]. rewrite Hid, String.eqb_refl.
  assert (seal_ok d (seal (da_env d) s q h e) = SealOk) as ->.
  { unfold seal_ok. cbn [seal ac_rec_sig ac_statement ac_user_seq ac_user_event_hash ac_epoch].
    rewrite hex_decode_string by apply sig_length. unfold current_view in Hv. destruct (user_history (da_env d)) as [hh|] eqn:Eh; [|done].
    rewrite Ht. assert (uh_current hh = user_pubkey (da_env d)) as Ecur.
    { unfold user_history, from_records in Eh. destruct (fold_records _ _ _) as [[pr rt]|]; [|done].
      destruct (throw_if _ _); [|done]. by injection Eh as <-. }
    unfold signer_of. cbn [list_find].
    rewrite decide_True; [cbn [fmap option_fmap option_map snd]; by rewrite bool_decide_eq_true_2|].
    split.
    - unfold accepts. by rewrite bool_decide_eq_true_2.
    - rewrite Ecur. unfold user_pubkey. rewrite vk_round_trip. apply sign_verifies_strict. }
  cbn [bool_decide decide_rel]. rewrite Hs. done.
Qed.

(** An anchor appended to the chain: one of another project, or one of ours
    that was accepted before *)
Lemma append_keeps d s rc e' t d' a id e hist :
  append_event shake256 to_vec d s rc e' t = (d', a) -> anchors_inv d id e hist -> (an_project_id s = id -> s ∈ hist) ->
  anchors_inv d' id e hist /\ a = seal (da_env d') s (ac_user_seq a) (ac_user_event_hash a) e' /\
  current_view (da_env d') = current_view (da_env d) /\ da_records d' = da_records d /\ da_index d' = da_index d /\ da_epochs d' = da_epochs d.
Proof.
  intros Ha [He Hc Hf Hi Hl Hg Hk] Hown. destruct (appended_event _ _ _ _ _ _ _ Ha) as (ev & c & Eev & Hsrc & Hst & Hep & Ea & ->).
  assert (current_view (da_env (set_chain d c)) = current_view (da_env d)) as Hv.
  { apply (view_same (da_env d) _ [ev]); try done. constructor; [by rewrite Hsrc|done]. }
  split; [|done]. split; try done.
  - rewrite events_of_set_chain, Eev, epoch_same; [done|]. by constructor.
  - rewrite events_of_set_chain, Eev. intros x y Hin Hxy. apply elem_of_app in Hin as [Hin|Hin].
    + by apply (Hc x).
    + apply list_elem_of_singleton in Hin as ->. destruct (Hst _ _ _ Hxy) as [-> Hid]. by apply Hown.
  - intros x Hx. unfold known. rewrite Hv. by apply Hk.
Qed.

Lemma best_step_in l b a : foldl best_step b l = Some a -> b = Some a \/ a ∈ l.
Proof.
  revert b. induction l as [|x l IH]; intros b E; [by left|]. cbn [foldl] in E. destruct (IH _ E) as [Eb|Hin]; [|right; by right].
  unfold best_step in Eb. destruct b as [b|]; [destruct (_ <? _)|]; [by left| |]; injection Eb as ->; right; left.
Qed.

Lemma chain_best_in d id e a : chain_best d id e = Some a ->
  sealed d e a /\ exists ev, ev ∈ events_of d /\ statement_event id e ev = Some (ac_statement a).
Proof.
  unfold chain_best. intros [|Hin]%best_step_in; [done|]. apply list_elem_of_omap in Hin as (ev & Hev & Hs).
  destruct (statement_event id e ev) as [s|] eqn:Est; [|done]. injection Hs as <-. split; [done|]. by exists ev.
Qed.

Lemma set_markers_inv d m id e hist : anchors_inv d id e hist -> anchors_inv (set_markers d m) id e hist.
Proof. intros Hi. apply (inv_frame d _ id e hist []); try done. by rewrite app_nil_r. Qed.

Lemma write_keeps d a w d' r id e hist :
  write_file d a w = (d', r) -> anchors_inv d id e hist ->
  (an_project_id (ac_statement a) = id -> exists s q h, last hist = Some s /\ a = seal (da_env d) s q h e) ->
  anchors_inv d' id e hist /\ da_env d' = da_env d /\ da_index d' = da_index d /\ da_epochs d' = da_epochs d.
Proof.
  unfold write_file. intros Hw Hi Ha. destruct w as [u|]; injection Hw as <- _; [|done]. split; [|done]. apply set_markers_inv.
  destruct (String.eqb_spec (an_project_id (ac_statement a)) id) as [E|E].
  - destruct (Ha E) as (s & q & h & El & ->). destruct Hi as [He Hc Hf Hi Hl Hg Hk]. split; try done. rewrite El. exists q, h.
    cbn [set_records da_records]. rewrite E. by rewrite lookup_insert_eq.
  - apply (inv_frame d _ id e hist []); try done; [by rewrite app_nil_r|]. cbn [set_records da_records]. by rewrite lookup_insert_ne.
Qed.

Lemma read_file_frame d id v d1 file :
  read_file d id v = (d1, file) ->
  exists m, d1 = set_markers d m /\
    (forall f, file = Some f -> da_records d !! id = Some (Some f) /\ an_project_id (ac_statement f) = id).
Proof.
  unfold read_file. intros Er. assert (d = set_markers d (da_markers d)) as Ed by (by destruct d).
  destruct (da_records d !! id) as [[a|]|]; [|injection Er as <- <-; exists (da_markers d); by split|injection Er as <- <-; by eexists].
  set (sl := if String.eqb _ id then _ else _) in Er. destruct (bool_decide (sl = SealOk) && _) eqn:Eok.
  - injection Er as <- <-. exists (da_markers d ∖ {[id]}). apply andb_true_iff in Eok as [Esl%bool_decide_eq_true _].
    rewrite Esl. split; [done|]. intros f [= <-]. split; [done|]. unfold sl in Esl. by destruct (String.eqb_spec (an_project_id (ac_statement a)) id).
  - injection Er as <- <-. clear Eok. destruct (bool_decide _); [eexists|exists (da_markers d)]; (split; [first [reflexivity|exact Ed]|done]).
Qed.

(** Loading finds the last accepted statement, whatever the chain still has. *)
Lemma load_own d id v e io hist d' r :
  load_last d id v e io = (d', r) -> anchors_inv d id e hist -> current_view (da_env d) = Ok v ->
  anchors_inv d' id e hist /\ (forall l, r = Ok l -> ac_statement <$> l = last hist /\ forall a, l = Some a -> sealed d' e a) /\
  current_view (da_env d') = Ok v /\ da_index d' = da_index d /\ da_epochs d' = da_epochs d.
Proof.
  intros Hload Hi Hv. unfold AnchorUser.load_last in Hload. pose proof Hi as [He Hc Hf _ Hl Hg Hk].
  destruct (last hist) as [s|] eqn:El.
  - destruct Hf as (q & h & Hrec). assert (s ∈ hist) as Hin by (by apply last_Some_elem_of).
    destruct (proj1 (Forall_forall _ _) Hg s Hin) as [Hid Hat]. destruct (Hk s eq_refl v Hv) as [Hok Hnc].
    rewrite (sealed_reads d id v s q h e Hrec Hid Hat Hv Hok) in Hload. set (d1 := set_markers d _) in Hload.
    assert (anchors_inv d1 id e hist) as Hi1 by (by apply set_markers_inv).
    change (ac_epoch (seal _ s q h e)) with e in Hload. change (ac_statement (seal _ s q h e)) with s in Hload.
    rewrite N.eqb_refl, Hnc in Hload. cbn [negb] in Hload.
    destruct (match chain_best d1 id e with Some c => _ | None => _ end) eqn:Eb.
    { injection Hload as <- <-. split; [done|]. split; [|done]. intros l [= <-].
      destruct (chain_best d1 id e) as [c|] eqn:Ec; [|done]. apply N.leb_le in Eb.
      destruct (chain_best_in _ _ _ _ Ec) as (Hsl & ev & Hev & Hst). split; [|by intros a [= <-]].
      cbn [fmap option_fmap option_map]. f_equal. destruct (slinked_last hist s (ac_statement c) Hl El (Hc _ _ Hev Hst)) as [Hle Heq]. apply Heq. lia. }
    destruct (append_event _ _ d1 s _ e _) as [d2 fixed] eqn:Ea.
    destruct (append_keeps _ _ _ _ _ _ _ id e hist Ea Hi1 (fun _ => Hin)) as (Hi2 & Hfx & Hv2 & _ & Hx2 & Hp2).
    destruct (write_file d2 fixed _) as [d3 r3] eqn:Ew.
    destruct (write_keeps _ _ _ _ _ id e hist Ew Hi2) as (Hi3 & Hv3 & Hx3 & Hp3).
    { intros _. exists s. eexists _, _. split; [done|exact Hfx]. }
    destruct r3 as [u|]; injection Hload as <- <-; (split; [done|]); rewrite Hv3, Hv2, Hx3, Hx2, Hp3, Hp2; (split; [|done]); [|done].
    intros l [= <-]. split; [cbn [fmap option_fmap option_map]; f_equal; by rewrite Hfx|]. intros a [= <-].
    unfold sealed. rewrite Hv3. rewrite Hfx at 2. exact Hfx.
  - destruct (read_file d id v) as [d1 file] eqn:Er.
    destruct (read_file_frame _ _ _ _ _ Er) as (m & -> & Hfile). set (d1 := set_markers d m) in *.
    assert (anchors_inv d1 id e hist) as Hi1 by (by apply set_markers_inv).
    assert (forall f, file = Some f -> ac_epoch f <> e) as Hfe by (intros f Hff; apply Hf; by destruct (Hfile f Hff)).
    assert (chain_best d1 id e = None) as Hb.
    { destruct (chain_best d1 id e) as [c|] eqn:Ec; [|done]. destruct (chain_best_in _ _ _ _ Ec) as (_ & ev & Hev & Hst).
      pose proof (ui_chain_ok _ _ _ _ Hi1 _ _ Hev Hst) as Hin. apply last_None in El. rewrite El in Hin. set_solver. }
    assert ((d', r) = (d1, Ok None)) as [= -> ->].
    { rewrite <- Hload, Hb. destruct file as [f|]; [|done]. specialize (Hfe f eq_refl). by rewrite (proj2 (N.eqb_neq _ _) Hfe). }
    split; [done|]. split; [|done]. by intros l [= <-].
Qed.

Lemma load_other d id id2 v e2 io d' r e hist :
  load_last d id2 v e2 io = (d', r) -> id2 <> id -> anchors_inv d id e hist ->
  anchors_inv d' id e hist /\ da_index d' = da_index d /\ da_epochs d' = da_epochs d.
Proof.
  intros Hload Hne Hi. unfold AnchorUser.load_last in Hload. destruct (read_file d id2 v) as [d0 file] eqn:Er.
  destruct (read_file_frame _ _ _ _ _ Er) as (m & -> & Hfile). set (d1 := set_markers d m) in *.
  assert (anchors_inv d1 id e hist) as Hi1 by (by apply set_markers_inv).
  destruct file as [f|]; [|by injection Hload as <- _]. destruct (Hfile f eq_refl) as [_ Hid].
  destruct (negb _); [by injection Hload as <- _|]. destruct (match chain_best _ _ _ with Some _ => _ | None => _ end); [by injection Hload as <- _|].
  destruct (is_compromised _ _ _); [by injection Hload as <- _|].
  destruct (append_event _ _ d1 _ _ _ _) as [d2 fixed] eqn:Ea.
  destruct (append_keeps _ _ _ _ _ _ _ id e hist Ea Hi1) as (Hi2 & Hfx & _ & _ & Hx2 & Hp2); [congruence|].
  destruct (write_file d2 fixed _) as [d3 r3] eqn:Ew.
  destruct (write_keeps _ _ _ _ _ id e hist Ew Hi2) as (Hi3 & _ & Hx3 & Hp3); [rewrite Hfx; cbn [seal ac_statement]; congruence|].
  destruct r3; injection Hload as <- _; by rewrite Hx3, Hp3.
Qed.

Lemma cached_own d id v io d' r e hist :
  cached_last d id v io = (d', r) -> anchors_inv d id e hist -> current_view (da_env d) = Ok v ->
  anchors_inv d' id e hist /\ current_view (da_env d') = Ok v /\
  forall l, r = Ok l -> ac_statement <$> l = last hist /\ da_index d' !! id = Some l.
Proof.
  intros Hc Hi Hv. unfold AnchorUser.cached_last in Hc. destruct (da_index d !! id) as [l|] eqn:Ei.
  - injection Hc as <- <-. split; [done|]. split; [done|]. intros l' [= <-]. by destruct (ui_cache _ _ _ _ Hi _ Ei).
  - rewrite (ui_epoch_ok _ _ _ _ Hi) in Hc. destruct (load_last d id v e io) as [d1 r1] eqn:El.
    destruct (load_own _ _ _ _ _ _ _ _ El Hi Hv) as (Hi1 & Hr & Hv1 & Hx & Hp).
    destruct r1 as [l|]; injection Hc as <- <-; [|done]. cbn [set_index set_epochs da_index da_env].
    split; [|split; [done|]].
    + destruct Hi1 as [He Hch Hf _ Hl Hg Hk]. split; try done. cbn [set_index set_epochs da_index da_epochs].
      intros l'. rewrite !lookup_insert_eq. intros [= <-]. destruct (Hr l eq_refl) as [? ?]. done.
    + intros l' [= <-]. rewrite lookup_insert_eq. split; [by apply Hr|done].
Qed.

Lemma cached_other d id id2 v io d' r e hist :
  cached_last d id2 v io = (d', r) -> id2 <> id -> anchors_inv d id e hist -> anchors_inv d' id e hist.
Proof.
  intros Hc Hne Hi. unfold AnchorUser.cached_last in Hc. destruct (da_index d !! id2) as [l|]; [by injection Hc as <- _|].
  destruct (load_last d id2 v _ io) as [d1 r1] eqn:El. destruct (load_other _ _ _ _ _ _ _ _ _ _ El Hne Hi) as (Hi1 & Hx & Hp).
  destruct r1 as [l|]; injection Hc as <- _; [|done].
  apply (inv_frame d1 _ id e hist []); try done; cbn [set_index set_epochs da_index da_epochs da_env]; [by rewrite app_nil_r|..];
    by rewrite lookup_insert_ne.
Qed.

Lemma set_backoff_inv d b id e hist : anchors_inv d id e hist -> anchors_inv (set_backoff d b) id e hist.
Proof. intros Hi. apply (inv_frame d _ id e hist []); try done. by rewrite app_nil_r. Qed.

Lemma accept_other d v s last io d' r id e hist :
  accept shake256 to_vec d v s last io = (d', r) -> an_project_id s <> id -> anchors_inv d id e hist -> anchors_inv d' id e hist.
Proof.
  intros Ha Hne Hi. unfold accept in Ha. destruct (accept_checks v s last); [|by injection Ha as <- _].
  destruct (append_event _ _ d s _ _ _) as [d1 a] eqn:Eap.
  destruct (append_keeps _ _ _ _ _ _ _ id e hist Eap Hi) as (Hi1 & Hfx & _); [done|].
  destruct (write_file _ a _) as [d3 r3] eqn:Ew. injection Ha as <- _.
  refine (proj1 (write_keeps _ _ _ _ _ id e hist Ew _ _)); [|rewrite Hfx; cbn [seal ac_statement]; congruence].
  apply (inv_frame d1 _ id e hist []); try done; cbn [set_index da_index]; [by rewrite app_nil_r|]. by rewrite lookup_insert_ne.
Qed.

(** Checks that pass make the statement the next one. *)
Lemma accept_checks_ok v s last :
  accept_checks v s last = Ok tt -> snext (ac_statement <$> last) s.
Proof.
  unfold accept_checks. intros Hc. destruct (negb (an_seq s =? _)) eqn:E1; [done|]. cbn in Hc.
  destruct (negb (bool_decide _)) eqn:E2; [done|]. cbn in Hc. apply negb_false_iff in E1, E2. apply N.eqb_eq in E1.
  apply bool_decide_eq_true in E2. destruct last as [l|]; cbn in E2 |- *; [|done].
  destruct (an_head_seq s <? _) eqn:E3; [done|]. cbn in Hc. destruct (negb _) eqn:E4; [done|].
  apply N.ltb_ge in E3. apply negb_false_iff, N.eqb_eq in E4. done.
Qed.

Lemma accept_own d v s last0 io d' r id e hist :
  accept shake256 to_vec d v s last0 io = (d', r) -> an_project_id s = id -> ui_record io = Ok tt -> anchors_inv d id e hist ->
  ac_statement <$> last0 = last hist -> da_index d !! id = Some last0 -> is_Some (parse_rfc3339 (an_at s)) -> known d id s ->
  (anchors_inv d' id e hist /\ exists x, r = Err x) \/
  (anchors_inv d' id e (hist ++ [s]) /\ exists a, r = Ok a /\ ac_statement a = s).
Proof.
  intros Ha Hid Hio Hi Hlast Hix Hat Hk. unfold accept in Ha. destruct (accept_checks v s last0) as [[]|x] eqn:Ec.
  2: { injection Ha as <- <-. left. eauto. }
  right. apply accept_checks_ok in Ec. rewrite Hlast in Ec.
  destruct (ui_cache _ _ _ _ Hi _ Hix) as (_ & Hep & _). rewrite Hid, Hep in Ha. cbn [default] in Ha.
  destruct (append_event _ _ d s _ _ _) as [d1 a] eqn:Eap.
  destruct (appended_event _ _ _ _ _ _ _ Eap) as (ev & c & Eev & Hsrc & Hst & Hepo & Ea & ->).
  assert (ac_statement a = s) as Hsa by (by rewrite Ea).
  unfold write_file in Ha. rewrite Hio, Hsa in Ha. injection Ha as <- <-. split; [|eauto].
  destruct Hi as [He Hc Hf Hc' Hl Hg Hkn].
  assert (current_view (da_env (set_chain d c)) = current_view (da_env d)) as Hv.
  { apply (view_same (da_env d) _ [ev]); try done. constructor; [by rewrite Hsrc|done]. }
  apply set_markers_inv. split.
  - change (events_of _) with (lc_events c). rewrite Eev, epoch_same; [done|by constructor].
  - change (events_of _) with (lc_events c). rewrite Eev. intros x y Hin Hxy. apply elem_of_app in Hin as [Hin|Hin]; apply elem_of_app.
    + left. by apply (Hc x).
    + apply list_elem_of_singleton in Hin as ->. destruct (Hst _ _ _ Hxy) as [-> _]. right. by left.
  - rewrite last_snoc. cbn [set_records set_index set_chain set_env da_records]. rewrite Hid, lookup_insert_eq.
    exists (ac_user_seq a), (ac_user_event_hash a). f_equal. f_equal. exact Ea.
  - cbn [set_records set_index set_chain set_env da_index da_epochs]. intros l. rewrite lookup_insert_eq. intros [= <-].
    rewrite last_snoc. split; [cbn; by rewrite Hsa|]. split; [done|]. intros a' [= <-]. unfold sealed. rewrite Hsa. exact Ea.
  - apply slinked_snoc. split; [done|]. by destruct (last hist).
  - apply Forall_app. split; [done|]. by constructor.
  - intros x. rewrite last_snoc. intros [= <-]. intros w Hw. apply Hk. rewrite <- Hv. exact Hw.
Qed.

(** A statement under a certificate in force is known. *)
Lemma in_force_known d v s now pk :
  current_view (da_env d) = Ok v -> check_in_force cert_text ident_text issue_text d v s now = Ok pk -> anchor_verify s pk = Ok tt ->
  known d (an_project_id s) s.
Proof.
  intros Hv Hc Hs v' Hv'. rewrite Hv in Hv'. injection Hv' as <-. unfold check_in_force in Hc.
  destruct (is_revoked v _ _) eqn:Er; [done|]. pose proof (current_cert_spec v (an_project_id s)) as Hcc.
  destruct (current_cert v (an_project_id s)) as [c|]; [|done]. destruct Hcc as (Hin & _ & _).
  destruct (negb (String.eqb _ _)) eqn:Ek; [done|]. apply negb_false_iff, String.eqb_eq in Ek.
  destruct (user_history _) as [hh|]; [|done]. destruct (verify_cert_historic c hh); [|done].
  destruct (match pc_expires_at c ≫= parse_rfc3339 with Some _ => _ | None => _ end); [done|]. destruct (negb (an_cert_serial s =? _)); [done|].
  destruct (hex_decode_n 32 (pc_project_pubkey c)) as [pk'|] eqn:Ep; [|done]. injection Hc as ->. split.
  - unfold statement_ok. apply existsb_exists. exists c. split; [by apply list_elem_of_In|]. by rewrite Ek, String.eqb_refl, Ep, Hs.
  - unfold is_compromised, is_revoked in *. by rewrite Er.
Qed.

Lemma structural_at s now : structural s now = Ok tt -> is_Some (parse_rfc3339 (an_at s)).
Proof.
  unfold structural. intros Hs. repeat (match type of Hs with context [let? _ := ?x in _] => destruct x; [|done] end).
  by destruct (parse_rfc3339 (an_at s)).
Qed.

(** What passes the checks before the lock *)
Lemma submit_prechecks d s now io d' r :
  submit_anchor d s now io = (d', r) ->
  (d' = d /\ exists x, r = Err x) \/
  exists v, current_view (da_env d) = Ok v /\ known d (an_project_id s) s /\ is_Some (parse_rfc3339 (an_at s)) /\
    match cached_last d (an_project_id s) v io with
    | (d1, Err x) => (d1, Err x)
    | (d1, Ok last) => submit_locked shake256 to_vec d1 v s last now io
    end = (d', r).
Proof.
  unfold AnchorUser.submit_anchor. intros Hs. destruct (structural s now) as [[]|x] eqn:Est; [|injection Hs as <- <-; left; eauto].
  unfold view_of_daemon in Hs. destruct (current_view (da_env d)) as [v|x] eqn:Ev; [|injection Hs as <- <-; left; eauto].
  destruct (check_in_force _ _ _ d v s now) as [pk|x] eqn:Ec; [|injection Hs as <- <-; left; eauto].
  destruct (anchor_verify s pk) as [[]|x] eqn:Ea; [|injection Hs as <- <-; left; eauto]. right. exists v. split; [done|].
  split; [by eapply in_force_known|]. split; [by eapply structural_at|done].
Qed.

Lemma submit_own d s now io d' r id e hist :
  submit_anchor d s now io = (d', r) -> an_project_id s = id -> ui_record io = Ok tt -> anchors_inv d id e hist ->
  exists hist', anchors_inv d' id e hist' /\ (hist' = hist \/ hist' = hist ++ [s]) /\
    (forall a, r = Ok a -> ac_statement a = s /\ last hist' = Some s) /\ (forall x, r = Err x -> hist' = hist).
Proof.
  intros Hs Hid Hio Hi. destruct (submit_prechecks _ _ _ _ _ _ Hs) as [(-> & x & ->)|(v & Hv & Hkn & Hat & Hrest)].
  { exists hist. split_and!; [done|by left|done|done]. }
  rewrite Hid in Hrest, Hkn. destruct (cached_last d id v io) as [d1 [last0|x]] eqn:Ec;
    destruct (cached_own _ _ _ _ _ _ _ _ Ec Hi Hv) as (Hi1 & Hv1 & Hl).
  2: { injection Hrest as <- <-. exists hist. split_and!; [done|by left|done|done]. }
  destruct (Hl last0 eq_refl) as [Hlast Hix]. assert (known d1 id s) as Hk1 by (unfold known; rewrite Hv1, <- Hv; exact Hkn).
  assert (forall d2 r2, submit_counted shake256 to_vec d1 v s last0 now io = (d2, r2) ->
    exists hist', anchors_inv d2 id e hist' /\ (hist' = hist \/ hist' = hist ++ [s]) /\
      (forall a, r2 = Ok a -> ac_statement a = s /\ last hist' = Some s) /\ (forall x, r2 = Err x -> hist' = hist)) as Hcount.
  { intros d2 r2 E. unfold submit_counted in E. destruct (accept _ _ d1 v s last0 io) as [d3 r3] eqn:Ea.
    destruct (accept_own _ _ _ _ _ _ _ id e hist Ea Hid Hio Hi1 Hlast Hix Hat Hk1) as [(Hi3 & x & ->)|(Hi3 & a & -> & Hsa)].
    - exists hist. split; [|split; [by left|]].
      + destruct x; injection E as <- <-; try done; by apply set_backoff_inv.
      + split; [intros a Ha; subst r2; by destruct x|done].
    - injection E as <- <-. exists (hist ++ [s]). split; [by apply set_backoff_inv|]. split; [by right|]. split; [|done].
      intros a' [= <-]. by rewrite last_snoc. }
  assert (forall d2 r2, submit_fresh shake256 to_vec d1 v s last0 now io = (d2, r2) ->
    exists hist', anchors_inv d2 id e hist' /\ (hist' = hist \/ hist' = hist ++ [s]) /\
      (forall a, r2 = Ok a -> ac_statement a = s /\ last hist' = Some s) /\ (forall x, r2 = Err x -> hist' = hist)) as Hfresh.
  { intros d2 r2 E. unfold submit_fresh in E. destruct (da_backoff d1 !! _ ≫= snd) as [until|]; [|by apply Hcount].
    destruct (now <? until)%Z; [|by apply Hcount]. injection E as <- <-. exists hist. split_and!; [done|by left|done|done]. }
  unfold submit_locked in Hrest. destruct last0 as [l|]; [|by apply Hfresh].
  case_bool_decide as Esl; [|by apply Hfresh]. injection Hrest as <- <-. exists hist. split; [|split; [by left|]].
  - rewrite Hio. apply set_markers_inv.
    destruct (ui_cache _ _ _ _ Hi1 _ Hix) as (_ & _ & Hseal). specialize (Hseal l eq_refl). unfold sealed in Hseal. rewrite Esl in Hseal.
    set (q := ac_user_seq l) in *. set (h := ac_user_event_hash l) in *. clearbody q h. subst l. destruct Hi1 as [He1 Hc1 Hf1 Hx1 Hl1 Hg1 Hk1']. split; try done.
    rewrite <- Hlast. cbn. exists q, h. rewrite Hid. by rewrite lookup_insert_eq.
  - split; [|done]. intros a [= <-]. split; [done|]. rewrite <- Hlast. cbn. by rewrite Esl.
Qed.

(** The accepted statements, repetitions of the last one aside *)
Definition note (hist : list ProjectAnchorStmt) (s : ProjectAnchorStmt) : list ProjectAnchorStmt :=
  if bool_decide (last hist = Some s) then hist else hist ++ [s].

Lemma submit_note d s now io d' r id e hist :
  submit_anchor d s now io = (d', r) -> an_project_id s = id -> ui_record io = Ok tt -> anchors_inv d id e hist ->
  match r with
  | Ok a => ac_statement a = s /\ anchors_inv d' id e (note hist s)
  | Err _ => anchors_inv d' id e hist
  end.
Proof.
  intros Hs Hid Hio Hi. destruct (submit_own _ _ _ _ _ _ _ _ _ Hs Hid Hio Hi) as (hist' & Hi' & Hcase & Hok & Herr). destruct r as [a|x].
  - destruct (Hok a eq_refl) as [Hsa Hl]. split; [done|]. unfold note. destruct Hcase as [->| ->]; [by rewrite bool_decide_eq_true_2|].
    rewrite bool_decide_eq_false_2; [done|]. intros El. pose proof (ui_linked _ _ _ _ Hi') as Hlk. apply slinked_snoc in Hlk as [_ (Hq & _)].
    rewrite El in Hq. lia.
  - by rewrite <- (Herr x eq_refl).
Qed.

Lemma submit_other d s now io d' r id e hist :
  submit_anchor d s now io = (d', r) -> an_project_id s <> id -> anchors_inv d id e hist -> anchors_inv d' id e hist.
Proof.
  intros Hs Hne Hi. destruct (submit_prechecks _ _ _ _ _ _ Hs) as [(-> & _)|(v & _ & _ & _ & Hrest)]; [done|].
  destruct (cached_last d _ v io) as [d1 last0] eqn:Ec. pose proof (cached_other _ _ _ _ _ _ _ _ _ Ec Hne Hi) as Hi1.
  destruct last0 as [last0|x]; [|by injection Hrest as <- _].
  assert (forall d2 r2, submit_counted shake256 to_vec d1 v s last0 now io = (d2, r2) -> anchors_inv d2 id e hist) as Hcount.
  { intros d2 r2 E. unfold submit_counted in E. destruct (accept _ _ d1 v s last0 io) as [d3 r3] eqn:Ea.
    pose proof (accept_other _ _ _ _ _ _ _ id e hist Ea Hne Hi1) as Hi3.
    destruct r3 as [a|x]; [|destruct x]; injection E as <- _; try done; by apply set_backoff_inv. }
  assert (forall d2 r2, submit_fresh shake256 to_vec d1 v s last0 now io = (d2, r2) -> anchors_inv d2 id e hist) as Hfresh.
  { intros d2 r2 E. unfold submit_fresh in E. destruct (da_backoff d1 !! _ ≫= snd) as [until|]; [|by eapply Hcount].
    destruct (now <? until)%Z; [by injection E as <- _|by eapply Hcount]. }
  unfold submit_locked in Hrest. destruct last0 as [l|]; [|by eapply Hfresh]. case_bool_decide as Esl; [|by eapply Hfresh].
  injection Hrest as <- _. destruct (write_file d1 l _) as [d4 r4] eqn:Ew.
  refine (proj1 (write_keeps _ _ _ _ _ id e hist Ew Hi1 _)). congruence.
Qed.

(** An acknowledgement is of the statement submitted. *)
Lemma submit_reply d s now io d' a : submit_anchor d s now io = (d', Ok a) -> ac_statement a = s.
Proof.
  intros Hs. destruct (submit_prechecks _ _ _ _ _ _ Hs) as [(_ & x & ?)|(v & _ & _ & _ & Hrest)]; [done|].
  destruct (cached_last d _ v io) as [d1 [last0|x]]; [|done].
  assert (forall d2, submit_counted shake256 to_vec d1 v s last0 now io = (d2, Ok a) -> ac_statement a = s) as Hcount.
  { intros d2 E. unfold submit_counted, accept in E. destruct (accept_checks v s last0) as [[]|x]; [|by destruct x].
    destruct (append_event _ _ d1 s _ _ _) as [d3 a3] eqn:Ea. apply appended_event in Ea as (_ & _ & _ & _ & _ & _ & Ea & _).
    destruct (write_file _ a3 _) as [d4 [u|x]]; [|by destruct x]. injection E as _ <-. by rewrite Ea. }
  assert (forall d2, submit_fresh shake256 to_vec d1 v s last0 now io = (d2, Ok a) -> ac_statement a = s) as Hfresh.
  { intros d2 E. unfold submit_fresh in E. destruct (da_backoff d1 !! _ ≫= snd) as [until|]; [|by eapply Hcount].
    destruct (now <? until)%Z; [done|by eapply Hcount]. }
  unfold submit_locked in Hrest. destruct last0 as [l|]; [|by eapply Hfresh]. case_bool_decide; [|by eapply Hfresh]. by injection Hrest as _ <-.
Qed.

End Runs.
