(* ===== verification/AnchorLife.v ===== *)
(** * Anchors through crashes and changes of identity

    The anchor operations of AnchorUser and the certificate operations of
    IdentityOps on one daemon: its chain is saved now and then, and a crash
    loses what was not saved and everything in memory. *)

From Stdlib Require Import Strings.String.
From S2P Require Import Prelude Codec Text Chain Delegation Canon KeyRotation Identity IdentityOps IdentityRuns AnchorProject AnchorUser AnchorRuns.

Local Open Scope string_scope.
Local Open Scope list_scope.
Local Open Scope N_scope.

Section Life.
Context `{CE : CanonEnv} `{IE : IdentityEnv} `{AS : AnchorSerde}.
Context `{CL : !CanonEnvLaws} `{EL : !Ed25519Laws} `{IL : !IdentityEnvLaws} `{AL : !AnchorSerdeLaws}.
Context (shake256 : bytes -> bytes) (to_vec : Json -> bytes) (cert_text : CertError -> string) (ident_text : IdentityError -> string)
  (issue_text : IssueError -> string).

Abbreviation submit_anchor := (submit_anchor shake256 to_vec cert_text ident_text issue_text).
Abbreviation cached_last := (cached_last shake256 to_vec).
Abbreviation load_last := (load_last shake256 to_vec).

Record Life := mkLife { lf_daemon : Daemon; lf_saved : LocalChain }.

Definition world (x : Life) : World := mkWorld (da_env (lf_daemon x)) (lf_saved x).

(** What a restart keeps *)
Definition forget (d : Daemon) : Daemon := mkDaemon (da_env d) (da_records d) (da_resets d) (da_markers d) ∅ ∅ ∅.

Definition fits (d : Daemon) : Prop := lenN (lc_events (ud_chain (da_env d))) + 2 < u64_mod.

(** ** The chain grows by anchors only *)

Definition anchor_op (op : ChainOp) : Prop :=
  match op with OpAppend _ _ _ s k _ => s = ANCHOR_SOURCE /\ k = KIND_ANCHOR | _ => False end.

Definition grows (n : nat) (d d' : Daemon) : Prop :=
  exists ops, (length ops <= n)%nat /\ Forall anchor_op ops /\
    da_env d' = set_state (da_env d) (foldl (chain_step shake256 to_vec) (ud_chain (da_env d)) ops) (ud_journal (da_env d)) (ud_files (da_env d)).

Lemma grows_same n d d' : da_env d' = da_env d -> grows n d d'.
Proof. intros E. exists []. split; [cbn; lia|]. split; [constructor|]. rewrite E. by destruct (da_env d). Qed.

Lemma grows_trans n m d1 d2 d3 : grows n d1 d2 -> grows m d2 d3 -> grows (n + m) d1 d3.
Proof.
  intros (o1 & L1 & F1 & E1) (o2 & L2 & F2 & E2). exists (o1 ++ o2). rewrite length_app. split; [lia|]. split; [by apply Forall_app|].
  rewrite E2, E1, foldl_app. done.
Qed.

Lemma grows_env n d d' d'' : grows n d d' -> da_env d'' = da_env d' -> grows n d d''.
Proof. intros (ops & ? & ? & E) E'. exists ops. by rewrite E', E. Qed.

Lemma grows_append d s rc e t d' a : append_event shake256 to_vec d s rc e t = (d', a) -> grows 1 d d'.
Proof.
  unfold append_event. destruct (local_append _ _ _ _ _ _ _ _ _) as [c ev] eqn:El. intros [= <- _].
  eexists [OpAppend _ _ _ ANCHOR_SOURCE KIND_ANCHOR _]. split; [done|]. split; [by constructor|]. cbn [foldl chain_step]. by erewrite (f_equal fst El).
Qed.

Lemma write_env d a w d' r : write_file d a w = (d', r) -> da_env d' = da_env d.
Proof. unfold write_file. by destruct w; intros [= <- _]. Qed.

Lemma grows_load d id v e io d' r : load_last d id v e io = (d', r) -> grows 1 d d'.
Proof.
  unfold AnchorUser.load_last. intros Hl. destruct (read_file d id v) as [d0 file] eqn:Er.
  destruct (read_file_frame _ _ _ _ _ Er) as (m & -> & _). set (d1 := set_markers d m) in *.
  destruct file as [f|]; [|injection Hl as <- _; by apply grows_same].
  destruct (negb _); [injection Hl as <- _; by apply grows_same|].
  destruct (match chain_best _ _ _ with Some _ => _ | None => _ end); [injection Hl as <- _; by apply grows_same|].
  destruct (is_compromised _ _ _); [injection Hl as <- _; by apply grows_same|].
  destruct (append_event _ _ d1 _ _ _ _) as [d2 fixed] eqn:Ea. destruct (write_file d2 fixed _) as [d3 r3] eqn:Ew.
  apply grows_append in Ea. apply write_env in Ew. destruct r3; injection Hl as <- _; exact (grows_env _ _ _ _ Ea Ew).
Qed.

Lemma grows_cached d id v io d' r : cached_last d id v io = (d', r) -> grows 1 d d'.
Proof.
  unfold AnchorUser.cached_last. intros Hc. destruct (da_index d !! id); [injection Hc as <- _; by apply grows_same|].
  destruct (load_last d id v _ io) as [d1 r1] eqn:El. apply grows_load in El. destruct r1; injection Hc as <- _; [|done].
  by apply (grows_env _ _ _ _ El).
Qed.

Lemma grows_counted d v s last now io d' r : submit_counted shake256 to_vec d v s last now io = (d', r) -> grows 1 d d'.
Proof.
  unfold submit_counted, accept. intros Hc. destruct (accept_checks v s last) as [[]|x].
  2: { destruct x; injection Hc as <- _; by apply grows_same. }
  destruct (append_event _ _ d s _ _ _) as [d1 a] eqn:Ea. apply grows_append in Ea.
  destruct (write_file _ a _) as [d2 w] eqn:Ew. apply write_env in Ew.
  destruct w as [u|x]; [|destruct x]; injection Hc as <- _; exact (grows_env _ _ _ _ Ea Ew).
Qed.

Lemma grows_submit d s now io d' r : submit_anchor d s now io = (d', r) -> grows 2 d d'.
Proof.
  intros Hs. destruct (submit_prechecks _ _ _ _ _ _ _ _ _ _ _ Hs) as [(-> & _)|(v & _ & _ & _ & Hrest)]; [by apply grows_same|].
  destruct (cached_last d _ v io) as [d1 last0] eqn:Ec. apply grows_cached in Ec.
  destruct last0 as [last0|x]; [|injection Hrest as <- _; apply (grows_trans 1 1 d d1); [done|by apply grows_same]].
  apply (grows_trans 1 1 d d1); [done|]. unfold submit_locked in Hrest.
  assert (forall d2 r2, submit_fresh shake256 to_vec d1 v s last0 now io = (d2, r2) -> grows 1 d1 d2) as Hfresh.
  { intros d2 r2 E. unfold submit_fresh in E. destruct (da_backoff d1 !! _ ≫= snd) as [until|]; [|by eapply grows_counted].
    destruct (now <? until)%Z; [injection E as <- _; by apply grows_same|by eapply grows_counted]. }
  destruct last0 as [l|]; [|by eapply Hfresh]. case_bool_decide; [|by eapply Hfresh]. injection Hrest as <- _.
  destruct (write_file d1 l _) as [d2 r2] eqn:Ew. apply grows_same. exact (write_env _ _ _ _ _ Ew).
Qed.

(** Anchors on the chain say nothing about identities. *)
Lemma identity_grow d d' n sv :
  grows n d d' -> identity_inv shake256 to_vec (mkWorld (da_env d) sv) ->
  lenN (lc_events (ud_chain (da_env d))) + N.of_nat n < u64_mod -> identity_inv shake256 to_vec (mkWorld (da_env d') sv).
Proof.
  intros (ops & Hn & Ho & ->) Hi Hroom. revert Hi Hroom. generalize (da_env d) as e. revert n Hn.
  induction Ho as [|op ops Hop _ IH]; intros n Hn e Hi Hroom; cbn [foldl]; [by destruct e|].
  destruct op as [now now' stamp s k p| | |]; try done. cbn [anchor_op] in Hop. destruct Hop as [-> ->]. cbn [length] in Hn. destruct n as [|n]; [lia|].
  set (op := OpAppend now now' stamp ANCHOR_SOURCE KIND_ANCHOR p).
  assert (IdentityRuns.room (mkWorld e sv)) as Hr by (unfold IdentityRuns.room; cbn [iw_env]; lia).
  assert (neutral_for SOURCE op) as Hneu by done.
  pose proof (identity_step_inv shake256 to_vec cert_text _ _ Hi (step_other shake256 to_vec cert_text _ op Hr Hneu)) as Hi1. cbn [iw_env iw_saved] in Hi1.
  set (e1 := set_state e _ _ _) in Hi1. apply (IH n ltac:(lia) e1 Hi1). unfold e1. cbn [set_state ud_chain].
  destruct (append_event_fields shake256 to_vec (ud_chain e) now now' stamp ANCHOR_SOURCE KIND_ANCHOR p None) as (ev & Hev & _).
  unfold op. cbn [chain_step]. unfold local_append. rewrite Hev, lenN_app. unfold lenN in *. cbn [length] in *. lia.
Qed.

(** ** What the journal knows of a statement *)

Definition journal_knows (e : CertEnv) (id : string) (s : ProjectAnchorStmt) : Prop :=
  exists c pk, CCert c ∈ journal_claims (ud_journal e) /\ pc_project_id c = id /\ pc_project_key_id c = an_project_key_id s /\
    hex_decode_n 32 (pc_project_pubkey c) = Some pk /\ is_ok (anchor_verify s pk) = true.

Definition not_revoked (e : CertEnv) (id : string) : Prop := forall k, JRevoke id k ∉ ud_journal e.

Lemma known_from_journal d sv id s :
  identity_inv shake256 to_vec (mkWorld (da_env d) sv) -> not_revoked (da_env d) id -> an_project_id s = id ->
  journal_knows (da_env d) id s -> known d id s.
Proof.
  intros Hi Hnr Hid (c & pk & Hc & Hci & Hck & Hpk & Hok) v Hv. destruct (view_of_journal _ _ _ v Hi Hv) as (Hrev & Hret & Hcer & _).
  split.
  - unfold statement_ok. apply existsb_exists. exists c. split.
    + apply list_elem_of_In. unfold all_certs. rewrite Hid. by apply Hcer.
    + by rewrite Hck, String.eqb_refl, Hpk, Hok.
  - unfold is_compromised. case_bool_decide as Hr; [|done]. cbn [andb]. apply negb_false_iff, bool_decide_eq_true. apply Hrev in Hr. apply Hret.
    unfold J, journal_claims in Hr |- *. cbn [iw_env] in Hr |- *. apply list_elem_of_bind in Hr as (r & Hr & Hin). apply list_elem_of_bind.
    exists r. split; [|done]. destruct r as [| | |]; cbn [record_claims] in Hr |- *; try (by apply elem_of_nil in Hr).
    + by apply list_elem_of_singleton in Hr.
    + rewrite !elem_of_cons in Hr |- *. destruct Hr as [[= <- <-]|[[=]|[[=]|[]%elem_of_nil]]]. auto.
    + exfalso. apply list_elem_of_singleton in Hr. injection Hr as <- <-. by apply (Hnr (an_project_key_id s)).
Qed.

Lemma journal_from_known d sv id s :
  identity_inv shake256 to_vec (mkWorld (da_env d) sv) -> an_project_id s = id -> known d id s -> journal_knows (da_env d) id s.
Proof.
  intros Hi Hid Hk. destruct (current_view_ok _ _ _ Hi) as [v Hv]. destruct (Hk v Hv) as [Hs _].
  destruct (view_of_journal _ _ _ v Hi Hv) as (_ & _ & Hcer & _). unfold statement_ok in Hs.
  apply existsb_exists in Hs as (c & Hc & Hb). apply list_elem_of_In in Hc. unfold all_certs in Hc. rewrite Hid in Hc. apply Hcer in Hc as [Hc Hci].
  apply andb_true_iff in Hb as [Hb1 Hb2]. apply String.eqb_eq in Hb1. destruct (hex_decode_n 32 _) as [pk|] eqn:Epk; [|done].
  by exists c, pk.
Qed.

(** ** Steps *)

(** One project is watched; it is never revoked for compromise and its anchors
    are not reset.  Every write of an anchor record on acceptance succeeds, the
    user key is not rotated. *)
Inductive life_step (id : string) : Life -> option ProjectAnchorStmt -> Life -> Prop :=
| ls_submit d sv s now io d' r :
    fits d -> ui_record io = Ok tt -> submit_anchor d s now io = (d', r) ->
    life_step id (mkLife d sv) (match r with Ok a => Some (ac_statement a) | Err _ => None end) (mkLife d' sv)
| ls_load d sv pid io d' r :
    fits d -> last_accepted shake256 to_vec d pid io = (d', r) -> life_step id (mkLife d sv) None (mkLife d' sv)
| ls_identity d sv e' sv' evs :
    identity_step shake256 to_vec cert_text (mkWorld (da_env d) sv) (mkWorld e' sv') ->
    lc_events (ud_chain e') = lc_events (ud_chain (da_env d)) ++ evs -> Forall (fun ev => ce_source ev <> ANCHOR_SOURCE) evs ->
    ud_user_key e' = ud_user_key (da_env d) -> not_revoked e' id ->
    life_step id (mkLife d sv) None (mkLife (set_env d e') sv')
| ls_restart d sv : life_step id (mkLife d sv) None (mkLife (forget d) sv)
| ls_crash d sv : life_step id (mkLife d sv) None (mkLife (forget (set_chain d sv)) sv).

Inductive lives (id : string) : Life -> list ProjectAnchorStmt -> Life -> Prop :=
| lives_refl x : lives id x [] x
| lives_step x acks y a z : lives id x acks y -> life_step id y a z -> lives id x (acks ++ option_list a) z.

(** A daemon that has certified and accepted nothing yet *)
Definition first_life (chain_id interval : N) (now now' : Z) (k : SigningKey) (m : gmap string Manifest) : Life :=
  let w := first_daemon shake256 to_vec chain_id interval now now' k m in
  mkLife (mkDaemon (iw_env w) ∅ ∅ ∅ ∅ ∅ ∅) (iw_saved w).

Record life_inv (id : string) (x : Life) (hist : list ProjectAnchorStmt) : Prop := mkLifeInv {
  li_identity : identity_inv shake256 to_vec (world x);
  li_anchors : anchors_inv (lf_daemon x) id 0 hist;
  li_revoked : not_revoked (da_env (lf_daemon x)) id;
  li_known : forall s, last hist = Some s -> journal_knows (da_env (lf_daemon x)) id s;
  li_epochs : Forall (fun ev => epoch_event id ev = None) (events_of (lf_daemon x));
}.

Lemma no_epochs evs id : Forall (fun ev => epoch_event id ev = None) evs -> current_epoch evs id = 0.
Proof. intros Hf. by rewrite <- (app_nil_l evs), epoch_same. Qed.

(** The anchors of a daemon whose chain and identity store changed otherwise *)
Lemma anchors_rebuild d d' id hist :
  anchors_inv d id 0 hist -> Forall (fun ev => epoch_event id ev = None) (events_of d') ->
  (forall ev, ev ∈ events_of d' -> ev ∈ events_of d \/ ce_source ev <> ANCHOR_SOURCE) ->
  ud_user_key (da_env d') = ud_user_key (da_env d) -> da_records d' = da_records d ->
  (da_index d' = ∅ \/ da_index d' = da_index d /\ da_epochs d' = da_epochs d) ->
  (forall s, last hist = Some s -> known d' id s) -> anchors_inv d' id 0 hist.
Proof.
  intros [He Hc Hf Hi Hl Hg Hk] Hep Hev Ek Er Ei Hk'. split; try done.
  - by apply no_epochs.
  - intros ev s Hin Hs. destruct (Hev ev Hin) as [Hin'|Hne]; [by apply (Hc ev)|]. unfold statement_event in Hs.
    destruct (String.eqb_spec (ce_source ev) ANCHOR_SOURCE); [done|]. done.
  - rewrite Er. destruct (last hist) as [s|]; [|done]. destruct Hf as (q & h & ->). exists q, h. unfold seal. by rewrite Ek.
  - intros l. destruct Ei as [->|[-> ->]]; [by rewrite lookup_empty|]. unfold sealed, seal in *. rewrite Ek. apply Hi.
Qed.

Lemma epoch_other id ev : ce_source ev <> ANCHOR_SOURCE -> epoch_event id ev = None.
Proof.
  intros Hne. unfold epoch_event. destruct (ce_payload ev); [|done]. cbn [mbind option_bind].
  destruct (String.eqb_spec (ce_source ev) ANCHOR_SOURCE); done.
Qed.

Lemma grows_epochs id n d d' :
  grows n d d' -> Forall (fun ev => epoch_event id ev = None) (events_of d) -> Forall (fun ev => epoch_event id ev = None) (events_of d').
Proof.
  intros (ops & _ & Ho & He). unfold events_of, chain_tail. cbn [Nat.eqb orb]. rewrite He. cbn [set_state ud_chain].
  generalize (ud_chain (da_env d)). clear He. induction Ho as [|op ops Hop _ IH]; intros c Hf; cbn [foldl]; [done|]. apply IH.
  destruct op as [now now' stamp s k p| | |]; try done. destruct Hop as [-> ->]. cbn [chain_step]. unfold local_append.
  destruct (append_event_fields shake256 to_vec c now now' stamp ANCHOR_SOURCE KIND_ANCHOR p None) as (ev & -> & _ & _ & Hs & Hk & _).
  apply Forall_app. split; [done|]. constructor; [|constructor]. unfold epoch_event. rewrite Hs, Hk. by destruct (ce_payload ev).
Qed.

(** A daemon that grew by anchors of which none is a reset *)
Lemma life_grow id x d' hist hist' n :
  life_inv id x hist -> grows n (lf_daemon x) d' ->
  lenN (lc_events (ud_chain (da_env (lf_daemon x)))) + N.of_nat n < u64_mod -> anchors_inv d' id 0 hist' ->
  (forall s, last hist' = Some s -> an_project_id s = id) -> life_inv id (mkLife d' (lf_saved x)) hist'.
Proof.
  intros [Hid Ha Hnr Hkn Hep] Hg Hroom Ha' Hpid. pose proof (grows_epochs id _ _ _ Hg Hep) as Hep'.
  pose proof (identity_grow _ _ _ _ Hg Hid Hroom) as Hid'. destruct Hg as (ops & _ & _ & He).
  assert (ud_journal (da_env d') = ud_journal (da_env (lf_daemon x))) as Ej by (by rewrite He).
  split; try done.
  - intros k. cbn [lf_daemon]. rewrite Ej. apply Hnr.
  - intros s Hs. cbn [lf_daemon]. apply (journal_from_known d' (lf_saved x)); [done|by apply Hpid|]. by apply (ui_known _ _ _ _ Ha').
Qed.

Lemma identity_last id x hist s : life_inv id x hist -> last hist = Some s -> an_project_id s = id.
Proof.
  intros Hi Hl. by destruct (proj1 (Forall_forall _ _) (ui_good _ _ _ _ (li_anchors _ _ _ Hi)) s (last_Some_elem_of _ _ Hl)).
Qed.

Lemma anchors_last d id e hist s : anchors_inv d id e hist -> last hist = Some s -> an_project_id s = id.
Proof. intros Hi Hl. by destruct (proj1 (Forall_forall _ _) (ui_good _ _ _ _ Hi) s (last_Some_elem_of _ _ Hl)). Qed.

(** A step and what it acknowledges for the project *)
Lemma life_step_inv id x a y hist :
  life_step id x a y -> life_inv id x hist ->
  life_inv id y (match a with Some s => if String.eqb (an_project_id s) id then note hist s else hist | None => hist end).
Proof.
  intros Hs Hi. destruct Hs as [d sv s now io d' r Hfit Hio Hsub|d sv pid io d' r Hfit Hla|d sv e' sv' evs Hst Hev Hsrc Hk Hnr|d sv|d sv].
  - assert (anchors_inv d' id 0 (match (match r with Ok a => Some (ac_statement a) | Err _ => None end) with
      | Some s => if String.eqb (an_project_id s) id then note hist s else hist | None => hist end)) as Ha'.
    { destruct (String.eqb_spec (an_project_id s) id) as [E|E].
      - pose proof (submit_note _ _ _ _ _ _ _ _ _ _ _ _ _ _ Hsub E Hio (li_anchors _ _ _ Hi)) as Hn.
        destruct r as [a|]; [|done]. destruct Hn as [-> Hn]. by rewrite E, String.eqb_refl.
      - pose proof (submit_other _ _ _ _ _ _ _ _ _ _ _ _ _ _ Hsub E (li_anchors _ _ _ Hi)) as Hn. destruct r as [a|]; [|done].
        rewrite (submit_reply _ _ _ _ _ _ _ _ _ _ _ Hsub). by destruct (String.eqb_spec (an_project_id s) id). }
    apply (life_grow id (mkLife d sv) d' hist _ 2 Hi); [by eapply grows_submit|exact Hfit|done|]. intros s'. by apply anchors_last with d' 0.
  - unfold last_accepted, view_of_daemon in Hla. destruct (current_view (da_env d)) as [v|] eqn:Ev; [|by injection Hla as <- _].
    assert (anchors_inv d' id 0 hist) as Ha'.
    { destruct (decide (pid = id)) as [->|Hne].
      - by destruct (cached_own _ _ _ _ _ _ _ _ _ _ Hla (li_anchors _ _ _ Hi) Ev).
      - by apply (cached_other _ _ _ _ _ _ _ _ _ _ _ Hla Hne (li_anchors _ _ _ Hi)). }
    apply (life_grow id (mkLife d sv) d' hist _ 1 Hi); [by eapply grows_cached|unfold fits in Hfit; cbn [lf_daemon]; lia|done|].
    intros s'. by apply anchors_last with d' 0.
  - destruct Hi as [Hid Ha Hnr0 Hkn Hep]. cbn [world lf_daemon lf_saved] in *.
    pose proof (identity_step_inv shake256 to_vec cert_text _ _ Hid Hst) as Hid'.
    pose proof (step_journal shake256 to_vec cert_text _ _ Hst) as Hj. cbn [iw_env] in Hj.
    assert (forall s, last hist = Some s -> journal_knows e' id s) as Hkn'.
    { intros s Hl. destruct (Hkn s Hl) as (c & pk & Hc & Hrest). exists c, pk. split; [|done].
      destruct Hj as [k ->]. unfold journal_claims in *. rewrite bind_app. apply elem_of_app. by left. }
    split; try done.
    + cbn [lf_daemon]. apply (anchors_rebuild d); try done.
      * change (events_of (set_env d e')) with (lc_events (ud_chain e')). rewrite Hev. apply Forall_app. split; [exact Hep|].
        eapply Forall_impl; [exact Hsrc|]. intros ev. apply epoch_other.
      * change (events_of (set_env d e')) with (lc_events (ud_chain e')). rewrite Hev. intros ev [?|Hin]%elem_of_app; [by left|right].
        by apply (proj1 (Forall_forall _ _) Hsrc).
      * by right.
      * intros s Hl. apply (known_from_journal _ sv'); [done|done|by eapply anchors_last|by apply Hkn'].
    + cbn [lf_daemon]. change (events_of (set_env d e')) with (lc_events (ud_chain e')). rewrite Hev. apply Forall_app. split; [exact Hep|].
      eapply Forall_impl; [exact Hsrc|]. intros ev. apply epoch_other.
  - destruct Hi as [Hid Ha Hnr0 Hkn Hep]. split; try done. apply (anchors_rebuild d); try done; [by left|by left|].
    intros s Hl. by apply (ui_known _ _ _ _ Ha).
  - destruct Hi as [Hid Ha Hnr0 Hkn Hep]. cbn [world lf_daemon lf_saved] in *.
    pose proof (identity_step_inv shake256 to_vec cert_text _ _ Hid (step_crash shake256 to_vec cert_text _)) as Hid'.
    destruct (ii_ext _ _ _ Hid) as [k Hk]. change (lc_events (ud_chain (da_env d)) = lc_events sv ++ k) in Hk.
    assert (forall ev, ev ∈ lc_events sv -> ev ∈ events_of d) as Hsub.
    { intros ev Hin. unfold events_of, chain_tail. cbn [Nat.eqb orb]. rewrite Hk. apply elem_of_app. by left. }
    split; try done.
    + apply (anchors_rebuild d); try done; [|intros ev Hin; left; by apply Hsub|by left|].
      * apply Forall_forall. intros ev Hin. by apply (proj1 (Forall_forall _ _) Hep), Hsub.
      * intros s Hl. apply (known_from_journal _ sv); [exact Hid'|exact Hnr0|by eapply anchors_last|exact (Hkn s Hl)].
    + apply Forall_forall. intros ev Hin. by apply (proj1 (Forall_forall _ _) Hep), Hsub.
Qed.

Lemma first_life_inv id chain_id interval now now' k m :
  life_inv id (first_life chain_id interval now now' k m) [].
Proof.
  pose proof (first_daemon_inv shake256 to_vec chain_id interval now now' k m) as Hi.
  assert (Forall (fun ev => ce_source ev <> ANCHOR_SOURCE) (lc_events (chain_new shake256 to_vec chain_id interval now now'))) as Hg.
  { unfold chain_new, local_append.
    destruct (append_event_fields shake256 to_vec (local_new chain_id interval) now now' None "chain" "genesis"
      (Some (JObj [("chain_id", json_num chain_id)])) None) as (ev & -> & _ & _ & Hs & _). constructor; [by rewrite Hs|constructor]. }
  assert (Forall (fun ev => epoch_event id ev = None) (events_of (lf_daemon (first_life chain_id interval now now' k m)))) as Hep.
  { eapply Forall_impl; [exact Hg|]. intros ev. apply epoch_other. }
  split; try done.
  - split; try done.
    + by apply no_epochs.
    + intros ev s Hin Hs. exfalso. pose proof (proj1 (Forall_forall _ _) Hg ev Hin) as Hne. unfold statement_event in Hs.
      by destruct (String.eqb_spec (ce_source ev) ANCHOR_SOURCE).
  - intros k'. apply not_elem_of_nil.
Qed.

(** What was acknowledged to a project, repetitions aside *)
Definition acknowledged (id : string) (acks : list ProjectAnchorStmt) : list ProjectAnchorStmt :=
  foldl note [] (filter (fun s => an_project_id s = id) acks).

Lemma lives_inv id x acks y : lives id x acks y -> life_inv id x [] -> life_inv id y (acknowledged id acks).
Proof.
  intros Hr Hi. induction Hr as [x|x acks y a z _ IH Hs]; [done|]. specialize (IH Hi). apply (life_step_inv _ _ _ _ _ Hs) in IH.
  unfold acknowledged. rewrite filter_app, foldl_app. fold (acknowledged id acks). destruct a as [s|]; [|exact IH].
  change (option_list (Some s)) with [s]. rewrite filter_cons, filter_nil. destruct (String.eqb_spec (an_project_id s) id) as [E|E].
  - by rewrite decide_True.
  - by rewrite decide_False.
Qed.

(** C39: The user daemon keeps one line of anchors per project.  The life of the
    daemon is made of submissions by anyone, certificate operations, restarts
    and crashes that lose the unsaved end of the chain and all memory, in which
    every write of an anchor record on acceptance succeeds, no key of the
    watched project is revoked, its anchors are not reset and the user key is
    not rotated (when the record cannot be written, a repeated statement is
    acknowledged all the same and a crash forgets it).  Then the statements it
    acknowledges to the project, repetitions of the last one aside, are numbered
    from one without gap, each carries the digest of the one before it, their
    heads never go back and are of one chain, and the daemon's last accepted
    statement is the last one it acknowledged. *)
Theorem anchors_survive chain_id interval now now' k m id acks x io d l :
  lives id (first_life chain_id interval now now' k m) acks x ->
  last_accepted shake256 to_vec (lf_daemon x) id io = (d, Ok l) ->
  let hist := acknowledged id acks in
  slinked None hist /\ ac_statement <$> l = last hist /\
  (forall n s, hist !! n = Some s -> an_seq s = N.of_nat n + 1).
Proof using CL EL IL AL.
  intros Hr Hl hist. pose proof (lives_inv _ _ _ _ Hr (first_life_inv id chain_id interval now now' k m)) as Hi. fold hist in Hi.
  pose proof (ui_linked _ _ _ _ (li_anchors _ _ _ Hi)) as Hlk. split; [done|]. split.
  - unfold last_accepted, view_of_daemon in Hl. destruct (current_view _) as [v|] eqn:Ev; [|done].
    destruct (cached_own _ _ _ _ _ _ _ _ _ _ Hl (li_anchors _ _ _ Hi) Ev) as (_ & _ & Hll). by destruct (Hll l eq_refl).
  - intros n s Hn. rewrite (slinked_seq _ _ _ _ Hlk Hn). lia.
Qed.

End Life.
