(* ===== verification/AnchorLink.v ===== *)
(** * Project and user daemon together

    The link of AnchorProject with the daemon of AnchorUser behind it, and
    messages that may be lost on the way there or on the way back. *)

From Stdlib Require Import Strings.String.
From S2P Require Import Prelude Codec Text Chain Delegation Canon KeyRotation Identity IdentityOps IdentityRuns AnchorProject AnchorUser AnchorRuns AnchorLife.

Local Open Scope string_scope.
Local Open Scope list_scope.
Local Open Scope N_scope.

(** What becomes of a submission: whether it arrives, whether the answer does,
    the daemon's clock and its writes *)
Record Fate := mkFate { fa_delivered : bool; fa_answered : bool; fa_now : Z; fa_io : UserIo }.

Section Link.
Context `{CE : CanonEnv} `{IE : IdentityEnv} `{AS : AnchorSerde}.
Context `{CL : !CanonEnvLaws} `{EL : !Ed25519Laws} `{IL : !IdentityEnvLaws} `{AL : !AnchorSerdeLaws}.
Context (shake256 : bytes -> bytes) (to_vec : Json -> bytes) (cert_text : CertError -> string) (ident_text : IdentityError -> string)
  (issue_text : IssueError -> string) (anchor_text : AnchorError -> string).

Abbreviation submit_anchor := (submit_anchor shake256 to_vec cert_text ident_text issue_text).
Abbreviation cached_last := (cached_last shake256 to_vec).
Abbreviation check_in_force := (check_in_force cert_text ident_text issue_text).

(** [handle] and [to_submit_error] *)
Definition answer (r : result Accepted AnchorError) : result AnchorAck AnchorSubmitError :=
  match r with Ok a => Ok (ack_of a) | Err e => Err (to_submit_error anchor_text e) end.

Definition wire_submit (l : Daemon * list Fate) (s : ProjectAnchorStmt)
  : (Daemon * list Fate) * option (result AnchorAck AnchorSubmitError) :=
  match l.2 with
  | [] => (l, None)
  | f :: fs =>
      if fa_delivered f then
        let '(d, r) := submit_anchor l.1 s (fa_now f) (fa_io f) in ((d, fs), if fa_answered f then Some (answer r) else None)
      else ((l.1, fs), None)
  end.

#[local] Instance wire : ParentTransport := {| Link := Daemon * list Fate; submit := wire_submit |}.

(** ** The daemon answers *)

(** The daemon can read and write, and does not hold the project back. *)
Definition willing (d : Daemon) (id : string) (io : UserIo) : Prop :=
  ui_load io = Ok tt /\ ui_record io = Ok tt /\ da_backoff d !! id ≫= snd = None.

(** So few refusals are counted that one more is answered like the others. *)
Definition patient (d : Daemon) (id : string) : Prop := (default (0, None) (da_backoff d !! id)).1 + 1 < BACKOFF_AFTER.

Lemma append_backoff d s rc e t d' a : append_event shake256 to_vec d s rc e t = (d', a) -> da_backoff d' = da_backoff d.
Proof. unfold append_event. destruct (local_append _ _ _ _ _ _ _ _ _). by intros [= <- _]. Qed.

Lemma cached_answers d id v io d' r :
  cached_last d id v io = (d', r) -> ui_load io = Ok tt -> (exists l, r = Ok l) /\ da_backoff d' = da_backoff d.
Proof.
  intros Hc Hw. unfold AnchorUser.cached_last in Hc. destruct (da_index d !! id) as [l|]; [injection Hc as <- <-; eauto|].
  unfold load_last in Hc. destruct (read_file d id v) as [d0 file] eqn:Er. destruct (read_file_frame _ _ _ _ _ Er) as (m & -> & _).
  set (d1 := set_markers d m) in *. set (ep := current_epoch _ _) in *.
  assert (forall best : option Accepted, (set_index (set_epochs d1 (<[id := ep]> (da_epochs d1))) (<[id := best]> (da_index d1)), Ok best) = (d', r) ->
    (exists l, r = Ok l) /\ da_backoff d' = da_backoff d) as Hbest by (intros best [= <- <-]; eauto).
  destruct file as [f|]; [|by eapply Hbest]. destruct (negb _); [by eapply Hbest|].
  destruct (match chain_best _ _ _ with Some _ => _ | None => _ end); [by eapply Hbest|]. destruct (is_compromised _ _ _); [by eapply Hbest|].
  destruct (append_event _ _ d1 _ _ _ _) as [d2 fixed] eqn:Ea. apply append_backoff in Ea. unfold write_file in Hc. rewrite Hw in Hc.
  injection Hc as <- <-. cbn. rewrite Ea. eauto.
Qed.

(** A statement that passes the checks before the lock *)
Definition sound (d : Daemon) (v : RevocationView) (s : ProjectAnchorStmt) (now : Z) : Prop :=
  structural s now = Ok tt /\ exists pk, check_in_force d v s now = Ok pk /\ anchor_verify s pk = Ok tt.

Lemma submit_reaches d v s now io e hist :
  anchors_inv d (an_project_id s) e hist -> current_view (da_env d) = Ok v -> sound d v s now -> willing d (an_project_id s) io ->
  exists d1 last0, submit_anchor d s now io = submit_locked shake256 to_vec d1 v s last0 now io /\
    ac_statement <$> last0 = last hist /\ da_backoff d1 = da_backoff d.
Proof.
  intros Hi Hv (Hst & pk & Hc & Ha) (Hl & Hr & _). unfold AnchorUser.submit_anchor, view_of_daemon. rewrite Hst, Hv, Hc, Ha.
  destruct (cached_last d (an_project_id s) v io) as [d1 r] eqn:Ec.
  destruct (cached_own _ _ _ _ _ _ _ _ _ _ Ec Hi Hv) as (_ & _ & Hlast). destruct (cached_answers _ _ _ _ _ _ Ec Hl) as [[l ->] Hb].
  exists d1, l. split; [done|]. split; [|done]. by destruct (Hlast l eq_refl).
Qed.

Lemma submit_accepts d v s now io e hist :
  anchors_inv d (an_project_id s) e hist -> current_view (da_env d) = Ok v -> sound d v s now -> willing d (an_project_id s) io ->
  snext (last hist) s ->
  exists d' a, submit_anchor d s now io = (d', Ok a) /\ ac_statement a = s /\ anchors_inv d' (an_project_id s) e (hist ++ [s]).
Proof.
  intros Hi Hv Hs Hw Hn. destruct (submit_reaches _ _ _ _ _ _ _ Hi Hv Hs Hw) as (d1 & last0 & Hsub & Hlast & Hb).
  destruct Hw as (_ & Hr & Hbo). pose proof Hn as (Hq & Hp & Hh). rewrite <- Hlast in Hq, Hp, Hh.
  assert (accept_checks v s last0 = Ok tt) as Hck.
  { unfold accept_checks. destruct last0 as [l|]; cbn in Hq, Hp, Hh; rewrite Hq, N.eqb_refl; cbn [negb throw_if fmap option_fmap option_map];
      rewrite bool_decide_eq_true_2 by done; [|done]. destruct Hh as [Hh1 Hh2]. cbn [negb throw_if].
    rewrite (proj2 (N.ltb_ge _ _)) by done. by rewrite Hh2, N.eqb_refl. }
  assert (match last0 with Some l => bool_decide (ac_statement l = s) | None => false end = false) as Hnew.
  { destruct last0 as [l|]; [|done]. apply bool_decide_eq_false_2. intros E. cbn in Hq. rewrite E in Hq. lia. }
  assert (exists d2 a, submit_anchor d s now io = (d2, Ok a)) as (d2 & a & Hok).
  { rewrite Hsub. unfold submit_locked, submit_fresh, submit_counted, accept. rewrite Hb, Hbo, Hck.
    destruct last0 as [l|]; [rewrite Hnew|]; destruct (append_event _ _ d1 s _ _ _) as [d3 a3]; unfold write_file; rewrite Hr; eauto. }
  pose proof (submit_note _ _ _ _ _ _ _ _ _ _ _ _ _ _ Hok eq_refl Hr Hi) as [Hsa Hi']. exists d2, a. split_and!; [done|done|].
  unfold note in Hi'. rewrite bool_decide_eq_false_2 in Hi'; [done|]. intros E. rewrite Hlast in Hq. rewrite E in Hq. lia.
Qed.

(** A statement with the number of the last one is refused, with that one. *)
Lemma submit_resyncs d v s s0 now io e hist :
  anchors_inv d (an_project_id s) e hist -> current_view (da_env d) = Ok v -> sound d v s now -> willing d (an_project_id s) io ->
  patient d (an_project_id s) -> last hist = Some s0 -> an_seq s = an_seq s0 -> s <> s0 ->
  exists d' l ks, submit_anchor d s now io = (d', Err (ASeq (an_seq s) (an_seq s0 + 1) (Some (mkResync l ks)))) /\
    ac_statement l = s0 /\ anchors_inv d' (an_project_id s) e hist /\ willing d' (an_project_id s) io.
Proof.
  intros Hi Hv Hs Hw Hbn Hl Hq Hne. destruct (submit_reaches _ _ _ _ _ _ _ Hi Hv Hs Hw) as (d1 & last0 & Hsub & Hlast & Hb).
  destruct Hw as (Hlo & Hr & Hbo). rewrite Hl in Hlast. destruct last0 as [l|]; [|done]. injection Hlast as Hls.
  set (ks := history_keys v (an_project_id s)).
  assert (accept_checks v s (Some l) = Err (ASeq (an_seq s) (an_seq s0 + 1) (Some (mkResync l ks)))) as Hck.
  { unfold accept_checks. rewrite Hls. by rewrite (proj2 (N.eqb_neq _ _)) by lia. }
  set (d2 := set_backoff d1 (count_refusal (da_backoff d1) (an_project_id s) now)).
  assert (submit_anchor d s now io = (d2, Err (ASeq (an_seq s) (an_seq s0 + 1) (Some (mkResync l ks))))) as Hres.
  { rewrite Hsub. unfold submit_locked, submit_fresh, submit_counted, accept. rewrite Hls, bool_decide_eq_false_2 by done.
    by rewrite Hb, Hbo, Hck. }
  exists d2, l, ks. split; [done|]. split; [done|]. split.
  - exact (submit_note _ _ _ _ _ _ _ _ _ _ _ _ _ _ Hres eq_refl Hr Hi).
  - split; [done|]. split; [done|]. unfold d2. cbn [set_backoff da_backoff]. unfold count_refusal. rewrite Hb. unfold patient in Hbn.
    destruct (da_backoff d !! an_project_id s) as [[n u]|]; cbn [from_option id mbind option_bind snd fst] in Hbo, Hbn |- *;
      rewrite lookup_insert_eq; cbn [mbind option_bind snd]; rewrite ?Hbo; by rewrite wrap_add32_small, (proj2 (N.leb_gt _ _)) by (unfold BACKOFF_AFTER, u32_mod in *; lia).
Qed.

Lemma submit_repeats d v s now io e hist :
  anchors_inv d (an_project_id s) e hist -> current_view (da_env d) = Ok v -> sound d v s now -> willing d (an_project_id s) io ->
  last hist = Some s ->
  exists d' a, submit_anchor d s now io = (d', Ok a) /\ ac_statement a = s /\ anchors_inv d' (an_project_id s) e hist.
Proof.
  intros Hi Hv Hs Hw Hl. destruct (submit_reaches _ _ _ _ _ _ _ Hi Hv Hs Hw) as (d1 & last0 & Hsub & Hlast & _).
  rewrite Hl in Hlast. destruct last0 as [l|]; [|done]. injection Hlast as Hls.
  assert (submit_anchor d s now io = ((write_file d1 l (ui_record io)).1, Ok l)) as Hok.
  { rewrite Hsub. unfold submit_locked. by rewrite bool_decide_eq_true_2. }
  destruct Hw as (_ & Hr & _). pose proof (submit_note _ _ _ _ _ _ _ _ _ _ _ _ _ _ Hok eq_refl Hr Hi) as [Hsa Hi'].
  eexists _, l. split; [exact Hok|]. split; [done|]. unfold note in Hi'. by rewrite bool_decide_eq_true_2 in Hi'.
Qed.

(** ** The project asks *)

Definition pubkey_of (p : ParentAnchor) : bytes := vk_to_bytes (verifying_key (pa_key p)).

(** The daemon holds a certificate in force for the project's key and serial. *)
Definition certified (d : Daemon) (v : RevocationView) (p : ParentAnchor) (now : Z) : Prop :=
  forall s, an_project_id s = pa_project_id p -> an_project_key_id s = key_id (pubkey_of p) -> an_cert_serial s = pa_cert_serial p ->
    check_in_force d v s now = Ok (pubkey_of p).

(** An event whose hash and rule hash are digests *)
Definition digested (e : ChainEvent) : Prop :=
  length (ce_hash e) = 32%nat /\ forall r, ce_rule_hash e = Some r -> length r = 32%nat.

Lemma hex32 b n : length b = n -> is_lower_hex (hex_string b) (n * 2) = true.
Proof. intros <-. apply hex_string_is_lower. Qed.

Lemma anchor_hash_hex s : is_lower_hex (anchor_hash s) 64 = true.
Proof. apply (hex32 _ 32), sha256_length. Qed.

Lemma build_sound p last e now d v dn :
  validate_id (pa_project_id p) = true -> digested e -> time_ok now -> (whole_secs now <= dn + MAX_AHEAD_SECS * 1000000000)%Z ->
  certified d v p dn -> sound d v (build p last e now) dn.
Proof.
  intros Hid [Hh Hr] Ht Hdn Hc. set (s := build p last e now).
  assert (is_lower_hex (an_head_hash s) 64 = true) as Hhh by (by apply (hex32 _ 32)).
  assert (is_lower_hex (an_rule_hash s) 64 = true) as Hrh.
  { apply (hex32 _ 32). destruct (ce_rule_hash e) as [r|]; [by apply Hr|done]. }
  assert (forall q, an_prev_anchor s = Some q -> is_lower_hex q 64 = true) as Hp.
  { intros q. cbn. destruct last; [|done]. intros [= <-]. apply anchor_hash_hex. }
  split.
  - unfold structural. change (an_project_id s) with (pa_project_id p). rewrite Hid. cbn [negb throw_if]. unfold check_hex.
    assert (is_lower_hex (an_project_key_id s) 32 = true) as ->.
    { apply (hex32 _ 16). rewrite length_take, sha256_length. done. }
    assert (is_lower_hex (an_sig s) 128 = true) as -> by (apply (hex32 _ 64), sig_length).
    rewrite Hhh, Hrh. cbn [negb throw_if]. assert (match an_prev_anchor s with
      | Some q => throw_if (negb (is_lower_hex q 64)) (ABadStatement "`prev_anchor` is not 64 lowercase hex characters") | None => Ok tt end = Ok tt) as ->.
    { destruct (an_prev_anchor s) as [q|] eqn:Eq; [|done]. by rewrite (Hp q eq_refl). }
    change (an_at s) with (rfc3339_secs now). rewrite parse_rfc3339_secs by done. rewrite rfc3339_secs_floor, String.eqb_refl. cbn [negb].
    unfold whole_secs in Hdn. by rewrite (proj2 (Z.ltb_ge _ _)).
  - exists (pubkey_of p). split; [by apply Hc|]. by apply anchor_sign_verifies with now.
Qed.

(** How the two sides stand: in step, or the daemon one statement ahead because
    its answer was lost *)
Inductive agree (p : ParentAnchor) (hist : list ProjectAnchorStmt) : Prop :=
| in_step : rd_stmt <$> as_last (pa_state p) = last hist -> agree p hist
| answer_lost h0 s0 :
    hist = h0 ++ [s0] -> rd_stmt <$> as_last (pa_state p) = last h0 -> an_project_id s0 = pa_project_id p ->
    an_project_key_id s0 = key_id (pubkey_of p) -> anchor_verify s0 (pubkey_of p) = Ok tt ->
    has_head (pa_chain p) (an_head_seq s0) (an_head_hash s0) = true -> agree p hist.

(** What an outage does not break *)
Record ready (p : ParentAnchor) (d : Daemon) (v : RevocationView) (now : Z) (f1 f2 : Fate) (io : AnchorIo) : Prop := mkReady {
  rd_id : validate_id (pa_project_id p) = true;
  rd_chain : chain_ok shake256 to_vec (pa_chain p);
  rd_digests : Forall digested (lc_events (pa_chain p));
  rd_time : time_ok now;
  rd_ahead : (whole_secs now <= fa_now f1 + MAX_AHEAD_SECS * 1000000000 /\ whole_secs now <= fa_now f2 + MAX_AHEAD_SECS * 1000000000)%Z;
  rd_view : current_view (da_env d) = Ok v;
  rd_cert : certified d v p (fa_now f1) /\ certified d v p (fa_now f2);
  rd_willing : willing d (pa_project_id p) (fa_io f1) /\ ui_load (fa_io f2) = Ok tt /\ ui_record (fa_io f2) = Ok tt;
  rd_backoff : patient d (pa_project_id p);
  rd_arrives : fa_delivered f1 = true /\ fa_answered f1 = true /\ fa_delivered f2 = true /\ fa_answered f2 = true;
  rd_idle : pa_inflight p = 0;
  rd_writes : ai_write io = Ok tt /\ ai_rewrite io = Ok tt;
  rd_stamp : forall r, tk_stamp (ai_tick io) = Some r -> length r = 32%nat;
}.

Lemma wire_answers (p : ParentAnchor) d f fs s d' r :
  submit_anchor d s (fa_now f) (fa_io f) = (d', r) -> fa_delivered f = true -> fa_answered f = true -> pa_inflight p = 0 ->
  submit_bounded p (d, f :: fs) s = (p, (d', fs), answer r).
Proof.
  intros Hs Hd Ha Hi. unfold submit_bounded. rewrite Hi. cbn [N.ltb N.compare submit wire]. unfold wire_submit. cbn [fst snd].
  by rewrite Hd, Hs, Ha.
Qed.

(** Numbers on the project chain *)
Lemma head_last c e : head_event c = Ok e -> last (lc_events c) = Some e.
Proof.
  unfold head_event, chain_tail. destruct (last _) as [x|] eqn:El; [|done]. intros [= ->]. destruct (_ || _); [done|].
  rewrite <- (take_drop (length (lc_events c) - 1) (lc_events c)), last_app. by rewrite El.
Qed.

Lemma seq_below c e : chain_ok shake256 to_vec c -> e ∈ lc_events c -> ce_sequence e < lc_sequence c /\ ce_chain_id e = lc_chain_id c.
Proof.
  intros Hc (k & Hk)%list_elem_of_lookup. split; [|by apply (proj1 (Forall_forall _ _) (co_ids _ _ _ Hc)), list_elem_of_lookup_2 with k].
  rewrite (co_next _ _ _ Hc). pose proof (f_equal (fun l => l !! k) (co_seqs _ _ _ Hc)) as Hs. cbn in Hs.
  change (map ce_sequence (lc_events c)) with (ce_sequence <$> lc_events c) in Hs. rewrite list_lookup_fmap, Hk in Hs.
  change (map N.of_nat (seq 0 (length (lc_events c)))) with (N.of_nat <$> seq 0 (length (lc_events c))) in Hs.
  apply lookup_lt_Some in Hk. rewrite list_lookup_fmap, lookup_seq_lt in Hs by done. injection Hs as ->. unfold lenN. lia.
Qed.

(** Anchors leave the view of identities as it is. *)
Lemma grows_view n d d' :
  grows shake256 to_vec n d d' -> current_view (da_env d') = current_view (da_env d) /\ user_history (da_env d') = user_history (da_env d).
Proof.
  intros (ops & _ & Ho & He). split; [|by rewrite He]. assert (exists evs,
    lc_events (foldl (chain_step shake256 to_vec) (ud_chain (da_env d)) ops) = lc_events (ud_chain (da_env d)) ++ evs /\
    Forall (fun ev => ce_source ev <> SOURCE) evs) as (evs & Hevs & Hsrc).
  { clear He. generalize (ud_chain (da_env d)). induction Ho as [|op ops Hop _ IH]; intros c; cbn [foldl].
    { exists []. by rewrite app_nil_r. }
    destruct op as [now now' stamp s k p| | |]; try done. destruct Hop as [-> ->]. cbn [chain_step]. unfold local_append.
    destruct (append_event_fields shake256 to_vec c now now' stamp ANCHOR_SOURCE KIND_ANCHOR p None) as (ev & Hev & _ & _ & Hs & _).
    destruct (IH (append_with_key shake256 to_vec c now now' stamp ANCHOR_SOURCE KIND_ANCHOR p None).1) as (evs & Hevs & Hf).
    exists (ev :: evs). rewrite Hevs, Hev, <- app_assoc. split; [done|]. constructor; [by rewrite Hs|done]. }
  by apply (view_same (da_env d) _ evs); rewrite ?He.
Qed.

Lemma certified_same d d' v p now : user_history (da_env d') = user_history (da_env d) -> certified d v p now -> certified d' v p now.
Proof. intros E Hc s H1 H2 H3. rewrite <- (Hc s H1 H2 H3). unfold AnchorUser.check_in_force. by rewrite E. Qed.

(** The statement built for an uncovered head is the next one. *)
Lemma build_next p acc hist e now :
  rd_stmt <$> acc = last hist -> match acc with Some a => covered a e = false | None => True end ->
  (forall s, last hist = Some s -> an_chain_id s = ce_chain_id e) -> snext (last hist) (build p acc e now).
Proof.
  intros Hl Hc Hid. rewrite <- Hl in *. destruct acc as [a|]; [|done]. cbn [fmap option_fmap option_map] in *. split; [done|]. split; [done|].
  split; [|cbn; by rewrite (Hid _ eq_refl)]. unfold covered in Hc. apply orb_false_iff in Hc as [Hc _]. apply N.leb_gt in Hc. cbn. lia.
Qed.

(** A delivery that is acknowledged *)
Lemma deliver_acked p d f fs s now io d' a :
  submit_anchor d s (fa_now f) (fa_io f) = (d', Ok a) -> fa_delivered f = true -> fa_answered f = true -> pa_inflight p = 0 ->
  deliver shake256 to_vec p (d, f :: fs) s now io =
    ((record shake256 to_vec p s (ack_of a) (ai_tick io) (ai_remove io)).1, (d', fs), Ok (receipt_of (mkRecorded s (ack_of a)) now)) /\
  deliver_again shake256 to_vec p (d, f :: fs) s now io =
    ((record shake256 to_vec p s (ack_of a) (ai_tick' io) (ai_remove io)).1, (d', fs), Ok (receipt_of (mkRecorded s (ack_of a)) now)).
Proof.
  intros Hs Hd Ha Hi. unfold deliver, deliver_again. by rewrite (wire_answers p d f fs s d' (Ok a) Hs Hd Ha Hi).
Qed.

(** An acknowledgement that was lost is adopted. *)
Lemma adopt_lost p h0 s0 a t rm :
  slinked None (h0 ++ [s0]) -> rd_stmt <$> as_last (pa_state p) = last h0 -> an_project_id s0 = pa_project_id p ->
  an_project_key_id s0 = key_id (pubkey_of p) -> anchor_verify s0 (pubkey_of p) = Ok tt ->
  has_head (pa_chain p) (an_head_seq s0) (an_head_hash s0) = true ->
  adopt shake256 to_vec p (s0, a) t rm = ((record shake256 to_vec p s0 a t rm).1, Ok (mkRecorded s0 a)).
Proof.
  intros Hl Hlast Hid Hk Hv Hh. unfold adopt. rewrite Hid, String.eqb_refl. cbn [negb]. fold (pubkey_of p). rewrite Hk, String.eqb_refl, Hv, Hh.
  cbn [negb orb]. apply slinked_snoc in Hl as [_ (Hq & Hp & _)].
  assert (match as_last (pa_state p) with
    | Some o => (an_seq s0 =? an_seq (rd_stmt o) + 1) && bool_decide (an_prev_anchor s0 = Some (anchor_hash (rd_stmt o)))
    | None => (an_seq s0 =? 1) && bool_decide (an_prev_anchor s0 = None) end = true) as ->; [|done].
  rewrite <- Hlast in Hq, Hp. destruct (as_last (pa_state p)) as [o|]; cbn in Hq, Hp; by rewrite Hq, N.eqb_refl, bool_decide_eq_true_2.
Qed.

(** The event that records an acknowledgement is the new head. *)
Lemma record_head p s a t rm :
  (forall b, length (shake256 b) = 32%nat) -> (forall r, tk_stamp t = Some r -> length r = 32%nat) ->
  exists e, head_event (pa_chain (record shake256 to_vec p s a t rm).1) = Ok e /\ ce_sequence e = lc_sequence (pa_chain p) /\
    ce_chain_id e = lc_chain_id (pa_chain p) /\ digested e.
Proof.
  intros Hs Ht. unfold record. cbn [fst with_state with_pending with_chain pa_chain]. unfold local_append, append_with_key. cbn [fst].
  set (e := mkEvent _ _ _ _ _ _ _ _ _ _ _). exists e. split; [|split; [done|split; [done|split; [apply Hs|exact Ht]]]].
  unfold head_event, chain_tail. rewrite auto_checkpoint_events. cbn [lc_events]. destruct (_ || _); [by rewrite last_snoc|].
  rewrite length_app. cbn [length]. replace (_ + 1 - 1)%nat with (length (lc_events (pa_chain p))) by lia. by rewrite drop_app_length.
Qed.

(** What the project knows after an anchor of its head: the two sides are in
    step, unless the head was covered before and nothing was sent *)
Definition caught_up (p : ParentAnchor) (l : Daemon * list Fate) (x : ParentAnchor * (Daemon * list Fate) * result AnchorReceipt string)
  (head : ChainEvent) (e : N) (hist : list ProjectAnchorStmt) (now : Z) : Prop :=
  exists p' l' acc hist', x = (p', l', Ok (receipt_of acc now)) /\
    as_last (pa_state p') = Some acc /\ covered acc head = true /\ hist `prefix_of` hist' /\ rd_stmt acc ∈ hist' /\
    anchors_inv l'.1 (pa_project_id p') e hist' /\
    (last hist' = Some (rd_stmt acc) \/ p' = p /\ l' = l /\ hist' = hist /\ as_last (pa_state p) = Some acc).

Lemma caught_record p0 l0 p l' s a t rm head e hist hist' now :
  ce_sequence head <= an_head_seq s -> hist `prefix_of` hist' -> last hist' = Some s -> anchors_inv l'.1 (pa_project_id p) e hist' ->
  caught_up p0 l0 ((record shake256 to_vec p s a t rm).1, l', Ok (receipt_of (mkRecorded s a) now)) head e hist now.
Proof.
  intros Hh Hp Hl Hi. eexists _, l', (mkRecorded s a), hist'. split; [done|]. split; [done|]. split; [|split; [done|]].
  - unfold covered. cbn [rd_stmt]. by rewrite (proj2 (N.leb_le _ _)).
  - split; [by apply last_Some_elem_of|]. split; [done|]. by left.
Qed.

(** A second attempt after an adoption *)
Lemma resync_catches p0 l0 p d v f fs s0 a h0 now io e head :
  let p2 := (record shake256 to_vec p s0 a (ai_tick io) (ai_remove io)).1 in
  (forall b, length (shake256 b) = 32%nat) -> (forall r, tk_stamp (ai_tick io) = Some r -> length r = 32%nat) ->
  validate_id (pa_project_id p) = true -> time_ok now -> (whole_secs now <= fa_now f + MAX_AHEAD_SECS * 1000000000)%Z ->
  anchors_inv d (pa_project_id p) e (h0 ++ [s0]) -> current_view (da_env d) = Ok v -> certified d v p (fa_now f) ->
  willing d (pa_project_id p) (fa_io f) -> fa_delivered f = true -> fa_answered f = true -> pa_inflight p = 0 -> ai_rewrite io = Ok tt ->
  an_head_seq s0 < lc_sequence (pa_chain p) -> ce_sequence head < lc_sequence (pa_chain p) -> an_chain_id s0 = lc_chain_id (pa_chain p) ->
  exists head2, head_event (pa_chain p2) = Ok head2 /\
    caught_up p0 l0 (if covered (mkRecorded s0 a) head2 then (p2, (d, f :: fs), Ok (receipt_of (mkRecorded s0 a) now))
               else let s := build p2 (Some (mkRecorded s0 a)) head2 now in
                 match write_pending p2 s (ai_rewrite io) with
                 | (p, Err e) => (p, (d, f :: fs), Err e)
                 | (p, Ok _) => deliver_again shake256 to_vec p (d, f :: fs) s now io
                 end) head e (h0 ++ [s0]) now.
Proof.
  intros p2 Hsh Hst Hid Ht Hah Hi Hv Hc Hw Hdl Han Hfl Hrw Hs0 Hhd Hci.
  destruct (record_head p s0 a (ai_tick io) (ai_remove io) Hsh Hst) as (head2 & Hh2 & Hq2 & Hc2 & Hd2). fold p2 in Hh2. exists head2. split; [done|].
  destruct (covered (mkRecorded s0 a) head2) eqn:Ec.
  - apply caught_record with (h0 ++ [s0]); [|done|by rewrite last_snoc|done]. unfold covered in Ec. cbn [rd_stmt] in Ec.
    apply orb_true_iff in Ec as [Ec%N.leb_le|[Ec%N.eqb_eq _]%andb_true_iff]; lia.
  - cbn zeta. rewrite Hrw. cbn [write_pending]. set (s := build _ _ _ _).
    assert (sound d v s (fa_now f)) as Hso by (by apply build_sound).
    assert (snext (last (h0 ++ [s0])) s) as Hn.
    { apply build_next; [by rewrite last_snoc|done|]. rewrite last_snoc. intros x [= <-]. by rewrite Hci, Hc2. }
    destruct (submit_accepts d v s (fa_now f) (fa_io f) e (h0 ++ [s0]) Hi Hv Hso Hw Hn) as (d' & a' & Hsub & _ & Hi').
    destruct (deliver_acked (with_pending p2 (Some (Some s))) d f fs s now io d' a' Hsub Hdl Han Hfl) as [_ ->].
    apply caught_record with ((h0 ++ [s0]) ++ [s]); [|by eexists|by rewrite last_snoc|done].
    change (an_head_seq s) with (ce_sequence head2). lia.
Qed.

Lemma write_retry p s now (force : bool) l io :
  ai_write io = Ok tt -> force = true ->
  forall last e, s = build p last e now ->
  submit_new shake256 to_vec p l last e now force io = deliver shake256 to_vec (with_pending p (Some (Some s))) l s now io.
Proof.
  intros Hw -> last e ->. unfold submit_new. rewrite Hw. cbn [write_pending]. by destruct (as_retry_at _).
Qed.

(** A head that is not covered while the daemon is one statement ahead *)
Lemma lost_catches p d v f1 f2 fs now io head e h0 s0 :
  let s := build p (as_last (pa_state p)) head now in
  let q := with_pending p (Some (Some s)) in
  (forall b, length (shake256 b) = 32%nat) -> ready p d v now f1 f2 io -> anchors_inv d (pa_project_id p) e (h0 ++ [s0]) ->
  rd_stmt <$> as_last (pa_state p) = last h0 -> an_project_id s0 = pa_project_id p -> an_project_key_id s0 = key_id (pubkey_of p) ->
  anchor_verify s0 (pubkey_of p) = Ok tt -> has_head (pa_chain p) (an_head_seq s0) (an_head_hash s0) = true ->
  an_chain_id s0 = lc_chain_id (pa_chain p) -> ce_sequence head < lc_sequence (pa_chain p) -> sound d v s (fa_now f1) ->
  caught_up p (d, f1 :: f2 :: fs) (deliver shake256 to_vec q (d, f1 :: f2 :: fs) s now io) head e (h0 ++ [s0]) now.
Proof.
  intros s q Hsh Hr Hi Hl Hpid Hkid Hver Hhas Hci Hlt Hso.
  destruct (rd_arrives _ _ _ _ _ _ _ Hr) as (Hd1 & Ha1 & Hd2 & Ha2). destruct (rd_willing _ _ _ _ _ _ _ Hr) as (Hw & Hlo2 & Hre2).
  destruct (rd_ahead _ _ _ _ _ _ _ Hr) as [_ Hah2]. destruct (rd_cert _ _ _ _ _ _ _ Hr) as [_ Hc2].
  destruct (rd_writes _ _ _ _ _ _ _ Hr) as [_ Hrw]. pose proof (rd_idle _ _ _ _ _ _ _ Hr) as Hfl. pose proof (rd_view _ _ _ _ _ _ _ Hr) as Hv.
  assert (last (h0 ++ [s0]) = Some s0) as Hls by apply last_snoc. destruct (decide (s = s0)) as [Es|Es].
  - assert (last (h0 ++ [s0]) = Some s) as Hls' by (by rewrite Es). destruct (submit_repeats d v s (fa_now f1) (fa_io f1) e _ Hi Hv Hso Hw Hls') as (d' & a & Hsub & _ & Hi').
    destruct (deliver_acked q d f1 (f2 :: fs) s now io d' a Hsub Hd1 Ha1 Hfl) as [-> _]. by apply caught_record with (h0 ++ [s0]).
  - pose proof (ui_linked _ _ _ _ Hi) as Hlk. assert (an_seq s = an_seq s0) as Hq.
    { apply slinked_snoc in Hlk as [_ (Hq & _)]. rewrite Hq, <- Hl. by destruct (as_last (pa_state p)). }
    destruct (submit_resyncs d v s s0 (fa_now f1) (fa_io f1) e _ Hi Hv Hso Hw (rd_backoff _ _ _ _ _ _ _ Hr) Hls Hq Es)
      as (d' & l & ks & Hsub & Hsl & Hi' & Hw').
    destruct (grows_view 2 d d') as [Hv' Hu']; [by eapply grows_submit|]. rewrite Hv in Hv'.
    unfold deliver. rewrite (wire_answers q d f1 (f2 :: fs) s d' _ Hsub Hd1 Ha1 Hfl). cbn [answer]. unfold to_submit_error.
    cbn [resync_of fmap option_fmap option_map rs_last]. rewrite Hsl, (adopt_lost q h0) by done.
    destruct (resync_catches p (d, f1 :: f2 :: fs) q d' v f2 fs s0 (ack_of l) h0 now io e head) as (head2 & Hh2 & Hcu); try done.
    + apply Hr.
    + apply Hr.
    + apply Hr.
    + by apply (certified_same d).
    + split; [done|]. split; [done|]. apply Hw'.
    + destruct (has_head_spec _ _ _ s0 Hhas eq_refl eq_refl) as (ev & Hev & Hsq & _).
      change (an_head_seq s0 < lc_sequence (pa_chain p)). rewrite <- Hsq. by apply (seq_below _ _ (rd_chain _ _ _ _ _ _ _ Hr)).
    + by rewrite Hh2.
Qed.

(** C40: One call after an outage is enough.  The two sides are in step, or the
    daemon has accepted one statement more, about an event still on the project
    chain and under the project's present key, whose answer was lost; either
    side may have restarted, the project with a chain loaded from its events.
    The daemon has the project's certificate in force, its last statement is of
    this chain, it can read and write, does not hold the project back and has
    counted fewer than two refusals; the project's id, hashes (32 bytes) and
    clock (at most 300 s ahead, four-digit year) are well formed, no submission
    is in flight, its writes succeed, and two messages and answers arrive.
    Anchoring the head then ends with a receipt; the statement the project
    records covers the head and is one the daemon accepted, no earlier one is
    lost, and it is the daemon's last: the sides are in step, unless the head
    was covered before the call and nothing was sent. *)
Theorem anchor_catches_up p d v f1 f2 fs now io head e hist :
  (forall b, length (shake256 b) = 32%nat) -> ready p d v now f1 f2 io -> anchors_inv d (pa_project_id p) e hist -> agree p hist ->
  (forall s, last hist = Some s -> an_chain_id s = lc_chain_id (pa_chain p)) -> head_event (pa_chain p) = Ok head ->
  caught_up p (d, f1 :: f2 :: fs) (anchor_head_at shake256 to_vec p (d, f1 :: f2 :: fs) now true io) head e hist now.
Proof using CL EL IL AL.
  intros Hsh Hr Hi Hag Hci Hh. pose proof (head_event_in _ _ Hh) as Hin.
  destruct (seq_below _ _ (rd_chain _ _ _ _ _ _ _ Hr) Hin) as [Hlt Hcid].
  pose proof (proj1 (Forall_forall _ _) (rd_digests _ _ _ _ _ _ _ Hr) head Hin) as Hdig.
  destruct (rd_arrives _ _ _ _ _ _ _ Hr) as (Hd1 & Ha1 & Hd2 & Ha2). destruct (rd_willing _ _ _ _ _ _ _ Hr) as (Hw & Hlo2 & Hre2).
  destruct (rd_ahead _ _ _ _ _ _ _ Hr) as [Hah1 Hah2]. destruct (rd_cert _ _ _ _ _ _ _ Hr) as [Hc1 Hc2].
  destruct (rd_writes _ _ _ _ _ _ _ Hr) as [Hwr Hrw]. pose proof (rd_idle _ _ _ _ _ _ _ Hr) as Hfl.
  unfold anchor_head_at. rewrite Hh. unfold anchor_event.
  set (acc := as_last (pa_state p)) in *.
  destruct (match acc with Some a => covered a head | None => false end) eqn:Ecov.
  { destruct acc as [a|] eqn:Ea; [|done]. rewrite Ecov. exists p, (d, f1 :: f2 :: fs), a, hist. split_and!; try done; [|by right].
    destruct Hag as [Hl|h0 s0 -> Hl _ _ _ _]; rewrite <- ?Ea in Hl; fold acc in Hl; rewrite Ea in Hl.
    - by apply last_Some_elem_of.
    - apply elem_of_app. left. by apply last_Some_elem_of. }
  set (s := build p acc head now).
  replace (match acc with Some a => _ | None => _ end) with
    (deliver shake256 to_vec (with_pending p (Some (Some s))) (d, f1 :: f2 :: fs) s now io)
    by (rewrite <- (write_retry p s now true (d, f1 :: f2 :: fs) io Hwr eq_refl acc head eq_refl); destruct acc; [by rewrite Ecov|done]).
  pose proof (build_sound p acc head now d v (fa_now f1) (rd_id _ _ _ _ _ _ _ Hr) Hdig (rd_time _ _ _ _ _ _ _ Hr) Hah1 Hc1) as Hso.
  fold s in Hso. pose proof (rd_view _ _ _ _ _ _ _ Hr) as Hv.
  destruct Hag as [Hl|h0 s0 -> Hl Hpid Hkid Hver Hhas].
  - destruct (submit_accepts d v s (fa_now f1) (fa_io f1) e hist Hi Hv Hso Hw) as (d' & a & Hsub & _ & Hi').
    { apply build_next; [done|by destruct acc|]. intros x Hx. by rewrite (Hci x Hx). }
    destruct (deliver_acked (with_pending p (Some (Some s))) d f1 (f2 :: fs) s now io d' a Hsub Hd1 Ha1 Hfl) as [-> _].
    apply caught_record with (hist ++ [s]); [done|by eexists|by rewrite last_snoc|done].
  - apply (lost_catches p d v); try done. apply Hci, last_snoc.
Qed.

End Link.
