(* ===== verification/AnchorDemo.v ===== *)
(** * Anchors on concrete runs

    A toy serialisation and link with their laws; a project that is certified,
    anchors its chain, loses an answer and catches up; a crash of the user
    daemon; and the one way an acknowledged anchor is lost. *)

From Stdlib Require Import Strings.String.
From S2P Require Import Prelude Codec Text Chain Delegation Canon KeyRotation Identity IdentityOps IdentityRuns IdentityDemo AnchorProject AnchorUser AnchorRuns AnchorLife AnchorLink.

Local Open Scope string_scope.
Local Open Scope list_scope.
Local Open Scope N_scope.

Module ToyAnchor.
Import ToyIdentity.

(** The JSON of a statement, field by field; numbers of any size *)
Definition stmt_to (s : ProjectAnchorStmt) : Json :=
  JObj [("project_id", JStr (an_project_id s)); ("project_key_id", JStr (an_project_key_id s)); ("cert_serial", json_num (an_cert_serial s));
        ("seq", json_num (an_seq s)); ("chain_id", json_num (an_chain_id s)); ("head_hash", JStr (an_head_hash s));
        ("head_seq", json_num (an_head_seq s)); ("rule_hash", JStr (an_rule_hash s)); ("at", JStr (an_at s));
        ("prev_anchor", json_opt_str (an_prev_anchor s)); ("sig", JStr (an_sig s))].

Definition n_at (k : string) (j : Json) : option N :=
  match json_get k j with Some (JNum z) => Some (Z.to_N z) | _ => None end.

Definition stmt_of (j : Json) : option ProjectAnchorStmt :=
  id ← str_at "project_id" j; kid ← str_at "project_key_id" j; serial ← n_at "cert_serial" j; seq ← n_at "seq" j;
  chain ← n_at "chain_id" j; hh ← str_at "head_hash" j; hs ← n_at "head_seq" j; rule ← str_at "rule_hash" j;
  at_ ← str_at "at" j; sig ← str_at "sig" j;
  Some (mkAnchor id kid serial seq chain hh hs rule at_ (str_at "prev_anchor" j) sig).

#[export] Instance serde : AnchorSerde := {| stmt_to_value := stmt_to; stmt_from_value := stmt_of |}.

#[export] Instance serde_laws : @AnchorSerdeLaws serde.
Proof.
  split. intros [id kid serial seq chain hh hs rule at_ prev sig]. unfold stmt_from_value, stmt_to_value, serde, stmt_of, n_at, stmt_to, json_num.
  cbn -[Z.of_N Z.to_N]. rewrite !N2Z.id. by destruct prev.
Qed.

#[export] Instance ed_ok : @Ed25519Laws ed := ToyCanon.ed_laws.
#[export] Instance env_ok : @CanonEnvLaws ed env := ToyCanon.env_laws.
#[export] Instance ienv_ok : @IdentityEnvLaws ienv := ienv_laws.

(** A link that counts and acknowledges every second statement *)
#[export] Instance counting : ParentTransport := {|
  Link := N;
  submit n s := (n + 1, if N.even n then Some (Ok (mkAck (n mod u64_mod) "ack")) else None) |}.

#[export] Instance counting_typed : TransportTyped.
Proof.
  split; intros l s l'; cbn [submit counting].
  - intros a. destruct (N.even l); [|done]. intros [= _ <-]. cbn. apply N.mod_lt. done.
  - intros k m x ks. by destruct (N.even l).
Qed.

Definition tick (t : Z) : Tick := mkTick t t None.
Definition pio (t : Z) : AnchorIo := mkAnchorIo (Ok tt) (Ok tt) true (tick t) (tick t).
Definition uio (t : Z) : UserIo := mkUserIo (Ok tt) (Ok tt) (tick t) (tick t).
Definition full_io (t : Z) : UserIo := mkUserIo (Ok tt) (Err "disk full") (tick t) (tick t).

(** ** The project alone *)

Definition c0 : LocalChain := chain_new hash vec 2 0 5 5.

Definition first : PWorld := mkPWorld (new c0 x03 pid 1 parent_config_default None true) c0 0.

(** An anchor is acknowledged, the kernel shuts down, an event is lost in a
    crash, the next submission gets no answer and is repeated. *)
Definition ops : list POp :=
  [PAppend (tick 11) "agent" "spawn" None; PAnchorHead 12 true (pio 12); PRestart x03 1 true;
   PAppend (tick 13) "agent" "stop" None; PCrash x03 1 true; PAppend (tick 14) "agent" "stop" None;
   PAnchorHead 15 true (pio 15); PSubmitEnds; PRetry 10000000000000 (pio 16)].

Lemma ops_safe : crashes_safely hash vec first ops.
Proof.
  cbn [ops crashes_safely]. split_and!; try exact I. unfold crash_safe.
  assert (read_pending (pw_parent (pstep hash vec (pstep hash vec (pstep hash vec (pstep hash vec first
    (PAppend (tick 11) "agent" "spawn" None)) (PAnchorHead 12 true (pio 12))) (PRestart x03 1 true))
    (PAppend (tick 13) "agent" "stop" None))) = None) as -> by by_vm.
  discriminate.
Qed.

Lemma recorded_anchors_own_witness :
  let p := pw_parent (prun hash vec first ops) in
  let recs := anchored_of (pa_chain p) (pa_project_id p) in
  length recs = 2%nat /\
  (forall k a, recs !! k = Some a ->
     an_seq (rd_stmt a) = N.of_nat k + 1 /\
     an_prev_anchor (rd_stmt a) = match k with O => None | S k => anchor_hash ∘ rd_stmt <$> recs !! k end /\
     own_head (pa_chain p) (rd_stmt a)) /\
  as_last (pa_state p) = last recs /\ recover (pa_chain p) (pa_project_id p) = last recs.
Proof.
  split.
  - by_vm.
  - refine (recorded_anchors_own hash vec c0 c0 x03 pid 1 parent_config_default 0 ops _ _ ops_safe); by_vm.
Defined.

(** The kernel crashes while a statement waits about an event that was not
    saved: the retry sends and records it, about an event that is not on the
    chain. *)
Definition lossy : PWorld :=
  prun hash vec (mkPWorld (new c0 x03 pid 1 parent_config_default None true) c0 1)
    [PAppend (tick 11) "agent" "spawn" None; PAnchorHead 12 true (pio 12); PCrash x03 1 true; PRetry 10000000000000 (pio 16)].

Example crash_records_lost_event :
  match anchored_of (pa_chain (pw_parent lossy)) pid with
  | [a] => has_head (pa_chain (pw_parent lossy)) (an_head_seq (rd_stmt a)) (an_head_hash (rd_stmt a))
  | _ => true
  end = false.
Proof. by_vm. Qed.

(** ** The user daemon *)

Definition itext (e : IdentityError) : string := "".
Definition stext (e : IssueError) : string := "".
Definition atext (e : AnchorError) : string := "".

Abbreviation submit_stmt := (submit_anchor hash vec err itext stext).
Abbreviation life_step := (life_step hash vec err itext stext pid).

(** The daemon registers the project; the project signs its chain as it is
    then and after another event. *)
Definition x0 : Life := first_life hash vec 1 0 5 5 user manifests.
Definition x1 : Life := mkLife (set_env (lf_daemon x0) (iw_env w1)) (iw_saved w1).
Definition p0 : ParentAnchor := new c0 x03 pid 1 parent_config_default None true.
Definition c1 : LocalChain := (local_append hash vec c0 11 11 None "agent" "spawn" None).1.
Definition head_of (c : LocalChain) : ChainEvent :=
  List.last (lc_events c) (mkEvent 0 0 0 [] [] [] "" "" None None None).
Definition s0 : ProjectAnchorStmt := build p0 None (head_of c0) 12.
Definition x2 : Life := mkLife (submit_stmt (lf_daemon x1) s0 12 (uio 12)).1 (lf_saved x1).
Definition x3 : Life := mkLife (forget (set_chain (lf_daemon x2) (lf_saved x2))) (lf_saved x2).

Lemma accepted : is_ok (submit_stmt (lf_daemon x1) s0 12 (uio 12)).2 = true.
Proof. by_vm. Qed.

Definition not_anchor (e : ChainEvent) : bool := negb (String.eqb (ce_source e) ANCHOR_SOURCE).
Definition not_revoke (r : JournalRecord) : bool := match r with JRevoke _ _ => false | _ => true end.

Lemma no_anchors evs : forallb not_anchor evs = true -> Forall (fun e => ce_source e <> ANCHOR_SOURCE) evs.
Proof.
  intros Hf. apply Forall_forall. intros e He%list_elem_of_In. rewrite forallb_forall in Hf. specialize (Hf e He).
  unfold not_anchor in Hf. by destruct (String.eqb_spec (ce_source e) ANCHOR_SOURCE).
Qed.

Lemma no_revokes e id : forallb not_revoke (ud_journal e) = true -> not_revoked e id.
Proof. intros Hf k Hk%list_elem_of_In. rewrite forallb_forall in Hf. by specialize (Hf _ Hk). Qed.

Lemma life01 : life_step x0 None x1.
Proof.
  refine (ls_identity hash vec err itext stext pid (lf_daemon x0) (lf_saved x0) (iw_env w1) (iw_saved w1) (drop 1 (lc_events (ud_chain (iw_env w1)))) _ _ _ _ _).
  - exact step01.
  - by_vm.
  - apply no_anchors. by_vm.
  - by_vm.
  - apply no_revokes. by_vm.
Qed.

Lemma submitted d sv s now io :
  fits d -> ui_record io = Ok tt -> is_ok (submit_stmt d s now io).2 = true ->
  life_step (mkLife d sv) (Some s) (mkLife (submit_stmt d s now io).1 sv).
Proof.
  intros Hf Hio Hok. destruct (submit_stmt d s now io) as [d' r] eqn:E. destruct r as [a|]; [|done]. cbn [fst].
  rewrite <- (submit_reply _ _ _ _ _ _ _ _ _ _ _ E) at 1. exact (ls_submit hash vec err itext stext pid d sv s now io d' (Ok a) Hf Hio E).
Qed.

Lemma fits1 : fits (lf_daemon x1).
Proof. apply N.ltb_lt. by_vm. Qed.

Lemma life12 : life_step x1 (Some s0) x2.
Proof. exact (submitted (lf_daemon x1) (lf_saved x1) s0 12 (uio 12) fits1 eq_refl accepted). Qed.

Lemma crashed x : life_step x None (mkLife (forget (set_chain (lf_daemon x) (lf_saved x))) (lf_saved x)).
Proof. destruct x as [d sv]. exact (ls_crash hash vec err itext stext pid d sv). Qed.

Lemma life23 : life_step x2 None x3.
Proof. exact (crashed x2). Qed.

Lemma lived : lives hash vec err itext stext pid x0 [s0] x3.
Proof.
  exact (lives_step _ _ _ _ _ _ _ _ _ _ _ (lives_step _ _ _ _ _ _ _ _ _ _ _ (lives_step _ _ _ _ _ _ _ _ _ _ _ (lives_refl _ _ _ _ _ _ _) life01) life12) life23).
Qed.

Lemma anchors_survive_witness :
  exists d l, last_accepted hash vec (lf_daemon x3) pid (uio 20) = (d, Ok l) /\ ac_statement <$> l = Some s0.
Proof.
  assert (is_ok (last_accepted hash vec (lf_daemon x3) pid (uio 20)).2 = true) as Hok by by_vm.
  destruct (last_accepted hash vec (lf_daemon x3) pid (uio 20)) as [d [l|]] eqn:E; [|done]. exists d, l. split; [done|].
  destruct (anchors_survive hash vec err itext stext 1 0 5 5 (user : @SigningKey ed) manifests pid [s0] x3 (uio 20) d l lived E) as (_ & Hl & _).
  rewrite Hl. by_vm.
Defined.

(** ** Both sides *)

(** The answer to [s0] was lost; the project went on and restarted, the daemon
    crashed. *)
(** The project comes back with its chain loaded from the events. *)
Definition c2 : LocalChain := match chain_from_events hash vec (lc_events c1) 0 with Ok c => c | Err _ => c0 end.
Definition p2 : ParentAnchor := new c2 x03 pid 1 parent_config_default (Some (Some s0)) true.
Definition d3 : Daemon := lf_daemon x3.
Definition fate (t : Z) : Fate := mkFate true true t (uio t).

Definition cert_check (d : Daemon) (p : ParentAnchor) (now : Z) : bool :=
  match current_view (da_env d) with
  | Ok v => match check_in_force err itext stext d v (build p None (head_of c0) now) now with
            | Ok pk => bool_decide (pk = pubkey_of p)
            | Err _ => false
            end
  | Err _ => false
  end.

Lemma certified_check d v p now :
  current_view (da_env d) = Ok v -> cert_check d p now = true -> certified err itext stext d v p now.
Proof.
  intros Hv Hc s H1 H2 H3. unfold cert_check in Hc. rewrite Hv in Hc. set (b := build _ _ _ _) in Hc.
  assert (check_in_force err itext stext d v s now = check_in_force err itext stext d v b now) as ->.
  { unfold check_in_force. by rewrite H1, H2, H3. }
  destruct (check_in_force _ _ _ d v b now) as [pk|]; [|done]. by apply bool_decide_eq_true in Hc as ->.
Qed.

Definition digest_check (e : ChainEvent) : bool :=
  (length (ce_hash e) =? 32)%nat && match ce_rule_hash e with Some r => (length r =? 32)%nat | None => true end.

Lemma digests_check evs : forallb digest_check evs = true -> Forall digested evs.
Proof.
  intros Hf. apply Forall_forall. intros e He%list_elem_of_In. rewrite forallb_forall in Hf. specialize (Hf e He).
  apply andb_true_iff in Hf as [H1%Nat.eqb_eq H2]. split; [done|]. intros r Hr. rewrite Hr in H2. by apply Nat.eqb_eq.
Qed.

Lemma c1_inv : chain_inv hash vec c1.
Proof.
  apply (chain_step_inv hash vec (chain_new hash vec 2 0 5 5) (OpAppend 11 11 None "agent" "spawn" None)).
  - apply chain_new_inv.
  - apply N.ltb_lt. by_vm.
Qed.

Lemma c2_ok : chain_ok hash vec c2.
Proof.
  refine (proj1 (from_events_ok hash vec c1 (lc_events c1) [] 0 c2 (inv_ok _ _ _ c1_inv) _ (eq_sym (app_nil_r _)) _)).
  - apply N.ltb_lt. by_vm.
  - unfold c2. assert (match chain_from_events hash vec (lc_events c1) 0 with Ok _ => true | Err _ => false end = true) as Hok by by_vm.
    revert Hok. generalize (chain_from_events hash vec (lc_events c1) 0) as r. by intros [].
Qed.

Lemma ready2 v : current_view (da_env d3) = Ok v -> ready hash vec err itext stext p2 d3 v 20 (fate 20) (fate 20) (pio 20).
Proof.
  intros Hv. assert (certified err itext stext d3 v p2 20) as Hc by (apply (certified_check d3 v p2 20 Hv); by_vm).
  constructor.
  - by_vm.
  - exact c2_ok.
  - apply digests_check. by_vm.
  - split; vm_compute; congruence.
  - split; vm_compute; congruence.
  - exact Hv.
  - split; exact Hc.
  - unfold willing. split_and!; by_vm.
  - apply N.ltb_lt. by_vm.
  - split_and!; by_vm.
  - by_vm.
  - split; by_vm.
  - intros r Hr. discriminate Hr.
Qed.

Lemma agree2 : agree p2 (acknowledged pid [s0]).
Proof.
  refine (answer_lost p2 _ [] s0 _ _ _ _ _ _); [by_vm|by_vm|by_vm|by_vm| |by_vm].
  assert (match anchor_verify s0 (pubkey_of p2) with Ok _ => true | Err _ => false end = true) as Hv by by_vm.
  revert Hv. generalize (anchor_verify s0 (pubkey_of p2)) as r. by intros [[]|].
Qed.

Lemma anchor_catches_up_witness :
  caught_up p2 (d3, [fate 20; fate 20]) (anchor_head_at (H2 := wire hash vec err itext stext atext) hash vec p2 (d3, [fate 20; fate 20]) 20 true (pio 20))
    (head_of c1) 0 [s0] 20.
Proof.
  assert (acknowledged pid [s0] = [s0]) as <- by by_vm.
  pose proof (lives_inv hash vec err itext stext pid _ _ _ lived (first_life_inv hash vec pid 1 0 5 5 (user : @SigningKey ed) manifests)) as Hi.
  destruct (current_view_ok _ _ _ (li_identity _ _ _ _ _ Hi)) as [v Hv].
  refine (anchor_catches_up hash vec err itext stext atext p2 d3 v (fate 20) (fate 20) [] 20 (pio 20) (head_of c1) 0 _ _ (ready2 v Hv) _ agree2 _ _).
  - intros b. apply le_bytes_length.
  - exact (li_anchors _ _ _ _ _ Hi).
  - intros s. assert (last (acknowledged pid [s0]) = Some s0) as -> by by_vm. intros [= <-]. by_vm.
  - by_vm.
Defined.

(** ** An acknowledgement that does not last

    While the record file cannot be written the first submission is refused,
    but the same statement again is acknowledged.  After a crash before the
    chain was saved the daemon knows nothing of it and refuses the project's
    next statement. *)

Definition y1 : Daemon := (submit_stmt (lf_daemon x1) s0 12 (full_io 12)).1.
Definition y2 : Daemon := (submit_stmt y1 s0 13 (full_io 13)).1.
Definition y3 : Daemon := forget (set_chain y2 (lf_saved x1)).
Definition s1 : ProjectAnchorStmt := build p0 (Some (mkRecorded s0 (mkAck 2 ""))) (head_of c1) 14.

Example acked_not_durable :
  (submit_stmt (lf_daemon x1) s0 12 (full_io 12)).2 = Err (AStore "record accepted anchor: disk full") /\
  is_ok (submit_stmt y1 s0 13 (full_io 13)).2 = true /\
  (submit_stmt y3 s1 20 (uio 20)).2 = Err (ASeq 2 1 None).
Proof. split_and!; by_vm. Qed.

End ToyAnchor.
